(* ===== verification/_CoqProject ===== *)
-Q . S2P
Prelude.v
Net.v
PathCanon.v
Search.v
Patterns.v
IpParse.v
Order.v
Text.v
Base64.v
Secrets.v
SecretsFacts.v
SecretsTargets.v
SecretsHeaders.v
SecretsProperties.v
SecretsBody.v
SecretsBodyFacts.v
ProviderCredentials.v
ProviderCredentialsFacts.v
Destination.v
DnsStore.v
PolicyDns.v
PolicyTypes.v
PolicyMerge.v
PolicyMergeFacts.v
Ambiguity.v
AmbiguityFacts.v
HostController.v
HostSession.v
Supervision.v
HostControlFacts.v
PolicySchema.v
PolicyValidate.v
PolicyValidateFacts.v
OpaData.v
Rego.v
OpaEngine.v
Connect.v
OpaFacts.v
OpaRequests.v
OpaLifecycle.v
ConnectFacts.v
OpaSamples.v
Http.v
HttpEdit.v
HttpBody.v
ChunkedFacts.v
ChunkedBuffers.v
ChunkedScan.v
HttpFacts.v
HttpForward.v
HttpEditFacts.v
Middleware.v
MiddlewareFacts.v
MiddlewareForward.v
HttpSamples.v
Regex.v
Prover.v
ProverFacts.v
ProverIndex.v
ProverAddress.v
