(* ===== verification/Prelude.v ===== *)
(** * OpenShell: verification of the policy-enforcement core

    OpenShell runs agents in sandboxes whose network egress is decided by a
    policy. A gateway keeps the policy and changes it by merge operations; a
    supervisor beside each sandbox enforces it: policy DNS answers the
    sandbox's name queries with synthetic addresses, the egress proxy matches
    each connection with an endpoint of the policy and validates where it
    really goes, and the L7 inspector canonicalises request paths before it
    compares them with rules. The comparison itself is a Rego program that an
    embedded engine runs on the data of the policy, and the engine can be
    reloaded or quarantined at any time. A sandboxed process holds placeholders instead of
    credentials, and the supervisor puts the credential into a request that may
    carry it. Supervisors run in a pool: a gateway controller
    tells each of them which sandbox instances to run and reads back what they
    observe. Before a policy is changed, a prover can check that the candidate
    stays within a boundary policy. This library models the decisions of those
    parts, as executable functions translated from the Rust sources under
    src/crates/, and proves what makes them correct.

    ** Conventions

    A Rust string or byte slice is the list of its bytes ([bytes], a list of
    [Z]); [lit] writes a literal. A machine integer is a [Z]; where its width
    matters the saturation or the bound is written out ([saturating_add],
    [u32_max]). [Result] is [result] and the [?] operator is the notation
    [let?]. A [HashMap] whose order does not matter is a [gmap]; a [Vec] is a
    list. A function that mutates its argument returns the new value; an
    asynchronous call that only awaits is the call. Code outside the
    repository is a class or a section variable with the laws the code relies
    on, and has an instance: [CidrNet] (ipnet, instance [Cidr]), [HttpUri]
    (the http crate's URI parser, [simple_uri]) with [HttpAuthority] (its authorities,
    [sample_authority]), [MiddlewareServices] (the services of a middleware chain with
    their deadlines and message lengths, [sample_services]), [Glob] (the glob crate,
    [simple_glob]) with [GlobLanguage] ([token_glob]), [RegoGlob] (the policy
    engine's [glob.match], [token_glob_match]), [RegoBuiltins] and [RegoFaults]
    (the builtins of the policy program and the evaluations that fail,
    [sample_rego] and [sample_faults]), [DnsNames] (the DNS library), [World] and [IpNetText] with
    [IpNetGrammar] (the resolver, the hosts file and ipnet's text parser with what it
    documents, [example_world], [example_text] and [example_grammar]), [Registration] and
    [InstancePlacement] (a sandbox's registration and the durable placement
    records), [Base64] (the base64 crate, [standard_base64]), [ProtoStruct] (the
    free-form configuration of a middleware, [unit_struct]), [Z3] and [GlobCrate] (the solver and glob patterns of the prover,
    [evaluating_z3] and [literal_glob]). Concurrency is explicit: the sessions
    of the controller are tasks whose polls, deliveries and reports interleave
    with its operations in any order, and the steps of the CONNECT handler each
    read the engine as it is then.

    ** Files

    - Prelude: results, strings, boolean tests and the lemmas on them.
    - Net: openshell-core/src/net.rs, the address classes. [is_always_blocked_ip],
      [is_internal_ip] and their CIDR versions are shown to be intersection with
      a fixed list of blocks, and not to depend on the IPv4-mapped notation.
    - PathCanon: openshell-supervisor-network/src/l7/path.rs. A canonical path has
      no dot segment, no doubled slash, only path bytes and no escape that is not
      needed; canonicalising again changes nothing, unless the path has grown past
      the bound; [%2F] appears only where it was sent and allowed.
    - Search: the worklist loop shared by the two pattern searches, with its
      termination and reachability theorem.
    - Patterns: openshell-core/src/host_pattern.rs and endpoint_path.rs. The
      matcher decides the declarative reading of a pattern, the overlap test
      misses no common host, selectors are conservative.
    - IpParse: the standard library's [IpAddr] parser and the printers.
    - Order: the standard library's orderings, [sort_by] and [dedup].
    - Text: searching and splitting strings, UTF-8 with its lossy decoding, lines.
    - Base64: the interface of the base64 crate, and its standard alphabet.
    - Secrets: openshell-core/src/secrets.rs, the placeholders of credentials, the
      resolvers that hold the values, and the rewriting of headers, targets,
      header blocks and texts. A slice out of range is the value [Panicked].
    - SecretsFacts, SecretsTargets, SecretsHeaders: tokens, the end of the
      rewriting loops, substitution; percent encoding and the parts of a target;
      the lines of a head.
    - SecretsProperties: the theorems on rewriting, for every resolver the code
      builds. It ends; a text is rewritten by substitution; a credential adds no
      header, segment or parameter; the policy sees the redacted form of what
      is forwarded, segment by segment and parameter by parameter. Four places where the code falls short are evaluated.
    - SecretsBody: openshell-core/src/secrets_body.rs, the guard that streams a
      body which is not rewritten.
    - SecretsBodyFacts: fed in pieces, the guard does what one scan of the body
      does, unless a marker begins inside the key of another token.
    - ProviderCredentials: openshell-core/src/provider_credentials.rs, the
      credentials a supervisor holds: compiling a delivery, installing,
      preparing and revoking it, and the resolver of one request.
    - ProviderCredentialsFacts: over every sequence of those operations, a
      credential is released only to an endpoint of its binding and under the
      identity its token was issued for, a workload sees placeholders only, and
      an installed credential can be used.
    - Destination: proxy/destination.rs and the resolution functions of proxy.rs.
      A connector holds exactly the resolved addresses its mode authorizes; no
      plan reaches a forbidden address or port; policy DNS filters by the same
      policy.
    - DnsStore: policy_dns/store.rs and the transparent-TCP use of it in proxy.rs.
      An invariant of every run of the store, addresses that never change hands
      (but for the last one of a family, which a pool that ends there gives to
      several names), lookups that return only what was published.
    - PolicyDns: policy_dns/mod.rs, name.rs and resolver.rs. The resolver is
      bounded; an answer is backed by an endpoint of the snapshot; a name no
      endpoint selects learns nothing.
    - PolicyTypes: proto/sandbox.proto, the parts of openshell-policy-schema/src/lib.rs
      and openshell-policy/src/l7_validate.rs the merge reads, and
      openshell-policy/src/compose.rs with the round trip of composition.
    - PolicyMerge: openshell-policy/src/merge.rs. Its theorems are in
      PolicyMergeFacts: no operation grants what it did not declare, a new binary
      gets what the operation spells out or leaves to the rule it joins, adding
      revokes nothing, removals are exact, L7 appends change one acknowledged
      endpoint, no merge adds a second inspection contract.
    - Ambiguity: openshell-policy/src/ambiguity.rs, the check that endpoints which
      can select the same request agree, and the runtime's side of it: the Rego
      rules that match an endpoint and the choice of one by path.
    - AmbiguityFacts: the check reports exactly the conflicts of the patterns'
      languages; without a report the order of the endpoints does not decide
      how a request is handled, except on paths that spell a metacharacter and
      hosts with a metacharacter of the policy engine other than the star.
    - HostController: openshell-supervisor-control/src/controller.rs, the desired
      assignments, the view of the pool and the sessions of its members.
    - HostSession: the [run_session] task of controller.rs, and the runs in which
      tasks and operations interleave.
    - Supervision: status.rs, pool_timing.rs, registration.rs and coordinator.rs of
      the same crate: instance reports, the timing constants, launch material,
      launching, withdrawing, recovering and supervising an instance.
    - HostControlFacts: the theorems on the three. An invariant of every run; what
      each verdict on an instance means, for an owner that streams here and for
      one that streams elsewhere; no two members run one route; a launch
      becomes available; recovery withdraws exactly what its listing omits.
    - PolicySchema: openshell-policy-schema/src/lib.rs, the authored document and
      the values derived from it.
    - PolicyValidate: openshell-policy/src/l7_validate.rs and middleware.rs, the
      validation and canonical form of a whole policy in lib.rs, and
      [merge_policy] of merge.rs with the validations around it.
    - PolicyValidateFacts: an accepted policy has well-formed endpoints and, as far
      as endpoint hosts are host patterns, no way around a fail-closed middleware;
      its canonical form is accepted and
      final; a merge returns an accepted policy. Four inputs the validator
      should refuse are evaluated.
    - OpaData: the projection of a policy to the data of the policy program and
      its loading (opa.rs, l7/mod.rs of openshell-supervisor-network), with the
      aliases, the presets and every error of the validation.
    - Rego: data/sandbox-policy.rego of the same crate, rule by rule.
    - OpaEngine: the engine of opa.rs with its generations, quarantine and
      tunnels, the endpoint configurations of l7/mod.rs, and the evaluation of
      requests, batches and token grants in l7/relay.rs.
    - Connect: the CONNECT handler of proxy.rs and proxy/relay.rs, the protocol
      of a tunnel, and the middleware chain of a host.
    - OpaFacts: what a loaded policy decides about a connection, in terms of the
      policy message; an inspected endpoint keeps its inspection.
    - OpaRequests: what it decides about a request: the REST rules and presets
      exactly, verdicts of batches, reasons that do not conflict, and the owners
      of token grants.
    - OpaLifecycle: every run of reloads, quarantines and tunnels; a request is
      decided by the policy in force.
    - ConnectFacts: a relayed connection is decided by one policy, dials only
      public or declared addresses or the host's gateway, and is inspected
      wherever the policy inspects it, unless the rule with the empty name, which
      the proxy takes for none, applies.
    - OpaSamples: a policy the theorems are applied to, and five inputs on which
      the code falls short.
    - Http: l7/rest.rs and provider.rs, reading a request from a client's stream:
      the head and its validation, framing, query, authority, and the target
      that is canonicalised and put back.
    - HttpEdit: the edits of a head in l7/rest.rs, upgrades and the request built
      again after middleware.
    - HttpBody: the connection and what is done on it with a body (l7/rest.rs,
      l7/http.rs): relaying, relaying with the guard of SecretsBody, buffering.
    - ChunkedFacts, ChunkedBuffers, ChunkedScan: the grammar of the chunked
      coding; the relay, the two buffers and the scanning relay each take exactly
      one body of it however the input is cut, and agree on its data.
    - HttpFacts, HttpForward: a head that is accepted has one reading, and one
      request is forwarded with exactly its body.
    - HttpEditFacts: what an edit does to the fields of a head.
    - Middleware: openshell-supervisor-middleware/src/lib.rs and headers.rs, and
      l7/middleware.rs: the authority over fields, the evaluation of a chain and
      its application to a request.
    - MiddlewareFacts, MiddlewareForward: a chain is fail closed, and what it
      allows is one request with the identity that was judged.
    - HttpSamples: requests for those theorems, and the heads that the proxy and
      an upstream can read differently.
    - Regex: the regular expressions the prover builds, their languages and a
      matcher by derivatives that decides them.
    - Prover: openshell-prover/src/containment.rs with ip.rs and execution.rs, the
      containment check of a candidate policy against a boundary.
    - ProverFacts: [Within] is a proof of containment and [Exceeds] has a genuine
      counterexample.
    - ProverIndex: the index of overlapping endpoints decides the pairwise test.
    - ProverAddress: the prover's address model is what the runtime's plans of
      Destination authorize, for ranges with a plainly written prefix length.

    The components meet where the code makes them meet: the plan of Destination
    is what PolicyDns builds for an endpoint and what the records of DnsStore
    carry; both use the classes of Net; PolicyDns selects endpoints with the
    selectors of Patterns, and ProviderCredentials compares endpoints with its
    patterns, scopes the resolvers of Secrets and builds the classifier of
    SecretsBody; the redacted target of Secrets is compared with the canonical
    path of PathCanon; the coordinator of Supervision drives the controller
    and is verified with its sessions running; [merge_policy] of PolicyValidate
    runs the operations of PolicyMerge between validations, and the validator
    compiles selectors with Patterns; the prover is compared with
    Destination and Net. OpaData projects the policies that PolicyValidate
    accepts and runs the check of Ambiguity on them; Connect composes the
    engine with the plans of Destination and the selectors of Patterns, and its
    theorems speak of the policy message, the decision and the addresses dialled.
    Http canonicalises with PathCanon, HttpBody scans with SecretsBody, and
    Middleware runs the chains that Connect selects on the requests of Http.

    ** Fuel and bounds

    Loops that are not structural take fuel, and a lemma shows it is enough.
    The pattern searches run [rounds] steps, more than there are states
    (Search), and so does the product search of the ambiguity check; the path
    tokeniser takes the length of its pattern. The rewriting loops of Secrets
    take one round more than the length of the text, and the guard's scan one
    more than its decoded bytes. Splitting and trimming take the length of the string. Printing a
    number allows forty digits, more than any machine integer has. The alias
    chase of the resolver has [MAX_CNAME_HOPS] built in, and its fuel is two
    more. The search for an unused rule key tries one candidate more than there
    are keys; its theorems assume fewer keys than the code's 32-bit suffix
    counts. Revisions, session ids, placement and engine generations, which only
    count, are unbounded. Looking at the first bytes of a tunnel is a list of
    looks, and an end of the list is a value of its own. Reading a head and a body
    takes one round more than the bytes the client still sends ([with_fuel]); no
    reader runs out of them, and the relays' theorems say so.

    ** Not modelled

    Log events, metrics and message texts (an error carries what its message
    names). In the policy crates, the YAML front end and [generated_rule_name],
    which needs Unicode tables. The wire codecs and sockets of policy DNS and of the
    proxy. Rego is evaluated by a library; the program is translated rule by rule, and
    the library's own evaluation is not modelled. The engine's loading from YAML
    files is not modelled, nor are the forward proxy and the transparent
    listener, HTTP responses, the parsing of GraphQL, JSON-RPC and WebSocket
    messages, TLS handshakes, which are taken to succeed, and the reading of a
    process's identity from the kernel. Of the log of a batch only the verdict is
    modelled, and of a parsed JSON-RPC request what the policy program reads. Of
    middleware, the services themselves, the description of entries, admission and
    the response side are not modelled; a write to a peer is taken to succeed. A document is data: the YAML parser and its limits
    are not modelled, nor are the prover's older risk queries. The rest of the
    gateway, the drivers, the sandbox runtime and the user interfaces are I/O
    over other systems.

    Of credentials, token grants, request signing and SPIFFE identities are not
    modelled: they are cryptography and calls to services.

    The next parts to model are [NO_PROXY] matching, the forward proxy's target
    parsing and the gateway's own check of credentialed endpoints. *)

From Stdlib Require Import Ascii String.
From stdpp Require Export prelude gmap strings list numbers.
Open Scope Z_scope.

(** ** Results *)

(** Rust's [Result<A, E>]. *)
Inductive result (A E : Type) : Type :=
| Ok (a : A)
| Err (e : E).
Arguments Ok {A E} _.
Arguments Err {A E} _.

#[export] Instance result_eq_dec `{EqDecision A, EqDecision E} : EqDecision (result A E).
Proof. solve_decision. Defined.

(** The scope of the notations the development adds to stdpp's. *)
Declare Scope rust_scope.
Delimit Scope rust_scope with rust.
Open Scope rust_scope.

(** Rust's [?] operator: the first error is returned as it is. *)
Notation "'let?' x := e 'in' k" :=
  (match e with Ok x => k | Err err => Err err end)
  (at level 10, x binder, e at level 200, k at level 200,
   format "'[v' 'let?'  x  :=  e  'in' '/' k ']'") : rust_scope.

(** [Result::map_err]. *)
Definition map_err {A E F} (f : E → F) (r : result A E) : result A F :=
  match r with Ok a => Ok a | Err e => Err (f e) end.

Lemma map_err_Ok {A E F} (f : E → F) (r : result A E) a : map_err f r = Ok a ↔ r = Ok a.
Proof. destruct r; naive_solver. Qed.
Lemma let_Ok {A B E} (e : result A E) (k : A → result B E) b :
  (let? x := e in k x) = Ok b ↔ ∃ a, e = Ok a ∧ k a = Ok b.
Proof. destruct e; naive_solver. Qed.

(** [Result::ok] and [Result::is_ok]. *)
Definition ok {A E} (r : result A E) : option A :=
  match r with Ok a => Some a | Err _ => None end.
Definition is_ok {A E} (r : result A E) : bool :=
  match r with Ok _ => true | Err _ => false end.

(** [Option::is_some], [Option::ok_or]. *)
Definition is_some {A} (o : option A) : bool :=
  match o with Some _ => true | None => false end.
Definition ok_or {A E} (o : option A) (e : E) : result A E :=
  match o with Some a => Ok a | None => Err e end.

(** [iter().map(f).collect::<Result<Vec<_>, _>>()]: stops at the first error. *)
Fixpoint try_collect {A B E} (f : A → result B E) (l : list A) : result (list B) E :=
  match l with
  | [] => Ok []
  | x :: l =>
      let? y := f x in
      let? ys := try_collect f l in
      Ok (y :: ys)
  end.

Lemma try_collect_Forall2 {A B E} (f : A → result B E) l r :
  try_collect f l = Ok r → Forall2 (λ x y, f x = Ok y) l r.
Proof.
  revert r. induction l as [|x l IH]; simpl; intros r; [by intros [= <-]|].
  destruct (f x) eqn:Hx; [|done]. destruct (try_collect f l); [|done].
  intros [= <-]. constructor; [done|]. by apply IH.
Qed.

(** ** Strings

    A Rust [&str] or [&[u8]] is the list of its bytes, each a [Z] between 0
    and 255; a [&str] holds valid UTF-8. [lit] writes a literal. *)

Abbreviation bytes := (list Z).

Definition byte_of_ascii (a : ascii) : Z := Z.of_N (N_of_ascii a).

Fixpoint lit (s : string) : bytes :=
  match s with
  | EmptyString => []
  | String a s => byte_of_ascii a :: lit s
  end.

Definition is_byte (b : Z) : bool := (0 <=? b) && (b <=? 255).

(** [str::to_ascii_lowercase]. *)
Definition ascii_lower (c : Z) : Z :=
  if (65 <=? c) && (c <=? 90) then c + 32 else c.
Definition to_ascii_lowercase (s : bytes) : bytes := map ascii_lower s.

(** [str::eq_ignore_ascii_case]. *)
Definition eq_ignore_ascii_case (a b : bytes) : bool :=
  bool_decide (to_ascii_lowercase a = to_ascii_lowercase b).

Definition is_ascii_digit (c : Z) : bool := (48 <=? c) && (c <=? 57).
Definition is_ascii_alphabetic (c : Z) : bool :=
  ((65 <=? c) && (c <=? 90)) || ((97 <=? c) && (c <=? 122)).
Definition is_ascii_alphanumeric (c : Z) : bool :=
  is_ascii_alphabetic c || is_ascii_digit c.

(** [slice::contains], and [str::contains] of an ASCII char. *)
Definition contains_byte (c : Z) (s : bytes) : bool := existsb (Z.eqb c) s.

(** [str::strip_prefix], [str::starts_with], [str::strip_suffix], [str::ends_with]. *)
Fixpoint strip_prefix (p s : bytes) : option bytes :=
  match p, s with
  | [], _ => Some s
  | a :: p, b :: s => if a =? b then strip_prefix p s else None
  | _ :: _, [] => None
  end.
Definition starts_with (p s : bytes) : bool := is_some (strip_prefix p s).
Definition strip_suffix (p s : bytes) : option bytes :=
  reverse <$> strip_prefix (reverse p) (reverse s).
Definition ends_with (p s : bytes) : bool := is_some (strip_suffix p s).

(** [str::contains] of a substring. *)
Fixpoint contains_sub (p s : bytes) : bool :=
  starts_with p s ||
  match s with [] => false | _ :: s => contains_sub p s end.

(** [str::split] on one ASCII char, and [slice::split] on one byte: never empty. *)
Fixpoint split_on (c : Z) (s : bytes) : list bytes :=
  match s with
  | [] => [[]]
  | b :: s =>
      if b =? c then [] :: split_on c s
      else match split_on c s with
           | p :: ps => (b :: p) :: ps
           | [] => [[b]]
           end
  end.

(** [str::split_once] on one ASCII char. *)
Fixpoint split_once (c : Z) (s : bytes) : option (bytes * bytes) :=
  match s with
  | [] => None
  | b :: s =>
      if b =? c then Some ([], s)
      else match split_once c s with
           | Some (p, q) => Some (b :: p, q)
           | None => None
           end
  end.

(** [[T]::join] with a one-byte separator. *)
Fixpoint join_with (c : Z) (l : list bytes) : bytes :=
  match l with
  | [] => []
  | [p] => p
  | p :: ps => p ++ c :: join_with c ps
  end.

(** The number of bytes of the [char::is_whitespace] char a string starts
    with, 0 when it starts with another one. The Unicode White_Space chars
    are U+0009-000D, U+0020, U+0085, U+00A0, U+1680, U+2000-200A, U+2028,
    U+2029, U+202F, U+205F and U+3000, here in UTF-8. *)
Definition ws_len (s : bytes) : nat :=
  match s with
  | b :: s' =>
      if ((9 <=? b) && (b <=? 13)) || (b =? 32) then 1%nat
      else match s' with
      | b1 :: s'' =>
          if (b =? 0xC2) && ((b1 =? 0x85) || (b1 =? 0xA0)) then 2%nat
          else match s'' with
          | b2 :: _ =>
              if ((b =? 0xE1) && (b1 =? 0x9A) && (b2 =? 0x80))
                 || ((b =? 0xE2) && (b1 =? 0x80)
                     && (((0x80 <=? b2) && (b2 <=? 0x8A)) || (b2 =? 0xA8)
                         || (b2 =? 0xA9) || (b2 =? 0xAF)))
                 || ((b =? 0xE2) && (b1 =? 0x81) && (b2 =? 0x9F))
                 || ((b =? 0xE3) && (b1 =? 0x80) && (b2 =? 0x80))
              then 3%nat else 0%nat
          | [] => 0%nat
          end
      | [] => 0%nat
      end
  | [] => 0%nat
  end.

(** [str.chars().any(char::is_whitespace)]: UTF-8 is self-synchronising, so
    a whitespace char is found at any byte offset where its bytes start. *)
Fixpoint has_whitespace (s : bytes) : bool :=
  negb (Nat.eqb (ws_len s) 0) || match s with [] => false | _ :: s => has_whitespace s end.

(** [str::trim_start] and [str::trim_end]. The loop drops one char a round, so
    the length of the string is enough fuel. *)
Fixpoint trim_start_fuel (fuel : nat) (s : bytes) : bytes :=
  match fuel with
  | O => s
  | S fuel => match ws_len s with O => s | n => trim_start_fuel fuel (drop n s) end
  end.
Definition trim_start (s : bytes) : bytes := trim_start_fuel (length s) s.

(** The bytes of the whitespace char a string ends with. *)
Definition ws_len_end (s : bytes) : nat :=
  let n := length s in
  if Nat.eqb (ws_len (drop (n - 1) s)) 1 then 1%nat
  else if Nat.eqb (ws_len (drop (n - 2) s)) 2 then 2%nat
  else if Nat.eqb (ws_len (drop (n - 3) s)) 3 then 3%nat
  else 0%nat.
Fixpoint trim_end_fuel (fuel : nat) (s : bytes) : bytes :=
  match fuel with
  | O => s
  | S fuel =>
      match ws_len_end s with
      | O => s
      | n => trim_end_fuel fuel (take (length s - n)%nat s)
      end
  end.
Definition trim_end (s : bytes) : bytes := trim_end_fuel (length s) s.
Definition trim (s : bytes) : bytes := trim_end (trim_start s).

(** [str::trim_end_matches] of one ASCII char. *)
Definition trim_end_matches (c : Z) (s : bytes) : bytes :=
  let fix go r := match r with b :: r' => if b =? c then go r' else r | [] => [] end in
  reverse (go (reverse s)).

(** [str::parse] of an unsigned integer of at most [max]: an optional [+],
    then at least one digit, each step checked against the type's range. *)
Fixpoint parse_digits (max acc : Z) (s : bytes) : option Z :=
  match s with
  | [] => Some acc
  | c :: s =>
      if is_ascii_digit c then
        let acc := acc * 10 + (c - 48) in
        if acc <=? max then parse_digits max acc s else None
      else None
  end.
Definition parse_uint (max : Z) (s : bytes) : option Z :=
  match s with
  | [] => None
  | c :: s' =>
      if c =? 43 then match s' with [] => None | _ => parse_digits max 0 s' end
      else parse_digits max 0 s
  end.
Definition u16_max : Z := 0xffff.
Definition u32_max : Z := 0xffffffff.
Definition u64_max : Z := 0xffffffffffffffff.
Definition u128_max : Z := 2 ^ 128 - 1.
Definition usize_max : Z := u64_max.

(** [uN::saturating_add], the type's largest value given. *)
Definition saturating_add (max a b : Z) : Z := Z.min max (a + b).

(** [i64::saturating_sub]. *)
Definition i64_min : Z := - 2 ^ 63.
Definition i64_max : Z := 2 ^ 63 - 1.
Definition i64_saturating_sub (a b : Z) : Z := Z.max i64_min (Z.min i64_max (a - b)).

(** [Vec::is_empty] and [str::is_empty]. *)
Definition is_empty {A} (l : list A) : bool := match l with [] => true | _ => false end.

(** ** Boolean tests and their meaning

    The rewrite database [rust] turns the boolean tests the code makes into
    the propositions they decide; [simpl_tests] applies it everywhere. *)

Create HintDb rust.

Lemma is_empty_true {A} (l : list A) : is_empty l = true ↔ l = [].
Proof. by destruct l. Qed.
Lemma is_empty_false {A} (l : list A) : is_empty l = false ↔ l ≠ [].
Proof. by destruct l. Qed.

Lemma filter_nil {A} (f : A → bool) l x : List.filter f l = [] → x ∈ l → f x = false.
Proof.
  intros Hf Hx. destruct (f x) eqn:E; [|done].
  assert (In x (List.filter f l)) as Hin by (apply filter_In; by rewrite <- list_elem_of_In).
  by rewrite Hf in Hin.
Qed.

Lemma existsb_elem {A} (f : A → bool) l : existsb f l = true ↔ ∃ x, x ∈ l ∧ f x = true.
Proof. rewrite existsb_exists. by setoid_rewrite list_elem_of_In. Qed.
Lemma forallb_elem {A} (f : A → bool) l : forallb f l = true ↔ ∀ x, x ∈ l → f x = true.
Proof. rewrite forallb_forall. by setoid_rewrite list_elem_of_In. Qed.
Lemma find_elem {A} (f : A → bool) l x : find f l = Some x → x ∈ l ∧ f x = true.
Proof. rewrite list_elem_of_In. apply find_some. Qed.
Lemma find_elem_none {A} (f : A → bool) l x : find f l = None → x ∈ l → f x = false.
Proof. rewrite list_elem_of_In. intros. by eapply find_none. Qed.

Lemma eq_ignore_case_true a b :
  eq_ignore_ascii_case a b = true ↔ to_ascii_lowercase a = to_ascii_lowercase b.
Proof. unfold eq_ignore_ascii_case. apply bool_decide_eq_true. Qed.
Lemma if_false_true (b c : bool) : (if b then false else c) = true ↔ b = false ∧ c = true.
Proof. destruct b; naive_solver. Qed.
Lemma eq_ignore_case_refl a : eq_ignore_ascii_case a a = true.
Proof. by apply eq_ignore_case_true. Qed.

(** ** Lemmas on strings *)

Lemma split_on_nonempty c s : split_on c s ≠ [].
Proof. induction s; simpl; repeat case_match; congruence. Qed.

(** The pieces of a split hold no separator, and only bytes of the string. *)
Lemma split_on_elem c s seg b : seg ∈ split_on c s → b ∈ seg → b ≠ c ∧ b ∈ s.
Proof.
  revert seg. induction s as [|x s IH]; simpl; intros seg Hseg Hb.
  - apply list_elem_of_singleton in Hseg as ->. by apply not_elem_of_nil in Hb.
  - destruct (Z.eqb_spec x c) as [->|Hx].
    + apply elem_of_cons in Hseg as [->|Hseg]; [by apply not_elem_of_nil in Hb|].
      destruct (IH seg Hseg Hb). split; [done|by constructor].
    + destruct (split_on c s) as [|p ps] eqn:E; [by apply split_on_nonempty in E|].
      apply elem_of_cons in Hseg as [->|Hseg].
      * apply elem_of_cons in Hb as [->|Hb]; [split; [done|by constructor]|].
        destruct (IH p) as [? ?]; [by constructor|done|]. split; [done|by constructor].
      * destruct (IH seg) as [? ?]; [by constructor|done|]. split; [done|by constructor].
Qed.

Lemma join_split_on c s : join_with c (split_on c s) = s.
Proof.
  induction s as [|x s IH]; simpl; [done|].
  destruct (split_on c s) as [|p ps] eqn:E; [by apply split_on_nonempty in E|].
  destruct (Z.eqb_spec x c) as [->|Hx].
  - by rewrite <- IH.
  - destruct ps; simpl in *; by rewrite <- IH.
Qed.

Lemma split_on_app c p s :
  c ∉ p → split_on c (p ++ c :: s) = p :: split_on c s.
Proof.
  induction p as [|x p IH]; simpl; intros Hp; [by rewrite Z.eqb_refl|].
  apply not_elem_of_cons in Hp as [Hx Hp]. rewrite IH by done.
  by destruct (Z.eqb_spec x c).
Qed.

Lemma split_on_id c p : c ∉ p → split_on c p = [p].
Proof.
  induction p as [|x p IH]; simpl; intros Hp; [done|].
  apply not_elem_of_cons in Hp as [Hx Hp]. rewrite IH by done.
  by destruct (Z.eqb_spec x c).
Qed.

Lemma split_on_join c segs :
  segs ≠ [] → Forall (λ seg, c ∉ seg) segs → split_on c (join_with c segs) = segs.
Proof.
  induction segs as [|p [|q segs] IH]; intros Hne Hf; [done|..]; inversion_clear Hf.
  - by apply split_on_id.
  - change (join_with c (p :: q :: segs)) with (p ++ c :: join_with c (q :: segs)).
    rewrite split_on_app by done. by rewrite IH.
Qed.

Lemma split_on_app_any c p s : split_on c (p ++ c :: s) = split_on c p ++ split_on c s.
Proof.
  induction p as [|x p IH]; cbn; [by rewrite Z.eqb_refl|]. rewrite IH.
  destruct (split_on c p) as [|q qs] eqn:E; [by apply split_on_nonempty in E|]. cbn.
  by destruct (x =? c).
Qed.

Lemma ascii_lower_star c : ascii_lower c = 42 ↔ c = 42.
Proof. unfold ascii_lower. destruct (_ && _) eqn:E; lia. Qed.

Lemma contains_star_lower s : contains_byte 42 (to_ascii_lowercase s) = contains_byte 42 s.
Proof.
  unfold contains_byte, to_ascii_lowercase. induction s as [|c s IH]; [done|].
  cbn [map existsb]. rewrite IH. f_equal. pose proof (ascii_lower_star c). lia.
Qed.

Lemma contains_byte_spec c s : contains_byte c s = true ↔ c ∈ s.
Proof.
  unfold contains_byte. rewrite existsb_exists. setoid_rewrite Z.eqb_eq.
  setoid_rewrite <- list_elem_of_In. naive_solver.
Qed.

Lemma contains_byte_false c s : contains_byte c s = false ↔ c ∉ s.
Proof. rewrite <- contains_byte_spec. by destruct (contains_byte c s). Qed.

#[export] Hint Rewrite andb_true_iff orb_true_iff negb_true_iff andb_false_iff orb_false_iff
  negb_false_iff eqb_true_iff Z.eqb_eq Z.eqb_neq @is_empty_true @is_empty_false
  contains_byte_spec eq_ignore_case_true @existsb_elem @forallb_elem if_false_true : rust.
#[export] Hint Rewrite @bool_decide_eq_true @bool_decide_eq_false : rust.
#[export] Hint Resolve eq_ignore_case_refl : rust.

Ltac simpl_tests := autorewrite with rust in *.

Lemma split_once_Some c s p q : split_once c s = Some (p, q) → s = p ++ c :: q ∧ c ∉ p.
Proof.
  revert p. induction s as [|x s IH]; simpl; intros p; [done|].
  destruct (Z.eqb_spec x c) as [->|Hx].
  - intros [= <- <-]. split; [done|]. apply not_elem_of_nil.
  - destruct (split_once c s) as [[p' q']|]; [|done]. intros [= <- <-].
    destruct (IH p') as [-> ?]; [done|]. split; [done|]. by apply not_elem_of_cons.
Qed.

Lemma split_once_None c s : split_once c s = None ↔ c ∉ s.
Proof.
  induction s as [|x s IH]; simpl; [split; [intros _; apply not_elem_of_nil|done]|].
  rewrite not_elem_of_cons, <- IH.
  destruct (Z.eqb_spec x c) as [->|Hx]; [naive_solver|].
  destruct (split_once c s) as [[??]|]; naive_solver.
Qed.

Lemma split_once_app c p q : c ∉ p → split_once c (p ++ c :: q) = Some (p, q).
Proof.
  induction p as [|x p IH]; simpl; intros Hp; [by rewrite Z.eqb_refl|].
  apply not_elem_of_cons in Hp as [Hx Hp]. rewrite IH by done. by destruct (Z.eqb_spec x c).
Qed.

Lemma strip_prefix_Some p s r : strip_prefix p s = Some r ↔ s = p ++ r.
Proof.
  revert s. induction p as [|x p IH]; intros s; simpl; [naive_solver|].
  destruct s as [|y s]; [naive_solver|].
  destruct (Z.eqb_spec x y) as [->|Hx]; [|naive_solver]. rewrite IH. naive_solver.
Qed.

Lemma strip_suffix_Some p s r : strip_suffix p s = Some r ↔ s = r ++ p.
Proof.
  unfold strip_suffix. rewrite fmap_Some. setoid_rewrite strip_prefix_Some. split.
  - intros (x & Hs & ->). apply (f_equal reverse) in Hs.
    by rewrite reverse_app, !reverse_involutive in Hs.
  - intros ->. exists (reverse r). by rewrite reverse_app, reverse_involutive.
Qed.

Lemma starts_with_spec p s : starts_with p s = true ↔ ∃ r, s = p ++ r.
Proof.
  unfold starts_with. setoid_rewrite <- strip_prefix_Some.
  destruct (strip_prefix p s); simpl; naive_solver.
Qed.
