(* ===== verification/Net.v ===== *)
(** * Net: IP classification (crates/openshell-core/src/net.rs)

    The predicates that decide which addresses sandbox egress may never reach
    ([is_always_blocked_ip]) or reaches only with an allowlist
    ([is_internal_ip]), and their CIDR versions, which policy validation uses.
    The [ipnet] crate is an interface ([CidrNet]) the predicates are proved
    against; [Cidr] is a model of it. *)

From Stdlib Require Import ZifyBool.
From S2P Require Import Prelude.

(** ** [std::net] addresses *)

(** An [Ipv4Addr] is its [u32], an [Ipv6Addr] its [u128]. *)
Inductive IpAddr : Type :=
| V4 (a : Z)
| V6 (a : Z).

#[export] Instance IpAddr_eq_dec : EqDecision IpAddr.
Proof. solve_decision. Defined.
#[export] Instance IpAddr_countable : Countable IpAddr.
Proof.
  refine (inj_countable' (λ ip, match ip with V4 a => inl a | V6 a => inr a end)
    (λ s, match s with inl a => V4 a | inr a => V6 a end) _).
  by intros [].
Defined.

Definition v4_wf (a : Z) : Prop := 0 ≤ a < 2 ^ 32.
Definition v6_wf (a : Z) : Prop := 0 ≤ a < 2 ^ 128.
Definition ip_wf (ip : IpAddr) : Prop :=
  match ip with V4 a => v4_wf a | V6 a => v6_wf a end.

(** [Ipv4Addr::new] and [Ipv4Addr::octets]. *)
Definition ipv4 (a b c d : Z) : Z := a * 2 ^ 24 + b * 2 ^ 16 + c * 2 ^ 8 + d.
Definition octet (i : Z) (a : Z) : Z := Z.land (Z.shiftr a (8 * (3 - i))) 0xff.

(** [Ipv6Addr::new] and [Ipv6Addr::segments]; [segment0] is [segments()[0]]. *)
Definition ipv6 (s0 s1 s2 s3 s4 s5 s6 s7 : Z) : Z :=
  s0 * 2 ^ 112 + s1 * 2 ^ 96 + s2 * 2 ^ 80 + s3 * 2 ^ 64
  + s4 * 2 ^ 48 + s5 * 2 ^ 32 + s6 * 2 ^ 16 + s7.
Definition segment0 (a : Z) : Z := Z.shiftr a 112.

(** The stable predicates of [Ipv4Addr] and [Ipv6Addr]. *)
Module Ipv4Addr.
Definition LOCALHOST : Z := ipv4 127 0 0 1.
Definition UNSPECIFIED : Z := 0.
Definition BROADCAST : Z := ipv4 255 255 255 255.
Definition is_loopback (a : Z) : bool := octet 0 a =? 127.
Definition is_link_local (a : Z) : bool := (octet 0 a =? 169) && (octet 1 a =? 254).
Definition is_unspecified (a : Z) : bool := a =? 0.
Definition is_private (a : Z) : bool :=
  (octet 0 a =? 10)
  || ((octet 0 a =? 172) && (16 <=? octet 1 a) && (octet 1 a <=? 31))
  || ((octet 0 a =? 192) && (octet 1 a =? 168)).
Definition is_documentation (a : Z) : bool :=
  ((octet 0 a =? 192) && (octet 1 a =? 0) && (octet 2 a =? 2))
  || ((octet 0 a =? 198) && (octet 1 a =? 51) && (octet 2 a =? 100))
  || ((octet 0 a =? 203) && (octet 1 a =? 0) && (octet 2 a =? 113)).
Definition is_broadcast (a : Z) : bool := a =? BROADCAST.
(** [to_ipv6_mapped]: [::ffff:a.b.c.d]. *)
Definition to_ipv6_mapped (a : Z) : Z := 0xffff * 2 ^ 32 + a.
End Ipv4Addr.

Module Ipv6Addr.
Definition LOCALHOST : Z := 1.
Definition UNSPECIFIED : Z := 0.
Definition is_loopback (a : Z) : bool := a =? 1.
Definition is_unspecified (a : Z) : bool := a =? 0.
(** [to_ipv4_mapped]: the embedded address of [::ffff:a.b.c.d], else [None]. *)
Definition to_ipv4_mapped (a : Z) : option Z :=
  if Z.shiftr a 32 =? 0xffff then Some (Z.land a 0xffffffff) else None.
End Ipv6Addr.

(** ** The [ipnet] crate

    A network of [w]-bit addresses: an address and a prefix length. [network]
    clears the host bits, [broadcast] sets them, [contains] tests membership
    of the block and [new_assert] builds a network (a prefix longer than the
    width makes it panic, so its laws ask for one in range). *)

Class CidrNet (w : Z) (N : Type) := {
  network : N → Z;
  broadcast : N → Z;
  prefix_len : N → Z;
  contains : N → Z → bool;
  new_assert : Z → Z → N;
  prefix_len_range n : 0 ≤ prefix_len n ≤ w;
  network_range n : 0 ≤ network n < 2 ^ w;
  network_aligned n : network n mod 2 ^ (w - prefix_len n) = 0;
  broadcast_network n : broadcast n = network n + 2 ^ (w - prefix_len n) - 1;
  contains_range n a : contains n a = (network n <=? a) && (a <=? broadcast n);
  new_assert_prefix_len a p : 0 ≤ p ≤ w → prefix_len (new_assert a p) = p;
  new_assert_network a p :
    0 ≤ p ≤ w → 0 ≤ a < 2 ^ w →
    network (new_assert a p) = a - a mod 2 ^ (w - p);
}.
#[export] Hint Mode CidrNet - ! : typeclass_instances.

(** [ipnet::IpNet]. *)
Inductive IpNet (N4 N6 : Type) : Type :=
| NetV4 (n : N4)
| NetV6 (n : N6).
Arguments NetV4 {N4 N6} _.
Arguments NetV6 {N4 N6} _.

(** A model of the interface: an address and a prefix length in range. *)
Module Cidr.
Record t (w : N) := mk {
  addr : Z;
  len : Z;
  wf : (0 <=? len) && (len <=? Z.of_N w) && (0 <=? addr) && (addr <? 2 ^ Z.of_N w) = true;
}.
Arguments mk {w} _ _ _.
Arguments addr {w} _.
Arguments len {w} _.
Arguments wf {w} _.

Section operations.
Context {w : N}.

(** The prefix length and the address reduced to their ranges. *)
Definition clamp (p : Z) : Z := Z.max 0 (Z.min (Z.of_N w) p).
Lemma make_wf (a p : Z) :
  (0 <=? clamp p) && (clamp p <=? Z.of_N w)
  && (0 <=? a mod 2 ^ Z.of_N w) && (a mod 2 ^ Z.of_N w <? 2 ^ Z.of_N w) = true.
Proof.
  unfold clamp. assert (0 < 2 ^ Z.of_N w) by (apply Z.pow_pos_nonneg; lia).
  pose proof (Z.mod_pos_bound a (2 ^ Z.of_N w)). lia.
Qed.
Definition make (a p : Z) : t w := mk (a mod 2 ^ Z.of_N w) (clamp p) (make_wf a p).

Definition hosts (n : t w) : Z := 2 ^ (Z.of_N w - len n).
Definition first (n : t w) : Z := addr n - addr n mod hosts n.
Definition last (n : t w) : Z := first n + hosts n - 1.
End operations.

Lemma hosts_pos {w} (n : t w) : 0 < hosts n.
Proof. destruct n as [a l H]; unfold hosts; simpl. apply Z.pow_pos_nonneg; lia. Qed.

Lemma first_range {w} (n : t w) : 0 ≤ first n < 2 ^ Z.of_N w.
Proof.
  pose proof (hosts_pos n). pose proof (Z.mod_pos_bound (addr n) (hosts n)).
  pose proof (Z.mod_le (addr n) (hosts n)).
  destruct n as [a l H']; unfold first in *; simpl in *. lia.
Qed.

#[export] Program Instance cidr_net (w : N) : CidrNet (Z.of_N w) (t w) := {|
  network := first;
  broadcast := last;
  prefix_len := len;
  contains n a := (first n <=? a) && (a <=? last n);
  new_assert := make;
|}.
Next Obligation. intros w [a l H]; simpl. lia. Qed.
Next Obligation. intros w n. apply first_range. Qed.
Next Obligation.
  intros w n. unfold first. fold (hosts n). pose proof (hosts_pos n).
  rewrite Zminus_mod_idemp_r, Z.sub_diag. by apply Z.mod_0_l; lia.
Qed.
Next Obligation. reflexivity. Qed.
Next Obligation. reflexivity. Qed.
Next Obligation. intros w a p Hp. simpl. unfold clamp. lia. Qed.
Next Obligation.
  intros w a p Hp Ha. unfold first, hosts, make; simpl.
  rewrite (Z.mod_small a) by lia. unfold clamp. do 3 f_equal. lia.
Qed.
End Cidr.

Abbreviation Cidr4 := (Cidr.t 32).
Abbreviation Cidr6 := (Cidr.t 128).
#[export] Instance cidr4 : CidrNet 32 Cidr4 := Cidr.cidr_net 32.
#[export] Instance cidr6 : CidrNet 128 Cidr6 := Cidr.cidr_net 128.

(** ** Address predicates *)

Definition metadata_hostname : bytes := lit "metadata.google.internal".

Definition is_known_metadata_hostname (host : bytes) : bool :=
  bool_decide (to_ascii_lowercase (trim_end_matches 46 (trim host)) = metadata_hostname).

Definition is_link_local_ip (ip : IpAddr) : bool :=
  match ip with
  | V4 v4 => Ipv4Addr.is_link_local v4
  | V6 v6 =>
      if Z.land (segment0 v6) 0xffc0 =? 0xfe80 then true
      else match Ipv6Addr.to_ipv4_mapped v6 with
           | Some v4 => Ipv4Addr.is_link_local v4
           | None => false
           end
  end.

Definition is_always_blocked_ip (ip : IpAddr) : bool :=
  match ip with
  | V4 v4 => Ipv4Addr.is_loopback v4 || Ipv4Addr.is_link_local v4 || Ipv4Addr.is_unspecified v4
  | V6 v6 =>
      if Ipv6Addr.is_loopback v6 || Ipv6Addr.is_unspecified v6 then true
      else if is_link_local_ip (V6 v6) then true
      else match Ipv6Addr.to_ipv4_mapped v6 with
           | Some v4 => Ipv4Addr.is_loopback v4 || Ipv4Addr.is_unspecified v4
           | None => false
           end
  end.

Definition is_internal_v4 (v4 : Z) : bool :=
  if Ipv4Addr.is_loopback v4 || Ipv4Addr.is_private v4 || Ipv4Addr.is_link_local v4
     || Ipv4Addr.is_unspecified v4 || Ipv4Addr.is_documentation v4 || Ipv4Addr.is_broadcast v4
  then true
  else if (octet 0 v4 =? 100) && (Z.land (octet 1 v4) 0xC0 =? 64) then true
  else if (octet 0 v4 =? 192) && (octet 1 v4 =? 0) && (octet 2 v4 =? 0) then true
  else if (octet 0 v4 =? 198) && (Z.land (octet 1 v4) 0xFE =? 18) then true
  else false.

Definition is_internal_ip (ip : IpAddr) : bool :=
  match ip with
  | V4 v4 => is_internal_v4 v4
  | V6 v6 =>
      if Ipv6Addr.is_loopback v6 || Ipv6Addr.is_unspecified v6 then true
      else if is_link_local_ip (V6 v6) then true
      else if Z.land (segment0 v6) 0xfe00 =? 0xfc00 then true
      else match Ipv6Addr.to_ipv4_mapped v6 with
           | Some v4 => is_internal_v4 v4
           | None => false
           end
  end.

(** ** Network predicates *)

Section networks.
Context {N4 N6 : Type} `{!CidrNet 32 N4} `{!CidrNet 128 N6}.

(** [IpNet::contains]: an address of the other family is never a member. *)
Definition net_contains (net : IpNet N4 N6) (ip : IpAddr) : bool :=
  match net, ip with
  | NetV4 n, V4 a => contains n a
  | NetV6 n, V6 a => contains n a
  | _, _ => false
  end.

Definition is_always_blocked_net (net : IpNet N4 N6) : bool :=
  match net with
  | NetV4 v4net =>
      let net := network v4net in
      let bcast := broadcast v4net in
      if (ipv4 127 0 0 0 <=? bcast) && (net <=? ipv4 127 255 255 255) then true
      else if (ipv4 169 254 0 0 <=? bcast) && (net <=? ipv4 169 254 255 255) then true
      else if net =? Ipv4Addr.UNSPECIFIED then true
      else false
  | NetV6 v6net =>
      let net := network v6net in
      if contains v6net Ipv6Addr.LOCALHOST then true
      else if contains v6net Ipv6Addr.UNSPECIFIED then true
      else if Z.land (segment0 net) 0xffc0 =? 0xfe80 then true
      else if contains v6net (ipv6 0xfe80 0 0 0 0 0 0 0) then true
      else if match Ipv6Addr.to_ipv4_mapped net with
              | Some v4 => Ipv4Addr.is_loopback v4 || Ipv4Addr.is_link_local v4
                           || Ipv4Addr.is_unspecified v4
              | None => false
              end then true
      else if contains v6net (Ipv4Addr.to_ipv6_mapped Ipv4Addr.LOCALHOST)
              || contains v6net (Ipv4Addr.to_ipv6_mapped (ipv4 169 254 0 0))
              || contains v6net (Ipv4Addr.to_ipv6_mapped Ipv4Addr.UNSPECIFIED) then true
      else false
  end.

Definition RFC1918_10_NET : N4 := new_assert (ipv4 10 0 0 0) 8.
Definition RFC1918_172_NET : N4 := new_assert (ipv4 172 16 0 0) 12.
Definition RFC1918_192_NET : N4 := new_assert (ipv4 192 168 0 0) 16.
Definition CGNAT_NET : N4 := new_assert (ipv4 100 64 0 0) 10.
Definition IETF_PROTOCOL_ASSIGNMENTS_NET : N4 := new_assert (ipv4 192 0 0 0) 24.
Definition TEST_NET_1 : N4 := new_assert (ipv4 192 0 2 0) 24.
Definition BENCHMARKING_NET : N4 := new_assert (ipv4 198 18 0 0) 15.
Definition TEST_NET_2 : N4 := new_assert (ipv4 198 51 100 0) 24.
Definition TEST_NET_3 : N4 := new_assert (ipv4 203 0 113 0) 24.
Definition LIMITED_BROADCAST_NET : N4 := new_assert Ipv4Addr.BROADCAST 32.
Definition IPV6_ULA_NET : N6 := new_assert (ipv6 0xfc00 0 0 0 0 0 0 0) 7.

Definition NON_HARD_INTERNAL_V4_NETS : list N4 :=
  [RFC1918_10_NET; RFC1918_172_NET; RFC1918_192_NET; CGNAT_NET;
   IETF_PROTOCOL_ASSIGNMENTS_NET; TEST_NET_1; BENCHMARKING_NET; TEST_NET_2;
   TEST_NET_3; LIMITED_BROADCAST_NET].

Definition ipv4_nets_intersect (left right : N4) : bool :=
  (network left <=? broadcast right) && (network right <=? broadcast left).
Definition ipv6_nets_intersect (left right : N6) : bool :=
  (network left <=? broadcast right) && (network right <=? broadcast left).
Definition ipv4_net_to_mapped_ipv6 (net : N4) : N6 :=
  new_assert (Ipv4Addr.to_ipv6_mapped (network net)) (96 + prefix_len net).

Definition is_internal_net (net : IpNet N4 N6) : bool :=
  if is_always_blocked_net net then true
  else match net with
  | NetV4 net => existsb (ipv4_nets_intersect net) NON_HARD_INTERNAL_V4_NETS
  | NetV6 net =>
      ipv6_nets_intersect net IPV6_ULA_NET
      || existsb (λ internal, ipv6_nets_intersect net (ipv4_net_to_mapped_ipv6 internal))
           NON_HARD_INTERNAL_V4_NETS
  end.
End networks.

(** ** Blocks of addresses

    Every range above is an aligned block: a first address and the number of
    host bits. The predicates are shown equal to membership of, and overlap
    with, these lists of blocks. *)

Definition in_block (a : Z) (b : Z * Z) : bool := (b.1 <=? a) && (a <? b.1 + 2 ^ b.2).

Definition hard_v4_blocks : list (Z * Z) :=
  [(ipv4 127 0 0 0, 24); (ipv4 169 254 0 0, 16); (0, 0)].
Definition soft_v4_blocks : list (Z * Z) :=
  [(ipv4 10 0 0 0, 24); (ipv4 172 16 0 0, 20); (ipv4 192 168 0 0, 16);
   (ipv4 100 64 0 0, 22); (ipv4 192 0 0 0, 8); (ipv4 192 0 2 0, 8);
   (ipv4 198 18 0 0, 17); (ipv4 198 51 100 0, 8); (ipv4 203 0 113 0, 8);
   (ipv4 255 255 255 255, 0)].
Definition mapped_block (b : Z * Z) : Z * Z := (Ipv4Addr.to_ipv6_mapped b.1, b.2).
Definition hard_v6_blocks : list (Z * Z) :=
  [(1, 0); (0, 0); (ipv6 0xfe80 0 0 0 0 0 0 0, 118)] ++ map mapped_block hard_v4_blocks.
Definition soft_v6_blocks : list (Z * Z) :=
  (ipv6 0xfc00 0 0 0 0 0 0 0, 121) :: map mapped_block soft_v4_blocks.

Lemma land_mask (x m k : Z) :
  0 ≤ m → 0 ≤ k →
  Z.land x (Z.shiftl (Z.ones m) k) = (x / 2 ^ k) mod 2 ^ m * 2 ^ k.
Proof.
  intros Hm Hk.
  rewrite <- Z.shiftr_div_pow2, <- Z.land_ones, <- Z.shiftl_mul_pow2 by lia.
  rewrite Z.shiftl_land, <- Z.ldiff_ones_r by lia.
  apply Z.bits_inj'; intros i Hi.
  rewrite !Z.land_spec, Z.ldiff_spec, !Z.shiftl_spec by lia.
  rewrite (Z.testbit_ones k) by lia.
  destruct (decide (i < k)).
  - rewrite (Z.testbit_neg_r _ (i - k)) by lia. by rewrite !andb_false_r.
  - replace ((0 <=? i) && (i <? k)) with false by lia. by rewrite andb_true_r.
Qed.

Lemma octet_div (i a : Z) : 0 ≤ i ≤ 3 → octet i a = (a / 2 ^ (8 * (3 - i))) mod 256.
Proof.
  intros Hi. unfold octet. rewrite Z.shiftr_div_pow2 by lia.
  change 0xff with (Z.ones 8). by rewrite Z.land_ones by lia.
Qed.

(** Replaces closed powers and address literals by their values, and boolean
    comparisons by propositions, so that [lia] sees linear arithmetic. *)
Ltac fold_consts :=
  repeat match goal with
  | |- context [2 ^ ?k] => is_ground k; let v := eval vm_compute in (2 ^ k) in
      change (2 ^ k) with v
  | H : context [2 ^ ?k] |- _ => is_ground k; let v := eval vm_compute in (2 ^ k) in
      change (2 ^ k) with v in H
  end.
Ltac blia :=
  apply eq_true_iff_eq;
  rewrite ?orb_true_iff, ?andb_true_iff, ?Z.eqb_eq, ?Z.leb_le, ?Z.ltb_lt; lia.

Lemma v4_octets a :
  v4_wf a →
  ∃ o0 o1 o2 o3, a = ipv4 o0 o1 o2 o3
    ∧ (0 ≤ o0 < 256 ∧ 0 ≤ o1 < 256 ∧ 0 ≤ o2 < 256 ∧ 0 ≤ o3 < 256)
    ∧ octet 0 a = o0 ∧ octet 1 a = o1 ∧ octet 2 a = o2 ∧ octet 3 a = o3.
Proof.
  unfold v4_wf. intros Ha. rewrite !octet_div by lia.
  change (8 * (3 - 0)) with 24. change (8 * (3 - 1)) with 16.
  change (8 * (3 - 2)) with 8. change (8 * (3 - 3)) with 0.
  rewrite Z.pow_0_r, Z.div_1_r. fold_consts.
  eexists _, _, _, _; split_and!; [|..|reflexivity|reflexivity|reflexivity|reflexivity].
  all: unfold ipv4; fold_consts.
  all: Z.to_euclidean_division_equations; lia.
Qed.

Lemma land_C0 x : Z.land x 0xC0 = (x / 64) mod 4 * 64.
Proof. exact (land_mask x 2 6 ltac:(lia) ltac:(lia)). Qed.
Lemma land_FE x : Z.land x 0xFE = (x / 2) mod 128 * 2.
Proof. exact (land_mask x 7 1 ltac:(lia) ltac:(lia)). Qed.
Lemma land_ffc0 x : Z.land x 0xffc0 = (x / 64) mod 1024 * 64.
Proof. exact (land_mask x 10 6 ltac:(lia) ltac:(lia)). Qed.
Lemma land_fe00 x : Z.land x 0xfe00 = (x / 512) mod 128 * 512.
Proof. exact (land_mask x 7 9 ltac:(lia) ltac:(lia)). Qed.

Lemma cgnat_octet o : 0 ≤ o < 256 → (Z.land o 0xC0 =? 64) = (64 <=? o) && (o <=? 127).
Proof. intros. rewrite land_C0. Z.to_euclidean_division_equations. blia. Qed.
Lemma benchmarking_octet o : 0 ≤ o < 256 → (Z.land o 0xFE =? 18) = (18 <=? o) && (o <=? 19).
Proof. intros. rewrite land_FE. Z.to_euclidean_division_equations. blia. Qed.

(** Blocks whose prefix is a whole number of octets, and the three others. *)
Section octet_blocks.
Context (o0 o1 o2 o3 : Z).
Hypothesis o_wf : 0 ≤ o0 < 256 ∧ 0 ≤ o1 < 256 ∧ 0 ≤ o2 < 256 ∧ 0 ≤ o3 < 256.

Ltac solve_block := unfold in_block, ipv4; simpl; fold_consts; blia.

Lemma block_8 c : in_block (ipv4 o0 o1 o2 o3) (ipv4 c 0 0 0, 24) = (o0 =? c).
Proof using o_wf. solve_block. Qed.
Lemma block_16 c d :
  0 ≤ d < 256 →
  in_block (ipv4 o0 o1 o2 o3) (ipv4 c d 0 0, 16) = (o0 =? c) && (o1 =? d).
Proof using o_wf. intros. solve_block. Qed.
Lemma block_24 c d e :
  0 ≤ d < 256 → 0 ≤ e < 256 →
  in_block (ipv4 o0 o1 o2 o3) (ipv4 c d e 0, 8) = (o0 =? c) && (o1 =? d) && (o2 =? e).
Proof using o_wf. intros. solve_block. Qed.
Lemma block_32 a : in_block (ipv4 o0 o1 o2 o3) (a, 0) = (ipv4 o0 o1 o2 o3 =? a).
Proof using o_wf. unfold in_block; simpl. fold_consts. blia. Qed.
Lemma block_172_12 :
  in_block (ipv4 o0 o1 o2 o3) (ipv4 172 16 0 0, 20)
  = (o0 =? 172) && (16 <=? o1) && (o1 <=? 31).
Proof using o_wf. solve_block. Qed.
Lemma block_100_10 :
  in_block (ipv4 o0 o1 o2 o3) (ipv4 100 64 0 0, 22)
  = (o0 =? 100) && ((64 <=? o1) && (o1 <=? 127)).
Proof using o_wf. solve_block. Qed.
Lemma block_198_15 :
  in_block (ipv4 o0 o1 o2 o3) (ipv4 198 18 0 0, 17)
  = (o0 =? 198) && ((18 <=? o1) && (o1 <=? 19)).
Proof using o_wf. solve_block. Qed.
End octet_blocks.

Lemma blocked_v4_blocks a :
  v4_wf a → is_always_blocked_ip (V4 a) = existsb (in_block a) hard_v4_blocks.
Proof.
  intros Ha. destruct (v4_octets a Ha) as (o0&o1&o2&o3&->&?&H0&H1&_&_).
  unfold is_always_blocked_ip, Ipv4Addr.is_loopback, Ipv4Addr.is_link_local,
    Ipv4Addr.is_unspecified, hard_v4_blocks, existsb.
  rewrite H0, H1, block_8, block_16, block_32 by lia. by rewrite orb_false_r, orb_assoc.
Qed.

(** A conditional that returns [true] early is a disjunction. *)
Lemma if_true_orb (b c : bool) : (if b then true else c) = b || c.
Proof. by destruct b. Qed.

(** Equality of two disjunctions of the same boolean tests. *)
Ltac solve_orb :=
  rewrite ?orb_false_r; apply eq_true_iff_eq; rewrite !orb_true_iff;
  let H := fresh in split; intros H; repeat (destruct H as [H|H]); clear -H; tauto.

Lemma internal_v4_blocks a :
  v4_wf a → is_internal_v4 a = existsb (in_block a) (hard_v4_blocks ++ soft_v4_blocks).
Proof.
  intros Ha. destruct (v4_octets a Ha) as (o0&o1&o2&o3&->&?&H0&H1&H2&_).
  unfold is_internal_v4, Ipv4Addr.is_loopback, Ipv4Addr.is_link_local,
    Ipv4Addr.is_unspecified, Ipv4Addr.is_private, Ipv4Addr.is_documentation,
    Ipv4Addr.is_broadcast, Ipv4Addr.BROADCAST, hard_v4_blocks, soft_v4_blocks, existsb, app.
  rewrite H0, H1, H2, cgnat_octet, benchmarking_octet by lia.
  rewrite !block_8, !block_16, !block_24, block_172_12, block_100_10, block_198_15,
    !block_32, !if_true_orb by lia.
  solve_orb.
Qed.

(** *** IPv6 *)

Lemma segment0_block c k m a :
  v6_wf a → 0 ≤ k → 0 ≤ m → m + k = 16 → 0 ≤ c < 2 ^ m →
  (Z.land (segment0 a) (Z.shiftl (Z.ones m) k) =? c * 2 ^ k)
  = in_block a (c * 2 ^ k * 2 ^ 112, 112 + k).
Proof.
  intros Ha Hk Hm Hmk Hc. unfold segment0, in_block, v6_wf in *; cbn [fst snd].
  rewrite land_mask, Z.shiftr_div_pow2, Z.div_div by lia.
  rewrite <- Z.pow_add_r by lia.
  assert (2 ^ 128 = 2 ^ m * 2 ^ (112 + k)) as E.
  { rewrite <- Z.pow_add_r by lia. f_equal. lia. }
  rewrite <- Z.mul_assoc, <- Z.pow_add_r, (Z.add_comm k) by lia.
  assert (0 < 2 ^ (112 + k)) by (apply Z.pow_pos_nonneg; lia).
  assert (0 < 2 ^ k) by (apply Z.pow_pos_nonneg; lia).
  assert (0 ≤ a / 2 ^ (112 + k) < 2 ^ m).
  { split; [apply Z.div_pos; lia|]. apply Z.div_lt_upper_bound; lia. }
  rewrite (Z.mod_small (a / _)) by lia.
  pose proof (Z.div_mod a (2 ^ (112 + k))). pose proof (Z.mod_pos_bound a (2 ^ (112 + k))).
  apply eq_true_iff_eq. rewrite andb_true_iff, Z.eqb_eq, Z.leb_le, Z.ltb_lt.
  rewrite Z.mul_cancel_r by lia. split; [intros <-; lia|]. intros. nia.
Qed.

Lemma link_local_v6_block a :
  v6_wf a →
  (Z.land (segment0 a) 0xffc0 =? 0xfe80) = in_block a (ipv6 0xfe80 0 0 0 0 0 0 0, 118).
Proof. intros Ha. apply (segment0_block 0x3fa 6 10 a Ha); lia. Qed.
Lemma ula_v6_block a :
  v6_wf a →
  (Z.land (segment0 a) 0xfe00 =? 0xfc00) = in_block a (ipv6 0xfc00 0 0 0 0 0 0 0, 121).
Proof. intros Ha. apply (segment0_block 0x7e 9 7 a Ha); lia. Qed.

Lemma to_ipv4_mapped_spec a :
  v6_wf a →
  Ipv6Addr.to_ipv4_mapped a
  = if in_block a (Ipv4Addr.to_ipv6_mapped 0, 32)
    then Some (a - Ipv4Addr.to_ipv6_mapped 0) else None.
Proof.
  unfold v6_wf, Ipv6Addr.to_ipv4_mapped, in_block, Ipv4Addr.to_ipv6_mapped; cbn [fst snd].
  intros Ha. change 0xffffffff with (Z.ones 32).
  rewrite Z.land_ones, Z.shiftr_div_pow2 by lia. fold_consts.
  destruct (_ =? _) eqn:E1, (_ && _) eqn:E2; try done.
  - f_equal. apply Z.eqb_eq in E1. Z.to_euclidean_division_equations. lia.
  - exfalso. apply Z.eqb_eq in E1. Z.to_euclidean_division_equations. lia.
  - exfalso. apply Z.eqb_neq in E1. Z.to_euclidean_division_equations. lia.
Qed.

Lemma to_ipv4_mapped_wf a v4 : v6_wf a → Ipv6Addr.to_ipv4_mapped a = Some v4 → v4_wf v4.
Proof.
  intros Ha. rewrite to_ipv4_mapped_spec by done. unfold in_block, v4_wf.
  cbn [fst snd]. case_match; intros [= <-]; lia.
Qed.

Lemma to_ipv4_mapped_to_ipv6_mapped v4 :
  v4_wf v4 → Ipv6Addr.to_ipv4_mapped (Ipv4Addr.to_ipv6_mapped v4) = Some v4.
Proof.
  unfold v4_wf. intros Hv. rewrite to_ipv4_mapped_spec.
  2: { unfold v6_wf, Ipv4Addr.to_ipv6_mapped. lia. }
  unfold in_block, Ipv4Addr.to_ipv6_mapped; cbn [fst snd].
  replace (_ && _) with true by lia. f_equal. lia.
Qed.

Definition v4_block (b : Z * Z) : Prop := 0 ≤ b.1 ∧ b.1 + 2 ^ b.2 ≤ 2 ^ 32.

Lemma in_mapped_block a b :
  v6_wf a → v4_block b →
  in_block a (mapped_block b)
  = match Ipv6Addr.to_ipv4_mapped a with Some v4 => in_block v4 b | None => false end.
Proof.
  intros Ha [Hlo Hhi]. rewrite to_ipv4_mapped_spec by done.
  unfold in_block, mapped_block, Ipv4Addr.to_ipv6_mapped in *; cbn [fst snd] in *.
  revert Hlo Hhi. generalize (2 ^ b.2). intros s Hlo Hhi.
  destruct (_ && (a <? 0xffff * 2 ^ 32 + 0 + 2 ^ 32)) eqn:E; blia.
Qed.

Lemma in_mapped_blocks a bs :
  v6_wf a → Forall v4_block bs →
  existsb (in_block a) (map mapped_block bs)
  = match Ipv6Addr.to_ipv4_mapped a with
    | Some v4 => existsb (in_block v4) bs
    | None => false
    end.
Proof.
  intros Ha. induction 1 as [|b bs Hb _ IH]; cbn [existsb map]; [by case_match|].
  rewrite in_mapped_block, IH by done. by case_match.
Qed.

Lemma hard_v4_blocks_wf : Forall v4_block hard_v4_blocks.
Proof. by repeat constructor. Qed.
Lemma soft_v4_blocks_wf : Forall v4_block soft_v4_blocks.
Proof. by repeat constructor. Qed.

Lemma block_128 a c : in_block a (c, 0) = (a =? c).
Proof. unfold in_block; cbn [fst snd]. fold_consts. blia. Qed.

Lemma blocked_v6_blocks a :
  v6_wf a → is_always_blocked_ip (V6 a) = existsb (in_block a) hard_v6_blocks.
Proof.
  intros Ha. unfold hard_v6_blocks. rewrite existsb_app, in_mapped_blocks by
    (done || apply hard_v4_blocks_wf).
  unfold is_always_blocked_ip, is_link_local_ip, Ipv6Addr.is_loopback, Ipv6Addr.is_unspecified.
  rewrite link_local_v6_block by done. unfold existsb at 1. rewrite !block_128, !if_true_orb.
  destruct (Ipv6Addr.to_ipv4_mapped a) as [v4|] eqn:E; [|solve_orb].
  rewrite <- blocked_v4_blocks by eauto using to_ipv4_mapped_wf.
  unfold is_always_blocked_ip. solve_orb.
Qed.

Lemma internal_v6_blocks a :
  v6_wf a → is_internal_ip (V6 a) = existsb (in_block a) (hard_v6_blocks ++ soft_v6_blocks).
Proof.
  intros Ha. unfold soft_v6_blocks. rewrite existsb_app.
  rewrite <- blocked_v6_blocks by done. cbn [existsb].
  rewrite in_mapped_blocks by (done || apply soft_v4_blocks_wf).
  unfold is_internal_ip, is_always_blocked_ip, is_link_local_ip.
  rewrite link_local_v6_block, ula_v6_block, !if_true_orb by done.
  destruct (Ipv6Addr.to_ipv4_mapped a) as [v4|] eqn:E; [|solve_orb].
  rewrite internal_v4_blocks, existsb_app by eauto using to_ipv4_mapped_wf.
  rewrite <- blocked_v4_blocks by eauto using to_ipv4_mapped_wf.
  unfold is_always_blocked_ip. solve_orb.
Qed.

(** *** Networks against blocks *)

Definition block_aligned (b : Z * Z) : Prop := 0 ≤ b.2 ∧ b.1 mod 2 ^ b.2 = 0.

(** Two aligned blocks that share an address are nested. *)
Lemma aligned_nested lo1 k1 lo2 k2 a :
  0 ≤ k1 ≤ k2 → lo1 mod 2 ^ k1 = 0 → lo2 mod 2 ^ k2 = 0 →
  lo1 ≤ a < lo1 + 2 ^ k1 → lo2 ≤ a < lo2 + 2 ^ k2 →
  lo2 ≤ lo1 ∧ lo1 + 2 ^ k1 ≤ lo2 + 2 ^ k2.
Proof.
  intros Hk H1 H2 Ha1 Ha2.
  assert (0 < 2 ^ k1) by (apply Z.pow_pos_nonneg; lia).
  assert (2 ^ k2 = 2 ^ (k2 - k1) * 2 ^ k1) as E.
  { rewrite <- Z.pow_add_r by lia. f_equal. lia. }
  assert (0 < 2 ^ (k2 - k1)) by (apply Z.pow_pos_nonneg; lia).
  apply Z.mod_divide in H1 as [q1 ->]; [|lia].
  apply Z.mod_divide in H2 as [q2 ->]; [|nia].
  rewrite E, Z.mul_assoc in *.
  assert (q2 * 2 ^ (k2 - k1) < q1 + 1) by (apply (Z.mul_lt_mono_pos_r (2 ^ k1)); lia).
  assert (q1 < q2 * 2 ^ (k2 - k1) + 2 ^ (k2 - k1))
    by (apply (Z.mul_lt_mono_pos_r (2 ^ k1)); lia).
  nia.
Qed.

Section net_blocks.
Context {w : Z} {N : Type} `{!CidrNet w N}.
Implicit Types (n : N) (b : Z * Z).

Definition net_overlaps n b : bool :=
  (network n <=? b.1 + 2 ^ b.2 - 1) && (b.1 <=? broadcast n).

Lemma network_le_broadcast n : network n ≤ broadcast n.
Proof.
  rewrite broadcast_network. pose proof (prefix_len_range n).
  assert (0 < 2 ^ (w - prefix_len n)) by (apply Z.pow_pos_nonneg; lia). lia.
Qed.

Lemma broadcast_range n : broadcast n < 2 ^ w.
Proof.
  pose proof (prefix_len_range n) as Hp. pose proof (network_range n) as Hn.
  pose proof (network_aligned n) as Ha. rewrite broadcast_network.
  assert (2 ^ w = 2 ^ prefix_len n * 2 ^ (w - prefix_len n)) as E.
  { rewrite <- Z.pow_add_r by lia. f_equal. lia. }
  assert (0 < 2 ^ (w - prefix_len n)) by (apply Z.pow_pos_nonneg; lia).
  apply Z.mod_divide in Ha as [q Hq]; [|lia]. rewrite Hq, E in *.
  assert (q < 2 ^ prefix_len n) by (apply (Z.mul_lt_mono_pos_r (2 ^ (w - prefix_len n))); lia).
  nia.
Qed.

Lemma contains_wf n a : contains n a = true → 0 ≤ a < 2 ^ w.
Proof.
  rewrite contains_range. pose proof (network_range n). pose proof (broadcast_range n). lia.
Qed.

Lemma net_overlaps_iff n b :
  0 ≤ b.2 → net_overlaps n b = true ↔ ∃ a, contains n a = true ∧ in_block a b = true.
Proof.
  intros Hb. assert (0 < 2 ^ b.2) by (apply Z.pow_pos_nonneg; lia).
  unfold net_overlaps, in_block. pose proof (network_le_broadcast n). split.
  - intros Ho. exists (Z.max (network n) b.1). rewrite contains_range. lia.
  - intros (a & Hc & Hi). rewrite contains_range in Hc. lia.
Qed.

(** The two tests of [is_always_blocked_net], the network address in the block
    or a given address of the block in the network, find every overlap. *)
Lemma point_overlap n b p :
  block_aligned b → in_block p b = true →
  in_block (network n) b || contains n p = net_overlaps n b.
Proof.
  intros [Hb Hal] Hp. apply eq_true_iff_eq. rewrite net_overlaps_iff, orb_true_iff by done.
  split.
  - intros [H|H]; [|by eauto]. exists (network n). split; [|done].
    rewrite contains_range. pose proof (network_le_broadcast n). lia.
  - intros (a & Hc & Hi). pose proof (prefix_len_range n).
    rewrite contains_range, broadcast_network in *. unfold in_block in *.
    pose proof (network_aligned n).
    destruct (decide (w - prefix_len n ≤ b.2)).
    + left. pose proof (aligned_nested (network n) (w - prefix_len n) b.1 b.2 a).
      assert (0 < 2 ^ (w - prefix_len n)) by (apply Z.pow_pos_nonneg; lia). lia.
    + right. pose proof (aligned_nested b.1 b.2 (network n) (w - prefix_len n) a). lia.
Qed.

Lemma point_only_overlap n p : contains n p = net_overlaps n (p, 0).
Proof. rewrite contains_range. unfold net_overlaps; cbn [fst snd]. fold_consts. blia. Qed.

Lemma new_assert_overlaps n a p :
  0 ≤ p ≤ w → 0 ≤ a < 2 ^ w → a mod 2 ^ (w - p) = 0 →
  (network n <=? broadcast (new_assert (N:=N) a p))
  && (network (new_assert (N:=N) a p) <=? broadcast n) = net_overlaps n (a, w - p).
Proof.
  intros Hp Ha Hal. unfold net_overlaps; cbn [fst snd].
  rewrite (broadcast_network (new_assert a p)), new_assert_prefix_len by done.
  rewrite new_assert_network, Hal, Z.sub_0_r by done. done.
Qed.
End net_blocks.

Section network_theorems.
Context {N4 N6 : Type} `{!CidrNet 32 N4} `{!CidrNet 128 N6}.
Implicit Types (net : IpNet N4 N6).

Lemma blocked_net_v4_blocks (n4 : N4) :
  is_always_blocked_net (N6:=N6) (NetV4 n4) = existsb (net_overlaps n4) hard_v4_blocks.
Proof.
  unfold is_always_blocked_net, hard_v4_blocks, net_overlaps, Ipv4Addr.UNSPECIFIED.
  cbn [existsb fst snd]. pose proof (network_range n4). pose proof (network_le_broadcast n4).
  rewrite !if_true_orb, !orb_false_r.
  replace (ipv4 127 0 0 0 + 2 ^ 24 - 1) with (ipv4 127 255 255 255) by done.
  replace (ipv4 169 254 0 0 + 2 ^ 16 - 1) with (ipv4 169 254 255 255) by done.
  rewrite !(andb_comm (_ <=? broadcast n4)).
  do 2 f_equal. fold_consts. blia.
Qed.

Lemma blocked_net_v6_blocks (n6 : N6) :
  is_always_blocked_net (N4:=N4) (NetV6 n6) = existsb (net_overlaps n6) hard_v6_blocks.
Proof.
  assert (v6_wf (network n6)) as Hwf by apply network_range.
  unfold is_always_blocked_net, hard_v6_blocks. rewrite existsb_app.
  rewrite link_local_v6_block by done.
  assert (∀ v4, Ipv4Addr.is_loopback v4 || Ipv4Addr.is_link_local v4
                || Ipv4Addr.is_unspecified v4 = is_always_blocked_ip (V4 v4)) as Hb by done.
  assert (match Ipv6Addr.to_ipv4_mapped (network n6) with
          | Some v4 => Ipv4Addr.is_loopback v4 || Ipv4Addr.is_link_local v4
                       || Ipv4Addr.is_unspecified v4
          | None => false
          end = existsb (in_block (network n6)) (map mapped_block hard_v4_blocks)) as ->.
  { rewrite in_mapped_blocks by (done || apply hard_v4_blocks_wf). case_match; [|done].
    rewrite Hb. by apply blocked_v4_blocks, (to_ipv4_mapped_wf (network n6)). }
  cbn [existsb map hard_v4_blocks]. unfold mapped_block; cbn [fst snd].
  rewrite <- (point_overlap n6 (ipv6 0xfe80 0 0 0 0 0 0 0, 118) (ipv6 0xfe80 0 0 0 0 0 0 0))
    by done.
  rewrite <- (point_overlap n6 (Ipv4Addr.to_ipv6_mapped (ipv4 127 0 0 0), 24)
    (Ipv4Addr.to_ipv6_mapped Ipv4Addr.LOCALHOST)) by done.
  rewrite <- (point_overlap n6 (Ipv4Addr.to_ipv6_mapped (ipv4 169 254 0 0), 16)
    (Ipv4Addr.to_ipv6_mapped (ipv4 169 254 0 0))) by done.
  rewrite <- (point_overlap n6 (Ipv4Addr.to_ipv6_mapped 0, 0) (Ipv4Addr.to_ipv6_mapped 0))
    by done.
  rewrite <- !point_only_overlap, !if_true_orb.
  unfold Ipv6Addr.LOCALHOST, Ipv6Addr.UNSPECIFIED, Ipv4Addr.UNSPECIFIED. solve_orb.
Qed.

Ltac unfold_nets :=
  unfold RFC1918_10_NET, RFC1918_172_NET, RFC1918_192_NET, CGNAT_NET,
    IETF_PROTOCOL_ASSIGNMENTS_NET, TEST_NET_1, BENCHMARKING_NET, TEST_NET_2, TEST_NET_3,
    LIMITED_BROADCAST_NET, IPV6_ULA_NET.

Lemma internal_nets_v4 (n4 : N4) :
  existsb (ipv4_nets_intersect n4) NON_HARD_INTERNAL_V4_NETS
  = existsb (net_overlaps n4) soft_v4_blocks.
Proof.
  unfold NON_HARD_INTERNAL_V4_NETS, soft_v4_blocks, ipv4_nets_intersect; cbn [existsb].
  unfold_nets. by rewrite !(new_assert_overlaps (N:=N4)) by done.
Qed.

Lemma mapped_net_overlaps (n6 : N6) a p :
  0 ≤ p ≤ 32 → 0 ≤ a < 2 ^ 32 → a mod 2 ^ (32 - p) = 0 →
  ipv6_nets_intersect n6 (ipv4_net_to_mapped_ipv6 (new_assert (N:=N4) a p))
  = net_overlaps n6 (mapped_block (a, 32 - p)).
Proof.
  intros Hp Ha Hal. unfold ipv6_nets_intersect, ipv4_net_to_mapped_ipv6.
  rewrite new_assert_prefix_len, new_assert_network, Hal, Z.sub_0_r by done.
  unfold mapped_block; cbn [fst snd].
  replace (32 - p) with (128 - (96 + p)) in * by lia.
  apply new_assert_overlaps; [lia|unfold Ipv4Addr.to_ipv6_mapped; lia|].
  unfold Ipv4Addr.to_ipv6_mapped. rewrite Z.add_mod, Hal, Z.add_0_r, Z.mod_mod.
  2,3: apply Z.pow_nonzero; lia.
  replace (2 ^ 32) with (2 ^ p * 2 ^ (128 - (96 + p))).
  2: { rewrite <- Z.pow_add_r by lia. f_equal. lia. }
  rewrite Z.mul_assoc. apply Z.mod_mul, Z.pow_nonzero; lia.
Qed.

Lemma internal_nets_v6 (n6 : N6) :
  ipv6_nets_intersect n6 IPV6_ULA_NET
  || existsb (λ internal, ipv6_nets_intersect n6 (ipv4_net_to_mapped_ipv6 internal))
       (NON_HARD_INTERNAL_V4_NETS (N4:=N4))
  = existsb (net_overlaps n6) soft_v6_blocks.
Proof.
  unfold NON_HARD_INTERNAL_V4_NETS, soft_v6_blocks, soft_v4_blocks; cbn [existsb map].
  unfold_nets. rewrite !mapped_net_overlaps by done.
  unfold ipv6_nets_intersect. by rewrite (new_assert_overlaps (N:=N6)) by done.
Qed.

(** Overlap with one of a list of blocks is a shared address. *)
Lemma existsb_overlaps {w N} `{!CidrNet w N} (n : N) bs :
  Forall (λ b, 0 ≤ b.2) bs →
  existsb (net_overlaps n) bs = true ↔ ∃ a, contains n a = true ∧ existsb (in_block a) bs = true.
Proof.
  intros Hbs. rewrite existsb_exists. setoid_rewrite existsb_exists.
  rewrite Forall_forall in Hbs. split.
  - intros (b & Hin & Ho). apply net_overlaps_iff in Ho as (a & ? & ?); eauto.
  - intros (a & Hc & b & Hin & Hi). exists b. split; [done|]. apply net_overlaps_iff; eauto.
Qed.

(** C37: [is_always_blocked_net], which policy validation uses on CIDR entries,
    answers [true] exactly when the network contains an address that
    [is_always_blocked_ip], the run-time check, blocks: no CIDR entry that
    reaches a blocked address is accepted and none is refused without cause. *)
Theorem is_always_blocked_net_iff net :
  is_always_blocked_net net = true
  ↔ ∃ ip, ip_wf ip ∧ net_contains net ip = true ∧ is_always_blocked_ip ip = true.
Proof.
  destruct net as [n|n].
  - rewrite blocked_net_v4_blocks, existsb_overlaps by (by repeat constructor). split.
    + intros (a & Hc & Hb). pose proof (contains_wf n a Hc) as Hwf.
      exists (V4 a). by rewrite blocked_v4_blocks.
    + intros ([a|a] & Hwf & Hc & Hb); [|done]. exists a. by rewrite <- blocked_v4_blocks.
  - rewrite blocked_net_v6_blocks, existsb_overlaps by (by repeat constructor). split.
    + intros (a & Hc & Hb). pose proof (contains_wf n a Hc) as Hwf.
      exists (V6 a). by rewrite blocked_v6_blocks.
    + intros ([a|a] & Hwf & Hc & Hb); [done|]. exists a. by rewrite <- blocked_v6_blocks.
Qed.

(** [is_internal_net] answers [true] exactly when the network contains an
    address that [is_internal_ip] classifies as internal. *)
Theorem is_internal_net_iff net :
  is_internal_net net = true
  ↔ ∃ ip, ip_wf ip ∧ net_contains net ip = true ∧ is_internal_ip ip = true.
Proof.
  unfold is_internal_net. destruct net as [n|n]; rewrite if_true_orb.
  - rewrite blocked_net_v4_blocks, internal_nets_v4, <- existsb_app.
    rewrite existsb_overlaps by (by repeat constructor). split.
    + intros (a & Hc & Hb). pose proof (contains_wf n a Hc) as Hwf.
      exists (V4 a). simpl. by rewrite internal_v4_blocks.
    + intros ([a|a] & Hwf & Hc & Hb); [|done]. exists a. by rewrite <- internal_v4_blocks.
  - rewrite blocked_net_v6_blocks, internal_nets_v6, <- existsb_app.
    rewrite existsb_overlaps by (by repeat constructor). split.
    + intros (a & Hc & Hb). pose proof (contains_wf n a Hc) as Hwf.
      exists (V6 a). by rewrite internal_v6_blocks.
    + intros ([a|a] & Hwf & Hc & Hb); [done|]. exists a. by rewrite <- internal_v6_blocks.
Qed.
End network_theorems.

(** A public-looking prefix that reaches into the mapped link-local range. *)
Lemma is_always_blocked_net_iff_witness :
  is_always_blocked_net (N4:=Cidr4)
    (NetV6 (new_assert (Ipv4Addr.to_ipv6_mapped (ipv4 168 0 0 0)) 103 : Cidr6)) = true
  ∧ ∃ ip, ip_wf ip
      ∧ net_contains (N4:=Cidr4)
          (NetV6 (new_assert (Ipv4Addr.to_ipv6_mapped (ipv4 168 0 0 0)) 103 : Cidr6)) ip = true
      ∧ is_always_blocked_ip ip = true.
Proof.
  split; [vm_compute; reflexivity|].
  apply (is_always_blocked_net_iff (N4:=Cidr4) (N6:=Cidr6)). vm_compute. reflexivity.
Defined.

Lemma is_internal_net_iff_witness :
  is_internal_net (N4:=Cidr4) (N6:=Cidr6) (NetV4 (new_assert (ipv4 172 0 0 0) 10)) = true
  ∧ ∃ ip, ip_wf ip
      ∧ net_contains (N4:=Cidr4) (N6:=Cidr6) (NetV4 (new_assert (ipv4 172 0 0 0) 10)) ip = true
      ∧ is_internal_ip ip = true.
Proof.
  split; [vm_compute; reflexivity|].
  apply (is_internal_net_iff (N4:=Cidr4) (N6:=Cidr6)). vm_compute. reflexivity.
Defined.

(** Every always-blocked address is internal. *)
Lemma always_blocked_is_internal ip :
  ip_wf ip → is_always_blocked_ip ip = true → is_internal_ip ip = true.
Proof.
  destruct ip as [a|a]; simpl ip_wf; intros Hwf Hb.
  - unfold is_internal_ip. rewrite internal_v4_blocks, existsb_app by done.
    by rewrite <- blocked_v4_blocks, Hb.
  - rewrite internal_v6_blocks, existsb_app by done. by rewrite <- blocked_v6_blocks, Hb.
Qed.

(** Writing an IPv4 destination as an IPv4-mapped IPv6 address changes
    neither classification, and every always-blocked address is internal too,
    so the stricter default check never admits what the hard check refuses. *)
Theorem mapped_address_same_class v4 :
  v4_wf v4 →
  is_always_blocked_ip (V6 (Ipv4Addr.to_ipv6_mapped v4)) = is_always_blocked_ip (V4 v4)
  ∧ is_internal_ip (V6 (Ipv4Addr.to_ipv6_mapped v4)) = is_internal_ip (V4 v4)
  ∧ is_link_local_ip (V6 (Ipv4Addr.to_ipv6_mapped v4)) = is_link_local_ip (V4 v4)
  ∧ (is_always_blocked_ip (V4 v4) = true → is_internal_ip (V4 v4) = true).
Proof.
  intros Hv. pose proof (to_ipv4_mapped_to_ipv6_mapped v4 Hv) as Hm.
  assert (v6_wf (Ipv4Addr.to_ipv6_mapped v4)) as Hw
    by (unfold v6_wf, v4_wf, Ipv4Addr.to_ipv6_mapped in *; lia).
  assert (∀ c k, 2 ^ 48 ≤ c → in_block (Ipv4Addr.to_ipv6_mapped v4) (c, k) = false) as Hhigh.
  { intros c k Hc. unfold in_block, v4_wf, Ipv4Addr.to_ipv6_mapped in *; cbn [fst snd]. lia. }
  assert (∀ c, c ≤ 1 → (Ipv4Addr.to_ipv6_mapped v4 =? c) = false) as Hlow.
  { intros c Hc. unfold v4_wf, Ipv4Addr.to_ipv6_mapped in *. lia. }
  unfold is_always_blocked_ip, is_internal_ip, is_link_local_ip, Ipv6Addr.is_loopback,
    Ipv6Addr.is_unspecified.
  rewrite Hm, link_local_v6_block, ula_v6_block, !Hhigh, !Hlow by done.
  cbn [orb]. split; [rewrite if_true_orb; solve_orb|].
  pose proof (always_blocked_is_internal (V4 v4) Hv) as Hi. unfold is_always_blocked_ip, is_internal_ip in Hi.
  split; [|done]. destruct (Ipv4Addr.is_link_local v4); [|done].
  symmetry. apply Hi. by rewrite orb_true_r.
Qed.

Lemma mapped_address_same_class_witness :
  is_always_blocked_ip (V4 (ipv4 169 254 169 254)) = true
  ∧ is_always_blocked_ip (V6 (Ipv4Addr.to_ipv6_mapped (ipv4 169 254 169 254))) = true.
Proof.
  split; [reflexivity|].
  destruct (mapped_address_same_class (ipv4 169 254 169 254)) as (H & _);
    [by vm_compute|]. rewrite H. reflexivity.
Defined.
