(* ===== verification/PathCanon.v ===== *)
(** * PathCanon: request-target canonicalization
    (crates/openshell-supervisor-network/src/l7/path.rs)

    The L7 proxy evaluates path rules on, and forwards, the path this function
    returns. The theorems say what it may contain: no dot segment, no doubled
    slash, no byte outside the path alphabet, a [%2F] only where one was sent
    and the endpoint allows it, and a second canonicalization changes nothing. *)

From Stdlib Require Import ZifyBool.
From S2P Require Import Prelude.

(** ** The [http] crate *)

(** [str::parse::<http::Uri>] and the two accessors the code reads. The path is
    a part of the text that was parsed, or the default slash; a target that
    starts with a slash is in origin form, which has no scheme. *)
Class HttpUri := {
  Uri : Type;
  uri_parse : bytes → option Uri;
  uri_scheme : Uri → option bytes;
  uri_path : Uri → bytes;
  uri_path_bytes s u b : uri_parse s = Some u → b ∈ uri_path u → b ∈ s ∨ b = 47;
  uri_origin_form s u : uri_parse (47 :: s) = Some u → uri_scheme u = None;
}.

(** ** Data *)

Inductive CanonicalizeError : Type :=
| NullOrControlByte
| InvalidPercentEncoding
| EncodedSlashNotAllowed
| FragmentInRequestTarget
| NonAscii
| TraversalAboveRoot
| ResidualDotSegment
| PathTooLong
| MalformedTarget.

#[export] Instance CanonicalizeError_eq_dec : EqDecision CanonicalizeError.
Proof. solve_decision. Defined.

Record CanonicalizeOptions := {
  allow_encoded_slash : bool;
  strip_path_params : bool;  (** the field [strip_path_parameters] *)
}.

Definition default_options : CanonicalizeOptions :=
  {| allow_encoded_slash := false; strip_path_params := true |}.

Record CanonicalPath := {
  path : bytes;
  rewritten : bool;
}.

Definition MAX_PATH_LEN : Z := 4 * 1024.
Definition ENCODED_SLASH_SENTINEL : Z := 0x01.

(** ** Operations *)

Definition decode_hex (b : Z) : option Z :=
  if (48 <=? b) && (b <=? 57) then Some (b - 48)
  else if (97 <=? b) && (b <=? 102) then Some (b - 97 + 10)
  else if (65 <=? b) && (b <=? 70) then Some (b - 65 + 10)
  else None.

(** The [unreachable!] arm of the code is the last one. *)
Definition upper_hex_nibble (n : Z) : Z :=
  if (0 <=? n) && (n <=? 9) then 48 + n
  else if (10 <=? n) && (n <=? 15) then 65 + (n - 10)
  else 0.

Definition is_pchar_unreserved (b : Z) : bool :=
  is_ascii_alphanumeric b || contains_byte b (lit "-._~!$&'()*+,;=:@").

Fixpoint percent_decode_with_sentinel (raw : bytes) (allow : bool)
  : result bytes CanonicalizeError :=
  match raw with
  | [] => Ok []
  | b :: rest =>
      if b =? ENCODED_SLASH_SENTINEL then Err NullOrControlByte
      else if b =? 37 then
        match rest with
        | h :: l :: rest' =>
            match decode_hex h, decode_hex l with
            | Some hi, Some lo =>
                let decoded := Z.lor (Z.shiftl hi 4) lo in
                if decoded =? 47 then
                  if negb allow then Err EncodedSlashNotAllowed
                  else
                    let? out := percent_decode_with_sentinel rest' allow in
                    Ok (ENCODED_SLASH_SENTINEL :: out)
                else if (decoded =? 0) || (decoded =? 0x7F)
                        || ((decoded <? 0x20) && negb (decoded =? 9)) then Err NullOrControlByte
                else if (decoded =? 10) || (decoded =? 13) || (decoded =? 9) then
                  Err NullOrControlByte
                else
                  let? out := percent_decode_with_sentinel rest' allow in
                  Ok (decoded :: out)
            | _, _ => Err InvalidPercentEncoding
            end
        | _ => Err InvalidPercentEncoding
        end
      else
        let? out := percent_decode_with_sentinel rest allow in
        Ok (b :: out)
  end.

Fixpoint strip_path_parameters (seg : bytes) : bytes :=
  match seg with
  | [] => []
  | b :: seg => if b =? 59 then [] else b :: strip_path_parameters seg
  end.

(** [decoded[1..]]: the caller has checked that the path starts with a slash. *)
Definition split_path_segments (decoded : bytes) : list bytes :=
  split_on 47 (drop 1 decoded).

Definition dot : bytes := [46].
Definition dotdot : bytes := [46; 46].

(** The loop over the segments. The stack is kept with its top first; a
    segment is the last one when no segment follows it. *)
Fixpoint resolve_dot_segments_go (stack : list bytes) (segments : list bytes)
  : result (list bytes) CanonicalizeError :=
  match segments with
  | [] => Ok (reverse stack)
  | seg :: rest =>
      let last := match rest with [] => true | _ => false end in
      if decide (seg = dotdot) then
        match stack with
        | [] => Err TraversalAboveRoot
        | _ :: stack =>
            resolve_dot_segments_go (if last then [] :: stack else stack) rest
        end
      else if decide (seg = dot) then
        resolve_dot_segments_go (if last then [] :: stack else stack) rest
      else if bool_decide (seg = []) && negb last then
        resolve_dot_segments_go stack rest
      else resolve_dot_segments_go (seg :: stack) rest
  end.
Definition resolve_dot_segments (segments : list bytes)
  : result (list bytes) CanonicalizeError :=
  resolve_dot_segments_go [] segments.

(** One byte of a segment as it is written to the wire. *)
Definition encode_byte (b : Z) : bytes :=
  if b =? ENCODED_SLASH_SENTINEL then lit "%2F"
  else if is_pchar_unreserved b then [b]
  else [37; upper_hex_nibble (Z.shiftr b 4); upper_hex_nibble (Z.land b 0x0F)].

Definition encode_segment (seg : bytes) : bytes := concat (map encode_byte seg).

Fixpoint build_segments (first : bool) (segments : list bytes) (opts : CanonicalizeOptions)
  : bytes :=
  match segments with
  | [] => []
  | seg :: segments =>
      (if first then [] else [47])
      ++ encode_segment (if strip_path_params opts then strip_path_parameters seg else seg)
      ++ build_segments false segments opts
  end.
(** The trailing-slash hint is not read by the code either. *)
Definition build_canonical_path (segments : list bytes) (opts : CanonicalizeOptions) : bytes :=
  47 :: build_segments true segments opts.

Definition canonical_path_has_encoded_slash (canonical_path : bytes) : bool :=
  contains_sub (lit "%2F") canonical_path.

(** Step 1: the first offending byte decides the error. *)
Fixpoint reject_bytes (target : bytes) : option CanonicalizeError :=
  match target with
  | [] => None
  | b :: target =>
      if (b =? 0) || (b =? 10) || (b =? 13) || (b =? 9) || (b =? 0x7F) then
        Some NullOrControlByte
      else if b <? 0x20 then Some NullOrControlByte
      else if 0x80 <=? b then Some NonAscii
      else reject_bytes target
  end.

(** Step 9b. *)
Definition has_residual_dot (resolved : list bytes) : bool :=
  existsb (λ seg, existsb (λ part, bool_decide (part = dotdot) || bool_decide (part = dot))
                    (split_on ENCODED_SLASH_SENTINEL seg)) resolved.

(** Steps 5 to 10, on the path the target names. *)
Definition canonicalize_raw_path (raw_path : bytes) (opts : CanonicalizeOptions)
  : result CanonicalPath CanonicalizeError :=
  let raw_path := match raw_path with [] => [47] | _ => raw_path end in
  if negb (starts_with [47] raw_path) then Err MalformedTarget
  else if MAX_PATH_LEN <? Z.of_nat (length raw_path) then Err PathTooLong
  else
    let? decoded := percent_decode_with_sentinel raw_path (allow_encoded_slash opts) in
    let segments := split_path_segments decoded in
    let segments :=
      if strip_path_params opts then map strip_path_parameters segments else segments in
    let? resolved := resolve_dot_segments segments in
    if has_residual_dot resolved then Err ResidualDotSegment
    else
      let canonical := build_canonical_path resolved opts in
      Ok {| path := canonical; rewritten := negb (bool_decide (canonical = raw_path)) |}.

Section canonicalize.
Context {http_uri : HttpUri}.

(** Steps 3 and 4: the query after the first [?], and the path of the target,
    without its authority when it is in absolute form. *)
Definition split_target (target : bytes) : bytes * option bytes :=
  match split_once 63 target with
  | Some (p, q) => (p, Some q)
  | None => (target, None)
  end.
Definition raw_path_of (path_part : bytes) : bytes :=
  let absolute_form_uri :=
    match uri_parse path_part with
    | Some uri => if is_some (uri_scheme uri) then Some uri else None
    | None => None
    end in
  match absolute_form_uri with
  | Some uri => match uri_path uri with [] => [47] | p => p end
  | None => path_part
  end.

Definition canonicalize_request_target (target : bytes) (opts : CanonicalizeOptions)
  : result (CanonicalPath * option bytes) CanonicalizeError :=
  match reject_bytes target with
  | Some e => Err e
  | None =>
      if contains_byte 35 target then Err FragmentInRequestTarget
      else
        let '(path_part, query_part) := split_target target in
        let? p := canonicalize_raw_path (raw_path_of path_part) opts in
        Ok (p, query_part)
  end.
End canonicalize.

(** A model of the interface: a scheme is what comes before [://] when it
    starts with a letter, the path what follows the authority. *)
Definition simple_uri_parse (s : bytes) : option (option bytes * bytes) :=
  match split_once 58 s with
  | Some (c :: scheme, rest) =>
      if is_ascii_alphabetic c then
        match strip_prefix [47; 47] rest with
        | Some rest =>
            match split_once 47 rest with
            | Some (_, p) => Some (Some (c :: scheme), 47 :: p)
            | None => Some (Some (c :: scheme), [47])
            end
        | None => None
        end
      else if c =? 47 then Some (None, s) else None
  | _ => if starts_with [47] s then Some (None, s) else None
  end.

#[export] Program Instance simple_uri : HttpUri := {|
  Uri := option bytes * bytes;
  uri_parse := simple_uri_parse;
  uri_scheme := fst;
  uri_path := snd;
|}.
Next Obligation.
  intros s [sch p] b. unfold simple_uri_parse; cbn [fst snd].
  destruct (split_once 58 s) as [[[|c q] rest]|] eqn:E.
  - case_match; intros [= <- <-]; auto.
  - apply split_once_Some in E as [-> _].
    destruct (is_ascii_alphabetic c); [|destruct (c =? 47); intros [= <- <-]; auto].
    destruct (strip_prefix [47; 47] rest) as [r|] eqn:Er; [|done].
    apply strip_prefix_Some in Er as ->.
    destruct (split_once 47 r) as [[r1 r2]|] eqn:Es; intros [= <- <-].
    + apply split_once_Some in Es as [-> _]. set_solver.
    + set_solver.
  - case_match; intros [= <- <-]; auto.
Qed.
Next Obligation.
  intros s [sch p]. unfold simple_uri_parse; simpl.
  destruct (split_once 58 s) as [[q rest]|]; simpl; by intros [= <- <-].
Qed.

(** ** The alphabet *)

(** Bytes the result may hold. *)
Definition path_char (b : Z) : bool := is_pchar_unreserved b || (b =? 37) || (b =? 47).

(** Bytes a decoded path may hold: the sentinel when encoded slashes are
    allowed, and printable or non-ASCII bytes. *)
Definition decoded_ok (allow : bool) (b : Z) : Prop :=
  (b = ENCODED_SLASH_SENTINEL ∧ allow = true) ∨ (0x20 ≤ b ≤ 0xff ∧ b ≠ 0x7f).

Lemma pchar_range b :
  is_pchar_unreserved b = true → 0x21 ≤ b ≤ 0x7e ∧ b ≠ 35 ∧ b ≠ 37 ∧ b ≠ 47 ∧ b ≠ 63.
Proof.
  unfold is_pchar_unreserved, is_ascii_alphanumeric, is_ascii_alphabetic, is_ascii_digit,
    contains_byte, lit, byte_of_ascii. simpl. lia.
Qed.

Lemma path_char_range b : path_char b = true → 0x21 ≤ b ≤ 0x7e ∧ b ≠ 35 ∧ b ≠ 63.
Proof.
  unfold path_char. rewrite !orb_true_iff, !Z.eqb_eq.
  intros [[H%pchar_range| ->]| ->]; lia.
Qed.

Lemma pchar_path_char b : is_pchar_unreserved b = true → path_char b = true ∧ b ≠ 47.
Proof. intros H. unfold path_char. rewrite H. apply pchar_range in H. split; [done|lia]. Qed.

(** Every byte is recovered from its two hexadecimal digits. *)
Definition escape_ok (b : Z) : bool :=
  let hi := upper_hex_nibble (Z.shiftr b 4) in
  let lo := upper_hex_nibble (Z.land b 0x0F) in
  is_pchar_unreserved hi && is_pchar_unreserved lo &&
  match decode_hex hi, decode_hex lo with
  | Some h, Some l => Z.lor (Z.shiftl h 4) l =? b
  | _, _ => false
  end.

Lemma escape_ok_all b : 0 ≤ b < 256 → escape_ok b = true.
Proof.
  intros Hb. assert (forallb escape_ok (seqZ 0 256) = true) as H by (vm_compute; done).
  rewrite forallb_forall in H. apply H, list_elem_of_In, elem_of_seqZ. lia.
Qed.

Lemma decoded_ok_byte allow b : decoded_ok allow b → 0 ≤ b < 256.
Proof. unfold decoded_ok, ENCODED_SLASH_SENTINEL. lia. Qed.

Lemma encode_byte_chars allow b :
  decoded_ok allow b → Forall (λ c, path_char c = true ∧ c ≠ 47) (encode_byte b).
Proof.
  intros Hb. pose proof (escape_ok_all b (decoded_ok_byte _ _ Hb)) as He.
  unfold encode_byte. destruct (_ =? _) eqn:E1; [by repeat constructor|].
  destruct (is_pchar_unreserved b) eqn:E2.
  - constructor; [by apply pchar_path_char|constructor].
  - unfold escape_ok in He. apply andb_true_iff in He as [[Hh Hl]%andb_true_iff _].
    apply pchar_path_char in Hh, Hl. by repeat apply Forall_cons_2.
Qed.

Lemma encode_segment_chars allow seg :
  Forall (decoded_ok allow) seg → Forall (λ c, path_char c = true ∧ c ≠ 47) (encode_segment seg).
Proof.
  induction 1 as [|b seg Hb _ IH]; [constructor|].
  apply Forall_app_2; [by eapply encode_byte_chars|done].
Qed.

(** Decoding one encoded byte gives it back. *)
Lemma decode_encode_byte allow b rest :
  decoded_ok allow b → b ≠ 47 →
  percent_decode_with_sentinel (encode_byte b ++ rest) allow
  = let? out := percent_decode_with_sentinel rest allow in Ok (b :: out).
Proof.
  intros Hb Hs. pose proof (escape_ok_all b (decoded_ok_byte _ _ Hb)) as He.
  unfold encode_byte, decoded_ok, ENCODED_SLASH_SENTINEL in *.
  destruct (Z.eqb_spec b 1) as [->|H1].
  - destruct Hb as [[_ ->]|]; [reflexivity|lia].
  - destruct (is_pchar_unreserved b) eqn:E2.
    + apply pchar_range in E2. cbn [app percent_decode_with_sentinel].
      unfold ENCODED_SLASH_SENTINEL.
      by rewrite (proj2 (Z.eqb_neq b 1)), (proj2 (Z.eqb_neq b 37)) by lia.
    + unfold escape_ok in He. apply andb_true_iff in He as [_ He].
      cbn [app percent_decode_with_sentinel]. unfold ENCODED_SLASH_SENTINEL. simpl (_ =? _).
      destruct (decode_hex _) as [h|]; [|done].
      destruct (decode_hex _) as [l|]; [|done].
      apply Z.eqb_eq in He as ->. cbn zeta.
      replace (b =? 47) with false by lia.
      replace (_ || _) with false by lia. by replace (_ || _) with false by lia.
Qed.

Lemma decode_encode_segment allow seg rest :
  Forall (λ b, decoded_ok allow b ∧ b ≠ 47) seg →
  percent_decode_with_sentinel (encode_segment seg ++ rest) allow
  = let? out := percent_decode_with_sentinel rest allow in Ok (seg ++ out).
Proof.
  induction 1 as [|b seg [Hb Hs] _ IH]; simpl; [by case_match|].
  change (encode_segment (b :: seg)) with (encode_byte b ++ encode_segment seg).
  rewrite <- app_assoc, decode_encode_byte, IH by done. by case_match.
Qed.

Lemma decode_join allow segs :
  Forall (Forall (λ b, decoded_ok allow b ∧ b ≠ 47)) segs →
  percent_decode_with_sentinel (join_with 47 (map encode_segment segs)) allow
  = Ok (join_with 47 segs).
Proof.
  induction 1 as [|seg segs Hseg Hsegs IH]; [done|].
  destruct segs as [|seg' segs].
  - change (join_with 47 (map encode_segment [seg])) with (encode_segment seg).
    pose proof (decode_encode_segment allow seg [] Hseg) as H.
    rewrite app_nil_r in H. rewrite H. simpl. by rewrite app_nil_r.
  - change (join_with 47 (map encode_segment (seg :: seg' :: segs)))
      with (encode_segment seg ++ 47 :: join_with 47 (map encode_segment (seg' :: segs))).
    rewrite decode_encode_segment by done.
    change (percent_decode_with_sentinel (47 :: ?x) allow)
      with (let? out := percent_decode_with_sentinel x allow in Ok (47 :: out)).
    by rewrite IH.
Qed.

Lemma nibbles_byte hi lo :
  0 ≤ hi < 16 → 0 ≤ lo < 16 → 0 ≤ Z.lor (Z.shiftl hi 4) lo < 256.
Proof.
  intros Hh Hl.
  assert (forallb (λ h, forallb (λ l, is_byte (Z.lor (Z.shiftl h 4) l)) (seqZ 0 16))
            (seqZ 0 16) = true) as H by (vm_compute; done).
  rewrite forallb_forall in H. specialize (H hi).
  rewrite forallb_forall in H. unfold is_byte in H.
  assert (lo ∈ seqZ 0 16 ∧ hi ∈ seqZ 0 16) as [Ho Hi] by (rewrite !elem_of_seqZ; lia).
  apply list_elem_of_In in Ho, Hi. specialize (H Hi lo Ho). lia.
Qed.

Lemma decode_hex_range b h : decode_hex b = Some h → 0 ≤ h < 16.
Proof. unfold decode_hex. repeat case_match; intros; simplify_eq; lia. Qed.

(** What decoding a printable path yields. *)
Lemma decode_ok allow raw out :
  Forall (λ b, 0x20 ≤ b ≤ 0x7e) raw →
  percent_decode_with_sentinel raw allow = Ok out → Forall (decoded_ok allow) out.
Proof.
  revert out. induction raw as [raw IH] using (induction_ltof1 _ (@length Z)).
  unfold ltof in IH. intros out Hraw. destruct raw as [|b rest]; [by intros [= <-]|].
  inversion_clear Hraw as [|?? Hb Hrest]. cbn [percent_decode_with_sentinel].
  unfold ENCODED_SLASH_SENTINEL. destruct (b =? 1); [done|]. destruct (b =? 37).
  - destruct rest as [|h [|l rest]]; [done..|].
    destruct (decode_hex h) as [hi|] eqn:Eh, (decode_hex l) as [lo|] eqn:El; [|done..].
    inversion_clear Hrest as [|?? _ Hrest']. inversion_clear Hrest' as [|?? _ Hrest].
    pose proof (nibbles_byte hi lo (decode_hex_range _ _ Eh) (decode_hex_range _ _ El)).
    cbn zeta. destruct (Z.eqb_spec (Z.lor (Z.shiftl hi 4) lo) 47).
    + destruct allow; simpl; [|done].
      destruct (percent_decode_with_sentinel rest true) eqn:E; simpl; [intros [= <-]|done].
      constructor; [by left|]. apply (IH rest); [simpl; lia|done..].
    + case_match eqn:E1; [done|]. case_match eqn:E2; [done|].
      destruct (percent_decode_with_sentinel rest allow) eqn:E; simpl; [intros [= <-]|done].
      constructor; [right; lia|]. apply (IH rest); [simpl; lia|done..].
  - destruct (percent_decode_with_sentinel rest allow) eqn:E; simpl; [intros [= <-]|done].
    constructor; [right; lia|]. apply (IH rest); [simpl; lia|done..].
Qed.

(** ** Dot segments *)

Definition clean (seg : bytes) : Prop := seg ≠ dot ∧ seg ≠ dotdot.

(** The segments that resolution leaves: all clean, and only the last one may
    be empty. *)
Definition resolved_ok (segs : list bytes) : Prop :=
  ∃ init l, segs = init ++ [l] ∧ Forall (λ seg, clean seg ∧ seg ≠ []) init ∧ clean l.

Lemma clean_nil : clean [].
Proof. done. Qed.

Lemma resolve_go_ok stack segs r :
  segs ≠ [] → Forall (λ seg, clean seg ∧ seg ≠ []) stack →
  resolve_dot_segments_go stack segs = Ok r →
  resolved_ok r ∧ ∀ seg, seg ∈ r → seg = [] ∨ seg ∈ stack ∨ seg ∈ segs.
Proof.
  revert stack. induction segs as [|seg rest IH]; intros stack Hne Hst; [done|].
  assert (∀ st l, Forall (λ seg, clean seg ∧ seg ≠ []) st → clean l →
    resolved_ok (reverse (l :: st))) as Hend.
  { intros st l ??. exists (reverse st), l. rewrite reverse_cons.
    split; [done|]. by rewrite Forall_reverse. }
  assert (∀ (x : bytes) (st : list bytes) l, x ∈ reverse (l :: st) → x = l ∨ x ∈ st) as Hrev.
  { intros x st l. by rewrite elem_of_reverse, elem_of_cons. }
  cbn [resolve_dot_segments_go].
  destruct rest as [|s' rest].
  - clear IH. simpl. rewrite andb_false_r. destruct (decide (seg = dotdot)).
    { destruct stack as [|top stack]; [done|]. intros [= <-].
      inversion_clear Hst. split; [by apply Hend|].
      intros x [->|Hx]%Hrev; [by left|right; left; by constructor]. }
    destruct (decide (seg = dot)); intros [= <-];
      (split; [by apply Hend|]; intros x [->|Hx]%Hrev; auto using list_elem_of_here).
  - assert (∀ (r st : list bytes),
      (∀ x, x ∈ r → x = [] ∨ x ∈ st ∨ x ∈ s' :: rest) → (∀ x, x ∈ st → x ∈ stack ∨ x = seg) →
      ∀ x, x ∈ r → x = [] ∨ x ∈ stack ∨ x ∈ seg :: s' :: rest) as Hup.
    { intros r' st H1 H2 x Hx. rewrite elem_of_cons.
      destruct (H1 x Hx) as [|[Hst'|]]; [by auto|destruct (H2 x Hst'); auto|by auto]. }
    cbn zeta. destruct (decide (seg = dotdot)).
    { destruct stack as [|top stack]; [done|]. inversion_clear Hst. intros Hr.
      destruct (IH stack) as [? Hin]; [done..|]. split; [done|].
      apply (Hup r stack Hin). intros; left; by constructor. }
    destruct (decide (seg = dot)).
    { intros Hr. destruct (IH stack) as [? Hin]; [done..|]. split; [done|].
      apply (Hup r stack Hin); auto. }
    case_bool_decide; simpl negb; cbn [andb].
    { intros Hr. destruct (IH stack) as [? Hin]; [done..|]. split; [done|].
      apply (Hup r stack Hin); auto. }
    intros Hr. destruct (IH (seg :: stack)) as [? Hin]; [done|by constructor|done|].
    split; [done|]. apply (Hup r (seg :: stack) Hin).
    intros x [->|]%elem_of_cons; auto.
Qed.

(** Resolution leaves resolved segments as they are. *)
Lemma resolve_go_id stack init l :
  Forall (λ seg, clean seg ∧ seg ≠ []) init → clean l →
  resolve_dot_segments_go stack (init ++ [l]) = Ok (reverse stack ++ init ++ [l]).
Proof.
  intros Hi [Hd Hdd]. revert stack. induction Hi as [|seg init [[Hd' Hdd'] Hne] _ IH];
    intros stack; cbn [app resolve_dot_segments_go].
  - rewrite !decide_False, andb_false_r by done. by rewrite reverse_cons.
  - rewrite !decide_False, bool_decide_eq_false_2 by done. cbn [andb].
    rewrite IH, reverse_cons. by rewrite <- app_assoc.
Qed.

(** The number of segments above the root, a [..] taking one away. *)
Definition segment_depth (seg : bytes) : Z :=
  if decide (seg = dotdot) then -1 else if decide (seg = dot ∨ seg = []) then 0 else 1.
Definition depth (segs : list bytes) : Z := foldr (λ seg n, segment_depth seg + n) 0 segs.

(** The loop's result in terms of the depth: [n] is the height of the stack. *)
Definition traversal_spec (n : Z) (segs : list bytes)
  (r : result (list bytes) CanonicalizeError) : Prop :=
  (∃ l, r = Ok l) ∧ (∀ k, 0 ≤ n + depth (take k segs))
  ∨ r = Err TraversalAboveRoot ∧ (∃ k, n + depth (take k segs) < 0).

Lemma traversal_spec_step n n' seg rest r :
  0 ≤ n → n' = n + segment_depth seg →
  traversal_spec n' rest r → traversal_spec n (seg :: rest) r.
Proof.
  intros Hn -> [[Hok Hk]|[-> [k Hk]]].
  - left. split; [done|]. intros [|k]; simpl; [lia|]. specialize (Hk k). lia.
  - right. split; [done|]. exists (S k). simpl. lia.
Qed.

Lemma traversal_spec_last n seg l :
  0 ≤ n → 0 ≤ n + segment_depth seg → traversal_spec n [seg] (Ok l).
Proof.
  intros Hn Hs. left. split; [by eexists|]. intros [|k]; simpl; [lia|].
  rewrite take_nil. simpl. lia.
Qed.

Lemma resolve_go_traversal stack segs :
  traversal_spec (Z.of_nat (length stack)) segs (resolve_dot_segments_go stack segs).
Proof.
  revert stack. induction segs as [|seg rest IH]; intros stack; cbn [resolve_dot_segments_go].
  { left. split; [by eexists|]. intros k. rewrite take_nil. simpl. lia. }
  assert (∀ stack' stack'',
    0 ≤ Z.of_nat (length stack) + segment_depth seg →
    Z.of_nat (length stack') = Z.of_nat (length stack) + segment_depth seg →
    traversal_spec (Z.of_nat (length stack)) (seg :: rest)
      (resolve_dot_segments_go (match rest with [] => stack'' | _ => stack' end) rest)) as Hstep.
  { intros stack' stack'' Hn Hl. destruct rest as [|s rest].
    - apply traversal_spec_last; lia.
    - eapply traversal_spec_step; [lia|exact Hl|]. apply IH. }
  unfold segment_depth in Hstep.
  destruct (decide (seg = dotdot)) as [->|Hdd].
  { destruct stack as [|top stack].
    - right. split; [done|]. by exists 1%nat.
    - specialize (Hstep stack ([] :: stack)). simpl length in *.
      destruct rest; apply Hstep; lia. }
  destruct (decide (seg = dot)) as [->|Hd].
  { specialize (Hstep stack ([] :: stack)). rewrite decide_True in Hstep by auto.
    destruct rest; apply Hstep; lia. }
  case_bool_decide as Hne.
  - specialize (Hstep stack (seg :: stack)). rewrite decide_True in Hstep by auto.
    destruct rest; apply Hstep; lia.
  - specialize (Hstep (seg :: stack) (seg :: stack)).
    rewrite decide_False in Hstep by naive_solver. simpl length in *.
    destruct rest; apply Hstep; lia.
Qed.

(** ** The canonical form *)

Lemma strip_path_parameters_id seg : 59 ∉ seg → strip_path_parameters seg = seg.
Proof.
  induction seg as [|b seg IH]; simpl; [done|]. intros [Hb Hs]%not_elem_of_cons.
  destruct (Z.eqb_spec b 59); [congruence|]. by rewrite IH.
Qed.

Lemma strip_path_parameters_elem seg b :
  b ∈ strip_path_parameters seg → b ≠ 59 ∧ b ∈ seg.
Proof.
  induction seg as [|x seg IH]; simpl; [by intros ?%not_elem_of_nil|].
  destruct (Z.eqb_spec x 59); [by intros ?%not_elem_of_nil|].
  rewrite !elem_of_cons. intros [->|?]; [by auto|]. destruct IH; auto.
Qed.

(** The segments of a canonical path. *)
Record canonical_segments (opts : CanonicalizeOptions) (segs : list bytes) : Prop := {
  cs_resolved : resolved_ok segs;
  cs_bytes : Forall (Forall (λ b, decoded_ok (allow_encoded_slash opts) b ∧ b ≠ 47)) segs;
  cs_residual : has_residual_dot segs = false;
  cs_params : strip_path_params opts = true → Forall (λ seg, 59 ∉ seg) segs;
}.

Lemma build_canonical_path_join opts segs :
  (strip_path_params opts = true → Forall (λ seg, 59 ∉ seg) segs) →
  build_canonical_path segs opts = 47 :: join_with 47 (map encode_segment segs).
Proof.
  intros Hp. unfold build_canonical_path. f_equal.
  assert (∀ seg, seg ∈ segs → (if strip_path_params opts then strip_path_parameters seg else seg)
                   = seg) as Hid.
  { intros seg Hin. destruct (strip_path_params opts); [|done].
    apply strip_path_parameters_id. specialize (Hp eq_refl).
    rewrite Forall_forall in Hp. apply Hp. by apply list_elem_of_In. }
  clear Hp. destruct segs as [|seg segs]; [done|]. cbn [build_segments].
  rewrite Hid by constructor. rewrite app_nil_l.
  assert (∀ s, s ∈ segs → (if strip_path_params opts then strip_path_parameters s else s) = s)
    as Hid' by (intros; apply Hid; by constructor). clear Hid.
  revert seg. induction segs as [|seg' segs IH]; intros seg; cbn [build_segments map].
  { by rewrite app_nil_r. }
  rewrite Hid' by constructor.
  change (join_with 47 (encode_segment seg :: encode_segment seg' :: map encode_segment segs))
    with (encode_segment seg ++ 47 :: join_with 47 (map encode_segment (seg' :: segs))).
  f_equal. apply (f_equal (cons 47)), IH. intros; apply Hid'; by constructor.
Qed.

Lemma resolved_ok_nonempty segs : resolved_ok segs → segs ≠ [].
Proof. intros (init & l & -> & _). by destruct init. Qed.

Lemma canonical_decode opts segs :
  canonical_segments opts segs →
  percent_decode_with_sentinel (build_canonical_path segs opts) (allow_encoded_slash opts)
  = Ok (47 :: join_with 47 segs).
Proof.
  intros [Hr Hb _ Hp]. rewrite build_canonical_path_join by done.
  change (percent_decode_with_sentinel (47 :: ?x) ?allow)
    with (let? out := percent_decode_with_sentinel x allow in Ok (47 :: out)).
  by rewrite decode_join.
Qed.

Lemma canonical_split opts segs :
  canonical_segments opts segs → split_path_segments (47 :: join_with 47 segs) = segs.
Proof.
  intros [Hr Hb _ _]. apply split_on_join; [by apply resolved_ok_nonempty|].
  eapply Forall_impl; [|exact Hb]. simpl. intros seg Hseg Hin.
  rewrite Forall_forall in Hseg. apply list_elem_of_In in Hin. by destruct (Hseg 47 Hin).
Qed.

(** A successful run: the result is built from canonical segments. *)
Lemma canonicalize_raw_path_ok raw opts cp :
  Forall (λ b, 0x20 ≤ b ≤ 0x7e) raw →
  canonicalize_raw_path raw opts = Ok cp →
  ∃ segs, canonical_segments opts segs ∧ path cp = build_canonical_path segs opts.
Proof.
  intros Hraw. unfold canonicalize_raw_path.
  set (raw' := match raw with [] => [47] | _ => raw end).
  assert (Forall (λ b, 0x20 ≤ b ≤ 0x7e) raw') as Hraw' by (destruct raw; [by repeat constructor|done]).
  destruct (starts_with _ raw'); [|done]. destruct (_ <? _); [done|]. simpl.
  destruct (percent_decode_with_sentinel raw' _) as [decoded|] eqn:Hd; [|done].
  apply decode_ok in Hd; [|done].
  set (segs := if strip_path_params opts then _ else _).
  destruct (resolve_dot_segments segs) as [resolved|] eqn:Hr; [|done].
  destruct (has_residual_dot resolved) eqn:Hres; [done|]. intros [= <-].
  exists resolved. split; [|done].
  assert (segs ≠ []) as Hne.
  { subst segs. pose proof (split_on_nonempty 47 (drop 1 decoded)).
    unfold split_path_segments. destruct (split_on _ _); [done|].
    by destruct (strip_path_params opts). }
  apply resolve_go_ok in Hr as [Hok Hin]; [|done|constructor].
  assert (∀ seg b, seg ∈ segs → b ∈ seg →
    decoded_ok (allow_encoded_slash opts) b ∧ b ≠ 47 ∧ (strip_path_params opts = true → b ≠ 59))
    as Hbytes.
  { intros seg b Hseg Hb. subst segs. rewrite Forall_forall in Hd.
    assert (∃ seg', seg' ∈ split_path_segments decoded ∧ b ∈ seg'
      ∧ (strip_path_params opts = true → b ≠ 59)) as (seg' & Hs & Hb' & H59).
    { destruct (strip_path_params opts); [|by eauto].
      apply list_elem_of_fmap in Hseg as (seg' & -> & ?).
      apply strip_path_parameters_elem in Hb as [??]. eauto. }
    apply (split_on_elem 47 (drop 1 decoded) seg' b) in Hs as [? Hdec]; [|done].
    split_and!; [|done..]. apply Hd, list_elem_of_In.
    destruct decoded; [by apply not_elem_of_nil in Hdec|by constructor]. }
  assert (∀ seg b, seg ∈ resolved → b ∈ seg → seg ∈ segs) as Hmem.
  { intros seg b Hs Hb. destruct (Hin seg Hs) as [->|[?|?]]; [..|done];
      by match goal with H : _ ∈ [] |- _ => apply not_elem_of_nil in H end. }
  split; [done| |done|].
  - apply Forall_forall. intros seg Hs%list_elem_of_In. apply Forall_forall.
    intros b Hb%list_elem_of_In. destruct (Hbytes seg b) as (?&?&?); eauto.
  - intros Hst. apply Forall_forall. intros seg Hs%list_elem_of_In Hb.
    destruct (Hbytes seg 59) as (?&?&H59); eauto. by apply H59.
Qed.

(** The canonical path of canonical segments is canonicalized to itself. *)
Lemma canonicalize_raw_path_id opts segs :
  canonical_segments opts segs →
  Z.of_nat (length (build_canonical_path segs opts)) ≤ MAX_PATH_LEN →
  canonicalize_raw_path (build_canonical_path segs opts) opts
  = Ok {| path := build_canonical_path segs opts; rewritten := false |}.
Proof.
  intros Hs Hlen. pose proof (canonical_decode opts segs Hs) as Hd.
  pose proof (canonical_split opts segs Hs) as Hsp. destruct Hs as [Hr Hb Hres Hp].
  set (raw := build_canonical_path segs opts) in *. unfold canonicalize_raw_path.
  change (match raw with [] => [47] | _ => raw end) with raw.
  change (starts_with [47] raw) with true. cbn [negb].
  replace (MAX_PATH_LEN <? Z.of_nat (length raw)) with false by lia.
  rewrite Hd, Hsp.
  assert ((if strip_path_params opts then map strip_path_parameters segs else segs) = segs) as ->.
  { destruct (strip_path_params opts); [|done]. specialize (Hp eq_refl).
    clear -Hp. induction Hp as [|seg segs Hseg _ IH]; simpl; [done|].
    by rewrite strip_path_parameters_id, IH. }
  destruct Hr as (init & l & -> & Hi & Hl). unfold resolve_dot_segments.
  rewrite resolve_go_id, app_nil_l, Hres by done. fold raw.
  by rewrite bool_decide_eq_true_2.
Qed.

Lemma join_chars opts segs :
  canonical_segments opts segs →
  Forall (λ c, path_char c = true) (build_canonical_path segs opts).
Proof.
  intros [_ Hb _ Hp]. rewrite build_canonical_path_join by done. constructor; [done|].
  clear Hp. induction Hb as [|seg segs Hseg _ IH]; [constructor|].
  assert (Forall (λ c, path_char c = true) (encode_segment seg)) as Henc.
  { eapply Forall_impl; [|eapply encode_segment_chars].
    - by intros c [??].
    - eapply Forall_impl; [|exact Hseg]. by intros b [??]. }
  destruct segs as [|seg' segs]; [done|].
  apply Forall_app_2; [done|]. by constructor.
Qed.

Lemma reject_bytes_None target :
  reject_bytes target = None ↔ Forall (λ b, 0x20 ≤ b ≤ 0x7e) target.
Proof.
  induction target as [|b target IH]; simpl; [done|]. rewrite Forall_cons_iff, <- IH.
  do 3 (case_match; [split; [done|intros [? _]; lia]|]).
  split; [intros; split; [lia|done]|by intros [_ ?]].
Qed.

Section theorems.
Context {http_uri : HttpUri}.

Lemma raw_path_of_printable target :
  Forall (λ b, 0x20 ≤ b ≤ 0x7e) target →
  Forall (λ b, 0x20 ≤ b ≤ 0x7e) (raw_path_of (split_target target).1).
Proof.
  intros Ht. rewrite Forall_forall in Ht. setoid_rewrite <- list_elem_of_In in Ht.
  assert (∀ b, b ∈ (split_target target).1 → 0x20 ≤ b ≤ 0x7e) as Hp.
  { intros b. unfold split_target. destruct (split_once 63 target) as [[p q]|] eqn:E; [|auto].
    apply split_once_Some in E as [-> _]. simpl. intros. apply Ht.
    apply elem_of_app. by left. }
  unfold raw_path_of. revert Hp. generalize (split_target target).1. intros p Hp.
  apply Forall_forall. setoid_rewrite <- list_elem_of_In.
  destruct (uri_parse p) as [u|] eqn:Eu; [|auto]. destruct (is_some _); [|auto].
  intros b Hb. assert (b ∈ uri_path u ∨ b = 47) as [Hin| ->]; [..|lia].
  { destruct (uri_path u); [right|by left]. by apply list_elem_of_singleton in Hb. }
  destruct (uri_path_bytes p u b Eu Hin) as [| ->]; [auto|lia].
Qed.

Lemma canonicalize_ok target opts cp q :
  canonicalize_request_target target opts = Ok (cp, q) →
  ∃ segs, canonical_segments opts segs ∧ path cp = build_canonical_path segs opts.
Proof.
  unfold canonicalize_request_target. destruct (reject_bytes target) eqn:Hr; [done|].
  apply reject_bytes_None, raw_path_of_printable in Hr. destruct (contains_byte _ _); [done|].
  destruct (split_target target) as [p q']. simpl in Hr.
  destruct (canonicalize_raw_path _ opts) eqn:Hc; [|done]. intros [= <- <-].
  by eapply canonicalize_raw_path_ok.
Qed.

Lemma residual_clean segs :
  has_residual_dot segs = false →
  Forall (λ seg, Forall clean (split_on ENCODED_SLASH_SENTINEL seg)) segs.
Proof.
  intros H. apply Forall_forall. intros seg Hseg. apply Forall_forall. intros part Hpart.
  destruct (decide (part = dotdot ∨ part = dot)) as [Hd|Hd]; [|unfold clean; naive_solver].
  exfalso. enough (has_residual_dot segs = true) by congruence.
  apply existsb_exists. exists seg. split; [done|]. apply existsb_exists. exists part.
  split; [done|]. rewrite orb_true_iff, !bool_decide_eq_true. done.
Qed.

(** A path in which a byte is written as an escape only when it must be: every
    byte that stands for itself is a slash or a path character, and every escape
    has upper-case digits and stands for a byte that is no path character. *)
Inductive minimal_escapes : bytes → Prop :=
| minimal_nil : minimal_escapes []
| minimal_raw c s : c = 47 ∨ is_pchar_unreserved c = true → minimal_escapes s → minimal_escapes (c :: s)
| minimal_escape b h l hi lo s :
    decode_hex h = Some hi → decode_hex l = Some lo → b = Z.lor (Z.shiftl hi 4) lo →
    h < 97 → l < 97 → is_pchar_unreserved b = false →
    minimal_escapes s → minimal_escapes (37 :: h :: l :: s).

Lemma minimal_byte allow b s : decoded_ok allow b → minimal_escapes s → minimal_escapes (encode_byte b ++ s).
Proof.
  intros Hb Hs. pose proof (escape_ok_all b (decoded_ok_byte _ _ Hb)) as He. unfold encode_byte.
  destruct (_ =? _); [by apply (minimal_escape 47 50 70 2 15)|].
  destruct (is_pchar_unreserved b) eqn:Hp; [apply minimal_raw; [by right|done]|].
  unfold escape_ok in He. apply andb_true_iff in He as [[_ _]%andb_true_iff He].
  assert (∀ n, upper_hex_nibble n < 97) as Hup by (intros n; unfold upper_hex_nibble; repeat case_match; lia).
  destruct (decode_hex (upper_hex_nibble (Z.shiftr b 4))) as [hi|] eqn:Eh; [|done].
  destruct (decode_hex (upper_hex_nibble (Z.land b 15))) as [lo|] eqn:El; [|done].
  apply Z.eqb_eq in He. by apply (minimal_escape b _ _ hi lo).
Qed.
Lemma minimal_join allow segs :
  Forall (Forall (decoded_ok allow)) segs → minimal_escapes (join_with 47 (map encode_segment segs)).
Proof.
  assert (∀ seg s, Forall (decoded_ok allow) seg → minimal_escapes s → minimal_escapes (encode_segment seg ++ s)) as Hseg.
  { induction 1 as [|b seg Hb _ IH]; [done|]. intros Hs.
    change (encode_segment (b :: seg)) with (encode_byte b ++ encode_segment seg). rewrite <- app_assoc.
    eapply minimal_byte; [done|by apply IH]. }
  induction 1 as [|seg segs Hs _ IH]; [constructor|]. destruct segs as [|seg' segs].
  - change (join_with 47 (map encode_segment [seg])) with (encode_segment seg).
    rewrite <- (app_nil_r (encode_segment seg)). apply Hseg; [done|constructor].
  - change (join_with 47 (map encode_segment (seg :: seg' :: segs)))
      with (encode_segment seg ++ 47 :: join_with 47 (map encode_segment (seg' :: segs))).
    apply Hseg; [done|]. apply minimal_raw; [by left|done].
Qed.

(** C19: a path the canonicalizer returns is safe to match rules against and to
    forward. Decoding it gives back a list of segments, separated by single
    slashes, none of which is a [.] or [..], not even between encoded slashes;
    only the last one may be empty; no control byte is hidden in an escape; the
    text starts with a slash and holds only path characters, each byte that can
    stand for itself does, and the others are escaped with upper-case digits;
    and there is no [;] when parameters are stripped. *)
Theorem canonical_path_safe target opts cp q :
  canonicalize_request_target target opts = Ok (cp, q) →
  ∃ segs,
    percent_decode_with_sentinel (path cp) (allow_encoded_slash opts)
      = Ok (47 :: join_with 47 segs)
    ∧ split_path_segments (47 :: join_with 47 segs) = segs
    ∧ resolved_ok segs
    ∧ Forall (λ seg, Forall clean (split_on ENCODED_SLASH_SENTINEL seg)) segs
    ∧ Forall (Forall (decoded_ok (allow_encoded_slash opts))) segs
    ∧ head (path cp) = Some 47
    ∧ Forall (λ c, path_char c = true) (path cp)
    ∧ minimal_escapes (path cp)
    ∧ (strip_path_params opts = true → Forall (λ seg, 59 ∉ seg) segs).
Proof.
  intros (segs & Hs & ->)%canonicalize_ok. exists segs.
  pose proof (canonical_decode _ _ Hs). pose proof (canonical_split _ _ Hs).
  pose proof (join_chars _ _ Hs). destruct Hs as [Hr Hb Hres Hp].
  assert (Forall (Forall (decoded_ok (allow_encoded_slash opts))) segs) as Hd.
  { eapply Forall_impl; [|exact Hb]. intros seg Hseg. eapply Forall_impl; [|exact Hseg]. by intros b [??]. }
  split_and!; try done; [by apply residual_clean|].
  rewrite build_canonical_path_join by done. apply minimal_raw; [by left|by eapply minimal_join].
Qed.

(** Canonicalization is idempotent: the policy engine and an upstream that
    canonicalizes again agree on the path. The path may grow when raw bytes are
    escaped; one that has grown past the bound is refused the second time, and
    any other comes back as it is. *)
Theorem canonicalize_idempotent target opts cp q :
  canonicalize_request_target target opts = Ok (cp, q) →
  canonicalize_request_target (path cp) opts
  = if MAX_PATH_LEN <? Z.of_nat (length (path cp)) then Err PathTooLong
    else Ok ({| path := path cp; rewritten := false |}, None).
Proof.
  intros (segs & Hs & Hpath)%canonicalize_ok. rewrite Hpath in *.
  pose proof (join_chars _ _ Hs) as Hc.
  set (p := build_canonical_path segs opts) in *.
  assert (∀ b, b ∈ p → 0x21 ≤ b ≤ 0x7e ∧ b ≠ 35 ∧ b ≠ 63) as Hp.
  { intros b Hb%list_elem_of_In. rewrite Forall_forall in Hc. by apply path_char_range, Hc. }
  unfold canonicalize_request_target.
  assert (reject_bytes p = None) as ->.
  { apply reject_bytes_None, Forall_forall. intros b Hb%list_elem_of_In.
    specialize (Hp b Hb). lia. }
  assert (contains_byte 35 p = false) as ->.
  { apply not_true_iff_false. rewrite contains_byte_spec. intros Hb. apply Hp in Hb. lia. }
  assert (split_target p = (p, None)) as ->.
  { unfold split_target. rewrite (proj2 (split_once_None 63 p)); [done|].
    intros Hb. apply Hp in Hb. lia. }
  assert (raw_path_of p = p) as ->.
  { unfold raw_path_of. subst p. unfold build_canonical_path.
    destruct (uri_parse _) as [u|] eqn:Eu; [|done].
    by rewrite (uri_origin_form _ _ Eu). }
  subst p. destruct (Z.ltb_spec MAX_PATH_LEN (Z.of_nat (length (build_canonical_path segs opts)))) as [Hl|Hl];
    [|by rewrite canonicalize_raw_path_id].
  unfold canonicalize_raw_path, build_canonical_path in *. cbn [starts_with negb].
  by rewrite (proj2 (Z.ltb_lt _ _)).
Qed.

(** [contains "%2F"] looks through one encoded byte. *)
Lemma encoded_slash_step allow b rest :
  decoded_ok allow b → b ≠ 47 →
  contains_sub (lit "%2F") (encode_byte b ++ rest)
  = (b =? ENCODED_SLASH_SENTINEL) || contains_sub (lit "%2F") rest.
Proof.
  intros Hb Hs. pose proof (escape_ok_all b (decoded_ok_byte _ _ Hb)) as He.
  unfold encode_byte. destruct (b =? ENCODED_SLASH_SENTINEL) eqn:E1; [done|].
  assert (∀ c r, c ≠ 37 → contains_sub (lit "%2F") (c :: r) = contains_sub (lit "%2F") r) as Hskip.
  { intros c r Hc. change (lit "%2F") with [37; 50; 70].
    cbn [contains_sub]. unfold starts_with. cbn [strip_prefix].
    by destruct (Z.eqb_spec 37 c). }
  destruct (is_pchar_unreserved b) eqn:E2.
  { apply pchar_range in E2. simpl app. rewrite Hskip by lia. done. }
  unfold escape_ok in He. apply andb_true_iff in He as [[Hh Hl]%andb_true_iff He].
  apply pchar_range in Hh, Hl.
  set (h := upper_hex_nibble (Z.shiftr b 4)) in *.
  set (l := upper_hex_nibble (Z.land b 15)) in *.
  change ([37; h; l] ++ rest) with (37 :: h :: l :: rest).
  assert (contains_sub (lit "%2F") (37 :: h :: l :: rest)
    = starts_with (lit "%2F") (37 :: h :: l :: rest) || contains_sub (lit "%2F") (h :: l :: rest))
    as -> by done.
  rewrite !Hskip by lia.
  assert (starts_with (lit "%2F") (37 :: h :: l :: rest) = false) as ->; [|done].
  unfold starts_with. change (lit "%2F") with [37; 50; 70]. cbn [strip_prefix].
  destruct (Z.eqb_spec 50 h) as [<-|]; [|done]. destruct (Z.eqb_spec 70 l) as [<-|]; [|done].
  exfalso. apply Hs. apply Z.eqb_eq in He. by rewrite <- He.
Qed.

Lemma encoded_slash_segment allow seg rest :
  Forall (λ b, decoded_ok allow b ∧ b ≠ 47) seg →
  contains_sub (lit "%2F") (encode_segment seg ++ rest)
  = contains_byte ENCODED_SLASH_SENTINEL seg || contains_sub (lit "%2F") rest.
Proof.
  induction 1 as [|b seg [Hb Hs] _ IH]; [done|].
  change (encode_segment (b :: seg)) with (encode_byte b ++ encode_segment seg).
  rewrite <- app_assoc, (encoded_slash_step allow), IH by done.
  unfold contains_byte. cbn [existsb]. by rewrite (Z.eqb_sym b), orb_assoc.
Qed.

Lemma encoded_slash_join allow segs :
  Forall (Forall (λ b, decoded_ok allow b ∧ b ≠ 47)) segs →
  contains_sub (lit "%2F") (join_with 47 (map encode_segment segs))
  = existsb (contains_byte ENCODED_SLASH_SENTINEL) segs.
Proof.
  induction 1 as [|seg segs Hseg Hsegs IH]; [done|]. destruct segs as [|seg' segs].
  - change (join_with 47 (map encode_segment [seg])) with (encode_segment seg).
    pose proof (encoded_slash_segment allow seg [] Hseg) as H.
    by rewrite app_nil_r in H.
  - change (join_with 47 (map encode_segment (seg :: seg' :: segs)))
      with (encode_segment seg ++ 47 :: join_with 47 (map encode_segment (seg' :: segs))).
    rewrite (encoded_slash_segment allow) by done.
    change (contains_sub (lit "%2F") (47 :: ?x)) with (contains_sub (lit "%2F") x).
    by rewrite IH.
Qed.

(** The textual test [contains "%2F"] on a canonical path is exact: it
    holds exactly when an encoded slash was decoded inside a segment, which
    happens only on endpoints that allow one. *)
Theorem encoded_slash_exact target opts cp q :
  canonicalize_request_target target opts = Ok (cp, q) →
  (canonical_path_has_encoded_slash (path cp) = true
   ↔ ∃ decoded, percent_decode_with_sentinel (path cp) (allow_encoded_slash opts) = Ok decoded
       ∧ ENCODED_SLASH_SENTINEL ∈ decoded)
  ∧ (canonical_path_has_encoded_slash (path cp) = true → allow_encoded_slash opts = true).
Proof.
  intros (segs & Hs & Hpath)%canonicalize_ok.
  pose proof (canonical_decode _ _ Hs) as Hd. pose proof (canonical_split _ _ Hs) as Hsp.
  destruct Hs as [_ Hb _ Hp]. unfold canonical_path_has_encoded_slash.
  rewrite Hpath, Hd. rewrite build_canonical_path_join by done.
  change (contains_sub (lit "%2F") (47 :: ?x)) with (contains_sub (lit "%2F") x).
  rewrite (encoded_slash_join (allow_encoded_slash opts)) by done.
  rewrite existsb_exists. setoid_rewrite contains_byte_spec.
  assert (∀ seg, In seg segs → ENCODED_SLASH_SENTINEL ∈ seg → allow_encoded_slash opts = true)
    as Hallow.
  { intros seg Hseg Hin%list_elem_of_In. rewrite Forall_forall in Hb. specialize (Hb seg Hseg).
    rewrite Forall_forall in Hb. destruct (Hb _ Hin) as [[[_ ?]|[? _]] _]; [done|].
    unfold ENCODED_SLASH_SENTINEL in *. lia. }
  split; [|naive_solver]. split.
  - intros (seg & Hseg & Hin). eexists; split; [done|]. apply elem_of_cons; right.
    rewrite <- Hsp in Hseg. apply list_elem_of_In in Hseg.
    by destruct (split_on_elem _ _ _ _ Hseg Hin).
  - intros (d & [= <-] & Hin). apply elem_of_cons in Hin as [|Hin]; [done|].
    clear -Hin. induction segs as [|seg [|seg' segs] IH].
    + by apply not_elem_of_nil in Hin.
    + exists seg. split; [by left|done].
    + change (join_with 47 (seg :: seg' :: segs))
        with (seg ++ 47 :: join_with 47 (seg' :: segs)) in Hin.
      apply elem_of_app in Hin as [Hin|Hin]; [exists seg; split; [by left|done]|].
      apply elem_of_cons in Hin as [|Hin]; [done|].
      destruct (IH Hin) as (s & ? & ?). exists s. split; [by right|done].
Qed.
End theorems.

(** Resolution fails exactly when, at some point of the path, the [..]
    segments outnumber the named segments before them; the failure is
    [TraversalAboveRoot], never a silent clamp to the root. *)
Theorem resolve_dot_segments_traversal segs :
  ((∃ r, resolve_dot_segments segs = Ok r) ↔ ∀ k, 0 ≤ depth (take k segs))
  ∧ (resolve_dot_segments segs = Err TraversalAboveRoot ↔ ∃ k, depth (take k segs) < 0).
Proof.
  pose proof (resolve_go_traversal [] segs) as H. unfold traversal_spec in H. simpl in H.
  unfold resolve_dot_segments. setoid_rewrite Z.add_0_l in H.
  destruct H as [[[r ->] Hk]|[-> [k Hk]]]; split; split; try naive_solver.
  - intros [k ?]. specialize (Hk k). lia.
  - intros H. specialize (H k). lia.
Qed.

(** Instances of the theorems, with the model of the [http] crate. *)

Lemma canonical_path_safe_witness :
  canonicalize_request_target (lit "http://h/a/b/../%2e/c;x=1?y") default_options
    = Ok ({| path := lit "/a/c"; rewritten := true |}, Some (lit "y"))
  ∧ ∃ segs, percent_decode_with_sentinel (lit "/a/c") false = Ok (47 :: join_with 47 segs)
      ∧ resolved_ok segs.
Proof.
  assert (canonicalize_request_target (lit "http://h/a/b/../%2e/c;x=1?y") default_options
    = Ok ({| path := lit "/a/c"; rewritten := true |}, Some (lit "y"))) as H
    by (vm_compute; reflexivity).
  split; [exact H|].
  destruct (canonical_path_safe _ _ _ _ H) as (segs & Hd & _ & Hr & _). by exists segs.
Defined.

Lemma canonicalize_idempotent_witness :
  canonicalize_request_target (lit "/a b/./c") default_options
    = Ok ({| path := lit "/a%20b/c"; rewritten := true |}, None)
  ∧ canonicalize_request_target (lit "/a%20b/c") default_options
    = Ok ({| path := lit "/a%20b/c"; rewritten := false |}, None).
Proof.
  assert (canonicalize_request_target (lit "/a b/./c") default_options
    = Ok ({| path := lit "/a%20b/c"; rewritten := true |}, None)) as H
    by (vm_compute; reflexivity).
  split; [exact H|]. exact (canonicalize_idempotent _ _ _ _ H).
Defined.

Lemma encoded_slash_exact_witness :
  canonicalize_request_target (lit "/a%2fb")
      {| allow_encoded_slash := true; strip_path_params := true |}
    = Ok ({| path := lit "/a%2Fb"; rewritten := true |}, None)
  ∧ ∃ decoded, percent_decode_with_sentinel (lit "/a%2Fb") true = Ok decoded
      ∧ ENCODED_SLASH_SENTINEL ∈ decoded.
Proof.
  assert (canonicalize_request_target (lit "/a%2fb")
      {| allow_encoded_slash := true; strip_path_params := true |}
    = Ok ({| path := lit "/a%2Fb"; rewritten := true |}, None)) as H
    by (vm_compute; reflexivity).
  split; [exact H|]. apply (encoded_slash_exact _ _ _ _ H). vm_compute. reflexivity.
Defined.
