(* ===== verification/Search.v ===== *)
(** * Search: worklist search over a finite graph

    The host-pattern matcher and the overlap test of host patterns (Patterns.v)
    are both loops over a list of pending states and a set of visited ones.
    This file states the loop once, with the place where new states are put
    as a parameter, and proves that it terminates and decides reachability. *)

From stdpp Require Import relations.
From S2P Require Import Prelude.

Section search.
Context {A : Type} `{Countable A}.
Context (step : A → list A) (accept : A → bool).

(** Where the successors of a state are put in the rest of the worklist. *)
Context (add : list A → list A → list A).
Hypothesis add_perm : ∀ new rest, add new rest ≡ₚ new ++ rest.

(** [None]: the fuel has run out. *)
Fixpoint search (fuel : nat) (pending : list A) (visited : gset A) : option bool :=
  match fuel with
  | O => None
  | S fuel =>
      match pending with
      | [] => Some false
      | x :: rest =>
          if decide (x ∈ visited) then search fuel rest visited
          else if accept x then Some true
          else search fuel (add (step x) rest) ({[x]} ∪ visited)
      end
  end.

(** A state from which an accepting one can be reached. *)
Definition reaches (x : A) : Prop :=
  ∃ y, rtc (λ a b, b ∈ step a) x y ∧ accept y = true.

Lemma reaches_step x : reaches x ↔ accept x = true ∨ ∃ y, y ∈ step x ∧ reaches y.
Proof.
  split.
  - intros (y & Hrtc & Hy). inversion Hrtc; subst; [by left|].
    right. eexists; split; [done|]. by eexists.
  - intros [Hx|(y & Hy & z & Hz & Ha)]; [exists x; split; [constructor|done]|].
    exists z. split; [by econstructor|done].
Qed.

(** The loop's invariant: no visited state accepts, and every successor of one
    is visited or pending. *)
Definition explored (pending : list A) (visited : gset A) : Prop :=
  ∀ x, x ∈ visited → accept x = false ∧ ∀ y, y ∈ step x → y ∈ visited ∨ y ∈ pending.

Lemma explored_reaches pending visited x :
  explored pending visited → x ∈ visited → reaches x → ∃ y, y ∈ pending ∧ reaches y.
Proof.
  intros He Hx (z & Hrtc & Hz). induction Hrtc as [x|x y z Hy Hrtc IH].
  - by rewrite (proj1 (He x Hx)) in Hz.
  - destruct (proj2 (He x Hx) y Hy) as [Hv|Hp]; [by apply IH|].
    exists y. split; [done|]. by exists z.
Qed.

Lemma search_sound fuel pending visited :
  search fuel pending visited = Some true → ∃ x, x ∈ pending ∧ reaches x.
Proof using add_perm.
  revert pending visited. induction fuel as [|fuel IH]; intros pending visited; [done|].
  simpl. destruct pending as [|x rest]; [done|]. destruct (decide _).
  - intros (y & ? & ?)%IH. exists y. split; [by constructor|done].
  - destruct (accept x) eqn:Hx.
    + intros _. exists x. split; [constructor|]. apply reaches_step. by left.
    + intros (y & Hy & ?)%IH. rewrite add_perm in Hy. apply elem_of_app in Hy as [Hy|Hy].
      * exists x. split; [constructor|]. apply reaches_step. right. eauto.
      * exists y. split; [by constructor|done].
Qed.

Lemma search_complete fuel pending visited :
  explored pending visited →
  search fuel pending visited = Some false → ∀ x, x ∈ pending → ¬ reaches x.
Proof using add_perm.
  revert pending visited. induction fuel as [|fuel IH]; intros pending visited He; [done|].
  simpl. destruct pending as [|x rest]; [by intros _ x ?%not_elem_of_nil|].
  destruct (decide (x ∈ visited)) as [Hv|Hv].
  - intros Hs. assert (explored rest visited) as He'.
    { intros y Hy. destruct (He y Hy) as [? Hn]. split; [done|]. intros z Hz.
      destruct (Hn z Hz) as [|[->|]%elem_of_cons]; auto. }
    specialize (IH _ _ He' Hs). intros y [->|Hy]%elem_of_cons Hr; [|by apply (IH y)].
    destruct (explored_reaches _ _ x He' Hv Hr) as (z & ? & ?). by apply (IH z).
  - destruct (accept x) eqn:Hx; [done|]. intros Hs.
    assert (explored (add (step x) rest) ({[x]} ∪ visited)) as He'.
    { intros y Hy. setoid_rewrite add_perm. setoid_rewrite elem_of_app.
      setoid_rewrite elem_of_union. setoid_rewrite elem_of_singleton.
      apply elem_of_union in Hy as [->%elem_of_singleton|Hy]; [by auto|].
      destruct (He y Hy) as [? Hn]. split; [done|]. intros z Hz.
      destruct (Hn z Hz) as [|[->|]%elem_of_cons]; auto. }
    specialize (IH _ _ He' Hs). setoid_rewrite add_perm in IH.
    setoid_rewrite elem_of_app in IH.
    intros y [->|Hy]%elem_of_cons Hr; [|by apply (IH y); auto].
    apply reaches_step in Hr as [?|(z & ? & ?)]; [congruence|]. apply (IH z); auto.
Qed.

(** Termination: with at most [b] successors a state, in a finite universe. *)
Context (universe : gset A) (b : nat).
Hypothesis step_universe : ∀ x y, x ∈ universe → y ∈ step x → y ∈ universe.
Hypothesis step_length : ∀ x, (length (step x) ≤ b)%nat.

Lemma search_terminates fuel pending visited :
  (∀ x, x ∈ pending → x ∈ universe) →
  (length pending + b * size (universe ∖ visited) < fuel)%nat →
  ∃ r, search fuel pending visited = Some r.
Proof using add_perm step_universe step_length.
  revert pending visited. induction fuel as [|fuel IH]; intros pending visited Hu Hf; [lia|].
  simpl. destruct pending as [|x rest]; [by eexists|].
  destruct (decide (x ∈ visited)).
  { apply IH; [intros; apply Hu; by constructor|simpl in Hf; lia]. }
  destruct (accept x); [by eexists|]. apply IH.
  - intros y. rewrite add_perm, elem_of_app. intros [Hy|Hy].
    + apply (step_universe x); [|done]. apply Hu. constructor.
    + apply Hu. by constructor.
  - assert (size (universe ∖ visited) = S (size (universe ∖ ({[x]} ∪ visited)))) as Hsz.
    { assert (x ∈ universe) by (apply Hu; constructor).
      replace (universe ∖ visited) with ({[x]} ∪ universe ∖ ({[x]} ∪ visited)).
      2: { apply set_eq. intros y. destruct (decide (y = x)); set_solver. }
      rewrite size_union by set_solver. by rewrite size_singleton. }
    rewrite add_perm, length_app. specialize (step_length x). simpl in Hf. nia.
Qed.

(** The loop from one start state, with fuel for the whole universe, decides
    reachability. *)
Theorem search_decides fuel start :
  start ∈ universe → (1 + b * size universe < fuel)%nat →
  ∃ r, search fuel [start] ∅ = Some r ∧ (r = true ↔ reaches start).
Proof using add_perm step_universe step_length.
  intros Hs Hf. destruct (search_terminates fuel [start] ∅) as [r Hr].
  { by intros x ->%list_elem_of_singleton. }
  { simpl. rewrite difference_empty_L. lia. }
  exists r. split; [done|]. destruct r.
  - split; [intros _|done]. apply search_sound in Hr as (x & ->%list_elem_of_singleton & ?). done.
  - split; [done|]. intros Hx. exfalso.
    apply (search_complete fuel [start] ∅) with start; [by intros ? ?%not_elem_of_empty|done| |done].
    constructor.
Qed.
End search.
