(* ===== verification/Patterns.v ===== *)
(** * Patterns: host patterns, host selectors and endpoint paths
    (crates/openshell-core/src/host_pattern.rs and endpoint_path.rs)

    [HostPattern] models the compiled DNS patterns, [HostSelector] the
    include/exclude selectors and [EndpointPath] the path patterns. The [glob]
    crate is an interface ([Glob]). The matcher and the overlap test are the
    worklist loops of the code, run with fuel that is proved to be enough. *)

From S2P Require Import Prelude Search.

(** ** The [glob] crate *)

(** The characters that make a pattern more than a literal. *)
Definition is_glob_meta (c : Z) : bool := (c =? 42) || (c =? 63) || (c =? 91).

(** [glob::Pattern::new] ([None] for a [PatternError]) and [matches]. A text
    without metacharacters is a valid pattern that matches only itself. *)
Class Glob := {
  Pattern : Type;
  glob_new : bytes → option Pattern;
  glob_matches : Pattern → bytes → bool;
  glob_literal s :
    existsb is_glob_meta s = false →
    ∃ p, glob_new s = Some p ∧ ∀ t, glob_matches p t = bool_decide (t = s);
}.

(** A model of it: [*] and [?], and no character class. *)
Fixpoint simple_glob_matches (p s : bytes) : bool :=
  match p with
  | [] => match s with [] => true | _ => false end
  | c :: p =>
      if c =? 42 then
        (fix star (s : bytes) : bool :=
           simple_glob_matches p s || match s with [] => false | _ :: s => star s end) s
      else match s with
           | [] => false
           | d :: s => ((c =? 63) || (c =? d)) && simple_glob_matches p s
           end
  end.

Lemma simple_glob_literal s :
  existsb is_glob_meta s = false →
  ∃ p, (if contains_byte 91 s then None else Some s) = Some p
       ∧ ∀ t, simple_glob_matches p t = bool_decide (t = s).
Proof.
  intros Hm. exists s. split.
  - destruct (contains_byte 91 s) eqn:E; [|done]. exfalso.
    enough (existsb is_glob_meta s = true) by congruence.
    apply existsb_exists. unfold contains_byte in E. apply existsb_exists in E as (x & ? & Hx).
    exists x. split; [done|]. apply Z.eqb_eq in Hx as <-. done.
  - induction s as [|c s IH]; intros t.
    + destruct t; [done|]. by rewrite bool_decide_eq_false_2.
    + simpl in Hm. apply orb_false_iff in Hm as [Hc Hm]. unfold is_glob_meta in Hc.
      apply orb_false_iff in Hc as [[H1 H2]%orb_false_iff _]. simpl. rewrite H1, H2.
      destruct t as [|d t]; [done|]. rewrite IH by done. simpl.
      apply eq_true_iff_eq. rewrite andb_true_iff, Z.eqb_eq, !bool_decide_eq_true. naive_solver.
Qed.

#[export] Instance simple_glob : Glob := {|
  Pattern := bytes;
  glob_new s := if contains_byte 91 s then None else Some s;
  glob_matches := simple_glob_matches;
  glob_literal := simple_glob_literal;
|}.

(** ** Host patterns *)

Module HostPattern.
Section host_pattern.
Context {glob : Glob}.

Inductive HostLabelPattern : Type :=
| Recursive
| Label (source : bytes) (pattern : Pattern) (literal : bool).

Record t := mk {
  source : bytes;
  labels : list HostLabelPattern;
}.

Inductive error : Type :=
| EmptyPattern
| Whitespace
| BraceAlternates
| EmptyLabel
| InvalidGlob.

Definition compile_label (label : bytes) : result HostLabelPattern error :=
  if decide (label = lit "**") then Ok Recursive
  else match glob_new label with
       | Some pattern => Ok (Label label pattern (negb (existsb is_glob_meta label)))
       | None => Err InvalidGlob
       end.

Definition new (pattern : bytes) : result t error :=
  if decide (pattern = []) then Err EmptyPattern
  else if has_whitespace pattern then Err Whitespace
  else if existsb (λ ch, (ch =? 123) || (ch =? 125)) pattern then Err BraceAlternates
  else
    let source := to_ascii_lowercase pattern in
    if existsb (λ l, bool_decide (l = [])) (split_on 46 source) then Err EmptyLabel
    else
      let? labels := try_collect compile_label (split_on 46 source) in
      Ok (mk source labels).

(** A state of the matcher's loop is a pair of indices; the two pushes of a
    recursive label are in the code's order, so the second is popped first. *)
Definition match_step (labels : list HostLabelPattern) (host : list bytes)
  (st : nat * nat) : list (nat * nat) :=
  let '(pattern_idx, host_idx) := st in
  match labels !! pattern_idx with
  | Some Recursive =>
      if decide (host_idx < length host)%nat
      then [(S pattern_idx, S host_idx); (pattern_idx, S host_idx)] else []
  | Some (Label _ pattern _) =>
      match host !! host_idx with
      | Some label => if glob_matches pattern label then [(S pattern_idx, S host_idx)] else []
      | None => []
      end
  | None => []
  end.
Definition match_accept (labels : list HostLabelPattern) (host : list bytes)
  (st : nat * nat) : bool :=
  Nat.eqb st.1 (length labels) && Nat.eqb st.2 (length host).

(** [pending.pop()] takes the last state pushed. *)
Definition push_stack (new rest : list (nat * nat)) : list (nat * nat) := reverse new ++ rest.
(** [pending.pop_front()] takes the first one. *)
Definition push_queue (new rest : list (nat * nat)) : list (nat * nat) := rest ++ new.

(** More rounds than the loop can make: every state is expanded at most once
    and pushes at most three. *)
Definition rounds (n m : nat) : nat := (2 + 3 * (S n * S m))%nat.

Definition matches_normalized_labels (self : t) (host : list bytes) : bool :=
  if existsb (λ label, bool_decide (label = [])) host then false
  else
    default false
      (search (match_step (labels self) host) (match_accept (labels self) host) push_stack
        (S (rounds (length (labels self)) (length host))) [(0, 0)%nat] ∅).

Definition matches (self : t) (host : bytes) : bool :=
  matches_normalized_labels self (split_on 46 (to_ascii_lowercase host)).

Definition is_literal_label (l : HostLabelPattern) : bool :=
  match l with Label _ _ literal => literal | Recursive => false end.
Definition literal (self : t) : option bytes :=
  if forallb is_literal_label (labels self) then Some (source self) else None.

Definition is_universal (self : t) : bool :=
  match labels self with [Recursive] => true | _ => false end.

Definition label_patterns_may_overlap (left right : HostLabelPattern) : bool :=
  match left, right with
  | Label left_source left_pattern left_literal, Label right_source right_pattern right_literal =>
      match left_literal, right_literal with
      | true, true => bool_decide (left_source = right_source)
      | true, false => glob_matches right_pattern left_source
      | false, true => glob_matches left_pattern right_source
      | false, false => true
      end
  | _, _ => true
  end.

Definition overlap_step (left_labels right_labels : list HostLabelPattern)
  (st : nat * nat) : list (nat * nat) :=
  let '(left_idx, right_idx) := st in
  match left_labels !! left_idx, right_labels !! right_idx with
  | Some l, Some r =>
      match l, r with
      | Recursive, Recursive =>
          [(S left_idx, S right_idx); (left_idx, S right_idx); (S left_idx, right_idx)]
      | Recursive, Label _ _ _ => [(S left_idx, S right_idx); (left_idx, S right_idx)]
      | Label _ _ _, Recursive => [(S left_idx, S right_idx); (S left_idx, right_idx)]
      | Label _ _ _, Label _ _ _ =>
          if label_patterns_may_overlap l r then [(S left_idx, S right_idx)] else []
      end
  | _, _ => []
  end.
Definition overlap_accept (left_labels right_labels : list HostLabelPattern)
  (st : nat * nat) : bool :=
  Nat.eqb st.1 (length left_labels) && Nat.eqb st.2 (length right_labels).

Definition overlaps (self other : t) : bool :=
  default false
    (search (overlap_step (labels self) (labels other))
      (overlap_accept (labels self) (labels other)) push_queue
      (S (rounds (length (labels self)) (length (labels other)))) [(0, 0)%nat] ∅).

Definition host_matches (pattern host : bytes) : result bool error :=
  let? p := new pattern in Ok (matches p host).

Definition host_patterns_overlap (left right : bytes) : result bool error :=
  let? l := new left in
  let? r := new right in
  Ok (overlaps l r).
End host_pattern.
End HostPattern.

(** ** Host selectors *)

Module HostSelector.
Section host_selector.
Context {glob : Glob}.

Record t := mk {
  includes : list HostPattern.t;
  excludes : list HostPattern.t;
}.

Inductive error : Type :=
| NoInclude
| BadPattern (e : HostPattern.error).

Definition new (include exclude : list bytes) : result t error :=
  if decide (include = []) then Err NoInclude
  else
    let? includes := map_err BadPattern (try_collect HostPattern.new include) in
    let? excludes := map_err BadPattern (try_collect HostPattern.new exclude) in
    Ok (mk includes excludes).

Definition matches (self : t) (host : bytes) : bool :=
  existsb (λ p, HostPattern.matches p host) (includes self)
  && negb (existsb (λ p, HostPattern.matches p host) (excludes self)).

Definition may_match_pattern (self : t) (candidate : HostPattern.t) : bool :=
  existsb (λ include,
    if negb (HostPattern.overlaps include candidate) then false
    else
      let concrete_intersection :=
        match HostPattern.literal candidate with
        | Some l => Some l
        | None => HostPattern.literal include
        end in
      let excluded :=
        match concrete_intersection with
        | None =>
            existsb (λ e, HostPattern.is_universal e
                          || bool_decide (HostPattern.source e = HostPattern.source include)
                          || bool_decide (HostPattern.source e = HostPattern.source candidate))
              (excludes self)
        | Some host => existsb (λ e, HostPattern.matches e host) (excludes self)
        end in
      negb excluded) (includes self).

Definition selector_may_match_pattern (include exclude : list bytes) (candidate : bytes)
  : result bool error :=
  let? selector := new include exclude in
  let? candidate := map_err BadPattern (HostPattern.new candidate) in
  Ok (may_match_pattern selector candidate).
End host_selector.
End HostSelector.

(** ** Endpoint paths *)

Module EndpointPath.
Section endpoint_path.
Context {glob : Glob}.

Inductive kind : Type :=
| Any
| Subtree (prefix : bytes)
| GlobPattern (p : Pattern)
| Invalid.

Record t := mk {
  source : bytes;
  kind_of : kind;
}.

Definition new (pattern : bytes) : t :=
  mk pattern
    (if decide (pattern = []) then Any
     else if decide (pattern = lit "**") then Any
     else if decide (pattern = lit "/**") then Any
     else match strip_suffix (lit "/**") pattern with
          | Some prefix => Subtree prefix
          | None => match glob_new pattern with
                    | Some p => GlobPattern p
                    | None => Invalid
                    end
          end).

Definition matches (self : t) (path : bytes) : bool :=
  if decide (source self = path) then true
  else match kind_of self with
       | Any => true
       | Subtree prefix =>
           bool_decide (path = prefix)
           || match strip_prefix prefix path with
              | Some suffix => starts_with [47] suffix
              | None => false
              end
       | GlobPattern p => glob_matches p path
       | Invalid => false
       end.
End endpoint_path.
End EndpointPath.

(** ** What the patterns mean *)

Section semantics.
Context {glob : Glob}.
Import HostPattern.

(** The declarative reading: a label pattern takes one host label, [**] one
    or more. *)
Inductive labels_match : list HostLabelPattern → list bytes → Prop :=
| match_nil : labels_match [] []
| match_label src p l ps h hs :
    glob_matches p h = true → labels_match ps hs → labels_match (Label src p l :: ps) (h :: hs)
| match_last ps h hs : labels_match ps hs → labels_match (Recursive :: ps) (h :: hs)
| match_more ps h hs :
    labels_match (Recursive :: ps) hs → labels_match (Recursive :: ps) (h :: hs).

(** The grid of index pairs the two loops move in. *)
Definition grid (n m : nat) : gset (nat * nat) :=
  list_to_set (list_prod (seq 0 (S n)) (seq 0 (S m))).

Lemma elem_of_grid n m i j : (i, j) ∈ grid n m ↔ (i ≤ n ∧ j ≤ m)%nat.
Proof.
  unfold grid. rewrite elem_of_list_to_set, list_elem_of_In, in_prod_iff, !in_seq. lia.
Qed.

Lemma size_list_to_set_le `{Countable A} (l : list A) :
  (size (list_to_set l : gset A) ≤ length l)%nat.
Proof.
  induction l as [|x l IH]; cbn [length]; [by rewrite list_to_set_nil, size_empty|].
  rewrite list_to_set_cons, size_union_alt, size_singleton.
  assert (size (list_to_set l ∖ {[x]} : gset A) ≤ size (list_to_set l : gset A))%nat; [|lia].
  apply subseteq_size. set_solver.
Qed.

Lemma size_grid n m : (size (grid n m) ≤ S n * S m)%nat.
Proof.
  unfold grid. etrans; [apply size_list_to_set_le|].
  by rewrite length_prod, !length_seq.
Qed.

Lemma drop_cons_lookup {A} i (x : A) l ps :
  drop i l = x :: ps → l !! i = Some x ∧ drop (S i) l = ps ∧ (S i ≤ length l)%nat.
Proof.
  intros Hd. assert (l !! i = Some x) as Hi.
  { rewrite <- (Nat.add_0_r i), <- lookup_drop, Hd. done. }
  pose proof (lookup_lt_Some _ _ _ Hi). rewrite (drop_S _ _ _ Hi) in Hd. naive_solver lia.
Qed.

Lemma drop_nil_length {A} i (l : list A) : (i ≤ length l)%nat → drop i l = [] → i = length l.
Proof. intros Hi Hd. apply (f_equal length) in Hd. rewrite length_drop in Hd. simpl in Hd. lia. Qed.

(** *** The matcher *)

Lemma match_reaches_sound ls hs i j :
  reaches (match_step ls hs) (match_accept ls hs) (i, j) →
  labels_match (drop i ls) (drop j hs).
Proof.
  intros (st & Hrtc & Hacc). remember (i, j) as s eqn:E. revert i j E.
  induction Hrtc as [s|s s' s'' Hstep _ IH]; intros i j ->.
  - unfold match_accept in Hacc; simpl in Hacc. apply andb_true_iff in Hacc as [->%Nat.eqb_eq ->%Nat.eqb_eq].
    rewrite !drop_all. constructor.
  - unfold match_step in Hstep. destruct (ls !! i) as [[|src p l]|] eqn:Hi.
    + destruct (decide _) as [Hj|]; [|by apply not_elem_of_nil in Hstep].
      apply lookup_lt_is_Some in Hj as [h Hh].
      rewrite (drop_S _ _ _ Hi), (drop_S _ _ _ Hh).
      apply elem_of_cons in Hstep as [->| ->%list_elem_of_singleton].
      * apply match_last, IH; done.
      * apply match_more. rewrite <- (drop_S _ _ _ Hi). by apply IH.
    + destruct (hs !! j) as [h|] eqn:Hh; [|by apply not_elem_of_nil in Hstep].
      destruct (glob_matches p h) eqn:Hg; [|by apply not_elem_of_nil in Hstep].
      apply list_elem_of_singleton in Hstep as ->.
      rewrite (drop_S _ _ _ Hi), (drop_S _ _ _ Hh). constructor; [done|]. by apply IH.
    + by apply not_elem_of_nil in Hstep.
Qed.

Lemma match_reaches_complete ls hs i j :
  (i ≤ length ls)%nat → (j ≤ length hs)%nat →
  labels_match (drop i ls) (drop j hs) →
  reaches (match_step ls hs) (match_accept ls hs) (i, j).
Proof.
  intros Hi Hj Hm. remember (drop i ls) as ps eqn:Ep. remember (drop j hs) as ks eqn:Ek.
  revert i j Hi Hj Ep Ek. induction Hm as [|src p l ps h hs' Hg _ IH|ps h hs' _ IH|ps h hs' _ IH];
    intros i j Hi Hj Ep Ek; symmetry in Ep, Ek; apply reaches_step.
  - left. unfold match_accept. simpl.
    by rewrite (drop_nil_length _ _ Hi Ep), (drop_nil_length _ _ Hj Ek), !Nat.eqb_refl.
  - right. apply drop_cons_lookup in Ep as (Hp & Ep & ?), Ek as (Hk & Ek & ?).
    exists (S i, S j). split; [|by apply IH]. unfold match_step. rewrite Hp, Hk, Hg.
    by constructor.
  - right. apply drop_cons_lookup in Ep as (Hp & Ep & ?), Ek as (Hk & Ek & ?).
    exists (S i, S j). split; [|by apply IH]. unfold match_step. rewrite Hp.
    rewrite decide_True by lia. by constructor.
  - right. pose proof Ep as Ep'.
    apply drop_cons_lookup in Ep as (Hp & Ep & ?), Ek as (Hk & Ek & ?).
    exists (i, S j). split; [|by apply IH]. unfold match_step. rewrite Hp.
    rewrite decide_True by lia. by do 2 constructor.
Qed.

Lemma push_stack_perm new rest : push_stack new rest ≡ₚ new ++ rest.
Proof. unfold push_stack. by rewrite reverse_Permutation. Qed.
Lemma push_queue_perm new rest : push_queue new rest ≡ₚ new ++ rest.
Proof. unfold push_queue. apply Permutation_app_comm. Qed.

Lemma match_search ls hs :
  ∃ r, search (match_step ls hs) (match_accept ls hs) push_stack
         (S (rounds (length ls) (length hs))) [(0, 0)%nat] ∅ = Some r
       ∧ (r = true ↔ labels_match ls hs).
Proof.
  destruct (search_decides (match_step ls hs) (match_accept ls hs) push_stack push_stack_perm
    (grid (length ls) (length hs)) 3) with (fuel := S (rounds (length ls) (length hs)))
    (start := (0, 0)%nat) as (r & Hr & Hiff).
  - intros [i j] [i' j'] Hg%elem_of_grid Hs. apply elem_of_grid. unfold match_step in Hs.
    destruct (ls !! i) as [l|] eqn:Hi; [|by apply not_elem_of_nil in Hs].
    apply lookup_lt_Some in Hi. destruct l; repeat case_match; set_unfold in Hs; try done.
    + naive_solver lia.
    + apply lookup_lt_Some in H. naive_solver lia.
  - intros [i j]. unfold match_step. repeat case_match; simpl; lia.
  - apply elem_of_grid. lia.
  - pose proof (size_grid (length ls) (length hs)). unfold rounds. lia.
  - exists r. split; [done|]. rewrite Hiff. split.
    + apply (match_reaches_sound ls hs 0 0).
    + intros. apply match_reaches_complete; [lia..|done].
Qed.

Definition valid_host (hs : list bytes) : Prop := Forall (λ label, label ≠ []) hs.

Lemma valid_host_bool hs :
  existsb (λ label, bool_decide (label = [])) hs = false ↔ valid_host hs.
Proof.
  unfold valid_host. induction hs as [|h hs IH]; simpl; [done|].
  rewrite orb_false_iff, Forall_cons_iff, IH, bool_decide_eq_false. done.
Qed.

Lemma matches_spec (p : HostPattern.t) host :
  HostPattern.matches p host = true
  ↔ valid_host (split_on 46 (to_ascii_lowercase host))
    ∧ labels_match (labels p) (split_on 46 (to_ascii_lowercase host)).
Proof.
  unfold HostPattern.matches, matches_normalized_labels.
  set (hs := split_on 46 _). rewrite <- valid_host_bool.
  destruct (existsb _ hs); [naive_solver|].
  destruct (match_search (labels p) hs) as (r & -> & Hr). simpl. rewrite Hr. naive_solver.
Qed.

(** *** Compiled patterns *)

(** What [HostPattern::new] guarantees of a compiled pattern. *)
Record compiled (p : HostPattern.t) : Prop := {
  compiled_labels :
    Forall2 (λ l lp, compile_label l = Ok lp) (split_on 46 (source p)) (labels p);
  compiled_valid : valid_host (split_on 46 (source p));
  compiled_lower : to_ascii_lowercase (source p) = source p;
}.

Lemma ascii_lower_idemp c : ascii_lower (ascii_lower c) = ascii_lower c.
Proof. unfold ascii_lower. repeat case_match; lia. Qed.
Lemma to_ascii_lowercase_idemp s :
  to_ascii_lowercase (to_ascii_lowercase s) = to_ascii_lowercase s.
Proof. unfold to_ascii_lowercase. rewrite map_map. apply map_ext, ascii_lower_idemp. Qed.

Lemma new_compiled pattern p : HostPattern.new pattern = Ok p → compiled p.
Proof.
  unfold HostPattern.new. destruct (decide _); [done|]. destruct (has_whitespace _); [done|].
  destruct (existsb _ pattern); [done|]. cbn zeta.
  destruct (existsb _ (split_on _ _)) eqn:Hv; [done|]. apply valid_host_bool in Hv.
  destruct (try_collect _ _) as [ls|] eqn:Hc; [|done]. intros [= <-].
  split; [by apply try_collect_Forall2|done|apply to_ascii_lowercase_idemp].
Qed.

(** Two compiled patterns with the same source have the same labels. *)
Lemma compiled_labels_inj p q :
  compiled p → compiled q → source p = source q → labels p = labels q.
Proof.
  intros [Hp _ _] [Hq _ _] Hs. rewrite Hs in Hp. clear Hs.
  revert Hp Hq. generalize (labels p), (labels q). generalize (split_on 46 (source q)).
  induction l as [|x l IH]; intros ls rs Hl Hr; inversion Hl; inversion Hr; [done|].
  simplify_eq. f_equal; [congruence|]. by apply IH.
Qed.

Definition label_wf (l : HostLabelPattern) : Prop :=
  match l with
  | Recursive => True
  | Label src p literal => glob_new src = Some p ∧ literal = negb (existsb is_glob_meta src)
  end.

Lemma compile_label_wf l lp : compile_label l = Ok lp → label_wf lp.
Proof.
  unfold compile_label. destruct (decide _); [by intros [= <-]|].
  destruct (glob_new l) eqn:E; [|done]. by intros [= <-].
Qed.

Lemma compiled_wf p : compiled p → Forall label_wf (labels p).
Proof.
  intros [Hp _ _]. induction Hp; constructor; eauto using compile_label_wf.
Qed.

(** A literal label matches its own source and nothing else. *)
Lemma literal_label_matches src p h :
  label_wf (Label src p true) → glob_matches p h = bool_decide (h = src).
Proof.
  intros [Hn Hl]. symmetry in Hl. apply negb_true_iff in Hl.
  destruct (glob_literal src Hl) as (p' & Hn' & Hm). simplify_eq. apply Hm.
Qed.

(** Labels that are all literal match exactly the host made of their sources. *)
Definition literal_labels (ls : list HostLabelPattern) (hs : list bytes) : Prop :=
  Forall2 (λ l h, ∃ p, l = Label h p true ∧ label_wf l) ls hs.

Lemma literal_labels_match ls hs ks :
  literal_labels ls hs → labels_match ls ks ↔ ks = hs.
Proof.
  intros Hl. revert ks. induction Hl as [|l h ls hs (p & -> & Hw) _ IH]; intros ks.
  - split; [by inversion 1|intros ->; constructor].
  - split.
    + inversion 1 as [|? ? ? ? ? ? Hg Hm| |]; subst. apply IH in Hm as ->.
      rewrite (literal_label_matches _ _ _ Hw), bool_decide_eq_true in Hg. by subst.
    + intros ->. constructor; [|by apply IH].
      by rewrite (literal_label_matches _ _ _ Hw), bool_decide_eq_true_2.
Qed.

Lemma compiled_literal p s :
  compiled p → literal p = Some s →
  s = source p ∧ literal_labels (labels p) (split_on 46 (source p)).
Proof.
  intros Hc. unfold literal. destruct (forallb _ _) eqn:Hf; [|done]. intros [= <-].
  split; [done|]. destruct Hc as [Hc _ _]. unfold literal_labels. revert Hf.
  induction Hc as [|l lp ls lps Hl _ IH]; simpl; [constructor|].
  intros [Hlit Hf]%andb_true_iff. constructor; [|by apply IH].
  pose proof (compile_label_wf _ _ Hl) as Hw. unfold compile_label in Hl.
  destruct (decide _); simplify_eq. destruct (glob_new l); simplify_eq.
  simpl in Hlit. rewrite Hlit in *. by eexists.
Qed.

(** A literal pattern matches exactly the hosts that equal its source up to
    ASCII case. *)
Lemma literal_matches p s host :
  compiled p → literal p = Some s →
  HostPattern.matches p host = true ↔ to_ascii_lowercase host = s.
Proof.
  intros Hc Hl. destruct (compiled_literal p s Hc Hl) as [-> Hls].
  rewrite matches_spec, (literal_labels_match _ _ _ Hls). split.
  - intros [_ Hs]. rewrite <- (join_split_on 46 (source p)), <- Hs. by rewrite join_split_on.
  - intros ->. split; [apply Hc|done].
Qed.

(** *** The overlap test *)

Lemma may_overlap_sound l r h src p b src' p' b' :
  l = Label src p b → r = Label src' p' b' → label_wf l → label_wf r →
  glob_matches p h = true → glob_matches p' h = true →
  label_patterns_may_overlap l r = true.
Proof.
  intros -> -> Hl Hr Hp Hp'. simpl. destruct b, b'; [..|done].
  - rewrite (literal_label_matches _ _ _ Hl), bool_decide_eq_true in Hp.
    rewrite (literal_label_matches _ _ _ Hr), bool_decide_eq_true in Hp'.
    apply bool_decide_eq_true. congruence.
  - rewrite (literal_label_matches _ _ _ Hl), bool_decide_eq_true in Hp. by subst.
  - rewrite (literal_label_matches _ _ _ Hr), bool_decide_eq_true in Hp'. by subst.
Qed.

Lemma overlap_reaches_complete ls rs hs i j :
  Forall label_wf ls → Forall label_wf rs →
  (i ≤ length ls)%nat → (j ≤ length rs)%nat →
  labels_match (drop i ls) hs → labels_match (drop j rs) hs →
  reaches (overlap_step ls rs) (overlap_accept ls rs) (i, j).
Proof.
  intros Wl Wr. revert i j. induction hs as [|h hs IH]; intros i j Hi Hj Hl Hr.
  - inversion Hl as [Ei| | |]. inversion Hr as [Ej| | |]. symmetry in Ei, Ej.
    apply reaches_step. left. unfold overlap_accept; simpl.
    by rewrite (drop_nil_length _ _ Hi Ei), (drop_nil_length _ _ Hj Ej), !Nat.eqb_refl.
  - inversion Hl as [|src p b ps ? ? Hp Hl' Ei|ps ? ? Hl' Ei|ps ? ? Hl' Ei];
    inversion Hr as [|src' p' b' qs ? ? Hp' Hr' Ej|qs ? ? Hr' Ej|qs ? ? Hr' Ej]; subst;
    symmetry in Ei, Ej; pose proof Ei as Di; pose proof Ej as Dj;
    apply drop_cons_lookup in Ei as (Li & <- & ?), Ej as (Lj & <- & ?);
    try (by apply IH; [done..|rewrite Di|rewrite Dj]);
    apply reaches_step; right; unfold overlap_step; rewrite Li, Lj.
    1: { erewrite may_overlap_sound; [|done|done| | |done|done].
         - exists (S i, S j). split; [by constructor|by apply IH].
         - eapply Forall_lookup_1; [exact Wl|exact Li].
         - eapply Forall_lookup_1; [exact Wr|exact Lj]. }
    all: first [ exists (S i, S j); split; [by constructor|]; apply IH; [done..|]; congruence
               | exists (S i, j); split; [by repeat constructor|]; apply IH; [lia..|done|congruence]
               | exists (i, S j); split; [by repeat constructor|]; apply IH; [lia..|congruence|done]].
Qed.

Lemma overlap_search ls rs :
  ∃ r, search (overlap_step ls rs) (overlap_accept ls rs) push_queue
         (S (rounds (length ls) (length rs))) [(0, 0)%nat] ∅ = Some r
       ∧ (r = true ↔ reaches (overlap_step ls rs) (overlap_accept ls rs) (0, 0)%nat).
Proof.
  apply (search_decides _ _ _ push_queue_perm (grid (length ls) (length rs)) 3).
  - intros [i j] [i' j'] Hg%elem_of_grid Hs. apply elem_of_grid. unfold overlap_step in Hs.
    destruct (ls !! i) as [l|] eqn:Hi; [|by apply not_elem_of_nil in Hs].
    destruct (rs !! j) as [r|] eqn:Hj; [|by apply not_elem_of_nil in Hs].
    apply lookup_lt_Some in Hi, Hj. destruct l, r; repeat case_match; set_unfold in Hs; naive_solver lia.
  - intros [i j]. unfold overlap_step. repeat case_match; simpl; lia.
  - apply elem_of_grid. lia.
  - pose proof (size_grid (length ls) (length rs)). unfold rounds. lia.
Qed.

Lemma overlaps_complete p q host :
  compiled p → compiled q →
  HostPattern.matches p host = true → HostPattern.matches q host = true →
  overlaps p q = true.
Proof.
  intros Hp Hq [_ Mp]%matches_spec [_ Mq]%matches_spec. unfold overlaps.
  destruct (overlap_search (labels p) (labels q)) as (r & -> & Hr). simpl. apply Hr.
  eapply (overlap_reaches_complete _ _ _ 0 0); [by apply compiled_wf..|lia|lia|done|done].
Qed.

Lemma overlap_reaches_literal ls hs rs i j :
  literal_labels ls hs → Forall label_wf rs →
  reaches (overlap_step ls rs) (overlap_accept ls rs) (i, j) →
  labels_match (drop j rs) (drop i hs).
Proof.
  intros Hl Wr (st & Hrtc & Hacc). remember (i, j) as s eqn:E. revert i j E.
  induction Hrtc as [s|s s' s'' Hstep _ IH]; intros i j ->.
  - unfold overlap_accept in Hacc; simpl in Hacc.
    apply andb_true_iff in Hacc as [->%Nat.eqb_eq ->%Nat.eqb_eq].
    rewrite (Forall2_length Hl), !drop_all. constructor.
  - unfold overlap_step in Hstep.
    destruct (ls !! i) as [l|] eqn:Hi; [|by apply not_elem_of_nil in Hstep].
    destruct (rs !! j) as [r|] eqn:Hj; [|by apply not_elem_of_nil in Hstep].
    destruct (Forall2_lookup_l _ _ _ _ _ Hl Hi) as (h & Hh & p & -> & Hw).
    rewrite (drop_S _ _ _ Hj), (drop_S _ _ _ Hh). destruct r as [|src q b].
    + set_unfold in Hstep. destruct Hstep as [->|[->|[]]].
      * by apply match_last, IH.
      * apply match_more. rewrite <- (drop_S _ _ _ Hj). by apply IH.
    + destruct (label_patterns_may_overlap _ _) eqn:Ho; [|by apply not_elem_of_nil in Hstep].
      apply list_elem_of_singleton in Hstep as ->. constructor; [|by apply IH].
      simpl in Ho. destruct b; [|done]. apply bool_decide_eq_true in Ho as ->.
      rewrite (literal_label_matches _ _ _ (Forall_lookup_1 _ _ _ _ Wr Hj)).
      by apply bool_decide_eq_true.
Qed.

(** On a literal the overlap test is exact. *)
Lemma overlaps_literal p q s :
  compiled p → compiled q → literal p = Some s →
  overlaps p q = true ↔ HostPattern.matches q s = true.
Proof.
  intros Hp Hq Hs. destruct (compiled_literal p s Hp Hs) as [-> Hl].
  pose proof (compiled_lower p Hp) as Hlow. split.
  - intros Ho. apply matches_spec. rewrite Hlow. split; [apply Hp|].
    unfold overlaps in Ho. destruct (overlap_search (labels p) (labels q)) as (r & Hr & Hiff).
    rewrite Hr in Ho. simpl in Ho. apply Hiff in Ho.
    apply (overlap_reaches_literal _ _ _ 0 0 Hl) in Ho; [done|by apply compiled_wf].
  - intros Hm. eapply overlaps_complete; [done..| |done]. by apply (literal_matches p (source p)).
Qed.

(** *** Selectors *)

Record selector_compiled (s : HostSelector.t) : Prop := {
  includes_compiled : Forall compiled (HostSelector.includes s);
  excludes_compiled : Forall compiled (HostSelector.excludes s);
}.

Lemma try_collect_compiled ps r :
  try_collect HostPattern.new ps = Ok r → Forall compiled r.
Proof. intros H%try_collect_Forall2. induction H; constructor; eauto using new_compiled. Qed.

Lemma selector_new_compiled inc exc s :
  HostSelector.new inc exc = Ok s → selector_compiled s.
Proof.
  unfold HostSelector.new. destruct (decide _); [done|].
  destruct (try_collect _ inc) eqn:Hi; [|done]. destruct (try_collect _ exc) eqn:He; [|done].
  intros [= <-]. split; by eapply try_collect_compiled.
Qed.

Lemma matches_lower p host :
  HostPattern.matches p (to_ascii_lowercase host) = HostPattern.matches p host.
Proof. unfold HostPattern.matches. by rewrite to_ascii_lowercase_idemp. Qed.

Lemma universal_labels_match hs : hs ≠ [] → labels_match [Recursive] hs.
Proof.
  induction hs as [|h [|h' hs] IH]; intros Hne; [done|apply match_last; constructor|].
  apply match_more, IH. done.
Qed.

Lemma universal_matches e p host :
  is_universal e = true → HostPattern.matches p host = true → HostPattern.matches e host = true.
Proof.
  intros Hu [Hv _]%matches_spec. apply matches_spec. split; [done|].
  unfold is_universal in Hu. destruct (labels e) as [|[] []]; try done.
  apply universal_labels_match, split_on_nonempty.
Qed.

Lemma same_source_matches e p host :
  compiled e → compiled p → source e = source p →
  HostPattern.matches p host = true → HostPattern.matches e host = true.
Proof.
  intros He Hp Hs. unfold HostPattern.matches, matches_normalized_labels.
  by rewrite (compiled_labels_inj e p).
Qed.

Lemma existsb_matches_lower l host :
  existsb (λ e, HostPattern.matches e (to_ascii_lowercase host)) l
  = existsb (λ e, HostPattern.matches e host) l.
Proof. induction l as [|e l IH]; [done|]. cbn [existsb]. by rewrite matches_lower, IH. Qed.

Lemma existsb_false_In {A} (f : A → bool) l : existsb f l = false ↔ ∀ x, In x l → f x = false.
Proof.
  split.
  - intros He x Hx. destruct (f x) eqn:Hf; [|done].
    rewrite <- He. symmetry. apply existsb_exists. eauto.
  - intros Hf. destruct (existsb f l) eqn:He; [|done].
    apply existsb_exists in He as (x & Hx & Hfx). by rewrite Hf in Hfx.
Qed.

(** The exclude list spares what the selector really matches. *)
Lemma not_excluded sel inc cand host :
  selector_compiled sel → In inc (HostSelector.includes sel) → compiled cand →
  HostPattern.matches inc host = true → HostPattern.matches cand host = true →
  existsb (λ e, HostPattern.matches e host) (HostSelector.excludes sel) = false →
  existsb (λ e, is_universal e || bool_decide (source e = source inc)
                || bool_decide (source e = source cand)) (HostSelector.excludes sel) = false.
Proof.
  intros [Hinc Hexc] Hin Hc Mi Mc He. rewrite Forall_forall in Hinc, Hexc.
  apply existsb_false_In. intros e Hin'.
  pose proof (proj1 (existsb_false_In _ _) He e Hin') as Hne. simpl in Hne.
  apply not_true_is_false. rewrite !orb_true_iff, !bool_decide_eq_true.
  intros [[Hu|Hs]|Hs]; apply eq_true_false_abs with (2 := Hne).
  - by apply (universal_matches e inc).
  - by apply (same_source_matches e inc); auto.
  - by apply (same_source_matches e cand); auto.
Qed.

Lemma may_match_conservative sel cand host :
  selector_compiled sel → compiled cand →
  HostSelector.matches sel host = true → HostPattern.matches cand host = true →
  HostSelector.may_match_pattern sel cand = true.
Proof.
  intros Hsel Hc [Hi He]%andb_true_iff Hm.
  apply existsb_exists in Hi as (inc & Hin & Hi). apply negb_true_iff in He.
  pose proof (proj1 (Forall_forall _ _) (includes_compiled _ Hsel) inc Hin) as Hinc.
  apply existsb_exists. exists inc. split; [done|].
  rewrite (overlaps_complete inc cand host) by done. simpl. apply negb_true_iff.
  destruct (literal cand) as [s|] eqn:Hl; [|destruct (literal inc) as [s|] eqn:Hl'].
  - apply (literal_matches cand s) in Hm as <-; [|done..]. by rewrite existsb_matches_lower.
  - apply (literal_matches inc s) in Hi as <-; [|done..]. by rewrite existsb_matches_lower.
  - by eapply not_excluded.
Qed.

(** *** Endpoint paths *)

Lemma subtree_matches prefix path :
  prefix ≠ [] →
  EndpointPath.matches (EndpointPath.new (prefix ++ lit "/**")) path = true
  ↔ path = prefix ∨ ∃ rest, path = prefix ++ 47 :: rest.
Proof.
  intros Hne. unfold EndpointPath.matches, EndpointPath.new. cbn [EndpointPath.source EndpointPath.kind_of].
  assert (∀ l, (length l ≤ 3)%nat → prefix ++ lit "/**" ≠ l) as Hlen.
  { intros l Hl E. apply (f_equal length) in E. rewrite length_app in E.
    destruct prefix; [done|]. simpl in *. lia. }
  rewrite (decide_False (P := prefix ++ _ = [])), (decide_False (P := prefix ++ _ = lit "**")),
    (decide_False (P := prefix ++ _ = lit "/**")) by (by apply Hlen; simpl; lia).
  rewrite (proj2 (strip_suffix_Some _ _ prefix) eq_refl).
  destruct (decide _) as [<-|]; [naive_solver|].
  rewrite orb_true_iff, bool_decide_eq_true.
  destruct (strip_prefix prefix path) as [rest|] eqn:Hs.
  - apply strip_prefix_Some in Hs as ->. rewrite starts_with_spec. naive_solver.
  - split; [naive_solver|]. intros [?|[rest Hr]]; [by left|].
    apply strip_prefix_Some in Hr. congruence.
Qed.

Lemma invalid_matches pattern path :
  EndpointPath.kind_of (EndpointPath.new pattern) = EndpointPath.Invalid →
  EndpointPath.matches (EndpointPath.new pattern) path = true ↔ path = pattern.
Proof.
  unfold EndpointPath.matches. intros ->. cbn [EndpointPath.source EndpointPath.new].
  destruct (decide _); naive_solver.
Qed.
End semantics.

(** ** Properties *)

Section properties.
Context {glob : Glob}.

(** The host matcher decides the declarative reading of its pattern.
    [HostPattern::matches] answers true exactly when no label of the lowered
    host is empty and its labels can be split among the pattern's labels, each
    glob label taking one label it matches and each [**] one or more; the loop
    always ends with an answer. *)
Theorem host_matcher_correct (p : HostPattern.t) (host : bytes) :
  (HostPattern.matches p host = true
   ↔ valid_host (split_on 46 (to_ascii_lowercase host))
     ∧ labels_match (HostPattern.labels p) (split_on 46 (to_ascii_lowercase host)))
  ∧ ∃ r, search (HostPattern.match_step (HostPattern.labels p)
                   (split_on 46 (to_ascii_lowercase host)))
           (HostPattern.match_accept (HostPattern.labels p)
              (split_on 46 (to_ascii_lowercase host))) HostPattern.push_stack
           (S (HostPattern.rounds (length (HostPattern.labels p))
                 (length (split_on 46 (to_ascii_lowercase host))))) [(0, 0)%nat] ∅ = Some r.
Proof.
  split; [apply matches_spec|].
  destruct (match_search (HostPattern.labels p) (split_on 46 (to_ascii_lowercase host)))
    as (r & Hr & _). by exists r.
Qed.

(** The overlap test never misses. Two patterns that both match some host
    are reported as overlapping, in either order, and when one of them is a
    literal host the answer is exactly whether the other matches it. *)
Theorem host_overlap_sound (left right host : bytes) (l r : HostPattern.t)
  (Hl : HostPattern.new left = Ok l) (Hr : HostPattern.new right = Ok r) :
  (HostPattern.host_matches left host = Ok true →
   HostPattern.host_matches right host = Ok true →
   HostPattern.host_patterns_overlap left right = Ok true
   ∧ HostPattern.host_patterns_overlap right left = Ok true)
  ∧ (∀ s, HostPattern.literal l = Some s →
     HostPattern.host_patterns_overlap left right = HostPattern.host_matches right s).
Proof.
  unfold HostPattern.host_matches, HostPattern.host_patterns_overlap. rewrite Hl, Hr. cbn.
  pose proof (new_compiled _ _ Hl) as Cl. pose proof (new_compiled _ _ Hr) as Cr. split.
  - intros [= Ml] [= Mr]. split; f_equal; by apply (overlaps_complete _ _ host).
  - intros s Hs. f_equal. apply eq_true_iff_eq. by apply overlaps_literal.
Qed.

(** Provider credential selectors are conservative. If a compiled
    selector accepts a host and a compiled candidate pattern accepts the same
    host, [may_match_pattern] answers true: the exclude list is applied to the
    intersection only when it is sure to remove it. *)
Theorem selector_conservative (inc exc : list bytes) (candidate host : bytes)
  (sel : HostSelector.t)
  (Hsel : HostSelector.new inc exc = Ok sel)
  (Hm : HostSelector.matches sel host = true)
  (Hc : HostPattern.host_matches candidate host = Ok true) :
  HostSelector.selector_may_match_pattern inc exc candidate = Ok true.
Proof.
  unfold HostSelector.selector_may_match_pattern, HostPattern.host_matches in *.
  rewrite Hsel. cbn in *. destruct (HostPattern.new candidate) as [c|] eqn:Hn; [|done].
  cbn in *. injection Hc as Hc. f_equal.
  apply (may_match_conservative sel c host); [|by eapply new_compiled|done..].
  by eapply selector_new_compiled.
Qed.

(** An endpoint path is read as the policy author means it. A
    [prefix/**] pattern accepts the prefix itself, everything below it and
    its own text, never a sibling that merely starts with the same bytes; a
    pattern that is no valid glob accepts only its own text. *)
Theorem endpoint_path_reading (prefix path : bytes) :
  (prefix ≠ [] →
   EndpointPath.matches (EndpointPath.new (prefix ++ lit "/**")) path = true
   ↔ path = prefix ∨ ∃ rest, path = prefix ++ 47 :: rest)
  ∧ (∀ pattern, EndpointPath.kind_of (EndpointPath.new pattern) = EndpointPath.Invalid →
     EndpointPath.matches (EndpointPath.new pattern) path = true ↔ path = pattern).
Proof.
  split; [apply subtree_matches|]. intros pattern Hk. apply (invalid_matches pattern path Hk).
Qed.
End properties.

(** ** Witnesses, with a concrete glob *)

Lemma host_matcher_correct_witness :
  match HostPattern.new (glob := simple_glob) (lit "**.Example.com") with
  | Ok p => HostPattern.matches p (lit "a.B.example.COM") = true
            ∧ HostPattern.matches p (lit "example.com") = false
  | Err _ => False
  end.
Proof.
  destruct (HostPattern.new _) as [p|e] eqn:Hn; [|by vm_compute in Hn].
  destruct (host_matcher_correct (glob := simple_glob) p (lit "a.B.example.COM")) as [H1 _].
  vm_compute in Hn. injection Hn as <-. split; [|by vm_compute].
  apply H1. split; [repeat constructor; done|].
  apply match_more, match_last. repeat (apply match_label; [by vm_compute|]). apply match_nil.
Defined.

Lemma host_overlap_sound_witness :
  HostPattern.host_patterns_overlap (glob := simple_glob) (lit "*.example.com") (lit "api.**")
  = Ok true.
Proof.
  refine (proj1 (proj1 (host_overlap_sound (glob := simple_glob) (lit "*.example.com")
    (lit "api.**") (lit "api.example.com") _ _ eq_refl eq_refl) _ _)); by vm_compute.
Defined.

Lemma selector_conservative_witness :
  HostSelector.selector_may_match_pattern (glob := simple_glob)
    [lit "**.example.com"] [lit "internal.example.com"] (lit "*.example.com") = Ok true.
Proof.
  refine (selector_conservative (glob := simple_glob) [lit "**.example.com"]
    [lit "internal.example.com"] (lit "*.example.com") (lit "api.example.com") _ eq_refl _ _);
    by vm_compute.
Defined.

Lemma endpoint_path_reading_witness :
  EndpointPath.matches (glob := simple_glob) (EndpointPath.new (lit "/v1/**")) (lit "/v1/models")
    = true
  ∧ EndpointPath.matches (glob := simple_glob) (EndpointPath.new (lit "/v1/**")) (lit "/v10")
    ≠ true.
Proof.
  assert (lit "/v1" ≠ []) as Hne by done.
  pose proof (λ path, proj1 (endpoint_path_reading (glob := simple_glob) (lit "/v1") path) Hne) as R.
  split.
  - apply (R (lit "/v1/models")). right. by exists (lit "models").
  - intros H. apply (R (lit "/v10")) in H. destruct H as [H|[rest H]]; vm_compute in H; congruence.
Defined.
