(* ===== verification/IpParse.v ===== *)
(** * IpParse: textual IP addresses (the standard library's [IpAddr])

    The proxy, the policy validators and the prover all read addresses with
    [str::parse::<IpAddr>]. This file is that parser: a reader takes the bytes
    left and returns a value and the bytes it left, or fails having taken
    none. It also holds the printer of IPv4 addresses and of decimal numbers
    the round trips are stated with. *)

From Stdlib Require Import ZifyBool.
From S2P Require Import Prelude Net.

Module IpParse.

Definition reader (A : Type) := bytes → option (A * bytes).

(** [char::to_digit]. *)
Definition to_digit (radix c : Z) : option Z :=
  let d :=
    if is_ascii_digit c then Some (c - 48)
    else if (97 <=? c) && (c <=? 122) then Some (c - 87)
    else if (65 <=? c) && (c <=? 90) then Some (c - 55)
    else None in
  match d with Some d => if d <? radix then Some d else None | None => None end.

(** The digits a number starts with: its value, their count and the rest. *)
Fixpoint read_digits (radix acc : Z) (count : nat) (s : bytes) : Z * nat * bytes :=
  match s with
  | c :: s' =>
      match to_digit radix c with
      | Some d => read_digits radix (acc * radix + d) (S count) s'
      | None => (acc, count, s)
      end
  | [] => (acc, count, [])
  end.

Definition read_number (radix : Z) (max_digits : nat) (max : Z) (allow_zero_prefix : bool)
  : reader Z := λ s,
  let has_leading_zero := match s with c :: _ => c =? 48 | [] => false end in
  let '(v, count, rest) := read_digits radix 0 0 s in
  if decide (count = 0%nat) then None
  else if decide (max_digits < count)%nat then None
  else if negb allow_zero_prefix && has_leading_zero && (1 <? Z.of_nat count) then None
  else if v <=? max then Some (v, rest) else None.

Definition read_given_char (c : Z) : reader unit := λ s,
  match s with b :: s' => if b =? c then Some ((), s') else None | [] => None end.

(** [read_separator]: an element of a list, after a separator unless first. *)
Definition read_separator {A} (sep : Z) (index : nat) (inner : reader A) : reader A := λ s,
  match index with
  | O => inner s
  | S _ => match read_given_char sep s with Some (_, s') => inner s' | None => None end
  end.

Definition read_octet (index : nat) : reader Z :=
  read_separator 46 index (read_number 10 3 255 false).

Definition read_ipv4_addr : reader Z := λ s,
  match read_octet 0 s with None => None | Some (a, s) =>
  match read_octet 1 s with None => None | Some (b, s) =>
  match read_octet 2 s with None => None | Some (c, s) =>
  match read_octet 3 s with None => None | Some (d, s) => Some (ipv4 a b c d, s)
  end end end end.

(** [read_groups]: up to [todo] groups from index [i]; the groups read, whether
    the last two are an embedded IPv4 address, and the rest. *)
Fixpoint read_groups (i todo : nat) (s : bytes) : list Z * bool * bytes :=
  match todo with
  | O => ([], false, s)
  | S todo =>
      let group :=
        match read_separator 58 i (read_number 16 4 u16_max true) s with
        | Some (g, s') =>
            let '(gs, v4, rest) := read_groups (S i) todo s' in (g :: gs, v4, rest)
        | None => ([], false, s)
        end in
      match todo with
      | O => group
      | S _ =>
          match read_separator 58 i read_ipv4_addr s with
          | Some (v4, s') => ([Z.shiftr v4 16; Z.land v4 0xffff], true, s')
          | None => group
          end
      end
  end.

Definition of_groups (gs : list Z) : Z := fold_left (λ acc g, acc * 2 ^ 16 + g) gs 0.

Definition read_ipv6_addr : reader Z := λ s,
  let '(head, head_ipv4, s) := read_groups 0 8 s in
  if decide (length head = 8%nat) then Some (of_groups head, s)
  else if (head_ipv4 : bool) then None
  else
    match read_given_char 58 s with None => None | Some (_, s) =>
    match read_given_char 58 s with None => None | Some (_, s) =>
      let '(tail, _, s) := read_groups 0 (8 - (length head + 1))%nat s in
      Some (of_groups (head ++ replicate (8 - length head - length tail)%nat 0 ++ tail), s)
    end end.

Definition read_ip_addr : reader IpAddr := λ s,
  match read_ipv4_addr s with
  | Some (a, s) => Some (V4 a, s)
  | None => match read_ipv6_addr s with Some (a, s) => Some (V6 a, s) | None => None end
  end.

(** [parse_with]: the whole input is read. *)
Definition parse_with {A} (inner : reader A) (s : bytes) : option A :=
  match inner s with Some (a, []) => Some a | _ => None end.

(** [str::parse::<IpAddr>()]. *)
Definition parse_ip (s : bytes) : option IpAddr := parse_with read_ip_addr s.
Definition parse_ipv4 (s : bytes) : option Z :=
  if decide (15 < length s)%nat then None else parse_with read_ipv4_addr s.

(** [read_port] and [read_scope_id]: a decimal of any number of digits. *)
Definition read_decimal_after (c max : Z) : reader Z := λ s,
  match read_given_char c s with
  | Some (_, s) => read_number 10 (length s) max true s
  | None => None
  end.
Definition read_port : reader Z := read_decimal_after 58 u16_max.

Definition read_socket_addr_v4 : reader (IpAddr * Z) := λ s,
  match read_ipv4_addr s with None => None | Some (a, s) =>
  match read_port s with None => None | Some (port, s) => Some ((V4 a, port), s)
  end end.

(** The scope id is not part of the result: no caller reads it. *)
Definition read_socket_addr_v6 : reader (IpAddr * Z) := λ s,
  match read_given_char 91 s with None => None | Some (_, s) =>
  match read_ipv6_addr s with None => None | Some (a, s) =>
  let s := match read_decimal_after 37 u32_max s with Some (_, s) => s | None => s end in
  match read_given_char 93 s with None => None | Some (_, s) =>
  match read_port s with None => None | Some (port, s) => Some ((V6 a, port), s)
  end end end end.

(** [str::parse::<SocketAddr>()]. *)
Definition parse_socket_addr (s : bytes) : option (IpAddr * Z) :=
  parse_with (λ s, match read_socket_addr_v4 s with
                   | Some r => Some r
                   | None => read_socket_addr_v6 s
                   end) s.

(** ** Printing *)

(** [Display] of an unsigned integer; a [u128] has at most 39 digits. *)
Fixpoint show_digits (fuel : nat) (n : Z) (acc : bytes) : bytes :=
  match fuel with
  | O => acc
  | S fuel =>
      let acc := 48 + n mod 10 :: acc in
      if n <? 10 then acc else show_digits fuel (n / 10) acc
  end.
Definition show_uint (n : Z) : bytes := show_digits 40 n [].

(** [Display] of an [Ipv4Addr]. *)
Definition show_ipv4 (a : Z) : bytes :=
  join_with 46 (map (λ i, show_uint (octet i a)) [0; 1; 2; 3]).

(** ** Well-formed results *)

Lemma read_number_bound radix n max z s v rest :
  0 ≤ radix → read_number radix n max z s = Some (v, rest) → 0 ≤ v ≤ max.
Proof.
  intros Hr. unfold read_number.
  assert (∀ acc k s, 0 ≤ acc → 0 ≤ (read_digits radix acc k s).1.1) as Hd.
  { intros acc k t. revert acc k. induction t as [|c t IH]; simpl; intros acc k Ha; [done|].
    destruct (to_digit radix c) as [d|] eqn:E; [|done]. apply IH.
    enough (0 ≤ d) by nia. revert E. unfold to_digit. unfold is_ascii_digit.
    repeat case_match; intros; simplify_eq; lia. }
  specialize (Hd 0 0%nat s). destruct (read_digits radix 0 0 s) as [[v' k] r]. simpl in Hd.
  repeat case_match; intros [= <- <-]; lia.
Qed.

Lemma read_separator_Some {A} sep i (inner : reader A) s r :
  read_separator sep i inner s = Some r → ∃ s', inner s' = Some r.
Proof.
  unfold read_separator. destruct i; [by exists s|].
  destruct (read_given_char sep s) as [[[] s']|]; [by exists s'|done].
Qed.

Lemma read_ipv4_addr_wf s a rest : read_ipv4_addr s = Some (a, rest) → v4_wf a.
Proof.
  unfold read_ipv4_addr.
  assert (∀ i s v r, read_octet i s = Some (v, r) → 0 ≤ v ≤ 255) as Ho.
  { intros i t v r [t' H]%read_separator_Some. by apply read_number_bound in H. }
  repeat (case_match; try done). intros [= <- <-].
  repeat match goal with H : read_octet _ _ = Some (_, _) |- _ => apply Ho in H end.
  unfold v4_wf, ipv4. lia.
Qed.

Lemma read_groups_wf i todo s gs v4 rest :
  read_groups i todo s = (gs, v4, rest) →
  (length gs ≤ todo)%nat ∧ Forall (λ g, 0 ≤ g < 2 ^ 16) gs.
Proof.
  revert i s gs v4 rest. induction todo as [|todo IH]; intros i s gs v4 rest; [by intros [= <- <- <-]|].
  intros Hr. cbn [read_groups] in Hr.
  assert (∀ g v r, match read_separator 58 i (read_number 16 4 u16_max true) s with
        | Some (g, s') =>
            let '(gs, v4, rest) := read_groups (S i) todo s' in (g :: gs, v4, rest)
        | None => ([], false, s)
        end = (g, v, r) → (length g ≤ S todo)%nat ∧ Forall (λ g, 0 ≤ g < 2 ^ 16) g) as Hg.
  { intros g v r. destruct (read_separator _ _ _ _) as [[x s']|] eqn:E.
    - apply read_separator_Some in E as [t E%read_number_bound]; [|lia]. unfold u16_max in E.
      destruct (read_groups (S i) todo s') as [[gs' b] r'] eqn:E'.
      apply IH in E' as [? ?]. intros [= <- <- <-]. split; [simpl; lia|].
      constructor; [lia|done].
    - intros [= <- <- <-]. split; [simpl; lia|done]. }
  destruct todo as [|todo]; [by eapply Hg|].
  destruct (read_separator 58 i read_ipv4_addr s) as [[a s']|] eqn:E; [|by eapply Hg].
  apply read_separator_Some in E as [t E%read_ipv4_addr_wf]. injection Hr as <- <- <-.
  split; [simpl; lia|]. unfold v4_wf in E. rewrite Z.shiftr_div_pow2 by lia.
  change 0xffff with (Z.ones 16). rewrite Z.land_ones by lia.
  repeat constructor; (apply Z.div_pos || apply Z.div_lt_upper_bound || apply Z.mod_pos_bound); lia.
Qed.

Lemma of_groups_bound gs :
  Forall (λ g, 0 ≤ g < 2 ^ 16) gs → 0 ≤ of_groups gs < 2 ^ (16 * Z.of_nat (length gs)).
Proof.
  unfold of_groups. induction gs as [|g gs IH] using rev_ind; intros Hg; [simpl; lia|].
  apply Forall_app in Hg as [Hgs Hg]. apply Forall_cons_iff in Hg as [Hg _]. specialize (IH Hgs).
  rewrite fold_left_app, length_app. cbn [fold_left length].
  replace (16 * Z.of_nat (length gs + 1)) with (16 * Z.of_nat (length gs) + 16) by lia.
  rewrite Z.pow_add_r by lia. nia.
Qed.

Lemma read_ipv6_addr_wf s a rest : read_ipv6_addr s = Some (a, rest) → v6_wf a.
Proof.
  assert (∀ gs, length gs = 8%nat → Forall (λ g, 0 ≤ g < 2 ^ 16) gs → v6_wf (of_groups gs)) as Hw.
  { intros gs Hl Hg. apply of_groups_bound in Hg. rewrite Hl in Hg. exact Hg. }
  unfold read_ipv6_addr. destruct (read_groups 0 8 s) as [[head h4] s1] eqn:E.
  apply read_groups_wf in E as [Hl Hh]. destruct (decide _).
  { intros [= <- <-]. by apply Hw. }
  destruct h4; [done|]. destruct (read_given_char 58 s1) as [[_ s2]|]; [|done].
  destruct (read_given_char 58 s2) as [[_ s3]|]; [|done].
  destruct (read_groups 0 _ s3) as [[tail t4] s4] eqn:E'. apply read_groups_wf in E' as [Ht Ht'].
  intros [= <- <-]. apply Hw.
  - rewrite !length_app, length_replicate. lia.
  - apply Forall_app_2; [done|]. apply Forall_app_2; [|done].
    apply Forall_replicate. lia.
Qed.

(** Every parsed address is in its family's range. *)
Lemma parse_ip_wf s ip : parse_ip s = Some ip → ip_wf ip.
Proof.
  unfold parse_ip, parse_with, read_ip_addr.
  destruct (read_ipv4_addr s) as [[a r]|] eqn:E; [apply read_ipv4_addr_wf in E|].
  { destruct r; [|done]. by intros [= <-]. }
  destruct (read_ipv6_addr s) as [[a r]|] eqn:E'; [apply read_ipv6_addr_wf in E'|done].
  destruct r; [|done]. by intros [= <-].
Qed.

(** ** Round trips *)

Lemma parse_show_digits max fuel n tail :
  0 ≤ n ≤ max → n < 10 ^ Z.of_nat fuel →
  parse_digits max 0 (show_digits fuel n tail) = parse_digits max n tail.
Proof.
  revert n tail. induction fuel as [|fuel IH]; intros n tail Hn Hf; [simpl in *; by replace n with 0 by lia|].
  assert (is_ascii_digit (48 + n mod 10) = true) as Hd.
  { pose proof (Z.mod_pos_bound n 10). unfold is_ascii_digit. lia. }
  cbn [show_digits]. destruct (Z.ltb_spec n 10).
  - cbn [parse_digits]. rewrite Hd, Z.mod_small by lia.
    replace (0 * 10 + (48 + n - 48)) with n by lia. by rewrite (proj2 (Z.leb_le n max)) by lia.
  - rewrite Nat2Z.inj_succ, Z.pow_succ_r in Hf by lia.
    rewrite IH; [|split; [apply Z.div_pos|apply Z.div_le_upper_bound]; lia|apply Z.div_lt_upper_bound; lia].
    cbn [parse_digits]. rewrite Hd.
    replace (n / 10 * 10 + (48 + n mod 10 - 48)) with n by (pose proof (Z.div_mod n 10); lia).
    by rewrite (proj2 (Z.leb_le n max)) by lia.
Qed.

Lemma show_digits_head fuel n tail :
  0 ≤ n → (0 < fuel)%nat → ∃ c r, show_digits fuel n tail = c :: r ∧ is_ascii_digit c = true.
Proof.
  revert n tail. induction fuel as [|fuel IH]; intros n tail Hn Hf; [lia|].
  cbn [show_digits].
  assert (is_ascii_digit (48 + n mod 10) = true) as Hd.
  { pose proof (Z.mod_pos_bound n 10). unfold is_ascii_digit. lia. }
  destruct (n <? 10); [by eauto|]. destruct fuel as [|fuel]; [by cbn; eauto|].
  apply IH; [apply Z.div_pos; lia|lia].
Qed.

(** Printing an integer and parsing it back. *)
Lemma parse_show_uint max n : 0 ≤ n ≤ max → n < 10 ^ 40 → parse_uint max (show_uint n) = Some n.
Proof.
  intros Hn Hb. pose proof (parse_show_digits max 40 n [] Hn Hb) as Hp.
  destruct (show_digits_head 40 n []) as (c & r & Hs & Hc); [lia..|].
  unfold parse_uint, show_uint in *. rewrite Hs in *.
  unfold is_ascii_digit in Hc. destruct (Z.eqb_spec c 43); [lia|]. by rewrite Hp.
Qed.
End IpParse.
