(* ===== verification/Order.v ===== *)
(** * Order: the standard library's orderings and sorts

    [Ord] of strings and pairs, [slice::sort_by] (stable) and [Vec::dedup],
    as the components use them. *)

From stdpp Require Import sorting.
From S2P Require Import Prelude.

(** [Ord] of [str]: byte by byte, a proper prefix first. *)
Fixpoint bytes_cmp (a b : bytes) : comparison :=
  match a, b with
  | [], [] => Eq
  | [], _ :: _ => Lt
  | _ :: _, [] => Gt
  | x :: a, y :: b => match Z.compare x y with Eq => bytes_cmp a b | c => c end
  end.

(** [Ordering::then]. *)
Definition then_cmp (c d : comparison) : comparison := match c with Eq => d | c => c end.

Definition cmp_leb (c : comparison) : bool := match c with Gt => false | _ => true end.

Section sort.
Context {A : Type} (cmp : A → A → comparison).

Fixpoint insert_sorted (x : A) (l : list A) : list A :=
  match l with
  | [] => [x]
  | y :: l' => if cmp_leb (cmp x y) then x :: l else y :: insert_sorted x l'
  end.

(** [sort_by]: stable, since an element is put before its equals to the right. *)
Definition sort_by (l : list A) : list A := foldr insert_sorted [] l.

Lemma insert_sorted_perm x l : insert_sorted x l ≡ₚ x :: l.
Proof.
  induction l as [|y l IH]; simpl; [done|]. destruct (cmp_leb _); [done|].
  rewrite IH. apply Permutation_swap.
Qed.

Lemma sort_by_perm l : sort_by l ≡ₚ l.
Proof. induction l as [|x l IH]; simpl; [done|]. by rewrite insert_sorted_perm, IH. Qed.

Lemma sort_by_elem x l : x ∈ sort_by l ↔ x ∈ l.
Proof. by rewrite (sort_by_perm l). Qed.
Lemma sort_by_In x l : In x (sort_by l) ↔ In x l.
Proof. rewrite <- !list_elem_of_In. apply sort_by_elem. Qed.
Lemma sort_by_nil l : sort_by l = [] ↔ l = [].
Proof.
  split; [|by intros ->]. intros H. pose proof (sort_by_perm l) as Hp. rewrite H in Hp.
  by apply Permutation_nil in Hp.
Qed.

(** Sorted for any transitive relation the comparison decides. *)
Context (R : A → A → Prop) `{!Transitive R}.
Hypothesis cmp_R : ∀ x y, if cmp_leb (cmp x y) then R x y else R y x.

Lemma insert_sorted_sorted x l : StronglySorted R l → StronglySorted R (insert_sorted x l).
Proof using All.
  induction 1 as [|y l Hl IH Hy]; simpl; [repeat constructor|].
  specialize (cmp_R x y) as Hxy. destruct (cmp_leb _).
  - constructor; [by constructor|]. constructor; [done|].
    eapply Forall_impl; [|exact Hy]. intros z Hz. by etrans.
  - constructor; [done|]. rewrite insert_sorted_perm. by constructor.
Qed.

Lemma sort_by_sorted l : StronglySorted R (sort_by l).
Proof using All. induction l; simpl; [constructor|by apply insert_sorted_sorted]. Qed.
End sort.

(** Sorting a list that is in order leaves it. *)
Lemma sort_by_fixed {A} (cmp : A → A → comparison) (R : A → A → Prop) l :
  (∀ x y, R x y → cmp_leb (cmp x y) = true) → StronglySorted R l → sort_by cmp l = l.
Proof.
  intros HR. induction 1 as [|x l Hl IH Hx]; [done|]. cbn [sort_by foldr]. fold (sort_by cmp l). rewrite IH.
  destruct Hx as [|y l Hxy _]; [done|]. cbn [insert_sorted]. by rewrite HR.
Qed.

(** Two comparisons that agree on a list sort it alike. *)
Lemma sort_by_ext {A} (cmp cmp' : A → A → comparison) l :
  (∀ x y, x ∈ l → y ∈ l → cmp x y = cmp' x y) → sort_by cmp l = sort_by cmp' l.
Proof.
  induction l as [|x l IH]; intros He; [done|]. cbn [sort_by foldr].
  fold (sort_by cmp l) (sort_by cmp' l). rewrite IH by (intros; apply He; by right).
  assert (∀ y, y ∈ sort_by cmp' l → cmp x y = cmp' x y) as Hx.
  { intros y Hy. apply He; [by left|]. right. by apply sort_by_elem in Hy. }
  clear IH He. induction (sort_by cmp' l) as [|y t IH]; [done|]. cbn [insert_sorted].
  rewrite Hx by (by left). destruct (cmp_leb _); [done|]. f_equal. apply IH.
  intros z Hz. apply Hx. by right.
Qed.

(** [Vec::dedup]: runs of equal elements become one. *)
Fixpoint dedup `{EqDecision A} (l : list A) : list A :=
  match l with
  | [] => []
  | x :: l' =>
      match l' with
      | y :: _ => if decide (x = y) then dedup l' else x :: dedup l'
      | [] => [x]
      end
  end.

Lemma dedup_elem `{EqDecision A} (x : A) l : x ∈ dedup l ↔ x ∈ l.
Proof.
  induction l as [|y [|z l] IH]; [done|done|].
  change (dedup (y :: z :: l)) with
    (if decide (y = z) then dedup (z :: l) else y :: dedup (z :: l)).
  destruct (decide (y = z)) as [->|]; rewrite ?elem_of_cons, IH, ?elem_of_cons; naive_solver.
Qed.

(** [Iterator::max_by_key]: the last of the maximal elements. *)
Definition max_by_key {A} (key : A → nat) (l : list A) : option A :=
  fold_left (λ best x,
    match best with
    | None => Some x
    | Some b => if Nat.leb (key b) (key x) then Some x else best
    end) l None.

Lemma max_by_key_spec {A} (key : A → nat) l :
  match max_by_key key l with
  | None => l = []
  | Some x => x ∈ l ∧ ∀ y, y ∈ l → (key y ≤ key x)%nat
  end.
Proof.
  unfold max_by_key. induction l as [|y l IH] using rev_ind; [done|].
  rewrite fold_left_app. simpl. destruct (fold_left _ l None) as [b|].
  - destruct IH as [Hb Hmax]. destruct (Nat.leb_spec (key b) (key y)).
    + split; [set_solver|]. intros z [Hz%Hmax| ->%list_elem_of_singleton]%elem_of_app; lia.
    + split; [set_solver|]. intros z [Hz%Hmax| ->%list_elem_of_singleton]%elem_of_app; lia.
  - subst l. split; [constructor|]. by intros z ->%list_elem_of_singleton.
Qed.
