(* ===== verification/Text.v ===== *)
(** * Text: more of the standard library's strings

    Substring search, splitting on a substring, hexadecimal digits, and the
    UTF-8 checks of [str::from_utf8] and [String::from_utf8_lossy]. *)

From S2P Require Import Prelude.
From Stdlib Require Import ZifyBool.

(** [str::find] of a substring: the offset of its first occurrence. *)
Fixpoint find_sub (p s : bytes) : option nat :=
  if starts_with p s then Some 0%nat
  else match s with [] => None | _ :: s => S <$> find_sub p s end.

(** [str::split] on a substring that is not empty; [skip] counts the bytes of
    the last match still to pass over. *)
Fixpoint split_str_go (p : bytes) (skip : nat) (s : bytes) : list bytes :=
  match s with
  | [] => [[]]
  | b :: s' =>
      match skip with
      | S skip => split_str_go p skip s'
      | O =>
          if starts_with p s then [] :: split_str_go p (length p - 1) s'
          else match split_str_go p 0 s' with
               | q :: qs => (b :: q) :: qs
               | [] => [[b]]
               end
      end
  end.
Definition split_str (p s : bytes) : list bytes := split_str_go p 0 s.

(** [str::find(char::is_whitespace)]. *)
Fixpoint find_whitespace (s : bytes) : option nat :=
  if Nat.eqb (ws_len s) 0
  then match s with [] => None | _ :: s => S <$> find_whitespace s end
  else Some 0%nat.

(** [str::replace] of one ASCII char by another. *)
Definition replace_byte (c d : Z) (s : bytes) : bytes := map (λ b, if b =? c then d else b) s.

(** The offset of the first byte that fails a test, the length if none does. *)
Fixpoint run_len (f : Z → bool) (s : bytes) : nat :=
  match s with
  | b :: s => if f b then S (run_len f s) else 0%nat
  | [] => 0%nat
  end.

(** [char::to_digit(16)]. *)
Definition hex_digit (b : Z) : option Z :=
  if (48 <=? b) && (b <=? 57) then Some (b - 48)
  else if (65 <=? b) && (b <=? 70) then Some (b - 55)
  else if (97 <=? b) && (b <=? 102) then Some (b - 87)
  else None.

(** The digit [{:02X}] writes for a nibble. *)
Definition hex_upper (n : Z) : Z := if n <? 10 then 48 + n else 55 + n.

(** ** UTF-8 *)

Definition between (lo hi b : Z) : bool := (lo <=? b) && (b <=? hi).

(** Which second byte may follow a lead byte of three or of four. *)
Definition second_of_three (b c : Z) : bool :=
  if b =? 0xE0 then between 0xA0 0xBF c
  else if b =? 0xED then between 0x80 0x9F c
  else between 0x80 0xBF c.
Definition second_of_four (b c : Z) : bool :=
  if b =? 0xF0 then between 0x90 0xBF c
  else if b =? 0xF4 then between 0x80 0x8F c
  else between 0x80 0xBF c.

(** The first char of a string: whether it is well formed, and its length or
    that of the maximal part of one that is not. *)
Definition utf8_chunk (s : bytes) : bool * nat :=
  match s with
  | [] => (true, 0%nat)
  | b :: s =>
      if b <? 128 then (true, 1%nat)
      else if between 0xC2 0xDF b then
        match s with c :: _ => if between 0x80 0xBF c then (true, 2%nat) else (false, 1%nat)
                   | [] => (false, 1%nat) end
      else if between 0xE0 0xEF b then
        match s with
        | c :: s =>
            if second_of_three b c then
              match s with c :: _ => if between 0x80 0xBF c then (true, 3%nat) else (false, 2%nat)
                         | [] => (false, 2%nat) end
            else (false, 1%nat)
        | [] => (false, 1%nat)
        end
      else if between 0xF0 0xF4 b then
        match s with
        | c :: s =>
            if second_of_four b c then
              match s with
              | c :: s =>
                  if between 0x80 0xBF c then
                    match s with
                    | c :: _ => if between 0x80 0xBF c then (true, 4%nat) else (false, 3%nat)
                    | [] => (false, 3%nat)
                    end
                  else (false, 2%nat)
              | [] => (false, 2%nat)
              end
            else (false, 1%nat)
        | [] => (false, 1%nat)
        end
      else (false, 1%nat)
  end.

(** U+FFFD. *)
Definition REPLACEMENT : bytes := [0xEF; 0xBF; 0xBD].

Fixpoint lossy_go (fuel : nat) (s : bytes) : bytes :=
  match fuel with
  | O => s
  | S fuel =>
      match s with
      | [] => []
      | _ =>
          let '(ok, n) := utf8_chunk s in
          (if ok then take n s else REPLACEMENT) ++ lossy_go fuel (drop n s)
      end
  end.
(** A chunk has a byte at least, so the length is enough fuel. *)
Definition from_utf8_lossy (s : bytes) : bytes := lossy_go (length s) s.

Fixpoint valid_go (fuel : nat) (s : bytes) : bool :=
  match fuel with
  | O => true
  | S fuel =>
      match s with
      | [] => true
      | _ => let '(ok, n) := utf8_chunk s in ok && valid_go fuel (drop n s)
      end
  end.
Definition utf8_valid (s : bytes) : bool := valid_go (length s) s.
(** [String::from_utf8]. *)
Definition from_utf8 (s : bytes) : option bytes := if utf8_valid s then Some s else None.

(** ** Lemmas on substrings *)

Lemma starts_with_app p s t : starts_with p s = true → starts_with p (s ++ t) = true.
Proof. rewrite !starts_with_spec. intros [r ->]. exists (r ++ t). by rewrite <- app_assoc. Qed.

Lemma contains_sub_spec p s : contains_sub p s = true ↔ ∃ a b, s = a ++ p ++ b.
Proof.
  split.
  - induction s as [|x s IH]; cbn [contains_sub]; rewrite orb_true_iff, starts_with_spec.
    + intros [[r Hr]|?]; [|done]. by exists [], r.
    + intros [[r ->]|Hc]; [by exists [], r|]. destruct (IH Hc) as (a & b & ->). by exists (x :: a), b.
  - intros (a & b & ->). induction a as [|x a IH]; cbn [app].
    + destruct (p ++ b) eqn:E; cbn [contains_sub]; rewrite orb_true_iff, starts_with_spec; left; by exists b.
    + cbn [contains_sub]. by rewrite IH, orb_true_r.
Qed.

Lemma contains_sub_app_l p a s : contains_sub p s = true → contains_sub p (a ++ s) = true.
Proof.
  rewrite !contains_sub_spec. intros (x & y & ->). exists (a ++ x), y. by rewrite <- app_assoc.
Qed.
Lemma contains_sub_app_r p a s : contains_sub p a = true → contains_sub p (a ++ s) = true.
Proof.
  rewrite !contains_sub_spec. intros (x & y & ->). exists x, (y ++ s). by rewrite <- !app_assoc.
Qed.

(** The first occurrence: the string is a prefix without it, it, and a rest. *)
Lemma find_sub_Some p s k :
  find_sub p s = Some k →
  ∃ b, s = take k s ++ p ++ b ∧ length (take k s) = k
       ∧ ∀ j, (j < k)%nat → starts_with p (drop j s) = false.
Proof.
  revert k. induction s as [|x s IH]; cbn [find_sub]; intros k.
  - destruct (starts_with p []) eqn:E; [|done]. intros [= <-].
    apply starts_with_spec in E as [r Hr]. exists r. repeat split; [done|lia].
  - destruct (starts_with p (x :: s)) eqn:E.
    + intros [= <-]. apply starts_with_spec in E as [r Hr]. exists r. repeat split; [done|lia].
    + rewrite fmap_Some. intros (k' & Hk & ->). destruct (IH k' Hk) as (b & Hs & Hl & Hfirst).
      exists b. cbn [take drop app length]. rewrite Hl. repeat split; [by f_equal|].
      intros [|j] Hj; [done|]. apply Hfirst. lia.
Qed.

Lemma find_sub_None p s : find_sub p s = None ↔ contains_sub p s = false.
Proof.
  induction s as [|x s IH]; cbn [find_sub contains_sub]; destruct (starts_with _ _); cbn [orb];
    [done..|]. rewrite <- IH. destruct (find_sub p s); cbn; naive_solver.
Qed.

Lemma starts_with_drop p s a b : s = a ++ p ++ b → starts_with p (drop (length a) s) = true.
Proof. intros ->. rewrite drop_app_length. apply starts_with_spec. by exists b. Qed.

(** No occurrence starts before an offset: none lies in the prefix up to it. *)
Lemma contains_sub_take p s k :
  p ≠ [] → (∀ j, (j < k)%nat → starts_with p (drop j s) = false) →
  contains_sub p (take k s) = false.
Proof.
  intros Hp Hno. destruct (contains_sub p (take k s)) eqn:E; [|done].
  apply contains_sub_spec in E as (a & b & Hab).
  assert (length a < k)%nat as Hlt.
  { apply (f_equal length) in Hab. rewrite !length_app, length_take in Hab.
    assert (length p ≠ 0%nat) by (by destruct p). lia. }
  rewrite <- (Hno _ Hlt). symmetry. apply (starts_with_drop p s a (b ++ drop k s)).
  rewrite <- (take_drop k s) at 1. by rewrite Hab, <- !app_assoc.
Qed.

Lemma run_len_le f s : (run_len f s ≤ length s)%nat.
Proof. induction s; cbn; [done|]. case_match; lia. Qed.
Lemma run_len_take f s : forallb f (take (run_len f s) s) = true.
Proof. induction s as [|b s IH]; cbn; [done|]. destruct (f b) eqn:E; cbn; [|done]. by rewrite E. Qed.
Lemma run_len_all f s : forallb f s = true → run_len f s = length s.
Proof.
  induction s as [|b s IH]; cbn; [done|]. rewrite andb_true_iff. intros [-> ?]. by rewrite IH.
Qed.

(** ** Lemmas on UTF-8 *)

Lemma utf8_chunk_len s : s ≠ [] → (1 ≤ (utf8_chunk s).2 ≤ length s)%nat.
Proof.
  intros Hs. destruct s as [|b [|c [|d [|e s]]]]; [done|..]; cbn; repeat case_match; cbn; lia.
Qed.

(** More fuel than bytes changes nothing. *)
Lemma lossy_go_fuel n s : (length s ≤ n)%nat → lossy_go n s = from_utf8_lossy s.
Proof.
  unfold from_utf8_lossy. revert s.
  enough (∀ m n s, (length s ≤ n)%nat → (length s ≤ m)%nat → lossy_go n s = lossy_go m s) by eauto.
  clear n. induction m as [|m IH]; intros n s Hn Hm.
  - destruct s; [|cbn in Hm; lia]. by destruct n.
  - destruct n as [|n]; [destruct s; [done|cbn in Hn; lia]|].
    destruct s as [|b s]; [done|]. cbn [lossy_go].
    pose proof (utf8_chunk_len (b :: s) ltac:(done)) as Hc.
    destruct (utf8_chunk (b :: s)) as [good k]. cbn [snd] in Hc. f_equal.
    apply IH; rewrite length_drop; lia.
Qed.

Lemma lossy_step s : s ≠ [] →
  from_utf8_lossy s =
  (if (utf8_chunk s).1 then take (utf8_chunk s).2 s else REPLACEMENT)
    ++ from_utf8_lossy (drop (utf8_chunk s).2 s).
Proof.
  intros Hs. pose proof (utf8_chunk_len s Hs) as Hc. destruct s as [|b s]; [done|].
  unfold from_utf8_lossy at 1. cbn [length lossy_go].
  destruct (utf8_chunk (b :: s)) as [good k]. cbn [fst snd] in *. f_equal.
  apply lossy_go_fuel. rewrite length_drop. cbn [length]. lia.
Qed.

(** Induction a char, or a broken part of one, at a time. *)
Lemma utf8_ind (P : bytes → Prop) :
  P [] → (∀ s, s ≠ [] → P (drop (utf8_chunk s).2 s) → P s) → ∀ s, P s.
Proof.
  intros H0 HS s. remember (length s) as n eqn:Hn. revert s Hn.
  induction (lt_wf n) as [n _ IH]; intros s ->. destruct s as [|b s]; [done|].
  apply HS; [done|]. pose proof (utf8_chunk_len (b :: s) ltac:(done)).
  eapply IH; [|done]. rewrite length_drop. cbn [length] in *. lia.
Qed.

Lemma valid_go_fuel n s : (length s ≤ n)%nat → valid_go n s = utf8_valid s.
Proof.
  unfold utf8_valid. revert s.
  enough (∀ m n s, (length s ≤ n)%nat → (length s ≤ m)%nat → valid_go n s = valid_go m s) by eauto.
  clear n. induction m as [|m IH]; intros n s Hn Hm.
  - destruct s; [|cbn in Hm; lia]. by destruct n.
  - destruct n as [|n]; [destruct s; [done|cbn in Hn; lia]|].
    destruct s as [|b s]; [done|]. cbn [valid_go].
    pose proof (utf8_chunk_len (b :: s) ltac:(done)) as Hc.
    destruct (utf8_chunk (b :: s)) as [good k]. cbn [snd] in Hc. f_equal.
    apply IH; rewrite length_drop; lia.
Qed.
Lemma valid_step s : s ≠ [] →
  utf8_valid s = (utf8_chunk s).1 && utf8_valid (drop (utf8_chunk s).2 s).
Proof.
  intros Hs. pose proof (utf8_chunk_len s Hs) as Hc. destruct s as [|b s]; [done|].
  unfold utf8_valid at 1. cbn [length valid_go].
  destruct (utf8_chunk (b :: s)) as [good k]. cbn [fst snd] in *. f_equal.
  apply valid_go_fuel. rewrite length_drop. cbn [length]. lia.
Qed.

Lemma lossy_valid s : utf8_valid s = true → from_utf8_lossy s = s.
Proof.
  induction s as [|s Hs IH] using utf8_ind; [done|].
  rewrite valid_step, lossy_step, andb_true_iff by done. intros [-> Hv].
  rewrite (IH Hv). apply take_drop.
Qed.

(** An ASCII byte ends whatever char stands before it. *)
Lemma utf8_chunk_app a b s : a ≠ [] → b < 128 → utf8_chunk (a ++ b :: s) = utf8_chunk a.
Proof.
  intros Ha Hb. unfold utf8_chunk, second_of_three, second_of_four, between.
  destruct a as [|x [|y [|z [|w a]]]]; [done|..]; cbn [app];
    repeat (case_match; try lia); done.
Qed.

Lemma lossy_app a b s : b < 128 →
  from_utf8_lossy (a ++ b :: s) = from_utf8_lossy a ++ b :: from_utf8_lossy s.
Proof.
  intros Hb. induction a as [|a Ha IH] using utf8_ind.
  - cbn [app]. rewrite lossy_step by done. cbn [utf8_chunk].
    by rewrite (proj2 (Z.ltb_lt b 128)) by done.
  - rewrite !(lossy_step a), lossy_step by (done || by destruct a).
    rewrite utf8_chunk_app by done. pose proof (utf8_chunk_len a Ha).
    rewrite drop_app_le, IH, take_app_le by lia. by rewrite <- app_assoc.
Qed.

Lemma elem_of_take_in {A} (x : A) n l : x ∈ take n l → x ∈ l.
Proof. intros Hx. rewrite <- (take_drop n l). apply elem_of_app. by left. Qed.
Lemma elem_of_drop_in {A} (x : A) n l : x ∈ drop n l → x ∈ l.
Proof. intros Hx. rewrite <- (take_drop n l). apply elem_of_app. by right. Qed.

(** Replacing broken chars writes no ASCII byte. *)
Lemma lossy_ascii c s : c < 128 → c ∈ from_utf8_lossy s → c ∈ s.
Proof.
  intros Hc. induction s as [|s Hs IH] using utf8_ind; [done|].
  rewrite lossy_step, elem_of_app by done. intros [Hin|Hin].
  2: { apply IH in Hin. by apply elem_of_drop_in in Hin. }
  destruct (utf8_chunk s).1; [by apply elem_of_take_in in Hin|]. unfold REPLACEMENT in Hin.
  rewrite !elem_of_cons in Hin. destruct Hin as [?|[?|[?|?%elem_of_nil]]]; [lia..|done].
Qed.

(** ** Lines *)

Definition CRLF : bytes := [13; 10].

(** A line has no line end in it. *)
Definition no_crlf (s : bytes) : bool := negb (contains_sub CRLF s).

Lemma no_crlf_cons x s :
  no_crlf (x :: s) = negb (x =? 13) && no_crlf s || (x =? 13) && negb (starts_with [10] s) && no_crlf s.
Proof.
  unfold no_crlf. cbn [contains_sub]. unfold starts_with, CRLF. cbn [strip_prefix].
  rewrite (Z.eqb_sym 13 x). destruct (Z.eqb_spec x 13) as [->|]; cbn [is_some orb andb negb];
    [|by rewrite orb_false_r].
  destruct s as [|y s]; cbn [strip_prefix is_some negb andb]; [done|].
  rewrite (Z.eqb_sym 10 y). by destruct (y =? 10).
Qed.

Lemma no_crlf_notin s : 13 ∉ s → no_crlf s = true.
Proof.
  induction s as [|x s IH]; [done|]. rewrite not_elem_of_cons, no_crlf_cons. intros [Hx Hs].
  rewrite IH by done. destruct (Z.eqb_spec x 13); [congruence|done].
Qed.

(** A byte that is neither CR nor LF keeps its neighbours apart. *)
Lemma no_crlf_app a c b : c ≠ 13 → c ≠ 10 → no_crlf (a ++ c :: b) = no_crlf a && no_crlf b.
Proof.
  intros H13 H10. induction a as [|x a IH]; cbn [app].
  - rewrite no_crlf_cons. apply Z.eqb_neq in H13 as ->. cbn. by rewrite orb_false_r.
  - rewrite !no_crlf_cons, IH. assert (starts_with [10] (a ++ c :: b) = starts_with [10] a) as ->.
    { unfold starts_with. destruct a as [|y a]; cbn [app strip_prefix].
      - rewrite (proj2 (Z.eqb_neq 10 c)) by congruence. done.
      - by destruct (10 =? y). }
    destruct (x =? 13), (starts_with [10] a), (no_crlf a), (no_crlf b); done.
Qed.

Lemma no_crlf_tail x s : no_crlf (x :: s) = true → no_crlf s = true.
Proof. rewrite no_crlf_cons. destruct (no_crlf s); [done|]. rewrite !andb_false_r. done. Qed.

(** A line is not followed by a line end before its own. *)
Lemma line_start x l t : no_crlf (x :: l) = true → starts_with CRLF (x :: l ++ CRLF ++ t) = false.
Proof.
  rewrite no_crlf_cons. unfold starts_with, CRLF. cbn [strip_prefix]. rewrite (Z.eqb_sym 13 x).
  destruct (x =? 13); cbn [negb andb orb]; [|done].
  destruct l as [|y l]; cbn [app strip_prefix]; [done|]. rewrite (Z.eqb_sym 10 y).
  destruct (Z.eqb_spec y 10) as [->|]; [|done]. done.
Qed.

Lemma starts_with_app_false p q s : starts_with p s = false → starts_with (p ++ q) s = false.
Proof.
  intros H. destruct (starts_with (p ++ q) s) eqn:E; [|done]. rewrite <- H. symmetry.
  apply starts_with_spec in E as [r ->]. apply starts_with_spec. exists (q ++ r).
  by rewrite <- app_assoc.
Qed.

(** The first empty line is not before a line that is not empty. *)
Lemma find_double_skip l t :
  no_crlf l = true → starts_with CRLF t = false →
  find_sub (CRLF ++ CRLF) (l ++ CRLF ++ t) =
  (λ k, (length l + 2 + k)%nat) <$> find_sub (CRLF ++ CRLF) t.
Proof.
  intros Hl Ht. induction l as [|x l IH].
  - change ([] ++ CRLF ++ t) with (13 :: 10 :: t). cbn [find_sub].
    assert (starts_with (CRLF ++ CRLF) (13 :: 10 :: t) = false) as -> by exact Ht.
    assert (starts_with (CRLF ++ CRLF) (10 :: t) = false) as -> by done.
    by destruct (find_sub _ t).
  - change ((x :: l) ++ CRLF ++ t) with (x :: (l ++ CRLF ++ t)). cbn [find_sub].
    rewrite (starts_with_app_false _ _ _ (line_start x l t Hl)).
    rewrite IH by (by eapply no_crlf_tail). by destruct (find_sub _ t).
Qed.
Lemma find_double_here l t :
  no_crlf l = true → find_sub (CRLF ++ CRLF) (l ++ CRLF ++ CRLF ++ t) = Some (length l).
Proof.
  intros Hl. induction l as [|x l IH]; [done|].
  change ((x :: l) ++ CRLF ++ CRLF ++ t) with (x :: (l ++ CRLF ++ (CRLF ++ t))). cbn [find_sub].
  rewrite (starts_with_app_false _ _ _ (line_start x l _ Hl)).
  rewrite IH by (by eapply no_crlf_tail). done.
Qed.

Lemma split_crlf l t : no_crlf l = true → split_str CRLF (l ++ CRLF ++ t) = l :: split_str CRLF t.
Proof.
  unfold split_str. intros Hl. induction l as [|x l IH]; [done|].
  change ((x :: l) ++ CRLF ++ t) with (x :: (l ++ CRLF ++ t)). cbn [split_str_go].
  rewrite (line_start x l t Hl), IH by (by eapply no_crlf_tail). done.
Qed.

Lemma lossy_crlf a b : from_utf8_lossy (a ++ CRLF ++ b) = from_utf8_lossy a ++ CRLF ++ from_utf8_lossy b.
Proof.
  change (a ++ CRLF ++ b) with (a ++ 13 :: [] ++ 10 :: b). by rewrite !lossy_app.
Qed.

Lemma lossy_nonempty s : s ≠ [] → from_utf8_lossy s ≠ [].
Proof.
  intros Hs. rewrite lossy_step by done. pose proof (utf8_chunk_len s Hs).
  destruct (utf8_chunk s).1; [|done]. destruct s as [|b s]; [done|].
  destruct (utf8_chunk (b :: s)).2; [lia|done].
Qed.

(** What follows is read as a line feed only if it was one. *)
Lemma lossy_lf s : starts_with [10] (from_utf8_lossy s) = starts_with [10] s.
Proof.
  destruct s as [|b s]; [done|]. destruct (Z.ltb_spec b 128).
  - change (b :: s) with ([] ++ b :: s). rewrite lossy_app by done.
    change (from_utf8_lossy []) with (@nil Z). unfold starts_with. cbn [app strip_prefix].
    by destruct (10 =? b).
  - rewrite lossy_step by done. pose proof (utf8_chunk_len (b :: s) ltac:(done)).
    assert (starts_with [10] (b :: s) = false) as ->.
    { unfold starts_with. cbn [strip_prefix]. rewrite (proj2 (Z.eqb_neq 10 b)) by lia. done. }
    destruct (utf8_chunk (b :: s)) as [[|] [|n]]; cbn [fst snd] in *; [lia| |lia|done].
    unfold starts_with. cbn [take app strip_prefix]. rewrite (proj2 (Z.eqb_neq 10 b)) by lia. done.
Qed.

Lemma no_crlf_split a t :
  13 ∉ a → no_crlf (a ++ 13 :: t) = negb (starts_with [10] t) && no_crlf t.
Proof.
  induction a as [|x a IH]; intros Ha; cbn [app]; [by rewrite no_crlf_cons|].
  apply not_elem_of_cons in Ha as [Hx Ha]. rewrite no_crlf_cons, IH by done.
  rewrite (proj2 (Z.eqb_neq x 13)) by congruence. cbn. by rewrite orb_false_r.
Qed.

Lemma lossy_no_crlf s : no_crlf s = true → no_crlf (from_utf8_lossy s) = true.
Proof.
  remember (length s) as n eqn:Hn. revert s Hn. induction (lt_wf n) as [n _ IH]; intros s -> Hs.
  destruct (split_once 13 s) as [[a t]|] eqn:E.
  - apply split_once_Some in E as [-> Ha]. rewrite lossy_app by done.
    rewrite no_crlf_split in Hs by done.
    rewrite no_crlf_split by (intros Hin; by apply lossy_ascii in Hin). rewrite lossy_lf.
    apply andb_true_iff in Hs as [-> Ht]. eapply IH; [|done..]. rewrite length_app. cbn. lia.
  - apply no_crlf_notin. intros ?%lossy_ascii; [|done]. by apply split_once_None in E.
Qed.

(** The first line of a text is unique. *)
Lemma first_line_inj l l' t t' :
  no_crlf l = true → no_crlf l' = true → l ++ CRLF ++ t = l' ++ CRLF ++ t' → l = l' ∧ t = t'.
Proof.
  intros Hl Hl' Heq. pose proof (f_equal (split_str CRLF) Heq) as Hs.
  rewrite (split_crlf l), (split_crlf l') in Hs by done. injection Hs as <- _.
  split; [done|]. by do 2 apply app_inv_head in Heq.
Qed.
