(* ===== verification/Base64.v ===== *)
(** * Base64: the interface of the [base64] crate's standard engine

    The proxy decodes and encodes Basic credentials with it. [Base64] states
    what the code relies on; [standard_base64] is RFC 4648's alphabet with
    padding, which has it. *)

From S2P Require Import Prelude.
From Stdlib Require Import ZifyBool.

(** The alphabet, with the padding char. *)
Definition is_base64_char (c : Z) : bool :=
  is_ascii_alphanumeric c || (c =? 43) || (c =? 47) || (c =? 61).

(** What was encoded is decoded again, and only the alphabet is written. *)
Class Base64 := {
  b64_encode : bytes → bytes;
  b64_decode : bytes → option bytes;
  b64_decode_encode s : forallb is_byte s = true → b64_decode (b64_encode s) = Some s;
  b64_alphabet s : forallb is_base64_char (b64_encode s) = true;
}.

Definition sextet_char (n : Z) : Z :=
  if n <? 26 then 65 + n else if n <? 52 then 71 + n else if n <? 62 then n - 4
  else if n =? 62 then 43 else 47.
Definition char_sextet (c : Z) : option Z :=
  if (65 <=? c) && (c <=? 90) then Some (c - 65)
  else if (97 <=? c) && (c <=? 122) then Some (c - 71)
  else if (48 <=? c) && (c <=? 57) then Some (c + 4)
  else if c =? 43 then Some 62 else if c =? 47 then Some 63 else None.

Definition std_quad (a b c : Z) : bytes :=
  [sextet_char (a / 4 mod 64); sextet_char ((a mod 4) * 16 + b / 16 mod 16);
   sextet_char ((b mod 16) * 4 + c / 64 mod 4); sextet_char (c mod 64)].
Fixpoint std_encode (s : bytes) : bytes :=
  match s with
  | a :: b :: c :: s => std_quad a b c ++ std_encode s
  | [a; b] => take 3 (std_quad a b 0) ++ [61]
  | [a] => take 2 (std_quad a 0 0) ++ [61; 61]
  | [] => []
  end.

(** Trailing bits of a padded quad must be zero. *)
Fixpoint std_decode (s : bytes) : option bytes :=
  match s with
  | [] => Some []
  | w :: x :: y :: z :: s =>
      match char_sextet w, char_sextet x, char_sextet y, char_sextet z with
      | Some p, Some q, Some u, Some v =>
          (λ l, [p * 4 + q / 16; (q mod 16) * 16 + u / 4; (u mod 4) * 64 + v] ++ l)
            <$> std_decode s
      | Some p, Some q, Some u, None =>
          if (z =? 61) && is_empty s && (u mod 4 =? 0)
          then Some [p * 4 + q / 16; (q mod 16) * 16 + u / 4] else None
      | Some p, Some q, None, None =>
          if (y =? 61) && (z =? 61) && is_empty s && (q mod 16 =? 0)
          then Some [p * 4 + q / 16] else None
      | _, _, _, _ => None
      end
  | _ => None
  end.

(** The ranges of the alphabet a sextet can fall in. *)
Ltac sextet_ranges n :=
  unfold sextet_char;
  destruct (Z.ltb_spec n 26); [|destruct (Z.ltb_spec n 52); [|destruct (Z.ltb_spec n 62);
    [|destruct (Z.eqb_spec n 62)]]].

Lemma char_sextet_char n : 0 ≤ n < 64 → char_sextet (sextet_char n) = Some n.
Proof.
  intros Hn. sextet_ranges n; unfold char_sextet;
    repeat match goal with |- context [if ?b then _ else _] => destruct b eqn:?; try lia end;
    f_equal; lia.
Qed.
Lemma sextet_char_alphabet n : 0 ≤ n < 64 → is_base64_char (sextet_char n) = true.
Proof.
  intros Hn. unfold is_base64_char, is_ascii_alphanumeric, is_ascii_alphabetic, is_ascii_digit.
  sextet_ranges n; lia.
Qed.

(** Induction three bytes at a time, as the codec goes. *)
Lemma bytes_ind3 (P : bytes → Prop) :
  P [] → (∀ a, P [a]) → (∀ a b, P [a; b]) → (∀ a b c s, P s → P (a :: b :: c :: s)) → ∀ s, P s.
Proof.
  intros H0 H1 H2 H3. fix IH 1. intros [|a [|b [|c s]]];
    [exact H0|apply H1|apply H2|apply H3; apply IH].
Qed.

Lemma quad_bounds a b c : 
  0 ≤ a / 4 mod 64 < 64 ∧ 0 ≤ (a mod 4) * 16 + b / 16 mod 16 < 64
  ∧ 0 ≤ (b mod 16) * 4 + c / 64 mod 4 < 64 ∧ 0 ≤ c mod 64 < 64.
Proof. Z.to_euclidean_division_equations; lia. Qed.

Lemma std_alphabet s : forallb is_base64_char (std_encode s) = true.
Proof.
  induction s as [|a|a b|a b c s IH] using bytes_ind3; [done|..].
  - destruct (quad_bounds a 0 0) as (? & ? & ? & ?). cbn [std_encode std_quad take app forallb].
    by rewrite !sextet_char_alphabet by done.
  - destruct (quad_bounds a b 0) as (? & ? & ? & ?). cbn [std_encode std_quad take app forallb].
    by rewrite !sextet_char_alphabet by done.
  - destruct (quad_bounds a b c) as (? & ? & ? & ?). cbn [std_encode std_quad app forallb].
    by rewrite !sextet_char_alphabet by done.
Qed.

Lemma pad_sextet : char_sextet 61 = None.
Proof. done. Qed.

Lemma std_decode_encode s : forallb is_byte s = true → std_decode (std_encode s) = Some s.
Proof.
  unfold is_byte.
  induction s as [|a|a b|a b c s IH] using bytes_ind3; cbn [forallb]; intros Hs; [done|..].
  - destruct (quad_bounds a 0 0) as (? & ? & ? & ?).
    cbn [std_encode std_quad take app std_decode].
    rewrite !char_sextet_char, pad_sextet by done. cbn [is_empty].
    rewrite (proj2 (Z.eqb_eq _ 0)) by (Z.to_euclidean_division_equations; lia). cbn.
    repeat f_equal. Z.to_euclidean_division_equations; lia.
  - destruct (quad_bounds a b 0) as (? & ? & ? & ?).
    cbn [std_encode std_quad take app std_decode].
    rewrite !char_sextet_char, pad_sextet by done. cbn [is_empty].
    rewrite (proj2 (Z.eqb_eq (_ mod 4) 0)) by (Z.to_euclidean_division_equations; lia). cbn.
    repeat f_equal; Z.to_euclidean_division_equations; lia.
  - destruct (quad_bounds a b c) as (? & ? & ? & ?).
    cbn [std_encode std_quad app std_decode].
    rewrite !char_sextet_char, IH by (done || lia). cbn.
    repeat f_equal; Z.to_euclidean_division_equations; lia.
Qed.

#[export] Instance standard_base64 : Base64 := {
  b64_encode := std_encode;
  b64_decode := std_decode;
  b64_decode_encode := std_decode_encode;
  b64_alphabet := std_alphabet;
}.
