(* ===== verification/Secrets.v ===== *)
(** * Secrets: credential placeholders (crates/openshell-core/src/secrets.rs)

    The workload holds placeholders in place of credentials; the supervisor
    replaces them in the requests it forwards. This file models the grammar of
    placeholders, the resolver with its endpoint, identity and placement
    restrictions, and every rewrite: header values, Basic tokens, text bodies,
    paths, queries and whole header blocks, with the redacted targets that
    policy and logs see. A slice whose end lies before its start panics, which
    is an outcome of its own. *)

From stdpp Require Import gmap.
From S2P Require Import Prelude IpParse Order Text Base64.

Local Open Scope Z_scope.

Module Secrets.

(** ** Markers and the placeholder grammar *)

Definition PLACEHOLDER_PREFIX : bytes := lit "openshell:resolve:env:".
Definition PROVIDER_ALIAS_MARKER : bytes := lit "OPENSHELL-RESOLVE-ENV-".

Definition CREDENTIAL_MARKER_SCAN_TAIL_BYTES : nat :=
  3 * Nat.max (length PLACEHOLDER_PREFIX) (length PROVIDER_ALIAS_MARKER).

Definition is_env_key_char (b : Z) : bool := is_ascii_alphanumeric b || (b =? 95).
Definition is_alias_token_char (b : Z) : bool :=
  is_ascii_alphanumeric b || contains_byte b (lit "_-.~").

Definition contains_raw_reserved_marker (value : bytes) : bool :=
  contains_sub PLACEHOLDER_PREFIX value || contains_sub PROVIDER_ALIAS_MARKER value.

(** [u8::from_str_radix(_, 16)] of two bytes: a sign may stand for the first
    digit. *)
Definition hex_pair (h l : Z) : option Z :=
  match hex_digit l with
  | None => None
  | Some lo => if h =? 43 then Some lo else (λ hi, hi * 16 + lo) <$> hex_digit h
  end.

Fixpoint percent_decode_bytes (input : bytes) : bytes :=
  match input with
  | [] => []
  | b :: rest =>
      if b =? 37 then
        match rest with
        | h :: l :: rest' =>
            match hex_pair h l with
            | Some v => v :: percent_decode_bytes rest'
            | None => 37 :: h :: l :: percent_decode_bytes rest'
            end
        | [h] => [37; h]
        | [] => [37]
        end
      else b :: percent_decode_bytes rest
  end.
Definition percent_decode (input : bytes) : bytes := from_utf8_lossy (percent_decode_bytes input).

Definition contains_reserved_credential_marker (value : bytes) : bool :=
  if contains_raw_reserved_marker value then true
  else contains_raw_reserved_marker (percent_decode value).

Definition contains_reserved_credential_marker_bytes (value : bytes) : bool :=
  if is_empty value then false
  else existsb contains_reserved_credential_marker (split_on 0 (from_utf8_lossy value)).

Definition percent_escape (b : Z) : bytes :=
  [37; hex_upper (Z.land (Z.shiftr b 4) 15); hex_upper (Z.land b 15)].
(** The loop of both encoders: a byte in a set of plain chars stays. *)
Definition percent_encode (plain : bytes) (input : bytes) : bytes :=
  concat (map (λ b, if is_ascii_alphanumeric b || contains_byte b plain then [b]
                    else percent_escape b) input).
Definition percent_encode_query (input : bytes) : bytes := percent_encode (lit "-._~") input.
Definition percent_encode_path_segment (input : bytes) : bytes :=
  percent_encode (lit "-._~!$&'()*+,;=:@") input.

Definition placeholder_for_env_key (key : bytes) : bytes := PLACEHOLDER_PREFIX ++ key.
Definition placeholder_for_env_key_for_revision (key : bytes) (revision : Z) : bytes :=
  if revision =? 0 then placeholder_for_env_key key
  else PLACEHOLDER_PREFIX ++ 118 :: IpParse.show_uint revision ++ 95 :: key.
Definition placeholder_for_env_key_for_stable_handle (key handle : bytes) : bytes :=
  PLACEHOLDER_PREFIX ++ 115 :: handle ++ 95 :: key.

(** A suffix is an env key when it is not empty and has only key chars. *)
Definition is_env_key (key : bytes) : bool := negb (is_empty key) && forallb is_env_key_char key.

Definition split_revisioned_env_key (key : bytes) : option (bytes * bytes) :=
  match strip_prefix [118] key with
  | None => None
  | Some suffix =>
      match split_once 95 suffix with
      | None => None
      | Some (revision, env_key) =>
          if is_empty revision || negb (forallb is_ascii_digit revision) || negb (is_env_key env_key)
          then None else Some (revision, env_key)
      end
  end.

Definition is_handle_char (b : Z) : bool := is_ascii_digit b || ((97 <=? b) && (b <=? 102)).
Definition split_stable_env_key (key : bytes) : option (bytes * bytes) :=
  match strip_prefix [115] key with
  | None => None
  | Some suffix =>
      match split_once 95 suffix with
      | None => None
      | Some (handle, env_key) =>
          if negb (Nat.eqb (length handle) 64) || negb (forallb is_handle_char handle)
             || negb (is_env_key env_key)
          then None else Some (handle, env_key)
      end
  end.

Definition uses_reserved_revision_namespace (key : bytes) : bool :=
  is_some (split_revisioned_env_key key) || is_some (split_stable_env_key key).

Definition revisioned_placeholder_parts (token : bytes) : option (Z * bytes) :=
  match strip_prefix PLACEHOLDER_PREFIX token with
  | None => None
  | Some suffix =>
      match split_revisioned_env_key suffix with
      | None => None
      | Some (revision, key) => (λ r, (r, key)) <$> parse_uint u64_max revision
      end
  end.
Definition revisioned_placeholder_env_key (token : bytes) : option bytes :=
  snd <$> revisioned_placeholder_parts token.
Definition stable_placeholder_parts (token : bytes) : option (bytes * bytes) :=
  match strip_prefix PLACEHOLDER_PREFIX token with
  | None => None
  | Some suffix => split_stable_env_key suffix
  end.

Definition alias_env_key (token : bytes) : option bytes :=
  match find_sub PROVIDER_ALIAS_MARKER token with
  | None | Some O => None
  | Some marker_start =>
      if negb (forallb is_alias_token_char (take marker_start token)) then None
      else
        let key := drop (marker_start + length PROVIDER_ALIAS_MARKER)%nat token in
        if is_env_key key then Some key else None
  end.

Definition or_else {A} (a b : option A) : option A := match a with Some _ => a | None => b end.

Definition placeholder_env_key (token : bytes) : option bytes :=
  or_else (snd <$> stable_placeholder_parts token)
  (or_else (revisioned_placeholder_env_key token)
  (or_else (strip_prefix PLACEHOLDER_PREFIX token)
    ((λ suffix,
        match or_else (split_stable_env_key suffix) (split_revisioned_env_key suffix) with
        | Some (_, key) => key
        | None => suffix
        end) <$> alias_env_key token))).

(** ** Tokens in a text *)

Fixpoint alias_start_for_marker (text : bytes) (start : nat) : nat :=
  match start with
  | O => O
  | S previous =>
      match text !! previous with
      | Some b => if is_alias_token_char b then alias_start_for_marker text previous else start
      | None => start
      end
  end.

(** Where the next placeholder can start: the smaller of the two markers'. *)
Definition next_marker (text : bytes) (pos : nat) : option nat :=
  let next_canonical := (λ p, (pos + p)%nat) <$> find_sub PLACEHOLDER_PREFIX (drop pos text) in
  let next_alias := (λ p, alias_start_for_marker text (pos + p)%nat)
                      <$> find_sub PROVIDER_ALIAS_MARKER (drop pos text) in
  match next_canonical, next_alias with
  | Some a, Some b => Some (Nat.min a b)
  | Some a, None => Some a
  | None, b => b
  end.

Definition canonical_token_at (text : bytes) (abs_start : nat) : option (nat * bytes) :=
  if negb (starts_with PLACEHOLDER_PREFIX (drop abs_start text)) then None
  else
    let key_start := (abs_start + length PLACEHOLDER_PREFIX)%nat in
    let key_end := (key_start + run_len is_env_key_char (drop key_start text))%nat in
    if Nat.ltb key_start key_end
    then Some (key_end, take (key_end - abs_start) (drop abs_start text)) else None.

(** The byte at an offset may not go on with an alias. *)
Definition alias_ends_at (text : bytes) (i : nat) : bool :=
  match text !! i with Some b => negb (is_alias_token_char b) | None => true end.
Definition alias_starts_at (text : bytes) (i : nat) : bool :=
  match i with O => true | S j => alias_ends_at text j end.

Definition alias_token_at (text : bytes) (abs_start : nat) : option (nat * bytes) :=
  match find_sub PROVIDER_ALIAS_MARKER (drop abs_start text) with
  | None | Some O => None
  | Some marker_rel =>
      let key_start := (abs_start + marker_rel + length PROVIDER_ALIAS_MARKER)%nat in
      let key_end := (key_start + run_len is_env_key_char (drop key_start text))%nat in
      if Nat.eqb key_end key_start then None
      else if alias_starts_at text abs_start && alias_ends_at text key_end
      then Some (key_end, take (key_end - abs_start) (drop abs_start text)) else None
  end.

Definition token_boundary_ok (text : bytes) (abs_start token_end : nat) (token : bytes) : bool :=
  if starts_with PLACEHOLDER_PREFIX token then
    match text !! token_end with
    | None => true
    | Some b => negb (is_env_key_char b) || starts_with PLACEHOLDER_PREFIX (drop token_end text)
    end
  else alias_starts_at text abs_start && alias_ends_at text token_end.

(** ** The resolver *)

Inductive UnresolvedPlaceholderReason : Type := Unavailable | EndpointMismatch | PlacementMismatch.

(** How a rewrite can fail: with the code's error, by a panic, or in a loop
    that is not over within its fuel, which [rewrite_terminates] excludes. *)
Inductive failure : Type :=
| Unresolved (location : bytes) (reason : UnresolvedPlaceholderReason)
| Panicked
| OutOfFuel.

Definition unresolved (location : bytes) : failure := Unresolved location Unavailable.

Inductive CredentialPlacement : Type :=
| AtHeader (name : bytes)
| AtQueryParam (name : bytes)
| AtPathTemplate (template : bytes).

Inductive RequestCredentialLocation : Type :=
| InHeader (name : bytes)
| InQueryParam (name : bytes)
| InPath (path : bytes)
| InBody
| InWebSocket.

Record SecretValue := secret_of { secret_value : bytes; expires_at_ms : Z }.
#[export] Instance SecretValue_eq_dec : EqDecision SecretValue.
Proof. solve_decision. Defined.

Record SecretResolver := resolver_of {
  by_placeholder : gmap bytes SecretValue;
  policy_redaction_only : bool;
  placements : gmap bytes CredentialPlacement;
  request_location : option RequestCredentialLocation;
  denied_env_keys : gset bytes;
  identity_bound_env_keys : gset bytes;
  revision_fallback_allowed_revisions : gmap bytes (gset Z);
}.

Definition plain_resolver (m : gmap bytes SecretValue) : SecretResolver :=
  resolver_of m false ∅ None ∅ ∅ ∅.

Definition with_placements (r : SecretResolver) (p : gmap bytes CredentialPlacement)
  : SecretResolver :=
  resolver_of (by_placeholder r) (policy_redaction_only r) p (request_location r)
    (denied_env_keys r) (identity_bound_env_keys r) (revision_fallback_allowed_revisions r).

Definition with_request_location (r : SecretResolver) (location : RequestCredentialLocation)
  : SecretResolver :=
  resolver_of (by_placeholder r) (policy_redaction_only r) (placements r) (Some location)
    (denied_env_keys r) (identity_bound_env_keys r) (revision_fallback_allowed_revisions r).

(** Whether a scoped view keeps an entry. *)
Definition not_denied (denied : gset bytes) (placeholder : bytes) : bool :=
  match placeholder_env_key placeholder with
  | Some key => bool_decide (key ∉ denied)
  | None => true
  end.
Definition scoped_to_env_keys (r : SecretResolver) (bound_keys allowed_bound_keys : gset bytes)
  (revisions : gmap bytes (gset Z)) : SecretResolver :=
  let denied := bound_keys ∖ allowed_bound_keys in
  resolver_of (filter (λ entry, not_denied denied entry.1 = true) (by_placeholder r))
    (policy_redaction_only r) (placements r) None denied bound_keys revisions.

(** [HashMap::extend] over a list of maps: later entries win. *)
Definition extend_all {A B} (f : A → gmap bytes B) (l : list A) : gmap bytes B :=
  foldl (λ m a, f a ∪ m) ∅ l.

Definition some_resolver (by_placeholder : gmap bytes SecretValue) : option SecretResolver :=
  if bool_decide (by_placeholder = ∅) then None else Some (plain_resolver by_placeholder).

Definition SecretResolver_merge (resolvers : list SecretResolver) : option SecretResolver :=
  let values := extend_all by_placeholder resolvers in
  if bool_decide (values = ∅) then None
  else Some (resolver_of values false (extend_all placements resolvers) None
               (⋃ (denied_env_keys <$> resolvers)) (⋃ (identity_bound_env_keys <$> resolvers))
               (extend_all revision_fallback_allowed_revisions resolvers)).

(** A [HashMap] of the environment is read in its iteration order, which the
    list gives. *)
Definition secret_for (expires : gmap bytes Z) (key value : bytes) : SecretValue :=
  secret_of value (default 0 (expires !! key)).

(** One round of the loop over the environment: the workload's environment and
    the values of the generation and of the current resolver. *)
Definition register (expires : gmap bytes Z) (revision : Z) (stable_handles : gmap bytes bytes)
  (acc : gmap bytes bytes * gmap bytes SecretValue * gmap bytes SecretValue)
  (entry : bytes * bytes)
  : gmap bytes bytes * gmap bytes SecretValue * gmap bytes SecretValue :=
  let '(child_env, generation_values, current_values) := acc in
  let '(key, value) := entry in
  if uses_reserved_revision_namespace key then acc
  else
    let secret := secret_for expires key value in
    let '(placeholder, generation_values) :=
      match stable_handles !! key with
      | Some handle => (placeholder_for_env_key_for_stable_handle key handle, generation_values)
      | None =>
          let placeholder := placeholder_for_env_key_for_revision key revision in
          (placeholder,
           if negb (revision =? 0) then <[placeholder := secret]> generation_values
           else generation_values)
      end in
    (<[key := placeholder]> child_env, generation_values,
     <[placeholder_for_env_key key := secret]> (<[placeholder := secret]> current_values)).

Definition from_provider_env_for_current_revision_with_stable_handles
  (provider_env : list (bytes * bytes)) (expires : gmap bytes Z) (revision : Z)
  (stable_handles : gmap bytes bytes)
  : gmap bytes bytes * option SecretResolver * option SecretResolver :=
  let '(child_env, generation_values, current_values) :=
    foldl (register expires revision stable_handles) (∅, ∅, ∅) provider_env in
  (child_env, some_resolver generation_values, some_resolver current_values).

Definition register_for_revision (expires : gmap bytes Z) (revision : Z)
  (include_current_aliases : bool) (acc : gmap bytes bytes * gmap bytes SecretValue)
  (entry : bytes * bytes) : gmap bytes bytes * gmap bytes SecretValue :=
  let '(child_env, values) := acc in
  let '(key, value) := entry in
  if uses_reserved_revision_namespace key then acc
  else
    let placeholder := placeholder_for_env_key_for_revision key revision in
    let secret := secret_for expires key value in
    let values := <[placeholder := secret]> values in
    (<[key := placeholder]> child_env,
     if include_current_aliases && negb (revision =? 0)
     then <[placeholder_for_env_key key := secret]> values else values).

Definition from_provider_env_for_revision_with_current_aliases
  (provider_env : list (bytes * bytes)) (expires : gmap bytes Z) (revision : Z)
  (include_current_aliases : bool) : gmap bytes bytes * option SecretResolver :=
  if is_empty provider_env then (∅, None)
  else
    let '(child_env, values) :=
      foldl (register_for_revision expires revision include_current_aliases) (∅, ∅)
        provider_env in
    (child_env, some_resolver values).

Definition from_provider_env_for_revision (provider_env : list (bytes * bytes))
  (expires : gmap bytes Z) (revision : Z) : gmap bytes bytes * option SecretResolver :=
  from_provider_env_for_revision_with_current_aliases provider_env expires revision false.
Definition from_provider_env (provider_env : list (bytes * bytes))
  : gmap bytes bytes * option SecretResolver :=
  from_provider_env_for_revision provider_env ∅ 0.
Definition from_provider_env_for_current_revision (provider_env : list (bytes * bytes))
  (expires : gmap bytes Z) (revision : Z)
  : gmap bytes bytes * option SecretResolver * option SecretResolver :=
  from_provider_env_for_current_revision_with_stable_handles provider_env expires revision ∅.

Definition longest_known_token_match (r : SecretResolver) (text : bytes) (abs_start : nat)
  : option (nat * bytes) :=
  let suffix := drop abs_start text in
  max_by_key (λ '(_, placeholder), length placeholder)
    (omap (λ '(placeholder, _),
       if negb (starts_with placeholder suffix) then None
       else
         let key_end := (abs_start + length placeholder)%nat in
         if token_boundary_ok text abs_start key_end placeholder
         then Some (key_end, placeholder) else None)
       (map_to_list (by_placeholder r))).

Definition credential_token_at (r : SecretResolver) (text : bytes) (abs_start : nat)
  : option (nat * bytes) :=
  or_else (longest_known_token_match r text abs_start)
    (or_else (canonical_token_at text abs_start) (alias_token_at text abs_start)).

(** [&text[from..to]]. *)
Definition slice (text : bytes) (from to : nat) : result bytes failure :=
  if Nat.leb from to && Nat.leb to (length text) then Ok (take (to - from) (drop from text))
  else Err Panicked.

(** ** Where a credential may go *)

Definition CREDENTIAL_SLOT : bytes := lit "{credential}".

(** The path with the slots of one key normalized, and how many there are;
    [None] where the code returns [false]. *)
Fixpoint normalize_slots (fuel : nat) (r : SecretResolver) (key actual : bytes)
  (pos : nat) (normalized : bytes) (slots : nat) : result (option (bytes * nat)) failure :=
  match fuel with
  | O => Err OutOfFuel
  | S fuel =>
      if Nat.ltb pos (length actual) then
        match next_marker actual pos with
        | None => Ok (Some (normalized ++ drop pos actual, slots))
        | Some start =>
            let? literal := slice actual pos start in
            match credential_token_at r actual start with
            | None => Ok None
            | Some (token_end, token) =>
                if bool_decide (placeholder_env_key token = Some key)
                then normalize_slots fuel r key actual token_end
                       (normalized ++ literal ++ CREDENTIAL_SLOT) (S slots)
                else normalize_slots fuel r key actual token_end
                       (normalized ++ literal ++ token) slots
            end
        end
      else Ok (Some (normalized, slots))
  end.

Definition placement_permits (r : SecretResolver) (placeholder : bytes) : result bool failure :=
  if policy_redaction_only r then Ok true
  else match placeholder_env_key placeholder with
  | None => Ok true
  | Some key =>
      if negb (is_some (request_location r))
         && negb (bool_decide (key ∈ identity_bound_env_keys r))
         && negb (is_some (placements r !! key))
      then Ok true
      else match request_location r with
      | Some InBody | Some InWebSocket => Ok true
      | location =>
          match placements r !! key with
          | None =>
              Ok (match location with
                  | Some (InHeader name) => eq_ignore_ascii_case name (lit "authorization")
                  | _ => false
                  end)
          | Some placement =>
              match placement, location with
              | AtHeader expected, Some (InHeader actual) =>
                  Ok (eq_ignore_ascii_case expected actual)
              | AtQueryParam expected, Some (InQueryParam actual) =>
                  Ok (bool_decide (expected = actual))
              | AtPathTemplate expected, Some (InPath actual) =>
                  let? o := normalize_slots (S (length actual)) r key actual 0 [] 0 in
                  Ok (match o with
                      | None => false
                      | Some (normalized, slots) =>
                          Nat.eqb slots 1 && bool_decide (normalized = expected)
                      end)
              | _, _ => Ok false
              end
          end
      end
  end.

Definition key_denied (r : SecretResolver) (placeholder : bytes) : bool :=
  match placeholder_env_key placeholder with
  | Some key => bool_decide (key ∈ denied_env_keys r)
  | None => false
  end.

(** The error a caller returns; its reason looks at the placement again. *)
Definition unresolved_for (r : SecretResolver) (location placeholder : bytes) : failure :=
  if key_denied r placeholder then Unresolved location EndpointMismatch
  else match placement_permits r placeholder with
       | Err e => e
       | Ok false => Unresolved location PlacementMismatch
       | Ok true => Unresolved location Unavailable
       end.

(** ** Resolution *)

Definition validate_resolved_secret (value : bytes) : option bytes :=
  if existsb (λ b, (b =? 13) || (b =? 10) || (b =? 0)) value then None else Some value.

Definition expires_at_ms_for_placeholder (r : SecretResolver) (placeholder : bytes) : option Z :=
  expires_at_ms <$> by_placeholder r !! placeholder.

(** An identity the token carries: a revision or a stable handle. *)
Definition carries_identity (value : bytes) : bool :=
  is_some (revisioned_placeholder_parts value) || is_some (stable_placeholder_parts value).

Definition revision_excluded (r : SecretResolver) (revision : Z) (key : bytes) : bool :=
  bool_decide (key ∈ identity_bound_env_keys r) &&
  match revision_fallback_allowed_revisions r !! key with
  | Some revisions => negb (bool_decide (revision ∈ revisions))
  | None => true
  end.

Section Resolution.
(** The clock, in milliseconds, read while one request is rewritten. *)
Context (now : Z).

Definition resolve_secret_value (s : SecretValue) : option bytes :=
  if (0 <? expires_at_ms s) && (expires_at_ms s <=? now) then None
  else validate_resolved_secret (secret_value s).

(** The entry a token that passed the checks names. *)
Definition lookup_secret (r : SecretResolver) (value : bytes) : option SecretValue :=
  match by_placeholder r !! value with
  | Some s => Some s
  | None =>
      match revisioned_placeholder_parts value with
      | None => None
      | Some (revision, key) =>
          if revision_excluded r revision key then None
          else by_placeholder r !! placeholder_for_env_key key
      end
  end.

(** The token resolution works on: an alias stands for its canonical form. *)
Definition canonical_token (value : bytes) : bytes :=
  match alias_env_key value with Some key => placeholder_for_env_key key | None => value end.

Definition resolve_placeholder (r : SecretResolver) (value : bytes)
  : result (option bytes) failure :=
  let value := canonical_token value in
  let? permitted := placement_permits r value in
  if negb permitted then Ok None
  else
    let bound := match placeholder_env_key value with
                 | Some key => bool_decide (key ∈ identity_bound_env_keys r)
                 | None => false
                 end in
    if bound && negb (carries_identity value) then Ok None
    else Ok (match lookup_secret r value with
             | Some s => resolve_secret_value s
             | None => None
             end).

Definition resolve_current_env_key_checked (r : SecretResolver) (key location : bytes)
  : result (option bytes) failure :=
  if bool_decide (key ∈ denied_env_keys r) then Err (Unresolved location EndpointMismatch)
  else Ok (match by_placeholder r !! placeholder_for_env_key key with
           | Some s => resolve_secret_value s
           | None => None
           end).

Definition resolve_placeholder_checked (r : SecretResolver) (value location : bytes)
  : result (option bytes) failure :=
  if key_denied r value then Err (Unresolved location EndpointMismatch)
  else
    let? permitted := placement_permits r value in
    if negb permitted then Err (unresolved_for r location value)
    else resolve_placeholder r value.

(** ** Text *)

(** The secret of a token, or the error for it. *)
Definition resolve_or_fail (r : SecretResolver) (location token : bytes) : result bytes failure :=
  let? o := resolve_placeholder r token in
  ok_or o (unresolved_for r location token).

Fixpoint rewrite_text_go (fuel : nat) (r : SecretResolver) (text location : bytes)
  (pos : nat) (rewritten : bytes) (replacements : nat) : result (bytes * nat) failure :=
  match fuel with
  | O => Err OutOfFuel
  | S fuel =>
      if Nat.ltb pos (length text) then
        match next_marker text pos with
        | None => Ok (rewritten ++ drop pos text, replacements)
        | Some abs_start =>
            let? literal := slice text pos abs_start in
            let token :=
              if starts_with PLACEHOLDER_PREFIX (drop abs_start text)
              then credential_token_at r text abs_start
              else alias_token_at text abs_start in
            match token with
            | None => Err (unresolved location)
            | Some (token_end, token) =>
                let? secret := resolve_or_fail r location token in
                rewrite_text_go fuel r text location token_end
                  (rewritten ++ literal ++ secret) (S replacements)
            end
        end
      else Ok (rewritten, replacements)
  end.

(** The text after the call, and the number of replacements. *)
Definition rewrite_text_placeholders_at_location (r : SecretResolver) (text location : bytes)
  : result (bytes * nat) failure :=
  if negb (contains_raw_reserved_marker text) then Ok (text, 0%nat)
  else
    let? out := rewrite_text_go (S (length text)) r text location 0 [] 0 in
    if contains_raw_reserved_marker out.1 then Err (unresolved location) else Ok out.

Definition rewrite_text_placeholders (r : SecretResolver) (text location : bytes)
  : result (bytes * nat) failure :=
  rewrite_text_placeholders_at_location (with_request_location r InBody) text location.
Definition rewrite_websocket_text_placeholders (r : SecretResolver) (text : bytes)
  : result (bytes * nat) failure :=
  rewrite_text_placeholders_at_location (with_request_location r InWebSocket) text
    (lit "websocket").

(** ** Header values *)

Context `{Base64}.

Definition basic_auth_token (value : bytes) : option bytes :=
  trim <$> or_else (strip_prefix (lit "Basic ") value) (strip_prefix (lit "basic ") value).
Definition decode_basic_auth_token (encoded : bytes) : option bytes :=
  match b64_decode encoded with Some decoded => from_utf8 decoded | None => None end.
Definition decode_basic_auth_value (value : bytes) : option bytes :=
  match basic_auth_token value with
  | Some encoded => decode_basic_auth_token encoded
  | None => None
  end.

Definition header_value_contains_reserved_credential_marker (value : bytes) : bool :=
  let trimmed := trim value in
  if contains_reserved_credential_marker trimmed then true
  else match decode_basic_auth_value trimmed with
       | None => false
       | Some decoded => contains_raw_reserved_marker decoded
       end.

Definition rewrite_basic_auth_token (r : SecretResolver) (encoded : bytes)
  : result (option bytes) failure :=
  match decode_basic_auth_token (trim encoded) with
  | None => Ok None
  | Some decoded =>
      if negb (contains_raw_reserved_marker decoded) then Ok None
      else
        let? out := rewrite_text_placeholders_at_location r decoded (lit "header") in
        if Nat.eqb out.2 0 then Ok None else Ok (Some (b64_encode out.1))
  end.

(** The last two forms: the value up to its first whitespace is a scheme, what
    follows a placeholder. *)
Definition rewrite_prefixed_value (r : SecretResolver) (trimmed : bytes)
  : result (option bytes) failure :=
  match find_whitespace trimmed with
  | None =>
      if contains_reserved_credential_marker trimmed
      then Err (unresolved_for r (lit "header") trimmed) else Ok None
  | Some split_at =>
      let prefix := take split_at trimmed in
      let candidate := trim (drop split_at trimmed) in
      let? o := resolve_placeholder r candidate in
      match o with
      | Some secret => Ok (Some (prefix ++ 32 :: secret))
      | None =>
          if contains_reserved_credential_marker candidate
          then Err (unresolved_for r (lit "header") candidate) else Ok None
      end
  end.

Definition rewrite_header_value (r : SecretResolver) (value : bytes)
  : result (option bytes) failure :=
  let trimmed := trim value in
  let? direct := resolve_placeholder r trimmed in
  match direct with
  | Some secret => Ok (Some secret)
  | None =>
      let? basic := match basic_auth_token trimmed with
                    | Some encoded => rewrite_basic_auth_token r encoded
                    | None => Ok None
                    end in
      match basic with
      | Some rewritten => Ok (Some (lit "Basic " ++ rewritten))
      | None => rewrite_prefixed_value r trimmed
      end
  end.

Definition rewrite_header_value_for_name (r : SecretResolver) (name value : bytes)
  : result (option bytes) failure :=
  rewrite_header_value (with_request_location r (InHeader name)) value.

Definition rewrite_header_line_checked (line : bytes) (r : SecretResolver)
  : result bytes failure :=
  match split_once 58 line with
  | None => Ok line
  | Some (name, value) =>
      let? o := rewrite_header_value_for_name r name (trim value) in
      Ok (match o with None => line | Some rewritten => name ++ lit ": " ++ rewritten end)
  end.

(** A panic goes through [unwrap_or_else]. *)
Definition rewrite_header_line (line : bytes) (r : SecretResolver) : result bytes failure :=
  match rewrite_header_line_checked line r with
  | Err (Unresolved _ _) => Ok line
  | outcome => outcome
  end.

(** ** Request targets *)

Definition REDACTED : bytes := lit "[CREDENTIAL]".

Definition validate_credential_for_path (value : bytes) : bool :=
  negb (contains_sub (lit "../") value || contains_sub (lit "..\") value
        || bool_decide (value = lit ".."))
  && negb (contains_byte 0 value || contains_byte 13 value || contains_byte 10 value)
  && negb (contains_byte 47 value || contains_byte 92 value)
  && negb (contains_byte 63 value || contains_byte 35 value).

Definition path_token_at (text : bytes) (abs_start : nat) : option (nat * bytes) :=
  or_else (canonical_token_at text abs_start) (alias_token_at text abs_start).

Fixpoint rewrite_segment_go (fuel : nat) (r : SecretResolver) (segment : bytes) (pos : nat)
  (resolved redacted : bytes) : result (bytes * bytes) failure :=
  match fuel with
  | O => Err OutOfFuel
  | S fuel =>
      if Nat.ltb pos (length segment) then
        match next_marker segment pos with
        | None => Ok (resolved ++ drop pos segment, redacted ++ drop pos segment)
        | Some abs_start =>
            let? literal := slice segment pos abs_start in
            match path_token_at segment abs_start with
            | None => Err (unresolved (lit "path"))
            | Some (token_end, token) =>
                let? secret := resolve_or_fail r (lit "path") token in
                if negb (validate_credential_for_path secret) then Err (unresolved (lit "path"))
                else rewrite_segment_go fuel r segment token_end
                       (resolved ++ literal ++ secret) (redacted ++ literal ++ REDACTED)
            end
        end
      else Ok (resolved, redacted)
  end.
Definition rewrite_path_segment (segment : bytes) (r : SecretResolver)
  : result (bytes * bytes) failure :=
  rewrite_segment_go (S (length segment)) r segment 0 [] [].

(** One segment of [rewrite_uri_path]'s loop: whether it was rewritten, its
    resolved and its redacted text. *)
Definition rewrite_one_segment (r : SecretResolver) (segment : bytes)
  : result (bool * bytes * bytes) failure :=
  let decoded := percent_decode segment in
  if negb (contains_raw_reserved_marker decoded) then Ok (false, segment, segment)
  else
    let? out := rewrite_path_segment decoded r in
    Ok (true, percent_encode_path_segment out.1, out.2).

(** What a loop over the parts of a target returns: [None] when no part was
    rewritten. *)
Definition joined (c : Z) (parts : list (bool * bytes * bytes)) : option (bytes * bytes) :=
  if negb (existsb (λ '(rewritten, _, _), rewritten) parts) then None
  else Some (join_with c (map (λ '(_, resolved, _), resolved) parts),
             join_with c (map (λ '(_, _, redacted), redacted) parts)).

Definition rewrite_uri_path (path : bytes) (r : SecretResolver)
  : result (option (bytes * bytes)) failure :=
  let scoped := with_request_location r (InPath (percent_decode path)) in
  let? parts := try_collect (rewrite_one_segment scoped) (split_on 47 path) in
  Ok (joined 47 parts).

Definition rewrite_one_param (r : SecretResolver) (param : bytes)
  : result (bool * bytes * bytes) failure :=
  match split_once 61 param with
  | None => Ok (false, param, param)
  | Some (key, value) =>
      let decoded_value := percent_decode value in
      if contains_raw_reserved_marker decoded_value then
        let decoded_key := percent_decode (replace_byte 43 32 key) in
        let scoped := with_request_location r (InQueryParam decoded_key) in
        let? out := rewrite_text_placeholders_at_location scoped decoded_value
                      (lit "query_param") in
        if Nat.eqb out.2 0 || contains_raw_reserved_marker out.1
        then Err (unresolved (lit "query_param"))
        else Ok (true, key ++ 61 :: percent_encode_query out.1, key ++ 61 :: REDACTED)
      else Ok (false, param, param)
  end.

Definition rewrite_uri_query_params (query : bytes) (r : SecretResolver)
  : result (option (bytes * bytes)) failure :=
  if negb (contains_reserved_credential_marker query) then Ok None
  else
    let? parts := try_collect (rewrite_one_param r) (split_on 38 query) in
    Ok (joined 38 parts).

Record RewriteTargetResult := target_result { resolved : bytes; redacted : bytes }.

Definition split_target (uri : bytes) : bytes * option bytes :=
  match split_once 63 uri with Some (p, q) => (p, Some q) | None => (uri, None) end.

(** The path and query of a target rewritten and put together again, shared by
    [rewrite_request_line] and [rewrite_target_for_eval]. *)
Definition rewrite_uri (uri : bytes) (r : SecretResolver) : result RewriteTargetResult failure :=
  let '(path, query) := split_target uri in
  let? p := rewrite_uri_path path r in
  let '(resolved_path, redacted_path) := default (path, path) p in
  match query with
  | None => Ok (target_result resolved_path redacted_path)
  | Some q =>
      let? o := rewrite_uri_query_params q r in
      let '(resolved_query, redacted_query) := default (q, q) o in
      Ok (target_result (resolved_path ++ 63 :: resolved_query)
            (redacted_path ++ 63 :: redacted_query))
  end.

Definition rewrite_target_for_eval (target : bytes) (r : SecretResolver)
  : result RewriteTargetResult failure :=
  if negb (contains_reserved_credential_marker target) then Ok (target_result target target)
  else rewrite_uri target r.

(** The keys a decoded target refers to. *)
Fixpoint referenced_keys (fuel : nat) (decoded : bytes) (pos : nat)
  (provider_env : gmap bytes bytes) : result (gmap bytes bytes) failure :=
  match fuel with
  | O => Err OutOfFuel
  | S fuel =>
      if Nat.ltb pos (length decoded) then
        match next_marker decoded pos with
        | None => Ok provider_env
        | Some start =>
            match path_token_at decoded start with
            | None => Err (unresolved (lit "request_target"))
            | Some (token_end, token) =>
                match placeholder_env_key token with
                | None => Err (unresolved (lit "request_target"))
                | Some key => referenced_keys fuel decoded token_end (<[key := REDACTED]> provider_env)
                end
            end
        end
      else Ok provider_env
  end.

Definition for_policy (r : SecretResolver) : SecretResolver :=
  resolver_of (by_placeholder r) true (placements r) (request_location r)
    (denied_env_keys r) (identity_bound_env_keys r) (revision_fallback_allowed_revisions r).

Definition redact_target_for_policy (target : bytes) : result bytes failure :=
  if negb (contains_reserved_credential_marker target) then Ok target
  else
    let decoded := percent_decode target in
    let? provider_env := referenced_keys (S (length decoded)) decoded 0 ∅ in
    match (from_provider_env (map_to_list provider_env)).2 with
    | None => Err (unresolved (lit "request_target"))
    | Some r =>
        let? out := rewrite_target_for_eval target (for_policy r) in
        Ok (redacted out)
    end.

(** ** Header blocks *)

Record RewriteLineResult := line_result { line : bytes; line_redacted_target : option bytes }.

Definition rewrite_request_line (line : bytes) (r : SecretResolver)
  : result RewriteLineResult failure :=
  match split_once 32 line with
  | None => Ok (line_result line None)
  | Some (method, rest) =>
      match split_once 32 rest with
      | None => Ok (line_result line None)
      | Some (uri, version) =>
          if negb (contains_reserved_credential_marker uri) then Ok (line_result line None)
          else
            let? out := rewrite_uri uri r in
            Ok (line_result (method ++ 32 :: resolved out ++ 32 :: version) (Some (redacted out)))
      end
  end.

Record RewriteResult := rewrite_result { rewritten : bytes; redacted_target : option bytes }.

(** The lines before the first empty one. *)
Fixpoint until_empty (lines : list bytes) : list bytes :=
  match lines with
  | [] => []
  | line :: lines => if is_empty line then [] else line :: until_empty lines
  end.

Definition rewrite_http_header_block (raw : bytes) (r : option SecretResolver)
  : result RewriteResult failure :=
  match r with
  | None =>
      let scan_end := match find_sub (CRLF ++ CRLF) raw with
                      | Some p => Nat.min (length raw) (p + 4 + 256)
                      | None => length raw
                      end in
      if contains_reserved_credential_marker (from_utf8_lossy (take scan_end raw))
      then Err (unresolved (lit "header")) else Ok (rewrite_result raw None)
  | Some r =>
      match find_sub (CRLF ++ CRLF) raw with
      | None => Ok (rewrite_result raw None)
      | Some p =>
          let header_end := (p + 4)%nat in
          match split_str CRLF (from_utf8_lossy (take header_end raw)) with
          | [] => Ok (rewrite_result raw None)
          | request_line :: lines =>
              let? rl_result := rewrite_request_line request_line r in
              let? headers := try_collect (λ line, rewrite_header_line_checked line r)
                                (until_empty lines) in
              let output := line rl_result ++ CRLF ++ concat (map (λ h, h ++ CRLF) headers)
                              ++ CRLF ++ drop header_end raw in
              if contains_reserved_credential_marker
                   (from_utf8_lossy (take (Nat.min (length output) (header_end + 256)) output))
              then Err (unresolved (lit "header"))
              else Ok (rewrite_result output (line_redacted_target rl_result))
          end
      end
  end.
End Resolution.
End Secrets.
