(* ===== verification/SecretsFacts.v ===== *)
(** * SecretsFacts: resolution of placeholders and rewriting of text

    Where tokens lie in a text, that every rewriting loop ends, what a
    resolved token stands for, and that rewriting a text is substitution. *)

From stdpp Require Import gmap.
From S2P Require Import Prelude IpParse Order Text Base64 Secrets.
From Stdlib Require Import ZifyBool.
Import Secrets.

(** ** Tokens *)

Lemma or_else_Some {A} (a b : option A) x :
  or_else a b = Some x ↔ a = Some x ∨ (a = None ∧ b = Some x).
Proof. destruct a; cbn; [|by firstorder]. split; [by left|]. by intros [?|[? _]]. Qed.

Lemma alias_start_le text m : (alias_start_for_marker text m ≤ m)%nat.
Proof. induction m as [|m IH]; cbn; [done|]. repeat case_match; lia. Qed.

(** From an alias start to the marker there are only alias chars. *)
Lemma alias_start_chars text m i b :
  (alias_start_for_marker text m ≤ i < m)%nat → text !! i = Some b → is_alias_token_char b = true.
Proof.
  induction m as [|m IH]; cbn [alias_start_for_marker]; intros Hi Hb; [lia|].
  destruct (text !! m) as [c|] eqn:Hc; [|lia].
  destruct (is_alias_token_char c) eqn:Ec; [|lia].
  destruct (decide (i = m)) as [->|]; [by simplify_eq|]. apply IH; [lia|done].
Qed.

(** A token is the text it was found at, and is not empty. *)
Definition is_token_at (text : bytes) (start : nat) (t : nat * bytes) : Prop :=
  (start < t.1 ≤ length text)%nat ∧ t.2 = take (t.1 - start) (drop start text).

Lemma marker_length p text start k :
  find_sub p (drop start text) = Some k → (start + k + length p ≤ length text ∨ p = [])%nat.
Proof.
  intros H. destruct (find_sub_Some _ _ _ H) as (b & Hd & Hk & _).
  apply (f_equal length) in Hd. rewrite !length_app, Hk, length_drop in Hd.
  destruct p; [by right|]. left. cbn in *. lia.
Qed.

Lemma starts_with_length p text start :
  starts_with p (drop start text) = true → (start + length p ≤ length text ∨ p = [])%nat.
Proof.
  rewrite starts_with_spec. intros [r Hd]. apply (f_equal length) in Hd.
  rewrite length_app, length_drop in Hd. destruct p; [by right|]. left. cbn in *. lia.
Qed.

Lemma run_len_drop f (text : bytes) k : (k ≤ length text)%nat →
  (k + run_len f (drop k text) ≤ length text)%nat.
Proof. intros. pose proof (run_len_le f (drop k text)). rewrite length_drop in *. lia. Qed.

Lemma canonical_token_spec text start t :
  canonical_token_at text start = Some t →
  is_token_at text start t ∧ starts_with PLACEHOLDER_PREFIX (drop start text) = true.
Proof.
  unfold canonical_token_at. destruct (starts_with _ _) eqn:Hp; cbn [negb]; [|done].
  destruct (starts_with_length _ _ _ Hp) as [Hl|]; [|done].
  destruct (Nat.ltb_spec (start + length PLACEHOLDER_PREFIX)
    (start + length PLACEHOLDER_PREFIX
     + run_len is_env_key_char (drop (start + length PLACEHOLDER_PREFIX) text))); [|done].
  intros Ht%(inj Some). subst t. split; [|done]. split; [|done]. cbn [fst].
  pose proof (run_len_drop is_env_key_char text _ Hl). lia.
Qed.

Lemma alias_token_spec text start t :
  alias_token_at text start = Some t →
  is_token_at text start t ∧ alias_ends_at text t.1 = true
  ∧ ∃ m, find_sub PROVIDER_ALIAS_MARKER (drop start text) = Some m ∧ (0 < m)%nat
         ∧ (start + m + length PROVIDER_ALIAS_MARKER < t.1)%nat.
Proof.
  unfold alias_token_at. destruct (find_sub _ _) as [[|m]|] eqn:Hm; [done| |done].
  destruct (marker_length _ _ _ _ Hm) as [Hl|]; [|done].
  set (k := (start + S m + length PROVIDER_ALIAS_MARKER)%nat) in *.
  destruct (Nat.eqb_spec (k + run_len is_env_key_char (drop k text)) k); [done|].
  destruct (alias_starts_at text start && alias_ends_at text _) eqn:E; [|done].
  apply andb_true_iff in E as [_ E]. intros Ht%(inj Some). subst t.
  pose proof (run_len_drop is_env_key_char text k Hl). cbn [fst snd].
  split_and!; [split; cbn [fst snd]; [lia|done]|done|]. exists (S m). split_and!; [done|lia|lia].
Qed.

Lemma longest_known_spec r text start t :
  by_placeholder r !! [] = None →
  longest_known_token_match r text start = Some t →
  is_token_at text start t ∧ is_Some (by_placeholder r !! t.2).
Proof.
  unfold longest_known_token_match. intros Hwf Ht.
  match type of Ht with max_by_key ?k ?l = _ => pose proof (max_by_key_spec k l) as Hs end.
  rewrite Ht in Hs. destruct Hs as [Hin _]. apply list_elem_of_omap in Hin as ([ph sv] & Hin & Hx).
  apply elem_of_map_to_list in Hin. destruct (starts_with ph _) eqn:Hp; cbn [negb] in Hx; [|done].
  destruct (token_boundary_ok _ _ _ _); [|done]. injection Hx as <-.
  assert (ph ≠ []) as Hne by (intros ->; by simplify_map_eq).
  destruct (starts_with_length _ _ _ Hp) as [Hl|]; [|done].
  split; [|by exists sv]. split; cbn [fst snd].
  - destruct ph; [done|]. cbn in *. lia.
  - apply starts_with_spec in Hp as [b ->].
    replace (start + length ph - start)%nat with (length ph) by lia. by rewrite take_app_length.
Qed.

Lemma credential_token_spec r text start t :
  by_placeholder r !! [] = None → credential_token_at r text start = Some t →
  is_token_at text start t.
Proof.
  intros Hwf. unfold credential_token_at. rewrite !or_else_Some.
  intros [H|[_ [H|[_ H]]]].
  - by apply longest_known_spec in H as [? _].
  - by apply canonical_token_spec in H as [? _].
  - by apply alias_token_spec in H as [? _].
Qed.

Lemma path_token_spec text start t :
  path_token_at text start = Some t → is_token_at text start t.
Proof.
  unfold path_token_at. rewrite or_else_Some. intros [H|[_ H]].
  - by apply canonical_token_spec in H as [? _].
  - by apply alias_token_spec in H as [? _].
Qed.

(** ** Where the next token is looked for *)

Lemma find_sub_before p text pos k j :
  find_sub p (drop pos text) = Some k → (pos ≤ j < pos + k)%nat →
  starts_with p (drop j text) = false.
Proof.
  intros H Hj. destruct (find_sub_Some _ _ _ H) as (_ & _ & _ & Hfirst).
  rewrite <- (Hfirst (j - pos)%nat) by lia. rewrite drop_drop. do 2 f_equal. lia.
Qed.
Lemma find_sub_None_before p text pos j :
  find_sub p (drop pos text) = None → (pos ≤ j)%nat → starts_with p (drop j text) = false.
Proof.
  rewrite find_sub_None. intros H Hj. destruct (starts_with p (drop j text)) eqn:E; [|done].
  apply starts_with_spec in E as [b Hb]. rewrite <- H. symmetry. apply contains_sub_spec.
  exists (take (j - pos) (drop pos text)), b. rewrite <- Hb.
  replace (drop j text) with (drop (j - pos) (drop pos text))
    by (rewrite drop_drop; f_equal; lia). by rewrite take_drop.
Qed.

(** No marker starts between the position and the next token. *)
Lemma next_marker_spec text pos k :
  next_marker text pos = Some k →
  (k ≤ length text)%nat ∧
  ∀ j, (pos ≤ j < k)%nat →
    starts_with PLACEHOLDER_PREFIX (drop j text) = false
    ∧ starts_with PROVIDER_ALIAS_MARKER (drop j text) = false.
Proof.
  unfold next_marker.
  destruct (find_sub PLACEHOLDER_PREFIX _) as [a|] eqn:Ha,
    (find_sub PROVIDER_ALIAS_MARKER _) as [m|] eqn:Hm; cbn [fmap option_fmap option_map];
    intros [= <-]; try (pose proof (alias_start_le text (pos + m)) as Hle);
    try (destruct (marker_length _ _ _ _ Ha); [|done]);
    try (destruct (marker_length _ _ _ _ Hm); [|done]);
    (split; [lia|]; intros j Hj; split;
      [first [by eapply find_sub_None_before; [exact Ha|lia] | by eapply find_sub_before; [exact Ha|lia]]
      |first [by eapply find_sub_None_before; [exact Hm|lia] | by eapply find_sub_before; [exact Hm|lia]]]).
Qed.

Lemma next_marker_None text pos :
  next_marker text pos = None → contains_raw_reserved_marker (drop pos text) = false.
Proof.
  unfold next_marker, contains_raw_reserved_marker.
  destruct (find_sub PLACEHOLDER_PREFIX _) eqn:Ha, (find_sub PROVIDER_ALIAS_MARKER _) eqn:Hm;
    cbn [fmap option_fmap option_map]; try done.
  apply find_sub_None in Ha as ->. by apply find_sub_None in Hm as ->.
Qed.

Lemma slice_Ok text from to s :
  slice text from to = Ok s →
  (from ≤ to ≤ length text)%nat ∧ s = take (to - from) (drop from text).
Proof.
  unfold slice. destruct (Nat.leb_spec from to), (Nat.leb_spec to (length text)); cbn [andb];
    naive_solver.
Qed.

(** The literal text before a token holds no marker. *)
Lemma literal_no_marker text pos k s :
  next_marker text pos = Some k → slice text pos k = Ok s →
  contains_raw_reserved_marker s = false.
Proof.
  intros [Hk Hno]%next_marker_spec [Hs ->]%slice_Ok. unfold contains_raw_reserved_marker.
  apply orb_false_iff. split; apply contains_sub_take; try done;
    intros j Hj; rewrite drop_drop; by apply Hno; lia.
Qed.

Lemma starts_with_lookup p text k j :
  starts_with p (drop k text) = true → (j < length p)%nat → text !! (k + j)%nat = p !! j.
Proof.
  rewrite starts_with_spec. intros [b Hb] Hj. rewrite <- lookup_drop, Hb.
  by apply lookup_app_l.
Qed.

(** From an alias start to the end of its marker there are only alias chars. *)
Lemma alias_run text pos m i b :
  find_sub PROVIDER_ALIAS_MARKER (drop pos text) = Some m →
  (alias_start_for_marker text (pos + m) ≤ i < pos + m + length PROVIDER_ALIAS_MARKER)%nat →
  text !! i = Some b → is_alias_token_char b = true.
Proof.
  intros Hm Hi Hb. destruct (decide (i < pos + m)%nat); [by apply (alias_start_chars text (pos + m) i b); [lia|]|].
  destruct (find_sub_Some _ _ _ Hm) as (rest & Hd & Hk & _).
  assert (starts_with PROVIDER_ALIAS_MARKER (drop (pos + m) text) = true) as Hp.
  { rewrite <- drop_drop. rewrite <- Hk at 1. eapply starts_with_drop, Hd. }
  assert (forallb is_alias_token_char PROVIDER_ALIAS_MARKER = true) as Hall by by vm_compute.
  rewrite forallb_elem in Hall. apply Hall, list_elem_of_lookup. exists (i - (pos + m))%nat.
  rewrite <- (starts_with_lookup _ _ _ _ Hp) by lia. rewrite <- Hb. f_equal. lia.
Qed.

(** A token that is found ends after the position, even where the search for
    an alias walked back before it. *)
Lemma next_token_progress text pos start t :
  next_marker text pos = Some start → path_token_at text start = Some t →
  (pos < t.1 ≤ length text)%nat.
Proof.
  intros Hn Ht. destruct (path_token_spec _ _ _ Ht) as [Hend _].
  destruct (decide (pos ≤ start)%nat) as [|Hback]; [lia|]. split; [|lia].
  unfold next_marker in Hn.
  destruct (find_sub PROVIDER_ALIAS_MARKER (drop pos text)) as [m|] eqn:Hm;
    [|destruct (find_sub PLACEHOLDER_PREFIX _); naive_solver lia].
  assert (start = alias_start_for_marker text (pos + m)) as Hstart.
  { destruct (find_sub PLACEHOLDER_PREFIX _); injection Hn as <-; cbn in *; lia. }
  destruct (marker_length _ _ _ _ Hm) as [Hl|]; [|done].
  pose proof (alias_start_le text (pos + m)).
  assert (∀ i b, (start ≤ i < pos + m + length PROVIDER_ALIAS_MARKER)%nat → text !! i = Some b →
    is_alias_token_char b = true) as Hrun by (intros i b ?; eapply alias_run; [done|lia]).
  assert (length PROVIDER_ALIAS_MARKER = 22%nat) as Hlen by done.
  unfold path_token_at in Ht. apply or_else_Some in Ht as [Ht|[_ Ht]].
  - apply canonical_token_spec in Ht as [_ Hp].
    pose proof (starts_with_lookup _ _ _ 9 Hp ltac:(cbn; lia)) as H9.
    cbn in H9. apply Hrun in H9; [done|lia].
  - apply alias_token_spec in Ht as (_ & Hafter & _). unfold alias_ends_at in Hafter.
    destruct (decide (pos < t.1)%nat) as [|Hlt]; [done|].
    destruct (lookup_lt_is_Some_2 text t.1 ltac:(lia)) as [b Hb]. rewrite Hb in Hafter.
    rewrite (Hrun t.1 b) in Hafter; [done|lia|done].
Qed.

(** ** Every loop ends *)

(** No placeholder is empty; the constructors register only placeholders with
    the prefix. *)
Definition resolver_wf (r : SecretResolver) : Prop := by_placeholder r !! [] = None.

(** The outcome is not that of a loop cut short. *)
Definition ends {A} (x : result A failure) : Prop := x ≠ Err OutOfFuel.

Lemma ends_let {A B} (x : result A failure) (k : A → result B failure) :
  ends x → (∀ a, x = Ok a → ends (k a)) → ends (let? a := x in k a).
Proof. unfold ends. destruct x as [a|e]; [auto|]. congruence. Qed.
Lemma ends_slice text from to : ends (slice text from to).
Proof. unfold slice. by case_match. Qed.
Lemma ends_try_collect {A B} (f : A → result B failure) l :
  (∀ a, ends (f a)) → ends (try_collect f l).
Proof.
  intros Hf. induction l as [|a l IH]; cbn [try_collect]; [done|].
  apply ends_let; [done|]. intros b _. by apply ends_let.
Qed.

Lemma normalize_slots_ends fuel r key actual pos acc n :
  resolver_wf r → (length actual - pos < fuel)%nat →
  ends (normalize_slots fuel r key actual pos acc n).
Proof.
  intros Hwf. revert pos acc n. induction fuel as [|fuel IH]; intros pos acc n Hf;
    cbn [normalize_slots]; [lia|].
  destruct (Nat.ltb_spec pos (length actual)); [|done].
  destruct (next_marker actual pos) as [start|]; [|done].
  apply ends_let; [apply ends_slice|]. intros s [Hs _]%slice_Ok.
  destruct (credential_token_at r actual start) as [[e tok]|] eqn:Ht; [|done].
  apply credential_token_spec in Ht as [[? ?] _]; [|done]. cbn [fst] in *.
  case_bool_decide; apply IH; lia.
Qed.

Section ends.
Context (now : Z) `{Base64} (r : SecretResolver) (Hwf : resolver_wf r).

Lemma placement_permits_ends ph : ends (placement_permits r ph).
Proof.
  unfold placement_permits.
  repeat (case_match; try done). intros [= ->].
  match goal with H : normalize_slots _ _ _ _ _ _ _ = _ |- _ => revert H end.
  apply normalize_slots_ends; [done|lia].
Qed.
Lemma unresolved_for_ends {A} l ph : ends (A := A) (Err (unresolved_for r l ph)).
Proof.
  unfold unresolved_for, ends in *. pose proof (placement_permits_ends ph) as He.
  destruct (key_denied r ph); [done|]. destruct (placement_permits r ph) as [[]|e]; try done.
  intros [= ->]. by apply He.
Qed.
Lemma resolve_placeholder_ends v : ends (resolve_placeholder now r v).
Proof.
  unfold resolve_placeholder. apply ends_let; [apply placement_permits_ends|].
  intros b _. by repeat case_match.
Qed.
Lemma resolve_or_fail_ends l v : ends (resolve_or_fail now r l v).
Proof.
  unfold resolve_or_fail. apply ends_let; [apply resolve_placeholder_ends|].
  intros [s|] _; [done|]. apply unresolved_for_ends.
Qed.

Lemma rewrite_text_go_ends fuel text l pos acc n :
  (length text - pos < fuel)%nat → ends (rewrite_text_go now fuel r text l pos acc n).
Proof.
  revert pos acc n. induction fuel as [|fuel IH]; intros pos acc n Hf; cbn [rewrite_text_go]; [lia|].
  destruct (Nat.ltb_spec pos (length text)); [|done].
  destruct (next_marker text pos) as [start|]; [|done].
  apply ends_let; [apply ends_slice|]. intros s [Hs _]%slice_Ok.
  match goal with |- ends (match ?t with _ => _ end) => destruct t as [[e tok]|] eqn:Ht end; [|done].
  assert (is_token_at text start (e, tok)) as [[? ?] _].
  { case_match; [by eapply credential_token_spec|by apply alias_token_spec in Ht as [? _]]. }
  apply ends_let; [apply resolve_or_fail_ends|]. intros sec _. apply IH. cbn [fst] in *. lia.
Qed.
Lemma rewrite_text_ends text l : ends (rewrite_text_placeholders_at_location now r text l).
Proof.
  unfold rewrite_text_placeholders_at_location. case_match; [done|].
  apply ends_let; [apply rewrite_text_go_ends; lia|]. intros out _. by case_match.
Qed.

Lemma rewrite_segment_go_ends fuel text pos a b :
  (length text - pos < fuel)%nat → ends (rewrite_segment_go now fuel r text pos a b).
Proof.
  revert pos a b. induction fuel as [|fuel IH]; intros pos a b Hf; cbn [rewrite_segment_go]; [lia|].
  destruct (Nat.ltb_spec pos (length text)); [|done].
  destruct (next_marker text pos) as [start|]; [|done].
  apply ends_let; [apply ends_slice|]. intros s [Hs _]%slice_Ok.
  destruct (path_token_at text start) as [[e tok]|] eqn:Ht; [|done].
  apply path_token_spec in Ht as [[? ?] _]. cbn [fst] in *.
  apply ends_let; [apply resolve_or_fail_ends|]. intros sec _. case_match; [done|]. apply IH. lia.
Qed.

Lemma rewrite_one_segment_ends seg : ends (rewrite_one_segment now r seg).
Proof.
  unfold rewrite_one_segment. case_match; [done|].
  apply ends_let; [apply rewrite_segment_go_ends; lia|done].
Qed.
Lemma rewrite_header_value_ends v : ends (rewrite_header_value now r v).
Proof.
  unfold rewrite_header_value. apply ends_let; [apply resolve_placeholder_ends|]. intros [?|] _; [done|].
  apply ends_let.
  - case_match; [|done]. unfold rewrite_basic_auth_token. case_match; [|done]. case_match; [done|].
    apply ends_let; [apply rewrite_text_ends|]. intros ? _. by case_match.
  - intros [?|] _; [done|]. unfold rewrite_prefixed_value.
    case_match; [|case_match; [apply unresolved_for_ends|done]].
    apply ends_let; [apply resolve_placeholder_ends|].
    intros [?|] _; [done|]. case_match; [apply unresolved_for_ends|done].
Qed.
End ends.

(** Restricting a resolver to a request location keeps its entries. *)
Lemma located_entries r l : by_placeholder (with_request_location r l) = by_placeholder r.
Proof. done. Qed.
Lemma located_wf r l : resolver_wf r → resolver_wf (with_request_location r l).
Proof. done. Qed.

Lemma rewrite_uri_ends now r uri : resolver_wf r → ends (rewrite_uri now uri r).
Proof.
  intros Hwf. unfold rewrite_uri.
  destruct (split_target uri) as [path query].
  apply ends_let.
  { unfold rewrite_uri_path. apply ends_let; [|done]. apply ends_try_collect. intros seg.
    by apply rewrite_one_segment_ends. }
  intros p _. destruct (default _ p) as [a b]. destruct query as [q|]; [|done].
  apply ends_let; [|intros o _; by destruct (default _ o)].
  unfold rewrite_uri_query_params. case_match; [done|]. apply ends_let; [|done].
  apply ends_try_collect. intros param. unfold rewrite_one_param.
  destruct (split_once 61 param) as [[key value]|]; [|done]. case_match; [|done].
  apply ends_let; [by apply rewrite_text_ends|]. intros out _. by case_match.
Qed.

Lemma rewrite_header_line_ends now `{Base64} r l :
  resolver_wf r → ends (rewrite_header_line_checked now l r).
Proof.
  intros Hwf. unfold rewrite_header_line_checked.
  destruct (split_once 58 l) as [[name value]|]; [|done].
  apply ends_let; [by apply rewrite_header_value_ends|done].
Qed.

Lemma referenced_keys_ends fuel text pos env :
  (length text - pos < fuel)%nat → ends (referenced_keys fuel text pos env).
Proof.
  revert pos env. induction fuel as [|fuel IH]; intros pos env Hf; cbn [referenced_keys]; [lia|].
  destruct (Nat.ltb_spec pos (length text)); [|done].
  destruct (next_marker text pos) as [start|] eqn:Hn; [|done].
  destruct (path_token_at text start) as [[e tok]|] eqn:Ht; [|done].
  pose proof (next_token_progress _ _ _ _ Hn Ht) as Hp. cbn [fst] in Hp.
  case_match; [|done]. apply IH. lia.
Qed.

(** ** What a resolved token stands for *)

(** A value the wire may carry: no CR, LF or NUL. *)
Definition clean (s : bytes) : Prop := ∀ b, b ∈ s → b ≠ 13 ∧ b ≠ 10 ∧ b ≠ 0.

Definition unexpired (now : Z) (sv : SecretValue) : Prop :=
  expires_at_ms sv ≤ 0 ∨ now < expires_at_ms sv.

Lemma resolve_secret_value_Some now sv s :
  resolve_secret_value now sv = Some s ↔ s = secret_value sv ∧ clean s ∧ unexpired now sv.
Proof.
  unfold resolve_secret_value, validate_resolved_secret, unexpired, clean.
  destruct ((0 <? expires_at_ms sv) && (expires_at_ms sv <=? now)) eqn:He.
  - split; [done|]. intros (_ & _ & ?). lia.
  - destruct (existsb _ (secret_value sv)) eqn:Hb.
    + split; [done|]. intros (-> & Hc & _). apply existsb_elem in Hb as (b & Hin & Hb).
      specialize (Hc b Hin). lia.
    + split; [|by intros [-> _]]. intros [= <-]. split_and!; [done| |lia].
      intros b Hin. destruct ((b =? 13) || (b =? 10) || (b =? 0)) eqn:E; [|lia].
      assert (existsb (λ b, (b =? 13) || (b =? 10) || (b =? 0)) (secret_value sv) = true)
        by (apply existsb_elem; eauto). congruence.
Qed.

(** The entry a token names: its own, or its key's current one when the token
    carries a revision that may fall back. *)
Definition names_entry (r : SecretResolver) (token ph : bytes) : Prop :=
  ph = token ∨
  ∃ revision key, revisioned_placeholder_parts token = Some (revision, key)
    ∧ revision_excluded r revision key = false ∧ ph = placeholder_for_env_key key.

Lemma lookup_secret_Some r token sv :
  lookup_secret r token = Some sv → ∃ ph, by_placeholder r !! ph = Some sv ∧ names_entry r token ph.
Proof.
  unfold lookup_secret. destruct (by_placeholder r !! token) as [s|] eqn:Hs.
  - intros [= <-]. exists token. split; [done|by left].
  - destruct (revisioned_placeholder_parts token) as [[rev key]|] eqn:Hp; [|done].
    destruct (revision_excluded r rev key) eqn:He; [done|]. intros Hl.
    exists (placeholder_for_env_key key). split; [done|]. right. by exists rev, key.
Qed.

(** What releasing a secret takes. *)
Definition released (now : Z) (r : SecretResolver) (token s : bytes) : Prop :=
  ∃ ph sv, by_placeholder r !! ph = Some sv ∧ names_entry r (canonical_token token) ph
    ∧ s = secret_value sv ∧ clean s ∧ unexpired now sv
    ∧ placement_permits r (canonical_token token) = Ok true
    ∧ ∀ key, placeholder_env_key (canonical_token token) = Some key →
        key ∈ identity_bound_env_keys r → carries_identity (canonical_token token) = true.

Lemma resolve_placeholder_released now r token s :
  resolve_placeholder now r token = Ok (Some s) → released now r token s.
Proof.
  unfold resolve_placeholder, released. set (t := canonical_token token).
  rewrite let_Ok. intros (permitted & Hp & Hk). destruct permitted; cbn [negb] in Hk; [|done].
  match type of Hk with (if ?b then _ else _) = _ => destruct b eqn:Hb end; [done|].
  injection Hk as Hk. destruct (lookup_secret r t) as [sv|] eqn:Hl; [|done].
  apply lookup_secret_Some in Hl as (ph & Hph & Hn).
  apply resolve_secret_value_Some in Hk as (Hs & Hc & Hu).
  exists ph, sv. split_and!; try done. intros key Hkey Hbound. rewrite Hkey in Hb.
  rewrite bool_decide_eq_true_2 in Hb by done. by destruct (carries_identity t).
Qed.

(** A view scoped to some keys holds the entries of no other bound key. *)
Lemma scoped_entries r bound allowed revs ph sv :
  by_placeholder (scoped_to_env_keys r bound allowed revs) !! ph = Some sv ↔
  by_placeholder r !! ph = Some sv
  ∧ ∀ key, placeholder_env_key ph = Some key → key ∈ bound → key ∈ allowed.
Proof.
  cbn [scoped_to_env_keys by_placeholder]. rewrite map_lookup_filter_Some. cbn [fst].
  apply and_iff_compat_l. unfold not_denied. destruct (placeholder_env_key ph) as [key|].
  - rewrite bool_decide_eq_true, not_elem_of_difference. split.
    + intros Hor key' [= <-] Hb. by destruct Hor.
    + intros Hk. destruct (decide (key ∈ bound)) as [Hb|]; [right|by left]. by apply Hk.
  - split; [|done]. intros _ key Hk. done.
Qed.

(** ** Rewriting a text is substitution *)

(** [Substituted f text out n]: [out] is [text] with [n] tokens replaced by what
    [f] gives for them, the text around them kept and free of markers. *)
Inductive Substituted (f : bytes → bytes → Prop) : bytes → bytes → nat → Prop :=
| sub_end s : contains_raw_reserved_marker s = false → Substituted f s s 0
| sub_token literal token secret rest out n :
    contains_raw_reserved_marker literal = false → token ≠ [] → f token secret →
    Substituted f rest out n →
    Substituted f (literal ++ token ++ rest) (literal ++ secret ++ out) (S n).

(** What a step of the loops splits the rest of the text into. *)
Lemma token_split text pos start literal t :
  slice text pos start = Ok literal → is_token_at text start t →
  drop pos text = literal ++ t.2 ++ drop t.1 text ∧ t.2 ≠ [].
Proof.
  intros [Hs ->]%slice_Ok [[? ?] ->]. split.
  - rewrite <- (take_drop (start - pos) (drop pos text)) at 1. f_equal. rewrite drop_drop.
    replace (pos + (start - pos))%nat with start by lia.
    rewrite <- (take_drop (t.1 - start) (drop start text)) at 1. f_equal. rewrite drop_drop.
    f_equal. lia.
  - intros Hnil. apply (f_equal length) in Hnil. rewrite length_take, length_drop in Hnil.
    cbn in Hnil. lia.
Qed.

Section substitution.
Context (now : Z) (r : SecretResolver) (Hwf : resolver_wf r).

(** The secret a token resolves to. *)
Definition resolves (token s : bytes) : Prop := resolve_placeholder now r token = Ok (Some s).

Lemma resolve_or_fail_Ok l token s : resolve_or_fail now r l token = Ok s → resolves token s.
Proof.
  unfold resolve_or_fail, resolves. rewrite let_Ok. intros ([s'|] & Hr & Hk); [|done].
  by injection Hk as <-.
Qed.

Lemma rewrite_text_go_sub fuel text l pos acc n out k :
  rewrite_text_go now fuel r text l pos acc n = Ok (out, k) →
  ∃ out' m, out = acc ++ out' ∧ k = (n + m)%nat ∧ Substituted resolves (drop pos text) out' m.
Proof.
  revert pos acc n. induction fuel as [|fuel IH]; intros pos acc n; cbn [rewrite_text_go]; [done|].
  destruct (Nat.ltb_spec pos (length text)) as [Hpos|Hpos].
  2: { intros [= <- <-]. rewrite drop_ge by lia. exists [], 0%nat.
       split_and!; [by rewrite app_nil_r|lia|by constructor]. }
  destruct (next_marker text pos) as [start|] eqn:Hn.
  2: { intros [= <- <-]. exists (drop pos text), 0%nat. split_and!; [done|lia|].
       constructor. by apply next_marker_None. }
  rewrite let_Ok. intros (literal & Hlit & Hrest).
  match type of Hrest with match ?t with _ => _ end = _ => destruct t as [[e tok]|] eqn:Ht end; [|done].
  assert (is_token_at text start (e, tok)) as Htok.
  { destruct (starts_with _ _); [exact (credential_token_spec r text start _ Hwf Ht)|]. by apply alias_token_spec in Ht as [? _]. }
  apply let_Ok in Hrest as (sec & Hsec & Hgo). apply IH in Hgo as (out' & m & -> & -> & Hsub).
  destruct (token_split _ _ _ _ _ Hlit Htok) as [Hd Hne]. cbn [fst snd] in *.
  exists (literal ++ sec ++ out'), (S m). split_and!; [by rewrite <- !app_assoc|lia|].
  rewrite Hd. constructor; [by eapply literal_no_marker|done|by eapply resolve_or_fail_Ok|done].
Qed.

Lemma rewrite_text_sub text l out n :
  rewrite_text_placeholders_at_location now r text l = Ok (out, n) →
  Substituted resolves text out n ∧ contains_raw_reserved_marker out = false.
Proof.
  unfold rewrite_text_placeholders_at_location.
  destruct (contains_raw_reserved_marker text) eqn:Hm; cbn [negb].
  - rewrite let_Ok. intros ([o k] & Hgo & Hk). cbn [fst] in Hk.
    destruct (contains_raw_reserved_marker o) eqn:Ho; [done|]. injection Hk as <- <-.
    apply rewrite_text_go_sub in Hgo as (out' & m & -> & -> & Hsub). by split.
  - intros [= <- <-]. by split; [constructor|].
Qed.

(** A resolved segment: the secrets are safe in a path, and the redacted text
    is the same substitution by the fixed mark. *)
Lemma rewrite_segment_go_sub fuel text pos a b a' b' :
  rewrite_segment_go now fuel r text pos a b = Ok (a', b') →
  ∃ x y m, a' = a ++ x ∧ b' = b ++ y
    ∧ Substituted (λ token s, resolves token s ∧ validate_credential_for_path s = true)
        (drop pos text) x m
    ∧ Substituted (λ _ s, s = REDACTED) (drop pos text) y m.
Proof.
  revert pos a b. induction fuel as [|fuel IH]; intros pos a b; cbn [rewrite_segment_go]; [done|].
  destruct (Nat.ltb_spec pos (length text)) as [Hpos|Hpos].
  2: { intros [= <- <-]. rewrite drop_ge by lia. exists [], [], 0%nat.
       split_and!; [by rewrite app_nil_r|by rewrite app_nil_r|by constructor|by constructor]. }
  destruct (next_marker text pos) as [start|] eqn:Hn.
  2: { intros [= <- <-]. exists (drop pos text), (drop pos text), 0%nat.
       split_and!; [done|done|..]; constructor; by apply next_marker_None. }
  rewrite let_Ok. intros (literal & Hlit & Hrest).
  destruct (path_token_at text start) as [[e tok]|] eqn:Ht; [|done]. apply path_token_spec in Ht.
  apply let_Ok in Hrest as (sec & Hsec & Hgo).
  destruct (validate_credential_for_path sec) eqn:Hv; cbn [negb] in Hgo; [|done].
  apply IH in Hgo as (x & y & m & -> & -> & Hx & Hy).
  destruct (token_split _ _ _ _ _ Hlit Ht) as [Hd Hne]. cbn [fst snd] in *.
  pose proof (literal_no_marker _ _ _ _ Hn Hlit).
  exists (literal ++ sec ++ x), (literal ++ REDACTED ++ y), (S m). rewrite Hd.
  split_and!; [by rewrite <- !app_assoc..| |]; constructor; try done.
  split; [by eapply resolve_or_fail_Ok|done].
Qed.
End substitution.

(** The bytes of a substituted text come from the text or from a secret. *)
Lemma Substituted_elem f text out n b :
  Substituted f text out n → b ∈ out → b ∈ text ∨ ∃ token s, f token s ∧ b ∈ s.
Proof.
  induction 1 as [s|literal token secret rest out n ? ? Hf ? IH]; [by left|].
  rewrite !elem_of_app. intros [?|[?|Hb]]; [by auto| |].
  - right. by exists token, secret.
  - destruct (IH Hb) as [?|?]; [left; by auto|by right].
Qed.
