(* ===== verification/SecretsTargets.v ===== *)
(** * SecretsTargets: credentials in request targets and header blocks

    Percent encoding is undone by decoding; rewriting a target keeps its
    segments and parameters; the redacted target does not depend on the
    credentials; rewriting a header block adds no line to it. *)

From stdpp Require Import gmap.
From S2P Require Import Prelude IpParse Order Text Base64 Secrets SecretsFacts.
From Stdlib Require Import ZifyBool.
Import Secrets.

(** ** Percent encoding *)

Lemma hex_upper_digit n : 0 ≤ n < 16 → hex_digit (hex_upper n) = Some n ∧ hex_upper n ≠ 43.
Proof.
  intros Hn. unfold hex_upper, hex_digit. destruct (Z.ltb_spec n 10).
  - replace ((48 <=? 48 + n) && (48 + n <=? 57)) with true by lia. split; [f_equal|]; lia.
  - replace ((48 <=? 55 + n) && (55 + n <=? 57)) with false by lia.
    replace ((65 <=? 55 + n) && (55 + n <=? 70)) with true by lia. split; [f_equal|]; lia.
Qed.

Lemma land_15 b : 0 ≤ Z.land b 15 < 16.
Proof. change 15 with (Z.ones 4). rewrite Z.land_ones by lia. apply Z.mod_pos_bound. lia. Qed.

Lemma escape_decodes b rest : is_byte b = true →
  percent_decode_bytes (percent_escape b ++ rest) = b :: percent_decode_bytes rest.
Proof.
  unfold is_byte. intros Hb. unfold percent_escape. cbn [app percent_decode_bytes].
  pose proof (land_15 (Z.shiftr b 4)). pose proof (land_15 b).
  rewrite Z.eqb_refl. unfold hex_pair. rewrite (proj1 (hex_upper_digit (Z.land b 15) ltac:(lia))).
  destruct (hex_upper_digit (Z.land (Z.shiftr b 4) 15) ltac:(lia)) as [-> Hne].
  apply Z.eqb_neq in Hne as ->. cbn. f_equal.
  change 15 with (Z.ones 4). rewrite !Z.land_ones, Z.shiftr_div_pow2 by lia.
  change (2 ^ 4) with 16. rewrite (Z.mod_small (b / 16)) by (Z.to_euclidean_division_equations; lia).
  Z.to_euclidean_division_equations. lia.
Qed.

Lemma percent_decode_encode plain s :
  contains_byte 37 plain = false → forallb is_byte s = true →
  percent_decode_bytes (percent_encode plain s) = s.
Proof.
  intros Hp. unfold percent_encode. induction s as [|b s IH]; cbn [map concat forallb]; [done|].
  rewrite andb_true_iff. intros [Hb Hs].
  destruct (is_ascii_alphanumeric b || contains_byte b plain) eqn:E.
  - cbn [app percent_decode_bytes]. destruct (Z.eqb_spec b 37) as [->|]; [|by rewrite IH].
    by rewrite Hp in E.
  - by rewrite escape_decodes, IH.
Qed.

(** The bytes an encoder writes. *)
Lemma percent_encode_elem plain s b :
  b ∈ percent_encode plain s →
  is_ascii_alphanumeric b = true ∨ contains_byte b plain = true ∨ b = 37.
Proof.
  unfold percent_encode. induction s as [|x s IH]; cbn [map concat]; [by intros ?%elem_of_nil|].
  rewrite elem_of_app. intros [Hb|?]; [|by auto].
  destruct (is_ascii_alphanumeric x || contains_byte x plain) eqn:E.
  - apply list_elem_of_singleton in Hb as ->. apply orb_true_iff in E as [?|?]; auto.
  - unfold percent_escape in Hb. rewrite !elem_of_cons, elem_of_nil in Hb.
    pose proof (land_15 (Z.shiftr x 4)). pose proof (land_15 x).
    assert (∀ n, 0 ≤ n < 16 → is_ascii_alphanumeric (hex_upper n) = true) as Hhex.
    { intros n Hn. unfold is_ascii_alphanumeric, is_ascii_alphabetic, is_ascii_digit, hex_upper.
      destruct (Z.ltb_spec n 10); lia. }
    destruct Hb as [->|[->|[->|[]]]]; [by auto|left; by apply Hhex..].
Qed.

(** A byte outside the plain chars, the alphanumerics and the percent sign
    never appears in what an encoder writes. *)
Lemma percent_encode_no plain s c :
  is_ascii_alphanumeric c = false → contains_byte c plain = false → c ≠ 37 →
  c ∉ percent_encode plain s.
Proof. intros ? ? ? [?|[?|?]]%percent_encode_elem; congruence. Qed.

(** ** The shape of a target is kept *)

(** A segment without a marker is kept; another is the encoding of its decoded
    text with every token replaced by a secret that is safe in a path. *)
Definition segment_rewritten (now : Z) (r : SecretResolver) (segment segment' : bytes) : Prop :=
  if contains_raw_reserved_marker (percent_decode segment)
  then ∃ text n, segment' = percent_encode_path_segment text
       ∧ Substituted (λ token s, resolves now r token s ∧ validate_credential_for_path s = true)
           (percent_decode segment) text n
  else segment' = segment.

(** A parameter keeps its name; its value is kept or is the encoding of its
    decoded text with every token replaced. *)
Definition param_rewritten (now : Z) (r : SecretResolver) (param param' : bytes) : Prop :=
  param' = param ∨
  ∃ key value text n, split_once 61 param = Some (key, value)
    ∧ param' = key ++ 61 :: percent_encode_query text
    ∧ Substituted
        (resolves now (with_request_location r
           (InQueryParam (percent_decode (replace_byte 43 32 key)))))
        (percent_decode value) text n.

(** The parts of the second target are those of the first, rewritten one by one. *)
Definition target_rewritten (now : Z) (r : SecretResolver) (target target' : bytes) : Prop :=
  let '(path, query) := split_target target in
  let '(path', query') := split_target target' in
  Forall2 (segment_rewritten now (with_request_location r (InPath (percent_decode path))))
    (split_on 47 path) (split_on 47 path')
  ∧ match query, query' with
    | None, None => True
    | Some q, Some q' => Forall2 (param_rewritten now r) (split_on 38 q) (split_on 38 q')
    | _, _ => False
    end.

Lemma rewrite_one_segment_spec now r seg part :
  resolver_wf r → rewrite_one_segment now r seg = Ok part →
  segment_rewritten now r seg part.1.2 ∧ (part.1.1 = false → part = (false, seg, seg)).
Proof.
  unfold rewrite_one_segment, segment_rewritten. intros Hwf.
  destruct (contains_raw_reserved_marker _) eqn:Hm; cbn [negb]; [|by intros [= <-]].
  rewrite let_Ok. intros ([x y] & Hgo & Hk). injection Hk as <-. split; [|done].
  apply rewrite_segment_go_sub in Hgo as (x' & y' & n & -> & _ & Hx & _).
  exists x', n. split; [done|]. by rewrite drop_0 in Hx.
Qed.

Lemma rewrite_one_param_spec now r param part :
  resolver_wf r → rewrite_one_param now r param = Ok part →
  param_rewritten now r param part.1.2 ∧ (part.1.1 = false → part = (false, param, param)).
Proof.
  unfold rewrite_one_param, param_rewritten. intros Hwf.
  destruct (split_once 61 param) as [[key value]|] eqn:Hs.
  2: { intros [= <-]. split; [by left|done]. }
  destruct (contains_raw_reserved_marker _) eqn:Hm.
  2: { intros [= <-]. split; [by left|done]. }
  rewrite let_Ok. intros ([x n] & Hgo & Hk). cbn [fst snd] in Hk.
  destruct (Nat.eqb n 0 || contains_raw_reserved_marker x); [done|]. injection Hk as <-.
  split; [|done]. right. apply rewrite_text_sub in Hgo as [Hsub _]; [|done].
  by exists key, value, x, n.
Qed.

(** Whether or not anything was rewritten, the joined parts are the parts. *)
Lemma joined_default c parts (s : bytes) (R : bytes → bytes → Prop) :
  Forall2 (λ piece part, R piece part.1.2 ∧ (part.1.1 = false → part = (false, piece, piece)))
    (split_on c s) parts →
  (default (s, s) (joined c parts)).1 = join_with c (map (λ part, part.1.2) parts)
  ∧ (default (s, s) (joined c parts)).2 = join_with c (map (λ part, part.2) parts).
Proof.
  intros Hf. unfold joined. destruct (existsb _ parts) eqn:He; cbn [negb].
  - cbn. split; f_equal; apply map_ext; by intros [[??]?].
  - cbn. assert (map (λ part : bool * bytes * bytes, part.1.2) parts = split_on c s
        ∧ map (λ part : bool * bytes * bytes, part.2) parts = split_on c s) as [-> ->];
      [|by rewrite join_split_on].
    revert He. induction Hf as [|piece part pieces parts [_ Hp] Hf IH]; [done|].
    cbn [existsb map]. rewrite orb_false_iff. intros [Hb He]. destruct (IH He) as [-> ->].
    destruct part as [[b x] y]. cbn in *. subst b. by injection (Hp eq_refl) as -> ->.
Qed.

Lemma segment_rewritten_no now r seg seg' c :
  c = 47 ∨ c = 63 → segment_rewritten now r seg seg' → c ∉ seg → c ∉ seg'.
Proof.
  unfold segment_rewritten. intros Hc. destruct (contains_raw_reserved_marker _); [|by intros ->].
  intros (text & n & -> & _) _. by destruct Hc as [-> | ->]; apply percent_encode_no.
Qed.
Lemma param_rewritten_no now r param param' :
  param_rewritten now r param param' → 38 ∉ param → 38 ∉ param'.
Proof.
  intros [->|(key & value & text & n & Hs & -> & _)]; [done|].
  apply split_once_Some in Hs as [-> _]. rewrite !not_elem_of_app, !not_elem_of_cons.
  intros (? & ? & _). split_and!; [done..|by apply percent_encode_no].
Qed.

Lemma not_elem_of_join c d l : c ≠ d → (∀ s, s ∈ l → c ∉ s) → c ∉ join_with d l.
Proof.
  intros Hne. induction l as [|p [|q l] IH]; intros Hl; [apply not_elem_of_nil|by apply Hl; left|].
  change (join_with d (p :: q :: l)) with (p ++ d :: join_with d (q :: l)).
  rewrite not_elem_of_app, not_elem_of_cons. split_and!; [by apply Hl; left|done|].
  apply IH. intros s Hs. apply Hl. by right.
Qed.

(** The pieces of a rewritten part are the rewritten pieces. *)
Lemma split_rewritten c s (R : bytes → bytes → Prop) pieces :
  (∀ x y, R x y → c ∉ x → c ∉ y) → Forall2 R (split_on c s) pieces →
  split_on c (join_with c pieces) = pieces.
Proof.
  intros HR Hf. apply split_on_join.
  - intros ->. apply Forall2_nil_inv_r in Hf. by apply split_on_nonempty in Hf.
  - apply list.Forall_forall. intros y Hy. apply list_elem_of_lookup in Hy as [i Hi].
    destruct (Forall2_lookup_r _ _ _ _ _ Hf Hi) as (x & Hx & Hxy). apply (HR x y Hxy).
    intros Hin. apply list_elem_of_lookup_2 in Hx. by destruct (split_on_elem c s x c Hx Hin).
Qed.

Lemma split_target_Some path q : 63 ∉ path → split_target (path ++ 63 :: q) = (path, Some q).
Proof. intros. unfold split_target. by rewrite split_once_app. Qed.
Lemma split_target_None path : 63 ∉ path → split_target path = (path, None).
Proof. intros Hp. unfold split_target. by rewrite (proj2 (split_once_None _ _) Hp). Qed.
Lemma split_target_path t path q : split_target t = (path, q) → 63 ∉ path.
Proof.
  unfold split_target. destruct (split_once 63 t) as [[p q']|] eqn:E; intros [= <- <-].
  - by apply split_once_Some in E as [_ ?].
  - by apply split_once_None.
Qed.

Lemma rewrite_path_pieces now r path o :
  resolver_wf r → rewrite_uri_path now path r = Ok o → 63 ∉ path →
  63 ∉ (default (path, path) o).1 ∧
  Forall2 (segment_rewritten now (with_request_location r (InPath (percent_decode path))))
    (split_on 47 path) (split_on 47 (default (path, path) o).1).
Proof.
  intros Hwf Hp Hq. unfold rewrite_uri_path in Hp.
  apply let_Ok in Hp as (parts & Hparts & Hk).
  injection Hk as <-. apply try_collect_Forall2 in Hparts.
  eapply Forall2_impl in Hparts;
    [|intros seg part; apply (rewrite_one_segment_spec now _ seg part (located_wf r _ Hwf))].
  destruct (joined_default _ _ _ _ Hparts) as [-> _].
  assert (Forall2 (segment_rewritten now (with_request_location r (InPath (percent_decode path))))
            (split_on 47 path) (map (λ part : bool * bytes * bytes, part.1.2) parts)) as Hf.
  { apply Forall2_fmap_r. eapply Forall2_impl; [|exact Hparts]. by intros ? ? [? _]. }
  rewrite (split_rewritten 47 path _ _ (λ x y, segment_rewritten_no now _ x y 47 ltac:(by left)) Hf).
  split; [|done]. apply not_elem_of_join; [done|]. intros y Hy.
  apply list_elem_of_lookup in Hy as [i Hi].
  destruct (Forall2_lookup_r _ _ _ _ _ Hf Hi) as (x & Hx & Hxy).
  eapply segment_rewritten_no; [by right|done|]. intros Hin. apply list_elem_of_lookup_2 in Hx.
  by destruct (split_on_elem 47 path x 63 Hx Hin).
Qed.

Lemma rewrite_query_pieces now r q o :
  resolver_wf r → rewrite_uri_query_params now q r = Ok o →
  Forall2 (param_rewritten now r) (split_on 38 q) (split_on 38 (default (q, q) o).1).
Proof.
  intros Hwf. unfold rewrite_uri_query_params. destruct (contains_reserved_credential_marker q).
  2: { intros [= <-]. cbn. apply Forall2_same_length_lookup_2; [done|]. intros i x y Hx Hy.
       simplify_eq. by left. }
  cbn [negb]. rewrite let_Ok. intros (parts & Hparts & Hk). injection Hk as <-.
  apply try_collect_Forall2 in Hparts.
  eapply Forall2_impl in Hparts; [|intros p part; apply (rewrite_one_param_spec now r p part Hwf)].
  destruct (joined_default _ _ _ _ Hparts) as [-> _].
  assert (Forall2 (param_rewritten now r) (split_on 38 q)
            (map (λ part : bool * bytes * bytes, part.1.2) parts)) as Hf.
  { apply Forall2_fmap_r. eapply Forall2_impl; [|exact Hparts]. by intros ? ? [? _]. }
  by rewrite (split_rewritten 38 q _ _ (param_rewritten_no now r) Hf).
Qed.

Lemma rewrite_uri_shape now r uri out :
  resolver_wf r → rewrite_uri now uri r = Ok out → target_rewritten now r uri (resolved out).
Proof.
  intros Hwf. unfold rewrite_uri, target_rewritten.
  destruct (split_target uri) as [path query] eqn:Hs. pose proof (split_target_path _ _ _ Hs) as Hq.
  rewrite let_Ok. intros (o & Ho & Hrest).
  destruct (rewrite_path_pieces _ _ _ _ Hwf Ho Hq) as [Hq' Hpieces].
  destruct (default (path, path) o) as [path' red]. cbn [fst] in *. destruct query as [q|].
  - apply let_Ok in Hrest as (oq & Hoq & Hk). pose proof (rewrite_query_pieces _ _ _ _ Hwf Hoq) as Hqs.
    destruct (default (q, q) oq) as [q' redq]. injection Hk as <-. cbn [resolved fst] in *.
    by rewrite split_target_Some.
  - injection Hrest as <-. cbn [resolved]. by rewrite split_target_None.
Qed.

(** ** The redacted target does not depend on the credentials *)

Lemma redacted_segment_go now1 now2 fuel r1 r2 text pos a1 a2 b x1 x2 y1 y2 :
  rewrite_segment_go now1 fuel r1 text pos a1 b = Ok (x1, y1) →
  rewrite_segment_go now2 fuel r2 text pos a2 b = Ok (x2, y2) → y1 = y2.
Proof.
  revert pos a1 a2 b. induction fuel as [|fuel IH]; intros pos a1 a2 b; cbn [rewrite_segment_go]; [done|].
  destruct (Nat.ltb pos (length text)); [|congruence].
  destruct (next_marker text pos) as [start|]; [|congruence].
  destruct (slice text pos start) as [literal|]; [|done].
  destruct (path_token_at text start) as [[e tok]|]; [|done]. rewrite !let_Ok.
  intros (s1 & _ & H1) (s2 & _ & H2).
  destruct (validate_credential_for_path s1), (validate_credential_for_path s2); try done.
  cbn [negb] in *. eauto.
Qed.

(** Two runs over the same parts redact them alike. *)
Definition same_redaction (part1 part2 : bool * bytes * bytes) : Prop :=
  part1.1.1 = part2.1.1 ∧ part1.2 = part2.2.

Lemma redacted_one_segment now1 now2 r1 r2 seg p1 p2 :
  rewrite_one_segment now1 r1 seg = Ok p1 → rewrite_one_segment now2 r2 seg = Ok p2 →
  same_redaction p1 p2.
Proof.
  unfold rewrite_one_segment. destruct (negb _); [by intros [= <-] [= <-]|].
  rewrite !let_Ok. intros ([x1 y1] & H1 & [= <-]) ([x2 y2] & H2 & [= <-]).
  split; [done|]. by eapply redacted_segment_go.
Qed.
Lemma redacted_one_param now1 now2 r1 r2 param p1 p2 :
  rewrite_one_param now1 r1 param = Ok p1 → rewrite_one_param now2 r2 param = Ok p2 →
  same_redaction p1 p2.
Proof.
  unfold rewrite_one_param. destruct (split_once 61 param) as [[key value]|]; [|by intros [= <-] [= <-]].
  destruct (contains_raw_reserved_marker _); [|by intros [= <-] [= <-]].
  rewrite !let_Ok. intros (o1 & _ & H1) (o2 & _ & H2).
  destruct (_ || _); [done|]. injection H1 as <-. destruct (_ || _); [done|]. by injection H2 as <-.
Qed.

Lemma redacted_parts (f g : bytes → result (bool * bytes * bytes) failure) l parts1 parts2 :
  (∀ s p1 p2, f s = Ok p1 → g s = Ok p2 → same_redaction p1 p2) →
  try_collect f l = Ok parts1 → try_collect g l = Ok parts2 →
  Forall2 same_redaction parts1 parts2.
Proof.
  intros Hfg. revert parts1 parts2. induction l as [|s l IH]; cbn [try_collect].
  - intros ? ? [= <-] [= <-]. constructor.
  - intros parts1 parts2. rewrite !let_Ok. intros (p1 & Hp1 & H1) (p2 & Hp2 & H2).
    apply let_Ok in H1 as (l1 & Hl1 & [= <-]). apply let_Ok in H2 as (l2 & Hl2 & [= <-]).
    constructor; eauto.
Qed.

Lemma joined_redacted c s parts1 parts2 :
  Forall2 same_redaction parts1 parts2 →
  (default (s, s) (joined c parts1)).2 = (default (s, s) (joined c parts2)).2.
Proof.
  intros Hf.
  assert (existsb (λ '(rewritten, _, _), rewritten) parts1
          = existsb (λ '(rewritten, _, _), rewritten) parts2
          ∧ map (λ '(_, _, redacted), redacted) parts1
            = map (λ '(_, _, redacted), redacted) parts2) as [He Hm].
  { induction Hf as [|[[??]?] [[??]?] ? ? [??] ? [IH1 IH2]]; cbn in *; [done|].
    split; by f_equal. }
  unfold joined. rewrite He. destruct (existsb _ parts2); cbn; [by rewrite Hm|done].
Qed.

Lemma rewrite_uri_redacted now1 now2 r1 r2 uri out1 out2 :
  rewrite_uri now1 uri r1 = Ok out1 → rewrite_uri now2 uri r2 = Ok out2 →
  redacted out1 = redacted out2.
Proof.
  unfold rewrite_uri. destruct (split_target uri) as [path query]. rewrite !let_Ok.
  intros (o1 & Ho1 & H1) (o2 & Ho2 & H2).
  assert ((default (path, path) o1).2 = (default (path, path) o2).2) as Hpath.
  { unfold rewrite_uri_path in Ho1, Ho2.
    apply let_Ok in Ho1 as (p1 & Hp1 & [= <-]). apply let_Ok in Ho2 as (p2 & Hp2 & [= <-]).
    eapply joined_redacted, redacted_parts; [|exact Hp1|exact Hp2].
    intros s x y. apply redacted_one_segment. }
  destruct (default (path, path) o1) as [a1 b1], (default (path, path) o2) as [a2 b2].
  cbn [snd] in Hpath. subst b2. destruct query as [q|]; [|by injection H1 as <-; injection H2 as <-].
  apply let_Ok in H1 as (oq1 & Hq1 & H1). apply let_Ok in H2 as (oq2 & Hq2 & H2).
  assert ((default (q, q) oq1).2 = (default (q, q) oq2).2) as Hquery.
  { unfold rewrite_uri_query_params in Hq1, Hq2.
    destruct (negb _); [injection Hq1 as <-; by injection Hq2 as <-|].
    apply let_Ok in Hq1 as (p1 & Hp1 & [= <-]). apply let_Ok in Hq2 as (p2 & Hp2 & [= <-]).
    eapply joined_redacted, redacted_parts; [|exact Hp1|exact Hp2].
    intros s x y. apply redacted_one_param. }
  destruct (default (q, q) oq1) as [c1 d1], (default (q, q) oq2) as [c2 d2].
  cbn [snd] in Hquery. subst d2. injection H1 as <-. by injection H2 as <-.
Qed.

Lemma rewrite_target_redacted now1 now2 r1 r2 target out1 out2 :
  rewrite_target_for_eval now1 target r1 = Ok out1 →
  rewrite_target_for_eval now2 target r2 = Ok out2 → redacted out1 = redacted out2.
Proof.
  unfold rewrite_target_for_eval. destruct (negb _); [|apply rewrite_uri_redacted].
  intros H1 H2. injection H1 as <-. by injection H2 as <-.
Qed.
