(* ===== verification/SecretsHeaders.v ===== *)
(** * SecretsHeaders: credentials in header blocks

    The forwarded head has the lines of the request's head, each kept or with
    the credentials of its value put in, and nothing else: no secret, however
    it was configured, adds a line or moves the end of the head. *)

From stdpp Require Import gmap.
From S2P Require Import Prelude IpParse Order Text Base64 Secrets SecretsFacts SecretsTargets.
From Stdlib Require Import ZifyBool.
Import Secrets.

(** ** The head of a message *)

Definition lines_text (lines : list bytes) : bytes := concat (map (λ l, l ++ CRLF) lines).

(** [Head s rl hs body]: a reader takes [rl] for the first line of [s], [hs] for
    the lines up to the first empty one, and [body] for what follows. *)
Record Head (s rl : bytes) (hs : list bytes) (body : bytes) : Prop := {
  head_text : s = rl ++ CRLF ++ lines_text hs ++ CRLF ++ body;
  head_line : no_crlf rl = true;
  head_lines : Forall (λ h, h ≠ [] ∧ no_crlf h = true) hs;
}.

Lemma lines_start hs t :
  Forall (λ h, h ≠ [] ∧ no_crlf h = true) hs → hs ≠ [] →
  starts_with CRLF (lines_text hs ++ t) = false.
Proof.
  intros Hf Hne. destruct Hf as [|h hs [Hh Hc] _]; [done|].
  change (lines_text (h :: hs)) with ((h ++ CRLF) ++ lines_text hs). rewrite <- !app_assoc.
  destruct h as [|x h]; [done|]. by apply line_start.
Qed.

Lemma find_head_end rl hs body :
  no_crlf rl = true → Forall (λ h, h ≠ [] ∧ no_crlf h = true) hs →
  find_sub (CRLF ++ CRLF) (rl ++ CRLF ++ lines_text hs ++ CRLF ++ body)
  = Some (length rl + length (lines_text hs))%nat.
Proof.
  intros Hrl Hf. revert rl Hrl. induction Hf as [|h hs [Hh Hc] Hf IH]; intros rl Hrl.
  - cbn [lines_text map concat app length]. rewrite Nat.add_0_r. by apply find_double_here.
  - rewrite find_double_skip; [|done|].
    2: { by apply (lines_start (h :: hs)); [constructor|]. }
    change (lines_text (h :: hs)) with ((h ++ CRLF) ++ lines_text hs). rewrite <- !app_assoc.
    rewrite IH by done. cbn [fmap option_fmap option_map]. f_equal. rewrite !length_app. cbn. lia.
Qed.

(** The reading is unique. *)
Lemma Head_inj s rl hs body rl' hs' body' :
  Head s rl hs body → Head s rl' hs' body' → rl = rl' ∧ hs = hs' ∧ body = body'.
Proof.
  intros [-> Hrl Hhs] [Heq Hrl' Hhs'].
  apply first_line_inj in Heq as [<- Heq]; [|done..].
  split; [done|]. clear Hrl Hrl'. revert hs' Hhs' Heq.
  induction Hhs as [|h hs [Hh Hc] Hf IH]; intros [|h' hs'] Hhs' Heq.
  - split; [done|]. change (CRLF ++ body = CRLF ++ body') in Heq. by apply app_inv_head in Heq.
  - exfalso. pose proof (lines_start (h' :: hs') (CRLF ++ body') Hhs' ltac:(done)) as Hs.
    rewrite <- Heq in Hs. done.
  - exfalso. pose proof (lines_start (h :: hs) (CRLF ++ body) ltac:(by constructor) ltac:(done)) as Hs.
    rewrite Heq in Hs. done.
  - apply Forall_cons_1 in Hhs' as [[_ Hc'] Hhs'].
    change (lines_text (h :: hs)) with ((h ++ CRLF) ++ lines_text hs) in Heq.
    change (lines_text (h' :: hs')) with ((h' ++ CRLF) ++ lines_text hs') in Heq.
    rewrite <- !app_assoc in Heq. apply first_line_inj in Heq as [<- Heq]; [|done..].
    by destruct (IH hs' Hhs' Heq) as [-> ->].
Qed.

Lemma lossy_lines hs : from_utf8_lossy (lines_text hs ++ CRLF) = lines_text (from_utf8_lossy <$> hs) ++ CRLF.
Proof.
  induction hs as [|h hs IH]; [done|].
  change (lines_text (h :: hs)) with ((h ++ CRLF) ++ lines_text hs). rewrite <- !app_assoc.
  rewrite lossy_crlf, IH. cbn [fmap list_fmap]. unfold lines_text. cbn [map concat].
  by rewrite <- !app_assoc.
Qed.

Lemma split_lines hs :
  Forall (λ h, h ≠ [] ∧ no_crlf h = true) hs → split_str CRLF (lines_text hs ++ CRLF) = hs ++ [[]; []].
Proof.
  induction 1 as [|h hs [Hh Hc] Hf IH]; [done|].
  change (lines_text (h :: hs)) with ((h ++ CRLF) ++ lines_text hs). rewrite <- !app_assoc.
  rewrite split_crlf by done. by rewrite IH.
Qed.

Lemma until_empty_lines hs t :
  Forall (λ h, h ≠ [] ∧ no_crlf h = true) hs → until_empty (hs ++ [] :: t) = hs.
Proof.
  induction 1 as [|h hs [Hh Hc] Hf IH]; [done|]. cbn [app until_empty].
  rewrite (proj2 (is_empty_false h)) by done. by rewrite IH.
Qed.

(** What the code reads of a head. *)
Lemma head_read s rl hs body :
  Head s rl hs body →
  ∃ p, find_sub (CRLF ++ CRLF) s = Some p ∧ drop (p + 4) s = body
    ∧ split_str CRLF (from_utf8_lossy (take (p + 4) s))
      = from_utf8_lossy rl :: (from_utf8_lossy <$> hs) ++ [[]; []].
Proof.
  intros [-> Hrl Hhs]. exists (length rl + length (lines_text hs))%nat.
  rewrite find_head_end by done. split; [done|].
  assert (rl ++ CRLF ++ lines_text hs ++ CRLF ++ body = (rl ++ CRLF ++ lines_text hs ++ CRLF) ++ body)
    as -> by (by rewrite <- !app_assoc).
  assert (length rl + length (lines_text hs) + 4 = length (rl ++ CRLF ++ lines_text hs ++ CRLF))%nat
    as -> by (rewrite !length_app; cbn; lia).
  rewrite drop_app_length, take_app_length. split; [done|].
  rewrite lossy_crlf, lossy_lines, split_crlf by (by apply lossy_no_crlf).
  rewrite split_lines; [done|]. apply Forall_fmap. eapply Forall_impl; [|exact Hhs].
  intros h [Hh Hc]. split; [by apply lossy_nonempty|by apply lossy_no_crlf].
Qed.

(** ** Header values *)

Section values.
Context (now : Z) `{Base64}.

(** How a header value is rewritten: it is a token; a Basic credential whose
    decoded text is rewritten; or a scheme before a token. *)
Inductive value_rewritten (r : SecretResolver) (value : bytes) : bytes → Prop :=
| value_token s : resolves now r (trim value) s → value_rewritten r value s
| value_basic encoded decoded text n :
    basic_auth_token (trim value) = Some encoded →
    decode_basic_auth_token (trim encoded) = Some decoded →
    Substituted (resolves now r) decoded text (S n) →
    value_rewritten r value (lit "Basic " ++ b64_encode text)
| value_scheme k s :
    find_whitespace (trim value) = Some k →
    resolves now r (trim (drop k (trim value))) s →
    value_rewritten r value (take k (trim value) ++ 32 :: s).

Lemma rewrite_header_value_spec r value v :
  resolver_wf r → rewrite_header_value now r value = Ok (Some v) → value_rewritten r value v.
Proof.
  intros Hwf. unfold rewrite_header_value. rewrite let_Ok. intros ([s|] & Hd & Hk).
  { injection Hk as <-. by constructor. }
  apply let_Ok in Hk as ([w|] & Hb & Hk).
  - assert (v = lit "Basic " ++ w) as -> by congruence. clear Hk.
    destruct (basic_auth_token (trim value)) as [encoded|] eqn:He; [|done].
    unfold rewrite_basic_auth_token in Hb.
    destruct (decode_basic_auth_token (trim encoded)) as [decoded|] eqn:Hdec; [|done].
    destruct (negb _); [done|]. apply let_Ok in Hb as ([text n] & Ht & Hb). cbn [fst snd] in Hb.
    destruct n as [|n]; [done|]. injection Hb as <-.
    apply rewrite_text_sub in Ht as [Hs _]; [|done]. by econstructor.
  - unfold rewrite_prefixed_value in Hk. destruct (find_whitespace (trim value)) as [k|] eqn:Hw.
    2: { by destruct (contains_reserved_credential_marker _). }
    apply let_Ok in Hk as ([s|] & Hs & Hk).
    + injection Hk as <-. by constructor.
    + by destruct (contains_reserved_credential_marker _).
Qed.

(** A byte before the first whitespace ends no line. *)
Lemma find_whitespace_take s k b : find_whitespace s = Some k → b ∈ take k s → b ≠ 13 ∧ b ≠ 10.
Proof.
  revert k. induction s as [|x s IH]; cbn [find_whitespace]; [done|]. intros k.
  destruct (Nat.eqb_spec (ws_len (x :: s)) 0) as [Hz|].
  - rewrite fmap_Some. intros (k' & Hk & ->). cbn [take]. rewrite elem_of_cons.
    intros [->|Hb]; [|by eapply IH]. cbn [ws_len] in Hz.
    split; intros ->; cbn in Hz; done.
  - intros [= <-] ?%elem_of_nil. done.
Qed.

Lemma resolves_clean r token s : resolves now r token s → clean s.
Proof. intros Hr. apply resolve_placeholder_released in Hr as (? & ? & _ & _ & _ & Hc & _). done. Qed.

(** No rewritten value has a line end in it. *)
Lemma value_rewritten_no_crlf r value v : value_rewritten r value v → 13 ∉ v.
Proof.
  intros [s Hs|encoded decoded text n _ _ _|k s Hk Hs].
  - intros Hin. by destruct (resolves_clean _ _ _ Hs _ Hin).
  - rewrite not_elem_of_app. split; [by apply contains_byte_false|]. intros Hin.
    pose proof (b64_alphabet text) as Ha. rewrite forallb_elem in Ha. by apply Ha in Hin.
  - rewrite not_elem_of_app, not_elem_of_cons. split_and!; [|done|].
    + intros Hin. by destruct (find_whitespace_take _ _ _ Hk Hin).
    + intros Hin. by destruct (resolves_clean _ _ _ Hs _ Hin).
Qed.

(** A header line is kept, or keeps its name and has its value rewritten. *)
Definition header_rewritten (r : SecretResolver) (line line' : bytes) : Prop :=
  line' = line ∨
  ∃ name value v, split_once 58 line = Some (name, value)
    ∧ value_rewritten (with_request_location r (InHeader name)) (trim value) v
    ∧ line' = name ++ lit ": " ++ v.

Lemma rewrite_header_line_spec r line line' :
  resolver_wf r → rewrite_header_line_checked now line r = Ok line' → header_rewritten r line line'.
Proof.
  intros Hwf. unfold rewrite_header_line_checked, rewrite_header_value_for_name.
  destruct (split_once 58 line) as [[name value]|] eqn:Hs.
  2: { intros [= <-]. by left. }
  rewrite let_Ok. intros ([v|] & Hv & Hk); injection Hk as <-; [|by left].
  right. exists name, value, v. split_and!; [done| |done]. by apply rewrite_header_value_spec in Hv.
Qed.

Lemma header_rewritten_line r line line' :
  header_rewritten r line line' → line ≠ [] ∧ no_crlf line = true →
  line' ≠ [] ∧ no_crlf line' = true.
Proof.
  intros [->|(name & value & v & Hs & Hv & ->)]; [done|]. intros [_ Hl].
  apply split_once_Some in Hs as [-> _]. rewrite no_crlf_app in Hl by done.
  apply andb_true_iff in Hl as [Hn _]. split; [by destruct name|].
  change (name ++ lit ": " ++ v) with (name ++ 58 :: [] ++ 32 :: v).
  rewrite !no_crlf_app by done. rewrite Hn. cbn [andb].
  apply value_rewritten_no_crlf in Hv. by rewrite (no_crlf_notin v).
Qed.
End values.

(** ** The request line and the whole head *)

(** A request line is kept, or has its target rewritten. *)
Definition request_line_rewritten (now : Z) (r : SecretResolver) (line line' : bytes) : Prop :=
  line' = line ∨
  ∃ method uri version uri', line = method ++ 32 :: uri ++ 32 :: version
    ∧ target_rewritten now r uri uri' ∧ line' = method ++ 32 :: uri' ++ 32 :: version.

Lemma rewrite_request_line_spec now r line0 out :
  resolver_wf r → rewrite_request_line now line0 r = Ok out →
  request_line_rewritten now r line0 (line out).
Proof.
  intros Hwf. unfold rewrite_request_line.
  destruct (split_once 32 line0) as [[method rest]|] eqn:Hm; [|by intros [= <-]; left].
  destruct (split_once 32 rest) as [[uri version]|] eqn:Hu; [|by intros [= <-]; left].
  destruct (contains_reserved_credential_marker uri); cbn [negb]; [|by intros [= <-]; left].
  rewrite let_Ok. intros (o & Ho & Hk). injection Hk as <-. right.
  apply split_once_Some in Hm as [-> _]. apply split_once_Some in Hu as [-> _].
  exists method, uri, version, (resolved o). split_and!; [done| |done]. by apply rewrite_uri_shape.
Qed.

Lemma no_crlf_join c l : c ≠ 13 → c ≠ 10 →
  no_crlf (join_with c l) = forallb no_crlf l.
Proof.
  intros H13 H10. induction l as [|p [|q l] IH]; [done|cbn; by rewrite andb_true_r|].
  change (join_with c (p :: q :: l)) with (p ++ c :: join_with c (q :: l)).
  rewrite no_crlf_app, IH by done. done.
Qed.
Lemma no_crlf_split_on c s : c ≠ 13 → c ≠ 10 → no_crlf s = forallb no_crlf (split_on c s).
Proof. intros. by rewrite <- (no_crlf_join c), join_split_on. Qed.

Lemma no_crlf_Forall2 c (R : bytes → bytes → Prop) s s' :
  c ≠ 13 → c ≠ 10 → (∀ x y, R x y → no_crlf x = true → no_crlf y = true) →
  Forall2 R (split_on c s) (split_on c s') → no_crlf s = true → no_crlf s' = true.
Proof.
  intros H13 H10 HR Hf. rewrite !(no_crlf_split_on c) by done.
  induction Hf as [|x y l l' Hxy Hf IH]; cbn [forallb]; [done|]. rewrite !andb_true_iff. naive_solver.
Qed.

Lemma segment_rewritten_line now r x y :
  segment_rewritten now r x y → no_crlf x = true → no_crlf y = true.
Proof.
  unfold segment_rewritten. destruct (contains_raw_reserved_marker _); [|by intros ->].
  intros (text & n & -> & _) _. apply no_crlf_notin. by apply percent_encode_no.
Qed.
Lemma param_rewritten_line now r x y :
  param_rewritten now r x y → no_crlf x = true → no_crlf y = true.
Proof.
  intros [->|(key & value & text & n & Hs & -> & _)]; [done|].
  apply split_once_Some in Hs as [-> _]. rewrite !no_crlf_app by done. rewrite !andb_true_iff.
  intros [-> _]. split; [done|]. apply no_crlf_notin. by apply percent_encode_no.
Qed.

Lemma split_target_text t : t = match split_target t with
                                | (p, Some q) => p ++ 63 :: q
                                | (p, None) => p
                                end.
Proof.
  unfold split_target. destruct (split_once 63 t) as [[p q]|] eqn:E; [|done].
  by apply split_once_Some in E as [-> _].
Qed.

Lemma target_rewritten_line now r t t' :
  target_rewritten now r t t' → no_crlf t = true → no_crlf t' = true.
Proof.
  unfold target_rewritten. pose proof (split_target_text t) as Et.
  pose proof (split_target_text t') as Et'.
  destruct (split_target t) as [p [q|]], (split_target t') as [p' [q'|]]; intros [Hp Hq]; try done;
    rewrite Et, Et'.
  - rewrite !no_crlf_app, !andb_true_iff by done. intros [Hc Hd]. split.
    + exact (no_crlf_Forall2 47 _ _ _ ltac:(done) ltac:(done) (segment_rewritten_line now _) Hp Hc).
    + exact (no_crlf_Forall2 38 _ _ _ ltac:(done) ltac:(done) (param_rewritten_line now _) Hq Hd).
  - exact (no_crlf_Forall2 47 _ _ _ ltac:(done) ltac:(done) (segment_rewritten_line now _) Hp).
Qed.

Lemma request_line_rewritten_line now r l l' :
  request_line_rewritten now r l l' → no_crlf l = true → no_crlf l' = true.
Proof.
  intros [->|(m & u & v & u' & -> & Ht & ->)]; [done|]. rewrite !no_crlf_app by done.
  rewrite !andb_true_iff. intros (? & Hu & ?). split_and!; [done| |done].
  by eapply target_rewritten_line.
Qed.

Lemma rewritten_lines now `{Base64} r hs hs' :
  resolver_wf r →
  try_collect (λ line, rewrite_header_line_checked now line r) hs = Ok hs' →
  Forall (λ h, h ≠ [] ∧ no_crlf h = true) hs →
  Forall2 (header_rewritten now r) hs hs' ∧ Forall (λ h, h ≠ [] ∧ no_crlf h = true) hs'.
Proof.
  intros Hwf Hc%try_collect_Forall2 Hf.
  induction Hc as [|h h' hs hs' Hh Hc IH]; [by split; constructor|].
  apply Forall_cons_1 in Hf as [Hl Hf]. destruct (IH Hf) as [IH1 IH2].
  apply rewrite_header_line_spec in Hh; [|done].
  split; constructor; [done..|by eapply header_rewritten_line|done].
Qed.

Lemma rewrite_block_head now `{Base64} r raw rl hs body out :
  resolver_wf r → Head raw rl hs body →
  rewrite_http_header_block now raw (Some r) = Ok out →
  ∃ rl' hs', Head (rewritten out) rl' hs' body
    ∧ request_line_rewritten now r (from_utf8_lossy rl) rl'
    ∧ Forall2 (header_rewritten now r) (from_utf8_lossy <$> hs) hs'.
Proof.
  intros Hwf Hhead. destruct (head_read _ _ _ _ Hhead) as (p & Hp & Hbody & Hsplit).
  destruct Hhead as [_ Hrl Hhs]. unfold rewrite_http_header_block. rewrite Hp, Hsplit.
  assert (Forall (λ h, h ≠ [] ∧ no_crlf h = true) (from_utf8_lossy <$> hs)) as Hl.
  { apply Forall_fmap. eapply Forall_impl; [|exact Hhs].
    intros h [Hh Hc]. split; [by apply lossy_nonempty|by apply lossy_no_crlf]. }
  rewrite until_empty_lines by done. rewrite let_Ok. intros (rlr & Hrlr & Hrest).
  apply let_Ok in Hrest as (hs' & Hhs' & Hrest). rewrite Hbody in Hrest.
  destruct (contains_reserved_credential_marker _); [done|]. injection Hrest as <-.
  apply rewrite_request_line_spec in Hrlr; [|done].
  destruct (rewritten_lines now r _ _ Hwf Hhs' Hl) as [Hf Hl'].
  exists (line rlr), hs'. split_and!; [|done..]. split; [done| |done].
  eapply request_line_rewritten_line; [done|]. by apply lossy_no_crlf.
Qed.
