(* ===== verification/SecretsProperties.v ===== *)
(** * SecretsProperties: what rewriting a request guarantees

    The theorems about crates/openshell-core/src/secrets.rs, for every resolver
    its constructors build. *)

From stdpp Require Import gmap.
From S2P Require Import Prelude PathCanon IpParse Order Text Base64.
From S2P Require Import Secrets SecretsFacts SecretsTargets SecretsHeaders.
From Stdlib Require Import ZifyBool.
Import Secrets.

(** ** The resolvers the code builds *)

Inductive Built : SecretResolver → Prop :=
| built_revision env expires revision aliases r :
    (from_provider_env_for_revision_with_current_aliases env expires revision aliases).2 = Some r →
    Built r
| built_generation env expires revision handles r :
    (from_provider_env_for_current_revision_with_stable_handles env expires revision handles).1.2
    = Some r → Built r
| built_current env expires revision handles r :
    (from_provider_env_for_current_revision_with_stable_handles env expires revision handles).2
    = Some r → Built r
| built_merge rs r : (∀ x, x ∈ rs → Built x) → SecretResolver_merge rs = Some r → Built r
| built_scoped r bound allowed revisions :
    Built r → Built (scoped_to_env_keys r bound allowed revisions)
| built_placements r p : Built r → Built (with_placements r p)
| built_location r l : Built r → Built (with_request_location r l)
| built_policy r : Built r → Built (for_policy r).

(** The tokens that stand for a key: none of them is issued for a key that
    itself reads as a revision or a handle. *)
Definition token_for (key ph : bytes) : Prop :=
  uses_reserved_revision_namespace key = false
  ∧ (ph = placeholder_for_env_key key
     ∨ (∃ revision, ph = placeholder_for_env_key_for_revision key revision)
     ∨ ∃ handle, ph = placeholder_for_env_key_for_stable_handle key handle).

Definition typed (m : gmap bytes SecretValue) : Prop :=
  map_Forall (λ ph _, ∃ key, token_for key ph) m.

Lemma typed_insert m key ph sv : typed m → token_for key ph → typed (<[ph := sv]> m).
Proof. intros Hm Hph. by apply map_Forall_insert_2; [exists key|]. Qed.

Lemma registered_typed env expires revision handles acc :
  typed acc.1.2 → typed acc.2 →
  typed (foldl (register expires revision handles) acc env).1.2
  ∧ typed (foldl (register expires revision handles) acc env).2.
Proof.
  revert acc. induction env as [|[key value] env IH]; intros [[child gen] cur] Hg Hc; [by split|].
  cbn [foldl]. apply IH; cbn [register];
    destruct (uses_reserved_revision_namespace key) eqn:Hns; try done;
    destruct (handles !! key) as [handle|]; cbn [fst snd]; try done.
  - destruct (revision =? 0); [done|]. eapply typed_insert; [done|]. by split; eauto.
  - eapply typed_insert; [eapply typed_insert|]; [done|by split; eauto..].
  - eapply typed_insert; [eapply typed_insert|]; [done|by split; eauto..].
Qed.

Lemma aliased_typed env expires revision aliases acc :
  typed acc.2 → typed (foldl (register_for_revision expires revision aliases) acc env).2.
Proof.
  revert acc. induction env as [|[key value] env IH]; intros [child values] Hv; [done|].
  cbn [foldl]. apply IH. cbn [register_for_revision].
  destruct (uses_reserved_revision_namespace key) eqn:Hns; [done|]. cbn [snd].
  assert (typed (<[placeholder_for_env_key_for_revision key revision := secret_for expires key value]>
                   values)) as Ht by (eapply typed_insert; [done|by split; eauto]).
  destruct (aliases && _); [|done]. eapply typed_insert; [done|by split; eauto].
Qed.

Lemma some_resolver_values m r : some_resolver m = Some r → by_placeholder r = m.
Proof. unfold some_resolver. case_bool_decide; [done|]. by intros [= <-]. Qed.

Lemma extend_all_typed rs :
  (∀ x, x ∈ rs → typed (by_placeholder x)) → typed (extend_all by_placeholder rs).
Proof.
  unfold extend_all. assert (typed ∅) as H0 by apply map_Forall_empty. revert H0.
  generalize (∅ : gmap bytes SecretValue) as m.
  induction rs as [|x rs IH]; intros m Hm Hrs; [done|]. cbn [foldl]. apply IH.
  - intros ph sv [H|[_ H]]%lookup_union_Some_raw; [|by apply (Hm ph sv)].
    apply (Hrs x (list_elem_of_here _ _) ph sv H).
  - intros y Hy. apply Hrs. by right.
Qed.

Lemma built_typed r : Built r → typed (by_placeholder r).
Proof.
  induction 1 as [env expires revision aliases r Hr|env expires revision handles r Hr
    |env expires revision handles r Hr|rs r _ IH Hr|r bound allowed revisions _ IH|r p _ IH|r l _ IH|r _ IH];
    [| | | | |exact IH..].
  - unfold from_provider_env_for_revision_with_current_aliases in Hr. destruct (is_empty env); [done|].
    pose proof (aliased_typed env expires revision aliases (∅, ∅) (map_Forall_empty _)) as Ht.
    destruct (foldl _ _ env) as [child values]. by rewrite (some_resolver_values _ _ Hr).
  - unfold from_provider_env_for_current_revision_with_stable_handles in Hr.
    pose proof (registered_typed env expires revision handles (∅, ∅, ∅) (map_Forall_empty _)
      (map_Forall_empty _)) as [Hg Hc].
    destruct (foldl _ _ env) as [[child gen] cur]. cbn [fst snd] in *. by rewrite (some_resolver_values _ _ Hr).
  - unfold from_provider_env_for_current_revision_with_stable_handles in Hr.
    pose proof (registered_typed env expires revision handles (∅, ∅, ∅) (map_Forall_empty _)
      (map_Forall_empty _)) as [Hg Hc].
    destruct (foldl _ _ env) as [[child gen] cur]. cbn [fst snd] in *. by rewrite (some_resolver_values _ _ Hr).
  - unfold SecretResolver_merge in Hr. case_bool_decide; [done|]. injection Hr as <-.
    by apply extend_all_typed.
  - intros ph sv [H _]%scoped_entries. by apply (IH ph sv).
Qed.

Lemma token_for_prefix key ph : token_for key ph → starts_with PLACEHOLDER_PREFIX ph = true.
Proof.
  intros [_ H]. apply starts_with_spec.
  destruct H as [->|[[revision ->]|[handle ->]]]; [by eexists| |by eexists].
  unfold placeholder_for_env_key_for_revision. case_match; by eexists.
Qed.

Lemma built_wf r : Built r → resolver_wf r.
Proof.
  intros Ht%built_typed. unfold resolver_wf. destruct (by_placeholder r !! []) as [sv|] eqn:E; [|done].
  destruct (Ht _ _ E) as [key Hk]. by apply token_for_prefix in Hk.
Qed.

(** ** Theorems *)

Section rewriting.
Context (now : Z) `{Base64}.

(** A resolver, however it was built, merged and scoped, maps only tokens
    that stand for a key, and no key of it reads as a revision or a handle of
    another. *)
Theorem resolver_entries_are_tokens r :
  Built r → map_Forall (λ ph _, ∃ key, token_for key ph) (by_placeholder r).
Proof. apply built_typed. Qed.

Lemma referenced_policy_ends target : ends (redact_target_for_policy now target).
Proof.
  unfold redact_target_for_policy. destruct (contains_reserved_credential_marker target); [|done].
  cbn [negb]. apply ends_let; [apply referenced_keys_ends; lia|]. intros env _.
  destruct (from_provider_env _).2 as [r|] eqn:E; [|done]. apply ends_let; [|done].
  assert (Built (for_policy r)) as Hb.
  { apply built_policy. eapply built_revision. exact E. }
  unfold rewrite_target_for_eval. case_match; [done|]. apply rewrite_uri_ends. by apply built_wf.
Qed.

(** C40: rewriting ends. Each loop over a text moves past a token in every
    round, so the rounds the length of the text allows are enough: for every
    resolver the code builds, no entry point comes back for want of rounds. *)
Theorem rewrite_terminates r :
  Built r →
  (∀ text location, ends (rewrite_text_placeholders now r text location))
  ∧ (∀ text, ends (rewrite_websocket_text_placeholders now r text))
  ∧ (∀ name value, ends (rewrite_header_value_for_name now r name value))
  ∧ (∀ target, ends (rewrite_target_for_eval now target r))
  ∧ (∀ target, ends (redact_target_for_policy now target))
  ∧ (∀ raw, ends (rewrite_http_header_block now raw (Some r))).
Proof.
  intros Hwf%built_wf. split_and!; intros.
  - by apply rewrite_text_ends.
  - by apply rewrite_text_ends.
  - by apply rewrite_header_value_ends.
  - unfold rewrite_target_for_eval. case_match; [done|]. by apply rewrite_uri_ends.
  - apply referenced_policy_ends.
  - unfold rewrite_http_header_block. destruct (find_sub _ raw); [|done].
    destruct (split_str _ _) as [|request_line lines]; [done|]. apply ends_let.
    + unfold rewrite_request_line. destruct (split_once 32 request_line) as [[m rest]|]; [|done].
      destruct (split_once 32 rest) as [[uri version]|]; [|done]. case_match; [done|].
      apply ends_let; [by apply rewrite_uri_ends|done].
    + intros rl _. apply ends_let.
      * apply ends_try_collect. intros h. by apply rewrite_header_line_ends.
      * intros hs _. by case_match.
Qed.

(** What a rewritten body is: the text between the tokens is kept, every
    token gives way to a secret the resolver releases for it in a body, that is
    an unexpired one with no CR, LF or NUL of an entry the token names, the
    count is that of the tokens, and no marker is left. *)
Theorem body_rewriting_substitutes r text location out n :
  Built r → rewrite_text_placeholders now r text location = Ok (out, n) →
  Substituted (released now (with_request_location r InBody)) text out n
  ∧ contains_raw_reserved_marker out = false.
Proof.
  intros Hb Hr. apply rewrite_text_sub in Hr as [Hs Hc]; [|by apply built_wf, built_location].
  split; [|done]. clear Hc. induction Hs as [|literal token secret rest out' m Hl Hne Hf Hs IH];
    constructor; [done|done|done| |done]. by apply resolve_placeholder_released.
Qed.

(** A credential arrives as it is. An upstream that decodes a forwarded path
    segment or query value reads the very text that was encoded. *)
Theorem percent_encoding_round_trips s :
  utf8_valid s = true → forallb is_byte s = true →
  percent_decode (percent_encode_query s) = s ∧ percent_decode (percent_encode_path_segment s) = s.
Proof.
  intros Hv Hb. unfold percent_decode, percent_encode_query, percent_encode_path_segment.
  rewrite !percent_decode_encode by done. split; by apply lossy_valid.
Qed.

(** A credential cannot reshape a target. The forwarded target has the
    segments and parameters of the request's, one by one: a segment or a value
    with no token is kept, another is the encoding of its decoded text with the
    tokens replaced, and the query starts where it did. *)
Theorem target_keeps_its_shape r target out :
  Built r → contains_reserved_credential_marker target = true →
  rewrite_target_for_eval now target r = Ok out → target_rewritten now r target (resolved out).
Proof.
  intros Hb%built_wf Hm. unfold rewrite_target_for_eval. rewrite Hm. by apply rewrite_uri_shape.
Qed.

(** *** Redaction *)






(** C21: a credential cannot inject a header or a request. What a reader takes
    for the request line, the header lines and the body of the forwarded bytes
    is the request's own: the target of the line is rewritten in shape, each
    header keeps its name and gets at most its value rewritten, there is no
    further line, and the body is the same; and there is no other way to read
    the forwarded bytes. *)
Theorem credentials_inject_no_header r raw rl hs body out :
  Built r → Head raw rl hs body →
  rewrite_http_header_block now raw (Some r) = Ok out →
  ∃ rl' hs', Head (rewritten out) rl' hs' body
    ∧ request_line_rewritten now r (from_utf8_lossy rl) rl'
    ∧ Forall2 (header_rewritten now r) (from_utf8_lossy <$> hs) hs'
    ∧ ∀ rl2 hs2 body2, Head (rewritten out) rl2 hs2 body2 → rl2 = rl' ∧ hs2 = hs' ∧ body2 = body.
Proof.
  intros Hb%built_wf Hhead Hr.
  destruct (rewrite_block_head now r raw rl hs body out Hb Hhead Hr) as (rl' & hs' & Hh & Hrl & Hhs).
  exists rl', hs'. split_and!; [done..|]. intros rl2 hs2 body2 H2. by eapply Head_inj.
Qed.
End rewriting.

(** ** Witnesses *)

Module Sample.
(** One key, to be sent in the path of a bot's requests. *)
Definition env : list (bytes * bytes) := [(lit "KEY", lit "sk-1")].
Definition unplaced : SecretResolver :=
  default (plain_resolver ∅) (from_provider_env_for_revision env ∅ 1).2.
Definition resolver : SecretResolver :=
  with_placements unplaced {[ lit "KEY" := AtPathTemplate (lit "/bot/{credential}/send") ]}.
Definition token : bytes := lit "openshell:resolve:env:v1_KEY".

Lemma unplaced_built : Built unplaced.
Proof. apply (built_revision env ∅ 1 false). vm_compute. reflexivity. Qed.
Lemma placed_built : Built resolver.
Proof. apply built_placements, unplaced_built. Qed.

Definition target : bytes := lit "/bot/" ++ token ++ lit "/send?a=1".
Definition request_line : bytes := lit "GET / HTTP/1.1".
Definition header : bytes := lit "Authorization: Bearer " ++ token.
Definition request : bytes := request_line ++ CRLF ++ (header ++ CRLF) ++ CRLF ++ lit "body".
End Sample.

Lemma resolver_entries_are_tokens_witness :
  Sample.token ∈ dom (by_placeholder Sample.resolver)
  ∧ map_Forall (λ ph _, ∃ key, token_for key ph) (by_placeholder Sample.resolver).
Proof.
  split; [apply (bool_decide_eq_true _); vm_compute; reflexivity|].
  apply resolver_entries_are_tokens, Sample.placed_built.
Defined.

Lemma rewrite_terminates_witness : ends (rewrite_target_for_eval 0 Sample.target Sample.resolver).
Proof. apply (rewrite_terminates 0 Sample.resolver Sample.placed_built). Defined.

Lemma body_rewriting_substitutes_witness :
  Substituted (released 0 (with_request_location Sample.resolver InBody))
    (lit "a " ++ Sample.token ++ lit " b") (lit "a sk-1 b") 1.
Proof.
  apply (body_rewriting_substitutes 0 Sample.resolver _ (lit "body") _ _ Sample.placed_built).
  vm_compute. reflexivity.
Defined.

Lemma percent_encoding_round_trips_witness :
  percent_encode_query (lit "a/b c") = lit "a%2Fb%20c"
  ∧ percent_decode (percent_encode_query (lit "a/b c")) = lit "a/b c".
Proof.
  split; [vm_compute; reflexivity|].
  apply (percent_encoding_round_trips (lit "a/b c")); vm_compute; reflexivity.
Defined.

Lemma target_keeps_its_shape_witness :
  target_rewritten 0 Sample.resolver Sample.target (lit "/bot/sk-1/send?a=1").
Proof.
  apply (target_keeps_its_shape 0 Sample.resolver Sample.target
    (target_result (lit "/bot/sk-1/send?a=1") (lit "/bot/[CREDENTIAL]/send?a=1"))
    Sample.placed_built); vm_compute; reflexivity.
Defined.


Lemma credentials_inject_no_header_witness :
  ∃ out rl' hs', rewrite_http_header_block 0 Sample.request (Some Sample.unplaced) = Ok out
    ∧ Head (rewritten out) rl' hs' (lit "body").
Proof.
  destruct (rewrite_http_header_block 0 Sample.request (Some Sample.unplaced)) as [out|e] eqn:E;
    [|by vm_compute in E].
  destruct (credentials_inject_no_header 0 Sample.unplaced Sample.request Sample.request_line
    [Sample.header] (lit "body") out Sample.unplaced_built) as (rl' & hs' & Hh & _).
  - split; [reflexivity|vm_compute; reflexivity|].
    constructor; [split; [discriminate|vm_compute; reflexivity]|constructor].
  - exact E.
  - exists out, rl', hs'. split; [reflexivity|exact Hh].
Defined.

(** ** Where the code falls short *)

(** Policy evaluation of a target panics. When a canonical token is followed
    by an alias marker, the start of the alias is searched backwards into the
    token just read, and the slice up to it has its end before its start. *)
Theorem redacting_adjacent_tokens_panics :
  redact_target_for_policy 0 (lit "/openshell:resolve:env:A-OPENSHELL-RESOLVE-ENV-B") = Err Panicked.
Proof. vm_compute. reflexivity. Qed.

(** A resolver with one long credential, and a request that uses it before a
    header that has a token and a word in its value. *)
Definition long_resolver : SecretResolver :=
  default (plain_resolver ∅)
    (from_provider_env_for_revision [(lit "KEY", replicate 400 97)] ∅ 1).2.
Definition unresolved_header : bytes := lit "X-Note: openshell:resolve:env:OTHER word".
Definition long_request (first : bytes) : bytes :=
  lit "GET / HTTP/1.1" ++ CRLF ++ first ++ CRLF ++ unresolved_header ++ CRLF ++ CRLF.

(** A token can be forwarded unresolved. The last scan of the rewritten
    head stops 256 bytes after the length of the original head, so a credential
    longer than that moves a later header with a token out of it; with a short
    first header the same header is refused. *)
Theorem long_credential_hides_a_token :
  rewrite_http_header_block 0 (long_request (lit "Accept: a")) (Some long_resolver)
  = Err (Unresolved (lit "header") Unavailable)
  ∧ (let out := rewrite_http_header_block 0
       (long_request (lit "Authorization: Bearer openshell:resolve:env:v1_KEY"))
       (Some long_resolver) in
     match out with
     | Ok out => contains_sub unresolved_header (rewritten out)
     | Err _ => false
     end = true).
Proof. split; vm_compute; reflexivity. Qed.

(** With encoded slashes allowed, the policy's path is not the path on the
    wire. The canonical path has two segments. In the target the policy sees,
    the segment with the token is decoded and not encoded again, so that it has
    three; the forwarded target has two. *)
Theorem redaction_splits_a_segment :
  let opts := PathCanon.Build_CanonicalizeOptions true true in
  let target := lit "/bot%2F" ++ Sample.token ++ lit "/send" in
  (∃ c, PathCanon.canonicalize_raw_path target opts = Ok c ∧ PathCanon.path c = target)
  ∧ redact_target_for_policy 0 target = Ok (lit "/bot/[CREDENTIAL]/send")
  ∧ (∃ out, rewrite_target_for_eval 0 target Sample.resolver = Ok out
       ∧ resolved out = lit "/bot%2Fsk-1/send").
Proof.
  split; [|split].
  - eexists. split; vm_compute; reflexivity.
  - vm_compute. reflexivity.
  - eexists. split; vm_compute; reflexivity.
Qed.
