(* ===== verification/SecretsBody.v ===== *)
(** * SecretsBody: credential tokens in bodies that are not rewritten
    (crates/openshell-core/src/secrets_body.rs)

    A body whose endpoint does not rewrite credentials is streamed through a
    guard, which withholds what may be a token until it has seen all of it and
    forwards it only if a classifier, which holds no secrets, allows it. *)

From stdpp Require Import gmap.
From S2P Require Import Prelude IpParse Order Text Base64 Secrets.
Import Secrets.

Local Open Scope Z_scope.

Module SecretsBody.

Inductive BodyCredentialError : Type :=
| KnownUnavailable | ClassificationUnavailable | InvalidToken | TokenTooLong | Trailer.

(** ** The classifier *)

Record ValueStatus := value_status { valid : bool; status_expires_at_ms : Z }.

Record BodyCredentialClassifier := classifier_of {
  values : gmap bytes ValueStatus;
  known : gset bytes;
  bound : gset bytes;
  revisions : gmap bytes (gset Z);
}.

(** The loop over the resolver's entries adds each one's key and its status. *)
Definition new_classifier (resolver : option SecretResolver) (known bound : gset bytes)
  (revisions : gmap bytes (gset Z)) : BodyCredentialClassifier :=
  match resolver with
  | None => classifier_of ∅ known bound revisions
  | Some r =>
      classifier_of
        ((λ v, value_status (is_some (validate_resolved_secret (secret_value v)))
                 (expires_at_ms v)) <$> by_placeholder r)
        (known ∪ list_to_set (omap (λ entry, placeholder_env_key entry.1)
                                (map_to_list (by_placeholder r))))
        bound revisions
  end.

Section Check.
Context (now : Z).

(** [check] of a token that is no alias. An alias is checked as the canonical
    token of its key, which is none: [check_alias] shows the call does not
    recur again. *)
Definition check_canonical (c : BodyCredentialClassifier) (token : bytes)
  : result unit BodyCredentialError :=
  match placeholder_env_key token with
  | None => Err InvalidToken
  | Some key =>
      if negb (is_env_key key) then Err InvalidToken
      else
      let suffix := strip_prefix PLACEHOLDER_PREFIX token in
      let revision := revisioned_placeholder_parts token in
      let stable := stable_placeholder_parts token in
      if match suffix with
         | Some suffix => is_some (split_revisioned_env_key suffix) && negb (is_some revision)
         | None => false
         end
      then Err InvalidToken
      else if match suffix with
         | Some suffix =>
             match split_once 95 suffix with
             | Some (identity, underlying) =>
                 (starts_with [118] identity || starts_with [115] identity)
                 && bool_decide (underlying ∈ known c)
                 && negb (is_some revision) && negb (is_some stable)
             | None => false
             end
         | None => false
         end
      then Err KnownUnavailable
      else if negb (bool_decide (key ∈ known c)) then Ok tt
      else if negb (bool_decide (key ∈ bound c)) then Err KnownUnavailable
      else if negb (is_some revision) && negb (is_some stable) then Err KnownUnavailable
      else if match revision with
         | Some (n, _) =>
             match revisions c !! key with
             | Some allowed => negb (bool_decide (n ∈ allowed))
             | None => true
             end
         | None => false
         end
      then Err KnownUnavailable
      else match or_else (values c !! token)
                   (if is_some revision then values c !! placeholder_for_env_key key else None) with
      | None => Err KnownUnavailable
      | Some value =>
          if negb (valid value)
             || ((0 <? status_expires_at_ms value) && (status_expires_at_ms value <=? now))
          then Err KnownUnavailable else Ok tt
      end
  end.

Definition check (c : BodyCredentialClassifier) (token : bytes) : result unit BodyCredentialError :=
  check_canonical c (canonical_token token).

(** ** The guard *)

Definition MAX_BODY_TOKEN_BYTES : nat := 4096.

Record BodyPlaceholderGuard := guard_of {
  pending : bytes;
  guard_classifier : option BodyCredentialClassifier;
  previous_decoded : option Z;
}.

Definition new_guard (classifier : option BodyCredentialClassifier) : BodyPlaceholderGuard :=
  guard_of [] classifier None.

(** The decoded bytes of a piece of wire, each with the number of wire bytes it
    stands for. Before the end of the body a percent sign waits for the two
    bytes after it. *)
Fixpoint decode_wire (eof : bool) (wire : bytes) : list (Z * nat) :=
  match wire with
  | [] => []
  | b :: rest =>
      if b =? 37 then
        match rest with
        | h :: l :: rest' =>
            match hex_digit h, hex_digit l with
            | Some hi, Some lo => (hi * 16 + lo, 3%nat) :: decode_wire eof rest'
            | _, _ => (37, 1%nat) :: decode_wire eof rest
            end
        | _ => if eof then (37, 1%nat) :: decode_wire eof rest else []
        end
      else (b, 1%nat) :: decode_wire eof rest
  end.

(** The wire offset of each decoded byte, and the one after the last. *)
Fixpoint offsets_from (at_ : nat) (items : list (Z * nat)) : list nat :=
  match items with
  | [] => [at_]
  | (_, n) :: items => at_ :: offsets_from (at_ + n) items
  end.
(** [offsets[i]]; there is one more offset than decoded bytes. *)
Definition offset (items : list (Z * nat)) (i : nat) : nat :=
  default 0%nat (offsets_from 0 items !! i).

(** The key chars of a token: adjacent canonical tokens are separate. *)
Fixpoint key_run (first : bool) (s : bytes) : nat :=
  match s with
  | b :: s' =>
      if is_env_key_char b
      then if negb first && starts_with PLACEHOLDER_PREFIX s then 0%nat else S (key_run false s')
      else 0%nat
  | [] => 0%nat
  end.

(** What a byte before an alias marker must be. *)
Definition alias_prefix_ok (previous : option Z) : bool :=
  match previous with Some b => is_alias_token_char b | None => false end.

(** The checks of one complete token, from [start] to [token_end]. *)
Definition check_token (g : BodyPlaceholderGuard) (decoded : bytes) (alias : bool)
  (start key_start token_end : nat) : result unit BodyCredentialError :=
  if Nat.eqb token_end key_start then Err InvalidToken
  else if alias && negb (alias_ends_at decoded token_end) then Err InvalidToken
  else if alias && negb (alias_prefix_ok
            (match start with O => previous_decoded g | S i => decoded !! i end))
  then Err InvalidToken
  else
    let text := take (token_end - start) (drop start decoded) in
    if negb (utf8_valid text) then Err InvalidToken
    else match guard_classifier g with
    | None => Err ClassificationUnavailable
    | Some c => check c (if alias then 120 :: text else text)
    end.

(** Whether a marker starts at a position, and where the key and the token of
    one end. *)
Definition canonical_at (decoded : bytes) (pos : nat) : bool :=
  starts_with PLACEHOLDER_PREFIX (drop pos decoded).
Definition alias_at (decoded : bytes) (pos : nat) : bool :=
  starts_with PROVIDER_ALIAS_MARKER (drop pos decoded).
Definition key_start_at (decoded : bytes) (pos : nat) : nat :=
  (pos + (if canonical_at decoded pos then length PLACEHOLDER_PREFIX
          else length PROVIDER_ALIAS_MARKER))%nat.
Definition token_end_at (decoded : bytes) (pos : nat) : nat :=
  let key_start := key_start_at decoded pos in
  (key_start + key_run true (drop key_start decoded))%nat.

(** The scan of [release]: how many wire bytes may be released. *)
Fixpoint scan (fuel : nat) (g : BodyPlaceholderGuard) (eof : bool) (items : list (Z * nat))
  (decoded : bytes) (pos safe : nat) : result nat BodyCredentialError :=
  match fuel with
  | O => Ok safe
  | S fuel =>
      if Nat.ltb pos (length decoded) then
        let alias := alias_at decoded pos in
        if negb (canonical_at decoded pos) && negb alias
        then scan fuel g eof items decoded (S pos) safe
        else
          let key_start := key_start_at decoded pos in
          let token_end := token_end_at decoded pos in
          if Nat.ltb MAX_BODY_TOKEN_BYTES (offset items token_end - offset items pos)
          then Err TokenTooLong
          else if Nat.eqb token_end (length decoded) && negb eof then
            if negb (is_some (guard_classifier g)) then Err ClassificationUnavailable
            else Ok (Nat.min safe (offset items pos))
          else
            let? _ := check_token g decoded alias pos key_start token_end in
            scan fuel g eof items decoded token_end (Nat.max safe (offset items token_end))
      else Ok safe
  end.

(** [partition_point] of a list whose elements up to a bound come first. *)
Fixpoint partition_point (f : nat → bool) (l : list nat) : nat :=
  match l with
  | x :: l => if f x then S (partition_point f l) else 0%nat
  | [] => 0%nat
  end.

(** The bytes released, and the guard after it. *)
Definition release (g : BodyPlaceholderGuard) (eof : bool)
  : result (bytes * BodyPlaceholderGuard) BodyCredentialError :=
  let items := decode_wire eof (pending g) in
  let decoded := map fst items in
  let offsets := offsets_from 0 items in
  let wire := offset items (length items) in
  let safe := if eof then wire else (wire - CREDENTIAL_MARKER_SCAN_TAIL_BYTES)%nat in
  let? safe := scan (S (length decoded)) g eof items decoded 0 safe in
  let index := (partition_point (λ offset, Nat.leb offset safe) offsets - 1)%nat in
  let safe := offset items index in
  Ok (take safe (pending g),
      guard_of (drop safe (pending g)) (guard_classifier g)
        (match index with O => previous_decoded g | S i => decoded !! i end)).

(** [slice::chunks]. *)
Fixpoint chunks_fuel (fuel n : nat) (s : bytes) : list bytes :=
  match fuel, s with
  | S fuel, _ :: _ => take n s :: chunks_fuel fuel n (drop n s)
  | _, _ => []
  end.
(** A chunk has a byte at least, so the length is enough fuel. *)
Definition chunks (n : nat) (s : bytes) : list bytes := chunks_fuel (length s) n s.

Fixpoint push_blocks (g : BodyPlaceholderGuard) (blocks : list bytes)
  : result (bytes * BodyPlaceholderGuard) BodyCredentialError :=
  match blocks with
  | [] => Ok ([], g)
  | block :: blocks =>
      let? released := release (guard_of (pending g ++ block) (guard_classifier g)
                                  (previous_decoded g)) false in
      let? rest := push_blocks released.2 blocks in
      Ok (released.1 ++ rest.1, rest.2)
  end.
Definition push (g : BodyPlaceholderGuard) (input : bytes)
  : result (bytes * BodyPlaceholderGuard) BodyCredentialError :=
  push_blocks g (chunks MAX_BODY_TOKEN_BYTES input).

Definition finish (g : BodyPlaceholderGuard) : result bytes BodyCredentialError :=
  let? released := release g true in
  Ok released.1.
End Check.
End SecretsBody.
