(* ===== verification/SecretsBodyFacts.v ===== *)
(** * SecretsBodyFacts: the body guard does what one scan of the body does

    The guard releases exactly the bytes it is given, keeps a bounded number of
    them, and accepts a body in pieces only if it accepts the body as a whole,
    provided no token directly follows another. *)

From stdpp Require Import gmap.
From S2P Require Import Prelude IpParse Order Text Base64 Secrets SecretsFacts SecretsBody.
From Stdlib Require Import ZifyBool.
Import Secrets SecretsBody.

(** ** Aliases *)

(** The key of an alias has no hyphen, so its canonical token is no alias. *)
Lemma check_alias token key :
  alias_env_key token = Some key → alias_env_key (placeholder_for_env_key key) = None.
Proof.
  intros Hk. assert (is_env_key key = true) as He.
  { unfold alias_env_key in Hk. destruct (find_sub _ token) as [[|m]|]; [done| |done].
    destruct (negb _); [done|]. destruct (is_env_key _) eqn:E; [|done]. by injection Hk as <-. }
  clear Hk. unfold is_env_key in He. apply andb_true_iff in He as [_ He].
  unfold alias_env_key. destruct (find_sub _ _) as [m|] eqn:Hf; [|done]. exfalso.
  destruct (find_sub_Some _ _ _ Hf) as (b & Hs & _).
  assert (45 ∈ placeholder_for_env_key key) as Hin.
  { rewrite Hs, !elem_of_app. right. left. apply contains_byte_spec. reflexivity. }
  unfold placeholder_for_env_key in Hin. apply elem_of_app in Hin as [Hin|Hin].
  - by apply contains_byte_spec in Hin.
  - rewrite forallb_elem in He. by apply He in Hin.
Qed.

(** ** Decoding the wire *)

(** The wire bytes of a list of decoded ones. *)
Definition width (items : list (Z * nat)) : nat := sum_list (map snd items).

Lemma width_app a b : width (a ++ b) = (width a + width b)%nat.
Proof. unfold width. rewrite map_app. apply sum_list_with_app. Qed.

Lemma offset_width items i : (i ≤ length items)%nat → offset items i = width (take i items).
Proof.
  unfold offset. enough (∀ n, (i ≤ length items)%nat →
    default 0%nat (offsets_from n items !! i) = (n + width (take i items))%nat) as H
    by (intros; by rewrite H).
  revert i. induction items as [|[b k] items IH]; intros [|i] n Hi; cbn in *; try lia.
  rewrite IH by lia. unfold width. cbn. lia.
Qed.

(** Every decoded byte stands for one to three wire bytes. *)
Definition item_ok (item : Z * nat) : Prop := (1 ≤ item.2 ≤ 3)%nat.

(** The first decoded byte of a piece of wire. *)
Definition first_item (eof : bool) (w : bytes) : option (Z * nat) :=
  match w with
  | [] => None
  | b :: rest =>
      if b =? 37 then
        match rest with
        | h :: l :: _ =>
            match hex_digit h, hex_digit l with
            | Some hi, Some lo => Some (hi * 16 + lo, 3%nat)
            | _, _ => Some (37, 1%nat)
            end
        | _ => if eof then Some (37, 1%nat) else None
        end
      else Some (b, 1%nat)
  end.

Lemma decode_wire_step eof w :
  decode_wire eof w = match first_item eof w with
                      | Some item => item :: decode_wire eof (drop item.2 w)
                      | None => []
                      end.
Proof.
  destruct w as [|b rest]; [done|]. cbn [decode_wire first_item].
  destruct (b =? 37); [|done].
  destruct rest as [|h [|l rest]]; [by destruct eof..|].
  by destruct (hex_digit h), (hex_digit l).
Qed.

Lemma first_item_ok eof w item :
  first_item eof w = Some item → item_ok item ∧ (item.2 ≤ length w)%nat.
Proof.
  unfold first_item, item_ok. intros H. repeat case_match; simplify_eq; cbn; lia.
Qed.
Lemma first_item_app w x item : first_item false w = Some item → first_item true (w ++ x) = Some item.
Proof.
  destruct w as [|b [|h [|l w]]]; cbn [first_item app]; try done; destruct (b =? 37); done.
Qed.
Lemma first_item_None eof w : first_item eof w = None → (length w ≤ if eof then 0 else 2)%nat.
Proof.
  unfold first_item. intros H. repeat case_match; simplify_eq; cbn; lia.
Qed.

(** Induction along the decoded bytes. *)
Lemma wire_ind eof (P : bytes → Prop) :
  (∀ w, first_item eof w = None → P w) →
  (∀ w item, first_item eof w = Some item → P (drop item.2 w) → P w) → ∀ w, P w.
Proof.
  intros H0 HS w. remember (length w) as n eqn:Hn. revert w Hn.
  induction (lt_wf n) as [n _ IH]; intros w ->.
  destruct (first_item eof w) as [item|] eqn:E; [|by apply H0].
  apply (HS w item E). destruct (first_item_ok _ _ _ E) as [[? ?] ?].
  eapply IH; [|done]. rewrite length_drop. lia.
Qed.

Lemma decode_wire_items eof w : Forall item_ok (decode_wire eof w).
Proof.
  induction w as [w E|w item E IH] using (wire_ind eof); rewrite decode_wire_step, E; constructor;
    [by apply first_item_ok in E as [? _]|done].
Qed.

Lemma width_cons item items : width (item :: items) = (item.2 + width items)%nat.
Proof. done. Qed.

Lemma width_bounds items : Forall item_ok items →
  (length items ≤ width items ≤ 3 * length items)%nat.
Proof.
  induction 1 as [|item items Hk _ IH]; [done|]. rewrite width_cons. unfold item_ok in Hk.
  cbn [length]. lia.
Qed.

Lemma decode_wire_width w : width (decode_wire true w) = length w.
Proof.
  induction w as [w E|w item E IH] using (wire_ind true); rewrite decode_wire_step, E.
  - apply first_item_None in E. unfold width. cbn. lia.
  - rewrite width_cons, IH, length_drop. apply first_item_ok in E as [_ ?]. lia.
Qed.

(** A prefix of the wire decodes to a prefix of the items, but for an
    incomplete escape at its end. *)
Lemma decode_wire_prefix w x :
  (∃ rest, decode_wire true (w ++ x) = decode_wire false w ++ rest)
  ∧ (width (decode_wire false w) ≤ length w ≤ width (decode_wire false w) + 2)%nat.
Proof.
  induction w as [w E|w item E IH] using (wire_ind false); rewrite (decode_wire_step false), E.
  - apply first_item_None in E. split; [by eexists|]. unfold width. cbn. lia.
  - destruct IH as [[rest Hr] Hw]. destruct (first_item_ok _ _ _ E) as [_ Hl].
    rewrite length_drop in Hw. rewrite width_cons. split; [|lia]. exists rest.
    rewrite decode_wire_step, (first_item_app w x item E), drop_app_le, Hr by done. done.
Qed.

(** Cutting the wire between two decoded bytes. *)
Lemma decode_wire_cut w k :
  (k ≤ length (decode_wire true w))%nat →
  decode_wire true (drop (width (take k (decode_wire true w))) w) = drop k (decode_wire true w).
Proof.
  revert w. induction k as [|k IH]; intros w Hk; [done|].
  rewrite (decode_wire_step true w) in Hk |- *. destruct (first_item true w) as [item|] eqn:E.
  - cbn [take drop length] in *. rewrite width_cons, <- drop_drop. apply IH. lia.
  - cbn in Hk. lia.
Qed.

(** ** Tokens of a decoded body *)

Lemma marker_in s pos :
  canonical_at s pos || alias_at s pos = true → (pos < key_start_at s pos ≤ length s)%nat
    ∧ (key_start_at s pos = pos + 22)%nat.
Proof.
  unfold key_start_at, canonical_at, alias_at.
  assert (length PLACEHOLDER_PREFIX = 22%nat ∧ length PROVIDER_ALIAS_MARKER = 22%nat) as [H1 H2] by done.
  rewrite H1, H2. rewrite orb_true_iff.
  intros [H|H]; destruct (starts_with_length _ _ _ H) as [?|?]; try done;
    destruct (starts_with PLACEHOLDER_PREFIX (drop pos s)); lia.
Qed.

Lemma key_run_le first s : (key_run first s ≤ length s)%nat.
Proof.
  revert first. induction s as [|b s IH]; intros first; cbn; [done|].
  repeat case_match; try lia. specialize (IH false). lia.
Qed.

Lemma token_end_bounds s pos :
  canonical_at s pos || alias_at s pos = true → (pos < token_end_at s pos ≤ length s)%nat.
Proof.
  intros H. destruct (marker_in s pos H) as [? ?]. unfold token_end_at.
  pose proof (key_run_le true (drop (key_start_at s pos) s)). rewrite length_drop in *. lia.
Qed.

(** No token directly follows another: no canonical marker begins inside the
    run of key chars after the marker of a token. *)
Definition separated (s : bytes) : Prop :=
  ∀ p i, canonical_at s p || alias_at s p = true →
    (key_start_at s p < i < key_start_at s p
       + run_len is_env_key_char (drop (key_start_at s p) s))%nat →
    canonical_at s i = false.

(** It can be checked position by position. *)
Lemma separated_check s :
  forallb (λ p, negb (canonical_at s p || alias_at s p)
    || forallb (λ i, negb (canonical_at s i))
         (seq (S (key_start_at s p)) (run_len is_env_key_char (drop (key_start_at s p) s))))
    (seq 0 (length s)) = true → separated s.
Proof.
  rewrite forallb_elem. intros H p i Hm Hi. pose proof (marker_in s p Hm) as [Hp _].
  specialize (H p ltac:(apply elem_of_seq; lia)). rewrite Hm in H. cbn [negb orb] in H.
  rewrite forallb_elem in H. apply negb_true_iff, H, elem_of_seq. lia.
Qed.

Lemma key_run_run first t :
  (∀ j, (j < run_len is_env_key_char t)%nat → (j = 0)%nat ∧ first = true
     ∨ starts_with PLACEHOLDER_PREFIX (drop j t) = false) →
  key_run first t = run_len is_env_key_char t.
Proof.
  revert first. induction t as [|b t IH]; intros first H; [done|]. cbn [key_run run_len] in *.
  destruct (is_env_key_char b) eqn:Hb; [|done].
  assert (negb first && starts_with PLACEHOLDER_PREFIX (b :: t) = false) as ->.
  { destruct (H 0%nat ltac:(lia)) as [[_ ->]|H0]; [done|]. apply andb_false_iff. by right. }
  f_equal. apply IH. intros j Hj. right.
  destruct (H (S j) ltac:(lia)) as [[? _]|H0]; [lia|done].
Qed.

Lemma key_run_separated s p :
  separated s → canonical_at s p || alias_at s p = true →
  key_run true (drop (key_start_at s p) s)
  = run_len is_env_key_char (drop (key_start_at s p) s).
Proof.
  intros Hs Hm. apply key_run_run. intros [|j] Hj; [by left|right].
  rewrite drop_drop. apply (Hs p); [done|lia].
Qed.

Lemma run_len_app f x y : (run_len f x < length x)%nat → run_len f (x ++ y) = run_len f x.
Proof.
  induction x as [|b x IH]; cbn [run_len length app]; [lia|]. intros Hl.
  destruct (f b); [|done]. f_equal. apply IH. lia.
Qed.

(** A piece [d] of a body [s], from [a] on. *)
Definition piece (s : bytes) (a : nat) (d : bytes) : Prop := ∃ rest, drop a s = d ++ rest.

Lemma piece_lookup s a d i : piece s a d → (i < length d)%nat → s !! (a + i)%nat = d !! i.
Proof. intros [rest H] Hi. rewrite <- lookup_drop, H. by apply lookup_app_l. Qed.
Lemma piece_drop s a d p : piece s a d → (p ≤ length d)%nat →
  ∃ rest, drop (a + p) s = drop p d ++ rest.
Proof. intros [rest H] Hp. exists rest. by rewrite <- drop_drop, H, drop_app_le. Qed.

Lemma starts_with_piece m s a d p :
  piece s a d → (p + length m ≤ length d)%nat →
  starts_with m (drop (a + p) s) = starts_with m (drop p d).
Proof.
  intros Hd Hl. destruct (piece_drop _ _ _ p Hd ltac:(lia)) as [rest ->].
  assert (length m ≤ length (drop p d))%nat as Hm by (rewrite length_drop; lia).
  clear -Hm. revert Hm. generalize (drop p d). unfold starts_with.
  induction m as [|x m IH]; intros [|y t] Hm; cbn in *; [done..|lia|].
  destruct (x =? y); [|done]. apply IH. lia.
Qed.

Lemma starts_with_piece_true m s a d p :
  piece s a d → (p ≤ length d)%nat → starts_with m (drop p d) = true →
  starts_with m (drop (a + p) s) = true.
Proof.
  intros Hd Hp H. destruct (piece_drop _ _ _ p Hd Hp) as [rest ->]. by apply starts_with_app.
Qed.
Lemma markers_piece s a d p :
  piece s a d → (p + 22 ≤ length d)%nat →
  canonical_at s (a + p) = canonical_at d p ∧ alias_at s (a + p) = alias_at d p
  ∧ key_start_at s (a + p) = (a + key_start_at d p)%nat.
Proof.
  intros Hd Hp. unfold key_start_at, canonical_at, alias_at.
  rewrite !(starts_with_piece _ s a d p Hd) by exact Hp. split_and!; [done..|].
  destruct (starts_with _ _); cbn; lia.
Qed.

Lemma run_len_grows f x y : (run_len f x ≤ run_len f (x ++ y))%nat.
Proof. induction x as [|b x IH]; cbn [run_len app]; [lia|]. destruct (f b); lia. Qed.

Lemma separated_piece s a d : piece s a d → separated s → separated d.
Proof.
  intros Hd Hs p i Hm Hi. destruct (canonical_at d i) eqn:E; [|done].
  destruct (marker_in d p Hm) as [Hks Hks22].
  destruct (markers_piece s a d p Hd ltac:(lia)) as (Hc & Ha & Hk).
  destruct (piece_drop _ _ _ (key_start_at d p) Hd ltac:(lia)) as [rest Hrest].
  pose proof (run_len_grows is_env_key_char (drop (key_start_at d p) d) rest) as Hle.
  pose proof (run_len_le is_env_key_char (drop (key_start_at d p) d)) as Hlen.
  rewrite length_drop in Hlen.
  rewrite <- (Hs (a + p)%nat (a + i)%nat); [|by rewrite Hc, Ha|rewrite Hk, Hrest; lia].
  symmetry. apply (starts_with_piece_true _ _ _ d); [done|lia|done].
Qed.

(** A token complete in a piece is that token of the body. *)
Lemma token_piece s a d p :
  piece s a d → separated s → canonical_at d p || alias_at d p = true →
  (token_end_at d p < length d)%nat → token_end_at s (a + p) = (a + token_end_at d p)%nat.
Proof.
  intros Hd Hs Hm He. destruct (marker_in d p Hm) as [Hks Hks22].
  destruct (markers_piece s a d p Hd ltac:(lia)) as (Hcs & Has & Hk).
  pose proof (separated_piece _ _ _ Hd Hs) as Hsd. unfold token_end_at in *. rewrite Hk in *.
  rewrite (key_run_separated d p Hsd Hm) in *.
  assert (canonical_at s (a + p) || alias_at s (a + p) = true) as Hms by (by rewrite Hcs, Has).
  pose proof (key_run_separated s _ Hs Hms) as Hrun. rewrite Hk in Hrun. rewrite Hrun.
  destruct (piece_drop _ _ _ (key_start_at d p) Hd ltac:(lia)) as [rest ->].
  rewrite run_len_app; [lia|]. rewrite length_drop. lia.
Qed.

(** The byte before a position, that of the pieces released before included. *)
Definition byte_before (s : bytes) (i : nat) : option Z :=
  match i with O => None | S j => s !! j end.

Lemma check_token_piece now cl s a d w w' prev alias p ks te :
  piece s a d → prev = byte_before s a → (p < te ≤ length d)%nat → s !! (a + te)%nat = d !! te →
  check_token now (guard_of w cl prev) d alias p ks te
  = check_token now (guard_of w' cl None) s alias (a + p) (a + ks) (a + te).
Proof.
  intros Hd -> Hp Hend. unfold check_token, guard_classifier, previous_decoded.
  assert (Nat.eqb (a + te) (a + ks) = Nat.eqb te ks) as -> by lia.
  assert (alias_ends_at s (a + te) = alias_ends_at d te) as ->
    by (unfold alias_ends_at; by rewrite Hend).
  assert (match p with O => byte_before s a | S i => d !! i end
          = match (a + p)%nat with O => None | S i => s !! i end) as ->.
  { destruct p as [|p]; [rewrite Nat.add_0_r; by destruct a|].
    replace (a + S p)%nat with (S (a + p)) by lia. by rewrite (piece_lookup s a d p Hd) by lia. }
  destruct (piece_drop _ _ _ p Hd ltac:(lia)) as [rest ->].
  replace (a + te - (a + p))%nat with (te - p)%nat by lia.
  by rewrite take_app_le by (rewrite length_drop; lia).
Qed.

(** ** What one scan of a whole body accepts *)

Section accepts.
Context (now : Z) (cl : option BodyCredentialClassifier) (items : list (Z * nat)).
Definition decoded_of : bytes := map fst items.

(** From a position on, every token is short enough and allowed. *)
Inductive Accepts : nat → Prop :=
| acc_end pos : (length decoded_of ≤ pos)%nat → Accepts pos
| acc_skip pos :
    canonical_at decoded_of pos || alias_at decoded_of pos = false → Accepts (S pos) → Accepts pos
| acc_token pos :
    canonical_at decoded_of pos || alias_at decoded_of pos = true →
    (offset items (token_end_at decoded_of pos) - offset items pos ≤ MAX_BODY_TOKEN_BYTES)%nat →
    check_token now (guard_of [] cl None) decoded_of (alias_at decoded_of pos) pos
      (key_start_at decoded_of pos) (token_end_at decoded_of pos) = Ok tt →
    Accepts (token_end_at decoded_of pos) → Accepts pos.

(** It is what the scan at the end of the body decides. *)
Lemma scan_accepts fuel w pos safe :
  (length decoded_of - pos < fuel)%nat →
  (∃ s, scan now fuel (guard_of w cl None) true items decoded_of pos safe = Ok s) ↔ Accepts pos.
Proof.
  revert pos safe. induction fuel as [|fuel IH]; intros pos safe Hf; cbn [scan]; [lia|].
  destruct (Nat.ltb_spec pos (length decoded_of)) as [Hpos|Hpos].
  2: { split; [|by eexists]. intros _. by constructor. }
  rewrite <- negb_orb. destruct (canonical_at _ pos || alias_at _ pos) eqn:Hm; cbn [negb].
  - pose proof (token_end_bounds _ _ Hm) as Hb. rewrite andb_false_r.
    assert (∀ w, check_token now (guard_of w cl None) decoded_of (alias_at decoded_of pos) pos
      (key_start_at decoded_of pos) (token_end_at decoded_of pos)
      = check_token now (guard_of [] cl None) decoded_of (alias_at decoded_of pos) pos
      (key_start_at decoded_of pos) (token_end_at decoded_of pos)) as -> by done.
    destruct (Nat.ltb_spec MAX_BODY_TOKEN_BYTES
      (offset items (token_end_at decoded_of pos) - offset items pos)) as [Hlong|Hshort].
    + split; [by intros [? ?]|]. intros Ha. inversion Ha; subst; try congruence; lia.
    + destruct (check_token _ _ _ _ _ _ _) as [[]|e] eqn:Hc.
      * rewrite IH by lia. split; [by intros; apply acc_token|].
        intros Ha. inversion Ha; subst; try congruence; done || lia.
      * split; [by intros [? ?]|]. intros Ha. inversion Ha; subst; try congruence; lia.
  - rewrite IH by lia. split; [by intros; apply acc_skip|].
    intros Ha. inversion Ha; subst; try congruence; done || lia.
Qed.
End accepts.

(** ** Offsets *)

Lemma offset_gap items i j : Forall item_ok items → (i ≤ j ≤ length items)%nat →
  (offset items i + (j - i) ≤ offset items j ≤ offset items i + 3 * (j - i))%nat.
Proof.
  intros Hok Hij. rewrite !offset_width by lia.
  assert (take j items = take i items ++ take (j - i) (drop i items)) as ->.
  { rewrite <- (take_drop i (take j items)) at 1. rewrite take_take, Nat.min_l by lia.
    by rewrite take_drop_commute, Nat.add_comm, Nat.sub_add by lia. }
  rewrite width_app.
  pose proof (width_bounds (take (j - i) (drop i items))) as Hw.
  rewrite length_take, length_drop in Hw.
  specialize (Hw ltac:(apply Forall_take, Forall_drop, Hok)). lia.
Qed.

(** [k] is the last of the decoded bytes that start within [safe] wire bytes. *)
Definition last_within (items : list (Z * nat)) (safe k : nat) : Prop :=
  (k ≤ length items)%nat ∧ (offset items k ≤ safe)%nat
  ∧ ∀ j, (k < j ≤ length items)%nat → (safe < offset items j)%nat.

Lemma offsets_length n items : length (offsets_from n items) = S (length items).
Proof. revert n. induction items as [|[b k] items IH]; intros n; cbn; [done|]. by rewrite IH. Qed.

Lemma partition_point_spec f l :
  (partition_point f l ≤ length l)%nat
  ∧ (∀ i x, l !! i = Some x → (i < partition_point f l)%nat → f x = true)
  ∧ ∀ x, l !! partition_point f l = Some x → f x = false.
Proof.
  induction l as [|y l (IH1 & IH2 & IH3)]; cbn [partition_point length]; [split_and!; [lia|done|done]|].
  destruct (f y) eqn:E; split_and!; [lia| |done|lia|intros; lia|intros x [= <-]; done].
  intros [|i] x Hi Hl; cbn in Hi; [by simplify_eq|]. apply (IH2 i x Hi). lia.
Qed.

Lemma index_spec items safe :
  Forall item_ok items →
  last_within items safe
    (partition_point (λ o, Nat.leb o safe) (offsets_from 0 items) - 1)%nat.
Proof.
  intros Hok. set (f := λ o, Nat.leb o safe). set (l := offsets_from 0 items).
  destruct (partition_point_spec f l) as (H1 & H2 & H3).
  assert (∀ i, (i ≤ length items)%nat → l !! i = Some (offset items i)) as Hl.
  { intros i Hi. unfold offset. fold l. destruct (lookup_lt_is_Some_2 l i) as [x ->]; [|done].
    unfold l. rewrite offsets_length. lia. }
  unfold l in H1. rewrite offsets_length in H1. fold l in H1.
  assert (0 < partition_point f l)%nat as Hpos.
  { destruct (partition_point f l) as [|n] eqn:E; [|lia].
    specialize (H3 (offset items 0) (Hl 0%nat ltac:(lia))). rewrite offset_width in H3 by lia.
    done. }
  split_and!; [lia| |].
  - specialize (H2 _ _ (Hl (partition_point f l - 1)%nat ltac:(lia)) ltac:(lia)).
    by apply Nat.leb_le in H2.
  - intros j Hj. destruct (decide (partition_point f l ≤ length items)%nat) as [Hle|]; [|lia].
    specialize (H3 _ (Hl _ Hle)). apply Nat.leb_gt in H3.
    pose proof (offset_gap items (partition_point f l) j Hok ltac:(lia)). lia.
Qed.

(** ** Scanning a piece *)

Section pieces.
Context (now : Z) (cl : option BodyCredentialClassifier).
Context (whole items : list (Z * nat)) (a : nat).
Context (Hok : Forall item_ok items).
Context (Hpiece : ∃ rest, drop a whole = items ++ rest).
Let s : bytes := decoded_of whole.
Let d : bytes := decoded_of items.
Context (Hsep : separated s).
Context (w : bytes).
Let g : BodyPlaceholderGuard := guard_of w cl (byte_before s a).
Let wire : nat := offset items (length items).

Lemma piece_decoded : piece s a d.
Proof.
  destruct Hpiece as [rest H]. exists (map fst rest). unfold s, d, decoded_of.
  rewrite <- map_app, <- H. by rewrite <- skipn_map.
Qed.
Lemma length_d : length d = length items.
Proof. apply length_map. Qed.

Lemma offset_piece i j : (i ≤ j ≤ length items)%nat →
  (offset whole (a + j) - offset whole (a + i) = offset items j - offset items i)%nat.
Proof.
  intros Hij. destruct Hpiece as [rest H].
  assert (length (drop a whole) = length items + length rest)%nat as Hl
    by (rewrite H; apply length_app). rewrite length_drop in Hl.
  destruct (decide (length whole ≤ a)%nat) as [Hle|Hgt].
  { assert (length items = 0%nat) by lia. replace j with i by lia. lia. }
  rewrite !offset_width by lia.
  assert (∀ n, (n ≤ length items)%nat → take (a + n) whole = take a whole ++ take n items) as Ht.
  { intros m Hm. rewrite <- (take_drop a whole) at 1.
    rewrite take_app_ge by (rewrite length_take; lia).
    rewrite length_take, Nat.min_l by lia. replace (a + m - a)%nat with m by lia.
    by rewrite H, take_app_le by lia. }
  rewrite !Ht by lia. rewrite !width_app. lia.
Qed.

Lemma scan_upper fuel p safe safe' :
  scan now fuel g false items d p safe = Ok safe' →
  (safe' ≤ safe ∨ p + 22 ≤ length items)%nat.
Proof.
  revert p safe. induction fuel as [|fuel IH]; intros p safe; cbn [scan];
    [intros [= <-]; by left|].
  destruct (Nat.ltb p (length d)); [|intros [= <-]; by left].
  rewrite <- negb_orb. destruct (canonical_at d p || alias_at d p) eqn:Hm; cbn [negb].
  - intros _. right. destruct (marker_in d p Hm). rewrite length_d in *. lia.
  - intros H%IH. lia.
Qed.

Lemma scan_lower fuel p safe safe' x :
  (p ≤ length items)%nat → scan now fuel g false items d p safe = Ok safe' →
  (x ≤ safe)%nat → (x ≤ offset items p)%nat → (x ≤ safe')%nat.
Proof.
  revert p safe. induction fuel as [|fuel IH]; intros p safe Hp; cbn [scan]; [by intros [= <-]|].
  destruct (Nat.ltb_spec p (length d)) as [Hlt|]; [|by intros [= <-]]. rewrite length_d in Hlt.
  rewrite <- negb_orb. destruct (canonical_at d p || alias_at d p) eqn:Hm; cbn [negb].
  - pose proof (token_end_bounds _ _ Hm) as Hb. rewrite length_d in Hb.
    pose proof (offset_gap items p (token_end_at d p) Hok ltac:(lia)).
    destruct (Nat.ltb MAX_BODY_TOKEN_BYTES _); [done|].
    destruct (Nat.eqb (token_end_at d p) (length d)); cbn [negb andb].
    + destruct (negb _); [done|]. intros [= <-]. lia.
    + rewrite let_Ok. intros ([] & _ & Hgo) ? ?. eapply IH; [|exact Hgo|lia..]. lia.
  - intros Hgo ? ?. pose proof (offset_gap items p (S p) Hok ltac:(lia)).
    eapply IH; [|exact Hgo|lia..]. lia.
Qed.

(** What a scan of the piece lets through, the scan of the body accepts: up to
    the last byte it releases. *)
Lemma scan_back fuel p safe safe' k :
  (length items - p < fuel)%nat → (p ≤ length items)%nat →
  scan now fuel g false items d p safe = Ok safe' →
  (safe ≤ wire - CREDENTIAL_MARKER_SCAN_TAIL_BYTES ∨ safe ≤ offset items p)%nat →
  last_within items safe' k → (p ≤ k)%nat →
  Accepts now cl whole (a + k) → Accepts now cl whole (a + p).
Proof.
  intros Hf Hp Hscan Hsafe Hk. revert p safe Hf Hp Hscan Hsafe.
  induction fuel as [|fuel IH]; intros p safe Hf Hp; cbn [scan]; [lia|].
  intros Hscan Hsafe Hpk Hacc. destruct (decide (k = p)) as [->|Hne]; [done|].
  destruct Hk as (Hk1 & Hk2 & Hk3).
  assert (p < length items)%nat as Hlt by lia.
  rewrite (proj2 (Nat.ltb_lt p (length d))) in Hscan by (by rewrite length_d).
  rewrite <- negb_orb in Hscan.
  destruct (canonical_at d p || alias_at d p) eqn:Hm; cbn [negb] in Hscan.
  - pose proof (token_end_bounds _ _ Hm) as Hb. rewrite length_d in Hb.
    destruct (marker_in d p Hm) as [Hks Hks22]. rewrite length_d in Hks.
    destruct (Nat.ltb_spec MAX_BODY_TOKEN_BYTES (offset items (token_end_at d p) - offset items p))
      as [|Hshort]; [done|].
    destruct (Nat.eqb_spec (token_end_at d p) (length d)) as [He|He]; cbn [negb andb] in Hscan.
    { destruct (negb _); [done|]. injection Hscan as <-.
      pose proof (offset_gap items p k Hok ltac:(lia)). lia. }
    rewrite length_d in He. apply let_Ok in Hscan as ([] & Hcheck & Hscan).
    assert (offset items (token_end_at d p) ≤ safe')%nat as Hlow
      by (eapply scan_lower; [|exact Hscan|lia..]; lia).
    assert (token_end_at d p ≤ k)%nat as Hek.
    { destruct (decide (token_end_at d p ≤ k)%nat) as [|Hn]; [done|].
      specialize (Hk3 (token_end_at d p) ltac:(lia)). lia. }
    pose proof piece_decoded as Hpd.
    destruct (markers_piece s a d p Hpd ltac:(rewrite length_d; lia)) as (Hc & Ha & Hks').
    pose proof (token_piece s a d p Hpd Hsep Hm ltac:(rewrite length_d; lia)) as Hte.
    apply acc_token; fold s.
    + by rewrite Hc, Ha.
    + rewrite Hte, offset_piece by lia. done.
    + rewrite Ha, Hks', Hte. rewrite <- Hcheck. symmetry.
      apply check_token_piece; [done|done|rewrite length_d; lia|].
      apply (piece_lookup s a d); [done|rewrite length_d; lia].
    + rewrite Hte. pose proof (offset_gap items p (token_end_at d p) Hok ltac:(lia)).
      eapply IH; [| |exact Hscan| |done..]; lia.
  - assert (p + 22 ≤ length items)%nat as H22.
    { destruct (scan_upper _ _ _ _ Hscan) as [Hle|]; [|lia].
      pose proof (offset_gap items p k Hok ltac:(lia)).
      destruct Hsafe as [Hsafe|]; [|lia].
      pose proof (offset_gap items p (length items) Hok ltac:(lia)).
      assert (CREDENTIAL_MARKER_SCAN_TAIL_BYTES = 66%nat) as E66 by done.
      unfold wire in Hsafe. lia. }
    destruct (markers_piece s a d p piece_decoded ltac:(rewrite length_d; lia)) as (Hc & Ha & _).
    apply acc_skip; fold s; [by rewrite Hc, Ha|].
    replace (S (a + p)) with (a + S p)%nat by lia.
    pose proof (offset_gap items p (S p) Hok ltac:(lia)).
    eapply IH; [| |exact Hscan| | |exact Hacc]; lia.
Qed.
End pieces.

(** The scan at the end of the body, over what is left of it. *)
Lemma scan_suffix now cl whole a w fuel p safe safe' :
  let items := drop a whole in
  (length items - p < fuel)%nat →
  scan now fuel (guard_of w cl (byte_before (decoded_of whole) a)) true items
    (decoded_of items) p safe = Ok safe' →
  Accepts now cl whole (a + p).
Proof.
  intros items. revert p safe. set (d := decoded_of items). set (s := decoded_of whole).
  assert (drop a s = d) as Hd by (unfold s, d, items, decoded_of; by rewrite skipn_map).
  assert (∀ q, drop (a + q) s = drop q d) as Hdrop by (intros q; by rewrite <- drop_drop, Hd).
  assert (length d = length items) as Hlen by apply length_map.
  assert (length items = length s - a)%nat as Hl
    by (unfold items, s, decoded_of; by rewrite length_drop, length_map).
  induction fuel as [|fuel IH]; intros p safe Hf; cbn [scan]; [lia|].
  destruct (Nat.ltb_spec p (length d)) as [Hp|Hp].
  2: { intros _. apply acc_end. fold s. lia. }
  assert (canonical_at s (a + p) = canonical_at d p ∧ alias_at s (a + p) = alias_at d p) as [Hc Ha]
    by (unfold canonical_at, alias_at; by rewrite Hdrop).
  assert (key_start_at s (a + p) = a + key_start_at d p)%nat as Hks
    by (unfold key_start_at; rewrite Hc; lia).
  assert (token_end_at s (a + p) = a + token_end_at d p)%nat as Hte
    by (unfold token_end_at; rewrite Hks, Hdrop; lia).
  rewrite <- negb_orb. destruct (canonical_at d p || alias_at d p) eqn:Hm; cbn [negb].
  - pose proof (token_end_bounds _ _ Hm) as Hb. rewrite Hlen in *. rewrite andb_false_r.
    destruct (Nat.ltb_spec MAX_BODY_TOKEN_BYTES (offset items (token_end_at d p) - offset items p))
      as [|Hshort]; [done|].
    rewrite let_Ok. intros ([] & Hcheck & Hscan). apply acc_token; fold s.
    + by rewrite Hc, Ha.
    + rewrite Hte, offset_piece with (items := items); [done|exists []; by rewrite app_nil_r|lia].
    + rewrite Ha, Hks, Hte, <- Hcheck. symmetry.
      apply check_token_piece; [exists []; by rewrite app_nil_r|done|lia|].
      by rewrite <- Hd, lookup_drop.
    + rewrite Hte. eapply IH; [|exact Hscan]. lia.
  - intros Hscan. apply acc_skip; fold s; [by rewrite Hc, Ha|].
    replace (S (a + p)) with (a + S p)%nat by lia. eapply IH; [|exact Hscan]. lia.
Qed.

(** ** Runs of the guard *)

(** The guard in the middle of a body: [a] of its decoded bytes are released,
    [input] is still to come. *)
Record guard_at (cl : option BodyCredentialClassifier) (body : bytes) (g : BodyPlaceholderGuard)
  (a : nat) (input : bytes) : Prop := {
  at_bound : (a ≤ length (decode_wire true body))%nat;
  at_rest : decode_wire true (pending g ++ input) = drop a (decode_wire true body);
  at_previous : previous_decoded g = byte_before (decoded_of (decode_wire true body)) a;
  at_classifier : guard_classifier g = cl;
}.

Lemma release_pending now g eof out g' :
  release now g eof = Ok (out, g') →
  out ++ pending g' = pending g ∧ guard_classifier g' = guard_classifier g.
Proof.
  unfold release. rewrite let_Ok. intros (safe & _ & [= <- <-]). cbn. split; [|done].
  apply take_drop.
Qed.

Lemma release_step now cl body g a input out g' :
  separated (decoded_of (decode_wire true body)) → guard_at cl body g a input →
  release now g false = Ok (out, g') →
  ∃ a', guard_at cl body g' a' input
    ∧ (Accepts now cl (decode_wire true body) a' → Accepts now cl (decode_wire true body) a).
Proof.
  intros Hsep [Hb Hrest Hprev Hcl] Hrel. set (whole := decode_wire true body) in *.
  unfold release in Hrel. set (items := decode_wire false (pending g)) in *.
  apply let_Ok in Hrel as (safe & Hscan & Hk).
  pose proof (decode_wire_items false (pending g)) as Hok. fold items in Hok.
  pose proof (index_spec items safe Hok) as Hidx.
  set (k := (partition_point (λ o, Nat.leb o safe) (offsets_from 0 items) - 1)%nat) in *.
  injection Hk as <- <-.
  destruct (decode_wire_prefix (pending g) input) as [[rest Hp] [Hw _]]. fold items in Hp, Hw.
  rewrite Hrest in Hp. destruct Hidx as (Hk1 & Hk2 & Hk3). exists (a + k)%nat.
  assert (length (drop a whole) = length items + length rest)%nat as Hlen
    by (rewrite Hp; apply length_app). rewrite length_drop in Hlen.
  split; [split; cbn [pending previous_decoded guard_classifier]; [fold whole; lia| | |done]|].
  - fold whole. rewrite <- drop_drop, <- Hrest.
    assert (width (take k (decode_wire true (pending g ++ input))) = offset items k) as Hwk.
    { rewrite Hrest, Hp, take_app_le, offset_width by lia. done. }
    rewrite <- decode_wire_cut, Hwk by (rewrite Hrest, length_drop; lia).
    rewrite drop_app_le; [done|]. rewrite offset_width by lia.
    rewrite <- (take_drop k items), width_app in Hw. lia.
  - fold whole. destruct k as [|k']; [by rewrite Nat.add_0_r|].
    replace (a + S k')%nat with (S (a + k')) by lia. cbn [byte_before].
    unfold decoded_of. rewrite <- lookup_drop, skipn_map. fold whole. rewrite Hp, map_app, lookup_app_l;
      [done|]. rewrite length_map. lia.
  - intros Hacc. rewrite <- (Nat.add_0_r a).
    eapply (scan_back now cl whole items a Hok) with (w := pending g) (k := k);
      [by exists rest|done| | |by rewrite <- Hcl, <- Hprev; destruct g; exact Hscan| |done|lia|done].
    + unfold decoded_of. rewrite length_map. lia.
    + lia.
    + by left.
Qed.

(** At the end of the body everything is released. *)
Lemma scan_eof_ge now fuel g items d p safe safe' :
  scan now fuel g true items d p safe = Ok safe' → (safe ≤ safe')%nat.
Proof.
  revert p safe. induction fuel as [|fuel IH]; intros p safe; cbn [scan]; [by intros [= <-]|].
  destruct (Nat.ltb p (length d)); [|by intros [= <-]].
  destruct (negb (canonical_at d p) && negb (alias_at d p)); [apply IH|].
  destruct (Nat.ltb MAX_BODY_TOKEN_BYTES _); [done|]. rewrite andb_false_r, let_Ok.
  intros ([] & _ & H%IH). lia.
Qed.

Lemma release_eof now g out g' : release now g true = Ok (out, g') → out = pending g.
Proof.
  unfold release. rewrite let_Ok. intros (safe & Hscan & [= <- <-]). apply scan_eof_ge in Hscan.
  set (items := decode_wire true (pending g)) in *.
  pose proof (decode_wire_items true (pending g)) as Hok. fold items in Hok.
  destruct (index_spec items safe Hok) as (Hk1 & Hk2 & Hk3).
  set (k := (partition_point _ _ - 1)%nat) in *.
  destruct (decide (k = length items)) as [Heq|Hne].
  - rewrite Heq, offset_width by done. rewrite (take_ge items) by done. unfold items.
    by rewrite decode_wire_width, take_ge.
  - specialize (Hk3 (length items) ltac:(lia)). lia.
Qed.

Lemma finish_eq now g out : finish now g = Ok out → out = pending g ∧ ∃ r, release now g true = Ok r.
Proof.
  unfold finish. rewrite let_Ok. intros ([o g'] & Hr & [= <-]). split; [|by eexists].
  by apply release_eof in Hr.
Qed.

Lemma push_blocks_run now cl body blocks g a input out g' :
  separated (decoded_of (decode_wire true body)) →
  guard_at cl body g a (concat blocks ++ input) → push_blocks now g blocks = Ok (out, g') →
  ∃ a', guard_at cl body g' a' input
    ∧ (Accepts now cl (decode_wire true body) a' → Accepts now cl (decode_wire true body) a).
Proof.
  intros Hsep. revert g a out. induction blocks as [|block blocks IH]; intros g a out Hg; cbn [push_blocks].
  - intros [= <- <-]. by exists a.
  - rewrite let_Ok. intros ([o1 g1] & Hr & Hrest).
    apply let_Ok in Hrest as ([o2 g2] & Hp & [= <- <-]).
    assert (guard_at cl body (guard_of (pending g ++ block) (guard_classifier g) (previous_decoded g))
      a (concat blocks ++ input)) as Hg'.
    { destruct Hg as [Hb Hrest Hprev Hcl]. split; [done| |done|done].
      cbn [pending]. rewrite <- Hrest. cbn [concat]. by rewrite <- !app_assoc. }
    destruct (release_step _ _ _ _ _ _ _ _ Hsep Hg' Hr) as (a1 & Hg1 & Ha1).
    destruct (IH _ _ _ Hg1 Hp) as (a2 & Hg2 & Ha2). exists a2. split; [done|]. auto.
Qed.

Lemma push_blocks_pending now blocks g out g' :
  push_blocks now g blocks = Ok (out, g') →
  out ++ pending g' = pending g ++ concat blocks ∧ guard_classifier g' = guard_classifier g.
Proof.
  revert g out. induction blocks as [|block blocks IH]; intros g out; cbn [push_blocks concat].
  - intros [= <- <-]. by rewrite app_nil_r.
  - rewrite let_Ok. intros ([o1 g1] & Hr & Hrest).
    apply let_Ok in Hrest as ([o2 g2] & Hp & [= <- <-]). cbn [fst snd] in *.
    apply release_pending in Hr as [Hr Hc]. apply IH in Hp as [Hp Hc2]. cbn [pending] in Hr.
    rewrite <- app_assoc, Hp, app_assoc, Hr, <- app_assoc. split; [done|]. by rewrite Hc2, Hc.
Qed.

Lemma chunks_concat n w : (0 < n)%nat → concat (chunks n w) = w.
Proof.
  intros Hn. unfold chunks. enough (∀ fuel w, (length w ≤ fuel)%nat → concat (chunks_fuel fuel n w) = w)
    by auto. induction fuel as [|fuel IH]; intros [|b v] Hl; cbn [chunks_fuel]; try done.
  { cbn in Hl. lia. }
  cbn [concat]. rewrite IH; [apply take_drop|]. rewrite length_drop. cbn [length] in *. lia.
Qed.

(** A body that arrives in pieces, one call of [push] for each. *)
Fixpoint push_all (now : Z) (g : BodyPlaceholderGuard) (inputs : list bytes)
  : result (bytes * BodyPlaceholderGuard) BodyCredentialError :=
  match inputs with
  | [] => Ok ([], g)
  | input :: inputs =>
      let? first := push now g input in
      let? rest := push_all now first.2 inputs in
      Ok (first.1 ++ rest.1, rest.2)
  end.

Lemma push_blocks_app now g l1 l2 :
  push_blocks now g (l1 ++ l2) =
  (let? first := push_blocks now g l1 in
   let? rest := push_blocks now first.2 l2 in
   Ok (first.1 ++ rest.1, rest.2)).
Proof.
  revert g. induction l1 as [|b l1 IH]; intros g; cbn [push_blocks app].
  - cbn. by destruct (push_blocks now g l2) as [[]|].
  - destruct (release _ _ _) as [[o g1]|]; [|done]. cbn [fst snd]. rewrite IH.
    destruct (push_blocks now g1 l1) as [[o2 g2]|]; [|done]. cbn [fst snd].
    destruct (push_blocks now g2 l2) as [[o3 g3]|]; [|done]. cbn. by rewrite app_assoc.
Qed.
Lemma push_all_blocks now g inputs :
  push_all now g inputs = push_blocks now g (concat (map (chunks MAX_BODY_TOKEN_BYTES) inputs)).
Proof.
  revert g. induction inputs as [|i inputs IH]; intros g; cbn [push_all map concat]; [done|].
  rewrite push_blocks_app. unfold push. destruct (push_blocks _ _ _) as [[o g1]|]; [|done].
  cbn [fst snd]. by rewrite IH.
Qed.
Lemma blocks_concat inputs :
  concat (concat (map (chunks MAX_BODY_TOKEN_BYTES) inputs)) = concat inputs.
Proof.
  induction inputs as [|i inputs IH]; [done|]. cbn [map concat]. rewrite concat_app, IH.
  f_equal. apply chunks_concat. unfold MAX_BODY_TOKEN_BYTES. lia.
Qed.

Lemma scan_width now fuel g items d p safe safe' :
  (length d = length items)%nat →
  scan now fuel g false items d p safe = Ok safe' →
  (offset items (length items) ≤ safe + MAX_BODY_TOKEN_BYTES)%nat →
  (offset items (length items) ≤ safe' + MAX_BODY_TOKEN_BYTES)%nat.
Proof.
  intros Hd. revert p safe. induction fuel as [|fuel IH]; intros p safe; cbn [scan]; [by intros [= <-]|].
  destruct (Nat.ltb p (length d)); [|by intros [= <-]].
  destruct (negb (canonical_at d p) && negb (alias_at d p)); [apply IH|].
  destruct (Nat.ltb_spec MAX_BODY_TOKEN_BYTES (offset items (token_end_at d p) - offset items p));
    [done|].
  destruct (Nat.eqb_spec (token_end_at d p) (length d)) as [He|He]; cbn [negb andb].
  - destruct (negb _); [done|]. intros [= <-] ?. rewrite He, Hd in *. lia.
  - rewrite let_Ok. intros ([] & _ & Hgo) ?. eapply IH; [exact Hgo|]. lia.
Qed.

Lemma release_bounded now g out g' :
  release now g false = Ok (out, g') → (length (pending g') ≤ MAX_BODY_TOKEN_BYTES + 4)%nat.
Proof.
  unfold release. rewrite let_Ok. intros (safe & Hscan & [= <- <-]). cbn [pending].
  set (items := decode_wire false (pending g)) in *.
  pose proof (decode_wire_items false (pending g)) as Hok. fold items in Hok.
  destruct (decode_wire_prefix (pending g) []) as [_ [_ Hw]]. fold items in Hw.
  apply scan_width in Hscan; [|by rewrite length_map|].
  2: { assert (CREDENTIAL_MARKER_SCAN_TAIL_BYTES = 66%nat) by done. unfold MAX_BODY_TOKEN_BYTES. lia. }
  destruct (index_spec items safe Hok) as (Hk1 & Hk2 & Hk3).
  set (k := (partition_point _ _ - 1)%nat) in *.
  rewrite offset_width, firstn_all in Hscan by done. rewrite length_drop.
  destruct (decide (k = length items)) as [Heq|Hne].
  - rewrite Heq, offset_width, firstn_all by done. lia.
  - specialize (Hk3 (S k) ltac:(lia)). pose proof (offset_gap items k (S k) Hok ltac:(lia)). lia.
Qed.

Lemma push_blocks_bounded now blocks g out g' :
  push_blocks now g blocks = Ok (out, g') →
  (length (pending g) ≤ MAX_BODY_TOKEN_BYTES + 4)%nat →
  (length (pending g') ≤ MAX_BODY_TOKEN_BYTES + 4)%nat.
Proof.
  revert g out. induction blocks as [|b blocks IH]; intros g out; cbn [push_blocks]; [by intros [= <- <-]|].
  rewrite let_Ok. intros ([o1 g1] & Hr & Hrest) _.
  apply let_Ok in Hrest as ([o2 g2] & Hp & [= <- <-]). eapply IH; [exact Hp|].
  by eapply release_bounded.
Qed.

Lemma accepted_finishes now cl body :
  Accepts now cl (decode_wire true body) 0 → finish now (guard_of body cl None) = Ok body.
Proof.
  set (whole := decode_wire true body). intros Hall.
  apply (scan_accepts now cl whole (S (length (decoded_of whole))) body 0
    (offset whole (length whole))) in Hall as [s Hs]; [|lia].
  unfold finish. destruct (release now (guard_of body cl None) true) as [[o g']|e] eqn:Hr.
  - by rewrite (release_eof _ _ _ _ Hr).
  - unfold release in Hr. cbn [pending] in Hr. fold whole in Hr.
    unfold decoded_of in Hs. by rewrite Hs in Hr.
Qed.

(** Reads the guard accepts make up a body it accepts. *)
Lemma streamed_scan now cl inputs out g last :
  push_all now (new_guard cl) inputs = Ok (out, g) → finish now g = Ok last →
  out ++ last = concat inputs
  ∧ (separated (decoded_of (decode_wire true (concat inputs))) →
     finish now (guard_of (concat inputs) cl None) = Ok (concat inputs)).
Proof.
  rewrite push_all_blocks. intros Hp [Hlast [r Hr]]%finish_eq.
  destruct (push_blocks_pending _ _ _ _ _ Hp) as [Hout Hcl]. rewrite blocks_concat in Hout.
  split; [by rewrite Hlast, Hout|].
  intros Hsep. set (body := concat inputs) in *. set (whole := decode_wire true body) in *.
  destruct (push_blocks_run now cl body (concat (map (chunks MAX_BODY_TOKEN_BYTES) inputs))
    (new_guard cl) 0 [] out g Hsep) as (a & Hg & Hacc); [|done|].
  { split; [lia| |done|done]. cbn [new_guard pending app]. rewrite app_nil_r, blocks_concat.
    by rewrite drop_0. }
  assert (Accepts now cl whole 0) as Hall.
  { apply Hacc. destruct Hg as [Hb Hrest Hprev Hc]. rewrite app_nil_r in Hrest.
    rewrite <- (Nat.add_0_r a). unfold release in Hr. apply let_Ok in Hr as (safe & Hscan & _).
    rewrite Hrest in Hscan. eapply (scan_suffix _ _ _ a (pending g)); [|].
    2: { rewrite <- Hprev, <- Hc. destruct g. exact Hscan. }
    rewrite length_map. lia. }
  by apply accepted_finishes.
Qed.

(** ** Properties *)

(** C27: however a body is cut into reads, the guard forwards exactly its bytes
    and withholds at most 4100 of them between two reads; and when it accepts
    the reads, it accepts the body scanned at once, so no cut hides a token,
    provided no canonical marker begins inside the run of key chars of another
    token (see [split_marker_evades_the_guard]). *)
Theorem streamed_body_is_scanned_whole now cl inputs out g last :
  push_all now (new_guard cl) inputs = Ok (out, g) → finish now g = Ok last →
  out ++ last = concat inputs
  ∧ (length (pending g) ≤ MAX_BODY_TOKEN_BYTES + 4)%nat
  ∧ (separated (decoded_of (decode_wire true (concat inputs))) →
     finish now (guard_of (concat inputs) cl None) = Ok (concat inputs)).
Proof.
  intros Hp Hf. destruct (streamed_scan _ _ _ _ _ _ Hp Hf) as [Hout Hscan]. split_and!; [done| |done].
  rewrite push_all_blocks in Hp. apply push_blocks_bounded in Hp; [done|]. cbn. lia.
Qed.

(** A body in two reads, cut inside an escaped marker. *)
Lemma streamed_body_is_scanned_whole_witness :
  ∃ out g last,
    push_all 0 (new_guard (Some (classifier_of ∅ {[ lit "B" ]} ∅ ∅)))
      [lit "x=%6fpenshell:res"; lit "olve:env:C&y=1"] = Ok (out, g)
    ∧ finish 0 g = Ok last
    ∧ out ++ last = lit "x=%6fpenshell:resolve:env:C&y=1"
    ∧ (length (pending g) ≤ MAX_BODY_TOKEN_BYTES + 4)%nat
    ∧ finish 0 (guard_of (lit "x=%6fpenshell:resolve:env:C&y=1")
                  (Some (classifier_of ∅ {[ lit "B" ]} ∅ ∅)) None)
      = Ok (lit "x=%6fpenshell:resolve:env:C&y=1").
Proof.
  eexists _, _, _.
  split; [vm_compute; reflexivity|]. split; [vm_compute; reflexivity|].
  match goal with |- ?o ++ ?l = _ ∧ (length (pending ?g) ≤ _)%nat ∧ _ =>
    destruct (streamed_body_is_scanned_whole 0 (Some (classifier_of ∅ {[ lit "B" ]} ∅ ∅))
      [lit "x=%6fpenshell:res"; lit "olve:env:C&y=1"] o g l) as (H1 & H2 & H3) end;
    [vm_compute; reflexivity|vm_compute; reflexivity|].
  split; [rewrite H1; reflexivity|]. split; [exact H2|]. apply H3.
  apply separated_check. vm_compute. reflexivity.
Defined.

(** Without that proviso a cut does hide a token: the guard denies
    [openshell:resolve:env:Aopenshell:resolve:env:B] in one read when [B] names
    a known credential that is not available, and forwards it when the second
    marker arrives in two reads. *)
Theorem split_marker_evades_the_guard now :
  let cl := Some (classifier_of ∅ {[ lit "B" ]} ∅ ∅) in
  let first := lit "openshell:resolve:env:Aopenshell:res" in
  let second := lit "olve:env:B" in
  finish now (guard_of (first ++ second) cl None) = Err KnownUnavailable
  ∧ ∃ out g last, push_all now (new_guard cl) [first; second] = Ok (out, g)
      ∧ finish now g = Ok last ∧ out ++ last = first ++ second.
Proof.
  intros cl first second. split; [vm_compute; reflexivity|].
  eexists _, _, _. split; [vm_compute; reflexivity|]. split; vm_compute; reflexivity.
Qed.
