(* ===== verification/ProviderCredentials.v ===== *)
(** * ProviderCredentials: installed credentials and who may use them
    (crates/openshell-core/src/provider_credentials.rs)

    The supervisor holds one state of provider credentials: the environment of
    future workload processes, in which credentials are placeholders, and the
    resolvers of the retained generations. Each operation that changes the
    state is a function from the state to the next; the caller's lock makes it
    atomic. *)

From stdpp Require Import gmap.
From S2P Require Import Prelude Patterns IpParse Order Text Base64 Secrets SecretsBody.
Import Secrets SecretsBody.

Local Open Scope Z_scope.

Module ProviderCredentials.

(** ** Messages of the gateway (proto/openshell.proto) *)

(** Of a credential's declaration, the fields the code reads; of its refresh and
    its token grant, only whether they are there. *)
Record ProviderProfileCredential := profile_credential {
  env_vars : list bytes;
  auth_style : bytes;
  header_name : bytes;
  query_param : bytes;
  refresh : option bytes;
  path_template : bytes;
  token_grant : option bytes;
  token_grant_owners : list bytes;
}.

Record StaticCredentialEndpointBinding := endpoint_binding {
  endpoint_host : bytes;
  endpoint_port : Z;
  endpoint_path : bytes;
}.

Record StaticCredentialBinding := binding_of {
  endpoints : list StaticCredentialEndpointBinding;
  credential_identity : bytes;
  workload_credential_handle : bytes;
}.

(** The errors of a delivered environment, one for each message. *)
Inductive StaticCredentialBindingError : Type :=
| MetadataMismatch
| RepeatedNonSecretKey
| RepeatedStableKey
| StableKeyNonSecret
| StableKeyUnbound
| StableKeyWithoutHandle
| KeyBothCredentialAndNonSecret
| UnclassifiedKey
| MissingEnvironmentKey
| NoIdentity
| NoEndpoints
| InvalidHandle
| InvalidEndpoint
| InvalidPlacement.

(** ** Compiling the metadata *)

Section compile.
Context {glob : Glob}.

Record CompiledStaticCredentialEndpointBinding := compiled_endpoint {
  compiled_host : HostPattern.t;
  compiled_port : Z;
  compiled_path : EndpointPath.t;
}.

Record CompiledStaticCredentialBinding := compiled_binding {
  placement : CredentialPlacement;
  compiled_endpoints : list CompiledStaticCredentialEndpointBinding;
  compiled_identity : bytes;
  compiled_handle : bytes;
}.

Definition STATIC_CREDENTIAL_METADATA_PREFIX : bytes := lit "static-env:".

Definition split_static_credential_metadata
  (credentials : gmap bytes ProviderProfileCredential)
  : gmap bytes ProviderProfileCredential * gmap bytes ProviderProfileCredential :=
  foldl (λ '(metadata, grants) '(key, credential),
    match strip_prefix STATIC_CREDENTIAL_METADATA_PREFIX key with
    | Some env_key => (<[env_key := credential]> metadata, grants)
    | None => (metadata, <[key := credential]> grants)
    end) (∅, ∅) (map_to_list credentials).

(** [char::is_control]: U+0000 to U+001F and U+007F to U+009F. *)
Fixpoint has_control (s : bytes) : bool :=
  match s with
  | [] => false
  | b :: s' =>
      (b <? 32) || (b =? 127)
      || ((b =? 0xC2) && match s' with c :: _ => between 0x80 0x9F c | [] => false end)
      || has_control s'
  end.

Definition is_token_char (b : Z) : bool :=
  is_ascii_alphanumeric b || contains_byte b (lit "!#$%&'*+-.^_`|~").

Definition compile_credential_placement (metadata : ProviderProfileCredential)
  : result CredentialPlacement StaticCredentialBindingError :=
  let style := to_ascii_lowercase (trim (auth_style metadata)) in
  let header := trim (header_name metadata) in
  let template := path_template metadata in
  if bool_decide (style = lit "basic") then Ok (AtHeader (lit "authorization"))
  else if (bool_decide (style = lit "header") || bool_decide (style = lit "bearer"))
          && negb (is_empty header) && forallb is_token_char header
  then Ok (AtHeader (to_ascii_lowercase header))
  else if bool_decide (style = lit "query")
          && negb (is_empty (trim (query_param metadata)))
          && negb (has_control (query_param metadata)
                   || existsb (λ b, contains_byte b (lit "&=#?")) (query_param metadata))
  then Ok (AtQueryParam (trim (query_param metadata)))
  else if bool_decide (style = lit "path")
          && starts_with [47] template
          && Nat.eqb (length (split_str CREDENTIAL_SLOT template)) 2
          && negb (has_control template || existsb (λ b, contains_byte b (lit "?#")) template)
  then Ok (AtPathTemplate template)
  else Err InvalidPlacement.

Definition is_valid_workload_credential_handle (handle : bytes) : bool :=
  Nat.eqb (length handle) 64 && forallb is_handle_char handle.

Definition compile_static_credential_endpoint (endpoint : StaticCredentialEndpointBinding)
  : result CompiledStaticCredentialEndpointBinding StaticCredentialBindingError :=
  let? host := map_err (λ _, InvalidEndpoint) (HostPattern.new (endpoint_host endpoint)) in
  if (0 <=? endpoint_port endpoint) && (endpoint_port endpoint <=? u16_max)
  then Ok (compiled_endpoint host (endpoint_port endpoint)
             (EndpointPath.new (endpoint_path endpoint)))
  else Err InvalidEndpoint.

(** The checks of one binding, in the loop over their values. *)
Definition check_binding (binding : StaticCredentialBinding)
  : result unit StaticCredentialBindingError :=
  if is_empty (credential_identity binding) then Err NoIdentity
  else if is_empty (endpoints binding) then Err NoEndpoints
  else if negb (is_empty (workload_credential_handle binding))
          && negb (is_valid_workload_credential_handle (workload_credential_handle binding))
  then Err InvalidHandle
  else if existsb (λ e, (endpoint_port e =? 0) || (u16_max <? endpoint_port e)) (endpoints binding)
  then Err InvalidEndpoint
  else Ok tt.

Definition compile_binding (placement_metadata : gmap bytes ProviderProfileCredential)
  (key : bytes) (binding : StaticCredentialBinding)
  : result CompiledStaticCredentialBinding StaticCredentialBindingError :=
  let? placement := match placement_metadata !! key with
                    | None => Ok (AtHeader (lit "authorization"))
                    | Some metadata => compile_credential_placement metadata
                    end in
  let? endpoints := try_collect compile_static_credential_endpoint (endpoints binding) in
  Ok (compiled_binding placement endpoints (credential_identity binding)
        (workload_credential_handle binding)).

(** Metadata that does not describe a delivered credential. *)
Definition metadata_mismatch (env_keys : gset bytes)
  (bindings : gmap bytes StaticCredentialBinding)
  (key : bytes) (metadata : ProviderProfileCredential) : bool :=
  negb (bool_decide (key ∈ env_keys)) || negb (is_some (bindings !! key))
  || negb (bool_decide (env_vars metadata = [key]))
  || is_some (token_grant metadata) || is_some (refresh metadata)
  || negb (is_empty (token_grant_owners metadata)).

(** The environment is given with its iteration order; which of several errors
    is reported depends on the order of the maps. *)
Definition compile_static_credential_bindings (env : list (bytes * bytes))
  (bindings : gmap bytes StaticCredentialBinding)
  (non_secret_environment_keys stable_placeholder_environment_keys : list bytes)
  (placement_metadata : gmap bytes ProviderProfileCredential)
  : result (gmap bytes CompiledStaticCredentialBinding) StaticCredentialBindingError :=
  let env_keys : gset bytes := list_to_set (map fst env) in
  let binding_keys := map fst (map_to_list bindings) in
  let non_secret_keys : gset bytes := list_to_set non_secret_environment_keys in
  let stable_keys : gset bytes := list_to_set stable_placeholder_environment_keys in
  let in_env key := bool_decide (key ∈ env_keys) in
  let non_secret key := bool_decide (key ∈ non_secret_keys) in
  if existsb (λ '(key, metadata), metadata_mismatch env_keys bindings key metadata)
       (map_to_list placement_metadata)
  then Err MetadataMismatch
  else if negb (Nat.eqb (size non_secret_keys) (length non_secret_environment_keys))
  then Err RepeatedNonSecretKey
  else if negb (Nat.eqb (size stable_keys) (length stable_placeholder_environment_keys))
  then Err RepeatedStableKey
  else if existsb non_secret (elements stable_keys) then Err StableKeyNonSecret
  else if existsb (λ key, negb (is_some (bindings !! key))) (elements stable_keys)
  then Err StableKeyUnbound
  else if existsb (λ key, match bindings !! key with
                          | Some binding => is_empty (workload_credential_handle binding)
                          | None => false
                          end) (elements stable_keys)
  then Err StableKeyWithoutHandle
  else if existsb non_secret binding_keys then Err KeyBothCredentialAndNonSecret
  else if existsb (λ key, negb (is_some (bindings !! key)) && negb (non_secret key)) (map fst env)
  then Err UnclassifiedKey
  else if existsb (λ key, negb (in_env key)) binding_keys
          || existsb (λ key, negb (in_env key)) (elements non_secret_keys)
          || existsb (λ key, negb (in_env key)) (elements stable_keys)
  then Err MissingEnvironmentKey
  else
    let? _ := try_collect (λ '(_, binding), check_binding binding) (map_to_list bindings) in
    let? compiled := try_collect (λ '(key, binding),
                       let? c := compile_binding placement_metadata key binding in Ok (key, c))
                       (map_to_list bindings) in
    Ok (list_to_map compiled).

Definition static_credential_identities (bindings : gmap bytes CompiledStaticCredentialBinding)
  : gmap bytes bytes := compiled_identity <$> bindings.

Definition static_credential_stable_handles
  (bindings : gmap bytes CompiledStaticCredentialBinding) : gmap bytes bytes :=
  compiled_handle <$> filter (λ entry, is_empty (compiled_handle entry.2) = false) bindings.

Definition static_credential_endpoint_matches
  (endpoint : CompiledStaticCredentialEndpointBinding) (host_labels : list bytes)
  (port : Z) (path : bytes) : bool :=
  (compiled_port endpoint =? port)
  && HostPattern.matches_normalized_labels (compiled_host endpoint) host_labels
  && EndpointPath.matches (compiled_path endpoint) path.

Record StaticCredentialIdentityEpoch := epoch_of { identity : bytes; epoch_revisions : gset Z }.

(** A revision joins the epoch of its identity, or opens a new one. *)
Definition epoch_step (revision : Z) (binding : CompiledStaticCredentialBinding)
  (epoch : option StaticCredentialIdentityEpoch) : StaticCredentialIdentityEpoch :=
  match epoch with
  | Some e =>
      if bool_decide (identity e = compiled_identity binding)
      then epoch_of (identity e) ({[ revision ]} ∪ epoch_revisions e)
      else epoch_of (compiled_identity binding) {[ revision ]}
  | None => epoch_of (compiled_identity binding) {[ revision ]}
  end.

(** A credential whose placeholder changes with the revision. *)
Definition revision_scoped (bindings : gmap bytes CompiledStaticCredentialBinding) (key : bytes)
  : bool :=
  match bindings !! key with
  | Some binding => is_empty (compiled_handle binding)
  | None => false
  end.

Definition update_static_credential_identity_epochs
  (epochs : gmap bytes StaticCredentialIdentityEpoch) (revision : Z)
  (bindings : gmap bytes CompiledStaticCredentialBinding)
  : gmap bytes StaticCredentialIdentityEpoch :=
  let retained := filter (λ entry, revision_scoped bindings entry.1 = true) epochs in
  map_fold (λ key binding epochs,
    if negb (is_empty (compiled_handle binding)) then epochs
    else <[key := epoch_step revision binding (epochs !! key)]> epochs) retained bindings.

(** ** The state *)

Definition MAX_RETAINED_CREDENTIAL_GENERATIONS : nat := 8.

Record ProviderCredentialSnapshot := snapshot_of {
  installation_id : bytes;
  snapshot_revision : Z;
  child_env : gmap bytes bytes;
  dynamic_credentials : gmap bytes ProviderProfileCredential;
}.

(** The generations are in order of installation, the oldest first. *)
Record ProviderCredentialStateInner := inner_of {
  current : ProviderCredentialSnapshot;
  files : gmap bytes bytes;
  generations : list SecretResolver;
  current_resolver : option SecretResolver;
  combined_resolver : option SecretResolver;
  suppressed_keys : gset bytes;
  non_secret_environment_keys : gset bytes;
  static_credential_bindings : gmap bytes CompiledStaticCredentialBinding;
  known_static_credential_keys : gset bytes;
  body_inventory_available : bool;
  known_body_keys : gset bytes;
  static_credential_identity_epochs : gmap bytes StaticCredentialIdentityEpoch;
  requires_stable_placeholders : bool;
}.

Definition merge_resolvers (generations : list SecretResolver)
  (current_resolver : option SecretResolver) : option SecretResolver :=
  SecretResolver_merge (generations ++ option_list current_resolver).

(** [while generations.len() > MAX { pop_front() }]. *)
Definition retain_latest (generations : list SecretResolver) : list SecretResolver :=
  drop (length generations - MAX_RETAINED_CREDENTIAL_GENERATIONS) generations.

(** [for key in &suppressed_keys { child_env.remove(key) }]. *)
Definition without_keys (keys : gset bytes) (env : gmap bytes bytes) : gmap bytes bytes :=
  filter (λ entry, entry.1 ∉ keys) env.

(** A delivered environment: what one call installs. The identifier is a fresh
    one of the [uuid] crate. *)
Record delivery := delivery_of {
  d_revision : Z;
  d_env : list (bytes * bytes);
  d_expires : gmap bytes Z;
  d_dynamic : gmap bytes ProviderProfileCredential;
  d_bindings : gmap bytes StaticCredentialBinding;
  d_non_secret : list bytes;
  d_stable : list bytes;
}.

Definition compile_delivery (d : delivery)
  : result (gmap bytes CompiledStaticCredentialBinding) StaticCredentialBindingError :=
  compile_static_credential_bindings (d_env d) (d_bindings d) (d_non_secret d) (d_stable d)
    (split_static_credential_metadata (d_dynamic d)).1.

(** The environment and the resolvers of a delivery with its compiled bindings. *)
Definition delivered (d : delivery) (bindings : gmap bytes CompiledStaticCredentialBinding)
  : gmap bytes bytes * option SecretResolver * option SecretResolver :=
  from_provider_env_for_current_revision_with_stable_handles (d_env d) (d_expires d)
    (d_revision d) (static_credential_stable_handles bindings).

Definition from_environment (uuid : bytes) (revision : Z) (env : list (bytes * bytes))
  (expires : gmap bytes Z) (dynamic : gmap bytes ProviderProfileCredential)
  : ProviderCredentialStateInner :=
  let '(child_env, generation_resolver, current_resolver) :=
    from_provider_env_for_current_revision env expires revision in
  let generations := option_list generation_resolver in
  {| current := snapshot_of uuid revision child_env (split_static_credential_metadata dynamic).2;
     files := ∅;
     generations := generations;
     current_resolver := current_resolver;
     combined_resolver := merge_resolvers generations current_resolver;
     suppressed_keys := ∅;
     non_secret_environment_keys := ∅;
     static_credential_bindings := ∅;
     known_static_credential_keys := ∅;
     body_inventory_available := true;
     known_body_keys := dom child_env;
     static_credential_identity_epochs := ∅;
     requires_stable_placeholders := false |}.

Definition from_bound_environment_with_stable_placeholders (uuid : bytes) (d : delivery)
  : result ProviderCredentialStateInner StaticCredentialBindingError :=
  let? bindings := compile_delivery d in
  let '(child_env, generation_resolver, current_resolver) := delivered d bindings in
  let generations := option_list generation_resolver in
  Ok {| current := snapshot_of uuid (d_revision d) child_env
                     (split_static_credential_metadata (d_dynamic d)).2;
        files := ∅;
        generations := generations;
        current_resolver := current_resolver;
        combined_resolver := merge_resolvers generations current_resolver;
        suppressed_keys := ∅;
        non_secret_environment_keys := list_to_set (d_non_secret d);
        static_credential_bindings := bindings;
        known_static_credential_keys := dom bindings;
        body_inventory_available := true;
        known_body_keys := dom child_env;
        static_credential_identity_epochs :=
          update_static_credential_identity_epochs ∅ (d_revision d) bindings;
        requires_stable_placeholders := negb (is_empty (d_stable d)) |}.

Definition from_child_env_snapshot (uuid : bytes) (revision : Z) (child_env : gmap bytes bytes)
  : ProviderCredentialStateInner :=
  {| current := snapshot_of uuid revision child_env ∅;
     files := ∅;
     generations := [];
     current_resolver := None;
     combined_resolver := None;
     suppressed_keys := ∅;
     non_secret_environment_keys := ∅;
     static_credential_bindings := ∅;
     known_static_credential_keys := ∅;
     body_inventory_available := false;
     known_body_keys := dom child_env;
     static_credential_identity_epochs := ∅;
     requires_stable_placeholders := false |}.

(** A prepared environment replaces everything the state resolves with. *)
Definition cleared_for (inner : ProviderCredentialStateInner) (uuid : bytes) (revision : Z)
  (child_env : gmap bytes bytes) (inventory : bool) : ProviderCredentialStateInner :=
  {| current := snapshot_of uuid revision (without_keys (suppressed_keys inner) child_env) ∅;
     files := files inner;
     generations := [];
     current_resolver := None;
     combined_resolver := None;
     suppressed_keys := suppressed_keys inner;
     non_secret_environment_keys := ∅;
     static_credential_bindings := ∅;
     known_static_credential_keys := ∅;
     body_inventory_available := inventory;
     known_body_keys := known_body_keys inner;
     static_credential_identity_epochs := ∅;
     requires_stable_placeholders := requires_stable_placeholders inner |}.

Definition install_child_env_snapshot (inner : ProviderCredentialStateInner) (uuid : bytes)
  (revision : Z) (child_env : gmap bytes bytes) : ProviderCredentialStateInner :=
  cleared_for inner uuid revision child_env false.

(** Unlike the unconditional install it leaves the body inventory flag. *)
Definition compare_and_install_child_env_snapshot (inner : ProviderCredentialStateInner)
  (uuid : bytes) (expected_revision revision : Z) (child_env : gmap bytes bytes)
  : Z * ProviderCredentialStateInner :=
  if negb (expected_revision =? snapshot_revision (current inner))
  then (snapshot_revision (current inner), inner)
  else (revision, cleared_for inner uuid revision child_env (body_inventory_available inner)).

Definition remove_env_key (inner : ProviderCredentialStateInner) (uuid key : bytes)
  : ProviderCredentialStateInner :=
  {| current := snapshot_of uuid (snapshot_revision (current inner))
                  (delete key (child_env (current inner)))
                  (dynamic_credentials (current inner));
     files := files inner;
     generations := generations inner;
     current_resolver := current_resolver inner;
     combined_resolver := combined_resolver inner;
     suppressed_keys := {[ key ]} ∪ suppressed_keys inner;
     non_secret_environment_keys := non_secret_environment_keys inner;
     static_credential_bindings := static_credential_bindings inner;
     known_static_credential_keys := known_static_credential_keys inner;
     body_inventory_available := body_inventory_available inner;
     known_body_keys := known_body_keys inner;
     static_credential_identity_epochs := static_credential_identity_epochs inner;
     requires_stable_placeholders := requires_stable_placeholders inner |}.

Definition set_managed_files (inner : ProviderCredentialStateInner) (new : gmap bytes bytes)
  : ProviderCredentialStateInner :=
  {| current := current inner;
     files := new;
     generations := generations inner;
     current_resolver := current_resolver inner;
     combined_resolver := combined_resolver inner;
     suppressed_keys := suppressed_keys inner;
     non_secret_environment_keys := non_secret_environment_keys inner;
     static_credential_bindings := static_credential_bindings inner;
     known_static_credential_keys := known_static_credential_keys inner;
     body_inventory_available := body_inventory_available inner;
     known_body_keys := known_body_keys inner;
     static_credential_identity_epochs := static_credential_identity_epochs inner;
     requires_stable_placeholders := requires_stable_placeholders inner |}.

Definition install_environment (inner : ProviderCredentialStateInner) (uuid : bytes)
  (revision : Z) (env : list (bytes * bytes)) (expires : gmap bytes Z)
  (dynamic : gmap bytes ProviderProfileCredential) : ProviderCredentialStateInner :=
  let '(env, generation_resolver, current_resolver) :=
    from_provider_env_for_current_revision env expires revision in
  let child_env := without_keys (suppressed_keys inner) env in
  let generations :=
    match generation_resolver with
    | Some r => retain_latest (generations inner ++ [r])
    | None => generations inner
    end in
  {| current := snapshot_of uuid revision child_env (split_static_credential_metadata dynamic).2;
     files := files inner;
     generations := generations;
     current_resolver := current_resolver;
     combined_resolver := merge_resolvers generations current_resolver;
     suppressed_keys := suppressed_keys inner;
     non_secret_environment_keys := ∅;
     static_credential_bindings := static_credential_bindings inner;
     known_static_credential_keys := known_static_credential_keys inner;
     body_inventory_available := true;
     known_body_keys := known_body_keys inner ∪ dom child_env;
     static_credential_identity_epochs := static_credential_identity_epochs inner;
     requires_stable_placeholders := requires_stable_placeholders inner |}.

Definition revoke_static_provider_environment_inner (inner : ProviderCredentialStateInner)
  (uuid : bytes) (revision : Z) (dynamic : option (gmap bytes ProviderProfileCredential))
  : ProviderCredentialStateInner :=
  let dynamic := default (dynamic_credentials (current inner)) dynamic in
  {| current := snapshot_of uuid revision ∅ (split_static_credential_metadata dynamic).2;
     files := files inner;
     generations := [];
     current_resolver := None;
     combined_resolver := None;
     suppressed_keys := suppressed_keys inner;
     non_secret_environment_keys := ∅;
     static_credential_bindings := ∅;
     known_static_credential_keys := known_static_credential_keys inner;
     body_inventory_available := false;
     known_body_keys := known_body_keys inner;
     static_credential_identity_epochs := static_credential_identity_epochs inner;
     requires_stable_placeholders := requires_stable_placeholders inner |}.
Definition revoke_static_provider_environment (inner : ProviderCredentialStateInner)
  (uuid : bytes) (revision : Z) : ProviderCredentialStateInner :=
  revoke_static_provider_environment_inner inner uuid revision None.

(** Generations of other identities are dropped. *)
Definition same_identity_generations (inner : ProviderCredentialStateInner)
  (bindings : gmap bytes CompiledStaticCredentialBinding) : list SecretResolver :=
  if bool_decide (static_credential_identities (static_credential_bindings inner)
                  = static_credential_identities bindings)
  then generations inner else [].

Definition install_bound_environment_with_stable_placeholders
  (inner : ProviderCredentialStateInner) (uuid : bytes) (d : delivery)
  : result nat StaticCredentialBindingError * ProviderCredentialStateInner :=
  match compile_delivery d with
  | Err error =>
      (Err error,
       revoke_static_provider_environment_inner inner uuid (d_revision d)
         (Some (split_static_credential_metadata (d_dynamic d)).2))
  | Ok bindings =>
      let '(env, generation_resolver, current_resolver) := delivered d bindings in
      let child_env := without_keys (suppressed_keys inner) env in
      let kept := same_identity_generations inner bindings in
      let generations :=
        match generation_resolver with
        | Some r => retain_latest (kept ++ [r])
        | None => kept
        end in
      (Ok (size child_env),
       {| current := snapshot_of uuid (d_revision d) child_env
                       (split_static_credential_metadata (d_dynamic d)).2;
          files := files inner;
          generations := generations;
          current_resolver := current_resolver;
          combined_resolver := merge_resolvers generations current_resolver;
          suppressed_keys := suppressed_keys inner;
          non_secret_environment_keys := list_to_set (d_non_secret d);
          static_credential_bindings := bindings;
          known_static_credential_keys := known_static_credential_keys inner ∪ dom bindings;
          body_inventory_available := true;
          known_body_keys := known_body_keys inner ∪ dom child_env;
          static_credential_identity_epochs :=
            update_static_credential_identity_epochs (static_credential_identity_epochs inner)
              (d_revision d) bindings;
          requires_stable_placeholders := negb (is_empty (d_stable d)) |})
  end.

(** The candidate is read under its own lock, before the live one is taken. *)
Definition install_prepared (inner candidate : ProviderCredentialStateInner)
  : ProviderCredentialStateInner :=
  let bindings := static_credential_bindings candidate in
  let child_env := without_keys (suppressed_keys inner) (child_env (current candidate)) in
  let generations :=
    retain_latest (same_identity_generations inner bindings ++ generations candidate) in
  {| current := snapshot_of (installation_id (current candidate))
                  (snapshot_revision (current candidate)) child_env
                  (dynamic_credentials (current candidate));
     files := files candidate;
     generations := generations;
     current_resolver := current_resolver candidate;
     combined_resolver := merge_resolvers generations (current_resolver candidate);
     suppressed_keys := suppressed_keys inner;
     non_secret_environment_keys := non_secret_environment_keys candidate;
     static_credential_bindings := bindings;
     known_static_credential_keys := known_static_credential_keys inner ∪ dom bindings;
     body_inventory_available := true;
     known_body_keys := known_body_keys inner ∪ dom child_env;
     static_credential_identity_epochs :=
       update_static_credential_identity_epochs (static_credential_identity_epochs inner)
         (snapshot_revision (current candidate)) bindings;
     requires_stable_placeholders := requires_stable_placeholders candidate |}.

(** ** Reading the state *)

Definition placements_of (inner : ProviderCredentialStateInner) : gmap bytes CredentialPlacement :=
  placement <$> static_credential_bindings inner.

Definition resolver (inner : ProviderCredentialStateInner) : option SecretResolver :=
  (λ r, with_placements r (placements_of inner)) <$> combined_resolver inner.

(** The revisions of a key's epoch, where it is that of the current binding. *)
Definition current_epochs (inner : ProviderCredentialStateInner) : gmap bytes (gset Z) :=
  epoch_revisions <$>
    filter (λ entry,
      match static_credential_bindings inner !! entry.1 with
      | Some binding => bool_decide (compiled_identity binding = identity entry.2)
      | None => false
      end = true) (static_credential_identity_epochs inner).

Definition allowed_keys (inner : ProviderCredentialStateInner) (host_labels : list bytes)
  (port : Z) (request_path : bytes) : gset bytes :=
  dom (filter (λ entry,
         existsb (λ endpoint, static_credential_endpoint_matches endpoint host_labels port
                                request_path) (compiled_endpoints entry.2) = true)
         (static_credential_bindings inner)).

Section requests.
Context (now : Z).

(** A panic while the path is redacted happens before the lock is taken. *)
Definition resolver_and_body_classifier_for_endpoint (inner : ProviderCredentialStateInner)
  (host : bytes) (port : Z) (path : bytes)
  : result (option SecretResolver * option BodyCredentialClassifier * Z) failure :=
  let revision := snapshot_revision (current inner) in
  match redact_target_for_policy now (split_target path).1 with
  | Err (Unresolved _ _) => Ok (None, None, revision)
  | Err e => Err e
  | Ok request_path =>
      let host_labels := split_on 46 (to_ascii_lowercase host) in
      let allowed := allowed_keys inner host_labels port request_path in
      let classifier :=
        if body_inventory_available inner
        then Some (new_classifier (combined_resolver inner)
                     (known_body_keys inner ∪ known_static_credential_keys inner)
                     (dom (static_credential_bindings inner)) (current_epochs inner))
        else None in
      let resolver :=
        (λ r, scoped_to_env_keys (with_placements r (placements_of inner))
                (known_static_credential_keys inner) allowed
                (filter (λ entry, entry.1 ∈ allowed) (current_epochs inner)))
        <$> combined_resolver inner in
      Ok (resolver, classifier, revision)
  end.

Definition resolver_for_endpoint (inner : ProviderCredentialStateInner) (host : bytes) (port : Z)
  (path : bytes) : result (option SecretResolver) failure :=
  let? r := resolver_and_body_classifier_for_endpoint inner host port path in
  Ok r.1.1.

Definition requires_proxy_resolution (inner : ProviderCredentialStateInner) : bool :=
  negb (bool_decide (dom (static_credential_bindings inner) = ∅))
  || negb (bool_decide (dom (dynamic_credentials (current inner)) = ∅)).

Definition METADATA_LOOPBACK_ADDR : bytes := lit "127.0.0.1:8174".
Definition GCE_METADATA_HOST : bytes := lit "GCE_METADATA_HOST".

(** One round of the loop over the non-secret keys. *)
Definition unwrap_non_secret (r : SecretResolver) (has_gcp_metadata : bool)
  (env : result (gmap bytes bytes) failure) (key : bytes) : result (gmap bytes bytes) failure :=
  let? env := env in
  if negb (is_some (env !! key)) || (has_gcp_metadata && bool_decide (key = GCE_METADATA_HOST))
  then Ok env
  else
    let? o := resolve_placeholder now r (placeholder_for_env_key key) in
    Ok (match o with Some value => <[key := value]> env | None => env end).

Definition resolve_child_env_snapshot (inner : ProviderCredentialStateInner)
  : result (Z * gmap bytes bytes) failure :=
  let env := child_env (current inner) in
  let non_secret := non_secret_environment_keys inner in
  let has_gcp_metadata :=
    is_some (env !! GCE_METADATA_HOST) && bool_decide (GCE_METADATA_HOST ∈ non_secret) in
  if negb has_gcp_metadata && bool_decide (non_secret = ∅)
  then Ok (snapshot_revision (current inner), env)
  else
    let env :=
      if has_gcp_metadata
      then <[lit "METADATA_SERVER_DETECTION" := lit "assume-present"]>
             (<[lit "GCE_METADATA_IP" := METADATA_LOOPBACK_ADDR]>
               (<[GCE_METADATA_HOST := METADATA_LOOPBACK_ADDR]> env))
      else env in
    let? env := match combined_resolver inner with
                | Some r => foldl (unwrap_non_secret r has_gcp_metadata) (Ok env)
                              (elements non_secret)
                | None => Ok env
                end in
    Ok (snapshot_revision (current inner), env).

Record ChildEnvironmentSnapshot := child_snapshot {
  child_installation_id : bytes;
  child_revision : Z;
  environment : gmap bytes bytes;
  child_files : gmap bytes bytes;
}.
Definition child_environment_snapshot (inner : ProviderCredentialStateInner)
  : result ChildEnvironmentSnapshot failure :=
  let? r := resolve_child_env_snapshot inner in
  Ok (child_snapshot (installation_id (current inner)) r.1 r.2 (files inner)).

Definition current_non_secret_environment_value (inner : ProviderCredentialStateInner)
  (key : bytes) : result (option bytes) failure :=
  if negb (bool_decide (key ∈ non_secret_environment_keys inner)) then Ok None
  else match child_env (current inner) !! key, current_resolver inner with
       | Some placeholder, Some r => resolve_placeholder now r placeholder
       | _, _ => Ok None
       end.

Definition TOKEN_ENV_KEYS : list bytes :=
  [lit "GCP_SA_ACCESS_TOKEN"; lit "GCP_ADC_ACCESS_TOKEN"].
Definition DEFAULT_EXPIRES_IN : Z := 3600.

Fixpoint gcp_token_search (inner : ProviderCredentialStateInner) (r : SecretResolver)
  (keys : list bytes) : result (option (bytes * Z)) failure :=
  match keys with
  | [] => Ok None
  | key :: keys =>
      match child_env (current inner) !! key with
      | None => gcp_token_search inner r keys
      | Some placeholder =>
          let? o := resolve_placeholder now r placeholder in
          match o with
          | None => gcp_token_search inner r keys
          | Some _ =>
              let expires_in :=
                match expires_at_ms_for_placeholder r placeholder with
                | None => DEFAULT_EXPIRES_IN
                | Some e =>
                    if e <=? 0 then DEFAULT_EXPIRES_IN
                    else Z.quot (i64_saturating_sub e now) 1000
                end in
              if expires_in <=? 0 then gcp_token_search inner r keys
              else Ok (Some (placeholder, expires_in))
          end
      end
  end.
Definition gcp_token_response (inner : ProviderCredentialStateInner)
  : result (option (bytes * Z)) failure :=
  match current_resolver inner with
  | None => Ok None
  | Some r => gcp_token_search inner r TOKEN_ENV_KEYS
  end.
End requests.
End compile.
End ProviderCredentials.
