(* ===== verification/ProviderCredentialsFacts.v ===== *)
(** * ProviderCredentialsFacts: what the installed credentials can be used for

    An invariant of every run of installs, refreshes and revocations, and what
    it gives: a credential is released only at an endpoint its current binding
    names, a token only under the identity it was issued for, and the workload's
    environment holds placeholders. *)

From stdpp Require Import gmap.
From S2P Require Import Prelude Patterns IpParse Order Text Base64.
From S2P Require Import Secrets SecretsFacts SecretsBody ProviderCredentials.
From Stdlib Require Import ZifyBool.
Import Secrets SecretsBody ProviderCredentials.

(** ** The grammar of the placeholders that are issued *)

Lemma digit_no_underscore s : forallb is_ascii_digit s = true → 95 ∉ s.
Proof. rewrite forallb_elem. intros H Hin. by apply H in Hin. Qed.
Lemma handle_no_underscore s : forallb is_handle_char s = true → 95 ∉ s.
Proof. rewrite forallb_elem. intros H Hin. by apply H in Hin. Qed.

Lemma show_digits_digit fuel n tail :
  0 ≤ n → forallb is_ascii_digit tail = true →
  forallb is_ascii_digit (IpParse.show_digits fuel n tail) = true.
Proof.
  revert n tail. induction fuel as [|fuel IH]; intros n tail Hn Ht; cbn [IpParse.show_digits]; [done|].
  assert (is_ascii_digit (48 + n mod 10) = true) as Hd.
  { pose proof (Z.mod_pos_bound n 10). unfold is_ascii_digit. lia. }
  destruct (n <? 10); [cbn; by rewrite Hd|]. apply IH; [apply Z.div_pos; lia|]. cbn. by rewrite Hd.
Qed.
Lemma show_uint_digits n : 0 ≤ n → forallb is_ascii_digit (IpParse.show_uint n) = true.
Proof. intros. by apply show_digits_digit. Qed.
Lemma show_uint_nonempty n : 0 ≤ n → is_empty (IpParse.show_uint n) = false.
Proof.
  intros Hn. unfold IpParse.show_uint.
  destruct (IpParse.show_digits_head 40 n []) as (c & r & -> & _); [lia..|done].
Qed.

Lemma split_revisioned_show rev key :
  0 ≤ rev → is_env_key key = true →
  split_revisioned_env_key (118 :: IpParse.show_uint rev ++ 95 :: key)
  = Some (IpParse.show_uint rev, key).
Proof.
  intros Hr Hk. unfold split_revisioned_env_key. cbn [strip_prefix]. rewrite Z.eqb_refl.
  rewrite split_once_app by (by apply digit_no_underscore, show_uint_digits).
  by rewrite show_uint_nonempty, show_uint_digits, Hk.
Qed.

(** A placeholder of a revision is read back as that revision of its key. *)
Lemma revisioned_parts_issued rev key :
  0 < rev ≤ u64_max → is_env_key key = true →
  revisioned_placeholder_parts (placeholder_for_env_key_for_revision key rev) = Some (rev, key).
Proof.
  intros Hr Hk. unfold revisioned_placeholder_parts, placeholder_for_env_key_for_revision.
  rewrite (proj2 (Z.eqb_neq rev 0)) by lia.
  rewrite (proj2 (strip_prefix_Some _ _ _) eq_refl), split_revisioned_show by (done || lia).
  rewrite IpParse.parse_show_uint; [done|lia|]. unfold u64_max in Hr. lia.
Qed.

Lemma stable_parts_issued handle key :
  is_valid_workload_credential_handle handle = true → is_env_key key = true →
  stable_placeholder_parts (placeholder_for_env_key_for_stable_handle key handle)
  = Some (handle, key).
Proof.
  unfold is_valid_workload_credential_handle. rewrite andb_true_iff. intros [Hl Hh] Hk.
  unfold stable_placeholder_parts, placeholder_for_env_key_for_stable_handle.
  rewrite (proj2 (strip_prefix_Some _ _ _) eq_refl). unfold split_stable_env_key.
  cbn [strip_prefix]. rewrite Z.eqb_refl, split_once_app by (by apply handle_no_underscore).
  by rewrite Hl, Hh, Hk.
Qed.

(** The three forms are told apart by what they are read back as. *)
Lemma canonical_not_reserved key :
  uses_reserved_revision_namespace key = false →
  revisioned_placeholder_parts (placeholder_for_env_key key) = None
  ∧ stable_placeholder_parts (placeholder_for_env_key key) = None
  ∧ placeholder_env_key (placeholder_for_env_key key) = Some key.
Proof.
  unfold uses_reserved_revision_namespace. rewrite orb_false_iff. intros [Hv Hs].
  assert (strip_prefix PLACEHOLDER_PREFIX (placeholder_for_env_key key) = Some key) as Hp
    by (by apply strip_prefix_Some).
  assert (revisioned_placeholder_parts (placeholder_for_env_key key) = None) as H1.
  { unfold revisioned_placeholder_parts. rewrite Hp. by destruct (split_revisioned_env_key key). }
  assert (stable_placeholder_parts (placeholder_for_env_key key) = None) as H2.
  { unfold stable_placeholder_parts. rewrite Hp. by destruct (split_stable_env_key key). }
  split_and!; [done..|]. unfold placeholder_env_key, revisioned_placeholder_env_key.
  by rewrite H1, H2, Hp.
Qed.

Lemma revision_not_stable key rev : rev ≠ 0 →
  stable_placeholder_parts (placeholder_for_env_key_for_revision key rev) = None.
Proof.
  intros Hr. unfold stable_placeholder_parts, placeholder_for_env_key_for_revision.
  rewrite (proj2 (Z.eqb_neq rev 0)) by done.
  by rewrite (proj2 (strip_prefix_Some _ _ _) eq_refl).
Qed.
Lemma stable_not_revision key handle :
  revisioned_placeholder_parts (placeholder_for_env_key_for_stable_handle key handle) = None.
Proof.
  unfold revisioned_placeholder_parts, placeholder_for_env_key_for_stable_handle.
  by rewrite (proj2 (strip_prefix_Some _ _ _) eq_refl).
Qed.

(** A placeholder issued for a key at a revision, with its handle if it has one. *)
Definition issued_placeholder (handles : gmap bytes bytes) (revision : Z) (key : bytes) : bytes :=
  match handles !! key with
  | Some handle => placeholder_for_env_key_for_stable_handle key handle
  | None => placeholder_for_env_key_for_revision key revision
  end.

(** What makes the keys, the revision and the handles of a delivery readable:
    the gateway validates the keys, and the code the handles. *)
Record readable (keys : list bytes) (revision : Z) (handles : gmap bytes bytes) : Prop := {
  readable_revision : 0 ≤ revision ≤ u64_max;
  readable_keys : Forall (λ key, is_env_key key = true) keys;
  readable_handles : map_Forall (λ _ h, is_valid_workload_credential_handle h = true) handles;
}.

Lemma issued_env_key keys revision handles key :
  readable keys revision handles → key ∈ keys → uses_reserved_revision_namespace key = false →
  placeholder_env_key (issued_placeholder handles revision key) = Some key.
Proof.
  intros [Hr Hk Hh] Hin Hns. rewrite list.Forall_forall in Hk. specialize (Hk key Hin).
  unfold issued_placeholder. destruct (handles !! key) as [h|] eqn:E.
  - unfold placeholder_env_key. by rewrite stable_parts_issued by (by eauto).
  - destruct (decide (revision = 0)) as [->|Hne].
    + by apply canonical_not_reserved.
    + unfold placeholder_env_key, revisioned_placeholder_env_key.
      rewrite revision_not_stable, revisioned_parts_issued by (done || lia). done.
Qed.





(** ** What a delivery registers *)

Section register.
Context (expires : gmap bytes Z) (revision : Z) (handles : gmap bytes bytes).
Abbreviation issued := (issued_placeholder handles revision).

(** An entry is one of a delivered key's, under one of its placeholders. *)
Definition registered (env : list (bytes * bytes)) (forms : bytes → bytes → Prop) (ph : bytes)
  (sv : SecretValue) : Prop :=
  ∃ key value, (key, value) ∈ env ∧ uses_reserved_revision_namespace key = false
    ∧ forms key ph ∧ sv = secret_for expires key value.

Definition current_form (key ph : bytes) : Prop :=
  ph = placeholder_for_env_key key ∨ ph = issued key.
Definition generation_form (key ph : bytes) : Prop :=
  handles !! key = None ∧ revision ≠ 0 ∧ ph = placeholder_for_env_key_for_revision key revision.

Lemma registered_weaken env env' forms ph sv :
  (∀ e, e ∈ env → e ∈ env') → registered env forms ph sv → registered env' forms ph sv.
Proof. intros Hsub (k & v & Hin & ?). exists k, v. split; [by apply Hsub|done]. Qed.

(** A round of the loop, the two kinds of placeholders in one. *)
Lemma register_step child gen cur key value :
  register expires revision handles (child, gen, cur) (key, value) =
  if uses_reserved_revision_namespace key then (child, gen, cur)
  else
    (<[key := issued key]> child,
     (if negb (is_some (handles !! key)) && negb (revision =? 0)
      then <[placeholder_for_env_key_for_revision key revision := secret_for expires key value]> gen
      else gen),
     <[placeholder_for_env_key key := secret_for expires key value]>
       (<[issued key := secret_for expires key value]> cur)).
Proof.
  unfold register, issued_placeholder. destruct (uses_reserved_revision_namespace key); [done|].
  by destruct (handles !! key).
Qed.

(** What holds of the maps after any prefix of the environment. *)
Record registers (env : list (bytes * bytes)) (child : gmap bytes bytes)
  (gen cur : gmap bytes SecretValue) : Prop := {
  reg_child key ph : child !! key = Some ph →
    key ∈ map fst env ∧ uses_reserved_revision_namespace key = false ∧ ph = issued key;
  reg_generation ph sv : gen !! ph = Some sv → registered env generation_form ph sv;
  reg_current ph sv : cur !! ph = Some sv → registered env current_form ph sv;
}.

Lemma registers_weaken env env' child gen cur :
  (∀ e, e ∈ env → e ∈ env') → registers env child gen cur → registers env' child gen cur.
Proof.
  intros Hsub [H1 H2 H3]. split; intros.
  - destruct (H1 _ _ H) as (Hin & ? & ?). split_and!; [|done..].
    apply list_elem_of_fmap in Hin as ([k v] & -> & Hin). apply list_elem_of_fmap.
    exists (k, v). split; [done|]. by apply Hsub.
  - by eapply registered_weaken; [|apply H2].
  - by eapply registered_weaken; [|apply H3].
Qed.

Lemma register_sound env child gen cur :
  foldl (register expires revision handles) (∅, ∅, ∅) env = (child, gen, cur) →
  registers env child gen cur.
Proof.
  revert child gen cur. induction env as [|[key value] env IH] using rev_ind; intros child gen cur.
  { cbn. intros [= <- <- <-]. split; intros ? ?; rewrite lookup_empty; done. }
  rewrite foldl_app. cbn [foldl]. destruct (foldl _ _ env) as [[child0 gen0] cur0].
  specialize (IH _ _ _ eq_refl).
  apply (registers_weaken _ (env ++ [(key, value)])) in IH;
    [|intros; apply elem_of_app; by left]. rewrite register_step.
  destruct (uses_reserved_revision_namespace key) eqn:Hr; [by intros [= <- <- <-]|].
  assert ((key, value) ∈ env ++ [(key, value)]) as Hlast by (apply elem_of_app; right; left).
  destruct IH as [IH1 IH2 IH3]. intros [= <- <- <-]. split; intros ? ?.
  - rewrite lookup_insert_Some. intros [[<- <-]|[_ H]]; [|by apply IH1]. split_and!; [|done..].
    apply list_elem_of_fmap. by exists (key, value).
  - destruct (handles !! key) as [h|] eqn:Hh; cbn [is_some negb andb]; [by apply IH2|].
    destruct (Z.eqb_spec revision 0) as [|Hne]; cbn [negb]; [by apply IH2|].
    rewrite lookup_insert_Some. intros [[<- <-]|[_ H]]; [|by apply IH2].
    exists key, value. by split_and!.
  - rewrite !lookup_insert_Some. intros [[<- <-]|[_ [[<- <-]|[_ H]]]]; [..|by apply IH3].
    + exists key, value. split_and!; [done..|by left|done].
    + exists key, value. split_and!; [done..|by right|done].
Qed.

End register.

(** ** Merging resolvers *)

Lemma extend_all_snoc {A B} (f : A → gmap bytes B) l a :
  extend_all f (l ++ [a]) = f a ∪ extend_all f l.
Proof. unfold extend_all. by rewrite foldl_app. Qed.
Lemma extend_all_Some {A B} (f : A → gmap bytes B) l k v :
  extend_all f l !! k = Some v → ∃ a, a ∈ l ∧ f a !! k = Some v.
Proof.
  induction l as [|a l IH] using rev_ind; [by cbn; rewrite lookup_empty|].
  rewrite extend_all_snoc, lookup_union_Some_raw. intros [H|[_ H]].
  - exists a. split; [|done]. apply elem_of_app. right. by left.
  - destruct (IH H) as (a' & ? & ?). exists a'. split; [|done]. apply elem_of_app. by left.
Qed.
Lemma extend_all_empty {A B} (f : A → gmap bytes B) l :
  (∀ a, a ∈ l → f a = ∅) → extend_all f l = ∅.
Proof.
  induction l as [|a l IH] using rev_ind; intros H; [done|]. rewrite extend_all_snoc, IH.
  - rewrite H by (apply elem_of_app; right; by left). by rewrite (left_id_L ∅ (∪)).
  - intros a' Ha'. apply H, elem_of_app. by left.
Qed.

Lemma unions_empty {A} (f : A → gset bytes) l : (∀ a, a ∈ l → f a = ∅) → ⋃ (f <$> l) = ∅.
Proof.
  induction l as [|a l IH]; intros H; [done|]. cbn. rewrite (H a), IH; [set_solver| |by left].
  intros a' Ha'. apply H. by right.
Qed.

(** A resolver as the constructors make it: entries and no restriction. *)
Definition unrestricted (r : SecretResolver) : Prop := r = plain_resolver (by_placeholder r).

Lemma some_resolver_Some m r : some_resolver m = Some r → r = plain_resolver m.
Proof. unfold some_resolver. case_bool_decide; congruence. Qed.

Lemma merge_unrestricted l r :
  Forall unrestricted l → SecretResolver_merge l = Some r →
  r = plain_resolver (extend_all by_placeholder l).
Proof.
  intros Hl. unfold SecretResolver_merge. case_bool_decide; [done|]. intros [= <-].
  rewrite list.Forall_forall in Hl. unfold plain_resolver. f_equal.
  - apply extend_all_empty. intros a ->%Hl. done.
  - apply unions_empty. intros a ->%Hl. done.
  - apply unions_empty. intros a ->%Hl. done.
  - apply extend_all_empty. intros a ->%Hl. done.
Qed.

(** ** Compiled bindings *)

Section bindings.
Context {glob : Glob}.

(** What a compiled delivery guarantees. *)
Record compiled_delivery (d : delivery) (bindings : gmap bytes CompiledStaticCredentialBinding)
  : Prop := {
  cd_binding key b : bindings !! key = Some b →
    ∃ sb, d_bindings d !! key = Some sb
      ∧ compile_binding (split_static_credential_metadata (d_dynamic d)).1 key sb = Ok b;
  cd_handles key b : bindings !! key = Some b → compiled_handle b = []
    ∨ is_valid_workload_credential_handle (compiled_handle b) = true;
  cd_classified key : key ∈ map fst (d_env d) → is_Some (bindings !! key) ∨ key ∈ d_non_secret d;
  cd_disjoint key : is_Some (bindings !! key) → key ∉ d_non_secret d;
  cd_delivered key : is_Some (bindings !! key) → key ∈ map fst (d_env d);
}.

Lemma compile_binding_fields metadata key sb b :
  compile_binding metadata key sb = Ok b →
  compiled_identity b = credential_identity sb ∧ compiled_handle b = workload_credential_handle sb.
Proof.
  unfold compile_binding. rewrite let_Ok. intros (p & _ & H). apply let_Ok in H as (e & _ & [= <-]).
  done.
Qed.

Lemma compiled_list_lookup metadata (l : list (bytes * StaticCredentialBinding)) compiled key b :
  NoDup (map fst l) →
  try_collect (λ '(key, binding), let? c := compile_binding metadata key binding in Ok (key, c)) l
    = Ok compiled →
  (list_to_map compiled : gmap bytes CompiledStaticCredentialBinding) !! key = Some b ↔
  ∃ sb, (key, sb) ∈ l ∧ compile_binding metadata key sb = Ok b.
Proof.
  intros Hnd Hc%try_collect_Forall2.
  assert (map fst compiled = map fst l) as Hkeys.
  { clear Hnd. induction Hc as [|[k x] [k' y] l' c' H Hc IH]; [done|]. cbn.
    apply let_Ok in H as (c & _ & [= <- <-]). by rewrite IH. }
  rewrite <- elem_of_list_to_map by (change (NoDup (map fst compiled)); by rewrite Hkeys). split.
  - intros Hin. apply list_elem_of_lookup in Hin as [i Hi].
    destruct (Forall2_lookup_r _ _ _ _ _ Hc Hi) as ([k x] & Hx & H).
    apply let_Ok in H as (c & H & [= <- <-]). exists x. split; [by apply list_elem_of_lookup_2 in Hx|done].
  - intros (sb & Hin & Hb). apply list_elem_of_lookup in Hin as [i Hi].
    destruct (Forall2_lookup_l _ _ _ _ _ Hc Hi) as ([k y] & Hy & H).
    apply let_Ok in H as (c & H & [= <- <-]). rewrite Hb in H. injection H as <-.
    by apply list_elem_of_lookup_2 in Hy.
Qed.

Lemma check_bindings_handle (l : list (bytes * StaticCredentialBinding)) out key sb :
  try_collect (λ '(_, binding), check_binding binding) l = Ok out → (key, sb) ∈ l →
  workload_credential_handle sb = []
  ∨ is_valid_workload_credential_handle (workload_credential_handle sb) = true.
Proof.
  intros Hc%try_collect_Forall2 Hin. apply list_elem_of_lookup in Hin as [i Hi].
  destruct (Forall2_lookup_l _ _ _ _ _ Hc Hi) as (u & _ & H). unfold check_binding in H.
  destruct (is_empty (credential_identity sb)); [done|].
  destruct (is_empty (endpoints sb)); [done|].
  destruct (is_empty (workload_credential_handle sb)) eqn:E; [left; by apply is_empty_true|].
  right. by destruct (is_valid_workload_credential_handle _).
Qed.

Lemma elem_of_keys {A} (m : gmap bytes A) key : key ∈ map fst (map_to_list m) ↔ is_Some (m !! key).
Proof.
  rewrite list_elem_of_fmap. split.
  - intros ([k x] & -> & Hin). apply elem_of_map_to_list in Hin. by exists x.
  - intros [x Hx]. exists (key, x). split; [done|]. by apply elem_of_map_to_list.
Qed.

Lemma existsb_false {A} (f : A → bool) l x : existsb f l = false → x ∈ l → f x = false.
Proof.
  intros Hf Hx. destruct (f x) eqn:E; [|done]. rewrite <- Hf. symmetry. apply existsb_elem. eauto.
Qed.

Lemma compile_delivery_spec d bindings :
  compile_delivery d = Ok bindings → compiled_delivery d bindings.
Proof.
  unfold compile_delivery, compile_static_credential_bindings.
  set (metadata := (split_static_credential_metadata (d_dynamic d)).1).
  do 6 (match goal with |- (if ?b then _ else _) = _ → _ => destruct b; [done|] end).
  match goal with |- (if ?b then _ else _) = _ → _ => destruct b eqn:Hdis; [done|] end.
  match goal with |- (if ?b then _ else _) = _ → _ => destruct b eqn:Hcls; [done|] end.
  match goal with |- (if ?b then _ else _) = _ → _ => destruct b eqn:Hmiss; [done|] end.
  rewrite let_Ok. intros (us & Hcheck & H). apply let_Ok in H as (compiled & Hcomp & [= <-]).
  rewrite !orb_false_iff in Hmiss. destruct Hmiss as [[Hmiss _] _].
  pose proof (λ key b, compiled_list_lookup metadata (map_to_list (d_bindings d)) compiled key b
    (NoDup_fst_map_to_list _) Hcomp) as Hlook.
  assert (∀ key b, (list_to_map compiled : gmap bytes CompiledStaticCredentialBinding) !! key = Some b →
    ∃ sb, d_bindings d !! key = Some sb ∧ compile_binding metadata key sb = Ok b) as Hb.
  { intros key b (sb & Hin & Hcb)%Hlook. apply elem_of_map_to_list in Hin. eauto. }
  assert (∀ key, is_Some ((list_to_map compiled : gmap bytes CompiledStaticCredentialBinding) !! key) →
    key ∈ map fst (map_to_list (d_bindings d))) as Hkey.
  { intros key [b Hkb]. destruct (Hb key b Hkb) as (sb & Hsb & _). apply elem_of_keys. by exists sb. }
  split.
  - exact Hb.
  - intros key b Hkb. destruct (Hb key b Hkb) as (sb & Hsb & Hcb).
    destruct (compile_binding_fields _ _ _ _ Hcb) as [_ ->].
    by eapply check_bindings_handle, elem_of_map_to_list.
  - intros key Hin. pose proof (existsb_false _ _ _ Hcls Hin) as E. cbn in E.
    apply andb_false_iff in E as [E|E]; apply negb_false_iff in E.
    + left. destruct (d_bindings d !! key) as [sb|] eqn:Hsb; [|done].
      apply elem_of_map_to_list in Hsb. apply list_elem_of_lookup in Hsb as [i Hi].
      destruct (Forall2_lookup_l _ _ _ _ _ (try_collect_Forall2 _ _ _ Hcomp) Hi) as ([k y] & Hy & H).
      apply let_Ok in H as (c & H & [= <- <-]). exists c. apply Hlook. exists sb.
      split; [by apply list_elem_of_lookup_2 in Hi|done].
    + right. by apply bool_decide_eq_true, elem_of_list_to_set in E.
  - intros key Hin%Hkey. pose proof (existsb_false _ _ _ Hdis Hin) as E. cbn in E.
    apply bool_decide_eq_false in E. by rewrite elem_of_list_to_set in E.
  - intros key Hin%Hkey. pose proof (existsb_false _ _ _ Hmiss Hin) as E. cbn in E.
    apply negb_false_iff, bool_decide_eq_true in E. by rewrite elem_of_list_to_set in E.
Qed.
End bindings.

(** ** Runs of the state *)

Section runs.
Context {glob : Glob}.

(** An environment that was installed, with its compiled bindings. *)
Record installation := installed {
  i_delivery : delivery;
  i_bindings : gmap bytes CompiledStaticCredentialBinding;
}.
Abbreviation i_revision i := (d_revision (i_delivery i)).
Abbreviation i_handles i := (static_credential_stable_handles (i_bindings i)).
Abbreviation i_keys i := (map fst (d_env (i_delivery i))).

(** A delivery as the gateway sends it: a 64-bit revision and valid keys. *)
Definition delivery_ok (d : delivery) : Prop :=
  0 ≤ d_revision d ≤ u64_max ∧ Forall (λ key, is_env_key key = true) (map fst (d_env d)).

Definition installs (i : installation) : Prop :=
  delivery_ok (i_delivery i) ∧ compile_delivery (i_delivery i) = Ok (i_bindings i).

(** The states a supervisor can reach, with the installations of which some
    material may still be there, the latest first. It starts empty or with a
    delivery; it installs and prepares deliveries, revokes after a failure,
    hides keys and replaces files. A process without resolvers takes over
    prepared environments. Only tests call [install_environment]. *)
Inductive Run : list installation → ProviderCredentialStateInner → Prop :=
| run_empty uuid revision dynamic : Run [] (from_environment uuid revision [] ∅ dynamic)
| run_child uuid revision env : Run [] (from_child_env_snapshot uuid revision env)
| run_start uuid i inner :
    installs i → from_bound_environment_with_stable_placeholders uuid (i_delivery i) = Ok inner →
    Run [i] inner
| run_install h inner uuid i n inner' :
    Run h inner → installs i →
    install_bound_environment_with_stable_placeholders inner uuid (i_delivery i) = (Ok n, inner') →
    Run (i :: h) inner'
| run_failed h inner uuid d e inner' :
    Run h inner → install_bound_environment_with_stable_placeholders inner uuid d = (Err e, inner') →
    Run h inner'
| run_prepared h inner uuid i candidate new_files :
    Run h inner → installs i →
    from_bound_environment_with_stable_placeholders uuid (i_delivery i) = Ok candidate →
    Run (i :: h) (install_prepared inner (set_managed_files candidate new_files))
| run_revoke h inner uuid revision :
    Run h inner → Run h (revoke_static_provider_environment inner uuid revision)
| run_remove_key h inner uuid key : Run h inner → Run h (remove_env_key inner uuid key)
| run_files h inner new_files : Run h inner → Run h (set_managed_files inner new_files)
| run_child_install h inner uuid revision env :
    Run h inner → Run [] (install_child_env_snapshot inner uuid revision env)
| run_compare_install h inner uuid expected revision env :
    Run h inner → expected = snapshot_revision (current inner) →
    Run [] (compare_and_install_child_env_snapshot inner uuid expected revision env).2.

(** The entries of a generation, and of a current resolver, are an installation's. *)
Definition of_installation (i : installation) (forms : bytes → bytes → Prop) (r : SecretResolver)
  : Prop :=
  unrestricted r ∧ ∀ ph sv, by_placeholder r !! ph = Some sv →
    registered (d_expires (i_delivery i)) (d_env (i_delivery i)) forms ph sv.

Definition generation_of (i : installation) (r : SecretResolver) : Prop :=
  of_installation i (generation_form (i_revision i) (i_handles i)) r.
Definition current_of (i : installation) (r : SecretResolver) : Prop :=
  of_installation i (current_form (i_revision i) (i_handles i)) r.

(** Every revision of an epoch is that of an installation under its identity. *)
Definition epochs_backed_by (h : list installation)
  (epochs : gmap bytes StaticCredentialIdentityEpoch) : Prop :=
  ∀ key e rev, epochs !! key = Some e → rev ∈ epoch_revisions e →
    ∃ i b, i ∈ h ∧ i_revision i = rev ∧ i_bindings i !! key = Some b
      ∧ compiled_identity b = identity e.

Record Inv (h : list installation) (inner : ProviderCredentialStateInner) : Prop := {
  inv_installs : Forall installs h;
  inv_generations : Forall (λ r, ∃ i, i ∈ h ∧ generation_of i r
      ∧ static_credential_identities (i_bindings i)
        = static_credential_identities (static_credential_bindings inner)) (generations inner);
  inv_bindings : static_credential_bindings inner = ∅
    ∨ ∃ i, i ∈ h ∧ i_bindings i = static_credential_bindings inner;
  inv_bound : (length (generations inner) ≤ MAX_RETAINED_CREDENTIAL_GENERATIONS)%nat;
  inv_current r : current_resolver inner = Some r →
    ∃ i, i ∈ h ∧ current_of i r ∧ i_bindings i = static_credential_bindings inner;
  inv_combined : combined_resolver inner
    = merge_resolvers (generations inner) (current_resolver inner);
  inv_known i : i ∈ h → dom (i_bindings i) ⊆ known_static_credential_keys inner;
  inv_epochs : epochs_backed_by h (static_credential_identity_epochs inner);
  inv_suppressed key : key ∈ suppressed_keys inner → child_env (current inner) !! key = None;
  inv_non_secret key : key ∈ non_secret_environment_keys inner →
    static_credential_bindings inner !! key = None;
  inv_child key ph : child_env (current inner) !! key = Some ph →
    is_Some (static_credential_bindings inner !! key) →
    ∃ i, i ∈ h ∧ i_bindings i = static_credential_bindings inner
      ∧ ph = issued_placeholder (i_handles i) (i_revision i) key;
}.

Lemma stable_handles_lookup (bindings : gmap bytes CompiledStaticCredentialBinding) key h :
  static_credential_stable_handles bindings !! key = Some h ↔
  ∃ b, bindings !! key = Some b ∧ compiled_handle b = h ∧ h ≠ [].
Proof.
  unfold static_credential_stable_handles. rewrite lookup_fmap, fmap_Some.
  setoid_rewrite map_lookup_filter_Some. setoid_rewrite is_empty_false. cbn. naive_solver.
Qed.

Lemma installs_readable i : installs i → readable (i_keys i) (i_revision i) (i_handles i).
Proof.
  intros [[Hr Hk] Hc]. apply compile_delivery_spec in Hc. split; [done..|].
  intros key h (b & Hb & <- & Hne)%stable_handles_lookup.
  by destruct (cd_handles _ _ Hc key b Hb).
Qed.

Lemma delivered_spec i env gen cur :
  delivered (i_delivery i) (i_bindings i) = (env, gen, cur) →
  (∀ r, gen = Some r → generation_of i r) ∧ (∀ r, cur = Some r → current_of i r)
  ∧ ∀ key ph, env !! key = Some ph → ph = issued_placeholder (i_handles i) (i_revision i) key.
Proof.
  unfold delivered, from_provider_env_for_current_revision_with_stable_handles.
  destruct (foldl _ _ _) as [[child g] c] eqn:E. intros [= <- <- <-].
  apply register_sound in E as [H1 H2 H3]. split_and!.
  - intros r ->%some_resolver_Some. by split.
  - intros r ->%some_resolver_Some. by split.
  - intros key ph (_ & _ & ?)%H1. done.
Qed.

Lemma epochs_lookup (epochs : gmap bytes StaticCredentialIdentityEpoch) (revision : Z)
  (bindings : gmap bytes CompiledStaticCredentialBinding) (key : bytes) :
  update_static_credential_identity_epochs epochs revision bindings !! key =
  match bindings !! key with
  | Some b => if is_empty (compiled_handle b)
              then Some (epoch_step revision b (epochs !! key)) else None
  | None => None
  end.
Proof.
  unfold update_static_credential_identity_epochs.
  set (retained := filter (λ entry, revision_scoped bindings entry.1 = true) epochs).
  assert (∀ m, map_fold (λ key binding epochs,
      if negb (is_empty (compiled_handle binding)) then epochs
      else <[key := epoch_step revision binding (epochs !! key)]> epochs) retained m !! key
    = match m !! key with
      | Some b => if is_empty (compiled_handle b)
                  then Some (epoch_step revision b (retained !! key)) else retained !! key
      | None => retained !! key
      end) as ->.
  { intros m. apply (map_fold_weak_ind (λ (acc : gmap bytes StaticCredentialIdentityEpoch)
      (m : gmap bytes CompiledStaticCredentialBinding), acc !! key = match m !! key with
      | Some b => if is_empty (compiled_handle b)
                  then Some (epoch_step revision b (retained !! key)) else retained !! key
      | None => retained !! key
      end)); [by rewrite lookup_empty|].
    intros k b m' acc Hk IH. destruct (decide (k = key)) as [->|Hne].
    - rewrite lookup_insert_eq. rewrite Hk in IH.
      destruct (is_empty (compiled_handle b)); cbn [negb]; [by rewrite lookup_insert_eq, IH|done].
    - rewrite lookup_insert_ne by done. rewrite <- IH.
      destruct (negb _); [done|by rewrite lookup_insert_ne]. }
  assert (retained !! key = if revision_scoped bindings key then epochs !! key else None) as ->.
  { unfold retained. rewrite map_lookup_filter. cbn. unfold revision_scoped.
    destruct (epochs !! key); cbn; [|by repeat case_match].
    by repeat case_match. }
  unfold revision_scoped. destruct (bindings !! key) as [b|]; [|done].
  by destruct (is_empty (compiled_handle b)).
Qed.

(** A state that took over a delivery: the fields the operations have in common. *)
Record takes_over (i : installation) (inner inner' : ProviderCredentialStateInner) : Prop := {
  to_bindings : static_credential_bindings inner' = i_bindings i;
  to_generations : generations inner'
    = retain_latest (same_identity_generations inner (i_bindings i)
                     ++ option_list (delivered (i_delivery i) (i_bindings i)).1.2);
  to_current : current_resolver inner' = (delivered (i_delivery i) (i_bindings i)).2;
  to_combined : combined_resolver inner'
    = merge_resolvers (generations inner') (current_resolver inner');
  to_known : known_static_credential_keys inner'
    = known_static_credential_keys inner ∪ dom (i_bindings i);
  to_epochs : static_credential_identity_epochs inner'
    = update_static_credential_identity_epochs (static_credential_identity_epochs inner)
        (i_revision i) (i_bindings i);
  to_child : child_env (current inner')
    = without_keys (suppressed_keys inner) (delivered (i_delivery i) (i_bindings i)).1.1;
  to_suppressed : suppressed_keys inner' = suppressed_keys inner;
  to_non_secret : non_secret_environment_keys inner' = list_to_set (d_non_secret (i_delivery i));
}.

Lemma retain_latest_elem r l : r ∈ retain_latest l → r ∈ l.
Proof. apply elem_of_drop_in. Qed.
Lemma retain_latest_length l :
  (length (retain_latest l) ≤ MAX_RETAINED_CREDENTIAL_GENERATIONS)%nat.
Proof. unfold retain_latest. rewrite length_drop. lia. Qed.
Lemma retain_latest_id l :
  (length l ≤ MAX_RETAINED_CREDENTIAL_GENERATIONS)%nat → retain_latest l = l.
Proof. intros. unfold retain_latest. by replace (length l - _)%nat with 0%nat by lia. Qed.

Lemma without_keys_Some keys env key v :
  without_keys keys env !! key = Some v ↔ env !! key = Some v ∧ key ∉ keys.
Proof. unfold without_keys. by rewrite map_lookup_filter_Some. Qed.

Lemma epochs_backed h i epochs :
  epochs_backed_by h epochs →
  epochs_backed_by (i :: h)
    (update_static_credential_identity_epochs epochs (i_revision i) (i_bindings i)).
Proof.
  intros HI key e rev. rewrite epochs_lookup.
  destruct (i_bindings i !! key) as [b|] eqn:Hb; [|done].
  destruct (is_empty (compiled_handle b)); [|done]. intros [= <-]. unfold epoch_step.
  assert (rev = i_revision i → ∃ j b', j ∈ i :: h ∧ i_revision j = rev
    ∧ i_bindings j !! key = Some b' ∧ compiled_identity b' = compiled_identity b) as Hnew.
  { intros ->. exists i, b. split_and!; [by left|done..]. }
  destruct (epochs !! key) as [e|] eqn:He; [case_bool_decide as Hid|];
    cbn [epoch_revisions identity]; rewrite ?elem_of_union, elem_of_singleton; [|done..].
  rewrite Hid. intros [Hrev|Hrev]; [by apply Hnew|].
  destruct (HI _ _ _ He Hrev) as (j & b' & Hj & ? & ? & Hj').
  exists j, b'. split_and!; [by right|done|done|by rewrite Hj'].
Qed.

Lemma Inv_takes_over h inner i inner' :
  Inv h inner → installs i → takes_over i inner inner' → Inv (i :: h) inner'.
Proof.
  intros HI Hi [Tb Tg Tc Tm Tk Te Tch Ts Tn].
  destruct (delivered (i_delivery i) (i_bindings i)) as [[env gen] cur] eqn:Hd. cbn [fst snd] in *.
  destruct (delivered_spec i env gen cur Hd) as (Hgen & Hcur & Hchild).
  pose proof (compile_delivery_spec _ _ (proj2 Hi)) as Hcd.
  split.
  - constructor; [done|apply HI].
  - rewrite Tg, Tb. apply list.Forall_forall. intros r Hr%retain_latest_elem.
    apply elem_of_app in Hr as [Hr|Hr].
    + unfold same_identity_generations in Hr. case_bool_decide as Hid; [|by apply elem_of_nil in Hr].
      pose proof (inv_generations _ _ HI) as Hg. rewrite list.Forall_forall in Hg.
      destruct (Hg r Hr) as (j & Hj & Hof & Hids). exists j. split_and!; [by right|done|].
      by rewrite Hids.
    + destruct gen as [g|]; [|by apply elem_of_nil in Hr]. apply list_elem_of_singleton in Hr as ->.
      exists i. split_and!; [by left|by apply Hgen|done].
  - right. exists i. split; [by left|done].
  - rewrite Tg. apply retain_latest_length.
  - rewrite Tc, Tb. intros r Hr. exists i. split_and!; [by left|by apply Hcur|done].
  - done.
  - rewrite Tk. intros j [->|Hj]%elem_of_cons; [set_solver|].
    pose proof (inv_known _ _ HI j Hj). set_solver.
  - rewrite Te. apply epochs_backed, (inv_epochs _ _ HI).
  - rewrite Tch, Ts. intros key Hkey. destruct (without_keys _ env !! key) eqn:E; [|done].
    by apply without_keys_Some in E as [_ ?].
  - rewrite Tn, Tb. intros key Hkey%elem_of_list_to_set.
    destruct (i_bindings i !! key) as [b|] eqn:Hb; [|done]. exfalso.
    eapply (cd_disjoint _ _ Hcd); [by eexists|done].
  - rewrite Tch, Tb. intros key ph [Hph _]%without_keys_Some _. exists i.
    split_and!; [by left|done|by apply Hchild].
Qed.

Lemma empty_Inv uuid revision dynamic : Inv [] (from_environment uuid revision [] ∅ dynamic).
Proof. split; cbn; try done; [by left|vm_compute; lia|]. by intros i Hi%elem_of_nil. Qed.

Lemma cleared_Inv inner uuid revision env flag : Inv [] (cleared_for inner uuid revision env flag).
Proof.
  split; cbn; try done; [by left|lia|by intros i Hi%elem_of_nil| |].
  - intros key Hkey. destruct (without_keys _ env !! key) eqn:E; [|done].
    by apply without_keys_Some in E as [_ ?].
  - intros key ph _ [? Hk]. by rewrite lookup_empty in Hk.
Qed.

Lemma revoke_Inv h inner uuid revision dynamic :
  Inv h inner → Inv h (revoke_static_provider_environment_inner inner uuid revision dynamic).
Proof.
  intros HI. split; cbn; try done; try apply HI; [by left|lia].
Qed.

(** Building a state is taking over a delivery from the empty one. *)
Lemma start_takes_over uuid i inner :
  installs i → from_bound_environment_with_stable_placeholders uuid (i_delivery i) = Ok inner →
  takes_over i (from_environment [] 0 [] ∅ ∅) inner
  ∧ snapshot_revision (current inner) = i_revision i.
Proof.
  intros [_ Hc]. unfold from_bound_environment_with_stable_placeholders. rewrite Hc.
  destruct (delivered (i_delivery i) (i_bindings i)) as [[env gen] cur] eqn:Hd.
  intros [= <-]. split; [|done]. split; cbn; rewrite ?Hd; try done.
  - unfold same_identity_generations. cbn. destruct (bool_decide _); cbn; by destruct gen.
  - by rewrite (left_id_L ∅ (∪)).
  - symmetry. apply map_filter_id. intros; set_solver.
Qed.

Lemma install_takes_over h inner uuid i n inner' :
  Inv h inner → installs i →
  install_bound_environment_with_stable_placeholders inner uuid (i_delivery i) = (Ok n, inner') →
  takes_over i inner inner'.
Proof.
  intros HI [_ Hc]. unfold install_bound_environment_with_stable_placeholders. rewrite Hc.
  destruct (delivered (i_delivery i) (i_bindings i)) as [[env gen] cur] eqn:Hd.
  intros [= _ <-]. split; cbn; rewrite ?Hd; try done. cbn. destruct gen as [g|]; [done|].
  cbn. rewrite app_nil_r, retain_latest_id; [done|]. unfold same_identity_generations.
  case_bool_decide; [apply HI|cbn; lia].
Qed.

Lemma prepared_takes_over inner uuid i candidate new_files :
  installs i → from_bound_environment_with_stable_placeholders uuid (i_delivery i) = Ok candidate →
  takes_over i inner (install_prepared inner (set_managed_files candidate new_files)).
Proof.
  intros [_ Hc]. unfold from_bound_environment_with_stable_placeholders. rewrite Hc.
  destruct (delivered (i_delivery i) (i_bindings i)) as [[env gen] cur] eqn:Hd.
  intros [= <-]. split; cbn; rewrite ?Hd; done.
Qed.

Lemma run_Inv h inner : Run h inner → Inv h inner.
Proof.
  induction 1 as [uuid rev dyn|uuid rev env|uuid i inner Hi Hb|h inner uuid i n inner' Hr IH Hi Hb
    |h inner uuid d e inner' Hr IH Hb|h inner uuid i candidate fs Hr IH Hi Hb|h inner uuid rev Hr IH
    |h inner uuid key Hr IH|h inner fs Hr IH|h inner uuid rev env Hr IH
    |h inner uuid ex rev env Hr IH Hex].
  - apply empty_Inv.
  - split; cbn; try done; [by left|lia|by intros i Hi%elem_of_nil|].
    intros key ph _ [? Hk]. by rewrite lookup_empty in Hk.
  - apply (Inv_takes_over [] (from_environment [] 0 [] ∅ ∅)); [apply empty_Inv|done|].
    by apply (start_takes_over uuid).
  - eapply Inv_takes_over; [done..|]. by eapply install_takes_over.
  - unfold install_bound_environment_with_stable_placeholders in Hb.
    destruct (compile_delivery d) as [b|e'].
    + by destruct (delivered d b) as [[??]?].
    + injection Hb as _ <-. by apply revoke_Inv.
  - eapply Inv_takes_over; [done..|]. by eapply prepared_takes_over.
  - by apply revoke_Inv.
  - destruct IH as [H1 H2 H2' H3 H4 H5 H6 H7 H8 H9 H10]. split; cbn; try done.
    + intros k [->%elem_of_singleton|Hk]%elem_of_union; [by rewrite lookup_delete_eq|].
      apply H8 in Hk. destruct (decide (key = k)) as [->|]; [by rewrite lookup_delete_eq|].
      by rewrite lookup_delete_ne.
    + intros k ph [_ Hk]%lookup_delete_Some. by apply H10.
  - by destruct IH.
  - apply cleared_Inv.
  - unfold compare_and_install_child_env_snapshot. rewrite Hex, Z.eqb_refl. apply cleared_Inv.
Qed.

(** ** What the state releases *)

(** An entry of a resolver that the state still keeps: of a generation that was
    not evicted, or of the current one. A revocation leaves none. *)
Definition kept (inner : ProviderCredentialStateInner) (i : installation) (ph : bytes) (sv : SecretValue)
  : Prop :=
  ∃ r, by_placeholder r !! ph = Some sv
    ∧ (r ∈ generations inner ∧ generation_of i r
       ∨ current_resolver inner = Some r ∧ current_of i r
         ∧ i_bindings i = static_credential_bindings inner).
(** The entries of the state's resolver, each with its installation. *)
Definition held (h : list installation) (inner : ProviderCredentialStateInner) (ph : bytes)
  (sv : SecretValue) (i : installation) (key value : bytes) : Prop :=
  i ∈ h ∧ (key, value) ∈ d_env (i_delivery i) ∧ sv = secret_for (d_expires (i_delivery i)) key value
  ∧ uses_reserved_revision_namespace key = false
  ∧ current_form (i_revision i) (i_handles i) key ph
  ∧ static_credential_identities (i_bindings i)
    = static_credential_identities (static_credential_bindings inner)
  ∧ kept inner i ph sv.

Lemma combined_entries h inner c :
  Inv h inner → combined_resolver inner = Some c →
  unrestricted c ∧ ∀ ph sv, by_placeholder c !! ph = Some sv →
    ∃ i key value, held h inner ph sv i key value.
Proof.
  intros HI Hc. rewrite (inv_combined _ _ HI) in Hc. unfold merge_resolvers in Hc.
  pose proof (inv_generations _ _ HI) as Hgen. rewrite list.Forall_forall in Hgen.
  apply merge_unrestricted in Hc as ->.
  2: { apply Forall_app. split.
       - apply list.Forall_forall. intros r (i & _ & [? _] & _)%Hgen. done.
       - destruct (current_resolver inner) as [r|] eqn:Hr; repeat constructor.
         destruct (inv_current _ _ HI r Hr) as (i & _ & [? _] & _). done. }
  split; [done|]. intros ph sv (r & Hin & Hph)%extend_all_Some.
  apply elem_of_app in Hin as [Hin|Hin].
  - destruct (Hgen r Hin) as (i & Hi & Hg & Hids). pose proof Hg as [_ Hof].
    destruct (Hof _ _ Hph) as (key & value & Hkv & Hns & (Hh & Hrev & Hform) & Hsv).
    exists i, key, value. split_and!; [done..| |done|exists r; split; [done|by left]].
    right. unfold issued_placeholder. by rewrite Hh.
  - destruct (current_resolver inner) as [r'|] eqn:Hr; [|by apply elem_of_nil in Hin].
    apply list_elem_of_singleton in Hin as ->.
    destruct (inv_current _ _ HI r' Hr) as (i & Hi & Hg & Hb). pose proof Hg as [_ Hof].
    destruct (Hof _ _ Hph) as (key & value & Hkv & Hns & Hform & Hsv).
    exists i, key, value. split_and!; [done..|by rewrite Hb|exists r'; split; [done|by right]].
Qed.

Lemma held_env_key h inner ph sv i key value :
  Forall installs h → held h inner ph sv i key value → placeholder_env_key ph = Some key.
Proof.
  intros Hh (Hi & Hkv & _ & Hns & Hform & _). rewrite list.Forall_forall in Hh.
  destruct Hform as [->| ->]; [by apply canonical_not_reserved|].
  eapply issued_env_key; [by apply installs_readable, Hh| |done].
  apply list_elem_of_fmap. by exists (key, value).
Qed.

Lemma endpoint_resolver now inner host port path r :
  resolver_for_endpoint now inner host port path = Ok (Some r) →
  ∃ c request_path, combined_resolver inner = Some c
    ∧ redact_target_for_policy now (split_target path).1 = Ok request_path
    ∧ let allowed := allowed_keys inner (split_on 46 (to_ascii_lowercase host)) port request_path in
      r = scoped_to_env_keys (with_placements c (placements_of inner))
            (known_static_credential_keys inner) allowed
            (filter (λ entry, entry.1 ∈ allowed) (current_epochs inner)).
Proof.
  unfold resolver_for_endpoint, resolver_and_body_classifier_for_endpoint. rewrite let_Ok.
  intros ([[r' cl] rev] & H & [= ->]).
  destruct (redact_target_for_policy now (split_target path).1) as [rp|e]; [|by destruct e].
  injection H as H _ _. destruct (combined_resolver inner) as [c|]; [|done].
  injection H as <-. by exists c, rp.
Qed.

(** An endpoint a delivered binding names, for a request. *)
Definition authorizes (sb : StaticCredentialBinding) (host : bytes) (port : Z) (path : bytes) : Prop :=
  ∃ eb, eb ∈ endpoints sb ∧ endpoint_port eb = port
    ∧ HostPattern.host_matches (endpoint_host eb) host = Ok true
    ∧ EndpointPath.matches (EndpointPath.new (endpoint_path eb)) path = true.

Lemma allowed_authorized h inner host port path key :
  Inv h inner → key ∈ allowed_keys inner (split_on 46 (to_ascii_lowercase host)) port path →
  ∃ j sb b, j ∈ h ∧ i_bindings j = static_credential_bindings inner
    ∧ d_bindings (i_delivery j) !! key = Some sb ∧ i_bindings j !! key = Some b
    ∧ compiled_identity b = credential_identity sb ∧ authorizes sb host port path.
Proof.
  intros HI. unfold allowed_keys. rewrite elem_of_dom. intros [b Hb].
  apply map_lookup_filter_Some in Hb as [Hb Hm]. cbn in Hm.
  apply existsb_elem in Hm as (ce & Hce & Hm).
  destruct (inv_bindings _ _ HI) as [He|(j & Hj & Hjb)]; [by rewrite He, lookup_empty in Hb|].
  rewrite <- Hjb in Hb. pose proof (inv_installs _ _ HI) as Hi. rewrite list.Forall_forall in Hi.
  destruct (cd_binding _ _ (compile_delivery_spec _ _ (proj2 (Hi j Hj))) _ _ Hb) as (sb & Hsb & Hcb).
  exists j, sb, b. split_and!; [done..|by apply compile_binding_fields in Hcb as [? _]|].
  unfold compile_binding in Hcb. apply let_Ok in Hcb as (p & _ & Hcb).
  apply let_Ok in Hcb as (es & Hes & [= <-]). cbn in Hce. apply try_collect_Forall2 in Hes.
  apply list_elem_of_lookup in Hce as [n Hn].
  destruct (Forall2_lookup_r _ _ _ _ _ Hes Hn) as (eb & Heb & Hc).
  exists eb. split; [by apply list_elem_of_lookup_2 in Heb|].
  unfold compile_static_credential_endpoint in Hc. apply let_Ok in Hc as (hp & Hhp & Hc).
  apply map_err_Ok in Hhp. destruct (_ && _) in Hc; [|done]. injection Hc as <-.
  unfold static_credential_endpoint_matches in Hm. cbn in Hm.
  rewrite !andb_true_iff, Z.eqb_eq in Hm. destruct Hm as [[? ?] ?].
  unfold HostPattern.host_matches, HostPattern.matches. rewrite Hhp. split_and!; [done|by f_equal|done].
Qed.

(** An entry under a token with a revision is of the installation with it. *)
Lemma held_revision h inner ph sv i key value revision key' :
  Forall installs h → held h inner ph sv i key value →
  revisioned_placeholder_parts ph = Some (revision, key') → key' = key ∧ i_revision i = revision.
Proof.
  intros Hh (Hi & Hkv & _ & Hns & Hform & _) Hp. rewrite list.Forall_forall in Hh.
  destruct (installs_readable i (Hh i Hi)) as [Hr Hk _]. rewrite list.Forall_forall in Hk.
  assert (is_env_key key = true) as Hkey by (apply Hk, list_elem_of_fmap; by exists (key, value)).
  destruct (canonical_not_reserved key Hns) as (Hcan & _).
  destruct Hform as [->| ->]; [by rewrite Hcan in Hp|]. unfold issued_placeholder in Hp.
  destruct (i_handles i !! key); [by rewrite stable_not_revision in Hp|].
  destruct (decide (i_revision i = 0)) as [E|Hne].
  { rewrite E in Hp. change (placeholder_for_env_key_for_revision key 0)
      with (placeholder_for_env_key key) in Hp. by rewrite Hcan in Hp. }
  rewrite revisioned_parts_issued in Hp by (done || lia). by injection Hp as <- <-.
Qed.

Lemma same_identity (m m' : gmap bytes CompiledStaticCredentialBinding) key b' :
  static_credential_identities m = static_credential_identities m' → m' !! key = Some b' →
  ∃ b, m !! key = Some b ∧ compiled_identity b = compiled_identity b'.
Proof.
  intros E Hb'. apply (f_equal (lookup key)) in E. unfold static_credential_identities in E.
  rewrite !lookup_fmap, Hb' in E. destruct (m !! key) as [b|]; [|done]. exists b.
  split; [done|]. by injection E.
Qed.

Lemma fallback_revision_listed r revision key :
  revision_excluded r revision key = false → key ∈ identity_bound_env_keys r →
  ∃ revs, revision_fallback_allowed_revisions r !! key = Some revs ∧ revision ∈ revs.
Proof.
  unfold revision_excluded. intros H Hb. rewrite bool_decide_eq_true_2 in H by done.
  destruct (revision_fallback_allowed_revisions r !! key) as [revs|]; [|done].
  exists revs. split; [done|]. cbn in H. by apply negb_false_iff, bool_decide_eq_true in H.
Qed.

(** Unwrapping non-secret values changes only their keys, and adds none. *)
Lemma unwrap_fold now r flag l env env' :
  foldl (unwrap_non_secret now r flag) (Ok env) l = Ok env' →
  ∀ key, (key ∉ l → env' !! key = env !! key) ∧ (env !! key = None → env' !! key = None).
Proof.
  revert env. induction l as [|k l IH]; intros env; cbn [foldl]; [by intros [= <-]|].
  destruct (unwrap_non_secret now r flag (Ok env) k) as [env1|e] eqn:E.
  2: { intros H. exfalso. clear -H. induction l as [|k' l IH]; cbn in H; [done|auto]. }
  intros H key. destruct (IH env1 H key) as [IH1 IH2].
  assert ((key ≠ k → env1 !! key = env !! key) ∧ (env !! key = None → env1 !! key = None)) as [H1 H2].
  { unfold unwrap_non_secret in E. destruct (env !! k) as [v|] eqn:Hk; cbn in E; [|by injection E as <-].
    destruct (flag && _); [by injection E as <-|]. apply let_Ok in E as ([o|] & _ & [= <-]); [|done].
    split; intros; [by rewrite lookup_insert_ne|]. destruct (decide (k = key)) as [->|]; [by simplify_eq|].
    by rewrite lookup_insert_ne. }
  rewrite not_elem_of_cons. split; [|auto]. intros [? ?]. rewrite IH1, H1; done.
Qed.

(** The two variables of the sandbox's own metadata service. *)
Definition synthetic (key v : bytes) : Prop :=
  (key = lit "GCE_METADATA_IP" ∧ v = METADATA_LOOPBACK_ADDR)
  ∨ (key = lit "METADATA_SERVER_DETECTION" ∧ v = lit "assume-present").

Lemma environment_lookup now inner snap :
  child_environment_snapshot now inner = Ok snap →
  ∃ env0 : gmap bytes bytes, (∀ key v, env0 !! key = Some v → child_env (current inner) !! key = Some v
      ∨ (key = GCE_METADATA_HOST ∧ v = METADATA_LOOPBACK_ADDR ∨ synthetic key v)
        ∧ is_Some (child_env (current inner) !! GCE_METADATA_HOST)
        ∧ GCE_METADATA_HOST ∈ non_secret_environment_keys inner)
    ∧ ∀ key, (key ∉ non_secret_environment_keys inner → environment snap !! key = env0 !! key)
             ∧ (env0 !! key = None → environment snap !! key = None).
Proof.
  unfold child_environment_snapshot. rewrite let_Ok. intros ([rev env] & H & [= <-]).
  cbn [environment snd]. unfold resolve_child_env_snapshot in H.
  set (gcp := is_some _ && _) in H.
  destruct (negb gcp && _); [injection H as _ <-; exists (child_env (current inner)); by auto|].
  apply let_Ok in H as (env1 & Hfold & [= _ <-]).
  match type of Hfold with match _ with Some r => foldl _ (Ok ?e0) _ | None => _ end = _ =>
    exists e0 end.
  split.
  - intros key v. destruct gcp eqn:Hg; [|by left]. unfold gcp in Hg.
    apply andb_true_iff in Hg as [Hg1 Hg2%bool_decide_eq_true].
    assert (is_Some (child_env (current inner) !! GCE_METADATA_HOST)) as Hsome
      by (by destruct (child_env (current inner) !! GCE_METADATA_HOST)).
    rewrite !lookup_insert_Some. unfold synthetic.
    intros [[<- <-]|[_ [[<- <-]|[_ [[<- <-]|[_ H]]]]]]; [right; by auto 10..|by left].
  - intros key. destruct (combined_resolver inner) as [r|]; [|by injection Hfold as <-].
    destruct (unwrap_fold _ _ _ _ _ _ Hfold key) as [H1 H2]. split; [|done].
    intros Hns. apply H1. by rewrite elem_of_elements.
Qed.

(** ** Properties *)

(** C4: a credential goes only where it is bound. Whatever token a request to an
    endpoint carries, in whatever place, the text it resolves to is a value some
    installation delivered, of which the state still keeps the entry (in a
    generation it retains or in its current resolver), free of CR, LF and NUL
    and not expired; and either no installation since the state was last
    replaced has ever bound that key, and this one delivered it as non-secret
    configuration, or the current installation binds the key, under the same
    credential identity, to an endpoint that matches the request's host, port
    and path. *)
Theorem credential_released_only_at_its_endpoint now h inner host port path r location token s :
  Run h inner → resolver_for_endpoint now inner host port path = Ok (Some r) →
  resolve_placeholder now (with_request_location r location) token = Ok (Some s) →
  ∃ i key ph, i ∈ h ∧ (key, s) ∈ d_env (i_delivery i)
    ∧ kept inner i ph (secret_for (d_expires (i_delivery i)) key s) ∧ clean s
    ∧ unexpired now (secret_for (d_expires (i_delivery i)) key s)
    ∧ ((∀ j, j ∈ h → i_bindings j !! key = None) ∧ key ∈ d_non_secret (i_delivery i)
       ∨ ∃ j sb b request_path, j ∈ h ∧ i_bindings j = static_credential_bindings inner
           ∧ d_bindings (i_delivery j) !! key = Some sb
           ∧ i_bindings i !! key = Some b ∧ compiled_identity b = credential_identity sb
           ∧ redact_target_for_policy now (split_target path).1 = Ok request_path
           ∧ authorizes sb host port request_path).
Proof.
  intros HI%run_Inv Hr Hs. destruct (endpoint_resolver _ _ _ _ _ _ Hr) as (c & rp & Hc & Hrp & ->).
  apply resolve_placeholder_released in Hs as (ph & sv & Hph & _ & -> & Hclean & Hun & _).
  rewrite located_entries in Hph. apply scoped_entries in Hph as [Hph Hscope].
  destruct (combined_entries _ _ _ HI Hc) as [_ Hent].
  destruct (Hent _ _ Hph) as (i & key & value & Hheld).
  pose proof (held_env_key _ _ _ _ _ _ _ (inv_installs _ _ HI) Hheld) as Hkey.
  destruct Hheld as (Hi & Hkv & -> & _ & _ & Hids & Hkept). exists i, key, ph.
  split_and!; [done..|]. destruct (decide (key ∈ known_static_credential_keys inner)) as [Hknown|Hnever].
  - right. destruct (allowed_authorized h inner host port rp key HI (Hscope key Hkey Hknown))
      as (j & sb & b' & Hj & Hjb & Hsb & Hb' & Hid & Hauth). rewrite Hjb in Hb'.
    destruct (same_identity _ _ _ _ Hids Hb') as (b & Hb & Hid').
    exists j, sb, b, rp. split_and!; try done. by rewrite Hid'.
  - left. assert (∀ j, j ∈ h → i_bindings j !! key = None) as Hnone.
    { intros j Hj. apply not_elem_of_dom. intros Hin. by apply Hnever, (inv_known _ _ HI j Hj). }
    split; [done|]. pose proof (inv_installs _ _ HI) as Hin. rewrite list.Forall_forall in Hin.
    destruct (cd_classified _ _ (compile_delivery_spec _ _ (proj2 (Hin i Hi))) key) as [[b Hb]|Hns]; [| |done].
    + apply list_elem_of_fmap. by exists (key, value).
    + by rewrite Hnone in Hb.
Qed.

(** C26: a token of a revision is honoured only under the identity it was issued
    for. If a token carries a revision of a key that was ever bound and resolves
    at an endpoint, some installation with that revision bound the key under the
    credential identity of the current binding: a process that outlived a change
    of provider cannot use the replacement's credential. *)
Theorem token_resolves_only_under_its_identity now h inner host port path r location token s
  revision key :
  Run h inner → resolver_for_endpoint now inner host port path = Ok (Some r) →
  resolve_placeholder now (with_request_location r location) token = Ok (Some s) →
  revisioned_placeholder_parts (canonical_token token) = Some (revision, key) →
  key ∈ known_static_credential_keys inner →
  ∃ i b b', i ∈ h ∧ i_revision i = revision ∧ i_bindings i !! key = Some b
    ∧ static_credential_bindings inner !! key = Some b'
    ∧ compiled_identity b = compiled_identity b'.
Proof.
  intros HI%run_Inv Hr Hs Hparts Hknown.
  destruct (endpoint_resolver _ _ _ _ _ _ Hr) as (c & rp & Hc & Hrp & ->).
  apply resolve_placeholder_released in Hs as (ph & sv & Hph & Hname & _).
  rewrite located_entries in Hph. apply scoped_entries in Hph as [Hph Hscope].
  destruct (combined_entries _ _ _ HI Hc) as [_ Hent].
  destruct (Hent _ _ Hph) as (i & key' & value & Hheld).
  pose proof (held_env_key _ _ _ _ _ _ _ (inv_installs _ _ HI) Hheld) as Hkey.
  destruct Hname as [->|(rev & k & Hp & Hex & ->)].
  - destruct (held_revision _ _ _ _ _ _ _ _ _ (inv_installs _ _ HI) Hheld Hparts) as [-> Hrev].
    destruct Hheld as (Hi & _ & _ & _ & _ & Hids & _).
    destruct (allowed_authorized h inner host port rp key' HI (Hscope key' Hkey Hknown))
      as (j & sb & b' & _ & Hjb & _ & Hb' & _). rewrite Hjb in Hb'.
    destruct (same_identity _ _ _ _ Hids Hb') as (b & Hb & Hid). by exists i, b, b'.
  - rewrite Hparts in Hp. injection Hp as <- <-.
    destruct (fallback_revision_listed _ _ _ Hex Hknown) as (revs & Hrevs & Hin).
    apply map_lookup_filter_Some in Hrevs as [Hrevs _].
    unfold current_epochs in Hrevs. rewrite lookup_fmap, fmap_Some in Hrevs.
    destruct Hrevs as (e & He & ->). apply map_lookup_filter_Some in He as [He Hid]. cbn in Hid.
    destruct (static_credential_bindings inner !! key) as [b'|]; [|done].
    apply bool_decide_eq_true in Hid.
    destruct (inv_epochs _ _ HI _ _ _ He Hin) as (i' & b & Hi' & Hrev & Hb & Hid').
    exists i', b, b'. split_and!; [done..|]. by rewrite Hid, Hid'.
Qed.

(** The workload's environment holds no bound credential. Under a key the
    current installation binds, the environment of a new process has the
    placeholder that installation issued, a text that does not depend on the
    credential's value, or the address of the sandbox's metadata service; and a
    key that was removed stays out. *)
Theorem workload_environment_holds_placeholders now h inner snap key v :
  Run h inner → child_environment_snapshot now inner = Ok snap → environment snap !! key = Some v →
  (is_Some (static_credential_bindings inner !! key) →
   synthetic key v
   ∨ ∃ i, i ∈ h ∧ i_bindings i = static_credential_bindings inner
       ∧ v = issued_placeholder (i_handles i) (i_revision i) key)
  ∧ (key ∈ suppressed_keys inner →
     (key = lit "GCE_METADATA_IP" ∨ key = lit "METADATA_SERVER_DETECTION")
     ∧ GCE_METADATA_HOST ∉ suppressed_keys inner).
Proof.
  intros HI%run_Inv Hsnap Hv.
  destruct (environment_lookup _ _ _ Hsnap) as (env0 & H0 & Hk). destruct (Hk key) as [H1 H2]. split.
  - intros Hb. assert (key ∉ non_secret_environment_keys inner) as Hns.
    { intros Hin. apply (inv_non_secret _ _ HI) in Hin. rewrite Hin in Hb. by destruct Hb. }
    rewrite H1 in Hv by done.
    destruct (H0 _ _ Hv) as [Hc|([[-> _]|Hsyn] & _ & Hin)]; [|done|by left].
    right. by apply (inv_child _ _ HI).
  - intros Hs. destruct (env0 !! key) as [v0|] eqn:E0; [|by rewrite H2 in Hv].
    destruct (H0 _ _ E0) as [Hc|(Hsyn & [x Hx] & _)]; [by rewrite (inv_suppressed _ _ HI key Hs) in Hc|].
    assert (GCE_METADATA_HOST ∉ suppressed_keys inner) as Hns.
    { intros Hin. by rewrite (inv_suppressed _ _ HI _ Hin) in Hx. }
    split; [|done]. destruct Hsyn as [[-> _]|[[-> _]|[-> _]]]; [done|by left|by right].
Qed.





End runs.

(** ** Witnesses *)

(** A computation that succeeds is the value it is read with. *)
Lemma built_ok {A E} (x : result A E) d : is_some (ok x) = true → x = Ok (default d (ok x)).
Proof. by destruct x. Qed.
Lemma built_some {A E} (x : result (option A) E) d :
  is_some (default None (ok x)) = true → x = Ok (Some (default d (default None (ok x)))).
Proof. by destruct x as [[]|]. Qed.

Module Demo.
(** One provider key, for one host, to be sent as [x-api-key]. *)
Definition delivery : ProviderCredentials.delivery :=
  delivery_of 7
    [(lit "API_KEY", lit "sk-123"); (lit "REGION", lit "eu")] ∅
    {[ lit "static-env:API_KEY" :=
         profile_credential [lit "API_KEY"] (lit "header") (lit "X-Api-Key") [] None [] None [] ]}
    {[ lit "API_KEY" :=
         binding_of [endpoint_binding (lit "*.example.com") 443 []] (lit "provider-1") [] ]}
    [lit "REGION"] [].

Definition bindings : gmap bytes (CompiledStaticCredentialBinding (glob := simple_glob)) :=
  default ∅ (ok (compile_delivery delivery)).
Definition installation : installation (glob := simple_glob) := installed delivery bindings.

Definition empty_state : ProviderCredentialStateInner (glob := simple_glob) :=
  from_environment (lit "id-0") 0 [] ∅ ∅.
Definition state : ProviderCredentialStateInner (glob := simple_glob) :=
  default empty_state (ok (from_bound_environment_with_stable_placeholders (lit "id-1") delivery)).

Lemma installs_delivery : installs installation.
Proof.
  split; [split; [vm_compute; by split|repeat constructor]|].
  apply built_ok. vm_compute. reflexivity.
Qed.
Lemma state_built :
  from_bound_environment_with_stable_placeholders (lit "id-1") (i_delivery installation) = Ok state.
Proof. apply built_ok. vm_compute. reflexivity. Qed.
Lemma state_runs : Run [installation] state.
Proof. eapply run_start; [apply installs_delivery|apply state_built]. Qed.

(** The resolver of a request to the bound host. *)
Definition host : bytes := lit "api.example.com".
Definition path : bytes := lit "/v1/models?limit=5".
Definition resolver : SecretResolver :=
  default (plain_resolver ∅) (default None (ok (resolver_for_endpoint 0 state host 443 path))).
Lemma resolver_built : resolver_for_endpoint 0 state host 443 path = Ok (Some resolver).
Proof. apply built_some. vm_compute. reflexivity. Qed.
Definition token : bytes := lit "openshell:resolve:env:v7_API_KEY".
Lemma token_resolves :
  resolve_placeholder 0 (with_request_location resolver (InHeader (lit "x-api-key"))) token
  = Ok (Some (lit "sk-123")).
Proof. vm_compute. reflexivity. Qed.
End Demo.

Lemma credential_released_only_at_its_endpoint_witness :
  ∃ i key, i ∈ [Demo.installation] ∧ (key, lit "sk-123") ∈ d_env (i_delivery i).
Proof.
  destruct (credential_released_only_at_its_endpoint (glob := simple_glob) 0 [Demo.installation]
    Demo.state Demo.host 443 Demo.path Demo.resolver (InHeader (lit "x-api-key")) Demo.token
    (lit "sk-123") Demo.state_runs Demo.resolver_built Demo.token_resolves)
    as (i & key & ph & Hi & Hkv & _).
  exists i, key. split; [exact Hi|exact Hkv].
Defined.

Lemma token_resolves_only_under_its_identity_witness :
  ∃ i, i ∈ [Demo.installation] ∧ d_revision (i_delivery i) = 7.
Proof.
  destruct (token_resolves_only_under_its_identity (glob := simple_glob) 0 [Demo.installation]
    Demo.state Demo.host 443 Demo.path Demo.resolver (InHeader (lit "x-api-key")) Demo.token
    (lit "sk-123") 7 (lit "API_KEY") Demo.state_runs Demo.resolver_built Demo.token_resolves)
    as (i & _ & _ & Hi & Hrev & _); [vm_compute; reflexivity| |].
  - apply (bool_decide_eq_true _). vm_compute. reflexivity.
  - exists i. split; [exact Hi|exact Hrev].
Defined.

Lemma workload_environment_holds_placeholders_witness :
  ∃ snap, child_environment_snapshot 0 Demo.state = Ok snap
    ∧ environment snap !! lit "API_KEY" = Some Demo.token
    ∧ environment snap !! lit "REGION" = Some (lit "eu")
    ∧ (synthetic (lit "API_KEY") Demo.token
       ∨ ∃ i, i ∈ [Demo.installation]
           ∧ i_bindings i = static_credential_bindings Demo.state
           ∧ Demo.token = issued_placeholder (static_credential_stable_handles (i_bindings i))
                            (d_revision (i_delivery i)) (lit "API_KEY")).
Proof.
  destruct (child_environment_snapshot 0 Demo.state) as [snap|e] eqn:E; [|by vm_compute in E].
  assert (environment snap !! lit "API_KEY" = Some Demo.token) as Hk.
  { assert (match child_environment_snapshot 0 Demo.state with
            | Ok s => environment s !! lit "API_KEY" | Err _ => None end = Some Demo.token)
      as H by (vm_compute; reflexivity). by rewrite E in H. }
  assert (environment snap !! lit "REGION" = Some (lit "eu")) as Hr.
  { assert (match child_environment_snapshot 0 Demo.state with
            | Ok s => environment s !! lit "REGION" | Err _ => None end = Some (lit "eu"))
      as H by (vm_compute; reflexivity). by rewrite E in H. }
  exists snap. split; [done|]. split; [exact Hk|]. split; [exact Hr|].
  apply (workload_environment_holds_placeholders (glob := simple_glob) 0 [Demo.installation]
    Demo.state snap (lit "API_KEY") Demo.token Demo.state_runs E Hk).
  apply (bool_decide_eq_true _). vm_compute. reflexivity.
Defined.


(** A placement does not hold for every spelling of a token. The key of the
    demo state is to be sent as [x-api-key] only, and its token is refused in
    [Authorization]. With a second revision prefix before the first, the
    placement check reads the key as [v7_API_KEY], which has no placement and may
    be sent in [Authorization]; the lookup falls back to the placeholder of that
    key, which is the issued token, and the value is sent. *)
Theorem nested_revision_evades_placement :
  let send token := rewrite_header_line_checked 0
                      (lit "Authorization: Bearer openshell:resolve:env:" ++ token) Demo.resolver in
  resolver_for_endpoint 0 Demo.state Demo.host 443 Demo.path = Ok (Some Demo.resolver)
  ∧ send (lit "v7_API_KEY") = Err (Unresolved (lit "header") PlacementMismatch)
  ∧ send (lit "v0_v7_API_KEY") = Ok (lit "Authorization: Bearer sk-123").
Proof. split; [exact Demo.resolver_built|]. split; vm_compute; reflexivity. Qed.
