(* ===== verification/Destination.v ===== *)
(** * Destination: destination validation of sandbox egress
    (crates/openshell-supervisor-network/src/proxy/destination.rs and the
    resolution functions of proxy.rs)

    Every connection a sandbox opens passes here after policy allows it: a
    plan says which addresses the destination may have, the host is resolved,
    and the addresses are checked. The world the code reads (the system
    resolver, the sandbox's hosts file) is the class [World]; [ipnet] is
    [CidrNet] of Net.v with its text parser. Reasons of a denial are values
    of [reason], one constructor for each message. *)

From Stdlib Require Import ZifyBool.
From S2P Require Import Prelude Net IpParse.
Import IpParse.

(** [std::net::SocketAddr]. *)
Record SocketAddr := socket { ip : IpAddr; port : Z }.
#[export] Instance SocketAddr_eq_dec : EqDecision SocketAddr.
Proof. solve_decision. Defined.

(** What the code reads of the outside: [tokio::net::lookup_host], whose
    answers carry the port asked for, and the text of
    [/proc/<pid>/root/etc/hosts] when it can be read. *)
Class World := {
  lookup_host : bytes → Z → option (list SocketAddr);
  sandbox_hosts_file : Z → option bytes;
  lookup_host_port host p addrs a : lookup_host host p = Some addrs → In a addrs → port a = p;
  lookup_host_wf host p addrs a : lookup_host host p = Some addrs → In a addrs → ip_wf (ip a);
}.

(** [str::parse::<IpNet>] of the [ipnet] crate. *)
Class IpNetText (N4 N6 : Type) := { ipnet_parse : bytes → option (IpNet N4 N6) }.

(** ** Host names *)

Definition HOST_GATEWAY_ALIASES : list bytes :=
  [lit "host.openshell.internal"; lit "host.containers.internal"; lit "host.docker.internal"].
Definition CLOUD_METADATA_IPS : list IpAddr := [V4 (ipv4 169 254 169 254)].
Definition BLOCKED_CONTROL_PLANE_PORTS : list Z := [2379; 2380; 6443; 10250; 10255].

Definition control_plane (port : Z) : bool := contains_byte port BLOCKED_CONTROL_PLANE_PORTS.

Definition strip_brackets (host : bytes) : bytes :=
  match strip_prefix (lit "[") host with
  | Some trimmed => default host (strip_suffix (lit "]") trimmed)
  | None => host
  end.

Definition normalize_host_lookup_key (host : bytes) : bytes :=
  let h := strip_brackets host in default h (strip_suffix (lit ".") h).

Definition is_host_gateway_alias (host : bytes) : bool :=
  existsb (λ alias, eq_ignore_ascii_case alias (normalize_host_lookup_key host))
    HOST_GATEWAY_ALIASES.

Definition is_cloud_metadata_ip (ip : IpAddr) : bool :=
  match ip with
  | V4 _ => bool_decide (ip ∈ CLOUD_METADATA_IPS)
  | V6 v6 =>
      match Ipv6Addr.to_ipv4_mapped v6 with
      | Some v4 => bool_decide (V4 v4 ∈ CLOUD_METADATA_IPS)
      | None => false
      end
  end.

Definition resolve_ip_literal (host : bytes) (port : Z) : option (list SocketAddr) :=
  (λ ip, [socket ip port]) <$> parse_ip (normalize_host_lookup_key host).

(** The code's [Vec<String>] holds at most the one lookup key. *)
Definition implicit_allowed_ips_for_ip_host (host : bytes) : list bytes :=
  let lookup_host := normalize_host_lookup_key host in
  match parse_ip lookup_host with
  | Some ip => if is_always_blocked_ip ip then [] else [lookup_host]
  | None => []
  end.

(** ** Hosts files *)

(** [str::lines]: a line ends at [\n] or [\r\n]; a last empty one is dropped. *)
Definition strip_cr (line : bytes) : bytes := default line (strip_suffix [13] line).
Fixpoint lines_of (parts : list bytes) : list bytes :=
  match parts with
  | [] => []
  | [p] => if decide (p = []) then [] else [p]
  | p :: ps => strip_cr p :: lines_of ps
  end.
Definition lines (s : bytes) : list bytes := lines_of (split_on 10 s).

(** [str::split_whitespace]: the maximal runs of other chars. Every round
    takes a byte at least, so one more than the length is enough fuel. *)
Definition emit (cur : bytes) (rest : list bytes) : list bytes :=
  if decide (cur = []) then rest else reverse cur :: rest.
Fixpoint split_whitespace_fuel (fuel : nat) (cur s : bytes) : list bytes :=
  match fuel, s with
  | O, _ | _, [] => emit cur []
  | S fuel, b :: s' =>
      match ws_len s with
      | O => split_whitespace_fuel fuel (b :: cur) s'
      | n => emit cur (split_whitespace_fuel fuel [] (drop n s))
      end
  end.
Definition split_whitespace (s : bytes) : list bytes :=
  split_whitespace_fuel (S (length s)) [] s.

(** The address a line of the file gives the host, if any. *)
Definition hosts_line_ip (lookup_host raw_line : bytes) : option IpAddr :=
  let line := trim (default [] (head (split_on 35 raw_line))) in
  match split_whitespace line with
  | [] => None
  | ip_str :: fields =>
      match parse_ip ip_str with
      | None => None
      | Some ip =>
          if existsb (λ alias, eq_ignore_ascii_case alias lookup_host) fields then Some ip else None
      end
  end.

Definition push_new (addrs : list IpAddr) (ip : IpAddr) : list IpAddr :=
  if decide (ip ∈ addrs) then addrs else addrs ++ [ip].

Definition parse_hosts_file_for_host (contents host : bytes) : list IpAddr :=
  let lookup_host := normalize_host_lookup_key host in
  fold_left (λ addrs raw_line,
    match hosts_line_ip lookup_host raw_line with
    | Some ip => push_new addrs ip
    | None => addrs
    end) (lines contents) [].

Definition resolve_from_hosts_file_contents (contents host : bytes) (port : Z)
  : list SocketAddr :=
  map (λ ip, socket ip port) (parse_hosts_file_for_host contents host).

(** [contents] is what [/etc/hosts] held when the proxy started. *)
Definition detect_trusted_host_gateway (contents : option bytes) : option IpAddr :=
  match contents with
  | None => None
  | Some contents =>
      match head (parse_hosts_file_for_host contents (lit "host.openshell.internal")) with
      | None => None
      | Some ip =>
          if is_cloud_metadata_ip ip then None
          else if negb (is_link_local_ip ip) then None
          else Some ip
      end
  end.

(** ** Reasons and errors *)

Inductive reason : Type :=
| ControlPlanePort (port : Z)
| NoAddresses (host : bytes)
| LookupFailed (host : bytes) (port : Z)
| LookupEmpty (host : bytes) (port : Z)
| IsInternal (host : bytes) (ip : IpAddr)
| IsAlwaysBlocked (host : bytes) (ip : IpAddr)
| NotInAllowedIps (host : bytes) (ip : IpAddr)
| IsMetadata (host : bytes) (ip : IpAddr)
| BackendIsMetadata (ip : IpAddr)
| NotTrustedGateway (host : bytes) (ip expected : IpAddr)
| NotBackendGateway (host : bytes) (ip expected : IpAddr)
| NotLinkLocal (host : bytes) (ip : IpAddr)
| Unpinned (host : bytes) (ip : IpAddr)
| EmptyPinnedSet
| BadAllowedIps (errors : list (bytes * bool)).

Inductive DestinationCheckError : Type :=
| Resolution (r : reason)
| Denied (r : reason).

Inductive DestinationDenialKind : Type :=
| KindResolution
| KindTrustedGateway
| KindInvalidAllowedIps
| KindAllowedIps
| KindDeclaredEndpoint
| KindInternalAddress.

Record DestinationDenial := denial { kind : DestinationDenialKind; why : reason }.

Definition from_check (error : DestinationCheckError) (denied_kind : DestinationDenialKind)
  : DestinationDenial :=
  match error with
  | Resolution r => denial KindResolution r
  | Denied r => denial denied_kind r
  end.

Inductive EndpointResult : Type := TransportFailed | PolicyDenied.
Definition endpoint_result_for_destination_failure (k : DestinationDenialKind) : EndpointResult :=
  match k with KindResolution => TransportFailed | _ => PolicyDenied end.

(** ** Resolution *)

Inductive AddressBinding : Type := NameAuthorized | IpConstrained.
Definition allows_sandbox_hosts (b : AddressBinding) : bool :=
  match b with IpConstrained => true | NameAuthorized => false end.

Section resolution.
Context {world : World}.

Definition resolve_from_sandbox_hosts (host : bytes) (port entrypoint_pid : Z)
  : option (list SocketAddr) :=
  if entrypoint_pid =? 0 then None
  else match sandbox_hosts_file entrypoint_pid with
  | None => None
  | Some contents =>
      let addrs := resolve_from_hosts_file_contents contents host port in
      if decide (addrs = []) then None else Some addrs
  end.

Definition resolve_nonliteral_socket_addrs (host : bytes) (port : Z)
  (address_binding : AddressBinding) (sandbox_hosts : option (list SocketAddr))
  : result (list SocketAddr) reason :=
  match allows_sandbox_hosts address_binding, sandbox_hosts with
  | true, Some addrs => Ok addrs
  | _, _ =>
      let dns_host := strip_brackets host in
      match lookup_host dns_host port with
      | None => Err (LookupFailed dns_host port)
      | Some [] => Err (LookupEmpty dns_host port)
      | Some addrs => Ok addrs
      end
  end.

Definition resolve_socket_addrs (host : bytes) (port entrypoint_pid : Z)
  (address_binding : AddressBinding) : result (list SocketAddr) reason :=
  match resolve_ip_literal host port with
  | Some addrs => Ok addrs
  | None =>
      let sandbox_hosts :=
        if allows_sandbox_hosts address_binding
        then resolve_from_sandbox_hosts host port entrypoint_pid else None in
      resolve_nonliteral_socket_addrs host port address_binding sandbox_hosts
  end.
End resolution.

(** ** Checks of the resolved addresses *)

(** The first address a check rejects decides the reason. *)
Fixpoint first_rejection (check : IpAddr → option reason) (addrs : list SocketAddr)
  : result unit reason :=
  match addrs with
  | [] => Ok ()
  | a :: addrs =>
      match check (ip a) with Some r => Err r | None => first_rejection check addrs end
  end.

Definition reject_internal_resolved_addrs (host : bytes) (addrs : list SocketAddr)
  : result unit reason :=
  if decide (addrs = []) then Err (NoAddresses (normalize_host_lookup_key host))
  else first_rejection (λ ip,
         if is_internal_ip ip then Some (IsInternal host ip) else None) addrs.

Definition validate_declared_endpoint_resolved_addrs (host : bytes) (port : Z)
  (addrs : list SocketAddr) : result unit reason :=
  if decide (addrs = []) then Err (NoAddresses (normalize_host_lookup_key host))
  else if control_plane port then Err (ControlPlanePort port)
  else first_rejection (λ ip,
         if is_always_blocked_ip ip then Some (IsAlwaysBlocked host ip) else None) addrs.

Section checks.
Context {N4 N6 : Type} {net4 : CidrNet 32 N4} {net6 : CidrNet 128 N6}.
Abbreviation net := (IpNet N4 N6).

Definition validate_allowed_ips_for_resolved_addrs (host : bytes) (port : Z)
  (addrs : list SocketAddr) (allowed_ips : list net) : result unit reason :=
  if decide (addrs = []) then Err (NoAddresses (normalize_host_lookup_key host))
  else if control_plane port then Err (ControlPlanePort port)
  else first_rejection (λ ip,
         if is_always_blocked_ip ip then Some (IsAlwaysBlocked host ip)
         else if negb (existsb (λ net, net_contains net ip) allowed_ips)
              then Some (NotInAllowedIps host ip)
         else None) addrs.

(** [IpNet::from(IpAddr)]: the network of that one address. *)
Definition net_from (ip : IpAddr) : net :=
  match ip with
  | V4 a => NetV4 (new_assert a 32)
  | V6 a => NetV6 (new_assert a 128)
  end.

Context {text : IpNetText N4 N6}.

(** The errors keep the entry and whether it is always blocked (else it is no
    address at all); the broad-prefix warning changes nothing. *)
Definition parse_allowed_ips (raw : list bytes) : result (list net) reason :=
  let '(nets, errors) :=
    fold_left (λ '(nets, errors) entry,
      let parsed :=
        match ipnet_parse entry with
        | Some n => Some n
        | None => net_from <$> parse_ip entry
        end in
      match parsed with
      | Some n =>
          if is_always_blocked_net n then (nets, errors ++ [(entry, true)])
          else (nets ++ [n], errors)
      | None => (nets, errors ++ [(entry, false)])
      end) raw ([], []) in
  if decide (errors = []) then Ok nets else Err (BadAllowedIps errors).

(** ** Plans *)

Inductive AddressAuthorization : Type :=
| DefaultPublicOnly
| ExplicitAllowedIps (networks : list net)
| ExactDeclaredHost
| ImplicitIpLiteral (ip : IpAddr)
| TrustedGatewayAlias (expected_ip : IpAddr)
| BackendPinnedGateway (ip : IpAddr)
| PinnedResolved (addresses : list IpAddr).

Record DestinationValidationPlan := plan { address_authorization : AddressAuthorization }.

Definition build_validation_plan (host normalized_host : bytes)
  (backend_host_gateway trusted_host_gateway : option IpAddr)
  (raw_allowed_ips : list bytes) (exact_declared_endpoint_host : bool)
  : result DestinationValidationPlan DestinationDenial :=
  let? address_authorization :=
    match is_host_gateway_alias normalized_host, backend_host_gateway with
    | true, Some expected_ip => Ok (BackendPinnedGateway expected_ip)
    | _, _ =>
    match is_host_gateway_alias normalized_host, trusted_host_gateway with
    | true, Some expected_ip => Ok (TrustedGatewayAlias expected_ip)
    | _, _ =>
    if decide (raw_allowed_ips ≠ []) then
      let? nets := map_err (denial KindInvalidAllowedIps) (parse_allowed_ips raw_allowed_ips) in
      Ok (ExplicitAllowedIps nets)
    else
      match head (implicit_allowed_ips_for_ip_host host) ≫= parse_ip with
      | Some ip => Ok (ImplicitIpLiteral ip)
      | None => Ok (if exact_declared_endpoint_host then ExactDeclaredHost else DefaultPublicOnly)
      end
    end end in
  Ok (plan address_authorization).

Definition build_pinned_validation_plan (addresses : list IpAddr)
  : result DestinationValidationPlan DestinationDenial :=
  if decide (addresses = []) then Err (denial KindInvalidAllowedIps EmptyPinnedSet)
  else Ok (plan (PinnedResolved addresses)).

(** ** The policy-DNS filter *)

Definition filter_kind (auth : AddressAuthorization) : DestinationDenialKind * bool :=
  match auth with
  | TrustedGatewayAlias _ | BackendPinnedGateway _ => (KindTrustedGateway, true)
  | ExplicitAllowedIps _ | ImplicitIpLiteral _ => (KindAllowedIps, true)
  | ExactDeclaredHost => (KindDeclaredEndpoint, true)
  | DefaultPublicOnly => (KindInternalAddress, false)
  | PinnedResolved _ => (KindAllowedIps, false)
  end.

Definition filter_rejection (auth : AddressAuthorization) (host : bytes) (ip : IpAddr)
  : option reason :=
  match auth with
  | DefaultPublicOnly => if is_internal_ip ip then Some (IsInternal host ip) else None
  | ExplicitAllowedIps networks =>
      if is_always_blocked_ip ip then Some (IsAlwaysBlocked host ip)
      else if negb (existsb (λ network, net_contains network ip) networks)
           then Some (NotInAllowedIps host ip) else None
  | ImplicitIpLiteral expected_ip =>
      if is_always_blocked_ip ip then Some (IsAlwaysBlocked host ip)
      else if decide (ip ≠ expected_ip) then Some (NotInAllowedIps host ip) else None
  | ExactDeclaredHost =>
      if is_always_blocked_ip ip then Some (IsAlwaysBlocked host ip) else None
  | TrustedGatewayAlias expected_ip =>
      if is_cloud_metadata_ip ip then Some (IsMetadata host ip)
      else if decide (ip ≠ expected_ip) then Some (NotTrustedGateway host ip expected_ip)
      else if negb (is_link_local_ip ip) then Some (NotLinkLocal host ip) else None
  | BackendPinnedGateway expected_ip =>
      if is_cloud_metadata_ip ip then Some (IsMetadata host ip)
      else if decide (ip ≠ expected_ip) then Some (NotBackendGateway host ip expected_ip)
      else None
  | PinnedResolved pinned =>
      if decide (ip ∉ pinned) then Some (Unpinned host ip) else None
  end.

(** One turn of the loop: the addresses kept and the first rejection seen. *)
Definition filter_turn (auth : AddressAuthorization) (host : bytes)
  (st : list IpAddr * option reason) (ip : IpAddr) : list IpAddr * option reason :=
  let '(allowed, first) := st in
  match filter_rejection auth host ip with
  | Some r => (allowed, match first with Some f => Some f | None => Some r end)
  | None => (push_new allowed ip, first)
  end.

Definition filter_resolved_addresses (p : DestinationValidationPlan) (host : bytes) (port : Z)
  (resolved_ips : list IpAddr) : result (list IpAddr) DestinationDenial :=
  let auth := address_authorization p in
  let '(kind, control_plane_blocked) := filter_kind auth in
  if control_plane_blocked && control_plane port then Err (denial kind (ControlPlanePort port))
  else
    let '(allowed, first) := fold_left (filter_turn auth host) resolved_ips ([], None) in
    if decide (allowed = [])
    then Err (denial kind (default (NoAddresses (normalize_host_lookup_key host)) first))
    else Ok allowed.

(** ** Validation *)

Context {world : World}.

Definition resolve_and_check_trusted_gateway (host : bytes) (port : Z) (trusted_gw : IpAddr)
  (entrypoint_pid : Z) : result (list SocketAddr) DestinationCheckError :=
  if control_plane port then Err (Denied (ControlPlanePort port))
  else
    let? addrs := map_err Resolution (resolve_socket_addrs host port entrypoint_pid IpConstrained) in
    if decide (addrs = []) then Err (Resolution (NoAddresses (normalize_host_lookup_key host)))
    else
      let? _ := map_err Denied (first_rejection (λ ip,
        if is_cloud_metadata_ip ip then Some (IsMetadata host ip)
        else if decide (ip ≠ trusted_gw) then Some (NotTrustedGateway host ip trusted_gw)
        else if negb (is_link_local_ip ip) then Some (NotLinkLocal host ip)
        else None) addrs) in
      Ok addrs.

Definition resolve_and_reject_internal (host : bytes) (port : Z)
  : result (list SocketAddr) DestinationCheckError :=
  let? addrs := map_err Resolution (resolve_socket_addrs host port 0 NameAuthorized) in
  let? _ := map_err Denied (reject_internal_resolved_addrs host addrs) in
  Ok addrs.

Definition resolve_and_check_allowed_ips (host : bytes) (port : Z) (allowed_ips : list net)
  (entrypoint_pid : Z) : result (list SocketAddr) DestinationCheckError :=
  let? addrs := map_err Resolution (resolve_socket_addrs host port entrypoint_pid IpConstrained) in
  let? _ := map_err Denied (validate_allowed_ips_for_resolved_addrs host port addrs allowed_ips) in
  Ok addrs.

Definition resolve_and_check_declared_endpoint (host : bytes) (port : Z)
  : result (list SocketAddr) DestinationCheckError :=
  let? addrs := map_err Resolution (resolve_socket_addrs host port 0 NameAuthorized) in
  let? _ := map_err Denied (validate_declared_endpoint_resolved_addrs host port addrs) in
  Ok addrs.

Record DestinationRequest := request {
  req_host : bytes;
  req_port : Z;
  sandbox_entrypoint_pid : Z;
  req_plan : DestinationValidationPlan;
}.

Record UpstreamConnector := connector {
  conn_host : bytes;
  conn_port : Z;
  conn_addrs : list SocketAddr;
}.

(** The [match] of [validate_destination]: the addresses of the connector. *)
Definition destination_addrs (auth : AddressAuthorization) (host : bytes) (port pid : Z)
  : result (list SocketAddr) DestinationDenial :=
  match auth with
  | TrustedGatewayAlias expected_ip =>
      map_err (λ e, from_check e KindTrustedGateway)
        (resolve_and_check_trusted_gateway host port expected_ip pid)
  | BackendPinnedGateway ip =>
      if control_plane port then Err (denial KindTrustedGateway (ControlPlanePort port))
      else if is_cloud_metadata_ip ip then Err (denial KindTrustedGateway (BackendIsMetadata ip))
      else Ok [socket ip port]
  | ExplicitAllowedIps networks =>
      map_err (λ e, from_check e KindAllowedIps)
        (resolve_and_check_allowed_ips host port networks pid)
  | ImplicitIpLiteral ip =>
      map_err (λ e, from_check e KindAllowedIps)
        (resolve_and_check_allowed_ips host port [net_from ip] pid)
  | ExactDeclaredHost =>
      map_err (λ e, from_check e KindDeclaredEndpoint)
        (resolve_and_check_declared_endpoint host port)
  | DefaultPublicOnly =>
      map_err (λ e, from_check e KindInternalAddress) (resolve_and_reject_internal host port)
  | PinnedResolved addresses => Ok (map (λ address, socket address port) addresses)
  end.

Definition validate_destination (r : DestinationRequest)
  : result UpstreamConnector DestinationDenial :=
  let 'request host port pid p := r in
  let? addrs := destination_addrs (address_authorization p) host port pid in
  Ok (connector host port addrs).
End checks.
Arguments AddressAuthorization : clear implicits.
Arguments DestinationValidationPlan : clear implicits.
Arguments DestinationRequest : clear implicits.

(** ** The policy the modes stand for *)

Section properties.
Context {N4 N6 : Type} {net4 : CidrNet 32 N4} {net6 : CidrNet 128 N6}.

(** What each mode lets an address be dialled for. *)
Definition authorized (auth : AddressAuthorization N4 N6) (port : Z) (ip : IpAddr) : Prop :=
  match auth with
  | DefaultPublicOnly => is_internal_ip ip = false
  | ExplicitAllowedIps nets =>
      control_plane port = false ∧ is_always_blocked_ip ip = false
      ∧ ∃ n, In n nets ∧ net_contains n ip = true
  | ExactDeclaredHost => control_plane port = false ∧ is_always_blocked_ip ip = false
  | ImplicitIpLiteral expected =>
      control_plane port = false ∧ is_always_blocked_ip ip = false ∧ ip = expected
  | TrustedGatewayAlias expected =>
      control_plane port = false ∧ is_cloud_metadata_ip ip = false
      ∧ ip = expected ∧ is_link_local_ip ip = true
  | BackendPinnedGateway expected =>
      control_plane port = false ∧ is_cloud_metadata_ip ip = false ∧ ip = expected
  | PinnedResolved pinned => ip ∈ pinned
  end.

Definition plan_wf (auth : AddressAuthorization N4 N6) : Prop :=
  match auth with ImplicitIpLiteral ip => ip_wf ip | _ => True end.

(** The addresses each mode considers. *)
Definition mode_resolution {world : World} (auth : AddressAuthorization N4 N6)
  (host : bytes) (port pid : Z) : result (list SocketAddr) reason :=
  match auth with
  | TrustedGatewayAlias _ | ExplicitAllowedIps _ | ImplicitIpLiteral _ =>
      resolve_socket_addrs host port pid IpConstrained
  | ExactDeclaredHost | DefaultPublicOnly => resolve_socket_addrs host port 0 NameAuthorized
  | BackendPinnedGateway ip => Ok [socket ip port]
  | PinnedResolved addresses => Ok (map (λ a, socket a port) addresses)
  end.

Lemma first_rejection_Ok check addrs :
  first_rejection check addrs = Ok () ↔ Forall (λ a, check (ip a) = None) addrs.
Proof.
  induction addrs as [|a addrs IH]; simpl; [done|].
  rewrite Forall_cons_iff, <- IH. destruct (check (ip a)); naive_solver.
Qed.

Lemma net_from_contains (e x : IpAddr) :
  ip_wf e → net_contains (net_from (N4 := N4) (N6 := N6) e) x = true ↔ x = e.
Proof.
  assert (∀ w N `{!CidrNet w N} a b, 0 ≤ w → 0 ≤ a < 2 ^ w →
    contains (new_assert a w : N) b = true ↔ b = a) as Hc.
  { intros w N ? a b Hw Ha. rewrite contains_range, broadcast_network.
    rewrite new_assert_prefix_len, new_assert_network by lia.
    rewrite Z.sub_diag, Z.pow_0_r, Z.mod_1_r. lia. }
  destruct e as [a|a], x as [b|b]; intros Hwf; simpl; [|done|done|].
  - rewrite Hc; [naive_solver|lia|done].
  - rewrite Hc; [naive_solver|lia|done].
Qed.

Lemma parse_hosts_file_elem contents host ip :
  In ip (parse_hosts_file_for_host contents host)
  ↔ ∃ line, In line (lines contents)
            ∧ hosts_line_ip (normalize_host_lookup_key host) line = Some ip.
Proof.
  unfold parse_hosts_file_for_host. set (key := normalize_host_lookup_key host).
  enough (∀ ls acc, In ip (fold_left (λ addrs raw_line,
    match hosts_line_ip key raw_line with Some ip => push_new addrs ip | None => addrs end) ls acc)
    ↔ In ip acc ∨ ∃ line, In line ls ∧ hosts_line_ip key line = Some ip) as H.
  { rewrite H. simpl. naive_solver. }
  induction ls as [|l ls IH]; intros acc; simpl; [naive_solver|]. rewrite IH.
  destruct (hosts_line_ip key l) as [x|] eqn:E; [|naive_solver].
  assert (In ip (push_new acc x) ↔ In ip acc ∨ ip = x) as ->; [|naive_solver].
  unfold push_new. destruct (decide (x ∈ acc)) as [Hx|Hx].
  - apply list_elem_of_In in Hx. naive_solver.
  - rewrite in_app_iff. simpl. naive_solver.
Qed.

Lemma hosts_line_ip_wf key line ip : hosts_line_ip key line = Some ip → ip_wf ip.
Proof.
  unfold hosts_line_ip. repeat case_match; intros; simplify_eq. by eapply parse_ip_wf.
Qed.

(** Resolution always yields addresses, with the port asked for. *)
Lemma resolve_socket_addrs_ok {world : World} host p pid b addrs :
  resolve_socket_addrs host p pid b = Ok addrs →
  addrs ≠ [] ∧ ∀ a, In a addrs → port a = p ∧ ip_wf (ip a).
Proof.
  unfold resolve_socket_addrs, resolve_ip_literal.
  destruct (parse_ip _) as [x|] eqn:Hp; simpl.
  { intros [= <-]. split; [done|]. intros a [<-|[]]. split; [done|]. by eapply parse_ip_wf. }
  assert (∀ l, resolve_from_sandbox_hosts host p pid = Some l →
    l ≠ [] ∧ ∀ a, In a l → port a = p ∧ ip_wf (ip a)) as Hs.
  { intros l. unfold resolve_from_sandbox_hosts. destruct (pid =? 0); [done|].
    destruct (sandbox_hosts_file pid); [|done]. destruct (decide _); [done|].
    intros [= <-]. split; [done|]. unfold resolve_from_hosts_file_contents.
    intros a (x & <- & (l & _ & Hl)%parse_hosts_file_elem)%in_map_iff.
    split; [done|]. by eapply hosts_line_ip_wf. }
  assert (∀ l, match lookup_host (strip_brackets host) p with
    | None => Err (LookupFailed (strip_brackets host) p)
    | Some [] => Err (LookupEmpty (strip_brackets host) p)
    | Some addrs => Ok addrs end = Ok l → l ≠ [] ∧ ∀ a, In a l → port a = p ∧ ip_wf (ip a)) as Hd.
  { intros l. destruct (lookup_host _ p) as [[|x l']|] eqn:Hl; [done| |done].
    intros [= <-]. split; [done|]. intros a Ha.
    split; [by eapply lookup_host_port|by eapply lookup_host_wf]. }
  unfold resolve_nonliteral_socket_addrs. destruct b; simpl; [apply Hd|].
  destruct (resolve_from_sandbox_hosts host p pid) as [l|] eqn:E; [|apply Hd].
  intros [= <-]. by apply Hs.
Qed.

(** Each resolving mode checks every address, and the port when it must. *)
Lemma check_Ok (gate : bool) (r : reason) check addrs (P : IpAddr → Prop) :
  addrs ≠ [] → (∀ x, gate = false → check x = None ↔ P x) → (∀ x, P x → gate = false) →
  (if gate then Err r else first_rejection check addrs) = Ok ()
  ↔ Forall (λ a, P (ip a)) addrs.
Proof.
  intros Hne Hc Hg. destruct gate.
  - split; [done|]. destruct addrs as [|a l]; [done|]. intros [Hp%Hg _]%Forall_cons_iff. done.
  - rewrite first_rejection_Ok, !Forall_forall. naive_solver.
Qed.

Lemma explicit_check_Ok host p addrs (nets : list (IpNet N4 N6)) :
  addrs ≠ [] →
  validate_allowed_ips_for_resolved_addrs host p addrs nets = Ok ()
  ↔ Forall (λ a, authorized (ExplicitAllowedIps nets) p (ip a)) addrs.
Proof.
  intros Hne. unfold validate_allowed_ips_for_resolved_addrs. rewrite decide_False by done.
  apply check_Ok; [done| |unfold authorized; naive_solver]. intros x Hg. unfold authorized.
  rewrite <- existsb_exists.
  destruct (is_always_blocked_ip x), (existsb _ nets); naive_solver.
Qed.

Lemma implicit_check_Ok host p addrs e :
  addrs ≠ [] → ip_wf e →
  validate_allowed_ips_for_resolved_addrs host p addrs [net_from (N4 := N4) (N6 := N6) e] = Ok ()
  ↔ Forall (λ a, authorized (ImplicitIpLiteral e) p (ip a)) addrs.
Proof.
  intros Hne He. rewrite explicit_check_Ok by done. rewrite !Forall_forall. simpl.
  assert (∀ x, (∃ n, (net_from (N4 := N4) (N6 := N6) e = n ∨ False) ∧ net_contains n x = true) ↔ x = e) as Hx.
  { intros x. rewrite <- (net_from_contains e x He). naive_solver. }
  setoid_rewrite Hx. done.
Qed.

Lemma declared_check_Ok host p addrs :
  addrs ≠ [] →
  validate_declared_endpoint_resolved_addrs host p addrs = Ok ()
  ↔ Forall (λ a, authorized ExactDeclaredHost p (ip a)) addrs.
Proof.
  intros Hne. unfold validate_declared_endpoint_resolved_addrs. rewrite decide_False by done.
  apply check_Ok; [done| |unfold authorized; naive_solver]. intros x Hg. unfold authorized.
  destruct (is_always_blocked_ip x); naive_solver.
Qed.

Lemma public_check_Ok host p addrs :
  addrs ≠ [] →
  reject_internal_resolved_addrs host addrs = Ok ()
  ↔ Forall (λ a, authorized DefaultPublicOnly p (ip a)) addrs.
Proof.
  intros Hne. unfold reject_internal_resolved_addrs. rewrite decide_False by done.
  apply (check_Ok false EmptyPinnedSet); [done| |done]. intros x Hg. unfold authorized.
  destruct (is_internal_ip x); naive_solver.
Qed.

(** A resolving check succeeds with what was resolved. *)
Lemma resolve_check_Ok {A F} (res : result A reason) (f : A → result unit reason)
  (g : DestinationCheckError → F) c :
  map_err g (let? a := map_err Resolution res in
             let? _ := map_err Denied (f a) in Ok a) = Ok c
  ↔ res = Ok c ∧ f c = Ok ().
Proof.
  rewrite map_err_Ok, let_Ok. setoid_rewrite map_err_Ok. split.
  - intros (a & Ha & Hf). destruct (f a) as [[]|] eqn:E'; [|done]. cbn in Hf. by simplify_eq.
  - intros [-> Hf]. exists c. rewrite Hf. done.
Qed.

Lemma trusted_check_Ok {world : World} host p gw pid addrs :
  resolve_and_check_trusted_gateway host p gw pid = Ok addrs
  ↔ resolve_socket_addrs host p pid IpConstrained = Ok addrs
    ∧ Forall (λ a, authorized (TrustedGatewayAlias gw) p (ip a)) addrs.
Proof.
  unfold resolve_and_check_trusted_gateway.
  destruct (resolve_socket_addrs host p pid IpConstrained) as [l|] eqn:Hr; cbn [map_err].
  2: { split; [by destruct (control_plane p)|naive_solver]. }
  destruct (resolve_socket_addrs_ok _ _ _ _ _ Hr) as [Hne _].
  rewrite decide_False by done. trans (l = addrs ∧ Forall (λ a, authorized (TrustedGatewayAlias gw) p (ip a)) l);
    [|naive_solver].
  rewrite <- (check_Ok (control_plane p) EmptyPinnedSet (λ ip,
    if is_cloud_metadata_ip ip then Some (IsMetadata host ip)
    else if decide (ip ≠ gw) then Some (NotTrustedGateway host ip gw)
    else if negb (is_link_local_ip ip) then Some (NotLinkLocal host ip) else None) l
    (authorized (TrustedGatewayAlias gw) p)).
  - destruct (control_plane p); [naive_solver|].
    destruct (first_rejection _ l) as [[]|] eqn:E; cbn [map_err]; naive_solver.
  - done.
  - intros x Hp. unfold authorized. rewrite Hp.
    destruct (decide (x ≠ gw)) as [?| ->%dec_stable];
      destruct (is_cloud_metadata_ip _), (is_link_local_ip _); simpl; naive_solver.
  - unfold authorized. naive_solver.
Qed.

Lemma resolved_mode_Ok {world : World} host p pid b (P : IpAddr → Prop)
  (f : list SocketAddr → result unit reason) addrs :
  (∀ l, l ≠ [] → f l = Ok () ↔ Forall (λ a, P (ip a)) l) →
  resolve_socket_addrs host p pid b = Ok addrs ∧ f addrs = Ok ()
  ↔ resolve_socket_addrs host p pid b = Ok addrs ∧ Forall (λ a, P (ip a)) addrs.
Proof.
  intros Hf. split; intros [Hr Hx]; (split; [done|]);
    destruct (resolve_socket_addrs_ok _ _ _ _ _ Hr) as [Hne _]; by apply Hf.
Qed.

Lemma destination_addrs_Ok {world : World} (auth : AddressAuthorization N4 N6) host p pid addrs :
  plan_wf auth →
  destination_addrs auth host p pid = Ok addrs
  ↔ mode_resolution auth host p pid = Ok addrs
    ∧ Forall (λ a, authorized auth p (ip a)) addrs.
Proof.
  intros Hwf. destruct auth; unfold destination_addrs, mode_resolution.
  - unfold resolve_and_reject_internal. rewrite resolve_check_Ok.
    apply (resolved_mode_Ok _ _ _ _ _ (reject_internal_resolved_addrs host)); eauto using public_check_Ok.
  - unfold resolve_and_check_allowed_ips. rewrite resolve_check_Ok.
    apply (resolved_mode_Ok _ _ _ _ _
      (λ l, validate_allowed_ips_for_resolved_addrs host p l networks)); eauto using explicit_check_Ok.
  - unfold resolve_and_check_declared_endpoint. rewrite resolve_check_Ok.
    apply (resolved_mode_Ok _ _ _ _ _ (validate_declared_endpoint_resolved_addrs host p));
      eauto using declared_check_Ok.
  - unfold resolve_and_check_allowed_ips. rewrite resolve_check_Ok.
    apply (resolved_mode_Ok _ _ _ _ _
      (λ l, validate_allowed_ips_for_resolved_addrs host p l _)); eauto using implicit_check_Ok.
  - by rewrite map_err_Ok, trusted_check_Ok.
  - destruct (control_plane p) eqn:Hp; [|destruct (is_cloud_metadata_ip ip0) eqn:Hm];
      (split; [try done|]).
    + intros [[= <-] Ha]. apply Forall_cons_iff in Ha as [(? & ? & _) _]. cbn [ip] in *. congruence.
    + intros [[= <-] Ha]. apply Forall_cons_iff in Ha as [(? & ? & _) _]. cbn [ip] in *. congruence.
    + intros [= <-]. split; [done|]. by repeat constructor.
    + naive_solver.
  - split; [|naive_solver]. intros [= <-]. split; [done|].
    apply Forall_forall. intros a (x & <- & Hx)%in_map_iff. by apply list_elem_of_In.
Qed.

Lemma validate_destination_Ok {world : World} (auth : AddressAuthorization N4 N6) host p pid c :
  plan_wf auth →
  validate_destination (request host p pid (plan auth)) = Ok c
  ↔ ∃ addrs, mode_resolution auth host p pid = Ok addrs
             ∧ Forall (λ a, authorized auth p (ip a)) addrs ∧ c = connector host p addrs.
Proof.
  intros Hwf. unfold validate_destination. cbn [address_authorization]. rewrite let_Ok.
  setoid_rewrite (destination_addrs_Ok _ _ _ _ _ Hwf). naive_solver.
Qed.

(** *** The filter *)

Lemma filter_rejection_None (auth : AddressAuthorization N4 N6) host p ip :
  (filter_kind auth).2 && control_plane p = false →
  filter_rejection auth host ip = None ↔ authorized auth p ip.
Proof.
  destruct auth; unfold authorized, filter_rejection; cbn [filter_kind fst snd andb];
    intros Hp; rewrite ?Hp.
  - destruct (is_internal_ip ip); naive_solver.
  - rewrite <- existsb_exists.
    destruct (is_always_blocked_ip ip), (existsb _ networks); naive_solver.
  - destruct (is_always_blocked_ip ip); naive_solver.
  - destruct (decide (ip ≠ ip0)) as [?| ->%dec_stable];
      destruct (is_always_blocked_ip _); naive_solver.
  - destruct (decide (ip ≠ expected_ip)) as [?| ->%dec_stable];
      destruct (is_cloud_metadata_ip _), (is_link_local_ip _); naive_solver.
  - destruct (decide (ip ≠ ip0)) as [?| ->%dec_stable];
      destruct (is_cloud_metadata_ip _); naive_solver.
  - destruct (decide (ip ∉ addresses)) as [?|?%dec_stable]; naive_solver.
Qed.

Lemma filter_gate (auth : AddressAuthorization N4 N6) p ip :
  authorized auth p ip → (filter_kind auth).2 && control_plane p = false.
Proof. destruct auth; cbn [filter_kind fst snd andb]; unfold authorized; naive_solver. Qed.

Lemma push_new_elem l x y : y ∈ push_new l x ↔ y ∈ l ∨ y = x.
Proof. unfold push_new. destruct (decide (x ∈ l)); set_solver. Qed.
Lemma push_new_NoDup l x : NoDup l → NoDup (push_new l x).
Proof.
  intros Hl. unfold push_new. destruct (decide (x ∈ l)); [done|].
  apply list.NoDup_app. split; [done|]. split; [|apply NoDup_singleton]. set_solver.
Qed.

Lemma filter_fold (auth : AddressAuthorization N4 N6) host ips acc f :
  NoDup acc →
  NoDup (fold_left (filter_turn auth host) ips (acc, f)).1
  ∧ ∀ x, x ∈ (fold_left (filter_turn auth host) ips (acc, f)).1
         ↔ x ∈ acc ∨ (x ∈ ips ∧ filter_rejection auth host x = None).
Proof.
  revert acc f. induction ips as [|y ips IH]; intros acc f Hacc; simpl; [set_solver|].
  destruct (filter_rejection auth host y) as [r|] eqn:E.
  - destruct (IH acc (match f with Some f => Some f | None => Some r end) Hacc) as [Hn Hx].
    split; [done|]. intros x. rewrite Hx, elem_of_cons. naive_solver.
  - destruct (IH (push_new acc y) f (push_new_NoDup _ _ Hacc)) as [Hn Hx].
    split; [done|]. intros x. rewrite Hx, push_new_elem, elem_of_cons. naive_solver.
Qed.

Lemma filter_Ok (auth : AddressAuthorization N4 N6) host p ips :
  match filter_resolved_addresses (plan auth) host p ips with
  | Ok l => l ≠ [] ∧ NoDup l ∧ ∀ x, x ∈ l ↔ x ∈ ips ∧ authorized auth p x
  | Err e => kind e = (filter_kind auth).1 ∧ ∀ x, x ∈ ips → ¬ authorized auth p x
  end.
Proof.
  unfold filter_resolved_addresses. cbn [address_authorization].
  destruct (filter_kind auth) as [k b] eqn:Hk. pose proof (filter_gate auth p) as Hg.
  pose proof (filter_rejection_None auth host p) as Hr. rewrite Hk in Hg, Hr. cbn [snd] in Hg, Hr.
  destruct (b && control_plane p); [split; [done|]; intros x _ ?%Hg; done|].
  destruct (filter_fold auth host ips [] None (NoDup_nil_2)) as [Hn Hx].
  destruct (fold_left _ ips _) as [allowed first]. cbn [fst] in *.
  assert (∀ x, x ∈ allowed ↔ x ∈ ips ∧ authorized auth p x) as Ha.
  { intros x. rewrite Hx, (Hr x eq_refl). set_solver. }
  destruct (decide (allowed = [])) as [->|]; [|done].
  split; [done|]. intros x Hi Hax. by apply (not_elem_of_nil x), Ha.
Qed.

(** *** Plans the builder makes *)

Lemma metadata_is_blocked ip : is_cloud_metadata_ip ip = true → is_always_blocked_ip ip = true.
Proof.
  destruct ip as [a|a]; unfold is_cloud_metadata_ip, is_always_blocked_ip, is_link_local_ip.
  - rewrite bool_decide_eq_true. intros ?%list_elem_of_singleton. simplify_eq. by vm_compute.
  - destruct (Ipv6Addr.to_ipv4_mapped a) as [v4|]; [|done].
    rewrite bool_decide_eq_true. intros ?%list_elem_of_singleton. simplify_eq.
    replace (Ipv4Addr.is_link_local _) with true by (by vm_compute).
    repeat case_match; done.
Qed.

(** The host is no alias of a configured gateway. *)
Definition no_gateway (nh : bytes) (bgw tgw : option IpAddr) : Prop :=
  is_host_gateway_alias nh = false ∨ (bgw = None ∧ tgw = None).

Inductive plan_case {text : IpNetText N4 N6} (host nh : bytes) (bgw tgw : option IpAddr)
  (raw : list bytes) (exact : bool) : AddressAuthorization N4 N6 → Prop :=
| case_backend gw :
    is_host_gateway_alias nh = true → bgw = Some gw →
    plan_case host nh bgw tgw raw exact (BackendPinnedGateway gw)
| case_trusted gw :
    is_host_gateway_alias nh = true → bgw = None → tgw = Some gw →
    plan_case host nh bgw tgw raw exact (TrustedGatewayAlias gw)
| case_explicit nets :
    no_gateway nh bgw tgw → raw ≠ [] → parse_allowed_ips raw = Ok nets →
    plan_case host nh bgw tgw raw exact (ExplicitAllowedIps nets)
| case_literal x :
    no_gateway nh bgw tgw → raw = [] → parse_ip (normalize_host_lookup_key host) = Some x →
    is_always_blocked_ip x = false →
    plan_case host nh bgw tgw raw exact (ImplicitIpLiteral x)
| case_exact :
    no_gateway nh bgw tgw → raw = [] → exact = true →
    plan_case host nh bgw tgw raw exact ExactDeclaredHost
| case_public :
    no_gateway nh bgw tgw → raw = [] → exact = false →
    plan_case host nh bgw tgw raw exact DefaultPublicOnly.

Lemma build_plan_cases {text : IpNetText N4 N6} host nh bgw tgw raw exact p :
  build_validation_plan host nh bgw tgw raw exact = Ok p →
  plan_case host nh bgw tgw raw exact (address_authorization p).
Proof.
  unfold build_validation_plan. rewrite let_Ok. intros (auth & Ha & [= <-]).
  cbn [address_authorization].
  assert ((if decide (raw ≠ []) then
      let? nets := map_err (denial KindInvalidAllowedIps) (parse_allowed_ips raw) in
      Ok (ExplicitAllowedIps nets)
    else
      match head (implicit_allowed_ips_for_ip_host host) ≫= parse_ip with
      | Some ip => Ok (ImplicitIpLiteral ip)
      | None => Ok (if exact then ExactDeclaredHost else DefaultPublicOnly)
      end) = Ok auth → no_gateway nh bgw tgw → plan_case host nh bgw tgw raw exact auth) as Hrest.
  { intros Ha' Hng. revert Ha'. destruct (decide (raw ≠ [])) as [Hraw|Hraw%dec_stable].
    { rewrite let_Ok. setoid_rewrite map_err_Ok. intros (nets & Hn & [= <-]). by constructor. }
    unfold implicit_allowed_ips_for_ip_host.
    destruct (parse_ip (normalize_host_lookup_key host)) as [x|] eqn:Hx;
      [destruct (is_always_blocked_ip x) eqn:Hb|]; cbn [head mbind option_bind]; rewrite ?Hx;
      intros [= <-]; first [by constructor|destruct exact; by constructor]. }
  destruct (is_host_gateway_alias nh) eqn:Hal; [|by apply Hrest; [|left]].
  destruct bgw as [gw|]; [injection Ha as <-; by constructor|].
  destruct tgw as [gw|]; [injection Ha as <-; by constructor|by apply Hrest; [|right]].
Qed.

Lemma build_plan_wf {text : IpNetText N4 N6} host nh bgw tgw raw exact p :
  build_validation_plan host nh bgw tgw raw exact = Ok p → plan_wf (address_authorization p).
Proof. intros []%build_plan_cases; simpl; try done. by eapply parse_ip_wf. Qed.

(** What a built plan authorizes is never a metadata address, and outside a
    configured gateway never an always-blocked one. *)
Lemma plan_authorized_safe {text : IpNetText N4 N6} host nh bgw tgw raw exact pl p x :
  build_validation_plan host nh bgw tgw raw exact = Ok pl →
  (address_authorization pl = DefaultPublicOnly → ip_wf x) →
  authorized (address_authorization pl) p x →
  is_cloud_metadata_ip x = false
  ∧ (no_gateway nh bgw tgw → is_always_blocked_ip x = false).
Proof.
  intros Hplan%build_plan_cases Hw Hall.
  assert (is_always_blocked_ip x = false → is_cloud_metadata_ip x = false) as Hm.
  { intros Hb. apply not_true_is_false. intros ?%metadata_is_blocked. congruence. }
  destruct Hplan as [gw Hal Hg|gw Hal Hg Ht|nets Hng Hraw _|y Hng Hraw Hx _|Hng Hraw Hex|Hng Hraw Hex];
    unfold authorized in Hall.
  - destruct Hall as (_ & Hmd & _). split; [done|]. intros [?|[? _]]; congruence.
  - destruct Hall as (_ & Hmd & _). split; [done|]. intros [?|[_ ?]]; congruence.
  - destruct Hall as (_ & Hb & _). auto.
  - destruct Hall as (_ & Hb & _). auto.
  - destruct Hall as (_ & Hb). auto.
  - assert (is_always_blocked_ip x = false) as Hb.
    { apply not_true_is_false. intros ?%always_blocked_is_internal; [congruence|auto]. }
    auto.
Qed.

(** C13: destination validation enforces exactly the mode of its plan. It
    opens a connector if and only if the mode's resolution gives addresses
    that all satisfy the mode's rule (public only, not always-blocked and in
    an allowed network, equal to the pinned gateway and link-local, ...), the
    connector dials exactly those, and there is at least one, with the port
    asked for. *)
Theorem validate_destination_exact {world : World} (auth : AddressAuthorization N4 N6)
  (host : bytes) (p pid : Z) (Hwf : plan_wf auth) (c : UpstreamConnector) :
  (validate_destination (request host p pid (plan auth)) = Ok c
   ↔ ∃ addrs, mode_resolution auth host p pid = Ok addrs
              ∧ Forall (λ a, authorized auth p (ip a)) addrs ∧ c = connector host p addrs)
  ∧ (validate_destination (request host p pid (plan auth)) = Ok c →
     Forall (λ a, port a = p) (conn_addrs c)
     ∧ (auth ≠ PinnedResolved [] → conn_addrs c ≠ [])).
Proof.
  split; [by apply validate_destination_Ok|].
  intros (addrs & Hr & _ & ->)%validate_destination_Ok; [|done]. cbn [conn_addrs].
  rewrite Forall_forall. destruct auth; cbn [mode_resolution] in Hr;
    try (apply resolve_socket_addrs_ok in Hr; naive_solver).
  - injection Hr as <-. split; [by intros a [<-|[]]|done].
  - injection Hr as <-. split; [by intros a (x & <- & _)%in_map_iff|by destruct addresses].
Qed.

(** The policy-DNS filter and CONNECT validation apply one policy. The
    filter keeps exactly the distinct authorized answers and fails only when
    none is; and CONNECT, which is all or nothing, accepts the addresses it
    resolved exactly when the filter would keep every one of them. *)
Theorem filter_agrees_with_validation {world : World} (auth : AddressAuthorization N4 N6)
  (host : bytes) (p pid : Z) (addrs : list SocketAddr)
  (Hwf : plan_wf auth) (Hres : mode_resolution auth host p pid = Ok addrs) (Hne : addrs ≠ []) :
  match filter_resolved_addresses (plan auth) host p (map ip addrs) with
  | Ok l => l ≠ [] ∧ NoDup l ∧ ∀ x, x ∈ l ↔ x ∈ map ip addrs ∧ authorized auth p x
  | Err e => kind e = (filter_kind auth).1 ∧ ∀ x, x ∈ map ip addrs → ¬ authorized auth p x
  end
  ∧ (is_ok (validate_destination (request host p pid (plan auth))) = true
     ↔ ∃ l, filter_resolved_addresses (plan auth) host p (map ip addrs) = Ok l
            ∧ ∀ a, In a addrs → ip a ∈ l).
Proof.
  pose proof (filter_Ok auth host p (map ip addrs)) as Hf. split; [done|].
  pose proof (validate_destination_Ok auth host p pid) as Hv.
  assert (∀ a, In a addrs → ip a ∈ map ip addrs) as Hin.
  { intros a Ha. apply list_elem_of_In. by apply in_map. }
  trans (Forall (λ a, authorized auth p (ip a)) addrs).
  { destruct (validate_destination _) as [c|e]; simpl.
    - split; [intros _|done]. destruct (proj1 (Hv c Hwf) eq_refl) as (l & Hl & Ha & _). congruence.
    - split; [done|]. intros Ha.
      assert (Err e = Ok (connector host p addrs)) as [=]. apply Hv; [done|]. eauto. }
  rewrite Forall_forall.
  destruct (filter_resolved_addresses _ _ _ _) as [l|e].
  - destruct Hf as (_ & _ & Hl). split.
    + intros Ha. exists l. split; [done|]. intros a Hin'. apply Hl. auto.
    + intros (l' & [= <-] & Hl') a Ha. by apply Hl, Hl'.
  - destruct Hf as [_ Hf]. split; [|naive_solver]. intros Ha.
    destruct addrs as [|a addrs]; [done|]. exfalso.
    apply (Hf (ip a)); [apply Hin; by left|apply Ha; by left].
Qed.

(** No plan the proxy builds reaches a forbidden destination. Whatever
    the policy, the resolver and the sandbox's hosts file say, a cloud
    metadata address is never dialled; outside the configured host gateway no
    loopback, link-local or unspecified address is; a plain host name that
    policy did not declare exactly reaches no internal address; and the
    trusted gateway alias reaches only that gateway, when it is link-local. *)
Theorem no_forbidden_destination {world : World} {text : IpNetText N4 N6}
  (host nh : bytes) (bgw tgw : option IpAddr) (raw : list bytes) (exact : bool) (p pid : Z)
  (pl : DestinationValidationPlan N4 N6) (c : UpstreamConnector) (a : SocketAddr)
  (Hplan : build_validation_plan host nh bgw tgw raw exact = Ok pl)
  (Hval : validate_destination (request host p pid pl) = Ok c)
  (Ha : In a (conn_addrs c)) :
  is_cloud_metadata_ip (ip a) = false
  ∧ (no_gateway nh bgw tgw →
     is_always_blocked_ip (ip a) = false
     ∧ (raw = [] → exact = false → parse_ip (normalize_host_lookup_key host) = None →
        is_internal_ip (ip a) = false))
  ∧ (∀ gw, is_host_gateway_alias nh = true → bgw = None → tgw = Some gw →
     ip a = gw ∧ is_link_local_ip gw = true).
Proof.
  pose proof (build_plan_wf _ _ _ _ _ _ _ Hplan) as Hwf. destruct pl as [auth].
  apply validate_destination_Ok in Hval as (addrs & Hr & Hall & ->); [|done].
  cbn [conn_addrs] in Ha. rewrite Forall_forall in Hall. specialize (Hall a Ha).
  destruct (plan_authorized_safe _ _ _ _ _ _ _ p (ip a) Hplan) as [Hm Hb]; [|done|].
  { intros E. cbn [address_authorization] in E. subst auth.
    apply resolve_socket_addrs_ok in Hr as [_ Hr]. by apply Hr. }
  split; [done|]. apply build_plan_cases in Hplan. cbn [address_authorization] in *.
  destruct Hplan as [gw Hal Hg|gw Hal Hg Ht|nets Hng Hraw _|x Hng Hraw Hx _|Hng Hraw Hex|Hng Hraw Hex];
    (split; [intros Hn; split; [by apply Hb|]|]); try congruence;
    try (intros gw' ???; destruct Hng as [?|[_ ?]]; congruence).
  - intros _ _ _. destruct Hn as [?|[? _]]; congruence.
  - intros _ _ _. destruct Hn as [?|[_ ?]]; congruence.
  - intros gw' _ _ ?. simplify_eq. by destruct Hall as (_ & _ & -> & ?).
Qed.

(** Where the host name itself is what policy authorizes, the sandbox
    cannot choose the address. In the exact-host and public-only modes the
    outcome, errors included, is the same for any content of the sandbox's
    hosts file and any entrypoint process. *)
Theorem name_authorized_ignores_sandbox_hosts (w w' : World)
  (auth : AddressAuthorization N4 N6) (host : bytes) (p pid pid' : Z)
  (Hauth : auth = ExactDeclaredHost ∨ auth = DefaultPublicOnly)
  (Hdns : ∀ h q, lookup_host (World := w) h q = lookup_host (World := w') h q) :
  validate_destination (world := w) (request host p pid (plan auth))
  = validate_destination (world := w') (request host p pid' (plan auth)).
Proof.
  assert (resolve_socket_addrs (world := w) host p 0 NameAuthorized
          = resolve_socket_addrs (world := w') host p 0 NameAuthorized) as Hr.
  { unfold resolve_socket_addrs, resolve_nonliteral_socket_addrs. simpl. by rewrite Hdns. }
  destruct Hauth as [-> | ->]; unfold validate_destination, destination_addrs;
    cbn [address_authorization];
    unfold resolve_and_check_declared_endpoint, resolve_and_reject_internal; by rewrite Hr.
Qed.
End properties.

(** ** Witnesses *)

(** A world where every name resolves to 93.184.216.34 and the sandbox's hosts
    file maps the gateway alias to 169.254.1.2. *)
Program Definition example_world : World := {|
  lookup_host host p := Some [socket (V4 (ipv4 93 184 216 34)) p];
  sandbox_hosts_file pid := Some (lit "169.254.1.2 host.openshell.internal gw # pasta");
|}.
Next Obligation. by intros ??? a [= <-] [<-|[]]. Qed.
Next Obligation. intros ??? a [= <-] [<-|[]]. by vm_compute. Qed.

(** A CIDR text reader: an address, a slash and a prefix length of digits. *)
Definition example_ipnet_parse (s : bytes) : option (IpNet Cidr4 Cidr6) :=
  match split_once 47 s with
  | Some (a, l) =>
      match parse_ip a, (if forallb is_ascii_digit l then parse_uint u32_max l else None) with
      | Some (V4 a), Some l => if l <=? 32 then Some (NetV4 (new_assert a l)) else None
      | Some (V6 a), Some l => if l <=? 128 then Some (NetV6 (new_assert a l)) else None
      | _, _ => None
      end
  | None => None
  end.
Definition example_text : IpNetText Cidr4 Cidr6 := {| ipnet_parse := example_ipnet_parse |}.

Definition example_plan : DestinationValidationPlan Cidr4 Cidr6 :=
  plan (TrustedGatewayAlias (V4 (ipv4 169 254 1 2))).

Lemma validate_destination_exact_witness :
  ∃ c, validate_destination (world := example_world)
         (request (lit "host.openshell.internal") 8080 7 example_plan) = Ok c
       ∧ Forall (λ a, port a = 8080) (conn_addrs c).
Proof.
  exists (connector (lit "host.openshell.internal") 8080 [socket (V4 (ipv4 169 254 1 2)) 8080]).
  destruct (validate_destination_exact (world := example_world) (N4 := Cidr4) (N6 := Cidr6)
    (TrustedGatewayAlias (V4 (ipv4 169 254 1 2))) (lit "host.openshell.internal") 8080 7 I
    (connector (lit "host.openshell.internal") 8080 [socket (V4 (ipv4 169 254 1 2)) 8080]))
    as [H1 H2].
  assert (validate_destination (world := example_world)
    (request (lit "host.openshell.internal") 8080 7 example_plan)
    = Ok (connector (lit "host.openshell.internal") 8080 [socket (V4 (ipv4 169 254 1 2)) 8080]))
    as Hv by (by vm_compute).
  split; [done|]. by apply H2.
Defined.

Lemma filter_agrees_with_validation_witness :
  ∃ l, filter_resolved_addresses (N4 := Cidr4) (N6 := Cidr6) (plan DefaultPublicOnly)
         (lit "api.example.com") 443 [V4 (ipv4 93 184 216 34)] = Ok l.
Proof.
  destruct (filter_agrees_with_validation (world := example_world) (N4 := Cidr4) (N6 := Cidr6)
    DefaultPublicOnly (lit "api.example.com") 443 7 [socket (V4 (ipv4 93 184 216 34)) 443])
    as [_ H]; [done|by vm_compute|done|].
  destruct H as [H _]. destruct H as (l & Hl & _); [by vm_compute|]. by exists l.
Defined.

Lemma no_forbidden_destination_witness :
  ∃ pl c a, build_validation_plan (text := example_text) (lit "10.1.2.3") (lit "10.1.2.3") None None
              [lit "10.0.0.0/8"] false = Ok pl
    ∧ validate_destination (world := example_world) (request (lit "10.1.2.3") 443 7 pl) = Ok c
    ∧ In a (conn_addrs c) ∧ is_always_blocked_ip (ip a) = false.
Proof.
  exists (plan (ExplicitAllowedIps [NetV4 (new_assert (ipv4 10 0 0 0) 8)])),
    (connector (lit "10.1.2.3") 443 [socket (V4 (ipv4 10 1 2 3)) 443]),
    (socket (V4 (ipv4 10 1 2 3)) 443).
  assert (build_validation_plan (text := example_text) (lit "10.1.2.3") (lit "10.1.2.3") None None
    [lit "10.0.0.0/8"] false
    = Ok (plan (ExplicitAllowedIps [NetV4 (new_assert (ipv4 10 0 0 0) 8)]))) as Hb by (by vm_compute).
  assert (validate_destination (world := example_world) (request (lit "10.1.2.3") 443 7
    (plan (ExplicitAllowedIps [NetV4 (new_assert (ipv4 10 0 0 0) 8 : Cidr4)])) :
      DestinationRequest Cidr4 Cidr6) = Ok (connector (lit "10.1.2.3") 443 [socket (V4 (ipv4 10 1 2 3)) 443]))
    as Hv by (by vm_compute).
  split; [done|]. split; [done|]. split; [by left|].
  destruct (no_forbidden_destination (world := example_world) (text := example_text)
    (lit "10.1.2.3") (lit "10.1.2.3") None None [lit "10.0.0.0/8"] false 443 7 _ _
    (socket (V4 (ipv4 10 1 2 3)) 443) Hb Hv) as (_ & H & _); [by left|].
  apply H. by right.
Defined.

Lemma name_authorized_ignores_sandbox_hosts_witness :
  validate_destination (world := example_world) (N4 := Cidr4) (N6 := Cidr6)
    (request (lit "host.docker.internal") 443 7 (plan ExactDeclaredHost))
  = validate_destination (world := example_world) (N4 := Cidr4) (N6 := Cidr6)
    (request (lit "host.docker.internal") 443 0 (plan ExactDeclaredHost)).
Proof.
  apply (name_authorized_ignores_sandbox_hosts (N4 := Cidr4) (N6 := Cidr6)
    example_world example_world ExactDeclaredHost);
    [by left|done].
Defined.
