(* ===== verification/DnsStore.v ===== *)
(** * DnsStore: synthetic addresses and resolved endpoint mappings
    (crates/openshell-supervisor-network/src/policy_dns/store.rs)

    Policy DNS answers a name with a synthetic address of its own pool and
    records under it which real addresses, ports and endpoints the name was
    approved for; a later TCP connection to the synthetic address is matched
    with that record. The store is [store]: the fields of [StoreState] and of
    [ResolvedEndpointStore]; every operation returns the new store.
    An [Instant] is a number of nanoseconds, a [Duration] too; the random
    [mapping_id] of a record is an argument. *)

From Stdlib Require Import ZifyBool.
From stdpp Require Import fin_maps fin_sets.
From S2P Require Import Prelude Net Destination.

Inductive AddressFamily : Type := Ipv4 | Ipv6.
#[export] Instance AddressFamily_eq_dec : EqDecision AddressFamily.
Proof. solve_decision. Defined.
#[export] Instance AddressFamily_countable : Countable AddressFamily.
Proof.
  refine (inj_countable' (λ f, match f with Ipv4 => true | Ipv6 => false end)
    (λ b : bool, if b then Ipv4 else Ipv6) _). by intros [].
Defined.

Definition accepts (self : AddressFamily) (address : IpAddr) : bool :=
  match self, address with
  | Ipv4, V4 _ | Ipv6, V6 _ => true
  | _, _ => false
  end.

Definition nanos_per_sec : Z := 1000000000.
Definition MIN_MAPPING_TTL : Z := 1 * nanos_per_sec.
Definition MAX_MAPPING_TTL : Z := 30 * nanos_per_sec.
Definition OBSERVATION_POOL_DIVISOR : Z := 4.

Record PolicyEndpointId := endpoint_id_of {
  policy_name : bytes;
  endpoint_index : Z;
}.
#[export] Instance PolicyEndpointId_eq_dec : EqDecision PolicyEndpointId.
Proof. solve_decision. Defined.

(** [normalized_name], the family, and [None] for an observation or the digest
    of the contracts ([AllocationIdentity]). *)
Record AllocationKey := allocation_key {
  key_name : bytes;
  key_family : AddressFamily;
  identity : option bytes;
}.
#[export] Instance AllocationKey_eq_dec : EqDecision AllocationKey.
Proof. solve_decision. Defined.
#[export] Instance AllocationKey_countable : Countable AllocationKey.
Proof.
  refine (inj_countable' (λ k, (key_name k, key_family k, identity k))
    (λ '(n, f, i), allocation_key n f i) _). by intros [].
Defined.

(** ** Configuration *)

(** The bounds of the two inclusive ranges. *)
Record SyntheticPools := pools_of {
  ipv4_start : Z;
  ipv4_end : Z;
  ipv6_start : Z;
  ipv6_end : Z;
}.

Inductive StoreConfigError : Type := InvalidPool | ZeroCapacity.

Definition synthetic_pools_new (p : SyntheticPools) : result SyntheticPools StoreConfigError :=
  if (ipv4_end p <? ipv4_start p) || (ipv6_end p <? ipv6_start p) then Err InvalidPool
  else if existsb is_always_blocked_ip [V4 (ipv4_start p); V4 (ipv4_end p)] then Err InvalidPool
  else if existsb is_always_blocked_ip [V6 (ipv6_start p); V6 (ipv6_end p)] then Err InvalidPool
  else Ok p.

(** The size of a pool, [usize::MAX] when it does not fit. *)
Definition capacity (p : SyntheticPools) (family : AddressFamily) : Z :=
  let c := match family with
           | Ipv4 => ipv4_end p - ipv4_start p + 1
           | Ipv6 => ipv6_end p - ipv6_start p + 1
           end in
  if c <=? usize_max then c else usize_max.

Record StoreConfig := store_config { pools : SyntheticPools; max_mappings : Z }.

Definition store_config_new (p : SyntheticPools) (max_mappings : Z)
  : result StoreConfig StoreConfigError :=
  if max_mappings =? 0 then Err ZeroCapacity else Ok (store_config p max_mappings).

(** ** Records *)

Section store.
Context {N4 N6 : Type} {net4 : CidrNet 32 N4} {net6 : CidrNet 128 N6}.

Record ResolvedPortContract := contract {
  endpoint_id : PolicyEndpointId;
  contract_port : Z;
  destination_plan : DestinationValidationPlan N4 N6;
  pinned_addresses : list IpAddr;
}.

Record PublishRequest := publish_request {
  pub_name : bytes;
  pub_family : AddressFamily;
  allocation_identity : bytes;
  pub_generation : Z;
  pub_ttl : Z;
  pub_contracts : list ResolvedPortContract;
}.

Record ResolvedEndpointRecord := record_of {
  synthetic_address : IpAddr;
  normalized_name : bytes;
  family : AddressFamily;
  policy_generation : Z;
  mapping_generation : Z;
  mapping_id : Z;
  created_at : Z;
  expires_at : Z;
  contracts : list ResolvedPortContract;
}.

Definition is_observation (r : ResolvedEndpointRecord) : bool := bool_decide (length (contracts r) = 0%nat).

Record Publication := publication {
  key : AllocationKey;
  pubn_generation : Z;
  pubn_ttl : Z;
  pubn_contracts : list ResolvedPortContract;
}.

Inductive PublishError : Type :=
| StalePublication
| InvalidMapping
| PoolExhausted
| ObservationBudgetExhausted
| PublishLockPoisoned.

Inductive MappingLookupError : Type :=
| Missing
| Expired
| StalePolicy
| PortMismatch
| EndpointMismatch
| InvalidMappingLookup
| LookupLockPoisoned.

Record store := mk_store {
  records : gmap IpAddr ResolvedEndpointRecord;
  allocations : gmap AllocationKey IpAddr;
  expired_allocations : gset IpAddr;
  next_ipv4 : Z;
  end_ipv4 : Z;
  next_ipv6 : Z;
  end_ipv6 : Z;
  next_mapping_generation : Z;
  config : StoreConfig;
  ipv4_pool_high_water_emitted : bool;
  ipv6_pool_high_water_emitted : bool;
  poisoned : bool;
}.

Definition new (c : StoreConfig) : store := {|
  records := ∅;
  allocations := ∅;
  expired_allocations := ∅;
  next_ipv4 := ipv4_start (pools c);
  end_ipv4 := ipv4_end (pools c);
  next_ipv6 := ipv6_start (pools c);
  end_ipv6 := ipv6_end (pools c);
  next_mapping_generation := 0;
  config := c;
  ipv4_pool_high_water_emitted := false;
  ipv6_pool_high_water_emitted := false;
  poisoned := false;
|}.

(** ** Allocation *)

Definition allocate_address (s : store) (family : AddressFamily) : option (IpAddr * store) :=
  match family with
  | Ipv4 =>
      if next_ipv4 s <=? end_ipv4 s then
        Some (V4 (next_ipv4 s),
          mk_store (records s) (allocations s) (expired_allocations s)
            (saturating_add u32_max (next_ipv4 s) 1) (end_ipv4 s) (next_ipv6 s) (end_ipv6 s)
            (next_mapping_generation s) (config s) (ipv4_pool_high_water_emitted s)
            (ipv6_pool_high_water_emitted s) (poisoned s))
      else None
  | Ipv6 =>
      if next_ipv6 s <=? end_ipv6 s then
        Some (V6 (next_ipv6 s),
          mk_store (records s) (allocations s) (expired_allocations s)
            (next_ipv4 s) (end_ipv4 s) (saturating_add u128_max (next_ipv6 s) 1) (end_ipv6 s)
            (next_mapping_generation s) (config s) (ipv4_pool_high_water_emitted s)
            (ipv6_pool_high_water_emitted s) (poisoned s))
      else None
  end.

(** [allocations.keys().filter(..).count()]. *)
Definition count_keys (P : AllocationKey → bool) (m : gmap AllocationKey IpAddr) : Z :=
  Z.of_nat (length (List.filter (λ kv, P kv.1) (map_to_list m))).
Definition is_family (f : AddressFamily) (k : AllocationKey) : bool :=
  bool_decide (key_family k = f).
Definition is_family_observation (f : AddressFamily) (k : AllocationKey) : bool :=
  bool_decide (identity k = None) && bool_decide (key_family k = f).

Definition family_capacity (c : StoreConfig) (f : AddressFamily) : Z :=
  Z.min (capacity (pools c) f) (max_mappings c).

Definition observation_budget (c : StoreConfig) (f : AddressFamily) : Z :=
  Z.max (family_capacity c f / OBSERVATION_POOL_DIVISOR) 1.

(** [state.allocations.insert(key, address)] and the high-water flag of the
    family; the event that is sent when the flag turns is not part of the
    state. *)
Definition saturating_mul (a b : Z) : Z := Z.min usize_max (a * b).
Definition insert_allocation (s : store) (k : AllocationKey) (address : IpAddr) : store :=
  let allocations := <[k := address]> (allocations s) in
  let f := key_family k in
  let allocated := count_keys (is_family f) allocations in
  let capacity := family_capacity (config s) f in
  let high := saturating_mul capacity 4 <=? saturating_mul allocated 5 in
  mk_store (records s) allocations (expired_allocations s)
    (next_ipv4 s) (end_ipv4 s) (next_ipv6 s) (end_ipv6 s) (next_mapping_generation s) (config s)
    (ipv4_pool_high_water_emitted s || (bool_decide (f = Ipv4) && high))
    (ipv6_pool_high_water_emitted s || (bool_decide (f = Ipv6) && high))
    (poisoned s).

Definition find_or_allocate (s : store) (k : AllocationKey) : store * result IpAddr PublishError :=
  match allocations s !! k with
  | Some address => (s, Ok address)
  | None =>
      if bool_decide (identity k = None)
         && (observation_budget (config s) (key_family k)
             <=? count_keys (is_family_observation (key_family k)) (allocations s))
      then (s, Err ObservationBudgetExhausted)
      else if max_mappings (config s) <=? Z.of_nat (size (allocations s))
      then (s, Err PoolExhausted)
      else match allocate_address s (key_family k) with
           | None => (s, Err PoolExhausted)
           | Some (address, s) => (insert_allocation s k address, Ok address)
           end
  end.

(** The new record under its address, with the next mapping generation. *)
Definition put_record (s : store) (p : Publication) (address : IpAddr) (now uuid : Z)
  : store * ResolvedEndpointRecord :=
  let gen := saturating_add u64_max (next_mapping_generation s) 1 in
  let record := record_of address (key_name (key p)) (key_family (key p)) (pubn_generation p)
    gen uuid now (now + pubn_ttl p) (pubn_contracts p) in
  (mk_store (<[address := record]> (records s)) (allocations s)
     (expired_allocations s ∖ {[address]})
     (next_ipv4 s) (end_ipv4 s) (next_ipv6 s) (end_ipv6 s) gen (config s)
     (ipv4_pool_high_water_emitted s) (ipv6_pool_high_water_emitted s) (poisoned s), record).

Definition publish_checked (s : store) (p : Publication) (now uuid : Z)
  : store * result ResolvedEndpointRecord PublishError :=
  if poisoned s then (s, Err PublishLockPoisoned)
  else match find_or_allocate s (key p) with
  | (s, Err e) => (s, Err e)
  | (s, Ok address) =>
      let stale := match records s !! address with
                   | Some record => pubn_generation p <? policy_generation record
                   | None => false
                   end in
      if stale then (s, Err StalePublication)
      else let '(s, record) := put_record s p address now uuid in (s, Ok record)
  end.

Definition contract_invalid (f : AddressFamily) (c : ResolvedPortContract) : bool :=
  (contract_port c =? 0)
  || bool_decide (pinned_addresses c = [])
  || existsb (λ address, negb (accepts f address)) (pinned_addresses c).

Definition publish (s : store) (r : PublishRequest) (current_policy_generation now uuid : Z)
  : store * result ResolvedEndpointRecord PublishError :=
  if negb (pub_generation r =? current_policy_generation) then (s, Err StalePublication)
  else if (pub_ttl r =? 0) || bool_decide (length (pub_contracts r) = 0%nat)
          || existsb (contract_invalid (pub_family r)) (pub_contracts r)
  then (s, Err InvalidMapping)
  else publish_checked s
         (publication (allocation_key (pub_name r) (pub_family r) (Some (allocation_identity r)))
            (pub_generation r) (pub_ttl r) (pub_contracts r)) now uuid.

Definition publish_observation (s : store) (name : bytes) (f : AddressFamily)
  (policy_generation current_policy_generation now uuid : Z)
  : store * result ResolvedEndpointRecord PublishError :=
  if negb (policy_generation =? current_policy_generation) then (s, Err StalePublication)
  else publish_checked s
         (publication (allocation_key name f None) policy_generation MAX_MAPPING_TTL []) now uuid.

(** ** Lookup *)

Record MappingLookup := mapping_lookup { record : ResolvedEndpointRecord; lookup_port : Z }.

Definition live_record (s : store) (address : IpAddr) (current_policy_generation now : Z)
  : result ResolvedEndpointRecord MappingLookupError :=
  match records s !! address with
  | None => if decide (address ∈ expired_allocations s) then Err Expired else Err Missing
  | Some record =>
      if expires_at record <=? now then Err Expired
      else if negb (policy_generation record =? current_policy_generation) then Err StalePolicy
      else Ok record
  end.

Definition has_port (r : ResolvedEndpointRecord) (port : Z) : bool :=
  existsb (λ c, contract_port c =? port) (contracts r).

Definition lookup (s : store) (address : IpAddr) (port current_policy_generation now : Z)
  : result MappingLookup MappingLookupError :=
  if poisoned s then Err LookupLockPoisoned
  else
    let? record := live_record s address current_policy_generation now in
    if negb (has_port record port) then Err PortMismatch
    else Ok (mapping_lookup record port).

Definition lookup_intent (s : store) (address : IpAddr) (port current_policy_generation now : Z)
  : result MappingLookup MappingLookupError :=
  if poisoned s then Err LookupLockPoisoned
  else
    let? record := live_record s address current_policy_generation now in
    if negb (is_observation record) && negb (has_port record port) then Err PortMismatch
    else Ok (mapping_lookup record port).

(** Each address once, at its first occurrence. *)
Definition retain_first (l : list IpAddr) : list IpAddr := fold_left push_new l [].

Definition selects (ids : list PolicyEndpointId) (port : Z) (c : ResolvedPortContract) : bool :=
  (contract_port c =? port) && bool_decide (endpoint_id c ∈ ids).

Definition pinned_addresses_for (m : MappingLookup) (endpoint_ids : list PolicyEndpointId)
  : result (list IpAddr) MappingLookupError :=
  let addresses :=
    retain_first (flat_map pinned_addresses
      (List.filter (selects endpoint_ids (lookup_port m)) (contracts (record m)))) in
  if decide (addresses = []) then Err EndpointMismatch else Ok addresses.

(** ** Expiry *)

Definition expire_address (s : store) (address : IpAddr) : store :=
  mk_store (delete address (records s)) (allocations s) ({[address]} ∪ expired_allocations s)
    (next_ipv4 s) (end_ipv4 s) (next_ipv6 s) (end_ipv6 s) (next_mapping_generation s)
    (config s) (ipv4_pool_high_water_emitted s) (ipv6_pool_high_water_emitted s) (poisoned s).

Definition expired_addresses (s : store) (now : Z) : list IpAddr :=
  map fst (List.filter (λ kv, expires_at kv.2 <=? now) (map_to_list (records s))).

Definition expire (s : store) (now : Z) : store * result Z MappingLookupError :=
  if poisoned s then (s, Err LookupLockPoisoned)
  else
    let expired := expired_addresses s now in
    (fold_left expire_address expired s, Ok (Z.of_nat (length expired))).

(** [ResolvedEndpointRecord::allowed_ports] and [MappingLookup::endpoint_ids]. *)
Definition allowed_ports (r : ResolvedEndpointRecord) : gset Z :=
  list_to_set (map contract_port (contracts r)).
Definition endpoint_ids (m : MappingLookup) : list PolicyEndpointId :=
  map endpoint_id (List.filter (λ c, contract_port c =? lookup_port m) (contracts (record m))).

Context {world : World}.

Definition connector_for (m : MappingLookup) (id : PolicyEndpointId)
  : result UpstreamConnector MappingLookupError :=
  let? addresses := pinned_addresses_for m [id] in
  let? p := map_err (λ _, InvalidMappingLookup) (build_pinned_validation_plan (N4 := N4) (N6 := N6) addresses) in
  map_err (λ _, InvalidMappingLookup)
    (validate_destination (request (normalized_name (record m)) (lookup_port m) 0 p)).

(** What [pinned_transparent_plan] of proxy.rs reads of an egress decision:
    its generation, the endpoints it matched and its destination plan. *)
Record EgressDecision := egress_decision {
  decision_generation : Z;
  matched_endpoints : list PolicyEndpointId;
  destination : option (DestinationValidationPlan N4 N6);
}.

Definition pinned_transparent_plan (s : store) (dest : SocketAddr) (decision : EgressDecision)
  (now : Z) : result (DestinationValidationPlan N4 N6) MappingLookupError :=
  let? mapping := lookup s (ip dest) (port dest) (decision_generation decision) now in
  let? addresses := pinned_addresses_for mapping (matched_endpoints decision) in
  match destination decision with
  | None => Err InvalidMappingLookup
  | Some p =>
      let? addresses := map_err (λ _, InvalidMappingLookup)
        (filter_resolved_addresses p (normalized_name (record mapping)) (port dest) addresses) in
      map_err (λ _, InvalidMappingLookup) (build_pinned_validation_plan addresses)
  end.
End store.
Arguments ResolvedPortContract : clear implicits.
Arguments ResolvedEndpointRecord : clear implicits.
Arguments PublishRequest : clear implicits.
Arguments MappingLookup : clear implicits.
Arguments EgressDecision : clear implicits.
Arguments Publication : clear implicits.
Arguments store : clear implicits.

(** ** The invariant *)

Section invariant.
Context {N4 N6 : Type} {net4 : CidrNet 32 N4} {net6 : CidrNet 128 N6}.
Implicit Types (s : store N4 N6) (k : AllocationKey) (a : IpAddr).

(** A configuration the constructors accept, of 32-bit and 128-bit addresses. *)
Record config_ok (c : StoreConfig) : Prop := {
  ok_pools : synthetic_pools_new (pools c) = Ok (pools c);
  ok_capacity : store_config_new (pools c) (max_mappings c) = Ok c;
  ok_max : 0 ≤ max_mappings c;
  ok_ipv4 : 0 ≤ ipv4_start (pools c) ∧ ipv4_end (pools c) ≤ u32_max;
  ok_ipv6 : 0 ≤ ipv6_start (pools c) ∧ ipv6_end (pools c) ≤ u128_max;
}.

(** The last address of its family: the cursor of a pool cannot pass it. *)
Definition last_address (a : IpAddr) : Prop :=
  match a with V4 x => x = u32_max | V6 x => x = u128_max end.
Definition in_pool (c : StoreConfig) (a : IpAddr) : Prop :=
  match a with
  | V4 x => ipv4_start (pools c) ≤ x ≤ ipv4_end (pools c)
  | V6 x => ipv6_start (pools c) ≤ x ≤ ipv6_end (pools c)
  end.
(** An address handed out already. *)
Definition handed_out s a : Prop :=
  match a with
  | V4 x => ipv4_start (pools (config s)) ≤ x < next_ipv4 s
  | V6 x => ipv6_start (pools (config s)) ≤ x < next_ipv6 s
  end.

(** What a record says of the key its address was allocated for. *)
Record record_ok s a (r : ResolvedEndpointRecord N4 N6) : Prop := {
  record_address : synthetic_address r = a;
  record_key : ∃ k, allocations s !! k = Some a ∧ key_name k = normalized_name r
    ∧ key_family k = family r ∧ (identity k = None ↔ contracts r = []);
  record_contracts : ∀ c, In c (contracts r) → contract_invalid (family r) c = false;
  record_generation : mapping_generation r ≤ next_mapping_generation s;
}.

Record inv s : Prop := {
  inv_config : config_ok (config s);
  inv_ends : end_ipv4 s = ipv4_end (pools (config s)) ∧ end_ipv6 s = ipv6_end (pools (config s));
  inv_generation : 0 ≤ next_mapping_generation s ≤ u64_max;
  inv_next4 : ipv4_start (pools (config s)) ≤ next_ipv4 s ≤ end_ipv4 s + 1;
  inv_next6 : ipv6_start (pools (config s)) ≤ next_ipv6 s ≤ end_ipv6 s + 1;
  inv_alloc k a : allocations s !! k = Some a →
    accepts (key_family k) a = true ∧ in_pool (config s) a ∧ (last_address a ∨ handed_out s a);
  inv_inj k k' a : allocations s !! k = Some a → allocations s !! k' = Some a →
    last_address a ∨ k = k';
  inv_records a r : records s !! a = Some r → record_ok s a r;
  inv_expired a : a ∈ expired_allocations s →
    records s !! a = None ∧ ∃ k, allocations s !! k = Some a;
  inv_size : Z.of_nat (size (allocations s)) ≤ max_mappings (config s);
  inv_budget f :
    count_keys (is_family_observation f) (allocations s) ≤ observation_budget (config s) f;
}.

(** The operations that change the store, with arbitrary arguments. *)
Inductive step s : store N4 N6 → Prop :=
| step_publish r g now u : step s (publish s r g now u).1
| step_observe name f pg g now u : step s (publish_observation s name f pg g now u).1
| step_expire now : step s (expire s now).1.

Lemma new_inv c : config_ok c → inv (new c).
Proof.
  intros Hc. pose proof (ok_pools _ Hc) as Hp. unfold synthetic_pools_new in Hp.
  destruct (_ || _) eqn:E in Hp; [done|]. clear Hp.
  split; cbn [new config end_ipv4 end_ipv6 next_ipv4 next_ipv6 allocations records expired_allocations
    next_mapping_generation].
  - done.
  - done.
  - by vm_compute.
  - lia.
  - lia.
  - intros k a. by rewrite lookup_empty.
  - intros k k' a. by rewrite lookup_empty.
  - intros a r. by rewrite lookup_empty.
  - intros a Ha. by apply not_elem_of_empty in Ha.
  - rewrite map_size_empty. by apply Hc.
  - intros f. unfold count_keys. rewrite map_to_list_empty. simpl. unfold observation_budget. lia.
Qed.

(** *** Counting keys *)

Lemma filter_perm_length {A} (P : A → bool) l l' :
  l ≡ₚ l' → length (List.filter P l) = length (List.filter P l').
Proof. induction 1; simpl; repeat case_match; simpl; lia. Qed.

Lemma count_keys_insert P (m : gmap AllocationKey IpAddr) k a :
  m !! k = None → count_keys P (<[k := a]> m) = (if P k then 1 else 0) + count_keys P m.
Proof.
  intros Hk. unfold count_keys.
  rewrite (filter_perm_length _ _ _ (map_to_list_insert m k a Hk)). simpl.
  destruct (P k); simpl; lia.
Qed.

(** *** Allocation *)

Lemma allocate_address_spec s f a s' :
  inv s → allocate_address s f = Some (a, s') →
  accepts f a = true ∧ ¬ handed_out s a ∧ (in_pool (config s) a ∧ (last_address a ∨ handed_out s' a))
  ∧ (∀ b, handed_out s b → handed_out s' b)
  ∧ allocations s' = allocations s ∧ records s' = records s
  ∧ expired_allocations s' = expired_allocations s ∧ config s' = config s
  ∧ next_mapping_generation s' = next_mapping_generation s
  ∧ end_ipv4 s' = end_ipv4 s ∧ end_ipv6 s' = end_ipv6 s
  ∧ ipv4_start (pools (config s)) ≤ next_ipv4 s' ≤ end_ipv4 s + 1
  ∧ ipv6_start (pools (config s)) ≤ next_ipv6 s' ≤ end_ipv6 s + 1
  ∧ poisoned s' = poisoned s.
Proof.
  intros Hi. pose proof (inv_next4 _ Hi). pose proof (inv_next6 _ Hi).
  destruct (inv_ends _ Hi) as [E4 E6]. destruct (inv_config _ Hi) as [_ _ _ [_ M4] [_ M6]].
  unfold allocate_address, saturating_add. destruct f; case_match; [|done| |done];
    intros [= <- <-]; cbn [config next_ipv4 next_ipv6 end_ipv4 end_ipv6 records allocations
      expired_allocations next_mapping_generation poisoned]; unfold handed_out;
    cbn [config next_ipv4 next_ipv6]; unfold in_pool, last_address;
    (split; [done|]); (split; [lia|]); (split; [lia|]); (split; [intros []; lia|]);
    split_and!; done || lia.
Qed.

(** The stores two steps of a publication keep in step: a fresh key gets a
    fresh address, nothing else moves. *)
Lemma insert_allocation_inv s s' k a :
  inv s → allocations s !! k = None → allocate_address s (key_family k) = Some (a, s') →
  Z.of_nat (size (allocations s)) < max_mappings (config s) →
  (identity k = None →
   count_keys (is_family_observation (key_family k)) (allocations s)
   < observation_budget (config s) (key_family k)) →
  inv (insert_allocation s' k a).
Proof.
  intros Hi Hk Ha Hsz Hb. pose proof (allocate_address_spec _ _ _ _ Hi Ha) as
    (Hacc & Hnew & Hout & Hmono & Eal & Erec & Eexp & Ecfg & Egen & E4 & E6 & N4b & N6b & _).
  split; cbn [insert_allocation config end_ipv4 end_ipv6 next_ipv4 next_ipv6 allocations records
    expired_allocations next_mapping_generation]; rewrite ?Eal, ?Erec, ?Eexp, ?Ecfg, ?E4, ?E6.
  - apply Hi.
  - apply Hi.
  - rewrite Egen. apply Hi.
  - done.
  - done.
  - intros k' b [[<- <-]|[_ Hb']]%lookup_insert_Some; [done|].
    destruct (inv_alloc _ Hi _ _ Hb') as (? & ? & [?|?%Hmono]); split_and!; by auto.
  - intros k1 k2 b H1 H2. apply lookup_insert_Some in H1, H2.
    destruct H1 as [[? ?]|[_ H1]], H2 as [[? ?]|[_ H2]]; subst; [by right| | |by eapply inv_inj].
    + destruct (inv_alloc _ Hi _ _ H2) as (_ & _ & [?|?]); [by left|done].
    + destruct (inv_alloc _ Hi _ _ H1) as (_ & _ & [?|?]); [by left|done].
  - intros b r Hr. destruct (inv_records _ Hi _ _ Hr) as [? (k' & ? & ?) ? ?]. split; [done| |done|].
    + exists k'. cbn [insert_allocation allocations]. rewrite Eal, lookup_insert_ne; [done|congruence].
    + cbn [insert_allocation next_mapping_generation]. by rewrite Egen.
  - intros b [? (k' & ?)]%(inv_expired _ Hi). split; [done|].
    exists k'. rewrite lookup_insert_ne; [done|congruence].
  - rewrite map_size_insert_None by done. lia.
  - intros f. rewrite count_keys_insert by done. pose proof (inv_budget _ Hi f).
    destruct (is_family_observation f k) eqn:E; [|lia].
    apply andb_true_iff in E as [Hid%bool_decide_eq_true <-%bool_decide_eq_true].
    specialize (Hb Hid). lia.
Qed.

Lemma find_or_allocate_spec s k s' res :
  inv s → find_or_allocate s k = (s', res) →
  inv s' ∧ records s' = records s ∧ expired_allocations s' = expired_allocations s
  ∧ config s' = config s ∧ next_mapping_generation s' = next_mapping_generation s
  ∧ poisoned s' = poisoned s ∧ allocations s ⊆ allocations s'
  ∧ match res with Ok a => allocations s' !! k = Some a | Err _ => s' = s end.
Proof.
  intros Hi. unfold find_or_allocate. destruct (allocations s !! k) as [a|] eqn:Hk.
  { intros [= <- <-]. split_and!; done. }
  destruct (_ && _) eqn:Hbud; [intros [= <- <-]; split_and!; done|].
  destruct (max_mappings _ <=? _) eqn:Hsz; [intros [= <- <-]; split_and!; done|].
  destruct (allocate_address s (key_family k)) as [[a s1]|] eqn:Ha;
    [|intros [= <- <-]; split_and!; done].
  intros [= <- <-]. pose proof (allocate_address_spec _ _ _ _ Hi Ha) as
    (Hacc & Hnew & Hout & Hmono & Eal & Erec & Eexp & Ecfg & Egen & E4 & E6 & N4b & N6b & Epo).
  split.
  { eapply insert_allocation_inv; [done..|lia|]. intros Hid.
    rewrite bool_decide_eq_true_2 in Hbud by done. simpl in Hbud. lia. }
  cbn [insert_allocation records expired_allocations config next_mapping_generation poisoned allocations].
  rewrite Eal. split_and!; try done; [by apply insert_subseteq|by rewrite lookup_insert_eq].
Qed.

(** *** Publication *)

Lemma put_record_inv s p a now u :
  inv s → allocations s !! key p = Some a →
  (identity (key p) = None ↔ pubn_contracts p = []) →
  (∀ c, In c (pubn_contracts p) → contract_invalid (key_family (key p)) c = false) →
  inv (put_record s p a now u).1.
Proof.
  intros Hi Ha Hid Hc. pose proof (inv_generation _ Hi) as Hg.
  assert (next_mapping_generation s ≤ saturating_add u64_max (next_mapping_generation s) 1) as Hle.
  { unfold saturating_add. lia. }
  split; cbn [put_record fst config end_ipv4 end_ipv6 next_ipv4 next_ipv6 allocations records
    expired_allocations next_mapping_generation];
    [apply Hi|apply Hi|unfold saturating_add; lia|apply Hi..| | |apply Hi|apply Hi].
  - intros b r [[<- <-]|[_ Hr]]%lookup_insert_Some.
    + split; cbn; [done| |done|done]. by exists (key p).
    + destruct (inv_records _ Hi _ _ Hr) as [? (k' & ? & ?) ? ?]. split; [done| |done|].
      * by exists k'.
      * cbn. lia.
  - intros b [Hb Hne]%elem_of_difference. rewrite elem_of_singleton in Hne.
    rewrite lookup_insert_ne by congruence. by apply (inv_expired _ Hi).
Qed.

(** A publication that keeps to what its key says. *)
Definition publication_ok (p : Publication N4 N6) : Prop :=
  (identity (key p) = None ↔ pubn_contracts p = [])
  ∧ ∀ c, In c (pubn_contracts p) → contract_invalid (key_family (key p)) c = false.

(** The whole effect of a publication. *)
Lemma publish_checked_spec s p now u s' res :
  inv s → publication_ok p → publish_checked s p now u = (s', res) →
  inv s' ∧ config s' = config s ∧ allocations s ⊆ allocations s' ∧ poisoned s' = poisoned s
  ∧ match res with
    | Ok r => ∃ a, allocations s' !! key p = Some a
        ∧ r = (put_record s p a now u).2
        ∧ records s' = <[a := r]> (records s)
        ∧ expired_allocations s' = expired_allocations s ∖ {[a]}
        ∧ poisoned s = false
        ∧ (∀ old, records s !! a = Some old → policy_generation old ≤ pubn_generation p)
    | Err _ => records s' = records s ∧ expired_allocations s' = expired_allocations s
    end.
Proof.
  intros Hi [Hid Hc]. unfold publish_checked. destruct (poisoned s) eqn:Hp.
  { intros [= <- <-]. split_and!; done. }
  destruct (find_or_allocate s (key p)) as [s1 [a|e]] eqn:Hf;
    apply find_or_allocate_spec in Hf as (Hi1 & Er & Ee & Ec & Eg & Ep & Hsub & Hk); [|done| |done].
  2: { intros [= <- <-]. split_and!; try done; congruence. }
  assert ((put_record s1 p a now u).2 = (put_record s p a now u).2) as Hrec.
  { cbn. by rewrite Eg. }
  destruct (match records s1 !! a with Some r => _ | None => false end) eqn:Hst.
  { intros [= <- <-]. split_and!; try done; congruence. }
  intros [= <- <-]. split; [|split_and!; try done].
  - exact (put_record_inv s1 p a now u Hi1 Hk Hid Hc).
  - cbn. congruence.
  - exists a. cbn [records expired_allocations allocations]. rewrite Er, Ee. split_and!; try done.
    intros old Hold. rewrite Er, Hold in Hst. lia.
Qed.

Lemma publish_spec s r g now u s' res :
  inv s → publish s r g now u = (s', res) →
  let p := publication (allocation_key (pub_name r) (pub_family r) (Some (allocation_identity r)))
             (pub_generation r) (pub_ttl r) (pub_contracts r) in
  (s' = s ∧ res = Err StalePublication ∧ pub_generation r ≠ g)
  ∨ (s' = s ∧ res = Err InvalidMapping)
  ∨ (pub_generation r = g ∧ publication_ok p ∧ pub_contracts r ≠ []
     ∧ publish_checked s p now u = (s', res)).
Proof.
  intros Hi. unfold publish. destruct (Z.eqb_spec (pub_generation r) g) as [Hg|Hg]; simpl.
  2: { intros [= <- <-]. by left. }
  destruct (_ || _) eqn:Hinv; [intros [= <- <-]; right; by left|].
  apply orb_false_iff in Hinv as [[_ Hne]%orb_false_iff Hc].
  rewrite bool_decide_eq_false in Hne. intros Hp. right; right.
  assert (pub_contracts r ≠ []) by (intros E; by rewrite E in Hne).
  split_and!; try done. split; [by split|]. cbn. intros c Hin.
  apply not_true_is_false. intros Hbad. apply not_true_iff_false in Hc. apply Hc, existsb_exists. eauto.
Qed.

Lemma observation_publication_ok name f pg ttl :
  publication_ok (publication (allocation_key name f None) pg ttl []).
Proof. split; [done|]. by intros c []. Qed.

(** *** Expiry *)

Lemma expire_fold s l :
  let s' := fold_left expire_address l s in
  allocations s' = allocations s ∧ config s' = config s ∧ poisoned s' = poisoned s
  ∧ next_mapping_generation s' = next_mapping_generation s
  ∧ next_ipv4 s' = next_ipv4 s ∧ next_ipv6 s' = next_ipv6 s
  ∧ end_ipv4 s' = end_ipv4 s ∧ end_ipv6 s' = end_ipv6 s
  ∧ (∀ a, records s' !! a = if decide (a ∈ l) then None else records s !! a)
  ∧ (∀ a, a ∈ expired_allocations s' ↔ a ∈ expired_allocations s ∨ a ∈ l).
Proof.
  revert s. induction l as [|x l IH]; intros s; cbn [fold_left].
  { split_and!; try done. intros a. rewrite elem_of_nil. naive_solver. }
  destruct (IH (expire_address s x)) as (-> & -> & -> & -> & -> & -> & -> & -> & Hr & He).
  split_and!; try done.
  - intros a. rewrite Hr. cbn [expire_address records]. destruct (decide (a = x)) as [->|Hne].
    + rewrite lookup_delete_eq. rewrite (decide_True (P := x ∈ x :: l)) by constructor. by case_decide.
    + rewrite lookup_delete_ne by done. destruct (decide (a ∈ l)) as [Hin|Hin].
      * by rewrite decide_True by (by constructor).
      * rewrite decide_False; [done|]. by intros [?|?]%elem_of_cons.
  - intros a. rewrite He. cbn [expire_address expired_allocations]. set_solver.
Qed.

Lemma expired_addresses_elem s now a :
  a ∈ expired_addresses s now ↔ ∃ r, records s !! a = Some r ∧ expires_at r ≤ now.
Proof.
  unfold expired_addresses. rewrite list_elem_of_In, in_map_iff. setoid_rewrite filter_In. split.
  - intros ([x r] & <- & Hin & He). cbn in *. exists r.
    apply list_elem_of_In, elem_of_map_to_list in Hin. split; [done|lia].
  - intros (r & Hr & He). exists (a, r). cbn. split; [done|]. split; [|lia].
    by apply list_elem_of_In, elem_of_map_to_list.
Qed.

Lemma expire_inv s now : inv s → inv (expire s now).1.
Proof.
  intros Hi. unfold expire. destruct (poisoned s); [done|]. cbn [fst].
  destruct (expire_fold s (expired_addresses s now)) as (Ea & Ec & Ep & Eg & N4' & N6' & E4 & E6 & Hr & He).
  set (s' := fold_left _ _ s) in *.
  split; rewrite ?Ea, ?Ec, ?Eg, ?N4', ?N6', ?E4, ?E6; try apply Hi.
  - intros k a Hk. destruct (inv_alloc _ Hi _ _ Hk) as (? & ? & Hh). split_and!; [done..|].
    unfold handed_out in *. by rewrite Ec, N4', N6'.
  - intros a r. rewrite Hr. destruct (decide _); [done|]. intros [? ? ? ?]%(inv_records _ Hi).
    split; [done|by rewrite Ea|done|by rewrite Eg].
  - intros a [Hx|Hx]%He.
    + destruct (inv_expired _ Hi _ Hx) as [Hn Hk]. split; [|done]. rewrite Hr, Hn. by case_decide.
    + split; [rewrite Hr; by rewrite decide_True|].
      apply expired_addresses_elem in Hx as (r & Hx & _).
      destruct (inv_records _ Hi _ _ Hx) as [_ (k & Hk & _) _ _]. by exists k.
Qed.

(** *** Runs *)

Lemma step_inv s s' :
  inv s → step s s' → inv s' ∧ config s' = config s ∧ allocations s ⊆ allocations s'.
Proof.
  intros Hi. inversion 1; subst.
  - destruct (publish s r g now u) as [s1 res] eqn:Hp. cbn [fst].
    destruct (publish_spec _ _ _ _ _ _ _ Hi Hp) as [(-> & _)|[(-> & _)|(_ & Hok & _ & Hc)]];
      [done..|]. by apply publish_checked_spec in Hc as (? & ? & ? & _).
  - unfold publish_observation. destruct (negb _); [done|].
    destruct (publish_checked s _ now u) as [s1 res] eqn:Hc. cbn [fst].
    apply publish_checked_spec in Hc as (? & ? & ? & _); [done|done|].
    apply observation_publication_ok.
  - split; [by apply expire_inv|]. unfold expire. destruct (poisoned s); [done|]. cbn [fst].
    by destruct (expire_fold s (expired_addresses s now)) as (-> & -> & _).
Qed.

Lemma steps_inv s s' :
  rtc step s s' → inv s → inv s' ∧ config s' = config s ∧ allocations s ⊆ allocations s'.
Proof.
  induction 1 as [s|s s1 s2 Hs _ IH]; intros Hi; [done|].
  destruct (step_inv _ _ Hi Hs) as (Hi1 & Ec & Hsub). destruct (IH Hi1) as (? & ? & ?).
  split_and!; [done|congruence|by etrans].
Qed.

Lemma lookup_Ok s a p g now m :
  lookup s a p g now = Ok m →
  records s !! a = Some (record m) ∧ lookup_port m = p ∧ has_port (record m) p = true
  ∧ now < expires_at (record m) ∧ policy_generation (record m) = g ∧ poisoned s = false.
Proof.
  unfold lookup. destruct (poisoned s); [done|]. rewrite let_Ok. intros (r & Hr & Hm).
  unfold live_record in Hr. destruct (records s !! a) as [r'|]; [|by case_decide].
  destruct (expires_at r' <=? now) eqn:He; [done|].
  destruct (Z.eqb_spec (policy_generation r') g) as [Hg|]; [|done]. injection Hr as ->.
  destruct (has_port r p) eqn:Hp; [|done]. injection Hm as <-. cbn. split_and!; done || lia.
Qed.

Lemma fold_push_new_elem l acc x : x ∈ fold_left push_new l acc ↔ x ∈ acc ∨ x ∈ l.
Proof.
  revert acc. induction l as [|y l IH]; intros acc; cbn [fold_left]; [set_solver|].
  rewrite IH, push_new_elem. set_solver.
Qed.

Lemma pinned_addresses_for_Ok m ids l :
  pinned_addresses_for (N4 := N4) (N6 := N6) m ids = Ok l →
  l ≠ [] ∧ ∀ x, x ∈ l ↔ ∃ c, In c (contracts (record m)) ∧ contract_port c = lookup_port m
                             ∧ endpoint_id c ∈ ids ∧ x ∈ pinned_addresses c.
Proof.
  unfold pinned_addresses_for. destruct (decide _) as [|Hne]; [done|]. intros [= <-].
  split; [done|]. intros x. unfold retain_first. rewrite fold_push_new_elem, elem_of_nil.
  rewrite list_elem_of_In, in_flat_map. setoid_rewrite filter_In. unfold selects. setoid_rewrite andb_true_iff.
  setoid_rewrite Z.eqb_eq. setoid_rewrite bool_decide_eq_true.
  setoid_rewrite (list_elem_of_In (pinned_addresses _)). naive_solver.
Qed.

(** ** Properties *)

(** C22: the store keeps its invariant in every run. From a store of any
    configuration the constructors accept, any sequence of publications,
    observations and expiries leaves every key with an address of its family
    inside the pool, no two keys with the same address unless that is the last
    address of the family, every live record under the address allocated for its
    name, with no contract exactly when it is an observation and with valid
    contracts otherwise, no expired address live, and both the mapping limit and
    the observation budget respected. *)
Theorem store_invariant (c : StoreConfig) (s : store N4 N6)
  (Hc : config_ok c) (Hrun : rtc step (new c) s) : inv s ∧ config s = c.
Proof. by destruct (steps_inv _ _ Hrun (new_inv c Hc)) as (? & ? & _). Qed.

(** C30: a synthetic address never changes hands. If an address other than the
    last one of its family is mapped at some point of a run and mapped again at
    any later one, whatever expired or was published between, both mappings are
    of the same name and address family, and an observation never turns into an
    authorized mapping nor the reverse. *)
Theorem synthetic_identity_never_reused (c : StoreConfig) (s s' : store N4 N6) (a : IpAddr)
  (r r' : ResolvedEndpointRecord N4 N6)
  (Hc : config_ok c) (Hrun : rtc step (new c) s) (Hrun' : rtc step s s')
  (Hr : records s !! a = Some r) (Hr' : records s' !! a = Some r') (Ha : ¬ last_address a) :
  normalized_name r' = normalized_name r ∧ family r' = family r
  ∧ is_observation r' = is_observation r.
Proof.
  destruct (steps_inv _ _ Hrun (new_inv c Hc)) as (Hi & _ & _).
  destruct (steps_inv _ _ Hrun' Hi) as (Hi' & _ & Hsub).
  destruct (record_key _ _ _ (inv_records _ Hi _ _ Hr)) as (k & Hk & Hn & Hf & Ho).
  destruct (record_key _ _ _ (inv_records _ Hi' _ _ Hr')) as (k' & Hk' & Hn' & Hf' & Ho').
  destruct (inv_inj _ Hi' k k' a) as [?| ->]; [by eapply lookup_weaken|done|done|].
  split_and!; [congruence..|]. unfold is_observation.
  apply bool_decide_ext. rewrite !length_zero_iff_nil. naive_solver.
Qed.

(** A lookup authorizes only what was published for it. In any reachable
    store, [lookup] succeeds only on the live record of that address, unexpired
    and of the current policy generation, with a contract for the port, hence
    never on an observation; every address it can pin is of the record's
    family and comes from a contract of one of the endpoints and of that port. *)
Theorem lookup_authorizes (c : StoreConfig) (s : store N4 N6) (a : IpAddr) (p g now : Z)
  (m : MappingLookup N4 N6)
  (Hc : config_ok c) (Hrun : rtc step (new c) s) (Hl : lookup s a p g now = Ok m) :
  records s !! a = Some (record m) ∧ synthetic_address (record m) = a
  ∧ now < expires_at (record m) ∧ policy_generation (record m) = g
  ∧ is_observation (record m) = false ∧ p ≠ 0
  ∧ ∀ ids l, pinned_addresses_for m ids = Ok l →
      l ≠ [] ∧ ∀ x, x ∈ l → accepts (family (record m)) x = true
        ∧ ∃ ct, In ct (contracts (record m)) ∧ contract_port ct = p
                ∧ endpoint_id ct ∈ ids ∧ x ∈ pinned_addresses ct.
Proof.
  destruct (steps_inv _ _ Hrun (new_inv c Hc)) as (Hi & _ & _).
  destruct (lookup_Ok _ _ _ _ _ _ Hl) as (Hr & Hp & Hport & Hnow & Hg & _).
  destruct (inv_records _ Hi _ _ Hr) as [Haddr _ Hcs _].
  apply existsb_exists in Hport as (k & Hk & Hkp%Z.eqb_eq).
  assert (∀ ct x, In ct (contracts (record m)) → x ∈ pinned_addresses ct →
    accepts (family (record m)) x = true) as Hacc.
  { intros k' x Hin Hx. specialize (Hcs k' Hin). unfold contract_invalid in Hcs.
    apply orb_false_iff in Hcs as [_ Hcs]. destruct (accepts _ x) eqn:E; [done|].
    rewrite <- Hcs. apply existsb_exists. exists x. split; [by apply list_elem_of_In|].
    by rewrite E. }
  split_and!; try done.
  - unfold is_observation. apply bool_decide_eq_false. rewrite length_zero_iff_nil.
    intros E. by rewrite E in Hk.
  - specialize (Hcs k Hk). unfold contract_invalid in Hcs. lia.
  - intros ids l (Hne & Hx)%pinned_addresses_for_Ok. rewrite Hp in Hx. split; [done|].
    intros x (k' & ? & ? & ? & ?)%Hx. split; [by eapply Hacc|]. by exists k'.
Qed.

Lemma lookup_frame s s' b p g t :
  poisoned s' = poisoned s → records s' !! b = records s !! b →
  (b ∈ expired_allocations s' ↔ b ∈ expired_allocations s) →
  lookup s' b p g t = lookup s b p g t.
Proof.
  intros Hp Hr He. unfold lookup, live_record. rewrite Hp, Hr.
  by rewrite (decide_ext _ _ _ _ He).
Qed.

(** A publication is exactly seen by later lookups. A successful one can
    be looked up under the returned address, at each of its ports and in its
    generation, until its lifetime ends, and never replaces a record of a
    newer policy generation; lookups of every other address, and all lookups
    after a failed publication, are unchanged. *)
Theorem publish_effect (c : StoreConfig) (s s' : store N4 N6) (r : PublishRequest N4 N6)
  (g now u : Z) (res : result (ResolvedEndpointRecord N4 N6) PublishError)
  (Hc : config_ok c) (Hrun : rtc step (new c) s) (Hp : publish s r g now u = (s', res)) :
  match res with
  | Ok rec =>
      normalized_name rec = pub_name r ∧ contracts rec = pub_contracts r
      ∧ (∀ ct t, In ct (pub_contracts r) → t < now + pub_ttl r →
         lookup s' (synthetic_address rec) (contract_port ct) g t
         = Ok (mapping_lookup rec (contract_port ct)))
      ∧ (∀ b p g' t, b ≠ synthetic_address rec → lookup s' b p g' t = lookup s b p g' t)
      ∧ ∀ old, records s !! synthetic_address rec = Some old → policy_generation old ≤ g
  | Err e => ∀ b p g' t, lookup s' b p g' t = lookup s b p g' t
  end.
Proof.
  destruct (steps_inv _ _ Hrun (new_inv c Hc)) as (Hi & _ & _).
  destruct (publish_spec _ _ _ _ _ _ _ Hi Hp) as [(-> & -> & _)|[(-> & ->)|(Hg & Hok & _ & Hch)]];
    [done..|].
  apply publish_checked_spec in Hch as (_ & _ & _ & Hpo & Heff); [|done..].
  destruct res as [rec|e].
  2: { destruct Heff as [Hr He]. intros. apply lookup_frame; [done|by rewrite Hr|by rewrite He]. }
  destruct Heff as (a & _ & -> & Hr & He & Hnp & Hold).
  cbn [put_record snd synthetic_address normalized_name contracts key key_name pubn_contracts] in *.
  split_and!; [done..| | |].
  - intros ct t Hct Ht. unfold lookup, live_record. rewrite Hpo, Hnp, Hr, lookup_insert_eq.
    cbn [expires_at pubn_ttl policy_generation pubn_generation].
    destruct (Z.leb_spec (now + pub_ttl r) t); [lia|]. rewrite Hg, Z.eqb_refl. cbn [negb].
    replace (has_port _ (contract_port ct)) with true; [done|].
    symmetry. apply existsb_exists. exists ct. split; [done|apply Z.eqb_refl].
  - intros b p g' t Hb. apply lookup_frame; [done|by rewrite Hr, lookup_insert_ne|].
    rewrite He. set_solver.
  - intros old Hold'. specialize (Hold old Hold'). cbn in Hold. lia.
Qed.

(** A transparent connection dials only what policy DNS pinned and the
    decision allows. The plan it gets names a non-empty set of addresses;
    each was pinned by a contract of the live record of that synthetic
    address, of the decision's policy generation, for that port and for an
    endpoint the decision matched, and is authorized by the decision's own
    destination plan; validating the plan dials exactly them, with no further
    resolution, whatever the resolver and the hosts files say. *)
Theorem pinned_transparent_plan_sound (c : StoreConfig) (s : store N4 N6) (dest : SocketAddr)
  (d : EgressDecision N4 N6) (now : Z) (p : DestinationValidationPlan N4 N6)
  (Hc : config_ok c) (Hrun : rtc step (new c) s)
  (Hp : pinned_transparent_plan s dest d now = Ok p) :
  ∃ l dp rec,
    p = plan (PinnedResolved l) ∧ l ≠ [] ∧ destination d = Some dp
    ∧ records s !! ip dest = Some rec ∧ is_observation rec = false
    ∧ now < expires_at rec ∧ policy_generation rec = decision_generation d
    ∧ (∀ x, x ∈ l → authorized (address_authorization dp) (port dest) x
         ∧ ∃ ct, In ct (contracts rec) ∧ contract_port ct = port dest
                 ∧ endpoint_id ct ∈ matched_endpoints d ∧ x ∈ pinned_addresses ct)
    ∧ ∀ (w : World) host pid,
        validate_destination (world := w) (request host (port dest) pid p)
        = Ok (connector host (port dest) (map (λ x, socket x (port dest)) l)).
Proof.
  unfold pinned_transparent_plan in Hp. apply let_Ok in Hp as (m & Hl & Hp).
  apply let_Ok in Hp as (addrs & Ha & Hp). destruct (destination d) as [[auth]|]; [|done].
  apply let_Ok in Hp as (l & Hf%map_err_Ok & Hb%map_err_Ok).
  destruct (lookup_Ok _ _ _ _ _ _ Hl) as (Hr & Hpt & Hport & Hnow & Hg & _).
  apply pinned_addresses_for_Ok in Ha as [_ Ha]. rewrite Hpt in Ha.
  pose proof (filter_Ok auth (normalized_name (record m)) (port dest) addrs) as Hfl.
  rewrite Hf in Hfl. destruct Hfl as (Hne & _ & Hx).
  unfold build_pinned_validation_plan in Hb. rewrite decide_False in Hb by done. injection Hb as <-.
  exists l, (plan auth), (record m). split_and!; try done.
  - unfold is_observation. apply bool_decide_eq_false. rewrite length_zero_iff_nil. intros E.
    apply existsb_exists in Hport as (k & Hk & _). by rewrite E in Hk.
  - intros x [Hin Hau]%Hx. split; [done|]. apply Ha in Hin as (ct & ?). by exists ct.
Qed.
End invariant.

(** ** Witnesses *)

Definition example_pools : SyntheticPools :=
  pools_of (ipv4 198 18 0 2) (ipv4 198 18 1 255)
    (ipv6 0xfd23 0x6f70 0x656e 0 0 0 0 0) (ipv6 0xfd23 0x6f70 0x656e 0 0 0 0 0x1ff).
Definition example_config : StoreConfig := store_config example_pools 1024.

Definition example_contract : ResolvedPortContract Cidr4 Cidr6 :=
  contract (endpoint_id_of (lit "database") 0) 5432 (plan ExactDeclaredHost)
    [V4 (ipv4 203 0 113 8)].
Definition example_request (name : bytes) : PublishRequest Cidr4 Cidr6 :=
  publish_request name Ipv4 (lit "digest") 7 (10 * nanos_per_sec) [example_contract].

Definition example_store : store Cidr4 Cidr6 :=
  (publish (new example_config) (example_request (lit "db.example")) 7 0 1).1.
Definition example_record : ResolvedEndpointRecord Cidr4 Cidr6 :=
  record_of (V4 (ipv4 198 18 0 2)) (lit "db.example") Ipv4 7 1 1 0 (10 * nanos_per_sec)
    [example_contract].

Lemma pair_snd {A B} (p : A * B) b : p.2 = b → p = (p.1, b).
Proof. by destruct p; intros <-. Qed.

Lemma example_publish : 
  (publish (new example_config) (example_request (lit "db.example")) 7 0 1).2 = Ok example_record.
Proof. by vm_compute. Qed.

Lemma example_config_ok : config_ok example_config.
Proof. by split; vm_compute. Qed.
Lemma example_run : rtc step (new example_config) example_store.
Proof. apply rtc_once, (step_publish (new example_config) (example_request (lit "db.example")) 7 0 1). Qed.

Lemma store_invariant_witness : inv example_store ∧ config example_store = example_config.
Proof. exact (store_invariant example_config example_store example_config_ok example_run). Defined.

(** The mapping expires, another name takes the next address, and the first name
    is published again, under the address it had. *)
Definition later_store : store Cidr4 Cidr6 :=
  (publish (publish (expire example_store (20 * nanos_per_sec)).1
              (example_request (lit "other.example")) 7 (21 * nanos_per_sec) 2).1
     (example_request (lit "db.example")) 7 (30 * nanos_per_sec) 3).1.
Definition later_record : ResolvedEndpointRecord Cidr4 Cidr6 :=
  record_of (V4 (ipv4 198 18 0 2)) (lit "db.example") Ipv4 7 3 3 (30 * nanos_per_sec) (40 * nanos_per_sec)
    [example_contract].
Lemma later_run : rtc step example_store later_store.
Proof.
  eapply rtc_l; [apply step_expire|]. eapply rtc_l; [apply step_publish|].
  apply rtc_once, step_publish.
Qed.
Lemma synthetic_identity_never_reused_witness :
  records later_store !! V4 (ipv4 198 18 0 2) = Some later_record
  ∧ normalized_name later_record = normalized_name example_record.
Proof.
  assert (records later_store !! V4 (ipv4 198 18 0 2) = Some later_record) as Hl by (by vm_compute).
  split; [done|].
  refine (proj1 (synthetic_identity_never_reused example_config example_store later_store
    (V4 (ipv4 198 18 0 2)) example_record later_record example_config_ok example_run later_run _ Hl _));
    [by vm_compute|]. unfold last_address. by vm_compute.
Defined.

Lemma lookup_authorizes_witness :
  ∃ m, lookup example_store (V4 (ipv4 198 18 0 2)) 5432 7 1 = Ok m
       ∧ is_observation (record m) = false.
Proof.
  exists (mapping_lookup example_record 5432).
  assert (lookup example_store (V4 (ipv4 198 18 0 2)) 5432 7 1
          = Ok (mapping_lookup example_record 5432)) as Hl by (by vm_compute).
  split; [done|].
  by destruct (lookup_authorizes example_config example_store (V4 (ipv4 198 18 0 2)) 5432 7 1
    (mapping_lookup example_record 5432) example_config_ok example_run Hl) as (_ & _ & _ & _ & H & _).
Defined.

Lemma publish_effect_witness :
  lookup example_store (V4 (ipv4 198 18 0 2)) 5432 7 nanos_per_sec
  = Ok (mapping_lookup example_record 5432).
Proof.
  assert (publish (new example_config) (example_request (lit "db.example")) 7 0 1
          = (example_store, Ok example_record)) as Hp
    by (unfold example_store; exact (pair_snd _ _ example_publish)).
  destruct (publish_effect example_config (new example_config) example_store
    (example_request (lit "db.example")) 7 0 1 (Ok example_record) example_config_ok
    (rtc_refl step (new example_config)) Hp) as (_ & _ & H & _).
  apply (H example_contract); [by left|by vm_compute].
Defined.

Definition example_decision : EgressDecision Cidr4 Cidr6 :=
  egress_decision 7 [endpoint_id_of (lit "database") 0] (Some (plan ExactDeclaredHost)).

Lemma pinned_transparent_plan_sound_witness :
  ∃ l, pinned_transparent_plan example_store (socket (V4 (ipv4 198 18 0 2)) 5432)
         example_decision 1 = Ok (plan (PinnedResolved l)) ∧ l ≠ [].
Proof.
  assert (pinned_transparent_plan example_store (socket (V4 (ipv4 198 18 0 2)) 5432)
    example_decision 1 = Ok (plan (PinnedResolved [V4 (ipv4 203 0 113 8)]))) as Hp
    by (by vm_compute).
  destruct (pinned_transparent_plan_sound example_config example_store
    (socket (V4 (ipv4 198 18 0 2)) 5432) example_decision 1 _ example_config_ok example_run Hp)
    as (l & _ & _ & Hl & Hne & _).
  exists l. split; [|done]. by rewrite Hp, Hl.
Defined.

(** A pool of the last IPv4 address only. *)
Definition last_pools : SyntheticPools :=
  pools_of (ipv4 255 255 255 255) (ipv4 255 255 255 255)
    (ipv6 0xfd00 0 0 0 0 0 0 1) (ipv6 0xfd00 0 0 0 0 0 0 1).
Definition last_config : StoreConfig := store_config last_pools 8.
Definition last_store : store Cidr4 Cidr6 :=
  (publish (new last_config) (example_request (lit "first.example")) 7 0 1).1.
Definition last_store' : store Cidr4 Cidr6 :=
  (publish last_store (example_request (lit "second.example")) 7 0 2).1.
Definition last_record (name : bytes) (n : Z) : ResolvedEndpointRecord Cidr4 Cidr6 :=
  record_of (V4 (ipv4 255 255 255 255)) name Ipv4 7 n n 0 (10 * nanos_per_sec) [example_contract].

Lemma last_publish_first :
  (publish (new last_config) (example_request (lit "first.example")) 7 0 1).2
  = Ok (last_record (lit "first.example") 1).
Proof. by vm_compute. Qed.
Lemma last_publish_second :
  (publish last_store (example_request (lit "second.example")) 7 0 2).2
  = Ok (last_record (lit "second.example") 2).
Proof. by vm_compute. Qed.
Lemma last_records :
  records last_store' !! V4 (ipv4 255 255 255 255) = Some (last_record (lit "second.example") 2).
Proof. by vm_compute. Qed.

(** The last address is an exception. A pool that ends at the last IPv4
    address passes both constructors, and its last address is handed out
    again and again: [saturating_add] leaves [next_ipv4] at the end of the
    pool, so a second name takes over the address and the mapping of the
    first one. *)
Theorem last_address_is_reused :
  synthetic_pools_new last_pools = Ok last_pools ∧ store_config_new last_pools 8 = Ok last_config
  ∧ ∃ r1 r2,
      publish (new last_config) (example_request (lit "first.example")) 7 0 1 = (last_store, Ok r1)
      ∧ publish last_store (example_request (lit "second.example")) 7 0 2 = (last_store', Ok r2)
      ∧ synthetic_address r1 = synthetic_address r2
      ∧ records last_store' !! synthetic_address r1 = Some r2
      ∧ normalized_name r1 ≠ normalized_name r2.
Proof.
  split; [by vm_compute|]. split; [by vm_compute|].
  exists (last_record (lit "first.example") 1), (last_record (lit "second.example") 2).
  split; [exact (pair_snd _ _ last_publish_first)|].
  split; [exact (pair_snd _ _ last_publish_second)|].
  split; [done|]. split; [exact last_records|done].
Qed.
