(* ===== verification/PolicyDns.v ===== *)
(** * PolicyDns: answering a sandbox's DNS query
    (crates/openshell-supervisor-network/src/policy_dns/mod.rs, name.rs and
    resolver.rs)

    A query is answered only for names some endpoint of the active policy
    selects. The trusted resolver is asked, its answers are filtered through
    the endpoint's destination plan, and the surviving addresses are published
    in the store under a synthetic address, which is the answer. The DNS
    message library is the class [DnsNames], the upstream exchange and the
    digest are arguments, and so is the policy snapshot, as the policy engine
    returned it. Log events are not modelled. *)

From Stdlib Require Import ZifyBool.
From S2P Require Import Prelude Net IpParse Order Patterns Destination DnsStore.
Import IpParse.

(** ** Names *)

(** [hickory_proto::rr::Name]: parsing and printing of presentation form. *)
Class DnsNames := {
  Name : Type;
  from_ascii : bytes → option Name;
  to_ascii : Name → bytes;
  is_root : Name → bool;
}.

Section names.
Context {dns : DnsNames}.

(** [NormalizedName::parse]; a [NormalizedName] is its text. *)
Definition normalized_name_parse (raw : bytes) : option bytes :=
  let trimmed := trim raw in
  if bool_decide (trimmed = []) || is_some (parse_ip trimmed) then None
  else
    let absolute := if ends_with [46] trimmed then trimmed else trimmed ++ [46] in
    match from_ascii absolute with
    | None => None
    | Some parsed =>
        if is_root parsed then None
        else
          let normalized := to_ascii_lowercase (trim_end_matches 46 (to_ascii parsed)) in
          if decide (normalized = []) then None else Some normalized
    end.

Definition canonical_name (n : Name) : bytes :=
  to_ascii_lowercase (trim_end_matches 46 (to_ascii n)).
End names.

(** ** The trusted resolver *)

Definition MAX_RETAINED_ADDRESSES : nat := 16.
Definition MAX_CNAME_HOPS : nat := 8.

Record TrustedAnswer := trusted_answer { addresses : list IpAddr; answer_ttl : Z }.

Inductive ResolveError : Type :=
| Timeout
| Io
| Oversized
| Malformed
| NxDomain
| Response (code : Z)
| NoData
| CnameLimit.

Section resolver.
Context {dns : DnsNames}.

Inductive RData : Type :=
| RA (v : Z)
| RAAAA (v : Z)
| RCNAME (target : Name)
| ROther.

Record RR := rr { rr_name : Name; rr_data : RData; rr_ttl : Z }.

(** The [ParsedRecords] of a message: addresses by owner, in order, and the
    first alias of each owner. *)
Record ParsedRecords := parsed_records {
  addresses_of : gmap bytes (list (IpAddr * Z));
  cnames_of : gmap bytes (Name * Z);
}.

Definition push_address (p : ParsedRecords) (owner : bytes) (a : IpAddr) (ttl : Z) : ParsedRecords :=
  parsed_records (<[owner := default [] (addresses_of p !! owner) ++ [(a, ttl)]]> (addresses_of p))
    (cnames_of p).

Definition parse_record (fam : AddressFamily) (p : ParsedRecords) (record : RR) : ParsedRecords :=
  let owner := canonical_name (rr_name record) in
  match rr_data record, fam with
  | RA v, Ipv4 => push_address p owner (V4 v) (rr_ttl record)
  | RAAAA v, Ipv6 => push_address p owner (V6 v) (rr_ttl record)
  | RCNAME target, _ =>
      match cnames_of p !! owner with
      | Some _ => p
      | None => parsed_records (addresses_of p) (<[owner := (target, rr_ttl record)]> (cnames_of p))
      end
  | _, _ => p
  end.

Definition parse_answer_records (answers : list RR) (fam : AddressFamily) : ParsedRecords :=
  fold_left (parse_record fam) answers (parsed_records ∅ ∅).

(** The minimum of the record lifetimes, 1 when there is none. *)
Definition min_ttl (records : list (IpAddr * Z)) : Z :=
  match map snd records with
  | [] => 1
  | t :: ts => fold_left Z.min ts t
  end.

(** What the loop carries between exchanges. *)
Record chase := chase_of {
  current : Name;
  visited : gset bytes;
  chain_ttl : Z;
  cname_hops : nat;
}.

Inductive inner_outcome : Type :=
| Return (r : result TrustedAnswer ResolveError)
| NextExchange (c : chase)
| OutOfFuel.

(** The inner [loop]: follow aliases inside one response. *)
Fixpoint follow (fuel : nat) (p : ParsedRecords) (cursor : bytes) (c : chase) : inner_outcome :=
  match fuel with
  | O => OutOfFuel
  | S fuel =>
      match addresses_of p !! cursor with
      | Some records =>
          Return (Ok (trusted_answer
            (take MAX_RETAINED_ADDRESSES (retain_first (map fst records)))
            (Z.min (chain_ttl c) (min_ttl records) * nanos_per_sec)))
      | None =>
          match cnames_of p !! cursor with
          | None => Return (Err NoData)
          | Some (target, ttl) =>
              let hops := S (cname_hops c) in
              if decide (MAX_CNAME_HOPS < hops)%nat then Return (Err CnameLimit)
              else
                let target_key := canonical_name target in
                if decide (target_key ∈ visited c) then Return (Err CnameLimit)
                else
                  let c := chase_of (current c) ({[target_key]} ∪ visited c)
                             (Z.min (chain_ttl c) ttl) hops in
                  match addresses_of p !! target_key, cnames_of p !! target_key with
                  | None, None => NextExchange (chase_of target (visited c) (chain_ttl c) hops)
                  | _, _ => follow fuel p target_key c
                  end
          end
      end
  end.

(** One more round than hops are allowed, so the fuel never runs out. *)
Definition follow_fuel : nat := S (S MAX_CNAME_HOPS).

(** [exchange] asks the upstream for the records of a name; its errors end the
    resolution. *)
Context (exchange : Name → AddressFamily → result (list RR) ResolveError).

Fixpoint exchanges (rounds : nat) (fam : AddressFamily) (c : chase)
  : option (result TrustedAnswer ResolveError) :=
  match rounds with
  | O => Some (Err CnameLimit)
  | S rounds =>
      match exchange (current c) fam with
      | Err e => Some (Err e)
      | Ok answers =>
          match follow follow_fuel (parse_answer_records answers fam)
                  (canonical_name (current c)) c with
          | Return r => Some r
          | NextExchange c => exchanges rounds fam c
          | OutOfFuel => None
          end
      end
  end.

(** [SocketTrustedResolver::resolve], from the absolute form of the name. *)
Definition resolve (absolute : Name) (fam : AddressFamily)
  : option (result TrustedAnswer ResolveError) :=
  exchanges (S MAX_CNAME_HOPS) fam (chase_of absolute {[canonical_name absolute]} u32_max 0).
End resolver.

(** ** The query service *)

(** [regorus::Value], with what the code reads of a number. *)
Inductive Value : Type :=
| VNull
| VBool (b : bool)
| VNumber (as_i64 : option Z)
| VString (s : bytes)
| VArray (l : list Value)
| VObject (fields : list (bytes * Value)).

Definition value_field (v : Value) (key : bytes) : option Value :=
  match v with
  | VObject fields => snd <$> find (λ kv, bool_decide (kv.1 = key)) fields
  | _ => None
  end.

Definition value_string (v : Value) (key : bytes) : option bytes :=
  match value_field v key with Some (VString s) => Some s | _ => None end.

Definition value_string_array (v : Value) (key : bytes) : list bytes :=
  match value_field v key with
  | Some (VArray values) => omap (λ v, match v with VString s => Some s | _ => None end) values
  | _ => []
  end.

Definition port_of_value (v : Value) : option Z :=
  match v with
  | VNumber (Some p) => if (0 <=? p) && (p <=? u16_max) && negb (p =? 0) then Some p else None
  | _ => None
  end.

Definition value_ports (v : Value) : list Z :=
  let ports := match value_field v (lit "ports") with
               | Some (VArray values) => omap port_of_value values
               | _ => []
               end in
  dedup (sort_by Z.compare ports).

Definition is_bool_true (v : option Value) : bool :=
  match v with Some (VBool true) => true | _ => false end.

Definition clamp_mapping_ttl (ttl : Z) : Z := Z.min (Z.max ttl MIN_MAPPING_TTL) MAX_MAPPING_TTL.

(** Reserved names keep the plain refusal. *)
Definition observation_eligible (name : bytes) : bool :=
  negb (bool_decide (name = lit "localhost"))
  && negb (is_known_metadata_hostname name)
  && negb (is_host_gateway_alias name).

Definition POLICY_LOCAL_HOST : bytes := lit "policy.local".
Definition POLICY_LOCAL_ADDRESS : Z := ipv4 198 18 0 1.

Record MatchedEndpoint := matched_endpoint {
  me_policy_name : bytes;
  me_endpoint_index : Z;
  me_endpoint : Value;
}.

Record PolicyDnsEligibilitySnapshot := eligibility_snapshot {
  snap_endpoints : list MatchedEndpoint;
  snap_generation : Z;
  fail_closed : bool;
}.

Record SyntheticAnswer := synthetic_answer {
  sa_address : IpAddr;
  sa_ttl : Z;
  sa_mapping_id : Z;
  sa_mapping_generation : Z;
  sa_policy_generation : Z;
}.

Inductive PolicyDnsError : Type :=
| InvalidName
| Ineligible
| TrustedGatewayUnavailable
| Resolver (e : ResolveError)
| NoValidAddress
| StaleGeneration
| Publish (e : PublishError)
| Policy.

Section service.
Context {N4 N6 : Type} {net4 : CidrNet 32 N4} {net6 : CidrNet 128 N6}.
Context {text : IpNetText N4 N6} {glob : Glob} {dns : DnsNames}.

(** [Display] of a policy value, and SHA-256. *)
Context (value_to_string : Value → bytes) (sha256 : bytes → bytes).

Record EligibleEndpoint := eligible_endpoint {
  ee_id : PolicyEndpointId;
  ee_ports : list Z;
  ee_plan : DestinationValidationPlan N4 N6;
  contract_fingerprint : bytes;
}.

(** One endpoint: none when it does not select the name or names no port. *)
Definition eligible_one (name : bytes) (trusted_host_gateway : option IpAddr)
  (endpoint : MatchedEndpoint) : result (option EligibleEndpoint) PolicyDnsError :=
  match value_string (me_endpoint endpoint) (lit "host") with
  | None => Ok None
  | Some pattern =>
      let pattern := to_ascii_lowercase (trim_end_matches 46 pattern) in
      let? selector := map_err (λ _, Policy) (HostSelector.new [pattern] []) in
      if negb (HostSelector.matches selector name) then Ok None
      else
        let ports := value_ports (me_endpoint endpoint) in
        if decide (ports = []) then Ok None
        else
          let raw_allowed_ips := value_string_array (me_endpoint endpoint) (lit "allowed_ips") in
          let exact_declared_host :=
            negb (contains_byte 42 pattern) && bool_decide (pattern = name)
            && negb (is_bool_true (value_field (me_endpoint endpoint) (lit "advisor_proposed"))) in
          let? destination_plan := map_err (λ _, Policy)
            (build_validation_plan name name trusted_host_gateway None raw_allowed_ips
               exact_declared_host) in
          Ok (Some (eligible_endpoint
            (endpoint_id_of (me_policy_name endpoint) (me_endpoint_index endpoint))
            ports destination_plan (value_to_string (me_endpoint endpoint))))
  end.

Definition eligible_endpoints (endpoints : list MatchedEndpoint) (name : bytes)
  (trusted_host_gateway : option IpAddr) : result (list EligibleEndpoint) PolicyDnsError :=
  let? l := try_collect (eligible_one name trusted_host_gateway) endpoints in
  Ok (omap id l).

Definition allocation_text (e : EligibleEndpoint) : bytes :=
  policy_name (ee_id e) ++ [0] ++ show_uint (endpoint_index (ee_id e)) ++ [0]
  ++ contract_fingerprint e.

Definition allocation_identity_of (endpoints : list EligibleEndpoint) : bytes :=
  sha256 (concat (map (λ c, c ++ [0xff]) (sort_by bytes_cmp (map allocation_text endpoints)))).

(** The contracts of one endpoint: a port whose filter keeps no address has
    none. *)
Definition endpoint_contracts (name : bytes) (answers : list IpAddr) (e : EligibleEndpoint)
  : list (ResolvedPortContract N4 N6) :=
  omap (λ port,
    match filter_resolved_addresses (ee_plan e) name port answers with
    | Ok pinned => Some (contract (ee_id e) port (ee_plan e) pinned)
    | Err _ => None
    end) (ee_ports e).

Definition contract_cmp (l r : ResolvedPortContract N4 N6) : comparison :=
  then_cmp (bytes_cmp (policy_name (endpoint_id l)) (policy_name (endpoint_id r)))
    (then_cmp (Z.compare (endpoint_index (endpoint_id l)) (endpoint_index (endpoint_id r)))
       (Z.compare (contract_port l) (contract_port r))).

Definition answer_of (r : ResolvedEndpointRecord N4 N6) (ttl : Z) : SyntheticAnswer :=
  synthetic_answer (synthetic_address r) ttl (mapping_id r) (mapping_generation r)
    (policy_generation r).

(** [publish_guarded]: the publication runs only if the generation is still
    the snapshot's; [generation_now] is the engine's at that moment. *)
Definition publish_guarded (s : store N4 N6) (policy_generation generation_now : Z)
  (publish : store N4 N6 → Z → store N4 N6 * result (ResolvedEndpointRecord N4 N6) PublishError)
  : store N4 N6 * result (ResolvedEndpointRecord N4 N6) PolicyDnsError :=
  if negb (generation_now =? policy_generation) then (s, Err StaleGeneration)
  else match publish s generation_now with
       | (s, Ok record) => (s, Ok record)
       | (s, Err e) => (s, Err (Publish e))
       end.

Definition stage_observation (s : store N4 N6) (name : bytes) (fam : AddressFamily)
  (policy_generation generation_now now uuid : Z)
  : store N4 N6 * result SyntheticAnswer PolicyDnsError :=
  match publish_guarded s policy_generation generation_now (λ s current,
          publish_observation s name fam policy_generation current now uuid) with
  | (s, Ok record) => (s, Ok (answer_of record MAX_MAPPING_TTL))
  | (s, Err e) =>
      (s, Err match e with
              | Publish ObservationBudgetExhausted | Publish PoolExhausted => Ineligible
              | e => e
              end)
  end.

(** The configured parts of the service and what the world says during one
    query: the snapshot the engine gives (or its failure), the engine's
    generation when the answer is published, and the trusted resolver. *)
Record query_world := query_world_of {
  trusted_host_gateway : option IpAddr;
  snapshot : option PolicyDnsEligibilitySnapshot;
  generation_now : Z;
  resolver : bytes → AddressFamily → result TrustedAnswer ResolveError;
}.

Definition trusted_answer_for (w : query_world) (name : bytes) (fam : AddressFamily)
  : result TrustedAnswer PolicyDnsError :=
  if is_host_gateway_alias name then
    match trusted_host_gateway w with
    | Some address =>
        if accepts fam address then Ok (trusted_answer [address] MAX_MAPPING_TTL)
        else Err NoValidAddress
    | None => Err NoValidAddress
    end
  else map_err Resolver (resolver w name fam).

Definition publish_answer (s : store N4 N6) (w : query_world) (name : bytes) (fam : AddressFamily)
  (generation : Z) (eligible : list EligibleEndpoint) (now uuid : Z)
  : store N4 N6 * result SyntheticAnswer PolicyDnsError :=
  match trusted_answer_for w name fam with
  | Err e => (s, Err e)
  | Ok answer =>
      let ttl := clamp_mapping_ttl (answer_ttl answer) in
      let contracts :=
        sort_by contract_cmp (flat_map (endpoint_contracts name (addresses answer)) eligible) in
      if decide (length contracts = 0%nat) then (s, Err NoValidAddress)
      else
        let request := publish_request name fam (allocation_identity_of eligible) generation ttl
                         contracts in
        match publish_guarded s generation (generation_now w) (λ s current,
                publish s request current now uuid) with
        | (s, Ok record) => (s, Ok (answer_of record ttl))
        | (s, Err e) => (s, Err e)
        end
  end.

Definition answer_query (s : store N4 N6) (w : query_world) (raw_name : bytes)
  (fam : AddressFamily) (now uuid : Z) : store N4 N6 * result SyntheticAnswer PolicyDnsError :=
  match normalized_name_parse raw_name with
  | None => (s, Err InvalidName)
  | Some name =>
      if decide (name = POLICY_LOCAL_HOST) then
        match fam with
        | Ipv4 => (s, Ok (synthetic_answer (V4 POLICY_LOCAL_ADDRESS) MAX_MAPPING_TTL 0 0
                            (generation_now w)))
        | Ipv6 => (s, Err (Resolver NoData))
        end
      else if is_host_gateway_alias name && negb (is_some (trusted_host_gateway w))
      then (s, Err TrustedGatewayUnavailable)
      else match snapshot w with
      | None => (s, Err Policy)
      | Some snap =>
          match eligible_endpoints (snap_endpoints snap) name (trusted_host_gateway w) with
          | Err e => (s, Err e)
          | Ok [] =>
              if fail_closed snap || negb (observation_eligible name) then (s, Err Ineligible)
              else stage_observation s name fam (snap_generation snap) (generation_now w) now uuid
          | Ok eligible =>
              publish_answer s w name fam (snap_generation snap) eligible now uuid
          end
      end
  end.
End service.

(** ** The resolver is bounded *)

Section resolver_properties.
Context {dns : DnsNames}.

Definition records_ok (fam : AddressFamily) (l : list (IpAddr * Z)) : Prop :=
  l ≠ [] ∧ Forall (λ at_, accepts fam at_.1 = true) l.

Lemma push_address_ok fam p owner a ttl :
  accepts fam a = true →
  map_Forall (λ _, records_ok fam) (addresses_of p) →
  map_Forall (λ _, records_ok fam) (addresses_of (push_address p owner a ttl)).
Proof.
  intros Ha Hp. apply map_Forall_insert_2; [|done]. split; [by destruct (default _ _)|].
  apply Forall_app_2; [|by repeat constructor].
  destruct (addresses_of p !! owner) as [l|] eqn:E; [|constructor]. by apply (Hp owner l).
Qed.

Lemma parse_answer_records_ok answers fam :
  map_Forall (λ _, records_ok fam) (addresses_of (parse_answer_records answers fam)).
Proof.
  unfold parse_answer_records.
  enough (∀ p, map_Forall (λ _, records_ok fam) (addresses_of p) →
    map_Forall (λ _, records_ok fam) (addresses_of (fold_left (parse_record fam) answers p))) as H.
  { apply H. apply map_Forall_empty. }
  induction answers as [|r rs IH]; intros p Hp; [done|]. apply IH. unfold parse_record.
  destruct (rr_data r), fam; try done; try (by apply push_address_ok);
    destruct (cnames_of p !! _); done.
Qed.

Lemma retain_first_NoDup l acc : NoDup acc → NoDup (fold_left push_new l acc).
Proof.
  revert acc. induction l as [|x l IH]; intros acc Hacc; [done|]. by apply IH, push_new_NoDup.
Qed.

(** What an answer promises. *)
Definition answer_ok (fam : AddressFamily) (a : TrustedAnswer) : Prop :=
  addresses a ≠ [] ∧ NoDup (addresses a) ∧ (length (addresses a) ≤ MAX_RETAINED_ADDRESSES)%nat
  ∧ Forall (λ x, accepts fam x = true) (addresses a) ∧ answer_ttl a ≤ u32_max * nanos_per_sec.

Lemma retained_ok fam l :
  records_ok fam l →
  let r := take MAX_RETAINED_ADDRESSES (retain_first (map fst l)) in
  r ≠ [] ∧ NoDup r ∧ (length r ≤ MAX_RETAINED_ADDRESSES)%nat ∧ Forall (λ x, accepts fam x = true) r.
Proof.
  intros [Hne Hf] r. unfold r.
  assert (∀ x, x ∈ retain_first (map fst l) ↔ x ∈ map fst l) as Hx.
  { intros x. unfold retain_first. rewrite fold_push_new_elem, elem_of_nil. naive_solver. }
  split_and!.
  - destruct l as [|[x t] l]; [done|]. assert (x ∈ retain_first (map fst ((x, t) :: l))) as Hin.
    { apply Hx. by constructor. }
    destruct (retain_first _); [by apply not_elem_of_nil in Hin|done].
  - eapply sublist_NoDup; [apply retain_first_NoDup, NoDup_nil_2|apply sublist_take].
  - rewrite length_take. lia.
  - apply Forall_forall. intros x Hin%list_elem_of_In. apply elem_of_take in Hin as (i & Hi & _).
    apply list_elem_of_lookup_2, Hx, list_elem_of_In, in_map_iff in Hi as (at_ & <- & Hin).
    rewrite Forall_forall in Hf. by apply Hf.
Qed.

Definition chase_ok (c : chase) : Prop := (cname_hops c ≤ MAX_CNAME_HOPS)%nat ∧ chain_ttl c ≤ u32_max.

Lemma follow_ok fam fuel p cursor c :
  map_Forall (λ _, records_ok fam) (addresses_of p) → chase_ok c →
  (MAX_CNAME_HOPS - cname_hops c < fuel)%nat →
  match follow fuel p cursor c with
  | Return (Ok a) => answer_ok fam a
  | Return (Err _) => True
  | NextExchange c' => chase_ok c'
  | OutOfFuel => False
  end.
Proof.
  intros Hp. revert cursor c. induction fuel as [|fuel IH]; intros cursor c [Hh Ht] Hf; [lia|].
  cbn [follow]. destruct (addresses_of p !! cursor) as [l|] eqn:El.
  { destruct (retained_ok fam l (Hp _ _ El)) as (? & ? & ? & ?). split_and!; try done.
    cbn. unfold u32_max, nanos_per_sec in *. lia. }
  destruct (cnames_of p !! cursor) as [[target ttl]|]; [|done].
  destruct (decide _) as [|Hle]; [done|]. destruct (decide _); [done|].
  assert (∀ v, chase_ok (chase_of (current c) v (Z.min (chain_ttl c) ttl) (S (cname_hops c)))) as Hc.
  { intros v. split; cbn [cname_hops chain_ttl]; lia. }
  destruct (addresses_of p !! canonical_name target);
    [|destruct (cnames_of p !! canonical_name target)].
  - apply IH; [apply Hc|cbn [cname_hops]; lia].
  - apply IH; [apply Hc|cbn [cname_hops]; lia].
  - apply (Hc ∅).
Qed.

(** Resolution through the trusted upstream always ends with a bounded
    answer. Whatever the upstream sends, alias loops included, resolution
    makes at most nine exchanges and stops; an answer it returns is a
    non-empty list of at most 16 distinct addresses of the family asked for,
    and its lifetime fits a DNS lifetime. *)
Theorem resolve_bounded (exchange : Name → AddressFamily → result (list RR) ResolveError)
  (absolute : Name) (fam : AddressFamily) :
  ∃ r, resolve exchange absolute fam = Some r
       ∧ ∀ a, r = Ok a → answer_ok fam a.
Proof.
  unfold resolve. assert (chase_ok (chase_of absolute {[canonical_name absolute]} u32_max 0)) as Hc.
  { split; cbn [cname_hops chain_ttl]; lia. }
  revert Hc. generalize (S MAX_CNAME_HOPS).
  generalize (chase_of absolute {[canonical_name absolute]} u32_max 0).
  intros c rounds. revert c. induction rounds as [|rounds IH]; intros c Hc; cbn [exchanges].
  { eexists; split; [done|]. done. }
  destruct (exchange (current c) fam) as [answers|e]; [|eexists; by split].
  pose proof (follow_ok fam follow_fuel (parse_answer_records answers fam)
    (canonical_name (current c)) c (parse_answer_records_ok _ _) Hc) as Hf.
  destruct (follow _ _ _ _) as [r|c'|].
  - exists r. split; [done|]. intros a ->. apply Hf. unfold follow_fuel. lia.
  - apply IH, Hf. unfold follow_fuel. lia.
  - destruct Hf. unfold follow_fuel. lia.
Qed.
End resolver_properties.

(** ** Answers *)

Section service_properties.
Context {N4 N6 : Type} {net4 : CidrNet 32 N4} {net6 : CidrNet 128 N6}.
Context {text : IpNetText N4 N6} {glob : Glob} {dns : DnsNames}.
Context (value_to_string : Value → bytes) (sha256 : bytes → bytes).

(** The policy endpoint selects the name, and lists the port. *)
Definition endpoint_selects (me : MatchedEndpoint) (name : bytes) (p : Z) : Prop :=
  ∃ pattern selector,
    value_string (me_endpoint me) (lit "host") = Some pattern
    ∧ HostSelector.new [to_ascii_lowercase (trim_end_matches 46 pattern)] [] = Ok selector
    ∧ HostSelector.matches selector name = true
    ∧ p ∈ value_ports (me_endpoint me).

Lemma eligible_one_spec name gw me e :
  eligible_one (N4 := N4) (N6 := N6) value_to_string name gw me = Ok (Some e) →
  ee_id e = endpoint_id_of (me_policy_name me) (me_endpoint_index me)
  ∧ (∀ p, p ∈ ee_ports e → endpoint_selects me name p)
  ∧ ∃ raw exact, build_validation_plan name name gw None raw exact = Ok (ee_plan e).
Proof.
  unfold eligible_one. destruct (value_string _ _) as [pattern|] eqn:Hh; [|done].
  rewrite let_Ok. intros (sel & Hsel%map_err_Ok & H). revert H.
  destruct (HostSelector.matches sel name) eqn:Hm; [|done]. cbn [negb].
  destruct (decide _); [done|]. rewrite let_Ok. intros (pl & Hpl%map_err_Ok & [= <-]). cbn.
  split; [done|]. split; [|eauto]. intros p Hp. exists pattern, sel. done.
Qed.

Lemma eligible_endpoints_spec eps name gw l e :
  eligible_endpoints (N4 := N4) (N6 := N6) value_to_string eps name gw = Ok l → In e l →
  ∃ me, In me eps ∧ eligible_one value_to_string name gw me = Ok (Some e).
Proof.
  unfold eligible_endpoints. rewrite let_Ok. intros (r & Hr%try_collect_Forall2 & [= <-]) He.
  apply list_elem_of_In, list_elem_of_omap in He as (o & Ho & He).
  unfold id in He. subst o. apply list_elem_of_lookup in Ho as [i Hi].
  destruct (Forall2_lookup_r _ _ _ _ _ Hr Hi) as (me & Hme & H).
  exists me. split; [|done]. apply list_elem_of_In. by apply list_elem_of_lookup_2 in Hme.
Qed.

(** A contract pins only answers its endpoint's plan authorizes. *)
Lemma endpoint_contracts_spec name answers (e : EligibleEndpoint) ct :
  In ct (endpoint_contracts (N4 := N4) (N6 := N6) name answers e) →
  endpoint_id ct = ee_id e ∧ contract_port ct ∈ ee_ports e ∧ destination_plan ct = ee_plan e
  ∧ ∀ x, x ∈ pinned_addresses ct →
         x ∈ answers ∧ authorized (address_authorization (ee_plan e)) (contract_port ct) x.
Proof.
  unfold endpoint_contracts. intros (p & Hp & Hc)%list_elem_of_In%list_elem_of_omap.
  destruct (ee_plan e) as [auth] eqn:Hpl.
  pose proof (filter_Ok auth name p answers) as Hf.
  destruct (filter_resolved_addresses _ _ _ _) as [l|]; [|done]. injection Hc as <-.
  destruct Hf as (_ & _ & Hf). cbn. split_and!; [done..|]. intros x ?%Hf. done.
Qed.

Lemma publish_guarded_spec s g gn pub s' (res : result (ResolvedEndpointRecord N4 N6) _) :
  publish_guarded s g gn pub = (s', res) →
  (s' = s ∧ res = Err StaleGeneration)
  ∨ (gn = g ∧ ∃ r, pub s gn = (s', r)
     ∧ res = match r with Ok rec => Ok rec | Err e => Err (Publish e) end).
Proof.
  unfold publish_guarded. destruct (Z.eqb_spec gn g) as [->|]; cbn [negb].
  2: { intros [= <- <-]. by left. }
  destruct (pub s g) as [s1 [rec|e]]; intros [= <- <-]; right; eauto.
Qed.

(** What the service promises of a published record. *)
Definition published_ok (w : query_world) (name : bytes) (fam : AddressFamily)
  (rec : ResolvedEndpointRecord N4 N6) : Prop :=
  normalized_name rec = name ∧ family rec = fam
  ∧ ∀ ct, In ct (contracts rec) →
      (∃ snap me, snapshot w = Some snap ∧ In me (snap_endpoints snap)
        ∧ policy_generation rec = snap_generation snap
        ∧ endpoint_id ct = endpoint_id_of (me_policy_name me) (me_endpoint_index me)
        ∧ endpoint_selects me name (contract_port ct))
      ∧ ∀ x, x ∈ pinned_addresses ct →
          accepts fam x = true
          ∧ authorized (address_authorization (destination_plan ct)) (contract_port ct) x
          ∧ is_cloud_metadata_ip x = false
          ∧ (is_host_gateway_alias name = false → is_always_blocked_ip x = false).

(** A success leaves the answered record in the store. *)
Lemma publish_success s r g now u s' rec :
  inv s → publish (N4 := N4) (N6 := N6) s r g now u = (s', Ok rec) →
  records s' !! synthetic_address rec = Some rec ∧ normalized_name rec = pub_name r
  ∧ family rec = pub_family r ∧ contracts rec = pub_contracts r
  ∧ policy_generation rec = pub_generation r.
Proof.
  intros Hi Hp. destruct (publish_spec _ _ _ _ _ _ _ Hi Hp) as
    [(_ & ? & _)|[(_ & ?)|(_ & Hok & _ & Hc)]]; [done..|].
  apply publish_checked_spec in Hc as (_ & _ & _ & _ & a & _ & -> & Hr & _); [|done..].
  cbn in *. by rewrite Hr, lookup_insert_eq.
Qed.

Lemma observation_success s name f pg g now u s' rec :
  inv s → publish_observation (N4 := N4) (N6 := N6) s name f pg g now u = (s', Ok rec) →
  records s' !! synthetic_address rec = Some rec ∧ normalized_name rec = name
  ∧ family rec = f ∧ contracts rec = [].
Proof.
  intros Hi. unfold publish_observation. destruct (negb _); [done|]. intros Hc.
  apply publish_checked_spec in Hc as (_ & _ & _ & _ & a & _ & -> & Hr & _);
    [|done|apply observation_publication_ok].
  cbn in *. by rewrite Hr, lookup_insert_eq.
Qed.

Definition resolver_wf (w : query_world) : Prop :=
  (∀ name fam a x, resolver w name fam = Ok a → x ∈ addresses a → ip_wf x)
  ∧ ∀ x, trusted_host_gateway w = Some x → ip_wf x.

Lemma trusted_answer_wf w name fam a x :
  resolver_wf w → trusted_answer_for w name fam = Ok a → x ∈ addresses a → ip_wf x.
Proof.
  intros [Hr Hg]. unfold trusted_answer_for. destruct (is_host_gateway_alias name).
  - destruct (trusted_host_gateway w) as [y|]; [|done]. destruct (accepts fam y); [|done].
    intros [= <-] ->%list_elem_of_singleton. by apply Hg.
  - intros Ha%map_err_Ok. by apply (Hr name fam).
Qed.

Lemma contract_valid_accepts f (ct : ResolvedPortContract N4 N6) x :
  contract_invalid f ct = false → x ∈ pinned_addresses ct → accepts f x = true.
Proof.
  unfold contract_invalid. intros [_ Hc]%orb_false_iff Hx.
  pose proof (proj1 (existsb_false_In _ _) Hc x) as H. apply list_elem_of_In in Hx.
  specialize (H Hx). cbv beta in H. by apply negb_false_iff in H.
Qed.

Lemma publish_answer_spec s w snap name fam eligible now u s' res :
  inv s → resolver_wf w → snapshot w = Some snap →
  eligible_endpoints (N4 := N4) (N6 := N6) value_to_string (snap_endpoints snap) name
    (trusted_host_gateway w) = Ok eligible →
  publish_answer sha256 s w name fam (snap_generation snap) eligible now u = (s', res) →
  (s' = s ∨ step s s')
  ∧ ∀ ans, res = Ok ans →
      sa_ttl ans ≤ MAX_MAPPING_TTL
      ∧ ∃ rec, records s' !! sa_address ans = Some rec ∧ published_ok w name fam rec.
Proof.
  intros Hi Hwf Hsnap Hel. unfold publish_answer.
  destruct (trusted_answer_for w name fam) as [answer|e] eqn:Hans.
  2: { intros [= <- <-]. split; [by left|done]. }
  cbv zeta. set (cts := sort_by contract_cmp _). destruct (decide _) as [|Hne].
  { intros [= <- <-]. split; [by left|done]. }
  set (req := publish_request _ _ _ _ _ _).
  destruct (publish_guarded s _ _ _) as [s1 r] eqn:Hg.
  apply publish_guarded_spec in Hg as [[-> ->]|(Hgen & r' & Hp & ->)].
  { intros [= <- <-]. split; [by left|done]. }
  assert (step s s1) as Hstep.
  { cbn beta in Hp. pose proof (step_publish s req (generation_now w) now u) as H. by rewrite Hp in H. }
  destruct r' as [rec|e]; intros [= <- <-]; (split; [by right|]); [|done].
  intros ans [= <-]. cbn [answer_of sa_ttl sa_address]. split; [unfold clamp_mapping_ttl; lia|].
  destruct (publish_success _ _ _ _ _ _ _ Hi Hp) as (Hrec & Hn & Hf & Hc & Hpg).
  exists rec. split; [done|]. split; [done|]. split; [done|]. intros ct Hct.
  pose proof Hct as Hct0. rewrite Hc in Hct. cbn [req pub_contracts] in Hct.
  apply sort_by_In, in_flat_map in Hct as (e & He & Hct).
  destruct (eligible_endpoints_spec _ _ _ _ _ Hel He) as (me & Hme & Hone).
  destruct (eligible_one_spec _ _ _ _ Hone) as (Hid & Hports & raw & exact & Hpl).
  destruct (endpoint_contracts_spec _ _ _ _ Hct) as (Hid' & Hport & Hplan & Hpin).
  split.
  - exists snap, me. split_and!; [done..|congruence|by apply Hports].
  - intros x Hx. destruct (Hpin x Hx) as [Hin Hauth].
    destruct (plan_authorized_safe _ _ _ _ _ _ _ (contract_port ct) x Hpl) as [Hm Hb]; [|done|].
    { intros _. by eapply trusted_answer_wf. }
    rewrite Hplan. split_and!; try done.
    + destruct (step_inv _ _ Hi Hstep) as [Hi1 _]. eapply contract_valid_accepts; [|done].
      change (family rec = fam) in Hf. rewrite <- Hf.
      exact (record_contracts _ _ _ (inv_records _ Hi1 _ _ Hrec) ct Hct0).
    + intros Hal. apply Hb. by left.
Qed.

Lemma stage_observation_spec s name fam g gn now u s' res :
  inv s → stage_observation (N4 := N4) (N6 := N6) s name fam g gn now u = (s', res) →
  (s' = s ∨ step s s')
  ∧ ∀ ans, res = Ok ans →
      sa_ttl ans = MAX_MAPPING_TTL
      ∧ ∃ rec, records s' !! sa_address ans = Some rec ∧ normalized_name rec = name
               ∧ family rec = fam ∧ contracts rec = [].
Proof.
  intros Hi. unfold stage_observation.
  destruct (publish_guarded s g gn _) as [s1 r] eqn:Hg.
  apply publish_guarded_spec in Hg as [[-> ->]|(-> & r' & Hp & ->)].
  { intros [= <- <-]. split; [by left|done]. }
  assert (step s s1) as Hstep.
  { cbn beta in Hp. pose proof (step_observe s name fam g g now u) as H. by rewrite Hp in H. }
  destruct r' as [rec|e]; intros [= <- <-]; (split; [by right|]); [|by destruct e].
  intros ans [= <-]. split; [done|]. exists rec. cbn [answer_of sa_address].
  exact (observation_success _ _ _ _ _ _ _ _ _ Hi Hp).
Qed.

(** Whatever policy DNS publishes is backed by policy. One query changes
    the store by at most one of its operations, so every store property holds
    across queries; and a successful answer for a name other than the reserved
    local one points at a record of that name and family that lives at most 30
    seconds, each contract of which belongs to an endpoint of the snapshot
    that selects the name and lists the port, and pins only addresses of the
    family that the endpoint's own destination plan authorizes, never a cloud
    metadata address, and never an always-blocked one except for the
    configured host gateway. *)
Theorem answer_query_backed_by_policy (c : StoreConfig) (s s' : store N4 N6) (w : query_world)
  (raw name : bytes) (fam : AddressFamily) (now u : Z) (res : result SyntheticAnswer PolicyDnsError)
  (Hc : config_ok c) (Hrun : rtc step (new c) s) (Hwf : resolver_wf w)
  (Hname : normalized_name_parse raw = Some name)
  (Hq : answer_query value_to_string sha256 s w raw fam now u = (s', res)) :
  rtc step (new c) s'
  ∧ ∀ ans, res = Ok ans → name ≠ POLICY_LOCAL_HOST →
      sa_ttl ans ≤ MAX_MAPPING_TTL
      ∧ ∃ rec, records s' !! sa_address ans = Some rec ∧ published_ok w name fam rec.
Proof.
  destruct (steps_inv _ _ Hrun (new_inv c Hc)) as (Hi & _ & _).
  assert (s' = s ∨ step s s' → rtc step (new c) s') as Hr.
  { intros [->|Hs]; [done|]. by eapply rtc_r. }
  unfold answer_query in Hq. rewrite Hname in Hq. destruct (decide (name = POLICY_LOCAL_HOST)) as [->|].
  { destruct fam; injection Hq as <- <-; done. }
  destruct (_ && _); [injection Hq as <- <-; done|].
  destruct (snapshot w) as [snap|] eqn:Hs; [|injection Hq as <- <-; done].
  destruct (eligible_endpoints _ _ _ _) as [[|e l]|e] eqn:He; [| |injection Hq as <- <-; done].
  - destruct (_ || _); [injection Hq as <- <-; done|].
    apply stage_observation_spec in Hq as [H1 H2]; [|done]. split; [by apply Hr|].
    intros ans Hans _. destruct (H2 ans Hans) as (-> & rec & Hrec & Hn & Hf & Hct).
    split; [done|]. exists rec. split; [done|]. split; [done|]. split; [done|].
    by rewrite Hct.
  - eapply publish_answer_spec in Hq as [H1 H2]; [|done..]. split; [by apply Hr|]. intros ans Hans _.
    by apply H2.
Qed.

(** A name no endpoint selects learns nothing. When the snapshot holds no
    eligible endpoint for it the upstream resolver is not asked, so the answer
    does not depend on it; in quarantine the query is refused; and if a
    synthetic address is returned at all, no connection to it, on any port, in
    any generation and at any time, is authorized by the store. *)
Theorem ineligible_name_learns_nothing (c : StoreConfig) (s : store N4 N6) (w : query_world)
  (snap : PolicyDnsEligibilitySnapshot) (raw name : bytes) (fam : AddressFamily) (now u : Z)
  (Hc : config_ok c) (Hrun : rtc step (new c) s)
  (Hname : normalized_name_parse raw = Some name) (Hloc : name ≠ POLICY_LOCAL_HOST)
  (Hsnap : snapshot w = Some snap)
  (Hel : eligible_endpoints (N4 := N4) (N6 := N6) value_to_string (snap_endpoints snap) name
           (trusted_host_gateway w) = Ok []) :
  (∀ resolver', answer_query value_to_string sha256 s w raw fam now u
     = answer_query value_to_string sha256 s
         (query_world_of (trusted_host_gateway w) (snapshot w) (generation_now w) resolver')
         raw fam now u)
  ∧ (fail_closed snap = true →
     is_ok (answer_query value_to_string sha256 s w raw fam now u).2 = false)
  ∧ ∀ s' ans, answer_query value_to_string sha256 s w raw fam now u = (s', Ok ans) →
      ∀ p g t, is_ok (lookup s' (sa_address ans) p g t) = false.
Proof.
  destruct (steps_inv _ _ Hrun (new_inv c Hc)) as (Hi & _ & _).
  split.
  { intros resolver'. unfold answer_query. rewrite Hname, !decide_False by done.
    cbn [trusted_host_gateway snapshot generation_now]. by rewrite Hsnap, Hel. }
  unfold answer_query. rewrite Hname, !decide_False by done. rewrite Hsnap, Hel. split.
  - intros ->. cbn [orb]. by destruct (_ && _).
  - intros s' ans. destruct (_ && _); [done|]. destruct (_ || _); [done|]. intros Hq p g t.
    apply stage_observation_spec in Hq as [_ H]; [|done].
    destruct (H ans eq_refl) as (_ & rec & Hrec & _ & _ & Hct).
    destruct (lookup s' _ p g t) as [m|] eqn:Hl; [|done]. exfalso.
    apply lookup_Ok in Hl as (Hrec' & _ & Hport & _). rewrite Hrec in Hrec'.
    injection Hrec' as Hrec'. unfold has_port in Hport. by rewrite <- Hrec', Hct in Hport.
Qed.
End service_properties.

(** ** Witnesses *)

(** Names as text that ends in a dot. *)
Definition example_dns : DnsNames := {|
  Name := bytes;
  from_ascii s := if ends_with [46] s && negb (has_whitespace s) then Some s else None;
  to_ascii n := n;
  is_root n := bool_decide (n = [46]);
|}.

Definition example_endpoint : MatchedEndpoint :=
  matched_endpoint (lit "web") 0
    (VObject [(lit "host", VString (lit "*.example.com")); (lit "ports", VArray [VNumber (Some 443)])]).
Definition example_query_world : query_world :=
  query_world_of None (Some (eligibility_snapshot [example_endpoint] 7 false)) 7
    (λ _ _, Ok (trusted_answer [V4 (ipv4 10 0 0 1); V4 (ipv4 93 184 216 34)] (5 * nanos_per_sec))).

Definition example_answer (raw : bytes) : store Cidr4 Cidr6 * result SyntheticAnswer PolicyDnsError :=
  answer_query (text := example_text) (glob := simple_glob) (dns := example_dns) (λ _, []) (λ s, s)
    (new example_config) example_query_world raw Ipv4 0 1.

Lemma example_resolver_wf : resolver_wf example_query_world.
Proof.
  split; [|done]. intros name fam a x [= <-] Hx. cbn in Hx.
  repeat (apply elem_of_cons in Hx as [->|Hx]; [by vm_compute|]). by apply not_elem_of_nil in Hx.
Qed.

Lemma answer_query_backed_by_policy_witness :
  ∃ ans, (example_answer (lit "API.example.com.")).2 = Ok ans
         ∧ sa_ttl ans ≤ MAX_MAPPING_TTL.
Proof.
  exists (synthetic_answer (V4 (ipv4 198 18 0 2)) (5 * nanos_per_sec) 1 1 7).
  assert ((example_answer (lit "API.example.com.")).2
    = Ok (synthetic_answer (V4 (ipv4 198 18 0 2)) (5 * nanos_per_sec) 1 1 7)) as Hans
    by (by vm_compute).
  split; [done|].
  destruct (answer_query_backed_by_policy (text := example_text) (glob := simple_glob)
    (dns := example_dns) (λ _, []) (λ s, s) example_config (new example_config)
    (example_answer (lit "API.example.com.")).1 example_query_world (lit "API.example.com.")
    (lit "api.example.com") Ipv4 0 1
    (Ok (synthetic_answer (V4 (ipv4 198 18 0 2)) (5 * nanos_per_sec) 1 1 7)) example_config_ok (rtc_refl _ _) example_resolver_wf)
    as [_ H]; [by vm_compute|exact (pair_snd _ _ Hans)|].
  apply (H _ eq_refl). by vm_compute.
Defined.

Lemma ineligible_name_learns_nothing_witness :
  ∃ s ans, example_answer (lit "other.test") = (s, Ok ans)
           ∧ is_ok (lookup s (sa_address ans) 443 7 0) = false.
Proof.
  exists (example_answer (lit "other.test")).1,
    (synthetic_answer (V4 (ipv4 198 18 0 2)) MAX_MAPPING_TTL 1 1 7).
  assert ((example_answer (lit "other.test")).2
    = Ok (synthetic_answer (V4 (ipv4 198 18 0 2)) MAX_MAPPING_TTL 1 1 7)) as Hans
    by (by vm_compute).
  split; [exact (pair_snd _ _ Hans)|].
  destruct (ineligible_name_learns_nothing (text := example_text) (glob := simple_glob)
    (dns := example_dns) (λ _, []) (λ s, s) example_config (new example_config)
    example_query_world (eligibility_snapshot [example_endpoint] 7 false) (lit "other.test")
    (lit "other.test") Ipv4 0 1 example_config_ok (rtc_refl _ _)) as (_ & _ & H);
    [by vm_compute|by vm_compute|done|by vm_compute|].
  exact (H _ _ (pair_snd _ _ Hans) 443 7 0).
Defined.
