(* ===== verification/PolicyTypes.v ===== *)
(** * PolicyTypes: the network part of a sandbox policy
    (proto/sandbox.proto, crates/openshell-policy-schema/src/lib.rs and
    crates/openshell-policy/src/compose.rs)

    The messages the policy crates work on, field by field; a protobuf map is a
    [gmap], an enum field its number. [network_policies] is the map of rules
    the merge operations change; the other sections of a policy pass through
    them. *)

From stdpp Require Import fin_maps.
From S2P Require Import Prelude IpParse Order.

(** ** Messages *)

Module L7QueryMatcher.
Record t := mk { glob : bytes; any : list bytes }.
#[global] Instance eq_dec : EqDecision t.
Proof. solve_decision. Defined.
End L7QueryMatcher.

Module L7Allow.
Record t := mk {
  method : bytes;
  path : bytes;
  command : bytes;
  query : gmap bytes L7QueryMatcher.t;
  operation_type : bytes;
  operation_name : bytes;
  fields : list bytes;
  params : gmap bytes L7QueryMatcher.t;
}.
#[global] Instance eq_dec : EqDecision t.
Proof. solve_decision. Defined.
End L7Allow.

(** [L7Rule] wraps an optional allow; [L7DenyRule] has the fields of an allow. *)
Abbreviation L7Rule := (option L7Allow.t).
Abbreviation L7DenyRule := (L7Allow.t).

Module GraphqlOperation.
Record t := mk { operation_type : bytes; operation_name : bytes; fields : list bytes }.
#[global] Instance eq_dec : EqDecision t.
Proof. solve_decision. Defined.
End GraphqlOperation.

Module McpOptions.
Record t := mk {
  strict_tool_names : option bool;
  allow_all_known_mcp_methods : option bool;
  versions : list bytes;
}.
#[global] Instance eq_dec : EqDecision t.
Proof. solve_decision. Defined.
End McpOptions.

Module Endpoint.
Record t := mk {
  host : bytes;
  port : Z;
  protocol : bytes;
  tls : Z;
  enforcement : Z;
  access : Z;
  rules : list L7Rule;
  allowed_ips : list bytes;
  ports : list Z;
  deny_rules : list L7DenyRule;
  allow_encoded_slash : bool;
  persisted_queries : bytes;
  graphql_persisted_queries : gmap bytes GraphqlOperation.t;
  graphql_max_body_bytes : Z;
  path : bytes;
  websocket_credential_rewrite : bool;
  request_body_credential_rewrite : bool;
  advisor_proposed : bool;
  credential_signing : bytes;
  signing_service : bytes;
  signing_region : bytes;
  json_rpc_max_body_bytes : Z;
  mcp : option McpOptions.t;
  credential_binding : option bytes;
  allow_uninspected_credentials : bool;
  provider_credentialed : bool;
  token_grant_owner : bytes;
}.
#[global] Instance eq_dec : EqDecision t.
Proof. solve_decision. Defined.

(** Only the ports changed. *)
Definition with_ports (e : t) (port : Z) (ports : list Z) : t :=
  mk (host e) port (protocol e) (tls e) (enforcement e) (access e) (rules e) (allowed_ips e)
    ports (deny_rules e) (allow_encoded_slash e) (persisted_queries e)
    (graphql_persisted_queries e) (graphql_max_body_bytes e) (path e)
    (websocket_credential_rewrite e) (request_body_credential_rewrite e) (advisor_proposed e)
    (credential_signing e) (signing_service e) (signing_region e) (json_rpc_max_body_bytes e)
    (mcp e) (credential_binding e) (allow_uninspected_credentials e) (provider_credentialed e)
    (token_grant_owner e).

(** Only the L7 permissions changed. *)
Definition with_l7 (e : t) (access : Z) (rules : list L7Rule) (deny_rules : list L7DenyRule) : t :=
  mk (host e) (port e) (protocol e) (tls e) (enforcement e) access rules (allowed_ips e)
    (ports e) deny_rules (allow_encoded_slash e) (persisted_queries e)
    (graphql_persisted_queries e) (graphql_max_body_bytes e) (path e)
    (websocket_credential_rewrite e) (request_body_credential_rewrite e) (advisor_proposed e)
    (credential_signing e) (signing_service e) (signing_region e) (json_rpc_max_body_bytes e)
    (mcp e) (credential_binding e) (allow_uninspected_credentials e) (provider_credentialed e)
    (token_grant_owner e).

(** An endpoint of default values with a host and a port. *)
Definition basic (host : bytes) (port : Z) : t :=
  mk host port [] 0 0 0 [] [] [] [] false [] ∅ 0 [] false false false [] [] [] 0 None None
    false false [].
End Endpoint.

Abbreviation NetworkEndpoint := Endpoint.t.

(** A [NetworkBinary] is its path. *)
Record NetworkPolicyRule := rule_of {
  name : bytes;
  endpoints : list NetworkEndpoint;
  binaries : list bytes;
}.
#[export] Instance NetworkPolicyRule_eq_dec : EqDecision NetworkPolicyRule.
Proof. solve_decision. Defined.

Abbreviation network_policies := (gmap bytes NetworkPolicyRule).

(** ** Enum values *)

Definition network_tls_mode_to_str (value : Z) : option bytes :=
  if value =? 0 then Some []
  else if value =? 1 then Some (lit "skip")
  else if value =? 2 then Some (lit "terminate")
  else if value =? 3 then Some (lit "passthrough")
  else None.
Definition network_enforcement_mode_to_str (value : Z) : option bytes :=
  if value =? 0 then Some []
  else if value =? 1 then Some (lit "enforce")
  else if value =? 2 then Some (lit "audit")
  else None.
Definition network_access_preset_to_str (value : Z) : option bytes :=
  if value =? 0 then Some []
  else if value =? 1 then Some (lit "read-only")
  else if value =? 2 then Some (lit "read-write")
  else if value =? 3 then Some (lit "full")
  else None.

(** [Display] of an [i32], for a number no enum names. *)
Definition show_int (v : Z) : bytes :=
  if v <? 0 then 45 :: IpParse.show_uint (- v) else IpParse.show_uint v.

(** ** MCP revisions *)

(** A [McpProtocolVersion] is its index in [ALL]. *)
Definition MCP_VERSIONS : list bytes :=
  [lit "2025-03-26"; lit "2025-06-18"; lit "2025-11-25"; lit "2026-07-28"].
Definition DEFAULT_MCP_PROTOCOL_VERSION : bytes := lit "2025-11-25".

Definition parse_mcp_version (value : bytes) : option nat :=
  fst <$> list_find (λ v, v = value) MCP_VERSIONS.

Definition mcp_version_cmp (l r : bytes) : comparison :=
  match parse_mcp_version l, parse_mcp_version r with
  | Some a, Some b => Nat.compare a b
  | Some _, None => Lt
  | None, Some _ => Gt
  | None, None => bytes_cmp l r
  end.

Definition canonicalize_mcp_versions (versions : list bytes) : list bytes :=
  sort_by mcp_version_cmp versions.

Definition canonicalize_mcp_options (o : McpOptions.t) : McpOptions.t :=
  McpOptions.mk (McpOptions.strict_tool_names o) (McpOptions.allow_all_known_mcp_methods o)
    (canonicalize_mcp_versions (McpOptions.versions o)).

(** ** Access presets *)

Inductive AccessPreset : Type := ReadOnly | ReadWrite | Full.

Definition access_preset_parse (value : bytes) : option AccessPreset :=
  if decide (value = lit "read-only") then Some ReadOnly
  else if decide (value = lit "read-write") then Some ReadWrite
  else if decide (value = lit "full") then Some Full
  else None.

Definition access_preset_methods (preset : AccessPreset) (protocol : bytes) : list bytes :=
  let websocket := bool_decide (protocol = lit "websocket") in
  match preset with
  | Full => [lit "*"]
  | ReadOnly => if websocket then [lit "GET"] else [lit "GET"; lit "HEAD"; lit "OPTIONS"]
  | ReadWrite =>
      if websocket then [lit "GET"; lit "WEBSOCKET_TEXT"]
      else [lit "GET"; lit "HEAD"; lit "OPTIONS"; lit "POST"; lit "PUT"; lit "PATCH"]
  end.

Definition schema_expand_access_preset (protocol access : bytes) : option (list bytes) :=
  (λ preset, access_preset_methods preset protocol) <$> access_preset_parse access.

(** ** Provider layers *)

Definition PROVIDER_RULE_NAME_PREFIX : bytes := lit "_provider_".

Definition is_provider_rule_name (rule_name : bytes) : bool :=
  starts_with PROVIDER_RULE_NAME_PREFIX rule_name.

(** [str::trim_matches] of one ASCII char. *)
Fixpoint trim_start_matches (c : Z) (s : bytes) : bytes :=
  match s with b :: s' => if b =? c then trim_start_matches c s' else s | [] => [] end.
Definition trim_matches (c : Z) (s : bytes) : bytes := trim_end_matches c (trim_start_matches c s).

(** The chars of a string: a byte that does not continue a UTF-8 sequence
    starts one. *)
Definition is_char_start (b : Z) : bool := (b <? 128) || (192 <=? b).

(** Each char gives one byte: itself in lower case, or an underscore. *)
Definition provider_rule_name (provider_name : bytes) : bytes :=
  let sanitized :=
    trim_matches 95
      (map (λ c, if is_ascii_alphanumeric c || (c =? 95) then ascii_lower c else 95)
         (List.filter is_char_start provider_name)) in
  if decide (sanitized = []) then PROVIDER_RULE_NAME_PREFIX ++ lit "unnamed"
  else PROVIDER_RULE_NAME_PREFIX ++ sanitized.

Definition strip_provider_rule_names (m : network_policies) : network_policies * bool :=
  let kept := filter (λ kv, is_provider_rule_name kv.1 = false) m in
  (kept, negb (Nat.eqb (size kept) (size m))).

Record ProviderPolicyLayer := provider_layer { layer_rule_name : bytes; layer_rule : NetworkPolicyRule }.

(** The first unused of [preferred_2], [preferred_3], ...; one more candidate
    than there are keys is always enough. *)
Definition suffixed (preferred : bytes) (suffix : nat) : bytes :=
  preferred ++ 95 :: IpParse.show_uint (Z.of_nat suffix).
Fixpoint first_unused (used : bytes → bool) (preferred : bytes) (suffix fuel : nat) : option bytes :=
  match fuel with
  | O => None
  | S fuel =>
      let candidate := suffixed preferred suffix in
      if used candidate then first_unused used preferred (S suffix) fuel else Some candidate
  end.
Definition has_key (m : network_policies) (k : bytes) : bool := is_some (m !! k).

Definition unique_provider_rule_key (m : network_policies) (preferred : bytes) : option bytes :=
  if has_key m preferred then first_unused (has_key m) preferred 2 (S (size m))
  else Some preferred.

Definition add_layer (m : network_policies) (layer : ProviderPolicyLayer)
  : option network_policies :=
  match unique_provider_rule_key m (layer_rule_name layer) with
  | None => None
  | Some key =>
      let rule := layer_rule layer in
      let rule := if decide (name rule = []) then rule_of key (endpoints rule) (binaries rule)
                  else rule in
      Some (<[key := rule]> m)
  end.

(** [None]: a suffix search ran out, which [unique_key_Some] excludes. *)
Definition compose_effective_policy (source : network_policies) (layers : list ProviderPolicyLayer)
  : option network_policies :=
  fold_left (λ m layer, m ≫= λ m, add_layer m layer) layers (Some source).

(** ** Composition keeps the user's rules *)

Lemma show_uint_inj a b :
  0 ≤ a ≤ u32_max → 0 ≤ b ≤ u32_max → IpParse.show_uint a = IpParse.show_uint b → a = b.
Proof.
  assert (u32_max < 10 ^ 40) as Hu by done. intros Ha Hb Hs.
  pose proof (IpParse.parse_show_uint u32_max a Ha ltac:(lia)) as Pa.
  pose proof (IpParse.parse_show_uint u32_max b Hb ltac:(lia)) as Pb.
  rewrite Hs in Pa. congruence.
Qed.

Lemma first_unused_None used preferred suffix fuel j :
  first_unused used preferred suffix fuel = None → (j < fuel)%nat →
  used (suffixed preferred (suffix + j)) = true.
Proof.
  revert suffix j. induction fuel as [|fuel IH]; simpl; intros suffix j H Hj; [lia|].
  destruct (used (suffixed preferred suffix)) eqn:E; [|done].
  destruct j as [|j]; [by rewrite Nat.add_0_r|].
  replace (suffix + S j)%nat with (S suffix + j)%nat by lia. apply IH; [done|lia].
Qed.

(** One candidate more than there are keys is enough. *)
Lemma first_unused_enough used preferred suffix fuel (taken : list bytes) :
  (∀ k, used k = true → k ∈ taken) → (length taken < fuel)%nat →
  Z.of_nat (suffix + fuel) ≤ u32_max →
  ∃ k, first_unused used preferred suffix fuel = Some k.
Proof.
  intros Ht Hf Hb. destruct (first_unused used preferred suffix fuel) as [k|] eqn:E; [by exists k|].
  exfalso. set (l := map (λ j, suffixed preferred (suffix + j)) (seq 0 fuel)).
  assert (NoDup l) as Hnd.
  { apply NoDup_fmap_2_strong, NoDup_seq. intros x y Hx Hy Heq.
    apply elem_of_seq in Hx, Hy. apply app_inv_head, (f_equal tail) in Heq.
    cbn [tail] in Heq. apply show_uint_inj in Heq; lia. }
  assert (l ⊆+ taken) as Hsub.
  { apply NoDup_submseteq; [done|]. intros k Hk. apply (list_elem_of_fmap _ _) in Hk as (j & -> & Hj).
    apply elem_of_seq in Hj. apply Ht. apply (first_unused_None _ _ _ _ _ E). lia. }
  apply submseteq_length in Hsub. unfold l in Hsub. rewrite length_map, length_seq in Hsub. lia.
Qed.

Lemma first_unused_spec used preferred suffix fuel k :
  first_unused used preferred suffix fuel = Some k →
  used k = false ∧ ∃ n, k = suffixed preferred n.
Proof.
  revert suffix. induction fuel as [|fuel IH]; simpl; intros suffix; [done|].
  destruct (used (suffixed preferred suffix)) eqn:E; [apply IH|]. intros [= <-]. eauto.
Qed.

Lemma has_key_false m k : has_key m k = false ↔ m !! k = None.
Proof. unfold has_key. by destruct (m !! k). Qed.

(** A free key that keeps the preferred name as its prefix. *)
Lemma unique_key_Some m preferred :
  Z.of_nat (size m) + 3 ≤ u32_max →
  ∃ k, unique_provider_rule_key m preferred = Some k ∧ m !! k = None
       ∧ starts_with preferred k = true.
Proof.
  intros Hb. unfold unique_provider_rule_key. destruct (has_key m preferred) eqn:E.
  - destruct (first_unused_enough (has_key m) preferred 2 (S (size m)) (map fst (map_to_list m)))
      as [k Hk].
    + intros k Hk. apply (list_elem_of_fmap fst). unfold has_key in Hk.
      destruct (m !! k) as [r|] eqn:Er; [|done]. exists (k, r). split; [done|].
      by apply elem_of_map_to_list.
    + rewrite length_map, length_map_to_list. lia.
    + lia.
    + exists k. rewrite Hk. apply first_unused_spec in Hk as [Hu [n ->]].
      apply has_key_false in Hu. split_and!; [done..|]. apply starts_with_spec. by eexists.
  - exists preferred. apply has_key_false in E. split_and!; [done..|]. apply starts_with_spec.
    exists []. by rewrite app_nil_r.
Qed.

(** The rule a layer contributes under a key. *)
Definition layer_rule_at (key : bytes) (layer : ProviderPolicyLayer) : NetworkPolicyRule :=
  let rule := layer_rule layer in
  if decide (name rule = []) then rule_of key (endpoints rule) (binaries rule) else rule.

Lemma starts_with_trans p q s :
  starts_with p q = true → starts_with q s = true → starts_with p s = true.
Proof.
  rewrite !starts_with_spec. intros [a ->] [b ->]. exists (a ++ b). by rewrite app_assoc.
Qed.

Lemma compose_spec layers m :
  Z.of_nat (size m + length layers) + 3 ≤ u32_max →
  Forall (λ l, is_provider_rule_name (layer_rule_name l) = true) layers →
  ∃ eff, compose_effective_policy m layers = Some eff
  ∧ m ⊆ eff ∧ size eff = (size m + length layers)%nat
  ∧ (∀ k, is_provider_rule_name k = false → eff !! k = m !! k)
  ∧ Forall (λ l, ∃ k, m !! k = None ∧ is_provider_rule_name k = true
                      ∧ eff !! k = Some (layer_rule_at k l)) layers.
Proof.
  revert m. induction layers as [|l layers IH]; intros m Hb Hf.
  { exists m. split_and!; simpl; auto with lia. }
  inversion_clear Hf as [|? ? Hl Hf']. cbn [length] in Hb.
  destruct (unique_key_Some m (layer_rule_name l)) as (k & Hk & Hnone & Hpre); [lia|].
  assert (is_provider_rule_name k = true) as Hprov by (by eapply starts_with_trans).
  set (m1 := <[k := layer_rule_at k l]> m).
  assert (add_layer m l = Some m1) as Hadd by (unfold add_layer; by rewrite Hk).
  assert (size m1 = S (size m)) as Hsz by (by apply map_size_insert_None).
  destruct (IH m1) as (eff & Hc & Hsub & Hs & Hno & Hall); [rewrite Hsz; lia|done|].
  exists eff. split_and!.
  - unfold compose_effective_policy in *. simpl. by rewrite Hadd.
  - etrans; [|done]. by apply insert_subseteq.
  - rewrite Hs, Hsz. simpl. lia.
  - intros k' Hk'. rewrite Hno by done. apply lookup_insert_ne. congruence.
  - constructor.
    + exists k. split_and!; [done..|]. eapply lookup_weaken; [|done]. apply lookup_insert_eq.
    + eapply Forall_impl; [|exact Hall]. intros l' (k' & Hn & ? & ?). exists k'. split_and!; [|done..].
      unfold m1 in Hn. by apply lookup_insert_None in Hn as [? _].
Qed.

(** Composing provider layers is total, loses nothing and can be undone.
    Every user rule keeps its key and content, every layer gets a reserved key
    of its own that was free, nothing else is added, and stripping the
    reserved names gives the user's policy back. *)
Theorem compose_strip_roundtrip source layers :
  Z.of_nat (size source + length layers) + 3 ≤ u32_max →
  Forall (λ l, is_provider_rule_name (layer_rule_name l) = true) layers →
  map_Forall (λ k _, is_provider_rule_name k = false) source →
  ∃ eff, compose_effective_policy source layers = Some eff
  ∧ source ⊆ eff ∧ size eff = (size source + length layers)%nat
  ∧ Forall (λ l, ∃ k, source !! k = None ∧ is_provider_rule_name k = true
                      ∧ eff !! k = Some (layer_rule_at k l)) layers
  ∧ (strip_provider_rule_names eff).1 = source.
Proof.
  intros Hb Hl Hs. destruct (compose_spec layers source Hb Hl) as (eff & ? & ? & ? & Hno & ?).
  exists eff. split_and!; [done..|]. simpl. apply map_eq. intros k. apply option_eq. intros r.
  rewrite map_lookup_filter_Some. simpl. split.
  - intros [He Hp]. by rewrite <- Hno.
  - intros Hk. assert (is_provider_rule_name k = false) as Hp by (by apply (Hs k r)).
    split; [|done]. by rewrite Hno.
Qed.

Lemma compose_strip_roundtrip_witness :
  ∃ eff, compose_effective_policy {[ lit "web" := rule_of (lit "web") [] [] ]}
           [provider_layer (provider_rule_name (lit "GitHub")) (rule_of [] [] [])] = Some eff
         ∧ size eff = 2%nat.
Proof.
  destruct (compose_strip_roundtrip {[ lit "web" := rule_of (lit "web") [] [] ]}
    [provider_layer (provider_rule_name (lit "GitHub")) (rule_of [] [] [])])
    as (eff & Hc & _ & Hs & _).
  - vm_compute. discriminate.
  - repeat constructor.
  - intros k r Hk. apply lookup_singleton_Some in Hk as [<- <-]. vm_compute. reflexivity.
  - exists eff. split; [exact Hc|]. rewrite Hs. vm_compute. reflexivity.
Defined.
