(* ===== verification/PolicyMerge.v ===== *)
(** * PolicyMerge: incremental policy updates
    (crates/openshell-policy/src/merge.rs)

    A running sandbox's policy is changed by operations: add a rule, remove an
    endpoint, a rule or a binary, append L7 rules. A rule grants the product of
    its binaries and its endpoints, so merging one rule into another can grant
    pairs nobody asked for; most of this file is about refusing that. The
    policy is its map of network rules; an operation returns the new map and
    its warnings, or an error. An empty binary list means any binary. *)

From Stdlib Require Import ZifyBool.
From stdpp Require Import fin_maps.
From S2P Require Import Prelude Order PolicyTypes.

(** ** Lists without repetition *)

Definition push_unique `{EqDecision A} (acc : list A) (x : A) : list A :=
  if decide (x ∈ acc) then acc else acc ++ [x].

(** [append_unique_binaries], [_strings], [_l7_rules] and [_deny_rules]. *)
Definition append_unique `{EqDecision A} (existing incoming : list A) : list A :=
  fold_left push_unique incoming existing.

(** [dedup_strings], [_binaries], [_l7_rules] and [_deny_rules]: the first of
    equal elements stays. *)
Definition dedup_first `{EqDecision A} (l : list A) : list A := append_unique [] l.

(** ** Ports and normal forms *)

Definition canonical_ports (e : NetworkEndpoint) : list Z :=
  if decide (Endpoint.ports e ≠ []) then Endpoint.ports e
  else if 0 <? Endpoint.port e then [Endpoint.port e]
  else [].

(** [sort_unstable] and [dedup]. *)
Definition sorted_ports (l : list Z) : list Z := dedup (sort_by Z.compare l).

Definition normalize_endpoint (e : NetworkEndpoint) : NetworkEndpoint :=
  let ports := sorted_ports (canonical_ports e) in
  Endpoint.mk (Endpoint.host e) (default 0 (head ports)) (Endpoint.protocol e) (Endpoint.tls e)
    (Endpoint.enforcement e) (Endpoint.access e) (dedup_first (Endpoint.rules e))
    (dedup_first (Endpoint.allowed_ips e)) ports (dedup_first (Endpoint.deny_rules e))
    (Endpoint.allow_encoded_slash e) (Endpoint.persisted_queries e)
    (Endpoint.graphql_persisted_queries e) (Endpoint.graphql_max_body_bytes e) (Endpoint.path e)
    (Endpoint.websocket_credential_rewrite e) (Endpoint.request_body_credential_rewrite e)
    (Endpoint.advisor_proposed e) (Endpoint.credential_signing e) (Endpoint.signing_service e)
    (Endpoint.signing_region e) (Endpoint.json_rpc_max_body_bytes e)
    (canonicalize_mcp_options <$> Endpoint.mcp e) (Endpoint.credential_binding e)
    (Endpoint.allow_uninspected_credentials e) (Endpoint.provider_credentialed e)
    (Endpoint.token_grant_owner e).

Definition normalize_rule (r : NetworkPolicyRule) : NetworkPolicyRule :=
  rule_of (name r) (map normalize_endpoint (endpoints r)) (dedup_first (binaries r)).

(** ** Effective contracts *)

Definition DEFAULT_JSON_RPC_MAX_BODY_BYTES : Z := 64 * 1024.

Definition effective_json_rpc_max_body_bytes (value : Z) : Z :=
  if value =? 0 then DEFAULT_JSON_RPC_MAX_BODY_BYTES else value.

(** [NetworkEnforcementMode::Audit] is 2. *)
Definition effective_enforcement (value : Z) : Z := if value =? 0 then 2 else value.

Definition is_mcp (protocol : bytes) : bool := eq_ignore_ascii_case protocol (lit "mcp").

Record EffectiveMcpContract := mcp_contract {
  versions : list bytes;
  strict_tool_names : bool;
  allow_all_known_mcp_methods : bool;
  max_body_bytes : Z;
}.
#[export] Instance EffectiveMcpContract_eq_dec : EqDecision EffectiveMcpContract.
Proof. solve_decision. Defined.

Definition effective_mcp_contract (e : NetworkEndpoint) : option EffectiveMcpContract :=
  if negb (is_mcp (Endpoint.protocol e)) then None
  else match Endpoint.mcp e with
  | None => None
  | Some options =>
      let options := canonicalize_mcp_options options in
      Some (mcp_contract (McpOptions.versions options)
        (default true (McpOptions.strict_tool_names options))
        (default false (McpOptions.allow_all_known_mcp_methods options))
        (effective_json_rpc_max_body_bytes (Endpoint.json_rpc_max_body_bytes e)))
  end.

Definition endpoint_uses_mcp (e : NetworkEndpoint) : bool :=
  is_mcp (Endpoint.protocol e) || is_some (Endpoint.mcp e).

Definition mcp_contracts_match (left right : NetworkEndpoint) : bool :=
  match effective_mcp_contract left, effective_mcp_contract right with
  | None, None => negb (endpoint_uses_mcp left) && negb (endpoint_uses_mcp right)
  | Some l, Some r => bool_decide (l = r)
  | _, _ => false
  end.

(** What [describe_mcp_contract] renders: two endpoints render alike exactly
    when these are equal. *)
Inductive rendered_contract : Type :=
| RenderedMcp (c : EffectiveMcpContract)
| RenderedOther (protocol : bytes).
#[export] Instance rendered_contract_eq_dec : EqDecision rendered_contract.
Proof. solve_decision. Defined.

Definition describe_mcp_contract (e : NetworkEndpoint) : rendered_contract :=
  match effective_mcp_contract e with
  | Some c => RenderedMcp c
  | None => RenderedOther (Endpoint.protocol e)
  end.

(** ** Coverage *)

Definition unset_or_equal `{EqDecision A} (proposed loaded : A) (is_unset : A → bool) : bool :=
  is_unset proposed || bool_decide (proposed = loaded).
Definition contains_all `{EqDecision A} (loaded proposed : list A) : bool :=
  forallb (λ item, bool_decide (item ∈ loaded)) proposed.
Definition flag_covers (loaded proposed : bool) : bool := loaded || negb proposed.

Definition protocols_match (left right : bytes) : bool :=
  if is_mcp left || is_mcp right then is_mcp left && is_mcp right
  else bool_decide (left = right).

Definition endpoint_attributes_cover (loaded proposed : NetworkEndpoint) : bool :=
  if negb (eq_ignore_ascii_case (Endpoint.host loaded) (Endpoint.host proposed))
     || negb (bool_decide (Endpoint.path loaded = Endpoint.path proposed)) then false
  else if negb (is_empty (Endpoint.protocol proposed))
          && negb (protocols_match (Endpoint.protocol loaded) (Endpoint.protocol proposed)) then false
  else if negb (Endpoint.tls proposed =? 0)
          && negb (Endpoint.tls loaded =? Endpoint.tls proposed) then false
  else if negb (Endpoint.enforcement proposed =? 0)
          && negb (effective_enforcement (Endpoint.enforcement loaded)
                   =? effective_enforcement (Endpoint.enforcement proposed)) then false
  else if negb (Endpoint.access proposed =? 0)
          && negb (Endpoint.access loaded =? Endpoint.access proposed) then false
  else if negb (mcp_contracts_match loaded proposed) then false
  else
    contains_all (Endpoint.rules loaded) (Endpoint.rules proposed)
    && contains_all (Endpoint.deny_rules loaded) (Endpoint.deny_rules proposed)
    && contains_all (Endpoint.allowed_ips loaded) (Endpoint.allowed_ips proposed)
    && flag_covers (Endpoint.allow_encoded_slash loaded) (Endpoint.allow_encoded_slash proposed)
    && flag_covers (Endpoint.websocket_credential_rewrite loaded)
         (Endpoint.websocket_credential_rewrite proposed)
    && flag_covers (Endpoint.request_body_credential_rewrite loaded)
         (Endpoint.request_body_credential_rewrite proposed)
    && flag_covers (Endpoint.allow_uninspected_credentials loaded)
         (Endpoint.allow_uninspected_credentials proposed)
    && unset_or_equal (Endpoint.persisted_queries proposed) (Endpoint.persisted_queries loaded)
         is_empty
    && unset_or_equal (Endpoint.graphql_persisted_queries proposed)
         (Endpoint.graphql_persisted_queries loaded) (λ m, bool_decide (m = ∅))
    && unset_or_equal (Endpoint.graphql_max_body_bytes proposed)
         (Endpoint.graphql_max_body_bytes loaded) (Z.eqb 0)
    && unset_or_equal (Endpoint.credential_signing proposed) (Endpoint.credential_signing loaded)
         is_empty
    && unset_or_equal (Endpoint.signing_service proposed) (Endpoint.signing_service loaded) is_empty
    && unset_or_equal (Endpoint.signing_region proposed) (Endpoint.signing_region loaded) is_empty
    && (endpoint_uses_mcp loaded
        || unset_or_equal (Endpoint.json_rpc_max_body_bytes proposed)
             (Endpoint.json_rpc_max_body_bytes loaded) (Z.eqb 0)).

(** One unit for each port; [None] for an endpoint that declares none. *)
Definition authorization_ports (e : NetworkEndpoint) : list (option Z) :=
  match canonical_ports e with
  | [] => [None]
  | ports => map Some ports
  end.

Definition port_in (port : option Z) (ports : list Z) : bool :=
  match port with Some p => contains_byte p ports | None => true end.

Definition endpoint_authorization_covers_port (loaded proposed : NetworkEndpoint)
  (port : option Z) : bool :=
  if negb (port_in port (canonical_ports loaded)) then false
  else endpoint_attributes_cover loaded proposed.

Definition binary_scope_covers (r : NetworkPolicyRule) (binary : bytes) : bool :=
  is_empty (binaries r) || bool_decide (binary ∈ binaries r).

Definition rule_authorizes (r : NetworkPolicyRule) (proposed : NetworkEndpoint) (port : option Z)
  : bool :=
  existsb (λ e, endpoint_authorization_covers_port e proposed port) (endpoints r).

(** [policy_covers_rule] on a policy and a proposal already validated and
    canonical. *)
Definition rules_cover (m : network_policies) (proposed : NetworkPolicyRule) : bool :=
  let rules := map snd (map_to_list m) in
  if is_empty (endpoints proposed) then false
  else forallb (λ target,
    forallb (λ port,
      if is_empty (binaries proposed) then
        existsb (λ r, is_empty (binaries r) && rule_authorizes r target port) rules
      else
        forallb (λ binary,
          existsb (λ r, binary_scope_covers r binary && rule_authorizes r target port) rules)
          (binaries proposed))
      (authorization_ports target)) (endpoints proposed).

(** ** Operations, warnings and errors *)

Inductive L7BinaryScope : Type :=
| AnyBinary
| Restricted (binaries : list bytes).

Record L7RuleTarget := l7_target {
  target_rule : bytes;
  target_host : bytes;
  target_ports : list Z;
  target_path : option bytes;
  target_binaries : L7BinaryScope;
}.

Inductive PolicyMergeOp : Type :=
| AddRule (rule_name : bytes) (rule : NetworkPolicyRule)
| RemoveEndpoint (rule_name : option bytes) (host : bytes) (port : Z)
| RemoveRule (rule_name : bytes)
| AddDenyRules (target : L7RuleTarget) (deny_rules : list L7DenyRule)
| AddAllowRules (target : L7RuleTarget) (rules : list L7Rule)
| RemoveBinary (rule_name : bytes) (binary_path : bytes).

(** The reasons [L7RuleTarget::validate] gives. *)
Inductive target_defect : Type :=
| BadRuleName | ProviderOwnedRule | BadHost | BadPorts | BadBinaryScope.

(** The errors of the operations; the three that carry violations belong to
    the whole-policy validations around a merge. *)
Inductive PolicyMergeError : Type :=
| MissingRuleNameForAddRule
| EmptyAddRuleEndpoints (operation_index : nat) (rule_name : bytes)
| McpContractConflict (operation_index : nat) (host : bytes) (port : Z)
    (existing incoming : rendered_contract)
| NewBinaryWouldInheritAuthorization (operation_index : nat) (rule_name : bytes)
    (binary_scope : option bytes) (host : bytes) (ports : list Z)
| ExistingBinariesWouldInheritAuthorization (operation_index : nat) (rule_name host : bytes)
    (ports : list Z) (undeclared_binaries : list (option bytes))
| UndeclaredPortWouldChange (operation_index : nat) (rule_name host : bytes) (ports : list Z)
| ConflictingInspectionContracts (host : bytes) (port : Z) (contracts : list rendered_contract)
| InvalidL7Target (operation_index : nat) (reason : target_defect)
| L7TargetNotFound (target : L7RuleTarget)
| AmbiguousL7Target (target : L7RuleTarget) (paths : list bytes)
| L7BinaryScopeMismatch (rule_name : bytes) (expected declared : option (list bytes))
| L7PortScopeMismatch (rule_name host : bytes) (expected declared : list Z)
| CannotRemoveBinaryFromAnyBinaryScope (operation_index : nat) (rule_name binary_path : bytes)
| InvalidEndpointReference (host : bytes) (port : Z)
| EndpointNotFound (host : bytes) (port : Z)
| EndpointHasNoL7Inspection (host : bytes) (port : Z)
| UnsupportedEndpointProtocol (host : bytes) (port : Z) (protocol : bytes)
| EndpointHasNoAllowBase (host : bytes) (port : Z)
| UnsupportedAccessPreset (host : bytes) (port : Z) (access : bytes).

Inductive PolicyMergeWarning : Type :=
| ExistingProtocolRetained (host : bytes) (port : Z) (existing incoming : bytes)
| ExistingEnforcementRetained (host : bytes) (port : Z) (existing incoming : bytes)
| ExistingTlsRetained (host : bytes) (port : Z) (existing incoming : bytes)
| ExistingAccessRetained (host : bytes) (port : Z) (existing incoming : bytes)
| ExpandedAccessPreset (host : bytes) (port : Z) (access : bytes)
| IgnoredIncomingAccessBecauseRulesExist (host : bytes) (port : Z) (incoming : bytes)
| ExistingAnyBinaryScopeRetained (rule_name : bytes) (incoming : list bytes)
| KeptRequestedRuleNameToAvoidWidening (rule_name overlapping_rule_name : bytes)
    (reason : PolicyMergeError).

Definition label (to_str : Z → option bytes) (value : Z) : bytes :=
  match to_str value with Some s => s | None => show_int value end.
Definition tls_label : Z → bytes := label network_tls_mode_to_str.
Definition enforcement_label : Z → bytes := label network_enforcement_mode_to_str.
Definition access_label : Z → bytes := label network_access_preset_to_str.

(** ** Merging one endpoint *)

(** A field that keeps an existing value: the new value and the warning. *)
Definition merge_string_field (existing incoming : bytes) (w : PolicyMergeWarning)
  : bytes * list PolicyMergeWarning :=
  if is_empty incoming then (existing, [])
  else if is_empty existing then (incoming, [])
  else if decide (existing = incoming) then (existing, []) else (existing, [w]).
Definition merge_enum_field (existing incoming : Z) (w : PolicyMergeWarning)
  : Z * list PolicyMergeWarning :=
  if incoming =? 0 then (existing, [])
  else if existing =? 0 then (incoming, [])
  else if existing =? incoming then (existing, []) else (existing, [w]).

Definition allow_method (method : bytes) : L7Rule :=
  Some (L7Allow.mk method (lit "**") [] ∅ [] [] [] ∅).
Definition expand_access_preset (protocol access : bytes) : option (list L7Rule) :=
  map allow_method <$> schema_expand_access_preset protocol access.

(** [expand_existing_access] on the access and the rules of an endpoint. *)
Definition expand_existing_access (protocol : bytes) (access : Z) (rules : list L7Rule)
  (host : bytes) (port : Z)
  : result (Z * list L7Rule * list PolicyMergeWarning) PolicyMergeError :=
  if access =? 0 then Ok (access, rules, [])
  else
    let name := access_label access in
    match expand_access_preset protocol name with
    | None => Err (UnsupportedAccessPreset host port name)
    | Some expanded =>
        Ok (0, append_unique rules expanded, [ExpandedAccessPreset host port name])
    end.

Definition promotes_l4_endpoint_to_mcp (existing incoming : NetworkEndpoint) : bool :=
  is_empty (Endpoint.protocol existing) && negb (is_some (Endpoint.mcp existing))
  && (Endpoint.json_rpc_max_body_bytes existing =? 0)
  && is_some (effective_mcp_contract incoming).

Definition ensure_mcp_contract_compatible (existing incoming : NetworkEndpoint)
  (operation_index : nat) (host : bytes) (port : Z) : result unit PolicyMergeError :=
  if promotes_l4_endpoint_to_mcp existing incoming || mcp_contracts_match existing incoming
  then Ok ()
  else Err (McpContractConflict operation_index host port
              (describe_mcp_contract existing) (describe_mcp_contract incoming)).

(** The access, the rules and the warnings of the merged endpoint. *)
Definition merge_access (existing incoming : NetworkEndpoint) (protocol host : bytes) (port : Z)
  : result (Z * list L7Rule * list PolicyMergeWarning) PolicyMergeError :=
  let ignored := IgnoredIncomingAccessBecauseRulesExist host port
                   (access_label (Endpoint.access incoming)) in
  let access := Endpoint.access existing in
  let rules := Endpoint.rules existing in
  if negb (is_empty (Endpoint.rules incoming)) then
    let? '(access, rules, w) := expand_existing_access protocol access rules host port in
    Ok (access, append_unique rules (Endpoint.rules incoming),
        w ++ if Endpoint.access incoming =? 0 then [] else [ignored])
  else if Endpoint.access incoming =? 0 then Ok (access, rules, [])
  else if negb (is_empty rules) then Ok (access, rules, [ignored])
  else if access =? 0 then Ok (Endpoint.access incoming, rules, [])
  else if access =? Endpoint.access incoming then Ok (access, rules, [])
  else Ok (access, rules, [ExistingAccessRetained host port (access_label access)
                             (access_label (Endpoint.access incoming))]).

Definition merged_ports (existing incoming : NetworkEndpoint) : list Z :=
  sorted_ports (append_unique (canonical_ports existing) (canonical_ports incoming)).

(** The port the messages name: the first shared one, else the first incoming. *)
Definition shared_port (existing incoming : NetworkEndpoint) : Z :=
  match find (λ p, contains_byte p (canonical_ports incoming)) (canonical_ports existing) with
  | Some p => p
  | None => default 0 (head (canonical_ports incoming))
  end.

Definition merge_endpoint (existing incoming : NetworkEndpoint) (operation_index : nat)
  : result (NetworkEndpoint * list PolicyMergeWarning) PolicyMergeError :=
  let host := if is_empty (Endpoint.host existing) then Endpoint.host incoming
              else Endpoint.host existing in
  let port := shared_port existing incoming in
  let promotes := promotes_l4_endpoint_to_mcp existing incoming in
  let? _ := ensure_mcp_contract_compatible existing incoming operation_index host port in
  let path := if is_empty (Endpoint.path existing) then Endpoint.path incoming
              else Endpoint.path existing in
  let ports := merged_ports existing incoming in
  let '(protocol, w1) :=
    merge_string_field (Endpoint.protocol existing) (Endpoint.protocol incoming)
      (ExistingProtocolRetained host port (Endpoint.protocol existing)
         (Endpoint.protocol incoming)) in
  let mcp := if promotes then Endpoint.mcp incoming else Endpoint.mcp existing in
  let json_rpc := if promotes then Endpoint.json_rpc_max_body_bytes incoming
                  else Endpoint.json_rpc_max_body_bytes existing in
  let '(enforcement, w2) :=
    merge_enum_field (Endpoint.enforcement existing) (Endpoint.enforcement incoming)
      (ExistingEnforcementRetained host port (enforcement_label (Endpoint.enforcement existing))
         (enforcement_label (Endpoint.enforcement incoming))) in
  let '(tls, w3) :=
    merge_enum_field (Endpoint.tls existing) (Endpoint.tls incoming)
      (ExistingTlsRetained host port (tls_label (Endpoint.tls existing))
         (tls_label (Endpoint.tls incoming))) in
  let? '(access, rules, w4) := merge_access existing incoming protocol host port in
  let merged :=
    Endpoint.mk host (default 0 (head ports)) protocol tls enforcement access rules
      (append_unique (Endpoint.allowed_ips existing) (Endpoint.allowed_ips incoming)) ports
      (append_unique (Endpoint.deny_rules existing) (Endpoint.deny_rules incoming))
      (Endpoint.allow_encoded_slash existing || Endpoint.allow_encoded_slash incoming)
      (Endpoint.persisted_queries existing) (Endpoint.graphql_persisted_queries existing)
      (Endpoint.graphql_max_body_bytes existing) path
      (Endpoint.websocket_credential_rewrite existing
       || Endpoint.websocket_credential_rewrite incoming)
      (Endpoint.request_body_credential_rewrite existing
       || Endpoint.request_body_credential_rewrite incoming)
      (Endpoint.advisor_proposed existing && Endpoint.advisor_proposed incoming)
      (Endpoint.credential_signing existing) (Endpoint.signing_service existing)
      (Endpoint.signing_region existing) json_rpc mcp (Endpoint.credential_binding existing)
      (Endpoint.allow_uninspected_credentials existing
       || Endpoint.allow_uninspected_credentials incoming)
      (Endpoint.provider_credentialed existing) (Endpoint.token_grant_owner existing) in
  Ok (normalize_endpoint merged, w1 ++ w2 ++ w3 ++ w4).

Definition endpoints_overlap (left right : NetworkEndpoint) : bool :=
  eq_ignore_ascii_case (Endpoint.host left) (Endpoint.host right)
  && bool_decide (Endpoint.path left = Endpoint.path right)
  && existsb (λ p, contains_byte p (canonical_ports right)) (canonical_ports left).

(** Into the first endpoint it overlaps, or at the end. *)
Fixpoint merge_into (operation_index : nat) (eps : list NetworkEndpoint) (incoming : NetworkEndpoint)
  : result (list NetworkEndpoint * list PolicyMergeWarning) PolicyMergeError :=
  match eps with
  | [] => Ok ([incoming], [])
  | e :: eps =>
      if endpoints_overlap e incoming then
        let? '(e, w) := merge_endpoint e incoming operation_index in Ok (e :: eps, w)
      else
        let? '(eps, w) := merge_into operation_index eps incoming in Ok (e :: eps, w)
  end.

Fixpoint merge_all (operation_index : nat) (eps incoming : list NetworkEndpoint)
  : result (list NetworkEndpoint * list PolicyMergeWarning) PolicyMergeError :=
  match incoming with
  | [] => Ok (eps, [])
  | e :: incoming =>
      let? '(eps, w) := merge_into operation_index eps (normalize_endpoint e) in
      let? '(eps, w') := merge_all operation_index eps incoming in
      Ok (eps, w ++ w')
  end.

(** ** What a merge may grant *)

Definition adopt_unset_retained_fields (declared merged : NetworkEndpoint) : NetworkEndpoint :=
  let d := declared in
  let or_bytes (x y : bytes) := if is_empty x then y else x in
  let or_zero (x y : Z) := if x =? 0 then y else x in
  Endpoint.mk (Endpoint.host d) (Endpoint.port d)
    (or_bytes (Endpoint.protocol d) (Endpoint.protocol merged))
    (or_zero (Endpoint.tls d) (Endpoint.tls merged))
    (or_zero (Endpoint.enforcement d) (Endpoint.enforcement merged))
    (if (Endpoint.access d =? 0) && is_empty (Endpoint.rules d) then Endpoint.access merged
     else Endpoint.access d)
    (Endpoint.rules d) (Endpoint.allowed_ips d) (Endpoint.ports d) (Endpoint.deny_rules d)
    (Endpoint.allow_encoded_slash d)
    (or_bytes (Endpoint.persisted_queries d) (Endpoint.persisted_queries merged))
    (if decide (Endpoint.graphql_persisted_queries d = ∅)
     then Endpoint.graphql_persisted_queries merged else Endpoint.graphql_persisted_queries d)
    (or_zero (Endpoint.graphql_max_body_bytes d) (Endpoint.graphql_max_body_bytes merged))
    (Endpoint.path d) (Endpoint.websocket_credential_rewrite d)
    (Endpoint.request_body_credential_rewrite d) (Endpoint.advisor_proposed d)
    (or_bytes (Endpoint.credential_signing d) (Endpoint.credential_signing merged))
    (or_bytes (Endpoint.signing_service d) (Endpoint.signing_service merged))
    (or_bytes (Endpoint.signing_region d) (Endpoint.signing_region merged))
    (or_zero (Endpoint.json_rpc_max_body_bytes d) (Endpoint.json_rpc_max_body_bytes merged))
    (Endpoint.mcp d) (Endpoint.credential_binding d) (Endpoint.allow_uninspected_credentials d)
    (Endpoint.provider_credentialed d) (Endpoint.token_grant_owner d).

Definition operation_names_port (incoming : NetworkPolicyRule) (merged : NetworkEndpoint)
  (port : option Z) : bool :=
  existsb (λ declared,
    eq_ignore_ascii_case (Endpoint.host declared) (Endpoint.host merged)
    && bool_decide (Endpoint.path declared = Endpoint.path merged)
    && port_in port (canonical_ports declared)) (endpoints incoming).

Definition operation_declares (declarations : list NetworkEndpoint) (merged : NetworkEndpoint)
  (port : option Z) : bool :=
  existsb (λ declared, endpoint_authorization_covers_port declared merged port) declarations.

Definition authorization_unit_unchanged (existing merged : NetworkEndpoint) (port : option Z)
  : bool :=
  Bool.eqb (Endpoint.advisor_proposed existing) (Endpoint.advisor_proposed merged)
  && endpoint_authorization_covers_port existing merged port
  && endpoint_authorization_covers_port merged existing port.

(** [None] stands for the existing any-binary scope. *)
Definition undeclared_existing_binaries (existing incoming : NetworkPolicyRule)
  : list (option bytes) :=
  if is_empty (binaries incoming) then []
  else if is_empty (binaries existing) then [None]
  else map Some (List.filter (λ b, negb (bool_decide (b ∈ binaries incoming))) (binaries existing)).

(** The binary scope the operation adds: [Some None] is any binary. *)
Definition new_binary_scope (existing incoming : NetworkPolicyRule) : option (option bytes) :=
  if is_empty (binaries existing) then None
  else if is_empty (binaries incoming) then Some None
  else Some <$> find (λ b, negb (bool_decide (b ∈ binaries existing))) (binaries incoming).

Definition flatten_ports (l : list (option Z)) : list Z := omap id l.

(** The checks of one merged endpoint. *)
Definition check_merged_endpoint (existing incoming : NetworkPolicyRule)
  (operation_index : nat) (rule_name : bytes) (e : NetworkEndpoint) : result unit PolicyMergeError :=
  let units := authorization_ports e in
  let declarations := map (λ d, adopt_unset_retained_fields d e) (endpoints incoming) in
  let undeclared_ports :=
    match new_binary_scope existing incoming with
    | Some _ => List.filter (λ p, negb (operation_declares declarations e p)) units
    | None => []
    end in
  let changed_ports :=
    List.filter (λ p, negb (existsb (λ x, authorization_unit_unchanged x e p) (endpoints existing)))
      units in
  let undeclared_changed_ports :=
    List.filter (λ p, negb (operation_names_port incoming e p)) changed_ports in
  let undeclared_binaries := undeclared_existing_binaries existing incoming in
  if negb (is_empty undeclared_ports) then
    Err (NewBinaryWouldInheritAuthorization operation_index rule_name
           (default None (new_binary_scope existing incoming)) (Endpoint.host e)
           (flatten_ports undeclared_ports))
  else if negb (is_empty undeclared_changed_ports) then
    Err (UndeclaredPortWouldChange operation_index rule_name (Endpoint.host e)
           (flatten_ports undeclared_changed_ports))
  else if negb (is_empty changed_ports) && negb (is_empty undeclared_binaries) then
    Err (ExistingBinariesWouldInheritAuthorization operation_index rule_name (Endpoint.host e)
           (flatten_ports changed_ports) undeclared_binaries)
  else Ok ().

Fixpoint ensure_authorization_inheritance_is_declared (existing incoming : NetworkPolicyRule)
  (merged_endpoints : list NetworkEndpoint) (operation_index : nat) (rule_name : bytes)
  : result unit PolicyMergeError :=
  match merged_endpoints with
  | [] => Ok ()
  | e :: es =>
      let? _ := check_merged_endpoint existing incoming operation_index rule_name e in
      ensure_authorization_inheritance_is_declared existing incoming es operation_index rule_name
  end.

(** ** Merging and adding a rule *)

Definition merge_rules (existing incoming : NetworkPolicyRule) (operation_index : nat)
  (rule_name target_rule_name : bytes)
  : result (NetworkPolicyRule * list PolicyMergeWarning) PolicyMergeError :=
  let? '(merged, w) := merge_all operation_index (endpoints existing) (endpoints incoming) in
  let? _ := ensure_authorization_inheritance_is_declared existing incoming merged
              operation_index rule_name in
  let '(bins, wb) :=
    if is_empty (binaries existing) then
      (binaries existing,
       if is_empty (binaries incoming) then []
       else [ExistingAnyBinaryScopeRetained target_rule_name (binaries incoming)])
    else if is_empty (binaries incoming) then ([], [])
    else (append_unique (binaries existing) (binaries incoming), []) in
  Ok (rule_of (name existing) merged bins, wb ++ w).

Definition rules_share_endpoint (existing incoming : NetworkPolicyRule) : bool :=
  existsb (λ i, existsb (λ e, endpoints_overlap e i) (endpoints existing)) (endpoints incoming).

Definition is_authorization_inheritance_conflict (error : PolicyMergeError) : bool :=
  match error with
  | NewBinaryWouldInheritAuthorization _ _ _ _ _
  | ExistingBinariesWouldInheritAuthorization _ _ _ _ _
  | UndeclaredPortWouldChange _ _ _ _ => true
  | _ => false
  end.

Definition sorted_keys (m : network_policies) : list bytes :=
  sort_by bytes_cmp (map fst (map_to_list m)).

(** The rule an overlap folds the operation into. *)
Definition overlapping_key (m : network_policies) (incoming : NetworkPolicyRule) : option bytes :=
  find (λ key, negb (is_provider_rule_name key)
               && match m !! key with
                  | Some existing => rules_share_endpoint existing incoming
                  | None => false
                  end) (sorted_keys m).

(** The rule as [add_rule] normalises it. *)
Definition incoming_of (rule_name : bytes) (incoming : NetworkPolicyRule) : NetworkPolicyRule :=
  let incoming := normalize_rule incoming in
  if is_empty (name incoming) then rule_of rule_name (endpoints incoming) (binaries incoming)
  else incoming.

Definition add_rule (m : network_policies) (operation_index : nat) (rule_name : bytes)
  (incoming_rule : NetworkPolicyRule)
  : result (network_policies * list PolicyMergeWarning) PolicyMergeError :=
  let incoming := incoming_of rule_name incoming_rule in
  match m !! rule_name with
  | Some existing =>
      let? '(r, w) := merge_rules existing incoming operation_index rule_name rule_name in
      Ok (<[rule_name := r]> m, w)
  | None =>
      let target_key :=
        if forallb (λ e, negb (Endpoint.advisor_proposed e)) (endpoints incoming)
        then overlapping_key m incoming else None in
      match target_key ≫= λ key, pair key <$> m !! key with
      | Some (key, candidate) =>
          match merge_rules candidate incoming operation_index rule_name key with
          | Ok (r, w) => Ok (<[key := r]> m, w)
          | Err error =>
              if is_authorization_inheritance_conflict error
              then Ok (<[rule_name := incoming]> m,
                       [KeptRequestedRuleNameToAvoidWidening rule_name key error])
              else Err error
          end
      | None => Ok (<[rule_name := incoming]> m, [])
      end
  end.

(** ** Removing an endpoint *)

Definition endpoint_matches_host_port (e : NetworkEndpoint) (host : bytes) (port : Z) : bool :=
  eq_ignore_ascii_case (Endpoint.host e) host && contains_byte port (canonical_ports e).

(** What [retain_mut] keeps of one endpoint. *)
Definition without_port (host : bytes) (port : Z) (e : NetworkEndpoint) : option NetworkEndpoint :=
  if negb (endpoint_matches_host_port e host port) then Some e
  else
    match sorted_ports (List.filter (λ p, negb (p =? port)) (canonical_ports e)) with
    | [] => None
    | (first :: _) as remaining => Some (Endpoint.with_ports e first remaining)
    end.

Definition rule_without_port (host : bytes) (port : Z) (r : NetworkPolicyRule)
  : NetworkPolicyRule :=
  rule_of (name r) (omap (without_port host port) (endpoints r)) (binaries r).

(** Every target rule is rewritten, then the empty ones are removed. *)
Definition remove_endpoint (m : network_policies) (rule_name : option bytes) (host : bytes)
  (port : Z) : network_policies :=
  let target_keys :=
    match rule_name with
    | Some key => if is_some (m !! key) then [key] else []
    | None => sorted_keys m
    end in
  let '(m, empty_rules) :=
    fold_left (λ acc key,
      let '(m, empty) := acc in
      match m !! key with
      | None => (m, empty)
      | Some r =>
          let r := rule_without_port host port r in
          (<[key := r]> m, if is_empty (endpoints r) then empty ++ [key] else empty)
      end) target_keys (m, []) in
  fold_left (λ m key, delete key m) empty_rules m.

(** ** L7 targets *)

(** [chars().any(char::is_control)]: the control characters are [0x00..0x1F],
    [0x7F] and [U+0080..U+009F]. *)
Fixpoint has_control (s : bytes) : bool :=
  match s with
  | [] => false
  | b :: s' =>
      (b <? 32) || (b =? 127)
      || (match s' with c :: _ => (b =? 194) && (128 <=? c) && (c <=? 159) | [] => false end)
      || has_control s'
  end.

Definition host_wildcard_shape_invalid (host : bytes) : bool :=
  if bool_decide (host = lit "*") || bool_decide (host = lit "**") then true
  else if negb (contains_byte 42 host) then false
  else
    let labels := split_on 46 host in
    let first_label := default [] (head labels) in
    if contains_sub (lit "**") first_label && negb (bool_decide (first_label = lit "**"))
    then true
    else existsb (λ label, contains_sub (lit "**") label
                           || contains_byte 42 label && negb (bool_decide (label = lit "*")))
           (tail labels).

Definition validate_target (t : L7RuleTarget) (operation_index : nat)
  : result unit PolicyMergeError :=
  let invalid reason := Err (InvalidL7Target operation_index reason) in
  if is_empty (trim (target_rule t)) || negb (bool_decide (trim (target_rule t) = target_rule t))
     || has_control (target_rule t) then invalid BadRuleName
  else if is_provider_rule_name (target_rule t) then invalid ProviderOwnedRule
  else if is_empty (target_host t)
          || has_whitespace (target_host t) || has_control (target_host t)
          || existsb (λ c, contains_byte c (target_host t)) [47; 63; 35; 64]
          || host_wildcard_shape_invalid (target_host t) then invalid BadHost
  else if is_empty (target_ports t)
          || existsb (λ p, negb ((1 <=? p) && (p <=? u16_max))) (target_ports t)
       then invalid BadPorts
  else match target_binaries t with
  | Restricted bins =>
      if is_empty bins || existsb (λ b, is_empty (trim b)) bins then invalid BadBinaryScope
      else Ok ()
  | AnyBinary => Ok ()
  end.

Definition validate_operation (operation_index : nat) (operation : PolicyMergeOp)
  : result unit PolicyMergeError :=
  match operation with
  | AddRule rule_name rule =>
      if is_empty (trim rule_name) then Err MissingRuleNameForAddRule
      else if is_empty (endpoints rule) then Err (EmptyAddRuleEndpoints operation_index rule_name)
      else Ok ()
  | AddAllowRules target _ | AddDenyRules target _ => validate_target target operation_index
  | _ => Ok ()
  end.

Definition l7_binary_paths (binaries : list bytes) : list bytes :=
  dedup (sort_by bytes_cmp binaries).

Definition target_selects (t : L7RuleTarget) (e : NetworkEndpoint) : bool :=
  eq_ignore_ascii_case (Endpoint.host e) (target_host t)
  && existsb (λ p, contains_byte p (target_ports t)) (canonical_ports e)
  && match target_path t with Some path => bool_decide (Endpoint.path e = path) | None => true end.

Definition declared_paths (scope : L7BinaryScope) : list bytes :=
  match scope with AnyBinary => [] | Restricted bins => l7_binary_paths bins end.
Definition is_any (scope : L7BinaryScope) : bool :=
  match scope with AnyBinary => true | Restricted _ => false end.

(** The positions, from [i], of the endpoints a target selects. *)
Fixpoint candidates (t : L7RuleTarget) (i : nat) (eps : list NetworkEndpoint)
  : list (nat * NetworkEndpoint) :=
  match eps with
  | [] => []
  | e :: eps => (if target_selects t e then [(i, e)] else []) ++ candidates t (S i) eps
  end.

(** The rule, the position of the endpoint and the endpoint. *)
Definition resolve_l7_target_mut (m : network_policies) (t : L7RuleTarget)
  : result (NetworkPolicyRule * nat * NetworkEndpoint) PolicyMergeError :=
  match m !! target_rule t with
  | None => Err (L7TargetNotFound t)
  | Some rule =>
      match candidates t 0 (endpoints rule) with
      | [] => Err (L7TargetNotFound t)
      | [(index, e)] =>
          let expected := l7_binary_paths (binaries rule) in
          let declared := declared_paths (target_binaries t) in
          if negb (Bool.eqb (is_empty (binaries rule)) (is_any (target_binaries t)))
             || negb (bool_decide (expected = declared)) then
            Err (L7BinaryScopeMismatch (target_rule t)
                   (if is_empty expected then None else Some expected)
                   (if is_any (target_binaries t) then None else Some declared))
          else
            let expected_ports := sorted_ports (canonical_ports e) in
            let declared_ports := sorted_ports (target_ports t) in
            if negb (bool_decide (expected_ports = declared_ports)) then
              Err (L7PortScopeMismatch (target_rule t) (target_host t) expected_ports declared_ports)
            else Ok (rule, index, e)
      | several =>
          Err (AmbiguousL7Target t (sort_by bytes_cmp (map (λ c, Endpoint.path c.2) several)))
      end
  end.

Definition ensure_method_path_endpoint (e : NetworkEndpoint) (host : bytes) (port : Z)
  : result unit PolicyMergeError :=
  if is_empty (Endpoint.protocol e) then Err (EndpointHasNoL7Inspection host port)
  else if bool_decide (Endpoint.protocol e = lit "rest")
          || bool_decide (Endpoint.protocol e = lit "websocket") then Ok ()
  else Err (UnsupportedEndpointProtocol host port (Endpoint.protocol e)).

(** ** Applying one operation *)

Definition update_endpoint (m : network_policies) (key : bytes) (rule : NetworkPolicyRule)
  (index : nat) (e : NetworkEndpoint) : network_policies :=
  <[key := rule_of (name rule) (<[index := e]> (endpoints rule)) (binaries rule)]> m.

Definition remove_binary (m : network_policies) (operation_index : nat)
  (rule_name binary_path : bytes) : result network_policies PolicyMergeError :=
  match m !! rule_name with
  | None => Ok m
  | Some rule =>
      if is_empty (binaries rule)
      then Err (CannotRemoveBinaryFromAnyBinaryScope operation_index rule_name binary_path)
      else
        let kept := List.filter (λ b, negb (bool_decide (b = binary_path))) (binaries rule) in
        if negb (Nat.eqb (length (binaries rule)) (length kept)) && is_empty kept
        then Ok (delete rule_name m)
        else Ok (<[rule_name := rule_of (name rule) (endpoints rule) kept]> m)
  end.

Definition add_deny_rules (m : network_policies) (t : L7RuleTarget) (deny : list L7DenyRule)
  : result network_policies PolicyMergeError :=
  let? '(rule, index, e) := resolve_l7_target_mut m t in
  let port := default 0 (head (target_ports t)) in
  let? _ := ensure_method_path_endpoint e (target_host t) port in
  if (Endpoint.access e =? 0) && is_empty (Endpoint.rules e)
  then Err (EndpointHasNoAllowBase (target_host t) port)
  else
    Ok (update_endpoint m (target_rule t) rule index
          (Endpoint.with_l7 e (Endpoint.access e) (Endpoint.rules e)
             (append_unique (Endpoint.deny_rules e) deny))).

Definition add_allow_rules (m : network_policies) (t : L7RuleTarget) (allow : list L7Rule)
  : result (network_policies * list PolicyMergeWarning) PolicyMergeError :=
  let? '(rule, index, e) := resolve_l7_target_mut m t in
  let port := default 0 (head (target_ports t)) in
  let? _ := ensure_method_path_endpoint e (target_host t) port in
  let? '(access, rules, w) :=
    expand_existing_access (Endpoint.protocol e) (Endpoint.access e) (Endpoint.rules e)
      (target_host t) port in
  Ok (update_endpoint m (target_rule t) rule index
        (Endpoint.with_l7 e access (append_unique rules allow) (Endpoint.deny_rules e)), w).

Definition apply_operation (m : network_policies) (operation_index : nat)
  (operation : PolicyMergeOp)
  : result (network_policies * list PolicyMergeWarning) PolicyMergeError :=
  match operation with
  | AddRule rule_name rule => add_rule m operation_index rule_name rule
  | RemoveEndpoint rule_name host port => Ok (remove_endpoint m rule_name host port, [])
  | RemoveRule rule_name => Ok (delete rule_name m, [])
  | AddDenyRules t deny => let? m := add_deny_rules m t deny in Ok (m, [])
  | AddAllowRules t allow => add_allow_rules m t allow
  | RemoveBinary rule_name binary_path =>
      let? m := remove_binary m operation_index rule_name binary_path in Ok (m, [])
  end.

(** ** Inspection contracts *)

Definition host_port_cmp (a b : bytes * Z) : comparison :=
  then_cmp (bytes_cmp a.1 b.1) (Z.compare a.2 b.2).

(** What one endpoint enters at one host and port: the key, the contract of
    its [EffectiveInspection] (whose protocol name is never read) and the
    rendered contract. *)
Record inspection := inspected_as {
  insp_key : bytes * Z;
  insp_mcp : option EffectiveMcpContract;
  insp_rendered : rendered_contract;
}.

Definition endpoint_inspections (e : NetworkEndpoint) : list inspection :=
  if is_empty (Endpoint.protocol e) then []
  else map (λ port, inspected_as (to_ascii_lowercase (Endpoint.host e), port)
                      (effective_mcp_contract e) (describe_mcp_contract e))
         (canonical_ports e).

Definition policy_endpoints (m : network_policies) : list NetworkEndpoint :=
  flat_map (λ kr, endpoints kr.2) (map_to_list m).
Definition policy_inspections (m : network_policies) : list inspection :=
  flat_map endpoint_inspections (policy_endpoints m).

Definition inspections_conflict (found : list inspection) : bool :=
  match omap insp_mcp found with
  | [] => false
  | first :: others =>
      existsb (λ i, negb (is_some (insp_mcp i))) found
      || existsb (λ c, negb (bool_decide (c = first))) others
  end.

Definition found_at (key : bytes * Z) (l : list inspection) : list inspection :=
  List.filter (λ i, bool_decide (insp_key i = key)) l.

(** A [BTreeMap] as the list of its entries in the order of its keys. The
    rendered contracts of a key are listed without their final sort, which
    only orders a message. *)
Definition conflicting_inspection_contracts (m : network_policies)
  : list ((bytes * Z) * list rendered_contract) :=
  let all := policy_inspections m in
  omap (λ key, let found := found_at key all in
               if inspections_conflict found
               then Some (key, dedup_first (map insp_rendered found)) else None)
    (dedup (sort_by host_port_cmp (map insp_key all))).

Definition only_preexisting (before : list ((bytes * Z) * list rendered_contract))
  (key : bytes * Z) (contracts : list rendered_contract) : bool :=
  match find (λ kv, bool_decide (kv.1 = key)) before with
  | Some kv => contains_all kv.2 contracts
  | None => false
  end.

Fixpoint first_new_conflict (before found : list ((bytes * Z) * list rendered_contract))
  : result unit PolicyMergeError :=
  match found with
  | [] => Ok ()
  | ((host, port), contracts) :: found =>
      if only_preexisting before (host, port) contracts then first_new_conflict before found
      else Err (ConflictingInspectionContracts host port contracts)
  end.
Definition ensure_no_new_inspection_conflicts (merged : network_policies)
  (before : list ((bytes * Z) * list rendered_contract)) : result unit PolicyMergeError :=
  first_new_conflict before (conflicting_inspection_contracts merged).

(** [merge_policy] between its two validations of the whole policy, on
    operations whose rules are already in canonical form. *)
Fixpoint apply_operations (m : network_policies) (operation_index : nat)
  (operations : list PolicyMergeOp)
  : result (network_policies * list PolicyMergeWarning) PolicyMergeError :=
  match operations with
  | [] => Ok (m, [])
  | operation :: operations =>
      let? _ := validate_operation operation_index operation in
      let? '(m, w) := apply_operation m operation_index operation in
      let? '(m, w') := apply_operations m (S operation_index) operations in
      Ok (m, w ++ w')
  end.
Definition merge_canonical (m : network_policies) (operations : list PolicyMergeOp)
  : result (network_policies * list PolicyMergeWarning) PolicyMergeError :=
  let? '(merged, w) := apply_operations m 0 operations in
  let? _ := ensure_no_new_inspection_conflicts merged (conflicting_inspection_contracts m) in
  Ok (merged, w).

(** ** Advisor proposals *)

(** A contract without its provenance, at the ports given. *)
Definition without_provenance (e : NetworkEndpoint) (port : Z) (ports : list Z) (advisor : bool)
  : NetworkEndpoint :=
  Endpoint.mk (Endpoint.host e) port (Endpoint.protocol e) (Endpoint.tls e)
    (Endpoint.enforcement e) (Endpoint.access e) (Endpoint.rules e) (Endpoint.allowed_ips e)
    ports (Endpoint.deny_rules e) (Endpoint.allow_encoded_slash e) (Endpoint.persisted_queries e)
    (Endpoint.graphql_persisted_queries e) (Endpoint.graphql_max_body_bytes e) (Endpoint.path e)
    (Endpoint.websocket_credential_rewrite e) (Endpoint.request_body_credential_rewrite e) advisor
    (Endpoint.credential_signing e) (Endpoint.signing_service e) (Endpoint.signing_region e)
    (Endpoint.json_rpc_max_body_bytes e) (Endpoint.mcp e) (Endpoint.credential_binding e)
    (Endpoint.allow_uninspected_credentials e) false [].

Definition contract_at (port : Z) (e : NetworkEndpoint) : NetworkEndpoint :=
  normalize_endpoint (without_provenance e port [port] false).
Definition own_contract (e : NetworkEndpoint) : NetworkEndpoint :=
  normalize_endpoint (without_provenance e (Endpoint.port e) (Endpoint.ports e) false).
Definition is_own_contract (contract e : NetworkEndpoint) : bool :=
  bool_decide (own_contract e = contract).

(** The sandbox rule that already grants the contract to the binaries. *)
Definition owns_contract (contract : NetworkEndpoint) (incoming : NetworkPolicyRule)
  (key : bytes) (rule : NetworkPolicyRule) : bool :=
  negb (is_provider_rule_name key)
  && existsb (is_own_contract contract) (endpoints rule)
  && forallb (binary_scope_covers rule) (binaries incoming).

Definition with_contract (incoming : NetworkPolicyRule) (key : bytes) (contract : NetworkEndpoint)
  (advisor : bool) : bytes * NetworkPolicyRule :=
  (key, rule_of key [Endpoint.mk (Endpoint.host contract) (Endpoint.port contract)
    (Endpoint.protocol contract) (Endpoint.tls contract) (Endpoint.enforcement contract)
    (Endpoint.access contract) (Endpoint.rules contract) (Endpoint.allowed_ips contract)
    (Endpoint.ports contract) (Endpoint.deny_rules contract) (Endpoint.allow_encoded_slash contract)
    (Endpoint.persisted_queries contract) (Endpoint.graphql_persisted_queries contract)
    (Endpoint.graphql_max_body_bytes contract) (Endpoint.path contract)
    (Endpoint.websocket_credential_rewrite contract)
    (Endpoint.request_body_credential_rewrite contract) advisor
    (Endpoint.credential_signing contract) (Endpoint.signing_service contract)
    (Endpoint.signing_region contract) (Endpoint.json_rpc_max_body_bytes contract)
    (Endpoint.mcp contract) (Endpoint.credential_binding contract)
    (Endpoint.allow_uninspected_credentials contract) (Endpoint.provider_credentialed contract)
    (Endpoint.token_grant_owner contract)] (binaries incoming)).

(** [Err] carries the host and port the message names; [None] inside the search
    for a free key cannot be reached ([first_unused_Some]). *)
Definition canonicalize_advisor_add_rule (base effective : network_policies)
  (requested_rule_name : bytes) (incoming : NetworkPolicyRule)
  : result (bytes * NetworkPolicyRule) (bytes * Z) :=
  let unchanged := Ok (requested_rule_name, incoming) in
  match endpoints incoming with
  | [e] =>
      if is_empty (binaries incoming) then unchanged
      else match canonical_ports e with
      | [port] =>
          if is_empty (trim (Endpoint.host e)) then unchanged
          else
            let matching :=
              List.filter (λ x, endpoint_matches_host_port x (Endpoint.host e) port)
                (policy_endpoints effective) in
            match dedup_first (map (contract_at port) matching) with
            | [] => unchanged
            | [contract] =>
                let owners :=
                  List.filter (λ key, match base !! key with
                                      | Some rule => owns_contract contract incoming key rule
                                      | None => false
                                      end) (sorted_keys base) in
                match owners with
                | owner :: _ =>
                    let advisor :=
                      match base !! owner ≫= λ rule,
                              find (is_own_contract contract) (endpoints rule) with
                      | Some x => Endpoint.advisor_proposed x
                      | None => Endpoint.advisor_proposed contract
                      end in
                    Ok (with_contract incoming owner contract advisor)
                | [] =>
                    let used key := has_key base key || has_key effective key in
                    let key :=
                      if used requested_rule_name
                      then default requested_rule_name
                             (first_unused used requested_rule_name 2
                                (S (size base + size effective)))
                      else requested_rule_name in
                    Ok (with_contract incoming key contract (Endpoint.advisor_proposed e))
                end
            | _ => Err (Endpoint.host e, port)
            end
      | _ => unchanged
      end
  | _ => unchanged
  end.
