(* ===== verification/PolicyMergeFacts.v ===== *)
(** * PolicyMergeFacts: what an incremental policy update can and cannot do

    The theorems on PolicyMerge: an added rule grants nothing its operation
    did not declare and revokes nothing, a removal removes exactly what it
    names, an L7 append changes the one endpoint whose whole scope it
    acknowledges, and a merge never puts two inspection contracts at one host
    and port. *)

From Stdlib Require Import ZifyBool.
From stdpp Require Import fin_maps.
From S2P Require Import Prelude IpParse Order PolicyTypes PolicyMerge.

(** ** Lists without repetition *)

Lemma push_unique_elem `{EqDecision A} (acc : list A) x y :
  y ∈ push_unique acc x ↔ y ∈ acc ∨ y = x.
Proof.
  unfold push_unique. destruct (decide (x ∈ acc)); rewrite ?elem_of_app, ?list_elem_of_singleton;
    naive_solver.
Qed.

Lemma append_unique_elem `{EqDecision A} (incoming existing : list A) y :
  y ∈ append_unique existing incoming ↔ y ∈ existing ∨ y ∈ incoming.
Proof.
  unfold append_unique. revert existing. induction incoming as [|x l IH]; intros existing; simpl.
  - rewrite elem_of_nil. tauto.
  - rewrite IH, push_unique_elem, elem_of_cons. tauto.
Qed.

Lemma dedup_first_elem `{EqDecision A} (l : list A) y : y ∈ dedup_first l ↔ y ∈ l.
Proof. unfold dedup_first. rewrite append_unique_elem, elem_of_nil. tauto. Qed.

Lemma sorted_ports_elem l p : p ∈ sorted_ports l ↔ p ∈ l.
Proof. unfold sorted_ports. by rewrite dedup_elem, sort_by_elem. Qed.

Lemma append_unique_nonempty `{EqDecision A} (existing incoming : list A) :
  existing ≠ [] → append_unique existing incoming ≠ [].
Proof.
  destruct existing as [|x l]; [done|]. intros _ He.
  assert (x ∈ append_unique (x :: l) incoming) as Hx by (apply append_unique_elem; left; constructor).
  rewrite He in Hx. by apply elem_of_nil in Hx.
Qed.

(** ** Ports of an endpoint *)

Lemma canonical_ports_with e p ps :
  p = default 0 (head ps) →
  (ps = [] → canonical_ports (Endpoint.with_ports e p ps) = [])
  ∧ (ps ≠ [] → canonical_ports (Endpoint.with_ports e p ps) = ps).
Proof.
  intros ->. unfold canonical_ports; cbn [Endpoint.with_ports Endpoint.ports Endpoint.port].
  split; intros; [subst; by cbn|]. by rewrite decide_True.
Qed.

Lemma normalize_ports e : canonical_ports (normalize_endpoint e) = sorted_ports (canonical_ports e).
Proof.
  unfold canonical_ports at 1, normalize_endpoint; cbn [Endpoint.ports Endpoint.port].
  destruct (sorted_ports _) eqn:E; [by cbn|]. by rewrite decide_True.
Qed.

Lemma normalize_ports_elem e p :
  p ∈ canonical_ports (normalize_endpoint e) ↔ p ∈ canonical_ports e.
Proof. by rewrite normalize_ports, sorted_ports_elem. Qed.

Lemma authorization_ports_elem e p :
  p ∈ authorization_ports e ↔
  match p with Some q => q ∈ canonical_ports e | None => canonical_ports e = [] end.
Proof.
  unfold authorization_ports. destruct (canonical_ports e) as [|q l].
  - rewrite list_elem_of_singleton. destruct p; rewrite ?elem_of_nil; naive_solver.
  - rewrite (list_elem_of_fmap Some). destruct p as [r|]; [|naive_solver]. naive_solver.
Qed.

(** ** What a rule grants

    The unit of authorization is one binary reaching one endpoint at one of
    its ports ([None]: an endpoint without ports). *)

Definition grants (r : NetworkPolicyRule) (b : bytes) (e : NetworkEndpoint) (p : option Z) : Prop :=
  binary_scope_covers r b = true ∧ e ∈ endpoints r ∧ p ∈ authorization_ports e.

Definition policy_grants (m : network_policies) (b : bytes) (e : NetworkEndpoint) (p : option Z)
  : Prop := ∃ key r, m !! key = Some r ∧ grants r b e p.

(** What the operation itself asks for: the binary, and the port at that host
    and path. *)
Definition declares (incoming : NetworkPolicyRule) (b : bytes) (e : NetworkEndpoint) (p : option Z)
  : Prop := binary_scope_covers incoming b = true ∧ operation_names_port incoming e p = true.

(** The whole unit as it ends up, fields the merge carries over apart. *)
Definition declares_fully (incoming : NetworkPolicyRule) (e : NetworkEndpoint) (p : option Z) : Prop :=
  operation_declares (map (λ d, adopt_unset_retained_fields d e) (endpoints incoming)) e p = true.

Lemma ensure_declared_elem existing incoming merged i n e :
  ensure_authorization_inheritance_is_declared existing incoming merged i n = Ok () →
  e ∈ merged → check_merged_endpoint existing incoming i n e = Ok ().
Proof.
  induction merged as [|x l IH]; simpl; intros H He; [by apply elem_of_nil in He|].
  apply let_Ok in H as ([] & Hx & Hl). apply elem_of_cons in He as [->|He]; [done|]. by apply IH.
Qed.

(** The three checks, as facts of every unit of a merged endpoint. *)
Lemma check_merged_spec existing incoming i n e p :
  check_merged_endpoint existing incoming i n e = Ok () →
  p ∈ authorization_ports e →
  (new_binary_scope existing incoming ≠ None → declares_fully incoming e p)
  ∧ ((∃ x, x ∈ endpoints existing ∧ authorization_unit_unchanged x e p = true)
     ∨ operation_names_port incoming e p = true
       ∧ undeclared_existing_binaries existing incoming = []).
Proof.
  unfold check_merged_endpoint.
  set (undeclared := match new_binary_scope existing incoming with Some _ => _ | None => _ end).
  set (changed := List.filter (λ q, negb (existsb _ _)) _).
  set (unnamed := List.filter _ changed).
  intros H Hp. destruct (negb (is_empty undeclared)) eqn:H1; [done|].
  destruct (negb (is_empty unnamed)) eqn:H2; [done|].
  destruct (negb (is_empty changed) && _) eqn:H3; [done|]. clear H.
  apply negb_false_iff, is_empty_true in H1, H2. split.
  - subst undeclared. destruct (new_binary_scope _ _); [|done]. intros _.
    by eapply filter_nil in H1; [apply negb_false_iff in H1|].
  - destruct (existsb (λ x, authorization_unit_unchanged x e p) (endpoints existing)) eqn:E.
    { left. by apply existsb_elem in E. }
    right. assert (p ∈ changed) as Hc.
    { subst changed. apply list_elem_of_In, filter_In. rewrite <- list_elem_of_In. by rewrite E. }
    split.
    + by eapply filter_nil in H2; [apply negb_false_iff in H2|].
    + destruct changed as [|? ?] eqn:Ech; [by apply elem_of_nil in Hc|].
      by apply negb_false_iff, is_empty_true in H3.
Qed.

(** A unit the operation declares as a whole is at a port it names. *)
Lemma declares_fully_names incoming e p :
  declares_fully incoming e p → operation_names_port incoming e p = true.
Proof.
  unfold declares_fully, operation_declares, operation_names_port.
  rewrite !existsb_elem. intros (d' & Hd & Hc). apply (list_elem_of_fmap _ _) in Hd as (d & -> & Hd).
  exists d. split; [done|]. unfold endpoint_authorization_covers_port in Hc.
  change (canonical_ports (adopt_unset_retained_fields d e)) with (canonical_ports d) in Hc.
  destruct (port_in p (canonical_ports d)); [|done]. cbn [negb] in Hc.
  unfold endpoint_attributes_cover in Hc.
  change (Endpoint.host (adopt_unset_retained_fields d e)) with (Endpoint.host d) in Hc.
  change (Endpoint.path (adopt_unset_retained_fields d e)) with (Endpoint.path d) in Hc.
  destruct (eq_ignore_ascii_case (Endpoint.host d) (Endpoint.host e)); [|done].
  by destruct (bool_decide (Endpoint.path d = Endpoint.path e)).
Qed.

(** Inversion of a successful merge. *)
Lemma merge_rules_inv existing incoming i n t r w :
  merge_rules existing incoming i n t = Ok (r, w) →
  ∃ w', merge_all i (endpoints existing) (endpoints incoming) = Ok (endpoints r, w')
  ∧ ensure_authorization_inheritance_is_declared existing incoming (endpoints r) i n = Ok ()
  ∧ name r = name existing
  ∧ binaries r = if is_empty (binaries existing) || is_empty (binaries incoming) then []
                 else append_unique (binaries existing) (binaries incoming).
Proof.
  unfold merge_rules. intros H. apply let_Ok in H as ([merged wm] & Hm & H).
  apply let_Ok in H as ([] & He & H).
  destruct (is_empty (binaries existing)) eqn:E1; [|destruct (is_empty (binaries incoming)) eqn:E2];
    injection H as <- <-; exists wm; repeat split; try done.
  by apply is_empty_true in E1.
Qed.

Lemma scope_covers_spec r b :
  binary_scope_covers r b = true ↔ binaries r = [] ∨ b ∈ binaries r.
Proof. unfold binary_scope_covers. by simpl_tests. Qed.

(** The scope of a merged rule is the union of the two scopes. *)
Lemma merged_scope existing incoming r b :
  binaries r = (if is_empty (binaries existing) || is_empty (binaries incoming) then []
                else append_unique (binaries existing) (binaries incoming)) →
  binary_scope_covers r b = true ↔
  binary_scope_covers existing b = true ∨ binary_scope_covers incoming b = true.
Proof.
  intros Hr. rewrite !scope_covers_spec, Hr.
  destruct (is_empty (binaries existing)) eqn:E1; simpl.
  { apply is_empty_true in E1. tauto. }
  destruct (is_empty (binaries incoming)) eqn:E2; simpl.
  { apply is_empty_true in E2. tauto. }
  apply is_empty_false in E1, E2. rewrite append_unique_elem.
  pose proof (append_unique_nonempty _ (binaries incoming) E1). tauto.
Qed.

(** A binary outside the existing scope makes the operation add to it. *)
Lemma new_scope_some existing incoming b :
  binary_scope_covers existing b = false → binary_scope_covers incoming b = true →
  new_binary_scope existing incoming ≠ None.
Proof.
  unfold new_binary_scope. intros He Hi.
  assert (binaries existing ≠ [] ∧ b ∉ binaries existing) as [Hne Hnb].
  { apply not_true_iff_false in He. rewrite scope_covers_spec in He. tauto. }
  apply is_empty_false in Hne as ->. destruct (is_empty (binaries incoming)) eqn:E; [done|].
  apply scope_covers_spec in Hi as [Hi|Hi]; [by apply is_empty_true in Hi; congruence|].
  destruct (find _ _) eqn:F; [done|]. eapply find_elem_none in F; [|done].
  apply negb_false_iff, bool_decide_eq_true in F. done.
Qed.

(** Nothing undeclared: the operation's scope includes the existing one. *)
Lemma undeclared_nil existing incoming b :
  undeclared_existing_binaries existing incoming = [] →
  binary_scope_covers existing b = true → binary_scope_covers incoming b = true.
Proof.
  unfold undeclared_existing_binaries. rewrite !scope_covers_spec.
  destruct (is_empty (binaries incoming)) eqn:E; [by apply is_empty_true in E; left|].
  destruct (is_empty (binaries existing)) eqn:E2; [done|]. apply is_empty_false in E2.
  intros H [?|Hb]; [done|right]. apply map_eq_nil in H. eapply filter_nil in H; [|done].
  by apply negb_false_iff, bool_decide_eq_true in H.
Qed.

(** Every unit of a merged rule was there, or was asked for. *)
Lemma merge_rules_no_undeclared existing incoming i n t r w b e p :
  merge_rules existing incoming i n t = Ok (r, w) → grants r b e p →
  (binary_scope_covers existing b = true
   ∧ ∃ x, x ∈ endpoints existing ∧ authorization_unit_unchanged x e p = true)
  ∨ declares incoming b e p ∧ (binary_scope_covers existing b = true ∨ declares_fully incoming e p).
Proof.
  intros (w' & Hm & Hens & _ & Hb)%merge_rules_inv (Hcov & He & Hp).
  apply (ensure_declared_elem _ _ _ _ _ _ Hens) in He.
  destruct (check_merged_spec _ _ _ _ _ _ He Hp) as [Hnew Hch].
  destruct (binary_scope_covers existing b) eqn:Ex.
  - destruct Hch as [?|[Hnm Hu]]; [by left|]. right. split; [|by left].
    split; [|done]. by eapply undeclared_nil.
  - apply (merged_scope _ _ _ _ Hb) in Hcov as [?|Hi]; [congruence|].
    pose proof (Hnew (new_scope_some _ _ _ Ex Hi)) as Hd. right. split; [|by right].
    split; [done|]. by apply declares_fully_names.
Qed.

(** *** An unchanged unit grants the same *)

(** The authorization content of an endpoint, ports apart. *)
Record same_authorization (x e : NetworkEndpoint) : Prop := {
  same_host : to_ascii_lowercase (Endpoint.host x) = to_ascii_lowercase (Endpoint.host e);
  same_path : Endpoint.path x = Endpoint.path e;
  same_protocol : Endpoint.protocol x = Endpoint.protocol e
                  ∨ is_mcp (Endpoint.protocol x) = true ∧ is_mcp (Endpoint.protocol e) = true;
  same_tls : Endpoint.tls x = Endpoint.tls e;
  same_enforcement :
    effective_enforcement (Endpoint.enforcement x) = effective_enforcement (Endpoint.enforcement e);
  same_access : Endpoint.access x = Endpoint.access e;
  same_contract : effective_mcp_contract x = effective_mcp_contract e;
  same_rules : ∀ r, r ∈ Endpoint.rules x ↔ r ∈ Endpoint.rules e;
  same_deny_rules : ∀ r, r ∈ Endpoint.deny_rules x ↔ r ∈ Endpoint.deny_rules e;
  same_allowed_ips : ∀ a, a ∈ Endpoint.allowed_ips x ↔ a ∈ Endpoint.allowed_ips e;
  same_flags :
    Endpoint.allow_encoded_slash x = Endpoint.allow_encoded_slash e
    ∧ Endpoint.websocket_credential_rewrite x = Endpoint.websocket_credential_rewrite e
    ∧ Endpoint.request_body_credential_rewrite x = Endpoint.request_body_credential_rewrite e
    ∧ Endpoint.allow_uninspected_credentials x = Endpoint.allow_uninspected_credentials e;
  same_provenance : Endpoint.advisor_proposed x = Endpoint.advisor_proposed e;
  same_graphql :
    Endpoint.persisted_queries x = Endpoint.persisted_queries e
    ∧ Endpoint.graphql_persisted_queries x = Endpoint.graphql_persisted_queries e
    ∧ Endpoint.graphql_max_body_bytes x = Endpoint.graphql_max_body_bytes e;
  same_signing :
    Endpoint.credential_signing x = Endpoint.credential_signing e
    ∧ Endpoint.signing_service x = Endpoint.signing_service e
    ∧ Endpoint.signing_region x = Endpoint.signing_region e;
}.

(** One direction: everything set in [proposed] is in [loaded]. *)
Record covers (loaded proposed : NetworkEndpoint) : Prop := {
  cov_host :
    to_ascii_lowercase (Endpoint.host loaded) = to_ascii_lowercase (Endpoint.host proposed);
  cov_path : Endpoint.path loaded = Endpoint.path proposed;
  cov_protocol : Endpoint.protocol proposed = []
    ∨ protocols_match (Endpoint.protocol loaded) (Endpoint.protocol proposed) = true;
  cov_tls : Endpoint.tls proposed = 0 ∨ Endpoint.tls loaded = Endpoint.tls proposed;
  cov_enforcement : Endpoint.enforcement proposed = 0
    ∨ effective_enforcement (Endpoint.enforcement loaded)
      = effective_enforcement (Endpoint.enforcement proposed);
  cov_access : Endpoint.access proposed = 0 ∨ Endpoint.access loaded = Endpoint.access proposed;
  cov_contract : mcp_contracts_match loaded proposed = true;
  cov_rules : Endpoint.rules proposed ⊆ Endpoint.rules loaded;
  cov_deny_rules : Endpoint.deny_rules proposed ⊆ Endpoint.deny_rules loaded;
  cov_allowed_ips : Endpoint.allowed_ips proposed ⊆ Endpoint.allowed_ips loaded;
  cov_flags :
    (Endpoint.allow_encoded_slash proposed = true → Endpoint.allow_encoded_slash loaded = true)
    ∧ (Endpoint.websocket_credential_rewrite proposed = true →
       Endpoint.websocket_credential_rewrite loaded = true)
    ∧ (Endpoint.request_body_credential_rewrite proposed = true →
       Endpoint.request_body_credential_rewrite loaded = true)
    ∧ (Endpoint.allow_uninspected_credentials proposed = true →
       Endpoint.allow_uninspected_credentials loaded = true);
  cov_graphql :
    (Endpoint.persisted_queries proposed = []
     ∨ Endpoint.persisted_queries proposed = Endpoint.persisted_queries loaded)
    ∧ (Endpoint.graphql_persisted_queries proposed = ∅
       ∨ Endpoint.graphql_persisted_queries proposed = Endpoint.graphql_persisted_queries loaded)
    ∧ (Endpoint.graphql_max_body_bytes proposed = 0
       ∨ Endpoint.graphql_max_body_bytes proposed = Endpoint.graphql_max_body_bytes loaded);
  cov_signing :
    (Endpoint.credential_signing proposed = []
     ∨ Endpoint.credential_signing proposed = Endpoint.credential_signing loaded)
    ∧ (Endpoint.signing_service proposed = []
       ∨ Endpoint.signing_service proposed = Endpoint.signing_service loaded)
    ∧ (Endpoint.signing_region proposed = []
       ∨ Endpoint.signing_region proposed = Endpoint.signing_region loaded);
  cov_body_limit : endpoint_uses_mcp loaded = true
    ∨ Endpoint.json_rpc_max_body_bytes proposed = 0
    ∨ Endpoint.json_rpc_max_body_bytes proposed = Endpoint.json_rpc_max_body_bytes loaded;
}.

Lemma contains_all_true `{EqDecision A} (loaded proposed : list A) :
  contains_all loaded proposed = true ↔ proposed ⊆ loaded.
Proof.
  unfold contains_all. rewrite forallb_elem. setoid_rewrite bool_decide_eq_true. done.
Qed.
Lemma flag_covers_true l p : flag_covers l p = true ↔ (p = true → l = true).
Proof. destruct l, p; naive_solver. Qed.
Lemma unset_or_equal_true `{EqDecision A} (p l : A) f :
  unset_or_equal p l f = true ↔ f p = true ∨ p = l.
Proof. unfold unset_or_equal. by simpl_tests. Qed.
Lemma set_guard_false (b c : bool) : negb b && negb c = false ↔ b = true ∨ c = true.
Proof. destruct b, c; naive_solver. Qed.
Lemma Z0_eqb_true z : (0 =? z) = true ↔ z = 0.
Proof. lia. Qed.

Lemma attributes_cover_iff l p : endpoint_attributes_cover l p = true ↔ covers l p.
Proof.
  unfold endpoint_attributes_cover.
  rewrite !if_false_true, !set_guard_false, orb_false_iff, !negb_false_iff, !andb_true_iff,
    !orb_true_iff, !contains_all_true, !flag_covers_true, !unset_or_equal_true, !is_empty_true,
    !Z0_eqb_true, !Z.eqb_eq, !bool_decide_eq_true, eq_ignore_case_true.
  split; [intros H; destruct_and! H; constructor; split_and?; assumption|].
  intros []; destruct_and?; split_and!; assumption.
Qed.

Lemma protocols_match_spec a b :
  protocols_match a b = true ↔ a = b ∧ is_mcp a = false ∨ is_mcp a = true ∧ is_mcp b = true.
Proof.
  unfold protocols_match. destruct (is_mcp a) eqn:Ea, (is_mcp b) eqn:Eb; simpl;
    rewrite ?bool_decide_eq_true; try naive_solver congruence.
Qed.
Lemma protocols_match_empty a : protocols_match [] a = true → a = [].
Proof. rewrite protocols_match_spec. intros [[<- _]|[? _]]; [done|by compute in H]. Qed.

Lemma contracts_match_eq l r :
  mcp_contracts_match l r = true → effective_mcp_contract l = effective_mcp_contract r.
Proof.
  unfold mcp_contracts_match. destruct (effective_mcp_contract l), (effective_mcp_contract r);
    try done. rewrite bool_decide_eq_true. by intros ->.
Qed.

(** Set on either side means equal, when each covers the other. *)
Lemma unset_both {A} (z a b : A) : (a = z ∨ a = b) → (b = z ∨ b = a) → a = b.
Proof. naive_solver. Qed.
Lemma unset_both' (x e : Z) : (e = 0 ∨ x = e) → (x = 0 ∨ e = x) → x = e.
Proof. lia. Qed.

Lemma enforcement_both x e :
  x = 0 ∨ effective_enforcement e = effective_enforcement x →
  e = 0 ∨ effective_enforcement x = effective_enforcement e →
  effective_enforcement x = effective_enforcement e.
Proof. intros [->|?] [->|?]; congruence. Qed.

Lemma flag_both (a b : bool) : (b = true → a = true) → (a = true → b = true) → a = b.
Proof. destruct a, b; auto. intros _ H. symmetry. by apply H. Qed.
Lemma protocol_both x e :
  e = [] ∨ protocols_match x e = true → x = [] ∨ protocols_match e x = true →
  x = e ∨ is_mcp x = true ∧ is_mcp e = true.
Proof.
  intros [->|Hm] Hx.
  - destruct Hx as [->|Hm]; [by left|]. left. by apply protocols_match_empty.
  - apply protocols_match_spec in Hm as [[-> _]|?]; auto.
Qed.

Lemma covers_both x e :
  covers x e → covers e x → Endpoint.advisor_proposed x = Endpoint.advisor_proposed e →
  same_authorization x e.
Proof.
  intros Hx He Ha.
  pose proof (cov_flags _ _ Hx) as (f1 & f2 & f3 & f4).
  pose proof (cov_flags _ _ He) as (g1 & g2 & g3 & g4).
  pose proof (cov_graphql _ _ Hx) as (q1 & q2 & q3).
  pose proof (cov_graphql _ _ He) as (h1 & h2 & h3).
  pose proof (cov_signing _ _ Hx) as (s1 & s2 & s3).
  pose proof (cov_signing _ _ He) as (t1 & t2 & t3).
  destruct Hx, He. constructor.
  - done.
  - done.
  - by apply protocol_both.
  - by apply unset_both'.
  - by apply enforcement_both.
  - by apply unset_both'.
  - by apply contracts_match_eq.
  - split; auto.
  - split; auto.
  - split; auto.
  - split_and!; by apply flag_both.
  - done.
  - split_and!; [by apply (unset_both [])|by apply (unset_both ∅)|by apply (unset_both 0)].
  - split_and!; by apply (unset_both []).
Qed.

(** A unit the check calls unchanged was granted as it is. *)
Lemma unit_unchanged_same x e p :
  authorization_unit_unchanged x e p = true →
  same_authorization x e ∧ port_in p (canonical_ports x) = true.
Proof.
  unfold authorization_unit_unchanged, endpoint_authorization_covers_port.
  rewrite !andb_true_iff, !if_false_true, !negb_false_iff, !attributes_cover_iff, eqb_true_iff.
  intros ((Ha & Hp & Hc) & _ & Hc'). split; [|done]. by apply covers_both.
Qed.

(** *** Adding a rule to a policy *)

(** What [add_rule] writes: the normalised rule at an unused name, or a merge
    into the rule of that name or into a sandbox rule that shares an endpoint. *)
Lemma add_rule_inv m i n r0 m' w :
  add_rule m i n r0 = Ok (m', w) →
  ∃ key r, m' = <[key := r]> m
  ∧ (key = n ∧ m !! n = None ∧ r = incoming_of n r0
     ∨ ∃ existing w', m !! key = Some existing
       ∧ merge_rules existing (incoming_of n r0) i n key = Ok (r, w')
       ∧ (key = n ∨ m !! n = None ∧ is_provider_rule_name key = false
          ∧ Forall (λ e, Endpoint.advisor_proposed e = false) (endpoints (incoming_of n r0)))).
Proof.
  unfold add_rule. destruct (m !! n) as [existing|] eqn:En.
  { intros H. apply let_Ok in H as ([r w'] & Hm & [= <- <-]). naive_solver. }
  set (inc := incoming_of n r0). destruct (forallb _ _) eqn:Ha.
  2: { simpl. intros [= <- <-]. naive_solver. }
  destruct (overlapping_key m inc) as [key|] eqn:Ek; simpl; [|intros [= <- <-]; naive_solver].
  destruct (m !! key) as [candidate|] eqn:Ec; simpl; [|intros [= <- <-]; naive_solver].
  destruct (merge_rules candidate inc i n key) as [[r w']|err] eqn:Em.
  - intros [= <- <-]. exists key, r. split; [done|]. right. exists candidate, w'. split_and!; [done..|].
    right. apply find_elem in Ek as [_ Hk]. apply andb_true_iff in Hk as [Hk _].
    apply negb_true_iff in Hk. split_and!; [done..|].
    apply Forall_forall. intros e He. rewrite forallb_forall in Ha. by apply negb_true_iff, Ha.
  - destruct (is_authorization_inheritance_conflict err); [|done]. intros [= <- <-]. naive_solver.
Qed.

Definition already_granted (m : network_policies) (b : bytes) (e : NetworkEndpoint) (p : option Z)
  : Prop :=
  ∃ key r x, m !! key = Some r ∧ binary_scope_covers r b = true ∧ x ∈ endpoints r
             ∧ port_in p (canonical_ports x) = true ∧ same_authorization x e.

Lemma same_authorization_refl e : same_authorization e e.
Proof. constructor; auto; done. Qed.

Lemma authorization_port_in e p : p ∈ authorization_ports e → port_in p (canonical_ports e) = true.
Proof.
  rewrite authorization_ports_elem. destruct p; simpl; [|done]. by rewrite contains_byte_spec.
Qed.

Lemma grants_already m key r b e p : m !! key = Some r → grants r b e p → already_granted m b e p.
Proof.
  intros Hk (Hb & He & Hp). exists key, r, e.
  split_and!; try done; [by apply authorization_port_in|apply same_authorization_refl].
Qed.

(** An unchanged rule of the operation declares all it grants. *)
Lemma grants_declares r b e p : grants r b e p → declares r b e p.
Proof.
  intros (Hb & He & Hp). split; [done|]. unfold operation_names_port. apply existsb_elem.
  exists e. split; [done|]. rewrite !andb_true_iff, eq_ignore_case_true, bool_decide_eq_true.
  split_and!; [done..|]. by apply authorization_port_in.
Qed.

(** C2: no undeclared grant. Whatever rule [add_rule] ends up writing, each
    unit (binary, endpoint, port) the new policy grants either was granted
    before with the same authorization at that port, or is declared by the
    operation: its binary scope includes the binary and it names the port at
    that host and path. *)
Theorem add_rule_no_undeclared_grant m i n r0 m' w b e p :
  add_rule m i n r0 = Ok (m', w) → policy_grants m' b e p →
  already_granted m b e p ∨ declares (incoming_of n r0) b e p.
Proof.
  intros (key & r & -> & Hr)%add_rule_inv (k & r' & Hk & Hg).
  apply lookup_insert_Some in Hk as [[<- ->]|[_ Hk]]; [|left; by eapply grants_already].
  destruct Hr as [(_ & _ & ->)|(existing & w' & Hex & Hm & _)].
  { right. by apply grants_declares. }
  destruct (merge_rules_no_undeclared _ _ _ _ _ _ _ _ _ _ Hm Hg) as [(Hb & x & Hx & Hu)|[? _]].
  - left. apply unit_unchanged_same in Hu as [Hs Hp]. by exists key, existing, x.
  - by right.
Qed.







(** ** A merge revokes nothing *)

Section sorting.
Context {A : Type} (cmp : A → A → comparison).
Context (cmp_antisym : ∀ x y, cmp y x = CompOpp (cmp x y)).

Inductive ascending : list A → Prop :=
| ascending_nil : ascending []
| ascending_one x : ascending [x]
| ascending_cons x y l : cmp_leb (cmp x y) = true → ascending (y :: l) → ascending (x :: y :: l).

Lemma insert_ascending x l : ascending l → ascending (insert_sorted cmp x l).
Proof.
  induction 1 as [|y|y z l Hyz Hl IH]; simpl; [constructor| |].
  - destruct (cmp_leb (cmp x y)) eqn:E; [by repeat constructor|].
    constructor; [|constructor]. rewrite cmp_antisym. by destruct (cmp x y).
  - destruct (cmp_leb (cmp x y)) eqn:E; [by repeat constructor|].
    assert (cmp_leb (cmp y x) = true) as Hyx by (rewrite cmp_antisym; by destruct (cmp x y)).
    simpl in IH. destruct (cmp_leb (cmp x z)); by constructor.
Qed.

Lemma sort_by_ascending l : ascending (sort_by cmp l).
Proof. induction l; simpl; [constructor|by apply insert_ascending]. Qed.

Lemma sort_by_id l : ascending l → sort_by cmp l = l.
Proof.
  induction 1 as [|x|x y l Hxy Hl IH]; [done..|].
  change (sort_by cmp (x :: y :: l)) with (insert_sorted cmp x (sort_by cmp (y :: l))).
  rewrite IH. simpl. by rewrite Hxy.
Qed.

Lemma sort_by_idem l : sort_by cmp (sort_by cmp l) = sort_by cmp l.
Proof. apply sort_by_id, sort_by_ascending. Qed.
End sorting.

Lemma bytes_cmp_antisym a b : bytes_cmp b a = CompOpp (bytes_cmp a b).
Proof.
  revert b. induction a as [|x a IH]; intros [|y b]; simpl; try done.
  rewrite (Z.compare_antisym x y). destruct (x ?= y); simpl; auto.
Qed.
Lemma mcp_version_cmp_antisym a b : mcp_version_cmp b a = CompOpp (mcp_version_cmp a b).
Proof.
  unfold mcp_version_cmp. destruct (parse_mcp_version a), (parse_mcp_version b); try done.
  - apply Nat.compare_antisym.
  - apply bytes_cmp_antisym.
Qed.
Lemma canonicalize_mcp_idem o :
  canonicalize_mcp_options (canonicalize_mcp_options o) = canonicalize_mcp_options o.
Proof.
  unfold canonicalize_mcp_options, canonicalize_mcp_versions. simpl.
  by rewrite (sort_by_idem _ mcp_version_cmp_antisym).
Qed.

(** [e] still grants all that [x] granted. A preset may have become the rules
    it stands for. *)
Record extends (x e : NetworkEndpoint) : Prop := {
  ext_host : Endpoint.host e = Endpoint.host x;
  ext_path : Endpoint.path e = Endpoint.path x;
  ext_ports : canonical_ports x ⊆ canonical_ports e;
  ext_protocol : Endpoint.protocol x = [] ∨ Endpoint.protocol e = Endpoint.protocol x;
  ext_tls : Endpoint.tls x = 0 ∨ Endpoint.tls e = Endpoint.tls x;
  ext_enforcement : Endpoint.enforcement x = 0 ∨ Endpoint.enforcement e = Endpoint.enforcement x;
  ext_access : Endpoint.access x = 0 ∨ Endpoint.access e = Endpoint.access x
    ∨ ∃ protocol expanded,
        expand_access_preset protocol (access_label (Endpoint.access x)) = Some expanded
        ∧ expanded ⊆ Endpoint.rules e;
  ext_rules : Endpoint.rules x ⊆ Endpoint.rules e;
  ext_deny_rules : Endpoint.deny_rules x ⊆ Endpoint.deny_rules e;
  ext_allowed_ips : Endpoint.allowed_ips x ⊆ Endpoint.allowed_ips e;
  ext_flags :
    (Endpoint.allow_encoded_slash x = true → Endpoint.allow_encoded_slash e = true)
    ∧ (Endpoint.allow_uninspected_credentials x = true →
       Endpoint.allow_uninspected_credentials e = true);
  ext_provenance : Endpoint.advisor_proposed e = true → Endpoint.advisor_proposed x = true;
  ext_contract : ∀ c, effective_mcp_contract x = Some c → effective_mcp_contract e = Some c;
  ext_owner : Endpoint.credential_binding e = Endpoint.credential_binding x
    ∧ Endpoint.provider_credentialed e = Endpoint.provider_credentialed x
    ∧ Endpoint.token_grant_owner e = Endpoint.token_grant_owner x;
}.

Lemma extends_refl e : extends e e.
Proof. constructor; auto; done. Qed.

Lemma extends_trans x y z : extends x y → extends y z → extends x z.
Proof.
  intros Hx Hz. pose proof (ext_flags _ _ Hx) as [f1 f2]. pose proof (ext_flags _ _ Hz) as [g1 g2].
  pose proof (ext_owner _ _ Hx) as (o1 & o2 & o3). pose proof (ext_owner _ _ Hz) as (q1 & q2 & q3).
  destruct Hx, Hz. constructor; try (congruence || (split_and!; congruence) || by auto).
  - by transitivity (canonical_ports y).
  - destruct ext_protocol0 as [|<-]; auto.
  - destruct ext_tls0 as [|<-]; auto.
  - destruct ext_enforcement0 as [|<-]; auto.
  - destruct ext_access0 as [?|[<-|(pr & l & Hl & Hi)]]; [by left|done|].
    right; right. exists pr, l. split; [done|]. by transitivity (Endpoint.rules y).
  - by transitivity (Endpoint.rules y).
  - by transitivity (Endpoint.deny_rules y).
  - by transitivity (Endpoint.allowed_ips y).
Qed.

(** [e] grants what [i] asks for: its ports, its rules and its addresses. *)
Record delivers (i e : NetworkEndpoint) : Prop := {
  del_host : eq_ignore_ascii_case (Endpoint.host e) (Endpoint.host i) = true;
  del_path : Endpoint.path e = Endpoint.path i;
  del_ports : canonical_ports i ⊆ canonical_ports e;
  del_rules : Endpoint.rules i ⊆ Endpoint.rules e;
  del_deny_rules : Endpoint.deny_rules i ⊆ Endpoint.deny_rules e;
  del_allowed_ips : Endpoint.allowed_ips i ⊆ Endpoint.allowed_ips e;
}.

Lemma delivers_extends i e e' : delivers i e → extends e e' → delivers i e'.
Proof.
  intros [] []. constructor.
  - by rewrite ext_host0.
  - by rewrite ext_path0.
  - by transitivity (canonical_ports e).
  - by transitivity (Endpoint.rules e).
  - by transitivity (Endpoint.deny_rules e).
  - by transitivity (Endpoint.allowed_ips e).
Qed.

Lemma delivers_normalized i : delivers i (normalize_endpoint i).
Proof.
  constructor; try done.
  - apply eq_ignore_case_refl.
  - intros p. by rewrite normalize_ports_elem.
  - intros r. unfold normalize_endpoint; cbn [Endpoint.rules]. by rewrite dedup_first_elem.
  - intros r. unfold normalize_endpoint; cbn [Endpoint.deny_rules]. by rewrite dedup_first_elem.
  - intros r. unfold normalize_endpoint; cbn [Endpoint.allowed_ips]. by rewrite dedup_first_elem.
Qed.

Lemma merge_string_field_keeps a b w : a = [] ∨ (merge_string_field a b w).1 = a.
Proof. unfold merge_string_field. destruct a; [by left|right]. by repeat case_match. Qed.
Lemma merge_enum_field_keeps a b w : a = 0 ∨ (merge_enum_field a b w).1 = a.
Proof.
  unfold merge_enum_field. destruct (Z.eqb_spec a 0) as [->|]; [by left|right]. by repeat case_match.
Qed.

Lemma expand_existing_access_spec protocol access rules host port access' rules' w :
  expand_existing_access protocol access rules host port = Ok (access', rules', w) →
  rules ⊆ rules' ∧ (access = 0 ∨ ∃ expanded,
    expand_access_preset protocol (access_label access) = Some expanded ∧ expanded ⊆ rules').
Proof.
  unfold expand_existing_access. destruct (Z.eqb_spec access 0) as [->|Ha].
  { intros [= <- <- <-]. split; [done|by left]. }
  destruct (expand_access_preset _ _) as [l|]; [|done]. intros [= <- <- <-].
  split; [intros r ?; apply append_unique_elem; by left|]. right. exists l. split; [done|].
  intros r ?. apply append_unique_elem. by right.
Qed.

Lemma merge_access_spec x i protocol host port access rules w :
  merge_access x i protocol host port = Ok (access, rules, w) →
  Endpoint.rules x ⊆ rules ∧ Endpoint.rules i ⊆ rules
  ∧ (Endpoint.access x = 0 ∨ access = Endpoint.access x ∨ ∃ expanded,
       expand_access_preset protocol (access_label (Endpoint.access x)) = Some expanded
       ∧ expanded ⊆ rules).
Proof.
  unfold merge_access. destruct (is_empty (Endpoint.rules i)) eqn:Ei; cbn [negb].
  - apply is_empty_true in Ei. rewrite Ei. intros H.
    assert (rules = Endpoint.rules x ∧ (Endpoint.access x = 0 ∨ access = Endpoint.access x))
      as [-> ?].
    { repeat case_match; simplify_eq; split; auto. left. by apply Z.eqb_eq. }
    split_and!; [done|apply list_subseteq_nil|tauto].
  - intros H. apply let_Ok in H as ([[a l] w'] & He & [= <- <- <-]).
    apply expand_existing_access_spec in He as [Hs Ha]. split_and!.
    + intros r Hr. apply append_unique_elem. left. by apply Hs.
    + intros r Hr. apply append_unique_elem. by right.
    + destruct Ha as [?|(exp & He & Hsub)]; [by left|]. right; right. exists exp. split; [done|].
      intros r Hr. apply append_unique_elem. left. by apply Hsub.
Qed.

Lemma merged_ports_elem x i p :
  p ∈ merged_ports x i ↔ p ∈ canonical_ports x ∨ p ∈ canonical_ports i.
Proof. unfold merged_ports. by rewrite sorted_ports_elem, append_unique_elem. Qed.

Lemma endpoints_overlap_spec x i :
  endpoints_overlap x i = true ↔
  eq_ignore_ascii_case (Endpoint.host x) (Endpoint.host i) = true
  ∧ Endpoint.path x = Endpoint.path i
  ∧ ∃ p, p ∈ canonical_ports x ∧ p ∈ canonical_ports i.
Proof.
  unfold endpoints_overlap. simpl_tests. setoid_rewrite contains_byte_spec. tauto.
Qed.

(** The fields of a merged endpoint. *)
Lemma merge_endpoint_inv x i idx e w :
  merge_endpoint x i idx = Ok (e, w) → endpoints_overlap x i = true →
  ∃ protocol access rules w' merged,
    e = normalize_endpoint merged
    ∧ merge_access x i protocol (Endpoint.host x) (shared_port x i) = Ok (access, rules, w')
    ∧ (Endpoint.protocol x = [] ∨ protocol = Endpoint.protocol x)
    ∧ (Endpoint.tls x = 0 ∨ Endpoint.tls merged = Endpoint.tls x)
    ∧ (Endpoint.enforcement x = 0 ∨ Endpoint.enforcement merged = Endpoint.enforcement x)
    ∧ merged = Endpoint.mk (Endpoint.host x) (default 0 (head (merged_ports x i))) protocol
        (Endpoint.tls merged) (Endpoint.enforcement merged) access rules
        (append_unique (Endpoint.allowed_ips x) (Endpoint.allowed_ips i)) (merged_ports x i)
        (append_unique (Endpoint.deny_rules x) (Endpoint.deny_rules i))
        (Endpoint.allow_encoded_slash x || Endpoint.allow_encoded_slash i)
        (Endpoint.persisted_queries x) (Endpoint.graphql_persisted_queries x)
        (Endpoint.graphql_max_body_bytes x) (Endpoint.path x)
        (Endpoint.websocket_credential_rewrite x || Endpoint.websocket_credential_rewrite i)
        (Endpoint.request_body_credential_rewrite x || Endpoint.request_body_credential_rewrite i)
        (Endpoint.advisor_proposed x && Endpoint.advisor_proposed i)
        (Endpoint.credential_signing x) (Endpoint.signing_service x) (Endpoint.signing_region x)
        (if promotes_l4_endpoint_to_mcp x i then Endpoint.json_rpc_max_body_bytes i
         else Endpoint.json_rpc_max_body_bytes x)
        (if promotes_l4_endpoint_to_mcp x i then Endpoint.mcp i else Endpoint.mcp x)
        (Endpoint.credential_binding x)
        (Endpoint.allow_uninspected_credentials x || Endpoint.allow_uninspected_credentials i)
        (Endpoint.provider_credentialed x) (Endpoint.token_grant_owner x).
Proof.
  intros H (Hh & Hp & _)%endpoints_overlap_spec. unfold merge_endpoint in H.
  assert ((if is_empty (Endpoint.host x) then Endpoint.host i else Endpoint.host x)
          = Endpoint.host x) as Hhost.
  { destruct (Endpoint.host x); [|done]. apply eq_ignore_case_true in Hh.
    by destruct (Endpoint.host i). }
  rewrite Hhost, <- Hp in H.
  assert ((if is_empty (Endpoint.path x) then Endpoint.path x else Endpoint.path x)
          = Endpoint.path x) as Hpath by (by destruct (Endpoint.path x)).
  rewrite Hpath in H. apply let_Ok in H as ([] & _ & H).
  destruct (merge_string_field _ _ _) as [protocol w1] eqn:E1.
  destruct (merge_enum_field (Endpoint.enforcement x) _ _) as [enf w2] eqn:E2.
  destruct (merge_enum_field (Endpoint.tls x) _ _) as [tls w3] eqn:E3.
  apply let_Ok in H as ([[access rules] w4] & Ha & H). injection H as <- _.
  eexists protocol, access, rules, w4, _. split; [reflexivity|]. cbn [Endpoint.tls Endpoint.enforcement].
  pose proof (f_equal fst E1) as F1; pose proof (f_equal fst E2) as F2;
    pose proof (f_equal fst E3) as F3; cbn [fst] in F1, F2, F3; subst protocol enf tls.
  split_and!; auto using merge_string_field_keeps, merge_enum_field_keeps.
Qed.

Lemma effective_contract_Some e c :
  effective_mcp_contract e = Some c →
  is_mcp (Endpoint.protocol e) = true ∧ Endpoint.protocol e ≠ [].
Proof.
  unfold effective_mcp_contract. destruct (is_mcp (Endpoint.protocol e)) eqn:E; [|done].
  intros _. split; [done|]. intros Hp. by rewrite Hp in E.
Qed.

(** The contract of a normalised endpoint depends on three fields. *)
Lemma effective_contract_normalized x m :
  Endpoint.protocol m = Endpoint.protocol x → Endpoint.mcp m = Endpoint.mcp x →
  Endpoint.json_rpc_max_body_bytes m = Endpoint.json_rpc_max_body_bytes x →
  effective_mcp_contract (normalize_endpoint m) = effective_mcp_contract x.
Proof.
  intros Hp Hm Hj. unfold effective_mcp_contract, normalize_endpoint.
  cbn [Endpoint.protocol Endpoint.mcp Endpoint.json_rpc_max_body_bytes]. rewrite Hp, Hm, Hj.
  destruct (Endpoint.mcp x) as [o|]; [|done]. cbn [fmap option_fmap option_map].
  by rewrite canonicalize_mcp_idem.
Qed.

Lemma normalize_fields_elem m :
  (∀ r, r ∈ Endpoint.rules (normalize_endpoint m) ↔ r ∈ Endpoint.rules m)
  ∧ (∀ r, r ∈ Endpoint.deny_rules (normalize_endpoint m) ↔ r ∈ Endpoint.deny_rules m)
  ∧ (∀ a, a ∈ Endpoint.allowed_ips (normalize_endpoint m) ↔ a ∈ Endpoint.allowed_ips m).
Proof.
  unfold normalize_endpoint; cbn [Endpoint.rules Endpoint.deny_rules Endpoint.allowed_ips].
  split_and!; intros ?; apply dedup_first_elem.
Qed.

Lemma canonical_ports_merged x i m p :
  Endpoint.ports m = merged_ports x i → Endpoint.port m = default 0 (head (merged_ports x i)) →
  p ∈ canonical_ports (normalize_endpoint m) ↔ p ∈ canonical_ports x ∨ p ∈ canonical_ports i.
Proof.
  intros Hps Hp. rewrite normalize_ports_elem, <- merged_ports_elem. unfold canonical_ports at 1.
  rewrite Hps, Hp. destruct (merged_ports x i); [done|]. by rewrite decide_True.
Qed.

Lemma merge_endpoint_extends x i idx e w :
  merge_endpoint x i idx = Ok (e, w) → endpoints_overlap x i = true →
  extends x e ∧ delivers i e.
Proof.
  intros Hm Ho. destruct (merge_endpoint_inv _ _ _ _ _ Hm Ho)
    as (pr & acc & rs & w' & m & -> & Ha & Hpr & Htls & Henf & Hmk).
  apply merge_access_spec in Ha as (Hr1 & Hr2 & Hacc).
  apply endpoints_overlap_spec in Ho as (Hh & Hp & _).
  assert (∀ p, p ∈ canonical_ports (normalize_endpoint m) ↔
               p ∈ canonical_ports x ∨ p ∈ canonical_ports i) as Hports.
  { intros p. apply canonical_ports_merged; by rewrite Hmk. }
  destruct (normalize_fields_elem m) as (Nr & Nd & Na).
  assert (Endpoint.rules m = rs) as Er by (by rewrite Hmk).
  assert (Endpoint.deny_rules m = append_unique (Endpoint.deny_rules x) (Endpoint.deny_rules i))
    as Ed by (by rewrite Hmk).
  assert (Endpoint.allowed_ips m = append_unique (Endpoint.allowed_ips x) (Endpoint.allowed_ips i))
    as Ei by (by rewrite Hmk).
  split; constructor; try (intros ? ?; apply Hports; by auto);
    try (intros ? ?; first [apply Nr; rewrite Er | apply Nd; rewrite Ed | apply Na; rewrite Ei];
         rewrite ?append_unique_elem; by auto).
  - by rewrite Hmk.
  - by rewrite Hmk.
  - by rewrite Hmk.
  - done.
  - done.
  - replace (Endpoint.access (normalize_endpoint m)) with acc by (by rewrite Hmk).
    destruct Hacc as [?|[?|(exp & Hexp & Hs)]]; [by left|by right; left|].
    right; right. exists pr, exp. split; [done|]. intros r Hr. apply Nr. rewrite Er. by apply Hs.
  - rewrite Hmk. cbn. by split; intros ->.
  - rewrite Hmk. cbn. by intros [? _]%andb_true_iff.
  - intros c Hc. rewrite <- Hc. destruct (effective_contract_Some _ _ Hc) as [_ Hne].
    assert (promotes_l4_endpoint_to_mcp x i = false) as Hpro.
    { unfold promotes_l4_endpoint_to_mcp. by apply is_empty_false in Hne as ->. }
    apply effective_contract_normalized; rewrite Hmk, ?Hpro; [|done..].
    by destruct Hpr as [? | ->].
  - by rewrite Hmk.
  - rewrite Hmk. done.
  - rewrite Hmk. done.
Qed.

Lemma merge_into_extends idx eps i eps' w :
  merge_into idx eps i = Ok (eps', w) →
  (∀ x, x ∈ eps → ∃ e, e ∈ eps' ∧ extends x e) ∧ ∃ e, e ∈ eps' ∧ delivers i e.
Proof.
  assert (delivers i i) as Hii by (constructor; try done; apply eq_ignore_case_refl).
  revert eps' w. induction eps as [|x0 eps IH]; intros eps' w; simpl.
  { intros [= <- <-]. split; [intros x Hx; by apply elem_of_nil in Hx|]. exists i.
    split; [constructor|done]. }
  destruct (endpoints_overlap x0 i) eqn:Eo; intros H; apply let_Ok in H as ([y w'] & H & [= <- <-]).
  - destruct (merge_endpoint_extends _ _ _ _ _ H Eo). split; [|exists y; split; [constructor|done]].
    intros x [->|Hx]%elem_of_cons; [by exists y; split; [constructor|]|].
    exists x. split; [by right|apply extends_refl].
  - destruct (IH _ _ H) as [He (e & Hin & Hd)]. split; [|exists e; split; [by right|done]].
    intros x [->|Hx]%elem_of_cons; [exists x0; split; [left|apply extends_refl]|].
    destruct (He x Hx) as (z & ? & ?). exists z. split; [by right|done].
Qed.

Lemma merge_all_extends idx incoming eps eps' w :
  merge_all idx eps incoming = Ok (eps', w) →
  (∀ x, x ∈ eps → ∃ e, e ∈ eps' ∧ extends x e)
  ∧ (∀ i, i ∈ incoming → ∃ e, e ∈ eps' ∧ delivers i e).
Proof.
  revert eps eps' w. induction incoming as [|i0 l IH]; intros eps eps' w; simpl.
  { intros [= <- <-]. split; [intros x ?; exists x; split; [done|apply extends_refl]|].
    intros i Hi. by apply elem_of_nil in Hi. }
  intros H. apply let_Ok in H as ([mid w1] & Hi & H). apply let_Ok in H as ([fin w2] & Hl & [= <- <-]).
  destruct (merge_into_extends _ _ _ _ _ Hi) as [He (d & Hd & Hdel)].
  destruct (IH _ _ _ Hl) as [He' Hi']. split.
  - intros x Hx. destruct (He x Hx) as (y & Hy & Hxy). destruct (He' y Hy) as (z & Hz & Hyz).
    exists z. split; [done|]. by eapply extends_trans.
  - intros i [->|Hin]%elem_of_cons; [|by apply Hi']. destruct (He' d Hd) as (z & Hz & Hdz).
    exists z. split; [done|]. eapply delivers_extends; [|done].
    destruct (delivers_normalized i0) as [h p ps r dr ai], Hdel as [h' p' ps' r' dr' ai'].
    apply eq_ignore_case_true in h, h'. constructor; [apply eq_ignore_case_true|..]; try congruence.
    + by transitivity (canonical_ports (normalize_endpoint i0)).
    + by transitivity (Endpoint.rules (normalize_endpoint i0)).
    + by transitivity (Endpoint.deny_rules (normalize_endpoint i0)).
    + by transitivity (Endpoint.allowed_ips (normalize_endpoint i0)).
Qed.

Lemma merge_rules_keeps existing incoming i n t r w :
  merge_rules existing incoming i n t = Ok (r, w) →
  (∀ b, binary_scope_covers existing b = true ∨ binary_scope_covers incoming b = true →
        binary_scope_covers r b = true)
  ∧ (∀ x, x ∈ endpoints existing → ∃ e, e ∈ endpoints r ∧ extends x e)
  ∧ (∀ d, d ∈ endpoints incoming → ∃ e, e ∈ endpoints r ∧ delivers d e).
Proof.
  intros (w' & Hm & _ & _ & Hb)%merge_rules_inv. destruct (merge_all_extends _ _ _ _ _ Hm).
  split_and!; [|done..]. intros b. by apply (merged_scope _ _ _ _ Hb).
Qed.

(** Adding a rule revokes nothing and delivers what it names. Under the
    same rule name every binary keeps every endpoint: the host, path, ports,
    rules, denials, addresses and inspection contract are still there, a
    preset at least as the rules it stands for. Some rule then grants each
    binary of the operation each endpoint it names, with its ports and
    rules. *)
Theorem add_rule_keeps_and_delivers m i n r0 m' w :
  add_rule m i n r0 = Ok (m', w) →
  (∀ key r b x, m !! key = Some r → binary_scope_covers r b = true → x ∈ endpoints r →
     ∃ r' e, m' !! key = Some r' ∧ binary_scope_covers r' b = true ∧ e ∈ endpoints r'
             ∧ extends x e)
  ∧ (∃ key r', m' !! key = Some r'
     ∧ (∀ b, binary_scope_covers (incoming_of n r0) b = true → binary_scope_covers r' b = true)
     ∧ ∀ d, d ∈ endpoints (incoming_of n r0) → ∃ e, e ∈ endpoints r' ∧ delivers d e).
Proof.
  intros (key & r' & -> & Hr)%add_rule_inv. split.
  - intros k r b x Hk Hb Hx. destruct (decide (k = key)) as [->|Hne].
    + rewrite lookup_insert_eq. destruct Hr as [(-> & ? & _)|(ex & w' & Hex & Hm & _)]; [congruence|].
      simplify_eq. apply merge_rules_keeps in Hm as (Hs & He & _).
      destruct (He x Hx) as (e & ? & ?). exists r', e. auto.
    + rewrite lookup_insert_ne by done. exists r, x. auto using extends_refl.
  - exists key, r'. rewrite lookup_insert_eq. split; [done|].
    destruct Hr as [(-> & ? & ->)|(ex & w' & Hex & Hm & _)].
    + split; [done|]. intros d Hd. exists d. split; [done|].
      constructor; try done. apply eq_ignore_case_refl.
    + apply merge_rules_keeps in Hm as (Hs & _ & Hi). auto.
Qed.

(** The blast radius of adding a rule. At most one rule changes: the one
    of the requested name, or a sandbox rule when the name is new and no
    endpoint of the operation is an advisor's; so a provider's rule changes
    only when it is itself the name requested, and an advisor's proposal is
    never folded into another rule. *)
Theorem add_rule_touches_one m i n r0 m' w :
  add_rule m i n r0 = Ok (m', w) →
  ∃ key, (∀ k, k ≠ key → m' !! k = m !! k)
  ∧ (key = n ∨ m !! n = None ∧ is_provider_rule_name key = false
     ∧ Forall (λ e, Endpoint.advisor_proposed e = false) (endpoints (incoming_of n r0))).
Proof.
  intros (key & r' & -> & Hr)%add_rule_inv. exists key.
  split; [intros k ?; by rewrite lookup_insert_ne|]. naive_solver.
Qed.

(** ** Removals remove exactly what they name *)

(** An endpoint of the rule, ports aside, at one of its ports. *)
Definition has_unit (r : NetworkPolicyRule) (u : NetworkEndpoint) (p : Z) : Prop :=
  ∃ e, e ∈ endpoints r ∧ p ∈ canonical_ports e ∧ u = Endpoint.with_ports e 0 [].

Lemma endpoint_matches_spec e host port :
  endpoint_matches_host_port e host port = true ↔
  eq_ignore_ascii_case (Endpoint.host e) host = true ∧ port ∈ canonical_ports e.
Proof. unfold endpoint_matches_host_port. by simpl_tests. Qed.

Lemma remaining_ports_elem e port p :
  p ∈ sorted_ports (List.filter (λ q, negb (q =? port)) (canonical_ports e)) ↔
  p ∈ canonical_ports e ∧ p ≠ port.
Proof.
  rewrite sorted_ports_elem, list_elem_of_In, filter_In, <- list_elem_of_In, negb_true_iff, Z.eqb_neq.
  done.
Qed.

Lemma without_port_spec host port e p :
  (∃ e', without_port host port e = Some e' ∧ p ∈ canonical_ports e'
         ∧ Endpoint.with_ports e' 0 [] = Endpoint.with_ports e 0 []) ↔
  p ∈ canonical_ports e
  ∧ ¬ (eq_ignore_ascii_case (Endpoint.host e) host = true ∧ p = port).
Proof.
  unfold without_port. destruct (endpoint_matches_host_port e host port) eqn:Em; cbn [negb].
  - apply endpoint_matches_spec in Em as [Hh Hp]. pose proof (remaining_ports_elem e port p) as Hr.
    destruct (sorted_ports _) as [|q l] eqn:El.
    + rewrite elem_of_nil in Hr. split; [naive_solver|]. intros [? Hn]. exfalso. apply Hr.
      split; [done|]. intros ->. by apply Hn.
    + destruct (canonical_ports_with e q (q :: l)) as [_ Hc]; [done|]. split.
      * intros (e' & <-%(inj Some) & Hin & _). rewrite Hc in Hin by done. apply Hr in Hin. naive_solver.
      * intros [Hin Hn]. eexists. split; [done|]. rewrite Hc by done. split; [|done].
        apply Hr. split; [done|]. intros ->. by apply Hn.
  - split; [|intros [Hin _]; by exists e]. intros (e' & [= <-] & Hin & _). split; [done|].
    intros [Hh ->]. apply not_true_iff_false in Em. apply Em, endpoint_matches_spec. done.
Qed.

Lemma rule_without_port_units host port r u p :
  has_unit (rule_without_port host port r) u p ↔
  has_unit r u p ∧ ¬ (eq_ignore_ascii_case (Endpoint.host u) host = true ∧ p = port).
Proof.
  unfold has_unit, rule_without_port; cbn [endpoints]. setoid_rewrite list_elem_of_omap. split.
  - intros (e' & (e & He & Hw) & Hp & ->).
    assert (Endpoint.with_ports e' 0 [] = Endpoint.with_ports e 0 []) as Hu.
    { unfold without_port in Hw. repeat case_match; by simplify_eq. }
    rewrite Hu. destruct (proj1 (without_port_spec host port e p)) as [Hin Hn]; [by exists e'|].
    split; [by exists e|done].
  - intros [(e & He & Hp & ->) Hn].
    destruct (proj2 (without_port_spec host port e p)) as (e' & Hw & Hp' & Hu); [done|].
    exists e'. split; [by exists e|]. by rewrite Hu.
Qed.

Section remove.
Context (host : bytes) (port : Z).

Let rewrite_key (acc : network_policies * list bytes) (key : bytes) :=
  let '(m, empty) := acc in
  match m !! key with
  | None => (m, empty)
  | Some r =>
      let r := rule_without_port host port r in
      (<[key := r]> m, if is_empty (endpoints r) then empty ++ [key] else empty)
  end.

Lemma rewrite_keys_spec keys m empty m' empty' :
  NoDup keys → fold_left rewrite_key keys (m, empty) = (m', empty') →
  (∀ k, m' !! k = if decide (k ∈ keys) then rule_without_port host port <$> m !! k else m !! k)
  ∧ (∀ k, k ∈ empty' ↔ k ∈ empty
          ∨ k ∈ keys ∧ ∃ r, m !! k = Some r ∧ endpoints (rule_without_port host port r) = []).
Proof.
  intros Hnd. revert m empty. induction Hnd as [|key keys Hk Hnd IH]; intros m empty; simpl.
  { intros [= <- <-]. split; intros k; [done|]. rewrite elem_of_nil. tauto. }
  destruct (m !! key) as [r|] eqn:Er; intros H; apply IH in H as [H1 H2]; clear IH; split; intros k.
  - rewrite H1. destruct (decide (k = key)) as [->|Hne].
    + rewrite decide_False, decide_True by (done || constructor).
      by rewrite lookup_insert_eq, Er.
    + rewrite !lookup_insert_ne by done. destruct (decide (k ∈ keys)) as [Hin|Hin].
      * rewrite decide_True by by constructor. done.
      * rewrite decide_False; [done|]. by intros [?|?]%elem_of_cons.
  - rewrite H2, elem_of_cons. destruct (decide (k = key)) as [->|Hne].
    + destruct (is_empty _) eqn:Ee; [apply is_empty_true in Ee|apply is_empty_false in Ee];
        rewrite ?elem_of_app, ?list_elem_of_singleton; naive_solver.
    + rewrite lookup_insert_ne by done.
      destruct (is_empty _); rewrite ?elem_of_app, ?list_elem_of_singleton; naive_solver.
  - rewrite H1. destruct (decide (k = key)) as [->|Hne].
    + rewrite decide_False, decide_True by (done || constructor). by rewrite Er.
    + destruct (decide (k ∈ keys)) as [Hin|Hin].
      * rewrite decide_True by by constructor. done.
      * rewrite decide_False; [done|]. by intros [?|?]%elem_of_cons.
  - rewrite H2, elem_of_cons. naive_solver.
Qed.
End remove.

Lemma delete_keys_spec (keys : list bytes) (m : network_policies) (k : bytes) :
  fold_left (λ m key, delete key m) keys m !! k = if decide (k ∈ keys) then None else m !! k.
Proof.
  revert m. induction keys as [|key keys IH]; intros m; simpl; [done|]. rewrite IH.
  destruct (decide (k ∈ keys)); [by rewrite decide_True by by constructor|].
  destruct (decide (k = key)) as [->|Hne].
  - rewrite lookup_delete_eq, decide_True by constructor. done.
  - rewrite lookup_delete_ne, decide_False by (done || by intros [?|?]%elem_of_cons). done.
Qed.

Lemma sorted_keys_elem m k : k ∈ sorted_keys m ↔ is_Some (m !! k).
Proof.
  unfold sorted_keys. rewrite sort_by_elem, (list_elem_of_fmap fst). split.
  - intros ([k' r] & -> & H). apply elem_of_map_to_list in H. by exists r.
  - intros [r H]. exists (k, r). split; [done|]. by apply elem_of_map_to_list.
Qed.
Lemma sorted_keys_NoDup m : NoDup (sorted_keys m).
Proof.
  unfold sorted_keys. rewrite sort_by_perm. apply (NoDup_fst_map_to_list m).
Qed.

(** The rules a removal looks at. *)
Definition selected (rule_name : option bytes) (key : bytes) : Prop :=
  match rule_name with Some n => key = n | None => True end.

Lemma remove_endpoint_lookup m rule_name host port k :
  (selected rule_name k →
   remove_endpoint m rule_name host port !! k =
     m !! k ≫= λ r, let r := rule_without_port host port r in
                    if is_empty (endpoints r) then None else Some r)
  ∧ (¬ selected rule_name k → remove_endpoint m rule_name host port !! k = m !! k).
Proof.
  unfold remove_endpoint.
  set (keys := match rule_name with Some key => _ | None => _ end).
  assert (NoDup keys ∧ ∀ k, k ∈ keys ↔ selected rule_name k ∧ is_Some (m !! k)) as [Hnd Hkeys].
  { subst keys. destruct rule_name as [n|]; simpl.
    - destruct (m !! n) as [r|] eqn:En; simpl.
      + split; [apply NoDup_singleton|]. intros k'. rewrite list_elem_of_singleton.
        split; [intros ->; eauto|tauto].
      + split; [constructor|]. intros k'. rewrite elem_of_nil. split; [done|].
        intros [-> [? ?]]. congruence.
    - split; [apply sorted_keys_NoDup|]. intros k'. rewrite sorted_keys_elem. tauto. }
  clearbody keys. destruct (fold_left _ keys (m, [])) as [m1 empty] eqn:E.
  apply (rewrite_keys_spec host port keys m [] m1 empty Hnd) in E as [H1 H2].
  rewrite delete_keys_spec, H1. setoid_rewrite elem_of_nil in H2. split; intros Hsel.
  - destruct (m !! k) as [r|] eqn:Er; cbn [mbind option_bind fmap option_fmap option_map].
    + rewrite (decide_True (P:=k ∈ keys)) by (apply Hkeys; rewrite Er; eauto).
      destruct (is_empty (endpoints (rule_without_port host port r))) eqn:Ee.
      * rewrite decide_True; [done|]. apply H2. right. split; [apply Hkeys; rewrite Er; eauto|].
        exists r. split; [done|]. by apply is_empty_true.
      * rewrite decide_False; [done|]. intros [[]|[_ (r' & ? & He)]]%H2. simplify_eq.
        apply is_empty_false in Ee. by apply Ee.
    + destruct (decide _); [done|]. by destruct (decide _).
  - rewrite decide_False by (intros [[]|[[? _]%Hkeys _]]%H2; done).
    rewrite decide_False by (intros [? _]%Hkeys; done). done.
Qed.

(** Removing an endpoint removes exactly that host and port. In every
    selected rule (the named one, or all), a binary keeps precisely the
    endpoint-and-port units other than the host and port given; the rest of
    the policy is as it was. *)
Theorem remove_endpoint_exact m rule_name host port key b u p :
  (∃ r', remove_endpoint m rule_name host port !! key = Some r'
         ∧ binary_scope_covers r' b = true ∧ has_unit r' u p) ↔
  (∃ r, m !! key = Some r ∧ binary_scope_covers r b = true ∧ has_unit r u p)
  ∧ ¬ (selected rule_name key
       ∧ eq_ignore_ascii_case (Endpoint.host u) host = true ∧ p = port).
Proof.
  destruct (remove_endpoint_lookup m rule_name host port key) as [Hs Hn].
  assert (selected rule_name key ∨ ¬ selected rule_name key) as [Hsel|Hsel].
  { destruct rule_name as [n|]; simpl; [destruct (decide (key = n)); auto|auto]. }
  - rewrite (Hs Hsel). split.
    + intros (r' & Hr & Hb & Hu). destruct (m !! key) as [r|] eqn:Er; [|done].
      cbn [mbind option_bind] in Hr. destruct (is_empty _); [done|]. simplify_eq. apply rule_without_port_units in Hu as [Hu Hnot].
      split; [by exists r|]. tauto.
    + intros [(r & Hr & Hb & Hu) Hnot]. rewrite Hr. cbn [mbind option_bind].
      exists (rule_without_port host port r).
      assert (has_unit (rule_without_port host port r) u p) as Hu'.
      { apply rule_without_port_units. tauto. }
      destruct (is_empty _) eqn:Ee; [|done]. apply is_empty_true in Ee.
      destruct Hu' as (e & He & _). rewrite Ee in He. by apply elem_of_nil in He.
  - rewrite (Hn Hsel). naive_solver.
Qed.

Lemma remove_binary_scope m i n path m' key b e :
  remove_binary m i n path = Ok m' →
  (∃ r', m' !! key = Some r' ∧ binary_scope_covers r' b = true ∧ e ∈ endpoints r') ↔
  (∃ r, m !! key = Some r ∧ binary_scope_covers r b = true ∧ e ∈ endpoints r)
  ∧ ¬ (key = n ∧ b = path).
Proof.
  unfold remove_binary. destruct (m !! n) as [r|] eqn:En; [|naive_solver].
  destruct (is_empty (binaries r)) eqn:Eb; [done|]. apply is_empty_false in Eb.
  set (kept := List.filter _ _).
  assert (∀ c, c ∈ kept ↔ c ∈ binaries r ∧ c ≠ path) as Hkept.
  { intros c. subst kept. rewrite list_elem_of_In, filter_In, <- list_elem_of_In, negb_true_iff,
      bool_decide_eq_false. done. }
  assert (binary_scope_covers r b = true ↔ b ∈ binaries r) as Hcov.
  { rewrite scope_covers_spec. tauto. }
  destruct (decide (key = n)) as [->|Hne].
  2: { intros H. assert (m' !! key = m !! key) as ->.
       { destruct (_ && _); injection H as <-; by rewrite ?lookup_delete_ne, ?lookup_insert_ne. }
       naive_solver. }
  destruct kept as [|c l] eqn:Ek.
  - rewrite andb_true_r. destruct (Nat.eqb _ _) eqn:El.
    + apply Nat.eqb_eq in El. by destruct (binaries r).
    + intros [= <-]. rewrite lookup_delete_eq. split; [naive_solver|].
      intros [(r0 & Hr0 & Hb & He) Hn]. simplify_eq. apply Hcov in Hb. exfalso.
      apply (not_elem_of_nil (A:=bytes) b), Hkept. naive_solver.
  - rewrite andb_false_r. intros [= <-]. rewrite lookup_insert_eq. split.
    + intros (r' & [= <-] & Hb & He). apply scope_covers_spec in Hb as [Hb|Hb]; [done|].
      cbn [binaries] in Hb. apply Hkept in Hb. naive_solver.
    + intros [(r0 & Hr0 & Hb & He) Hn]. simplify_eq. eexists. split; [done|]. split; [|done].
      apply scope_covers_spec. right. cbn [binaries]. apply Hkept. naive_solver.
Qed.

(** Removing a binary takes access from exactly that binary. It fails
    exactly on a rule open to any binary, where no list could be shortened;
    otherwise the binaries a rule covers are those it covered, the named one
    excepted in the named rule, so removing the last one never opens the rule
    to any binary. *)
Theorem remove_binary_exact m i n path :
  ((∃ err, remove_binary m i n path = Err err) ↔ ∃ r, m !! n = Some r ∧ binaries r = [])
  ∧ ∀ m' key b e, remove_binary m i n path = Ok m' →
    (∃ r', m' !! key = Some r' ∧ binary_scope_covers r' b = true ∧ e ∈ endpoints r') ↔
    (∃ r, m !! key = Some r ∧ binary_scope_covers r b = true ∧ e ∈ endpoints r)
    ∧ ¬ (key = n ∧ b = path).
Proof.
  split; [|intros; by eapply remove_binary_scope].
  unfold remove_binary. destruct (m !! n) as [r|]; [|naive_solver].
  destruct (is_empty (binaries r)) eqn:Eb.
  - apply is_empty_true in Eb. naive_solver.
  - apply is_empty_false in Eb. destruct (_ && _); naive_solver.
Qed.

(** ** L7 appends *)

Lemma candidates_elem t i eps k e :
  (k, e) ∈ candidates t i eps ↔
  ∃ j, k = (i + j)%nat ∧ eps !! j = Some e ∧ target_selects t e = true.
Proof.
  revert i. induction eps as [|x eps IH]; intros i; simpl.
  { rewrite elem_of_nil. split; [done|]. intros (j & _ & Hj & _). by rewrite lookup_nil in Hj. }
  rewrite elem_of_app, IH. split.
  - intros [H|(j & -> & Hj & Hs)].
    + destruct (target_selects t x) eqn:E; [|by apply elem_of_nil in H].
      apply list_elem_of_singleton in H as [= -> ->]. exists 0%nat. split; [lia|done].
    + exists (S j). split; [lia|done].
  - intros ([|j] & -> & Hj & Hs); simpl in Hj.
    + simplify_eq. rewrite Hs. left. rewrite Nat.add_0_r. constructor.
    + right. exists j. split; [lia|done].
Qed.

(** The operation acknowledges all the target affects: the only endpoint it
    selects, its whole set of ports and the rule's whole binary scope. *)
Record acknowledges (t : L7RuleTarget) (rule : NetworkPolicyRule) (index : nat)
  (e : NetworkEndpoint) : Prop := {
  ack_endpoint : endpoints rule !! index = Some e;
  ack_selected : target_selects t e = true;
  ack_unique : ∀ j x, endpoints rule !! j = Some x → target_selects t x = true → j = index;
  ack_ports : ∀ p, p ∈ canonical_ports e ↔ p ∈ target_ports t;
  ack_any : binaries rule = [] ↔ target_binaries t = AnyBinary;
  ack_binaries : ∀ b, b ∈ binaries rule ↔
    match target_binaries t with AnyBinary => False | Restricted bins => b ∈ bins end;
}.

Lemma l7_binary_paths_elem l b : b ∈ l7_binary_paths l ↔ b ∈ l.
Proof. unfold l7_binary_paths. by rewrite dedup_elem, sort_by_elem. Qed.

Lemma resolve_inv m t rule index e :
  resolve_l7_target_mut m t = Ok (rule, index, e) →
  m !! target_rule t = Some rule ∧ acknowledges t rule index e.
Proof.
  unfold resolve_l7_target_mut. destruct (m !! target_rule t) as [r|]; [|done].
  destruct (candidates t 0 (endpoints r)) as [|[k x] [|c l]] eqn:Ec; [done| |done].
  destruct (negb (Bool.eqb _ _) || _) eqn:Eb; [done|].
  destruct (negb (bool_decide (sorted_ports _ = _))) eqn:Ep; [done|]. intros [= <- <- <-].
  split; [done|]. apply orb_false_iff in Eb as [Ea Eb].
  apply negb_false_iff in Ea, Eb, Ep. apply eqb_prop in Ea.
  apply bool_decide_eq_true in Eb, Ep.
  assert (∀ k' e', (k', e') ∈ candidates t 0 (endpoints r) ↔ (k', e') = (k, x)) as Hc.
  { intros. by rewrite Ec, list_elem_of_singleton. }
  destruct (proj1 (candidates_elem t 0 (endpoints r) k x)) as (j & -> & Hj & Hs); [by apply Hc|].
  constructor; try done.
  - intros j' x' Hj' Hs'. assert ((j', x') = (0 + j, x)%nat) as [= -> ->]; [|done].
    apply Hc, candidates_elem. by exists j'.
  - intros p. by rewrite <- (sorted_ports_elem (canonical_ports x)), Ep, sorted_ports_elem.
  - rewrite <- is_empty_true, Ea. by destruct (target_binaries t).
  - intros b. rewrite <- l7_binary_paths_elem, Eb. unfold declared_paths.
    destruct (target_binaries t); [by rewrite elem_of_nil|]. apply l7_binary_paths_elem.
Qed.

Definition op_target (operation : PolicyMergeOp) : option L7RuleTarget :=
  match operation with
  | AddDenyRules t _ | AddAllowRules t _ => Some t
  | _ => None
  end.

(** What the append makes of the endpoint's preset, rules and denials. *)
Definition l7_result (operation : PolicyMergeOp) (e : NetworkEndpoint) (access : Z)
  (rules : list L7Rule) (deny : list L7DenyRule) : Prop :=
  match operation with
  | AddDenyRules _ added =>
      access = Endpoint.access e ∧ rules = Endpoint.rules e
      ∧ ∀ d, d ∈ deny ↔ d ∈ Endpoint.deny_rules e ∨ d ∈ added
  | AddAllowRules _ added =>
      access = 0 ∧ deny = Endpoint.deny_rules e
      ∧ ∀ r, r ∈ rules ↔ r ∈ Endpoint.rules e ∨ r ∈ added
             ∨ r ∈ default [] (expand_access_preset (Endpoint.protocol e)
                                 (access_label (Endpoint.access e)))
  | _ => False
  end.

Lemma validate_target_sandbox t i :
  validate_target t i = Ok () → is_provider_rule_name (target_rule t) = false.
Proof.
  unfold validate_target. destruct (_ || _); [done|]. by destruct (is_provider_rule_name _).
Qed.

Lemma method_path_endpoint_spec e host port :
  ensure_method_path_endpoint e host port = Ok () →
  Endpoint.protocol e = lit "rest" ∨ Endpoint.protocol e = lit "websocket".
Proof.
  unfold ensure_method_path_endpoint. destruct (is_empty _); [done|].
  destruct (_ || _) eqn:E; [|done]. intros _. apply orb_true_iff in E.
  by rewrite !bool_decide_eq_true in E.
Qed.

(** The exact rules after expanding a preset. *)
Lemma expand_existing_access_exact protocol access rules host port access' rules' w :
  expand_existing_access protocol access rules host port = Ok (access', rules', w) →
  access' = 0 ∧ ∀ r, r ∈ rules' ↔
    r ∈ rules ∨ r ∈ default [] (expand_access_preset protocol (access_label access)).
Proof.
  unfold expand_existing_access. destruct (Z.eqb_spec access 0) as [->|Ha].
  { intros [= <- <- <-]. split; [done|]. intros r. unfold expand_access_preset. cbn.
    rewrite elem_of_nil. tauto. }
  destruct (expand_access_preset _ _) as [l|]; [|done]. intros [= <- <- <-]. split; [done|].
  intros r. apply append_unique_elem.
Qed.

(** An L7 append changes one acknowledged endpoint. It names a sandbox
    rule; of the policy only that rule changes, of the rule only the single
    endpoint the target selects, and of the endpoint only its access lists: a
    deny append adds exactly its denials, an allow append exactly its rules
    and those of the preset it expands. The target spelled out every port and
    every binary the change reaches, and the endpoint is inspected as REST or
    WebSocket. *)
Theorem l7_append_scope m i operation t m' w :
  op_target operation = Some t → validate_operation i operation = Ok () →
  apply_operation m i operation = Ok (m', w) →
  is_provider_rule_name (target_rule t) = false
  ∧ (∀ key, key ≠ target_rule t → m' !! key = m !! key)
  ∧ ∃ rule index e access rules deny,
      m !! target_rule t = Some rule ∧ acknowledges t rule index e
      ∧ (Endpoint.protocol e = lit "rest" ∨ Endpoint.protocol e = lit "websocket")
      ∧ m' !! target_rule t =
          Some (rule_of (name rule)
                  (<[index := Endpoint.with_l7 e access rules deny]> (endpoints rule))
                  (binaries rule))
      ∧ l7_result operation e access rules deny.
Proof.
  intros Ht Hv Ha. destruct operation as [| | |t' deny|t' allow|]; simplify_eq/=;
    (split; [by eapply validate_target_sandbox|]).
  - apply let_Ok in Ha as (m1 & Hd & [= <- <-]). unfold add_deny_rules in Hd.
    apply let_Ok in Hd as ([[rule index] e] & (Hm & Hack)%resolve_inv & H).
    apply let_Ok in H as ([] & Hp%method_path_endpoint_spec & H).
    destruct (_ && _); [done|]. injection H as <-. unfold update_endpoint.
    split; [intros; by rewrite lookup_insert_ne|].
    exists rule, index, e, (Endpoint.access e), (Endpoint.rules e),
      (append_unique (Endpoint.deny_rules e) deny).
    rewrite lookup_insert_eq. split_and!; try done. intros d. apply append_unique_elem.
  - unfold add_allow_rules in Ha.
    apply let_Ok in Ha as ([[rule index] e] & (Hm & Hack)%resolve_inv & H).
    apply let_Ok in H as ([] & Hp%method_path_endpoint_spec & H).
    apply let_Ok in H as ([[a rs] w'] & [-> He]%expand_existing_access_exact & [= <- <-]).
    unfold update_endpoint. split; [intros; by rewrite lookup_insert_ne|].
    exists rule, index, e, 0, (append_unique rs allow), (Endpoint.deny_rules e).
    rewrite lookup_insert_eq. split_and!; try done. intros r. rewrite append_unique_elem, He. tauto.
Qed.

(** ** One inspection contract for a host and port *)

Lemma policy_endpoints_elem m e :
  e ∈ policy_endpoints m ↔ ∃ key r, m !! key = Some r ∧ e ∈ endpoints r.
Proof.
  unfold policy_endpoints. rewrite list_elem_of_In, in_flat_map. split.
  - intros ([k r] & Hk & He). apply list_elem_of_In in Hk, He. exists k, r. split; [|done].
    by apply elem_of_map_to_list.
  - intros (k & r & Hk & He). exists (k, r). rewrite <- !list_elem_of_In. split; [|done].
    by apply elem_of_map_to_list.
Qed.

(** An inspected endpoint of the policy at a host and port. *)
Definition inspected_at (m : network_policies) (key : bytes * Z) (e : NetworkEndpoint) : Prop :=
  e ∈ policy_endpoints m ∧ Endpoint.protocol e ≠ []
  ∧ to_ascii_lowercase (Endpoint.host e) = key.1 ∧ key.2 ∈ canonical_ports e.

Lemma found_at_elem m key i :
  i ∈ found_at key (policy_inspections m) ↔
  ∃ e, inspected_at m key e
       ∧ i = inspected_as key (effective_mcp_contract e) (describe_mcp_contract e).
Proof.
  unfold found_at, policy_inspections, inspected_at.
  rewrite list_elem_of_In, filter_In, in_flat_map, bool_decide_eq_true.
  setoid_rewrite <- list_elem_of_In. unfold endpoint_inspections. split.
  - intros [(e & He & Hi) Hk]. destruct (is_empty (Endpoint.protocol e)) eqn:Ep.
    { by apply elem_of_nil in Hi. }
    apply is_empty_false in Ep. apply (list_elem_of_fmap _ _) in Hi as (p & -> & Hp).
    simpl in Hk. subst key. by exists e.
  - intros (e & (He & Hne & Hh & Hp) & ->). split; [|done]. exists e. split; [done|].
    apply is_empty_false in Hne as ->. apply (list_elem_of_fmap _ _). exists key.2.
    split; [|done]. rewrite Hh. by destruct key.
Qed.

(** Two inspections conflict exactly when their MCP contracts differ, the
    absence of one included. *)
Lemma inspections_conflict_spec found :
  inspections_conflict found = true ↔ ∃ i j, i ∈ found ∧ j ∈ found ∧ insp_mcp i ≠ insp_mcp j.
Proof.
  unfold inspections_conflict. destruct (omap insp_mcp found) as [|c l] eqn:E.
  - split; [done|]. intros (i & j & Hi & Hj & Hne). exfalso. apply Hne.
    assert (∀ k, k ∈ found → insp_mcp k = None) as Hn; [|by rewrite !Hn].
    intros k Hk. destruct (insp_mcp k) as [d|] eqn:Ek; [|done].
    assert (d ∈ omap insp_mcp found) as Hd by (apply list_elem_of_omap; eauto).
    rewrite E in Hd. by apply elem_of_nil in Hd.
  - assert (∀ d, d ∈ c :: l ↔ ∃ k, k ∈ found ∧ insp_mcp k = Some d) as Hc.
    { intros d. rewrite <- E. apply list_elem_of_omap. }
    destruct (proj1 (Hc c)) as (k0 & Hk0 & Ek0); [constructor|].
    rewrite orb_true_iff, !existsb_elem. split.
    + intros [(i & Hi & Hn)|(d & Hd & Hn)].
      * exists i, k0. split_and!; [done..|]. rewrite Ek0. by destruct (insp_mcp i).
      * destruct (proj1 (Hc d)) as (k & Hk & Ek); [by constructor|]. exists k, k0.
        split_and!; [done..|]. rewrite Ek, Ek0. apply negb_true_iff, bool_decide_eq_false in Hn.
        congruence.
    + intros (i & j & Hi & Hj & Hne).
      assert (∃ k, k ∈ found ∧ insp_mcp k ≠ Some c) as (k & Hk & Hkc).
      { destruct (decide (insp_mcp i = Some c)) as [Ei|]; [|by exists i]. exists j. split; congruence. }
      destruct (insp_mcp k) as [d|] eqn:Ek; [right|left; exists k; by rewrite Ek].
      exists d. rewrite negb_true_iff, bool_decide_eq_false. split; [|congruence].
      assert (d ∈ c :: l) as [->|?]%elem_of_cons by (apply Hc; eauto); congruence.
Qed.

Lemma conflicting_elem m key contracts :
  (key, contracts) ∈ conflicting_inspection_contracts m ↔
  (∃ e1 e2, inspected_at m key e1 ∧ inspected_at m key e2
            ∧ effective_mcp_contract e1 ≠ effective_mcp_contract e2)
  ∧ contracts = dedup_first (map insp_rendered (found_at key (policy_inspections m))).
Proof.
  unfold conflicting_inspection_contracts. rewrite list_elem_of_omap. split.
  - intros (k & _ & Hk). destruct (inspections_conflict _) eqn:E; [|done]. simplify_eq.
    split; [|done]. apply inspections_conflict_spec in E as (i & j & Hi & Hj & Hne).
    apply found_at_elem in Hi as (e1 & H1 & ->), Hj as (e2 & H2 & ->). by exists e1, e2.
  - intros [(e1 & e2 & H1 & H2 & Hne) ->]. exists key.
    assert (inspections_conflict (found_at key (policy_inspections m)) = true) as ->.
    { apply inspections_conflict_spec.
      exists (inspected_as key (effective_mcp_contract e1) (describe_mcp_contract e1)),
        (inspected_as key (effective_mcp_contract e2) (describe_mcp_contract e2)).
      rewrite !found_at_elem. split_and!; [by exists e1|by exists e2|done]. }
    split; [|done]. rewrite dedup_elem, sort_by_elem. apply (list_elem_of_fmap insp_key).
    exists (inspected_as key (effective_mcp_contract e1) (describe_mcp_contract e1)).
    split; [done|].
    assert (inspected_as key (effective_mcp_contract e1) (describe_mcp_contract e1)
              ∈ found_at key (policy_inspections m)) as Hf by (apply found_at_elem; eauto).
    apply list_elem_of_In, filter_In in Hf as [Hf _]. by apply list_elem_of_In.
Qed.

Lemma first_new_conflict_Ok before found key contracts :
  first_new_conflict before found = Ok () → (key, contracts) ∈ found →
  ∃ prior, (key, prior) ∈ before ∧ contracts ⊆ prior.
Proof.
  induction found as [|[[h p] cs] found IH]; simpl; intros H Hin; [by apply elem_of_nil in Hin|].
  destruct (only_preexisting before (h, p) cs) eqn:E; [|done].
  apply elem_of_cons in Hin as [[= -> ->]|Hin]; [|by apply IH].
  unfold only_preexisting in E. destruct (find _ before) as [[k prior]|] eqn:Ef; [|done].
  apply find_elem in Ef as [Hb Hk]. apply bool_decide_eq_true in Hk. simpl in *. subst k.
  exists prior. split; [done|]. by apply contains_all_true.
Qed.

(** A merge introduces no second inspection contract. If two inspected
    endpoints of the merged policy share a host (ignoring case) and a port
    but not their MCP contract, that host and port was in conflict before,
    and every endpoint there has a contract some endpoint had there before. *)
Theorem merge_introduces_no_conflict m operations m' w key e1 e2 :
  merge_canonical m operations = Ok (m', w) →
  inspected_at m' key e1 → inspected_at m' key e2 →
  effective_mcp_contract e1 ≠ effective_mcp_contract e2 →
  (∃ x1 x2, inspected_at m key x1 ∧ inspected_at m key x2
            ∧ effective_mcp_contract x1 ≠ effective_mcp_contract x2)
  ∧ ∀ e, inspected_at m' key e →
      ∃ x, inspected_at m key x ∧ describe_mcp_contract x = describe_mcp_contract e.
Proof.
  intros H H1 H2 Hne. unfold merge_canonical in H.
  apply let_Ok in H as ([mm ww] & _ & H). apply let_Ok in H as ([] & He & [= <- <-]).
  eapply first_new_conflict_Ok in He as (prior & Hp & Hsub).
  2: { apply conflicting_elem. split; [by exists e1, e2|done]. }
  apply conflicting_elem in Hp as [Hp ->]. split; [done|]. intros e Hin.
  assert (describe_mcp_contract e ∈ dedup_first
            (map insp_rendered (found_at key (policy_inspections m)))) as Hd.
  { apply Hsub, dedup_first_elem, (list_elem_of_fmap insp_rendered).
    exists (inspected_as key (effective_mcp_contract e) (describe_mcp_contract e)).
    split; [done|]. apply found_at_elem. by exists e. }
  apply dedup_first_elem, (list_elem_of_fmap insp_rendered) in Hd as (i & Hi & Hf).
  apply found_at_elem in Hf as (x & Hx & ->). by exists x.
Qed.

(** ** Advisor proposals *)

Lemma dedup_first_singleton `{EqDecision A} (l : list A) c :
  dedup_first l = [c] → c ∈ l ∧ ∀ x, x ∈ l → x = c.
Proof.
  intros H. split.
  - apply dedup_first_elem. rewrite H. constructor.
  - intros x Hx. apply dedup_first_elem in Hx. rewrite H in Hx. by apply list_elem_of_singleton in Hx.
Qed.

Lemma keys_elem (m : network_policies) k : has_key m k = true → k ∈ map fst (map_to_list m).
Proof.
  unfold has_key. destruct (m !! k) as [r|] eqn:E; [|done]. intros _.
  apply (list_elem_of_fmap fst). exists (k, r). split; [done|]. by apply elem_of_map_to_list.
Qed.

(** The search for a key unused in both policies ends with one. *)
Lemma free_key_spec base effective n key :
  Z.of_nat (size base + size effective) + 3 ≤ u32_max →
  key = (let used k := has_key base k || has_key effective k in
         if used n then default n (first_unused used n 2 (S (size base + size effective))) else n) →
  base !! key = None ∧ effective !! key = None.
Proof.
  intros Hb ->. cbv zeta. set (used := λ k, has_key base k || has_key effective k).
  rewrite <- !has_key_false, <- orb_false_iff.
  change (used (if used n then default n (first_unused used n 2 (S (size base + size effective)))
                else n) = false).
  destruct (used n) eqn:En; [|done].
  destruct (first_unused_enough used n 2 (S (size base + size effective))
              (map fst (map_to_list base) ++ map fst (map_to_list effective))) as [k Hk].
  - intros k Hk. apply elem_of_app. unfold used in Hk. apply orb_true_iff in Hk as [Hk|Hk];
      [left|right]; by apply keys_elem.
  - rewrite length_app, !length_map, !length_map_to_list. lia.
  - lia.
  - rewrite Hk. simpl. by apply first_unused_spec in Hk as [? _].
Qed.

(** The rewritten rule has the one port of the contract. *)
Lemma with_contract_shape incoming key contract advisor port x key' rule :
  contract_at port x = contract → (key', rule) = with_contract incoming key contract advisor →
  binaries rule = binaries incoming
  ∧ ∃ c, endpoints rule = [c] ∧ canonical_ports c = [port]
         ∧ Endpoint.host c = Endpoint.host x ∧ Endpoint.advisor_proposed c = advisor.
Proof. intros <- [= -> ->]. split; [done|]. by eexists. Qed.

(** One contract left: every matching endpoint has it, and one matches. *)
Lemma one_contract_spec effective host port contract :
  dedup_first (map (contract_at port)
    (List.filter (λ x, endpoint_matches_host_port x host port) (policy_endpoints effective)))
    = [contract] →
  (∃ x, x ∈ policy_endpoints effective ∧ endpoint_matches_host_port x host port = true)
  ∧ ∀ x, x ∈ policy_endpoints effective → endpoint_matches_host_port x host port = true →
         contract_at port x = contract.
Proof.
  intros [Hin Huniq]%dedup_first_singleton. split.
  - apply (list_elem_of_fmap (contract_at port)) in Hin as (x & _ & Hx). exists x.
    apply list_elem_of_In, filter_In in Hx as [Hx ?]. split; [by apply list_elem_of_In|done].
  - intros x Hx Hm. apply Huniq, (list_elem_of_fmap (contract_at port)). exists x. split; [done|].
    apply list_elem_of_In, filter_In. by rewrite <- list_elem_of_In.
Qed.

(** Rewriting an advisor's observation widens nothing. Unless the rule is
    passed on as it came, the rewritten rule has the observed binaries, one
    endpoint at the one observed port, and the one contract every matching
    endpoint of the effective policy agrees on. It goes to a sandbox rule that
    already covers all those binaries, or to a name neither policy uses, and
    there it keeps the proposal's provenance. *)
Theorem advisor_rewrite_exact base effective n incoming key rule :
  Z.of_nat (size base + size effective) + 3 ≤ u32_max →
  canonicalize_advisor_add_rule base effective n incoming = Ok (key, rule) →
  (key, rule) = (n, incoming)
  ∨ ∃ e port contract advisor,
      endpoints incoming = [e] ∧ canonical_ports e = [port]
      ∧ (key, rule) = with_contract incoming key contract advisor
      ∧ binaries rule = binaries incoming
      ∧ (∃ c, endpoints rule = [c] ∧ canonical_ports c = [port])
      ∧ (∃ x, x ∈ policy_endpoints effective
              ∧ endpoint_matches_host_port x (Endpoint.host e) port = true)
      ∧ (∀ x, x ∈ policy_endpoints effective →
              endpoint_matches_host_port x (Endpoint.host e) port = true →
              contract_at port x = contract)
      ∧ ((∃ owner, base !! key = Some owner ∧ is_provider_rule_name key = false
                   ∧ (∀ b, b ∈ binaries incoming → binary_scope_covers owner b = true)
                   ∧ ∃ x, x ∈ endpoints owner ∧ own_contract x = contract
                          ∧ advisor = Endpoint.advisor_proposed x)
         ∨ base !! key = None ∧ effective !! key = None ∧ advisor = Endpoint.advisor_proposed e).
Proof.
  intros Hb. unfold canonicalize_advisor_add_rule.
  destruct (endpoints incoming) as [|e [|? ?]]; [intros [= <- <-]; by left| |intros [= <- <-]; by left].
  destruct (is_empty (binaries incoming)); [intros [= <- <-]; by left|].
  destruct (canonical_ports e) as [|port [|? ?]] eqn:Ep;
    [intros [= <- <-]; by left| |intros [= <- <-]; by left].
  destruct (is_empty (trim (Endpoint.host e))); [intros [= <- <-]; by left|].
  destruct (dedup_first _) as [|contract [|? ?]] eqn:Ed; [intros [= <- <-]; by left| |done].
  apply one_contract_spec in Ed as [Hex Hall].
  assert (∀ k advisor, (key, rule) = with_contract incoming k contract advisor →
    binaries rule = binaries incoming
    ∧ ∃ c, endpoints rule = [c] ∧ canonical_ports c = [port]) as Hshape.
  { intros k adv Hk. destruct Hex as (x & Hx & Hm).
    destruct (with_contract_shape _ _ _ _ _ _ _ _ (Hall x Hx Hm) Hk) as (? & c & ? & ? & _).
    split; [done|by exists c]. }
  destruct (List.filter _ (sorted_keys base)) as [|owner owners] eqn:Eo.
  - intros H. injection H as Hk Hr.
    assert ((key, rule) = with_contract incoming key contract (Endpoint.advisor_proposed e)) as Hw
      by (by rewrite <- Hr; rewrite Hk).
    right. exists e, port, contract, (Endpoint.advisor_proposed e).
    destruct (Hshape _ _ Hw). split_and!; try done. right.
    destruct (free_key_spec base effective n key Hb) as [? ?]; [by rewrite <- Hk|]. done.
  - assert (In owner (owner :: owners)) as Ho by (by left). rewrite <- Eo in Ho.
    apply filter_In in Ho as [_ Ho]. destruct (base !! owner) as [r|] eqn:Er; [|done].
    unfold owns_contract in Ho. rewrite !andb_true_iff, negb_true_iff in Ho.
    destruct Ho as [[Hp Hown] Hcov].
    cbn [mbind option_bind]. destruct (find (is_own_contract contract) (endpoints r)) as [x|] eqn:Ef.
    + intros H. injection H as Hk Hr. subst key.
      assert ((owner, rule) = with_contract incoming owner contract (Endpoint.advisor_proposed x))
        as Hw by (by rewrite <- Hr).
      right. exists e, port, contract, (Endpoint.advisor_proposed x). destruct (Hshape _ _ Hw).
      apply find_elem in Ef as [Hx Hc]. apply bool_decide_eq_true in Hc.
      split_and!; try done. left. exists r. split_and!; try done; [|by exists x].
      intros b Hbin. rewrite forallb_elem in Hcov. by apply Hcov.
    + apply existsb_elem in Hown as (x & Hx & Hc). eapply find_elem_none in Ef; [|done]. congruence.
Qed.

(** ** Concrete merges *)

Definition curl : bytes := lit "/usr/bin/curl".
Definition wget : bytes := lit "/usr/bin/wget".
Definition api : NetworkEndpoint := normalize_endpoint (Endpoint.basic (lit "api.example.com") 443).
Definition files : NetworkEndpoint :=
  normalize_endpoint (Endpoint.basic (lit "files.example.com") 8443).
Definition web : bytes := lit "web".
Definition ex_rule : NetworkPolicyRule := rule_of web [api] [curl].
Definition ex_policy : network_policies := {[ web := ex_rule ]}.
Definition ex_add : NetworkPolicyRule := rule_of web [files] [curl].
Definition ex_merged : network_policies := {[ web := rule_of web [api; files] [curl] ]}.

Lemma ex_add_rule : add_rule ex_policy 0 web ex_add = Ok (ex_merged, []).
Proof. vm_compute. reflexivity. Qed.

Lemma ex_grants : policy_grants ex_merged curl files (Some 8443).
Proof.
  exists web, (rule_of web [api; files] [curl]). split; [vm_compute; reflexivity|].
  split; [vm_compute; reflexivity|]. split; [right; left|].
  apply authorization_ports_elem. vm_compute. left.
Qed.

Lemma add_rule_no_undeclared_grant_witness :
  already_granted ex_policy curl files (Some 8443)
  ∨ declares (incoming_of web ex_add) curl files (Some 8443).
Proof. exact (add_rule_no_undeclared_grant _ _ _ _ _ _ _ _ _ ex_add_rule ex_grants). Defined.

Lemma add_rule_keeps_and_delivers_witness :
  ∃ r' e, ex_merged !! web = Some r' ∧ binary_scope_covers r' curl = true ∧ e ∈ endpoints r'
          ∧ extends api e.
Proof.
  apply (proj1 (add_rule_keeps_and_delivers _ _ _ _ _ _ ex_add_rule) web ex_rule);
    [vm_compute; reflexivity..|left].
Defined.

Lemma add_rule_touches_one_witness :
  ∃ key, (∀ k, k ≠ key → ex_merged !! k = ex_policy !! k)
  ∧ (key = web ∨ ex_policy !! web = None ∧ is_provider_rule_name key = false
     ∧ Forall (λ e, Endpoint.advisor_proposed e = false) (endpoints (incoming_of web ex_add))).
Proof. exact (add_rule_touches_one _ _ _ _ _ _ ex_add_rule). Defined.




Definition rest_api : NetworkEndpoint :=
  Endpoint.mk (lit "api.example.com") 443 (lit "rest") 0 0 1 [] [] [443] [] false [] ∅ 0 []
    false false false [] [] [] 0 None None false false [].
Definition ex_l7_policy : network_policies := {[ web := rule_of web [rest_api] [curl] ]}.
Definition ex_target : L7RuleTarget :=
  l7_target web (lit "API.example.com") [443] None (Restricted [curl]).
Definition ex_denial : L7DenyRule := L7Allow.mk (lit "DELETE") (lit "/**") [] ∅ [] [] [] ∅.
Definition ex_l7_merged : network_policies :=
  {[ web := rule_of web [Endpoint.with_l7 rest_api 1 [] [ex_denial]] [curl] ]}.

Lemma l7_append_scope_witness : is_provider_rule_name web = false.
Proof.
  exact (proj1 (l7_append_scope ex_l7_policy 0 (AddDenyRules ex_target [ex_denial]) ex_target
                  ex_l7_merged [] eq_refl ltac:(vm_compute; reflexivity)
                  ltac:(vm_compute; reflexivity))).
Defined.

(** A policy with two contracts at one host and port, which a merge leaves. *)
Definition mcp_api : NetworkEndpoint :=
  Endpoint.mk (lit "api.example.com") 443 (lit "mcp") 0 0 0 [] [] [443] [] false [] ∅ 0 []
    false false false [] [] [] 0 (Some (McpOptions.mk None None [lit "2025-11-25"])) None
    false false [].
Definition ex_conflict : network_policies :=
  <[web := rule_of web [rest_api] [curl]]> {[ lit "mcp" := rule_of (lit "mcp") [mcp_api] [curl] ]}.

Lemma ex_inspected e :
  In e [rest_api; mcp_api] → inspected_at ex_conflict (lit "api.example.com", 443) e.
Proof.
  intros [<-|[<-|[]]]; (split; [apply policy_endpoints_elem|
    split; [done|split; [vm_compute; reflexivity|vm_compute; left]]]).
  - exists web, (rule_of web [rest_api] [curl]). split; [vm_compute; reflexivity|left].
  - exists (lit "mcp"), (rule_of (lit "mcp") [mcp_api] [curl]). split; [vm_compute; reflexivity|left].
Qed.

Lemma merge_introduces_no_conflict_witness :
  ∃ x1 x2, inspected_at ex_conflict (lit "api.example.com", 443) x1
           ∧ inspected_at ex_conflict (lit "api.example.com", 443) x2
           ∧ effective_mcp_contract x1 ≠ effective_mcp_contract x2.
Proof.
  refine (proj1 (merge_introduces_no_conflict ex_conflict [RemoveRule (lit "gone")] ex_conflict []
                   (lit "api.example.com", 443) rest_api mcp_api _ _ _ _)).
  - vm_compute. reflexivity.
  - apply ex_inspected. by left.
  - apply ex_inspected. right. by left.
  - done.
Defined.

(** A denial observed for a new binary on a destination the policy knows. *)
Lemma advisor_rewrite_exact_witness :
  canonicalize_advisor_add_rule ex_policy ex_policy web (rule_of [] [api] [wget])
  = Ok (with_contract (rule_of [] [api] [wget]) (suffixed web 2) api false)
  ∧ suffixed web 2 ≠ web.
Proof.
  assert (canonicalize_advisor_add_rule ex_policy ex_policy web (rule_of [] [api] [wget])
          = Ok (with_contract (rule_of [] [api] [wget]) (suffixed web 2) api false)) as H
    by (vm_compute; reflexivity).
  split; [exact H|].
  destruct (advisor_rewrite_exact ex_policy ex_policy web (rule_of [] [api] [wget]) _ _
              ltac:(vm_compute; discriminate) H) as [Heq|_]; [by vm_compute in Heq|by vm_compute].
Defined.

(** ** A credential binding is dropped without a trace *)

Definition bound_to (provider : bytes) : NetworkEndpoint :=
  Endpoint.mk (lit "api.example.com") 443 [] 0 0 0 [] [] [443] [] false [] ∅ 0 []
    false false false [] [] [] 0 None (Some provider) false false [].

(** An operation that binds a provider's credentials to an endpoint the
    rule already has is accepted, leaves the policy exactly as it was, warns
    of nothing, and is afterwards reported as covered, although the policy
    has no such binding. *)
Theorem credential_binding_dropped provider :
  add_rule ex_policy 0 web (rule_of web [bound_to provider] [curl]) = Ok (ex_policy, [])
  ∧ rules_cover ex_policy (rule_of web [bound_to provider] [curl]) = true
  ∧ Forall (λ e, Endpoint.credential_binding e = None) (policy_endpoints ex_policy).
Proof.
  split; [vm_compute; reflexivity|]. split; [vm_compute; reflexivity|].
  replace (policy_endpoints ex_policy) with [api] by (vm_compute; reflexivity). by repeat constructor.
Qed.
