(* ===== verification/Ambiguity.v ===== *)
(** * Ambiguity: endpoints that select the same request and disagree
    (crates/openshell-policy/src/ambiguity.rs)

    The check that runs before a policy becomes active: every pair of endpoints
    whose ports, hosts and paths can select the same request must agree on the
    metadata of the connection and of the request pipeline. [Ranges] holds the
    arithmetic on ranges of Unicode scalar values, [Tokens] the two readings of
    a glob and the product search over them, [Ambiguity] the check itself, and
    [Selection] the runtime's side: which endpoints match a request
    (sandbox-policy.rego) and which one is selected (l7/mod.rs, l7/relay.rs). *)

From stdpp Require Import gmap.
From S2P Require Import Prelude Search Patterns IpParse Order PolicyTypes.
From Stdlib Require Import ZifyBool.

Local Open Scope Z_scope.

(** ** Chars *)

(** [str::chars] on UTF-8: a byte that is no continuation starts a char, whose
    low bits and those of the continuation bytes after it make the code point.
    The first component holds continuation bytes whose start is further left;
    an ASCII byte is never followed by one. *)
Definition lead_bits (b : Z) : Z :=
  if b <? 224 then b - 192 else if b <? 240 then b - 224 else b - 240.
Definition code_point (b : Z) (continuation : list Z) : Z :=
  if b <? 128 then b
  else fold_left (λ acc c, acc * 64 + (c - 128)) continuation (lead_bits b).
Fixpoint decode (s : bytes) : list Z * list Z :=
  match s with
  | [] => ([], [])
  | b :: s =>
      let '(continuation, cs) := decode s in
      if is_char_start b then ([], code_point b continuation :: cs) else (b :: continuation, cs)
  end.
Definition chars (s : bytes) : list Z := (decode s).2.

(** ** Ranges of scalar values *)

Module Ranges.

(** A range [(start, end)] holds both its ends. *)
Abbreviation range := (Z * Z)%type.

Definition unicode_scalar_ranges : list range := [(0, 0xD7FF); (0xE000, 0x10FFFF)].

Definition intersect_with_unicode_scalars (start end_ : Z) : list range :=
  omap (λ '(scalar_start, scalar_end),
    let start := Z.max start scalar_start in
    let end_ := Z.min end_ scalar_end in
    if start <=? end_ then Some (start, end_) else None) unicode_scalar_ranges.

(** [Ord] of pairs. *)
Definition range_cmp (a b : range) : comparison :=
  then_cmp (Z.compare a.1 b.1) (Z.compare a.2 b.2).

(** One round of the loop; [normalized] holds its last range first. *)
Definition push_range (normalized : list range) (r : range) : list range :=
  let '(start, end_) := r in
  match normalized with
  | (a, b) :: rest =>
      if start <=? saturating_add u32_max b 1 then (a, Z.max b end_) :: rest
      else (start, end_) :: normalized
  | [] => [(start, end_)]
  end.
Definition normalize_ranges (ranges : list range) : list range :=
  reverse
    (fold_left (λ normalized '(start, end_),
       fold_left push_range (intersect_with_unicode_scalars start end_) normalized)
       (sort_by range_cmp ranges) []).

(** The inner loop of [complement_ranges], with the push after it. *)
Fixpoint complement_in (universe_start universe_end cursor : Z) (ranges : list range)
  : list range :=
  match ranges with
  | [] => if cursor <=? universe_end then [(cursor, universe_end)] else []
  | (start, end_) :: ranges =>
      if (end_ <? universe_start) || (universe_end <? start)
      then complement_in universe_start universe_end cursor ranges
      else
        let start := Z.max start universe_start in
        let end_ := Z.min end_ universe_end in
        let gap := if cursor <? start then [(cursor, start - 1)] else [] in
        let cursor := saturating_add u32_max end_ 1 in
        gap ++ (if universe_end <? cursor then []
                else complement_in universe_start universe_end cursor ranges)
  end.
Definition complement_ranges (ranges : list range) : list range :=
  let ranges := normalize_ranges ranges in
  concat (map (λ '(universe_start, universe_end),
                 complement_in universe_start universe_end universe_start ranges)
            unicode_scalar_ranges).

End Ranges.

(** ** Glob tokens *)

Module Tokens.
Import Ranges.

Inductive GlobToken : Type :=
| Literal (c : Z)
| AnyChar
| CharacterClass (ranges : list range) (negated : bool)
| Star (crosses_delimiter : bool).
#[global] Instance GlobToken_eq_dec : EqDecision GlobToken.
Proof. solve_decision. Defined.

Definition is_star (t : GlobToken) : bool := match t with Star _ => true | _ => false end.

(** [stars] counts the run of stars that ends here. *)
Definition flush_stars (stars : nat) : list GlobToken :=
  match stars with O => [] | _ => [Star (Nat.leb 2 stars)] end.
Fixpoint delimited_tokens (stars : nat) (cs : list Z) : list GlobToken :=
  match cs with
  | [] => flush_stars stars
  | c :: cs =>
      if c =? 42 then delimited_tokens (S stars) cs
      else flush_stars stars ++ Literal c :: delimited_tokens 0 cs
  end.
Definition tokenize_delimited_glob (pattern : bytes) : list GlobToken :=
  delimited_tokens 0 (chars pattern).

Fixpoint parse_character_ranges (characters : list Z) : list range :=
  match characters with
  | [] => []
  | a :: r =>
      match r with
      | b :: c :: r' =>
          if b =? 45 then (a, c) :: parse_character_ranges r'
          else (a, a) :: parse_character_ranges r
      | _ => (a, a) :: parse_character_ranges r
      end
  end.

(** The stars at the front and what follows them. *)
Fixpoint star_run (cs : list Z) : nat * list Z :=
  match cs with
  | c :: cs' => if c =? 42 then let '(n, rest) := star_run cs' in (S n, rest) else (O, cs)
  | [] => (O, [])
  end.

Fixpoint position (c : Z) (cs : list Z) : option nat :=
  match cs with
  | [] => None
  | d :: cs => if d =? c then Some O else S <$> position c cs
  end.

(** The loop over the chars from [index] on, with [chars[index - 1]] as [prev].
    Each round consumes a char, so the length is enough fuel
    ([runtime_tokens_fuel]). *)
Fixpoint runtime_tokens (fuel : nat) (prev : option Z) (cs : list Z) : option (list GlobToken) :=
  match cs, fuel with
  | [], _ => Some []
  | _ :: _, O => None
  | c :: rest, S fuel =>
      if c =? 63 then (AnyChar ::.) <$> runtime_tokens fuel (Some c) rest
      else if c =? 42 then
        let '(more, after) := star_run rest in
        let count := S more in
        if Nat.ltb 2 count then None
        else if Nat.eqb count 2 then
          let starts_component := match prev with None => true | Some p => p =? 47 end in
          let ends_component := match after with [] => true | a :: _ => a =? 47 end in
          if negb starts_component || negb ends_component then None
          else match after with
               | a :: after => (Star true ::.) <$> runtime_tokens fuel (Some a) after
               | [] => (Star true ::.) <$> runtime_tokens fuel (Some 42) []
               end
        else (Star true ::.) <$> runtime_tokens fuel (Some 42) after
      else if c =? 91 then
        let negated := match rest with d :: _ => d =? 33 | [] => false end in
        let content := if negated then tail rest else rest in
        match position 93 content with
        | None | Some O => None
        | Some close =>
            (CharacterClass (parse_character_ranges (take close content)) negated ::.)
            <$> runtime_tokens fuel (Some 93) (drop (S close) content)
        end
      else (Literal c ::.) <$> runtime_tokens fuel (Some c) rest
  end.
Definition tokenize_runtime_path_glob (pattern : bytes) : option (list GlobToken) :=
  let cs := chars pattern in runtime_tokens (length cs) None cs.

Definition token_character_ranges (token : GlobToken) (delimiter : Z) : list range :=
  match token with
  | Literal value => [(value, value)]
  | AnyChar | Star true => unicode_scalar_ranges
  | Star false => complement_ranges [(delimiter, delimiter)]
  | CharacterClass ranges negated =>
      let ranges := normalize_ranges (List.filter (λ r, r.1 <=? r.2) ranges) in
      if negated then complement_ranges ranges else ranges
  end.

Definition tokens_share_character (left right : GlobToken) (delimiter : Z) : bool :=
  let left_ranges := token_character_ranges left delimiter in
  let right_ranges := token_character_ranges right delimiter in
  existsb (λ l, existsb (λ r, (l.1 <=? r.2) && (r.1 <=? l.2)) right_ranges) left_ranges.

Section product.
Context (left right : list GlobToken) (delimiter : Z).

(** The states one round of the product search pushes, in the code's order. *)
Definition product_step (st : nat * nat) : list (nat * nat) :=
  let '(left_index, right_index) := st in
  let skip_left := match left !! left_index with
                   | Some (Star _) => [(S left_index, right_index)] | _ => [] end in
  let skip_right := match right !! right_index with
                    | Some (Star _) => [(left_index, S right_index)] | _ => [] end in
  let consume :=
    match left !! left_index, right !! right_index with
    | Some left_token, Some right_token =>
        if tokens_share_character left_token right_token delimiter
        then [(if is_star left_token then left_index else S left_index,
               if is_star right_token then right_index else S right_index)]
        else []
    | _, _ => []
    end in
  skip_left ++ skip_right ++ consume.

Definition product_accept (st : nat * nat) : bool :=
  Nat.eqb st.1 (length left) && Nat.eqb st.2 (length right).

(** [HostPattern.rounds] bounds a search that pushes at most three states a
    round ([product_search]). *)
Definition token_languages_overlap : bool :=
  default false
    (search product_step product_accept HostPattern.push_queue
       (S (HostPattern.rounds (length left) (length right))) [(0, 0)%nat] ∅).
End product.

Definition glob_patterns_overlap (left right : bytes) (delimiter : Z) : bool :=
  token_languages_overlap (tokenize_delimited_glob left) (tokenize_delimited_glob right) delimiter.

Definition runtime_path_patterns_overlap (left right : bytes) : bool :=
  match tokenize_runtime_path_glob left, tokenize_runtime_path_glob right with
  | Some l, Some r => token_languages_overlap l r 47
  | _, _ => true
  end.

End Tokens.

(** ** The check *)

Module Ambiguity.
Import Tokens.

(** [Debug] of the compared values. A conflict's text shows the field and both
    values; here it is these three. *)
Inductive value : Type :=
| VBool (b : bool)
| VInt (v : Z)
| VString (s : bytes)
| VStrings (l : list bytes).
#[global] Instance value_eq_dec : EqDecision value.
Proof. solve_decision. Defined.

Record Conflict := conflict { conflict_field : bytes; conflict_left : value; conflict_right : value }.

Record EndpointAmbiguity := ambiguity {
  left_policy : bytes;
  left_endpoint_index : nat;
  left_selector : bytes;
  right_policy : bytes;
  right_endpoint_index : nat;
  right_selector : bytes;
  ambiguity_ports : list Z;
  conflicts : list Conflict;
}.

Record EndpointRef := endpoint_ref {
  ref_policy : bytes;
  ref_index : nat;
  ref_endpoint : NetworkEndpoint;
}.

(** [collect::<BTreeSet<_>>()], as the ascending list of its elements. *)
Definition btree_set {A} `{EqDecision A} (cmp : A → A → comparison) (l : list A) : list A :=
  dedup (sort_by cmp l).

Definition effective_ports (e : NetworkEndpoint) : list Z :=
  if is_empty (Endpoint.ports e) then
    if 0 <? Endpoint.port e then [Endpoint.port e] else []
  else btree_set Z.compare (List.filter (λ port, 0 <? port) (Endpoint.ports e)).

Definition overlapping_ports (l r : NetworkEndpoint) : list Z :=
  List.filter (λ port, bool_decide (port ∈ effective_ports r)) (effective_ports l).

Definition display_ports (e : NetworkEndpoint) : bytes :=
  join_with 44 (map IpParse.show_uint (effective_ports e)).

Definition endpoint_selector (e : NetworkEndpoint) : bytes :=
  (if is_empty (Endpoint.host e) then lit "<any-host>" else Endpoint.host e)
    ++ 58 :: display_ports e ++ Endpoint.path e.

Definition push_conflict (conflicts : list Conflict) (field : bytes) (l r : value)
  : list Conflict :=
  if decide (l = r) then conflicts else conflicts ++ [conflict field l r].

Definition is_explicit_tcp (protocol : bytes) : bool := eq_ignore_ascii_case protocol (lit "tcp").

(** [NetworkTlsMode::Skip] is 1, the values of the enum are 0 to 3; of
    [NetworkEnforcementMode], [Enforce] is 1, [Audit] is 2, the values 0 to 2. *)
Definition normalized_tls (v : Z) : Z :=
  if v =? 1 then 1 else if is_some (network_tls_mode_to_str v) then 0 else v.
Definition normalized_enforcement (v : Z) : Z :=
  if v =? 1 then 1 else if is_some (network_enforcement_mode_to_str v) then 2 else v.

Definition normalized_strings (values : list bytes) : list bytes :=
  btree_set bytes_cmp (map (λ v, to_ascii_lowercase (trim v)) values).

Definition DEFAULT_BODY_LIMIT : Z := 65536.
Definition normalized_body_limit (v : Z) : Z := if v =? 0 then DEFAULT_BODY_LIMIT else v.

Definition is_json_rpc_family (protocol : bytes) : bool :=
  eq_ignore_ascii_case protocol (lit "json-rpc") || eq_ignore_ascii_case protocol (lit "mcp").

Definition normalized_mcp_strict_tool_names (e : NetworkEndpoint) : bool :=
  default true (Endpoint.mcp e ≫= McpOptions.strict_tool_names).

Definition normalized_request_protocol (protocol : bytes) : bytes :=
  if eq_ignore_ascii_case protocol (lit "tcp") then [] else to_ascii_lowercase protocol.

Definition has_graphql_fields (a : L7Allow.t) : bool :=
  negb (is_empty (L7Allow.operation_type a)) || negb (is_empty (L7Allow.operation_name a))
  || negb (is_empty (L7Allow.fields a)).
Definition websocket_graphql_policy (e : NetworkEndpoint) : bool :=
  let allow_rule_has_graphql_fields :=
    existsb (λ rule, match rule with Some allow => has_graphql_fields allow | None => false end)
      (Endpoint.rules e) in
  let deny_rule_has_graphql_fields := existsb has_graphql_fields (Endpoint.deny_rules e) in
  negb (bool_decide (Endpoint.graphql_persisted_queries e = ∅))
  || (negb (is_empty (Endpoint.persisted_queries e))
      && negb (bool_decide (Endpoint.persisted_queries e = lit "deny")))
  || allow_rule_has_graphql_fields || deny_rule_has_graphql_fields.

Definition connection_conflicts (l r : NetworkEndpoint) : list Conflict :=
  let c := [] in
  let c := push_conflict c (lit "transparent_tcp_eligible")
             (VBool (is_explicit_tcp (Endpoint.protocol l)))
             (VBool (is_explicit_tcp (Endpoint.protocol r))) in
  let c := push_conflict c (lit "tls") (VInt (normalized_tls (Endpoint.tls l)))
             (VInt (normalized_tls (Endpoint.tls r))) in
  push_conflict c (lit "allowed_ips") (VStrings (normalized_strings (Endpoint.allowed_ips l)))
    (VStrings (normalized_strings (Endpoint.allowed_ips r))).

Definition endpoint_contributes_request_pipeline_metadata (e : NetworkEndpoint) : bool :=
  (negb (is_empty (Endpoint.protocol e))
   && negb (eq_ignore_ascii_case (Endpoint.protocol e) (lit "tcp")))
  || negb (is_empty (Endpoint.allowed_ips e))
  || negb (Endpoint.tls e =? 0)
  || is_some (Endpoint.credential_binding e).

Definition request_pipeline_conflicts (l r : NetworkEndpoint) : list Conflict :=
  let both p := eq_ignore_ascii_case (Endpoint.protocol l) p
                && eq_ignore_ascii_case (Endpoint.protocol r) p in
  let c := [] in
  let c := push_conflict c (lit "protocol")
             (VString (normalized_request_protocol (Endpoint.protocol l)))
             (VString (normalized_request_protocol (Endpoint.protocol r))) in
  let c := push_conflict c (lit "enforcement")
             (VInt (normalized_enforcement (Endpoint.enforcement l)))
             (VInt (normalized_enforcement (Endpoint.enforcement r))) in
  let c := push_conflict c (lit "allow_encoded_slash")
             (VBool (Endpoint.allow_encoded_slash l)) (VBool (Endpoint.allow_encoded_slash r)) in
  let c := push_conflict c (lit "websocket_credential_rewrite")
             (VBool (Endpoint.websocket_credential_rewrite l))
             (VBool (Endpoint.websocket_credential_rewrite r)) in
  let c := push_conflict c (lit "request_body_credential_rewrite")
             (VBool (Endpoint.request_body_credential_rewrite l))
             (VBool (Endpoint.request_body_credential_rewrite r)) in
  let c := if both (lit "websocket") then
             push_conflict c (lit "websocket_graphql_policy")
               (VBool (websocket_graphql_policy l)) (VBool (websocket_graphql_policy r))
           else c in
  let c := push_conflict c (lit "credential_signing")
             (VString (Endpoint.credential_signing l)) (VString (Endpoint.credential_signing r)) in
  let c := push_conflict c (lit "signing_service")
             (VString (Endpoint.signing_service l)) (VString (Endpoint.signing_service r)) in
  let c := push_conflict c (lit "signing_region")
             (VString (Endpoint.signing_region l)) (VString (Endpoint.signing_region r)) in
  let c := push_conflict c (lit "credential_binding.provider")
             (VString (default [] (Endpoint.credential_binding l)))
             (VString (default [] (Endpoint.credential_binding r))) in
  let c := if both (lit "graphql") then
             push_conflict c (lit "graphql_max_body_bytes")
               (VInt (normalized_body_limit (Endpoint.graphql_max_body_bytes l)))
               (VInt (normalized_body_limit (Endpoint.graphql_max_body_bytes r)))
           else c in
  let c := if eq_ignore_ascii_case (Endpoint.protocol l) (Endpoint.protocol r)
              && is_json_rpc_family (Endpoint.protocol l) then
             push_conflict c (lit "json_rpc_max_body_bytes")
               (VInt (normalized_body_limit (Endpoint.json_rpc_max_body_bytes l)))
               (VInt (normalized_body_limit (Endpoint.json_rpc_max_body_bytes r)))
           else c in
  if both (lit "mcp") then
    push_conflict c (lit "mcp.strict_tool_names")
      (VBool (normalized_mcp_strict_tool_names l)) (VBool (normalized_mcp_strict_tool_names r))
  else c.

Definition host_patterns_overlap (l r : bytes) : bool :=
  if is_empty l || is_empty r then true
  else glob_patterns_overlap (to_ascii_lowercase l) (to_ascii_lowercase r) 46.

(** The patterns [""], ["**"] and ["/**"]. *)
Definition any_path (p : bytes) : bool :=
  is_empty p || bool_decide (p = lit "**") || bool_decide (p = lit "/**").
Definition path_patterns_overlap (l r : bytes) : bool :=
  if any_path l || any_path r then true else runtime_path_patterns_overlap l r.

Definition path_selector_specificity (path : bytes) : nat :=
  if is_empty path then 0%nat
  else length (List.filter (λ character, negb (character =? 42)) (chars path)).

(** The body of the two loops, for one pair. *)
Definition endpoint_ambiguity (l r : EndpointRef) : option EndpointAmbiguity :=
  let le := ref_endpoint l in
  let re := ref_endpoint r in
  let ports := overlapping_ports le re in
  if is_empty ports || negb (host_patterns_overlap (Endpoint.host le) (Endpoint.host re)) then None
  else
    let cs := connection_conflicts le re in
    let cs :=
      if endpoint_contributes_request_pipeline_metadata le
         && endpoint_contributes_request_pipeline_metadata re
         && path_patterns_overlap (Endpoint.path le) (Endpoint.path re)
         && Nat.eqb (path_selector_specificity (Endpoint.path le))
              (path_selector_specificity (Endpoint.path re))
      then cs ++ request_pipeline_conflicts le re else cs in
    if is_empty cs then None
    else Some (ambiguity (ref_policy l) (ref_index l) (endpoint_selector le)
                 (ref_policy r) (ref_index r) (endpoint_selector re) ports cs).

(** Every endpoint with its rule's name and its index; the rules come in the
    iteration order of the map. *)
Definition endpoint_refs (policies : list (bytes * NetworkPolicyRule)) : list EndpointRef :=
  concat (map (λ '(key, rule),
    let policy_name := if is_empty (name rule) then key else name rule in
    imap (λ index e, endpoint_ref policy_name index e) (endpoints rule)) policies).

(** The pairs of the two loops: every index with every larger one. *)
Fixpoint pairs {A} (l : list A) : list (A * A) :=
  match l with
  | [] => []
  | x :: l => map (pair x) l ++ pairs l
  end.

Definition find_endpoint_ambiguities (policies : list (bytes * NetworkPolicyRule))
  : list EndpointAmbiguity :=
  omap (λ '(l, r), endpoint_ambiguity l r) (pairs (endpoint_refs policies)).

End Ambiguity.

(** ** The runtime's selection *)

Module Selection.
Import Tokens Ambiguity.

(** [L7EndpointConfig::matches_path] and [path_specificity]. *)
Definition matches_path `{Glob} (e : NetworkEndpoint) (path : bytes) : bool :=
  EndpointPath.matches (EndpointPath.new (Endpoint.path e)) path.
Definition path_specificity (e : NetworkEndpoint) : nat :=
  if is_empty (Endpoint.path e) then 0%nat
  else length (List.filter (λ c, negb (c =? 42)) (chars (Endpoint.path e))).

Definition select_l7_config_for_path `{Glob} (configs : list NetworkEndpoint) (path : bytes)
  : option NetworkEndpoint :=
  max_by_key path_specificity (List.filter (λ config, matches_path config path) configs).

(** The ports the policy engine sees. *)
Definition rego_ports (e : NetworkEndpoint) : list Z :=
  if negb (is_empty (Endpoint.ports e)) then Endpoint.ports e
  else if 0 <? Endpoint.port e then [Endpoint.port e] else [].

(** The three rules of [endpoint_matches_request], with [glob.match] on the
    delimiter [.] as a parameter; [lower] is read on ASCII hosts. *)
Definition endpoint_matches_request (glob_match : bytes → bytes → bool)
  (e : NetworkEndpoint) (host : bytes) (port : Z) : bool :=
  bool_decide (port ∈ rego_ports e)
  && ((negb (contains_byte 42 (Endpoint.host e))
       && bool_decide (to_ascii_lowercase (Endpoint.host e) = to_ascii_lowercase host))
      || (contains_byte 42 (Endpoint.host e)
          && glob_match (to_ascii_lowercase (Endpoint.host e)) (to_ascii_lowercase host))
      || (is_empty (Endpoint.host e) && negb (is_empty (Endpoint.allowed_ips e)))).

End Selection.
