(* ===== verification/AmbiguityFacts.v ===== *)
(** * AmbiguityFacts: the ambiguity check is exact, and what it guarantees

    [RangeFacts]: normalised and complemented ranges hold exactly the scalar
    values they should. [TokenFacts]: the product search decides whether two
    token languages share a string. [CheckFacts]: a pair is reported exactly
    when its selectors can meet and its metadata differ, and with no report
    the runtime's choice of an endpoint does not depend on their order. *)

From stdpp Require Import gmap sorting.
From S2P Require Import Prelude PathCanon Search Patterns IpParse Order PolicyTypes Ambiguity.
From Stdlib Require Import ZifyBool.

Local Open Scope Z_scope.

(** ** Ranges *)

Module RangeFacts.
Import Ranges.

(** The values of Rust's [char]. *)
Definition is_scalar (c : Z) : Prop := 0 ≤ c ≤ 0xD7FF ∨ 0xE000 ≤ c ≤ 0x10FFFF.

Definition in_range (c : Z) (r : range) : Prop := r.1 ≤ c ≤ r.2.
#[global] Instance in_range_dec c r : Decision (in_range c r).
Proof. unfold in_range. apply _. Defined.

Definition covers (l : list range) (c : Z) : Prop := Exists (in_range c) l.

(** A range of scalar values that is not empty. *)
Definition scalar_range (r : range) : Prop := r.1 ≤ r.2 ∧ ∀ c, in_range c r → is_scalar c.

Definition gap (a b : range) : Prop := a.2 + 1 < b.1.

Lemma covers_cons r l c : covers (r :: l) c ↔ in_range c r ∨ covers l c.
Proof. apply Exists_cons. Qed.
Lemma covers_app l l' c : covers (l ++ l') c ↔ covers l c ∨ covers l' c.
Proof. apply Exists_app. Qed.
Lemma covers_perm l l' c : l ≡ₚ l' → covers l c ↔ covers l' c.
Proof.
  intros Hp. unfold covers. rewrite !list.Exists_exists. by setoid_rewrite Hp.
Qed.
Lemma covers_nil c : covers [] c ↔ False.
Proof. apply Exists_nil. Qed.
Lemma covers_scalar l c : Forall scalar_range l → covers l c → is_scalar c.
Proof.
  intros Hl (r & Hr & Hc)%list.Exists_exists. rewrite list.Forall_forall in Hl.
  by apply (proj2 (Hl r Hr)).
Qed.

Lemma universe_covers c : covers unicode_scalar_ranges c ↔ is_scalar c.
Proof.
  unfold unicode_scalar_ranges, is_scalar. rewrite !covers_cons, covers_nil.
  unfold in_range. simpl. lia.
Qed.

Lemma scalar_range_le a b : scalar_range (a, b) → 0 ≤ a ∧ a ≤ b ∧ b ≤ 0x10FFFF.
Proof.
  intros [Hab Hs]. pose proof (Hs a) as Ha. pose proof (Hs b) as Hb.
  unfold in_range, is_scalar in *. simpl in *. lia.
Qed.

Lemma next_of_range a b : scalar_range (a, b) → saturating_add u32_max b 1 = b + 1.
Proof. intros (_ & _ & ?)%scalar_range_le. unfold saturating_add, u32_max. lia. Qed.

(** *** Normalisation *)

(** The loop's invariant, for ranges that all start at [m] or later: what has
    been collected has no hole from [m] to its end. *)
Record collected (m : Z) (acc : list range) : Prop := {
  collected_scalar : Forall scalar_range acc;
  collected_sorted : StronglySorted (flip gap) acc;
  collected_full c :
    is_scalar c → m ≤ c → (∃ r, head acc = Some r ∧ c ≤ r.2) → covers acc c;
}.

Lemma collected_mono m m' acc : m ≤ m' → collected m acc → collected m' acc.
Proof. intros Hm [H1 H2 H3]. split; [done..|]. intros c Hc Hmc. apply H3; [done|lia]. Qed.

(** Extending the last range by a piece that starts at [m] or later and no
    further than next to it. *)
Lemma extend_covers m a b acc s e c :
  collected m ((a, b) :: acc) → scalar_range (s, e) → m ≤ s ≤ b + 1 →
  covers ((a, Z.max b e) :: acc) c ↔ covers ((a, b) :: acc) c ∨ s ≤ c ≤ e.
Proof.
  intros [Hsc _ Hfull] Hse Hm. inversion_clear Hsc as [|? ? Hab _].
  pose proof (scalar_range_le _ _ Hab). rewrite !covers_cons. unfold in_range; simpl. split.
  - intros [?|?]; [|tauto]. destruct (decide (c ≤ b)); [left; left; lia|right; lia].
  - intros [[?|?]|Hc]; [left; lia|by right|]. destruct (decide (a ≤ c)); [left; lia|].
    assert (is_scalar c) as Hc' by (by apply Hse).
    pose proof (Hfull c Hc' ltac:(lia) ltac:(exists (a, b); simpl; split; [done|lia])) as Hf.
    apply covers_cons in Hf as [Hf|Hf]; [unfold in_range in Hf; simpl in Hf; lia|by right].
Qed.

Lemma extend_collected m a b acc s e :
  collected m ((a, b) :: acc) → scalar_range (s, e) → m ≤ s ≤ b + 1 →
  collected m ((a, Z.max b e) :: acc).
Proof.
  intros Hacc Hse Hm. pose proof Hacc as [Hsc Hso Hfull].
  inversion_clear Hsc as [|? ? Hab Hsc']. inversion_clear Hso as [|? ? Hso' Hgap].
  pose proof (scalar_range_le _ _ Hab). split.
  - constructor; [|done]. split; simpl; [lia|]. intros c Hc. unfold in_range in Hc; simpl in Hc.
    destruct (decide (c ≤ b)); [apply Hab|apply Hse]; unfold in_range; simpl; lia.
  - by constructor.
  - intros c Hc Hmc (r & [= <-] & Hr). apply (extend_covers m a b acc s e c Hacc Hse Hm).
    simpl in Hr. destruct (decide (c ≤ b)); [|right; lia].
    left. apply Hfull; [done..|]. by exists (a, b).
Qed.

(** A piece beyond the last range, with no hole between [m] and it. *)
Lemma append_collected m acc s e :
  collected m acc → scalar_range (s, e) →
  (∀ c, is_scalar c → m ≤ c < s → covers acc c) →
  Forall (λ r, r.2 + 1 < s) (take 1 acc) →
  collected m ((s, e) :: acc).
Proof.
  intros [Hsc Hso _] Hse Hbefore Hlast. split; [by constructor| |].
  - constructor; [done|]. destruct acc as [|[a b] acc]; [constructor|].
    inversion_clear Hlast as [|? ? Hab _]. inversion_clear Hso as [|? ? _ Hgap].
    inversion_clear Hsc as [|? ? Hr _]. pose proof (scalar_range_le _ _ Hr).
    constructor; [done|]. eapply Forall_impl; [|exact Hgap]. intros [a' b'].
    unfold flip, gap. simpl in *. lia.
  - intros c Hc Hmc (r & [= <-] & Hr). simpl in Hr. apply covers_cons. unfold in_range; simpl.
    destruct (decide (s ≤ c)); [left; lia|right; apply Hbefore; [done|lia]].
Qed.

Lemma push_range_collected m acc s e :
  collected m acc → scalar_range (s, e) → m ≤ s →
  (∀ c, is_scalar c → m ≤ c < s → covers acc c) →
  collected m (push_range acc (s, e))
  ∧ ∀ c, covers (push_range acc (s, e)) c ↔ covers acc c ∨ s ≤ c ≤ e.
Proof.
  intros Hacc Hse Hms Hbefore.
  assert (∀ c, covers ((s, e) :: acc) c ↔ covers acc c ∨ s ≤ c ≤ e) as Hcons.
  { intros c. rewrite covers_cons. unfold in_range. simpl. tauto. }
  unfold push_range. destruct acc as [|[a b] acc].
  { split; [|done]. apply append_collected; [done..|constructor]. }
  pose proof (collected_scalar _ _ Hacc) as Hsc. inversion_clear Hsc as [|? ? Hab _].
  rewrite (next_of_range a b Hab). destruct (Z.leb_spec s (b + 1)).
  - split; [by apply (extend_collected m a b acc s e)|]. intros c. by apply (extend_covers m).
  - split; [|done]. apply append_collected; [done..|]. repeat constructor. simpl. lia.
Qed.

Lemma intersect_cases s e :
  intersect_with_unicode_scalars s e =
    (if Z.max s 0 <=? Z.min e 0xD7FF then [(Z.max s 0, Z.min e 0xD7FF)] else [])
    ++ (if Z.max s 0xE000 <=? Z.min e 0x10FFFF then [(Z.max s 0xE000, Z.min e 0x10FFFF)] else []).
Proof.
  unfold intersect_with_unicode_scalars, unicode_scalar_ranges. cbn [omap list_omap].
  destruct (Z.leb _ (Z.min e 0xD7FF)), (Z.leb _ (Z.min e 0x10FFFF)); done.
Qed.

Lemma scalar_range_pair a b :
  a ≤ b → 0 ≤ a ∧ b ≤ 0xD7FF ∨ 0xE000 ≤ a ∧ b ≤ 0x10FFFF → scalar_range (a, b).
Proof.
  intros Hab H. split; [done|]. intros c. unfold in_range, is_scalar. simpl in *. lia.
Qed.

(** One range of the input, in its at most two pieces. *)
Lemma push_pieces_collected m acc s e :
  collected m acc → m ≤ s →
  collected s (fold_left push_range (intersect_with_unicode_scalars s e) acc)
  ∧ ∀ c, covers (fold_left push_range (intersect_with_unicode_scalars s e) acc) c
         ↔ covers acc c ∨ is_scalar c ∧ s ≤ c ≤ e.
Proof.
  intros Hacc Hms. apply (collected_mono m s) in Hacc; [|done]. clear m Hms.
  rewrite intersect_cases, fold_left_app.
  destruct (Z.leb_spec (Z.max s 0) (Z.min e 0xD7FF)) as [H1|H1]; simpl.
  - destruct (push_range_collected s acc (Z.max s 0) (Z.min e 0xD7FF) Hacc) as [Hacc1 Hcov1].
    { apply scalar_range_pair; lia. }
    { lia. }
    { intros c Hc ?. unfold is_scalar in Hc. lia. }
    destruct (Z.leb_spec (Z.max s 0xE000) (Z.min e 0x10FFFF)) as [H2|H2]; simpl.
    + edestruct (push_range_collected s _ (Z.max s 0xE000) (Z.min e 0x10FFFF) Hacc1)
        as [Hacc2 Hcov2].
      { apply scalar_range_pair; lia. }
      { lia. }
      { intros c Hc ?. apply Hcov1. right. unfold is_scalar in Hc. lia. }
      split; [done|]. intros c. rewrite Hcov2, Hcov1, Logic.or_assoc. apply or_iff_compat_l. unfold is_scalar. lia.
    + split; [done|]. intros c. rewrite Hcov1. apply or_iff_compat_l. unfold is_scalar. lia.
  - destruct (Z.leb_spec (Z.max s 0xE000) (Z.min e 0x10FFFF)) as [H2|H2]; simpl.
    + edestruct (push_range_collected s _ (Z.max s 0xE000) (Z.min e 0x10FFFF) Hacc)
        as [Hacc2 Hcov2].
      { apply scalar_range_pair; lia. }
      { lia. }
      { intros c Hc ?. exfalso. unfold is_scalar in Hc. lia. }
      split; [done|]. intros c. rewrite Hcov2. apply or_iff_compat_l. unfold is_scalar. lia.
    + split; [done|]. intros c. unfold is_scalar. split; [by left|]. intros [?|?]; [done|lia].
Qed.

Lemma normalize_loop m acc l :
  collected m acc → StronglySorted (λ a b, a.1 ≤ b.1) l → Forall (λ r, m ≤ r.1) l →
  let acc' := fold_left (λ normalized '(start, end_),
       fold_left push_range (intersect_with_unicode_scalars start end_) normalized) l acc in
  (∃ m', collected m' acc') ∧ ∀ c, covers acc' c ↔ covers acc c ∨ is_scalar c ∧ covers l c.
Proof.
  revert m acc. induction l as [|[s e] l IH]; intros m acc Hacc Hs Hm; cbn zeta; simpl.
  { split; [by exists m|]. intros c. rewrite covers_nil. tauto. }
  inversion_clear Hs as [|? ? Hs' Hle]. inversion_clear Hm as [|? ? Hms _].
  destruct (push_pieces_collected m acc s e Hacc Hms) as [Hacc1 Hcov1].
  destruct (IH s _ Hacc1 Hs' Hle) as [Hex Hcov]. split; [done|].
  intros c. rewrite Hcov, Hcov1, covers_cons. unfold in_range. simpl. tauto.
Qed.

Lemma range_cmp_start a b : if cmp_leb (range_cmp a b) then a.1 ≤ b.1 else b.1 ≤ a.1.
Proof.
  unfold range_cmp. destruct (Z.compare_spec a.1 b.1); simpl; [|lia..].
  destruct (cmp_leb _); lia.
Qed.

Lemma StronglySorted_reverse {A} (R : A → A → Prop) l :
  StronglySorted (flip R) l → StronglySorted R (reverse l).
Proof.
  induction 1 as [|x l Hl IH Hx]; [constructor|]. rewrite reverse_cons.
  apply StronglySorted_app. split_and!; [|done|repeat constructor].
  intros y z Hy ->%list_elem_of_singleton. apply elem_of_reverse in Hy.
  rewrite reverse_involutive in Hy. rewrite list.Forall_forall in Hx. exact (Hx y Hy).
Qed.

(** What [normalize_ranges] guarantees. *)
Lemma normalize_ranges_spec l :
  Forall scalar_range (normalize_ranges l)
  ∧ StronglySorted gap (normalize_ranges l)
  ∧ ∀ c, covers (normalize_ranges l) c ↔ is_scalar c ∧ covers l c.
Proof.
  assert (StronglySorted (λ a b, a.1 ≤ b.1) (sort_by range_cmp l)) as Hs.
  { apply sort_by_sorted; [intros ???; lia|]. apply range_cmp_start. }
  assert (∃ m, Forall (λ r : range, m ≤ r.1) (sort_by range_cmp l)) as [m Hm].
  { inversion Hs as [|r l' _ Hr]; [by exists 0|]. exists r.1. by constructor. }
  assert (collected m []) as H0.
  { split; [constructor..|]. by intros c _ _ (r & ? & _). }
  destruct (normalize_loop m [] _ H0 Hs Hm) as [[m' [H1 H2 _]] H3].
  unfold normalize_ranges. split_and!.
  - by apply Forall_reverse.
  - by apply StronglySorted_reverse.
  - intros c. rewrite (covers_perm _ _ c (reverse_Permutation _)).
    etrans; [apply H3|]. rewrite covers_nil, (covers_perm _ _ c (sort_by_perm range_cmp l)). tauto.
Qed.

(** *** Complement *)

(** One range of a universe whose values are all scalars, or none. *)
Lemma interval_spec us ue a b :
  us ≤ a → b ≤ ue → (∀ c, us ≤ c ≤ ue → is_scalar c) →
  let l := if a <=? b then [(a, b)] else [] in
  Forall scalar_range l ∧ ∀ c, covers l c ↔ a ≤ c ≤ b.
Proof.
  intros Ha Hb Huni. cbn zeta. destruct (Z.leb_spec a b).
  - split; [|intros c; rewrite covers_cons, covers_nil; unfold in_range; simpl; lia].
    constructor; [|constructor]. split; [done|]. intros c [? ?]; simpl in *. apply Huni. lia.
  - split; [constructor|]. intros c. rewrite covers_nil. lia.
Qed.

Lemma complement_in_spec us ue cursor l :
  us ≤ cursor → us ≤ ue ≤ 0x10FFFF → (∀ c, us ≤ c ≤ ue → is_scalar c) →
  Forall scalar_range l → StronglySorted gap l →
  Forall (λ r, r.2 < us ∨ cursor ≤ Z.max r.1 us) l →
  Forall scalar_range (complement_in us ue cursor l)
  ∧ ∀ c, covers (complement_in us ue cursor l) c ↔ cursor ≤ c ≤ ue ∧ ¬ covers l c.
Proof.
  intros Hc Hue Huni. revert cursor Hc.
  induction l as [|[s e] l IH]; intros cursor Hc Hsc Hso Hcur; simpl.
  { destruct (interval_spec us ue cursor ue) as [H1 H2]; [done..|]. split; [done|].
    intros c. rewrite H2, covers_nil. tauto. }
  inversion_clear Hsc as [|? ? Hse Hsc']. inversion_clear Hso as [|? ? Hso' Hgap].
  inversion_clear Hcur as [|? ? Hse' Hcur']. simpl in Hse'.
  destruct (scalar_range_le _ _ Hse) as (Hs0 & Hse0 & He0).
  destruct ((e <? us) || (ue <? s)) eqn:Hskip.
  { destruct (IH cursor) as [IH1 IH2]; [done..|]. split; [done|]. intros c.
    rewrite IH2, covers_cons. unfold in_range. simpl. split; [|tauto].
    intros [? ?]. split; [done|]. intros [?|?]; [lia|done]. }
  assert (saturating_add u32_max (Z.min e ue) 1 = Z.min e ue + 1) as ->
    by (unfold saturating_add, u32_max; lia).
  set (gaps := if cursor <? Z.max s us then _ else _).
  assert (Forall scalar_range gaps ∧ ∀ c, covers gaps c ↔ cursor ≤ c < Z.max s us) as [Hg1 Hg2].
  { destruct (interval_spec us ue cursor (Z.max s us - 1)) as [Hi1 Hi2]; [lia..|done|].
    replace (cursor <=? Z.max s us - 1) with (cursor <? Z.max s us) in Hi1, Hi2 by lia.
    split; [done|]. intros c. etrans; [apply Hi2|lia]. }
  assert (∀ c, covers l c → e + 1 < c) as Hafter.
  { intros c (r & Hr & Hi)%list.Exists_exists. rewrite list.Forall_forall in Hgap.
    specialize (Hgap r Hr). unfold gap, in_range in *. simpl in *. lia. }
  destruct (Z.ltb_spec ue (Z.min e ue + 1)).
  - rewrite app_nil_r. split; [done|]. intros c. rewrite Hg2, covers_cons.
    unfold in_range; simpl. specialize (Hafter c). split; [|tauto || lia]. intros ?. split; [lia|].
    intros [?|?%Hafter]; lia.
  - destruct (IH (Z.min e ue + 1)) as [IH1 IH2]; [lia|done..| |].
    { eapply Forall_impl; [|exact Hgap]. intros [s' e']. unfold gap. simpl. lia. }
    split; [by apply Forall_app|]. intros c. rewrite covers_app, Hg2, IH2, covers_cons.
    unfold in_range; simpl. specialize (Hafter c). split.
    + intros [?|[? ?]]; (split; [lia|]); intros [?|Hl]; [lia|specialize (Hafter Hl); lia|lia|done].
    + intros [? Hn]. destruct (decide (c < Z.max s us)); [left; lia|right].
      split; [|tauto]. split; [|lia]. destruct (decide (c ≤ e)); [|lia]. exfalso. apply Hn. left. lia.
Qed.
(** What [complement_ranges] guarantees. *)
Lemma complement_ranges_spec l :
  Forall scalar_range (complement_ranges l)
  ∧ ∀ c, covers (complement_ranges l) c ↔ is_scalar c ∧ ¬ covers l c.
Proof.
  destruct (normalize_ranges_spec l) as (Hs & Hso & Hcov). unfold complement_ranges. simpl.
  destruct (complement_in_spec 0 0xD7FF 0 (normalize_ranges l)) as [H1 H2];
    [lia|lia|unfold is_scalar; lia|done|done|apply Forall_true; lia|].
  destruct (complement_in_spec 0xE000 0x10FFFF 0xE000 (normalize_ranges l)) as [H3 H4];
    [lia|lia|unfold is_scalar; lia|done|done|apply Forall_true; lia|].
  split; [by rewrite !Forall_app|]. intros c. rewrite !covers_app, covers_nil, H2, H4, Hcov.
  unfold is_scalar. tauto.
Qed.
End RangeFacts.

(** ** Token languages *)

Module TokenFacts.
Import Ranges RangeFacts Tokens.

(** The chars a token takes, of those that are scalar values. *)
Definition takes (d : Z) (t : GlobToken) (c : Z) : Prop :=
  match t with
  | Literal v => c = v
  | AnyChar => True
  | CharacterClass ranges negated => if negated then ¬ covers ranges c else covers ranges c
  | Star crosses => crosses = true ∨ c ≠ d
  end.
#[global] Instance covers_dec l c : Decision (covers l c).
Proof. unfold covers. apply _. Defined.
#[global] Instance takes_dec d t c : Decision (takes d t c).
Proof. destruct t as [| |? []|]; simpl; apply _. Defined.

(** The language of a token list: a star takes any number of its chars, every
    other token one. *)
Inductive tokens_match (d : Z) : list GlobToken → list Z → Prop :=
| tokens_nil : tokens_match d [] []
| tokens_one t ts c s :
    is_star t = false → takes d t c → tokens_match d ts s → tokens_match d (t :: ts) (c :: s)
| tokens_skip x ts s : tokens_match d ts s → tokens_match d (Star x :: ts) s
| tokens_more x ts c s :
    takes d (Star x) c → tokens_match d (Star x :: ts) s → tokens_match d (Star x :: ts) (c :: s).

(** A [Literal] holds a [char]. *)
Definition token_wf (t : GlobToken) : Prop :=
  match t with Literal v => is_scalar v | _ => True end.

Lemma covers_filter l c : covers (List.filter (λ r, r.1 <=? r.2) l) c ↔ covers l c.
Proof.
  induction l as [|[a b] l IH]; simpl; [done|]. rewrite covers_cons, <- IH. unfold in_range. simpl.
  destruct (Z.leb_spec a b); [by rewrite covers_cons|]. split; [by right|].
  intros [?|?]; [lia|done].
Qed.

Lemma token_ranges_spec d t :
  token_wf t →
  Forall scalar_range (token_character_ranges t d)
  ∧ ∀ c, covers (token_character_ranges t d) c ↔ is_scalar c ∧ takes d t c.
Proof.
  assert (Forall scalar_range unicode_scalar_ranges) as Hu.
  { apply Forall_cons_2; [apply scalar_range_pair; lia|].
    apply Forall_cons_2; [apply scalar_range_pair; lia|constructor]. }
  intros Hw. destruct t as [v| |ranges negated|crosses]; simpl in Hw |- *.
  - split.
    + constructor; [|constructor]. split; [done|]. intros c [? ?]; simpl in *. by replace c with v by lia.
    + intros c. rewrite covers_cons, covers_nil. unfold in_range; simpl. split; [|intros [_ ->]; lia].
      intros [?|[]]. assert (c = v) as -> by lia. done.
  - split; [done|]. intros c. rewrite universe_covers. tauto.
  - destruct (normalize_ranges_spec (List.filter (λ r, r.1 <=? r.2) ranges)) as (Hs & _ & Hc).
    setoid_rewrite covers_filter in Hc. destruct negated; [|done].
    destruct (complement_ranges_spec (normalize_ranges (List.filter (λ r, r.1 <=? r.2) ranges)))
      as [Hs' Hc']. split; [done|]. intros c. rewrite Hc', Hc. tauto.
  - destruct crosses.
    + split; [done|]. intros c. rewrite universe_covers. tauto.
    + destruct (complement_ranges_spec [(d, d)]) as [Hs Hc]. split; [done|]. intros c.
      rewrite Hc, covers_cons, covers_nil. unfold in_range; simpl. split; intros [? ?]; (split; [done|]).
      * right. intros ->. lia.
      * destruct H0 as [|Hn]; [done|]. intros [?|[]]. apply Hn. lia.
Qed.

(** Two tokens share a character exactly when some scalar value suits both. *)
Lemma share_character_spec d l r :
  token_wf l → token_wf r →
  tokens_share_character l r d = true ↔ ∃ c, is_scalar c ∧ takes d l c ∧ takes d r c.
Proof.
  intros Hl Hr. destruct (token_ranges_spec d l Hl) as [Hls Hlc].
  destruct (token_ranges_spec d r Hr) as [Hrs Hrc].
  unfold tokens_share_character. rewrite existsb_elem. setoid_rewrite existsb_elem. split.
  - intros (a & Ha & b & Hb & Hab). rewrite list.Forall_forall in Hls, Hrs.
    destruct (Hls a Ha) as [Ha1 Ha2], (Hrs b Hb) as [Hb1 Hb2].
    assert (in_range (Z.max a.1 b.1) a ∧ in_range (Z.max a.1 b.1) b) as [Hia Hib]
      by (unfold in_range; lia).
    exists (Z.max a.1 b.1). split; [by apply Ha2|]. split.
    + apply Hlc, list.Exists_exists. eauto.
    + apply Hrc, list.Exists_exists. eauto.
  - intros (c & Hc & Htl & Htr).
    pose proof (proj2 (Hlc c) (conj Hc Htl)) as (a & Ha & Hia)%list.Exists_exists.
    pose proof (proj2 (Hrc c) (conj Hc Htr)) as (b & Hb & Hib)%list.Exists_exists.
    exists a. split; [done|]. exists b. split; [done|]. unfold in_range in *. lia.
Qed.
Section product.
Context (d : Z) (l r : list GlobToken).
Hypothesis wf_l : Forall token_wf l.
Hypothesis wf_r : Forall token_wf r.

(** The position after a token has taken a char. *)
Definition after (t : GlobToken) (i : nat) : nat := if is_star t then i else S i.

Lemma match_consume ts i t c s :
  ts !! i = Some t → takes d t c →
  tokens_match d (drop (after t i) ts) s → tokens_match d (drop i ts) (c :: s).
Proof.
  intros Hi Ht Hm. unfold after in Hm. rewrite (drop_S _ _ _ Hi). destruct (is_star t) eqn:E.
  - destruct t; try done. apply tokens_more; [done|]. by rewrite <- (drop_S _ _ _ Hi).
  - by apply tokens_one.
Qed.

Lemma skip_elem (o : option GlobToken) (a st : nat * nat) :
  st ∈ match o with Some (Star _) => [a] | _ => [] end ↔ ∃ x, o = Some (Star x) ∧ st = a.
Proof.
  split.
  - destruct o as [[]|]; intros H; try by apply not_elem_of_nil in H.
    apply list_elem_of_singleton in H as ->. eauto.
  - intros (x & -> & ->). by constructor.
Qed.

Lemma product_step_elem i j st :
  st ∈ product_step l r d (i, j) ↔
    (∃ x, l !! i = Some (Star x) ∧ st = (S i, j))
    ∨ (∃ x, r !! j = Some (Star x) ∧ st = (i, S j))
    ∨ (∃ t u, l !! i = Some t ∧ r !! j = Some u ∧ tokens_share_character t u d = true
              ∧ st = (after t i, after u j)).
Proof.
  unfold product_step, after. rewrite !elem_of_app, !skip_elem.
  do 2 apply or_iff_compat_l. split.
  - destruct (l !! i) as [t|], (r !! j) as [u|]; intros H; try by apply not_elem_of_nil in H.
    destruct (tokens_share_character t u d) eqn:E; [|by apply not_elem_of_nil in H].
    apply list_elem_of_singleton in H as ->. by exists t, u.
  - intros (t & u & -> & -> & -> & ->). by constructor.
Qed.

Lemma product_sound i j :
  reaches (product_step l r d) (product_accept l r) (i, j) →
  ∃ s, Forall is_scalar s ∧ tokens_match d (drop i l) s ∧ tokens_match d (drop j r) s.
Proof using wf_l wf_r.
  intros (st & Hrtc & Hacc). remember (i, j) as s0 eqn:E. revert i j E.
  induction Hrtc as [s0|s0 [i' j'] s2 Hstep _ IH]; intros i j ->.
  - unfold product_accept in Hacc; simpl in Hacc.
    apply andb_true_iff in Hacc as [->%Nat.eqb_eq ->%Nat.eqb_eq].
    exists []. rewrite !drop_all. by repeat constructor.
  - destruct (IH Hacc i' j' eq_refl) as (s & Hs & Hl & Hr).
    apply product_step_elem in Hstep
      as [(x & Hi & [= -> ->])|[(x & Hj & [= -> ->])|(t & u & Hi & Hj & Hsh & [= -> ->])]].
    + exists s. split_and!; [done| |done]. rewrite (drop_S _ _ _ Hi). by apply tokens_skip.
    + exists s. split_and!; [done|done|]. rewrite (drop_S _ _ _ Hj). by apply tokens_skip.
    + apply share_character_spec in Hsh as (c & Hc & Ht & Hu);
        [|exact (Forall_lookup_1 _ _ _ _ wf_l Hi)|exact (Forall_lookup_1 _ _ _ _ wf_r Hj)].
      exists (c :: s). split_and!; [by constructor|by eapply match_consume..].
Qed.

(** A match of the tokens from [i] on: they are used up, or the first one is a
    star that takes nothing more, or the first one takes the first char. *)
Lemma match_cases ts i s :
  (i ≤ length ts)%nat → tokens_match d (drop i ts) s →
  (i = length ts ∧ s = [])
  ∨ (∃ x, ts !! i = Some (Star x) ∧ tokens_match d (drop (S i) ts) s)
  ∨ (∃ t c s', ts !! i = Some t ∧ s = c :: s' ∧ takes d t c ∧ (after t i ≤ length ts)%nat
               ∧ tokens_match d (drop (after t i) ts) s').
Proof.
  intros Hi Hm. remember (drop i ts) as ps eqn:E. symmetry in E. unfold after.
  destruct Hm as [|t ps c s Hst Ht Hm|x ps s Hm|x ps c s Ht Hm].
  - left. split; [by apply drop_nil_length|done].
  - apply drop_cons_lookup in E as (Hl & <- & ?). right; right.
    exists t, c, s. by rewrite Hst.
  - apply drop_cons_lookup in E as (Hl & <- & ?). right; left. eauto.
  - pose proof E as E'. apply drop_cons_lookup in E as (Hl & _ & ?). right; right.
    exists (Star x), c, s. simpl. by rewrite E'.
Qed.

Lemma product_complete n i j s :
  (length l - i + (length r - j) + length s ≤ n)%nat →
  (i ≤ length l)%nat → (j ≤ length r)%nat → Forall is_scalar s →
  tokens_match d (drop i l) s → tokens_match d (drop j r) s →
  reaches (product_step l r d) (product_accept l r) (i, j).
Proof using wf_l wf_r.
  revert i j s. induction n as [n IH] using lt_wf_ind. intros i j s Hn Hi Hj Hs Hl Hr.
  apply reaches_step.
  destruct (match_cases l i s Hi Hl) as [[-> ->]|[(x & Hx & Hl')|(t & c & s' & Ht & -> & Htc & Hi' & Hl')]].
  - destruct (match_cases r j [] Hj Hr) as [[-> _]|[(x & Hx & Hr')|(? & ? & ? & ? & ? & _)]]; [| |done].
    + left. unfold product_accept. simpl. by rewrite !Nat.eqb_refl.
    + right. pose proof (lookup_lt_Some _ _ _ Hx). exists (length l, S j).
      split; [apply product_step_elem; eauto|]. eapply (IH (n - 1)%nat); eauto; lia.
  - right. pose proof (lookup_lt_Some _ _ _ Hx). exists (S i, j).
    split; [apply product_step_elem; eauto|]. eapply (IH (n - 1)%nat); eauto; lia.
  - destruct (match_cases r j (c :: s') Hj Hr)
      as [[_ ?]|[(x & Hx & Hr')|(u & ? & ? & Hu & [= <- <-] & Huc & Hj' & Hr')]]; [done| |].
    + right. pose proof (lookup_lt_Some _ _ _ Hx). exists (i, S j).
      split; [apply product_step_elem; eauto|]. eapply (IH (n - 1)%nat); eauto; lia.
    + right. inversion_clear Hs as [|? ? Hc Hs']. exists (after t i, after u j). split.
      * apply product_step_elem. right; right. exists t, u. split_and!; [done..| |done].
        apply share_character_spec;
          [exact (Forall_lookup_1 _ _ _ _ wf_l Ht)|exact (Forall_lookup_1 _ _ _ _ wf_r Hu)|]. eauto.
      * simpl in Hn. eapply (IH (n - 1)%nat); eauto; unfold after; repeat case_match; lia.
Qed.

(** The search ends within its rounds and decides whether some string is in
    both languages. *)
Lemma token_overlap_spec :
  token_languages_overlap l r d = true
  ↔ ∃ s, Forall is_scalar s ∧ tokens_match d l s ∧ tokens_match d r s.
Proof using wf_l wf_r.
  unfold token_languages_overlap.
  destruct (search_decides (product_step l r d) (product_accept l r) HostPattern.push_queue
    push_queue_perm (grid (length l) (length r)) 3)
    with (fuel := S (HostPattern.rounds (length l) (length r))) (start := (0, 0)%nat)
    as (b & -> & Hb).
  - intros [i j] [i' j'] Hg%elem_of_grid Hs. apply elem_of_grid.
    apply product_step_elem in Hs as [(x & Hi & [= -> ->])|[(x & Hj & [= -> ->])|
      (t & u & Hi & Hj & _ & [= -> ->])]];
      repeat match goal with H : _ !! _ = Some _ |- _ => apply lookup_lt_Some in H end;
      unfold after; repeat case_match; lia.
  - intros [i j]. unfold product_step. rewrite !length_app. repeat case_match; simpl; lia.
  - apply elem_of_grid. lia.
  - pose proof (size_grid (length l) (length r)). unfold HostPattern.rounds. lia.
  - simpl. rewrite Hb. split; [apply (product_sound 0 0)|]. intros (s & Hs & Hl & Hr).
    eapply (product_complete _ 0 0 s (le_n _)); [lia|lia|done..].
Qed.
End product.

(** *** The tokenisers *)

(** The chars of a Rust string are scalar values, and the ASCII ones are bytes
    of it: no longer sequence encodes them. *)
Record rust_str (s : bytes) : Prop := {
  str_scalar : Forall is_scalar (chars s);
  str_ascii c : c ∈ chars s → c < 128 → c ∈ s;
}.

Lemma delimited_wf n cs : Forall is_scalar cs → Forall token_wf (delimited_tokens n cs).
Proof.
  assert (∀ n, Forall token_wf (flush_stars n)) as Hf by (intros [|]; repeat constructor).
  intros Hcs. revert n. induction Hcs as [|c cs Hc _ IH]; intros n; simpl; [done|].
  destruct (c =? 42); [done|]. apply Forall_app. split; [done|]. by constructor.
Qed.

Lemma star_run_spec cs n rest :
  star_run cs = (n, rest) → cs = replicate n 42 ++ rest ∧ head rest ≠ Some 42.
Proof.
  revert n. induction cs as [|c cs IH]; simpl; intros n; [by intros [= <- <-]|].
  destruct (Z.eqb_spec c 42) as [->|Hc].
  - destruct (star_run cs) as [m rest']. intros [= <- <-].
    destruct (IH m eq_refl) as [-> ?]. done.
  - intros [= <- <-]. split; [done|]. simpl. congruence.
Qed.

Lemma position_spec c cs n :
  position c cs = Some n →
  cs = take n cs ++ c :: drop (S n) cs ∧ (c ∉ take n cs) ∧ length (take n cs) = n.
Proof.
  revert n. induction cs as [|x cs IH]; simpl; intros n; [done|].
  destruct (Z.eqb_spec x c) as [->|Hx].
  - intros [= <-]. simpl. rewrite drop_0. split_and!; [done|apply not_elem_of_nil|done].
  - destruct (position c cs) as [m|]; [|done]. intros [= <-]. simpl.
    destruct (IH m eq_refl) as (Hcs & Hn & Hlen). split_and!; [by f_equal| |by f_equal].
    rewrite elem_of_cons. intros [->|?]; done.
Qed.

(** The shapes of one round: the token, the chars it is read from, the char
    before the rest, and the rest. *)
Inductive round (prev : option Z) : GlobToken → list Z → Z → list Z → Prop :=
| round_any rest : round prev AnyChar [63] 63 rest
| round_star rest : head rest ≠ Some 42 → round prev (Star true) [42] 42 rest
| round_stars : prev = None ∨ prev = Some 47 → round prev (Star true) [42; 42] 42 []
| round_stars_slash rest :
    prev = None ∨ prev = Some 47 → round prev (Star true) [42; 42; 47] 47 rest
| round_class negated content rest :
    content ≠ [] → 93 ∉ content → (negated = false → head content ≠ Some 33) →
    round prev (CharacterClass (parse_character_ranges content) negated)
      (91 :: (if negated then [33] else []) ++ content ++ [93]) 93 rest
| round_literal c rest :
    c ≠ 63 → c ≠ 42 → c ≠ 91 → round prev (Literal c) [c] c rest.

Inductive reads : option Z → list Z → list GlobToken → Prop :=
| reads_nil prev : reads prev [] []
| reads_round prev t used p rest ts :
    round prev t used p rest → reads (Some p) rest ts → reads prev (used ++ rest) (t :: ts).

Lemma fmap_cons_Some {A} (x : A) o l :
  (x ::.) <$> o = Some l → ∃ l', o = Some l' ∧ l = x :: l'.
Proof. destruct o as [l'|]; [|done]. intros [= <-]. eauto. Qed.

Lemma starts_component prev :
  negb match prev with None => true | Some p => p =? 47 end = false →
  prev = None ∨ prev = Some 47.
Proof. destruct prev as [p|]; [right; f_equal; lia|by left]. Qed.

(** The opening of a class: whether it is negated, and its content. *)
Definition class_negated (rest : list Z) : bool :=
  match rest with c :: _ => c =? 33 | [] => false end.
Definition class_content (rest : list Z) : list Z :=
  if class_negated rest then tail rest else rest.

Lemma class_round prev rest n :
  position 93 (class_content rest) = Some (S n) →
  let content := take (S n) (class_content rest) in
  let used := 91 :: (if class_negated rest then [33] else []) ++ content ++ [93] in
  91 :: rest = used ++ drop (S (S n)) (class_content rest)
  ∧ round prev (CharacterClass (parse_character_ranges content) (class_negated rest)) used 93
      (drop (S (S n)) (class_content rest)).
Proof.
  intros (Hc & Hn & Hlen)%position_spec. cbn zeta. split.
  - simpl. f_equal. rewrite <- !app_assoc. simpl. unfold class_content in *.
    destruct (class_negated rest) eqn:E; [|done]. destruct rest as [|c rest]; [done|].
    simpl in E. assert (c = 33) as -> by lia. by rewrite <- Hc.
  - apply round_class; [intros E; by rewrite E in Hlen|done|].
    unfold class_content. intros Hneg. rewrite Hneg. destruct rest as [|c rest]; [done|].
    intros [= ->]. done.
Qed.

Lemma runtime_tokens_reads fuel prev cs ts :
  runtime_tokens fuel prev cs = Some ts → reads prev cs ts.
Proof.
  revert prev cs ts. induction fuel as [|fuel IH]; intros prev [|c rest] ts; cbn [runtime_tokens];
    [by intros [= <-]; constructor|done|by intros [= <-]; constructor|].
  destruct (Z.eqb_spec c 63) as [->|H63].
  { intros (ts' & Hts & ->)%fmap_cons_Some. eapply (reads_round _ _ [63]); eauto using round. }
  destruct (Z.eqb_spec c 42) as [->|H42].
  - destruct (star_run rest) as [n rest'] eqn:Hrun. apply star_run_spec in Hrun as [-> Hhd].
    destruct n as [|[|n]]; simpl.
    + intros (ts' & Hts & ->)%fmap_cons_Some. eapply (reads_round _ _ [42]); eauto using round.
    + destruct (negb _ || negb _) eqn:Hc; [done|]. apply orb_false_iff in Hc as [Hs He].
      apply starts_component in Hs. destruct rest' as [|a rest'].
      * intros (ts' & Hts & ->)%fmap_cons_Some.
        eapply (reads_round _ _ [42; 42] 42 []); eauto using round.
      * assert (a = 47) as -> by lia. intros (ts' & Hts & ->)%fmap_cons_Some.
        eapply (reads_round _ _ [42; 42; 47]); eauto using round.
    + done.
  - destruct (Z.eqb_spec c 91) as [->|H91].
    + destruct (position 93 _) as [[|n]|] eqn:Hp; [done| |done].
      intros (ts' & Hts & ->)%fmap_cons_Some.
      destruct (class_round prev _ _ Hp) as [-> Hr]. eapply reads_round; [exact Hr|]. eauto.
    + intros (ts' & Hts & ->)%fmap_cons_Some. eapply (reads_round _ _ [c]); eauto using round.
Qed.
Lemma star_run_app n rest : head rest ≠ Some 42 → star_run (replicate n 42 ++ rest) = (n, rest).
Proof.
  intros Hr. induction n as [|n IH]; simpl.
  - destruct rest as [|c rest]; [done|]. simpl. destruct (Z.eqb_spec c 42); [by subst|done].
  - by rewrite IH.
Qed.

Lemma position_app c content rest :
  c ∉ content → position c (content ++ c :: rest) = Some (length content).
Proof.
  induction content as [|x content IH]; simpl; intros Hn; [by rewrite Z.eqb_refl|].
  apply not_elem_of_cons in Hn as [Hx Hn]. destruct (Z.eqb_spec x c); [by subst|].
  by rewrite IH.
Qed.

Lemma runtime_tokens_class fuel prev rest :
  runtime_tokens (S fuel) prev (91 :: rest) =
    match position 93 (class_content rest) with
    | None | Some O => None
    | Some close =>
        (CharacterClass (parse_character_ranges (take close (class_content rest)))
           (class_negated rest) ::.)
        <$> runtime_tokens fuel (Some 93) (drop (S close) (class_content rest))
    end.
Proof. done. Qed.

(** One round of the loop on the chars of its shape. *)
Lemma runtime_tokens_round fuel prev t used p rest :
  round prev t used p rest →
  runtime_tokens (S fuel) prev (used ++ rest) = (t ::.) <$> runtime_tokens fuel (Some p) rest.
Proof.
  intros [rest'|rest' Hh|Hp|rest' Hp|negated content rest' Hne H93 Hneg|c rest' H1 H2 H3].
  - done.
  - pose proof (star_run_app 0 rest' Hh) as E. cbn [replicate app] in E.
    cbn [app runtime_tokens Z.eqb Pos.eqb]. by rewrite E.
  - destruct Hp as [-> | ->]; done.
  - by destruct Hp as [-> | ->].
  - assert (class_negated ((if negated then [33] else []) ++ content ++ 93 :: rest') = negated
            ∧ class_content ((if negated then [33] else []) ++ content ++ 93 :: rest')
              = content ++ 93 :: rest') as [E1 E2].
    { unfold class_content. destruct negated; [done|]. destruct content as [|c content]; [done|].
      specialize (Hneg eq_refl). simpl in *. destruct (Z.eqb_spec c 33); [by subst|done]. }
    rewrite <- app_comm_cons, <- !app_assoc. cbn [app].
    rewrite runtime_tokens_class, E1, E2, position_app by done.
    destruct (length content) as [|n] eqn:Hlen; [by apply length_zero_iff_nil in Hlen|].
    rewrite <- Hlen, take_app_length. rewrite drop_app_ge by lia.
    by replace (S (length content) - length content)%nat with 1%nat by lia.
  - cbn [app runtime_tokens]. by rewrite !(proj2 (Z.eqb_neq _ _)) by done.
Qed.
Lemma round_used prev t used p rest : round prev t used p rest → used ≠ [].
Proof. by destruct 1. Qed.

Lemma reads_runtime_tokens fuel prev cs ts :
  reads prev cs ts → (length cs ≤ fuel)%nat → runtime_tokens fuel prev cs = Some ts.
Proof.
  intros Hr. revert fuel. induction Hr as [prev|prev t used p rest ts Hround _ IH]; intros fuel Hf.
  { by destruct fuel. }
  pose proof (round_used _ _ _ _ _ Hround). rewrite length_app in Hf.
  destruct used as [|c used]; [done|]. simpl in Hf. destruct fuel as [|fuel]; [lia|].
  rewrite (runtime_tokens_round _ _ _ _ _ _ Hround), IH by lia. done.
Qed.

(** The tokeniser accepts exactly the patterns with a reading, which is unique:
    the fuel never runs out. *)
Lemma tokenize_reads pattern ts :
  tokenize_runtime_path_glob pattern = Some ts ↔ reads None (chars pattern) ts.
Proof.
  split; [apply runtime_tokens_reads|]. intros. by apply reads_runtime_tokens.
Qed.

Lemma reads_wf prev cs ts : reads prev cs ts → Forall is_scalar cs → Forall token_wf ts.
Proof.
  induction 1 as [|prev t used p rest ts Hr _ IH]; [constructor|].
  intros [Hu Hrest]%Forall_app. constructor; [|by apply IH].
  destruct Hr; simpl; try done. by inversion Hu.
Qed.

Lemma reads_literals prev cs suffix ts :
  Forall (λ c, is_glob_meta c = false) cs →
  reads (match list.last cs with Some c => Some c | None => prev end) suffix ts →
  reads prev (cs ++ suffix) (map Literal cs ++ ts).
Proof.
  intros Hc. revert prev. induction Hc as [|c cs Hc _ IH]; intros prev Hs; [done|].
  apply (reads_round prev (Literal c) [c] c).
  - unfold is_glob_meta in Hc. constructor; lia.
  - apply IH. rewrite last_cons in Hs. by destruct (list.last cs).
Qed.
(** *** Rank and language *)

Definition nonstars (cs : list Z) : nat := length (List.filter (λ c, negb (c =? 42)) cs).

Lemma nonstars_app a b : nonstars (a ++ b) = (nonstars a + nonstars b)%nat.
Proof. unfold nonstars. by rewrite List.filter_app, length_app. Qed.
Lemma nonstars_all cs : 42 ∉ cs → nonstars cs = length cs.
Proof.
  unfold nonstars. induction cs as [|c cs IH]; simpl; [done|].
  intros [Hc Hcs]%not_elem_of_cons. destruct (Z.eqb_spec c 42); [by subst|].
  simpl. by rewrite IH.
Qed.

Lemma parse_ranges_stars cs c :
  Forall (λ x, x = 42) cs → covers (parse_character_ranges cs) c → c = 42.
Proof.
  induction cs as [|a cs IH]; intros Hcs; [by rewrite covers_nil|].
  inversion_clear Hcs as [|? ? -> Hcs'].
  enough (parse_character_ranges (42 :: cs) = (42, 42) :: parse_character_ranges cs) as ->.
  { rewrite covers_cons. intros [[? ?]|?]; [simpl in *; lia|by apply IH]. }
  destruct cs as [|b [|b' cs]]; [done..|]. simpl. by inversion_clear Hcs' as [|? ? -> _].
Qed.

Lemma nonstars_0 cs : nonstars cs = 0%nat → Forall (λ x, x = 42) cs.
Proof.
  unfold nonstars. induction cs as [|c cs IH]; simpl; [constructor|].
  destruct (Z.eqb_spec c 42); simpl; [|done]. intros. constructor; auto.
Qed.

(** A token other than a star that takes a char other than a star costs one
    char of the pattern, or, for a class, at least three. *)
Lemma round_cost d prev t used p rest c :
  round prev t used p rest → is_star t = false → takes d t c → c ≠ 42 →
  nonstars used = 1%nat ∨ (3 ≤ nonstars used)%nat.
Proof.
  intros Hr Hs Ht Hc. destruct Hr as [| | | |negated content rest' _ _ _|]; try done; [by left| |].
  - right. unfold nonstars. simpl. fold (nonstars ((if negated then [33] else []) ++ content ++ [93])).
    rewrite !nonstars_app. destruct negated; unfold nonstars at 1 3; simpl; [lia|].
    destruct (nonstars content) eqn:E; [|lia]. apply nonstars_0 in E.
    by apply (parse_ranges_stars _ c) in E.
  - left. unfold nonstars. simpl. by rewrite (proj2 (Z.eqb_neq _ _)).
Qed.

Lemma rank_without_star d prev cs ts s :
  reads prev cs ts → Forall (λ t, is_star t = false) ts → tokens_match d ts s → 42 ∉ s →
  nonstars cs = length s ∨ (length s + 2 ≤ nonstars cs)%nat.
Proof.
  intros Hr. revert s. induction Hr as [|prev t used p rest ts Hround _ IH]; intros s Hns Hm H42.
  { inversion Hm. by left. }
  inversion_clear Hns as [|? ? Ht Hns']. inversion Hm as [|? ? c s' _ Hc Hm'| |]; subst; [|done..].
  apply not_elem_of_cons in H42 as [Hc42 H42].
  destruct (IH s' Hns' Hm' H42); rewrite nonstars_app; simpl;
    destruct (round_cost d _ _ _ _ _ c Hround Ht Hc (not_eq_sym Hc42)); lia.
Qed.

(** Where a pattern of the path reading has a star, anything fits in. *)
Lemma star_anything d ts s :
  Forall (λ t, t ≠ Star false) ts → tokens_match d ts s → ¬ Forall (λ t, is_star t = false) ts →
  ∃ a b, s = a ++ b ∧ ∀ m, tokens_match d ts (a ++ m ++ b).
Proof.
  intros Hx Hm Hs. induction Hm as [|t ts c s Ht Hc Hm IH|x ts s Hm IH|x ts c s Hc Hm IH].
  - by destruct Hs.
  - inversion_clear Hx. destruct IH as (a & b & -> & IH); [done| |].
    { intros Hf. apply Hs. by constructor. }
    exists (c :: a), b. split; [done|]. intros m. by apply tokens_one.
  - exists [], s. split; [done|]. intros m. simpl.
    assert (x = true) as -> by (inversion_clear Hx; by destruct x).
    induction m as [|c m IHm]; [by apply tokens_skip|]. by apply tokens_more; [left|].
  - destruct IH as (a & b & -> & IH); [done|done|].
    exists (c :: a), b. split; [done|]. intros m. by apply tokens_more.
Qed.

Lemma reads_crosses prev cs ts : reads prev cs ts → Forall (λ t, t ≠ Star false) ts.
Proof.
  induction 1 as [|prev t used p rest ts Hr _ IH]; constructor; [by destruct Hr|done].
Qed.

Lemma literals_match d cs ts s :
  tokens_match d ts s → tokens_match d (map Literal cs ++ ts) (cs ++ s).
Proof. intros Hm. induction cs as [|c cs IH]; [done|]. by apply tokens_one. Qed.

(** *** Chars *)

Lemma decode_app a b :
  (decode b).1 = [] → decode (a ++ b) = ((decode a).1, (decode a).2 ++ (decode b).2).
Proof.
  intros Hb. induction a as [|x a IH]; simpl.
  - rewrite (surjective_pairing (decode b)). by rewrite Hb.
  - rewrite IH. destruct (decode a) as [k cs]. simpl. by destruct (is_char_start x).
Qed.

(** An ASCII char is a char of its own wherever it stands. *)
Lemma chars_app_ascii a c b :
  c < 128 → chars (a ++ c :: b) = chars a ++ c :: chars b.
Proof.
  intros Hc. assert (decode (c :: b) = ([], c :: chars b)) as Hd.
  { unfold chars. simpl. destruct (decode b) as [k cs]. unfold is_char_start, code_point.
    by replace (c <? 128) with true by lia. }
  unfold chars at 1. rewrite decode_app; by rewrite Hd.
Qed.

Lemma chars_subtree prefix : chars (prefix ++ lit "/**") = chars prefix ++ [47; 42; 42].
Proof. change (lit "/**") with ([47] ++ [42; 42]). simpl. by rewrite chars_app_ascii. Qed.

(** A pattern [prefix/**] whose prefix is plain. *)
Definition subtree_tokens (prefix : bytes) : list GlobToken :=
  map Literal (chars prefix) ++ [Literal 47; Star true].

Definition plain (s : bytes) : Prop := Forall (λ c, is_glob_meta c = false) (chars s).

Lemma tokenize_subtree prefix :
  plain prefix → tokenize_runtime_path_glob (prefix ++ lit "/**") = Some (subtree_tokens prefix).
Proof.
  intros Hp. apply tokenize_reads. rewrite chars_subtree.
  apply reads_literals; [done|]. apply (reads_round _ (Literal 47) [47] 47 [42; 42]).
  - by constructor.
  - apply (reads_round _ (Star true) [42; 42] 42 []); constructor. by right.
Qed.

Lemma tokenize_plain s : plain s → tokenize_runtime_path_glob s = Some (map Literal (chars s)).
Proof.
  intros Hp. apply tokenize_reads. rewrite <- (app_nil_r (map _ _)), <- (app_nil_r (chars s)) at 1.
  apply reads_literals; [done|constructor].
Qed.

Lemma star_all d s : tokens_match d [Star true] s.
Proof.
  induction s as [|c s IH]; [apply tokens_skip, tokens_nil|]. by apply tokens_more; [left|].
Qed.

Lemma subtree_match prefix rest :
  tokens_match 47 (subtree_tokens prefix) (chars (prefix ++ 47 :: rest)).
Proof.
  rewrite chars_app_ascii by done. apply literals_match, tokens_one; [done..|]. apply star_all.
Qed.
End TokenFacts.

(** ** The check *)

Module CheckFacts.
Import Ranges RangeFacts Tokens TokenFacts Ambiguity Selection.

(** The metadata of a connection, and of a request pipeline; a field that only
    one protocol reads is [None] for the others. *)
Definition connection_metadata (e : NetworkEndpoint) : bool * Z * list bytes :=
  (is_explicit_tcp (Endpoint.protocol e), normalized_tls (Endpoint.tls e),
   normalized_strings (Endpoint.allowed_ips e)).

Record pipeline := mk_pipeline {
  pl_protocol : bytes;
  pl_enforcement : Z;
  pl_allow_encoded_slash : bool;
  pl_websocket_rewrite : bool;
  pl_body_rewrite : bool;
  pl_websocket_graphql : option bool;
  pl_signing : bytes * bytes * bytes;
  pl_provider : bytes;
  pl_graphql_limit : option Z;
  pl_json_rpc_limit : option Z;
  pl_strict_tool_names : option bool;
}.
#[global] Instance pipeline_eq_dec : EqDecision pipeline.
Proof. solve_decision. Defined.

Definition speaks (e : NetworkEndpoint) (p : bytes) : bool :=
  eq_ignore_ascii_case (Endpoint.protocol e) p.

Definition pipeline_metadata (e : NetworkEndpoint) : pipeline := {|
  pl_protocol := normalized_request_protocol (Endpoint.protocol e);
  pl_enforcement := normalized_enforcement (Endpoint.enforcement e);
  pl_allow_encoded_slash := Endpoint.allow_encoded_slash e;
  pl_websocket_rewrite := Endpoint.websocket_credential_rewrite e;
  pl_body_rewrite := Endpoint.request_body_credential_rewrite e;
  pl_websocket_graphql :=
    if speaks e (lit "websocket") then Some (websocket_graphql_policy e) else None;
  pl_signing := (Endpoint.credential_signing e, Endpoint.signing_service e,
                 Endpoint.signing_region e);
  pl_provider := default [] (Endpoint.credential_binding e);
  pl_graphql_limit :=
    if speaks e (lit "graphql")
    then Some (normalized_body_limit (Endpoint.graphql_max_body_bytes e)) else None;
  pl_json_rpc_limit :=
    if is_json_rpc_family (Endpoint.protocol e)
    then Some (normalized_body_limit (Endpoint.json_rpc_max_body_bytes e)) else None;
  pl_strict_tool_names :=
    if speaks e (lit "mcp") then Some (normalized_mcp_strict_tool_names e) else None;
|}.

Lemma push_conflict_nil c field l r : push_conflict c field l r = [] ↔ c = [] ∧ l = r.
Proof.
  unfold push_conflict. destruct (decide (l = r)); [tauto|].
  split; [by destruct c|]. intros [_ ?]. done.
Qed.
Lemma if_push_conflict_nil (b : bool) c field l r :
  (if b then push_conflict c field l r else c) = [] ↔ c = [] ∧ (b = true → l = r).
Proof. destruct b; [rewrite push_conflict_nil; tauto|]. split; [done|by intros [? _]]. Qed.

Lemma connection_conflicts_nil l r :
  connection_conflicts l r = [] ↔ connection_metadata l = connection_metadata r.
Proof.
  unfold connection_conflicts, connection_metadata. cbn zeta. rewrite !push_conflict_nil. split.
  - intros [[[_ [= ->]] [= ->]] [= ->]]. done.
  - intros [= -> -> ->]. done.
Qed.

(** Endpoints of the same request protocol speak the same protocols, [tcp]
    and none apart. *)
Lemma same_protocol l r p :
  normalized_request_protocol (Endpoint.protocol l)
    = normalized_request_protocol (Endpoint.protocol r) →
  to_ascii_lowercase p = p → p ≠ [] → p ≠ lit "tcp" → speaks l p = speaks r p.
Proof.
  unfold normalized_request_protocol, speaks, eq_ignore_ascii_case. intros Hn Hp Hne Htcp.
  rewrite Hp. change (to_ascii_lowercase (lit "tcp")) with (lit "tcp") in Hn.
  apply bool_decide_ext. revert Hn.
  generalize (to_ascii_lowercase (Endpoint.protocol l)), (to_ascii_lowercase (Endpoint.protocol r)).
  intros a b. repeat case_bool_decide; intros Hn; split; intros ->; congruence.
Qed.
Lemma same_family l r :
  normalized_request_protocol (Endpoint.protocol l)
    = normalized_request_protocol (Endpoint.protocol r) →
  is_json_rpc_family (Endpoint.protocol l) = is_json_rpc_family (Endpoint.protocol r)
  ∧ (is_json_rpc_family (Endpoint.protocol l) = true →
     eq_ignore_ascii_case (Endpoint.protocol l) (Endpoint.protocol r) = true).
Proof.
  intros Hn. pose proof (same_protocol l r (lit "json-rpc") Hn eq_refl ltac:(done) ltac:(done)) as H1.
  pose proof (same_protocol l r (lit "mcp") Hn eq_refl ltac:(done) ltac:(done)) as H2.
  unfold is_json_rpc_family, speaks in *. split; [by rewrite H1, H2|].
  intros [Hl|Hl]%orb_true_iff; [rewrite Hl in H1; symmetry in H1|rewrite Hl in H2; symmetry in H2];
    rewrite eq_ignore_case_true in *; congruence.
Qed.

Lemma if_Some_eq {A} (b : bool) (x y : A) :
  (if b then Some x else None) = (if b then Some y else None) ↔ (b = true → x = y).
Proof. destruct b; split; intros H; try done; [by injection H|by rewrite H]. Qed.

Lemma request_pipeline_conflicts_nil l r :
  request_pipeline_conflicts l r = [] ↔ pipeline_metadata l = pipeline_metadata r.
Proof.
  unfold request_pipeline_conflicts. cbn zeta.
  repeat first [rewrite if_push_conflict_nil | rewrite push_conflict_nil]. split.
  - intros [[[[[[[[[[[[[_ Hp] He] Hs] Hw] Hb] Hwg] Hc] Hsv] Hr] Hcb] Hg] Hj] Hm].
    injection Hp as Hp. destruct (same_family l r Hp) as [Hf Hf'].
    assert (∀ p, to_ascii_lowercase p = p → p ≠ [] → p ≠ lit "tcp" → speaks l p = speaks r p)
      as Hsp by (intros; by apply same_protocol).
    unfold speaks in Hsp.
    unfold pipeline_metadata, speaks. rewrite <- Hf, <- !Hsp by done.
    rewrite <- !Hsp, andb_diag in * by done.
    f_equal; [congruence..|apply if_Some_eq| | |apply if_Some_eq|apply if_Some_eq|apply if_Some_eq];
      try congruence; intros E.
    + by injection (Hwg E).
    + by injection (Hg E).
    + rewrite E, Hf' in Hj by done. by injection (Hj eq_refl).
    + by injection (Hm E).
  - intros H. pose proof (f_equal pl_protocol H) as Hp. pose proof (f_equal pl_enforcement H) as He.
    pose proof (f_equal pl_allow_encoded_slash H) as Hs.
    pose proof (f_equal pl_websocket_rewrite H) as Hw. pose proof (f_equal pl_body_rewrite H) as Hb.
    pose proof (f_equal pl_websocket_graphql H) as Hwg. pose proof (f_equal pl_signing H) as Hc.
    pose proof (f_equal pl_provider H) as Hcb. pose proof (f_equal pl_graphql_limit H) as Hg.
    pose proof (f_equal pl_json_rpc_limit H) as Hj. pose proof (f_equal pl_strict_tool_names H) as Hm.
    unfold pipeline_metadata, speaks in *. cbn [pl_protocol pl_enforcement pl_allow_encoded_slash
      pl_websocket_rewrite pl_body_rewrite pl_websocket_graphql pl_signing pl_provider
      pl_graphql_limit pl_json_rpc_limit pl_strict_tool_names] in *.
    destruct (same_family l r Hp) as [Hf _]. rewrite <- Hf in Hj. clear H.
    split_and!; try congruence.
    + intros [El Er]%andb_true_iff. rewrite El, Er in Hwg. congruence.
    + intros [El Er]%andb_true_iff. rewrite El, Er in Hg. congruence.
    + intros [_ El]%andb_true_iff. rewrite El in Hj. congruence.
    + intros [El Er]%andb_true_iff. rewrite El, Er in Hm. congruence.
Qed.
(** *** Selectors that can meet *)

Lemma btree_set_elem {A} `{EqDecision A} cmp (x : A) l : x ∈ btree_set cmp l ↔ x ∈ l.
Proof. unfold btree_set. by rewrite dedup_elem, sort_by_elem. Qed.

Lemma effective_ports_elem e port : port ∈ effective_ports e ↔ 0 < port ∧ port ∈ rego_ports e.
Proof.
  unfold effective_ports, rego_ports. destruct (is_empty (Endpoint.ports e)); simpl.
  - destruct (Z.ltb_spec 0 (Endpoint.port e)); rewrite ?list_elem_of_singleton, ?elem_of_nil;
      [|tauto]. split; [by intros ->|tauto].
  - rewrite btree_set_elem, list_elem_of_In, filter_In, <- list_elem_of_In, Z.ltb_lt. tauto.
Qed.

Definition ports_meet (l r : NetworkEndpoint) : Prop :=
  ∃ port, 0 < port ∧ port ∈ rego_ports l ∧ port ∈ rego_ports r.

Lemma overlapping_ports_spec l r : overlapping_ports l r ≠ [] ↔ ports_meet l r.
Proof.
  unfold overlapping_ports, ports_meet. split.
  - destruct (List.filter _ _) as [|port ports] eqn:E; [done|]. intros _. exists port.
    assert (In port (port :: ports)) as Hin by (by left). rewrite <- E in Hin.
    apply filter_In in Hin as [Hl Hr%bool_decide_eq_true].
    apply list_elem_of_In, effective_ports_elem in Hl. apply effective_ports_elem in Hr. tauto.
  - intros (port & Hp & Hl & Hr) E. eapply filter_nil in E; [|by apply effective_ports_elem].
    apply bool_decide_eq_false in E. apply E. by apply effective_ports_elem.
Qed.

(** The chars of the names a host pattern stands for; an endpoint without a
    host takes every name. *)
Definition host_language (host : bytes) (s : list Z) : Prop :=
  host = [] ∨ tokens_match 46 (tokenize_delimited_glob (to_ascii_lowercase host)) s.
Definition hosts_meet (l r : bytes) : Prop :=
  l = [] ∨ r = [] ∨ ∃ s, Forall is_scalar s ∧ host_language l s ∧ host_language r s.

(** The chars of the paths a path pattern stands for as a glob; a pattern the
    tokeniser refuses is taken to stand for every path. *)
Definition path_language (p : bytes) (s : list Z) : Prop :=
  any_path p = true ∨ ∀ ts, tokenize_runtime_path_glob p = Some ts → tokens_match 47 ts s.
Definition unrestricted (p : bytes) : Prop :=
  any_path p = true ∨ tokenize_runtime_path_glob p = None.
Definition paths_meet (l r : bytes) : Prop :=
  unrestricted l ∨ unrestricted r
  ∨ ∃ s, Forall is_scalar s ∧ path_language l s ∧ path_language r s.

Lemma host_overlap_spec l r :
  rust_str (to_ascii_lowercase l) → rust_str (to_ascii_lowercase r) →
  Ambiguity.host_patterns_overlap l r = true ↔ hosts_meet l r.
Proof.
  intros Hl Hr. unfold Ambiguity.host_patterns_overlap, hosts_meet, host_language.
  destruct l as [|a l], r as [|b r]; [tauto..|]. cbn [is_empty orb].
  unfold glob_patterns_overlap.
  rewrite token_overlap_spec by (apply delimited_wf; by apply str_scalar). split.
  - intros (s & ? & ? & ?). right; right. exists s. tauto.
  - intros [?|[?|(s & ? & [?|?] & [?|?])]]; try done. by exists s.
Qed.

Lemma path_overlap_spec l r :
  rust_str l → rust_str r → path_patterns_overlap l r = true ↔ paths_meet l r.
Proof.
  intros Hl Hr. unfold path_patterns_overlap, paths_meet, path_language, unrestricted.
  destruct (any_path l); [tauto|]. destruct (any_path r); [tauto|]. cbn [orb].
  unfold runtime_path_patterns_overlap.
  destruct (tokenize_runtime_path_glob l) as [tl|] eqn:El; [|tauto].
  destruct (tokenize_runtime_path_glob r) as [tr|] eqn:Er; [|tauto].
  apply tokenize_reads in El, Er.
  rewrite token_overlap_spec by (eapply reads_wf; [done|by apply str_scalar]). split.
  - intros (s & ? & ? & ?). right; right. exists s. split_and!; [done|right..]; by intros ? [= <-].
  - intros [[|]|[[|]|(s & ? & [|H1] & [|H2])]]; try done. exists s. split_and!; [done|by apply H1|by apply H2].
Qed.

(** *** What is reported *)

(** Two endpoints that can serve the same request and disagree. *)
Definition conflicting (l r : NetworkEndpoint) : Prop :=
  ports_meet l r ∧ hosts_meet (Endpoint.host l) (Endpoint.host r)
  ∧ (connection_metadata l ≠ connection_metadata r
     ∨ endpoint_contributes_request_pipeline_metadata l = true
       ∧ endpoint_contributes_request_pipeline_metadata r = true
       ∧ paths_meet (Endpoint.path l) (Endpoint.path r)
       ∧ path_selector_specificity (Endpoint.path l) = path_selector_specificity (Endpoint.path r)
       ∧ pipeline_metadata l ≠ pipeline_metadata r).

(** The selectors of an endpoint are Rust strings. *)
Definition selectors_ok (e : NetworkEndpoint) : Prop :=
  rust_str (to_ascii_lowercase (Endpoint.host e)) ∧ rust_str (Endpoint.path e).

Lemma endpoint_ambiguity_spec l r :
  selectors_ok (ref_endpoint l) → selectors_ok (ref_endpoint r) →
  is_Some (endpoint_ambiguity l r) ↔ conflicting (ref_endpoint l) (ref_endpoint r).
Proof.
  intros [Hlh Hlp] [Hrh Hrp]. unfold endpoint_ambiguity, conflicting. cbn zeta.
  set (le := ref_endpoint l) in *. set (re := ref_endpoint r) in *.
  rewrite <- overlapping_ports_spec, <- (host_overlap_spec _ _ Hlh Hrh),
    <- (path_overlap_spec _ _ Hlp Hrp), <- connection_conflicts_nil,
    <- request_pipeline_conflicts_nil.
  rewrite <- is_empty_false. destruct (is_empty (overlapping_ports le re)); simpl.
  { split; [by intros []|by intros [? _]]. }
  destruct (Ambiguity.host_patterns_overlap _ _); simpl.
  2: { split; [by intros []|by intros (_ & ? & _)]. }
  set (g := endpoint_contributes_request_pipeline_metadata le && _ && _ && _).
  assert (g = true ↔ endpoint_contributes_request_pipeline_metadata le = true
       ∧ endpoint_contributes_request_pipeline_metadata re = true
       ∧ path_patterns_overlap (Endpoint.path le) (Endpoint.path re) = true
       ∧ path_selector_specificity (Endpoint.path le) = path_selector_specificity (Endpoint.path re))
    as Hg by (unfold g; rewrite !andb_true_iff, Nat.eqb_eq; tauto).
  destruct (is_empty (if g then _ else _)) eqn:E.
  - split; [by intros []|]. intros (_ & _ & Hd). exfalso. apply is_empty_true in E. destruct g.
    + apply app_eq_nil in E as [E1 E2]. destruct Hd as [?|(_ & _ & _ & _ & ?)]; done.
    + destruct Hd as [?|Hd]; [done|]. enough (false = true) by done. apply Hg. tauto.
  - split; [intros _|intros _; eauto]. split_and!; [done..|]. apply is_empty_false in E.
    destruct (decide (connection_metadata le = connection_metadata re)) as [Hc|Hc].
    + apply connection_conflicts_nil in Hc. rewrite Hc in E. right. destruct g; [|done]. tauto.
    + left. by rewrite connection_conflicts_nil.
Qed.
Lemma pairs_elem {A} (l : list A) x y :
  (x, y) ∈ pairs l ↔ ∃ i j, (i < j)%nat ∧ l !! i = Some x ∧ l !! j = Some y.
Proof.
  induction l as [|z l IH]; simpl.
  - rewrite elem_of_nil. split; [done|]. by intros (i & j & _ & ? & _).
  - rewrite elem_of_app, list_elem_of_fmap, IH. split.
    + intros [(w & [= -> ->] & [j Hj]%list_elem_of_lookup)|(i & j & Hij & Hi & Hj)].
      * exists 0%nat, (S j). split_and!; [lia|done..].
      * exists (S i), (S j). split_and!; [lia|done..].
    + intros ([|i] & [|j] & Hij & Hi & Hj); [lia| |lia|].
      * left. exists y. injection Hi as ->. split; [done|]. by eapply list_elem_of_lookup_2.
      * right. exists i, j. split_and!; [lia|done..].
Qed.

Lemma conflicting_reported policies i j l r :
  Forall (λ e, selectors_ok (ref_endpoint e)) (endpoint_refs policies) → (i < j)%nat →
  endpoint_refs policies !! i = Some l → endpoint_refs policies !! j = Some r →
  conflicting (ref_endpoint l) (ref_endpoint r) → find_endpoint_ambiguities policies ≠ [].
Proof.
  intros Hok Hij Hi Hj Hc E. rewrite list.Forall_forall in Hok. unfold find_endpoint_ambiguities in E.
  apply endpoint_ambiguity_spec in Hc as [a Ha]; [|by eapply Hok, list_elem_of_lookup_2..].
  apply (not_elem_of_nil a). rewrite <- E. apply list_elem_of_omap.
  exists (l, r). split; [|done]. apply pairs_elem. eauto 7.
Qed.

(** C38: a policy is refused exactly when it has two endpoints that can select
    the same request and disagree: a port of both, a host name in the language
    of both host patterns, and different connection metadata, or different
    pipeline metadata where both take part in selection with the same rank and
    some path is in the language of both path patterns. *)
Theorem ambiguity_reported_iff policies :
  Forall (λ e, selectors_ok (ref_endpoint e)) (endpoint_refs policies) →
  find_endpoint_ambiguities policies ≠ []
  ↔ ∃ i j l r, (i < j)%nat ∧ endpoint_refs policies !! i = Some l
               ∧ endpoint_refs policies !! j = Some r
               ∧ conflicting (ref_endpoint l) (ref_endpoint r).
Proof.
  intros Hok. split.
  2: { intros (i & j & l & r & ? & ? & ? & ?). by apply (conflicting_reported _ i j l r). }
  - rewrite list.Forall_forall in Hok. unfold find_endpoint_ambiguities. destruct (omap _ _) as [|a rest] eqn:E; [done|]. intros _.
    assert (a ∈ a :: rest) as Ha by constructor. rewrite <- E in Ha.
    apply list_elem_of_omap in Ha as ([l r] & Hin & Ha). apply pairs_elem in Hin as (i & j & Hij & Hi & Hj).
    exists i, j, l, r. split_and!; [done..|].
    apply endpoint_ambiguity_spec; [by eapply Hok, list_elem_of_lookup_2..|]. eauto.
Qed.

Lemma conflicting_sym l r : conflicting l r → conflicting r l.
Proof.
  unfold conflicting, ports_meet, hosts_meet, paths_meet.
  intros ((port & ? & ? & ?) & Hh & Hd). split_and!; [by exists port| |].
  - destruct Hh as [?|[?|(s & ? & ? & ?)]]; [tauto|tauto|]. right; right. by exists s.
  - destruct Hd as [Hd|(? & ? & Hp & ? & ?)]; [left; congruence|right]. split_and!; try done.
    destruct Hp as [?|[?|(s & ? & ? & ?)]]; [tauto|tauto|]. right; right. by exists s.
Qed.

(** Two different endpoints of a policy without ambiguities do not conflict,
    whichever comes first. *)
Lemma unambiguous_pair policies l r :
  Forall (λ e, selectors_ok (ref_endpoint e)) (endpoint_refs policies) →
  find_endpoint_ambiguities policies = [] →
  l ∈ map ref_endpoint (endpoint_refs policies) → r ∈ map ref_endpoint (endpoint_refs policies) →
  l = r ∨ ¬ conflicting l r.
Proof.
  intros Hok Hnone (le & -> & [i Hi]%list_elem_of_lookup)%list_elem_of_fmap
    (re & -> & [j Hj]%list_elem_of_lookup)%list_elem_of_fmap.
  destruct (lt_eq_lt_dec i j) as [[Hij| ->]|Hij].
  - right. intros Hc. by apply (conflicting_reported policies i j le re).
  - left. congruence.
  - right. intros Hc%conflicting_sym. by apply (conflicting_reported policies j i re le).
Qed.

(** *** Selection at runtime *)

Definition ascii (s : bytes) : Prop := Forall (λ c, 0 ≤ c < 128) s.

Lemma chars_ascii s : ascii s → chars s = s.
Proof.
  induction 1 as [|c s Hc _ IH]; [done|]. change (c :: s) with ([] ++ c :: s).
  rewrite chars_app_ascii by lia. simpl. by rewrite IH.
Qed.

Lemma ascii_lower_ascii s : ascii s → ascii (to_ascii_lowercase s).
Proof.
  unfold ascii, to_ascii_lowercase. rewrite Forall_map. apply Forall_impl.
  intros c Hc. unfold ascii_lower. destruct (_ && _) eqn:E; lia.
Qed.

Lemma ascii_scalar s : ascii s → Forall is_scalar s.
Proof. apply Forall_impl. intros c. unfold is_scalar. lia. Qed.

Lemma delimited_literals cs : 42 ∉ cs → delimited_tokens 0 cs = map Literal cs.
Proof.
  induction cs as [|c cs IH]; simpl; [done|]. intros [Hc Hcs]%not_elem_of_cons.
  destruct (Z.eqb_spec c 42); [by subst|]. simpl. by rewrite IH.
Qed.

Lemma elem_of_filter_bool {A} (f : A → bool) x l : x ∈ List.filter f l ↔ x ∈ l ∧ f x = true.
Proof. by rewrite list_elem_of_In, filter_In, <- list_elem_of_In. Qed.

Lemma filter_perm {A} (f : A → bool) l l' : l ≡ₚ l' → List.filter f l ≡ₚ List.filter f l'.
Proof.
  induction 1 as [|x l l' _ IH|x y l|l l' l'' _ IH _ IH']; simpl; [done|..].
  - destruct (f x); [by constructor|done].
  - destruct (f x), (f y); try done. constructor.
  - by etrans.
Qed.

(** A maximum of the same elements in another order, up to what all maximal
    elements share. *)
Lemma max_by_key_perm {A B} (key : A → nat) (f : A → B) l l' :
  l ≡ₚ l' → (∀ a b, a ∈ l → b ∈ l → key a = key b → f a = f b) →
  f <$> max_by_key key l = f <$> max_by_key key l'.
Proof.
  intros Hp Hf. pose proof (max_by_key_spec key l) as Hl. pose proof (max_by_key_spec key l') as Hl'.
  destruct (max_by_key key l) as [a|], (max_by_key key l') as [b|]; simpl.
  - destruct Hl as [Ha Hla], Hl' as [Hb Hlb]. rewrite <- Hp in Hb. f_equal. apply Hf; [done..|].
    specialize (Hla b Hb). rewrite Hp in Ha. specialize (Hlb a Ha). lia.
  - destruct Hl as [Ha _]. rewrite Hp, Hl' in Ha. by apply not_elem_of_nil in Ha.
  - destruct Hl' as [Hb _]. rewrite <- Hp, Hl in Hb. by apply not_elem_of_nil in Hb.
  - done.
Qed.

(** The documented language of the [glob] crate's patterns, for those the
    tokeniser reads: nothing outside it matches. *)
Class GlobLanguage (glob : Glob) := glob_language : ∀ p g ts s,
  rust_str p → rust_str s → glob_new p = Some g → tokenize_runtime_path_glob p = Some ts →
  glob_matches g s = true → tokens_match 47 ts (chars s).

(** The metacharacters of the policy engine's [glob.match] other than the
    star. *)
Definition is_rego_meta (c : Z) : bool :=
  (c =? 63) || (c =? 91) || (c =? 93) || (c =? 123) || (c =? 125) || (c =? 92) || (c =? 33).

(** Its documented language on the delimiter [.], where the star is the only
    metacharacter: [*] takes chars other than the delimiter, [**] any. *)
Class RegoGlob (glob_match : bytes → bytes → bool) := rego_glob : ∀ p h,
  existsb is_rego_meta p = false → glob_match p h = true →
  tokens_match 46 (tokenize_delimited_glob p) (chars h).

Section runtime.
Context {glob : Glob} `{!GlobLanguage glob}.
Context (glob_match : bytes → bytes → bool) `{!RegoGlob glob_match}.

(** How a path pattern that is not universal can match a plain path: the path
    is in the pattern's language, or the pattern is the subtree below it. *)
Lemma path_match_cases p s ts :
  rust_str p → rust_str s →
  any_path p = false → tokenize_runtime_path_glob p = Some ts → plain s →
  EndpointPath.matches (EndpointPath.new p) s = true →
  tokens_match 47 ts (chars s) ∨ p = s ++ lit "/**".
Proof using GlobLanguage0.
  intros Hstrp Hstrs Hany Hts Hs. unfold EndpointPath.matches, EndpointPath.new. cbn [EndpointPath.source].
  assert (p = s → tokens_match 47 ts (chars s)) as Hself.
  { intros ->. rewrite (tokenize_plain s Hs) in Hts. injection Hts as <-.
    pose proof (literals_match 47 (chars s) [] [] (tokens_nil 47)) as Hl.
    by rewrite !app_nil_r in Hl. }
  destruct (decide (p = s)); [by left; auto|]. cbn [EndpointPath.kind_of].
  unfold any_path in Hany. rewrite !orb_false_iff, is_empty_false, !bool_decide_eq_false in Hany.
  destruct Hany as [[? ?] ?]. rewrite !decide_False by done.
  destruct (strip_suffix (lit "/**") p) as [prefix|] eqn:Hsub.
  - apply strip_suffix_Some in Hsub as ->. intros [Hp|Hp]%orb_true_iff.
    + right. by apply bool_decide_eq_true in Hp as ->.
    + left. destruct (strip_prefix prefix s) as [suffix|] eqn:Hpre; [|done].
      apply strip_prefix_Some in Hpre as ->. apply starts_with_spec in Hp as [rest ->].
      cbn [app] in *. unfold plain in Hs. rewrite chars_app_ascii in Hs by done.
      apply Forall_app in Hs as [Hs _]. rewrite (tokenize_subtree prefix Hs) in Hts.
      injection Hts as <-. apply subtree_match.
  - destruct (glob_new p) as [g|] eqn:Hg; [|done]. intros Hm. left.
    exact (glob_language p g ts s Hstrp Hstrs Hg Hts Hm).
Qed.

(** A pattern of the rank of [s/**] that matches [s] also matches something
    below it. *)
Lemma rank_meets_subtree p s ts :
  tokenize_runtime_path_glob p = Some ts → plain s → tokens_match 47 ts (chars s) →
  nonstars (chars p) = nonstars (chars (s ++ lit "/**")) →
  tokens_match 47 ts (chars s ++ 47 :: chars s).
Proof.
  intros Hts Hs Hm Hrank. apply tokenize_reads in Hts.
  assert (42 ∉ chars s) as H42.
  { intros Hin. unfold plain in Hs. rewrite list.Forall_forall in Hs. by apply Hs in Hin. }
  rewrite chars_subtree, nonstars_app, (nonstars_all (chars s) H42) in Hrank.
  destruct (star_anything 47 ts (chars s)) as (a & b & Hab & Hany); [by eapply reads_crosses|done| |].
  - intros Hn. destruct (rank_without_star _ _ _ _ _ Hts Hn Hm H42); unfold nonstars in *; simpl in *; lia.
  - specialize (Hany (b ++ 47 :: a)). rewrite Hab. by rewrite <- !app_assoc in *.
Qed.

(** Patterns of equal rank that match the same plain path at runtime have
    languages that meet. *)
Lemma runtime_paths_meet p q s :
  rust_str p → rust_str q → rust_str s → plain s → path_selector_specificity p = path_selector_specificity q →
  EndpointPath.matches (EndpointPath.new p) s = true →
  EndpointPath.matches (EndpointPath.new q) s = true → paths_meet p q.
Proof using GlobLanguage0.
  intros Hstrp Hstrq Hstr Hs Hrank Hp Hq. pose proof (str_scalar _ Hstr) as Hscalar. unfold paths_meet, unrestricted, path_language.
  destruct (any_path p) eqn:Ep; [tauto|]. destruct (any_path q) eqn:Eq; [tauto|].
  destruct (tokenize_runtime_path_glob p) as [tp|] eqn:Tp; [|tauto].
  destruct (tokenize_runtime_path_glob q) as [tq|] eqn:Tq; [|tauto].
  enough (∃ x, Forall is_scalar x ∧ tokens_match 47 tp x ∧ tokens_match 47 tq x) as (x & ? & ? & ?).
  { right; right. exists x. split_and!; [done|right..]; by intros ? [= <-]. }
  assert (nonstars (chars p) = nonstars (chars q)) as Hr.
  { unfold path_selector_specificity in Hrank. by destruct p, q. }
  assert (Forall is_scalar (chars s ++ 47 :: chars s)) as Hss.
  { apply Forall_app. split; [done|]. constructor; [unfold is_scalar; lia|done]. }
  assert (tokens_match 47 (subtree_tokens s) (chars s ++ 47 :: chars s)) as Hsub.
  { rewrite <- chars_app_ascii by done. apply subtree_match. }
  destruct (path_match_cases p s tp Hstrp Hstr Ep Tp Hs Hp) as [Mp| ->];
    destruct (path_match_cases q s tq Hstrq Hstr Eq Tq Hs Hq) as [Mq| ->].
  - eauto.
  - rewrite (tokenize_subtree s Hs) in Tq. injection Tq as <-. eauto using rank_meets_subtree.
  - rewrite (tokenize_subtree s Hs) in Tp. injection Tp as <-. symmetry in Hr.
    eauto using rank_meets_subtree.
  - rewrite (tokenize_subtree s Hs) in Tp, Tq. simplify_eq. eauto.
Qed.
(** A host pattern that matches a name at runtime has it in its language. *)
Lemma runtime_host e host port :
  existsb is_rego_meta (Endpoint.host e) = false → ascii host →
  endpoint_matches_request glob_match e host port = true →
  port ∈ rego_ports e ∧ host_language (Endpoint.host e) (to_ascii_lowercase host).
Proof using RegoGlob0.
  intros Hmeta Hascii%ascii_lower_ascii. unfold endpoint_matches_request, host_language.
  rewrite andb_true_iff, bool_decide_eq_true. intros [Hport Hm]. split; [done|].
  apply orb_true_iff in Hm as [[Hm|Hm]%orb_true_iff|Hm]; apply andb_true_iff in Hm as [H1 H2].
  - right. apply bool_decide_eq_true in H2. unfold tokenize_delimited_glob.
    rewrite H2, chars_ascii by done. rewrite delimited_literals.
    + pose proof (literals_match 46 (to_ascii_lowercase host) [] [] (tokens_nil 46)) as Hl.
      by rewrite !app_nil_r in Hl.
    + rewrite <- contains_byte_spec, <- H2, contains_star_lower. by destruct (contains_byte _ _).
  - right. rewrite <- (chars_ascii (to_ascii_lowercase host)) at 1 by done. apply rego_glob; [|done].
    rewrite <- Hmeta. clear. induction (Endpoint.host e) as [|c s IH]; [done|]. simpl. rewrite IH.
    f_equal. unfold is_rego_meta, ascii_lower. destruct (_ && _) eqn:E; lia.
  - left. by apply is_empty_true.
Qed.

(** The endpoints of a policy that match a host and port at runtime. *)
Definition matching_endpoints (policies : list (bytes * NetworkPolicyRule)) (host : bytes) (port : Z)
  : list NetworkEndpoint :=
  List.filter (λ e, endpoint_matches_request glob_match e host port)
    (map ref_endpoint (endpoint_refs policies)).

Lemma matching_elem policies host port e :
  e ∈ matching_endpoints policies host port ↔
    e ∈ map ref_endpoint (endpoint_refs policies)
    ∧ endpoint_matches_request glob_match e host port = true.
Proof. unfold matching_endpoints. by rewrite elem_of_filter_bool. Qed.

(** The policies and requests the guarantee covers: the selectors are Rust
    strings with no metacharacter of the policy engine but the star, the
    host is ASCII, and the path has no metacharacter of the [glob] crate. *)
Record readable (policies : list (bytes * NetworkPolicyRule)) (host : bytes) (port : Z)
  (path : bytes) : Prop := {
  readable_selectors : Forall (λ e, selectors_ok (ref_endpoint e)) (endpoint_refs policies);
  readable_hosts :
    Forall (λ e, existsb is_rego_meta (Endpoint.host (ref_endpoint e)) = false)
      (endpoint_refs policies);
  readable_host : ascii host;
  readable_port : 0 < port;
  readable_path : rust_str path ∧ plain path;
}.

Lemma matching_meet policies host port path a b :
  readable policies host port path → find_endpoint_ambiguities policies = [] →
  a ∈ matching_endpoints policies host port → b ∈ matching_endpoints policies host port →
  a = b ∨ ports_meet a b ∧ hosts_meet (Endpoint.host a) (Endpoint.host b)
          ∧ selectors_ok a ∧ selectors_ok b ∧ ¬ conflicting a b.
Proof using RegoGlob0.
  intros [Hsel Hhosts Hascii Hport _] Hnone [Ha Ma]%matching_elem [Hb Mb]%matching_elem.
  destruct (unambiguous_pair _ _ _ Hsel Hnone Ha Hb) as [?|Hc]; [by left|right].
  apply list_elem_of_fmap in Ha as (ra & -> & Ha), Hb as (rb & -> & Hb).
  rewrite list.Forall_forall in Hsel, Hhosts.
  apply runtime_host in Ma as [Pa La]; [|by apply Hhosts|done].
  apply runtime_host in Mb as [Pb Lb]; [|by apply Hhosts|done].
  split_and!; [by exists port| |by apply Hsel..|done].
  right; right. exists (to_ascii_lowercase host).
  split_and!; [by apply ascii_scalar, ascii_lower_ascii|done..].
Qed.

Lemma same_pipeline policies host port path a b :
  readable policies host port path → find_endpoint_ambiguities policies = [] →
  a ∈ matching_endpoints policies host port → b ∈ matching_endpoints policies host port →
  endpoint_contributes_request_pipeline_metadata a = true →
  endpoint_contributes_request_pipeline_metadata b = true →
  matches_path a path = true → matches_path b path = true →
  path_specificity a = path_specificity b → pipeline_metadata a = pipeline_metadata b.
Proof using GlobLanguage0 RegoGlob0.
  intros Hread Hnone Ha Hb Ca Cb Ma Mb Hrank.
  destruct (matching_meet _ _ _ _ a b Hread Hnone Ha Hb)
    as [->|(Hports & Hhosts & [_ Sa] & [_ Sb] & Hc)]; [done|].
  destruct (decide (pipeline_metadata a = pipeline_metadata b)) as [|Hne]; [done|].
  destruct Hread as [_ _ _ _ [Hstr Hplain]].
  exfalso. apply Hc. split_and!; [done..|]. right. split_and!; [done|done| |done..].
  exact (runtime_paths_meet _ _ path Sa Sb Hstr Hplain Hrank Ma Mb).
Qed.

(** C23: with no ambiguity reported, the order in which the runtime meets the
    endpoints does not matter, for selectors and requests the check reads as the
    runtime does ([readable]): endpoint hosts without a metacharacter
    of the policy engine but the star, an ASCII host, a positive port, and a
    request path without glob metacharacters ([literal_star_conflict_missed]
    shows that the last is needed). All endpoints that match a host and port have
    the same connection metadata, and the one selected for a path among any of
    them that take part in selection has the same pipeline metadata whatever
    their order. *)
Theorem selection_order_irrelevant policies host port path configs configs' :
  readable policies host port path →
  find_endpoint_ambiguities policies = [] →
  Forall (λ e, e ∈ matching_endpoints policies host port
               ∧ endpoint_contributes_request_pipeline_metadata e = true) configs →
  configs ≡ₚ configs' →
  (∀ a b, a ∈ matching_endpoints policies host port → b ∈ matching_endpoints policies host port →
     connection_metadata a = connection_metadata b)
  ∧ pipeline_metadata <$> select_l7_config_for_path configs path
    = pipeline_metadata <$> select_l7_config_for_path configs' path.
Proof using GlobLanguage0 RegoGlob0.
  intros Hread Hnone Hcfg Hperm. split.
  { intros a b Ha Hb.
    destruct (matching_meet _ _ _ _ a b Hread Hnone Ha Hb) as [->|(? & ? & _ & _ & Hc)]; [done|].
    destruct (decide (connection_metadata a = connection_metadata b)); [done|].
    exfalso. apply Hc. unfold conflicting. tauto. }
  rewrite list.Forall_forall in Hcfg. apply max_by_key_perm; [by apply filter_perm|].
  intros a b [Ha Ma]%elem_of_filter_bool [Hb Mb]%elem_of_filter_bool Hrank.
  destruct (Hcfg a Ha), (Hcfg b Hb). by eapply same_pipeline.
Qed.
End runtime.

(** *** Instances *)

Fixpoint matches_tokens (d : Z) (ts : list GlobToken) (s : list Z) : bool :=
  match ts with
  | [] => is_empty s
  | t :: ts =>
      if is_star t then
        (fix star (s : list Z) : bool :=
           matches_tokens d ts s
           || match s with [] => false | c :: s => bool_decide (takes d t c) && star s end) s
      else match s with
           | [] => false
           | c :: s => bool_decide (takes d t c) && matches_tokens d ts s
           end
  end.

Lemma matches_tokens_sound d ts s : matches_tokens d ts s = true → tokens_match d ts s.
Proof.
  revert s. induction ts as [|t ts IH]; intros s; simpl.
  { intros ->%is_empty_true. constructor. }
  destruct (is_star t) eqn:Ht.
  - destruct t as [| | |x]; try done. induction s as [|c s IHs].
    + rewrite orb_false_r. intros H. by apply tokens_skip, IH.
    + intros [H|[Hc%bool_decide_eq_true H]%andb_true_iff]%orb_true_iff.
      * by apply tokens_skip, IH.
      * apply tokens_more; [done|by apply IHs].
  - destruct s as [|c s]; [done|].
    intros [Hc%bool_decide_eq_true H]%andb_true_iff. apply tokens_one; auto.
Qed.

(** The [glob] crate read through the tokeniser; a text without
    metacharacters is compared. *)
Definition token_glob_new (p : bytes) : option (bytes * list GlobToken) :=
  if existsb is_glob_meta p then pair p <$> tokenize_runtime_path_glob p else Some (p, []).
Definition token_glob_matches (g : bytes * list GlobToken) (s : bytes) : bool :=
  if existsb is_glob_meta g.1 then matches_tokens 47 g.2 (chars s) else bool_decide (s = g.1).

Lemma token_glob_literal s :
  existsb is_glob_meta s = false →
  ∃ p, token_glob_new s = Some p ∧ ∀ t, token_glob_matches p t = bool_decide (t = s).
Proof.
  intros Hm. exists (s, []). unfold token_glob_new, token_glob_matches. cbn [fst]. by rewrite Hm.
Qed.

Definition token_glob : Glob := {|
  Pattern := bytes * list GlobToken;
  glob_new := token_glob_new;
  glob_matches := token_glob_matches;
  glob_literal := token_glob_literal;
|}.

Lemma no_meta_plain s : rust_str s → existsb is_glob_meta s = false → plain s.
Proof.
  intros Hs Hm. apply list.Forall_forall. intros c Hc.
  destruct (is_glob_meta c) eqn:E; [|done]. exfalso.
  assert (c < 128) by (unfold is_glob_meta in E; lia).
  enough (existsb is_glob_meta s = true) by congruence.
  apply existsb_elem. exists c. split; [by apply Hs|done].
Qed.

#[global] Instance token_glob_language : GlobLanguage token_glob.
Proof.
  intros p g ts s Hp Hs. cbn [glob_new glob_matches token_glob].
  unfold token_glob_new, token_glob_matches. destruct (existsb is_glob_meta p) eqn:Hm.
  - intros (ts' & Hts & ->)%fmap_Some Hts'. rewrite Hts in Hts'. injection Hts' as ->.
    cbn [fst snd]. rewrite Hm. apply matches_tokens_sound.
  - intros [= <-]. cbn [fst]. rewrite Hm. apply no_meta_plain in Hm; [|done].
    rewrite (tokenize_plain p Hm). intros [= <-] ->%bool_decide_eq_true.
    pose proof (literals_match 47 (chars p) [] [] (tokens_nil 47)) as Hl. by rewrite !app_nil_r in Hl.
Qed.

Definition token_glob_match (p h : bytes) : bool :=
  matches_tokens 46 (tokenize_delimited_glob p) (chars h).
#[global] Instance token_rego_glob : RegoGlob token_glob_match.
Proof. intros p h _. apply matches_tokens_sound. Qed.

Lemma ascii_str s : ascii s → rust_str s.
Proof. intros Hs. split; rewrite chars_ascii by done; [by apply ascii_scalar|done]. Qed.
#[global] Instance ascii_dec s : Decision (ascii s).
Proof. unfold ascii. apply _. Defined.

Lemma ascii_check s : bool_decide (ascii s) = true → ascii s.
Proof. by intros ?%bool_decide_eq_true. Qed.

(** *** Examples *)

(** An endpoint with a host, a path and a protocol on port 443. *)
Definition at_path (host path protocol : bytes) : NetworkEndpoint :=
  Endpoint.mk host 443 protocol 0 0 0 [] [] [] [] false [] ∅ 0 path false false false
    [] [] [] 0 None None false false [].

Definition one_rule (es : list NetworkEndpoint) : list (bytes * NetworkPolicyRule) :=
  [(lit "web", rule_of [] es [])].

Lemma ascii_selectors e :
  bool_decide (ascii (Endpoint.host e) ∧ ascii (Endpoint.path e)) = true → selectors_ok e.
Proof.
  intros [Hh Hp]%bool_decide_eq_true. split; apply ascii_str; [by apply ascii_lower_ascii|done].
Qed.

Lemma ambiguity_reported_iff_witness :
  ∃ i j l r, (i < j)%nat
    ∧ endpoint_refs (one_rule [at_path (lit "*.example.com") (lit "/v1/**") (lit "rest");
                               at_path (lit "api.Example.com") (lit "/v?/*") (lit "mcp")]) !! i = Some l
    ∧ endpoint_refs (one_rule [at_path (lit "*.example.com") (lit "/v1/**") (lit "rest");
                               at_path (lit "api.Example.com") (lit "/v?/*") (lit "mcp")]) !! j = Some r
    ∧ conflicting (ref_endpoint l) (ref_endpoint r).
Proof.
  apply ambiguity_reported_iff; [|by vm_compute].
  apply Forall_cons_2; [by apply ascii_selectors; vm_compute|].
  apply Forall_cons_2; [by apply ascii_selectors; vm_compute|]. constructor.
Defined.

Definition tools_api : list NetworkEndpoint :=
  [at_path (lit "*.example.com") (lit "/v1/**") (lit "rest");
   at_path (lit "api.example.com") (lit "/v1/tools*") (lit "mcp")].

Lemma selection_order_irrelevant_witness :
  pipeline_metadata <$> select_l7_config_for_path (H := token_glob) tools_api (lit "/v1/tools")
  = pipeline_metadata
      <$> select_l7_config_for_path (H := token_glob) (reverse tools_api) (lit "/v1/tools").
Proof.
  apply (selection_order_irrelevant (glob := token_glob) token_glob_match (one_rule tools_api)
           (lit "api.example.com") 443 (lit "/v1/tools")).
  - split.
    + apply Forall_cons_2; [by apply ascii_selectors; vm_compute|].
      apply Forall_cons_2; [by apply ascii_selectors; vm_compute|]. constructor.
    + by repeat constructor.
    + by apply ascii_check; vm_compute.
    + done.
    + split; [by apply ascii_str, ascii_check; vm_compute|]. by repeat constructor.
  - by vm_compute.
  - apply Forall_cons_2; [split; [apply matching_elem; split; [left|by vm_compute]|by vm_compute]|].
    apply Forall_cons_2; [|constructor].
    split; [apply matching_elem; split; [right; left|by vm_compute]|by vm_compute].
  - by rewrite reverse_Permutation.
Defined.

(** *** A path that spells a pattern *)

Definition below_star : NetworkEndpoint :=
  at_path (lit "api.example.com") (lit "/*b/**") (lit "rest").
Definition one_char_b : NetworkEndpoint :=
  at_path (lit "api.example.com") (lit "/?b") (lit "graphql").

(** The check misses conflicts on paths that spell a metacharacter. The
    runtime compares the prefix of [/*b/**] with the path as text, while the
    check reads it as a glob, so [/*b/**] and [/?b] are reported to be
    compatible although both select the canonical path [/*b] with equal rank,
    and the pipeline that serves it depends on the order of the endpoints. *)
Theorem literal_star_conflict_missed {glob : Glob} (g : Pattern) :
  glob_new (lit "/?b") = Some g → glob_matches g (lit "/*b") = true →
  find_endpoint_ambiguities (one_rule [below_star; one_char_b]) = []
  ∧ PathCanon.path <$> ok (PathCanon.canonicalize_raw_path (lit "/*b") PathCanon.default_options)
    = Some (lit "/*b")
  ∧ pipeline_metadata <$> select_l7_config_for_path [below_star; one_char_b] (lit "/*b")
    = Some (pipeline_metadata one_char_b)
  ∧ pipeline_metadata <$> select_l7_config_for_path [one_char_b; below_star] (lit "/*b")
    = Some (pipeline_metadata below_star)
  ∧ pipeline_metadata below_star ≠ pipeline_metadata one_char_b.
Proof.
  intros Hg Hm. assert (matches_path below_star (lit "/*b") = true) as H1 by done.
  assert (matches_path one_char_b (lit "/*b") = true) as H2.
  { unfold matches_path, EndpointPath.matches, EndpointPath.new.
    change (Endpoint.path one_char_b) with (lit "/?b").
    change (strip_suffix (lit "/**") (lit "/?b")) with (@None bytes).
    rewrite Hg, !(decide_False (P := lit "/?b" = _)) by done. exact Hm. }
  unfold select_l7_config_for_path. cbn [List.filter]. rewrite H1, H2.
  split_and!; [by vm_compute|by vm_compute|done|done|].
  intros H. by apply (f_equal pl_protocol) in H.
Qed.

Lemma literal_star_conflict_missed_witness :
  find_endpoint_ambiguities (one_rule [below_star; one_char_b]) = [].
Proof.
  apply (literal_star_conflict_missed (glob := token_glob)
           (lit "/?b", [Literal 47; AnyChar; Literal 98])); by vm_compute.
Defined.
End CheckFacts.
