(* ===== verification/HostController.v ===== *)
(** * HostController: the gateway side of the supervisor host protocol

    [crates/openshell-supervisor-control/src/controller.rs]: what the gateway
    wants the pool's members to run, the durable view it was last given, the
    member streams it serves, and the complete snapshots it sends them.

    The controller's mutexes and watch channels are the fields of one record,
    [controller]; an operation is a function on it, since each one runs under
    the locks it takes from its first read to its last write. [run_session]
    is the exception: it builds a snapshot, waits for the stream to take it,
    and only then records it as sent. [HostSession.v] models it as a task of
    its own, in steps that interleave with every other operation.

    Times are arguments: [now] is [tokio::time::Instant::now()] in
    nanoseconds, [now_ms] the wall clock in milliseconds. A [u64] that counts
    (revisions, session ids) is an unbounded [Z]; the code adds one per event. *)

From S2P Require Import Prelude Net IpParse Order.
From stdpp Require Import gmap.

Module HostController.
Local Open Scope Z_scope.

(** ** Durations *)

Definition from_millis (ms : Z) : Z := ms * 1000000.
Definition from_secs (s : Z) : Z := from_millis (s * 1000).
Definition from_mins (m : Z) : Z := from_secs (m * 60).

(** [Instant::duration_since] saturates at zero. *)
Definition duration_since (now since : Z) : Z := Z.max 0 (now - since).

Definition POOL_RECOVERY_TIMEOUT_SECS : Z := 60.
Definition POOL_RECOVERY_TIMEOUT_RANGE : Z * Z := (30, 300).
Definition POOL_STOP_RETENTION : Z := from_mins 2.
Definition MAX_ASSIGNED_INSTANCES : nat := 256.
Definition MAX_POOL_INSTANCES : nat := 16 * MAX_ASSIGNED_INSTANCES.
Definition MAX_REPORTED_INSTANCES : nat := 4 * MAX_ASSIGNED_INSTANCES.

(** ** Messages of [supervisor_host.proto] *)

Record SandboxInstanceTakeover := Takeover {
  t_auth_epoch : Z; t_supervisor_instance_id : bytes; grant : bytes;
  gateway_token : bytes; gateway_expires_at : Z;
  sandbox_token : bytes; sandbox_expires_at : Z }.

Record SandboxInstanceAssignment := Assignment {
  route : bytes; sandbox_id : bytes; generation : bytes; launch_material : bytes;
  takeover : option SandboxInstanceTakeover }.

(** [phase] is the open enum's [i32]. *)
Record SandboxInstanceStatus := InstanceStatus {
  st_route : bytes; st_sandbox_id : bytes; st_phase : Z; st_ready : bool;
  st_exit_code : Z; st_error : bytes }.

Record PoolMember := Member { member_id : bytes; runtime_address : bytes }.

Record HostHello := Hello {
  hello_instance_id : bytes; hello_connection_epoch : Z; hello_member : option PoolMember }.

Record HostStatus := Status {
  applied_revision : Z; instances : list SandboxInstanceStatus; leaving : bool }.

Record RouteOwner := Directory { dir_route : bytes; dir_runtime_address : bytes }.

(** [pool] is [true] in every snapshot and [recovery_timeout] whole seconds. *)
Record AssignmentSnapshot := Snapshot {
  snap_revision : Z; snap_instances : list SandboxInstanceAssignment;
  snap_pool : bool; stop_routes : list bytes; route_directory : list RouteOwner;
  keep_routes : list bytes; recovery_timeout : Z }.

Record HostAccepted := Accepted {
  acc_session_id : Z; acc_heartbeat_interval : Z; acc_peer_endpoint : bytes }.

(** ** State *)

Record HostIdentity := Identity { subject : bytes; token_id : bytes; expires_at : Z }.

Record SupervisorCredential := Credential { cred_token : bytes; cred_expires_at : Z }.

Record InstanceOwner := Owner {
  owner_member : bytes; owner_process : bytes; owner_epoch : Z;
  owner_supervisor : option bytes; owner_takeover : option SandboxInstanceTakeover }.

Record MemberView := View_member {
  mv_member_id : bytes; mv_process_id : bytes; mv_runtime_address : bytes; mv_leaving : bool }.

Record PoolView := View {
  members : list MemberView;
  owners : gmap bytes InstanceOwner;
  view_desired : gset bytes;
  view_assignments : gmap bytes SandboxInstanceAssignment;
  reports : gmap bytes SandboxInstanceStatus;
  expired : gset bytes }.

Record Assigned := assigned_at { assignment_of : SandboxInstanceAssignment; assigned_revision : Z }.

Record Desired := desired_set {
  initialized : bool; revision : Z; assignments : gmap bytes Assigned;
  stopping : gmap bytes (InstanceOwner * Z) }.

Record Pool := pool_state {
  loaded : bool; view : PoolView; owned_since : gmap bytes Z;
  placed : gmap bytes (InstanceOwner * Z); launched : gmap bytes Z;
  withdrawals : gset bytes; recovery_timeout_secs : Z }.

Record PendingTerms := pending {
  pending_revision : Z; pending_assigned : gmap bytes Z; pending_kept : gmap bytes Z }.

Record HostSession := session {
  session_id : Z; identity : HostIdentity; instance_id : bytes; connection_epoch : Z;
  member : PoolMember; sent_revision : Z; status : option HostStatus; connected_at_ms : Z;
  terms : gmap bytes (Z * Z); pending_terms : option PendingTerms }.

Record Observed := observed_state { sessions : gmap Z HostSession; next_session : Z }.

(** [Inner]: [watch_revision] and [membership] are the watch channels of the
    same names, [superseded] the sessions whose [superseded] channel was set. *)
Record controller := Controller {
  desired : Desired; pool : Pool; observation : Observed;
  credential : option SupervisorCredential; watch_revision : Z; membership : Z;
  superseded : gset Z; peer_endpoint : bytes }.

#[export] Instance takeover_eq : EqDecision SandboxInstanceTakeover.
Proof. solve_decision. Defined.
#[export] Instance assignment_eq : EqDecision SandboxInstanceAssignment.
Proof. solve_decision. Defined.
#[export] Instance status_eq : EqDecision SandboxInstanceStatus.
Proof. solve_decision. Defined.
#[export] Instance owner_eq : EqDecision InstanceOwner.
Proof. solve_decision. Defined.
#[export] Instance member_view_eq : EqDecision MemberView.
Proof. solve_decision. Defined.
#[export] Instance view_eq : EqDecision PoolView.
Proof. solve_decision. Defined.
#[export] Instance directory_eq : EqDecision RouteOwner.
Proof. solve_decision. Defined.

Inductive AssignmentError := Capacity.

Inductive ObservedInstance :=
  | NoHost | Pending | Absent | Reported (status : SandboxInstanceStatus).

(** *** Field updates *)

Definition with_desired (d : Desired) (c : controller) : controller :=
  Controller d (pool c) (observation c) (credential c) (watch_revision c) (membership c)
    (superseded c) (peer_endpoint c).
Definition with_pool (p : Pool) (c : controller) : controller :=
  Controller (desired c) p (observation c) (credential c) (watch_revision c) (membership c)
    (superseded c) (peer_endpoint c).
Definition with_observation (o : Observed) (c : controller) : controller :=
  Controller (desired c) (pool c) o (credential c) (watch_revision c) (membership c)
    (superseded c) (peer_endpoint c).
Definition with_session (id : Z) (s : HostSession) (c : controller) : controller :=
  with_observation
    (observed_state (<[id := s]> (sessions (observation c))) (next_session (observation c))) c.

Definition with_stopping (m : gmap bytes (InstanceOwner * Z)) (d : Desired) : Desired :=
  desired_set (initialized d) (revision d) (assignments d) m.
Definition with_assignments (m : gmap bytes Assigned) (d : Desired) : Desired :=
  desired_set (initialized d) (revision d) m (stopping d).

Definition with_view_desired (s : gset bytes) (v : PoolView) : PoolView :=
  View (members v) (owners v) s (view_assignments v) (reports v) (expired v).
Definition with_owners (m : gmap bytes InstanceOwner) (v : PoolView) : PoolView :=
  View (members v) m (view_desired v) (view_assignments v) (reports v) (expired v).

(** [self.inner.revision.send_replace] after setting [desired.revision]. *)
Definition publish_revision (next : Z) (c : controller) : controller :=
  Controller
    (desired_set (initialized (desired c)) next (assignments (desired c)) (stopping (desired c)))
    (pool c) (observation c) (credential c) next (membership c) (superseded c) (peer_endpoint c).

(** The values of a [BTreeMap], in key order. *)
Definition btree_list {K V} (cmp : K → K → comparison) (l : list (K * V)) : list (K * V) :=
  sort_by (λ a b, cmp a.1 b.1) l.
Definition by_route {V} (m : gmap bytes V) : list (bytes * V) := btree_list bytes_cmp (map_to_list m).
Definition session_list (c : controller) : list HostSession :=
  (btree_list Z.compare (map_to_list (sessions (observation c)))).*2.

(** [BTreeMap::retain]. *)
Definition retain {V} (keep : bytes → V → bool) (m : gmap bytes V) : gmap bytes V :=
  filter (λ kv, keep kv.1 kv.2 = true) m.

Definition empty_view : PoolView := View [] ∅ ∅ ∅ ∅ ∅.
Definition Pool_new (recovery_timeout_secs : Z) : Pool :=
  pool_state false empty_view ∅ ∅ ∅ ∅ recovery_timeout_secs.
Definition controller_new : controller :=
  Controller (desired_set false 0 ∅ ∅) (Pool_new POOL_RECOVERY_TIMEOUT_SECS)
    (observed_state ∅ 0) None 0 0 ∅ [].

(** ** Configuration and reads *)

Definition set_peer_endpoint (endpoint : bytes) (c : controller) : controller :=
  Controller (desired c) (pool c) (observation c) (credential c) (watch_revision c)
    (membership c) (superseded c) endpoint.

Definition set_recovery_timeout_secs (secs : Z) (c : controller) : controller :=
  let p := pool c in
  with_pool (pool_state (loaded p) (view p) (owned_since p) (placed p) (launched p)
               (withdrawals p) secs) c.

Definition publish_credential (k : SupervisorCredential) (c : controller) : controller :=
  Controller (desired c) (pool c) (observation c) (Some k) (watch_revision c)
    (membership c) (superseded c) (peer_endpoint c).

Definition is_initialized (c : controller) : bool := initialized (desired c).
Definition current_revision (c : controller) : Z := revision (desired c).
Definition assignment (c : controller) (r : bytes) : option SandboxInstanceAssignment :=
  assignment_of <$> assignments (desired c) !! r.
Definition all_assignments (c : controller) : list SandboxInstanceAssignment :=
  assignment_of <$> (by_route (assignments (desired c))).*2.
Definition pool_withdrawals (c : controller) : list bytes :=
  sort_by bytes_cmp (elements (withdrawals (pool c))).
Definition pool_view (c : controller) : option PoolView :=
  if loaded (pool c) then Some (view (pool c)) else None.
Definition host_connected (c : controller) : bool :=
  negb (bool_decide (sessions (observation c) = ∅)).

(** ** The desired set *)

(** [Desired::put]: the new set and whether anything changed. *)
Definition put (a : SandboxInstanceAssignment) (rev : Z) (d : Desired) : Desired * bool :=
  match assignments d !! route a with
  | Some existing =>
      if decide (assignment_of existing = a) then (d, false)
      else (with_assignments (<[route a := assigned_at a rev]> (assignments d)) d, true)
  | None => (with_assignments (<[route a := assigned_at a rev]> (assignments d)) d, true)
  end.

Definition bump (c : controller) : controller := publish_revision (revision (desired c) + 1) c.

Definition assign (now : Z) (a : SandboxInstanceAssignment) (c : controller)
  : result unit AssignmentError * controller :=
  let d := desired c in
  if negb (bool_decide (is_Some (assignments d !! route a)))
     && (MAX_POOL_INSTANCES <=? size (assignments d))%nat
  then (Err Capacity, c)
  else
    let p := pool c in
    let p := pool_state (loaded p)
               (with_view_desired ({[route a]} ∪ view_desired (view p)) (view p))
               (owned_since p) (placed p) (<[route a := now]> (launched p))
               (withdrawals p ∖ {[route a]}) (recovery_timeout_secs p) in
    let next := revision d + 1 in
    let d := with_stopping (delete (route a) (stopping d)) d in
    let '(d, changed) := put a next d in
    let c := with_desired d (with_pool p c) in
    (Ok tt, if changed : bool then publish_revision next c else c).

Definition unassign (now : Z) (r : bytes) (c : controller) : controller :=
  let d := desired c in
  let p := pool c in
  let owner := owners (view p) !! r in
  let p := pool_state (loaded p) (with_view_desired (view_desired (view p) ∖ {[r]}) (view p))
             (owned_since p) (placed p) (delete r (launched p)) ({[r]} ∪ withdrawals p)
             (recovery_timeout_secs p) in
  let removed := bool_decide (is_Some (assignments d !! r)) in
  let d := with_assignments (delete r (assignments d)) d in
  let d := match owner with
           | Some o => with_stopping (<[r := (o, now)]> (stopping d)) d
           | None => d
           end in
  let c := with_desired d (with_pool p c) in
  if removed || bool_decide (is_Some owner) then bump c else c.

(** ** The durable view *)

(** The listed view with what this gateway placed, launched and withdrawn
    since: [placed] and [launched] are the retained ones. *)
Definition overlay_view (placed : gmap bytes (InstanceOwner * Z)) (launched : gmap bytes Z)
    (withdrawn : gset bytes) (assigned : gmap bytes Assigned) (v : PoolView) : PoolView :=
  let as_assigned := assignment_of <$> filter (λ kv, kv.1 ∈ dom launched) assigned in
  View (members v)
    (owners v ∪ (fst <$> placed))
    ((view_desired v ∪ dom launched) ∖ withdrawn)
    (filter (λ kv, kv.1 ∉ withdrawn) (view_assignments v ∪ as_assigned))
    (reports v) (expired v).

(** Whether an owner record names the same process and term. *)
Definition same_term (a b : InstanceOwner) : bool :=
  bool_decide (owner_member a = owner_member b)
  && bool_decide (owner_process a = owner_process b)
  && (owner_epoch a =? owner_epoch b).

(** [owned_since] of the new view: a term this gateway already knew keeps its
    revision. *)
Definition next_owned_since (p : Pool) (next : Z) (new : gmap bytes InstanceOwner)
  : gmap bytes Z :=
  map_imap (λ r o,
    let unchanged := match owners (view p) !! r with
                     | Some current => same_term current o | None => false end in
    Some (match owned_since p !! r with
          | Some since => if unchanged then since else next
          | None => next
          end)) new.

(** The view's assignments as this gateway's, an unchanged one keeping its
    revision. *)
Definition next_assignments (d : Desired) (next : Z)
    (new : gmap bytes SandboxInstanceAssignment) : gmap bytes Assigned :=
  map_imap (λ r a,
    Some (assigned_at a
      (match assignments d !! r with
       | Some assigned => if decide (assignment_of assigned = a)
                          then assigned_revision assigned else next
       | None => next
       end))) new.

(** The stop list after the view replaces the current one: an owned route that
    leaves the desired set is added, a desired one removed. *)
Definition next_stopping (now : Z) (p : Pool) (v : PoolView)
    (stopping : gmap bytes (InstanceOwner * Z)) : gmap bytes (InstanceOwner * Z) :=
  let dropped := view_desired (view p) ∖ view_desired v in
  let added := if loaded p
               then (λ o, (o, now)) <$> filter (λ kv, kv.1 ∈ dropped) (owners (view p))
               else ∅ in
  filter (λ kv, kv.1 ∉ view_desired v) (stopping ∪ added).

Definition update_pool (now listed_at : Z) (listed : PoolView) (c : controller) : controller :=
  let d := desired c in
  let p := pool c in
  let placed := retain (λ _ o, listed_at <=? o.2) (placed p) in
  let launched := retain (λ _ at_, listed_at <=? at_) (launched p) in
  let v := overlay_view placed launched (withdrawals p) (assignments d) listed in
  let stopping' := next_stopping now p v (stopping d) in
  let stops_changed := negb (Nat.eqb (size stopping') (size (stopping d))) in
  let d := with_stopping stopping' d in
  if loaded p && initialized d && bool_decide (view p = v) && negb stops_changed then
    with_desired d
      (with_pool (pool_state (loaded p) (view p) (owned_since p) placed launched
                    (withdrawals p) (recovery_timeout_secs p)) c)
  else
    let next := revision d + 1 in
    let p' := pool_state true v (next_owned_since p next (owners v)) placed launched
                (withdrawals p) (recovery_timeout_secs p) in
    publish_revision next
      (with_desired (desired_set true (revision d) (next_assignments d next (view_assignments v))
                       stopping')
         (with_pool p' c)).

Definition forget_withdrawal (r : bytes) (c : controller) : controller :=
  let p := pool c in
  with_pool (pool_state (loaded p) (view p) (owned_since p) (placed p) (launched p)
               (withdrawals p ∖ {[r]}) (recovery_timeout_secs p)) c.

(** The stop entries still within their retention. *)
Definition retained_stops (now : Z) (m : gmap bytes (InstanceOwner * Z)) :=
  retain (λ _ o, duration_since now o.2 <? POOL_STOP_RETENTION) m.

Definition stopping_routes (now : Z) (c : controller) : list bytes * controller :=
  let m := retained_stops now (stopping (desired c)) in
  ((by_route m).*1, with_desired (with_stopping m (desired c)) c).

Definition place_owner (now : Z) (r : bytes) (o : InstanceOwner) (c : controller) : controller :=
  let p := pool c in
  let placed := <[r := (o, now)]> (placed p) in
  if negb (loaded p) || bool_decide (owners (view p) !! r = Some o) then
    with_pool (pool_state (loaded p) (view p) (owned_since p) placed (launched p)
                 (withdrawals p) (recovery_timeout_secs p)) c
  else
    let next := revision (desired c) + 1 in
    publish_revision next
      (with_pool (pool_state (loaded p) (with_owners (<[r := o]> (owners (view p))) (view p))
                    (<[r := next]> (owned_since p)) placed (launched p)
                    (withdrawals p) (recovery_timeout_secs p)) c).

(** ** Sessions *)

(** [membership_changed]: the counter wraps. *)
Definition membership_changed (c : controller) : controller :=
  Controller (desired c) (pool c) (observation c) (credential c) (watch_revision c)
    ((membership c + 1) mod 2 ^ 64) (superseded c) (peer_endpoint c).

Inductive SessionError := MissingMember | EpochNotNewer.

(** The sessions of a member. *)
Definition member_sessions (m : bytes) (c : controller) : list HostSession :=
  filter (λ s, member_id (member s) = m) (session_list c).

Definition new_session (id : Z) (who : HostIdentity) (hello : HostHello) (m : PoolMember)
    (now_ms : Z) : HostSession :=
  session id who (hello_instance_id hello) (hello_connection_epoch hello) m 0 None now_ms ∅ None.

Definition begin_session (now_ms : Z) (who : HostIdentity) (hello : HostHello) (c : controller)
  : result Z SessionError * controller :=
  match hello_member hello with
  | None => (Err MissingMember, c)
  | Some m =>
      let replaced := member_sessions (member_id m) c in
      let current := find (λ s, bool_decide (instance_id s = hello_instance_id hello)) replaced in
      if match current with
         | Some s => hello_connection_epoch hello <=? connection_epoch s
         | None => false
         end
      then (Err EpochNotNewer, c)
      else
        let id := next_session (observation c) + 1 in
        let gone := session_id <$> replaced in
        let kept := filter (λ kv, kv.1 ∉ gone) (sessions (observation c)) in
        let o := observed_state (<[id := new_session id who hello m now_ms]> kept) id in
        (Ok id,
         membership_changed
           (Controller (desired c) (pool c) o (credential c) (watch_revision c) (membership c)
              (list_to_set gone ∪ superseded c) (peer_endpoint c)))
  end.

Definition end_session (id : Z) (c : controller) : controller :=
  match sessions (observation c) !! id with
  | None => c
  | Some _ =>
      membership_changed
        (with_observation
           (observed_state (delete id (sessions (observation c))) (next_session (observation c))) c)
  end.

(** The revision that installed a term of a route, while it is the one the
    session has. *)
Definition installed (previous : gmap bytes (Z * Z)) (r : bytes) (epoch : Z) : option Z :=
  match previous !! r with
  | Some (e, since) => if e =? epoch then Some since else None
  | None => None
  end.

(** The terms of a session once a snapshot with these pending terms is sent. *)
Definition commit_terms (previous : gmap bytes (Z * Z)) (rev : Z) (p : PendingTerms)
  : gmap bytes (Z * Z) :=
  map_imap (λ r epoch, (λ since, (epoch, since)) <$> installed previous r epoch) (pending_kept p)
  ∪ map_imap (λ r epoch, Some (epoch, default rev (installed previous r epoch)))
      (pending_assigned p).

Definition record_sent (id rev : Z) (c : controller) : controller :=
  match sessions (observation c) !! id with
  | None => c
  | Some s =>
      let sent := Z.max (sent_revision s) rev in
      let terms' := match pending_terms s with
                    | Some p => if pending_revision p =? rev
                                then commit_terms (terms s) rev p else terms s
                    | None => terms s
                    end in
      with_session id
        (session (session_id s) (identity s) (instance_id s) (connection_epoch s) (member s)
           sent (status s) (connected_at_ms s) terms' None) c
  end.

Inductive ReportError := Superseded | NeverSent | TooMany | Regressed.

Definition record_status (id : Z) (st : HostStatus) (c : controller)
  : result unit ReportError * controller :=
  match sessions (observation c) !! id with
  | None => (Err Superseded, c)
  | Some s =>
      if sent_revision s <? applied_revision st then (Err NeverSent, c)
      else if (MAX_REPORTED_INSTANCES <? length (instances st))%nat then (Err TooMany, c)
      else if match status s with
              | Some previous => applied_revision st <? applied_revision previous
              | None => false
              end then (Err Regressed, c)
      else
        let announced := leaving st
          && negb (match status s with Some previous => leaving previous | None => false end) in
        let c := with_session id
          (session (session_id s) (identity s) (instance_id s) (connection_epoch s) (member s)
             (sent_revision s) (Some st) (connected_at_ms s) (terms s) (pending_terms s)) c in
        (Ok tt, if announced then bump (membership_changed c) else c)
  end.

(** ** Reports and verdicts *)

Record MemberReport := Member_report {
  mr_member_id : bytes; mr_process_id : bytes; mr_auth_epoch : Z; mr_connected_at_ms : Z;
  mr_status : SandboxInstanceStatus }.

Definition session_reports (s : HostSession) : list MemberReport :=
  match status s with
  | None => []
  | Some st =>
      omap (λ i,
        match terms s !! st_route i with
        | Some (epoch, since) =>
            if since <=? applied_revision st
            then Some (Member_report (member_id (member s)) (instance_id s) epoch
                         (connected_at_ms s) i)
            else None
        | None => None
        end) (instances st)
  end.

Definition member_reports (c : controller) : list MemberReport :=
  concat (session_reports <$> session_list c).

Record ConnectedMember := Connected {
  cm_member_id : bytes; cm_process_id : bytes; cm_runtime_address : bytes; cm_leaving : bool;
  cm_connected_at_ms : Z }.

Definition connected_members (c : controller) : list ConnectedMember :=
  (λ s, Connected (member_id (member s)) (instance_id s) (runtime_address (member s))
          (match status s with Some st => leaving st | None => false end)
          (connected_at_ms s)) <$> session_list c.

Definition owned_by (s : HostSession) (o : InstanceOwner) : bool :=
  bool_decide (owner_member o = member_id (member s))
  && bool_decide (owner_process o = instance_id s).

Definition owner_session (c : controller) (o : InstanceOwner) : option HostSession :=
  find (λ s, owned_by s o) (session_list c).

(** [Option::max]: [None] is the least. *)
Definition option_max (a b : option Z) : option Z :=
  match a, b with
  | Some x, Some y => Some (Z.max x y)
  | Some x, None => Some x
  | None, b => b
  end.

(** The verdict of the session of the route's owner. *)
Definition session_verdict (c : controller) (r : bytes) (o : InstanceOwner) (s : HostSession)
  : ObservedInstance :=
  let assigned := assigned_revision <$> assignments (desired c) !! r in
  let assigned_revision := option_max assigned (owned_since (pool c) !! r) in
  match status s with
  | None => Pending
  | Some st =>
      let acknowledged := match terms s !! r with
                          | Some (epoch, since) =>
                              (epoch =? owner_epoch o) && (since <=? applied_revision st)
                          | None => false
                          end in
      if negb acknowledged then Pending
      else
        match find (λ i, bool_decide (st_route i = r)) (instances st) with
        | Some i => Reported i
        | None =>
            match assigned_revision with
            | Some rev => if applied_revision st <? rev then Pending else Absent
            | None => Absent
            end
        end
  end.

Definition observed (c : controller) (r : bytes) : ObservedInstance :=
  let v := view (pool c) in
  if decide (r ∈ expired v) then Absent
  else
    match owners v !! r with
    | None => NoHost
    | Some o =>
        match owner_session c o with
        | Some s => session_verdict c r o s
        | None => match reports v !! r with Some st => Reported st | None => NoHost end
        end
    end.

(** ** Snapshots *)

(** [InstanceOwner::takeover_term]. *)
Definition takeover_term (o : InstanceOwner) : option SandboxInstanceTakeover :=
  match owner_supervisor o with
  | None => None
  | Some id => Some (match owner_takeover o with
                     | Some t => t
                     | None => Takeover (owner_epoch o) id [] [] 0 [] 0
                     end)
  end.

(** The owner of an assignment, when it is the session's process. *)
Definition assigned_owner (c : controller) (s : HostSession) (a : Assigned)
  : option InstanceOwner :=
  match owners (view (pool c)) !! route (assignment_of a) with
  | Some o => if owned_by s o then Some o else None
  | None => None
  end.

Definition with_takeover (t : option SandboxInstanceTakeover) (a : SandboxInstanceAssignment) :=
  Assignment (route a) (sandbox_id a) (generation a) (launch_material a) t.

Definition snapshot_instances (c : controller) (s : HostSession)
  : list SandboxInstanceAssignment :=
  omap (λ a, (λ o, with_takeover (takeover_term o) (assignment_of a)) <$> assigned_owner c s a)
    (by_route (assignments (desired c))).*2.

Definition assigned_terms (c : controller) (s : HostSession) : gmap bytes Z :=
  list_to_map (reverse
    (omap (λ a, (λ o, (route (assignment_of a), owner_epoch o)) <$> assigned_owner c s a)
       (by_route (assignments (desired c))).*2)).

Definition kept_terms (stops : gmap bytes (InstanceOwner * Z)) (c : controller) (s : HostSession)
  : gmap bytes Z :=
  owner_epoch <$>
    filter (λ kv, owned_by s kv.2 = true ∧ kv.1 ∈ view_desired (view (pool c))
                  ∧ assignments (desired c) !! kv.1 = None ∧ stops !! kv.1 = None)
      (owners (view (pool c))).

Definition snapshot_stops (stops : gmap bytes (InstanceOwner * Z)) (c : controller)
    (s : HostSession) : gset bytes :=
  dom (filter (λ kv, owner_member kv.2.1 = member_id (member s)) stops)
  ∪ dom (filter (λ kv, owner_member kv.2 = member_id (member s)
                       ∧ kv.1 ∉ view_desired (view (pool c)) ∧ stops !! kv.1 = None)
           (owners (view (pool c)))).

(** A member listed twice has the address listed last. *)
Definition addresses (v : PoolView) : gmap bytes bytes :=
  list_to_map (reverse ((λ m, (mv_member_id m, mv_runtime_address m)) <$> members v)).

Definition directory (v : PoolView) : list RouteOwner :=
  omap (λ ro, (λ a, Directory ro.1 a) <$> addresses v !! owner_member ro.2) (by_route (owners v)).

Definition snapshot (now id : Z) (c : controller) : option AssignmentSnapshot * controller :=
  if negb (initialized (desired c)) || negb (loaded (pool c)) then (None, c)
  else
    match sessions (observation c) !! id with
    | None => (None, c)
    | Some s =>
        let stops := retained_stops now (stopping (desired c)) in
        let kept := kept_terms stops c s in
        let p := pending (revision (desired c)) (assigned_terms c s) kept in
        let s' := session (session_id s) (identity s) (instance_id s) (connection_epoch s)
                    (member s) (sent_revision s) (status s) (connected_at_ms s) (terms s)
                    (Some p) in
        (Some (Snapshot (revision (desired c)) (snapshot_instances c s) true
                 (sort_by bytes_cmp (elements (snapshot_stops stops c s)))
                 (directory (view (pool c))) (by_route kept).*1
                 (recovery_timeout_secs (pool c))),
         with_session id s' (with_desired (with_stopping stops (desired c)) c))
    end.

(** ** Attaching a stream *)

Inductive MemberError := BadMemberId | BadRuntimeAddress.

Definition valid_member_id (v : bytes) : bool :=
  negb (is_empty v) && (length v <=? 253)%nat && negb (has_whitespace v).

Definition validate_member (m : PoolMember) : result unit MemberError :=
  if negb (valid_member_id (member_id m)) then Err BadMemberId
  else match IpParse.parse_socket_addr (runtime_address m) with
       | Some _ => Ok tt
       | None => Err BadRuntimeAddress
       end.

(** What the first read of a stream gives within [HELLO_TIMEOUT]. *)
Inductive FirstMessage := GotHello (h : HostHello) | GotOther | StreamFailed | StreamEnded | TimedOut.

Inductive AttachError :=
  | NoHello | HelloFailed | HelloTimedOut | NoInstance | BadMember (e : MemberError)
  | Refused (e : SessionError).

(** [attach] up to the spawned [run_session]: the message it answers with. *)
Definition attach (now_ms : Z) (who : HostIdentity) (first : FirstMessage) (c : controller)
  : result HostAccepted AttachError * controller :=
  match first with
  | GotOther | StreamEnded => (Err NoHello, c)
  | StreamFailed => (Err HelloFailed, c)
  | TimedOut => (Err HelloTimedOut, c)
  | GotHello h =>
      if is_empty (hello_instance_id h) then (Err NoInstance, c)
      else
        match hello_member h with
        | None => (Err (Refused MissingMember), c)
        | Some m =>
            match validate_member m with
            | Err e => (Err (BadMember e), c)
            | Ok _ =>
                match begin_session now_ms who h c with
                | (Err e, c) => (Err (Refused e), c)
                | (Ok id, c) => (Ok (Accepted id (from_secs 1) (peer_endpoint c)), c)
                end
            end
        end
  end.

(** [credential_remaining]: from the Unix time in seconds. *)
Definition credential_remaining (expires_at now_secs : Z) : Z :=
  let left := i64_saturating_sub expires_at now_secs in
  from_secs (if left <? 0 then 0 else left).

End HostController.
