(* ===== verification/HostSession.v ===== *)
(** * HostSession: the stream tasks and the controller they share

    [run_session] of [crates/openshell-supervisor-control/src/controller.rs]
    builds a snapshot under the locks, gives them up while the stream takes
    the message, and then records it as sent; everything else on the
    controller may happen in between. A [system] is the controller with one
    task per attached stream; an [event] is one atomic step of either, and a
    reachable system is what any sequence of events makes of a new
    controller. [log] records what each stream was sent, for the theorems:
    no operation reads it. *)

From S2P Require Import Prelude Net IpParse Order HostController.
From stdpp Require Import gmap.

Module HostSession.
Import HostController.
Local Open Scope Z_scope.

(** The locals of [run_session]: [inflight] is the snapshot being sent, with
    the revision [current] read before it was built. *)
Record Task := task {
  last_snapshot : option AssignmentSnapshot; task_sent : Z;
  inflight : option (Z * AssignmentSnapshot) }.

(** A logged snapshot with its terms. *)
Definition entry : Type := AssignmentSnapshot * PendingTerms.

Record system := System {
  ctl : controller; tasks : gmap Z Task; log : gmap Z (list entry) }.

Definition new_task : Task := task None 0 None.
Definition system_new : system := System controller_new ∅ ∅.

(** Members are only sent snapshots that change something they act on. *)
Definition unchanged (previous : option AssignmentSnapshot) (s : AssignmentSnapshot) : bool :=
  match previous with
  | None => false
  | Some p =>
      bool_decide (snap_instances p = snap_instances s)
      && bool_decide (stop_routes p = stop_routes s)
      && bool_decide (route_directory p = route_directory s)
      && bool_decide (keep_routes p = keep_routes s)
  end.

(** The top of [run_session]'s loop, up to the send. *)
Definition poll (now id : Z) (y : system) : system :=
  match tasks y !! id with
  | Some (task last sent None) =>
      let current := watch_revision (ctl y) in
      if current <=? sent then y
      else
        match snapshot now id (ctl y) with
        | (None, c) => System c (tasks y) (log y)
        | (Some s, c) =>
            let t := if unchanged last s then task last current None
                     else task last sent (Some (current, s)) in
            System c (<[id := t]> (tasks y)) (log y)
        end
  | _ => y
  end.

(** The pending terms of a session, for the log. *)
Definition session_pending (id : Z) (c : controller) : PendingTerms :=
  match sessions (observation c) !! id with
  | Some s => default (pending 0 ∅ ∅) (pending_terms s)
  | None => pending 0 ∅ ∅
  end.

(** The send succeeded: [record_sent], and the loop goes on to its select. *)
Definition delivered (id : Z) (y : system) : system :=
  match tasks y !! id with
  | Some (task _ _ (Some (current, s))) =>
      let sent : entry := (s, session_pending id (ctl y)) in
      System (record_sent id (snap_revision s) (ctl y))
        (<[id := task (Some s) current None]> (tasks y))
        (<[id := default [] (log y !! id) ++ [sent]]> (log y))
  | _ => y
  end.

(** A status message, read in the select: nothing is being sent. *)
Definition report (id : Z) (st : HostStatus) (y : system) : system :=
  match tasks y !! id with
  | Some (task _ _ None) => System (record_status id st (ctl y)).2 (tasks y) (log y)
  | _ => y
  end.

(** [run_session] returns, whatever the reason, and [end_session] follows. *)
Definition finish (id : Z) (y : system) : system :=
  System (end_session id (ctl y)) (delete id (tasks y)) (log y).

Definition attached (now_ms : Z) (who : HostIdentity) (first : FirstMessage) (y : system) : system :=
  match attach now_ms who first (ctl y) with
  | (Ok a, c) => System c (<[acc_session_id a := new_task]> (tasks y)) (log y)
  | (Err _, c) => System c (tasks y) (log y)
  end.

(** ** Events *)

Inductive event :=
  | EAssign (now : Z) (a : SandboxInstanceAssignment)
  | EUnassign (now : Z) (r : bytes)
  | EUpdate (now listed_at : Z) (v : PoolView)
  | EForget (r : bytes)
  | EStops (now : Z)
  | EPlace (now : Z) (r : bytes) (o : InstanceOwner)
  | ERecovery (secs : Z)
  | EEndpoint (e : bytes)
  | ECredential (k : SupervisorCredential)
  | EAttach (now_ms : Z) (who : HostIdentity) (first : FirstMessage)
  | EPoll (now id : Z)
  | EDelivered (id : Z)
  | EReport (id : Z) (st : HostStatus)
  | EFinish (id : Z).

(** The controller's own operations. *)
Definition op (e : event) (c : controller) : controller :=
  match e with
  | EAssign now a => (assign now a c).2
  | EUnassign now r => unassign now r c
  | EUpdate now listed_at v => update_pool now listed_at v c
  | EForget r => forget_withdrawal r c
  | EStops now => (stopping_routes now c).2
  | EPlace now r o => place_owner now r o c
  | ERecovery secs => set_recovery_timeout_secs secs c
  | EEndpoint e => set_peer_endpoint e c
  | ECredential k => publish_credential k c
  | _ => c
  end.

Definition apply (y : system) (e : event) : system :=
  match e with
  | EAttach now_ms who first => attached now_ms who first y
  | EPoll now id => poll now id y
  | EDelivered id => delivered id y
  | EReport id st => report id st y
  | EFinish id => finish id y
  | e => System (op e (ctl y)) (tasks y) (log y)
  end.

(** A view as the gateway's reconciler builds it: its assignments are keyed by
    their routes, and only desired routes have one. *)
Definition view_wf (v : PoolView) : Prop :=
  (∀ r a, view_assignments v !! r = Some a → route a = r ∧ r ∈ view_desired v).

Definition event_wf (e : event) : Prop :=
  match e with EUpdate _ _ v => view_wf v | _ => True end.

Definition run (es : list event) (y : system) : system := fold_left apply es y.

Inductive reachable : system → Prop :=
  | reach_new : reachable system_new
  | reach_step y e : reachable y → event_wf e → reachable (apply y e).

Lemma reachable_run es y : reachable y → Forall event_wf es → reachable (run es y).
Proof.
  revert y. induction es as [|e es IH]; intros y Hy Hes; [done|].
  inversion_clear Hes. cbn. apply IH; [by apply reach_step|done].
Qed.

End HostSession.
