(* ===== verification/Supervision.v ===== *)
(** * Supervision: status reports, the pool's timing and the coordinator

    [crates/openshell-supervisor-control/src/status.rs], [pool_timing.rs] and
    [coordinator.rs]: how a member's report of an instance is read, the worst
    case of a reconnection, and the operations a compute driver uses. *)

From S2P Require Import Prelude Net IpParse Order HostController.
From stdpp Require Import gmap.

(** ** [status.rs] *)

Module InstanceReport.
Import HostController.
Local Open Scope Z_scope.

(** The open enum's numbers, [SandboxInstancePhase] of the proto file. *)
Definition PHASE_STARTING : Z := 1.
Definition PHASE_SUPERVISING : Z := 2.
Definition PHASE_STOPPING : Z := 3.
Definition PHASE_EXITED : Z := 4.
Definition PHASE_FAILED : Z := 5.

Inductive SandboxInstancePhaseReport :=
  | Starting | Supervising | Stopping | Exited (exit_code : Z) | Failed (error : bytes).

Definition is_terminal (p : SandboxInstancePhaseReport) : bool :=
  match p with Exited _ | Failed _ => true | _ => false end.

Record SandboxInstanceStatusReport := Report {
  rep_route : bytes; rep_sandbox_id : bytes; rep_phase : SandboxInstancePhaseReport;
  rep_ready : bool }.

Definition to_proto (r : SandboxInstanceStatusReport) : SandboxInstanceStatus :=
  let '(phase, exit_code, error) :=
    match rep_phase r with
    | Starting => (PHASE_STARTING, 0, [])
    | Supervising => (PHASE_SUPERVISING, 0, [])
    | Stopping => (PHASE_STOPPING, 0, [])
    | Exited code => (PHASE_EXITED, code, [])
    | Failed error => (PHASE_FAILED, 0, error)
    end in
  InstanceStatus (rep_route r) (rep_sandbox_id r) phase (rep_ready r) exit_code error.

Definition from_proto (s : SandboxInstanceStatus) : SandboxInstanceStatusReport :=
  let phase :=
    if st_phase s =? PHASE_STARTING then Starting
    else if st_phase s =? PHASE_SUPERVISING then Supervising
    else if st_phase s =? PHASE_STOPPING then Stopping
    else if st_phase s =? PHASE_EXITED then Exited (st_exit_code s)
    else if st_phase s =? PHASE_FAILED then Failed (st_error s)
    else Failed (lit "sandbox instance reported an unknown phase") in
  Report (st_route s) (st_sandbox_id s) phase (st_ready s && negb (is_terminal phase)).

(** A report a host builds: an ended instance is not ready. *)
Definition coherent (r : SandboxInstanceStatusReport) : bool :=
  negb (rep_ready r && is_terminal (rep_phase r)).

(** Reports survive the wire exactly when they are coherent: the reader never
    lets an ended instance look ready. *)
Lemma proto_roundtrip r : from_proto (to_proto r) = r ↔ coherent r = true.
Proof.
  destruct r as [ro sb ph rd]. unfold coherent.
  destruct ph, rd; cbn; split; intros H; first [reflexivity | discriminate].
Qed.

(** A ready report is of one of the three live phases, whatever number and
    flags arrived. *)
Lemma from_proto_ready s :
  rep_ready (from_proto s) = true →
  st_ready s = true ∧
  (st_phase s = PHASE_STARTING ∨ st_phase s = PHASE_SUPERVISING ∨ st_phase s = PHASE_STOPPING).
Proof.
  unfold from_proto; cbn. intros [Hr Hp]%andb_true_iff. split; [done|].
  repeat case_match; try discriminate; lia.
Qed.

End InstanceReport.

(** ** [pool_timing.rs]: durations in nanoseconds *)

Module PoolTiming.
Import HostController.
Local Open Scope Z_scope.

Definition MEMBER_TTL : Z := from_secs 15.
Definition MEMBER_REFRESH_INTERVAL : Z := from_secs 2.
Definition HEARTBEAT_INTERVAL : Z := from_secs 1.
Definition GATEWAY_SILENCE_TIMEOUT : Z := from_secs 5.
Definition HOST_SILENCE_TIMEOUT : Z := from_secs 3.
Definition HOST_SILENCE_CHECK : Z := from_millis 250.
Definition HOST_ATTEMPT_TIMEOUT : Z := from_secs 1.
Definition HOST_RECONNECT_BACKOFF_MIN : Z := from_millis 100.
Definition HOST_RECONNECT_BACKOFF_MAX : Z := from_millis 400.
Definition COVERED_UNANSWERED_ATTEMPTS : Z := 3.
Definition RECORD_WRITE_BOUND : Z := from_millis 500.

(** [HOST_RECONNECT_JITTER] is the [f64] 0.5: [mul_f64(1.5)] of a backoff of
    whole milliseconds is exact, so it is written as three halves. *)
Definition with_jitter (d : Z) : Z := d * 3 / 2.

(** [1_u32 << attempt.saturating_sub(1).min(16)]: the shift stays in [u32]. *)
Definition host_backoff_bound (attempt : Z) : Z :=
  let shift := Z.min (Z.max 0 (attempt - 1)) 16 in
  with_jitter (Z.min (HOST_RECONNECT_BACKOFF_MIN * Z.shiftl 1 shift) HOST_RECONNECT_BACKOFF_MAX).

(** The loop over the attempts [1..=unanswered]. *)
Definition reconnect_budget (unanswered : Z) : Z :=
  fold_left (λ budget attempt, budget + (HOST_ATTEMPT_TIMEOUT + host_backoff_bound attempt))
    (seqZ 1 unanswered)
    (MEMBER_REFRESH_INTERVAL + HOST_SILENCE_TIMEOUT + HOST_SILENCE_CHECK)
  + HOST_ATTEMPT_TIMEOUT + RECORD_WRITE_BOUND * 2.

Lemma host_backoff_range attempt :
  1 ≤ attempt → from_millis 150 ≤ host_backoff_bound attempt ≤ from_millis 600.
Proof.
  intros Ha. unfold host_backoff_bound, with_jitter. rewrite Z.shiftl_1_l.
  assert (1 ≤ 2 ^ Z.min (Z.max 0 (attempt - 1)) 16).
  { change 1 with (2 ^ 0). apply Z.pow_le_mono_r; lia. }
  unfold HOST_RECONNECT_BACKOFF_MIN, HOST_RECONNECT_BACKOFF_MAX, from_millis.
  set (p := 2 ^ _) in *. clearbody p.
  assert (100 * 1000000 ≤ Z.min (100 * 1000000 * p) (400 * 1000000) ≤ 400 * 1000000) by lia.
  set (m := Z.min _ _) in *. clearbody m. split.
  - apply Z.div_le_lower_bound; lia.
  - apply Z.div_le_upper_bound; lia.
Qed.

(** A longer series of unanswered attempts costs one attempt and its backoff
    more each. *)
Lemma reconnect_budget_succ n :
  0 ≤ n → reconnect_budget (n + 1)
          = reconnect_budget n + HOST_ATTEMPT_TIMEOUT + host_backoff_bound (n + 1).
Proof.
  intros Hn. unfold reconnect_budget.
  assert (seqZ 1 (n + 1) = seqZ 1 n ++ [n + 1]) as ->.
  { rewrite seqZ_app by lia. f_equal. rewrite seqZ_cons by lia. f_equal. lia. }
  rewrite fold_left_app. cbn [fold_left]. lia.
Qed.

Lemma reconnect_budget_mono m n :
  0 ≤ m ≤ n → reconnect_budget m ≤ reconnect_budget n.
Proof.
  intros [Hm Hn]. replace n with (m + (n - m)) by lia.
  assert (0 ≤ n - m) as Hd by lia. revert Hd. generalize (n - m). clear n Hn.
  apply (natlike_ind (λ d, reconnect_budget m ≤ reconnect_budget (m + d))).
  - by rewrite Z.add_0_r.
  - intros d Hd IH. unfold Z.succ. rewrite Z.add_assoc, reconnect_budget_succ by lia.
    pose proof (host_backoff_range (m + d + 1) ltac:(lia)) as [Hb _].
    unfold HOST_ATTEMPT_TIMEOUT, from_secs, from_millis in *. lia.
Qed.

(** A member whose gateway replica goes silent is refreshed elsewhere
    before its record expires, with a fifth of the time to live to spare,
    exactly when at most [COVERED_UNANSWERED_ATTEMPTS] attempts reach the
    silent replica again; the record outlives up to five. Each backoff stays
    between 150 and 600 milliseconds, and a member that dies without closing
    its stream is noticed, expires and is taken over within the least
    recovery deadline a gateway may configure. *)
Theorem reconnect_within_ttl unanswered :
  0 ≤ unanswered →
  (reconnect_budget unanswered + MEMBER_TTL / 5 ≤ MEMBER_TTL
     ↔ unanswered ≤ COVERED_UNANSWERED_ATTEMPTS)
  ∧ (reconnect_budget unanswered ≤ MEMBER_TTL ↔ unanswered ≤ 5)
  ∧ (∀ attempt, 1 ≤ attempt →
       from_millis 150 ≤ host_backoff_bound attempt ≤ from_millis 600)
  ∧ GATEWAY_SILENCE_TIMEOUT + MEMBER_REFRESH_INTERVAL + MEMBER_TTL + MEMBER_REFRESH_INTERVAL
    < from_secs (fst POOL_RECOVERY_TIMEOUT_RANGE).
Proof.
  intros Hn.
  assert (∀ k limit, 0 ≤ k → reconnect_budget k ≤ limit → limit < reconnect_budget (k + 1) →
            reconnect_budget unanswered ≤ limit ↔ unanswered ≤ k) as Hcut.
  { intros k limit Hk H1 H2. split; intros H.
    - destruct (decide (unanswered ≤ k)) as [|Hgt]; [done|].
      pose proof (reconnect_budget_mono (k + 1) unanswered ltac:(lia)). lia.
    - pose proof (reconnect_budget_mono unanswered k ltac:(lia)). lia. }
  split_and!.
  - rewrite <- (Hcut 3 (MEMBER_TTL - MEMBER_TTL / 5)); [lia|lia|by vm_compute..].
  - apply Hcut; [lia|by vm_compute..].
  - apply host_backoff_range.
  - by vm_compute.
Qed.

Lemma reconnect_within_ttl_witness :
  0 ≤ 4 ∧ reconnect_budget 4 ≤ MEMBER_TTL ∧ ¬ reconnect_budget 4 + MEMBER_TTL / 5 ≤ MEMBER_TTL.
Proof.
  split; [lia|]. destruct (reconnect_within_ttl 4 ltac:(lia)) as (H1 & H2 & _).
  split; [apply H2; lia|]. intros H. apply H1 in H. vm_compute in H. by destruct H.
Defined.

End PoolTiming.

(** ** [registration.rs]: launch material

    A registration is an interface: its descriptor, credentials and CA are
    checked by [reg_validate], and [serde_json] encodes and decodes it. *)

Class Registration (R : Type) := {
  reg_route : R → bytes;
  reg_sandbox_id : R → bytes;
  reg_generation : R → bytes;
  reg_auth_epoch : R → Z;
  reg_validate : R → result unit bytes;
  reg_to_vec : R → result bytes bytes;
  reg_from_slice : bytes → option R }.

Module LaunchMaterial.
Import HostController.
Local Open Scope Z_scope.

Definition MAX_LAUNCH_MATERIAL_BYTES : nat := 256 * 1024.

Section material.
Context {R : Type} `{Registration R}.

Definition to_assignment (r : R) : result SandboxInstanceAssignment bytes :=
  match reg_to_vec r with
  | Err e => Err (lit "encode sandbox instance registration: " ++ e)
  | Ok material =>
      if (MAX_LAUNCH_MATERIAL_BYTES <? length material)%nat
      then Err (lit "sandbox instance launch material is too large")
      else Ok (Assignment (reg_route r) (reg_sandbox_id r) (reg_generation r) material None)
  end.

Definition from_launch_material (material : bytes) : result R bytes :=
  if (MAX_LAUNCH_MATERIAL_BYTES <? length material)%nat
  then Err (lit "sandbox instance launch material is too large")
  else match reg_from_slice material with
       | Some r => Ok r
       | None => Err (lit "sandbox instance launch material is not a valid registration")
       end.

Definition from_assignment (a : SandboxInstanceAssignment) : result R bytes :=
  let? r := from_launch_material (launch_material a) in
  if negb (bool_decide (reg_route r = route a)) || negb (bool_decide (reg_sandbox_id r = sandbox_id a))
     || negb (bool_decide (reg_generation r = generation a))
  then Err (lit "sandbox instance assignment does not match its launch material")
  else let? _ := reg_validate r in Ok r.

End material.
End LaunchMaterial.

(** ** [coordinator.rs]

    The gateway's durable records of the pool, the trait the server
    implements: an operation may also publish to the controller. *)

Class InstancePlacement (D : Type) := {
  place_launch : HostController.SandboxInstanceAssignment → Z → HostController.controller * D →
                 result unit bytes * (HostController.controller * D);
  recorded : D → result (gmap bytes Z) bytes;
  record_recovered : HostController.SandboxInstanceAssignment → HostController.controller * D →
                     result unit bytes * (HostController.controller * D) }.

Module Coordinator.
Import HostController InstanceReport LaunchMaterial.
Local Open Scope Z_scope.

(** Milliseconds, as the records carry them. *)
Definition RECOVERY_PRUNE_MARGIN : Z := 60 * 1000.

Inductive LaunchError (E : Type) :=
  | Invalid (e : bytes) | Persist (e : E) | LaunchRefused (e : AssignmentError)
  | Unplaced (e : bytes).
Arguments Invalid {E} e.
Arguments Persist {E} e.
Arguments LaunchRefused {E} e.
Arguments Unplaced {E} e.

Inductive InstanceSupervision := Available | Degraded | Unavailable | Unknown.

(** A recovery's outcome: the desired revision in force, or nothing claimed. *)
Inductive RecoveryOutcome := Published (revision : Z) | Kept.

Record RecoverableInstance (X : Type) := Candidate {
  cand_route : bytes; cand_sandbox_id : bytes; cand_record : X }.
Arguments Candidate {X} _ _ _.
Arguments cand_route {X} _.
Arguments cand_sandbox_id {X} _.
Arguments cand_record {X} _.

Definition supervision_of (o : ObservedInstance) (sandbox : bytes) : InstanceSupervision :=
  match o with
  | Reported st =>
      let r := from_proto st in
      if negb (bool_decide (rep_sandbox_id r = sandbox)) || is_terminal (rep_phase r)
      then Unavailable
      else if rep_ready r then Available else Degraded
  | Pending => Degraded
  | Absent => Unavailable
  | NoHost => Unknown
  end.

Definition supervision (c : controller) (r sandbox : bytes) : InstanceSupervision :=
  supervision_of (observed c r) sandbox.

(** [wait_for_ready] over the controller states its polls see: the verdict, or
    [None] while no poll has given one. *)
Fixpoint wait_for_ready (polls : list controller) (r sandbox : bytes) : option bool :=
  match polls with
  | [] => None
  | c :: polls =>
      match supervision c r sandbox with
      | Available => Some true
      | Unavailable => Some false
      | Degraded | Unknown => wait_for_ready polls r sandbox
      end
  end.

Section coordinator.
Context {R D E X : Type} `{Registration R}.

(** [launch]: [persist] writes the launch material to the driver's records. *)
Definition launch (placement : option (InstancePlacement D)) (persist : bytes → D → result unit E * D)
    (now : Z) (registration : R) (cd : controller * D)
  : result unit (LaunchError E) * (controller * D) :=
  match reg_validate registration with
  | Err e => (Err (Invalid e), cd)
  | Ok _ =>
      match to_assignment registration with
      | Err e => (Err (Invalid e), cd)
      | Ok a =>
          match persist (launch_material a) cd.2 with
          | (Err e, d) => (Err (Persist e), (cd.1, d))
          | (Ok _, d) =>
              match placement with
              | None => (Err (Unplaced (lit "the supervisor pool is not ready to place sandbox instances")),
                         (cd.1, d))
              | Some pl =>
                  match place_launch a (reg_auth_epoch registration) (cd.1, d) with
                  | (Err e, cd) => (Err (Unplaced e), cd)
                  | (Ok _, (c, d)) =>
                      match assign now a c with
                      | (Ok _, c) => (Ok tt, (c, d))
                      | (Err e, c) => (Err (LaunchRefused e), (unassign now (route a) c, d))
                      end
                  end
              end
          end
      end
  end.

Definition withdraw (now : Z) (r : bytes) (c : controller) : controller := unassign now r c.

(** [recovered_assignment]: material is bound to its record before use. *)
Definition recovered_assignment (cand : RecoverableInstance X) (material : bytes)
  : result SandboxInstanceAssignment bytes :=
  let? registration := (from_launch_material material : result R bytes) in
  if negb (bool_decide (reg_route registration = cand_route cand))
     || negb (bool_decide (reg_sandbox_id registration = cand_sandbox_id cand))
  then Err (lit "shared sandbox instance launch material does not match the recorded generation")
  else let? _ := reg_validate registration in to_assignment registration.

(** The first loop of [reconcile_pool]: candidates without a record. *)
Definition recover_candidate `{InstancePlacement D} (read : X → result (option bytes) E)
    (listed : gmap bytes Z) (st : RecoveryOutcome * (controller * D))
    (cand : RecoverableInstance X) : RecoveryOutcome * (controller * D) :=
  let '(outcome, cd) := st in
  if decide (is_Some (listed !! cand_route cand)) then (outcome, cd)
  else
    match read (cand_record cand) with
    | Err _ => (Kept, cd)
    | Ok None => (outcome, cd)
    | Ok (Some material) =>
        match recovered_assignment cand material with
        | Err _ => (Kept, cd)
        | Ok a =>
            match record_recovered a cd with
            | (Ok _, cd) => (outcome, cd)
            | (Err _, cd) => (Kept, cd)
            end
        end
    end.

(** The second loop: records the listing omits and that are old enough. *)
Definition prune_record (now read_at_ms : Z) (candidates : gset bytes) (c : controller)
    (record : bytes * Z) : controller :=
  if bool_decide (record.1 ∉ candidates)
     && (record.2 <? i64_saturating_sub read_at_ms RECOVERY_PRUNE_MARGIN)
  then withdraw now record.1 c else c.

Definition reconcile_pool (placement : option (InstancePlacement D)) (now read_at_ms : Z)
    (candidates : list (RecoverableInstance X)) (read : X → result (option bytes) E)
    (cd : controller * D) : RecoveryOutcome * (controller * D) :=
  match placement with
  | None => (Kept, cd)
  | Some pl =>
      match recorded cd.2 with
      | Err _ => (Kept, cd)
      | Ok records =>
          let '(outcome, (c, d)) :=
            fold_left (recover_candidate read records) candidates
              (Published (current_revision cd.1), cd) in
          let listed : gset bytes := list_to_set (cand_route <$> candidates) in
          (outcome, (fold_left (prune_record now read_at_ms listed) (by_route records) c, d))
      end
  end.

End coordinator.
End Coordinator.
