(* ===== verification/HostControlFacts.v ===== *)
(** * HostControlFacts: what the supervisor pool's gateway guarantees

    The invariant of the controller, what its snapshots say, which reports
    may render a verdict, and that a launched instance becomes available. *)

From S2P Require Import Prelude Net IpParse Order HostController HostSession Supervision.
From stdpp Require Import gmap.

Module HostControlFacts.
Import HostController HostSession.
Local Open Scope Z_scope.

(** ** Reading the state *)

Lemma by_route_elem {V} (m : gmap bytes V) r x : (r, x) ∈ by_route m ↔ m !! r = Some x.
Proof. unfold by_route, btree_list. by rewrite sort_by_elem, elem_of_map_to_list. Qed.

Lemma by_route_values {V} (m : gmap bytes V) x : x ∈ (by_route m).*2 ↔ ∃ r, m !! r = Some x.
Proof.
  rewrite list_elem_of_fmap. split.
  - intros ([r y] & -> & Hin). exists r. by apply by_route_elem.
  - intros [r Hr]. exists (r, x). split; [done|]. by apply by_route_elem.
Qed.

Lemma by_route_keys {V} (m : gmap bytes V) r : r ∈ (by_route m).*1 ↔ is_Some (m !! r).
Proof.
  rewrite list_elem_of_fmap. split.
  - intros ([k y] & -> & Hin). exists y. by apply by_route_elem.
  - intros [x Hr]. exists (r, x). split; [done|]. by apply by_route_elem.
Qed.

Lemma session_list_elem c s :
  s ∈ session_list c ↔ ∃ id, sessions (observation c) !! id = Some s.
Proof.
  unfold session_list, btree_list. rewrite list_elem_of_fmap. split.
  - intros ([id t] & -> & Hin). rewrite sort_by_elem, elem_of_map_to_list in Hin. by exists id.
  - intros [id Hid]. exists (id, s). split; [done|]. by rewrite sort_by_elem, elem_of_map_to_list.
Qed.

Lemma owned_by_true s o :
  owned_by s o = true ↔ owner_member o = member_id (member s) ∧ owner_process o = instance_id s.
Proof. unfold owned_by. by rewrite andb_true_iff, !bool_decide_eq_true. Qed.

Lemma owner_session_some c o s :
  owner_session c o = Some s →
  owned_by s o = true ∧ ∃ id, sessions (observation c) !! id = Some s.
Proof.
  unfold owner_session. intros [Hin Ho]%find_some. split; [done|].
  by apply session_list_elem, list_elem_of_In.
Qed.

Lemma retain_lookup {V} (keep : bytes → V → bool) m r x :
  retain keep m !! r = Some x ↔ m !! r = Some x ∧ keep r x = true.
Proof. apply map_lookup_filter_Some. Qed.

Lemma retained_stops_none now m r : m !! r = None → retained_stops now m !! r = None.
Proof.
  intros Hm. apply eq_None_not_Some. intros [x Hx]. apply retain_lookup in Hx as [Hx _]. congruence.
Qed.

(** The routes an assignment map is keyed by are the assignments' own. *)
Definition keyed (m : gmap bytes Assigned) : Prop :=
  ∀ r a, m !! r = Some a → route (assignment_of a) = r.

Lemma assigned_terms_lookup c s r e :
  keyed (assignments (desired c)) →
  assigned_terms c s !! r = Some e ↔
  ∃ a o, assignments (desired c) !! r = Some a ∧ owners (view (pool c)) !! r = Some o
         ∧ owned_by s o = true ∧ e = owner_epoch o.
Proof.
  intros Hk. unfold assigned_terms. set (l := omap _ _).
  assert (Hl : ∀ k x, (k, x) ∈ reverse l ↔
    ∃ a o, assignments (desired c) !! k = Some a ∧ owners (view (pool c)) !! k = Some o
           ∧ owned_by s o = true ∧ x = owner_epoch o).
  { intros k x. rewrite elem_of_reverse. unfold l. rewrite list_elem_of_omap. split.
    - intros (a & [r' Ha]%by_route_values & Hx). pose proof (Hk _ _ Ha) as Hr. subst r'.
      unfold assigned_owner in Hx. destruct (owners _ !! _) as [o|] eqn:Ho; [|done].
      destruct (owned_by s o) eqn:Hs; [|done]. cbn in Hx. injection Hx as <- <-. by exists a, o.
    - intros (a & o & Ha & Ho & Hs & ->). exists a. split; [apply by_route_values; by exists k|].
      unfold assigned_owner. rewrite (Hk _ _ Ha), Ho, Hs. done. }
  split.
  - intros H%elem_of_list_to_map_2. by apply Hl.
  - intros H. apply elem_of_list_to_map_1'; [|by apply Hl].
    destruct H as (a & o & Ha & Ho & Hs & ->). intros y (a' & o' & Ha' & Ho' & _ & ->)%Hl.
    congruence.
Qed.

Lemma kept_terms_lookup stops c s r e :
  kept_terms stops c s !! r = Some e ↔
  ∃ o, owners (view (pool c)) !! r = Some o ∧ owned_by s o = true ∧ e = owner_epoch o
       ∧ r ∈ view_desired (view (pool c)) ∧ assignments (desired c) !! r = None
       ∧ stops !! r = None.
Proof.
  unfold kept_terms. rewrite lookup_fmap_Some. split.
  - intros (o & He & Hf). apply map_lookup_filter_Some in Hf as [Ho (H1 & H2 & H3 & H4)].
    cbn in *. exists o. by rewrite <- He.
  - intros (o & Ho & Hs & -> & Hd & Ha & Hst). exists o. split; [done|].
    apply map_lookup_filter_Some. by split_and!.
Qed.

Lemma snapshot_instances_elem c s r :
  keyed (assignments (desired c)) →
  r ∈ route <$> snapshot_instances c s ↔ is_Some (assigned_terms c s !! r).
Proof.
  intros Hk. rewrite list_elem_of_fmap. split.
  - intros (i & -> & Hi). unfold snapshot_instances in Hi. apply list_elem_of_omap in Hi as (a & Ha & Hi).
    apply by_route_values in Ha as [r' Ha]. pose proof (Hk _ _ Ha) as Hr.
    unfold assigned_owner in Hi. destruct (owners _ !! _) as [o|] eqn:Ho; [|done].
    destruct (owned_by s o) eqn:Hs; [|done]. cbn in Hi. injection Hi as <-. cbn.
    exists (owner_epoch o). apply assigned_terms_lookup; [done|]. exists a, o.
    rewrite Hr in *. by split_and!.
  - intros [e He]. apply assigned_terms_lookup in He as (a & o & Ha & Ho & Hs & _); [|done].
    exists (with_takeover (takeover_term o) (assignment_of a)). cbn. split; [by rewrite (Hk _ _ Ha)|].
    unfold snapshot_instances. apply list_elem_of_omap. exists a.
    split; [apply by_route_values; by exists r|].
    unfold assigned_owner. by rewrite (Hk _ _ Ha), Ho, Hs.
Qed.

Lemma snapshot_stops_elem stops c s r :
  r ∈ snapshot_stops stops c s ↔
  (∃ o t, stops !! r = Some (o, t) ∧ owner_member o = member_id (member s))
  ∨ (∃ o, owners (view (pool c)) !! r = Some o ∧ owner_member o = member_id (member s)
          ∧ r ∉ view_desired (view (pool c)) ∧ stops !! r = None).
Proof.
  unfold snapshot_stops. rewrite elem_of_union, !elem_of_dom. unfold is_Some.
  setoid_rewrite map_lookup_filter_Some. cbn. split.
  - intros [([o t] & H1 & H2) | (o & H1 & H2 & H3 & H4)]; [left; by exists o, t|right; by exists o].
  - intros [(o & t & H1 & H2) | (o & H1 & H2 & H3 & H4)]; [left; by exists (o, t)|right; by exists o].
Qed.

(** ** The controller's invariant *)

(** The desired set and the pool. *)
Record pool_inv (c : controller) : Prop := {
  pi_watch : watch_revision c = revision (desired c);
  pi_rev : 0 ≤ revision (desired c);
  pi_loaded : initialized (desired c) = loaded (pool c);
  pi_loaded_rev : loaded (pool c) = true → 1 ≤ revision (desired c);
  pi_assigned : ∀ r a, assignments (desired c) !! r = Some a →
    route (assignment_of a) = r ∧ r ∈ view_desired (view (pool c))
    ∧ assigned_revision a ≤ revision (desired c);
  pi_owned : ∀ r n, owned_since (pool c) !! r = Some n → n ≤ revision (desired c);
  pi_stopping : ∀ r, r ∈ view_desired (view (pool c)) → stopping (desired c) !! r = None;
  pi_withdrawn : ∀ r, r ∈ withdrawals (pool c) → r ∉ view_desired (view (pool c)) }.

(** One session, given the current revision and the last session id. *)
Record session_inv (rev next id : Z) (s : HostSession) : Prop := {
  si_id : session_id s = id;
  si_next : 1 ≤ id ≤ next;
  si_member : validate_member (member s) = Ok tt ∧ instance_id s ≠ [];
  si_sent : 0 ≤ sent_revision s ≤ rev;
  si_status : ∀ st, status s = Some st →
    applied_revision st ≤ sent_revision s ∧ (length (instances st) ≤ MAX_REPORTED_INSTANCES)%nat;
  si_terms : ∀ r e n, terms s !! r = Some (e, n) → n ≤ sent_revision s }.

Record observed_inv (rev : Z) (o : Observed) : Prop := {
  oi_session : ∀ id s, sessions o !! id = Some s → session_inv rev (next_session o) id s;
  oi_unique : ∀ i j s t, sessions o !! i = Some s → sessions o !! j = Some t →
    member_id (member s) = member_id (member t) → i = j;
  oi_next : 0 ≤ next_session o }.

Definition ctl_inv (c : controller) : Prop :=
  pool_inv c ∧ observed_inv (revision (desired c)) (observation c).

Lemma inv_keyed c : pool_inv c → keyed (assignments (desired c)).
Proof. intros Hi r a Ha. by apply (pi_assigned c Hi). Qed.

Lemma observed_inv_mono rev rev' o : rev ≤ rev' → observed_inv rev o → observed_inv rev' o.
Proof.
  intros Hle Ho. split; [|apply Ho|apply Ho]. intros id s Hs. destruct (oi_session _ _ Ho id s Hs).
  split; [done..|lia|done|done].
Qed.

Lemma ctl_inv_new : ctl_inv controller_new.
Proof. split; split; try done; intros *; cbn; try rewrite lookup_empty; try done; set_solver. Qed.

(** *** Operations on the desired set and the pool

    An operation leaves the sessions alone and never lowers the revision. *)

Lemma pool_inv_publish c :
  pool_inv c → pool_inv (publish_revision (revision (desired c) + 1) c).
Proof.
  intros Hi. pose proof (pi_rev c Hi). split; cbn; try apply Hi; try done; try lia.
  - intros r a Ha. destruct (pi_assigned c Hi r a Ha) as (? & ? & ?). split_and!; [done..|lia].
  - intros r n Hn. pose proof (pi_owned c Hi r n Hn). lia.
Qed.

Lemma put_spec a rev d :
  (∃ x, assignments d !! route a = Some x ∧ assignment_of x = a ∧ put a rev d = (d, false))
  ∨ put a rev d = (with_assignments (<[route a := assigned_at a rev]> (assignments d)) d, true).
Proof.
  unfold put. destruct (assignments d !! route a) as [x|] eqn:Hx; [|by right].
  destruct (decide (assignment_of x = a)); [left; by exists x|by right].
Qed.

Lemma assign_inv now a c : pool_inv c → pool_inv (assign now a c).2.
Proof.
  intros Hi. unfold assign. case_match; [done|].
  assert (Hst : ∀ r, r ∈ {[route a]} ∪ view_desired (view (pool c)) →
            delete (route a) (stopping (desired c)) !! r = None).
  { intros r Hr. apply lookup_delete_None. destruct (decide (route a = r)) as [|Hne]; [by left|right].
    apply (pi_stopping c Hi). set_solver. }
  assert (Hwd : ∀ r, r ∈ withdrawals (pool c) ∖ {[route a]} →
            r ∉ {[route a]} ∪ view_desired (view (pool c))).
  { intros r [Hr Hne]%elem_of_difference. pose proof (pi_withdrawn c Hi r Hr). set_solver. }
  destruct (put_spec a (revision (desired c) + 1)
              (with_stopping (delete (route a) (stopping (desired c))) (desired c)))
    as [(x & Hx & Ha & ->)| ->].
  - split; cbn; try apply Hi; try done.
    intros r b Hb. pose proof (pi_assigned c Hi r b Hb) as (H1 & H2 & H3). set_solver.
  - pose proof (pi_rev c Hi). split; cbn; try apply Hi; try done; try lia.
    + intros r b [[<- <-]|[Hne Hb]]%lookup_insert_Some; [cbn; split_and!; [done|set_solver|lia]|].
      pose proof (pi_assigned c Hi r b Hb) as (H1 & H2 & H3). split_and!; [done|set_solver|lia].
    + intros r n Hn. pose proof (pi_owned c Hi r n Hn). lia.
Qed.

Lemma unassign_inv now r c : pool_inv c → pool_inv (unassign now r c).
Proof.
  intros Hi. unfold unassign. set (c1 := with_desired _ _). enough (pool_inv c1).
  { case_match; [by apply pool_inv_publish|done]. }
  assert (Ha : ∀ k a, delete r (assignments (desired c)) !! k = Some a →
    route (assignment_of a) = k ∧ k ∈ view_desired (view (pool c)) ∖ {[r]}
    ∧ assigned_revision a ≤ revision (desired c)).
  { intros k a [Hne Hk]%lookup_delete_Some. pose proof (pi_assigned c Hi k a Hk) as (? & ? & ?).
    set_solver. }
  assert (Hw : ∀ k, k ∈ {[r]} ∪ withdrawals (pool c) → k ∉ view_desired (view (pool c)) ∖ {[r]}).
  { intros k Hk. pose proof (pi_withdrawn c Hi k). set_solver. }
  subst c1. destruct (owners (view (pool c)) !! r) as [o|] eqn:Ho;
    split; cbn; try apply Hi; try done; intros k [Hk Hne]%elem_of_difference;
    [rewrite lookup_insert_ne by set_solver|]; by apply (pi_stopping c Hi).
Qed.

Lemma overlay_assignments placed launched withdrawn assigned v r a :
  view_wf v → keyed assigned →
  view_assignments (overlay_view placed launched withdrawn assigned v) !! r = Some a →
  route a = r ∧ r ∈ view_desired (overlay_view placed launched withdrawn assigned v).
Proof.
  intros Hv Hk. cbn. intros [Hu Hw]%map_lookup_filter_Some. cbn in Hw.
  apply lookup_union_Some_raw in Hu as [Hu|[_ Hu]].
  - destruct (Hv r a Hu). set_solver.
  - apply lookup_fmap_Some in Hu as (x & <- & Hx). apply map_lookup_filter_Some in Hx as [Hx Hl].
    cbn in Hl. rewrite (Hk r x Hx). set_solver.
Qed.

Lemma next_assignments_lookup d next m r x :
  next_assignments d next m !! r = Some x →
  m !! r = Some (assignment_of x) ∧
  (assigned_revision x = next
   ∨ ∃ y, assignments d !! r = Some y ∧ assigned_revision x = assigned_revision y).
Proof.
  unfold next_assignments. rewrite map_lookup_imap. destruct (m !! r) as [a|]; [|done].
  cbn. intros [= <-]. cbn. split; [done|]. destruct (assignments d !! r) as [y|]; [|by left].
  case_decide; [right; by exists y|by left].
Qed.

Lemma next_owned_since_lookup p next m r n :
  next_owned_since p next m !! r = Some n → n = next ∨ owned_since p !! r = Some n.
Proof.
  unfold next_owned_since. rewrite map_lookup_imap. destruct (m !! r); [|done]. cbn.
  intros [= <-]. destruct (owned_since p !! r) as [k|]; [|by left].
  case_match; [|by left]. case_match; [by right|by left].
Qed.

Lemma next_stopping_desired now p v m r :
  r ∈ view_desired v → next_stopping now p v m !! r = None.
Proof.
  intros Hr. unfold next_stopping. apply map_lookup_filter_None_2. right. cbn. tauto.
Qed.

Lemma update_pool_inv now listed_at v c :
  view_wf v → pool_inv c → pool_inv (update_pool now listed_at v c).
Proof.
  intros Hv Hi. unfold update_pool. set (v' := overlay_view _ _ _ _ _). case_match eqn:Hq.
  - apply andb_true_iff in Hq as [[Hq Heq]%andb_true_iff _]. apply bool_decide_eq_true in Heq.
    split; cbn; try apply Hi. intros r Hr. apply next_stopping_desired. by rewrite <- Heq.
  - pose proof (pi_rev c Hi) as Hrev.
    split; cbn [publish_revision with_desired with_pool desired pool watch_revision revision
                 initialized assignments stopping with_stopping loaded owned_since withdrawals view];
      try done; try lia.
    + intros r x Hx. apply next_assignments_lookup in Hx as [Hx Hr].
      destruct (overlay_assignments _ _ _ _ _ _ _ Hv (inv_keyed c Hi) Hx) as [Hro Hd].
      split_and!; [done|done|]. destruct Hr as [->|(y & Hy & ->)]; [lia|].
      pose proof (pi_assigned c Hi r y Hy) as (_ & _ & ?). lia.
    + intros r n [->|Hn]%next_owned_since_lookup; [lia|]. pose proof (pi_owned c Hi r n Hn). lia.
    + intros r Hr. by apply next_stopping_desired.
    + intros r Hr. cbn. set_solver.
Qed.

Lemma place_owner_inv now r o c : pool_inv c → pool_inv (place_owner now r o c).
Proof.
  intros Hi. unfold place_owner. pose proof (pi_rev c Hi).
  case_match; split; cbn; try apply Hi; try done; try lia.
  - intros k a Ha. destruct (pi_assigned c Hi k a Ha) as (? & ? & ?). split_and!; [done..|lia].
  - intros k n [[<- <-]|[_ Hn]]%lookup_insert_Some; [lia|]. pose proof (pi_owned c Hi k n Hn). lia.
Qed.

Lemma retained_inv now c :
  pool_inv c →
  pool_inv (with_desired (with_stopping (retained_stops now (stopping (desired c))) (desired c)) c).
Proof.
  intros Hi. split; cbn; try apply Hi. intros r Hr. by apply retained_stops_none, (pi_stopping c Hi).
Qed.

Lemma op_pool_inv e c : event_wf e → pool_inv c → pool_inv (op e c).
Proof.
  intros He Hi. destruct e; cbn [op]; try done.
  - by apply assign_inv.
  - by apply unassign_inv.
  - by apply update_pool_inv.
  - split; cbn; try apply Hi. intros k Hk. apply (pi_withdrawn c Hi). set_solver.
  - by apply retained_inv.
  - by apply place_owner_inv.
  - split; apply Hi.
  - split; apply Hi.
  - split; apply Hi.
Qed.

(** *** The terms a session is due

    A step either raises the revision or leaves the terms of every session as
    they are: two snapshots of one revision never differ in them. *)

Definition terms_stable (c c' : controller) : Prop :=
  revision (desired c) < revision (desired c')
  ∨ (revision (desired c') = revision (desired c)
     ∧ ∀ s, assigned_terms c' s = assigned_terms c s ∧ kept_terms ∅ c' s = kept_terms ∅ c s).

Lemma terms_stable_ext c c' :
  revision (desired c') = revision (desired c) →
  assignments (desired c') = assignments (desired c) →
  owners (view (pool c')) = owners (view (pool c)) →
  (∀ r, assignments (desired c) !! r = None → is_Some (owners (view (pool c)) !! r) →
        r ∈ view_desired (view (pool c')) ↔ r ∈ view_desired (view (pool c))) →
  terms_stable c c'.
Proof.
  intros Hr Ha Ho Hd. right. split; [done|]. intros s. split.
  - unfold assigned_terms, assigned_owner. by rewrite Ha, Ho.
  - apply map_eq. intros r. apply option_eq. intros e. rewrite !kept_terms_lookup, Ha, Ho.
    split; intros (o & H1 & H2 & H3 & H4 & H5 & H6); exists o; split_and!; try done;
      by apply (Hd r H5 (mk_is_Some _ _ H1)).
Qed.

Lemma terms_stable_revision c c' : terms_stable c c' → revision (desired c) ≤ revision (desired c').
Proof. intros [?|[-> _]]; lia. Qed.

Lemma op_terms_stable e c : terms_stable c (op e c).
Proof.
  destruct e; cbn [op]; try (by apply terms_stable_ext).
  - unfold assign. case_match; [by apply terms_stable_ext|].
    destruct (put_spec a (revision (desired c) + 1)
                (with_stopping (delete (route a) (stopping (desired c))) (desired c)))
      as [(x & Hx & Ha & ->)| ->]; [|left; cbn; lia].
    apply terms_stable_ext; cbn; try done. cbn in Hx. intros r Hr _. set_solver.
  - unfold unassign. case_match eqn:Hb; [left; cbn; case_match; cbn; lia|].
    apply orb_false_iff in Hb as [Hb1%bool_decide_eq_false Hb2%bool_decide_eq_false].
    apply eq_None_not_Some in Hb1, Hb2. rewrite Hb2.
    apply terms_stable_ext; cbn; [done|by rewrite delete_id|done|].
    intros k _ Hk. assert (k ≠ r) by (intros ->; rewrite Hb2 in Hk; by destruct Hk). set_solver.
  - unfold update_pool. case_match; [by apply terms_stable_ext|left; cbn; lia].
  - unfold place_owner. case_match; [by apply terms_stable_ext|left; cbn; lia].
Qed.

Lemma op_observation e c : observation (op e c) = observation c.
Proof.
  destruct e; cbn [op]; try done.
  - unfold assign. case_match; [done|]. destruct (put_spec a (revision (desired c) + 1)
      (with_stopping (delete (route a) (stopping (desired c))) (desired c)))
      as [(x & _ & _ & ->)| ->]; done.
  - unfold unassign. by repeat case_match.
  - unfold update_pool. by case_match.
  - unfold place_owner. by case_match.
Qed.

Lemma op_ctl_inv e c : event_wf e → ctl_inv c → ctl_inv (op e c).
Proof.
  intros He [Hp Ho]. split; [by apply op_pool_inv|]. rewrite op_observation.
  eapply observed_inv_mono, Ho. apply terms_stable_revision, op_terms_stable.
Qed.

(** *** Operations on the sessions *)

Lemma pool_inv_observation c c' :
  desired c' = desired c → pool c' = pool c → watch_revision c' = watch_revision c →
  pool_inv c → pool_inv c'.
Proof. intros Hd Hp Hw Hi. destruct c, c'. cbn in *. subst. split; apply Hi. Qed.

Lemma end_session_inv id c : ctl_inv c → ctl_inv (end_session id c).
Proof.
  intros [Hp Ho]. unfold end_session. case_match; [|done]. split.
  - by apply (pool_inv_observation c).
  - split; cbn.
    + intros i s [_ Hs]%lookup_delete_Some. by apply (oi_session _ _ Ho).
    + intros i j s t [_ Hs]%lookup_delete_Some [_ Ht]%lookup_delete_Some.
      by apply (oi_unique _ _ Ho).
    + apply Ho.
Qed.

(** A session is replaced by one of the same member. *)
Lemma with_session_inv id s s' c :
  ctl_inv c → sessions (observation c) !! id = Some s → member s' = member s →
  session_inv (revision (desired c)) (next_session (observation c)) id s' →
  ctl_inv (with_session id s' c).
Proof.
  intros [Hp Ho] Hs Hm Hs'. split; [by apply (pool_inv_observation c)|]. split; cbn; [| |apply Ho].
  - intros i t [[<- <-]|[_ Ht]]%lookup_insert_Some; [done|by apply (oi_session _ _ Ho)].
  - intros i j t u [[<- <-]|[Hi Ht]]%lookup_insert_Some [[<- <-]|[Hj Hu]]%lookup_insert_Some;
      [done|rewrite Hm|rewrite Hm|]; by apply (oi_unique _ _ Ho).
Qed.

Lemma commit_terms_since previous rev p r e n :
  commit_terms previous rev p !! r = Some (e, n) →
  (pending_kept p !! r = Some e ∨ pending_assigned p !! r = Some e)
  ∧ (previous !! r = Some (e, n)
     ∨ pending_assigned p !! r = Some e ∧ n = rev).
Proof.
  assert (Hin : ∀ k epoch m, installed previous k epoch = Some m → previous !! k = Some (epoch, m)).
  { intros k epoch m. unfold installed. destruct (previous !! k) as [[e' m']|]; [|done].
    destruct (e' =? epoch) eqn:He; [|done]. intros [= <-]. apply Z.eqb_eq in He. by subst. }
  unfold commit_terms. intros [H|[_ H]]%lookup_union_Some_raw; rewrite map_lookup_imap in H.
  - destruct (pending_kept p !! r) as [k|]; [|done]. cbn in H.
    destruct (installed previous r k) as [m|] eqn:Hm; [|done]. cbn in H. injection H as -> ->.
    split; [by left|]. left. by apply Hin.
  - destruct (pending_assigned p !! r) as [k|] eqn:Hk; [|done]. cbn in H. injection H as -> <-.
    split; [by right|]. destruct (installed previous r e) as [m|] eqn:Hm; cbn; [|by right].
    left. by apply Hin.
Qed.

Lemma record_sent_inv id rev c :
  rev ≤ revision (desired c) → ctl_inv c → ctl_inv (record_sent id rev c).
Proof.
  intros Hrev Hi. unfold record_sent. destruct (sessions _ !! id) as [s|] eqn:Hs; [|done].
  pose proof (oi_session _ _ (proj2 Hi) id s Hs) as Hsi.
  eapply with_session_inv; [done|done|done|].
  pose proof (si_sent _ _ _ _ Hsi). split; cbn; try apply Hsi.
  - lia.
  - intros st Hst. pose proof (si_status _ _ _ _ Hsi st Hst). split; [lia|apply H0].
  - intros r e n Hn. pose proof (si_terms _ _ _ _ Hsi) as Ht.
    destruct (pending_terms s) as [p|]; [destruct (pending_revision p =? rev)|].
    + apply commit_terms_since in Hn as [_ [Hn|[_ ->]]]; [specialize (Ht _ _ _ Hn)|]; lia.
    + specialize (Ht _ _ _ Hn). lia.
    + specialize (Ht _ _ _ Hn). lia.
Qed.

Lemma bump_inv c : ctl_inv c → ctl_inv (bump c).
Proof.
  intros [Hp Ho]. split; [by apply pool_inv_publish|]. cbn.
  eapply observed_inv_mono, Ho. lia.
Qed.

Lemma record_status_inv id st c : ctl_inv c → ctl_inv (record_status id st c).2.
Proof.
  intros Hi. unfold record_status. destruct (sessions _ !! id) as [s|] eqn:Hs; [|done].
  destruct (_ <? _) eqn:H1; [done|]. destruct (_ <? _)%nat eqn:H2; [done|]. case_match; [done|].
  apply Z.ltb_ge in H1. apply Nat.ltb_ge in H2.
  pose proof (oi_session _ _ (proj2 Hi) id s Hs) as Hsi. cbn [snd].
  set (c1 := with_session _ _ _). assert (ctl_inv c1) as H1i.
  { eapply with_session_inv; [done|done|done|]. split; cbn; try apply Hsi.
    by intros ? [= <-]. }
  destruct (leaving st && _); [|done]. apply bump_inv.
  destruct H1i as [Hp Ho]. split; [by apply (pool_inv_observation c1)|done].
Qed.

Lemma snapshot_inv now id c : ctl_inv c → ctl_inv (snapshot now id c).2.
Proof.
  intros Hi. unfold snapshot. case_match; [done|].
  destruct (sessions _ !! id) as [s|] eqn:Hs; [|done]. cbn [snd].
  eapply with_session_inv; [|done|done|].
  - destruct Hi as [Hp Ho]. split; [by apply retained_inv|done].
  - pose proof (oi_session _ _ (proj2 Hi) id s Hs) as Hsi. split; apply Hsi.
Qed.

Lemma member_sessions_elem m c s :
  s ∈ member_sessions m c ↔
  member_id (member s) = m ∧ ∃ id, sessions (observation c) !! id = Some s.
Proof. unfold member_sessions. by rewrite list_elem_of_filter, session_list_elem. Qed.

(** What an accepted hello makes of the sessions: those of the member go, and
    the new one is as [new_session] says. *)
Lemma begin_session_ok now_ms who h c id c' :
  begin_session now_ms who h c = (Ok id, c') →
  id = next_session (observation c) + 1 ∧ next_session (observation c') = id ∧
  desired c' = desired c ∧ pool c' = pool c ∧ watch_revision c' = watch_revision c ∧
  ∃ m, hello_member h = Some m ∧
    sessions (observation c') =
      <[id := new_session id who h m now_ms]>
        (filter (λ kv, kv.1 ∉ session_id <$> member_sessions (member_id m) c)
           (sessions (observation c))) ∧
    (∀ s, s ∈ member_sessions (member_id m) c → instance_id s = hello_instance_id h →
          ∃ t, t ∈ member_sessions (member_id m) c ∧ instance_id t = hello_instance_id h ∧
               connection_epoch t < hello_connection_epoch h).
Proof.
  unfold begin_session. destruct (hello_member h) as [m|]; [|done].
  set (f := λ s, bool_decide (instance_id s = hello_instance_id h)).
  destruct (match find f _ with Some _ => _ | None => _ end) eqn:Hf; [done|].
  intros [= <- <-]. split_and!; try done. exists m. split_and!; [done|done|].
  intros s Hs Hi. destruct (find f (member_sessions (member_id m) c)) as [t|] eqn:Ht.
  - apply find_some in Ht as [Ht Hb]. apply Z.leb_gt in Hf. exists t.
    split_and!; [by apply list_elem_of_In|by apply bool_decide_eq_true in Hb|done].
  - exfalso. pose proof (find_none _ _ Ht s (proj1 (list_elem_of_In _ _) Hs)) as Hn.
    by apply bool_decide_eq_false in Hn.
Qed.

Lemma begin_session_err now_ms who h c e c' :
  begin_session now_ms who h c = (Err e, c') → c' = c.
Proof.
  unfold begin_session. destruct (hello_member h); [|by intros [= _ <-]].
  destruct (match find _ _ with Some _ => _ | None => _ end); by intros [= <-].
Qed.

Lemma begin_session_inv now_ms who h c id c' m :
  hello_member h = Some m → validate_member m = Ok tt → hello_instance_id h ≠ [] →
  begin_session now_ms who h c = (Ok id, c') → ctl_inv c → ctl_inv c'.
Proof.
  intros Hm Hv Hn Hb [Hp Ho].
  apply begin_session_ok in Hb as (Hid & Hnx & Hd & Hpo & Hw & m' & Hm' & Hs & _).
  rewrite Hm in Hm'. injection Hm' as <-. pose proof (oi_next _ _ Ho) as Hpos.
  split; [by apply (pool_inv_observation c)|]. rewrite Hd.
  assert (Hold : ∀ i s, filter (λ kv, kv.1 ∉ session_id <$> member_sessions (member_id m) c)
      (sessions (observation c)) !! i = Some s →
      sessions (observation c) !! i = Some s ∧ member_id (member s) ≠ member_id m).
  { intros i s [Hi Hg]%map_lookup_filter_Some. split; [done|]. intros Hmm. apply Hg. cbn.
    apply list_elem_of_fmap. exists s. split; [by rewrite (si_id _ _ _ _ (oi_session _ _ Ho i s Hi))|].
    apply member_sessions_elem. eauto. }
  split; rewrite ?Hs, ?Hnx.
  - intros i s [[<- <-]|[Hne [Hi _]%Hold]]%lookup_insert_Some.
    + split; cbn; try done; try lia. pose proof (pi_rev c Hp). lia.
    + pose proof (oi_session _ _ Ho i s Hi) as Hsi. split; try apply Hsi.
      pose proof (si_next _ _ _ _ Hsi). lia.
  - intros i j s t [[<- <-]|[Hni [Hi Hsm]%Hold]]%lookup_insert_Some
      [[<- <-]|[Hnj [Hj Htm]%Hold]]%lookup_insert_Some Hmm;
      [done|cbn in Hmm; congruence|cbn in Hmm; congruence|].
    by apply (oi_unique _ _ Ho i j s t).
  - lia.
Qed.

Lemma attach_inv now_ms who first c : ctl_inv c → ctl_inv (attach now_ms who first c).2.
Proof.
  intros Hi. unfold attach. destruct first as [h| | | |]; try done.
  destruct (is_empty (hello_instance_id h)) eqn:He; [done|].
  destruct (hello_member h) as [m|] eqn:Hm; [|done].
  destruct (validate_member m) as [[]|] eqn:Hv; [|done].
  destruct (begin_session now_ms who h c) as [[id|e] c'] eqn:Hb; cbn.
  - apply (begin_session_inv _ _ _ _ _ _ _ Hm Hv) in Hb; [done| |done].
    by apply is_empty_false in He.
  - by apply begin_session_err in Hb as ->.
Qed.

(** ** The streams *)

(** A snapshot lists exactly the routes of its terms. *)
Definition describes (e : entry) : Prop :=
  (∀ r, r ∈ route <$> snap_instances e.1 ↔ is_Some (pending_assigned e.2 !! r))
  ∧ (∀ r, r ∈ keep_routes e.1 ↔ is_Some (pending_kept e.2 !! r)).

(** The terms are those the session is due now. *)
Definition lives (c : controller) (s : HostSession) (p : PendingTerms) : Prop :=
  pending_assigned p = assigned_terms c s ∧ pending_kept p = kept_terms ∅ c s.

(** The terms carry a route under an ownership term, assigned or kept. *)
Definition carries (p : PendingTerms) (r : bytes) (epoch : Z) : Prop :=
  pending_assigned p !! r = Some epoch ∨ pending_kept p !! r = Some epoch.

Definition entry_ok (c : controller) (s : HostSession) (e : entry) : Prop :=
  pending_revision e.2 = snap_revision e.1 ∧ snap_revision e.1 ≤ revision (desired c)
  ∧ describes e ∧ (snap_revision e.1 = revision (desired c) → lives c s e.2).

(** Snapshots of one revision have the same terms. *)
Definition agrees (p q : PendingTerms) : Prop :=
  pending_revision p = pending_revision q →
  pending_assigned p = pending_assigned q ∧ pending_kept p = pending_kept q.

(** A session [s], its task [t] and what its stream was sent, [L]. *)
Record stream_inv (c : controller) (s : HostSession) (t : Task) (L : list entry) : Prop := {
  sv_sent : task_sent t ≤ revision (desired c);
  sv_log : ∀ e, e ∈ L → entry_ok c s e ∧ snap_revision e.1 ≤ sent_revision s;
  sv_inflight : ∀ cur snap, inflight t = Some (cur, snap) → cur ≤ revision (desired c)
    ∧ ∃ p, pending_terms s = Some p ∧ entry_ok c s (snap, p)
           ∧ sent_revision s ≤ snap_revision snap ∧ ∀ e, e ∈ L → agrees e.2 p;
  sv_terms : ∀ r epoch n, terms s !! r = Some (epoch, n) →
    (∃ e, e ∈ L ∧ snap_revision e.1 = n ∧ pending_assigned e.2 !! r = Some epoch)
    ∧ ∀ e, e ∈ L → n ≤ snap_revision e.1 → carries e.2 r epoch }.

Definition sys_inv (y : system) : Prop :=
  ctl_inv (ctl y)
  ∧ (∀ id s, sessions (observation (ctl y)) !! id = Some s →
       ∃ t, tasks y !! id = Some t ∧ stream_inv (ctl y) s t (default [] (log y !! id)))
  ∧ (∀ id, is_Some (tasks y !! id) ∨ is_Some (log y !! id) →
       id ≤ next_session (observation (ctl y))).

Definition same_process (s s' : HostSession) : Prop :=
  member s' = member s ∧ instance_id s' = instance_id s.

Lemma same_process_terms c s s' stops :
  same_process s s' → assigned_terms c s' = assigned_terms c s
                      ∧ kept_terms stops c s' = kept_terms stops c s.
Proof.
  intros [Hm Hi]. assert (∀ o, owned_by s' o = owned_by s o) as Ho.
  { intros o. unfold owned_by. by rewrite Hm, Hi. }
  split.
  - unfold assigned_terms, assigned_owner. f_equal. f_equal. apply list_omap_ext.
    apply Forall2_same_length_lookup. split; [done|]. intros i a b Ha Hb.
    assert (a = b) as <- by congruence. cbn.
    destruct (owners _ !! _) as [o|]; [|done]. by rewrite Ho.
  - apply map_eq. intros r. apply option_eq. intros e. rewrite !kept_terms_lookup.
    by setoid_rewrite Ho.
Qed.

(** Kept terms only name desired routes, which are never on the stop list. *)
Lemma kept_terms_stops c s stops :
  (∀ r, r ∈ view_desired (view (pool c)) → stops !! r = None) →
  kept_terms stops c s = kept_terms ∅ c s.
Proof.
  intros Hst. apply map_eq. intros r. apply option_eq. intros e. rewrite !kept_terms_lookup.
  split; intros (o & H1 & H2 & H3 & H4 & H5 & H6); exists o; split_and!; try done.
  by apply Hst.
Qed.

Lemma entry_ok_stable c c' s s' e :
  terms_stable c c' → same_process s s' → entry_ok c s e → entry_ok c' s' e.
Proof.
  intros Hst Hp (H1 & H2 & H3 & H4). pose proof (terms_stable_revision _ _ Hst).
  split_and!; [done|lia|apply H3..|]. intros Hr. destruct Hst as [Hlt|[Heq Ht]]; [lia|].
  destruct (H4 ltac:(lia)) as [Ha Hk]. destruct (Ht s) as [Ht1 Ht2].
  destruct (same_process_terms c' s s' ∅ Hp) as [Hs1 Hs2].
  split; congruence.
Qed.

(** A step that leaves a session's stream alone. *)
Lemma stream_inv_stable c c' s s' t L :
  terms_stable c c' → same_process s s' →
  sent_revision s' = sent_revision s → terms s' = terms s → pending_terms s' = pending_terms s →
  stream_inv c s t L → stream_inv c' s' t L.
Proof.
  intros Hst Hp Hsent Hterms Hpend Hi. pose proof (terms_stable_revision _ _ Hst).
  pose proof (sv_sent _ _ _ _ Hi). split.
  - lia.
  - intros e He. destruct (sv_log _ _ _ _ Hi e He). rewrite Hsent.
    split; [by apply (entry_ok_stable c c' s s')|done].
  - intros cur snap Hf. destruct (sv_inflight _ _ _ _ Hi cur snap Hf) as (Hc & p & H1 & H2 & H3 & H4).
    split; [lia|]. exists p. rewrite Hpend, Hsent.
    split_and!; [done|by apply (entry_ok_stable c c' s s')|done|done].
  - rewrite Hterms. apply Hi.
Qed.

(** *** Each event preserves the streams *)

Definition with_pending (p : option PendingTerms) (s : HostSession) : HostSession :=
  session (session_id s) (identity s) (instance_id s) (connection_epoch s) (member s)
    (sent_revision s) (status s) (connected_at_ms s) (terms s) p.

Lemma snapshot_some now id c snap c' :
  pool_inv c → snapshot now id c = (Some snap, c') →
  ∃ s p, sessions (observation c) !! id = Some s
    ∧ sessions (observation c') = <[id := with_pending (Some p) s]> (sessions (observation c))
    ∧ next_session (observation c') = next_session (observation c)
    ∧ terms_stable c c' ∧ revision (desired c') = revision (desired c)
    ∧ snap_revision snap = revision (desired c) ∧ snap_instances snap = snapshot_instances c s
    ∧ entry_ok c s (snap, p) ∧ loaded (pool c) = true.
Proof.
  intros Hi. unfold snapshot. destruct (_ || _) eqn:Hl; [done|].
  destruct (sessions _ !! id) as [s|] eqn:Hs; [|done]. intros [= <- <-].
  eexists s, _. split; [done|]. cbn. split; [done|]. split; [done|].
  split; [by apply terms_stable_ext|]. split_and!; try done; cbn.
  - split; [done|]. split; [done|]. split; [split; cbn|].
    + intros r. by apply snapshot_instances_elem, inv_keyed.
    + intros r. apply by_route_keys.
    + intros _. split; cbn; [done|]. apply kept_terms_stops. intros r Hr.
      by apply retained_stops_none, (pi_stopping c Hi).
  - apply orb_false_iff in Hl as [_ Hl]. by apply negb_false_iff in Hl.
Qed.

Lemma snapshot_none now id c c' : snapshot now id c = (None, c') → c' = c.
Proof. unfold snapshot. repeat case_match; congruence. Qed.

Lemma poll_sys_inv now id y : sys_inv y → sys_inv (poll now id y).
Proof.
  intros Hy. unfold poll. destruct (tasks y !! id) as [[last sent [fl|]]|] eqn:Ht; try done.
  case_match; [done|]. destruct (snapshot now id (ctl y)) as [[snap|] c'] eqn:Hs.
  2: { apply snapshot_none in Hs as ->. by destruct y. }
  destruct Hy as (Hc & Hst & Hid). pose proof (snapshot_inv now id _ Hc) as Hc'.
  rewrite Hs in Hc'. cbn in Hc'.
  apply snapshot_some in Hs as (s & p & Hsid & Hss & Hnx & Hts & Hrev & Hsr & _ & Hok & _); [|apply Hc].
  split; [done|]. cbn [ctl tasks log]. rewrite Hss, Hnx. split.
  2: { intros i [[t Hi]|Hi]; [|by apply Hid; right]. apply Hid. left.
       apply lookup_insert_Some in Hi as [[<- _]|[_ Hi]]; eauto. }
  intros i u [[<- <-]|[Hne Hu]]%lookup_insert_Some.
  - rewrite lookup_insert_eq. eexists; split; [done|].
    destruct (Hst id s Hsid) as (t & Ht' & Hi). rewrite Ht in Ht'. injection Ht' as <-.
    pose proof (pi_watch _ (proj1 Hc)) as Hw. pose proof (sv_sent _ _ _ _ Hi) as Hse. cbn in Hse.
    assert (same_process s (with_pending (Some p) s)) as Hsp by done.
    split; cbn.
    + case_match; cbn; lia.
    + intros e He. destruct (sv_log _ _ _ _ Hi e He) as [He1 He2].
      split; [by apply (entry_ok_stable (ctl y) c' s)|done].
    + intros cur sn Hin. case_match; [done|]. cbn in Hin. injection Hin as <- <-.
      split; [lia|]. exists p. split; [done|]. split; [by apply (entry_ok_stable (ctl y) c' s)|].
      pose proof (si_sent _ _ _ _ (oi_session _ _ (proj2 Hc) id s Hsid)). split; [lia|].
      intros e He Hr. destruct (sv_log _ _ _ _ Hi e He) as [(E1 & E2 & E3 & E4) _].
      destruct Hok as (O1 & O2 & O3 & O4). cbn [fst snd] in *.
      destruct (E4 ltac:(lia)) as [-> ->]. by destruct (O4 Hsr) as [-> ->].
    + apply Hi.
  - rewrite lookup_insert_ne by done. destruct (Hst i u Hu) as (t & Ht' & Hi).
    exists t. split; [done|]. by apply (stream_inv_stable (ctl y) c' u u).
Qed.

(** The stream once its snapshot is delivered. *)
Lemma delivered_stream c s t L cur snap p s' :
  inflight t = Some (cur, snap) → pending_terms s = Some p → same_process s s' →
  sent_revision s' = Z.max (sent_revision s) (snap_revision snap) →
  terms s' = commit_terms (terms s) (snap_revision snap) p →
  stream_inv c s t L → stream_inv c s' (task (Some snap) cur None) (L ++ [(snap, p)]).
Proof.
  intros Hf Hp Hsp Hsent Hterms Hi.
  destruct (sv_inflight _ _ _ _ Hi cur snap Hf) as (Hcur & q & Hq & Hok & Hle & Hag).
  rewrite Hp in Hq. injection Hq as <-. assert (terms_stable c c) as Hrefl by by apply terms_stable_ext.
  split; cbn; [done| |done|].
  - intros e [He| ->%list_elem_of_singleton]%elem_of_app.
    + destruct (sv_log _ _ _ _ Hi e He). split; [by apply (entry_ok_stable c c s)|lia].
    + split; [by apply (entry_ok_stable c c s)|cbn; lia].
  - rewrite Hterms. intros r epoch n Hn. apply commit_terms_since in Hn as [Hcar Hn].
    assert (carries p r epoch) as Hnew by (unfold carries; tauto).
    destruct Hn as [Hn|[Hass ->]].
    + destruct (sv_terms _ _ _ _ Hi r epoch n Hn) as [(e & He & Hr & Ha) Hall]. split.
      * exists e. split; [apply elem_of_app; by left|done].
      * intros e' [He'| ->%list_elem_of_singleton]%elem_of_app; [by apply Hall|done].
    + split.
      * exists (snap, p). split; [apply elem_of_app; right; by apply list_elem_of_singleton|done].
      * intros e' [He'| ->%list_elem_of_singleton]%elem_of_app Hr; [|done].
        destruct (sv_log _ _ _ _ Hi e' He') as [(E1 & _) E2].
        destruct Hok as (O1 & _). cbn in O1.
        destruct (Hag e' He') as [Ea Ek]; [lia|]. unfold carries. rewrite Ea, Ek. done.
Qed.

Lemma delivered_sys_inv id y : sys_inv y → sys_inv (delivered id y).
Proof.
  intros Hy. unfold delivered. destruct (tasks y !! id) as [[last sent [[cur snap]|]]|] eqn:Ht; try done.
  destruct Hy as (Hc & Hst & Hid).
  destruct (sessions (observation (ctl y)) !! id) as [s|] eqn:Hs.
  - destruct (Hst id s Hs) as (t & Ht' & Hi). rewrite Ht in Ht'. injection Ht' as <-.
    destruct (sv_inflight _ _ _ _ Hi cur snap eq_refl) as (_ & p & Hp & (Hok1 & Hok2 & _) & _).
    cbn in Hok1, Hok2. split; [by apply record_sent_inv|]. cbn [ctl tasks log].
    unfold session_pending, record_sent. rewrite Hs, Hp. cbn [default].
    rewrite Hok1, Z.eqb_refl. cbn. split.
    + intros i u [[<- <-]|[Hne Hu]]%lookup_insert_Some.
      * rewrite !lookup_insert_eq. cbn. eexists; split; [done|].
        match goal with |- stream_inv _ ?u _ _ =>
          apply (stream_inv_stable (ctl y) _ u u); [by apply terms_stable_ext|done..|] end.
        by eapply (delivered_stream (ctl y) s); [ | | | | |apply Hi].
      * rewrite !lookup_insert_ne by done. destruct (Hst i u Hu) as (t & Ht' & Hi').
        exists t. split; [done|]. apply (stream_inv_stable (ctl y) _ u u); [by apply terms_stable_ext|done..].
    + intros i H. apply Hid. rewrite !lookup_insert_is_Some in H.
      destruct H as [[->|[_ H]]|[->|[_ H]]]; [left; by rewrite Ht|by left|left; by rewrite Ht|by right].
  - unfold record_sent. rewrite Hs. split; [done|]. cbn [ctl tasks log]. split.
    + intros i u Hu. assert (i ≠ id) by congruence. rewrite !lookup_insert_ne by done. by apply Hst.
    + intros i H. apply Hid. rewrite !lookup_insert_is_Some in H.
      destruct H as [[->|[_ H]]|[->|[_ H]]]; [left; by rewrite Ht|by left|left; by rewrite Ht|by right].
Qed.

(** An event that only touches the controller, leaving each session's stream
    as it was. *)
Lemma ctl_only_sys_inv y c' :
  ctl_inv c' → terms_stable (ctl y) c' →
  next_session (observation c') = next_session (observation (ctl y)) →
  (∀ id s', sessions (observation c') !! id = Some s' →
     ∃ s, sessions (observation (ctl y)) !! id = Some s ∧ same_process s s'
          ∧ sent_revision s' = sent_revision s ∧ terms s' = terms s
          ∧ pending_terms s' = pending_terms s) →
  sys_inv y → sys_inv (System c' (tasks y) (log y)).
Proof.
  intros Hc' Hts Hnx Hsame (Hc & Hst & Hid). split; [done|]. cbn [ctl tasks log]. rewrite Hnx.
  split; [|done]. intros id s' Hs'. destruct (Hsame id s' Hs') as (s & Hs & H1 & H2 & H3 & H4).
  destruct (Hst id s Hs) as (t & Ht & Hi). exists t. split; [done|].
  by apply (stream_inv_stable (ctl y) c' s s').
Qed.

Lemma op_sys_inv e y :
  event_wf e → sys_inv y → sys_inv (System (op e (ctl y)) (tasks y) (log y)).
Proof.
  intros He Hy. apply ctl_only_sys_inv; [|apply op_terms_stable|by rewrite op_observation| |done].
  - by apply op_ctl_inv, Hy.
  - intros id s. rewrite op_observation. intros Hs. by exists s.
Qed.

Lemma record_status_stable id st c :
  terms_stable c (record_status id st c).2
  ∧ next_session (observation (record_status id st c).2) = next_session (observation c)
  ∧ (∀ i s', sessions (observation (record_status id st c).2) !! i = Some s' →
       ∃ s, sessions (observation c) !! i = Some s ∧ same_process s s'
            ∧ sent_revision s' = sent_revision s ∧ terms s' = terms s
            ∧ pending_terms s' = pending_terms s).
Proof.
  assert (terms_stable c c ∧ next_session (observation c) = next_session (observation c)
    ∧ (∀ i s', sessions (observation c) !! i = Some s' →
       ∃ s, sessions (observation c) !! i = Some s ∧ same_process s s'
            ∧ sent_revision s' = sent_revision s ∧ terms s' = terms s
            ∧ pending_terms s' = pending_terms s)) as Hno.
  { split_and!; [by apply terms_stable_ext|done|]. intros i s Hs. by exists s. }
  unfold record_status. destruct (sessions _ !! id) as [s|] eqn:Hs; [|done].
  destruct (_ <? _); [done|]. destruct (_ <? _)%nat; [done|]. case_match; [done|]. cbn [snd].
  assert (∀ u, same_process s u → sent_revision u = sent_revision s → terms u = terms s →
      pending_terms u = pending_terms s →
      ∀ i s', <[id := u]> (sessions (observation c)) !! i = Some s' →
      ∃ s0, sessions (observation c) !! i = Some s0 ∧ same_process s0 s'
            ∧ sent_revision s' = sent_revision s0 ∧ terms s' = terms s0
            ∧ pending_terms s' = pending_terms s0) as Hu.
  { intros u H1 H2 H3 H4 i s' [[<- <-]|[_ Hi]]%lookup_insert_Some; [by exists s|by exists s']. }
  destruct (leaving st && _); cbn; (split_and!; [|done|by apply Hu]).
  - left. cbn. lia.
  - by apply terms_stable_ext.
Qed.

Lemma report_sys_inv id st y : sys_inv y → sys_inv (report id st y).
Proof.
  intros Hy. unfold report. destruct (tasks y !! id) as [[? ? [?|]]|]; try done.
  destruct (record_status_stable id st (ctl y)) as (H1 & H2 & H3).
  apply ctl_only_sys_inv; try done. by apply record_status_inv, Hy.
Qed.

Lemma finish_sys_inv id y : sys_inv y → sys_inv (finish id y).
Proof.
  intros (Hc & Hst & Hid). split; [by apply end_session_inv|]. unfold finish. cbn [ctl tasks log].
  assert (next_session (observation (end_session id (ctl y))) = next_session (observation (ctl y)))
    as ->. { unfold end_session. by case_match. }
  split.
  - intros i s Hs. assert (i ≠ id ∧ sessions (observation (ctl y)) !! i = Some s) as [Hne Hs'].
    { unfold end_session in Hs. destruct (sessions _ !! id) eqn:E; [|split; congruence].
      cbn in Hs. apply lookup_delete_Some in Hs as [? ?]. done. }
    rewrite lookup_delete_ne by done. destruct (Hst i s Hs') as (t & Ht & Hi). exists t.
    split; [done|]. apply (stream_inv_stable (ctl y) _ s s); try done.
    unfold end_session. case_match; by apply terms_stable_ext.
  - intros i [[t Ht]|Hl]; apply Hid; [left|by right]. apply lookup_delete_Some in Ht as [_ Ht]. eauto.
Qed.

Lemma attach_cases now_ms who first c a c' :
  attach now_ms who first c = (a, c') →
  match a with
  | Err _ => c' = c
  | Ok acc => ∃ h, first = GotHello h ∧ begin_session now_ms who h c = (Ok (acc_session_id acc), c')
  end.
Proof.
  unfold attach. destruct first as [h| | | |]; try by intros [= <- <-].
  destruct (is_empty _); [by intros [= <- <-]|]. destruct (hello_member h) as [m|]; [|by intros [= <- <-]].
  destruct (validate_member m); [|by intros [= <- <-]].
  destruct (begin_session now_ms who h c) as [[id|e] c2] eqn:Hb; intros [= <- <-].
  - by exists h.
  - by apply begin_session_err in Hb.
Qed.

Lemma attached_sys_inv now_ms who first y : sys_inv y → sys_inv (attached now_ms who first y).
Proof.
  intros Hy. unfold attached. pose proof (attach_inv now_ms who first _ (proj1 Hy)) as Hc'.
  destruct (attach now_ms who first (ctl y)) as [a c'] eqn:Ha. cbn in Hc'.
  apply attach_cases in Ha. destruct a as [acc|e]; [|subst; by destruct y].
  destruct Ha as (h & -> & Hb). set (id := acc_session_id acc) in *. clearbody id.
  apply begin_session_ok in Hb as (Hid' & Hnx & Hd & Hp & Hw & m & Hm & Hss & _).
  destruct Hy as (Hc & Hst & Hid). split; [done|]. cbn [ctl tasks log]. rewrite Hss, Hnx.
  assert (tasks y !! id = None ∧ log y !! id = None) as [Hnt Hnl].
  { split; apply eq_None_not_Some; intros H; specialize (Hid id); [specialize (Hid (or_introl H))|
      specialize (Hid (or_intror H))]; lia. }
  split.
  - intros i s [[<- <-]|[Hne [Hs _]%map_lookup_filter_Some]]%lookup_insert_Some.
    + rewrite lookup_insert_eq, Hnl. exists new_task. split; [done|].
      pose proof (pi_rev _ (proj1 Hc')). split; cbn; try done. intros e He. by apply not_elem_of_nil in He.
    + rewrite lookup_insert_ne by done. destruct (Hst i s Hs) as (t & Ht & Hi). exists t.
      split; [done|]. apply (stream_inv_stable (ctl y) _ s s); try done.
      by apply terms_stable_ext; rewrite ?Hd, ?Hp.
  - intros i H. rewrite lookup_insert_is_Some in H.
    destruct H as [[->|[_ H]]|H]; [lia|specialize (Hid i (or_introl H))|specialize (Hid i (or_intror H))]; lia.
Qed.

Lemma reachable_inv y : reachable y → sys_inv y.
Proof.
  induction 1 as [|y e _ IH He].
  - split; [apply ctl_inv_new|]. split; cbn; intros id; [by rewrite lookup_empty|].
    rewrite !lookup_empty. by intros [[]|[]].
  - destruct e; try by apply (op_sys_inv _ y He).
    + by apply attached_sys_inv.
    + by apply poll_sys_inv.
    + by apply delivered_sys_inv.
    + by apply report_sys_inv.
    + by apply finish_sys_inv.
Qed.

(** ** Verdicts *)

(** Stream [id] acknowledged the ownership term [epoch] of a route: its latest
    status applied a revision [n] or later that was sent to it; the snapshot
    of revision [n] assigned the route under that term, and so did, or kept
    it, every snapshot sent since. *)
Definition acknowledged (y : system) (id : Z) (s : HostSession) (r : bytes) (epoch : Z) : Prop :=
  sessions (observation (ctl y)) !! id = Some s ∧
  ∃ st n, status s = Some st ∧ n ≤ applied_revision st ≤ sent_revision s ∧
    (∃ e, e ∈ default [] (log y !! id) ∧ snap_revision e.1 = n
          ∧ r ∈ route <$> snap_instances e.1 ∧ pending_assigned e.2 !! r = Some epoch) ∧
    (∀ e, e ∈ default [] (log y !! id) → n ≤ snap_revision e.1 → carries e.2 r epoch).

Lemma acknowledged_intro y id s r epoch n st :
  sys_inv y → sessions (observation (ctl y)) !! id = Some s → status s = Some st →
  terms s !! r = Some (epoch, n) → n ≤ applied_revision st → acknowledged y id s r epoch.
Proof.
  intros (Hc & Hst & _) Hs Hstat Ht Hn. destruct (Hst id s Hs) as (t & _ & Hi).
  destruct (sv_terms _ _ _ _ Hi r epoch n Ht) as [(e & He & Hr & Ha) Hall].
  destruct (si_status _ _ _ _ (oi_session _ _ (proj2 Hc) id s Hs) st Hstat) as [Happ _].
  split; [done|]. exists st, n. split_and!; try done. exists e. split_and!; try done.
  destruct (sv_log _ _ _ _ Hi e He) as [(_ & _ & [Hd _] & _) _]. apply Hd. eauto.
Qed.

(** What a verdict of the owner's own session rests on. *)
Lemma session_verdict_cases c r o s :
  session_verdict c r o s ≠ Pending →
  ∃ st n, status s = Some st ∧ terms s !! r = Some (owner_epoch o, n) ∧ n ≤ applied_revision st ∧
    match session_verdict c r o s with
    | Reported i => i ∈ instances st ∧ st_route i = r
    | Absent =>
        (∀ i, i ∈ instances st → st_route i ≠ r)
        ∧ (∀ a, assignments (desired c) !! r = Some a → assigned_revision a ≤ applied_revision st)
        ∧ (∀ m, owned_since (pool c) !! r = Some m → m ≤ applied_revision st)
    | _ => False
    end.
Proof.
  unfold session_verdict. destruct (status s) as [st|]; [|done].
  destruct (terms s !! r) as [[e n]|]; [|done].
  destruct ((e =? owner_epoch o) && (n <=? applied_revision st)) eqn:Hack; [|done]. cbn [negb].
  apply andb_true_iff in Hack as [->%Z.eqb_eq Hn%Z.leb_le]. intros Hv. exists st, n.
  split_and!; [done..|].
  destruct (find _ (instances st)) as [i|] eqn:Hf.
  - apply find_some in Hf as [Hin Hb%bool_decide_eq_true]. split; [by apply list_elem_of_In|done].
  - assert (∀ i, i ∈ instances st → st_route i ≠ r) as Hno.
    { intros i Hi%list_elem_of_In. pose proof (find_none _ _ Hf i Hi) as Hb.
      by apply bool_decide_eq_false in Hb. }
    destruct (assignments _ !! r) as [a|]; destruct (owned_since _ !! r) as [m|]; cbn in *;
      try (destruct (_ <? _) eqn:Hlt; [done|apply Z.ltb_ge in Hlt]);
      (split_and!; [done|intros ? [= ?]..]); subst; lia.
Qed.

(** ** Snapshots *)

Lemma snapshot_fields now id c snap c' :
  snapshot now id c = (Some snap, c') →
  ∃ s, sessions (observation c) !! id = Some s ∧ loaded (pool c) = true ∧
    snap_instances snap = snapshot_instances c s ∧
    (∀ r, r ∈ keep_routes snap ↔
          is_Some (kept_terms (retained_stops now (stopping (desired c))) c s !! r)) ∧
    (∀ r, r ∈ stop_routes snap ↔
          r ∈ snapshot_stops (retained_stops now (stopping (desired c))) c s).
Proof.
  unfold snapshot. destruct (_ || _) eqn:Hl; [done|].
  destruct (sessions _ !! id) as [s|] eqn:Hs; [|done]. intros [= <- <-]. exists s. cbn.
  apply orb_false_iff in Hl as [_ Hl%negb_false_iff]. split_and!; try done.
  - intros r. apply by_route_keys.
  - intros r. by rewrite sort_by_elem, elem_of_elements.
Qed.

(** A snapshot runs or keeps a route. *)
Definition serves (snap : AssignmentSnapshot) (r : bytes) : Prop :=
  r ∈ route <$> snap_instances snap ∨ r ∈ keep_routes snap.

Lemma serves_iff now id c snap c' :
  pool_inv c → snapshot now id c = (Some snap, c') →
  ∃ s, sessions (observation c) !! id = Some s ∧
    ∀ r, serves snap r ↔ r ∈ view_desired (view (pool c)) ∧
           ∃ o, owners (view (pool c)) !! r = Some o ∧ owned_by s o = true.
Proof.
  intros Hi (s & Hs & Hl & Hin & Hk & _)%snapshot_fields. exists s. split; [done|]. intros r.
  unfold serves. rewrite Hin, Hk, snapshot_instances_elem by by apply inv_keyed. split.
  - intros [[e He]|[e He]].
    + apply assigned_terms_lookup in He as (a & o & Ha & Ho & Hw & _); [|by apply inv_keyed].
      split; [by apply (pi_assigned c Hi r a)|eauto].
    + apply kept_terms_lookup in He as (o & Ho & Hw & _ & Hd & _). eauto.
  - intros (Hd & o & Ho & Hw). destruct (assignments (desired c) !! r) as [a|] eqn:Ha.
    + left. exists (owner_epoch o). apply assigned_terms_lookup; [by apply inv_keyed|]. by exists a, o.
    + right. exists (owner_epoch o). apply kept_terms_lookup. exists o. split_and!; try done.
      by apply retained_stops_none, (pi_stopping c Hi).
Qed.

Lemma stops_not_desired now id c snap c' r :
  pool_inv c → snapshot now id c = (Some snap, c') → r ∈ stop_routes snap →
  r ∉ view_desired (view (pool c)).
Proof.
  intros Hi (s & _ & _ & _ & _ & Hst)%snapshot_fields Hr Hd. apply Hst, snapshot_stops_elem in Hr.
  destruct Hr as [(o & t & Ho & _)|(o & _ & _ & Hn & _)]; [|done].
  apply retain_lookup in Ho as [Ho _]. by rewrite (pi_stopping c Hi r Hd) in Ho.
Qed.

(** ** From a launch to an available instance *)

Lemma owner_session_unique c id s o :
  observed_inv (revision (desired c)) (observation c) →
  sessions (observation c) !! id = Some s → owned_by s o = true → owner_session c o = Some s.
Proof.
  intros Hi Hs Ho. destruct (owner_session c o) as [u|] eqn:Hu.
  - apply owner_session_some in Hu as [Hou [j Hj]]. apply owned_by_true in Ho as [Hm _].
    apply owned_by_true in Hou as [Hmu _].
    assert (id = j) as <- by (apply (oi_unique _ _ Hi id j s u); congruence). congruence.
  - exfalso. pose proof (find_none _ _ Hu s) as Hn.
    rewrite Hn in Ho; [done|]. apply list_elem_of_In, session_list_elem. eauto.
Qed.

(** A route this gateway assigns, of an owner whose process is session [id]. *)
Definition due (c : controller) (id : Z) (s : HostSession) (r : bytes) (o : InstanceOwner) : Prop :=
  loaded (pool c) = true ∧ sessions (observation c) !! id = Some s ∧ owned_by s o = true
  ∧ owners (view (pool c)) !! r = Some o ∧ is_Some (assignments (desired c) !! r)
  ∧ r ∉ expired (view (pool c)).

Lemma place_assign_due now1 now2 o a c id s :
  loaded (pool c) = true → sessions (observation c) !! id = Some s → owned_by s o = true →
  assignments (desired c) !! route a = None →
  (size (assignments (desired c)) < MAX_POOL_INSTANCES)%nat → route a ∉ expired (view (pool c)) →
  let c' := op (EAssign now2 a) (op (EPlace now1 (route a) o) c) in
  due c' id s (route a) o ∧ revision (desired c) < revision (desired c').
Proof.
  intros Hl Hs Ho Hn Hsz He. cbn [op].
  assert (∃ c1, place_owner now1 (route a) o c = c1 ∧ desired c1 = desired_set
      (initialized (desired c)) (revision (desired c1)) (assignments (desired c)) (stopping (desired c))
    ∧ revision (desired c) ≤ revision (desired c1)
    ∧ loaded (pool c1) = true ∧ sessions (observation c1) = sessions (observation c)
    ∧ owners (view (pool c1)) !! route a = Some o
    ∧ expired (view (pool c1)) = expired (view (pool c))) as (c1 & -> & Hd & Hr & Hl1 & Hs1 & Ho1 & He1).
  { eexists. split; [done|]. unfold place_owner. rewrite Hl. cbn [negb orb].
    destruct (bool_decide _) eqn:Hb; cbn.
    - apply bool_decide_eq_true in Hb. split_and!; try done. by destruct (desired c).
    - split_and!; try done; [lia|by rewrite lookup_insert_eq]. }
  assert (assignments (desired c1) = assignments (desired c)) as Ha1 by by rewrite Hd.
  unfold assign. rewrite Ha1, Hn, (bool_decide_eq_false_2 _ is_Some_None). cbn [negb andb].
  replace (MAX_POOL_INSTANCES <=? size (assignments (desired c)))%nat with false
    by (symmetry; apply Nat.leb_gt; lia).
  destruct (put_spec a (revision (desired c1) + 1)
              (with_stopping (delete (route a) (stopping (desired c1))) (desired c1)))
    as [(x & Hx & _)| ->]; [cbn in Hx; congruence|].
  unfold due. cbn. rewrite Ha1, lookup_insert_eq, Hs1, Ho1, He1. split_and!; try done. lia.
Qed.

(** The poll builds a snapshot with the route, which is then sent. *)
Lemma poll_due now id s r o y t :
  sys_inv y → due (ctl y) id s r o → tasks y !! id = Some t → inflight t = None →
  task_sent t < revision (desired (ctl y)) →
  (∀ prev, last_snapshot t = Some prev → r ∉ route <$> snap_instances prev) →
  ∃ snap t' p, tasks (poll now id y) !! id = Some t'
    ∧ inflight t' = Some (revision (desired (ctl y)), snap)
    ∧ snap_revision snap = revision (desired (ctl y))
    ∧ due (ctl (poll now id y)) id (with_pending (Some p) s) r o
    ∧ revision (desired (ctl (poll now id y))) = revision (desired (ctl y)).
Proof.
  intros (Hc & Hst & _) (Hl & Hs & Hw & Ho & [a Ha] & He) Ht Hf Hlt Hprev. unfold poll. rewrite Ht.
  destruct t as [last sent fl]. cbn in Hf, Hlt, Hprev. subst fl.
  rewrite (pi_watch _ (proj1 Hc)).
  replace (revision (desired (ctl y)) <=? sent) with false by (symmetry; apply Z.leb_gt; lia).
  pose proof (pi_loaded _ (proj1 Hc)) as Hin. rewrite Hl in Hin.
  unfold snapshot. rewrite Hin, Hl, Hs. cbn [negb orb].
  match goal with |- context [unchanged last ?x] => set (snap := x) end.
  assert (unchanged last snap = false) as ->.
  { unfold unchanged. destruct last as [prev|]; [|done].
    destruct (bool_decide (snap_instances prev = snap_instances snap)) eqn:Hb; [|done].
    apply bool_decide_eq_true in Hb. exfalso. apply (Hprev prev eq_refl). rewrite Hb.
    apply snapshot_instances_elem; [apply inv_keyed, Hc|]. exists (owner_epoch o).
    apply assigned_terms_lookup; [apply inv_keyed, Hc|]. by exists a, o. }
  cbn [tasks ctl]. rewrite lookup_insert_eq. eexists snap, _, _.
  split; [done|]. split; [done|]. split; [done|]. split; [|done].
  unfold due. cbn. rewrite lookup_insert_eq. by split_and!.
Qed.

(** Once sent, the session has the owner's term. *)
Lemma delivered_due id s r o y t cur snap :
  sys_inv y → due (ctl y) id s r o → tasks y !! id = Some t → inflight t = Some (cur, snap) →
  snap_revision snap = revision (desired (ctl y)) →
  ∃ s' n t', due (ctl (delivered id y)) id s' r o ∧ terms s' !! r = Some (owner_epoch o, n)
    ∧ n ≤ revision (desired (ctl y)) ∧ sent_revision s' = revision (desired (ctl y))
    ∧ revision (desired (ctl (delivered id y))) = revision (desired (ctl y))
    ∧ tasks (delivered id y) !! id = Some t' ∧ inflight t' = None.
Proof.
  intros (Hc & Hst & _) (Hl & Hs & Hw & Ho & [a Ha] & He) Ht Hf Hrev.
  destruct (Hst id s Hs) as (t0 & Ht0 & Hi). rewrite Ht in Ht0. injection Ht0 as <-.
  destruct (sv_inflight _ _ _ _ Hi cur snap Hf) as (_ & p & Hp & (Hok1 & _ & _ & Hlive) & _).
  cbn in Hok1, Hlive. destruct (Hlive Hrev) as [Hass Hkept].
  pose proof (oi_session _ _ (proj2 Hc) id s Hs) as Hsi. pose proof (si_sent _ _ _ _ Hsi) as Hse.
  unfold delivered. rewrite Ht. destruct t as [last sent fl]. cbn in Hf. subst fl.
  unfold record_sent. rewrite Hs, Hp, Hok1, Z.eqb_refl. cbn [ctl tasks].
  assert (pending_assigned p !! r = Some (owner_epoch o)) as Hpa.
  { rewrite Hass. apply assigned_terms_lookup; [apply inv_keyed, Hc|]. by exists a, o. }
  assert (pending_kept p !! r = None) as Hpk.
  { rewrite Hkept. apply eq_None_not_Some. intros [e He']. apply kept_terms_lookup in He'
      as (_ & _ & _ & _ & _ & Hn & _). congruence. }
  eexists _, (default (snap_revision snap) (installed (terms s) r (owner_epoch o))), _.
  rewrite lookup_insert_eq.
  split; [unfold due; cbn; rewrite lookup_insert_eq; by split_and!|].
  split_and!; try done; cbn [terms sent_revision].
  - unfold commit_terms. rewrite lookup_union_r by (by rewrite map_lookup_imap, Hpk).
    by rewrite map_lookup_imap, Hpa.
  - unfold installed. destruct (terms s !! r) as [[e n]|] eqn:Hn; [|cbn; lia].
    pose proof (si_terms _ _ _ _ Hsi _ _ _ Hn). case_match; cbn; lia.
  - lia.
Qed.

(** A report of the instance, ready, is a verdict. *)
Lemma report_due id s r o y t n st i :
  sys_inv y → due (ctl y) id s r o → tasks y !! id = Some t → inflight t = None →
  terms s !! r = Some (owner_epoch o, n) → n ≤ applied_revision st →
  sent_revision s = applied_revision st →
  (length (instances st) ≤ MAX_REPORTED_INSTANCES)%nat →
  find (λ i, bool_decide (st_route i = r)) (instances st) = Some i →
  observed (ctl (report id st y)) r = Reported i.
Proof.
  intros Hy (Hl & Hs & Hw & Ho & Ha & He) Ht Hf Hterm Hn Hsent Hlen Hfind.
  pose proof (report_sys_inv id st y Hy) as Hy'. revert Hy'.
  unfold report. rewrite Ht. destruct t as [last sent fl]. cbn in Hf. subst fl. cbn [ctl].
  intros ([_ Ho'] & _). cbn [ctl] in Ho'. revert Ho'.
  unfold record_status. rewrite Hs, Hsent, Z.ltb_irrefl.
  replace (MAX_REPORTED_INSTANCES <? length (instances st))%nat with false
    by (symmetry; apply Nat.ltb_ge; lia).
  replace (match status s with Some previous => _ | None => false end) with false.
  2: { destruct (status s) as [prev|] eqn:Hst; [|done]. symmetry. apply Z.ltb_ge.
       destruct (si_status _ _ _ _ (oi_session _ _ (proj2 (proj1 Hy)) id s Hs) prev Hst). lia. }
  cbn [snd]. set (s' := session _ _ _ _ _ _ _ _ _ _).
  intros Hoi. match type of Hoi with observed_inv (revision (desired ?c)) _ => set (c' := c) in * end.
  assert (sessions (observation c') !! id = Some s' ∧ view (pool c') = view (pool (ctl y)))
    as [Hs' Hv].
  { subst c'. destruct (leaving st && _); cbn; by rewrite lookup_insert_eq. }
  unfold observed. rewrite Hv, decide_False, Ho by done.
  rewrite (owner_session_unique c' id s' o Hoi Hs') by done.
  unfold session_verdict. subst s'. cbn [status terms]. rewrite Hterm, Z.eqb_refl.
  replace (n <=? applied_revision st) with true by (symmetry; apply Z.leb_le; lia).
  cbn. by rewrite Hfind.
Qed.

(** ** Recovery *)

Lemma unassign_withdrawals now r c :
  withdrawals (pool (unassign now r c)) = {[r]} ∪ withdrawals (pool c).
Proof. unfold unassign. by case_match. Qed.

Lemma unassign_assignments now r c :
  assignments (desired (unassign now r c)) = delete r (assignments (desired c)).
Proof. unfold unassign. repeat case_match; done. Qed.

(** The records the second loop of a recovery withdraws. *)
Definition prunable (read_at_ms : Z) (listed : gset bytes) (record : bytes * Z) : Prop :=
  record.1 ∉ listed
  ∧ record.2 < i64_saturating_sub read_at_ms Coordinator.RECOVERY_PRUNE_MARGIN.

Lemma prune_record_spec now read_at_ms listed c record :
  Coordinator.prune_record now read_at_ms listed c record = unassign now record.1 c
    ∧ prunable read_at_ms listed record
  ∨ Coordinator.prune_record now read_at_ms listed c record = c
    ∧ ¬ prunable read_at_ms listed record.
Proof.
  unfold Coordinator.prune_record, prunable. destruct (_ && _) eqn:Hb.
  - left. apply andb_true_iff in Hb as [Hb%bool_decide_eq_true Hlt%Z.ltb_lt]. done.
  - right. split; [done|]. intros [Hn Hlt]. apply andb_false_iff in Hb as [Hb|Hb].
    + by apply bool_decide_eq_false in Hb.
    + apply Z.ltb_ge in Hb. lia.
Qed.

Lemma prune_fold now read_at_ms listed records c r :
  let c' := fold_left (Coordinator.prune_record now read_at_ms listed) records c in
  let gone := ∃ t, (r, t) ∈ records ∧ prunable read_at_ms listed (r, t) in
  (r ∈ withdrawals (pool c') ↔ r ∈ withdrawals (pool c) ∨ gone)
  ∧ (∀ a, assignments (desired c') !! r = Some a ↔ assignments (desired c) !! r = Some a ∧ ¬ gone).
Proof.
  revert c. induction records as [|[k t] records IH]; intros c; cbn zeta.
  - cbn. split; [|intros a]; split; try tauto.
    + intros [H|(t & H%not_elem_of_nil & _)]; done.
    + intros H. split; [done|]. by intros (t & Hn%not_elem_of_nil & _).
  - cbn [fold_left]. destruct (IH (Coordinator.prune_record now read_at_ms listed c (k, t))) as [IHw IHa].
    assert (Hsplit : (∃ t', (r, t') ∈ (k, t) :: records ∧ prunable read_at_ms listed (r, t'))
      ↔ (r = k ∧ prunable read_at_ms listed (k, t))
        ∨ (∃ t', (r, t') ∈ records ∧ prunable read_at_ms listed (r, t'))).
    { setoid_rewrite elem_of_cons. split.
      - intros (t' & [[= -> ->]|Hin] & Hp); [by left|right; by exists t'].
      - intros [[-> Hp]|(t' & Hin & Hp)]; [exists t|exists t']; tauto. }
    destruct (prune_record_spec now read_at_ms listed c (k, t)) as [[Heq Hp]|[Heq Hp]];
      rewrite Heq in IHw, IHa |- *; rewrite IHw, Hsplit.
    + rewrite unassign_withdrawals. cbn [fst]. split; [set_solver|]. intros a.
      rewrite IHa, unassign_assignments, lookup_delete_Some. cbn [fst].
      split; intros H; destruct_and!; split_and!; try done; naive_solver.
    + split; [tauto|]. intros a. rewrite IHa. tauto.
Qed.

(** ** Theorems *)

(** In every reachable state the controller is coherent: the published
    revision is the desired one; every assignment is keyed by its own route,
    is desired and is no newer than the revision; no desired route is on the
    stop list or withdrawn; every session has an id of its own, a valid
    member that no other session has, and has been sent, has acknowledged and
    has terms of revisions that exist only. *)
Theorem controller_invariant y : reachable y → ctl_inv (ctl y).
Proof. intros H%reachable_inv. apply H. Qed.

(** The owner of a route streams here, its route is not expired, and its own
    session acknowledged the owner's current term of the route. *)
Definition acknowledged_here (y : system) (r : bytes) (st : HostStatus) : Prop :=
  ∃ o id s, owners (view (pool (ctl y))) !! r = Some o ∧ r ∉ expired (view (pool (ctl y)))
    ∧ owner_session (ctl y) o = Some s ∧ owned_by s o = true
    ∧ acknowledged y id s r (owner_epoch o) ∧ status s = Some st.

Lemma available_report i sandbox :
  Coordinator.supervision_of (Reported i) sandbox = Coordinator.Available →
  st_sandbox_id i = sandbox ∧ st_ready i = true ∧ 1 ≤ st_phase i ≤ 3.
Proof.
  cbn. intros Hav. destruct (_ || _) eqn:Hb; [done|]. destruct (_ && _) eqn:Hrd; [|done].
  apply orb_false_iff in Hb as [Hsb%negb_false_iff%bool_decide_eq_true _].
  apply InstanceReport.from_proto_ready in Hrd as [Hready Hph].
  unfold InstanceReport.PHASE_STARTING, InstanceReport.PHASE_SUPERVISING,
    InstanceReport.PHASE_STOPPING in Hph. split_and!; [done|done|lia..].
Qed.

(** C20: what each verdict on a route means. A route is absent only if it is
    expired, or if its owner streams here and has acknowledged the owner's
    current term of it (the owner's own session applied a snapshot that assigned
    the route under that term, and every later snapshot sent on that stream
    carried it under that term), reports no such instance, and has applied the
    revisions of the assignment and of the ownership. A report is of such an
    owner's own status, or, for an owner that streams elsewhere, the one in the
    gateway's records; it makes the instance available only if it names the
    asked sandbox, is ready and is of a live phase. The verdict is pending only
    while the owner streams here, and no host only without an owner or a record.
    Every report given to the gateway's records names a term its stream
    acknowledged. *)
Theorem verdict_sound y :
  reachable y →
  (∀ r, let v := view (pool (ctl y)) in
     match observed (ctl y) r with
     | Absent => r ∈ expired v ∨ ∃ st, acknowledged_here y r st
           ∧ (∀ i, i ∈ instances st → st_route i ≠ r)
           ∧ (∀ a, assignments (desired (ctl y)) !! r = Some a →
                   assigned_revision a ≤ applied_revision st)
           ∧ (∀ m, owned_since (pool (ctl y)) !! r = Some m → m ≤ applied_revision st)
     | Reported i => r ∉ expired v
         ∧ ((∃ st, acknowledged_here y r st ∧ i ∈ instances st ∧ st_route i = r)
            ∨ ∃ o, owners v !! r = Some o ∧ owner_session (ctl y) o = None ∧ reports v !! r = Some i)
         ∧ (∀ sandbox, Coordinator.supervision (ctl y) r sandbox = Coordinator.Available →
              st_sandbox_id i = sandbox ∧ st_ready i = true ∧ 1 ≤ st_phase i ≤ 3)
     | Pending => r ∉ expired v ∧ ∃ o s, owners v !! r = Some o ∧ owner_session (ctl y) o = Some s
     | NoHost => r ∉ expired v ∧ ∀ o, owners v !! r = Some o →
           owner_session (ctl y) o = None ∧ reports v !! r = None
     end) ∧
  (∀ m, m ∈ member_reports (ctl y) →
     ∃ id s, acknowledged y id s (st_route (mr_status m)) (mr_auth_epoch m)
             ∧ member_id (member s) = mr_member_id m ∧ instance_id s = mr_process_id m).
Proof.
  intros Hy%reachable_inv. split.
  - intros r. cbn zeta. unfold Coordinator.supervision.
    pose proof (available_report) as Hav. destruct (decide (r ∈ expired (view (pool (ctl y))))) as [He|He].
    { unfold observed. rewrite decide_True by done. by left. }
    destruct (owners (view (pool (ctl y))) !! r) as [o|] eqn:Ho.
    2: { unfold observed. rewrite decide_False, Ho by done. by split. }
    destruct (owner_session (ctl y) o) as [s|] eqn:Hs.
    2: { unfold observed. rewrite decide_False, Ho, Hs by done.
         destruct (reports (view (pool (ctl y))) !! r) as [i|] eqn:Hr.
         - split_and!; [done| |intros; by eapply Hav]. right. by exists o.
         - split; [done|]. intros o' [= <-]. done. }
    assert (observed (ctl y) r = session_verdict (ctl y) r o s) as Heq.
    { unfold observed. by rewrite decide_False, Ho, Hs by done. }
    rewrite Heq. assert (session_verdict (ctl y) r o s = Pending ∨ session_verdict (ctl y) r o s ≠ Pending) as [->|Hv]
      by (destruct (session_verdict (ctl y) r o s); first [by left|by right]).
    { split; [done|]. by exists o, s. }
    pose proof Hs as [Hw [id Hid]]%owner_session_some.
    destruct (session_verdict_cases _ _ _ _ Hv) as (st & n & Hst & Ht & Hn & Hm).
    assert (acknowledged_here y r st) as Hack.
    { exists o, id, s. split_and!; try done. by apply (acknowledged_intro _ _ _ _ _ n st). }
    destruct (session_verdict (ctl y) r o s) as [| | |i]; [done..| |].
    + right. by exists st.
    + split_and!; [done| |intros; by eapply Hav]. left. by exists st.
  - intros m Hm. unfold member_reports in Hm. apply list_elem_of_In, in_concat in Hm as (l & Hl & Hm).
    apply list_elem_of_In, list_elem_of_fmap in Hl as (s & -> & [id Hs]%session_list_elem).
    unfold session_reports in Hm. destruct (status s) as [st|] eqn:Hst; [|done].
    apply list_elem_of_In, list_elem_of_omap in Hm as (i & Hi & Hm).
    destruct (terms s !! st_route i) as [[e n]|] eqn:Ht; [|done].
    destruct (n <=? applied_revision st) eqn:Hn; [|done]. injection Hm as <-.
    exists id, s. cbn. split_and!; try done. apply Z.leb_le in Hn.
    by apply (acknowledged_intro _ _ _ _ _ n st).
Qed.

(** C32: What a member is told. A snapshot for a session runs or keeps exactly
    the desired routes its own process owns, so no two members are ever told
    to run the same route, an owned desired route is never released by
    omission, and a route a member is told to stop is one no snapshot runs or
    keeps. *)
Theorem snapshot_exclusive y now id snap c' :
  reachable y → snapshot now id (ctl y) = (Some snap, c') →
  (∃ s, sessions (observation (ctl y)) !! id = Some s ∧
     ∀ r, serves snap r ↔ r ∈ view_desired (view (pool (ctl y))) ∧
            ∃ o, owners (view (pool (ctl y))) !! r = Some o ∧ owned_by s o = true) ∧
  (∀ now2 id2 snap2 c2 r, snapshot now2 id2 (ctl y) = (Some snap2, c2) → serves snap r →
     (serves snap2 r → id2 = id) ∧ r ∉ stop_routes snap2).
Proof.
  intros [[Hp Ho] _]%reachable_inv Hs. pose proof (serves_iff _ _ _ _ _ Hp Hs) as (s & Hid & Hr).
  split; [by exists s|]. intros now2 id2 snap2 c2 r Hs2 Hsv. apply Hr in Hsv as (Hd & o & Hor & Hw).
  split.
  - destruct (serves_iff _ _ _ _ _ Hp Hs2) as (s2 & Hid2 & Hr2).
    intros (_ & o2 & Hor2 & Hw2)%Hr2. assert (o2 = o) as -> by congruence.
    apply owned_by_true in Hw as [Hm _]. apply owned_by_true in Hw2 as [Hm2 _].
    apply (oi_unique _ _ Ho id2 id s2 s); congruence.
  - intros Hst. by apply (stops_not_desired _ _ _ _ _ _ Hp Hs2 Hst).
Qed.

(** A launch becomes available. From any reachable state with a loaded
    view and an idle stream of the process an instance is placed on, once
    the placement and the assignment are published, the stream polls and
    delivers, and the host reports the instance ready at the revision it was
    sent, the coordinator finds the instance available: no check in between
    refuses or delays it. *)
Theorem launch_becomes_available y id s t o a now1 now2 now3 applied others is_leaving ready :
  reachable y → loaded (pool (ctl y)) = true →
  sessions (observation (ctl y)) !! id = Some s → owned_by s o = true →
  tasks y !! id = Some t → inflight t = None →
  assignments (desired (ctl y)) !! route a = None →
  (size (assignments (desired (ctl y))) < MAX_POOL_INSTANCES)%nat →
  route a ∉ expired (view (pool (ctl y))) →
  (∀ prev, last_snapshot t = Some prev → route a ∉ route <$> snap_instances prev) →
  let y' := run [EPlace now1 (route a) o; EAssign now2 a; EPoll now3 id; EDelivered id] y in
  applied = revision (desired (ctl y')) →
  st_route ready = route a → st_sandbox_id ready = sandbox_id a → st_ready ready = true →
  st_phase ready = InstanceReport.PHASE_SUPERVISING →
  (length others < MAX_REPORTED_INSTANCES)%nat → Forall (λ i, st_route i ≠ route a) others →
  Coordinator.supervision
    (ctl (apply y' (EReport id (Status applied (others ++ [ready]) is_leaving))))
    (route a) (sandbox_id a) = Coordinator.Available.
Proof.
  intros Hy Hl Hs Hw Ht Hf Hn Hsz He Hprev y' Happ Hr Hsb Hrd Hph Hlen Hoth.
  pose proof (reachable_inv y Hy) as Hi. destruct Hi as (Hc & Hst & _).
  destruct (Hst id s Hs) as (t0 & Ht0 & Hv). rewrite Ht in Ht0. injection Ht0 as <-.
  pose proof (sv_sent _ _ _ _ Hv) as Hts.
  set (y2 := run [EPlace now1 (route a) o; EAssign now2 a] y).
  assert (sys_inv y2) as Hi2.
  { apply reachable_inv. apply reachable_run; [done|]. by repeat constructor. }
  destruct (place_assign_due now1 now2 o a (ctl y) id s Hl Hs Hw Hn Hsz He) as [Hdue Hlt].
  destruct (poll_due now3 id s (route a) o y2 t Hi2 Hdue Ht Hf) as (snap & t3 & p & Ht3 & Hf3 & Hsr & Hd3 & Hr3);
    [unfold y2; cbn [run fold_left apply ctl] in *; lia|done|].
  pose proof (poll_sys_inv now3 id y2 Hi2) as Hi3.
  rewrite <- Hr3 in Hsr, Hf3.
  destruct (delivered_due id _ (route a) o (poll now3 id y2) t3 _ snap Hi3 Hd3 Ht3 Hf3 Hsr)
    as (s4 & n & t4 & Hd4 & Hterm & Hn4 & Hsent & Hr4 & Ht4 & Hf4).
  change (poll now3 id y2) with (apply y2 (EPoll now3 id)) in *.
  change (delivered id (apply y2 (EPoll now3 id))) with y' in *.
  unfold Coordinator.supervision.
  match goal with |- context [apply y' (EReport ?i ?st)] =>
    change (apply y' (EReport i st)) with (report i st y') end.
  rewrite (report_due id s4 (route a) o y' t4 n _ ready); try done.
  - cbn. rewrite Hph, Hsb, Hrd, bool_decide_eq_true_2 by done. done.
  - by apply delivered_sys_inv.
  - cbn. lia.
  - cbn. lia.
  - cbn [instances]. rewrite length_app. cbn [length]. lia.
  - cbn [instances]. clear -Hoth Hr. induction Hoth as [|i l Hne _ IH]; cbn.
    + by rewrite bool_decide_eq_true_2.
    + by rewrite bool_decide_eq_false_2.
Qed.

(** A recovery pass withdraws exactly the durable records its driver's
    listing omits and that were published more than the margin before the
    pass began, whatever the pass records meanwhile; a pass that cannot read
    the records withdraws nothing. What it records for a candidate has the
    candidate's own route and sandbox. *)
Theorem recovery_prunes_exactly {R D E X : Type} `{Registration R} (pl : InstancePlacement D)
    (now read_at_ms : Z) (candidates : list (Coordinator.RecoverableInstance X))
    (read : X → result (option bytes) E) (cd : controller * D) :
  (∀ records, recorded cd.2 = Ok records →
     let c1 := (fold_left (Coordinator.recover_candidate read records) candidates
                  (Coordinator.Published (current_revision cd.1), cd)).2.1 in
     let c2 := (Coordinator.reconcile_pool (Some pl) now read_at_ms candidates read cd).2.1 in
     ∀ r, let gone := ∃ t, records !! r = Some t
                        ∧ prunable read_at_ms
                            (list_to_set (Coordinator.cand_route <$> candidates)) (r, t) in
         (r ∈ withdrawals (pool c2) ↔ r ∈ withdrawals (pool c1) ∨ gone)
         ∧ (∀ a, assignments (desired c2) !! r = Some a
                 ↔ assignments (desired c1) !! r = Some a ∧ ¬ gone))
  ∧ (∀ e, recorded cd.2 = Err e →
       Coordinator.reconcile_pool (Some pl) now read_at_ms candidates read cd
       = (Coordinator.Kept, cd))
  ∧ (∀ cand material a,
       Coordinator.recovered_assignment (R := R) (X := X) cand material = Ok a →
       route a = Coordinator.cand_route cand ∧ sandbox_id a = Coordinator.cand_sandbox_id cand).
Proof.
  split_and!.
  - intros records Hrec. cbn zeta. intros r.
    unfold Coordinator.reconcile_pool. rewrite Hrec.
    destruct (fold_left _ candidates _) as [outcome [c1 d1]]. cbn [fst snd].
    pose proof (prune_fold now read_at_ms (list_to_set (Coordinator.cand_route <$> candidates))
                  (by_route records) c1 r) as Hp. cbn zeta in Hp.
    setoid_rewrite by_route_elem in Hp. done.
  - intros e Hrec. unfold Coordinator.reconcile_pool. by rewrite Hrec.
  - intros cand material a. unfold Coordinator.recovered_assignment.
    destruct (LaunchMaterial.from_launch_material material) as [reg|]; [|done]. cbn.
    destruct (_ || _) eqn:Hb; [done|]. apply orb_false_iff in Hb as [H1 H2].
    apply negb_false_iff, bool_decide_eq_true in H1, H2. destruct (reg_validate reg); [|done]. cbn.
    unfold LaunchMaterial.to_assignment. destruct (reg_to_vec reg); [|done].
    case_match; [done|]. by intros [= <-].
Qed.

(** ** A pool of one member *)

Definition ex_member : PoolMember := Member (lit "m-1") (lit "10.0.0.1:9000").
Definition ex_hello : HostHello := Hello (lit "process-1") 1 (Some ex_member).
Definition ex_who : HostIdentity := Identity (lit "openshell-supervisor:gw") (lit "jti") 1000.
Definition ex_view : PoolView :=
  View [View_member (lit "m-1") (lit "process-1") (lit "10.0.0.1:9000") false] ∅ ∅ ∅ ∅ ∅.
Definition ex_owner : InstanceOwner := Owner (lit "m-1") (lit "process-1") 1 None None.
Definition ex_assignment : SandboxInstanceAssignment :=
  Assignment (lit "rt-0123456789abcdef") (lit "sandbox") (lit "g1") [] None.
Definition ex_ready : SandboxInstanceStatus :=
  InstanceStatus (lit "rt-0123456789abcdef") (lit "sandbox") 2 true 0 [].

(** The view is loaded and the member attached. *)
Definition ex_attached : system :=
  run [EUpdate 0 0 ex_view; EAttach 0 ex_who (GotHello ex_hello)] system_new.
(** An instance is launched and reported. *)
Definition ex_running : system :=
  run [EPlace 0 (lit "rt-0123456789abcdef") ex_owner; EAssign 0 ex_assignment; EPoll 0 1;
       EDelivered 1; EReport 1 (Status 3 [ex_ready] false)] ex_attached.

(** Durable records kept as a map; a registration is its route. *)
#[local] Instance ex_registration : Registration bytes :=
  {| reg_route := λ r, r; reg_sandbox_id := λ _, lit "sandbox"; reg_generation := λ _, lit "g1";
     reg_auth_epoch := λ _, 1; reg_validate := λ _, Ok tt; reg_to_vec := λ r, Ok r;
     reg_from_slice := Some |}.
#[local] Instance ex_placement : InstancePlacement (gmap bytes Z) :=
  {| place_launch := λ a _ cd, (Ok tt, (cd.1, <[route a := 0]> cd.2));
     recorded := λ d, Ok d;
     record_recovered := λ a cd, (Ok tt, (cd.1, <[route a := 0]> cd.2)) |}.

Lemma ex_attached_reachable : reachable ex_attached.
Proof. apply reachable_run; [constructor|]. repeat constructor; cbn; set_solver. Qed.
Lemma ex_running_reachable : reachable ex_running.
Proof. apply reachable_run; [apply ex_attached_reachable|]. by repeat constructor. Qed.

Lemma controller_invariant_witness : ctl_inv (ctl ex_running).
Proof. apply (controller_invariant ex_running), ex_running_reachable. Defined.

Lemma verdict_sound_witness :
  observed (ctl ex_running) (lit "rt-0123456789abcdef") = Reported ex_ready ∧
  ∃ st, acknowledged_here ex_running (lit "rt-0123456789abcdef") st ∧ ex_ready ∈ instances st.
Proof.
  assert (observed (ctl ex_running) (lit "rt-0123456789abcdef") = Reported ex_ready) as Hv
    by (vm_compute; reflexivity).
  split; [done|].
  pose proof (proj1 (verdict_sound ex_running ex_running_reachable) (lit "rt-0123456789abcdef")) as H.
  cbn zeta in H. rewrite Hv in H. destruct H as (_ & [(st & Hack & Hi & _)|(o & Ho & Hs & _)] & _).
  - exists st. split; [exact Hack|exact Hi].
  - assert (owners (view (pool (ctl ex_running))) !! lit "rt-0123456789abcdef" = Some ex_owner) as Ho'
      by (vm_compute; reflexivity).
    rewrite Ho' in Ho. injection Ho as <-. vm_compute in Hs. discriminate.
Defined.

Lemma snapshot_exclusive_witness :
  ∃ snap c', snapshot 0 1 (ctl ex_running) = (Some snap, c') ∧
    (serves snap (lit "rt-0123456789abcdef") → lit "rt-0123456789abcdef" ∉ stop_routes snap).
Proof.
  destruct (snapshot 0 1 (ctl ex_running)) as [[snap|] c'] eqn:Hs; [|vm_compute in Hs; discriminate].
  exists snap, c'. split; [reflexivity|]. intros Hsv.
  destruct (snapshot_exclusive ex_running 0 1 snap c' ex_running_reachable Hs) as [_ H].
  apply (H 0 1 snap c' (lit "rt-0123456789abcdef") Hs Hsv).
Defined.

(** The record the listing omits is withdrawn; the young one stays. *)
Lemma recovery_prunes_exactly_witness :
  let c := (Coordinator.reconcile_pool (E := unit) (Some ex_placement) 0 100000
              [Coordinator.Candidate (lit "rt-listed") (lit "sandbox") (lit "rt-listed")]
              (λ m, Ok (Some m))
              (controller_new, {[lit "rt-stale" := 100; lit "rt-young" := 99000]})).2.1 in
  lit "rt-stale" ∈ withdrawals (pool c) ∧ lit "rt-young" ∉ withdrawals (pool c).
Proof.
  set (records := {[lit "rt-stale" := 100; lit "rt-young" := 99000]} : gmap bytes Z).
  destruct (recovery_prunes_exactly (R := bytes) (E := unit) ex_placement 0 100000
              [Coordinator.Candidate (lit "rt-listed") (lit "sandbox") (lit "rt-listed")]
              (λ m, Ok (Some m)) (controller_new, records)) as [H _].
  specialize (H records eq_refl). cbn zeta in H. split.
  - apply (proj1 (H (lit "rt-stale"))). right. exists 100. split; [vm_compute; reflexivity|].
    split; [apply (bool_decide_unpack _); vm_compute; exact I|vm_compute; reflexivity].
  - intros Hin. apply (proj1 (H (lit "rt-young"))) in Hin as [Hin|(t & Ht & _ & Hlt)].
    + vm_compute in Hin. discriminate Hin.
    + vm_compute in Ht. injection Ht as <-. vm_compute in Hlt. discriminate Hlt.
Defined.

Lemma launch_becomes_available_witness :
  Coordinator.supervision
    (ctl (apply (run [EPlace 0 (lit "rt-0123456789abcdef") ex_owner; EAssign 0 ex_assignment;
                      EPoll 0 1; EDelivered 1] ex_attached)
            (EReport 1 (Status 3 ([] ++ [ex_ready]) false))))
    (lit "rt-0123456789abcdef") (lit "sandbox") = Coordinator.Available.
Proof.
  apply (launch_becomes_available ex_attached 1 (new_session 1 ex_who ex_hello ex_member 0)
           new_task ex_owner ex_assignment 0 0 0 3 [] false ex_ready);
    try (vm_compute; reflexivity).
  - apply ex_attached_reachable.
  - apply Nat.ltb_lt. vm_compute. reflexivity.
  - apply (bool_decide_unpack _). vm_compute. exact I.
  - intros prev Hp. discriminate Hp.
  - apply Nat.ltb_lt. vm_compute. reflexivity.
  - constructor.
Defined.

End HostControlFacts.
