(* ===== verification/PolicySchema.v ===== *)
(** * PolicySchema: the authored policy document

    The data types of [crates/openshell-policy-schema/src/lib.rs] and the
    derived values the tools read off them. Parsing YAML or JSON into a
    document is serde's; a document is data here. A [BTreeMap] that is only
    read in key order is the list of its entries in that order, and a
    [serde_json::Value] its tree. *)

From S2P Require Import Prelude PolicyTypes.
From stdpp Require Import gmap.

(** Equality of lists of pairs, from equality on the components. *)
Section list_eq.
Context {A : Type} (eq_dec : ∀ x y : A, {x = y} + {x ≠ y}).
Fixpoint list_eq_dec_with (l k : list A) : {l = k} + {l ≠ k}.
Proof.
  refine (match l, k with
  | [], [] => left eq_refl
  | x :: l, y :: k =>
      match eq_dec x y with
      | left H1 => match list_eq_dec_with l k with left H2 => left _ | right H2 => right _ end
      | right H1 => right _
      end
  | _, _ => right _
  end); congruence.
Defined.
End list_eq.

Module PolicySchema.
Local Open Scope Z_scope.

Record AnyMatcher := any_matcher { any : list bytes }.
#[export] Instance any_matcher_eq : EqDecision AnyMatcher.
Proof. solve_decision. Defined.

Inductive QueryMatcher := Glob (g : bytes) | Any (m : AnyMatcher).
#[export] Instance query_matcher_eq : EqDecision QueryMatcher.
Proof. solve_decision. Defined.

Inductive ParameterMatcher :=
  | Matcher (m : QueryMatcher)
  | Object (fields : list (bytes * ParameterMatcher)).
Fixpoint parameter_matcher_eq_dec (x y : ParameterMatcher) : {x = y} + {x ≠ y}.
Proof.
  refine (match x, y with
  | Matcher a, Matcher b => match decide (a = b) with left H => left _ | right H => right _ end
  | Object l, Object k =>
      match list_eq_dec_with (λ p q,
              match p, q with
              | (a, u), (b, v) =>
                  match decide (a = b) with
                  | left H1 => match parameter_matcher_eq_dec u v with
                               | left H2 => left _ | right H2 => right _ end
                  | right H1 => right _
                  end
              end) l k with left H => left _ | right H => right _ end
  | _, _ => right _
  end); congruence.
Defined.
#[export] Instance parameter_matcher_eq : EqDecision ParameterMatcher := parameter_matcher_eq_dec.

Inductive json :=
  | JNull | JBool (b : bool) | JNumber (text : bytes) | JString (s : bytes)
  | JArray (l : list json) | JObject (fields : list (bytes * json)).
Fixpoint json_eq_dec (x y : json) : {x = y} + {x ≠ y}.
Proof.
  refine (match x, y with
  | JNull, JNull => left eq_refl
  | JBool a, JBool b => match decide (a = b) with left H => left _ | right H => right _ end
  | JNumber a, JNumber b => match decide (a = b) with left H => left _ | right H => right _ end
  | JString a, JString b => match decide (a = b) with left H => left _ | right H => right _ end
  | JArray l, JArray k =>
      match list_eq_dec_with json_eq_dec l k with left H => left _ | right H => right _ end
  | JObject l, JObject k =>
      match list_eq_dec_with (λ p q,
              match p, q with
              | (a, u), (b, v) =>
                  match decide (a = b) with
                  | left H1 => match json_eq_dec u v with left H2 => left _ | right H2 => right _ end
                  | right H1 => right _
                  end
              end) l k with left H => left _ | right H => right _ end
  | _, _ => right _
  end); congruence.
Defined.
#[export] Instance json_eq : EqDecision json := json_eq_dec.

Record FilesystemPolicy := filesystem {
  include_workdir : bool; read_only : list bytes; read_write : list bytes }.

Inductive LandlockCompatibility := BestEffort | HardRequirement.
Record LandlockPolicy := landlock_policy { compatibility : LandlockCompatibility }.

Record ProcessPolicy := process_policy { run_as_user : bytes; run_as_group : bytes }.

Record NetworkCredentialBinding := credential_binding_to { provider : bytes }.
Record JsonRpcConfig := json_rpc_config { rpc_max_body_bytes : Z }.
Record McpConfig := mcp_config {
  versions : option (list bytes); mcp_max_body_bytes : Z; strict_tool_names : option bool;
  allow_all_known_mcp_methods : option bool }.
Record GraphqlOperation := graphql_operation {
  gql_operation_type : bytes; gql_operation_name : bytes; gql_fields : list bytes }.

(** [L7Allow] and [L7DenyRule] have the same fields. *)
Record L7Allow := l7_allow {
  method : bytes; path : bytes; command : bytes; query : list (bytes * QueryMatcher);
  operation_type : bytes; operation_name : bytes; fields : list bytes;
  tool : option QueryMatcher; params : list (bytes * ParameterMatcher) }.
Record L7Rule := l7_rule { allow : L7Allow }.
Record L7DenyRule := l7_deny { deny : L7Allow }.

Record NetworkBinary := network_binary { binary_path : bytes }.

Record NetworkEndpoint := network_endpoint {
  host : bytes; endpoint_path : bytes; port : Z; ports : list Z; protocol : bytes; tls : bytes;
  enforcement : bytes; access : bytes; rules : list L7Rule; allowed_ips : list bytes;
  deny_rules : list L7DenyRule; allow_encoded_slash : bool; websocket_credential_rewrite : bool;
  request_body_credential_rewrite : bool; allow_uninspected_credentials : bool;
  persisted_queries : bytes; graphql_persisted_queries : list (bytes * GraphqlOperation);
  graphql_max_body_bytes : Z; credential_signing : bytes; signing_service : bytes;
  signing_region : bytes; credential_binding : option NetworkCredentialBinding;
  json_rpc : option JsonRpcConfig; mcp : option McpConfig }.

Record NetworkPolicyRule := network_rule {
  rule_name : bytes; endpoints : list NetworkEndpoint; binaries : list NetworkBinary }.

Record MiddlewareEndpointSelector := middleware_endpoints {
  include : list bytes; exclude : list bytes }.
Record NetworkMiddleware := network_middleware {
  mw_name : bytes; middleware : bytes; order : Z; config : list (bytes * json);
  on_error : bytes; mw_endpoints : option MiddlewareEndpointSelector }.

Record PolicyDocument := policy_document {
  version : Z; filesystem_policy : option FilesystemPolicy; landlock : option LandlockPolicy;
  process : option ProcessPolicy; network_policies : list (bytes * NetworkPolicyRule);
  network_middlewares : list (bytes * NetworkMiddleware) }.

#[export] Instance filesystem_eq : EqDecision FilesystemPolicy.
Proof. solve_decision. Defined.
#[export] Instance landlock_compatibility_eq : EqDecision LandlockCompatibility.
Proof. solve_decision. Defined.
#[export] Instance landlock_eq : EqDecision LandlockPolicy.
Proof. solve_decision. Defined.
#[export] Instance process_eq : EqDecision ProcessPolicy.
Proof. solve_decision. Defined.
#[export] Instance credential_binding_eq : EqDecision NetworkCredentialBinding.
Proof. solve_decision. Defined.
#[export] Instance json_rpc_eq : EqDecision JsonRpcConfig.
Proof. solve_decision. Defined.
#[export] Instance mcp_eq : EqDecision McpConfig.
Proof. solve_decision. Defined.
#[export] Instance graphql_operation_eq : EqDecision GraphqlOperation.
Proof. solve_decision. Defined.
#[export] Instance l7_allow_eq : EqDecision L7Allow.
Proof. solve_decision. Defined.
#[export] Instance l7_rule_eq : EqDecision L7Rule.
Proof. solve_decision. Defined.
#[export] Instance l7_deny_eq : EqDecision L7DenyRule.
Proof. solve_decision. Defined.
#[export] Instance network_binary_eq : EqDecision NetworkBinary.
Proof. solve_decision. Defined.
#[export] Instance network_endpoint_eq : EqDecision NetworkEndpoint.
Proof. solve_decision. Defined.
#[export] Instance network_rule_eq : EqDecision NetworkPolicyRule.
Proof. solve_decision. Defined.
#[export] Instance middleware_selector_eq : EqDecision MiddlewareEndpointSelector.
Proof. solve_decision. Defined.
#[export] Instance network_middleware_eq : EqDecision NetworkMiddleware.
Proof. solve_decision. Defined.

Definition effective_filesystem_policy (d : PolicyDocument) : FilesystemPolicy :=
  default (filesystem true [] []) (filesystem_policy d).

Definition effective_name (r : NetworkPolicyRule) (key : bytes) : bytes :=
  if is_empty (rule_name r) then key else rule_name r.

Definition effective_ports (e : NetworkEndpoint) : list Z :=
  if is_empty (ports e) then (if port e =? 0 then [] else [port e]) else ports e.

Definition is_l4 (e : NetworkEndpoint) : bool :=
  is_empty (protocol e) || eq_ignore_ascii_case (protocol e) (lit "tcp").

(** [normalize_path], for a Unix path: [Path::components] drops empty and [.]
    components, keeps [..], and a leading [.] of a relative path is dropped
    too; the components are joined again under the root if there was one. *)
Definition path_components (p : bytes) : list bytes :=
  filter (λ c, c ≠ [] ∧ c ≠ lit ".") (split_on 47 p).
Definition normalize_path (p : bytes) : bytes :=
  let body := join_with 47 (path_components p) in
  match p with
  | c :: _ => if c =? 47 then 47 :: body else body
  | [] => []
  end.

End PolicySchema.
