(* ===== verification/PolicyValidate.v ===== *)
(** * PolicyValidate: validation of a whole sandbox policy
    (crates/openshell-policy/src/lib.rs, l7_validate.rs and middleware.rs, and
    [merge_policy] of merge.rs)

    The gateway stores a policy only after this check, and a merge runs it on
    the policy it starts from, on every rule it adds and on its result. The
    reasons of a violation, which the code formats, are constructors. *)

From stdpp Require Import gmap.
From S2P Require Import Prelude Net IpParse Order Text Patterns PolicyDns PolicyTypes PolicyMerge.
From S2P Require Import PolicySchema.

Local Open Scope Z_scope.

(** [if b { errors.push(x) }]. *)
Definition push_if {A} (b : bool) (x : A) : list A := if b then [x] else [].

(** ** Endpoint modes and L7 semantics (l7_validate.rs) *)

Module L7Validate.

Inductive L7Error : Type :=
| UnknownTlsValue (tls : bytes)
| UnknownTlsEnum (tls : Z)
| UnknownEnforcementEnum (enforcement : Z)
| UnknownAccessEnum (access : Z)
| UnknownEnforcementValue (enforcement : bytes)
| UnknownAccessValue (access : bytes)
| RestWebsocketRewrite
| UnknownProtocol (protocol : bytes)
| TcpWithL7Permissions
| TcpWithL7Fields (fields : list bytes)
| RulesAndAccess
| JsonRpcFamilyAccess (protocol : bytes) (is_mcp : bool)
| JsonRpcNeedsRules (protocol : bytes)
| NeedsRulesOrAccess
| McpNeedsRules
| RulesDenyAll
| DenyRulesWithoutProtocol
| DenyRulesWithoutBase
| BadPath
| BadPersistedQueries (value : bytes)
| SqlEnforce
| RuleOperationType (index : nat)
| DenyRuleOperationType (index : nat)
| PersistedOperationType (key : bytes).

Definition unknown_tls_value (tls : bytes) : list L7Error :=
  push_if (negb (bool_decide (tls = []) || bool_decide (tls = lit "skip"))) (UnknownTlsValue tls).

Definition validate_endpoint_mode_values (tls enforcement access : Z) : list L7Error :=
  match network_tls_mode_to_str tls with
  | Some value => unknown_tls_value value
  | None => [UnknownTlsEnum tls]
  end
  ++ push_if (negb (is_some (network_enforcement_mode_to_str enforcement)))
       (UnknownEnforcementEnum enforcement)
  ++ push_if (negb (is_some (network_access_preset_to_str access))) (UnknownAccessEnum access).

Definition validate_endpoint_modes (tls enforcement access : bytes) : list L7Error :=
  unknown_tls_value tls
  ++ push_if (negb (bool_decide (enforcement ∈ [[]; lit "enforce"; lit "audit"])))
       (UnknownEnforcementValue enforcement)
  ++ push_if (negb (bool_decide (access ∈ [[]; lit "read-only"; lit "read-write"; lit "full"])))
       (UnknownAccessValue access).

Inductive L7Protocol : Type := Rest | Websocket | Graphql | Sql | JsonRpc | Mcp.

Definition L7Protocol_parse (s : bytes) : option L7Protocol :=
  let s := to_ascii_lowercase s in
  if bool_decide (s = lit "rest") then Some Rest
  else if bool_decide (s = lit "websocket") then Some Websocket
  else if bool_decide (s = lit "graphql") then Some Graphql
  else if bool_decide (s = lit "sql") then Some Sql
  else if bool_decide (s = lit "json-rpc") then Some JsonRpc
  else if bool_decide (s = lit "mcp") then Some Mcp
  else None.
Definition is_jsonrpc_family (p : L7Protocol) : bool :=
  match p with JsonRpc | Mcp => true | _ => false end.

Definition is_explicit_tcp_protocol (protocol : bytes) : bool :=
  eq_ignore_ascii_case protocol (lit "tcp").

Inductive TransportRejection : Type := RequestsTcp | RequestsTlsSkip.
Definition agent_authored_transport_rejection (protocol tls : bytes) : option TransportRejection :=
  if is_explicit_tcp_protocol protocol then Some RequestsTcp
  else if eq_ignore_ascii_case tls (lit "skip") then Some RequestsTlsSkip
  else None.

Definition validate_explicit_tcp_additional_fields (protocol : bytes) (present_fields : list bytes)
  : list L7Error :=
  if negb (is_explicit_tcp_protocol protocol) || is_empty present_fields then []
  else [TcpWithL7Fields present_fields].

Record L7EndpointFields := l7_fields {
  f_protocol : bytes;
  f_access : bytes;
  has_rules : bool;
  f_websocket_credential_rewrite : bool;
  has_deny_rules : bool;
  rules_would_deny_all : bool;
  f_allow_all_known_mcp_methods : bool;
}.

Definition validate_l7_endpoint_semantics (ep : L7EndpointFields) : list L7Error :=
  let protocol := f_protocol ep in
  let l7_protocol := L7Protocol_parse protocol in
  let explicit_tcp := is_explicit_tcp_protocol protocol in
  let jsonrpc_family := match l7_protocol with Some p => is_jsonrpc_family p | None => false end in
  let is_rest := match l7_protocol with Some Rest => true | _ => false end in
  let is_mcp := match l7_protocol with Some Mcp => true | _ => false end in
  let is_jsonrpc := match l7_protocol with Some JsonRpc => true | _ => false end in
  let no_access := is_empty (f_access ep) in
  push_if (is_rest && f_websocket_credential_rewrite ep) RestWebsocketRewrite
  ++ push_if (negb (is_empty protocol) && negb (is_some l7_protocol) && negb explicit_tcp)
       (UnknownProtocol protocol)
  ++ push_if (explicit_tcp && (negb no_access || has_rules ep || has_deny_rules ep))
       TcpWithL7Permissions
  ++ push_if (has_rules ep && negb no_access) RulesAndAccess
  ++ push_if (jsonrpc_family && negb no_access) (JsonRpcFamilyAccess protocol is_mcp)
  ++ push_if (is_jsonrpc && negb (has_rules ep) && no_access) (JsonRpcNeedsRules protocol)
  ++ push_if (is_some l7_protocol && negb is_mcp && negb is_jsonrpc && negb (has_rules ep) && no_access)
       NeedsRulesOrAccess
  ++ push_if (is_mcp && negb (has_rules ep) && no_access && negb (f_allow_all_known_mcp_methods ep))
       McpNeedsRules
  ++ push_if (rules_would_deny_all ep && negb (is_mcp && f_allow_all_known_mcp_methods ep))
       RulesDenyAll
  ++ push_if (has_deny_rules ep && negb (is_some l7_protocol)) DenyRulesWithoutProtocol
  ++ push_if (has_deny_rules ep && negb is_mcp && negb (has_rules ep) && no_access)
       DenyRulesWithoutBase.
End L7Validate.
Import L7Validate.

(** ** The policy (proto/sandbox.proto) *)

Module PolicyValidate.

(** The configuration of a middleware is a [prost_types::Struct], which the
    validator hands on and a merge only compares. *)
Class ProtoStruct := {
  Struct : Type;
  struct_eqb : Struct → Struct → bool;
}.

Record FilesystemPolicy := filesystem_of {
  include_workdir : bool;
  read_only : list bytes;
  read_write : list bytes;
}.
#[export] Instance FilesystemPolicy_eq_dec : EqDecision FilesystemPolicy.
Proof. solve_decision. Defined.

Record ProcessPolicy := process_of { run_as_user : bytes; run_as_group : bytes }.
#[export] Instance ProcessPolicy_eq_dec : EqDecision ProcessPolicy.
Proof. solve_decision. Defined.

Record MiddlewareEndpointSelector := selector_of { include : list bytes; exclude : list bytes }.
#[export] Instance MiddlewareEndpointSelector_eq_dec : EqDecision MiddlewareEndpointSelector.
Proof. solve_decision. Defined.

Section policy.
Context {proto : ProtoStruct}.

Record NetworkMiddlewareConfig := middleware_of {
  mw_name : bytes;
  middleware : bytes;
  config : option Struct;
  on_error : bytes;
  mw_endpoints : option MiddlewareEndpointSelector;
  order : Z;
}.

(** A [LandlockPolicy] is its compatibility mode. *)
Record SandboxPolicy := policy_of {
  version : Z;
  filesystem : option FilesystemPolicy;
  landlock : option bytes;
  process : option ProcessPolicy;
  policies : network_policies;
  network_middlewares : gmap bytes NetworkMiddlewareConfig;
}.
Definition with_policies (p : SandboxPolicy) (m : network_policies) : SandboxPolicy :=
  policy_of (version p) (filesystem p) (landlock p) (process p) m (network_middlewares p).
End policy.

(** ** Violations *)

(** Why a host cannot be that of an explicit TCP endpoint. *)
Inductive TcpHostDefect {glob : Glob} : Type :=
| UntrimmedHost
| TrailingRootDot
| BadSelector (e : HostSelector.error)
| NoDnsName
| DnsRoot.

Inductive MiddlewareDefect {glob : Glob} : Type :=
| EmptyMiddlewareName
| EmptyMiddleware
| InvalidOnError (value : bytes)
| NoSelector
| NoIncludePattern
| InvalidSelectorPattern (pattern : bytes) (e : HostPattern.error).

Inductive PolicyViolation {glob : Glob} : Type :=
| InvalidProcessIdentity (field value : bytes)
| PathTraversal (path : bytes)
| RelativePath (path : bytes)
| OverlyBroadPath (path : bytes)
| FieldTooLong (path : bytes) (length : nat)
| TooManyPaths (count : nat)
| TldWildcard (policy_name host : bytes)
| MissingEndpointHost (policy_name : bytes)
| MissingTcpEndpointHost (policy_name : bytes)
| TcpEndpointIpLiteral (policy_name host : bytes)
| InvalidTcpEndpointHost (policy_name host : bytes) (reason : TcpHostDefect)
| MissingEndpointPort (policy_name host : bytes)
| InvalidEndpointPort (policy_name host : bytes) (port : Z)
| InvalidHostWildcard (policy_name host : bytes)
| MissingSigningService (policy_name host : bytes)
| UnknownCredentialSigning (policy_name host value : bytes)
| CredentialSigningWithBodyRewrite (policy_name host : bytes)
| InvalidL7Endpoint (policy_name : bytes) (endpoint_index : nat) (reason : L7Error)
| InvalidMiddlewareConfig (name : bytes) (reason : MiddlewareDefect)
| TooManyMiddlewareConfigs (count : nat)
| DuplicateMiddlewareOrder (order : Z) (first_name second_name : bytes)
| TooManyMiddlewareSelectorPatterns (name : bytes) (count : nat)
| MiddlewareTlsSkipConflict (middleware_name policy_name host : bytes)
| InvalidLandlockCompatibility (value : bytes)
| MissingMcpVersions (policy_name host : bytes)
| McpOptionsOnNonMcpEndpoint (policy_name host protocol : bytes)
| UnsupportedMcpVersion (policy_name host version : bytes)
| DuplicateMcpVersion (policy_name host version : bytes).

(** [if violations.is_empty() { Ok(()) } else { Err(violations) }]. *)
Definition verdict {A} (violations : list A) : result unit (list A) :=
  match violations with [] => Ok () | _ => Err violations end.

(** ** Process, landlock and filesystem *)

Definition MIN_SANDBOX_UID : Z := 1.
Definition MAX_SANDBOX_UID : Z := u32_max - 1.

Definition is_valid_sandbox_identity (value : bytes) : bool :=
  bool_decide (value = lit "sandbox")
  || match parse_uint u32_max value with
     | Some uid => (MIN_SANDBOX_UID <=? uid) && (uid <=? MAX_SANDBOX_UID)
     | None => false
     end.

Definition is_valid_landlock_compatibility (value : bytes) : bool :=
  is_empty value || bool_decide (value ∈ [lit "best_effort"; lit "hard_requirement"]).

Definition MAX_FILESYSTEM_PATHS : nat := 256.
Definition MAX_PATH_LENGTH : nat := 4096.

(** [while !s.is_char_boundary(end) { end -= 1 }]; zero is a boundary. *)
Fixpoint char_boundary_before (s : bytes) (end_ : nat) : nat :=
  match end_ with
  | O => O
  | S e =>
      match s !! end_ with
      | Some b => if is_char_start b then end_ else char_boundary_before s e
      | None => end_
      end
  end.
Definition truncate_for_display (s : bytes) : bytes :=
  if Nat.leb (length s) 80 then s else take (char_boundary_before s 77) s ++ lit "...".

(** [has_root] and the [ParentDir] components of a Unix path. *)
Definition has_root (path : bytes) : bool := starts_with [47] path.
Definition has_parent_dir (path : bytes) : bool :=
  existsb (λ c, bool_decide (c = lit "..")) (PolicySchema.path_components path).

Section validate.
Context {glob : Glob} {dns : DnsNames} {proto : ProtoStruct}.

Definition path_violations (path : bytes) : list PolicyViolation :=
  if Nat.ltb MAX_PATH_LENGTH (length path)
  then [FieldTooLong (truncate_for_display path) (length path)]
  else push_if (negb (has_root path)) (RelativePath path)
       ++ push_if (has_parent_dir path) (PathTraversal path).

Definition filesystem_violations (read_only read_write : list bytes) : list PolicyViolation :=
  let total_paths := (length read_only + length read_write)%nat in
  push_if (Nat.ltb MAX_FILESYSTEM_PATHS total_paths) (TooManyPaths total_paths)
  ++ flat_map path_violations (read_only ++ read_write)
  ++ flat_map (λ path, push_if (is_empty (trim_end_matches 47 path)) (OverlyBroadPath path))
       read_write.
Definition validate_filesystem_paths (read_only read_write : list bytes)
  : result unit (list PolicyViolation) :=
  verdict (filesystem_violations read_only read_write).

Definition process_violations (p : ProcessPolicy) : list PolicyViolation :=
  let check field value :=
    push_if (negb (is_empty value) && negb (is_valid_sandbox_identity value))
      (InvalidProcessIdentity field value) in
  check (lit "run_as_user") (run_as_user p) ++ check (lit "run_as_group") (run_as_group p).

(** ** Endpoints *)

Inductive McpVersionPresence : Type := RequireMaterialized | AllowDefaultable.

Definition representative (host : bytes) : bytes :=
  join_with 46 (map (λ label, if bool_decide (label = lit "**") then lit "x"
                              else replace_byte 42 120 label) (split_on 46 host)).

Definition validate_tcp_dns_host_selector (host : bytes) : result unit TcpHostDefect :=
  if negb (bool_decide (trim host = host)) then Err UntrimmedHost
  else if ends_with [46] host then Err TrailingRootDot
  else
    let? _ := map_err BadSelector (HostSelector.new [host] []) in
    match from_ascii (representative host ++ [46]) with
    | None => Err NoDnsName
    | Some parsed => if is_root parsed then Err DnsRoot else Ok ()
    end.

Definition host_violations (name : bytes) (ep : NetworkEndpoint) : list PolicyViolation :=
  let host := Endpoint.host ep in
  let explicit_tcp := is_explicit_tcp_protocol (Endpoint.protocol ep) in
  if is_empty (trim host) && explicit_tcp then [MissingTcpEndpointHost name]
  else if is_empty (trim host) && is_empty (Endpoint.allowed_ips ep) then [MissingEndpointHost name]
  else if explicit_tcp then
    if is_some (IpParse.parse_ip host) then [TcpEndpointIpLiteral name host]
    else match validate_tcp_dns_host_selector host with
         | Err reason => [InvalidTcpEndpointHost name host reason]
         | Ok _ => []
         end
  else [].

Definition effective_ports (ep : NetworkEndpoint) : list Z :=
  if is_empty (Endpoint.ports ep)
  then (if negb (Endpoint.port ep =? 0) then [Endpoint.port ep] else [])
  else Endpoint.ports ep.

Definition port_violations (name : bytes) (ep : NetworkEndpoint) : list PolicyViolation :=
  let host := Endpoint.host ep in
  push_if (is_empty (effective_ports ep)) (MissingEndpointPort name host)
  ++ flat_map (λ port, push_if (negb ((1 <=? port) && (port <=? u16_max)))
                         (InvalidEndpointPort name host port)) (effective_ports ep).

Definition wildcard_violations (name : bytes) (ep : NetworkEndpoint) : list PolicyViolation :=
  let host := Endpoint.host ep in
  push_if (contains_byte 42 host
           && (starts_with (lit "*.") host || starts_with (lit "**.") host)
           && Nat.leb (length (split_on 46 host)) 2) (TldWildcard name host)
  ++ push_if (host_wildcard_shape_invalid host) (InvalidHostWildcard name host).

Definition signing_violations (name : bytes) (ep : NetworkEndpoint) : list PolicyViolation :=
  let host := Endpoint.host ep in
  let signing := Endpoint.credential_signing ep in
  let set := negb (is_empty signing) in
  push_if (set && negb (bool_decide
             (signing ∈ [lit "sigv4"; lit "sigv4:body"; lit "sigv4:no_body"])))
    (UnknownCredentialSigning name host signing)
  ++ push_if (set && is_empty (Endpoint.signing_service ep)) (MissingSigningService name host)
  ++ push_if (set && Endpoint.request_body_credential_rewrite ep)
       (CredentialSigningWithBodyRewrite name host).

(** An allow that matches nothing in particular. *)
Definition empty_allow (allow : L7Allow.t) : bool :=
  is_empty (L7Allow.method allow) && is_empty (L7Allow.path allow)
  && is_empty (L7Allow.command allow) && is_empty (L7Allow.operation_type allow)
  && is_empty (L7Allow.operation_name allow) && is_empty (L7Allow.fields allow)
  && bool_decide (L7Allow.params allow = ∅).
Definition denies_all (rules : list L7Rule) : bool :=
  negb (is_empty rules)
  && forallb (λ rule, match rule with Some allow => empty_allow allow | None => true end) rules.

Definition fields_of (ep : NetworkEndpoint) : L7EndpointFields :=
  {| f_protocol := Endpoint.protocol ep;
     f_access := default [] (network_access_preset_to_str (Endpoint.access ep));
     has_rules := negb (is_empty (Endpoint.rules ep));
     f_websocket_credential_rewrite := Endpoint.websocket_credential_rewrite ep;
     has_deny_rules := negb (is_empty (Endpoint.deny_rules ep));
     rules_would_deny_all := denies_all (Endpoint.rules ep);
     f_allow_all_known_mcp_methods :=
       default false (Endpoint.mcp ep ≫= McpOptions.allow_all_known_mcp_methods) |}.

(** The L7-only fields that are set. *)
Definition explicit_tcp_fields (ep : NetworkEndpoint) : list bytes :=
  push_if (negb (Endpoint.enforcement ep =? 0)) (lit "enforcement")
  ++ push_if (negb (is_empty (Endpoint.path ep))) (lit "path")
  ++ push_if (Endpoint.allow_encoded_slash ep) (lit "allow_encoded_slash")
  ++ push_if (Endpoint.websocket_credential_rewrite ep) (lit "websocket_credential_rewrite")
  ++ push_if (Endpoint.request_body_credential_rewrite ep) (lit "request_body_credential_rewrite")
  ++ push_if (negb (is_empty (Endpoint.persisted_queries ep))) (lit "persisted_queries")
  ++ push_if (negb (bool_decide (Endpoint.graphql_persisted_queries ep = ∅)))
       (lit "graphql_persisted_queries")
  ++ push_if (0 <? Endpoint.graphql_max_body_bytes ep) (lit "graphql_max_body_bytes")
  ++ push_if (0 <? Endpoint.json_rpc_max_body_bytes ep) (lit "json_rpc_max_body_bytes")
  ++ push_if (is_some (Endpoint.mcp ep)) (lit "mcp").

Definition is_operation_type (operation_type : bytes) : bool :=
  bool_decide (operation_type ∈ [lit "query"; lit "mutation"; lit "subscription"]).

Definition graphql_errors (ep : NetworkEndpoint) : list L7Error :=
  if negb (bool_decide (Endpoint.protocol ep = lit "graphql")) then []
  else
    concat (imap (λ i (rule : L7Rule),
      push_if (negb (is_operation_type (default [] (L7Allow.operation_type <$> rule))))
        (RuleOperationType i)) (Endpoint.rules ep))
    ++ concat (imap (λ i (rule : L7DenyRule),
         push_if (negb (is_operation_type (L7Allow.operation_type rule)))
           (DenyRuleOperationType i)) (Endpoint.deny_rules ep))
    ++ flat_map (λ '(key, operation),
         push_if (negb (is_operation_type (GraphqlOperation.operation_type operation)))
           (PersistedOperationType key))
         (map_to_list (Endpoint.graphql_persisted_queries ep)).

Definition l7_errors (ep : NetworkEndpoint) : list L7Error :=
  let enforcement := default [] (network_enforcement_mode_to_str (Endpoint.enforcement ep)) in
  let path := Endpoint.path ep in
  let queries := Endpoint.persisted_queries ep in
  validate_l7_endpoint_semantics (fields_of ep)
  ++ validate_endpoint_mode_values (Endpoint.tls ep) (Endpoint.enforcement ep) (Endpoint.access ep)
  ++ validate_explicit_tcp_additional_fields (Endpoint.protocol ep) (explicit_tcp_fields ep)
  ++ push_if (negb (is_empty path) && negb (starts_with [47] path)
              && negb (bool_decide (path = lit "**"))) BadPath
  ++ push_if (negb (is_empty queries)
              && negb (bool_decide (queries ∈ [lit "deny"; lit "allow_registered"])))
       (BadPersistedQueries queries)
  ++ push_if (bool_decide (Endpoint.protocol ep = lit "sql")
              && bool_decide (enforcement = lit "enforce")) SqlEnforce
  ++ graphql_errors ep.

(** The revisions already seen are those before. *)
Fixpoint version_violations (name host : bytes) (seen : list bytes) (versions : list bytes)
  : list PolicyViolation :=
  match versions with
  | [] => []
  | version :: versions =>
      push_if (bool_decide (version ∈ seen)) (DuplicateMcpVersion name host version)
      ++ push_if (negb (is_some (parse_mcp_version version))) (UnsupportedMcpVersion name host version)
      ++ version_violations name host (version :: seen) versions
  end.

Definition collect_mcp_endpoint_violations (presence : McpVersionPresence) (name : bytes)
  (ep : NetworkEndpoint) : list PolicyViolation :=
  let host := Endpoint.host ep in
  let missing := match presence with
                 | RequireMaterialized => [MissingMcpVersions name host]
                 | AllowDefaultable => []
                 end in
  if is_mcp (Endpoint.protocol ep) then
    match Endpoint.mcp ep with
    | None => missing
    | Some mcp =>
        if is_empty (McpOptions.versions mcp) then missing
        else version_violations name host [] (McpOptions.versions mcp)
    end
  else push_if (is_some (Endpoint.mcp ep))
         (McpOptionsOnNonMcpEndpoint name host (Endpoint.protocol ep)).

(** The loop body for one endpoint. *)
Definition endpoint_violations (presence : McpVersionPresence) (name : bytes) (index : nat)
  (ep : NetworkEndpoint) : list PolicyViolation :=
  host_violations name ep
  ++ port_violations name ep
  ++ wildcard_violations name ep
  ++ signing_violations name ep
  ++ map (InvalidL7Endpoint name index) (l7_errors ep)
  ++ collect_mcp_endpoint_violations presence name ep.

Definition policy_name (key : bytes) (rule : NetworkPolicyRule) : bytes :=
  if is_empty (name rule) then key else name rule.

Definition rule_violations (presence : McpVersionPresence) (key : bytes) (rule : NetworkPolicyRule)
  : list PolicyViolation :=
  concat (imap (endpoint_violations presence (policy_name key rule)) (endpoints rule)).

(** Rules in the order of their keys. *)
Definition sorted_rules (m : network_policies) : list (bytes * NetworkPolicyRule) :=
  omap (λ key, (λ rule, (key, rule)) <$> m !! key) (sorted_keys m).

(** ** Middleware (middleware.rs) *)

Definition MAX_MIDDLEWARE_CONFIGS : nat := 10.
Definition MAX_MIDDLEWARE_SELECTOR_PATTERNS : nat := 32.

Definition requires_inspection (mw : NetworkMiddlewareConfig) : bool :=
  bool_decide (on_error mw ∈ [[]; lit "fail_closed"]).

Definition overlaps_tls_skip (compiled_selector : option HostSelector.t)
  (mw : NetworkMiddlewareConfig) (endpoint : NetworkEndpoint) : bool :=
  requires_inspection mw && (Endpoint.tls endpoint =? 1)
  && match compiled_selector, HostPattern.new (Endpoint.host endpoint) with
     | Some selector, Ok pattern => HostSelector.may_match_pattern selector pattern
     | _, _ => false
     end.

Definition tls_skip_violations (m : network_policies) (name : bytes)
  (compiled_selector : option HostSelector.t) (mw : NetworkMiddlewareConfig)
  : list PolicyViolation :=
  flat_map (λ '(key, rule),
    flat_map (λ endpoint,
      push_if (overlaps_tls_skip compiled_selector mw endpoint)
        (MiddlewareTlsSkipConflict name (policy_name key rule) (Endpoint.host endpoint)))
      (endpoints rule)) (map_to_list m).

Definition pattern_violations (name : bytes) (pattern : bytes) : list PolicyViolation :=
  match HostPattern.new pattern with
  | Ok _ => []
  | Err e => [InvalidMiddlewareConfig name (InvalidSelectorPattern pattern e)]
  end.

(** The checks of a selector; too many patterns end them. *)
Definition selector_violations (m : network_policies) (name : bytes)
  (mw : NetworkMiddlewareConfig) (selector : MiddlewareEndpointSelector) : list PolicyViolation :=
  let patterns := include selector ++ exclude selector in
  let count := length patterns in
  push_if (is_empty (include selector)) (InvalidMiddlewareConfig name NoIncludePattern)
  ++ if Nat.ltb MAX_MIDDLEWARE_SELECTOR_PATTERNS count
     then [TooManyMiddlewareSelectorPatterns name count]
     else
       let invalid := flat_map (pattern_violations name) patterns in
       let compiled_selector :=
         if negb (is_empty (include selector)) && is_empty invalid
         then ok (HostSelector.new (include selector) (exclude selector)) else None in
       invalid ++ tls_skip_violations m name compiled_selector mw.

(** One round of the loop, without the execution orders. *)
Definition middleware_violations (m : network_policies) (name : bytes)
  (mw : NetworkMiddlewareConfig) : list PolicyViolation :=
  push_if (is_empty (middleware mw)) (InvalidMiddlewareConfig name EmptyMiddleware)
  ++ push_if (negb (bool_decide (on_error mw ∈ [[]; lit "fail_closed"; lit "fail_open"])))
       (InvalidMiddlewareConfig name (InvalidOnError (on_error mw)))
  ++ match mw_endpoints mw with
     | None => [InvalidMiddlewareConfig name NoSelector]
     | Some selector => selector_violations m name mw selector
     end.

(** The loop; [orders] maps an order to the last middleware with it. *)
Fixpoint middlewares_violations (m : network_policies) (orders : gmap Z bytes)
  (mws : list (bytes * NetworkMiddlewareConfig)) : list PolicyViolation :=
  match mws with
  | [] => []
  | (name, mw) :: mws =>
      push_if (is_empty name) (InvalidMiddlewareConfig name EmptyMiddlewareName)
      ++ match orders !! order mw with
         | Some first_name => [DuplicateMiddlewareOrder (order mw) first_name name]
         | None => []
         end
      ++ middleware_violations m name mw
      ++ middlewares_violations m (<[order mw := name]> orders) mws
  end.

Definition sorted_middlewares (p : SandboxPolicy) : list (bytes * NetworkMiddlewareConfig) :=
  omap (λ key, (λ mw, (key, mw)) <$> network_middlewares p !! key)
    (sort_by bytes_cmp (map fst (map_to_list (network_middlewares p)))).

Definition validate (p : SandboxPolicy) : list PolicyViolation :=
  let count := size (network_middlewares p) in
  push_if (Nat.ltb MAX_MIDDLEWARE_CONFIGS count) (TooManyMiddlewareConfigs count)
  ++ middlewares_violations (policies p) ∅ (sorted_middlewares p).

(** ** The whole policy *)

Definition policy_violations (presence : McpVersionPresence) (p : SandboxPolicy)
  : list PolicyViolation :=
  match process p with Some pr => process_violations pr | None => [] end
  ++ match landlock p with
     | Some compatibility => push_if (negb (is_valid_landlock_compatibility compatibility))
                               (InvalidLandlockCompatibility compatibility)
     | None => []
     end
  ++ match filesystem p with
     | Some fs => match validate_filesystem_paths (read_only fs) (read_write fs) with
                  | Ok _ => []
                  | Err errors => errors
                  end
     | None => []
     end
  ++ flat_map (λ '(key, rule), rule_violations presence key rule) (sorted_rules (policies p))
  ++ validate p.
Definition validate_sandbox_policy_with_mcp_presence (p : SandboxPolicy)
  (presence : McpVersionPresence) : result unit (list PolicyViolation) :=
  verdict (policy_violations presence p).
Definition validate_sandbox_policy (p : SandboxPolicy) : result unit (list PolicyViolation) :=
  validate_sandbox_policy_with_mcp_presence p RequireMaterialized.

Definition validate_mcp_policy_schema (p : SandboxPolicy) (presence : McpVersionPresence)
  : result unit (list PolicyViolation) :=
  verdict (flat_map (λ '(key, rule),
             flat_map (collect_mcp_endpoint_violations presence (policy_name key rule))
               (endpoints rule)) (sorted_rules (policies p))).

(** ** Canonical policies *)

Definition with_mcp (e : NetworkEndpoint) (mcp : option McpOptions.t) : NetworkEndpoint :=
  Endpoint.mk (Endpoint.host e) (Endpoint.port e) (Endpoint.protocol e) (Endpoint.tls e)
    (Endpoint.enforcement e) (Endpoint.access e) (Endpoint.rules e) (Endpoint.allowed_ips e)
    (Endpoint.ports e) (Endpoint.deny_rules e) (Endpoint.allow_encoded_slash e)
    (Endpoint.persisted_queries e) (Endpoint.graphql_persisted_queries e)
    (Endpoint.graphql_max_body_bytes e) (Endpoint.path e)
    (Endpoint.websocket_credential_rewrite e) (Endpoint.request_body_credential_rewrite e)
    (Endpoint.advisor_proposed e) (Endpoint.credential_signing e) (Endpoint.signing_service e)
    (Endpoint.signing_region e) (Endpoint.json_rpc_max_body_bytes e) mcp
    (Endpoint.credential_binding e) (Endpoint.allow_uninspected_credentials e)
    (Endpoint.provider_credentialed e) (Endpoint.token_grant_owner e).

Definition default_mcp_versions : list bytes := [DEFAULT_MCP_PROTOCOL_VERSION].

Definition materialize_endpoint (e : NetworkEndpoint) : NetworkEndpoint :=
  if negb (is_mcp (Endpoint.protocol e)) then e
  else
    let options := default (McpOptions.mk None None []) (Endpoint.mcp e) in
    let versions := if is_empty (McpOptions.versions options) then default_mcp_versions
                    else McpOptions.versions options in
    with_mcp e (Some (McpOptions.mk (McpOptions.strict_tool_names options)
                        (McpOptions.allow_all_known_mcp_methods options) versions)).
Definition canonicalize_endpoint (e : NetworkEndpoint) : NetworkEndpoint :=
  with_mcp e (canonicalize_mcp_options <$> Endpoint.mcp e).

Definition map_endpoints (f : NetworkEndpoint → NetworkEndpoint) (m : network_policies)
  : network_policies :=
  (λ rule, rule_of (name rule) (map f (endpoints rule)) (binaries rule)) <$> m.
Definition materialize_default_mcp_versions (p : SandboxPolicy) : SandboxPolicy :=
  with_policies p (map_endpoints materialize_endpoint (policies p)).
Definition canonicalize_mcp_version_allowlists (p : SandboxPolicy) : SandboxPolicy :=
  with_policies p (map_endpoints canonicalize_endpoint (policies p)).
Definition canonical (p : SandboxPolicy) : SandboxPolicy :=
  canonicalize_mcp_version_allowlists (materialize_default_mcp_versions p).

Definition validate_and_canonicalize_mcp_policy_schema (p : SandboxPolicy)
  : result SandboxPolicy (list PolicyViolation) :=
  let? _ := validate_mcp_policy_schema p AllowDefaultable in
  let p := canonical p in
  let? _ := validate_mcp_policy_schema p RequireMaterialized in
  Ok p.
Definition validate_and_canonicalize_sandbox_policy (p : SandboxPolicy)
  : result SandboxPolicy (list PolicyViolation) :=
  let? _ := validate_sandbox_policy_with_mcp_presence p AllowDefaultable in
  Ok (canonical p).

Definition restrictive_default_policy : SandboxPolicy :=
  policy_of 1
    (Some (filesystem_of true
       [lit "/bin"; lit "/usr"; lit "/lib"; lit "/proc"; lit "/dev/urandom"; lit "/etc";
        lit "/var/log"]
       [lit "/tmp"; lit "/dev/null"]))
    (Some (lit "best_effort")) None ∅ ∅.

Definition ensure_sandbox_process_identity (p : SandboxPolicy) : SandboxPolicy :=
  let pr := default (process_of [] []) (process p) in
  let filled value := if is_empty value then lit "sandbox" else value in
  policy_of (version p) (filesystem p) (landlock p)
    (Some (process_of (filled (run_as_user pr)) (filled (run_as_group pr))))
    (policies p) (network_middlewares p).

(** ** [merge_policy] *)

Inductive MergeError : Type :=
| InvalidInputPolicy (violations : list PolicyViolation)
| InvalidOperationPolicy (operation_index : nat) (violations : list PolicyViolation)
| InvalidMergedPolicy (violations : list PolicyViolation)
| OperationFailed (e : PolicyMergeError).

(** [None] is the [expect], which a validated fragment excludes. *)
Definition validate_rule_fragment (rule_name : bytes) (rule : NetworkPolicyRule)
  : result (option NetworkPolicyRule) (list PolicyViolation) :=
  let? canonical := validate_and_canonicalize_sandbox_policy
    (with_policies restrictive_default_policy {[ rule_name := rule ]}) in
  Ok (policies canonical !! rule_name).

Definition validate_and_canonicalize_operation (operation_index : nat) (operation : PolicyMergeOp)
  : result (option PolicyMergeOp) MergeError :=
  match operation with
  | AddRule rule_name rule =>
      let? rule := map_err (InvalidOperationPolicy operation_index)
                     (validate_rule_fragment rule_name rule) in
      Ok (AddRule rule_name <$> rule)
  | _ => Ok (Some operation)
  end.

Record PolicyMergeResult := merge_result {
  policy : SandboxPolicy;
  warnings : list PolicyMergeWarning;
  changed : bool;
}.

(** [None] is the [expect] of a fragment. *)
Fixpoint merge_operations (m : network_policies) (operation_index : nat)
  (operations : list PolicyMergeOp)
  : result (option (network_policies * list PolicyMergeWarning)) MergeError :=
  match operations with
  | [] => Ok (Some (m, []))
  | operation :: operations =>
      let? _ := map_err OperationFailed (validate_operation operation_index operation) in
      let? o := validate_and_canonicalize_operation operation_index operation in
      match o with
      | None => Ok None
      | Some operation =>
          let? applied := map_err OperationFailed (apply_operation m operation_index operation) in
          let? rest := merge_operations applied.1 (S operation_index) operations in
          Ok ((λ r, (r.1, applied.2 ++ r.2)) <$> rest)
      end
  end.

(** [PartialEq] of the derived messages. *)
Definition option_eqb {A} (eqb : A → A → bool) (a b : option A) : bool :=
  match a, b with
  | Some a, Some b => eqb a b
  | None, None => true
  | _, _ => false
  end.
Definition middleware_eqb (a b : NetworkMiddlewareConfig) : bool :=
  bool_decide (mw_name a = mw_name b) && bool_decide (middleware a = middleware b)
  && option_eqb struct_eqb (config a) (config b) && bool_decide (on_error a = on_error b)
  && bool_decide (mw_endpoints a = mw_endpoints b) && (order a =? order b).
Definition policy_eqb (a b : SandboxPolicy) : bool :=
  (version a =? version b) && bool_decide (filesystem a = filesystem b)
  && bool_decide (landlock a = landlock b) && bool_decide (process a = process b)
  && bool_decide (policies a = policies b)
  && bool_decide (dom (network_middlewares a) = dom (network_middlewares b))
  && forallb (λ '(key, mw), option_eqb middleware_eqb (Some mw) (network_middlewares b !! key))
       (map_to_list (network_middlewares a)).

Definition merge_policy (p : SandboxPolicy) (operations : list PolicyMergeOp)
  : result (option PolicyMergeResult) MergeError :=
  let? canonical_input := map_err InvalidInputPolicy (validate_and_canonicalize_sandbox_policy p) in
  let conflicts_before := conflicting_inspection_contracts (policies canonical_input) in
  let? o := merge_operations (policies canonical_input) 0 operations in
  match o with
  | None => Ok None
  | Some (merged, warnings) =>
      let? _ := map_err OperationFailed
                  (ensure_no_new_inspection_conflicts merged conflicts_before) in
      let? merged := map_err InvalidMergedPolicy
                       (validate_and_canonicalize_sandbox_policy
                          (with_policies canonical_input merged)) in
      Ok (Some (merge_result merged warnings (negb (policy_eqb merged canonical_input))))
  end.
End validate.
End PolicyValidate.
