(* ===== verification/PolicyValidateFacts.v ===== *)
(** * PolicyValidateFacts: what an accepted policy guarantees

    Acceptance is read off field by field; canonicalisation keeps it and is
    done after one pass; no fail-closed middleware covers a host that is
    relayed without inspection; a merge returns an accepted policy. *)

From stdpp Require Import gmap sorting.
From S2P Require Import Prelude Net IpParse Order Text Patterns PolicyDns PolicyTypes PolicyMerge.
From S2P Require Import PolicySchema PolicyValidate.
From Stdlib Require Import ZifyBool.
Import L7Validate PolicyValidate.

(** ** Lists of violations that are empty *)

Lemma push_if_nil {A} b (x : A) : push_if b x = [] ↔ b = false.
Proof. by destruct b. Qed.
Lemma app_nil_iff {A} (a b : list A) : a ++ b = [] ↔ a = [] ∧ b = [].
Proof. split; [apply app_eq_nil|]. by intros [-> ->]. Qed.
Lemma flat_map_nil {A B} (f : A → list B) l : flat_map f l = [] ↔ ∀ x, x ∈ l → f x = [].
Proof.
  induction l as [|x l IH]; cbn [flat_map]; [split; [intros _ x ?%elem_of_nil|]; done|].
  rewrite app_nil_iff, IH. split.
  - intros [Hx Hl] y [->|Hy]%elem_of_cons; auto.
  - intros H. split; [apply H; by left|]. intros y Hy. apply H. by right.
Qed.
Lemma concat_imap_nil {A B} (f : nat → A → list B) l :
  concat (imap f l) = [] ↔ ∀ i x, l !! i = Some x → f i x = [].
Proof.
  revert f. induction l as [|x l IH]; intros f; [split; [done|reflexivity]|].
  cbn [imap concat]. rewrite app_nil_iff, IH. split.
  - intros [Hx Hl] [|i] y Hy; [by injection Hy as <-|]. by apply (Hl i).
  - intros H. split; [by apply (H 0%nat)|]. intros i y Hy. by apply (H (S i)).
Qed.
Lemma map_nil_iff {A B} (f : A → B) l : map f l = [] ↔ l = [].
Proof. by destruct l. Qed.
Lemma verdict_Ok {A} (l : list A) u : verdict l = Ok u ↔ l = [].
Proof. destruct u, l; cbn; naive_solver. Qed.

#[export] Instance Ok_inj {A E} : Inj (=) (=) (@Ok A E).
Proof. by intros ? ? [=]. Qed.

Create Rewrite HintDb violations.
#[export] Hint Rewrite @push_if_nil @app_nil_iff @map_nil_iff andb_false_iff negb_false_iff
  negb_true_iff orb_false_iff : violations.

Lemma sorted_rules_elem m key rule : (key, rule) ∈ sorted_rules m ↔ m !! key = Some rule.
Proof.
  unfold sorted_rules. rewrite list_elem_of_omap. split.
  - intros (k & _ & Hk). destruct (m !! k) eqn:E; [|done]. cbn in Hk. naive_solver.
  - intros Hk. exists key. rewrite Hk. split; [|done]. unfold sorted_keys. apply sort_by_elem.
    apply (list_elem_of_fmap fst). exists (key, rule). split; [done|]. by apply elem_of_map_to_list.
Qed.

Section facts.
Context {glob : Glob} {dns : DnsNames} {proto : ProtoStruct}.

Lemma rules_violations_nil presence m :
  flat_map (λ '(key, rule), rule_violations presence key rule) (sorted_rules m) = []
  ↔ ∀ key rule i ep, m !! key = Some rule → endpoints rule !! i = Some ep →
    endpoint_violations presence (policy_name key rule) i ep = [].
Proof.
  rewrite flat_map_nil. unfold rule_violations. split.
  - intros H key rule i ep Hr Hep. specialize (H (key, rule)). cbn in H.
    rewrite concat_imap_nil in H. apply H; [|done]. by apply sorted_rules_elem.
  - intros H [key rule] Hin%sorted_rules_elem. rewrite concat_imap_nil. eauto.
Qed.

(** ** MCP revisions *)

Lemma version_violations_nil name host seen versions :
  version_violations name host seen versions = []
  ↔ NoDup versions ∧ (∀ v, v ∈ versions → v ∉ seen)
    ∧ ∀ v, v ∈ versions → is_some (parse_mcp_version v) = true.
Proof.
  revert seen. induction versions as [|v versions IH]; intros seen; cbn [version_violations].
  { split; [intros _|done]. split_and!; [constructor|by intros ? ?%elem_of_nil..]. }
  autorewrite with violations. rewrite IH, bool_decide_eq_false, list.NoDup_cons. split.
  - intros (Hseen & Hp & Hnd & Hns & Hps). split_and!.
    + intros Hin. by apply (Hns v Hin), list_elem_of_here.
    + done.
    + intros w [->|Hw]%elem_of_cons; [done|]. specialize (Hns w Hw). set_solver.
    + intros w [->|Hw]%elem_of_cons; [done|]. by apply Hps.
  - intros ([Hni Hnd] & Hns & Hps). split_and!.
    + apply Hns. by left.
    + apply Hps. by left.
    + done.
    + intros w Hw. rewrite not_elem_of_cons. split; [by intros ->|]. apply Hns. by right.
    + intros w Hw. apply Hps. by right.
Qed.

Definition version_index (v : bytes) : nat := default 0%nat (parse_mcp_version v).

Definition older (x y : bytes) : Prop := (version_index x ≤ version_index y)%nat.

Lemma canonical_versions_by_index versions :
  (∀ v, v ∈ versions → is_some (parse_mcp_version v) = true) →
  canonicalize_mcp_versions versions
  = sort_by (λ x y, Nat.compare (version_index x) (version_index y)) versions.
Proof.
  intros Hl. apply sort_by_ext. intros x y Hx%Hl Hy%Hl. unfold mcp_version_cmp, version_index.
  destruct (parse_mcp_version x), (parse_mcp_version y); done.
Qed.

Lemma canonical_versions_elem versions v : v ∈ canonicalize_mcp_versions versions ↔ v ∈ versions.
Proof. apply sort_by_elem. Qed.

Lemma canonical_versions_sorted versions :
  (∀ v, v ∈ versions → is_some (parse_mcp_version v) = true) →
  StronglySorted older (canonicalize_mcp_versions versions).
Proof.
  intros Hv. rewrite canonical_versions_by_index by done.
  apply sort_by_sorted; unfold older; [intros ? ? ?; lia|]. intros x y.
  destruct (Nat.compare_spec (version_index x) (version_index y)); cbn [cmp_leb]; lia.
Qed.

Lemma canonical_versions_idem versions :
  (∀ v, v ∈ versions → is_some (parse_mcp_version v) = true) →
  canonicalize_mcp_versions (canonicalize_mcp_versions versions) = canonicalize_mcp_versions versions.
Proof.
  intros Hv. rewrite (canonical_versions_by_index (canonicalize_mcp_versions versions))
    by (intros v Hin; by apply Hv, canonical_versions_elem).
  apply sort_by_fixed with (R := older); [|by apply canonical_versions_sorted].
  intros x y. unfold older.
  destruct (Nat.compare_spec (version_index x) (version_index y)); cbn [cmp_leb]; [done..|lia].
Qed.

(** ** Canonical endpoints *)

Definition canonical_endpoint (e : NetworkEndpoint) : NetworkEndpoint :=
  canonicalize_endpoint (materialize_endpoint e).

Lemma with_mcp_id e : with_mcp e (Endpoint.mcp e) = e.
Proof. by destruct e. Qed.

Lemma mcp_not_tcp protocol : is_mcp protocol = true → is_explicit_tcp_protocol protocol = false.
Proof.
  unfold is_mcp, is_explicit_tcp_protocol. intros H. apply not_true_is_false. intros H'.
  apply eq_ignore_case_true in H, H'. rewrite H in H'. by vm_compute in H'.
Qed.

(** The L7 checks do not read the revisions of an MCP endpoint. *)
Lemma l7_errors_with_mcp e o :
  is_mcp (Endpoint.protocol e) = true →
  default false (o ≫= McpOptions.allow_all_known_mcp_methods)
  = default false (Endpoint.mcp e ≫= McpOptions.allow_all_known_mcp_methods) →
  l7_errors (with_mcp e o) = l7_errors e.
Proof.
  intros Hmcp Ha. unfold l7_errors.
  assert (fields_of (with_mcp e o) = fields_of e) as -> by (unfold fields_of; cbn; by rewrite Ha).
  unfold validate_explicit_tcp_additional_fields. cbn [with_mcp Endpoint.protocol].
  by rewrite mcp_not_tcp.
Qed.

(** What canonicalisation does to the options of an accepted endpoint. *)
Lemma canonical_endpoint_cases e name :
  collect_mcp_endpoint_violations AllowDefaultable name e = [] →
  (is_mcp (Endpoint.protocol e) = false ∧ Endpoint.mcp e = None ∧ canonical_endpoint e = e)
  ∨ (is_mcp (Endpoint.protocol e) = true ∧
     ∃ o, canonical_endpoint e = with_mcp e (Some o)
       ∧ McpOptions.allow_all_known_mcp_methods o
         = Endpoint.mcp e ≫= McpOptions.allow_all_known_mcp_methods
       ∧ canonicalize_mcp_options o = o ∧ McpOptions.versions o ≠ []
       ∧ NoDup (McpOptions.versions o)
       ∧ ∀ v, v ∈ McpOptions.versions o → is_some (parse_mcp_version v) = true).
Proof.
  unfold collect_mcp_endpoint_violations, canonical_endpoint, materialize_endpoint.
  destruct (is_mcp (Endpoint.protocol e)) eqn:Hmcp; cbn [negb].
  2: { rewrite push_if_nil. intros Hn. left. split; [done|].
       destruct (Endpoint.mcp e) eqn:E; [done|]. split; [done|]. unfold canonicalize_endpoint.
       rewrite E. cbn. rewrite <- E. apply with_mcp_id. }
  intros Hv. right. split; [done|].
  set (options := default (McpOptions.mk None None []) (Endpoint.mcp e)).
  set (versions := if is_empty (McpOptions.versions options) then default_mcp_versions
                   else McpOptions.versions options).
  assert (versions ≠ [] ∧ NoDup versions
          ∧ ∀ v, v ∈ versions → is_some (parse_mcp_version v) = true) as (Hne & Hnd & Hp).
  { unfold versions. destruct (is_empty (McpOptions.versions options)) eqn:E.
    - split_and!; [done|apply NoDup_singleton|]. by intros v ->%list_elem_of_singleton.
    - split; [by apply is_empty_false|]. unfold options in *. destruct (Endpoint.mcp e) as [o|]; [|done].
      cbn in *. rewrite E in Hv. apply version_violations_nil in Hv as (? & _ & ?). done. }
  exists (McpOptions.mk (McpOptions.strict_tool_names options)
    (McpOptions.allow_all_known_mcp_methods options) (sort_by mcp_version_cmp versions)).
  cbn [McpOptions.versions McpOptions.allow_all_known_mcp_methods]. split_and!.
  - reflexivity.
  - unfold options. by destruct (Endpoint.mcp e).
  - unfold canonicalize_mcp_options. cbn. f_equal. by apply canonical_versions_idem.
  - by rewrite sort_by_nil.
  - by rewrite (sort_by_perm mcp_version_cmp versions).
  - intros v Hin%sort_by_elem. auto.
Qed.

Lemma canonical_endpoint_accepted name i e :
  endpoint_violations AllowDefaultable name i e = [] →
  endpoint_violations RequireMaterialized name i (canonical_endpoint e) = [].
Proof.
  unfold endpoint_violations. rewrite !app_nil_iff, !map_nil_iff.
  intros (Hh & Hp & Hw & Hs & Hl & Hm).
  destruct (canonical_endpoint_cases e name Hm)
    as [(Hmcp & Ho & ->)|(Hmcp & o & -> & Ha & _ & Hne & Hnd & Hv)].
  - split_and!; [done..|]. unfold collect_mcp_endpoint_violations in *. by rewrite Hmcp, Ho in *.
  - split_and!; [done..| |].
    + rewrite l7_errors_with_mcp; [done..|]. cbn. by rewrite Ha.
    + unfold collect_mcp_endpoint_violations. cbn [with_mcp Endpoint.protocol Endpoint.mcp Endpoint.host].
      rewrite Hmcp, (proj2 (is_empty_false _) Hne). apply version_violations_nil.
      split_and!; [done| |done]. intros v _. apply not_elem_of_nil.
Qed.

Lemma canonical_endpoint_idem name e :
  collect_mcp_endpoint_violations AllowDefaultable name e = [] →
  canonical_endpoint (canonical_endpoint e) = canonical_endpoint e.
Proof.
  intros Hm. destruct (canonical_endpoint_cases e name Hm)
    as [(Hmcp & Ho & He)|(Hmcp & o & He & _ & Hid & Hne & _)]; [by rewrite !He|].
  rewrite !He. unfold canonical_endpoint, materialize_endpoint.
  cbn [with_mcp Endpoint.protocol Endpoint.mcp]. rewrite Hmcp. cbn [negb from_option id].
  rewrite (proj2 (is_empty_false _) Hne). unfold canonicalize_endpoint. cbn. f_equal.
  f_equal. by destruct o.
Qed.

(** ** Canonical policies *)

Lemma map_endpoints_lookup f m key rule :
  map_endpoints f m !! key = Some rule ↔
  ∃ r, m !! key = Some r ∧ rule = rule_of (name r) (map f (endpoints r)) (binaries r).
Proof. unfold map_endpoints. rewrite lookup_fmap, fmap_Some. done. Qed.

Lemma with_policies_id p : with_policies p (policies p) = p.
Proof. by destruct p. Qed.

Lemma canonical_policies p : policies (canonical p) = map_endpoints canonical_endpoint (policies p).
Proof.
  unfold canonical. cbn. unfold map_endpoints. rewrite <- map_fmap_compose. apply map_fmap_ext.
  intros key r _. unfold compose. cbn. by rewrite map_map.
Qed.

Lemma tls_skip_nil m name sel mw :
  tls_skip_violations m name sel mw = [] ↔
  ∀ key rule ep, m !! key = Some rule → ep ∈ endpoints rule → overlaps_tls_skip sel mw ep = false.
Proof.
  unfold tls_skip_violations. rewrite flat_map_nil. split.
  - intros H key rule ep Hr Hep. specialize (H (key, rule)). cbn in H. rewrite flat_map_nil in H.
    apply elem_of_map_to_list in Hr. specialize (H Hr ep Hep). by apply push_if_nil in H.
  - intros H [key rule] Hr%elem_of_map_to_list. rewrite flat_map_nil. intros ep Hep.
    apply push_if_nil. by eapply H.
Qed.

(** The middleware checks read the rules only through the skipped endpoints. *)
Lemma middlewares_mono m m' orders mws :
  (∀ name sel mw, tls_skip_violations m name sel mw = [] → tls_skip_violations m' name sel mw = []) →
  middlewares_violations m orders mws = [] → middlewares_violations m' orders mws = [].
Proof.
  intros Hm. revert orders. induction mws as [|[name mw] mws IH]; intros orders; [done|].
  cbn [middlewares_violations]. rewrite !app_nil_iff. intros (Hn & Ho & Hv & Hr).
  split_and!; [done..| |by apply IH]. unfold middleware_violations in *. rewrite !app_nil_iff in *.
  destruct Hv as (He & Hon & Hsel). split_and!; [done..|].
  destruct (mw_endpoints mw) as [selector|]; [|done]. unfold selector_violations in *.
  rewrite !app_nil_iff in *. destruct Hsel as [Hi Hsel]. split; [done|].
  destruct (Nat.ltb _ _); [done|]. rewrite app_nil_iff in *. destruct Hsel as [Hpat Hskip].
  split; [done|]. by apply Hm.
Qed.

Lemma canonical_tls_skip p name sel mw :
  tls_skip_violations (policies p) name sel mw = [] →
  tls_skip_violations (policies (canonical p)) name sel mw = [].
Proof.
  rewrite !tls_skip_nil, canonical_policies. intros H key rule ep Hr Hep.
  apply map_endpoints_lookup in Hr as (r & Hr & ->). cbn in Hep.
  apply (list_elem_of_fmap canonical_endpoint) in Hep as (e & -> & He).
  rewrite <- (H key r e Hr He). unfold overlaps_tls_skip, canonical_endpoint, materialize_endpoint.
  by destruct (negb _).
Qed.

Lemma canonical_accepted p :
  policy_violations AllowDefaultable p = [] → policy_violations RequireMaterialized (canonical p) = [].
Proof.
  unfold policy_violations. rewrite !app_nil_iff. intros (Hp & Hl & Hf & Hr & Hm).
  split_and!; [done..| |].
  - rewrite rules_violations_nil in Hr. rewrite rules_violations_nil, canonical_policies.
    intros key rule i ep Hk Hep. apply map_endpoints_lookup in Hk as (r & Hk & ->).
    cbn [endpoints name policy_name] in *. rewrite list_lookup_fmap in Hep.
    apply fmap_Some in Hep as (e & He & ->). apply canonical_endpoint_accepted. exact (Hr key r i e Hk He).
  - unfold validate in *. rewrite !app_nil_iff in *. destruct Hm as [Hc Hm]. split; [done|].
    eapply middlewares_mono; [|exact Hm]. intros. by apply canonical_tls_skip.
Qed.

(** A policy that needs no default is accepted where one may be missing. *)
Lemma require_allow name i e :
  endpoint_violations RequireMaterialized name i e = [] →
  endpoint_violations AllowDefaultable name i e = [].
Proof.
  unfold endpoint_violations. rewrite !app_nil_iff. intros (? & ? & ? & ? & ? & Hm).
  split_and!; [done..|]. unfold collect_mcp_endpoint_violations in *.
  destruct (is_mcp _); [|done]. destruct (Endpoint.mcp e) as [o|]; [|done].
  by destruct (is_empty (McpOptions.versions o)).
Qed.
Lemma require_allow_policy p :
  policy_violations RequireMaterialized p = [] → policy_violations AllowDefaultable p = [].
Proof.
  unfold policy_violations. rewrite !app_nil_iff. intros (? & ? & ? & Hr & ?). split_and!; [done..| |done].
  rewrite rules_violations_nil in *. intros. apply require_allow. by eapply Hr.
Qed.

Lemma accepted_endpoint presence p key rule i ep :
  policy_violations presence p = [] → policies p !! key = Some rule → endpoints rule !! i = Some ep →
  endpoint_violations presence (policy_name key rule) i ep = [].
Proof.
  unfold policy_violations. rewrite !app_nil_iff. intros (_ & _ & _ & Hr & _).
  rewrite rules_violations_nil in Hr. apply Hr.
Qed.

Lemma canonical_idem p : policy_violations AllowDefaultable p = [] → canonical (canonical p) = canonical p.
Proof.
  intros Hv. change (canonical (canonical p)) with
    (with_policies (canonical p) (policies (canonical (canonical p)))).
  transitivity (with_policies (canonical p) (policies (canonical p))); [|apply with_policies_id].
  f_equal. rewrite !canonical_policies. apply map_eq. intros key. unfold map_endpoints. rewrite !lookup_fmap.
  destruct (policies p !! key) as [r|] eqn:Hr; [|done]. cbn. do 2 f_equal.
  rewrite map_map. apply map_ext_in. intros e He. apply list_elem_of_In, list_elem_of_lookup in He as [i He].
  pose proof (accepted_endpoint _ _ _ _ _ _ Hv Hr He) as Ha. unfold endpoint_violations in Ha.
  rewrite !app_nil_iff in Ha. destruct Ha as (_ & _ & _ & _ & _ & Hm).
  by eapply canonical_endpoint_idem.
Qed.

(** ** Fields of an accepted endpoint *)

(** An endpoint without any field that only inspection reads. *)
Definition no_l7_fields (e : NetworkEndpoint) : Prop :=
  Endpoint.enforcement e = 0 ∧ Endpoint.path e = [] ∧ Endpoint.allow_encoded_slash e = false
  ∧ Endpoint.websocket_credential_rewrite e = false ∧ Endpoint.request_body_credential_rewrite e = false
  ∧ Endpoint.persisted_queries e = [] ∧ Endpoint.graphql_persisted_queries e = ∅
  ∧ Endpoint.graphql_max_body_bytes e ≤ 0 ∧ Endpoint.json_rpc_max_body_bytes e ≤ 0
  ∧ Endpoint.mcp e = None.
(** What the components behind the validator rely on. *)
Record sound_endpoint (e : NetworkEndpoint) : Prop := {
  sound_ports : effective_ports e ≠ [] ∧ Forall (λ port, 1 ≤ port ≤ u16_max) (effective_ports e);
  sound_modes : Endpoint.tls e ∈ [0; 1] ∧ Endpoint.enforcement e ∈ [0; 1; 2]
                ∧ Endpoint.access e ∈ [0; 1; 2; 3];
  sound_protocol : Endpoint.protocol e = [] ∨ is_explicit_tcp_protocol (Endpoint.protocol e) = true
                   ∨ is_Some (L7Protocol_parse (Endpoint.protocol e));
  sound_base : is_Some (L7Protocol_parse (Endpoint.protocol e)) →
    Endpoint.rules e ≠ [] ∨ Endpoint.access e ≠ 0
    ∨ ∃ o, Endpoint.mcp e = Some o ∧ McpOptions.allow_all_known_mcp_methods o = Some true;
  sound_exclusive : Endpoint.rules e ≠ [] → Endpoint.access e = 0;
  sound_deny : Endpoint.deny_rules e ≠ [] → is_Some (L7Protocol_parse (Endpoint.protocol e));
  sound_tcp : is_explicit_tcp_protocol (Endpoint.protocol e) = true →
    trim (Endpoint.host e) ≠ [] ∧ IpParse.parse_ip (Endpoint.host e) = None
    ∧ Endpoint.rules e = [] ∧ Endpoint.deny_rules e = [] ∧ Endpoint.access e = 0
    ∧ no_l7_fields e;
  sound_path : Endpoint.path e = [] ∨ starts_with [47] (Endpoint.path e) = true ∨ Endpoint.path e = lit "**";
  sound_queries : Endpoint.persisted_queries e ∈ [[]; lit "deny"; lit "allow_registered"];
  sound_sql : Endpoint.protocol e = lit "sql" → Endpoint.enforcement e ≠ 1;
  sound_mcp : is_mcp (Endpoint.protocol e) = true →
    ∃ o, Endpoint.mcp e = Some o ∧ McpOptions.versions o ≠ [] ∧ NoDup (McpOptions.versions o)
       ∧ ∀ v, v ∈ McpOptions.versions o → is_some (parse_mcp_version v) = true;
}.

Lemma modes_nil tls enforcement access :
  validate_endpoint_mode_values tls enforcement access = [] →
  tls ∈ [0; 1] ∧ enforcement ∈ [0; 1; 2] ∧ access ∈ [0; 1; 2; 3].
Proof.
  unfold validate_endpoint_mode_values, network_tls_mode_to_str, network_enforcement_mode_to_str,
    network_access_preset_to_str. rewrite !app_nil_iff, !push_if_nil.
  intros (Ht & He & Ha). rewrite !elem_of_cons, !elem_of_nil. split_and!.
  - destruct (Z.eqb_spec tls 0), (Z.eqb_spec tls 1); [auto..|].
    destruct (tls =? 2); [done|]. by destruct (tls =? 3).
  - destruct (Z.eqb_spec enforcement 0), (Z.eqb_spec enforcement 1), (Z.eqb_spec enforcement 2); auto; done.
  - destruct (Z.eqb_spec access 0), (Z.eqb_spec access 1), (Z.eqb_spec access 2), (Z.eqb_spec access 3);
      auto; done.
Qed.

Lemma access_name_empty access :
  access ∈ [0; 1; 2; 3] →
  is_empty (default [] (network_access_preset_to_str access)) = (access =? 0).
Proof. rewrite !elem_of_cons, elem_of_nil. by intros [->|[->|[->|[->|[]]]]]. Qed.

Lemma ports_nil name e :
  port_violations name e = [] →
  effective_ports e ≠ [] ∧ Forall (λ port, 1 ≤ port ≤ u16_max) (effective_ports e).
Proof.
  unfold port_violations. rewrite app_nil_iff, push_if_nil, is_empty_false, flat_map_nil.
  intros [Hne Hp]. split; [done|]. apply list.Forall_forall. intros port Hin%Hp.
  apply push_if_nil in Hin. lia.
Qed.

Lemma is_empty_negb_false {A} (l : list A) : negb (is_empty l) = false ↔ l = [].
Proof. rewrite negb_false_iff. apply is_empty_true. Qed.
Lemma is_empty_negb_true {A} (l : list A) : negb (is_empty l) = true ↔ l ≠ [].
Proof. rewrite negb_true_iff. apply is_empty_false. Qed.

(** The checks of the L7 fields that the conclusions use. *)
Lemma semantics_nil f :
  validate_l7_endpoint_semantics f = [] →
  let parsed := L7Protocol_parse (f_protocol f) in
  (f_protocol f = [] ∨ is_explicit_tcp_protocol (f_protocol f) = true ∨ is_Some parsed)
  ∧ (is_explicit_tcp_protocol (f_protocol f) = true →
     is_empty (f_access f) = true ∧ has_rules f = false ∧ has_deny_rules f = false)
  ∧ (has_rules f = true → is_empty (f_access f) = true)
  ∧ (is_Some parsed → has_rules f = true ∨ is_empty (f_access f) = false
                      ∨ f_allow_all_known_mcp_methods f = true)
  ∧ (has_deny_rules f = true → is_Some parsed).
Proof.
  unfold validate_l7_endpoint_semantics. rewrite !app_nil_iff, !push_if_nil.
  intros (_ & Hunk & Htcp & Hexc & _ & Hj & Hn & Hm & _ & Hd & _). cbn zeta. split_and!.
  - destruct (L7Protocol_parse _); [right; right; by eexists|].
    destruct (is_explicit_tcp_protocol _); [by right; left|]. left. apply is_empty_true.
    by destruct (is_empty (f_protocol f)).
  - intros Ht. rewrite Ht in Htcp. destruct (is_empty (f_access f)), (has_rules f), (has_deny_rules f); done.
  - intros Hr. rewrite Hr in Hexc. by destruct (is_empty (f_access f)).
  - intros [x Hx]. rewrite Hx in *.
    destruct x, (has_rules f), (is_empty (f_access f)), (f_allow_all_known_mcp_methods f); auto; done.
  - intros Hr. rewrite Hr in Hd. destruct (L7Protocol_parse _); [by eexists|done].
Qed.

Lemma tcp_fields_nil e : explicit_tcp_fields e = [] → no_l7_fields e.
Proof.
  unfold explicit_tcp_fields, no_l7_fields. rewrite !app_nil_iff, !push_if_nil, !is_empty_negb_false.
  rewrite !negb_false_iff, bool_decide_eq_true, !Z.ltb_ge, Z.eqb_eq.
  intros (He & Hp & ? & ? & ? & ? & ? & ? & ? & Hm). split_and!; try done.
  by destruct (Endpoint.mcp e).
Qed.

Lemma l7_errors_nil e :
  l7_errors e = [] →
  validate_l7_endpoint_semantics (fields_of e) = []
  ∧ (Endpoint.tls e ∈ [0; 1] ∧ Endpoint.enforcement e ∈ [0; 1; 2] ∧ Endpoint.access e ∈ [0; 1; 2; 3])
  ∧ (is_explicit_tcp_protocol (Endpoint.protocol e) = true → explicit_tcp_fields e = [])
  ∧ (Endpoint.path e = [] ∨ starts_with [47] (Endpoint.path e) = true ∨ Endpoint.path e = lit "**")
  ∧ Endpoint.persisted_queries e ∈ [[]; lit "deny"; lit "allow_registered"]
  ∧ (Endpoint.protocol e = lit "sql" → Endpoint.enforcement e ≠ 1).
Proof.
  unfold l7_errors. rewrite !app_nil_iff, !push_if_nil. intros (Hs & Hm & Ht & Hp & Hq & Hsql & _).
  split; [done|]. split; [by apply modes_nil|]. split.
  2: { split_and!.
       - destruct (is_empty (Endpoint.path e)) eqn:E; [left; by apply is_empty_true|].
         destruct (starts_with [47] (Endpoint.path e)); [by right; left|]. right; right.
         cbn in Hp. by apply negb_false_iff, bool_decide_eq_true in Hp.
       - destruct (is_empty (Endpoint.persisted_queries e)) eqn:E; [apply is_empty_true in E as ->; left|].
         cbn in Hq. apply negb_false_iff, bool_decide_eq_true in Hq. by right.
       - intros Hproto Henf. rewrite Hproto, Henf in Hsql. by vm_compute in Hsql. }
  intros Htcp.
  unfold validate_explicit_tcp_additional_fields in Ht. rewrite Htcp in Ht. cbn [negb orb] in Ht.
  destruct (is_empty (explicit_tcp_fields e)) eqn:E; [|done]. by apply is_empty_true.
Qed.

Lemma endpoint_sound name i e :
  endpoint_violations RequireMaterialized name i e = [] → sound_endpoint e.
Proof.
  unfold endpoint_violations. rewrite !app_nil_iff, map_nil_iff. intros (Hh & Hp & _ & _ & Hl & Hm).
  apply l7_errors_nil in Hl as (Hs & Hmodes & Htcp & Hpath & Hqs & Hsql). destruct (semantics_nil _ Hs) as (H1 & H2 & H3 & H4 & H5).
  pose proof (access_name_empty _ (proj2 (proj2 Hmodes))) as Hacc.
  cbn [fields_of f_protocol f_access has_rules has_deny_rules f_allow_all_known_mcp_methods] in *.
  rewrite Hacc, ?is_empty_negb_true in *. split.
  - by eapply ports_nil.
  - done.
  - done.
  - intros [Hr|[Ha|Ha]]%H4; [by left|right; left; lia|right; right].
    destruct (Endpoint.mcp e) as [o|]; [|done]. exists o. split; [done|]. cbn in Ha.
    destruct (McpOptions.allow_all_known_mcp_methods o); cbn in Ha; congruence.
  - intros Hr%H3. lia.
  - done.
  - intros Ht. destruct (H2 Ht) as (Ha & Hr & Hd). rewrite is_empty_negb_false in Hr. rewrite is_empty_negb_false in Hd.
    pose proof (tcp_fields_nil e (Htcp Ht)) as Hf.
    assert (trim (Endpoint.host e) ≠ [] ∧ IpParse.parse_ip (Endpoint.host e) = None) as [? ?].
    { unfold host_violations in Hh. rewrite Ht, andb_true_r in Hh.
      destruct (is_empty (trim (Endpoint.host e))) eqn:E; [done|]. cbn [andb] in Hh.
      split; [by apply is_empty_false|]. by destruct (IpParse.parse_ip _). }
    split; [done|]. split; [done|]. split; [done|]. split; [done|]. split; [lia|exact Hf].
  - done.
  - done.
  - done.
  - intros Hmcp. unfold collect_mcp_endpoint_violations in Hm. rewrite Hmcp in Hm.
    destruct (Endpoint.mcp e) as [o|]; [|done]. exists o. split; [done|].
    destruct (is_empty (McpOptions.versions o)) eqn:E; [done|].
    apply version_violations_nil in Hm as (? & _ & ?). split; [by apply is_empty_false|done].
Qed.

(** ** Middleware *)

Lemma sorted_middlewares_elem p name mw :
  network_middlewares p !! name = Some mw → (name, mw) ∈ sorted_middlewares p.
Proof.
  intros Hn. unfold sorted_middlewares. apply list_elem_of_omap. exists name. rewrite Hn.
  split; [|done]. apply sort_by_elem, (list_elem_of_fmap fst). exists (name, mw). split; [done|].
  by apply elem_of_map_to_list.
Qed.

Lemma middleware_accepted m orders mws name mw :
  middlewares_violations m orders mws = [] → (name, mw) ∈ mws → middleware_violations m name mw = [].
Proof.
  revert orders. induction mws as [|[n x] mws IH]; intros orders; [by intros _ ?%elem_of_nil|].
  cbn [middlewares_violations]. rewrite !app_nil_iff. intros (_ & _ & Hx & Hr).
  intros [Heq|Hin]%elem_of_cons; [by injection Heq as -> ->|by eapply IH].
Qed.

Lemma collect_patterns patterns :
  (∀ p, p ∈ patterns → ∃ c, HostPattern.new p = Ok c) → ∃ cs, try_collect HostPattern.new patterns = Ok cs.
Proof.
  induction patterns as [|p patterns IH]; intros H; [by exists []|]. cbn [try_collect].
  destruct (H p ltac:(by left)) as [c ->]. destruct IH as [cs ->]; [|by exists (c :: cs)].
  intros q Hq. apply H. by right.
Qed.

(** An accepted selector compiles, and matches no pattern that may skip. *)
Lemma selector_accepted m name mw d :
  middleware_violations m name mw = [] → mw_endpoints mw = Some d →
  ∃ sel, HostSelector.new (include d) (exclude d) = Ok sel
    ∧ tls_skip_violations m name (Some sel) mw = [].
Proof.
  unfold middleware_violations. intros Hv Hd. rewrite Hd, !app_nil_iff in Hv.
  destruct Hv as (_ & _ & Hv). unfold selector_violations in Hv.
  rewrite app_nil_iff, push_if_nil in Hv. destruct Hv as [Hne Hv]. rewrite Hne in Hv.
  destruct (Nat.ltb _ _); [done|]. rewrite app_nil_iff in Hv. destruct Hv as [Hpat Hskip].
  rewrite Hpat in Hskip. cbn [negb andb is_empty] in Hskip.
  rewrite flat_map_nil in Hpat.
  assert (∀ q, q ∈ include d ++ exclude d → ∃ c, HostPattern.new q = Ok c) as Hok.
  { intros q Hq%Hpat. unfold pattern_violations in Hq.
    destruct (HostPattern.new q) as [c|]; [by exists c|done]. }
  assert (∃ sel, HostSelector.new (include d) (exclude d) = Ok sel) as [sel Hsel].
  { unfold HostSelector.new. apply is_empty_false in Hne. destruct (decide (include d = [])); [done|].
    destruct (collect_patterns (include d)) as [ics ->]; [intros; apply Hok; set_solver|].
    destruct (collect_patterns (exclude d)) as [ecs ->]; [intros; apply Hok; set_solver|].
    by eexists. }
  exists sel. rewrite Hsel in Hskip. done.
Qed.

(** ** Merging *)

(** An operation with its rule in canonical form, once the rule is accepted. *)
Definition op_canonical (op op' : PolicyMergeOp) : Prop :=
  match op with
  | AddRule rule_name rule =>
      (∀ i ep, endpoints rule !! i = Some ep →
         endpoint_violations AllowDefaultable (policy_name rule_name rule) i ep = [])
      ∧ op' = AddRule rule_name (rule_of (name rule) (map canonical_endpoint (endpoints rule))
                                   (binaries rule))
  | _ => op' = op
  end.

Lemma canonicalize_sandbox_Ok p p' :
  validate_and_canonicalize_sandbox_policy p = Ok p' ↔
  policy_violations AllowDefaultable p = [] ∧ p' = canonical p.
Proof.
  unfold validate_and_canonicalize_sandbox_policy, validate_sandbox_policy_with_mcp_presence.
  rewrite let_Ok. split.
  - intros (u & Hv & Hk). apply verdict_Ok in Hv. by injection Hk as <-.
  - intros [Hv ->]. exists (). by rewrite Hv.
Qed.

Lemma canonical_operation_Ok i op o :
  validate_and_canonicalize_operation i op = Ok o → ∃ op', o = Some op' ∧ op_canonical op op'.
Proof.
  destruct op as [rule_name rule| | | | |]; cbn [validate_and_canonicalize_operation op_canonical];
    [|intros Hk; injection Hk as <-; by eexists..].
  rewrite let_Ok. intros (r & Hr & Hk). apply map_err_Ok in Hr. injection Hk as <-.
  unfold validate_rule_fragment in Hr. apply let_Ok in Hr as (c & Hc & Hr).
  apply canonicalize_sandbox_Ok in Hc as [Hv ->]. apply (inj Ok) in Hr as <-.
  eexists. split.
  - rewrite canonical_policies. unfold map_endpoints. cbn [with_policies policies].
    by rewrite lookup_fmap, lookup_singleton_eq.
  - split; [|done]. intros j ep Hep.
    apply (accepted_endpoint _ _ rule_name rule j ep Hv); [apply lookup_singleton_eq|done].
Qed.

Lemma validate_canonical_op i op op' :
  op_canonical op op' → validate_operation i op = Ok () → validate_operation i op' = Ok ().
Proof.
  destruct op as [rule_name rule| | | | |]; cbn [op_canonical]; [|by intros ->..].
  intros [_ ->]. cbn [validate_operation endpoints]. destruct (is_empty (trim rule_name)); [done|].
  by destruct (endpoints rule).
Qed.

Lemma merge_operations_Ok m i ops o :
  merge_operations m i ops = Ok o →
  ∃ r ops', o = Some r ∧ Forall2 op_canonical ops ops' ∧ apply_operations m i ops' = Ok r.
Proof.
  revert m i o. induction ops as [|op ops IH]; intros m i o; cbn [merge_operations].
  { intros Hk. injection Hk as <-. exists (m, []), []. split_and!; [done|constructor|done]. }
  rewrite let_Ok. intros (u & Hv%map_err_Ok & Hk). destruct u.
  apply let_Ok in Hk as (o' & Hc & Hk). apply canonical_operation_Ok in Hc as (op' & -> & Hop).
  apply let_Ok in Hk as ([m' w] & Ha%map_err_Ok & Hk). cbn [fst snd] in Hk.
  apply let_Ok in Hk as (rest & Hrest & Hk). injection Hk as <-.
  apply IH in Hrest as (r & ops' & -> & Hops & Happ). exists (r.1, w ++ r.2), (op' :: ops').
  split_and!; [done|by constructor|]. cbn [apply_operations].
  rewrite (validate_canonical_op _ _ _ Hop Hv), Ha, Happ. by destruct r.
Qed.

(** ** What canonicalisation changes *)

(** The protocol revisions an MCP endpoint asks for. *)
Definition requested_versions (e : NetworkEndpoint) : list bytes :=
  let versions := default [] (McpOptions.versions <$> Endpoint.mcp e) in
  if is_empty versions then default_mcp_versions else versions.

Record canonical_form (e e' : NetworkEndpoint) : Prop := {
  form_rest : with_mcp e' (Endpoint.mcp e) = e;
  form_other : is_mcp (Endpoint.protocol e) = false → e' = e;
  form_mcp : is_mcp (Endpoint.protocol e) = true →
    ∃ o, Endpoint.mcp e' = Some o
      ∧ McpOptions.strict_tool_names o = Endpoint.mcp e ≫= McpOptions.strict_tool_names
      ∧ McpOptions.allow_all_known_mcp_methods o
        = Endpoint.mcp e ≫= McpOptions.allow_all_known_mcp_methods
      ∧ (∀ v, v ∈ McpOptions.versions o ↔ v ∈ requested_versions e)
      ∧ StronglySorted older (McpOptions.versions o) ∧ NoDup (McpOptions.versions o);
}.

Lemma canonical_endpoint_form e name :
  collect_mcp_endpoint_violations AllowDefaultable name e = [] →
  canonical_form e (canonical_endpoint e).
Proof.
  intros Hv. destruct (canonical_endpoint_cases e name Hv)
    as [(Hm & Hn & Hc)|(Hm & o & Hc & Ha & _ & _ & Hnd & Hp)].
  { rewrite Hc. split; [apply with_mcp_id|done|by rewrite Hm]. }
  split; [rewrite Hc; by destruct e|by rewrite Hm|intros _].
  exists o. assert (Endpoint.mcp (canonical_endpoint e) = Some o) as Ho by (by rewrite Hc).
  split; [done|]. unfold canonical_endpoint, materialize_endpoint in Ho. rewrite Hm in Ho.
  cbn [negb canonicalize_endpoint with_mcp Endpoint.mcp fmap option_fmap option_map] in Ho.
  apply (inj Some) in Ho.
  assert (McpOptions.versions o = canonicalize_mcp_versions (requested_versions e)) as Hvs.
  { rewrite <- Ho. unfold requested_versions. by destruct (Endpoint.mcp e). }
  assert (∀ v, v ∈ McpOptions.versions o ↔ v ∈ requested_versions e) as Hin.
  { intros v. rewrite Hvs. apply canonical_versions_elem. }
  split_and!; [|done|done| |done].
  - rewrite <- Ho. by destruct (Endpoint.mcp e).
  - rewrite Hvs. apply canonical_versions_sorted. intros v Hv'. by apply Hp, Hin.
Qed.

Lemma canonical_rules p key :
  policy_violations AllowDefaultable p = [] →
  option_Forall2 (λ r r', name r' = name r ∧ binaries r' = binaries r
                   ∧ Forall2 canonical_form (endpoints r) (endpoints r'))
    (policies p !! key) (policies (canonical p) !! key).
Proof.
  intros Hv. rewrite canonical_policies. unfold map_endpoints. rewrite lookup_fmap.
  destruct (policies p !! key) as [r|] eqn:Hr; cbn; constructor. split_and!; [done..|].
  cbn [endpoints]. apply Forall2_fmap_r, Forall_Forall2_diag, list.Forall_forall. intros e He.
  apply list_elem_of_lookup in He as [i He].
  pose proof (accepted_endpoint _ _ _ _ _ _ Hv Hr He) as Ha. unfold endpoint_violations in Ha.
  rewrite !app_nil_iff in Ha. destruct Ha as (_ & _ & _ & _ & _ & Hm).
  by eapply canonical_endpoint_form.
Qed.

(** ** Theorems *)

(** C28: a submitted policy that is accepted is stored in canonical form.
    The stored policy passes the strict validation, a second submission
    leaves it as it is, and it is the submitted one but for the options of
    its MCP endpoints, whose revisions are those asked for, oldest first
    and without repetition, or the default one. *)
Theorem stored_policy_is_canonical p p'
  (Hok : validate_and_canonicalize_sandbox_policy p = Ok p') :
  validate_sandbox_policy p' = Ok ()
  ∧ validate_and_canonicalize_sandbox_policy p' = Ok p'
  ∧ with_policies p' (policies p) = p
  ∧ ∀ key, option_Forall2 (λ r r', name r' = name r ∧ binaries r' = binaries r
                            ∧ Forall2 canonical_form (endpoints r) (endpoints r'))
             (policies p !! key) (policies p' !! key).
Proof.
  apply canonicalize_sandbox_Ok in Hok as [Hv ->]. pose proof (canonical_accepted p Hv) as Hr.
  split_and!.
  - by apply verdict_Ok.
  - apply canonicalize_sandbox_Ok. split; [by apply require_allow_policy|]. by rewrite canonical_idem.
  - by destruct p.
  - intros key. by apply canonical_rules.
Qed.

(** C25: the endpoints of an accepted policy are well formed: they have
    ports, all of 16 bits and none zero; their modes are known; a protocol
    is plain, [tcp] or one the proxy inspects; an inspected endpoint has an
    allow base, rules exclude a preset, and only an inspected one has deny rules;
    a [tcp] endpoint names a DNS host and has none of the fields of inspection;
    the path and the treatment of persisted queries are known forms; SQL is not
    enforced; an MCP endpoint lists known revisions. *)
Theorem accepted_endpoint_is_sound p key rule ep
  (Hok : validate_sandbox_policy p = Ok ())
  (Hr : policies p !! key = Some rule) (He : ep ∈ endpoints rule) :
  sound_endpoint ep.
Proof.
  apply verdict_Ok in Hok. apply list_elem_of_lookup in He as [i He].
  exact (endpoint_sound _ _ _ (accepted_endpoint _ _ _ _ _ _ Hok Hr He)).
Qed.

(** C9: a middleware that must see its traffic is never bypassed by a host
    pattern the validator can read. In an accepted policy a fail-closed
    middleware has a selector that compiles, and no host it selects is matched,
    as the validator's own [HostPattern] matches hosts, by an endpoint with
    [tls: skip]. An endpoint host that is no such pattern, one with braces say,
    is not covered: [brace_host_escapes_tls_skip_check] has one that is
    accepted beside a fail-closed middleware for every host. *)
Theorem fail_closed_middleware_is_not_skipped p name mw
  (Hok : validate_sandbox_policy p = Ok ())
  (Hmw : network_middlewares p !! name = Some mw) (Hreq : requires_inspection mw = true) :
  ∃ d sel, mw_endpoints mw = Some d ∧ HostSelector.new (include d) (exclude d) = Ok sel
    ∧ ∀ key rule ep host, policies p !! key = Some rule → ep ∈ endpoints rule →
      Endpoint.tls ep = 1 → HostPattern.host_matches (Endpoint.host ep) host = Ok true →
      HostSelector.matches sel host = false.
Proof.
  apply verdict_Ok in Hok. unfold policy_violations, validate in Hok. rewrite !app_nil_iff in Hok.
  destruct Hok as (_ & _ & _ & _ & _ & Hok).
  pose proof (middleware_accepted _ _ _ _ _ Hok (sorted_middlewares_elem _ _ _ Hmw)) as Hv.
  destruct (mw_endpoints mw) as [d|] eqn:Hd.
  2: { unfold middleware_violations in Hv. rewrite Hd, !app_nil_iff in Hv. naive_solver. }
  destruct (selector_accepted _ _ _ _ Hv Hd) as (sel & Hsel & Hskip).
  exists d, sel. split_and!; [done..|]. intros key rule ep host Hr He Htls Hm.
  rewrite tls_skip_nil in Hskip. specialize (Hskip key rule ep Hr He).
  apply not_true_is_false. intros Hs.
  pose proof (selector_conservative _ _ _ _ _ Hsel Hs Hm) as Hc.
  unfold overlaps_tls_skip in Hskip. unfold HostSelector.selector_may_match_pattern in Hc.
  rewrite Hsel in Hc. rewrite Hreq, Htls in Hskip. cbn in Hc, Hskip.
  destruct (HostPattern.new (Endpoint.host ep)); [|done]. cbn in Hc. congruence.
Qed.

(** C14: a merge runs on accepted policies only and returns one. It never
    reaches the [expect] of a rule fragment; its result is the canonical
    form of what the operations, with each added rule accepted on its own
    and in canonical form, make of the canonical input; it creates no
    inspection conflict, passes the strict validation, touches no section
    but the network rules, and reports no change only when these are the
    same. *)
Theorem merge_policy_refines p operations o
  (Hok : merge_policy p operations = Ok o) :
  ∃ r operations' merged, o = Some r
    ∧ validate_and_canonicalize_sandbox_policy p = Ok (canonical p)
    ∧ Forall2 op_canonical operations operations'
    ∧ merge_canonical (policies (canonical p)) operations' = Ok (merged, warnings r)
    ∧ policy r = canonical (with_policies p merged)
    ∧ validate_sandbox_policy (policy r) = Ok ()
    ∧ with_policies (policy r) (policies p) = p
    ∧ (changed r = false → policies (policy r) = policies (canonical p)).
Proof.
  unfold merge_policy in Hok. apply let_Ok in Hok as (c & Hc%map_err_Ok & Hok).
  pose proof Hc as Hcan. apply canonicalize_sandbox_Ok in Hc as [Hv ->].
  apply let_Ok in Hok as (o' & Hops & Hok). apply merge_operations_Ok in Hops as ([m w] & ops & -> & Hops & Ha).
  apply let_Ok in Hok as (u & Hn%map_err_Ok & Hok).
  apply let_Ok in Hok as (q & Hq%map_err_Ok & Hok). apply canonicalize_sandbox_Ok in Hq as [Hv' ->].
  apply (inj Ok) in Hok as <-. eexists _, ops, m. cbn [policy warnings changed]. split_and!; try done.
  - unfold merge_canonical. by rewrite Ha, Hn.
  - by apply verdict_Ok, canonical_accepted.
  - by destruct p.
  - intros Hch%negb_false_iff. unfold policy_eqb in Hch. rewrite !andb_true_iff in Hch.
    destruct Hch as (((_ & Hp) & _) & _). by apply bool_decide_eq_true in Hp.
Qed.
End facts.

(** ** Examples *)

Module ValidateSample.

#[local] Instance unit_struct : ProtoStruct := {| Struct := unit; struct_eqb _ _ := true |}.
#[local] Existing Instance example_dns.

Definition endpoint (host protocol : bytes) (tls enforcement access : Z)
  (mcp : option McpOptions.t) : NetworkEndpoint :=
  Endpoint.mk host 0 protocol tls enforcement access [] [] [443] [] false [] ∅ 0 []
    false false false [] [] [] 0 mcp None false false [].
Definition web : bytes := lit "web".
Definition with_endpoint (e : NetworkEndpoint) : SandboxPolicy :=
  with_policies restrictive_default_policy {[ web := rule_of web [e] [] ]}.
Definition redact : NetworkMiddlewareConfig :=
  middleware_of (lit "redact") (lit "openshell/redact") None []
    (Some (selector_of [lit "**"] [lit "*.cdn.example.com"])) 1.
Definition with_redact (p : SandboxPolicy) : SandboxPolicy :=
  policy_of (version p) (filesystem p) (landlock p) (process p) (policies p)
    {[ lit "redact" := redact ]}.

Definition mcp_revisions (versions : list bytes) : NetworkEndpoint :=
  endpoint (lit "mcp.example.com") (lit "mcp") 0 0 0 (Some (McpOptions.mk None (Some true) versions)).
Definition submitted : SandboxPolicy :=
  with_endpoint (mcp_revisions [lit "2025-11-25"; lit "2025-06-18"]).
Definition cdn : SandboxPolicy :=
  with_redact (with_endpoint (endpoint (lit "*.cdn.example.com") [] 1 0 0 None)).

Lemma stored_policy_is_canonical_witness :
  validate_and_canonicalize_sandbox_policy submitted = Ok (canonical submitted)
  ∧ validate_sandbox_policy (canonical submitted) = Ok ()
  ∧ submitted ≠ canonical submitted.
Proof.
  assert (validate_and_canonicalize_sandbox_policy submitted = Ok (canonical submitted)) as H
    by (vm_compute; reflexivity).
  split_and!; [exact H|exact (proj1 (stored_policy_is_canonical submitted _ H))|].
  intros Heq. apply (f_equal (λ p, bool_decide (policies p = policies submitted))) in Heq.
  vm_compute in Heq. discriminate.
Defined.

Lemma accepted_endpoint_is_sound_witness :
  sound_endpoint (endpoint (lit "*.cdn.example.com") [] 1 0 0 None).
Proof.
  refine (accepted_endpoint_is_sound cdn web (rule_of web [endpoint (lit "*.cdn.example.com") [] 1 0 0 None] [])
            _ _ _ _); [vm_compute; reflexivity..|left].
Defined.

Lemma fail_closed_middleware_is_not_skipped_witness :
  ∃ sel, HostSelector.new [lit "**"] [lit "*.cdn.example.com"] = Ok sel
    ∧ HostSelector.matches sel (lit "a.cdn.example.com") = false
    ∧ HostSelector.matches sel (lit "api.example.com") = true.
Proof.
  destruct (fail_closed_middleware_is_not_skipped cdn (lit "redact") redact)
    as (d & sel & Hd & Hsel & Hskip); [vm_compute; reflexivity..|].
  apply (inj Some) in Hd as <-. exists sel. split_and!; [exact Hsel| |].
  - apply (Hskip web (rule_of web [endpoint (lit "*.cdn.example.com") [] 1 0 0 None] [])
             (endpoint (lit "*.cdn.example.com") [] 1 0 0 None));
      [vm_compute; reflexivity|left|vm_compute; reflexivity..].
  - vm_compute in Hsel. injection Hsel as <-. vm_compute. reflexivity.
Defined.

Definition added : PolicyMergeOp :=
  AddRule (lit "tools") (rule_of (lit "tools") [mcp_revisions []] []).

Lemma merge_policy_refines_witness :
  ∃ r, merge_policy cdn [added] = Ok (Some r) ∧ validate_sandbox_policy (policy r) = Ok ()
    ∧ network_middlewares (policy r) = network_middlewares cdn.
Proof.
  destruct (merge_policy cdn [added]) as [o|] eqn:H; [|by vm_compute in H].
  destruct (merge_policy_refines cdn [added] o H)
    as (r & ops & m & -> & _ & _ & _ & _ & Hv & Hrest & _).
  exists r. split_and!; [reflexivity|exact Hv|]. by rewrite <- Hrest.
Defined.

(** Read-write access to the filesystem root is refused for [/] and
    [//] only: the validator accepts [/.], which the typed policy of the
    sandbox normalises to the root. *)
Theorem read_write_root_accepted :
  validate_filesystem_paths [] [lit "/"] = Err [OverlyBroadPath (lit "/")]
  ∧ validate_filesystem_paths [] [lit "/."] = Ok ()
  ∧ validate_filesystem_paths [] [lit "//.//"] = Ok ()
  ∧ PolicySchema.normalize_path (lit "/.") = lit "/" ∧ PolicySchema.normalize_path (lit "//.//") = lit "/".
Proof. vm_compute. done. Qed.

(** The check of wildcards under a top-level domain counts labels: a
    pattern of three labels that are all wildcards is accepted. *)
Lemma wildcard_over_every_domain :
  let e host := endpoint host [] 0 0 0 None in
  validate_sandbox_policy (with_endpoint (e (lit "*.com")))
  = Err [TldWildcard web (lit "*.com")]
  ∧ validate_sandbox_policy (with_endpoint (e (lit "*.*.com"))) = Ok ()
  ∧ validate_sandbox_policy (with_endpoint (e (lit "**.*.*"))) = Ok ()
  ∧ HostPattern.host_matches (lit "**.*.*") (lit "deep.bank.example") = Ok true.
Proof. vm_compute. done. Qed.

(** [SQL] names the protocol [sql] does, but escapes its enforcement check. *)
Lemma sql_case_escapes_enforcement :
  let e protocol := endpoint (lit "db.example.com") protocol 0 1 3 None in
  L7Protocol_parse (lit "SQL") = L7Protocol_parse (lit "sql")
  ∧ is_ok (validate_sandbox_policy (with_endpoint (e (lit "sql")))) = false
  ∧ validate_sandbox_policy (with_endpoint (e (lit "SQL"))) = Ok ().
Proof. vm_compute. done. Qed.

(** A host with a brace group is no [HostPattern], so an endpoint that skips
    inspection under a fail-closed middleware for every host is accepted. *)
Lemma brace_host_escapes_tls_skip_check :
  let e host := endpoint host [] 1 0 0 None in
  is_ok (validate_sandbox_policy (with_redact (with_endpoint (e (lit "a*.example.com"))))) = false
  ∧ validate_sandbox_policy (with_redact (with_endpoint (e (lit "{a,b}*.example.com")))) = Ok ().
Proof. vm_compute. done. Qed.

End ValidateSample.
