(* ===== verification/OpaData.v ===== *)
(** * OpaData: the data a policy becomes for the policy engine
    (crates/openshell-supervisor-network/src/opa.rs and src/l7/mod.rs)

    [from_proto] turns an accepted policy into the JSON document the Rego
    program reads: the projection of the messages, the canonical protocol
    names, the second validation, the method of MCP rules and the expansion of
    access presets. An object of the document is a record whose optional keys
    are options. Warnings, which are only logged, are not modelled. *)

From stdpp Require Import gmap.
From S2P Require Import Prelude Net IpParse Order Text Patterns PolicyDns PolicyTypes PolicyMerge.
From S2P Require Import Ambiguity PolicySchema PolicyValidate.

Local Open Scope Z_scope.

(** ** Objects of the document *)

(** A matcher: a glob, or an object with [glob] or [any]. *)
Module MatcherJson.
Inductive t : Type :=
| Text (glob : bytes)
| Object (glob : option bytes) (any : option (list bytes)).
#[global] Instance eq_dec : EqDecision t.
Proof. solve_decision. Defined.
End MatcherJson.

(** The value of [allow], or a deny rule. *)
Module RuleJson.
Record t := mk {
  method : option bytes;
  path : option bytes;
  command : option bytes;
  operation_type : option bytes;
  operation_name : option bytes;
  fields : option (list bytes);
  query : option (gmap bytes MatcherJson.t);
  params : option (gmap bytes MatcherJson.t);
  tool : option MatcherJson.t;
}.
Definition empty : t := mk None None None None None None None None None.
End RuleJson.

Module EndpointJson.
Record t := mk {
  host : bytes;
  ports : list Z;
  path : option bytes;
  protocol : option bytes;
  tls : option bytes;
  enforcement : option bytes;
  access : option bytes;
  rules : option (list RuleJson.t);
  allowed_ips : option (list bytes);
  advisor_proposed : option bool;
  deny_rules : option (list RuleJson.t);
  allow_encoded_slash : option bool;
  websocket_credential_rewrite : option bool;
  request_body_credential_rewrite : option bool;
  allow_uninspected_credentials : option bool;
  provider_credentialed : option bool;
  token_grant_owner : option bytes;
  policy_hash : bytes;
  endpoint_id : option bytes;
  credential_signing : option bytes;
  signing_service : option bytes;
  signing_region : option bytes;
  credential_binding : option bytes;
  persisted_queries : option bytes;
  graphql_persisted_queries : option (gmap bytes GraphqlOperation.t);
  graphql_max_body_bytes : option Z;
  json_rpc_max_body_bytes : option Z;
  mcp_versions : option (list bytes);
  mcp_strict_tool_names : option bool;
  mcp_allow_all_known_mcp_methods : option bool;
}.

(** Only the protocol, the rules and the deny rules change after projection. *)
Definition with_rules (e : t) (protocol : option bytes) (rules deny_rules : option (list RuleJson.t))
  : t :=
  mk (host e) (ports e) (path e) protocol (tls e) (enforcement e) (access e) rules (allowed_ips e)
    (advisor_proposed e) deny_rules (allow_encoded_slash e) (websocket_credential_rewrite e)
    (request_body_credential_rewrite e) (allow_uninspected_credentials e)
    (provider_credentialed e) (token_grant_owner e) (policy_hash e) (endpoint_id e)
    (credential_signing e) (signing_service e) (signing_region e) (credential_binding e)
    (persisted_queries e) (graphql_persisted_queries e) (graphql_max_body_bytes e)
    (json_rpc_max_body_bytes e) (mcp_versions e) (mcp_strict_tool_names e)
    (mcp_allow_all_known_mcp_methods e).
End EndpointJson.

Record PolicyJson := policy_json {
  pj_name : bytes;
  pj_endpoints : list EndpointJson.t;
  pj_binaries : list bytes;
}.

(** A middleware; its configuration is for its implementation alone. *)
Module MiddlewareJson.
Record t := mk {
  middleware : bytes;
  order : Z;
  name : option bytes;
  on_error : option bytes;
  endpoints : option (option (list bytes) * option (list bytes));
}.
End MiddlewareJson.

(** The part of the document the network rules read. *)
Record OpaData := opa_data {
  network_policies_json : gmap bytes PolicyJson;
  network_middlewares_json : gmap bytes MiddlewareJson.t;
  require_binary_identity : bool;
}.

(** ** The projection of the messages *)

Module OpaData.

(** A key that is only written when it says something. *)
Definition key_if {A} (b : bool) (value : A) : option A := if b then Some value else None.
Definition text (s : bytes) : option bytes := key_if (negb (is_empty s)) s.
Definition flag (b : bool) : option bool := key_if b true.
Definition items {A} (l : list A) : option (list A) := key_if (negb (is_empty l)) l.

Definition matcher_to_json (m : L7QueryMatcher.t) : MatcherJson.t :=
  MatcherJson.Object (text (L7QueryMatcher.glob m)) (items (L7QueryMatcher.any m)).
Definition l7_matchers_to_json (matchers : gmap bytes L7QueryMatcher.t) : gmap bytes MatcherJson.t :=
  matcher_to_json <$> matchers.
Definition matchers_key (m : gmap bytes L7QueryMatcher.t) : option (gmap bytes MatcherJson.t) :=
  key_if (negb (bool_decide (m = ∅))) (l7_matchers_to_json m).

Definition allow_to_json (a : L7Allow.t) : RuleJson.t :=
  RuleJson.mk (text (L7Allow.method a)) (text (L7Allow.path a)) (text (L7Allow.command a))
    (text (L7Allow.operation_type a)) (text (L7Allow.operation_name a)) (items (L7Allow.fields a))
    (matchers_key (L7Allow.query a)) (matchers_key (L7Allow.params a)) None.
Definition rule_to_json (r : L7Rule) : RuleJson.t := from_option allow_to_json RuleJson.empty r.

(** A mode: its name, or a text no mode has. *)
Definition mode_to_json (to_str : Z → option bytes) (value : Z) : option bytes :=
  key_if (negb (value =? 0))
    (default (lit "unknown(" ++ show_int value ++ lit ")") (to_str value)).

Definition ports_to_json (e : NetworkEndpoint) : list Z :=
  if negb (is_empty (Endpoint.ports e)) then Endpoint.ports e
  else if 0 <? Endpoint.port e then [Endpoint.port e] else [].

(** [is_mcp_protocol] of openshell-core, which trims. *)
Definition is_mcp_protocol (protocol : bytes) : bool :=
  eq_ignore_ascii_case (trim protocol) (lit "mcp").

(** How a binary of the policy resolves in the sandbox's file system. *)
Inductive BinaryResolution : Type :=
| Resolved (path : bytes)
| Absent
| Inaccessible
| CandidateInaccessible
| ChainBroken
| Literal.

Section projection.
(** Digests of the policy and of an endpoint, and the sandbox's file system. *)
Context (policy_hash : bytes) (endpoint_id : NetworkEndpoint → bytes)
  (resolve_binary_in_container : bytes → BinaryResolution).

Definition endpoint_to_json (e : NetworkEndpoint) : EndpointJson.t :=
  EndpointJson.mk (Endpoint.host e) (ports_to_json e) (text (Endpoint.path e))
    (text (Endpoint.protocol e))
    (mode_to_json network_tls_mode_to_str (Endpoint.tls e))
    (mode_to_json network_enforcement_mode_to_str (Endpoint.enforcement e))
    (mode_to_json network_access_preset_to_str (Endpoint.access e))
    (items (map rule_to_json (Endpoint.rules e)))
    (items (Endpoint.allowed_ips e))
    (flag (Endpoint.advisor_proposed e))
    (items (map allow_to_json (Endpoint.deny_rules e)))
    (flag (Endpoint.allow_encoded_slash e))
    (flag (Endpoint.websocket_credential_rewrite e))
    (flag (Endpoint.request_body_credential_rewrite e))
    (flag (Endpoint.allow_uninspected_credentials e))
    (flag (Endpoint.provider_credentialed e))
    (text (Endpoint.token_grant_owner e))
    policy_hash
    (key_if (is_mcp_protocol (Endpoint.protocol e)) (endpoint_id e))
    (text (Endpoint.credential_signing e))
    (text (Endpoint.signing_service e))
    (text (Endpoint.signing_region e))
    (Endpoint.credential_binding e)
    (text (Endpoint.persisted_queries e))
    (key_if (negb (bool_decide (Endpoint.graphql_persisted_queries e = ∅)))
       (Endpoint.graphql_persisted_queries e))
    (key_if (0 <? Endpoint.graphql_max_body_bytes e) (Endpoint.graphql_max_body_bytes e))
    (key_if (0 <? Endpoint.json_rpc_max_body_bytes e) (Endpoint.json_rpc_max_body_bytes e))
    (mcp ← Endpoint.mcp e;
     key_if (eq_ignore_ascii_case (Endpoint.protocol e) (lit "mcp")) (McpOptions.versions mcp))
    (Endpoint.mcp e ≫= McpOptions.strict_tool_names)
    (Endpoint.mcp e ≫= McpOptions.allow_all_known_mcp_methods).

Definition binary_entries (path : bytes) : list bytes :=
  path :: match resolve_binary_in_container path with
          | Resolved resolved => [resolved]
          | _ => []
          end.

Definition policy_to_json (rule : NetworkPolicyRule) : PolicyJson :=
  policy_json (name rule) (map endpoint_to_json (endpoints rule))
    (flat_map binary_entries (binaries rule)).

Definition middleware_to_json {proto : PolicyValidate.ProtoStruct}
  (mw : PolicyValidate.NetworkMiddlewareConfig) : MiddlewareJson.t :=
  MiddlewareJson.mk (PolicyValidate.middleware mw) (PolicyValidate.order mw)
    (text (PolicyValidate.mw_name mw)) (text (PolicyValidate.on_error mw))
    ((λ selector, (items (PolicyValidate.include selector), items (PolicyValidate.exclude selector)))
       <$> PolicyValidate.mw_endpoints mw).

(** [proto_to_opa_data_json] with [inject_runtime_policy_data]. *)
Definition proto_to_opa_data_json {proto : PolicyValidate.ProtoStruct}
  (p : PolicyValidate.SandboxPolicy) (require_binary_identity : bool) : OpaData :=
  opa_data (policy_to_json <$> PolicyValidate.policies p)
    (middleware_to_json <$> PolicyValidate.network_middlewares p) require_binary_identity.
End projection.

Definition map_endpoints_json (f : EndpointJson.t → EndpointJson.t) (data : OpaData) : OpaData :=
  opa_data ((λ p, policy_json (pj_name p) (map f (pj_endpoints p)) (pj_binaries p))
              <$> network_policies_json data) (network_middlewares_json data)
    (require_binary_identity data).

(** ** Normalisation *)

Definition protocol_name (p : L7Validate.L7Protocol) : bytes :=
  match p with
  | L7Validate.Rest => lit "rest"
  | L7Validate.Websocket => lit "websocket"
  | L7Validate.Graphql => lit "graphql"
  | L7Validate.Sql => lit "sql"
  | L7Validate.JsonRpc => lit "json-rpc"
  | L7Validate.Mcp => lit "mcp"
  end.
Definition canonical_protocol (protocol : bytes) : bytes :=
  if eq_ignore_ascii_case protocol (lit "tcp") then lit "tcp"
  else from_option protocol_name protocol (L7Validate.L7Protocol_parse protocol).
Definition normalize_protocol (e : EndpointJson.t) : EndpointJson.t :=
  EndpointJson.with_rules e (canonical_protocol <$> EndpointJson.protocol e)
    (EndpointJson.rules e) (EndpointJson.deny_rules e).
Definition normalize_endpoint_protocols : OpaData → OpaData := map_endpoints_json normalize_protocol.

Definition normalize_matcher (m : MatcherJson.t) : MatcherJson.t :=
  match m with
  | MatcherJson.Text glob =>
      if is_empty glob then m else MatcherJson.Object (Some glob) None
  | MatcherJson.Object _ _ => m
  end.

Definition normalize_l7_matcher_map (field : option (gmap bytes MatcherJson.t))
  : option (gmap bytes MatcherJson.t) :=
  (λ matchers : gmap bytes MatcherJson.t, normalize_matcher <$> matchers) <$> field.

(** The tool of an MCP rule moves to [params.name], and a rule without a
    method gets one where the endpoint allows the known methods. *)
Definition normalize_l7_rule_aliases (protocol : bytes) (allow_all : bool) (r : RuleJson.t)
  : RuleJson.t :=
  let r :=
    if bool_decide (protocol = lit "mcp") then
      let has_params_name :=
        is_some (RuleJson.params r ≫= λ params, params !! lit "name") in
      let params :=
        match RuleJson.tool r with
        | None => RuleJson.params r
        | Some tool =>
            let params := default ∅ (RuleJson.params r) in
            Some (match params !! lit "name" with
                  | Some _ => params
                  | None => <[lit "name" := tool]> params
                  end)
        end in
      let has_tool_selector := has_params_name || is_some (RuleJson.tool r) in
      let method :=
        if allow_all && is_empty (default [] (RuleJson.method r))
        then Some (if has_tool_selector then lit "tools/call" else lit "*")
        else RuleJson.method r in
      RuleJson.mk method (RuleJson.path r) (RuleJson.command r) (RuleJson.operation_type r)
        (RuleJson.operation_name r) (RuleJson.fields r) (RuleJson.query r) params None
    else r in
  RuleJson.mk (RuleJson.method r) (RuleJson.path r) (RuleJson.command r)
    (RuleJson.operation_type r) (RuleJson.operation_name r) (RuleJson.fields r)
    (normalize_l7_matcher_map (RuleJson.query r)) (normalize_l7_matcher_map (RuleJson.params r))
    (RuleJson.tool r).

Definition normalize_l7_rules_aliases (e : EndpointJson.t) : EndpointJson.t :=
  let normalize := normalize_l7_rule_aliases (default [] (EndpointJson.protocol e))
                     (default false (EndpointJson.mcp_allow_all_known_mcp_methods e)) in
  EndpointJson.with_rules e (EndpointJson.protocol e)
    (map normalize <$> EndpointJson.rules e) (map normalize <$> EndpointJson.deny_rules e).
Definition normalize_l7_policy_rule_aliases : OpaData → OpaData :=
  map_endpoints_json normalize_l7_rules_aliases.

(** ** Access presets *)

Definition rule_json (method path : bytes) : RuleJson.t :=
  RuleJson.mk (Some method) (Some path) None None None None None None None.
Definition jsonrpc_rule_json (method : bytes) : RuleJson.t :=
  RuleJson.mk (Some method) None None None None None None None None.
Definition graphql_rule_json (operation_type : bytes) : RuleJson.t :=
  RuleJson.mk None None None (Some operation_type) None None None None None.

Definition access_preset_rules (protocol access : bytes) : option (list RuleJson.t) :=
  let rest methods := Some (map (λ m, rule_json m (lit "**")) methods) in
  let read_only := bool_decide (access = lit "read-only") in
  let read_write := bool_decide (access = lit "read-write") in
  let full := bool_decide (access = lit "full") in
  if bool_decide (protocol = lit "graphql") then
    if read_only then Some [graphql_rule_json (lit "query")]
    else if read_write then Some [graphql_rule_json (lit "query"); graphql_rule_json (lit "mutation")]
    else if full then Some [graphql_rule_json (lit "*")]
    else None
  else if bool_decide (protocol = lit "websocket") then
    if read_only then rest [lit "GET"]
    else if read_write then rest [lit "GET"; lit "WEBSOCKET_TEXT"]
    else if full then rest [lit "*"]
    else None
  else
    if read_only then rest [lit "GET"; lit "HEAD"; lit "OPTIONS"]
    else if read_write
    then rest [lit "GET"; lit "HEAD"; lit "OPTIONS"; lit "POST"; lit "PUT"; lit "PATCH"]
    else if full then rest [lit "*"]
    else None.

Definition expand_endpoint (e : EndpointJson.t) : EndpointJson.t :=
  let protocol := default (lit "rest") (EndpointJson.protocol e) in
  let has_rules := negb (is_empty (default [] (EndpointJson.rules e))) in
  let access := default [] (EndpointJson.access e) in
  let allow_all := default false (EndpointJson.mcp_allow_all_known_mcp_methods e) in
  let insert rules :=
    EndpointJson.with_rules e (EndpointJson.protocol e) (Some rules) (EndpointJson.deny_rules e) in
  if bool_decide (protocol = lit "mcp") && is_empty access && negb has_rules && allow_all
  then insert [jsonrpc_rule_json (lit "*")]
  else if is_empty access || has_rules then e
  else match access_preset_rules protocol access with
       | Some rules => insert rules
       | None => e
       end.
Definition expand_access_presets : OpaData → OpaData := map_endpoints_json expand_endpoint.

(** ** The second validation ([validate_l7_policies])

    The projection writes no [port] and no null, so the branches on these are
    left out. An error is located by the rule and the endpoint it is in. *)

Inductive L7PolicyError : Type :=
| EndpointError (e : L7Validate.L7Error)
| McpNeedsHost
| McpNeedsPort
| EndpointPathError
| HostWildcardError (host : bytes)
| MaxBodyBytes
| McpVersionsOnlyMcp
| McpVersionsEmpty
| McpVersionsUnsupported
| McpVersionsNotCanonical
| McpOptionOnlyMcp
| OperationTypeRequired
| OperationTypeUnknown (value : bytes)
| EmptyFields
| EmptyField
| MatcherKeys
| MatcherBoth
| MatcherEmptyAny
| MethodRequired
| MethodGlob
| ParamsNotSupported
| ToolNotSupported
| PathOrQueryNotSupported
| ToolNeedsToolsCall
| ToolAndParamsName
| ParamsKey (key : bytes)
| WildcardToolName
| DenyConflictsWithTools
| AllowConflictsWithTools
| MixedGraphqlRule
| WebsocketTextWithGraphql
| EmptyRules
| EmptyDenyRules.

Definition glob_uses_wildcard (glob : bytes) : bool :=
  existsb (λ b, bool_decide (b ∈ lit "*?[]{}")) glob.

Definition validate_host_wildcard (host : bytes) : list L7PolicyError :=
  let labels := split_on 46 host in
  let recursive label := contains_sub (lit "**") label in
  let first_label := default [] (head labels) in
  if negb (contains_byte 42 host) then []
  else if bool_decide (host = lit "*") || bool_decide (host = lit "**")
          || (recursive first_label && negb (bool_decide (first_label = lit "**")))
          || existsb (λ label, recursive label
                               || (contains_byte 42 label && negb (bool_decide (label = lit "*"))))
               (drop 1 labels)
          || Nat.leb (length labels) 2
  then [HostWildcardError host] else [].

Definition validate_graphql_rule (operation_type : option bytes) (fields : option (list bytes))
  : list L7PolicyError :=
  let operation_type := default [] operation_type in
  (if is_empty operation_type then [OperationTypeRequired]
   else push_if (negb (bool_decide (to_ascii_lowercase operation_type ∈
                         [lit "query"; lit "mutation"; lit "subscription"; lit "*"])))
          (OperationTypeUnknown operation_type))
  ++ match fields with
     | None => []
     | Some items =>
         if is_empty items then [EmptyFields]
         else flat_map (λ field, push_if (is_empty field) EmptyField) items
     end.

Definition validate_matcher_value (m : MatcherJson.t) : list L7PolicyError :=
  match m with
  | MatcherJson.Text _ => []
  | MatcherJson.Object None None => [MatcherKeys]
  | MatcherJson.Object (Some _) (Some _) => [MatcherBoth]
  | MatcherJson.Object (Some _) None => []
  | MatcherJson.Object None (Some any) => push_if (is_empty any) MatcherEmptyAny
  end.
Definition validate_matcher_map (value : option (gmap bytes MatcherJson.t)) : list L7PolicyError :=
  flat_map (λ '(_, m), validate_matcher_value m) (map_to_list (default ∅ value)).

Definition matcher_uses_glob_wildcard (m : MatcherJson.t) : bool :=
  match m with
  | MatcherJson.Text glob => glob_uses_wildcard glob
  | MatcherJson.Object glob any =>
      from_option glob_uses_wildcard false glob
      || existsb glob_uses_wildcard (default [] any)
  end.
Definition validate_mcp_tool_name_wildcard_policy (m : MatcherJson.t) (strict : bool)
  : list L7PolicyError :=
  push_if (negb strict && matcher_uses_glob_wildcard m) WildcardToolName.

Definition mcp_rule_has_tool_selector (r : RuleJson.t) : bool :=
  is_some (RuleJson.tool r) || is_some (RuleJson.params r ≫= λ params, params !! lit "name").
Definition json_rule_has_graphql_fields (r : RuleJson.t) : bool :=
  negb (is_empty (default [] (RuleJson.operation_type r)))
  || negb (is_empty (default [] (RuleJson.operation_name r)))
  || is_some (RuleJson.fields r).
Definition json_rule_has_transport_fields (r : RuleJson.t) : bool :=
  is_some (RuleJson.method r) || is_some (RuleJson.path r) || is_some (RuleJson.query r).
Definition json_rule_has_non_empty_path_or_query (r : RuleJson.t) : bool :=
  negb (is_empty (default [] (RuleJson.path r)))
  || negb (bool_decide (default ∅ (RuleJson.query r) = ∅)).
Definition json_endpoint_has_graphql_policy (e : EndpointJson.t) : bool :=
  negb (bool_decide (default ∅ (EndpointJson.graphql_persisted_queries e) = ∅))
  || negb (bool_decide (default [] (EndpointJson.persisted_queries e) ∈ [[]; lit "deny"]))
  || existsb json_rule_has_graphql_fields (default [] (EndpointJson.rules e))
  || existsb json_rule_has_graphql_fields (default [] (EndpointJson.deny_rules e)).

Definition validate_mcp_params_field (r : RuleJson.t) (strict : bool) : list L7PolicyError :=
  match RuleJson.params r with
  | None => []
  | Some params =>
      push_if (is_some (RuleJson.tool r) && is_some (params !! lit "name")) ToolAndParamsName
      ++ flat_map (λ '(key, _), push_if (negb (bool_decide (key = lit "name"))) (ParamsKey key))
           (map_to_list params)
      ++ match params !! lit "name" with
         | Some m => validate_matcher_value m ++ validate_mcp_tool_name_wildcard_policy m strict
         | None => []
         end
  end.
Definition validate_mcp_tool_field (r : RuleJson.t) (strict : bool) : list L7PolicyError :=
  match RuleJson.tool r with
  | Some m => validate_matcher_value m ++ validate_mcp_tool_name_wildcard_policy m strict
  | None => []
  end.

Definition validate_jsonrpc_rule_fields (r : RuleJson.t) (protocol : bytes) (strict allow_all : bool)
  : list L7PolicyError :=
  let method := default [] (RuleJson.method r) in
  if bool_decide (protocol = lit "json-rpc") then
    (if is_empty method then [MethodRequired]
     else push_if (negb (bool_decide (method = lit "*")) && glob_uses_wildcard method) MethodGlob)
    ++ push_if (is_some (RuleJson.params r)) ParamsNotSupported
    ++ push_if (is_some (RuleJson.tool r)) ToolNotSupported
    ++ push_if (json_rule_has_non_empty_path_or_query r) PathOrQueryNotSupported
  else if bool_decide (protocol = lit "mcp") then
    push_if (negb (is_empty method) && glob_uses_wildcard method
             && negb (starts_with (lit "tools/") method)) MethodGlob
    ++ (if is_empty method && negb allow_all then [MethodRequired]
        else push_if (mcp_rule_has_tool_selector r && negb (is_empty method)
                      && negb (bool_decide (method = lit "tools/call"))) ToolNeedsToolsCall)
    ++ validate_mcp_tool_field r strict
    ++ validate_mcp_params_field r strict
    ++ push_if (json_rule_has_non_empty_path_or_query r) PathOrQueryNotSupported
  else
    push_if (is_some (RuleJson.tool r)) ToolNotSupported
    ++ push_if (is_some (RuleJson.params r)) ParamsNotSupported.

Definition validate_mcp_versions_field (e : EndpointJson.t) (protocol : option L7Validate.L7Protocol)
  : list L7PolicyError :=
  match EndpointJson.mcp_versions e with
  | None => []
  | Some values =>
      match protocol with
      | Some L7Validate.Mcp =>
          if is_empty values then [McpVersionsEmpty]
          else match mapM parse_mcp_version values with
               | None => [McpVersionsUnsupported]
               | Some versions =>
                   push_if (negb (forallb (λ '(a, b), Nat.ltb a b)
                                    (zip versions (drop 1 versions)))) McpVersionsNotCanonical
               end
      | _ => [McpVersionsOnlyMcp]
      end
  end.

Definition additional_l7_fields (e : EndpointJson.t) : list bytes :=
  let non_empty_string v := negb (is_empty (default [] v)) in
  let enabled v := default false v in
  omap (λ '(name, present), key_if present name)
    [(lit "enforcement", non_empty_string (EndpointJson.enforcement e));
     (lit "path", non_empty_string (EndpointJson.path e));
     (lit "allow_encoded_slash", enabled (EndpointJson.allow_encoded_slash e));
     (lit "websocket_credential_rewrite", enabled (EndpointJson.websocket_credential_rewrite e));
     (lit "request_body_credential_rewrite",
      enabled (EndpointJson.request_body_credential_rewrite e));
     (lit "persisted_queries", non_empty_string (EndpointJson.persisted_queries e));
     (lit "graphql_persisted_queries", is_some (EndpointJson.graphql_persisted_queries e));
     (lit "graphql_max_body_bytes", is_some (EndpointJson.graphql_max_body_bytes e));
     (lit "json_rpc_max_body_bytes", is_some (EndpointJson.json_rpc_max_body_bytes e));
     (lit "mcp.strict_tool_names", is_some (EndpointJson.mcp_strict_tool_names e));
     (lit "mcp.allow_all_known_mcp_methods",
      is_some (EndpointJson.mcp_allow_all_known_mcp_methods e));
     (lit "credential_signing", non_empty_string (EndpointJson.credential_signing e));
     (lit "signing_service", non_empty_string (EndpointJson.signing_service e));
     (lit "signing_region", non_empty_string (EndpointJson.signing_region e));
     (lit "credential_binding", is_some (EndpointJson.credential_binding e))].

Section validate.
Context {glob : Glob}.

Definition method_matcher_matches_tools_call (method : bytes) : bool :=
  bool_decide (method = lit "tools/call") || bool_decide (method = lit "*")
  || match glob_new method with
     | Some pattern => glob_matches pattern (lit "tools/call")
     | None => false
     end.

(** The checks of one deny rule. *)
Definition validate_deny_rule (protocol : bytes) (strict allow_all has_tools : bool)
  (r : RuleJson.t) : list L7PolicyError :=
  let graphql := json_rule_has_graphql_fields r in
  let websocket := bool_decide (protocol = lit "websocket") in
  push_if (has_tools && from_option method_matcher_matches_tools_call false (RuleJson.method r)
           && negb (mcp_rule_has_tool_selector r)) DenyConflictsWithTools
  ++ validate_matcher_map (RuleJson.query r)
  ++ validate_jsonrpc_rule_fields r protocol strict allow_all
  ++ push_if (websocket && graphql && json_rule_has_transport_fields r) MixedGraphqlRule
  ++ if bool_decide (protocol = lit "graphql") || (websocket && graphql)
     then validate_graphql_rule (RuleJson.operation_type r) (RuleJson.fields r) else [].

(** The checks of one allow rule, the query matchers apart. *)
Definition validate_allow_rule (protocol : bytes)
  (strict allow_all has_tools websocket_has_graphql_policy : bool) (r : RuleJson.t)
  : list L7PolicyError :=
  let graphql := json_rule_has_graphql_fields r in
  let websocket := bool_decide (protocol = lit "websocket") in
  let method := default [] (RuleJson.method r) in
  push_if (has_tools && negb (mcp_rule_has_tool_selector r)
           && (method_matcher_matches_tools_call method || (is_empty method && allow_all)))
    AllowConflictsWithTools
  ++ validate_jsonrpc_rule_fields r protocol strict allow_all
  ++ push_if (websocket_has_graphql_policy
              && from_option (λ m, eq_ignore_ascii_case m (lit "WEBSOCKET_TEXT")) false
                   (RuleJson.method r)) WebsocketTextWithGraphql
  ++ push_if (websocket && graphql && json_rule_has_transport_fields r) MixedGraphqlRule
  ++ if bool_decide (protocol = lit "graphql") || (websocket && graphql)
     then validate_graphql_rule (RuleJson.operation_type r) (RuleJson.fields r) else [].

Definition allows_nothing (r : RuleJson.t) : bool :=
  let str_empty v := is_empty (default [] v) in
  str_empty (RuleJson.method r) && str_empty (RuleJson.path r) && str_empty (RuleJson.command r)
  && str_empty (RuleJson.operation_type r) && str_empty (RuleJson.operation_name r)
  && negb (mcp_rule_has_tool_selector r).

Definition json_fields_of (e : EndpointJson.t) : L7Validate.L7EndpointFields :=
  let rules := default [] (EndpointJson.rules e) in
  L7Validate.l7_fields (default [] (EndpointJson.protocol e)) (default [] (EndpointJson.access e))
    (negb (is_empty rules)) (default false (EndpointJson.websocket_credential_rewrite e))
    (negb (is_empty (default [] (EndpointJson.deny_rules e))))
    (negb (is_empty rules) && forallb allows_nothing rules)
    (default false (EndpointJson.mcp_allow_all_known_mcp_methods e)).

Definition validate_endpoint (e : EndpointJson.t) : list L7PolicyError :=
  let protocol := default [] (EndpointJson.protocol e) in
  let enforcement := default [] (EndpointJson.enforcement e) in
  let endpoint_path := default [] (EndpointJson.path e) in
  let rules := default [] (EndpointJson.rules e) in
  let deny_rules := default [] (EndpointJson.deny_rules e) in
  let mcp := bool_decide (protocol = lit "mcp") in
  let websocket := bool_decide (protocol = lit "websocket") in
  let strict := default true (EndpointJson.mcp_strict_tool_names e) in
  let allow_all := default false (EndpointJson.mcp_allow_all_known_mcp_methods e) in
  let has_tools := mcp && existsb mcp_rule_has_tool_selector rules in
  let positive v := match v with Some v => push_if (negb (0 <? v)) MaxBodyBytes | None => [] end in
  map EndpointError
    (L7Validate.validate_endpoint_modes (default [] (EndpointJson.tls e)) enforcement
       (default [] (EndpointJson.access e)))
  ++ push_if (mcp && is_empty (trim (EndpointJson.host e))) McpNeedsHost
  ++ push_if (mcp && negb (existsb (Z.ltb 0) (EndpointJson.ports e))) McpNeedsPort
  ++ push_if (negb (is_empty endpoint_path) && negb (starts_with [47] endpoint_path)
              && negb (bool_decide (endpoint_path = lit "**"))) EndpointPathError
  ++ validate_host_wildcard (EndpointJson.host e)
  ++ map EndpointError (L7Validate.validate_l7_endpoint_semantics (json_fields_of e))
  ++ map EndpointError
       (L7Validate.validate_explicit_tcp_additional_fields protocol (additional_l7_fields e))
  ++ match EndpointJson.persisted_queries e with
     | Some mode => push_if (negb (bool_decide (mode ∈ [[]; lit "deny"; lit "allow_registered"])))
                      (EndpointError (L7Validate.BadPersistedQueries mode))
     | None => []
     end
  ++ positive (EndpointJson.graphql_max_body_bytes e)
  ++ positive (EndpointJson.json_rpc_max_body_bytes e)
  ++ validate_mcp_versions_field e (L7Validate.L7Protocol_parse protocol)
  ++ push_if (is_some (EndpointJson.mcp_strict_tool_names e) && negb mcp) McpOptionOnlyMcp
  ++ push_if (is_some (EndpointJson.mcp_allow_all_known_mcp_methods e) && negb mcp) McpOptionOnlyMcp
  ++ flat_map (λ '(_, op), validate_graphql_rule (Some (GraphqlOperation.operation_type op))
                             (Some (GraphqlOperation.fields op)))
       (map_to_list (default ∅ (EndpointJson.graphql_persisted_queries e)))
  ++ push_if (bool_decide (protocol = lit "sql") && bool_decide (enforcement = lit "enforce"))
       (EndpointError L7Validate.SqlEnforce)
  ++ flat_map (validate_deny_rule protocol strict allow_all has_tools) deny_rules
  ++ push_if (from_option is_empty false (EndpointJson.rules e)) EmptyRules
  ++ push_if (from_option is_empty false (EndpointJson.deny_rules e)) EmptyDenyRules
  ++ (if bool_decide (protocol = lit "rest") || websocket
      then flat_map (λ r, validate_matcher_map (RuleJson.query r)) rules else [])
  ++ flat_map (validate_allow_rule protocol strict allow_all has_tools
                 (websocket && json_endpoint_has_graphql_policy e)) rules.

Definition validate_l7_policies (data : OpaData) : list (bytes * nat * L7PolicyError) :=
  flat_map (λ '(key, p),
    concat (imap (λ i e, map (pair (key, i)) (validate_endpoint e)) (pj_endpoints p)))
    (map_to_list (network_policies_json data)).

(** ** Loading a policy *)

Inductive LoadError : Type :=
| PolicyValidationFailed (violations : list PolicyValidate.PolicyViolation)
| EndpointAmbiguities (count : nat)
| L7ValidationFailed (errors : list (bytes * nat * L7PolicyError)).

Context {dns : DnsNames} {proto : PolicyValidate.ProtoStruct}
  (policy_hash : PolicyValidate.SandboxPolicy → bytes) (endpoint_id : NetworkEndpoint → bytes)
  (resolve_binary_in_container : bytes → BinaryResolution).

(** [from_proto_with_pid_and_binary_identity_required], up to the compilation
    of the Rego program; the maps come in their iteration order. *)
Definition from_proto (p : PolicyValidate.SandboxPolicy) (require_binary_identity : bool)
  : result OpaData LoadError :=
  let? p := map_err PolicyValidationFailed
              (PolicyValidate.validate_and_canonicalize_sandbox_policy p) in
  let ambiguities := Ambiguity.find_endpoint_ambiguities (map_to_list (PolicyValidate.policies p)) in
  if negb (is_empty ambiguities) then Err (EndpointAmbiguities (length ambiguities))
  else
    let data := normalize_endpoint_protocols
      (proto_to_opa_data_json (policy_hash p) endpoint_id resolve_binary_in_container p
         require_binary_identity) in
    let errors := validate_l7_policies data in
    if negb (is_empty errors) then Err (L7ValidationFailed errors)
    else Ok (expand_access_presets (normalize_l7_policy_rule_aliases data)).
End validate.

End OpaData.
