(* ===== verification/Rego.v ===== *)
(** * Rego: the policy program
    (crates/openshell-supervisor-network/data/sandbox-policy.rego)

    The rules the policy engine evaluates for a connection and for a request.
    A rule that yields true or nothing is a boolean, a rule that yields a value
    or nothing is an option, a comprehension is a list; the sets of the program
    are sorted. A function with several bodies is their disjunction. What the
    engine provides, [glob.match] and the case of a text, is the class
    [RegoBuiltins]. *)

From stdpp Require Import gmap.
From S2P Require Import Prelude Net IpParse Order Text Patterns PolicyDns PolicyTypes PolicyMerge.
From S2P Require Import Ambiguity PolicySchema PolicyValidate OpaData.

Local Open Scope Z_scope.

Definition to_ascii_uppercase (s : bytes) : bytes :=
  map (λ c, if (97 <=? c) && (c <=? 122) then c - 32 else c) s.

(** ** Builtins *)

(** [glob.match] with its delimiters, [lower] and [upper]; a text of ASCII
    characters changes case letter by letter. *)
Class RegoBuiltins := {
  glob_match : list bytes → bytes → bytes → bool;
  lower : bytes → bytes;
  upper : bytes → bytes;
  lower_ascii s : Forall (λ b, 0 ≤ b < 128) s → lower s = to_ascii_lowercase s;
  upper_ascii s : Forall (λ b, 0 ≤ b < 128) s → upper s = to_ascii_uppercase s;
}.

(** ** Input *)

(** [GraphqlOperationInfo] and [GraphqlRequestInfo] (l7/graphql.rs). *)
Module GraphqlOperationInfo.
Record t := mk {
  operation_type : bytes;
  operation_name : option bytes;
  fields : list bytes;
  persisted_query : bool;
  persisted_query_hash : option bytes;
  persisted_query_id : option bytes;
}.
End GraphqlOperationInfo.
Record GraphqlRequestInfo := graphql_info {
  operations : list GraphqlOperationInfo.t;
  graphql_error : option bytes;
}.

Inductive McpMethodClassification : Type := Available | Extension.
#[export] Instance McpMethodClassification_eq_dec : EqDecision McpMethodClassification.
Proof. solve_decision. Defined.

(** The object [jsonrpc_policy_input] builds. *)
Module JsonRpcInput.
Record t := mk {
  method : option bytes;
  params : option (gmap bytes bytes);
  mcp_method_classification : option McpMethodClassification;
  receive_stream : bool;
  has_response : bool;
  error : option bytes;
}.
End JsonRpcInput.

Record ExecInput := exec_input { exec_path : bytes; ancestors : list bytes }.

(** [request.command] is a key no caller writes. *)
Module RequestInput.
Record t := mk {
  method : bytes;
  path : bytes;
  command : option bytes;
  query_params : gmap bytes (list bytes);
  graphql : option GraphqlRequestInfo;
  jsonrpc : option JsonRpcInput.t;
}.
End RequestInput.

Module Rego.
Section rego.
Context {rego : RegoBuiltins} {glob : Glob}.

(** ** Connections *)

Section connection.
Context (data : OpaData) (host : bytes) (port : Z) (exec : ExecInput).

Definition endpoint_matches_request (ep : EndpointJson.t) : bool :=
  (negb (contains_byte 42 (EndpointJson.host ep))
   && bool_decide (lower (EndpointJson.host ep) = lower host)
   && bool_decide (port ∈ EndpointJson.ports ep))
  || (contains_byte 42 (EndpointJson.host ep)
      && glob_match [lit "."] (lower (EndpointJson.host ep)) (lower host)
      && bool_decide (port ∈ EndpointJson.ports ep))
  || (is_empty (EndpointJson.host ep)
      && negb (is_empty (default [] (EndpointJson.allowed_ips ep)))
      && bool_decide (port ∈ EndpointJson.ports ep)).

(** The three bodies of [endpoint_allowed]. *)
Definition endpoint_allowed (policy : PolicyJson) : bool :=
  existsb (λ ep, negb (contains_byte 42 (EndpointJson.host ep))
                 && bool_decide (lower (EndpointJson.host ep) = lower host)
                 && bool_decide (port ∈ EndpointJson.ports ep)) (pj_endpoints policy)
  || existsb (λ ep, contains_byte 42 (EndpointJson.host ep)
                    && glob_match [lit "."] (lower (EndpointJson.host ep)) (lower host)
                    && bool_decide (port ∈ EndpointJson.ports ep)) (pj_endpoints policy)
  || existsb (λ ep, is_empty (EndpointJson.host ep)
                    && negb (is_empty (default [] (EndpointJson.allowed_ips ep)))
                    && bool_decide (port ∈ EndpointJson.ports ep)) (pj_endpoints policy).

(** The four bodies of [binary_allowed]. *)
Definition binary_allowed (policy : PolicyJson) : bool :=
  negb (require_binary_identity data)
  || existsb (λ b, negb (contains_byte 42 b) && bool_decide (b = exec_path exec))
       (pj_binaries policy)
  || existsb (λ b, negb (contains_byte 42 b) && bool_decide (b ∈ ancestors exec))
       (pj_binaries policy)
  || existsb (λ b, contains_byte 42 b
                   && existsb (glob_match [lit "/"] b) (exec_path exec :: ancestors exec))
       (pj_binaries policy).

(** The policies in the order of their names. *)
Definition sorted_policies : list (bytes * PolicyJson) :=
  omap (λ key, (λ p, (key, p)) <$> network_policies_json data !! key)
    (sort_by bytes_cmp (map fst (map_to_list (network_policies_json data)))).

Definition matching_policies : list (bytes * PolicyJson) :=
  List.filter (λ '(_, p), endpoint_allowed p && binary_allowed p) sorted_policies.
Definition matching_policy_names : list bytes := map fst matching_policies.
Definition matched_network_policy : option bytes := head matching_policy_names.

Definition network_policy_for_request : bool :=
  existsb (λ '(_, p), endpoint_allowed p && binary_allowed p) sorted_policies.
Definition endpoint_policy_for_request : bool :=
  existsb (λ '(_, p), endpoint_allowed p) sorted_policies.
Definition allow_network : bool := network_policy_for_request.

Inductive DenyReason : Type :=
| EndpointNotAllowed (host : bytes) (port : Z)
| BinaryMisses (policies : list bytes)
| NoPolicyAllows.

Definition binary_misses : list bytes :=
  map fst (List.filter (λ '(_, p), endpoint_allowed p && negb (binary_allowed p)) sorted_policies).
Definition deny_reason : option DenyReason :=
  if network_policy_for_request then None
  else if is_empty sorted_policies then Some NoPolicyAllows
  else if negb endpoint_policy_for_request then Some (EndpointNotAllowed host port)
  else if negb (is_empty binary_misses) then Some (BinaryMisses binary_misses)
  else None.

Definition endpoint_has_extended_config (ep : EndpointJson.t) : bool :=
  (negb (is_empty (default [] (EndpointJson.protocol ep)))
   && negb (bool_decide (lower (default [] (EndpointJson.protocol ep)) = lit "tcp")))
  || negb (is_empty (default [] (EndpointJson.allowed_ips ep)))
  || is_some (EndpointJson.tls ep).

Definition matching_endpoint_configs : list EndpointJson.t :=
  flat_map (λ '(_, p), List.filter (λ ep, endpoint_matches_request ep
                                          && endpoint_has_extended_config ep) (pj_endpoints p))
    matching_policies.
Definition matched_endpoint_config : option EndpointJson.t := head matching_endpoint_configs.

Record EndpointRecord := endpoint_record {
  er_policy_name : bytes;
  er_endpoint_index : nat;
  er_endpoint : EndpointJson.t;
}.
Definition policy_endpoint_records (key : bytes) (p : PolicyJson) : list EndpointRecord :=
  omap (λ '(i, ep), if endpoint_matches_request ep then Some (endpoint_record key i ep) else None)
    (imap pair (pj_endpoints p)).
Definition matching_endpoint_records : list EndpointRecord :=
  flat_map (λ '(key, p), policy_endpoint_records key p) matching_policies.

Definition endpoint_credential_guards : list EndpointJson.t :=
  flat_map (λ '(_, p), List.filter endpoint_matches_request (pj_endpoints p)) matching_policies.

Definition exact_declared_endpoint_host : bool :=
  existsb (λ '(_, p), binary_allowed p
    && existsb (λ ep, negb (default false (EndpointJson.advisor_proposed ep))
                      && negb (contains_byte 42 (EndpointJson.host ep))
                      && bool_decide (lower (EndpointJson.host ep) = lower host)
                      && bool_decide (port ∈ EndpointJson.ports ep)) (pj_endpoints p))
    sorted_policies.

(** The object of [egress_authorization]. *)
Record EgressResult := egress_result {
  action_allow : bool;
  egress_deny_reason : option DenyReason;
  egress_matched_policy : bytes;
  egress_endpoint_configs : list EndpointJson.t;
  egress_matched_endpoints : list EndpointRecord;
  egress_exact_declared_endpoint_host : bool;
}.
Definition egress_authorization : EgressResult :=
  let allow := network_policy_for_request in
  egress_result allow (if allow then None else deny_reason) (default [] matched_network_policy)
    matching_endpoint_configs matching_endpoint_records exact_declared_endpoint_host.
End connection.

(** A snapshot of the policy that does not depend on a connection. *)
Definition dns_eligible (ep : EndpointJson.t) : bool :=
  bool_decide (lower (default (lit "tcp") (EndpointJson.protocol ep)) ∈
    [lit "tcp"; lit "rest"; lit "websocket"; lit "graphql"; lit "sql"; lit "json-rpc"; lit "mcp"])
  && negb (is_empty (EndpointJson.host ep))
  && negb (is_empty (EndpointJson.ports ep))
  && forallb (λ port, (1 <=? port) && (port <=? 65535)) (EndpointJson.ports ep).
Definition policy_dns_eligible_endpoint_records (data : OpaData) : list EndpointRecord :=
  flat_map (λ '(key, p),
    omap (λ '(i, ep), if dns_eligible ep then Some (endpoint_record key i ep) else None)
      (imap pair (pj_endpoints p))) (sorted_policies data).

(** ** Matchers *)

Definition method_matches (actual expected : bytes) : bool :=
  bool_decide (expected = lit "*")
  || (negb (bool_decide (expected = lit "*")) && bool_decide (upper actual = upper expected))
  || (bool_decide (upper actual = lit "HEAD") && bool_decide (upper expected = lit "GET")).
Definition path_matches (actual pattern : bytes) : bool :=
  bool_decide (pattern = lit "**")
  || (negb (bool_decide (pattern = lit "**")) && glob_match [lit "/"] pattern actual).
Definition command_matches (actual expected : bytes) : bool :=
  bool_decide (expected = lit "*")
  || (negb (bool_decide (expected = lit "*")) && bool_decide (upper actual = upper expected)).

Definition query_value_matches (value : bytes) (m : MatcherJson.t) : bool :=
  match m with
  | MatcherJson.Text glob => glob_match [] glob value
  | MatcherJson.Object glob any =>
      let glob_pattern := default [] glob in
      (negb (is_empty glob_pattern) && glob_match [] glob_pattern value)
      || existsb (λ pattern, glob_match [] pattern value) (default [] any)
  end.

(** Every configured key has values, and all of them match. *)
Definition query_key_matches (query_params : gmap bytes (list bytes)) (key : bytes)
  (m : MatcherJson.t) : bool :=
  match query_params !! key with
  | Some values => negb (is_empty values)
                   && negb (existsb (λ value, negb (query_value_matches value m)) values)
  | None => false
  end.
Definition query_params_match (request : RequestInput.t) (rule : RuleJson.t) : bool :=
  negb (existsb (λ '(key, m), negb (query_key_matches (RequestInput.query_params request) key m))
          (map_to_list (default ∅ (RuleJson.query rule)))).

(** A deny rule needs one matching value for every configured key. *)
Definition deny_query_params_match (request : RequestInput.t) (rule : RuleJson.t) : bool :=
  let rules := map_to_list (default ∅ (RuleJson.query rule)) in
  let params := RequestInput.query_params request in
  is_empty rules
  || (negb (is_empty rules)
      && negb (existsb (λ '(key, _), negb (is_some (params !! key))) rules)
      && negb (existsb (λ '(key, m),
           let values := default [] (params !! key) in
           negb (is_empty values) && negb (existsb (λ value, query_value_matches value m) values))
           rules)).

(** ** JSON-RPC and MCP *)

Definition has_protocol (ep : EndpointJson.t) (protocol : bytes) : bool :=
  bool_decide (EndpointJson.protocol ep = Some protocol).
Definition jsonrpc_family_endpoint (ep : EndpointJson.t) : bool :=
  has_protocol ep (lit "json-rpc") || has_protocol ep (lit "mcp").

Definition jsonrpc_response_frame_present (request : RequestInput.t) : bool :=
  from_option JsonRpcInput.has_response false (RequestInput.jsonrpc request).
Definition jsonrpc_no_parse_error (j : JsonRpcInput.t) : bool :=
  bool_decide (JsonRpcInput.error j = None) || bool_decide (JsonRpcInput.error j = Some []).

Definition jsonrpc_param_key_matches (j : JsonRpcInput.t) (key : bytes) (m : MatcherJson.t) : bool :=
  match JsonRpcInput.params j with
  | Some params => match params !! key with
                   | Some value => query_value_matches value m
                   | None => false
                   end
  | None => false
  end.
Definition jsonrpc_params_match (j : JsonRpcInput.t) (rule : RuleJson.t) : bool :=
  negb (existsb (λ '(key, m), negb (jsonrpc_param_key_matches j key m))
          (map_to_list (default ∅ (RuleJson.params rule)))).

Definition jsonrpc_rule_method_matches (ep : EndpointJson.t) (method rule_method : bytes) : bool :=
  (has_protocol ep (lit "json-rpc") && bool_decide (rule_method = lit "*"))
  || (has_protocol ep (lit "json-rpc") && negb (bool_decide (rule_method = lit "*"))
      && bool_decide (rule_method = method))
  || (has_protocol ep (lit "mcp") && glob_match [] rule_method method).
Definition jsonrpc_rule_params_match_for_protocol (j : JsonRpcInput.t) (ep : EndpointJson.t)
  (rule : RuleJson.t) : bool :=
  has_protocol ep (lit "json-rpc") || (has_protocol ep (lit "mcp") && jsonrpc_params_match j rule).

Definition jsonrpc_rule_matches (request : RequestInput.t) (ep : EndpointJson.t) (rule : RuleJson.t)
  : bool :=
  match RequestInput.jsonrpc request with
  | None => false
  | Some j =>
      match JsonRpcInput.method j with
      | None => false
      | Some method =>
          let rule_method := default [] (RuleJson.method rule) in
          negb (is_empty method) && negb (is_empty rule_method)
          && jsonrpc_rule_method_matches ep method rule_method
          && jsonrpc_rule_params_match_for_protocol j ep rule
      end
  end.

Definition jsonrpc_allow_rule_classification_allowed (j : JsonRpcInput.t) (ep : EndpointJson.t)
  (method rule_method : bytes) : bool :=
  let classified c := bool_decide (JsonRpcInput.mcp_method_classification j = Some c) in
  has_protocol ep (lit "json-rpc")
  || (has_protocol ep (lit "mcp") && classified Available)
  || (has_protocol ep (lit "mcp") && classified Extension && bool_decide (rule_method = method)).

Definition mcp_tool_call_narrowed_by_policy (ep : EndpointJson.t) (method : bytes) : bool :=
  bool_decide (method = lit "tools/call")
  && existsb (λ rule, is_some (default ∅ (RuleJson.params rule) !! lit "name"))
       (default [] (EndpointJson.rules ep)).

(** ** GraphQL *)

(** The fields of an operation the rules read, requested or registered. *)
Record Operation := operation { op_type : bytes; op_name : bytes; op_fields : list bytes }.

Definition graphql_operation_needs_registry (op : GraphqlOperationInfo.t) : bool :=
  GraphqlOperationInfo.persisted_query op && is_empty (GraphqlOperationInfo.operation_type op).
Definition graphql_operation_registry_key (op : GraphqlOperationInfo.t) : option bytes :=
  let hash := default [] (GraphqlOperationInfo.persisted_query_hash op) in
  let id := default [] (GraphqlOperationInfo.persisted_query_id op) in
  if negb (is_empty hash) then Some hash else if negb (is_empty id) then Some id else None.
Definition registered_queries (ep : EndpointJson.t) : gmap bytes GraphqlOperation.t :=
  default ∅ (EndpointJson.graphql_persisted_queries ep).
Definition graphql_registered_operation (op : GraphqlOperationInfo.t) (ep : EndpointJson.t) : bool :=
  bool_decide (default (lit "deny") (EndpointJson.persisted_queries ep) = lit "allow_registered")
  && is_some (graphql_operation_registry_key op ≫= λ id, registered_queries ep !! id).

Definition graphql_effective_operation (op : GraphqlOperationInfo.t) (ep : EndpointJson.t)
  : option Operation :=
  if graphql_operation_needs_registry op then
    key ← graphql_operation_registry_key op;
    registered ← registered_queries ep !! key;
    Some (operation (GraphqlOperation.operation_type registered)
            (GraphqlOperation.operation_name registered) (GraphqlOperation.fields registered))
  else Some (operation (GraphqlOperationInfo.operation_type op)
               (default [] (GraphqlOperationInfo.operation_name op))
               (GraphqlOperationInfo.fields op)).

Definition graphql_operation_type_matches (op : Operation) (rule : RuleJson.t) : bool :=
  let expected := default [] (RuleJson.operation_type rule) in
  bool_decide (expected = lit "*")
  || (negb (is_empty expected) && negb (bool_decide (expected = lit "*"))
      && bool_decide (lower (op_type op) = lower expected)).
Definition graphql_operation_name_matches (op : Operation) (rule : RuleJson.t) : bool :=
  let pattern := default [] (RuleJson.operation_name rule) in
  is_empty pattern || (negb (is_empty pattern) && glob_match [] pattern (op_name op)).
Definition graphql_field_matches_any (field : bytes) (patterns : list bytes) : bool :=
  existsb (λ pattern, glob_match [] pattern field) patterns.
Definition graphql_allow_fields_match (op : Operation) (rule : RuleJson.t) : bool :=
  let patterns := default [] (RuleJson.fields rule) in
  is_empty patterns
  || (negb (is_empty patterns) && negb (is_empty (op_fields op))
      && negb (existsb (λ field, negb (graphql_field_matches_any field patterns)) (op_fields op))).
Definition graphql_deny_fields_match (op : Operation) (rule : RuleJson.t) : bool :=
  let patterns := default [] (RuleJson.fields rule) in
  is_empty patterns || existsb (λ field, graphql_field_matches_any field patterns) (op_fields op).

Definition graphql_allow_rule_matches_operation (op : GraphqlOperationInfo.t) (rule : RuleJson.t)
  (ep : EndpointJson.t) : bool :=
  match graphql_effective_operation op ep with
  | Some effective => graphql_operation_type_matches effective rule
                      && graphql_operation_name_matches effective rule
                      && graphql_allow_fields_match effective rule
  | None => false
  end.
Definition graphql_deny_rule_matches_operation (op : GraphqlOperationInfo.t) (rule : RuleJson.t)
  (ep : EndpointJson.t) : bool :=
  match graphql_effective_operation op ep with
  | Some effective => graphql_operation_type_matches effective rule
                      && graphql_operation_name_matches effective rule
                      && graphql_deny_fields_match effective rule
  | None => false
  end.

Definition graphql_operations (request : RequestInput.t) : list GraphqlOperationInfo.t :=
  from_option operations [] (RequestInput.graphql request).
Definition graphql_request_has_operations (request : RequestInput.t) : bool :=
  negb (is_empty (graphql_operations request)).
Definition graphql_request_error (request : RequestInput.t) : bool :=
  negb (is_empty (default [] (RequestInput.graphql request ≫= graphql_error))).
Definition graphql_request_has_unregistered_persisted_query (request : RequestInput.t)
  (ep : EndpointJson.t) : bool :=
  existsb (λ op, graphql_operation_needs_registry op && negb (graphql_registered_operation op ep))
    (graphql_operations request).
Definition graphql_operation_allowed (op : GraphqlOperationInfo.t) (ep : EndpointJson.t) : bool :=
  existsb (λ rule, is_some (RuleJson.operation_type rule)
                   && graphql_allow_rule_matches_operation op rule ep)
    (default [] (EndpointJson.rules ep)).
Definition graphql_request_has_unallowed_operation (request : RequestInput.t) (ep : EndpointJson.t)
  : bool :=
  existsb (λ op, negb (graphql_operation_allowed op ep)) (graphql_operations request).
Definition graphql_request_allowed (request : RequestInput.t) (ep : EndpointJson.t) : bool :=
  graphql_request_has_operations request && negb (graphql_request_error request)
  && negb (graphql_request_has_unregistered_persisted_query request ep)
  && negb (graphql_request_has_unallowed_operation request ep).

(** ** Rules of an endpoint *)

(** The seven bodies of [request_allowed_for_endpoint]. *)
Definition rest_rule_allows (request : RequestInput.t) (ep : EndpointJson.t) : bool :=
  negb (jsonrpc_family_endpoint ep)
  && existsb (λ rule, match RuleJson.method rule, RuleJson.path rule with
                      | Some method, Some path =>
                          method_matches (RequestInput.method request) method
                          && path_matches (RequestInput.path request) path
                          && query_params_match request rule
                      | _, _ => false
                      end) (default [] (EndpointJson.rules ep)).
Definition command_rule_allows (request : RequestInput.t) (ep : EndpointJson.t) : bool :=
  existsb (λ rule, match RequestInput.command request, RuleJson.command rule with
                   | Some actual, Some expected => command_matches actual expected
                   | _, _ => false
                   end) (default [] (EndpointJson.rules ep)).
Definition is_post (request : RequestInput.t) : bool :=
  bool_decide (RequestInput.method request = lit "POST").
Definition jsonrpc_rule_allows (request : RequestInput.t) (ep : EndpointJson.t) : bool :=
  jsonrpc_family_endpoint ep && is_post request
  && existsb (λ rule,
       match RuleJson.method rule, RequestInput.jsonrpc request with
       | Some rule_method, Some j =>
           negb (jsonrpc_response_frame_present request)
           && jsonrpc_rule_matches request ep rule
           && jsonrpc_allow_rule_classification_allowed j ep (default [] (JsonRpcInput.method j))
                rule_method
       | _, _ => false
       end) (default [] (EndpointJson.rules ep)).
Definition mcp_method_allows (request : RequestInput.t) (ep : EndpointJson.t) : bool :=
  has_protocol ep (lit "mcp")
  && default false (EndpointJson.mcp_allow_all_known_mcp_methods ep) && is_post request
  && negb (jsonrpc_response_frame_present request)
  && match RequestInput.jsonrpc request with
     | Some j =>
         jsonrpc_no_parse_error j
         && match JsonRpcInput.method j with
            | Some method =>
                negb (is_empty method)
                && bool_decide (JsonRpcInput.mcp_method_classification j = Some Available)
                && negb (mcp_tool_call_narrowed_by_policy ep method)
            | None => false
            end
     | None => false
     end.
Definition mcp_response_allows (request : RequestInput.t) (ep : EndpointJson.t) : bool :=
  has_protocol ep (lit "mcp") && is_post request && jsonrpc_response_frame_present request
  && from_option jsonrpc_no_parse_error false (RequestInput.jsonrpc request).
Definition mcp_stream_allows (request : RequestInput.t) (ep : EndpointJson.t) : bool :=
  has_protocol ep (lit "mcp") && bool_decide (RequestInput.method request = lit "GET")
  && match RequestInput.jsonrpc request with
     | Some j => JsonRpcInput.receive_stream j && jsonrpc_no_parse_error j
                 && bool_decide (JsonRpcInput.method j = None) && negb (JsonRpcInput.has_response j)
     | None => false
     end.
Definition request_allowed_for_endpoint (request : RequestInput.t) (ep : EndpointJson.t) : bool :=
  rest_rule_allows request ep || command_rule_allows request ep || jsonrpc_rule_allows request ep
  || mcp_method_allows request ep || mcp_response_allows request ep || mcp_stream_allows request ep
  || graphql_request_allowed request ep.

(** The seven bodies of [request_denied_for_endpoint]. *)
Definition rest_rule_denies (request : RequestInput.t) (ep : EndpointJson.t) : bool :=
  negb (jsonrpc_family_endpoint ep)
  && existsb (λ rule, match RuleJson.method rule, RuleJson.path rule with
                      | Some method, Some path =>
                          method_matches (RequestInput.method request) method
                          && path_matches (RequestInput.path request) path
                          && deny_query_params_match request rule
                      | _, _ => false
                      end) (default [] (EndpointJson.deny_rules ep)).
Definition command_rule_denies (request : RequestInput.t) (ep : EndpointJson.t) : bool :=
  existsb (λ rule, match RequestInput.command request, RuleJson.command rule with
                   | Some actual, Some expected => command_matches actual expected
                   | _, _ => false
                   end) (default [] (EndpointJson.deny_rules ep)).
Definition jsonrpc_rule_denies (request : RequestInput.t) (ep : EndpointJson.t) : bool :=
  jsonrpc_family_endpoint ep && is_post request
  && existsb (λ rule, is_some (RuleJson.method rule) && jsonrpc_rule_matches request ep rule)
       (default [] (EndpointJson.deny_rules ep)).
Definition jsonrpc_response_denied (request : RequestInput.t) (ep : EndpointJson.t) : bool :=
  has_protocol ep (lit "json-rpc") && is_post request && jsonrpc_response_frame_present request.
Definition graphql_rule_denies (request : RequestInput.t) (ep : EndpointJson.t) : bool :=
  graphql_request_has_operations request
  && existsb (λ rule, is_some (RuleJson.operation_type rule)
       && existsb (λ op, graphql_deny_rule_matches_operation op rule ep) (graphql_operations request))
       (default [] (EndpointJson.deny_rules ep)).
Definition graphql_authority_denies (request : RequestInput.t) (ep : EndpointJson.t) : bool :=
  (has_protocol ep (lit "graphql") && is_some (RequestInput.graphql request)
   && negb (graphql_request_allowed request ep))
  || (has_protocol ep (lit "websocket") && is_some (RequestInput.graphql request)
      && negb (graphql_request_allowed request ep)).
Definition request_denied_for_endpoint (request : RequestInput.t) (ep : EndpointJson.t) : bool :=
  rest_rule_denies request ep || command_rule_denies request ep || jsonrpc_rule_denies request ep
  || jsonrpc_response_denied request ep || graphql_rule_denies request ep
  || graphql_authority_denies request ep.

Definition endpoint_path_matches_request (ep : EndpointJson.t) (request : RequestInput.t) : bool :=
  let path := default [] (EndpointJson.path ep) in
  is_empty path
  || (negb (is_empty path)
      && EndpointPath.matches (EndpointPath.new path) (RequestInput.path request)).

(** ** Requests *)

Section request.
Context (data : OpaData) (host : bytes) (port : Z) (exec : ExecInput) (request : RequestInput.t).

Definition endpoint_matches_l7_request (ep : EndpointJson.t) : bool :=
  endpoint_matches_request host port ep && endpoint_path_matches_request ep request.

Definition policy_allowed_l7_endpoints (p : PolicyJson) : list EndpointJson.t :=
  List.filter (λ ep, endpoint_matches_l7_request ep && request_allowed_for_endpoint request ep)
    (pj_endpoints p).
Definition policy_denies_l7 (p : PolicyJson) : bool :=
  existsb (λ ep, endpoint_matches_l7_request ep && request_denied_for_endpoint request ep)
    (pj_endpoints p).
Definition deny_request : bool :=
  existsb (λ '(_, p), endpoint_allowed host port p && binary_allowed data exec p
                      && policy_denies_l7 p) (sorted_policies data).

Definition admitted_l7_endpoints : list EndpointJson.t :=
  if deny_request then []
  else flat_map (λ '(_, p), policy_allowed_l7_endpoints p)
         (List.filter (λ '(_, p), binary_allowed data exec p) (sorted_policies data)).
Definition allow_request : bool := negb (is_empty admitted_l7_endpoints).
Definition allowed_token_grant_owners : list bytes :=
  sort_by bytes_cmp (dedup_first (List.filter (λ owner, negb (is_empty owner))
    (map (λ ep, default [] (EndpointJson.token_grant_owner ep)) admitted_l7_endpoints))).

(** ** Reasons for a denial *)

Definition mcp_policy_request : bool :=
  is_post request && negb (is_some (RequestInput.graphql request))
  && negb (jsonrpc_response_frame_present request)
  && match RequestInput.jsonrpc request with
     | Some j =>
         jsonrpc_no_parse_error j && negb (is_empty (default [] (JsonRpcInput.method j)))
         && is_some (JsonRpcInput.mcp_method_classification j)
     | None => false
     end
  && existsb (λ ep, has_protocol ep (lit "mcp") && endpoint_path_matches_request ep request)
       (matching_endpoint_configs data host port exec).

Inductive RequestDenyReason : Type :=
| GraphqlRejected (error : bytes)
| GraphqlNotRegistered
| GraphqlBlocked
| GraphqlNotPermitted
| JsonRpcResponseFrame
| McpBlocked
| McpExtensionNotAllowed
| McpToolNotAllowed
| McpMethodNotPermitted
| BlockedByDenyRule (method path : bytes)
| NotPermitted (method path : bytes).
#[export] Instance RequestDenyReason_eq_dec : EqDecision RequestDenyReason.
Proof. solve_decision. Defined.

(** Every body that succeeds, with its reason. *)
Definition request_deny_reasons : list RequestDenyReason :=
  let config := matched_endpoint_config data host port exec in
  let has_operations := graphql_request_has_operations request in
  let unregistered :=
    from_option (graphql_request_has_unregistered_persisted_query request) false config in
  let response_frame := jsonrpc_response_frame_present request in
  let undecided := negb deny_request && negb allow_request in
  let classified c :=
    bool_decide (RequestInput.jsonrpc request ≫= JsonRpcInput.mcp_method_classification = Some c) in
  let tools_call :=
    bool_decide (RequestInput.jsonrpc request ≫= JsonRpcInput.method = Some (lit "tools/call")) in
  let method := RequestInput.method request in
  let path := RequestInput.path request in
  push_if (graphql_request_error request)
    (GraphqlRejected (default [] (RequestInput.graphql request ≫= graphql_error)))
  ++ push_if (negb (graphql_request_error request) && unregistered) GraphqlNotRegistered
  ++ push_if (deny_request && has_operations && negb unregistered) GraphqlBlocked
  ++ push_if (undecided && has_operations && negb unregistered) GraphqlNotPermitted
  ++ push_if (response_frame && from_option (λ ep, has_protocol ep (lit "json-rpc")) false config)
       JsonRpcResponseFrame
  ++ push_if (mcp_policy_request && deny_request) McpBlocked
  ++ push_if (mcp_policy_request && undecided && classified Extension) McpExtensionNotAllowed
  ++ push_if (mcp_policy_request && undecided && classified Available && tools_call)
       McpToolNotAllowed
  ++ push_if (mcp_policy_request && undecided && classified Available && negb tools_call)
       McpMethodNotPermitted
  ++ push_if (deny_request && negb has_operations && negb response_frame && negb mcp_policy_request)
       (BlockedByDenyRule method path)
  ++ push_if (undecided && negb has_operations && negb response_frame && negb mcp_policy_request)
       (NotPermitted method path).

(** A complete rule whose bodies disagree is an evaluation error. *)
Definition request_deny_reason : result (option RequestDenyReason) unit :=
  match request_deny_reasons with
  | [] => Ok None
  | reason :: reasons =>
      if forallb (λ r, bool_decide (r = reason)) reasons then Ok (Some reason) else Err ()
  end.
End request.
End rego.
End Rego.
