(* ===== verification/OpaEngine.v ===== *)
(** * OpaEngine: the engine that holds a policy, and its clients
    (crates/openshell-supervisor-network/src/opa.rs, src/l7/mod.rs, the
    evaluation functions of src/l7/relay.rs and the route functions of
    src/proxy.rs)

    The engine swaps policies under generations and can be quarantined;
    connections are authorized by it, and tunnels evaluate requests on a copy
    of the policy they were opened under. *)

From stdpp Require Import gmap.
From S2P Require Import Prelude Net IpParse Order Text Patterns PolicyDns PolicyTypes PolicyMerge.
From S2P Require Import Ambiguity PolicySchema PolicyValidate OpaData Rego.

Local Open Scope Z_scope.

(** ** Endpoint configurations (l7/mod.rs) *)

Module L7Config.
Import L7Validate.

Inductive TlsMode : Type := Auto | Skip.
#[global] Instance TlsMode_eq_dec : EqDecision TlsMode.
Proof. solve_decision. Defined.
Inductive CredentialSigning : Type := NoSigning | SigV4 | SigV4Body | SigV4NoBody.
Inductive EnforcementMode : Type := Audit | Enforce.
#[global] Instance EnforcementMode_eq_dec : EqDecision EnforcementMode.
Proof. solve_decision. Defined.

Record L7EndpointConfig := l7_config {
  cfg_protocol : L7Protocol;
  cfg_endpoint_id : bytes;
  cfg_policy_hash : bytes;
  cfg_path : bytes;
  cfg_tls : TlsMode;
  cfg_enforcement : EnforcementMode;
  cfg_graphql_max_body_bytes : Z;
  cfg_json_rpc_max_body_bytes : Z;
  cfg_mcp_strict_tool_names : bool;
  cfg_mcp_versions : list nat;
  cfg_allow_encoded_slash : bool;
  cfg_websocket_credential_rewrite : bool;
  cfg_request_body_credential_rewrite : bool;
  cfg_allow_uninspected_credentials : bool;
  cfg_provider_credentialed : bool;
  cfg_websocket_graphql_policy : bool;
  cfg_credential_signing : CredentialSigning;
  cfg_signing_service : bytes;
  cfg_signing_region : bytes;
}.

Definition DEFAULT_MAX_BODY_BYTES : Z := 64 * 1024.

(** [get_object_str]: an empty text is no text. *)
Definition get_object_str (v : option bytes) : option bytes := v ≫= OpaData.text.

Definition strictly_ordered (versions : list nat) : bool :=
  forallb (λ '(a, b), Nat.ltb a b) (zip versions (drop 1 versions)).
Definition parse_canonical_mcp_versions (e : EndpointJson.t) : option (list nat) :=
  values ← EndpointJson.mcp_versions e;
  versions ← mapM parse_mcp_version values;
  if is_empty versions || negb (strictly_ordered versions) then None else Some versions.

Definition has_graphql_rule_fields (r : RuleJson.t) : bool :=
  negb (is_empty (default [] (RuleJson.operation_type r)))
  || negb (is_empty (default [] (RuleJson.operation_name r)))
  || negb (is_empty (default [] (RuleJson.fields r))).
Definition endpoint_has_graphql_policy (e : EndpointJson.t) : bool :=
  negb (bool_decide (default ∅ (EndpointJson.graphql_persisted_queries e) = ∅))
  || negb (bool_decide (default [] (EndpointJson.persisted_queries e) ∈ [[]; lit "deny"]))
  || existsb has_graphql_rule_fields (default [] (EndpointJson.rules e))
  || existsb has_graphql_rule_fields (default [] (EndpointJson.deny_rules e)).

Definition parse_credential_signing (value : option bytes) : option CredentialSigning :=
  match value with
  | None => Some NoSigning
  | Some value =>
      if bool_decide (value = lit "sigv4") then Some SigV4
      else if bool_decide (value = lit "sigv4:body") then Some SigV4Body
      else if bool_decide (value = lit "sigv4:no_body") then Some SigV4NoBody
      else None
  end.
Definition is_sigv4 (s : CredentialSigning) : bool :=
  match s with NoSigning => false | _ => true end.

(** A mode outside the names is refused by [validate_endpoint_modes]. *)
Definition parse_l7_config (e : EndpointJson.t) : option L7EndpointConfig :=
  protocol ← get_object_str (EndpointJson.protocol e) ≫= L7Protocol_parse;
  let tls := default [] (get_object_str (EndpointJson.tls e)) in
  let enforcement := default [] (get_object_str (EndpointJson.enforcement e)) in
  let access := default [] (get_object_str (EndpointJson.access e)) in
  if negb (is_empty (validate_endpoint_modes tls enforcement access)) then None
  else
    let enabled v := default false v in
    let is_mcp := match protocol with Mcp => true | _ => false end in
    let is_rest := match protocol with Rest => true | _ => false end in
    let is_websocket := match protocol with Websocket => true | _ => false end in
    if is_rest && enabled (EndpointJson.websocket_credential_rewrite e) then None
    else
      let max_body v := match v with Some v => if 0 <? v then v else DEFAULT_MAX_BODY_BYTES
                        | None => DEFAULT_MAX_BODY_BYTES end in
      mcp_versions ← (if is_mcp then parse_canonical_mcp_versions e else Some []);
      credential_signing ← parse_credential_signing
                             (get_object_str (EndpointJson.credential_signing e));
      let signing_service := default [] (get_object_str (EndpointJson.signing_service e)) in
      if is_sigv4 credential_signing && is_empty signing_service then None
      else Some (l7_config protocol
        (default [] (get_object_str (EndpointJson.endpoint_id e)))
        (default [] (OpaData.text (EndpointJson.policy_hash e)))
        (default [] (get_object_str (EndpointJson.path e)))
        (if bool_decide (tls = lit "skip") then Skip else Auto)
        (if bool_decide (enforcement = lit "enforce") then Enforce else Audit)
        (max_body (EndpointJson.graphql_max_body_bytes e))
        (max_body (EndpointJson.json_rpc_max_body_bytes e))
        (is_mcp && default true (EndpointJson.mcp_strict_tool_names e))
        mcp_versions
        (enabled (EndpointJson.allow_encoded_slash e))
        (enabled (EndpointJson.websocket_credential_rewrite e))
        (enabled (EndpointJson.request_body_credential_rewrite e))
        (enabled (EndpointJson.allow_uninspected_credentials e))
        (enabled (EndpointJson.provider_credentialed e))
        (is_websocket && endpoint_has_graphql_policy e)
        credential_signing signing_service
        (default [] (get_object_str (EndpointJson.signing_region e)))).

Definition parse_tls_mode (e : EndpointJson.t) : TlsMode :=
  if bool_decide (get_object_str (EndpointJson.tls e) = Some (lit "skip")) then Skip else Auto.

Record EndpointCredentialGuard := credential_guard {
  provider_credentialed : bool;
  allow_uninspected_credentials : bool;
  has_l7_protocol : bool;
  guard_tls : TlsMode;
}.
Definition guard_default : EndpointCredentialGuard := credential_guard false false false Auto.
Definition blocks_uninspected (g : EndpointCredentialGuard) : bool :=
  provider_credentialed g && negb (allow_uninspected_credentials g).
Definition blocks_connect (g : EndpointCredentialGuard) : bool :=
  blocks_uninspected g && (negb (has_l7_protocol g) || bool_decide (guard_tls g = Skip)).
Definition parse_endpoint_credential_guard (e : EndpointJson.t) : EndpointCredentialGuard :=
  credential_guard (default false (EndpointJson.provider_credentialed e))
    (default false (EndpointJson.allow_uninspected_credentials e))
    (is_some (get_object_str (EndpointJson.protocol e))) (parse_tls_mode e).
End L7Config.

(** ** Requests (l7/mod.rs, l7/jsonrpc.rs, l7/relay.rs)

    The revision and the HTTP metadata of an MCP request, which no rule reads,
    are left out; an inspection error is its detail. *)

Record JsonRpcCallInfo := jsonrpc_call {
  call_method : bytes;
  call_params : gmap bytes bytes;
  mcp_classification : option McpMethodClassification;
}.
Record JsonRpcRequestInfo := jsonrpc_info {
  calls : list JsonRpcCallInfo;
  is_batch : bool;
  info_receive_stream : bool;
  info_has_response : bool;
  info_error : option bytes;
}.
Record L7RequestInfo := l7_request {
  req_action : bytes;
  req_target : bytes;
  req_query_params : gmap bytes (list bytes);
  req_graphql : option GraphqlRequestInfo;
  req_jsonrpc : option JsonRpcRequestInfo;
}.

Definition jsonrpc_policy_input (info : JsonRpcRequestInfo) : JsonRpcInput.t :=
  let call := if is_batch info then None else head (calls info) in
  JsonRpcInput.mk (call_method <$> call) (call_params <$> call) (call ≫= mcp_classification)
    (info_receive_stream info) (info_has_response info) (info_error info).
Definition l7_request_policy_input (request : L7RequestInfo) : RequestInput.t :=
  RequestInput.mk (req_action request) (req_target request) None (req_query_params request)
    (req_graphql request) (jsonrpc_policy_input <$> req_jsonrpc request).
Definition jsonrpc_request_for_call (request : L7RequestInfo) (call : JsonRpcCallInfo)
  : L7RequestInfo :=
  l7_request (req_action request) (req_target request) (req_query_params request)
    (req_graphql request) (Some (jsonrpc_info [call] false false false None)).

(** ** The engine (opa.rs) *)

(** A builtin that fails aborts the evaluation: whether one does, for a
    connection and for a request. *)
Class RegoFaults := {
  connection_fault : OpaData → bytes → Z → ExecInput → bool;
  request_fault : OpaData → bytes → Z → ExecInput → RequestInput.t → bool;
}.

Record NetworkInput := network_input {
  in_host : bytes;
  in_port : Z;
  in_exec : ExecInput;
}.

Inductive EgressDeny : Type :=
| Quarantined (reason : bytes)
| DeniedByPolicy (reason : option Rego.DenyReason).
Inductive NetworkAction : Type :=
| Allow (matched_policy : option bytes)
| Deny (reason : EgressDeny).

Record EgressAuthorization := egress_authorization_of {
  action : NetworkAction;
  endpoint_configs : list EndpointJson.t;
  matched_endpoints : list Rego.EndpointRecord;
  exact_declared_host : bool;
  auth_generation : Z;
}.

(** [Registry] stands for the middleware services; generations are unbounded. *)
Record OpaEngine (Registry : Type) := opa_engine {
  engine_data : OpaData;
  generation : Z;
  middleware_runner : Registry;
  fail_closed_reason : option bytes;
}.
Arguments opa_engine {_}.
Arguments engine_data {_}.
Arguments generation {_}.
Arguments middleware_runner {_}.
Arguments fail_closed_reason {_}.

Record TunnelPolicyEngine (Registry : Type) := tunnel_engine {
  tunnel_data : OpaData;
  captured_generation : Z;
  tunnel_runner : Registry;
}.
Arguments tunnel_engine {_}.
Arguments tunnel_data {_}.
Arguments captured_generation {_}.
Arguments tunnel_runner {_}.

Inductive EngineError : Type :=
| LoadFailed
| PolicyChanged
| StaleGeneration
| EvaluationFailed
| ReasonConflict.

Module OpaEngine.
Section engine.
Context {rego : RegoBuiltins} {glob : Glob} {faults : RegoFaults} {Registry : Type}.
Abbreviation Engine := (OpaEngine Registry).
Abbreviation Tunnel := (TunnelPolicyEngine Registry).

Definition with_engine (data : OpaData) (runner : Registry) : Engine := opa_engine data 0 runner None.

(** Every change of what connections may do takes a new generation. *)
Definition reload_configuration (candidate : result OpaData OpaData.LoadError)
  (registry : option Registry) (e : Engine) : result (Engine * Z) OpaData.LoadError :=
  let? data := candidate in
  let g := generation e + 1 in
  Ok (opa_engine data g (default (middleware_runner e) registry) None, g).
Definition enter_fail_closed (reason : bytes) (e : Engine) : Engine * Z :=
  let g := generation e + 1 in
  (opa_engine (engine_data e) g (middleware_runner e) (Some reason), g).
Definition exit_fail_closed (e : Engine) : Engine * Z :=
  match fail_closed_reason e with
  | Some _ => let g := generation e + 1 in
              (opa_engine (engine_data e) g (middleware_runner e) None, g)
  | None => (e, generation e)
  end.
Definition replace_middleware_registry (registry : Registry) (e : Engine) : Engine :=
  opa_engine (engine_data e) (generation e + 1) registry (fail_closed_reason e).

Definition generation_guard (expected : Z) (e : Engine) : result Z EngineError :=
  if generation e =? expected then Ok (generation e) else Err PolicyChanged.
Definition with_current_generation {T} (expected : Z) (operation : Z → T) (e : Engine) : option T :=
  if generation e =? expected then Some (operation (generation e)) else None.
Definition clone_engine_for_tunnel (expected : Z) (e : Engine) : result Tunnel EngineError :=
  if generation e =? expected
  then Ok (tunnel_engine (engine_data e) (generation e) (middleware_runner e))
  else Err PolicyChanged.
Definition is_stale (t : Tunnel) (e : Engine) : bool :=
  negb (generation e =? captured_generation t).

Definition authorize_egress (input : NetworkInput) (e : Engine)
  : result EgressAuthorization EngineError :=
  match fail_closed_reason e with
  | Some reason => Ok (egress_authorization_of (Deny (Quarantined reason)) [] [] false (generation e))
  | None =>
      let data := engine_data e in
      let '(network_input host port exec) := input in
      if connection_fault data host port exec then Err EvaluationFailed
      else
        let r := Rego.egress_authorization data host port exec in
        Ok (egress_authorization_of
              (if Rego.action_allow r
               then Allow (OpaData.text (Rego.egress_matched_policy r))
               else Deny (DeniedByPolicy (Rego.egress_deny_reason r)))
              (Rego.egress_endpoint_configs r) (Rego.egress_matched_endpoints r)
              (Rego.egress_exact_declared_endpoint_host r) (generation e))
  end.

(** The endpoints policy DNS may answer for, with the generation and whether
    it is a quarantine. *)
Definition policy_dns_eligibility_snapshot (e : Engine) : list Rego.EndpointRecord * Z * bool :=
  match fail_closed_reason e with
  | Some _ => ([], generation e, true)
  | None => (Rego.policy_dns_eligible_endpoint_records (engine_data e), generation e, false)
  end.

Definition query_endpoint_credential_guards (input : NetworkInput) (e : Engine)
  : result (list EndpointJson.t) EngineError :=
  let '(network_input host port exec) := input in
  if connection_fault (engine_data e) host port exec then Err EvaluationFailed
  else Ok (Rego.endpoint_credential_guards (engine_data e) host port exec).

(** ** Requests of a tunnel (relay.rs) *)

Section requests.
Context (t : Tunnel) (current : Z) (ctx : NetworkInput).
Let stale : bool := negb (current =? captured_generation t).

Definition evaluate_l7_request_once (request : L7RequestInfo)
  : result (bool * option Rego.RequestDenyReason) EngineError :=
  let '(network_input host port exec) := ctx in
  let input := l7_request_policy_input request in
  if stale then Err StaleGeneration
  else if request_fault (tunnel_data t) host port exec input then Err EvaluationFailed
  else if Rego.allow_request (tunnel_data t) host port exec input then Ok (true, None)
  else match Rego.request_deny_reason (tunnel_data t) host port exec input with
       | Ok reason => Ok (false, reason)
       | Err _ => Err ReasonConflict
       end.

(** The first call of a batch that is not allowed ends it. *)
Fixpoint evaluate_calls (request : L7RequestInfo) (calls : list JsonRpcCallInfo)
  : result (bool * option Rego.RequestDenyReason) EngineError :=
  match calls with
  | [] => Ok (true, None)
  | call :: calls =>
      let? verdict := evaluate_l7_request_once (jsonrpc_request_for_call request call) in
      if verdict.1 then evaluate_calls request calls else Ok (false, verdict.2)
  end.
Definition batch_calls (request : L7RequestInfo) : option (JsonRpcRequestInfo * list JsonRpcCallInfo) :=
  info ← req_jsonrpc request;
  if is_batch info && negb (is_empty (calls info)) then Some (info, calls info) else None.
Definition evaluate_l7_request (request : L7RequestInfo)
  : result (bool * option Rego.RequestDenyReason) EngineError :=
  match batch_calls request with
  | Some (info, calls) =>
      let? response := (if info_has_response info then evaluate_l7_request_once request
                        else Ok (true, None)) in
      if response.1 then evaluate_calls request calls else Ok (false, response.2)
  | None => evaluate_l7_request_once request
  end.

(** The relay of JSON-RPC evaluates every call, for its log. *)
Fixpoint evaluate_all_calls (request : L7RequestInfo) (calls : list JsonRpcCallInfo)
  : result (list (bool * option Rego.RequestDenyReason)) EngineError :=
  match calls with
  | [] => Ok []
  | call :: calls =>
      let? verdict := evaluate_l7_request_once (jsonrpc_request_for_call request call) in
      let? verdicts := evaluate_all_calls request calls in
      Ok (verdict :: verdicts)
  end.
Definition evaluate_jsonrpc_l7_request_for_log (request : L7RequestInfo) (info : JsonRpcRequestInfo)
  : result (bool * option Rego.RequestDenyReason) EngineError :=
  let? response := (if info_has_response info
                    then let? v := evaluate_l7_request_once request in Ok (Some v) else Ok None) in
  let batch := is_batch info && negb (is_empty (calls info)) in
  let finished := match response with Some v => negb v.1 || negb batch | None => false end in
  match response with
  | Some v => if finished then Ok v
              else
                let? verdicts := evaluate_all_calls request (calls info) in
                Ok (default (true, None) (find (λ v, negb v.1) verdicts))
  | None =>
      if batch then
        let? verdicts := evaluate_all_calls request (calls info) in
        Ok (default (true, None) (find (λ v, negb v.1) verdicts))
      else evaluate_l7_request_once request
  end.

Definition admitted_token_grant_owners_once (request : L7RequestInfo)
  : result (gset bytes) EngineError :=
  let '(network_input host port exec) := ctx in
  let input := l7_request_policy_input request in
  if stale then Err StaleGeneration
  else if request_fault (tunnel_data t) host port exec input then Err EvaluationFailed
  else Ok (list_to_set (Rego.allowed_token_grant_owners (tunnel_data t) host port exec input)).

(** An owner has to admit every member of a batch. *)
Fixpoint owners_of_calls (request : L7RequestInfo) (owners : option (gset bytes))
  (calls : list JsonRpcCallInfo) : result (option (gset bytes)) EngineError :=
  match calls with
  | [] => Ok owners
  | call :: calls =>
      let? admitted := admitted_token_grant_owners_once (jsonrpc_request_for_call request call) in
      owners_of_calls request
        (Some (match owners with Some owners => owners ∩ admitted | None => admitted end)) calls
  end.
Definition admitted_token_grant_owners (request : L7RequestInfo) : result (gset bytes) EngineError :=
  match batch_calls request with
  | Some (info, calls) =>
      let? owners := (if info_has_response info
                      then let? o := admitted_token_grant_owners_once request in Ok (Some o)
                      else Ok None) in
      let? owners := owners_of_calls request owners calls in
      Ok (default ∅ owners)
  | None => admitted_token_grant_owners_once request
  end.
End requests.
End engine.

(** ** Decisions of the relay and of the proxy *)

Inductive HardDeny : Type :=
| GraphqlError (error : bytes)
| JsonRpcError (error : bytes)
| ResponseFrame.
Definition l7_request_hard_deny_reason (protocol : L7Validate.L7Protocol) (request : L7RequestInfo)
  : option HardDeny :=
  match req_graphql request ≫= graphql_error with
  | Some error => Some (GraphqlError error)
  | None =>
      info ← req_jsonrpc request;
      match info_error info with
      | Some error => Some (JsonRpcError error)
      | None => if negb (match protocol with L7Validate.Mcp => true | _ => false end)
                   && info_has_response info then Some ResponseFrame else None
      end
  end.

(** Whether the relay forwards a request: a hard denial holds in every mode,
    a denial of the policy in the enforcing one. *)
Definition forwards (enforcement : L7Config.EnforcementMode) (hard_deny : option HardDeny)
  (allowed : bool) : bool :=
  let allowed := negb (is_some hard_deny) && allowed in
  allowed || (bool_decide (enforcement = L7Config.Audit) && negb (is_some hard_deny)).

Definition has_policy (a : EgressAuthorization) : bool :=
  match action a with Allow matched_policy => is_some matched_policy | Deny _ => false end.
(** The inspected configurations of a connection; [None] relays it uninspected. *)
Definition query_l7_route_snapshot (a : EgressAuthorization)
  : option (list L7Config.L7EndpointConfig * Z) :=
  if negb (has_policy a) then None
  else
    let configs := omap L7Config.parse_l7_config (endpoint_configs a) in
    if is_empty configs then None else Some (configs, auth_generation a).
Definition query_tls_mode (a : EgressAuthorization) : L7Config.TlsMode :=
  if negb (has_policy a) then L7Config.Auto
  else from_option L7Config.parse_tls_mode L7Config.Auto (head (endpoint_configs a)).

(** The guard of a connection, from those of the credentialed endpoints. *)
Definition combine_guards (values : list EndpointJson.t) : L7Config.EndpointCredentialGuard :=
  let credentialed := List.filter L7Config.provider_credentialed
                        (map L7Config.parse_endpoint_credential_guard values) in
  if is_empty credentialed then L7Config.guard_default
  else L7Config.credential_guard true
    (forallb L7Config.allow_uninspected_credentials credentialed)
    (forallb L7Config.has_l7_protocol credentialed)
    (if existsb (λ g, bool_decide (L7Config.guard_tls g = L7Config.Skip)) credentialed
     then L7Config.Skip else L7Config.Auto).
End OpaEngine.
