(* ===== verification/Connect.v ===== *)
(** * Connect: a CONNECT request of the sandbox, from its target to its relay
    (crates/openshell-supervisor-network/src/proxy.rs, src/proxy/relay.rs,
    src/l7/middleware.rs, src/l7/rest.rs, src/l7/tls.rs, the middleware
    queries of src/opa.rs)

    The handler authorizes the connection, pins the generation, plans and
    validates the destination, refuses what would carry credentials
    uninspected, dials, looks at the first bytes of the tunnel and chooses a
    relay. The engine may change between any two of these steps, so each step
    reads its own snapshot of it. TLS handshakes are taken to succeed;
    responses, logs, observations and connections that the transparent
    listener has authorized beforehand are left out. *)

From stdpp Require Import gmap.
From S2P Require Import Prelude Net IpParse Order Text Patterns PolicyDns Destination.
From S2P Require Import PolicyTypes PolicyMerge Ambiguity PolicySchema PolicyValidate OpaData Rego OpaEngine.

Local Open Scope Z_scope.

(** ** The target *)

Inductive TargetError : Type := UnclosedBracket | MissingPort | InvalidPort.

Definition parse_target (target : bytes) : result (bytes * Z) TargetError :=
  let? parts :=
    match strip_prefix (lit "[") target with
    | Some rest =>
        match split_once 93 rest with
        | None => Err UnclosedBracket
        | Some (host, after) =>
            match strip_prefix (lit ":") after with
            | Some port_str => Ok (host, port_str)
            | None => Err MissingPort
            end
        end
    | None => match split_once 58 target with
              | Some parts => Ok parts
              | None => Err MissingPort
              end
    end in
  match parse_uint u16_max parts.2 with
  | Some port => Ok (parts.1, port)
  | None => Err InvalidPort
  end.

(** [normalize_host]: without the final dot. *)
Definition normalize_host (raw_host : bytes) : bytes :=
  default raw_host (strip_suffix (lit ".") raw_host).

(** ** The first bytes of a tunnel *)

Inductive TunnelProtocol : Type := Tls | Http1 | H2cPriorKnowledge | Unsupported.
#[export] Instance TunnelProtocol_eq_dec : EqDecision TunnelProtocol.
Proof. solve_decision. Defined.

Definition looks_like_tls (peek : bytes) : bool :=
  match peek with
  | a :: b :: c :: _ => (a =? 0x16) && (b =? 0x03) && (c <=? 0x04)
  | _ => false
  end.
Definition HTTP_METHOD_PREFIXES : list bytes :=
  [lit "GET "; lit "HEAD "; lit "POST "; lit "PUT "; lit "DELETE "; lit "PATCH "; lit "OPTIONS ";
   lit "CONNECT "; lit "TRACE "].
Definition HTTP2_PRIOR_KNOWLEDGE_PREFACE : bytes :=
  lit "PRI * HTTP/2.0" ++ [13; 10; 13; 10] ++ lit "SM" ++ [13; 10; 13; 10].
Definition MIN_HTTP2_PREFACE_DETECTION_BYTES : nat := 8.
Definition looks_like_http (peek : bytes) : bool :=
  existsb (λ method, starts_with method peek) HTTP_METHOD_PREFIXES.
Definition could_be_http_request_prefix (peek : bytes) : bool :=
  negb (is_empty peek)
  && existsb (λ method, Nat.ltb (length peek) (length method) && starts_with peek method)
       HTTP_METHOD_PREFIXES.
Definition looks_like_http2_prior_knowledge (peek : bytes) : bool :=
  Nat.leb MIN_HTTP2_PREFACE_DETECTION_BYTES (length peek)
  && starts_with peek HTTP2_PRIOR_KNOWLEDGE_PREFACE.
Definition could_be_http2_prior_knowledge_prefix (peek : bytes) : bool :=
  negb (is_empty peek) && Nat.ltb (length peek) MIN_HTTP2_PREFACE_DETECTION_BYTES
  && starts_with peek HTTP2_PRIOR_KNOWLEDGE_PREFACE.
Definition could_be_tls_prefix (peek : bytes) : bool :=
  bool_decide (peek ∈ [[0x16]; [0x16; 0x03]]).

Definition classify_tunnel_protocol (peek : bytes) : TunnelProtocol :=
  if looks_like_tls peek then Tls
  else if looks_like_http peek then Http1
  else if looks_like_http2_prior_knowledge peek then H2cPriorKnowledge
  else Unsupported.
Definition could_be_supported_tunnel_protocol_prefix (peek : bytes) : bool :=
  could_be_tls_prefix peek || could_be_http_request_prefix peek
  || could_be_http2_prior_knowledge_prefix peek.

Definition TUNNEL_PROTOCOL_PEEK_BYTES : nat := length HTTP2_PRIOR_KNOWLEDGE_PREFACE.

(** One look at the buffer, with whether the deadline has passed. *)
Definition settled (available : bytes) (late : bool) : bool :=
  let peek := take TUNNEL_PROTOCOL_PEEK_BYTES available in
  negb (bool_decide (classify_tunnel_protocol peek = Unsupported))
  || negb (could_be_supported_tunnel_protocol_prefix peek)
  || Nat.eqb (length peek) TUNNEL_PROTOCOL_PEEK_BYTES || late.

(** [peek_tunnel_protocol] over the looks it takes; [None] as long as it polls,
    [Some None] when the client closes. *)
Fixpoint peek_tunnel_protocol (looks : list (bytes * bool)) : option (option TunnelProtocol) :=
  match looks with
  | [] => None
  | (available, late) :: looks =>
      if is_empty available then Some None
      else if settled available late
      then Some (Some (classify_tunnel_protocol (take TUNNEL_PROTOCOL_PEEK_BYTES available)))
      else peek_tunnel_protocol looks
  end.

(** ** Middleware of a destination *)

Inductive OnError : Type := FailClosed | FailOpen.
#[export] Instance OnError_eq_dec : EqDecision OnError.
Proof. solve_decision. Defined.
Record ChainEntry := chain_entry {
  ce_name : bytes;
  ce_implementation : bytes;
  ce_order : Z;
  ce_on_error : OnError;
}.

Inductive MiddlewareError `{Glob} : Type :=
| BadOnError (value : bytes)
| BadSelector (e : HostSelector.error)
| TooManyStages.

Definition MAX_MIDDLEWARE_CHAIN_STAGES : nat := PolicyValidate.MAX_MIDDLEWARE_CONFIGS.
Definition i32_min : Z := -2147483648.
Definition i32_max : Z := 2147483647.

Inductive UninspectableTrafficGate : Type := Unrestricted | BypassWithFinding | DenyUninspectable.
Definition uninspectable_traffic_gate (chain : list ChainEntry) : UninspectableTrafficGate :=
  if is_empty chain then Unrestricted
  else if forallb (λ entry, bool_decide (ce_on_error entry = FailOpen)) chain
       then BypassWithFinding else DenyUninspectable.

Inductive InspectionRequirement : Type := NoInspection | L7Route | RequiredMiddleware.
Definition inspection_requirement (should_inspect_l7 : bool) (gate : UninspectableTrafficGate)
  : InspectionRequirement :=
  if should_inspect_l7 then L7Route
  else match gate with DenyUninspectable => RequiredMiddleware | _ => NoInspection end.

(** The detail of the refusal is the pair. *)
Definition unsupported_l7_tunnel_protocol_detail (protocol : TunnelProtocol)
  (requirement : InspectionRequirement) : option (TunnelProtocol * InspectionRequirement) :=
  match protocol, requirement with
  | _, NoInspection | (Tls | Http1), _ => None
  | _, _ => Some (protocol, requirement)
  end.

Section middleware.
Context {glob : Glob}.

Definition OnError_parse (value : bytes) : result OnError MiddlewareError :=
  if bool_decide (value ∈ [[]; lit "fail_closed"]) then Ok FailClosed
  else if bool_decide (value = lit "fail_open") then Ok FailOpen
  else Err (BadOnError value).

Definition middleware_selector_matches (m : MiddlewareJson.t) (host : bytes)
  : result bool MiddlewareError :=
  match MiddlewareJson.endpoints m with
  | None => Ok false
  | Some (include, exclude) =>
      let? selector := map_err BadSelector (HostSelector.new (default [] include) (default [] exclude)) in
      Ok (HostSelector.matches selector host)
  end.
Definition chain_entry_from_value (name : bytes) (m : MiddlewareJson.t)
  : result ChainEntry MiddlewareError :=
  let order := MiddlewareJson.order m in
  let? on_error := OnError_parse (default [] (MiddlewareJson.on_error m)) in
  Ok (chain_entry name (MiddlewareJson.middleware m)
        (if (i32_min <=? order) && (order <=? i32_max) then order else 0) on_error).

(** One middleware after the other, in the order of their names. *)
Fixpoint select_entries (configs : list (bytes * MiddlewareJson.t)) (host : bytes)
  (entries : list ChainEntry) : result (list ChainEntry) MiddlewareError :=
  match configs with
  | [] => Ok entries
  | (name, m) :: configs =>
      let? selected := middleware_selector_matches m host in
      if selected then
        if Nat.leb MAX_MIDDLEWARE_CHAIN_STAGES (length entries) then Err TooManyStages
        else
          let? entry := chain_entry_from_value name m in
          select_entries configs host (entries ++ [entry])
      else select_entries configs host entries
  end.
Definition entry_cmp (a b : ChainEntry) : comparison :=
  match Z.compare (ce_order a) (ce_order b) with
  | Eq => bytes_cmp (ce_name a) (ce_name b)
  | c => c
  end.
Definition sort_chain_entries : list ChainEntry → list ChainEntry := sort_by entry_cmp.
Definition global_middleware_entries (configs : list (bytes * MiddlewareJson.t)) (host : bytes)
  : result (list ChainEntry) MiddlewareError :=
  let? entries := select_entries configs host [] in
  Ok (sort_chain_entries entries).
Definition middleware_configs (data : OpaData) : list (bytes * MiddlewareJson.t) :=
  omap (λ name, (λ m, (name, m)) <$> network_middlewares_json data !! name)
    (sort_by bytes_cmp (map fst (map_to_list (network_middlewares_json data)))).
Definition query_middleware_chain (data : OpaData) (host : bytes)
  : result (list ChainEntry) MiddlewareError :=
  global_middleware_entries (middleware_configs data) host.
Definition middleware_uninspectable_gate {Registry} (e : OpaEngine Registry) (host : bytes)
  : result UninspectableTrafficGate MiddlewareError :=
  let? chain := query_middleware_chain (engine_data e) host in
  Ok (uninspectable_traffic_gate chain).
End middleware.

(** ** Routes and relays *)

Section connect.
Context {rego : RegoBuiltins} {glob : Glob} {faults : RegoFaults} {Registry : Type}.
Context {N4 N6 : Type} {net4 : CidrNet 32 N4} {net6 : CidrNet 128 N6} {nets : IpNetText N4 N6}
  {world : World}.
Local Abbreviation Engine := (OpaEngine Registry).
Local Abbreviation Tunnel := (TunnelPolicyEngine Registry).

(** The addresses of the first configuration. *)
Definition query_allowed_ips (a : EgressAuthorization) : list bytes :=
  if negb (OpaEngine.has_policy a) then []
  else from_option (λ config, default [] (EndpointJson.allowed_ips config)) []
         (head (endpoint_configs a)).

Definition hydrate_destination_plan (a : EgressAuthorization) (host : bytes)
  (backend_host_gateway trusted_host_gateway : option IpAddr)
  : result (DestinationValidationPlan N4 N6) DestinationDenial :=
  build_validation_plan host (to_ascii_lowercase host) backend_host_gateway trusted_host_gateway
    (query_allowed_ips a) (exact_declared_host a).

Definition query_endpoint_credential_guard (e : Engine) (a : EgressAuthorization)
  (input : NetworkInput) : result L7Config.EndpointCredentialGuard EngineError :=
  if negb (OpaEngine.has_policy a) then Ok L7Config.guard_default
  else
    let? values := OpaEngine.query_endpoint_credential_guards input e in
    Ok (OpaEngine.combine_guards values).

(** [endpoint_path_matches] and [select_l7_config_for_path]. *)
Definition config_matches_path (c : L7Config.L7EndpointConfig) (path : bytes) : bool :=
  EndpointPath.matches (EndpointPath.new (L7Config.cfg_path c)) path.
Definition config_path_specificity (c : L7Config.L7EndpointConfig) : nat :=
  if is_empty (L7Config.cfg_path c) then 0%nat
  else length (List.filter (λ c, negb (c =? 42)) (chars (L7Config.cfg_path c))).
Definition select_l7_config_for_path (configs : list L7Config.L7EndpointConfig) (path : bytes)
  : option L7Config.L7EndpointConfig :=
  max_by_key config_path_specificity (List.filter (λ c, config_matches_path c path) configs).

Definition Route : Type := option (list L7Config.L7EndpointConfig * Z).
Definition l7_inspection_active (route : Route) : bool :=
  from_option (λ r, negb (is_empty r.1)) false route.
Definition validate_route_generation (route : Route) (expected : Z) : bool :=
  from_option (λ r, r.2 =? expected) true route.

(** What an HTTP relay holds of the policy. *)
Inductive PreparedHttpPolicy : Type :=
| Inspect (configs : list L7Config.L7EndpointConfig) (evaluator : Tunnel)
| Passthrough (generation_guard : Z).

Definition prepare_http_relay (route : Route) (e : Engine) (a : EgressAuthorization)
  : option PreparedHttpPolicy :=
  if negb (validate_route_generation route (auth_generation a)) then None
  else
    match route with
    | Some (config :: configs, _) =>
        match OpaEngine.clone_engine_for_tunnel (auth_generation a) e with
        | Ok evaluator => Some (Inspect (config :: configs) evaluator)
        | Err _ => None
        end
    | _ => match OpaEngine.generation_guard (auth_generation a) e with
           | Ok guard => Some (Passthrough guard)
           | Err _ => None
           end
    end.
Definition prepare_raw_relay (route : Route) (e : Engine) (a : EgressAuthorization) : option Z :=
  if negb (validate_route_generation route (auth_generation a)) then None
  else match OpaEngine.generation_guard (auth_generation a) e with
       | Ok guard => Some guard
       | Err _ => None
       end.

(** ** The handler *)

Inductive ConnectDeny : Type :=
| DeniedByEngine (reason : EgressDeny)
| NoIdentity (reason : bytes)
| PolicyEvaluationError.

Inductive ConnectOutcome : Type :=
| InvalidTarget (e : TargetError)
| PolicyDenied (reason : ConnectDeny)
| PolicyStale
| HandlerFailed
| DestinationRefused (d : DestinationDenial)
| TlsTerminationUnavailable
| UninspectedCredentials
| DialFailed
| MiddlewareRequired
| StillPeeking
| ClientClosed
| UnsupportedL7Protocol
| TunnelClosed
| RawRelay (c : UpstreamConnector) (generation_guard : Z)
| HttpRelay (tls : bool) (c : UpstreamConnector) (policy : PreparedHttpPolicy).

(** The engine as each step reads it: the authorization, the pin, the guard of
    the credentials, the check after dialling, the middleware gate and the
    start of the relay. *)
Record EngineReads := engine_reads {
  at_authorize : Engine;
  at_pin : Engine;
  at_guard : Engine;
  at_dialled : Engine;
  at_gate : Engine;
  at_relay : Engine;
}.

(** The outside of a request: the process, or why it is not known; the
    gateways; whether TLS can be terminated; how dialling ends, or [None] when
    the policy changes meanwhile; what is seen of the tunnel. *)
Record ConnectInput := connect_input {
  process_identity : result ExecInput bytes;
  entrypoint_pid : Z;
  backend_gateway : option IpAddr;
  trusted_gateway : option IpAddr;
  tls_state : bool;
  dial_upstream : UpstreamConnector → option bool;
  tunnel_looks : list (bytes * bool);
}.

(** An identity that cannot be found and an evaluation that fails are denials. *)
Definition authorize_connect (identity : result ExecInput bytes) (host : bytes) (port : Z) (e : Engine)
  : result EgressAuthorization ConnectDeny :=
  let? exec := map_err NoIdentity identity in
  match OpaEngine.authorize_egress (network_input host port exec) e with
  | Ok a => match action a with Allow _ => Ok a | Deny reason => Err (DeniedByEngine reason) end
  | Err _ => Err PolicyEvaluationError
  end.

(** After the [200]: the relay of the tunnel. *)
Definition relay_tunnel (es : EngineReads) (input : ConnectInput) (host : bytes)
  (a : EgressAuthorization) (c : UpstreamConnector) : ConnectOutcome :=
  let route := OpaEngine.query_l7_route_snapshot a in
  let raw := match prepare_raw_relay route (at_relay es) a with
             | Some guard => RawRelay c guard
             | None => TunnelClosed
             end in
  let http tls := match prepare_http_relay route (at_relay es) a with
                  | Some policy => HttpRelay tls c policy
                  | None => TunnelClosed
                  end in
  let gate := middleware_uninspectable_gate (at_gate es) host in
  if bool_decide (OpaEngine.query_tls_mode a = L7Config.Skip) then
    match gate with
    | Err _ => HandlerFailed
    | Ok DenyUninspectable => MiddlewareRequired
    | Ok _ => raw
    end
  else
    match peek_tunnel_protocol (tunnel_looks input) with
    | None => StillPeeking
    | Some None => ClientClosed
    | Some (Some Tls) => if tls_state input then http true else TunnelClosed
    | Some (Some Http1) => http false
    | Some (Some protocol) =>
        match gate with
        | Err _ => HandlerFailed
        | Ok gate =>
            match unsupported_l7_tunnel_protocol_detail protocol
                    (inspection_requirement (l7_inspection_active route) gate) with
            | Some _ => UnsupportedL7Protocol
            | None => raw
            end
        end
    end.

Definition handle_connect (es : EngineReads) (input : ConnectInput) (target : bytes) : ConnectOutcome :=
  match parse_target target with
  | Err e => InvalidTarget e
  | Ok (raw_host, port) =>
  let host := to_ascii_lowercase (normalize_host raw_host) in
  match authorize_connect (process_identity input) host port (at_authorize es) with
  | Err reason => PolicyDenied reason
  | Ok a =>
  match OpaEngine.generation_guard (auth_generation a) (at_pin es) with
  | Err _ => PolicyStale
  | Ok guard =>
  let exec := match process_identity input with Ok exec => exec | Err _ => exec_input [] [] end in
  match query_endpoint_credential_guard (at_guard es) a (network_input host port exec) with
  | Err _ => HandlerFailed
  | Ok credential_guard =>
  match hydrate_destination_plan a host (backend_gateway input) (trusted_gateway input) with
  | Err d => DestinationRefused d
  | Ok pl =>
  match validate_destination (request raw_host port (entrypoint_pid input) pl) with
  | Err d => DestinationRefused d
  | Ok c =>
  if negb (tls_state input || bool_decide (OpaEngine.query_tls_mode a = L7Config.Skip))
  then TlsTerminationUnavailable
  else if L7Config.blocks_connect credential_guard then UninspectedCredentials
  else if negb (validate_route_generation (OpaEngine.query_l7_route_snapshot a) guard)
  then PolicyStale
  else match dial_upstream input c with
       | None => PolicyStale
       | Some false => DialFailed
       | Some true =>
           if negb (generation (at_dialled es) =? guard) then PolicyStale
           else relay_tunnel es input host a c
       end
  end end end end end end.

(** The requests that end in a relay. *)
Definition relayed (o : ConnectOutcome) : option UpstreamConnector :=
  match o with
  | RawRelay c _ | HttpRelay _ c _ => Some c
  | _ => None
  end.
End connect.
