(* ===== verification/OpaFacts.v ===== *)
(** * OpaFacts: what the loaded policy decides

    The document of a policy is read back to the messages it came from: a
    connection is allowed exactly when an endpoint and a binary of one rule
    allow it, an inspected endpoint is never relayed without inspection, a
    preset allows what it says. The engine's generations keep tunnels on the
    policy that admitted them. *)

From stdpp Require Import gmap sorting.
From S2P Require Import Prelude Net IpParse Order Text Patterns PolicyDns PolicyTypes PolicyMerge.
From S2P Require Import Ambiguity PolicySchema PolicyValidate PolicyValidateFacts OpaData Rego OpaEngine.
From Stdlib Require Import ZifyBool.
Import L7Validate PolicyValidate.

Local Open Scope Z_scope.

(** ** Keys of the document *)

Lemma text_empty s : OpaData.text s = None ↔ s = [].
Proof. by destruct s. Qed.
Lemma text_default s : default [] (OpaData.text s) = s.
Proof. by destruct s. Qed.
Lemma items_default {A} (l : list A) : default [] (OpaData.items l) = l.
Proof. by destruct l. Qed.
Lemma flag_default b : default false (OpaData.flag b) = b.
Proof. by destruct b. Qed.
Lemma get_text s : L7Config.get_object_str (OpaData.text s) = OpaData.text s.
Proof. by destruct s. Qed.

(** ** The order of names *)

Definition name_le (a b : bytes) : Prop := cmp_leb (bytes_cmp a b) = true.

Lemma name_le_trans : Transitive name_le.
Proof.
  unfold name_le. intros a. induction a as [|x a IH]; intros [|y b] [|z c]; try done.
  cbn [bytes_cmp]. destruct (Z.compare_spec x y), (Z.compare_spec y z); try done; subst;
    rewrite ?Z.compare_refl; [apply IH|..];
    repeat match goal with |- context [?x ?= ?z] => destruct (Z.compare_spec x z) end; done || lia.
Qed.
Lemma name_le_total a b : if cmp_leb (bytes_cmp a b) then name_le a b else name_le b a.
Proof.
  unfold name_le. revert b. induction a as [|x a IH]; intros [|y b]; try done. cbn [bytes_cmp].
  destruct (Z.compare_spec x y); subst; rewrite ?Z.compare_refl; [apply IH|done|].
  cbn [cmp_leb]. destruct (Z.compare_spec y x); done || lia.
Qed.

(** ** The document of a loaded policy *)

Section loaded.
Context {glob : Glob} {dns : DnsNames} {proto : ProtoStruct}
  (policy_hash : SandboxPolicy → bytes) (endpoint_id : NetworkEndpoint → bytes)
  (resolve : bytes → OpaData.BinaryResolution).

Definition loaded_endpoint (p : SandboxPolicy) (e : NetworkEndpoint) : EndpointJson.t :=
  OpaData.expand_endpoint (OpaData.normalize_l7_rules_aliases (OpaData.normalize_protocol
    (OpaData.endpoint_to_json (policy_hash (canonical p)) endpoint_id (canonical_endpoint e)))).
Definition loaded_policy (p : SandboxPolicy) (rule : NetworkPolicyRule) : PolicyJson :=
  policy_json (name rule) (map (loaded_endpoint p) (endpoints rule))
    (flat_map (OpaData.binary_entries resolve) (binaries rule)).

Lemma from_proto_Ok p identity data :
  OpaData.from_proto policy_hash endpoint_id resolve p identity = Ok data →
  policy_violations AllowDefaultable p = []
  ∧ require_binary_identity data = identity
  ∧ network_policies_json data = loaded_policy p <$> policies p
  ∧ ∀ key rule ep, policies p !! key = Some rule → ep ∈ endpoints rule →
      OpaData.validate_endpoint (OpaData.normalize_protocol
        (OpaData.endpoint_to_json (policy_hash (canonical p)) endpoint_id (canonical_endpoint ep)))
      = [].
Proof.
  unfold OpaData.from_proto. rewrite let_Ok. intros (q & Hq%map_err_Ok & Hk).
  apply canonicalize_sandbox_Ok in Hq as [Hv ->].
  destruct (negb (is_empty (Ambiguity.find_endpoint_ambiguities _))); [done|].
  destruct (negb (is_empty (OpaData.validate_l7_policies _))) eqn:Hl; [done|].
  apply (inj Ok) in Hk as <-. split_and!; [done|done| |].
  - cbn [network_policies_json OpaData.expand_access_presets OpaData.map_endpoints_json
         OpaData.normalize_l7_policy_rule_aliases OpaData.normalize_endpoint_protocols
         OpaData.proto_to_opa_data_json].
    rewrite canonical_policies. unfold map_endpoints. rewrite <- !map_fmap_compose.
    apply map_fmap_ext. intros key rule _. unfold compose, loaded_policy, OpaData.policy_to_json.
    cbn [pj_name pj_endpoints pj_binaries name endpoints binaries]. rewrite !map_map.
    unfold loaded_endpoint. reflexivity.
  - intros key rule ep Hr He. apply negb_false_iff, is_empty_true in Hl.
    unfold OpaData.validate_l7_policies in Hl. rewrite flat_map_nil in Hl.
    apply list_elem_of_lookup in He as [i He].
    assert (network_policies_json (OpaData.normalize_endpoint_protocols
              (OpaData.proto_to_opa_data_json (policy_hash (canonical p)) endpoint_id resolve
                 (canonical p) identity)) !! key
            = Some (policy_json (name rule) (map (λ e, OpaData.normalize_protocol
                (OpaData.endpoint_to_json (policy_hash (canonical p)) endpoint_id
                   (canonical_endpoint e))) (endpoints rule))
                (flat_map (OpaData.binary_entries resolve) (binaries rule)))) as Hj.
    { cbn [network_policies_json OpaData.normalize_endpoint_protocols OpaData.map_endpoints_json
           OpaData.proto_to_opa_data_json].
      rewrite canonical_policies. unfold map_endpoints. rewrite !lookup_fmap, Hr.
      cbn [fmap option_fmap option_map OpaData.policy_to_json pj_name pj_endpoints pj_binaries
           name endpoints binaries]. by rewrite !map_map. }
    specialize (Hl _ (proj2 (elem_of_map_to_list _ _ _) Hj)). cbn [pj_endpoints] in Hl.
    rewrite concat_imap_nil in Hl. specialize (Hl i _ ltac:(by rewrite list_lookup_fmap, He)).
    by rewrite map_nil_iff in Hl.
Qed.

Lemma from_proto_unambiguous p identity data :
  OpaData.from_proto policy_hash endpoint_id resolve p identity = Ok data →
  Ambiguity.find_endpoint_ambiguities (map_to_list (policies (canonical p))) = []
  ∧ network_middlewares_json data = OpaData.middleware_to_json <$> network_middlewares p.
Proof.
  unfold OpaData.from_proto. rewrite let_Ok. intros (q & Hq%map_err_Ok & Hk).
  apply canonicalize_sandbox_Ok in Hq as [Hv ->].
  destruct (is_empty (Ambiguity.find_endpoint_ambiguities _)) eqn:Ha; [|done]. cbn [negb] in Hk.
  destruct (negb (is_empty (OpaData.validate_l7_policies _))); [done|].
  apply (inj Ok) in Hk as <-. split; [by apply is_empty_true|]. by destruct p.
Qed.

(** What [with_rules] keeps, as equations that do not unfold the endpoint. *)
Lemma with_rules_keys e protocol rules deny_rules :
  let j := EndpointJson.with_rules e protocol rules deny_rules in
  EndpointJson.host j = EndpointJson.host e ∧ EndpointJson.ports j = EndpointJson.ports e
  ∧ EndpointJson.allowed_ips j = EndpointJson.allowed_ips e
  ∧ EndpointJson.advisor_proposed j = EndpointJson.advisor_proposed e
  ∧ EndpointJson.tls j = EndpointJson.tls e ∧ EndpointJson.path j = EndpointJson.path e.
Proof. done. Qed.
Lemma with_rules_modes e protocol rules deny_rules :
  let j := EndpointJson.with_rules e protocol rules deny_rules in
  EndpointJson.enforcement j = EndpointJson.enforcement e
  ∧ EndpointJson.access j = EndpointJson.access e
  ∧ EndpointJson.websocket_credential_rewrite j = EndpointJson.websocket_credential_rewrite e
  ∧ EndpointJson.credential_signing j = EndpointJson.credential_signing e
  ∧ EndpointJson.signing_service j = EndpointJson.signing_service e
  ∧ EndpointJson.provider_credentialed j = EndpointJson.provider_credentialed e
  ∧ EndpointJson.protocol j = protocol
  ∧ EndpointJson.mcp_versions j = EndpointJson.mcp_versions e.
Proof. done. Qed.
Lemma with_rules_twice e p1 r1 d1 p2 r2 d2 :
  EndpointJson.with_rules (EndpointJson.with_rules e p1 r1 d1) p2 r2 d2
  = EndpointJson.with_rules e p2 r2 d2.
Proof. done. Qed.

(** Loading changes the protocol's spelling, the rules and the options of an
    MCP endpoint; every other key is that of the message. *)
Lemma canonical_endpoint_mcp e :
  canonical_endpoint e = with_mcp e (Endpoint.mcp (canonical_endpoint e)).
Proof.
  unfold canonical_endpoint, materialize_endpoint. destruct (negb _); by destruct e.
Qed.

Definition projected (p : SandboxPolicy) (e : NetworkEndpoint) : EndpointJson.t :=
  OpaData.endpoint_to_json (policy_hash (canonical p)) endpoint_id (canonical_endpoint e).

Lemma expand_with_rules e :
  ∃ rules, OpaData.expand_endpoint e
           = EndpointJson.with_rules e (EndpointJson.protocol e) rules (EndpointJson.deny_rules e).
Proof.
  unfold OpaData.expand_endpoint. destruct (_ && _); [by eexists|].
  destruct (_ || _); [exists (EndpointJson.rules e); by destruct e|].
  destruct (OpaData.access_preset_rules _ _); [by eexists|].
  exists (EndpointJson.rules e). by destruct e.
Qed.
Lemma normalize_with_rules e :
  ∃ rules deny_rules, OpaData.expand_endpoint (OpaData.normalize_l7_rules_aliases
                        (OpaData.normalize_protocol e))
    = EndpointJson.with_rules e (OpaData.canonical_protocol <$> EndpointJson.protocol e) rules deny_rules.
Proof.
  destruct (expand_with_rules (OpaData.normalize_l7_rules_aliases (OpaData.normalize_protocol e)))
    as [rules ->].
  exists rules. eexists. unfold OpaData.normalize_l7_rules_aliases, OpaData.normalize_protocol.
  by rewrite !with_rules_twice.
Qed.
Lemma projected_protocol p e :
  EndpointJson.protocol (projected p e) = OpaData.text (Endpoint.protocol e).
Proof. unfold projected. rewrite canonical_endpoint_mcp. by destruct e. Qed.
Lemma loaded_with_rules p e :
  ∃ rules deny_rules, loaded_endpoint p e
    = EndpointJson.with_rules (projected p e)
        (OpaData.canonical_protocol <$> OpaData.text (Endpoint.protocol e)) rules deny_rules.
Proof. rewrite <- (projected_protocol p). apply normalize_with_rules. Qed.

Lemma projected_keys p e :
  EndpointJson.host (projected p e) = Endpoint.host e
  ∧ EndpointJson.ports (projected p e) = Selection.rego_ports e
  ∧ EndpointJson.allowed_ips (projected p e) = OpaData.items (Endpoint.allowed_ips e)
  ∧ EndpointJson.advisor_proposed (projected p e) = OpaData.flag (Endpoint.advisor_proposed e)
  ∧ EndpointJson.tls (projected p e)
    = OpaData.mode_to_json network_tls_mode_to_str (Endpoint.tls e)
  ∧ EndpointJson.path (projected p e) = OpaData.text (Endpoint.path e).
Proof. unfold projected. rewrite canonical_endpoint_mcp. by destruct e. Qed.

Lemma loaded_keys p e :
  EndpointJson.host (loaded_endpoint p e) = Endpoint.host e
  ∧ EndpointJson.ports (loaded_endpoint p e) = Selection.rego_ports e
  ∧ EndpointJson.allowed_ips (loaded_endpoint p e) = OpaData.items (Endpoint.allowed_ips e)
  ∧ EndpointJson.advisor_proposed (loaded_endpoint p e) = OpaData.flag (Endpoint.advisor_proposed e)
  ∧ EndpointJson.tls (loaded_endpoint p e)
    = OpaData.mode_to_json network_tls_mode_to_str (Endpoint.tls e)
  ∧ EndpointJson.path (loaded_endpoint p e) = OpaData.text (Endpoint.path e).
Proof.
  destruct (loaded_with_rules p e) as (rules & deny & ->).
  destruct (with_rules_keys (projected p e) (OpaData.canonical_protocol <$> OpaData.text
              (Endpoint.protocol e)) rules deny) as (-> & -> & -> & -> & -> & ->).
  apply projected_keys.
Qed.

(** ** Connections *)

Context {rego : RegoBuiltins}.

(** What an endpoint of a message and the binaries of a rule say. *)
Definition selects (e : NetworkEndpoint) (host : bytes) (port : Z) : Prop :=
  port ∈ Selection.rego_ports e
  ∧ ((contains_byte 42 (Endpoint.host e) = false ∧ lower (Endpoint.host e) = lower host)
     ∨ (contains_byte 42 (Endpoint.host e) = true
        ∧ glob_match [lit "."] (lower (Endpoint.host e)) (lower host) = true)
     ∨ (Endpoint.host e = [] ∧ Endpoint.allowed_ips e ≠ [])).
Definition authorizes_binary (identity : bool) (rule : NetworkPolicyRule) (exec : ExecInput) : Prop :=
  identity = false
  ∨ ∃ b q x, b ∈ binaries rule ∧ q ∈ OpaData.binary_entries resolve b
      ∧ x ∈ exec_path exec :: ancestors exec
      ∧ (if contains_byte 42 q then glob_match [lit "/"] q x = true else q = x).
(** The rule under a key allows a connection. *)
Definition grants (p : SandboxPolicy) (identity : bool) (host : bytes) (port : Z) (exec : ExecInput)
  (key : bytes) : Prop :=
  ∃ rule e, policies p !! key = Some rule ∧ e ∈ endpoints rule ∧ selects e host port
            ∧ authorizes_binary identity rule exec.

Lemma matches_selects p e host port :
  Rego.endpoint_matches_request host port (loaded_endpoint p e) = true ↔ selects e host port.
Proof.
  unfold Rego.endpoint_matches_request, selects.
  destruct (loaded_keys p e) as (-> & -> & -> & _ & _ & _). rewrite items_default.
  rewrite !orb_true_iff, !andb_true_iff, !negb_true_iff, !bool_decide_eq_true, is_empty_true,
    is_empty_false. tauto.
Qed.

Lemma existsb_or {A} (f g h : A → bool) l :
  existsb f l || existsb g l || existsb h l = existsb (λ x, f x || g x || h x) l.
Proof.
  induction l as [|x l IH]; [done|]. cbn [existsb]. rewrite <- IH.
  destruct (f x), (g x), (h x), (existsb f l), (existsb g l), (existsb h l); done.
Qed.
Lemma endpoint_allowed_exists host port q :
  Rego.endpoint_allowed host port q = existsb (Rego.endpoint_matches_request host port) (pj_endpoints q).
Proof. apply existsb_or. Qed.

Lemma allowed_selects p rule host port :
  Rego.endpoint_allowed host port (loaded_policy p rule) = true
  ↔ ∃ e, e ∈ endpoints rule ∧ selects e host port.
Proof.
  rewrite endpoint_allowed_exists, existsb_elem. cbn [loaded_policy pj_endpoints]. split.
  - intros (j & Hj & Hm). apply (list_elem_of_fmap (loaded_endpoint p)) in Hj as (e & -> & He).
    exists e. split; [done|]. by eapply matches_selects.
  - intros (e & He & Hs). exists (loaded_endpoint p e). split; [|by apply matches_selects].
    by apply (list_elem_of_fmap (loaded_endpoint p)); exists e.
Qed.

Lemma binary_authorized p rule data exec :
  Rego.binary_allowed data exec (loaded_policy p rule) = true
  ↔ authorizes_binary (require_binary_identity data) rule exec.
Proof.
  unfold Rego.binary_allowed, authorizes_binary. cbn [loaded_policy pj_binaries].
  rewrite !orb_true_iff, negb_true_iff, !existsb_elem. split.
  - intros [[[H|(q & Hq & H)]|(q & Hq & H)]|(q & Hq & H)]; [by left|right..];
      apply list_elem_of_In, in_flat_map in Hq as (b & Hb%list_elem_of_In & Hq%list_elem_of_In);
      apply andb_true_iff in H as [Hc H].
    + exists b, q, (exec_path exec). apply negb_true_iff in Hc. apply bool_decide_eq_true in H.
      rewrite Hc. split_and!; [done..|left|done].
    + exists b, q, q. apply negb_true_iff in Hc. apply bool_decide_eq_true in H.
      rewrite Hc. split_and!; [done..|by right|done].
    + apply existsb_elem in H as (x & Hx & Hg). exists b, q, x. by rewrite Hc.
  - intros [H|(b & q & x & Hb & Hq & Hx & H)]; [by left; left; left|].
    assert (q ∈ flat_map (OpaData.binary_entries resolve) (binaries rule)) as Hin.
    { apply list_elem_of_In, in_flat_map. exists b. by rewrite <- !list_elem_of_In. }
    destruct (contains_byte 42 q) eqn:Hc.
    + right. exists q. rewrite Hc. split; [done|]. apply existsb_elem. by exists x.
    + subst x. apply elem_of_cons in Hx as [Hx|Hx].
      * left; left; right. exists q. rewrite Hc. split; [done|]. by apply bool_decide_eq_true.
      * left; right. exists q. rewrite Hc. split; [done|]. by apply bool_decide_eq_true.
Qed.

Lemma sorted_names_sorted data : StronglySorted name_le (map fst (Rego.sorted_policies data)).
Proof.
  unfold Rego.sorted_policies.
  assert (StronglySorted name_le (sort_by bytes_cmp (map fst (map_to_list (network_policies_json data)))))
    as Hs by (apply sort_by_sorted; [apply name_le_trans|apply name_le_total]).
  induction Hs as [|key keys Hs IH Hk]; [constructor|]. cbn [omap list_omap].
  destruct (network_policies_json data !! key); [|done]. cbn. constructor; [done|].
  apply list.Forall_forall. intros k Hin. rewrite list.Forall_forall in Hk. apply Hk.
  apply (list_elem_of_fmap fst) in Hin as ([k' q] & -> & Hin). apply list_elem_of_omap in Hin as (k0 & Hk0 & He).
  destruct (network_policies_json data !! k0); [|done]. by injection He as <- _.
Qed.
Lemma sorted_policies_elem data key q :
  (key, q) ∈ Rego.sorted_policies data ↔ network_policies_json data !! key = Some q.
Proof.
  unfold Rego.sorted_policies. rewrite list_elem_of_omap. split.
  - intros (k & _ & Hk). destruct (network_policies_json data !! k) eqn:E; [|done]. cbn in Hk.
    naive_solver.
  - intros Hk. exists key. rewrite Hk. split; [|done]. apply sort_by_elem.
    apply (list_elem_of_fmap fst). exists (key, q). split; [done|]. by apply elem_of_map_to_list.
Qed.

Lemma filter_names_sorted {A} (f : bytes * A → bool) l :
  StronglySorted name_le (map fst l) → StronglySorted name_le (map fst (List.filter f l)).
Proof.
  induction l as [|x l IH]; intros Hs; [done|]. cbn [map List.filter] in *.
  apply StronglySorted_inv in Hs as [Hs Hx]. destruct (f x); [|by apply IH]. cbn [map].
  constructor; [by apply IH|]. rewrite list.Forall_forall in *. intros k Hk. apply Hx.
  apply (list_elem_of_fmap fst) in Hk as (y & -> & Hy). apply (list_elem_of_fmap fst). exists y.
  split; [done|]. apply list_elem_of_In, filter_In in Hy as [Hy _]. by apply list_elem_of_In.
Qed.

Section connection.
Context {faults : RegoFaults} {Registry : Type} (p : SandboxPolicy) (identity : bool) (data : OpaData)
  (Hload : OpaData.from_proto policy_hash endpoint_id resolve p identity = Ok data)
  (host : bytes) (port : Z) (exec : ExecInput).

Lemma loaded_elem key q :
  (key, q) ∈ Rego.sorted_policies data ↔ ∃ rule, policies p !! key = Some rule ∧ q = loaded_policy p rule.
Proof using Hload.
  destruct (from_proto_Ok _ _ _ Hload) as (_ & _ & Hd & _).
  rewrite sorted_policies_elem, Hd, lookup_fmap. destruct (policies p !! key); cbn; naive_solver.
Qed.

Lemma matched_policy_elem key q :
  (key, q) ∈ Rego.matching_policies data host port exec ↔
  ∃ rule, policies p !! key = Some rule ∧ q = loaded_policy p rule
    ∧ (∃ e, e ∈ endpoints rule ∧ selects e host port) ∧ authorizes_binary identity rule exec.
Proof using Hload.
  destruct (from_proto_Ok _ _ _ Hload) as (_ & Hi & _ & _).
  unfold Rego.matching_policies. rewrite list_elem_of_In, filter_In, <- list_elem_of_In, loaded_elem, andb_true_iff.
  split.
  - intros [(rule & Hr & ->) [Ha Hb]]. exists rule. rewrite allowed_selects in Ha.
    rewrite binary_authorized, Hi in Hb. done.
  - intros (rule & Hr & -> & Ha & Hb). split; [by exists rule|]. rewrite allowed_selects.
    by rewrite binary_authorized, Hi.
Qed.

Lemma matching_grants key :
  key ∈ Rego.matching_policy_names data host port exec ↔ grants p identity host port exec key.
Proof using Hload.
  unfold Rego.matching_policy_names, grants. rewrite (list_elem_of_fmap fst). split.
  - intros ([k q] & -> & (rule & ? & _ & (e & ? & ?) & ?)%matched_policy_elem). by exists rule, e.
  - intros (rule & e & Hr & He & Hs & Hb). exists (key, loaded_policy p rule). split; [done|].
    apply matched_policy_elem. exists rule. split_and!; [done..|by exists e|done].
Qed.

Lemma allowed_iff_matched :
  Rego.network_policy_for_request data host port exec
  = is_some (Rego.matched_network_policy data host port exec).
Proof using.
  unfold Rego.network_policy_for_request, Rego.matched_network_policy, Rego.matching_policy_names,
    Rego.matching_policies.
  induction (Rego.sorted_policies data) as [|[key q] l IH]; [done|]. cbn [existsb List.filter].
  by destruct (_ && _).
Qed.

Lemma matched_least key :
  Rego.matched_network_policy data host port exec = Some key →
  grants p identity host port exec key
  ∧ ∀ key', grants p identity host port exec key' → name_le key key'.
Proof using Hload.
  unfold Rego.matched_network_policy. intros Hk.
  pose proof (filter_names_sorted (λ '(_, q), Rego.endpoint_allowed host port q
    && Rego.binary_allowed data exec q) _ (sorted_names_sorted data)) as Hs.
  fold (Rego.matching_policies data host port exec) in Hs.
  fold (Rego.matching_policy_names data host port exec) in Hs.
  setoid_rewrite <- matching_grants.
  destruct (Rego.matching_policy_names data host port exec) as [|k ks]; [done|].
  cbn in Hk. apply (inj Some) in Hk as ->. split; [left|].
  intros key' [->|Hin]%elem_of_cons.
  - pose proof (name_le_total key key). by destruct (cmp_leb _).
  - apply StronglySorted_inv in Hs as [_ Hs]. rewrite list.Forall_forall in Hs. by apply Hs.
Qed.

Lemma record_elem key i j :
  Rego.endpoint_record key i j ∈ Rego.matching_endpoint_records data host port exec ↔
  ∃ rule e, policies p !! key = Some rule ∧ endpoints rule !! i = Some e ∧ j = loaded_endpoint p e
    ∧ selects e host port ∧ authorizes_binary identity rule exec.
Proof using Hload.
  unfold Rego.matching_endpoint_records. rewrite list_elem_of_In, in_flat_map. split.
  - intros ([k q] & Hq & Hr). apply list_elem_of_In, matched_policy_elem in Hq as (rule & Hk & -> & _ & Hb).
    apply list_elem_of_In, list_elem_of_omap in Hr as ([i' j'] & Hij & Hm).
    destruct (Rego.endpoint_matches_request host port j') eqn:E; [|done]. injection Hm as <- <- <-.
    apply elem_of_lookup_imap in Hij as (n & e & Heq & He). injection Heq as -> ->.
    cbn [loaded_policy pj_endpoints] in He. rewrite list_lookup_fmap in He.
    apply fmap_Some in He as (e0 & He & ->). exists rule, e0.
    split_and!; [done|done|done|by eapply matches_selects|done].
  - intros (rule & e & Hk & He & -> & Hs & Hb). exists (key, loaded_policy p rule).
    rewrite <- !list_elem_of_In. split.
    { apply matched_policy_elem. exists rule. split_and!; [done..| |done].
      exists e. split; [by eapply list_elem_of_lookup_2|done]. }
    apply list_elem_of_omap. exists (i, loaded_endpoint p e). split.
    + apply elem_of_lookup_imap. exists i, (loaded_endpoint p e). split; [done|].
      cbn [loaded_policy pj_endpoints]. by rewrite list_lookup_fmap, He.
    + by rewrite (proj2 (matches_selects p e host port) Hs).
Qed.

Lemma exact_host_iff :
  Rego.exact_declared_endpoint_host data host port exec = true ↔
  ∃ key rule e, policies p !! key = Some rule ∧ e ∈ endpoints rule
    ∧ Endpoint.advisor_proposed e = false ∧ contains_byte 42 (Endpoint.host e) = false
    ∧ lower (Endpoint.host e) = lower host ∧ port ∈ Selection.rego_ports e
    ∧ authorizes_binary identity rule exec.
Proof using Hload.
  destruct (from_proto_Ok _ _ _ Hload) as (_ & Hi & _ & _).
  unfold Rego.exact_declared_endpoint_host. rewrite existsb_elem. split.
  - intros ([key q] & (rule & Hr & ->)%loaded_elem & [Hb He]%andb_true_iff).
    rewrite binary_authorized, Hi in Hb. apply existsb_elem in He as (j & Hj & Hm).
    cbn [loaded_policy pj_endpoints] in Hj.
    apply (list_elem_of_fmap (loaded_endpoint p)) in Hj as (e & -> & He).
    destruct (loaded_keys p e) as (Hh & Hp & _ & Ha & _). rewrite Hh, Hp, Ha, flag_default in Hm.
    rewrite !andb_true_iff, !negb_true_iff, !bool_decide_eq_true in Hm.
    destruct Hm as [[[? ?] ?] ?]. by exists key, rule, e.
  - intros (key & rule & e & Hr & He & Ha & Hc & Hl & Hp & Hb). exists (key, loaded_policy p rule).
    split; [apply loaded_elem; by exists rule|]. rewrite andb_true_iff, binary_authorized, Hi.
    split; [done|]. apply existsb_elem. exists (loaded_endpoint p e).
    split; [apply (list_elem_of_fmap (loaded_endpoint p)); by exists e|].
    destruct (loaded_keys p e) as (-> & -> & _ & -> & _). rewrite flag_default.
    by rewrite !andb_true_iff, !negb_true_iff, !bool_decide_eq_true.
Qed.

(** C3: the decision on a connection is the policy's. With a policy loaded
    and no quarantine, a connection is allowed exactly when one rule of the
    policy selects its host and port with an endpoint and authorizes its
    process with a binary; the decision names the least such rule, carries
    exactly the endpoints that such rules select, and reports a declared host
    only for a literal endpoint that no advisor proposed. *)
Theorem egress_decision_exact (e : OpaEngine Registry) a
  (Hdata : engine_data e = data) (Hopen : fail_closed_reason e = None)
  (Ha : OpaEngine.authorize_egress (network_input host port exec) e = Ok a) :
  (match action a with
   | Allow matched => ∃ key, matched = OpaData.text key ∧ grants p identity host port exec key
       ∧ ∀ key', grants p identity host port exec key' → name_le key key'
   | Deny _ => ∀ key, ¬ grants p identity host port exec key
   end)
  ∧ (∀ key i j, Rego.endpoint_record key i j ∈ matched_endpoints a ↔
       ∃ rule ep, policies p !! key = Some rule ∧ endpoints rule !! i = Some ep
         ∧ j = loaded_endpoint p ep ∧ selects ep host port ∧ authorizes_binary identity rule exec)
  ∧ (exact_declared_host a = true ↔
       ∃ key rule ep, policies p !! key = Some rule ∧ ep ∈ endpoints rule
         ∧ Endpoint.advisor_proposed ep = false ∧ contains_byte 42 (Endpoint.host ep) = false
         ∧ lower (Endpoint.host ep) = lower host ∧ port ∈ Selection.rego_ports ep
         ∧ authorizes_binary identity rule exec)
  ∧ auth_generation a = generation e.
Proof using Hload.
  unfold OpaEngine.authorize_egress in Ha. rewrite Hopen, Hdata in Ha.
  destruct (connection_fault data host port exec); [done|]. apply (inj Ok) in Ha as <-.
  cbn [action matched_endpoints exact_declared_host auth_generation Rego.egress_authorization
       Rego.action_allow Rego.egress_matched_policy Rego.egress_matched_endpoints
       Rego.egress_exact_declared_endpoint_host].
  split_and!; [|intros; apply record_elem|apply exact_host_iff|done].
  rewrite allowed_iff_matched.
  destruct (Rego.matched_network_policy data host port exec) as [key|] eqn:Hm; cbn [is_some].
  - exists key. split; [done|]. by apply matched_least.
  - intros key Hg%matching_grants. unfold Rego.matched_network_policy in Hm.
    destruct (Rego.matching_policy_names data host port exec); [|done]. by apply elem_of_nil in Hg.
Qed.
End connection.

(** ** Inspected endpoints *)

Lemma parse_not_tcp protocol pr :
  L7Protocol_parse protocol = Some pr → eq_ignore_ascii_case protocol (lit "tcp") = false.
Proof.
  intros Hp. apply not_true_is_false. intros Ht%eq_ignore_case_true.
  unfold L7Protocol_parse in Hp. rewrite Ht in Hp. by vm_compute in Hp.
Qed.
Lemma canonical_protocol_name protocol pr :
  L7Protocol_parse protocol = Some pr → OpaData.canonical_protocol protocol = OpaData.protocol_name pr.
Proof. intros Hp. unfold OpaData.canonical_protocol. by rewrite (parse_not_tcp _ _ Hp), Hp. Qed.
Lemma parse_protocol_name pr : L7Protocol_parse (OpaData.protocol_name pr) = Some pr.
Proof. by destruct pr; vm_compute. Qed.
Lemma protocol_name_lower pr :
  lower (OpaData.protocol_name pr) = OpaData.protocol_name pr.
Proof. rewrite lower_ascii; [by destruct pr|]. destruct pr; by apply (bool_decide_unpack _). Qed.
Lemma mcp_parse protocol : L7Protocol_parse protocol = Some Mcp → is_mcp protocol = true.
Proof.
  unfold L7Protocol_parse, is_mcp, eq_ignore_ascii_case. intros H.
  destruct (bool_decide (to_ascii_lowercase protocol = lit "rest")); [done|].
  destruct (bool_decide (to_ascii_lowercase protocol = lit "websocket")); [done|].
  destruct (bool_decide (to_ascii_lowercase protocol = lit "graphql")); [done|].
  destruct (bool_decide (to_ascii_lowercase protocol = lit "sql")); [done|].
  destruct (bool_decide (to_ascii_lowercase protocol = lit "json-rpc")); [done|].
  destruct (bool_decide_reflect (to_ascii_lowercase protocol = lit "mcp")) as [->|]; [|done].
  by apply bool_decide_eq_true.
Qed.

(** The modes of an accepted endpoint, read back from their names. *)
Lemma tls_read tls :
  tls ∈ [0; 1] →
  let value := L7Config.get_object_str (OpaData.mode_to_json network_tls_mode_to_str tls) in
  unknown_tls_value (default [] value) = []
  ∧ bool_decide (default [] value = lit "skip") = (tls =? 1).
Proof. rewrite !elem_of_cons, elem_of_nil. by intros [->|[->|[]]]; vm_compute. Qed.
Lemma enforcement_read enforcement :
  enforcement ∈ [0; 1; 2] →
  let value := default [] (L7Config.get_object_str
                 (OpaData.mode_to_json network_enforcement_mode_to_str enforcement)) in
  bool_decide (value ∈ [[]; lit "enforce"; lit "audit"]) = true
  ∧ bool_decide (value = lit "enforce") = (enforcement =? 1).
Proof. rewrite !elem_of_cons, elem_of_nil. by intros [->|[->|[->|[]]]]; vm_compute. Qed.
Lemma access_read access :
  access ∈ [0; 1; 2; 3] →
  bool_decide (default [] (L7Config.get_object_str
                 (OpaData.mode_to_json network_access_preset_to_str access))
               ∈ [[]; lit "read-only"; lit "read-write"; lit "full"]) = true.
Proof. rewrite !elem_of_cons, elem_of_nil. by intros [->|[->|[->|[->|[]]]]]; vm_compute. Qed.

Lemma signing_read name e :
  signing_violations name e = [] →
  ∃ s, L7Config.parse_credential_signing (OpaData.text (Endpoint.credential_signing e)) = Some s
    ∧ L7Config.is_sigv4 s && is_empty (Endpoint.signing_service e) = false.
Proof.
  unfold signing_violations. rewrite !app_nil_iff, !push_if_nil. intros (Hk & Hs & _).
  destruct (is_empty (Endpoint.credential_signing e)) eqn:He.
  { apply is_empty_true in He. rewrite He. by eexists. }
  cbn [negb andb] in *. rewrite Hs, negb_false_iff, bool_decide_eq_true in *.
  assert (OpaData.text (Endpoint.credential_signing e) = Some (Endpoint.credential_signing e)) as ->.
  { apply is_empty_false in He. by destruct (Endpoint.credential_signing e). }
  setoid_rewrite andb_false_r. rewrite !elem_of_cons, elem_of_nil in Hk.
  destruct Hk as [->|[->|[->|[]]]]; by eexists.
Qed.

Lemma projected_modes p e :
  EndpointJson.enforcement (projected p e)
  = OpaData.mode_to_json network_enforcement_mode_to_str (Endpoint.enforcement e)
  ∧ EndpointJson.access (projected p e)
    = OpaData.mode_to_json network_access_preset_to_str (Endpoint.access e)
  ∧ EndpointJson.websocket_credential_rewrite (projected p e)
    = OpaData.flag (Endpoint.websocket_credential_rewrite e)
  ∧ EndpointJson.credential_signing (projected p e) = OpaData.text (Endpoint.credential_signing e)
  ∧ EndpointJson.signing_service (projected p e) = OpaData.text (Endpoint.signing_service e)
  ∧ EndpointJson.provider_credentialed (projected p e) = OpaData.flag (Endpoint.provider_credentialed e)
  ∧ EndpointJson.protocol (projected p e) = OpaData.text (Endpoint.protocol e).
Proof. unfold projected. rewrite canonical_endpoint_mcp. by destruct e. Qed.

(** What the loader's validation says of the MCP revisions. *)
Lemma validated_mcp_versions e :
  OpaData.validate_endpoint (OpaData.normalize_protocol e) = [] →
  OpaData.validate_mcp_versions_field e
    (L7Protocol_parse (default [] (OpaData.canonical_protocol <$> EndpointJson.protocol e))) = [].
Proof.
  unfold OpaData.validate_endpoint. intros Hl. do 10 apply app_nil_iff in Hl as [_ Hl].
  by apply app_nil_iff in Hl as [Hl _].
Qed.

(** The revisions of an MCP endpoint that the loader accepted. *)
Lemma mcp_versions_read p e name :
  collect_mcp_endpoint_violations AllowDefaultable name e = [] →
  L7Protocol_parse (Endpoint.protocol e) = Some Mcp →
  OpaData.validate_mcp_versions_field (projected p e) (Some Mcp) = [] →
  is_Some (L7Config.parse_canonical_mcp_versions (projected p e)).
Proof.
  intros Hc Hp%mcp_parse Hv.
  assert (EndpointJson.mcp_versions (projected p e) ≠ None) as Hs.
  { destruct (canonical_endpoint_cases e name Hc) as [(Hm & _)|(_ & o & Ho & _)]; [congruence|].
    unfold projected. rewrite Ho. cbn [OpaData.endpoint_to_json EndpointJson.mcp_versions with_mcp
      Endpoint.mcp Endpoint.protocol mbind option_bind]. unfold is_mcp in Hp. by rewrite Hp. }
  unfold OpaData.validate_mcp_versions_field in Hv. unfold L7Config.parse_canonical_mcp_versions.
  destruct (EndpointJson.mcp_versions (projected p e)) as [values|]; [|done]. cbn [mbind option_bind].
  destruct (is_empty values) eqn:He; [done|].
  destruct (mapM parse_mcp_version values) as [versions|] eqn:Hm; [|done]. cbn [mbind option_bind].
  apply push_if_nil, negb_false_iff in Hv. unfold L7Config.strictly_ordered. rewrite Hv.
  apply mapM_Some_1, Forall2_length in Hm. apply is_empty_false in He.
  destruct versions; [by destruct values|]. by eexists.
Qed.

(** [parse_l7_config] succeeds when each of its checks does. *)
Lemma parse_of_parts e pr versions sign :
  EndpointJson.protocol e = Some (OpaData.protocol_name pr) →
  validate_endpoint_modes (default [] (L7Config.get_object_str (EndpointJson.tls e)))
    (default [] (L7Config.get_object_str (EndpointJson.enforcement e)))
    (default [] (L7Config.get_object_str (EndpointJson.access e))) = [] →
  (match pr with Rest => true | _ => false end)
  && default false (EndpointJson.websocket_credential_rewrite e) = false →
  (match pr with Mcp => L7Config.parse_canonical_mcp_versions e | _ => Some [] end) = Some versions →
  L7Config.parse_credential_signing (L7Config.get_object_str (EndpointJson.credential_signing e))
  = Some sign →
  L7Config.is_sigv4 sign
  && is_empty (default [] (L7Config.get_object_str (EndpointJson.signing_service e))) = false →
  ∃ cfg, L7Config.parse_l7_config e = Some cfg
    ∧ L7Config.cfg_protocol cfg = pr
    ∧ L7Config.cfg_path cfg = default [] (L7Config.get_object_str (EndpointJson.path e))
    ∧ L7Config.cfg_tls cfg
      = (if bool_decide (default [] (L7Config.get_object_str (EndpointJson.tls e)) = lit "skip")
         then L7Config.Skip else L7Config.Auto)
    ∧ L7Config.cfg_enforcement cfg
      = (if bool_decide (default [] (L7Config.get_object_str (EndpointJson.enforcement e))
                         = lit "enforce") then L7Config.Enforce else L7Config.Audit)
    ∧ L7Config.cfg_provider_credentialed cfg
      = default false (EndpointJson.provider_credentialed e).
Proof.
  intros Hp Hm Hw Hv Hs Hsv. unfold L7Config.parse_l7_config. rewrite Hp.
  assert (L7Config.get_object_str (Some (OpaData.protocol_name pr)) ≫= L7Protocol_parse = Some pr) as ->
    by (by destruct pr; vm_compute).
  cbn [mbind option_bind]. rewrite Hm. cbn [is_empty negb]. rewrite Hw.
  assert ((if match pr with Mcp => true | _ => false end
           then L7Config.parse_canonical_mcp_versions e else Some []) = Some versions) as ->
    by (by destruct pr).
  cbn [mbind option_bind]. rewrite Hs. cbn [mbind option_bind]. rewrite Hsv.
  eexists. split; [reflexivity|]. cbn. by split_and!.
Qed.

Lemma parse_loaded p identity data key rule ep pr :
  OpaData.from_proto policy_hash endpoint_id resolve p identity = Ok data →
  policies p !! key = Some rule → ep ∈ endpoints rule →
  L7Protocol_parse (Endpoint.protocol ep) = Some pr →
  ∃ cfg, L7Config.parse_l7_config (loaded_endpoint p ep) = Some cfg
    ∧ L7Config.cfg_protocol cfg = pr
    ∧ L7Config.cfg_path cfg = Endpoint.path ep
    ∧ L7Config.cfg_tls cfg = (if Endpoint.tls ep =? 1 then L7Config.Skip else L7Config.Auto)
    ∧ L7Config.cfg_enforcement cfg
      = (if Endpoint.enforcement ep =? 1 then L7Config.Enforce else L7Config.Audit)
    ∧ L7Config.cfg_provider_credentialed cfg = Endpoint.provider_credentialed ep.
Proof.
  intros Hload Hr He Hp. destruct (from_proto_Ok _ _ _ Hload) as (Hv & _ & _ & Hl).
  specialize (Hl key rule ep Hr He). fold (projected p ep) in Hl.
  apply list_elem_of_lookup in He as [i He].
  pose proof (accepted_endpoint _ _ _ _ _ _ Hv Hr He) as Ha. unfold endpoint_violations in Ha.
  rewrite !app_nil_iff, map_nil_iff in Ha. destruct Ha as (_ & _ & _ & Hs & Hl7 & Hm).
  destruct (signing_read _ _ Hs) as (sign & Hsign & Hservice).
  apply l7_errors_nil in Hl7 as (Hsem & (Htls & Henf & Hacc) & _).
  destruct (tls_read _ Htls) as [Htls1 Htls2]. destruct (enforcement_read _ Henf) as [Henf1 Henf2].
  pose proof (access_read _ Hacc) as Hacc1.
  destruct (projected_modes p ep) as (Ke & Ka & Kw & Ks & Kv & Kc & Kp).
  destruct (projected_keys p ep) as (_ & _ & _ & _ & Kt & Kpath).
  assert ((match pr with Rest => true | _ => false end)
          && Endpoint.websocket_credential_rewrite ep = false) as Hrest.
  { unfold validate_l7_endpoint_semantics in Hsem.
    cbn [fields_of f_protocol f_websocket_credential_rewrite] in Hsem. rewrite Hp in Hsem.
    apply app_nil_iff in Hsem as [Hsem _]. by apply push_if_nil in Hsem. }
  assert (∃ versions, (match pr with
            | Mcp => L7Config.parse_canonical_mcp_versions (projected p ep) | _ => Some [] end)
          = Some versions) as [versions Hversions].
  { destruct pr; try (by eexists). apply (mcp_versions_read p ep _ Hm Hp).
    apply validated_mcp_versions in Hl. rewrite Kp in Hl.
    assert (OpaData.text (Endpoint.protocol ep) = Some (Endpoint.protocol ep)) as Ht
      by (by destruct (Endpoint.protocol ep)).
    rewrite Ht in Hl. cbn [fmap option_fmap option_map default from_option id] in Hl.
    rewrite (canonical_protocol_name _ _ Hp), parse_protocol_name in Hl. exact Hl. }
  destruct (loaded_with_rules p ep) as (rules & deny & ->).
  set (prot := OpaData.canonical_protocol <$> OpaData.text (Endpoint.protocol ep)).
  destruct (with_rules_modes (projected p ep) prot rules deny) as (We & Wa & Ww & Ws & Wv & Wc & Wp & Wm).
  destruct (with_rules_keys (projected p ep) prot rules deny) as (_ & _ & _ & _ & Wt & Wpath).
  set (j := EndpointJson.with_rules (projected p ep) prot rules deny) in *. clearbody j.
  assert (L7Config.parse_canonical_mcp_versions j
          = L7Config.parse_canonical_mcp_versions (projected p ep)) as Hj.
  { unfold L7Config.parse_canonical_mcp_versions. by rewrite Wm. }
  destruct (parse_of_parts j pr versions sign) as (cfg & Hcfg & ? & Hpath & Ht & Hen & Hpc);
    rewrite ?We, ?Wa, ?Ww, ?Ws, ?Wv, ?Wc, ?Wp, ?Wt, ?Wpath, ?Hj, ?Ke, ?Ka, ?Kw, ?Ks, ?Kv, ?Kc, ?Kt,
      ?Kpath, ?flag_default, ?get_text, ?text_default in *; unfold prot in *.
  - assert (OpaData.text (Endpoint.protocol ep) = Some (Endpoint.protocol ep)) as ->
      by (by destruct (Endpoint.protocol ep)).
    cbn [fmap option_fmap option_map]. by rewrite (canonical_protocol_name _ _ Hp).
  - unfold validate_endpoint_modes. rewrite Htls1, Henf1, Hacc1. done.
  - done.
  - exact Hversions.
  - done.
  - done.
  - exists cfg. split_and!; [done|done|done|by rewrite Ht, Htls2|by rewrite Hen, Henf2|done].
Qed.

(** An inspected endpoint has a configuration of its own. *)
Lemma inspected_is_extended p ep pr :
  L7Protocol_parse (Endpoint.protocol ep) = Some pr →
  Rego.endpoint_has_extended_config (loaded_endpoint p ep) = true.
Proof.
  intros Hp. destruct (loaded_with_rules p ep) as (rules & deny & ->).
  assert (OpaData.text (Endpoint.protocol ep) = Some (Endpoint.protocol ep)) as ->
    by (by destruct (Endpoint.protocol ep)).
  destruct (with_rules_modes (projected p ep) (OpaData.canonical_protocol <$> Some (Endpoint.protocol ep))
              rules deny) as (_ & _ & _ & _ & _ & _ & Wp & _).
  unfold Rego.endpoint_has_extended_config. rewrite Wp. cbn [fmap option_fmap option_map default].
  rewrite (canonical_protocol_name _ _ Hp). cbn [from_option id]. rewrite protocol_name_lower.
  by destruct pr.
Qed.

Section inspected.
Context {faults : RegoFaults} {Registry : Type} (p : SandboxPolicy) (identity : bool) (data : OpaData)
  (Hload : OpaData.from_proto policy_hash endpoint_id resolve p identity = Ok data)
  (host : bytes) (port : Z) (exec : ExecInput).

Lemma config_elem key rule ep pr :
  policies p !! key = Some rule → ep ∈ endpoints rule → selects ep host port →
  authorizes_binary identity rule exec → L7Protocol_parse (Endpoint.protocol ep) = Some pr →
  loaded_endpoint p ep ∈ Rego.matching_endpoint_configs data host port exec.
Proof using Hload.
  intros Hr He Hs Hb Hp. unfold Rego.matching_endpoint_configs.
  apply list_elem_of_In, in_flat_map. exists (key, loaded_policy p rule).
  rewrite <- !list_elem_of_In. split.
  { eapply matched_policy_elem; [done|]. exists rule. split_and!; [done..|by exists ep|done]. }
  apply list_elem_of_In, filter_In. rewrite <- list_elem_of_In. split.
  - by apply (list_elem_of_fmap (loaded_endpoint p)); exists ep.
  - rewrite (proj2 (matches_selects p ep host port) Hs). by eapply inspected_is_extended.
Qed.

(** A connection to an inspected endpoint is inspected. When a rule of
    the loaded policy, none of them under the empty name, authorizes the
    process and one of its endpoints selects the destination and names an
    inspection protocol, the proxy finds a route for the connection, of the
    engine's generation, and among its configurations is the endpoint's, with
    the protocol, the path, the TLS mode, the enforcement mode and the
    credential mark of the message. *)
Theorem inspected_endpoint_stays_inspected (e : OpaEngine Registry) a key rule ep pr
  (Hdata : engine_data e = data) (Hopen : fail_closed_reason e = None)
  (Ha : OpaEngine.authorize_egress (network_input host port exec) e = Ok a)
  (Hnamed : policies p !! [] = None)
  (Hr : policies p !! key = Some rule) (He : ep ∈ endpoints rule) (Hs : selects ep host port)
  (Hb : authorizes_binary identity rule exec)
  (Hp : L7Protocol_parse (Endpoint.protocol ep) = Some pr) :
  ∃ configs cfg, OpaEngine.query_l7_route_snapshot a = Some (configs, generation e)
    ∧ cfg ∈ configs
    ∧ L7Config.cfg_protocol cfg = pr
    ∧ L7Config.cfg_path cfg = Endpoint.path ep
    ∧ L7Config.cfg_tls cfg = (if Endpoint.tls ep =? 1 then L7Config.Skip else L7Config.Auto)
    ∧ L7Config.cfg_enforcement cfg
      = (if Endpoint.enforcement ep =? 1 then L7Config.Enforce else L7Config.Audit)
    ∧ L7Config.cfg_provider_credentialed cfg = Endpoint.provider_credentialed ep.
Proof using Hload.
  destruct (parse_loaded _ _ _ _ _ _ _ Hload Hr He Hp) as (cfg & Hcfg & Hrest).
  pose proof (config_elem _ _ _ _ Hr He Hs Hb Hp) as Hin.
  assert (key ∈ Rego.matching_policy_names data host port exec) as Hg.
  { eapply matching_grants; [done|]. by exists rule, ep. }
  destruct (Rego.matched_network_policy data host port exec) as [name|] eqn:Hm.
  2: { unfold Rego.matched_network_policy in Hm.
       by destruct (Rego.matching_policy_names data host port exec); [apply elem_of_nil in Hg|]. }
  destruct (matched_least _ _ _ Hload _ _ _ _ Hm) as [(r & ? & Hn & _) _].
  unfold OpaEngine.authorize_egress in Ha. rewrite Hopen, Hdata in Ha.
  destruct (connection_fault data host port exec); [done|]. apply (inj Ok) in Ha as <-.
  unfold OpaEngine.query_l7_route_snapshot, OpaEngine.has_policy.
  cbn [action endpoint_configs auth_generation Rego.egress_authorization Rego.action_allow
       Rego.egress_matched_policy Rego.egress_endpoint_configs].
  rewrite allowed_iff_matched, Hm. cbn [is_some default from_option id].
  destruct name as [|c name]; [congruence|]. cbn [OpaData.text is_some negb].
  assert (cfg ∈ omap L7Config.parse_l7_config (Rego.matching_endpoint_configs data host port exec))
    as Hc by (apply list_elem_of_omap; by exists (loaded_endpoint p ep)).
  destruct (omap L7Config.parse_l7_config _) as [|c' configs]; [by apply elem_of_nil in Hc|].
  by exists (c' :: configs), cfg.
Qed.
End inspected.
End loaded.
