(* ===== verification/OpaRequests.v ===== *)
(** * OpaRequests: what the loaded policy decides on requests

    The rules of a document are read back to the messages. A request to REST
    endpoints is allowed exactly when a rule or a preset of an endpoint covers
    it and no deny rule does; a token of a grant goes only with a request that
    its endpoint admits; the evaluation for the log gives the verdict that is
    enforced; a connection whose credentials need inspection is blocked when
    one endpoint would skip it. *)

From stdpp Require Import gmap sorting.
From S2P Require Import Prelude Net IpParse Order Text Patterns PolicyDns PolicyTypes PolicyMerge.
From S2P Require Import Ambiguity PolicySchema PolicyValidate PolicyValidateFacts OpaData Rego OpaEngine.
From S2P Require Import PolicyMergeFacts OpaFacts.
Import L7Validate PolicyValidate.

Local Open Scope Z_scope.

(** ** The rules of a document *)

Lemma normalize_matchers_id m :
  OpaData.normalize_l7_matcher_map (OpaData.matchers_key m) = OpaData.matchers_key m.
Proof.
  unfold OpaData.matchers_key, OpaData.l7_matchers_to_json, OpaData.normalize_l7_matcher_map, OpaData.key_if.
  destruct (negb _); [|done]. cbn [fmap option_fmap option_map]. f_equal.
  by rewrite <- map_fmap_compose.
Qed.
Lemma normalize_rule_id protocol allow_all a :
  bool_decide (protocol = lit "mcp") = false →
  OpaData.normalize_l7_rule_aliases protocol allow_all (OpaData.allow_to_json a) = OpaData.allow_to_json a.
Proof.
  intros Hp. unfold OpaData.normalize_l7_rule_aliases. rewrite Hp. unfold OpaData.allow_to_json.
  cbn [RuleJson.method RuleJson.path RuleJson.command RuleJson.operation_type RuleJson.operation_name
       RuleJson.fields RuleJson.query RuleJson.params RuleJson.tool].
  by rewrite !normalize_matchers_id.
Qed.

(** What normalising and expanding an endpoint of the REST protocol does. *)
Lemma rest_endpoint_rules e s :
  EndpointJson.protocol e = Some s → L7Protocol_parse s = Some Rest →
  let normalize := OpaData.normalize_l7_rule_aliases (lit "rest")
                     (default false (EndpointJson.mcp_allow_all_known_mcp_methods e)) in
  let rules := map normalize <$> EndpointJson.rules e in
  let access := default [] (EndpointJson.access e) in
  let j := OpaData.expand_endpoint (OpaData.normalize_l7_rules_aliases (OpaData.normalize_protocol e)) in
  EndpointJson.protocol j = Some (lit "rest")
  ∧ EndpointJson.deny_rules j = map normalize <$> EndpointJson.deny_rules e
  ∧ EndpointJson.rules j
    = if is_empty access || negb (is_empty (default [] rules)) then rules
      else match OpaData.access_preset_rules (lit "rest") access with
           | Some preset => Some preset | None => rules end.
Proof.
  intros He Hs. assert (OpaData.canonical_protocol <$> EndpointJson.protocol e = Some (lit "rest")) as Hc
    by (rewrite He; cbn [fmap option_fmap option_map]; by rewrite (canonical_protocol_name _ _ Hs)).
  intros normalize rules access j. subst j.
  unfold OpaData.normalize_l7_rules_aliases, OpaData.normalize_protocol. rewrite with_rules_twice.
  cbn [EndpointJson.with_rules EndpointJson.protocol EndpointJson.rules EndpointJson.deny_rules
       EndpointJson.mcp_allow_all_known_mcp_methods].
  rewrite Hc. cbn [default from_option id]. fold normalize. fold rules.
  unfold OpaData.expand_endpoint.
  cbn [EndpointJson.with_rules EndpointJson.protocol EndpointJson.rules EndpointJson.deny_rules
       EndpointJson.access EndpointJson.mcp_allow_all_known_mcp_methods default from_option id].
  fold access. rewrite bool_decide_eq_false_2 by done. cbn [andb].
  destruct (is_empty access || _); [done|]. by destruct (OpaData.access_preset_rules _ access).
Qed.

Section requests.
Context {glob : Glob} {dns : DnsNames} {proto : ProtoStruct} {rego : RegoBuiltins}
  (policy_hash : SandboxPolicy → bytes) (endpoint_id : NetworkEndpoint → bytes)
  (resolve : bytes → OpaData.BinaryResolution).
Local Abbreviation loaded := (loaded_endpoint policy_hash endpoint_id).

(** ** What the rules of a message cover *)

Definition accepts (m : L7QueryMatcher.t) (value : bytes) : Prop :=
  (L7QueryMatcher.glob m ≠ [] ∧ glob_match [] (L7QueryMatcher.glob m) value = true)
  ∨ ∃ pattern, pattern ∈ L7QueryMatcher.any m ∧ glob_match [] pattern value = true.
Definition covers_method (expected actual : bytes) : Prop :=
  expected = lit "*" ∨ upper actual = upper expected
  ∨ (upper actual = lit "HEAD" ∧ upper expected = lit "GET").
Definition covers_target (a : L7Allow.t) (method path : bytes) : Prop :=
  L7Allow.method a ≠ [] ∧ L7Allow.path a ≠ [] ∧ covers_method (L7Allow.method a) method
  ∧ (L7Allow.path a = lit "**" ∨ glob_match [lit "/"] (L7Allow.path a) path = true).

(** An allow rule covers a request when all values of each of its query keys
    are accepted; a deny rule when one of them is. *)
Definition allow_covers (a : L7Allow.t) (request : L7RequestInfo) : Prop :=
  covers_target a (req_action request) (req_target request)
  ∧ ∀ key m, L7Allow.query a !! key = Some m → ∃ values, req_query_params request !! key = Some values
      ∧ values ≠ [] ∧ ∀ value, value ∈ values → accepts m value.
Definition deny_covers (a : L7DenyRule) (request : L7RequestInfo) : Prop :=
  covers_target a (req_action request) (req_target request)
  ∧ ∀ key m, L7Allow.query a !! key = Some m → ∃ values, req_query_params request !! key = Some values
      ∧ (values = [] ∨ ∃ value, value ∈ values ∧ accepts m value).
Definition preset_covers (access : Z) (method : bytes) : Prop :=
  (access = 1 ∧ upper method ∈ [lit "GET"; lit "HEAD"; lit "OPTIONS"])
  ∨ (access = 2 ∧ upper method ∈ [lit "GET"; lit "HEAD"; lit "OPTIONS"; lit "POST"; lit "PUT"; lit "PATCH"])
  ∨ access = 3.
Definition endpoint_covers (ep : NetworkEndpoint) (request : L7RequestInfo) : Prop :=
  (∃ a, Some a ∈ Endpoint.rules ep ∧ allow_covers a request)
  ∨ (Endpoint.rules ep = [] ∧ preset_covers (Endpoint.access ep) (req_action request)).
Definition endpoint_denies (ep : NetworkEndpoint) (request : L7RequestInfo) : Prop :=
  ∃ a, a ∈ Endpoint.deny_rules ep ∧ deny_covers a request.

(** The endpoints that have a say in a request. *)
Definition in_scope (p : SandboxPolicy) (identity : bool) (ctx : NetworkInput) (path : bytes)
  (ep : NetworkEndpoint) : Prop :=
  ∃ key rule, policies p !! key = Some rule ∧ ep ∈ endpoints rule
    ∧ selects ep (in_host ctx) (in_port ctx) ∧ authorizes_binary resolve identity rule (in_exec ctx)
    ∧ (Endpoint.path ep = [] ∨ EndpointPath.matches (EndpointPath.new (Endpoint.path ep)) path = true).

(** ** Matchers *)

Lemma query_value_accepts value m :
  Rego.query_value_matches value (OpaData.matcher_to_json m) = true ↔ accepts m value.
Proof.
  unfold Rego.query_value_matches, OpaData.matcher_to_json, accepts.
  rewrite text_default, items_default, orb_true_iff, andb_true_iff, negb_true_iff, is_empty_false,
    existsb_elem. done.
Qed.
Lemma method_covers actual expected :
  Rego.method_matches actual expected = true ↔ covers_method expected actual.
Proof.
  unfold Rego.method_matches, covers_method.
  rewrite !orb_true_iff, !andb_true_iff, negb_true_iff, !bool_decide_eq_true, bool_decide_eq_false.
  destruct (decide (expected = lit "*")); tauto.
Qed.
Lemma path_covers actual pattern :
  Rego.path_matches actual pattern = true
  ↔ pattern = lit "**" ∨ glob_match [lit "/"] pattern actual = true.
Proof.
  unfold Rego.path_matches.
  rewrite !orb_true_iff, !andb_true_iff, negb_true_iff, !bool_decide_eq_true, bool_decide_eq_false.
  destruct (decide (pattern = lit "**")); tauto.
Qed.
Lemma existsb_none {A} (f : A → bool) l : existsb f l = false ↔ ∀ x, x ∈ l → f x = false.
Proof.
  rewrite <- not_true_iff_false, existsb_elem. split.
  - intros H x Hx. apply not_true_is_false. intros Hf. apply H. by exists x.
  - intros H (x & Hx & Hf). by rewrite H in Hf.
Qed.
Lemma matchers_default m : default ∅ (OpaData.matchers_key m) = OpaData.matcher_to_json <$> m.
Proof.
  unfold OpaData.matchers_key, OpaData.key_if, OpaData.l7_matchers_to_json.
  case_bool_decide as Hm; [subst m; cbn; by rewrite fmap_empty|done].
Qed.
Lemma matchers_elem key j m :
  (key, j) ∈ map_to_list (default ∅ (OpaData.matchers_key m))
  ↔ ∃ q, m !! key = Some q ∧ j = OpaData.matcher_to_json q.
Proof.
  rewrite matchers_default, elem_of_map_to_list, lookup_fmap, fmap_Some. naive_solver.
Qed.

Lemma allow_query_covers request a :
  Rego.query_params_match (l7_request_policy_input request) (OpaData.allow_to_json a) = true
  ↔ ∀ key m, L7Allow.query a !! key = Some m → ∃ values, req_query_params request !! key = Some values
      ∧ values ≠ [] ∧ ∀ value, value ∈ values → accepts m value.
Proof.
  unfold Rego.query_params_match. rewrite negb_true_iff, existsb_none.
  cbn [OpaData.allow_to_json RuleJson.query l7_request_policy_input RequestInput.query_params].
  assert (∀ key m, Rego.query_key_matches (req_query_params request) key (OpaData.matcher_to_json m) = true
            ↔ ∃ values, req_query_params request !! key = Some values
                ∧ values ≠ [] ∧ ∀ value, value ∈ values → accepts m value) as Hk.
  { intros key m. unfold Rego.query_key_matches.
    destruct (req_query_params request !! key) as [values|]; [|naive_solver].
    rewrite andb_true_iff, !negb_true_iff, is_empty_false, existsb_none.
    setoid_rewrite negb_false_iff. setoid_rewrite query_value_accepts. naive_solver. }
  split.
  - intros H key m Hm. apply Hk. apply negb_false_iff. apply (H (key, OpaData.matcher_to_json m)).
    apply matchers_elem. by exists m.
  - intros H [key j] (m & Hm & ->)%matchers_elem. apply negb_false_iff, Hk. by apply H.
Qed.
Lemma deny_query_covers request a :
  Rego.deny_query_params_match (l7_request_policy_input request) (OpaData.allow_to_json a) = true
  ↔ ∀ key m, L7Allow.query a !! key = Some m → ∃ values, req_query_params request !! key = Some values
      ∧ (values = [] ∨ ∃ value, value ∈ values ∧ accepts m value).
Proof.
  unfold Rego.deny_query_params_match.
  cbn [OpaData.allow_to_json RuleJson.query l7_request_policy_input RequestInput.query_params].
  set (rules := map_to_list (default ∅ (OpaData.matchers_key (L7Allow.query a)))).
  transitivity (∀ key m, L7Allow.query a !! key = Some m →
    negb (is_some (req_query_params request !! key)) = false
    ∧ negb (is_empty (default [] (req_query_params request !! key)))
      && negb (existsb (λ value, Rego.query_value_matches value (OpaData.matcher_to_json m))
                 (default [] (req_query_params request !! key))) = false).
  - rewrite orb_true_iff, !andb_true_iff, !negb_true_iff, !existsb_none, is_empty_true. split.
    + intros H key m Hm. assert ((key, OpaData.matcher_to_json m) ∈ rules) as Hin
        by (apply matchers_elem; by exists m).
      destruct H as [H|[[_ H1] H2]]; [rewrite H in Hin; by apply elem_of_nil in Hin|].
      split; [exact (H1 _ Hin)|exact (H2 _ Hin)].
    + intros H. destruct (decide (rules = [])); [by left|right]. rewrite is_empty_false.
      split_and!; [done|intros [key j] (m & Hm & ->)%matchers_elem; by apply (H key m)..].
  - apply forall_proper. intros key. apply forall_proper. intros m. apply imp_iff_compat_l.
    destruct (req_query_params request !! key) as [values|]; cbn [is_some default from_option id negb];
      [|naive_solver].
    rewrite andb_false_iff, !negb_false_iff, is_empty_true, existsb_elem.
    setoid_rewrite query_value_accepts. naive_solver.
Qed.

(** ** REST endpoints *)

Lemma target_covers a method path :
  (match RuleJson.method (OpaData.allow_to_json a), RuleJson.path (OpaData.allow_to_json a) with
   | Some m, Some q => Rego.method_matches method m && Rego.path_matches path q
   | _, _ => false
   end) = true ↔ covers_target a method path.
Proof.
  cbn [OpaData.allow_to_json RuleJson.method RuleJson.path]. unfold covers_target.
  rewrite <- method_covers, <- path_covers.
  destruct (L7Allow.method a) as [|c m]; cbn [OpaData.text OpaData.key_if is_empty negb]; [naive_solver|].
  destruct (L7Allow.path a) as [|d q]; cbn [OpaData.text OpaData.key_if is_empty negb]; [naive_solver|].
  rewrite andb_true_iff. naive_solver.
Qed.
Lemma allow_rule_covers a request :
  (match RuleJson.method (OpaData.allow_to_json a), RuleJson.path (OpaData.allow_to_json a) with
   | Some m, Some q => Rego.method_matches (req_action request) m && Rego.path_matches (req_target request) q
       && Rego.query_params_match (l7_request_policy_input request) (OpaData.allow_to_json a)
   | _, _ => false
   end) = true ↔ allow_covers a request.
Proof.
  unfold allow_covers. rewrite <- allow_query_covers, <- target_covers.
  destruct (RuleJson.method _); [|naive_solver]. destruct (RuleJson.path _); [|naive_solver].
  by rewrite andb_true_iff.
Qed.
Lemma deny_rule_covers a request :
  (match RuleJson.method (OpaData.allow_to_json a), RuleJson.path (OpaData.allow_to_json a) with
   | Some m, Some q => Rego.method_matches (req_action request) m && Rego.path_matches (req_target request) q
       && Rego.deny_query_params_match (l7_request_policy_input request) (OpaData.allow_to_json a)
   | _, _ => false
   end) = true ↔ deny_covers a request.
Proof.
  unfold deny_covers. rewrite <- deny_query_covers, <- target_covers.
  destruct (RuleJson.method _); [|naive_solver]. destruct (RuleJson.path _); [|naive_solver].
  by rewrite andb_true_iff.
Qed.

(** The names of the methods are their own upper case. *)
Lemma upper_names name :
  name ∈ [lit "GET"; lit "HEAD"; lit "OPTIONS"; lit "POST"; lit "PUT"; lit "PATCH"] → upper name = name.
Proof.
  intros Hn. rewrite upper_ascii.
  - rewrite !elem_of_cons, elem_of_nil in Hn. by destruct Hn as [->|[->|[->|[->|[->|[->|[]]]]]]].
  - rewrite !elem_of_cons, elem_of_nil in Hn.
    destruct Hn as [->|[->|[->|[->|[->|[->|[]]]]]]]; by apply (bool_decide_unpack _).
Qed.
Lemma covers_name names actual :
  names ⊆ [lit "GET"; lit "HEAD"; lit "OPTIONS"; lit "POST"; lit "PUT"; lit "PATCH"] →
  lit "HEAD" ∈ names →
  (∃ name, name ∈ names ∧ covers_method name actual) ↔ upper actual ∈ names.
Proof.
  intros Hsub Hhead. split.
  - intros (name & Hn & [->|[Hu|[Hu _]]]).
    + apply Hsub in Hn. rewrite !elem_of_cons, elem_of_nil in Hn. naive_solver.
    + rewrite (upper_names name) in Hu by exact (Hsub _ Hn). by rewrite Hu.
    + by rewrite Hu.
  - intros Hin. exists (upper actual). split; [done|]. right; left.
    symmetry. apply upper_names. exact (Hsub _ Hin).
Qed.

(** The preset of an endpoint without rules. *)
Definition preset_rules (access : Z) : list RuleJson.t :=
  match OpaData.mode_to_json network_access_preset_to_str access with
  | Some name => default [] (OpaData.access_preset_rules (lit "rest") name)
  | None => []
  end.
Definition preset_methods (access : Z) : list bytes :=
  if access =? 1 then [lit "GET"; lit "HEAD"; lit "OPTIONS"]
  else if access =? 2 then [lit "GET"; lit "HEAD"; lit "OPTIONS"; lit "POST"; lit "PUT"; lit "PATCH"]
  else if access =? 3 then [lit "*"] else [].
Lemma preset_rules_methods access :
  access ∈ [0; 1; 2; 3] →
  preset_rules access = map (λ m, OpaData.rule_json m (lit "**")) (preset_methods access).
Proof. rewrite !elem_of_cons, elem_of_nil. by intros [->|[->|[->|[->|[]]]]]; vm_compute. Qed.
Lemma preset_methods_cover access method :
  access ∈ [0; 1; 2; 3] →
  (∃ name, name ∈ preset_methods access ∧ covers_method name method) ↔ preset_covers access method.
Proof.
  unfold preset_covers. intros Ha. rewrite !elem_of_cons, elem_of_nil in Ha.
  destruct Ha as [->|[->|[->|[->|[]]]]].
  - cbn. setoid_rewrite elem_of_nil. naive_solver.
  - rewrite (covers_name (preset_methods 1)); [|by apply (bool_decide_unpack _)|by apply (bool_decide_unpack _)].
    split; [intros H; left; split; [done|exact H]|]. by intros [[_ ?]|[[? _]|?]].
  - rewrite (covers_name (preset_methods 2)); [|done|by apply (bool_decide_unpack _)].
    split; [intros H; right; left; split; [done|exact H]|]. by intros [[? _]|[[_ ?]|?]].
  - split; [naive_solver|]. intros _. exists (lit "*"). split; [left|by left].
Qed.
Lemma preset_rules_cover access request :
  access ∈ [0; 1; 2; 3] →
  existsb (λ rule, match RuleJson.method rule, RuleJson.path rule with
                   | Some m, Some q => Rego.method_matches (req_action request) m
                       && Rego.path_matches (req_target request) q
                       && Rego.query_params_match (l7_request_policy_input request) rule
                   | _, _ => false
                   end) (preset_rules access) = true
  ↔ preset_covers access (req_action request).
Proof.
  intros Ha. rewrite <- preset_methods_cover by done. rewrite preset_rules_methods by done.
  rewrite existsb_elem. split.
  - intros (rule & Hr & Hm). apply (list_elem_of_fmap (λ m, OpaData.rule_json m (lit "**"))) in Hr as (m & -> & Hr).
    cbn [OpaData.rule_json RuleJson.method RuleJson.path] in Hm. rewrite !andb_true_iff in Hm.
    exists m. split; [done|]. by apply method_covers, Hm.
  - intros (m & Hm & Hc). exists (OpaData.rule_json m (lit "**")).
    split; [apply (list_elem_of_fmap (λ m, OpaData.rule_json m (lit "**"))); by exists m|].
    cbn [OpaData.rule_json RuleJson.method RuleJson.path]. rewrite (proj2 (method_covers _ _) Hc). done.
Qed.

Lemma loaded_projected p ep :
  loaded p ep = OpaData.expand_endpoint (OpaData.normalize_l7_rules_aliases
                  (OpaData.normalize_protocol (projected policy_hash endpoint_id p ep))).
Proof. unfold loaded_endpoint, projected. reflexivity. Qed.
Lemma projected_rules p ep :
  EndpointJson.rules (projected policy_hash endpoint_id p ep)
  = OpaData.items (map OpaData.rule_to_json (Endpoint.rules ep))
  ∧ EndpointJson.deny_rules (projected policy_hash endpoint_id p ep)
    = OpaData.items (map OpaData.allow_to_json (Endpoint.deny_rules ep)).
Proof. unfold projected. rewrite canonical_endpoint_mcp. by destruct ep. Qed.

Lemma normalize_items {A} (f : A → RuleJson.t) normalize l :
  (∀ a, normalize (f a) = f a) →
  map normalize <$> OpaData.items (map f l) = OpaData.items (map f l).
Proof.
  intros H. unfold OpaData.items, OpaData.key_if. destruct (negb _); [|done].
  cbn [fmap option_fmap option_map]. f_equal. rewrite map_map. by apply map_ext.
Qed.
Lemma normalize_rest_rule allow_all r :
  OpaData.normalize_l7_rule_aliases (lit "rest") allow_all (OpaData.rule_to_json r)
  = OpaData.rule_to_json r.
Proof. destruct r as [a|]; [by apply normalize_rule_id|done]. Qed.

Lemma loaded_rest p ep :
  L7Protocol_parse (Endpoint.protocol ep) = Some Rest → Endpoint.access ep ∈ [0; 1; 2; 3] →
  EndpointJson.protocol (loaded p ep) = Some (lit "rest")
  ∧ default [] (EndpointJson.deny_rules (loaded p ep)) = map OpaData.allow_to_json (Endpoint.deny_rules ep)
  ∧ default [] (EndpointJson.rules (loaded p ep))
    = (if is_empty (Endpoint.rules ep) then preset_rules (Endpoint.access ep)
       else map OpaData.rule_to_json (Endpoint.rules ep)).
Proof.
  intros Hp Ha. destruct (projected_modes policy_hash endpoint_id p ep) as (_ & Ka & _ & _ & _ & _ & Kp).
  destruct (projected_rules p ep) as [Kr Kd].
  assert (OpaData.text (Endpoint.protocol ep) = Some (Endpoint.protocol ep)) as Ht
    by (by destruct (Endpoint.protocol ep)).
  rewrite Ht in Kp. destruct (rest_endpoint_rules _ _ Kp Hp) as (Jp & Jd & Jr).
  rewrite loaded_projected, Jp, Jd, Jr, Kd, Kr, Ka.
  rewrite !(normalize_items OpaData.rule_to_json) by apply normalize_rest_rule.
  rewrite normalize_items by (intros a; by apply normalize_rule_id). rewrite !items_default.
  split_and!; [done..|]. unfold preset_rules.
  destruct (Endpoint.rules ep) as [|r rules]; cbn [map is_empty negb].
  - rewrite orb_false_r. rewrite !elem_of_cons, elem_of_nil in Ha.
    by destruct Ha as [->|[->|[->|[->|[]]]]].
  - by rewrite orb_true_r.
Qed.

(** A request of the HTTP relay: neither GraphQL nor JSON-RPC. *)
Definition plain (request : L7RequestInfo) : Prop :=
  req_graphql request = None ∧ req_jsonrpc request = None.

Lemma rest_protocols j name :
  EndpointJson.protocol j = Some (lit "rest") → bool_decide (lit "rest" = name) = false →
  Rego.has_protocol j name = false.
Proof.
  unfold Rego.has_protocol. intros -> Hn%bool_decide_eq_false. apply bool_decide_eq_false. congruence.
Qed.

Lemma rest_allowed_by_rules j request :
  EndpointJson.protocol j = Some (lit "rest") → plain request →
  Rego.request_allowed_for_endpoint (l7_request_policy_input request) j
  = existsb (λ rule, match RuleJson.method rule, RuleJson.path rule with
                     | Some m, Some q => Rego.method_matches (req_action request) m
                         && Rego.path_matches (req_target request) q
                         && Rego.query_params_match (l7_request_policy_input request) rule
                     | _, _ => false
                     end) (default [] (EndpointJson.rules j)).
Proof.
  intros Hp [Hg Hj]. unfold Rego.request_allowed_for_endpoint, Rego.rest_rule_allows,
    Rego.jsonrpc_rule_allows, Rego.mcp_method_allows, Rego.mcp_response_allows,
    Rego.mcp_stream_allows, Rego.jsonrpc_family_endpoint.
  rewrite !(rest_protocols j) by done. cbn [orb andb negb].
  assert (Rego.command_rule_allows (l7_request_policy_input request) j = false) as ->.
  { unfold Rego.command_rule_allows. by apply existsb_none. }
  unfold Rego.graphql_request_allowed, Rego.graphql_request_has_operations, Rego.graphql_operations.
  cbn [l7_request_policy_input RequestInput.graphql]. rewrite Hg. by rewrite !orb_false_r.
Qed.
Lemma rest_denied_by_rules j request :
  EndpointJson.protocol j = Some (lit "rest") → plain request →
  Rego.request_denied_for_endpoint (l7_request_policy_input request) j
  = existsb (λ rule, match RuleJson.method rule, RuleJson.path rule with
                     | Some m, Some q => Rego.method_matches (req_action request) m
                         && Rego.path_matches (req_target request) q
                         && Rego.deny_query_params_match (l7_request_policy_input request) rule
                     | _, _ => false
                     end) (default [] (EndpointJson.deny_rules j)).
Proof.
  intros Hp [Hg Hj]. unfold Rego.request_denied_for_endpoint, Rego.rest_rule_denies,
    Rego.jsonrpc_rule_denies, Rego.jsonrpc_response_denied, Rego.graphql_authority_denies,
    Rego.jsonrpc_family_endpoint.
  rewrite !(rest_protocols j) by done. cbn [orb andb negb].
  assert (Rego.command_rule_denies (l7_request_policy_input request) j = false) as ->.
  { unfold Rego.command_rule_denies. by apply existsb_none. }
  unfold Rego.graphql_rule_denies, Rego.graphql_request_has_operations, Rego.graphql_operations.
  cbn [l7_request_policy_input RequestInput.graphql]. rewrite Hg. by rewrite !orb_false_r.
Qed.

Lemma loaded_rest_allows p ep request :
  L7Protocol_parse (Endpoint.protocol ep) = Some Rest → Endpoint.access ep ∈ [0; 1; 2; 3] →
  plain request →
  Rego.request_allowed_for_endpoint (l7_request_policy_input request) (loaded p ep) = true
  ↔ endpoint_covers ep request.
Proof.
  intros Hp Ha Hplain. destruct (loaded_rest p ep Hp Ha) as (Jp & _ & Jr).
  rewrite rest_allowed_by_rules, Jr by done. unfold endpoint_covers.
  destruct (Endpoint.rules ep) as [|r rules]; cbn [is_empty].
  - rewrite preset_rules_cover by done. split; [intros H; right; split; [done|exact H]|].
    intros [(a & Hin & _)|[_ H]]; [by apply elem_of_nil in Hin|exact H].
  - rewrite existsb_elem. split.
    + intros (j & Hj & Hm). left.
      apply (list_elem_of_fmap OpaData.rule_to_json) in Hj as ([a|] & -> & Hin); [|done].
      exists a. split; [done|]. by apply allow_rule_covers.
    + intros [(a & Hin & Hc)|[? _]]; [|done]. exists (OpaData.allow_to_json a). split.
      * apply (list_elem_of_fmap OpaData.rule_to_json). by exists (Some a).
      * by apply allow_rule_covers.
Qed.
Lemma loaded_rest_denies p ep request :
  L7Protocol_parse (Endpoint.protocol ep) = Some Rest → Endpoint.access ep ∈ [0; 1; 2; 3] →
  plain request →
  Rego.request_denied_for_endpoint (l7_request_policy_input request) (loaded p ep) = true
  ↔ endpoint_denies ep request.
Proof.
  intros Hp Ha Hplain. destruct (loaded_rest p ep Hp Ha) as (Jp & Jd & _).
  rewrite rest_denied_by_rules, Jd by done. unfold endpoint_denies. rewrite existsb_elem. split.
  - intros (j & Hj & Hm). apply (list_elem_of_fmap OpaData.allow_to_json) in Hj as (a & -> & Hin).
    exists a. split; [done|]. by apply deny_rule_covers.
  - intros (a & Hin & Hc). exists (OpaData.allow_to_json a). split; [|by apply deny_rule_covers].
    apply (list_elem_of_fmap OpaData.allow_to_json). by exists a.
Qed.

(** ** Decisions on requests *)

Section decided.
Context {faults : RegoFaults} {Registry : Type} (p : SandboxPolicy) (identity : bool) (data : OpaData)
  (Hload : OpaData.from_proto policy_hash endpoint_id resolve p identity = Ok data)
  (ctx : NetworkInput).
Local Abbreviation deny input := (Rego.deny_request data (in_host ctx) (in_port ctx) (in_exec ctx) input).
Local Abbreviation admitted input :=
  (Rego.admitted_l7_endpoints data (in_host ctx) (in_port ctx) (in_exec ctx) input).

Lemma matches_in_scope input ep :
  Rego.endpoint_matches_l7_request (in_host ctx) (in_port ctx) input (loaded p ep) = true
  ↔ selects ep (in_host ctx) (in_port ctx)
    ∧ (Endpoint.path ep = []
       ∨ EndpointPath.matches (EndpointPath.new (Endpoint.path ep)) (RequestInput.path input) = true).
Proof using resolve.
  unfold Rego.endpoint_matches_l7_request, Rego.endpoint_path_matches_request.
  destruct (loaded_keys policy_hash endpoint_id p ep) as (_ & _ & _ & _ & _ & ->). rewrite text_default.
  rewrite andb_true_iff, (matches_selects policy_hash endpoint_id resolve), orb_true_iff,
    andb_true_iff, negb_true_iff, is_empty_true, is_empty_false.
  destruct (decide (Endpoint.path ep = [])); tauto.
Qed.

Lemma deny_request_iff input :
  deny input = true ↔ ∃ ep, in_scope p identity ctx (RequestInput.path input) ep
                           ∧ Rego.request_denied_for_endpoint input (loaded p ep) = true.
Proof using Hload.
  destruct (from_proto_Ok _ _ _ _ _ _ Hload) as (_ & Hi & _ & _).
  unfold Rego.deny_request, Rego.policy_denies_l7, in_scope. rewrite existsb_elem. split.
  - intros ([key q] & Hq & Hd). apply (loaded_elem _ _ _ _ _ _ Hload) in Hq as (rule & Hr & ->).
    apply andb_true_iff in Hd as [[_ Hb]%andb_true_iff Hd]. rewrite binary_authorized, Hi in Hb.
    apply existsb_elem in Hd as (j & Hj & [Hm Hd]%andb_true_iff). cbn [loaded_policy pj_endpoints] in Hj.
    apply (list_elem_of_fmap (loaded p)) in Hj as (ep & -> & He). apply matches_in_scope in Hm as [Hs Hm].
    exists ep. split; [by exists key, rule|done].
  - intros (ep & (key & rule & Hr & He & Hs & Hb & Hm) & Hd).
    exists (key, loaded_policy policy_hash endpoint_id resolve p rule).
    split; [apply (loaded_elem _ _ _ _ _ _ Hload); by exists rule|].
    rewrite !andb_true_iff, binary_authorized, Hi. split_and!; [|done|].
    + apply allowed_selects. by exists ep.
    + apply existsb_elem. exists (loaded p ep). cbn [loaded_policy pj_endpoints]. split.
      * apply (list_elem_of_fmap (loaded p)). by exists ep.
      * rewrite andb_true_iff, matches_in_scope. done.
Qed.

Lemma admitted_elem input j :
  j ∈ admitted input ↔ deny input = false
    ∧ ∃ ep, in_scope p identity ctx (RequestInput.path input) ep ∧ j = loaded p ep
      ∧ Rego.request_allowed_for_endpoint input (loaded p ep) = true.
Proof using Hload.
  destruct (from_proto_Ok _ _ _ _ _ _ Hload) as (_ & Hi & _ & _).
  unfold Rego.admitted_l7_endpoints. destruct (deny input).
  { rewrite elem_of_nil. naive_solver. }
  rewrite list_elem_of_In, in_flat_map. unfold in_scope, Rego.policy_allowed_l7_endpoints. split.
  - intros ([key q] & [Hq Hb]%filter_In & [Hj Ha]%filter_In). split; [done|].
    apply list_elem_of_In, (loaded_elem _ _ _ _ _ _ Hload) in Hq as (rule & Hr & ->).
    rewrite binary_authorized, Hi in Hb. cbn [loaded_policy pj_endpoints] in Hj.
    apply list_elem_of_In, (list_elem_of_fmap (loaded p)) in Hj as (ep & -> & He).
    apply andb_true_iff in Ha as [[Hs Hm]%matches_in_scope Ha].
    exists ep. split_and!; [by exists key, rule|done..].
  - intros [_ (ep & (key & rule & Hr & He & Hs & Hb & Hm) & -> & Ha)].
    exists (key, loaded_policy policy_hash endpoint_id resolve p rule). rewrite !filter_In, <- !list_elem_of_In.
    split_and!.
    + apply (loaded_elem _ _ _ _ _ _ Hload). by exists rule.
    + by rewrite binary_authorized, Hi.
    + apply (list_elem_of_fmap (loaded p)). by exists ep.
    + rewrite andb_true_iff, matches_in_scope. done.
Qed.

Lemma loaded_semantics ep key rule :
  policies p !! key = Some rule → ep ∈ endpoints rule →
  validate_l7_endpoint_semantics (fields_of ep) = [] ∧ Endpoint.access ep ∈ [0; 1; 2; 3].
Proof using Hload.
  intros Hr He. destruct (from_proto_Ok _ _ _ _ _ _ Hload) as (Hv & _).
  apply list_elem_of_lookup in He as [i He].
  pose proof (accepted_endpoint _ _ _ _ _ _ Hv Hr He) as Ha. unfold endpoint_violations in Ha.
  rewrite !app_nil_iff, map_nil_iff in Ha. destruct Ha as (_ & _ & _ & _ & Hl7 & _).
  by apply l7_errors_nil in Hl7 as (? & (_ & _ & Hacc) & _).
Qed.
Lemma loaded_access ep key rule :
  policies p !! key = Some rule → ep ∈ endpoints rule → Endpoint.access ep ∈ [0; 1; 2; 3].
Proof using Hload. apply loaded_semantics. Qed.
Lemma preset_excludes_rules ep key rule :
  policies p !! key = Some rule → ep ∈ endpoints rule → Endpoint.access ep ≠ 0 → Endpoint.rules ep = [].
Proof using Hload.
  intros Hr He H0. destruct (loaded_semantics _ _ _ Hr He) as [Hs Ha].
  destruct (semantics_nil _ Hs) as (_ & _ & Hx & _). cbn [fields_of f_access has_rules] in Hx.
  rewrite (access_name_empty _ Ha) in Hx. destruct (Endpoint.rules ep); [done|].
  by apply Z.eqb_eq in Hx.
Qed.

Section rest.
Context (request : L7RequestInfo) (Hplain : plain request)
  (Hrest : ∀ ep, in_scope p identity ctx (req_target request) ep →
                 L7Protocol_parse (Endpoint.protocol ep) = Some Rest).

Lemma rest_deny_iff :
  deny (l7_request_policy_input request) = true
  ↔ ∃ ep, in_scope p identity ctx (req_target request) ep ∧ endpoint_denies ep request.
Proof using Hload Hplain Hrest.
  rewrite deny_request_iff. apply exist_proper. intros ep.
  split; intros [Hs Hd]; (split; [done|]); pose proof Hs as (key & rule & Hr & He & _);
    eapply (loaded_rest_denies p ep request); eauto using loaded_access.
Qed.
Lemma rest_admitted_iff :
  is_empty (admitted (l7_request_policy_input request)) = false
  ↔ deny (l7_request_policy_input request) = false
    ∧ ∃ ep, in_scope p identity ctx (req_target request) ep ∧ endpoint_covers ep request.
Proof using Hload Hplain Hrest.
  rewrite is_empty_false. split.
  - intros Hne. destruct (admitted _) as [|j l] eqn:Hj; [done|].
    assert (j ∈ admitted (l7_request_policy_input request)) as Hin by (rewrite Hj; left).
    apply admitted_elem in Hin as (Hd & ep & Hs & -> & Ha). split; [done|]. exists ep. split; [done|].
    pose proof Hs as (key & rule & Hr & He & _).
    eapply (loaded_rest_allows p ep request); eauto using loaded_access.
  - intros (Hd & ep & Hs & Hc). intros Hnil. cut (loaded p ep ∈ []); [by intros ?%elem_of_nil|].
    rewrite <- Hnil. apply admitted_elem. split; [done|]. exists ep. pose proof Hs as (key & rule & Hr & He & _). split_and!; [done..|].
    eapply (loaded_rest_allows p ep request); eauto using loaded_access.
Qed.
Lemma plain_reasons :
  Rego.request_deny_reasons data (in_host ctx) (in_port ctx) (in_exec ctx) (l7_request_policy_input request)
  = (if deny (l7_request_policy_input request)
     then [Rego.BlockedByDenyRule (req_action request) (req_target request)]
     else if is_empty (admitted (l7_request_policy_input request))
          then [Rego.NotPermitted (req_action request) (req_target request)] else []).
Proof using Hplain.
  destruct Hplain as [Hg Hj]. unfold Rego.request_deny_reasons, Rego.graphql_request_error,
    Rego.graphql_request_has_operations, Rego.graphql_operations, Rego.jsonrpc_response_frame_present,
    Rego.mcp_policy_request, Rego.graphql_request_has_unregistered_persisted_query, Rego.allow_request,
    Rego.graphql_operations, Rego.jsonrpc_response_frame_present.
  cbn [l7_request_policy_input RequestInput.graphql RequestInput.jsonrpc RequestInput.method
       RequestInput.path]. rewrite Hg, Hj.
  destruct (Rego.matched_endpoint_config data _ _ _), (deny _) eqn:Hd;
    try (destruct (is_empty (admitted _)) eqn:He); rewrite ?andb_false_r; done.
Qed.
End rest.

Lemma evaluate_plain (t : TunnelPolicyEngine Registry) request :
  plain request → tunnel_data t = data →
  request_fault data (in_host ctx) (in_port ctx) (in_exec ctx) (l7_request_policy_input request) = false →
  OpaEngine.evaluate_l7_request t (captured_generation t) ctx request
  = Ok (if deny (l7_request_policy_input request)
        then (false, Some (Rego.BlockedByDenyRule (req_action request) (req_target request)))
        else if is_empty (admitted (l7_request_policy_input request))
             then (false, Some (Rego.NotPermitted (req_action request) (req_target request)))
             else (true, None)).
Proof using.
  intros Hplain Hdata Hfault. pose proof (plain_reasons request Hplain) as Hreasons.
  destruct Hplain as [Hg Hj]. destruct ctx as [host port exec].
  unfold OpaEngine.evaluate_l7_request, OpaEngine.batch_calls. rewrite Hj. cbn [mbind option_bind].
  unfold OpaEngine.evaluate_l7_request_once. rewrite Z.eqb_refl. cbn [negb].
  cbn [in_host in_port in_exec] in *. rewrite Hdata, Hfault. unfold Rego.request_deny_reason.
  rewrite Hreasons. unfold Rego.allow_request.
  assert (Rego.deny_request data host port exec (l7_request_policy_input request) = true →
          Rego.admitted_l7_endpoints data host port exec (l7_request_policy_input request) = []) as Hd
    by (unfold Rego.admitted_l7_endpoints; by intros ->).
  destruct (Rego.deny_request data host port exec _); [by rewrite Hd|].
  by destruct (is_empty (Rego.admitted_l7_endpoints data host port exec _)).
Qed.

(** C7: the decision on a request to REST endpoints is the policy's. On a
    tunnel of the loaded policy that is not stale, when every endpoint with a
    say in a plain HTTP request is of the REST protocol, the request is
    allowed exactly when a rule or a preset of such an endpoint covers it and
    none of their deny rules does; a deny rule wins over every allow rule, and
    the reason of a refusal says which of the two it was. *)
Theorem rest_request_decision_exact (t : TunnelPolicyEngine Registry) request
  (Hdata : tunnel_data t = data)
  (Hfault : request_fault data (in_host ctx) (in_port ctx) (in_exec ctx)
              (l7_request_policy_input request) = false)
  (Hplain : plain request)
  (Hrest : ∀ ep, in_scope p identity ctx (req_target request) ep →
                 L7Protocol_parse (Endpoint.protocol ep) = Some Rest) :
  ∃ allowed reason,
    OpaEngine.evaluate_l7_request t (captured_generation t) ctx request = Ok (allowed, reason)
    ∧ (allowed = true ↔
         (∃ ep, in_scope p identity ctx (req_target request) ep ∧ endpoint_covers ep request)
         ∧ ∀ ep, in_scope p identity ctx (req_target request) ep → ¬ endpoint_denies ep request)
    ∧ (allowed = false → reason = Some (Rego.BlockedByDenyRule (req_action request) (req_target request))
         ↔ ∃ ep, in_scope p identity ctx (req_target request) ep ∧ endpoint_denies ep request).
Proof using Hload.
  rewrite evaluate_plain by done.
  pose proof (rest_deny_iff request Hplain Hrest) as Hd.
  pose proof (rest_admitted_iff request Hplain Hrest) as Ha.
  destruct (deny (l7_request_policy_input request)).
  { destruct (proj1 Hd eq_refl) as (ep & ? & ?). eexists _, _. split_and!; [done|split; [done|]|].
    - intros [_ Hnone]. by destruct (Hnone ep).
    - intros _. split; [intros _; by exists ep|done]. }
  assert (∀ ep, in_scope p identity ctx (req_target request) ep → ¬ endpoint_denies ep request) as Hn.
  { intros ep ??. discriminate (proj2 Hd). by exists ep. }
  destruct (is_empty (admitted (l7_request_policy_input request))); eexists _, _; split_and!; try done.
  - split; [done|]. intros [Hc _]. discriminate (proj2 Ha). by split.
  - intros _. split; [done|]. intros (ep & ? & ?). by destruct (Hn ep).
  - split; [|done]. intros _. split; [|done]. by apply Ha.
Qed.

(** C33: a read-only endpoint carries no write. When every endpoint with a say
    in a plain HTTP request has the REST protocol and the preset [read-only],
    a request that the policy allows has the method GET, HEAD or OPTIONS, in
    any case. *)
Theorem read_only_allows_no_write (t : TunnelPolicyEngine Registry) request reason
  (Hdata : tunnel_data t = data)
  (Hplain : plain request)
  (Hread : ∀ ep, in_scope p identity ctx (req_target request) ep →
     L7Protocol_parse (Endpoint.protocol ep) = Some Rest ∧ Endpoint.access ep = 1)
  (Hallow : OpaEngine.evaluate_l7_request t (captured_generation t) ctx request = Ok (true, reason)) :
  upper (req_action request) ∈ [lit "GET"; lit "HEAD"; lit "OPTIONS"].
Proof using Hload.
  assert (request_fault data (in_host ctx) (in_port ctx) (in_exec ctx)
            (l7_request_policy_input request) = false) as Hfault.
  { apply not_true_is_false. intros Hf. destruct Hplain as [Hg Hj]. destruct ctx as [host port exec].
    unfold OpaEngine.evaluate_l7_request, OpaEngine.batch_calls in Hallow. rewrite Hj in Hallow.
    cbn [mbind option_bind] in Hallow. unfold OpaEngine.evaluate_l7_request_once in Hallow.
    rewrite Z.eqb_refl in Hallow. cbn [negb in_host in_port in_exec] in *.
    by rewrite Hdata, Hf in Hallow. }
  rewrite evaluate_plain in Hallow by done.
  pose proof (rest_admitted_iff request Hplain (λ ep H, proj1 (Hread ep H))) as Ha.
  destruct (deny _); [done|]. destruct (is_empty (admitted _)); [done|].
  destruct (proj1 Ha eq_refl) as (_ & ep & Hs & Hc). destruct (Hread _ Hs) as [Hp H1].
  destruct Hs as (key & rule & Hr & He & _).
  destruct Hc as [(a & Hin & _)|[_ [[_ Hm]|[[? _]|?]]]]; [|done|lia..].
  rewrite (preset_excludes_rules _ _ _ Hr He) in Hin by lia. by apply elem_of_nil in Hin.
Qed.
End decided.
End requests.

(** ** Evaluations *)

Section evaluation.
Context {rego : RegoBuiltins} {glob : Glob} {faults : RegoFaults} {Registry : Type}
  (t : TunnelPolicyEngine Registry) (current : Z) (ctx : NetworkInput).
Local Abbreviation once := (OpaEngine.evaluate_l7_request_once t current ctx).

(** The requests an evaluation asks the engine about. *)
Definition parts (request : L7RequestInfo) : list L7RequestInfo :=
  match OpaEngine.batch_calls request with
  | Some (info, calls) => (if info_has_response info then [request] else [])
                          ++ map (jsonrpc_request_for_call request) calls
  | None => [request]
  end.

Lemma once_allowed request r : once request = Ok (true, r) → r = None.
Proof.
  unfold OpaEngine.evaluate_l7_request_once. destruct ctx as [host port exec].
  repeat case_match; naive_solver.
Qed.
Lemma calls_allowed request l :
  (∀ call, call ∈ l → once (jsonrpc_request_for_call request call) = Ok (true, None)) →
  OpaEngine.evaluate_calls t current ctx request l = Ok (true, None).
Proof.
  induction l as [|call l IH]; [done|]. intros H. cbn [OpaEngine.evaluate_calls].
  rewrite H by left. cbn. apply IH. intros c Hc. apply H. by right.
Qed.
Lemma parts_allowed request :
  (∀ part, part ∈ parts request → once part = Ok (true, None)) →
  OpaEngine.evaluate_l7_request t current ctx request = Ok (true, None).
Proof.
  unfold parts, OpaEngine.evaluate_l7_request.
  destruct (OpaEngine.batch_calls request) as [[info l]|]; [|intros H; apply H; left].
  setoid_rewrite elem_of_app. setoid_rewrite list_elem_of_fmap. intros H.
  assert (OpaEngine.evaluate_calls t current ctx request l = Ok (true, None)) as Hl
    by (apply calls_allowed; intros call Hc; apply H; right; by exists call).
  destruct (info_has_response info); cbn; [|done].
  rewrite H by (left; left). done.
Qed.

(** ** Owners of token grants *)

Local Abbreviation owners_once := (OpaEngine.admitted_token_grant_owners_once t current ctx).
Local Abbreviation admitted_by request :=
  (Rego.admitted_l7_endpoints (tunnel_data t) (in_host ctx) (in_port ctx) (in_exec ctx)
     (l7_request_policy_input request)).

Lemma owners_once_Ok request owners owner :
  owners_once request = Ok owners → owner ∈ owners →
  once request = Ok (true, None)
  ∧ ∃ ep, ep ∈ admitted_by request ∧ EndpointJson.token_grant_owner ep = Some owner.
Proof.
  unfold OpaEngine.admitted_token_grant_owners_once, OpaEngine.evaluate_l7_request_once.
  destruct ctx as [host port exec]. cbn [in_host in_port in_exec].
  destruct (negb _); [done|]. destruct (request_fault _ _ _ _ _); [done|].
  intros Hs Hin. apply (inj Ok) in Hs as <-. apply elem_of_list_to_set, sort_by_elem in Hin.
  rewrite dedup_first_elem in Hin. apply list_elem_of_In, filter_In in Hin as [Hin Hne].
  apply list_elem_of_In in Hin.
  apply (list_elem_of_fmap (λ ep, default [] (EndpointJson.token_grant_owner ep))) in Hin as (ep & -> & Hep).
  unfold Rego.allow_request.
  split; [by destruct (Rego.admitted_l7_endpoints _ _ _ _ _); [apply elem_of_nil in Hep|]|].
  exists ep. split; [done|]. by destruct (EndpointJson.token_grant_owner ep).
Qed.

Lemma owners_of_calls_Ok request acc l o owner :
  OpaEngine.owners_of_calls t current ctx request acc l = Ok o → owner ∈ default ∅ o →
  from_option (λ owners, owner ∈ owners) True acc
  ∧ ∀ call, call ∈ l → ∃ owners, owners_once (jsonrpc_request_for_call request call) = Ok owners
                                ∧ owner ∈ owners.
Proof.
  revert acc. induction l as [|call l IH]; intros acc; cbn [OpaEngine.owners_of_calls].
  { intros Ho Hin. apply (inj Ok) in Ho as <-. split; [by destruct acc|]. by intros call ?%elem_of_nil. }
  rewrite let_Ok. intros (owners & Hc & Ho) Hin. destruct (IH _ Ho Hin) as [Hacc Hl].
  cbn in Hacc. destruct acc as [acc|]; [apply elem_of_intersection in Hacc as [Hacc Hx]|];
    (split; [done|]); intros c [->|]%elem_of_cons; eauto.
Qed.

Lemma owners_parts request owners owner part :
  OpaEngine.admitted_token_grant_owners t current ctx request = Ok owners → owner ∈ owners →
  part ∈ parts request → ∃ admitted, owners_once part = Ok admitted ∧ owner ∈ admitted.
Proof.
  unfold OpaEngine.admitted_token_grant_owners, parts.
  destruct (OpaEngine.batch_calls request) as [[info l]|].
  2: { intros Ho Hin ->%list_elem_of_singleton. eauto. }
  rewrite let_Ok. setoid_rewrite let_Ok. intros (acc & Ha & o & Ho & Hk) Hin.
  apply (inj Ok) in Hk as <-. destruct (owners_of_calls_Ok _ _ _ _ _ Ho Hin) as [Hacc Hl].
  rewrite elem_of_app, list_elem_of_fmap. intros [Hp|(call & -> & Hc)]; [|by apply Hl].
  destruct (info_has_response info); [|by apply elem_of_nil in Hp].
  apply list_elem_of_singleton in Hp as ->. apply let_Ok in Ha as (first & Hf & Hk).
  apply (inj Ok) in Hk as <-. eauto.
Qed.

(** ** The evaluation for the log *)

Lemma all_calls_agree request l :
  match OpaEngine.evaluate_all_calls t current ctx request l with
  | Ok verdicts => OpaEngine.evaluate_calls t current ctx request l
                   = Ok (default (true, None) (find (λ v, negb v.1) verdicts))
  | Err e => OpaEngine.evaluate_calls t current ctx request l = Err e
             ∨ ∃ reason, OpaEngine.evaluate_calls t current ctx request l = Ok (false, reason)
  end.
Proof.
  induction l as [|call l IH]; [done|].
  cbn [OpaEngine.evaluate_all_calls OpaEngine.evaluate_calls].
  destruct (once (jsonrpc_request_for_call request call)) as [[allowed reason]|e]; [|by left]. cbn.
  destruct (OpaEngine.evaluate_all_calls t current ctx request l) as [verdicts|e]; cbn.
  - by destruct allowed.
  - destruct allowed; [done|]. right. by exists reason.
Qed.

(** C35: the log shows the verdict that is enforced. The evaluation of the
    JSON-RPC relay, which visits every call of a batch, gives the verdict of
    the evaluation that stops at the first refusal; it differs only where a
    call after the refused one fails, and then the request is not allowed. *)
Theorem log_verdict_is_enforced request info (Hinfo : req_jsonrpc request = Some info) :
  match OpaEngine.evaluate_jsonrpc_l7_request_for_log t current ctx request info with
  | Ok verdict => OpaEngine.evaluate_l7_request t current ctx request = Ok verdict
  | Err e => OpaEngine.evaluate_l7_request t current ctx request = Err e
             ∨ ∃ reason, OpaEngine.evaluate_l7_request t current ctx request = Ok (false, reason)
  end.
Proof.
  unfold OpaEngine.evaluate_jsonrpc_l7_request_for_log, OpaEngine.evaluate_l7_request,
    OpaEngine.batch_calls. rewrite Hinfo. cbn [mbind option_bind].
  pose proof (all_calls_agree request (calls info)) as Hl.
  destruct (is_batch info && negb (is_empty (calls info))) eqn:Hb; cbn [negb orb].
  - destruct (info_has_response info).
    + destruct (once request) as [[[] reason]|e]; [cbn|done|by left].
      by destruct (OpaEngine.evaluate_all_calls t current ctx request (calls info)).
    + cbn. by destruct (OpaEngine.evaluate_all_calls t current ctx request (calls info)).
  - destruct (info_has_response info), (once request) as [[[] reason]|e]; cbn; by auto.
Qed.

(** ** Reasons *)

Lemma unregistered_has_operations request config :
  from_option (Rego.graphql_request_has_unregistered_persisted_query request) false config = true →
  Rego.graphql_request_has_operations request = true.
Proof.
  destruct config as [ep|]; [|done]. cbn. unfold Rego.graphql_request_has_unregistered_persisted_query,
    Rego.graphql_request_has_operations. by destruct (Rego.graphql_operations request).
Qed.
Lemma mcp_request_shape data request :
  Rego.mcp_policy_request data (in_host ctx) (in_port ctx) (in_exec ctx) request = true →
  Rego.graphql_request_has_operations request = false
  ∧ Rego.jsonrpc_response_frame_present request = false.
Proof.
  unfold Rego.mcp_policy_request. rewrite !andb_true_iff, !negb_true_iff. intros [[[[_ Hg] Hf] _] _].
  split; [|done]. unfold Rego.graphql_request_has_operations, Rego.graphql_operations.
  by destruct (RequestInput.graphql request).
Qed.

(** At most one body of the reason succeeds. *)
Lemma reasons_agree data request :
  Rego.graphql_request_error request = false →
  RequestInput.graphql request = None ∨ RequestInput.jsonrpc request = None →
  ∃ reason, Rego.request_deny_reason data (in_host ctx) (in_port ctx) (in_exec ctx) request = Ok reason.
Proof.
  intros Herr Hone. unfold Rego.request_deny_reason, Rego.request_deny_reasons. cbn zeta.
  rewrite Herr. cbn [push_if negb andb app].
  pose proof (unregistered_has_operations request
    (Rego.matched_endpoint_config data (in_host ctx) (in_port ctx) (in_exec ctx))) as Hu.
  pose proof (mcp_request_shape data request) as Hm.
  assert (Rego.graphql_request_has_operations request = true →
          Rego.jsonrpc_response_frame_present request = false) as Hf.
  { unfold Rego.graphql_request_has_operations, Rego.graphql_operations,
      Rego.jsonrpc_response_frame_present. by destruct Hone as [->| ->]. }
  destruct (from_option (Rego.graphql_request_has_unregistered_persisted_query request) false _);
    [rewrite (Hu eq_refl) in *|]; destruct (Rego.mcp_policy_request data _ _ _ request);
    try (destruct (Hm eq_refl) as [Ho Hr]; rewrite Ho, Hr in *);
    try destruct (Rego.graphql_request_has_operations request); try rewrite (Hf eq_refl) in *;
    try destruct (Rego.jsonrpc_response_frame_present request);
    destruct (Rego.deny_request data _ _ _ request), (Rego.allow_request data _ _ _ request); cbn [negb andb];
    rewrite ?andb_false_r, ?andb_true_r; cbn [push_if app];
    repeat case_bool_decide; cbn [negb andb push_if app]; try congruence;
    try destruct (from_option _ _ _); by eexists.
Qed.

Lemma once_no_conflict request :
  from_option graphql_error None (req_graphql request) = None →
  req_graphql request = None ∨ req_jsonrpc request = None →
  once request ≠ Err ReasonConflict.
Proof.
  intros Herr Hone. unfold OpaEngine.evaluate_l7_request_once.
  pose proof (reasons_agree (tunnel_data t) (l7_request_policy_input request)) as Hr.
  destruct ctx as [host port exec]. cbn [in_host in_port in_exec] in Hr.
  destruct (negb _); [done|]. destruct (request_fault _ _ _ _ _); [done|].
  destruct (Rego.allow_request _ _ _ _ _); [done|]. destruct Hr as [reason ->]; [| |done].
  - unfold Rego.graphql_request_error. cbn [l7_request_policy_input RequestInput.graphql].
    destruct (req_graphql request); [|done]. cbn in *. by rewrite Herr.
  - cbn [l7_request_policy_input RequestInput.graphql RequestInput.jsonrpc].
    destruct Hone as [->| ->]; [by left|by right].
Qed.

Lemma hard_deny_graphql protocol request :
  OpaEngine.l7_request_hard_deny_reason protocol request = None →
  from_option graphql_error None (req_graphql request) = None.
Proof.
  unfold OpaEngine.l7_request_hard_deny_reason. destruct (req_graphql request) as [g|]; [|done].
  cbn. by destruct (graphql_error g).
Qed.
Lemma parts_no_conflict protocol request part :
  OpaEngine.l7_request_hard_deny_reason protocol request = None →
  req_graphql request = None ∨ req_jsonrpc request = None →
  part ∈ parts request → once part ≠ Err ReasonConflict.
Proof.
  intros Herr%hard_deny_graphql Hone Hp. unfold parts in Hp.
  destruct (OpaEngine.batch_calls request) as [[info l]|] eqn:Hb.
  2: { apply list_elem_of_singleton in Hp as ->. by apply once_no_conflict. }
  assert (req_graphql request = None) as Hg.
  { destruct Hone as [|Hj]; [done|]. unfold OpaEngine.batch_calls in Hb. by rewrite Hj in Hb. }
  apply elem_of_app in Hp as [Hp|(call & -> & _)%list_elem_of_fmap].
  - destruct (info_has_response info); [|by apply elem_of_nil in Hp].
    apply list_elem_of_singleton in Hp as ->. by apply once_no_conflict.
  - apply once_no_conflict; [done|]. by left.
Qed.

Lemma calls_Err request l e :
  OpaEngine.evaluate_calls t current ctx request l = Err e →
  ∃ call, call ∈ l ∧ once (jsonrpc_request_for_call request call) = Err e.
Proof.
  induction l as [|call l IH]; [done|]. cbn [OpaEngine.evaluate_calls].
  destruct (once (jsonrpc_request_for_call request call)) as [[[] reason]|e'] eqn:Ho; cbn; [|done|].
  - intros (c & Hc & He)%IH. exists c. split; [by right|done].
  - intros H. injection H as ->. exists call. split; [left|done].
Qed.
Lemma evaluate_Err request e :
  OpaEngine.evaluate_l7_request t current ctx request = Err e → ∃ part, part ∈ parts request ∧ once part = Err e.
Proof.
  unfold OpaEngine.evaluate_l7_request, parts.
  destruct (OpaEngine.batch_calls request) as [[info l]|]; [|intros H; exists request; split; [left|done]].
  setoid_rewrite elem_of_app. setoid_rewrite list_elem_of_fmap.
  assert (OpaEngine.evaluate_calls t current ctx request l = Err e → ∃ part,
            (part ∈ (if info_has_response info then [request] else [])
             ∨ ∃ call, part = jsonrpc_request_for_call request call ∧ call ∈ l) ∧ once part = Err e) as Hl.
  { intros (call & Hc & He)%calls_Err. eexists. split; [right; by exists call|done]. }
  destruct (info_has_response info); [|exact Hl].
  destruct (once request) as [[[] reason]|e'] eqn:Ho; cbn; [exact Hl|done|].
  intros H. injection H as ->. exists request. split; [left; left|done].
Qed.

(** C34: an evaluation the relay asks for gives a verdict. A request that no
    hard denial stops, of GraphQL or of JSON-RPC but not both, never has two
    reasons that disagree: the evaluation fails only on a stale generation or
    on a builtin that fails. *)
Theorem reasons_never_conflict protocol request e
  (Hhard : OpaEngine.l7_request_hard_deny_reason protocol request = None)
  (Hone : req_graphql request = None ∨ req_jsonrpc request = None)
  (Heval : OpaEngine.evaluate_l7_request t current ctx request = Err e) :
  (e = StaleGeneration ∧ current ≠ captured_generation t)
  ∨ (e = EvaluationFailed ∧ current = captured_generation t).
Proof.
  apply evaluate_Err in Heval as (part & Hp & He).
  pose proof (parts_no_conflict _ _ _ Hhard Hone Hp) as Hn.
  unfold OpaEngine.evaluate_l7_request_once in *. destruct ctx as [host port exec].
  destruct (current =? captured_generation t) eqn:Hs; cbn [negb] in *;
    [apply Z.eqb_eq in Hs|apply Z.eqb_neq in Hs; injection He as <-; by left].
  destruct (request_fault _ _ _ _ _); [injection He as <-; by right|].
  destruct (Rego.allow_request _ _ _ _ _); [done|].
  destruct (Rego.request_deny_reason _ _ _ _ _); [done|]. by injection He as <-.
Qed.
End evaluation.

(** ** Token grants of a loaded policy *)

Section grants.
Context {glob : Glob} {dns : DnsNames} {proto : ProtoStruct} {rego : RegoBuiltins} {faults : RegoFaults}
  {Registry : Type}
  (policy_hash : SandboxPolicy → bytes) (endpoint_id : NetworkEndpoint → bytes)
  (resolve : bytes → OpaData.BinaryResolution).

Lemma loaded_owner p ep :
  EndpointJson.token_grant_owner (loaded_endpoint policy_hash endpoint_id p ep)
  = OpaData.text (Endpoint.token_grant_owner ep).
Proof.
  assert (∀ e protocol rules deny, EndpointJson.token_grant_owner
            (EndpointJson.with_rules e protocol rules deny) = EndpointJson.token_grant_owner e) as H by done.
  destruct (loaded_with_rules policy_hash endpoint_id p ep) as (rules & deny & ->). rewrite H.
  unfold projected. rewrite canonical_endpoint_mcp. by destruct ep.
Qed.
Lemma parts_target request part : part ∈ parts request → req_target part = req_target request.
Proof.
  unfold parts. destruct (OpaEngine.batch_calls request) as [[info l]|]; [|by intros ->%list_elem_of_singleton].
  rewrite elem_of_app, list_elem_of_fmap. intros [Hp|(call & -> & _)]; [|done].
  destruct (info_has_response info); [by apply list_elem_of_singleton in Hp as ->|by apply elem_of_nil in Hp].
Qed.

(** C12: a granted token goes only with a request its endpoint admits. When
    the evaluation of a request yields the owner of a token grant, the request
    is allowed, and every call of it, with the response frames of the batch,
    is allowed by an endpoint of the policy that has this owner, that selects
    the destination and whose rule authorizes the process, and is denied by
    none. *)
Theorem grant_owner_admits_every_call p identity data (t : TunnelPolicyEngine Registry) current ctx
  request owners owner
  (Hload : OpaData.from_proto policy_hash endpoint_id resolve p identity = Ok data)
  (Hdata : tunnel_data t = data)
  (Howners : OpaEngine.admitted_token_grant_owners t current ctx request = Ok owners)
  (Howner : owner ∈ owners) :
  OpaEngine.evaluate_l7_request t current ctx request = Ok (true, None)
  ∧ ∀ part, part ∈ parts request →
    Rego.deny_request data (in_host ctx) (in_port ctx) (in_exec ctx) (l7_request_policy_input part) = false
    ∧ ∃ ep, in_scope resolve p identity ctx (req_target request) ep
      ∧ Endpoint.token_grant_owner ep = owner
      ∧ Rego.request_allowed_for_endpoint (l7_request_policy_input part)
          (loaded_endpoint policy_hash endpoint_id p ep) = true.
Proof.
  split.
  - apply parts_allowed. intros part Hp.
    destruct (owners_parts _ _ _ _ _ _ _ Howners Howner Hp) as (o & Ho & Hin).
    by destruct (owners_once_Ok _ _ _ _ _ _ Ho Hin).
  - intros part Hp. destruct (owners_parts _ _ _ _ _ _ _ Howners Howner Hp) as (o & Ho & Hin).
    destruct (owners_once_Ok _ _ _ _ _ _ Ho Hin) as (_ & j & Hj & Hown). rewrite Hdata in Hj.
    apply (admitted_elem _ _ _ _ _ _ Hload) in Hj as (Hd & ep & Hs & -> & Ha). split; [done|].
    exists ep. rewrite loaded_owner in Hown. 
    split_and!; [|by rewrite <- (text_default (Endpoint.token_grant_owner ep)), Hown|done].
    cbn [l7_request_policy_input RequestInput.path] in Hs. by rewrite (parts_target _ _ Hp) in Hs.
Qed.
End grants.
