(* ===== verification/ConnectFacts.v ===== *)
(** * ConnectFacts: what a relayed CONNECT request may do

    A request that reaches a relay was decided by one policy, however the
    engine changed meanwhile. This policy grants the connection, declares the
    internal addresses it dials, and has inspected endpoints inspected; bytes
    that no inspection sees carry no credentials and pass no middleware that
    must see them. *)

From stdpp Require Import gmap sorting.
From S2P Require Import Prelude Net IpParse Order Text Patterns PolicyDns Destination.
From S2P Require Import PolicyTypes PolicyMerge Ambiguity AmbiguityFacts PolicySchema PolicyValidate.
From S2P Require Import PolicyValidateFacts OpaData Rego OpaEngine Connect OpaFacts OpaRequests OpaLifecycle.
Import IpParse L7Validate PolicyValidate.

Local Open Scope Z_scope.

Section connect.
Context {rego : RegoBuiltins} {glob : Glob} {faults : RegoFaults} {Registry : Type}.
Context {N4 N6 : Type} {net4 : CidrNet 32 N4} {net6 : CidrNet 128 N6} {nets : IpNetText N4 N6}
  {world : World}.
Local Abbreviation Reads := (EngineReads (Registry := Registry)).

(** ** One policy *)

(** The reads are in the order of the engine's steps. *)
Definition ordered (es : Reads) : Prop :=
  rtc engine_step (at_authorize es) (at_pin es) ∧ rtc engine_step (at_pin es) (at_guard es)
  ∧ rtc engine_step (at_guard es) (at_dialled es) ∧ rtc engine_step (at_dialled es) (at_gate es)
  ∧ rtc engine_step (at_gate es) (at_relay es).

(** What a relayed request went through. *)
Record relay_facts (es : Reads) (input : ConnectInput) (target : bytes) (c : UpstreamConnector)
  (raw_host : bytes) (port : Z) (exec : ExecInput) (a : EgressAuthorization) : Prop := {
  relay_target : parse_target target = Ok (raw_host, port);
  relay_identity : process_identity input = Ok exec;
  relay_authorized : OpaEngine.authorize_egress
    (network_input (to_ascii_lowercase (normalize_host raw_host)) port exec) (at_authorize es) = Ok a;
  relay_allowed : ∃ policy, action a = Allow policy;
  relay_guard : ∃ g, query_endpoint_credential_guard (at_guard es) a
    (network_input (to_ascii_lowercase (normalize_host raw_host)) port exec) = Ok g
    ∧ L7Config.blocks_connect g = false;
  relay_destination : ∃ pl, hydrate_destination_plan (N4 := N4) (N6 := N6) a
      (to_ascii_lowercase (normalize_host raw_host)) (backend_gateway input) (trusted_gateway input) = Ok pl
    ∧ validate_destination (request raw_host port (entrypoint_pid input) pl) = Ok c;
  relay_outcome : relay_tunnel es input (to_ascii_lowercase (normalize_host raw_host)) a c
                  = handle_connect es input target;
}.

Lemma relay_tunnel_relayed (es : Reads) input host a c c' :
  relayed (relay_tunnel es input host a c) = Some c' →
  c' = c ∧ generation (at_relay es) = auth_generation a.
Proof.
  unfold relay_tunnel, prepare_raw_relay, prepare_http_relay, OpaEngine.generation_guard,
    OpaEngine.clone_engine_for_tunnel.
  destruct (generation (at_relay es) =? auth_generation a) eqn:Hg.
  - apply Z.eqb_eq in Hg. repeat case_match; simplify_eq/=; naive_solver.
  - repeat case_match; simplify_eq/=; naive_solver.
Qed.

Lemma relayed_facts (es : Reads) input target c :
  relayed (handle_connect (N4 := N4) (N6 := N6) es input target) = Some c →
  ∃ raw_host port exec a, relay_facts es input target c raw_host port exec a
    ∧ generation (at_relay es) = auth_generation a.
Proof.
  intros H. pose proof (eq_refl (handle_connect es input target)) as Ho.
  revert H Ho. unfold handle_connect at 1 3.
  destruct (parse_target target) as [[raw_host port]|] eqn:Ht; [|done].
  unfold authorize_connect. destruct (process_identity input) as [exec|] eqn:Hi; [|done].
  cbn [map_err]. set (host := to_ascii_lowercase (normalize_host raw_host)).
  destruct (OpaEngine.authorize_egress (network_input host port exec) (at_authorize es)) as [a|] eqn:Ha;
    [|done].
  destruct (action a) as [policy|] eqn:Hact; [|done]. unfold OpaEngine.generation_guard.
  destruct (generation (at_pin es) =? auth_generation a) eqn:Hpin; [|done]. apply Z.eqb_eq in Hpin.
  destruct (query_endpoint_credential_guard (at_guard es) a (network_input host port exec)) as [g|] eqn:Hguard;
    [|done].
  destruct (hydrate_destination_plan a host (backend_gateway input) (trusted_gateway input)) as [pl|] eqn:Hpl;
    [|done].
  destruct (validate_destination (request raw_host port (entrypoint_pid input) pl)) as [c0|] eqn:Hc; [|done].
  destruct (negb (tls_state input || _)); [done|].
  destruct (L7Config.blocks_connect g) eqn:Hb; [done|]. destruct (negb (validate_route_generation _ _)); [done|].
  destruct (dial_upstream input c0) as [[]|]; [|done..].
  destruct (generation (at_dialled es) =? generation (at_pin es)) eqn:Hd; [|done]. apply Z.eqb_eq in Hd.
  cbn [negb]. intros Hr Ho. destruct (relay_tunnel_relayed _ _ _ _ _ _ Hr) as [-> Hg].
  exists raw_host, port, exec, a. split; [|done].
  split; try done; by eauto.
Qed.

Definition constant_reads (e : OpaEngine Registry) : Reads := engine_reads e e e e e e.

Lemma relayed_reads (es : Reads) input target c :
  ordered es → relayed (handle_connect (N4 := N4) (N6 := N6) es input target) = Some c →
  es = constant_reads (at_authorize es).
Proof.
  intros (H1 & H2 & H3 & H4 & H5) (raw_host & port & exec & a & Hf & Hg)%relayed_facts.
  pose proof (authorize_generation _ _ _ (relay_authorized _ _ _ _ _ _ _ _ Hf)) as Ha.
  destruct es as [e1 e2 e3 e4 e5 e6]. cbn in *.
  apply engine_steps_generation in H1 as [->|?], H2 as [->|?], H3 as [->|?], H4 as [->|?], H5 as [->|?];
    done || lia.
Qed.

(** C5: a relayed connection is decided by one policy. However the engine is
    reloaded, quarantined or released between the steps of the handler, when a
    CONNECT request reaches a relay every step has read the same engine, and
    the outcome is the one this engine alone gives. *)
Theorem connect_is_decided_by_one_policy (es : Reads) input target c
  (Hes : ordered es)
  (Hr : relayed (handle_connect (N4 := N4) (N6 := N6) es input target) = Some c) :
  es = constant_reads (at_authorize es)
  ∧ handle_connect es input target = handle_connect (constant_reads (at_authorize es)) input target
  ∧ fail_closed_reason (at_authorize es) = None.
Proof.
  pose proof (relayed_reads _ _ _ _ Hes Hr) as He. split; [done|]. split; [by rewrite <- He|].
  apply relayed_facts in Hr as (raw_host & port & exec & a & Hf & _).
  destruct (relay_allowed _ _ _ _ _ _ _ _ Hf) as [policy Hp].
  by eapply allowed_is_open; [apply (relay_authorized _ _ _ _ _ _ _ _ Hf)|].
Qed.
End connect.

(** ** Endpoints that meet *)

Section meeting.
Context {rego : RegoBuiltins} {proto : ProtoStruct}.

Lemma refs_elem l key rule ep :
  (key, rule) ∈ l → ep ∈ endpoints rule →
  ep ∈ map Ambiguity.ref_endpoint (Ambiguity.endpoint_refs l).
Proof.
  intros Hr [i He]%list_elem_of_lookup. apply list_elem_of_fmap.
  exists (Ambiguity.endpoint_ref (if is_empty (name rule) then key else name rule) i ep).
  split; [done|]. unfold Ambiguity.endpoint_refs. apply list_elem_of_In, in_concat. eexists. split.
  - apply in_map_iff. exists (key, rule). split; [done|]. by apply list_elem_of_In.
  - apply list_elem_of_In, elem_of_lookup_imap. by exists i, ep.
Qed.

Lemma selects_lower ep host port :
  CheckFacts.ascii (Endpoint.host ep) → CheckFacts.ascii host → selects ep host port →
  Selection.endpoint_matches_request (glob_match [lit "."]) (canonical_endpoint ep) host port = true.
Proof.
  intros Hep Hhost [Hp Hm]. rewrite canonical_endpoint_mcp. unfold Selection.endpoint_matches_request.
  cbn [with_mcp Endpoint.host Endpoint.allowed_ips].
  assert (Selection.rego_ports (with_mcp ep (Endpoint.mcp (canonical_endpoint ep)))
          = Selection.rego_ports ep) as -> by done.
  rewrite !lower_ascii in Hm by done.
  rewrite andb_true_iff, bool_decide_eq_true. split; [done|].
  rewrite !orb_true_iff, !andb_true_iff, !negb_true_iff, bool_decide_eq_true, is_empty_true, is_empty_false.
  tauto.
Qed.

(** In a policy without ambiguity, the endpoints that select one connection
    agree on what holds for all of it. *)
Lemma same_connection `{!CheckFacts.RegoGlob (glob_match [lit "."])} (p : SandboxPolicy) host port
  key1 rule1 ep1 key2 rule2 ep2 :
  Ambiguity.find_endpoint_ambiguities (map_to_list (policies (canonical p))) = [] →
  CheckFacts.readable (map_to_list (policies (canonical p))) host port [] →
  policies p !! key1 = Some rule1 → ep1 ∈ endpoints rule1 → CheckFacts.ascii (Endpoint.host ep1) →
  policies p !! key2 = Some rule2 → ep2 ∈ endpoints rule2 → CheckFacts.ascii (Endpoint.host ep2) →
  selects ep1 host port → selects ep2 host port →
  CheckFacts.connection_metadata ep1 = CheckFacts.connection_metadata ep2.
Proof.
  intros Hnone Hread Hr1 He1 Ha1 Hr2 He2 Ha2 Hs1 Hs2.
  assert (∀ key rule ep, policies p !! key = Some rule → ep ∈ endpoints rule →
            CheckFacts.ascii (Endpoint.host ep) → selects ep host port →
            canonical_endpoint ep ∈ CheckFacts.matching_endpoints (glob_match [lit "."])
              (map_to_list (policies (canonical p))) host port) as Hin.
  { intros key rule ep Hr He Ha Hs. apply CheckFacts.matching_elem. split.
    - eapply (refs_elem _ key (rule_of (name rule) (map canonical_endpoint (endpoints rule)) (binaries rule))).
      + apply elem_of_map_to_list. rewrite canonical_policies. unfold map_endpoints.
        rewrite lookup_fmap, Hr. done.
      + cbn [endpoints]. apply (list_elem_of_fmap canonical_endpoint). by exists ep.
    - apply selects_lower; [done| |done]. by apply Hread. }
  assert (∀ ep, CheckFacts.connection_metadata (canonical_endpoint ep) = CheckFacts.connection_metadata ep)
    as Hmeta by (intros ep; rewrite canonical_endpoint_mcp; by destruct ep).
  rewrite <- (Hmeta ep1), <- (Hmeta ep2).
  destruct (CheckFacts.matching_meet (glob_match [lit "."]) _ _ _ _ (canonical_endpoint ep1)
              (canonical_endpoint ep2) Hread Hnone) as [->|(? & ? & _ & _ & Hc)]; [by eauto..|done|].
  destruct (decide (CheckFacts.connection_metadata (canonical_endpoint ep1)
                    = CheckFacts.connection_metadata (canonical_endpoint ep2))); [done|].
  exfalso. apply Hc. unfold CheckFacts.conflicting. tauto.
Qed.
End meeting.

(** ** Credential guards *)

(** A guard that blocks on its own blocks among any others. *)
Lemma combined_guard_blocks values v :
  v ∈ values → L7Config.blocks_connect (L7Config.parse_endpoint_credential_guard v) = true →
  L7Config.blocks_connect (OpaEngine.combine_guards values) = true.
Proof.
  intros Hv Hb. unfold OpaEngine.combine_guards.
  set (l := List.filter _ _). set (g := L7Config.parse_endpoint_credential_guard v) in *.
  unfold L7Config.blocks_connect, L7Config.blocks_uninspected in Hb.
  apply andb_true_iff in Hb as [[Hp Ha]%andb_true_iff Hs].
  assert (g ∈ l) as Hg.
  { apply list_elem_of_In, filter_In. split; [|done]. apply in_map. by apply list_elem_of_In. }
  destruct (is_empty l) eqn:He; [apply is_empty_true in He; rewrite He in Hg; by apply elem_of_nil in Hg|].
  unfold L7Config.blocks_connect, L7Config.blocks_uninspected.
  cbn [L7Config.provider_credentialed L7Config.allow_uninspected_credentials L7Config.has_l7_protocol
       L7Config.guard_tls andb].
  apply andb_true_iff. split.
  - apply negb_true_iff, not_true_is_false. rewrite forallb_elem. intros H. apply H in Hg.
    by rewrite Hg in Ha.
  - apply orb_true_iff in Hs as [Hs|Hs]; apply orb_true_iff; [left|right].
    + apply negb_true_iff, not_true_is_false. rewrite forallb_elem. intros H. apply H in Hg.
      by rewrite Hg in Hs.
    + assert (existsb (λ g, bool_decide (L7Config.guard_tls g = L7Config.Skip)) l = true) as ->;
        [apply existsb_elem; by exists g|done].
Qed.

(** ** Middleware *)

Section chain.
Context {glob : Glob}.

Lemma select_entries_elem configs host acc entries :
  select_entries configs host acc = Ok entries →
  (∀ x, x ∈ acc → x ∈ entries)
  ∧ ∀ name m, (name, m) ∈ configs → middleware_selector_matches m host = Ok true →
      ∃ entry, chain_entry_from_value name m = Ok entry ∧ entry ∈ entries.
Proof.
  revert acc. induction configs as [|[name m] configs IH]; intros acc; cbn [select_entries].
  { intros H. apply (inj Ok) in H as <-. split; [done|]. by intros ?? ?%elem_of_nil. }
  rewrite let_Ok. intros (selected & Hsel & Hk). destruct selected.
  - destruct (Nat.leb _ _); [done|]. apply let_Ok in Hk as (entry & Hentry & Hk).
    destruct (IH _ Hk) as [Hacc Hin]. setoid_rewrite elem_of_app in Hacc. split; [by auto|].
    intros name' m' [[= -> ->]|Hm]%elem_of_cons Hmatch; [|by apply Hin].
    exists entry. split; [done|]. apply Hacc. right. left.
  - destruct (IH _ Hk) as [Hacc Hin]. split; [done|].
    intros name' m' [[= -> ->]|Hm]%elem_of_cons Hmatch; [congruence|by apply Hin].
Qed.

Lemma middleware_configs_elem data name m :
  network_middlewares_json data !! name = Some m → (name, m) ∈ middleware_configs data.
Proof.
  intros Hm. unfold middleware_configs. apply list_elem_of_omap. exists name. rewrite Hm. split; [|done].
  apply sort_by_elem, (list_elem_of_fmap fst). exists (name, m). split; [done|].
  by apply elem_of_map_to_list.
Qed.

(** A gate that lets uninspectable bytes pass has no fail-closed middleware. *)
Lemma open_gate {Registry} (e : OpaEngine Registry) host gate name m :
  middleware_uninspectable_gate e host = Ok gate → gate ≠ DenyUninspectable →
  network_middlewares_json (engine_data e) !! name = Some m →
  OnError_parse (default [] (MiddlewareJson.on_error m)) = Ok FailClosed →
  middleware_selector_matches m host ≠ Ok true.
Proof.
  unfold middleware_uninspectable_gate. rewrite let_Ok. intros (chain & Hc & Hg) Hne Hm Hon Hsel.
  apply (inj Ok) in Hg as <-. unfold query_middleware_chain, global_middleware_entries in Hc.
  apply let_Ok in Hc as (entries & He & Hs). apply (inj Ok) in Hs as <-.
  destruct (select_entries_elem _ _ _ _ He) as [_ Hin].
  destruct (Hin name m (middleware_configs_elem _ _ _ Hm) Hsel) as (entry & Hentry & Hi).
  unfold chain_entry_from_value in Hentry. rewrite Hon in Hentry. apply (inj Ok) in Hentry as <-.
  apply Hne. unfold uninspectable_traffic_gate.
  rewrite <- (sort_by_elem entry_cmp) in Hi. fold sort_chain_entries in Hi.
  destruct (is_empty (sort_chain_entries entries)) eqn:Hemp.
  { apply is_empty_true in Hemp. rewrite Hemp in Hi. by apply elem_of_nil in Hi. }
  destruct (forallb _ _) eqn:Hall; [|done]. rewrite forallb_elem in Hall. by apply Hall in Hi.
Qed.
End chain.

(** ** The policy behind a relay *)

Section policy.
Context {rego : RegoBuiltins} {glob : Glob} {faults : RegoFaults} {Registry : Type}.
Context {dns : DnsNames} {proto : ProtoStruct} (policy_hash : SandboxPolicy → bytes)
  (endpoint_id : NetworkEndpoint → bytes) (resolve : bytes → OpaData.BinaryResolution)
  (p : SandboxPolicy) (identity : bool) (data : OpaData)
  (Hload : OpaData.from_proto policy_hash endpoint_id resolve p identity = Ok data).
Local Abbreviation loaded := (loaded_endpoint policy_hash endpoint_id p).

(** An endpoint of the policy that applies to a connection. *)
Definition applies (host : bytes) (port : Z) (exec : ExecInput) (ep : NetworkEndpoint) : Prop :=
  ∃ key rule, policies p !! key = Some rule ∧ ep ∈ endpoints rule ∧ selects ep host port
    ∧ authorizes_binary resolve identity rule exec.

(** The rule with the empty name applies to a connection. The engine reports
    its match as none, so nothing else of the policy is read. *)
Definition nameless_applies (host : bytes) (port : Z) (exec : ExecInput) : Prop :=
  ∃ rule ep, policies p !! [] = Some rule ∧ ep ∈ endpoints rule ∧ selects ep host port
    ∧ authorizes_binary resolve identity rule exec.

Lemma loaded_flags ep :
  default false (EndpointJson.provider_credentialed (loaded ep)) = Endpoint.provider_credentialed ep
  ∧ default false (EndpointJson.allow_uninspected_credentials (loaded ep))
    = Endpoint.allow_uninspected_credentials ep
  ∧ EndpointJson.protocol (loaded ep) = OpaData.canonical_protocol <$> OpaData.text (Endpoint.protocol ep).
Proof using.
  assert (∀ e protocol rules deny,
    let j := EndpointJson.with_rules e protocol rules deny in
    EndpointJson.provider_credentialed j = EndpointJson.provider_credentialed e
    ∧ EndpointJson.allow_uninspected_credentials j = EndpointJson.allow_uninspected_credentials e
    ∧ EndpointJson.protocol j = protocol) as Hw by done.
  destruct (loaded_with_rules policy_hash endpoint_id p ep) as (rules & deny & ->).
  destruct (Hw (projected policy_hash endpoint_id p ep)
              (OpaData.canonical_protocol <$> OpaData.text (Endpoint.protocol ep)) rules deny) as (-> & -> & ->).
  unfold projected. rewrite canonical_endpoint_mcp. destruct ep. split_and!; [apply flag_default..|done].
Qed.
Lemma loaded_tls ep key rule :
  policies p !! key = Some rule → ep ∈ endpoints rule →
  L7Config.parse_tls_mode (loaded ep) = (if Endpoint.tls ep =? 1 then L7Config.Skip else L7Config.Auto).
Proof using Hload.
  intros Hr He. destruct (from_proto_Ok _ _ _ _ _ _ Hload) as (Hv & _).
  apply list_elem_of_lookup in He as [i He].
  pose proof (accepted_endpoint _ _ _ _ _ _ Hv Hr He) as Ha. unfold endpoint_violations in Ha.
  rewrite !app_nil_iff, map_nil_iff in Ha. destruct Ha as (_ & _ & _ & _ & Hl7 & _).
  apply l7_errors_nil in Hl7 as (_ & (Ht & _) & _). unfold L7Config.parse_tls_mode.
  destruct (loaded_keys policy_hash endpoint_id p ep) as (_ & _ & _ & _ & -> & _).
  rewrite !elem_of_cons, elem_of_nil in Ht. by destruct Ht as [->|[->|[]]].
Qed.

(** An endpoint whose credentials no inspection would see blocks. *)
Lemma loaded_guard_blocks ep key rule :
  policies p !! key = Some rule → ep ∈ endpoints rule →
  Endpoint.provider_credentialed ep = true → Endpoint.allow_uninspected_credentials ep = false →
  Endpoint.protocol ep = [] ∨ Endpoint.tls ep = 1 →
  L7Config.blocks_connect (L7Config.parse_endpoint_credential_guard (loaded ep)) = true.
Proof using Hload.
  intros Hr He Hp Hu Hs. destruct (loaded_flags ep) as (Kp & Ku & Kprot).
  pose proof (loaded_tls _ _ _ Hr He) as Kt.
  unfold L7Config.parse_endpoint_credential_guard. rewrite Kp, Ku, Kprot, Kt, Hp, Hu.
  destruct Hs as [->| ->]; [done|]. unfold L7Config.blocks_connect.
  cbn [L7Config.guard_tls]. apply orb_true_r.
Qed.

Lemma config_applies host port exec j :
  j ∈ Rego.matching_endpoint_configs data host port exec →
  ∃ ep, applies host port exec ep ∧ j = loaded ep ∧ Rego.endpoint_has_extended_config j = true.
Proof using Hload.
  unfold Rego.matching_endpoint_configs, applies. rewrite list_elem_of_In, in_flat_map.
  intros ([key q] & Hq & Hj). apply list_elem_of_In, (matched_policy_elem _ _ _ _ _ _ Hload) in Hq
    as (rule & Hr & -> & _ & Hb).
  apply filter_In in Hj as [Hj [Hm He]%andb_true_iff]. cbn [loaded_policy pj_endpoints] in Hj.
  apply list_elem_of_In, (list_elem_of_fmap loaded) in Hj as (ep & -> & Hin).
  exists ep. split_and!; [|done|done]. exists key, rule. split_and!; [done..| |done].
  by eapply matches_selects.
Qed.

Section authorized.
Context (e : OpaEngine Registry) (Hdata : engine_data e = data) (host : bytes) (port : Z)
  (exec : ExecInput) (a : EgressAuthorization) (policy : option bytes)
  (Ha : OpaEngine.authorize_egress (network_input host port exec) e = Ok a)
  (Hallow : action a = Allow policy).

Lemma authorized_fields :
  endpoint_configs a = Rego.matching_endpoint_configs data host port exec
  ∧ exact_declared_host a = Rego.exact_declared_endpoint_host data host port exec
  ∧ ∃ key, Rego.matched_network_policy data host port exec = Some key ∧ policy = OpaData.text key.
Proof using Hdata Ha Hallow.
  unfold OpaEngine.authorize_egress in Ha. rewrite Hdata in Ha.
  destruct (fail_closed_reason e); [apply (inj Ok) in Ha as <-; done|].
  destruct (connection_fault data host port exec); [done|]. apply (inj Ok) in Ha as <-.
  cbn [action Rego.egress_authorization Rego.action_allow Rego.egress_matched_policy] in Hallow.
  rewrite allowed_iff_matched in Hallow. split_and!; [done|done|].
  destruct (Rego.matched_network_policy data host port exec) as [key|]; cbn in Hallow; [|done].
  exists key. split; [done|]. by injection Hallow.
Qed.




Lemma extended_elem ep :
  applies host port exec ep → Rego.endpoint_has_extended_config (loaded ep) = true →
  loaded ep ∈ endpoint_configs a.
Proof using Hload Hdata Ha Hallow.
  intros (key & rule & Hr & He & Hs & Hb) Hx. destruct authorized_fields as (-> & _).
  unfold Rego.matching_endpoint_configs. apply list_elem_of_In, in_flat_map.
  exists (key, loaded_policy policy_hash endpoint_id resolve p rule). rewrite <- !list_elem_of_In. split.
  - apply (matched_policy_elem _ _ _ _ _ _ Hload). exists rule. split_and!; [done..|by exists ep|done].
  - apply list_elem_of_In, filter_In. rewrite <- list_elem_of_In. split.
    + by apply (list_elem_of_fmap loaded); exists ep.
    + by rewrite (proj2 (matches_selects policy_hash endpoint_id resolve p ep host port) Hs).
Qed.

Lemma allowed_has_policy : nameless_applies host port exec ∨ OpaEngine.has_policy a = true.
Proof using Hload Hdata Ha Hallow.
  destruct authorized_fields as (_ & _ & key & Hk & Hpol).
  destruct (matched_least _ _ _ _ _ _ Hload _ _ _ _ Hk) as [(rule & ep & Hr & He & Hs & Hb) _].
  destruct key as [|b key]; [left; by exists rule, ep|right].
  unfold OpaEngine.has_policy. by rewrite Hallow, Hpol.
Qed.

(** The route of a connection that an inspected endpoint applies to. *)
Lemma inspected_route ep pr :
  OpaEngine.has_policy a = true → applies host port exec ep →
  L7Protocol_parse (Endpoint.protocol ep) = Some pr →
  ∃ configs cfg, OpaEngine.query_l7_route_snapshot a = Some (configs, auth_generation a)
    ∧ cfg ∈ configs ∧ L7Config.parse_l7_config (loaded ep) = Some cfg.
Proof using Hload Hdata Ha Hallow.
  intros Hnamed (key & rule & Hr & He & Hs & Hb) Hp.
  destruct (parse_loaded _ _ _ _ _ _ _ _ _ _ Hload Hr He Hp) as (cfg & Hcfg & _).
  pose proof (config_elem _ _ _ _ _ _ Hload _ _ _ _ _ _ _ Hr He Hs Hb Hp) as Hin.
  destruct authorized_fields as (Hc & _).
  unfold OpaEngine.query_l7_route_snapshot. rewrite Hnamed, Hc. cbn [negb].
  assert (cfg ∈ omap L7Config.parse_l7_config (Rego.matching_endpoint_configs data host port exec))
    as Hin' by (apply list_elem_of_omap; by exists (loaded ep)).
  destruct (omap L7Config.parse_l7_config _) as [|c configs]; [by apply elem_of_nil in Hin'|].
  by exists (c :: configs), cfg.
Qed.

(** A skipped inspection is skipped by an endpoint that applies. *)
Lemma skip_applies :
  OpaEngine.query_tls_mode a = L7Config.Skip → ∃ ep, applies host port exec ep ∧ Endpoint.tls ep = 1.
Proof using Hload Hdata Ha Hallow.
  unfold OpaEngine.query_tls_mode. destruct (negb _); [done|].
  destruct (endpoint_configs a) as [|j l] eqn:Hc; cbn [head from_option]; [done|].
  destruct (config_applies host port exec j) as (ep & Hep & -> & _).
  { destruct authorized_fields as (<- & _). rewrite Hc. left. }
  pose proof Hep as (key & rule & Hr & He & _). rewrite (loaded_tls _ _ _ Hr He).
  destruct (Z.eqb_spec (Endpoint.tls ep) 1); [|done]. intros _. by exists ep.
Qed.

(** The TLS mode is that of every endpoint that applies. *)
Lemma tls_mode_agrees `{!CheckFacts.RegoGlob (glob_match [lit "."])} ep :
  OpaEngine.has_policy a = true →
  CheckFacts.readable (map_to_list (policies (canonical p))) host port [] →
  (∀ key rule ep, policies p !! key = Some rule → ep ∈ endpoints rule →
     CheckFacts.ascii (Endpoint.host ep)) →
  applies host port exec ep →
  OpaEngine.query_tls_mode a = (if Endpoint.tls ep =? 1 then L7Config.Skip else L7Config.Auto).
Proof using Hload Hdata Ha Hallow.
  intros Hnamed Hread Hascii Hep. pose proof Hep as (key & rule & Hr & He & Hs & _).
  unfold OpaEngine.query_tls_mode. rewrite Hnamed. cbn [negb].
  destruct (endpoint_configs a) as [|j l] eqn:Hc; cbn [head from_option].
  - destruct (Endpoint.tls ep =? 1) eqn:Ht; [|done]. apply Z.eqb_eq in Ht. exfalso.
    cut (loaded ep ∈ []); [by intros ?%elem_of_nil|]. rewrite <- Hc. apply extended_elem; [done|].
    unfold Rego.endpoint_has_extended_config.
    destruct (loaded_keys policy_hash endpoint_id p ep) as (_ & _ & _ & _ & Kt & _).
    rewrite Kt, Ht. apply orb_true_r.
  - destruct (config_applies host port exec j) as (ep' & Hep' & -> & _).
    { destruct authorized_fields as (<- & _). rewrite Hc. left. }
    pose proof Hep' as (key' & rule' & Hr' & He' & Hs' & _). rewrite (loaded_tls _ _ _ Hr' He').
    destruct (from_proto_unambiguous _ _ _ _ _ _ Hload) as [Hnone _].
    pose proof (same_connection p host port _ _ _ _ _ _ Hnone Hread Hr He (Hascii _ _ _ Hr He)
                  Hr' He' (Hascii _ _ _ Hr' He') Hs Hs') as Hm.
    unfold CheckFacts.connection_metadata in Hm. injection Hm as _ Hm _. revert Hm.
    unfold Ambiguity.normalized_tls.
    destruct (Z.eqb_spec (Endpoint.tls ep) 1), (Z.eqb_spec (Endpoint.tls ep') 1); try done.
    + destruct (is_some _); [done|]. intros. congruence.
    + destruct (is_some _); [done|]. intros. congruence.
Qed.

Lemma guards_elem ep :
  applies host port exec ep → loaded ep ∈ Rego.endpoint_credential_guards data host port exec.
Proof using Hload.
  intros (key & rule & Hr & He & Hs & Hb). unfold Rego.endpoint_credential_guards.
  apply list_elem_of_In, in_flat_map. exists (key, loaded_policy policy_hash endpoint_id resolve p rule).
  rewrite <- !list_elem_of_In. split.
  - apply (matched_policy_elem _ _ _ _ _ _ Hload). exists rule. split_and!; [done..|by exists ep|done].
  - apply list_elem_of_In, filter_In. rewrite <- list_elem_of_In. split.
    + by apply (list_elem_of_fmap loaded); exists ep.
    + by apply (matches_selects policy_hash endpoint_id resolve).
Qed.
End authorized.

Section relays.
Context {N4 N6 : Type} {net4 : CidrNet 32 N4} {net6 : CidrNet 128 N6} {nets : IpNetText N4 N6}
  {world : World}.
Local Abbreviation Reads := (EngineReads (Registry := Registry)).
Local Abbreviation connect := (handle_connect (Registry := Registry) (N4 := N4) (N6 := N6)).





(** The two ways into a raw relay. *)
Lemma raw_relay_cases (es : Reads) input host a c guard :
  relay_tunnel es input host a c = RawRelay c guard →
  (∃ gate, middleware_uninspectable_gate (at_gate es) host = Ok gate ∧ gate ≠ DenyUninspectable)
  ∧ (OpaEngine.query_tls_mode a = L7Config.Skip
     ∨ l7_inspection_active (OpaEngine.query_l7_route_snapshot a) = false).
Proof using.
  unfold relay_tunnel. case_bool_decide as Hskip.
  { destruct (middleware_uninspectable_gate (at_gate es) host) as [[]|]; [| |done|done];
      intros _; (split; [eexists; split; [done|discriminate]|by left]). }
  destruct (peek_tunnel_protocol (tunnel_looks input)) as [[[]|]|]; try (by repeat case_match).
  - destruct (middleware_uninspectable_gate (at_gate es) host) as [gate|]; [|done].
    destruct (l7_inspection_active _); [done|]. cbn [inspection_requirement].
    destruct gate; [| |done]; intros _; (split; [eexists; split; [done|discriminate]|by right]).
  - destruct (middleware_uninspectable_gate (at_gate es) host) as [gate|]; [|done].
    destruct (l7_inspection_active _); [done|]. cbn [inspection_requirement].
    destruct gate; [| |done]; intros _; (split; [eexists; split; [done|discriminate]|by right]).
Qed.

Lemma middleware_passed (e : OpaEngine Registry) host gate nm mw d sel :
  engine_data e = data → middleware_uninspectable_gate e host = Ok gate → gate ≠ DenyUninspectable →
  network_middlewares p !! nm = Some mw → requires_inspection mw = true → mw_endpoints mw = Some d →
  HostSelector.new (include d) (exclude d) = Ok sel → HostSelector.matches sel host = false.
Proof using Hload.
  intros Hdata Hg Hne Hmw Hreq Hd Hsel.
  destruct (from_proto_unambiguous _ _ _ _ _ _ Hload) as [_ Hj].
  assert (network_middlewares_json (engine_data e) !! nm = Some (OpaData.middleware_to_json mw)) as Hm
    by (by rewrite Hdata, Hj, lookup_fmap, Hmw).
  pose proof (open_gate e host gate nm _ Hg Hne Hm) as Ho.
  unfold middleware_selector_matches, OpaData.middleware_to_json in Ho.
  cbn [MiddlewareJson.on_error MiddlewareJson.endpoints] in Ho. rewrite Hd, text_default in Ho.
  cbn [fmap option_fmap option_map] in Ho. rewrite !items_default, Hsel in Ho. cbn [map_err] in Ho.
  unfold OnError_parse in Ho. unfold requires_inspection in Hreq. rewrite Hreq in Ho.
  destruct (HostSelector.matches sel host); [|done]. by destruct Ho.
Qed.

Lemma applies_protocol host port exec ep :
  applies host port exec ep →
  Endpoint.protocol ep = [] ∨ is_explicit_tcp_protocol (Endpoint.protocol ep) = true
  ∨ is_Some (L7Protocol_parse (Endpoint.protocol ep)).
Proof using Hload.
  intros (key & rule & Hr & He & _).
  destruct (loaded_semantics _ _ _ _ _ _ Hload _ _ _ Hr He) as [Hs _].
  by destruct (semantics_nil _ Hs) as (? & _).
Qed.

Lemma guard_passed (es : Reads) input target c raw_host port exec a ep :
  relay_facts (N4 := N4) (N6 := N6) es input target c raw_host port exec a →
  engine_data (at_authorize es) = data → engine_data (at_guard es) = data → OpaEngine.has_policy a = true →
  applies (to_ascii_lowercase (normalize_host raw_host)) port exec ep →
  Endpoint.provider_credentialed ep = true → Endpoint.allow_uninspected_credentials ep = false →
  Endpoint.protocol ep ≠ [] ∧ Endpoint.tls ep ≠ 1.
Proof using Hload.
  intros [_ _ Ha [policy Hallow] (g & Hg & Hb) _ _] Hdata Hdata' Hnamed Hep Hcred Hopt.
  unfold query_endpoint_credential_guard in Hg.
  rewrite Hnamed in Hg. cbn [negb] in Hg.
  apply let_Ok in Hg as (values & Hv & Hk). apply (inj Ok) in Hk as <-.
  unfold OpaEngine.query_endpoint_credential_guards in Hv. rewrite Hdata' in Hv.
  destruct (connection_fault data _ port exec); [done|]. apply (inj Ok) in Hv as <-.
  pose proof Hep as (key & rule & Hr & He & _).
  assert (¬ (Endpoint.protocol ep = [] ∨ Endpoint.tls ep = 1)) as Hn; [|tauto]. intros Hs.
  enough (true = false) by done. rewrite <- Hb. symmetry.
  eapply combined_guard_blocks; [by apply guards_elem|by eapply loaded_guard_blocks].
Qed.

(** Where the check for ambiguous endpoints and the engine read the selectors of
    a request alike: hosts are ASCII and have no metacharacter of globs but the
    star. *)
Record read_alike (target : bytes) : Prop := {
  read_ascii key rule ep : policies p !! key = Some rule → ep ∈ endpoints rule →
    CheckFacts.ascii (Endpoint.host ep);
  read_selectors raw_host port : parse_target target = Ok (raw_host, port) →
    CheckFacts.readable (map_to_list (policies (canonical p)))
      (to_ascii_lowercase (normalize_host raw_host)) port [];
}.

(** C1: bytes that no inspection sees are bytes the policy gives up. When a
    CONNECT request ends in a raw relay, no fail-closed middleware selects the
    host. Moreover, unless the rule with the empty name applies to it, an
    inspected endpoint applies only if some endpoint that applies has
    [tls: skip], and then it has [tls: skip] itself where the check for
    ambiguous endpoints and the engine read the selectors alike; and an endpoint
    that applies with provider credentials and no explicit exception has a
    protocol and does not skip. *)
Theorem raw_relay_bypasses_nothing `{!CheckFacts.RegoGlob (glob_match [lit "."])}
  (es : Reads) input target c guard
  (Hes : ordered es) (Hdata : engine_data (at_authorize es) = data)
  (Hraw : connect es input target = RawRelay c guard) :
  ∃ raw_host port exec, parse_target target = Ok (raw_host, port)
    ∧ process_identity input = Ok exec
    ∧ let host := to_ascii_lowercase (normalize_host raw_host) in
      (∀ nm mw d sel, network_middlewares p !! nm = Some mw → requires_inspection mw = true →
         mw_endpoints mw = Some d → HostSelector.new (include d) (exclude d) = Ok sel →
         HostSelector.matches sel host = false)
      ∧ (nameless_applies host port exec
         ∨ ∀ ep, applies host port exec ep →
             (is_Some (L7Protocol_parse (Endpoint.protocol ep)) →
              (∃ ep', applies host port exec ep' ∧ Endpoint.tls ep' = 1)
              ∧ (read_alike target → Endpoint.tls ep = 1))
             ∧ (Endpoint.provider_credentialed ep = true → Endpoint.allow_uninspected_credentials ep = false →
                Endpoint.protocol ep ≠ [] ∧ Endpoint.tls ep ≠ 1)).
Proof using Hload.
  assert (relayed (connect es input target) = Some c) as Hr by (by rewrite Hraw).
  pose proof (relayed_reads _ _ _ _ Hes Hr) as Hreads.
  apply relayed_facts in Hr as (raw_host & port & exec & a & Hf & _). exists raw_host, port, exec.
  pose proof (λ ep, guard_passed _ _ _ _ _ _ _ _ ep Hf Hdata) as Hguard.
  assert (engine_data (at_guard es) = data) as Hdata' by (by rewrite Hreads).
  destruct Hf as [Ht Hi Ha [policy Hallow] _ _ Ho]. rewrite Hraw in Ho.
  apply raw_relay_cases in Ho as ((gate & Hgate & Hopen) & Hmode).
  split; [done|]. split; [done|]. intros host. split.
  { intros nm mw d sel Hmw Hreq Hd Hs.
    eapply (middleware_passed (at_gate es)); [|done..]. by rewrite Hreads. }
  destruct (allowed_has_policy _ Hdata _ _ _ _ _ Ha Hallow) as [Hnone|Hnamed]; [by left|right].
  intros ep Hep. split; [|by apply Hguard]. intros [pr Hp].
  assert (OpaEngine.query_tls_mode a = L7Config.Skip) as Hskip.
  { destruct Hmode as [?|Hoff]; [done|exfalso].
    destruct (inspected_route _ Hdata _ _ _ _ _ Ha Hallow ep pr Hnamed Hep Hp) as (configs & cfg & Hroute & Hin & _).
    rewrite Hroute in Hoff. by destruct configs; [apply elem_of_nil in Hin|]. }
  split; [apply (skip_applies _ Hdata _ _ _ _ _ Ha Hallow Hskip)|]. intros [Hascii Hsel].
  rewrite (tls_mode_agrees _ Hdata _ _ _ _ _ Ha Hallow ep Hnamed (Hsel _ _ Ht) Hascii Hep) in Hskip.
  by destruct (Z.eqb_spec (Endpoint.tls ep) 1).
Qed.

(** C16: an inspected endpoint is inspected by the policy that admitted it.
    When a CONNECT request that an inspected endpoint applies to ends in an
    HTTP relay, and the rule with the empty name does not apply to it, the relay
    inspects: its configurations have the endpoint's, and its evaluator holds
    the policy and the middleware of the engine. *)
Theorem http_relay_inspects (es : Reads) input target tls c prepared raw_host port exec ep pr
  (Hes : ordered es) (Hdata : engine_data (at_authorize es) = data)
  (Hhttp : connect es input target = HttpRelay tls c prepared)
  (Ht : parse_target target = Ok (raw_host, port)) (Hi : process_identity input = Ok exec)
  (Hep : applies (to_ascii_lowercase (normalize_host raw_host)) port exec ep)
  (Hp : L7Protocol_parse (Endpoint.protocol ep) = Some pr) :
  nameless_applies (to_ascii_lowercase (normalize_host raw_host)) port exec
  ∨ ∃ configs cfg evaluator, prepared = Inspect configs evaluator ∧ cfg ∈ configs
    ∧ L7Config.parse_l7_config (loaded ep) = Some cfg
    ∧ tunnel_data evaluator = data
    ∧ tunnel_runner evaluator = middleware_runner (at_authorize es)
    ∧ captured_generation evaluator = generation (at_authorize es).
Proof using Hload.
  assert (relayed (connect es input target) = Some c) as Hr by (by rewrite Hhttp).
  pose proof (relayed_reads _ _ _ _ Hes Hr) as Hreads.
  apply relayed_facts in Hr as (raw_host' & port' & exec' & a & [Ht' Hi' Ha [policy Hallow] _ _ Ho] & _).
  rewrite Ht in Ht'. apply (inj Ok) in Ht'. injection Ht' as <- <-.
  rewrite Hi in Hi'. apply (inj Ok) in Hi' as <-. rewrite Hhttp in Ho.
  destruct (allowed_has_policy _ Hdata _ _ _ _ _ Ha Hallow) as [Hnone|Hnamed]; [by left|right].
  destruct (inspected_route _ Hdata _ _ _ _ _ Ha Hallow ep pr Hnamed Hep Hp) as (configs & cfg & Hroute & Hin & Hcfg).
  destruct configs as [|config configs]; [by apply elem_of_nil in Hin|].
  assert (prepare_http_relay (OpaEngine.query_l7_route_snapshot a) (at_relay es) a = Some prepared) as Hprep.
  { unfold relay_tunnel in Ho. repeat case_match; simplify_eq/=; done. }
  rewrite Hroute in Hprep. unfold prepare_http_relay in Hprep. cbn [validate_route_generation from_option] in Hprep.
  destruct (negb _); [done|]. unfold OpaEngine.clone_engine_for_tunnel in Hprep.
  destruct (_ =? _); [|done]. apply (inj Some) in Hprep as <-.
  exists (config :: configs), cfg, (tunnel_engine (engine_data (at_relay es)) (generation (at_relay es))
    (middleware_runner (at_relay es))). rewrite Hreads. cbn. done.
Qed.
End relays.
End policy.
