(* ===== verification/OpaSamples.v ===== *)
(** * OpaSamples: policies and requests the theorems about the engine apply to

    A policy with a read-only API that carries a token grant, a database over
    explicit TCP and a fail-closed middleware. Every hypothesis of the
    theorems about connections, requests, tunnels and relays holds of it. *)

From stdpp Require Import gmap sorting.
From S2P Require Import Prelude Net IpParse Order Text Patterns PolicyDns Destination.
From S2P Require Import PolicyTypes PolicyMerge Ambiguity AmbiguityFacts PolicySchema PolicyValidate.
From S2P Require Import PolicyValidateFacts OpaData Rego OpaEngine Connect OpaFacts OpaRequests OpaLifecycle.
From S2P Require Import ConnectFacts.
Import IpParse L7Validate PolicyValidate.

Local Open Scope Z_scope.

Module OpaSample.

#[local] Instance unit_struct : ProtoStruct := {| Struct := unit; struct_eqb _ _ := true |}.
#[local] Existing Instance example_dns.
#[local] Existing Instance CheckFacts.token_glob.
#[local] Existing Instance example_world.
#[local] Existing Instance example_text.

(** [glob.match] on one delimiter, or on none. *)
Definition sample_glob_match (delimiters : list bytes) (p s : bytes) : bool :=
  CheckFacts.matches_tokens (match delimiters with [[d]] => d | _ => -1 end)
    (Tokens.tokenize_delimited_glob p) (chars s).
#[local] Instance sample_rego : RegoBuiltins := {|
  glob_match := sample_glob_match;
  lower := to_ascii_lowercase;
  upper := Rego.to_ascii_uppercase;
  lower_ascii s _ := eq_refl;
  upper_ascii s _ := eq_refl;
|}.
#[local] Instance sample_faults : RegoFaults := {|
  connection_fault _ _ _ _ := false;
  request_fault _ _ _ _ _ := false;
|}.
#[local] Instance sample_rego_glob : CheckFacts.RegoGlob (glob_match [lit "."]).
Proof. intros p h _. apply CheckFacts.matches_tokens_sound. Qed.

Definition ep (host protocol : bytes) (port tls access : Z) (credentialed : bool) (owner : bytes)
  : NetworkEndpoint :=
  Endpoint.mk host 0 protocol tls 0 access [] [] [port] [] false [] ∅ 0 [] false false false
    [] [] [] 0 None None false credentialed owner.
Definition api : NetworkEndpoint := ep (lit "api.example.com") (lit "rest") 443 0 1 true (lit "grant").
Definition db : NetworkEndpoint := ep (lit "db.example.com") (lit "tcp") 5432 0 0 true [].
Definition curl : ExecInput := exec_input (lit "/usr/bin/curl") [].
Definition guarded : NetworkMiddlewareConfig :=
  middleware_of (lit "redact") (lit "openshell/redact") None []
    (Some (selector_of [lit "api.example.com"] [])) 1.
Definition policy : SandboxPolicy :=
  let p := restrictive_default_policy in
  policy_of (version p) (filesystem p) (landlock p) (process p)
    {[ lit "api" := rule_of (lit "api") [api] [lit "/usr/bin/curl"];
       lit "db" := rule_of (lit "db") [db] [lit "/usr/bin/curl"] ]}
    {[ lit "redact" := guarded ]}.

Definition hash (p : SandboxPolicy) : bytes := lit "h".
Definition id_of (e : NetworkEndpoint) : bytes := lit "e".
Definition resolve (path : bytes) : OpaData.BinaryResolution := OpaData.Absent.
Definition load (p : SandboxPolicy) : result OpaData OpaData.LoadError :=
  OpaData.from_proto hash id_of resolve p true.
Definition data : OpaData := match load policy with Ok data => data | Err _ => opa_data ∅ ∅ true end.
Lemma loads : load policy = Ok data.
Proof. vm_compute. reflexivity. Qed.

Definition running : OpaEngine unit := OpaEngine.with_engine data ().
Definition to_api : NetworkInput := network_input (lit "api.example.com") 443 curl.

(** ** What the policy says *)

Lemma policy_rules key rule :
  policies policy !! key = Some rule →
  (key = lit "api" ∧ rule = rule_of (lit "api") [api] [lit "/usr/bin/curl"])
  ∨ (key = lit "db" ∧ rule = rule_of (lit "db") [db] [lit "/usr/bin/curl"]).
Proof.
  cbn [policy policies]. rewrite lookup_insert_Some, lookup_singleton_Some.
  intros [[<- <-]|[_ [<- <-]]]; [left|right]; done.
Qed.
Lemma named : policies policy !! [] = None.
Proof. vm_compute. reflexivity. Qed.
Lemma has_api : policies policy !! lit "api" = Some (rule_of (lit "api") [api] [lit "/usr/bin/curl"]).
Proof. vm_compute. reflexivity. Qed.
Lemma has_db : policies policy !! lit "db" = Some (rule_of (lit "db") [db] [lit "/usr/bin/curl"]).
Proof. vm_compute. reflexivity. Qed.

Lemma curl_authorized rule :
  binaries rule = [lit "/usr/bin/curl"] → authorizes_binary resolve true rule curl.
Proof.
  intros Hb. right. exists (lit "/usr/bin/curl"), (lit "/usr/bin/curl"), (lit "/usr/bin/curl").
  rewrite Hb. split_and!; [left|left|left|vm_compute; reflexivity].
Qed.
Lemma api_selected : selects api (lit "api.example.com") 443.
Proof. split; [left|]. left. split; vm_compute; reflexivity. Qed.
Lemma db_selected : selects db (lit "db.example.com") 5432.
Proof. split; [left|]. left. split; vm_compute; reflexivity. Qed.
Lemma only_api ep' port : selects ep' (lit "api.example.com") port → ep' ∈ [api; db] → ep' = api.
Proof.
  intros [_ Hs] [->|[->|[]%elem_of_nil]%elem_of_cons]%elem_of_cons; [done|].
  exfalso. destruct Hs as [[_ H]|[[H _]|[H _]]]; vm_compute in H; discriminate.
Qed.

(** ** Connections *)

Definition allowed : EgressAuthorization :=
  match OpaEngine.authorize_egress to_api running with
  | Ok a => a
  | Err _ => egress_authorization_of (Allow None) [] [] false 0
  end.
Lemma api_allowed : OpaEngine.authorize_egress to_api running = Ok allowed.
Proof. vm_compute. reflexivity. Qed.

Lemma egress_decision_exact_witness :
  action allowed = Allow (Some (lit "api"))
  ∧ grants resolve policy true (lit "api.example.com") 443 curl (lit "api")
  ∧ exact_declared_host allowed = true.
Proof.
  destruct (egress_decision_exact hash id_of resolve policy true data loads (lit "api.example.com") 443
              curl running allowed eq_refl eq_refl api_allowed) as (Hact & _ & Hexact & _).
  assert (action allowed = Allow (Some (lit "api"))) as Ha by (vm_compute; reflexivity).
  rewrite Ha in Hact. destruct Hact as (key & Hkey & Hg & _). split; [done|].
  assert (key = lit "api") as -> by (rewrite <- (text_default key), <- Hkey; reflexivity).
  split; [exact Hg|]. apply Hexact. exists (lit "api"), (rule_of (lit "api") [api] [lit "/usr/bin/curl"]), api.
  split_and!; [apply has_api|left|reflexivity|vm_compute; reflexivity|reflexivity|left|by apply curl_authorized].
Defined.

Lemma inspected_endpoint_stays_inspected_witness :
  ∃ configs cfg, OpaEngine.query_l7_route_snapshot allowed = Some (configs, 0) ∧ cfg ∈ configs
    ∧ L7Config.cfg_protocol cfg = Rest ∧ L7Config.cfg_provider_credentialed cfg = true.
Proof.
  destruct (inspected_endpoint_stays_inspected hash id_of resolve policy true data loads
              (lit "api.example.com") 443 curl running allowed (lit "api")
              (rule_of (lit "api") [api] [lit "/usr/bin/curl"]) api Rest eq_refl eq_refl api_allowed
              named has_api) as (configs & cfg & Hr & Hin & Hp & _ & _ & _ & Hc).
  - left.
  - apply api_selected.
  - by apply curl_authorized.
  - reflexivity.
  - exists configs, cfg. by split_and!.
Defined.

(** ** Requests *)

Definition tunnel : TunnelPolicyEngine unit := tunnel_engine data 0 ().
Definition reading : L7RequestInfo := l7_request (lit "get") (lit "/v1/items") ∅ None None.

Lemma scope_api path ep' : in_scope resolve policy true to_api path ep' → ep' = api.
Proof.
  intros (key & rule & Hr & He & Hs & _). apply (only_api ep' 443 Hs).
  destruct (policy_rules _ _ Hr) as [[_ ->]|[_ ->]]; apply list_elem_of_singleton in He as ->;
    [left|right; left].
Qed.
Lemma api_in_scope path : in_scope resolve policy true to_api path api.
Proof.
  exists (lit "api"), (rule_of (lit "api") [api] [lit "/usr/bin/curl"]).
  split_and!; [apply has_api|left|apply api_selected|by apply curl_authorized|left; reflexivity].
Qed.

Lemma rest_request_decision_exact_witness :
  ∃ reason, OpaEngine.evaluate_l7_request tunnel 0 to_api reading = Ok (true, reason).
Proof.
  destruct (rest_request_decision_exact hash id_of resolve policy true data loads to_api tunnel reading)
    as (allowed & reason & He & Hiff & _).
  - reflexivity.
  - reflexivity.
  - by split.
  - intros ep' ->%scope_api. reflexivity.
  - exists reason. rewrite (proj2 Hiff) in He; [exact He|]. split.
    + exists api. split; [apply api_in_scope|]. right. split; [reflexivity|]. left. split; [reflexivity|].
      vm_compute. left.
    + intros ep' ->%scope_api (rule & Hrule & _). by apply elem_of_nil in Hrule.
Defined.

Lemma read_only_allows_no_write_witness :
  OpaEngine.evaluate_l7_request tunnel 0 to_api reading = Ok (true, None)
  ∧ upper (lit "get") ∈ [lit "GET"; lit "HEAD"; lit "OPTIONS"].
Proof.
  assert (OpaEngine.evaluate_l7_request tunnel 0 to_api reading = Ok (true, None)) as Hv
    by (vm_compute; reflexivity).
  split; [exact Hv|].
  apply (read_only_allows_no_write hash id_of resolve policy true data loads to_api tunnel reading None).
  - reflexivity.
  - by split.
  - intros ep' ->%scope_api. by split.
  - exact Hv.
Defined.

Definition granted : gset bytes :=
  match OpaEngine.admitted_token_grant_owners tunnel 0 to_api reading with Ok o => o | Err _ => ∅ end.
Lemma grant_owner_admits_every_call_witness :
  lit "grant" ∈ granted ∧ OpaEngine.evaluate_l7_request tunnel 0 to_api reading = Ok (true, None).
Proof.
  assert (lit "grant" ∈ granted) as Hin by (apply (bool_decide_unpack _); vm_compute; exact I).
  split; [exact Hin|].
  apply (grant_owner_admits_every_call hash id_of resolve policy true data tunnel 0 to_api reading granted
           (lit "grant") loads); [reflexivity|vm_compute; reflexivity|exact Hin].
Defined.

Definition call (method : bytes) : JsonRpcCallInfo := jsonrpc_call method ∅ None.
Definition batch_info : JsonRpcRequestInfo :=
  jsonrpc_info [call (lit "a"); call (lit "b")] true false false None.
Definition batch : L7RequestInfo := l7_request (lit "POST") (lit "/rpc") ∅ None (Some batch_info).
Lemma log_verdict_is_enforced_witness :
  ∃ verdict, OpaEngine.evaluate_jsonrpc_l7_request_for_log tunnel 0 to_api batch batch_info = Ok verdict
    ∧ OpaEngine.evaluate_l7_request tunnel 0 to_api batch = Ok verdict ∧ verdict.1 = false.
Proof.
  pose proof (log_verdict_is_enforced tunnel 0 to_api batch batch_info eq_refl) as H.
  destruct (OpaEngine.evaluate_jsonrpc_l7_request_for_log tunnel 0 to_api batch batch_info) as [verdict|]
    eqn:Hlog; [|by vm_compute in Hlog].
  exists verdict. split_and!; [reflexivity|exact H|]. vm_compute in Hlog. by injection Hlog as <-.
Defined.

Lemma reasons_never_conflict_witness :
  OpaEngine.evaluate_l7_request tunnel 1 to_api batch = Err StaleGeneration
  ∧ ((StaleGeneration = StaleGeneration ∧ 1 ≠ captured_generation tunnel)
     ∨ (StaleGeneration = EvaluationFailed ∧ 1 = captured_generation tunnel)).
Proof.
  assert (OpaEngine.evaluate_l7_request tunnel 1 to_api batch = Err StaleGeneration) as He
    by (vm_compute; reflexivity).
  split; [exact He|].
  apply (reasons_never_conflict tunnel 1 to_api JsonRpc batch StaleGeneration); [reflexivity|by left|exact He].
Defined.

(** ** Tunnels *)

Definition opened : EngineWorld (Registry := unit) :=
  engine_world running [(to_api, allowed)] [(to_api, tunnel)].
Lemma opened_reachable : reachable data () opened.
Proof.
  eapply reachable_step; [eapply reachable_step; [apply reachable_start|apply StepAuthorize, api_allowed]|].
  eapply StepOpenTunnel; [left|vm_compute; reflexivity|vm_compute; reflexivity].
Qed.
Lemma requests_follow_the_policy_in_force_witness :
  tunnel_data tunnel = engine_data running ∧ fail_closed_reason running = None.
Proof.
  destruct (requests_follow_the_policy_in_force data () opened to_api tunnel reading (true, None)
              opened_reachable) as (Hd & _ & Hf & _).
  - left.
  - vm_compute. reflexivity.
  - split; [exact Hd|exact Hf].
Defined.

(** ** Relays *)

Definition asking (looks : list (bytes * bool)) : ConnectInput :=
  connect_input (Ok curl) 7 None None true (λ _, Some true) looks.
Definition connecting (p : SandboxPolicy) (looks : list (bytes * bool)) (target : bytes)
  : option (ConnectOutcome (Registry := unit)) :=
  match load p with
  | Ok data => Some (handle_connect (N4 := Cidr4) (N6 := Cidr6)
                       (constant_reads (OpaEngine.with_engine data ())) (asking looks) target)
  | Err _ => None
  end.
Lemma constant_ordered (e : OpaEngine unit) : ordered (constant_reads e).
Proof. by repeat split. Qed.

Definition http_looks : list (bytes * bool) := [(lit "GE", false); (lit "GET / HTTP/1.1", false)].
Definition binary_looks : list (bytes * bool) := [([0; 0; 0; 8], false)].
Local Abbreviation connect looks target :=
  (handle_connect (N4 := Cidr4) (N6 := Cidr6) (constant_reads running) (asking looks) target).

Definition public (host : bytes) (p : Z) : UpstreamConnector :=
  connector host p [socket (V4 (ipv4 93 184 216 34)) p].
Lemma raw_to_db :
  connect binary_looks (lit "db.example.com:5432") = RawRelay (public (lit "db.example.com") 5432) 0.
Proof. vm_compute. reflexivity. Qed.

Lemma connect_is_decided_by_one_policy_witness :
  relayed (connect binary_looks (lit "db.example.com:5432")) = Some (public (lit "db.example.com") 5432)
  ∧ fail_closed_reason running = None.
Proof.
  assert (relayed (connect binary_looks (lit "db.example.com:5432"))
          = Some (public (lit "db.example.com") 5432)) as Hr by (by rewrite raw_to_db).
  split; [exact Hr|].
  exact (proj2 (proj2 (connect_is_decided_by_one_policy (constant_reads running) (asking binary_looks)
           (lit "db.example.com:5432") _ (constant_ordered running) Hr))).
Defined.


Lemma policy_endpoints key rule e : policies policy !! key = Some rule → e ∈ endpoints rule → e = api ∨ e = db.
Proof.
  intros [[_ ->]|[_ ->]]%policy_rules He; apply list_elem_of_singleton in He as ->; [by left|by right].
Qed.
Lemma policy_refs r :
  r ∈ Ambiguity.endpoint_refs (map_to_list (policies (canonical policy))) →
  CheckFacts.ascii (Endpoint.host (Ambiguity.ref_endpoint r))
  ∧ CheckFacts.ascii (Endpoint.path (Ambiguity.ref_endpoint r))
  ∧ existsb CheckFacts.is_rego_meta (Endpoint.host (Ambiguity.ref_endpoint r)) = false.
Proof.
  assert (Forall (λ r, bool_decide (CheckFacts.ascii (Endpoint.host (Ambiguity.ref_endpoint r)))
                       && bool_decide (CheckFacts.ascii (Endpoint.path (Ambiguity.ref_endpoint r)))
                       && negb (existsb CheckFacts.is_rego_meta (Endpoint.host (Ambiguity.ref_endpoint r))) = true)
            (Ambiguity.endpoint_refs (map_to_list (policies (canonical policy))))) as Hall.
  { apply (bool_decide_unpack _). vm_compute. exact I. }
  rewrite list.Forall_forall in Hall. intros Hr%Hall.
  rewrite !andb_true_iff, !bool_decide_eq_true, negb_true_iff in Hr. tauto.
Qed.
Lemma policy_readable host p :
  CheckFacts.ascii host → 0 < p →
  CheckFacts.readable (map_to_list (policies (canonical policy))) host p [].
Proof.
  intros Hh Hp. split; [| |done|done|split; [by apply CheckFacts.ascii_str, CheckFacts.ascii_check|constructor]].
  - apply list.Forall_forall. intros r (Hr & Hpath & _)%policy_refs.
    split; apply CheckFacts.ascii_str; [by apply CheckFacts.ascii_lower_ascii|done].
  - apply list.Forall_forall. by intros r (_ & _ & Hr)%policy_refs.
Qed.

Lemma db_read_alike : read_alike policy (lit "db.example.com:5432").
Proof.
  split.
  - intros key rule e Hr He. destruct (policy_endpoints _ _ _ Hr He) as [->| ->];
      apply CheckFacts.ascii_check; vm_compute; reflexivity.
  - intros raw_host p Ht. vm_compute in Ht. injection Ht as <- <-.
    apply policy_readable; [apply CheckFacts.ascii_check; vm_compute; reflexivity|lia].
Qed.
Lemma raw_relay_bypasses_nothing_witness :
  read_alike policy (lit "db.example.com:5432") ∧ Endpoint.protocol db ≠ [] ∧ Endpoint.tls db ≠ 1.
Proof.
  split; [exact db_read_alike|].
  destruct (raw_relay_bypasses_nothing hash id_of resolve policy true data loads (N4 := Cidr4) (N6 := Cidr6)
              (constant_reads running) (asking binary_looks) (lit "db.example.com:5432")
              (public (lit "db.example.com") 5432) 0 (constant_ordered running) eq_refl raw_to_db)
    as (raw_host & p & exec & Ht & Hi & _ & [(rule & e & Hr & _)|Hep]); [by rewrite named in Hr|].
  vm_compute in Ht. injection Ht as <- <-. injection Hi as <-. apply (Hep db); [|reflexivity|reflexivity].
  exists (lit "db"), (rule_of (lit "db") [db] [lit "/usr/bin/curl"]).
  split_and!; [apply has_db|left|apply db_selected|by apply curl_authorized].
Defined.

Definition api_relay : PreparedHttpPolicy :=
  match connect http_looks (lit "api.example.com:443") with
  | HttpRelay _ _ prepared => prepared
  | _ => Passthrough 0
  end.
Lemma http_to_api :
  connect http_looks (lit "api.example.com:443")
  = HttpRelay false (public (lit "api.example.com") 443) api_relay.
Proof. vm_compute. reflexivity. Qed.
Lemma http_relay_inspects_witness :
  ∃ configs evaluator, api_relay = Inspect configs evaluator ∧ tunnel_data evaluator = data.
Proof.
  destruct (http_relay_inspects hash id_of resolve policy true data loads (N4 := Cidr4) (N6 := Cidr6)
              (constant_reads running) (asking http_looks) (lit "api.example.com:443") false
              (public (lit "api.example.com") 443) api_relay (lit "api.example.com") 443 curl api Rest
              (constant_ordered running) eq_refl http_to_api)
    as [(rule & e & Hr & _)|(configs & cfg & evaluator & Hp & _ & _ & Hd & _)].
  - vm_compute. reflexivity.
  - reflexivity.
  - exists (lit "api"), (rule_of (lit "api") [api] [lit "/usr/bin/curl"]).
    split_and!; [apply has_api|left|apply api_selected|by apply curl_authorized].
  - reflexivity.
  - by rewrite named in Hr.
  - exists configs, evaluator. split; [exact Hp|exact Hd].
Defined.

(** ** Gaps *)

Definition under (key : bytes) (e : NetworkEndpoint) : SandboxPolicy :=
  with_policies restrictive_default_policy {[ key := rule_of key [e] [lit "/usr/bin/curl"] ]}.

(** Explicit TCP evades the guard of the credentials. Of two endpoints
    with provider credentials and no exception, the one without a protocol is
    refused, and the one with the protocol [tcp], which is inspected as little,
    is relayed raw. *)
Lemma explicit_tcp_evades_the_guard :
  connecting (under (lit "db") (ep (lit "db.example.com") [] 5432 0 0 true [])) binary_looks
    (lit "db.example.com:5432") = Some UninspectedCredentials
  ∧ connecting (under (lit "db") (ep (lit "db.example.com") (lit "tcp") 5432 0 0 true [])) binary_looks
      (lit "db.example.com:5432") = Some (RawRelay (public (lit "db.example.com") 5432) 0).
Proof. split; vm_compute; reflexivity. Qed.

(** A rule under the empty name loses its inspection. The validator and
    the loader accept the name, the engine reports the match as none, and the
    proxy then relays the requests of a REST endpoint without its rules. *)
Theorem nameless_rule_is_not_inspected :
  validate_sandbox_policy (under [] api) = Ok ()
  ∧ connecting (under [] api) http_looks (lit "api.example.com:443")
    = Some (HttpRelay false (public (lit "api.example.com") 443) (Passthrough 0)).
Proof. split; vm_compute; reflexivity. Qed.

Definition denying (method path : bytes) : NetworkEndpoint :=
  Endpoint.mk (lit "api.example.com") 0 (lit "rest") 0 0 3 [] [] [443]
    [L7Allow.mk method path [] ∅ [] [] [] ∅] false [] ∅ 0 [] false false false [] [] [] 0 None None
    false false [].
Definition evaluating (p : SandboxPolicy) (request : L7RequestInfo)
  : option (result (bool * option Rego.RequestDenyReason) EngineError) :=
  match load p with
  | Ok data => Some (OpaEngine.evaluate_l7_request (tunnel_engine data 0 ()) 0 to_api request)
  | Err _ => None
  end.
(** A deny rule without a path denies nothing. It passes both validations,
    and a request with its method is allowed; with the path [**] it is
    denied. *)
Theorem deny_rule_without_path_is_void :
  validate_sandbox_policy (under (lit "api") (denying (lit "DELETE") [])) = Ok ()
  ∧ evaluating (under (lit "api") (denying (lit "DELETE") []))
      (l7_request (lit "DELETE") (lit "/v1") ∅ None None) = Some (Ok (true, None))
  ∧ evaluating (under (lit "api") (denying (lit "DELETE") (lit "**")))
      (l7_request (lit "DELETE") (lit "/v1") ∅ None None)
    = Some (Ok (false, Some (Rego.BlockedByDenyRule (lit "DELETE") (lit "/v1")))).
Proof. split_and!; vm_compute; reflexivity. Qed.

(** Nor does an allow rule without a path allow anything, although the prover
    reads its path as [**] ([Prover.method_and_path_match]). *)
Definition allowing (path : bytes) : NetworkEndpoint :=
  Endpoint.mk (lit "api.example.com") 0 (lit "rest") 0 1 0
    [Some (L7Allow.mk (lit "GET") path [] ∅ [] [] [] ∅)] [] [443] [] false [] ∅ 0 []
    false false false [] [] [] 0 None None false false [].
Lemma allow_rule_without_path_is_void :
  validate_sandbox_policy (under (lit "api") (allowing [])) = Ok ()
  ∧ evaluating (under (lit "api") (allowing []))
      (l7_request (lit "GET") (lit "/v1") ∅ None None)
    = Some (Ok (false, Some (Rego.NotPermitted (lit "GET") (lit "/v1"))))
  ∧ evaluating (under (lit "api") (allowing (lit "**")))
      (l7_request (lit "GET") (lit "/v1") ∅ None None) = Some (Ok (true, None)).
Proof. split_and!; vm_compute; reflexivity. Qed.

Definition registered : NetworkEndpoint :=
  Endpoint.mk (lit "api.example.com") 0 (lit "graphql") 0 0 1 [] [] [443] [] false
    (lit "allow_registered") {[ lit "abc" := GraphqlOperation.mk (lit "query") [] [] ]} 0 []
    false false false [] [] [] 0 None None false false [].
(** The supervisor refuses what the gateway accepts. A persisted query
    without fields passes the validation of the policy, and the document that
    is made of it does not load. *)
Theorem accepted_query_does_not_load :
  validate_sandbox_policy (under (lit "api") registered) = Ok ()
  ∧ load (under (lit "api") registered)
    = Err (OpaData.L7ValidationFailed [(lit "api", 0%nat, OpaData.EmptyFields)]).
Proof. split; vm_compute; reflexivity. Qed.
End OpaSample.
