(* ===== verification/Http.v ===== *)
(** * Http: HTTP/1 requests as the inspector reads and edits them
    (crates/openshell-supervisor-network/src/l7/rest.rs, src/l7/http.rs,
    src/l7/provider.rs)

    The head of a request is read byte by byte, checked and parsed; its target
    is canonicalised, its body length decided, and its fields are stripped,
    replaced and appended before it is forwarded. A client is the pieces in
    which its bytes arrive and how the stream ends. *)

From stdpp Require Import gmap.
From S2P Require Import Prelude PathCanon IpParse Text Destination.

(** ** The client's stream *)

(** How reading ends once the bytes are used up: the end of the stream, a reset
    or a broken pipe, or another error. *)
Inductive ReadEnd : Type := Eof | BenignClose | Broken.
#[export] Instance ReadEnd_eq_dec : EqDecision ReadEnd.
Proof. solve_decision. Defined.

(** The pieces that arrive, none of them empty. *)
Record Reader := reader_of { segments : list (Z * bytes); ending : ReadEnd }.
Definition stream (r : Reader) : bytes := concat (map (λ '(b, s), b :: s) (segments r)).

Definition push_segment (s : bytes) (rest : list (Z * bytes)) : list (Z * bytes) :=
  match s with [] => rest | b :: s => (b, s) :: rest end.

(** [AsyncReadExt::read_u8] and [AsyncReadExt::read] into a buffer of [n] bytes;
    a read that returns no byte is the end of the stream. *)
Definition read_u8 (r : Reader) : option (Z * Reader) :=
  match segments r with
  | [] => None
  | (b, s) :: rest => Some (b, reader_of (push_segment s rest) (ending r))
  end.
Definition read (n : nat) (r : Reader) : option (bytes * Reader) :=
  match segments r with
  | [] => match ending r with Eof => Some ([], r) | _ => None end
  | (b, s) :: rest =>
      Some (take n (b :: s), reader_of (push_segment (drop n (b :: s)) rest) (ending r))
  end.

(** ** The [http] crate *)

(** [http::uri::Authority]: its parser and accessors, and the authority of a
    URI. *)
Class HttpAuthority {http_uri : HttpUri} := {
  Authority : Type;
  authority_parse : bytes → option Authority;
  authority_host : Authority → bytes;
  authority_port : Authority → option Z;
  uri_authority : Uri → option Authority;
}.
Arguments HttpAuthority : clear implicits.

(** ** Data *)

Inductive BodyLength : Type :=
| ContentLength (len : Z)
| Chunked
| NoBody.
#[export] Instance BodyLength_eq_dec : EqDecision BodyLength.
Proof. solve_decision. Defined.

Record L7Request := l7_request_of {
  rq_action : bytes;
  rq_target : bytes;
  rq_query_params : gmap bytes (list bytes);
  raw_header : bytes;
  body_length : BodyLength;
}.

(** An error carries its kind instead of its text. *)
Inductive HttpError : Type :=
| HeadersTooLarge | ReadFailed | OutOfFuel | Panicked
| BareLineFeed | InvalidUtf8 | MissingTerminator
| MalformedRequestLine | MethodNotToken | TargetControlByte | UnsupportedVersion
| ContinuationLine | MissingColon | SpaceBeforeColon | NameNotToken | ValueControlByte
| InvalidConnectionToken | NominatesFraming
| MissingPart | MultipleHosts | InvalidAuthority | MissingHost
| InvalidUri | MissingAuthority | AuthorityMismatch | UnsupportedScheme | NoTransportScheme
| EmptyCoding | InvalidContentLength | DifferingContentLengths | BothFramings | UnsupportedCoding
| TargetRejected (e : CanonicalizeError) | InvalidPercent | QueryNotUtf8
| InvalidOnExisting | EmptyMutation
| UpgradeNotGet | UpgradeMissing | InvalidUpgradeKey | InvalidUpgradeVersion
| ChunkLineNotUtf8 | ChunkLineControlByte | ChunkSizeToken | ChunkSizeTooLarge
| TrailerControlByte | TrailerMissingColon | TrailerName | TrailerValue
| LineTooLong | TrailersTooLarge | TooManyTrailers | TrailersUnsupported
| EndedEarly | MissingChunkEnd | StalePolicy | OverCapacity | BodyTooLarge
| UnreadBytes | ExcessBytes | FramingTooLarge | MarkerInTrailer | MarkerInBody | ChainTooLong.
#[export] Instance HttpError_eq_dec : EqDecision HttpError.
Proof. solve_decision. Defined.

Definition MAX_HEADER_BYTES : Z := 16384.
Definition DOUBLE_CRLF : bytes := CRLF ++ CRLF.

(** ** Fields *)

Definition token_symbols : bytes := lit "!#$%&'*+-.^_`|~".
Definition is_http_field_name_byte (b : Z) : bool :=
  is_ascii_alphanumeric b || contains_byte b token_symbols.
Definition is_http_field_value_byte (b : Z) : bool :=
  (b =? 9) || ((32 <=? b) && (b <=? 126)) || (128 <=? b).

Definition is_blank (b : Z) : bool := (b =? 32) || (b =? 9).
Definition first_blank (s : bytes) : bool := match s with b :: _ => is_blank b | [] => false end.

Definition validate_http_request_line (line : bytes) : result unit HttpError :=
  match split_on 32 line with
  | [method; target; version] =>
      if is_empty method || is_empty target || is_empty version then Err MalformedRequestLine
      else if negb (forallb is_http_field_name_byte method) then Err MethodNotToken
      else if existsb (λ b, (b <=? 32) || (b =? 127)) target then Err TargetControlByte
      else if negb (bool_decide (version = lit "HTTP/1.0") || bool_decide (version = lit "HTTP/1.1"))
      then Err UnsupportedVersion
      else Ok ()
  | _ => Err MalformedRequestLine
  end.

(** One line of fields, with the options a [Connection] field names. *)
Definition validate_header_line (line : bytes) : result (list bytes) HttpError :=
  if first_blank line then Err ContinuationLine
  else match split_once 58 line with
  | None => Err MissingColon
  | Some (name, value) =>
      if first_blank (reverse name) then Err SpaceBeforeColon
      else if is_empty name || negb (forallb is_http_field_name_byte name) then Err NameNotToken
      else if negb (forallb is_http_field_value_byte value) then Err ValueControlByte
      else if eq_ignore_ascii_case name (lit "connection") then
        try_collect (λ token,
          let token := trim token in
          if is_empty token || negb (forallb is_http_field_name_byte token)
          then Err InvalidConnectionToken
          else Ok (to_ascii_lowercase token)) (split_on 44 value)
      else Ok []
  end.

Definition framing_names : list bytes :=
  [lit "host"; lit "content-length"; lit "transfer-encoding"].

Definition validate_http_request_header_block (headers : bytes) : result unit HttpError :=
  let? headers := ok_or (from_utf8 headers) InvalidUtf8 in
  let? block := ok_or (strip_suffix DOUBLE_CRLF headers) MissingTerminator in
  match split_str CRLF block with
  | [] => Err MissingPart
  | request_line :: lines =>
      let? _ := validate_http_request_line request_line in
      let? nominated := try_collect validate_header_line lines in
      if existsb (λ name, bool_decide (name ∈ framing_names)) (concat nominated)
      then Err NominatesFraming else Ok ()
  end.

(** ** The length of the body *)

Record Framing := framing { codings : list bytes; cl_value : option Z }.

(** One line of [parse_body_length]. *)
Definition framing_step (f : Framing) (line : bytes) : result Framing HttpError :=
  match split_once 58 line with
  | None => Ok f
  | Some (name, value) =>
      let? f :=
        (if eq_ignore_ascii_case name (lit "transfer-encoding") then
           let? added := try_collect (λ coding,
                           let coding := trim coding in
                           if is_empty coding then Err EmptyCoding
                           else Ok (to_ascii_lowercase coding)) (split_on 44 value) in
           Ok (framing (codings f ++ added) (cl_value f))
         else Ok f) in
      if eq_ignore_ascii_case name (lit "content-length") then
        match parse_uint u64_max (trim value) with
        | None => Err InvalidContentLength
        | Some len =>
            match cl_value f with
            | Some prev => if prev =? len then Ok (framing (codings f) (Some len))
                           else Err DifferingContentLengths
            | None => Ok (framing (codings f) (Some len))
            end
        end
      else Ok f
  end.
Fixpoint framing_of (f : Framing) (lines : list bytes) : result Framing HttpError :=
  match lines with
  | [] => Ok f
  | line :: lines => let? f := framing_step f line in framing_of f lines
  end.
Definition parse_body_length (headers : bytes) : result BodyLength HttpError :=
  let? f := framing_of (framing [] None) (drop 1 (lines headers)) in
  match codings f, cl_value f with
  | _ :: _, Some _ => Err BothFramings
  | [coding], None => if bool_decide (coding = lit "chunked") then Ok Chunked else Err UnsupportedCoding
  | _ :: _ :: _, None => Err UnsupportedCoding
  | [], Some len => Ok (ContentLength len)
  | [], None => Ok NoBody
  end.

(** ** Queries *)

(** [decode_query_component], and [form_url_decode] where a malformed escape is
    kept. *)
Fixpoint decode_component (input : bytes) : option bytes :=
  match input with
  | [] => Some []
  | b :: rest =>
      if b =? 43 then cons 32 <$> decode_component rest
      else if negb (b =? 37) then cons b <$> decode_component rest
      else match rest with
      | h :: l :: rest =>
          match hex_digit h, hex_digit l with
          | Some hi, Some lo => cons (Z.lor (Z.shiftl hi 4) lo) <$> decode_component rest
          | _, _ => None
          end
      | _ => None
      end
  end.
Definition decode_query_component (input : bytes) : result bytes HttpError :=
  match decode_component input with
  | None => Err InvalidPercent
  | Some decoded => ok_or (from_utf8 decoded) QueryNotUtf8
  end.

(** [params.entry(key).or_default().push(value)]. *)
Definition push_param (params : gmap bytes (list bytes)) (key value : bytes) : gmap bytes (list bytes) :=
  <[key := default [] (params !! key) ++ [value]]> params.
Fixpoint parse_pairs (params : gmap bytes (list bytes)) (fields : list bytes)
  : result (gmap bytes (list bytes)) HttpError :=
  match fields with
  | [] => Ok params
  | field :: fields =>
      if is_empty field then parse_pairs params fields
      else
        let '(raw_key, raw_value) := default (field, []) (split_once 61 field) in
        let? key := decode_query_component raw_key in
        let? value := decode_query_component raw_value in
        parse_pairs (push_param params key value) fields
  end.
Definition parse_query_params (query : bytes) : result (gmap bytes (list bytes)) HttpError :=
  if is_empty query then Ok ∅ else parse_pairs ∅ (split_on 38 query).
Definition parse_target_query (target : bytes) : result (bytes * gmap bytes (list bytes)) HttpError :=
  match split_once 63 target with
  | Some (path, query) => let? params := parse_query_params query in Ok (path, params)
  | None => Ok (target, ∅)
  end.

(** ** Parsing a request *)

(** A line feed that no carriage return precedes. *)
Fixpoint bare_lf (previous : option Z) (s : bytes) : bool :=
  match s with
  | [] => false
  | b :: s => ((b =? 10) && negb (bool_decide (previous = Some 13))) || bare_lf (Some b) s
  end.

(** The head, up to the first empty line; [None] when the client closes before
    its first byte. *)
Fixpoint read_head (fuel : nat) (buf : bytes) (client : Reader)
  : result (option (bytes * Reader)) HttpError :=
  match fuel with
  | O => Err OutOfFuel
  | S fuel =>
      if MAX_HEADER_BYTES <? Z.of_nat (length buf) then Err HeadersTooLarge
      else match read_u8 client with
      | None => if is_empty buf && negb (bool_decide (ending client = Broken)) then Ok None
                else Err ReadFailed
      | Some (b, client) =>
          let buf := buf ++ [b] in
          if ends_with DOUBLE_CRLF buf then Ok (Some (buf, client)) else read_head fuel buf client
      end
  end.

(** The request line with another target. *)
Definition rewrite_request_line_target (raw method canonical_path : bytes) (raw_query : option bytes)
  (version : bytes) : result bytes HttpError :=
  match find_sub CRLF raw with
  | None => Err MissingTerminator
  | Some eol =>
      let new_target := match raw_query with
                        | Some (c :: q) => canonical_path ++ 63 :: c :: q
                        | _ => canonical_path
                        end in
      Ok (method ++ 32 :: new_target ++ 32 :: version ++ drop eol raw)
  end.

(** The bytes before and after the end of the head. *)
Definition head_end (raw : bytes) : option nat := (λ p, (p + 4)%nat) <$> find_sub DOUBLE_CRLF raw.

Section requests.
Context {http_uri : HttpUri} {http_authority : HttpAuthority http_uri}.

Definition default_port_for_scheme (scheme : option bytes) : option Z :=
  match scheme with
  | Some scheme => if eq_ignore_ascii_case scheme (lit "http") then Some 80
                   else if eq_ignore_ascii_case scheme (lit "https") then Some 443
                   else None
  | None => None
  end.
Definition or_default (port default_port : option Z) : option Z :=
  match port with Some _ => port | None => default_port end.
Definition normalized_authority_host (host : bytes) : bytes := trim_end_matches 46 host.
Definition authorities_match (left right : Authority) (scheme : option bytes) : bool :=
  eq_ignore_ascii_case (normalized_authority_host (authority_host left))
    (normalized_authority_host (authority_host right))
  && bool_decide (or_default (authority_port left) (default_port_for_scheme scheme)
                  = or_default (authority_port right) (default_port_for_scheme scheme)).

(** The URI of a target in absolute form. *)
Definition absolute_form_uri (target : bytes) : result (option Uri) HttpError :=
  match uri_parse target with
  | None => Err InvalidUri
  | Some uri => Ok (if is_some (uri_scheme uri) then Some uri else None)
  end.

Definition host_value (line : bytes) : option bytes :=
  match split_once 58 line with
  | Some (name, value) => if eq_ignore_ascii_case name (lit "host") then Some (trim value) else None
  | None => None
  end.
Definition request_host_authority_from_str (headers : bytes) : result (option Authority) HttpError :=
  match omap host_value (drop 1 (lines headers)) with
  | [] => Ok None
  | [value] => match authority_parse value with
               | Some authority => Ok (Some authority)
               | None => Err InvalidAuthority
               end
  | _ => Err MultipleHosts
  end.

Definition validate_absolute_form_authority (target : bytes) (host_authority : option Authority)
  : result unit HttpError :=
  let? uri := absolute_form_uri target in
  match uri with
  | None => Ok ()
  | Some uri =>
      let? request_authority := ok_or (uri_authority uri) MissingAuthority in
      let? host_authority := ok_or host_authority MissingHost in
      if authorities_match request_authority host_authority (uri_scheme uri) then Ok ()
      else Err AuthorityMismatch
  end.

Definition parse_head (opts : CanonicalizeOptions) (buf : bytes) : result L7Request HttpError :=
  let? header_end := ok_or (head_end buf) Panicked in
  let head := take header_end buf in
  if bare_lf None head then Err BareLineFeed
  else
  let? _ := validate_http_request_header_block head in
  let? header_str := ok_or (from_utf8 head) InvalidUtf8 in
  match lines header_str with
  | [] => Err MissingPart
  | request_line :: _ =>
      match split_whitespace request_line with
      | method :: target :: version :: _ =>
          if negb (bool_decide (version = lit "HTTP/1.1") || bool_decide (version = lit "HTTP/1.0"))
          then Err UnsupportedVersion
          else
            let? host_authority := request_host_authority_from_str header_str in
            if bool_decide (version = lit "HTTP/1.1") && negb (is_some host_authority)
            then Err MissingHost
            else
              let? _ := validate_absolute_form_authority target host_authority in
              let? body_length := parse_body_length header_str in
              let? canonical := map_err TargetRejected (canonicalize_request_target target opts) in
              let '(canonical, raw_query) := canonical in
              let? query_params := from_option parse_query_params (Ok ∅) raw_query in
              let? buf := (if rewritten canonical
                           then rewrite_request_line_target buf method (path canonical) raw_query version
                           else Ok buf) in
              Ok (l7_request_of method (path canonical) query_params buf body_length)
      | _ => Err MissingPart
      end
  end.

(** One request, and the client after it. *)
Definition parse_http_request (opts : CanonicalizeOptions) (client : Reader)
  : result (option (L7Request * Reader)) HttpError :=
  let? head := read_head (S (length (stream client))) [] client in
  match head with
  | None => Ok None
  | Some (buf, client) => let? parsed := parse_head opts buf in Ok (Some (parsed, client))
  end.

(** A request that another path of the proxy has buffered. *)
Definition request_from_buffered_http (action target query_target raw : bytes)
  : result L7Request HttpError :=
  let? header_end := ok_or (head_end raw) MissingTerminator in
  let head := take header_end raw in
  let? _ := validate_http_request_header_block head in
  let? header_str := ok_or (from_utf8 head) InvalidUtf8 in
  let? body_length := parse_body_length header_str in
  let? parsed := parse_target_query query_target in
  Ok (l7_request_of action target parsed.2 raw body_length).

(** The authority a request is for, and its port. *)
Definition request_authority (raw : bytes) (transport_default_port : option Z)
  : result (option (Authority * Z)) HttpError :=
  let? header_end := ok_or (head_end raw) MissingTerminator in
  let? headers := ok_or (from_utf8 (take header_end raw)) InvalidUtf8 in
  let? host_authority := request_host_authority_from_str headers in
  match host_authority with
  | None => Ok None
  | Some host_authority =>
      let? request_target := ok_or (head (lines headers) ≫= λ line, split_whitespace line !! 1%nat)
                               MissingPart in
      let? absolute_uri := absolute_form_uri request_target in
      let? chosen := match absolute_uri with
                     | Some uri =>
                         let? authority := ok_or (uri_authority uri) MissingAuthority in
                         let? port := ok_or (default_port_for_scheme (uri_scheme uri)) UnsupportedScheme in
                         Ok (authority, port)
                     | None =>
                         let? port := ok_or transport_default_port NoTransportScheme in
                         Ok (host_authority, port)
                     end in
      Ok (Some (chosen.1, default chosen.2 (authority_port chosen.1)))
  end.
End requests.
