(* ===== verification/HttpEdit.v ===== *)
(** * HttpEdit: editing the head of a request, and upgrades
    (crates/openshell-supervisor-network/src/l7/rest.rs)

    Fields are removed by name, replaced and appended; a request that was
    buffered is built again with its length; hop-by-hop fields are dropped
    before forwarding; requests for an upgrade are recognised. *)

From stdpp Require Import gmap.
From S2P Require Import Prelude PathCanon IpParse Order Text Base64 Destination PolicyTypes PolicyMerge PolicyValidate Http.
Import IpParse.

(** ** Fields by name *)

(** [line.split_once(':')] with a name equal to [name] once trimmed. *)
Definition named (name line : bytes) : bool :=
  match split_once 58 line with
  | Some (n, _) => eq_ignore_ascii_case (trim n) name
  | None => false
  end.

Fixpoint strip_lines (name : bytes) (ls : list bytes) : bytes :=
  match ls with
  | [] => []
  | line :: ls =>
      if is_empty line then CRLF
      else if named name line then strip_lines name ls
      else line ++ CRLF ++ strip_lines name ls
  end.
Definition strip_header (headers strip_name : bytes) : result bytes HttpError :=
  let? header_str := ok_or (from_utf8 headers) InvalidUtf8 in
  Ok (strip_lines strip_name (split_str CRLF header_str)).

Definition content_length_line (len : Z) : bytes := lit "Content-Length: " ++ show_uint len ++ CRLF.
Fixpoint set_length_lines (len : Z) (inserted : bool) (ls : list bytes) : bytes :=
  match ls with
  | [] => []
  | line :: ls =>
      if is_empty line then (if inserted then [] else content_length_line len) ++ CRLF
      else if named (lit "content-length") line then
        (if inserted then [] else content_length_line len) ++ set_length_lines len true ls
      else line ++ CRLF ++ set_length_lines len inserted ls
  end.
Definition set_content_length (headers : bytes) (len : Z) : result bytes HttpError :=
  let? header_str := ok_or (from_utf8 headers) InvalidUtf8 in
  Ok (set_length_lines len false (split_str CRLF header_str)).

(** The field goes before the empty line. *)
Definition append_header (headers name value : bytes) : bytes :=
  let split := default (length headers) (find_sub DOUBLE_CRLF headers) in
  take split headers ++ CRLF ++ name ++ lit ": " ++ value ++ DOUBLE_CRLF.

Definition has_header (headers name : bytes) : result bool HttpError :=
  let? header_str := ok_or (from_utf8 headers) InvalidUtf8 in
  Ok (existsb (named name) (drop 1 (lines header_str))).

(** ** Header mutations of middleware *)

Inductive HeaderOperation : Type :=
| WriteHeader (name value : bytes) (on_existing : Z)
| RemoveHeader (name : bytes).

(** [ExistingHeaderAction]: append is 1, overwrite 2, skip 3. *)
Definition apply_header_mutation (out : bytes) (mutation : option HeaderOperation)
  : result bytes HttpError :=
  match mutation with
  | None => Err EmptyMutation
  | Some (RemoveHeader name) => strip_header out name
  | Some (WriteHeader name value on_existing) =>
      if negb ((1 <=? on_existing) && (on_existing <=? 3)) then Err InvalidOnExisting
      else
        let? exists_ := has_header out name in
        if negb exists_ || (on_existing =? 1) then Ok (append_header out name value)
        else if on_existing =? 2 then
          let? out := strip_header out name in Ok (append_header out name value)
        else Ok out
  end.
Fixpoint apply_header_mutations (out : bytes) (mutations : list (option HeaderOperation))
  : result bytes HttpError :=
  match mutations with
  | [] => Ok out
  | m :: mutations => let? out := apply_header_mutation out m in apply_header_mutations out mutations
  end.

(** A buffered request, framed by the length of its body. *)
Definition rebuild_request_with_buffered_body (req : L7Request) (headers body : bytes)
  (mutations : list (option HeaderOperation)) : result L7Request HttpError :=
  if bool_decide (body_length req = NoBody) && is_empty body then
    let? header_bytes := strip_header headers (lit "content-length") in
    let? header_bytes := strip_header header_bytes (lit "transfer-encoding") in
    let? header_bytes := apply_header_mutations header_bytes mutations in
    Ok (l7_request_of (rq_action req) (rq_target req) (rq_query_params req) header_bytes NoBody)
  else
    let len := Z.of_nat (length body) in
    let? header_bytes := set_content_length headers len in
    let? header_bytes := strip_header header_bytes (lit "transfer-encoding") in
    let? header_bytes := (if bool_decide (body_length req = Chunked)
                          then strip_header header_bytes (lit "trailer") else Ok header_bytes) in
    let? header_bytes := apply_header_mutations header_bytes mutations in
    Ok (l7_request_of (rq_action req) (rq_target req) (rq_query_params req) (header_bytes ++ body)
          (ContentLength len)).

(** ** Hop-by-hop fields *)

Definition connection_tokens (line : bytes) : list bytes :=
  match split_once 58 line with
  | Some (name, value) =>
      if eq_ignore_ascii_case name (lit "connection")
      then map (λ token, to_ascii_lowercase (trim token)) (split_on 44 value) else []
  | None => []
  end.
(** The names as a set; the model keeps the order of their first use. *)
Definition connection_nominated_header_names (headers : bytes) : result (list bytes) HttpError :=
  let? _ := validate_http_request_header_block headers in
  let? header_str := ok_or (from_utf8 headers) InvalidUtf8 in
  let? block := ok_or (strip_suffix DOUBLE_CRLF header_str) Panicked in
  Ok (dedup_first (List.filter (λ token, negb (is_empty token))
        (concat (map connection_tokens (drop 1 (split_str CRLF block)))))).

Fixpoint strip_headers (headers : bytes) (names : list bytes) : result bytes HttpError :=
  match names with
  | [] => Ok headers
  | name :: names => let? headers := strip_header headers name in strip_headers headers names
  end.
Definition strip_connection_nominated_headers (headers : bytes) (preserve_websocket_upgrade : bool)
  : result bytes HttpError :=
  let? nominated := connection_nominated_header_names headers in
  let? out := strip_headers headers nominated in
  let? out := strip_header out (lit "connection") in
  let? out := strip_header out (lit "upgrade") in
  Ok (if preserve_websocket_upgrade
      then append_header (append_header out (lit "Connection") (lit "Upgrade"))
             (lit "Upgrade") (lit "websocket")
      else out).

(** ** Upgrades *)

Definition header_value_contains_token (value expected : bytes) : bool :=
  existsb (λ token, eq_ignore_ascii_case (trim token) expected) (split_on 44 value).
Definition is_http_token (value : bytes) : bool :=
  negb (is_empty value) && forallb is_http_field_name_byte value.
Definition parse_http_token_list (value : bytes) : result (list bytes) HttpError :=
  try_collect (λ token, let token := trim token in
    if is_http_token token then Ok token else Err InvalidConnectionToken) (split_on 44 value).

(** The head of a message, or the whole of it when it does not end. *)
Definition head_of (raw : bytes) : bytes := take (default (length raw) (head_end raw)) raw.

Definition request_has_upgrade_header (raw : bytes) : bool :=
  match from_utf8 (head_of raw) with
  | Some header_str => existsb (named (lit "upgrade")) (drop 1 (lines header_str))
  | None => false
  end.
Definition line_has_token (name expected line : bytes) : bool :=
  match split_once 58 line with
  | Some (n, value) => eq_ignore_ascii_case (trim n) name
                       && header_value_contains_token (trim value) expected
  | None => false
  end.
Definition request_is_h2c_upgrade (raw : bytes) : bool :=
  match from_utf8 (head_of raw) with
  | Some header_str =>
      existsb (line_has_token (lit "upgrade") (lit "h2c")) (drop 1 (lines header_str))
      && existsb (line_has_token (lit "connection") (lit "upgrade")) (drop 1 (lines header_str))
  | None => false
  end.

Inductive UpgradeRefusal : Type := H2cUpgrade | JsonRpcUpgrade | GraphqlUpgrade | RestUpgrade.
Definition upgrade_refusal_for_protocol (p : L7Validate.L7Protocol) : option UpgradeRefusal :=
  match p with
  | L7Validate.JsonRpc | L7Validate.Mcp => Some JsonRpcUpgrade
  | L7Validate.Graphql => Some GraphqlUpgrade
  | L7Validate.Rest => Some RestUpgrade
  | L7Validate.Websocket | L7Validate.Sql => None
  end.
Definition unsupported_upgrade_detail (raw : bytes) (p : L7Validate.L7Protocol) : option UpgradeRefusal :=
  if request_is_h2c_upgrade raw then Some H2cUpgrade
  else refusal ← upgrade_refusal_for_protocol p;
       if request_has_upgrade_header raw then Some refusal else None.

(** Both fields, as an answer with status 101 needs them. *)
Definition client_requested_upgrade (headers : bytes) : bool :=
  let lowered := map to_ascii_lowercase (drop 1 (lines headers)) in
  existsb (starts_with (lit "upgrade:")) lowered
  && existsb (λ line, starts_with (lit "connection:") line
                      && existsb (λ token, bool_decide (trim token = lit "upgrade"))
                           (split_on 44 (trim (from_option snd [] (split_once 58 line))))) lowered.

Record WebSocketUpgradeHeaders := upgrade_headers {
  upgrade_websocket : bool;
  connection_upgrade : bool;
  sec_keys : list bytes;
  versions : list bytes;
  subprotocols : list bytes;
}.
Definition upgrade_headers_step (h : WebSocketUpgradeHeaders) (line : bytes)
  : result WebSocketUpgradeHeaders HttpError :=
  match split_once 58 line with
  | None => Ok h
  | Some (name, value) =>
      let name := to_ascii_lowercase (trim name) in
      let value := trim value in
      let field n := bool_decide (name = lit n) in
      if field "upgrade"%string && header_value_contains_token value (lit "websocket") then
        Ok (upgrade_headers true (connection_upgrade h) (sec_keys h) (versions h) (subprotocols h))
      else if field "connection"%string && header_value_contains_token value (lit "upgrade") then
        Ok (upgrade_headers (upgrade_websocket h) true (sec_keys h) (versions h) (subprotocols h))
      else if field "sec-websocket-key"%string then
        Ok (upgrade_headers (upgrade_websocket h) (connection_upgrade h) (sec_keys h ++ [value])
              (versions h) (subprotocols h))
      else if field "sec-websocket-version"%string then
        Ok (upgrade_headers (upgrade_websocket h) (connection_upgrade h) (sec_keys h)
              (versions h ++ [value]) (subprotocols h))
      else if field "sec-websocket-protocol"%string then
        let? added := parse_http_token_list value in
        Ok (upgrade_headers (upgrade_websocket h) (connection_upgrade h) (sec_keys h) (versions h)
              (subprotocols h ++ added))
      else Ok h
  end.

(** The lines before the first empty one. *)
Fixpoint before_empty (ls : list bytes) : list bytes :=
  match ls with
  | [] => []
  | line :: ls => if is_empty line then [] else line :: before_empty ls
  end.
Fixpoint upgrade_headers_of (h : WebSocketUpgradeHeaders) (ls : list bytes)
  : result WebSocketUpgradeHeaders HttpError :=
  match ls with
  | [] => Ok h
  | line :: ls => let? h := upgrade_headers_step h line in upgrade_headers_of h ls
  end.

Section upgrades.
Context {base64 : Base64}.

(** The key and the subprotocols of a request for a WebSocket. *)
Definition parse_websocket_upgrade_request (raw : bytes) : result (option (bytes * list bytes)) HttpError :=
  let? header_str := ok_or (from_utf8 raw) InvalidUtf8 in
  match lines header_str with
  | [] => Ok None
  | request_line :: ls =>
      let method := default [] (head (split_whitespace request_line)) in
      let? h := upgrade_headers_of (upgrade_headers false false [] [] []) (before_empty ls) in
      if negb (upgrade_websocket h || negb (is_empty (sec_keys h)) || negb (is_empty (versions h)))
      then Ok None
      else if negb (eq_ignore_ascii_case method (lit "GET")) then Err UpgradeNotGet
      else if negb (upgrade_websocket h) then Err UpgradeMissing
      else if negb (connection_upgrade h) then Err UpgradeMissing
      else match sec_keys h with
      | [key] =>
          match b64_decode key with
          | Some decoded =>
              if negb (Nat.eqb (length decoded) 16) then Err InvalidUpgradeKey
              else if bool_decide (versions h = [lit "13"]) then Ok (Some (key, subprotocols h))
              else Err InvalidUpgradeVersion
          | None => Err InvalidUpgradeKey
          end
      | _ => Err InvalidUpgradeKey
      end
  end.
Definition request_is_websocket_upgrade (raw : bytes) : bool :=
  match parse_websocket_upgrade_request (head_of raw) with Ok r => is_some r | Err _ => false end.
End upgrades.
