(* ===== verification/HttpBody.v ===== *)
(** * HttpBody: reading, relaying and buffering the body of a request
    (crates/openshell-supervisor-network/src/l7/rest.rs, src/l7/http.rs)

    Four readers follow the chunked coding: the relay that copies it, the
    relay that scans it for credentials, the buffer of middleware and of
    credential rewriting, and the buffer of the inspectors. Reading and writing
    are operations on the state of a connection: the client's stream, what has
    been written upstream and to the client, and how many more checks find the
    policy current. A failed allocation or write is not modelled. *)

From stdpp Require Import gmap.
From S2P Require Import Prelude PathCanon IpParse Order Text Destination Secrets SecretsBody Http HttpEdit.
Import IpParse.

(** ** The connection *)

(** [fresh] counts the checks of the policy's and the credentials' generation
    that still succeed; [None] is no guard, or one that never goes stale. *)
Record Io := io { client : Reader; written : bytes; replied : bytes; fresh : option nat }.

Definition M (A : Type) : Type := Io → result A HttpError * Io.
Definition ret {A} (a : A) : M A := λ s, (Ok a, s).
Definition fail {A} (e : HttpError) : M A := λ s, (Err e, s).
Definition bind {A B} (m : M A) (k : A → M B) : M B := λ s,
  match m s with
  | (Ok a, s) => k a s
  | (Err e, s) => (Err e, s)
  end.
Notation "'let!' x := e 'in' k" := (bind e (λ x, k))
  (at level 10, x binder, e at level 200, k at level 200,
   format "'[v' 'let!'  x  :=  e  'in' '/' k ']'") : rust_scope.
Definition lift {A} (r : result A HttpError) : M A :=
  match r with Ok a => ret a | Err e => fail e end.

Definition ensure_current : M unit := λ s,
  match fresh s with
  | None => (Ok (), s)
  | Some O => (Err StalePolicy, s)
  | Some (S n) => (Ok (), io (client s) (written s) (replied s) (Some n))
  end.
Definition write_all (b : bytes) : M unit := λ s,
  (Ok (), io (client s) (written s ++ b) (replied s) (fresh s)).
Definition reply (b : bytes) : M unit := λ s,
  (Ok (), io (client s) (written s) (replied s ++ b) (fresh s)).
(** A read into a buffer of [n] bytes; nothing read is the end of the stream. *)
Definition read_some (n : nat) : M bytes := λ s,
  match read n (client s) with
  | None => (Err ReadFailed, s)
  | Some (b, c) => (Ok b, io c (written s) (replied s) (fresh s))
  end.
Definition read_byte_u8 : M Z := λ s,
  match read_u8 (client s) with
  | Some (b, c) => (Ok b, io c (written s) (replied s) (fresh s))
  | None => (Err (match ending (client s) with Eof => EndedEarly | _ => ReadFailed end), s)
  end.

(** The rounds of a loop that takes a byte of the input in each: one more than
    the bytes there are. *)
Definition with_fuel {A} (ahead : bytes) (loop : nat → M A) : M A := λ s,
  loop (S (length ahead + length (stream (client s))))%nat s.

Definition RELAY_BUF_SIZE : nat := 8192.
Definition MAX_CHUNK_LINE_BYTES : Z := MAX_HEADER_BYTES.
Definition MAX_CHUNK_TRAILER_FIELDS : nat := 128.
Definition MAX_REWRITE_BODY_BYTES : Z := 256 * 1024.

(** ** Chunk lines *)

Definition is_ascii_hexdigit (b : Z) : bool := is_some (hex_digit b).
(** [usize::from_str_radix] of digits. *)
Fixpoint parse_hex (acc : Z) (s : bytes) : option Z :=
  match s with
  | [] => Some acc
  | b :: s =>
      match hex_digit b with
      | Some d => let acc := acc * 16 + d in if acc <=? usize_max then parse_hex acc s else None
      | None => None
      end
  end.
(** [str::trim_end_matches] of blanks. *)
Fixpoint drop_blanks (s : bytes) : bytes :=
  match s with b :: s' => if is_blank b then drop_blanks s' else s | [] => [] end.
Definition trim_end_blanks (s : bytes) : bytes := reverse (drop_blanks (reverse s)).

Definition line_control (b : Z) : bool :=
  (b =? 13) || (b =? 10) || (b =? 127) || ((b <? 32) && negb (b =? 9)).
Definition parse_chunk_size_line (line : bytes) : result Z HttpError :=
  let? line := ok_or (from_utf8 line) ChunkLineNotUtf8 in
  if existsb line_control line then Err ChunkLineControlByte
  else
    let size_token := match split_once 59 line with
                      | Some (size, _) => trim_end_blanks size
                      | None => line
                      end in
    if is_empty size_token || negb (forallb is_ascii_hexdigit size_token) then Err ChunkSizeToken
    else ok_or (parse_hex 0 size_token) ChunkSizeTooLarge.

Definition validate_chunk_trailer_line (line : bytes) : result unit HttpError :=
  if is_empty line then Ok ()
  else if existsb (λ b, (b =? 13) || (b =? 10) || (b =? 127)) line then Err TrailerControlByte
  else match split_once 58 line with
  | None => Err TrailerMissingColon
  | Some (name, value) =>
      if is_empty name || negb (forallb is_http_field_name_byte name) then Err TrailerName
      else if negb (forallb is_http_field_value_byte value) then Err TrailerValue
      else Ok ()
  end.

(** ** The relay of a body *)

Fixpoint relay_fixed (fuel : nat) (remaining : Z) : M unit :=
  match fuel with
  | O => fail OutOfFuel
  | S fuel =>
      if remaining <=? 0 then ret ()
      else
        let! b := read_some (Z.to_nat (Z.min remaining (Z.of_nat RELAY_BUF_SIZE))) in
        if is_empty b then fail EndedEarly
        else
          let! _ := ensure_current in
          let! _ := write_all b in
          relay_fixed fuel (remaining - Z.of_nat (length b))
  end.

(** [ChunkedRelayInput]: bytes read ahead that are still to come, and bytes to
    be written. *)
Record ChunkedRelayInput := relay_input { ahead : bytes; pending : bytes }.

Definition read_byte (i : ChunkedRelayInput) : M (Z * ChunkedRelayInput) :=
  match ahead i with
  | b :: rest => ret (b, relay_input rest (pending i ++ [b]))
  | [] => let! b := read_byte_u8 in ret (b, relay_input [] (pending i ++ [b]))
  end.
Definition flush_pending (i : ChunkedRelayInput) : M ChunkedRelayInput :=
  if is_empty (pending i) then ret i
  else
    let! _ := ensure_current in
    let! _ := write_all (pending i) in
    ret (relay_input (ahead i) []).

(** A line up to its CRLF, which is dropped. *)
Fixpoint read_line (fuel : nat) (line : bytes) (i : ChunkedRelayInput) : M (bytes * ChunkedRelayInput) :=
  match fuel with
  | O => fail OutOfFuel
  | S fuel =>
      if Z.of_nat (length line) =? MAX_CHUNK_LINE_BYTES then fail LineTooLong
      else
        let! r := read_byte i in
        let line := line ++ [r.1] in
        match strip_suffix CRLF line with
        | Some line => ret (line, r.2)
        | None => read_line fuel line r.2
        end
  end.

Fixpoint consume_exact (fuel : nat) (remaining : Z) (i : ChunkedRelayInput) : M ChunkedRelayInput :=
  match fuel with
  | O => fail OutOfFuel
  | S fuel =>
      if remaining <=? 0 then ret i
      else
        let! i := (if Nat.leb RELAY_BUF_SIZE (length (pending i)) then flush_pending i else ret i) in
        let to_read := Z.to_nat (Z.min remaining (Z.of_nat (RELAY_BUF_SIZE - length (pending i))%nat)) in
        match ahead i with
        | _ :: _ =>
            let b := take to_read (ahead i) in
            consume_exact fuel (remaining - Z.of_nat (length b))
              (relay_input (drop to_read (ahead i)) (pending i ++ b))
        | [] =>
            let! b := read_some to_read in
            if is_empty b then fail EndedEarly
            else
              let! _ := ensure_current in
              consume_exact fuel (remaining - Z.of_nat (length b)) (relay_input [] (pending i ++ b))
        end
  end.

Fixpoint relay_trailers (fuel : nat) (count : nat) (size : Z) (i : ChunkedRelayInput) : M unit :=
  match fuel with
  | O => fail OutOfFuel
  | S fuel =>
      let! r := with_fuel (ahead i) (λ fuel, read_line fuel [] i) in
      let '(line, i) := r in
      let! _ := lift (validate_chunk_trailer_line line) in
      let size := size + Z.of_nat (length line) + 2 in
      if MAX_HEADER_BYTES <? size then fail TrailersTooLarge
      else if is_empty line then let! _ := flush_pending i in ret ()
      else if Nat.eqb count MAX_CHUNK_TRAILER_FIELDS then fail TooManyTrailers
      else
        let! i := (if Nat.leb RELAY_BUF_SIZE (length (pending i)) then flush_pending i else ret i) in
        relay_trailers fuel (S count) size i
  end.

Fixpoint relay_chunks (fuel : nat) (i : ChunkedRelayInput) : M unit :=
  match fuel with
  | O => fail OutOfFuel
  | S fuel =>
      let! r := with_fuel (ahead i) (λ fuel, read_line fuel [] i) in
      let '(size_line, i) := r in
      let! chunk_size := lift (parse_chunk_size_line size_line) in
      if chunk_size =? 0 then with_fuel (ahead i) (λ fuel, relay_trailers fuel 0 0 i)
      else
        let! i := with_fuel (ahead i) (λ fuel, consume_exact fuel chunk_size i) in
        let! r := read_byte i in
        let! r' := read_byte r.2 in
        if bool_decide ([r.1; r'.1] = CRLF) then
          let! i := flush_pending r'.2 in relay_chunks fuel i
        else fail MissingChunkEnd
  end.
Definition relay_chunked (already_read : bytes) : M unit :=
  with_fuel already_read (λ fuel, relay_chunks fuel (relay_input already_read [])).

(** ** The buffer of middleware and credential rewriting *)

(** [ChunkedReadState]. *)
Record ChunkedReadState := read_state {
  buffered : bytes;
  wire_bytes : Z;
  max_wire_bytes : option Z;
}.
Definition over_wire (st : ChunkedReadState) (len : Z) : bool :=
  from_option (λ max, max - wire_bytes st <? len) false (max_wire_bytes st).

Definition read_buffered_byte (st : ChunkedReadState) : M (Z * ChunkedReadState) :=
  if over_wire st 1 then fail OverCapacity
  else match buffered st with
  | b :: rest => ret (b, read_state rest (wire_bytes st + 1) (max_wire_bytes st))
  | [] =>
      let! b := read_byte_u8 in
      let! _ := ensure_current in
      ret (b, read_state [] (wire_bytes st + 1) (max_wire_bytes st))
  end.

Fixpoint read_chunked_line (fuel : nat) (line : bytes) (st : ChunkedReadState)
  : M (bytes * ChunkedReadState) :=
  match fuel with
  | O => fail OutOfFuel
  | S fuel =>
      let! r := read_buffered_byte st in
      let line := line ++ [r.1] in
      if MAX_REWRITE_BODY_BYTES <? Z.of_nat (length line) then fail LineTooLong
      else match strip_suffix CRLF line with
      | Some line => ret (line, r.2)
      | None => read_chunked_line fuel line r.2
      end
  end.

(** The reads from the client that make up a block. *)
Fixpoint read_remaining (fuel : nat) (remaining : Z) (out : bytes) (st : ChunkedReadState)
  : M (bytes * ChunkedReadState) :=
  match fuel with
  | O => fail OutOfFuel
  | S fuel =>
      if remaining <=? 0 then ret (out, st)
      else
        let! b := read_some (Z.to_nat (Z.min remaining (Z.of_nat RELAY_BUF_SIZE))) in
        if is_empty b then fail EndedEarly
        else
          let! _ := ensure_current in
          let n := Z.of_nat (length b) in
          read_remaining fuel (remaining - n) (out ++ b)
            (read_state (buffered st) (wire_bytes st + n) (max_wire_bytes st))
  end.
Definition read_buffered_exact (len : Z) (out : bytes) (st : ChunkedReadState)
  : M (bytes * ChunkedReadState) :=
  if over_wire st len then fail OverCapacity
  else
    let b := take (Z.to_nat (Z.min len (Z.of_nat (length (buffered st))))) (buffered st) in
    let n := Z.of_nat (length b) in
    with_fuel [] (λ fuel, read_remaining fuel (len - n) (out ++ b)
      (read_state (drop (length b) (buffered st)) (wire_bytes st + n) (max_wire_bytes st))).

Fixpoint collect_chunks (fuel : nat) (body : bytes) (st : ChunkedReadState) : M bytes :=
  match fuel with
  | O => fail OutOfFuel
  | S fuel =>
      let! r := with_fuel (buffered st) (λ fuel, read_chunked_line fuel [] st) in
      let '(size_line, st) := r in
      let! chunk_size := lift (parse_chunk_size_line size_line) in
      if chunk_size =? 0 then
        let! r := with_fuel (buffered st) (λ fuel, read_chunked_line fuel [] st) in
        let! _ := lift (validate_chunk_trailer_line r.1) in
        if is_empty r.1 then ret body else fail TrailersUnsupported
      else if default MAX_REWRITE_BODY_BYTES (max_wire_bytes st)
              <? saturating_add usize_max (Z.of_nat (length body)) chunk_size
      then fail (if is_some (max_wire_bytes st) then OverCapacity else BodyTooLarge)
      else
        let! r := read_buffered_exact chunk_size body st in
        let '(body, st) := r in
        let! r := read_buffered_exact 2 [] st in
        if bool_decide (r.1 = CRLF) then collect_chunks fuel body r.2 else fail MissingChunkEnd
  end.
Definition collect_chunked_body (already_read : bytes) (max_wire : option Z) : M bytes :=
  with_fuel already_read (λ fuel, collect_chunks fuel [] (read_state already_read 0 max_wire)).

(** Whether the bytes read ahead are a whole body. *)
Fixpoint fully_buffered (fuel : nat) (s : bytes) : bool :=
  match fuel with
  | O => false
  | S fuel =>
      match find_sub CRLF s with
      | None => false
      | Some line_end =>
          match parse_chunk_size_line (take line_end s) with
          | Err _ => false
          | Ok chunk_size =>
              let rest := drop (line_end + 2) s in
              if chunk_size =? 0 then bool_decide (take 2 rest = CRLF)
              else if Z.of_nat (length rest) <? chunk_size + 2 then false
              else
                let n := Z.to_nat chunk_size in
                bool_decide (take 2 (drop n rest) = CRLF) && fully_buffered fuel (drop (n + 2) rest)
          end
      end
  end.
Definition chunked_body_is_fully_buffered (s : bytes) : bool := fully_buffered (S (length s)) s.

Definition has_expect_continue (headers : bytes) : bool :=
  existsb (λ line,
    let lower := to_ascii_lowercase line in
    starts_with (lit "expect:") lower
    && from_option (λ p, bool_decide (trim p.2 = lit "100-continue")) false (split_once 58 lower))
    (drop 1 (lines headers)).
Definition CONTINUE_RESPONSE : bytes := lit "HTTP/1.1 100 Continue" ++ DOUBLE_CRLF.
(** The head without [Expect]. *)
Definition handle_buffered_expect_continue (headers : bytes) (needs_client_read : bool) : M bytes :=
  let! header_str := lift (ok_or (from_utf8 headers) InvalidUtf8) in
  let! _ := (if needs_client_read && has_expect_continue header_str
             then reply CONTINUE_RESPONSE else ret ()) in
  lift (strip_header headers (lit "expect")).

Inductive BufferResult : Type :=
| Buffered (headers body : bytes)
| OverCapacityBody (recoverable : bool).

(** The block of a body of known length that was not read ahead. *)
Definition read_rest (remaining : Z) (out : bytes) : M bytes :=
  let! r := with_fuel [] (λ fuel, read_remaining fuel remaining out (read_state [] 0 None)) in ret r.1.

Definition buffer_request_body_for_middleware (req : L7Request) (max_body_bytes : Z) : M BufferResult :=
  let header_end := default (length (raw_header req)) (head_end (raw_header req)) in
  let headers := take header_end (raw_header req) in
  let already_read := drop header_end (raw_header req) in
  match body_length req with
  | NoBody =>
      if negb (is_empty already_read) then fail UnreadBytes
      else
        let! headers := handle_buffered_expect_continue headers false in
        ret (Buffered headers [])
  | ContentLength len =>
      if max_body_bytes <? len then ret (OverCapacityBody true)
      else
        let initial := take (Z.to_nat (Z.min len (Z.of_nat (length already_read)))) already_read in
        let remaining := len - Z.of_nat (length initial) in
        let! headers := handle_buffered_expect_continue headers (0 <? remaining) in
        let! body := read_rest remaining initial in
        ret (Buffered headers body)
  | Chunked =>
      let! headers := handle_buffered_expect_continue headers
                        (negb (chunked_body_is_fully_buffered already_read)) in
      λ s, match collect_chunked_body already_read (Some max_body_bytes) s with
           | (Ok body, s) => (Ok (Buffered headers body), s)
           | (Err OverCapacity, s) => (Ok (OverCapacityBody false), s)
           | (Err e, s) => (Err e, s)
           end
  end.

(** ** The buffer of the inspectors *)

Definition READ_BUF_SIZE : nat := 8192.
(** [read_exact]: the inspectors read without a check of the generation. *)
Fixpoint read_exact (fuel : nat) (remaining : Z) (out : bytes) : M bytes :=
  match fuel with
  | O => fail OutOfFuel
  | S fuel =>
      if remaining <=? 0 then ret out
      else
        let! b := read_some (Z.to_nat remaining) in
        if is_empty b then fail EndedEarly
        else read_exact fuel (remaining - Z.of_nat (length b)) (out ++ b)
  end.

(** The first CRLF at [start] or after it. *)
Definition find_crlf (raw : bytes) (start : nat) : option nat :=
  (λ p, (start + p)%nat) <$> find_sub CRLF (drop start raw).

Definition read_more (raw : bytes) (max_body_bytes remaining : Z) : M bytes :=
  if Z.max (Z.min usize_max (max_body_bytes * 2)) max_body_bytes <? Z.of_nat (length raw)
  then fail FramingTooLarge
  else
    let! b := read_some (Z.to_nat (Z.min remaining (Z.of_nat READ_BUF_SIZE))) in
    if is_empty b then fail EndedEarly else ret (raw ++ b).

(** The end of the line that starts at [start]; the search goes on where it may
    have seen a carriage return. *)
Fixpoint inspect_line (fuel : nat) (raw : bytes) (start scan_start : nat) (max_body_bytes : Z)
  : M (nat * bytes) :=
  match fuel with
  | O => fail OutOfFuel
  | S fuel =>
      match find_crlf raw scan_start with
      | Some e => ret (e, raw)
      | None =>
          let! raw' := read_more raw max_body_bytes 1 in
          inspect_line fuel raw' start (Nat.max (length raw - 1) start) max_body_bytes
      end
  end.
Fixpoint inspect_until (fuel : nat) (raw : bytes) (len : Z) (max_body_bytes : Z) : M bytes :=
  match fuel with
  | O => fail OutOfFuel
  | S fuel =>
      if len <=? Z.of_nat (length raw) then ret raw
      else
        let! raw := read_more raw max_body_bytes (len - Z.of_nat (length raw)) in
        inspect_until fuel raw len max_body_bytes
  end.

Fixpoint inspect_trailers (fuel : nat) (raw : bytes) (pos : nat) (max_body_bytes : Z)
  : M (nat * bytes) :=
  match fuel with
  | O => fail OutOfFuel
  | S fuel =>
      let! r := with_fuel [] (λ fuel, inspect_line fuel raw pos pos max_body_bytes) in
      let '(trailer_end, raw) := r in
      let line := take (trailer_end - pos) (drop pos raw) in
      let! _ := lift (validate_chunk_trailer_line line) in
      let pos := (trailer_end + 2)%nat in
      if is_empty line then ret (pos, raw) else inspect_trailers fuel raw pos max_body_bytes
  end.

(** The decoded body, with the framed bytes that were read for it. *)
Fixpoint inspect_chunks (fuel : nat) (raw decoded : bytes) (pos : nat) (max_body_bytes : Z)
  : M (bytes * bytes) :=
  match fuel with
  | O => fail OutOfFuel
  | S fuel =>
      let! r := with_fuel [] (λ fuel, inspect_line fuel raw pos pos max_body_bytes) in
      let '(size_line_end, raw) := r in
      let! chunk_size := lift (parse_chunk_size_line (take (size_line_end - pos) (drop pos raw))) in
      let pos := (size_line_end + 2)%nat in
      if max_body_bytes <? saturating_add usize_max (Z.of_nat (length decoded)) chunk_size
      then fail BodyTooLarge
      else if chunk_size =? 0 then
        let! r := with_fuel raw (λ fuel, inspect_trailers fuel raw pos max_body_bytes) in
        ret (decoded, take r.1 r.2)
      else
        let chunk_end := Z.of_nat pos + chunk_size in
        if usize_max <? chunk_end + 2 then fail ChunkSizeTooLarge
        else
          let! raw := with_fuel [] (λ fuel, inspect_until fuel raw (chunk_end + 2) max_body_bytes) in
          let n := Z.to_nat chunk_size in
          if bool_decide (take 2 (drop (pos + n) raw) = CRLF)
          then inspect_chunks fuel raw (decoded ++ take n (drop pos raw)) (pos + n + 2) max_body_bytes
          else fail MissingChunkEnd
  end.

Definition framing_fields : list bytes := [lit "transfer-encoding"; lit "content-length"; lit "trailer"].
Definition is_framing_line (line : bytes) : bool :=
  match split_once 58 line with
  | Some (name, _) => bool_decide (to_ascii_lowercase (trim name) ∈ framing_fields)
  | None => false
  end.
Definition normalize_chunked_request_to_content_length (req : L7Request) (header_end : nat) (body : bytes)
  : result L7Request HttpError :=
  let? header_str := ok_or (from_utf8 (take header_end (raw_header req))) InvalidUtf8 in
  let? block := ok_or (strip_suffix DOUBLE_CRLF header_str) MissingTerminator in
  match split_str CRLF block with
  | [] => Err Panicked
  | request_line :: ls =>
      let len := Z.of_nat (length body) in
      let kept := List.filter (λ line, negb (is_framing_line line)) ls in
      Ok (l7_request_of (rq_action req) (rq_target req) (rq_query_params req)
            (concat (map (λ line, line ++ CRLF) (request_line :: kept))
             ++ content_length_line len ++ CRLF ++ body)
            (ContentLength len))
  end.

Definition read_chunked_body_for_inspection (overflow : bytes) (max_body_bytes : Z) : M (bytes * bytes) :=
  with_fuel overflow (λ fuel, inspect_chunks fuel overflow [] 0 max_body_bytes).

(** The body, and the request with it. *)
Definition read_body_for_inspection (req : L7Request) (max_body_bytes : Z) : M (bytes * L7Request) :=
  let header_end := default (length (raw_header req)) (head_end (raw_header req)) in
  let overflow := drop header_end (raw_header req) in
  match body_length req with
  | NoBody => ret ([], req)
  | ContentLength len =>
      if max_body_bytes <? len then fail BodyTooLarge
      else if len <? Z.of_nat (length overflow) then fail ExcessBytes
      else
        let! body := with_fuel [] (λ fuel, read_exact fuel (len - Z.of_nat (length overflow)) overflow) in
        ret (body, l7_request_of (rq_action req) (rq_target req) (rq_query_params req)
                     (take header_end (raw_header req) ++ body) (body_length req))
  | Chunked =>
      let! r := read_chunked_body_for_inspection overflow max_body_bytes in
      let! req := lift (normalize_chunked_request_to_content_length req header_end r.1) in
      ret (r.1, req)
  end.

(** ** The relay that scans for credentials *)

(** [format!("{:X}")]: the hexadecimal digits of a length. *)
Fixpoint hex_digits (fuel : nat) (n : Z) (acc : bytes) : bytes :=
  match fuel with
  | O => acc
  | S fuel =>
      let acc := hex_upper (n mod 16) :: acc in
      if n <? 16 then acc else hex_digits fuel (n / 16) acc
  end.
(** A [usize] has sixteen digits at most. *)
Definition show_hex (n : Z) : bytes := hex_digits 16 n [].

Definition write_body_bytes (b : bytes) : M unit :=
  let! _ := ensure_current in write_all b.
Definition write_guarded_chunk (payload : bytes) : M unit :=
  if is_empty payload then ret ()
  else
    let! _ := write_body_bytes (show_hex (Z.of_nat (length payload)) ++ CRLF) in
    let! _ := write_body_bytes payload in
    write_body_bytes CRLF.

(** The body is scanned at one time [now]. *)
Section Scan.
Context (now : Z) (classifier : option SecretsBody.BodyCredentialClassifier).

Definition scan_push (g : SecretsBody.BodyPlaceholderGuard) (b : bytes)
  : M (bytes * SecretsBody.BodyPlaceholderGuard) :=
  lift (map_err (λ _, MarkerInBody) (SecretsBody.push now g b)).
Definition scan_finish (g : SecretsBody.BodyPlaceholderGuard) : M bytes :=
  lift (map_err (λ _, MarkerInBody) (SecretsBody.finish now g)).

Fixpoint guarded_trailers (fuel : nat) (st : ChunkedReadState) : M unit :=
  match fuel with
  | O => fail OutOfFuel
  | S fuel =>
      let! r := with_fuel (buffered st) (λ fuel, read_chunked_line fuel [] st) in
      let '(trailer, st) := r in
      let! _ := lift (validate_chunk_trailer_line trailer) in
      if Secrets.contains_reserved_credential_marker_bytes trailer then fail MarkerInTrailer
      else
        let! _ := write_body_bytes trailer in
        let! _ := write_body_bytes CRLF in
        if is_empty trailer then ret () else guarded_trailers fuel st
  end.

(** The payload of a chunk, a block at a time. *)
Fixpoint guarded_blocks (fuel : nat) (remaining : Z) (g : SecretsBody.BodyPlaceholderGuard)
  (st : ChunkedReadState) : M (SecretsBody.BodyPlaceholderGuard * ChunkedReadState) :=
  match fuel with
  | O => fail OutOfFuel
  | S fuel =>
      if remaining <=? 0 then ret (g, st)
      else
        let block_len := Z.min remaining (Z.of_nat RELAY_BUF_SIZE) in
        let! r := read_buffered_exact block_len [] st in
        let! p := scan_push g r.1 in
        let! _ := write_guarded_chunk p.1 in
        guarded_blocks fuel (remaining - block_len) p.2 r.2
  end.

Fixpoint guarded_chunks (fuel : nat) (g : SecretsBody.BodyPlaceholderGuard) (st : ChunkedReadState)
  : M unit :=
  match fuel with
  | O => fail OutOfFuel
  | S fuel =>
      let! r := with_fuel (buffered st) (λ fuel, read_chunked_line fuel [] st) in
      let '(size_line, st) := r in
      let! chunk_size := lift (parse_chunk_size_line size_line) in
      if chunk_size =? 0 then
        let! last := scan_finish g in
        let! _ := write_guarded_chunk last in
        let! _ := write_body_bytes (lit "0" ++ CRLF) in
        with_fuel (buffered st) (λ fuel, guarded_trailers fuel st)
      else
        let! r := with_fuel (buffered st) (λ fuel, guarded_blocks fuel chunk_size g st) in
        let '(g, st) := r in
        let! r := read_buffered_exact 2 [] st in
        if bool_decide (r.1 = CRLF) then guarded_chunks fuel g r.2 else fail MissingChunkEnd
  end.
Definition relay_chunked_with_marker_guard (already_read : bytes) : M unit :=
  with_fuel already_read (λ fuel,
    guarded_chunks fuel (SecretsBody.new_guard classifier) (read_state already_read 0 None)).

Fixpoint guarded_fixed (fuel : nat) (remaining : Z) (g : SecretsBody.BodyPlaceholderGuard) : M unit :=
  match fuel with
  | O => fail OutOfFuel
  | S fuel =>
      if remaining <=? 0 then let! last := scan_finish g in write_body_bytes last
      else
        let! b := read_some (Z.to_nat (Z.min remaining (Z.of_nat RELAY_BUF_SIZE))) in
        if is_empty b then fail EndedEarly
        else
          let! _ := ensure_current in
          let! p := scan_push g b in
          let! _ := write_body_bytes p.1 in
          guarded_fixed fuel (remaining - Z.of_nat (length b)) p.2
  end.

Definition relay_request_body_with_marker_guard (body_length : BodyLength) (headers already_read : bytes)
  : M unit :=
  let! _ := ensure_current in
  let! _ := write_all headers in
  match body_length with
  | NoBody =>
      let! p := scan_push (SecretsBody.new_guard classifier) already_read in
      let! _ := write_body_bytes p.1 in
      let! last := scan_finish p.2 in
      write_body_bytes last
  | ContentLength len =>
      let initial := take (Z.to_nat (Z.min len (Z.of_nat (length already_read)))) already_read in
      let! p := scan_push (SecretsBody.new_guard classifier) initial in
      let! _ := write_body_bytes p.1 in
      with_fuel [] (λ fuel, guarded_fixed fuel (len - Z.of_nat (length initial)) p.2)
  | Chunked => relay_chunked_with_marker_guard already_read
  end.
End Scan.

(** The branch that neither signs, rewrites nor scans. *)
Definition relay_plain (body_length : BodyLength) (rewritten overflow : bytes) : M unit :=
  let! _ := ensure_current in
  let! _ := write_all rewritten in
  match body_length with
  | ContentLength len =>
      let! _ := (if is_empty overflow then ret () else write_body_bytes overflow) in
      let remaining := Z.max 0 (len - Z.of_nat (length overflow)) in
      if 0 <? remaining then with_fuel [] (λ fuel, relay_fixed fuel remaining) else ret ()
  | Chunked => relay_chunked overflow
  | NoBody => if is_empty overflow then ret () else write_body_bytes overflow
  end.
