(* ===== verification/ChunkedFacts.v ===== *)
(** * ChunkedFacts: the chunked coding and the readers that follow it
    (crates/openshell-supervisor-network/src/l7/rest.rs, src/l7/http.rs)

    [Coding data trailers wire] is the grammar of a chunked body. No body is a
    proper prefix of another, and the readers of HttpBody are proved against the
    grammar: each takes exactly one body from its input however the input
    arrives, and what the relay has written when it stops is the start of a
    body. *)

From stdpp Require Import gmap.
From S2P Require Import Prelude PathCanon IpParse Order Text Destination Secrets SecretsBody Http HttpEdit HttpBody.
Import IpParse.

(** ** The grammar *)

(** A line and its CRLF have [limit] bytes at most. *)
Section Grammar.
Context (limit : Z).

Inductive Trailers : list bytes → bytes → Prop :=
| trailers_end : Trailers [] CRLF
| trailers_cons line ts w :
    line ≠ [] → validate_chunk_trailer_line line = Ok () → Z.of_nat (length line) + 2 ≤ limit →
    Trailers ts w → Trailers (line :: ts) (line ++ CRLF ++ w).

Inductive Coding : bytes → list bytes → bytes → Prop :=
| coding_last line ts w :
    parse_chunk_size_line line = Ok 0 → Z.of_nat (length line) + 2 ≤ limit →
    Trailers ts w → Coding [] ts (line ++ CRLF ++ w)
| coding_chunk line chunk data ts w :
    parse_chunk_size_line line = Ok (Z.of_nat (length chunk)) → Z.of_nat (length line) + 2 ≤ limit →
    chunk ≠ [] → Coding data ts w → Coding (chunk ++ data) ts (line ++ CRLF ++ chunk ++ CRLF ++ w).

(** Bytes that some body starts with. *)
Definition Partial (w : bytes) : Prop := ∃ data ts w', Coding data ts (w ++ w').
End Grammar.

Lemma size_line_no_cr line n : parse_chunk_size_line line = Ok n → 13 ∉ line.
Proof.
  unfold parse_chunk_size_line, from_utf8. destruct (utf8_valid line); [|done]. cbn.
  destruct (existsb line_control line) eqn:E; [done|]. intros _ Hin.
  apply not_true_iff_false in E. apply E, existsb_elem. by exists 13.
Qed.
Lemma trailer_line_no_cr line : validate_chunk_trailer_line line = Ok () → 13 ∉ line.
Proof.
  unfold validate_chunk_trailer_line. destruct line as [|b l]; [by intros _ ?%elem_of_nil|].
  cbn [is_empty]. destruct (existsb _ (b :: l)) eqn:E; [done|]. intros _ Hin.
  apply not_true_iff_false in E. apply E, existsb_elem. by exists 13.
Qed.
(** The errors of a line are none of the loops' own. *)
Lemma size_line_err line e : parse_chunk_size_line line = Err e → e ≠ OutOfFuel ∧ e ≠ OverCapacity.
Proof.
  unfold parse_chunk_size_line, from_utf8. destruct (utf8_valid line); cbn; [|by intros [= <-]].
  destruct (existsb _ _); [by intros [= <-]|]. destruct (_ || _); [by intros [= <-]|].
  destruct (parse_hex 0 _); by intros [= <-].
Qed.
Lemma trailer_line_err line e : validate_chunk_trailer_line line = Err e → e ≠ OutOfFuel ∧ e ≠ OverCapacity.
Proof. unfold validate_chunk_trailer_line. intros H. repeat case_match; try done; by injection H as <-. Qed.
Lemma line_inj l l' t t' : 13 ∉ l → 13 ∉ l' → l ++ CRLF ++ t = l' ++ CRLF ++ t' → l = l' ∧ t = t'.
Proof. intros ??. apply first_line_inj; by apply no_crlf_notin. Qed.

Lemma Trailers_inj L L' ts w ts' w' x y :
  Trailers L ts w → Trailers L' ts' w' → w ++ x = w' ++ y → ts = ts' ∧ w = w' ∧ x = y.
Proof.
  intros H. revert ts' w'. induction H as [|line ts w Hne Hv Hlen Ht IH]; intros ts' w' H' Heq.
  - inversion H' as [|line' ts1 w1 Hne' Hv' Hlen' Ht']; subst.
    + by apply app_inv_head in Heq.
    + rewrite <- !app_assoc in Heq.
      destruct (line_inj [] line' x (w1 ++ y)) as [<- _]; [apply not_elem_of_nil|by apply trailer_line_no_cr|done|done].
  - inversion H' as [|line' ts1 w1 Hne' Hv' Hlen' Ht']; subst; rewrite <- !app_assoc in Heq.
    + destruct (line_inj line [] (w ++ x) y) as [-> _]; [by apply trailer_line_no_cr|apply not_elem_of_nil|done|done].
    + apply line_inj in Heq as [<- Heq]; [|by apply trailer_line_no_cr..].
      by apply (IH _ _ Ht') in Heq as (-> & -> & ->).
Qed.

(** A body ends where its framing says: none is a proper prefix of another, and
    its bytes determine what it carries. *)
Lemma Coding_inj L L' data ts w data' ts' w' x y :
  Coding L data ts w → Coding L' data' ts' w' → w ++ x = w' ++ y →
  data = data' ∧ ts = ts' ∧ w = w' ∧ x = y.
Proof.
  intros H. revert data' w'.
  induction H as [line ts w Hl Hlen Ht|line chunk data ts w Hl Hlen Hc H IH]; intros data' w' H' Heq;
    inversion H' as [line' ts1 w1 Hl' Hlen' Ht'|line' chunk' data1 ts1 w1 Hl' Hlen' Hc' H1]; subst;
    rewrite <- !app_assoc in Heq;
    (apply line_inj in Heq as [<- Heq]; [|by eapply size_line_no_cr..]);
    rewrite Hl in Hl'.
  - by apply (Trailers_inj _ _ _ _ _ _ _ _ Ht Ht') in Heq as (-> & -> & ->).
  - injection Hl' as Hn. by destruct chunk'.
  - injection Hl' as Hn. by destruct chunk.
  - injection Hl' as Hn%Nat2Z.inj. apply app_inj_1 in Heq as [<- Heq]; [|lia].
    apply app_inv_head in Heq. by apply (IH _ _ H1) in Heq as (-> & -> & -> & ->).
Qed.

Lemma Coding_end L : 3 ≤ L → Coding L [] [] (lit "0" ++ CRLF ++ CRLF).
Proof. intros. by apply coding_last; [..|constructor]. Qed.
Lemma Coding_partial L data ts w : Coding L data ts w → Partial L w.
Proof. intros H. exists data, ts, []. by rewrite app_nil_r. Qed.
Lemma Partial_prefix L w w' : w `prefix_of` w' → Partial L w' → Partial L w.
Proof. intros [t ->] (data & ts & t' & H). exists data, ts, (t ++ t'). by rewrite app_assoc. Qed.
Lemma Partial_chunk L line chunk w :
  parse_chunk_size_line line = Ok (Z.of_nat (length chunk)) → Z.of_nat (length line) + 2 ≤ L →
  chunk ≠ [] → Partial L w → Partial L (line ++ CRLF ++ chunk ++ CRLF ++ w).
Proof.
  intros ??? (data & ts & t & H). exists (chunk ++ data), ts, t. rewrite <- !app_assoc.
  by apply coding_chunk.
Qed.
Lemma Partial_nil L : 3 ≤ L → Partial L [].
Proof. intros ?%Coding_end%Coding_partial. by eapply Partial_prefix, H; eexists. Qed.
(** A chunk may be cut in its payload. *)
Lemma Partial_payload L line n d :
  parse_chunk_size_line line = Ok n → Z.of_nat (length line) + 2 ≤ L → 3 ≤ L → n ≠ 0 →
  Z.of_nat (length d) ≤ n → Partial L (line ++ CRLF ++ d).
Proof.
  intros Hl ? HL Hn Hd.
  set (chunk := d ++ replicate (Z.to_nat n - length d) 0).
  assert (length chunk = Z.to_nat n) as Hc by (unfold chunk; rewrite length_app, length_replicate; lia).
  assert (chunk ≠ []) as Hne by (intros ->; cbn in Hc; lia).
  eapply Partial_prefix, (Partial_chunk L line chunk []); [|rewrite Hl, Hc; f_equal; lia|done|done|by apply Partial_nil].
  exists (replicate (Z.to_nat n - length d) 0 ++ CRLF ++ []). unfold chunk. by rewrite <- !app_assoc.
Qed.
Definition PartialTrailers (L : Z) (w : bytes) : Prop := ∃ ts w', Trailers L ts (w ++ w').
Lemma PartialTrailers_nil L : PartialTrailers L [].
Proof. exists [], CRLF. constructor. Qed.
Lemma PartialTrailers_cons L line w :
  line ≠ [] → validate_chunk_trailer_line line = Ok () → Z.of_nat (length line) + 2 ≤ L →
  PartialTrailers L w → PartialTrailers L (line ++ CRLF ++ w).
Proof.
  intros ??? (ts & t & H). exists (line :: ts), t. rewrite <- !app_assoc. by constructor.
Qed.
Lemma Partial_trailers L line w :
  parse_chunk_size_line line = Ok 0 → Z.of_nat (length line) + 2 ≤ L →
  PartialTrailers L w → Partial L (line ++ CRLF ++ w).
Proof.
  intros ?? (ts & t & H). exists [], ts, t. rewrite <- !app_assoc. by constructor.
Qed.

(** The first line of a body decides what follows. *)
Lemma Coding_head L data ts w :
  Coding L data ts w → ∃ line n w',
    w = line ++ CRLF ++ w' ∧ parse_chunk_size_line line = Ok n ∧ Z.of_nat (length line) + 2 ≤ L ∧
    (n = 0 → data = [] ∧ Trailers L ts w') ∧
    (n ≠ 0 → ∃ chunk data' w'', n = Z.of_nat (length chunk) ∧ w' = chunk ++ CRLF ++ w'' ∧
       data = chunk ++ data' ∧ Coding L data' ts w'').
Proof.
  intros [line ts0 w0 Hl Hlen Ht|line chunk data0 ts0 w0 Hl Hlen Hc H].
  - by exists line, 0, w0.
  - exists line, (Z.of_nat (length chunk)), (chunk ++ CRLF ++ w0). split_and!; [done..| |].
    + destruct chunk; [done|]. cbn. lia.
    + intros _. by exists chunk, data0, w0.
Qed.

Lemma Trailers_mono L L' ts w : L ≤ L' → Trailers L ts w → Trailers L' ts w.
Proof. intros HL. induction 1; constructor; try done. lia. Qed.
Lemma Coding_mono L L' data ts w : L ≤ L' → Coding L data ts w → Coding L' data ts w.
Proof. intros HL. induction 1; constructor; try done; try lia. by eapply Trailers_mono. Qed.

Lemma hex_digit_range b d : hex_digit b = Some d → 0 ≤ d < 16.
Proof. unfold hex_digit. intros H. repeat case_match; simplify_eq; lia. Qed.
Lemma parse_hex_range acc s n : 0 ≤ acc ≤ usize_max → parse_hex acc s = Some n → 0 ≤ n ≤ usize_max.
Proof.
  revert acc. induction s as [|b s IH]; intros acc Hacc; cbn [parse_hex]; [by intros [= <-]|].
  destruct (hex_digit b) as [d|] eqn:E; [|done]. apply hex_digit_range in E.
  destruct (Z.leb_spec (acc * 16 + d) usize_max); [|done]. apply IH. lia.
Qed.
Lemma size_line_range line n : parse_chunk_size_line line = Ok n → 0 ≤ n ≤ usize_max.
Proof.
  unfold parse_chunk_size_line, from_utf8. destruct (utf8_valid line); [|done]. cbn.
  destruct (existsb _ _); [done|]. destruct (_ || _); [done|].
  destruct (parse_hex 0 _) as [m|] eqn:E; [|done]. cbn. intros [= <-].
  by eapply parse_hex_range in E.
Qed.

(** ** Running *)

(** What holds of the outcome and of the state after it. *)
Definition wp {A} (m : M A) (s : Io) (Q : result A HttpError → Io → Prop) : Prop :=
  Q (m s).1 (m s).2.
Lemma wp_ret {A} (a : A) s (Q : result A HttpError → Io → Prop) : Q (Ok a) s → wp (ret a) s Q.
Proof. done. Qed.
Lemma wp_fail {A} e s (Q : result A HttpError → Io → Prop) : Q (Err e) s → wp (fail e) s Q.
Proof. done. Qed.
Lemma wp_bind {A B} (m : M A) (k : A → M B) s (Q : result B HttpError → Io → Prop) :
  wp m s (λ r s', match r with Ok a => wp (k a) s' Q | Err e => Q (Err e) s' end) →
  wp (bind m k) s Q.
Proof. unfold wp, bind. by destruct (m s) as [[a|e] s']. Qed.
Lemma wp_mono {A} (m : M A) s (P Q : result A HttpError → Io → Prop) :
  wp m s P → (∀ r s', P r s' → Q r s') → wp m s Q.
Proof. unfold wp. auto. Qed.
Lemma wp_lift {A} (r : result A HttpError) s (Q : result A HttpError → Io → Prop) :
  Q r s → wp (lift r) s Q.
Proof. by destruct r. Qed.
Lemma wp_elim {A} (m : M A) s Q r s' : wp m s Q → m s = (r, s') → Q r s'.
Proof. unfold wp. intros H E. by rewrite E in H. Qed.

Lemma stream_push b s rest e : stream (reader_of ((b, s) :: rest) e) = b :: s ++ stream (reader_of rest e).
Proof. done. Qed.
Lemma stream_segment s rest e : stream (reader_of (push_segment s rest) e) = s ++ stream (reader_of rest e).
Proof. by destruct s. Qed.

(** The client has closed its side or the connection broke. *)
Definition closed (e : HttpError) : Prop := e = EndedEarly ∨ e = ReadFailed.

Lemma wp_read_some n s (Q : result bytes HttpError → Io → Prop) :
  (0 < n)%nat →
  (∀ b c, stream (client s) = b ++ stream c → b ≠ [] → (length b ≤ n)%nat →
     Q (Ok b) (io c (written s) (replied s) (fresh s))) →
  (stream (client s) = [] → Q (Ok []) s ∧ Q (Err ReadFailed) s) →
  wp (read_some n) s Q.
Proof.
  intros Hn Hok Hend. unfold wp, read_some, read.
  destruct s as [[[|[b seg] rest] e] wr rp fr]; cbn [client segments ending] in *.
  - destruct e; by apply Hend.
  - apply Hok.
    + rewrite stream_push, stream_segment. change (b :: seg ++ ?t) with ((b :: seg) ++ t).
      by rewrite app_assoc, take_drop.
    + by destruct n; [lia|].
    + rewrite length_take. lia.
Qed.
Lemma wp_read_byte_u8 s (Q : result Z HttpError → Io → Prop) :
  (∀ b c, stream (client s) = b :: stream c → Q (Ok b) (io c (written s) (replied s) (fresh s))) →
  (∀ e, stream (client s) = [] → closed e → Q (Err e) s) →
  wp read_byte_u8 s Q.
Proof.
  intros Hok Hend. unfold wp, read_byte_u8, read_u8.
  destruct s as [[[|[b seg] rest] e] wr rp fr]; cbn [client segments ending] in *.
  - apply Hend; [done|]. destruct e; [by left|by right..].
  - apply Hok. by rewrite stream_push, stream_segment.
Qed.
Lemma wp_ensure_current s (Q : result unit HttpError → Io → Prop) :
  (∀ f, (fresh s = None → f = None) → Q (Ok ()) (io (client s) (written s) (replied s) f)) →
  (fresh s ≠ None → Q (Err StalePolicy) s) →
  wp ensure_current s Q.
Proof.
  intros Hok Herr. unfold wp, ensure_current. destruct s as [c wr rp [[|n]|]]; cbn in *;
    [by apply Herr|by apply Hok|by apply Hok].
Qed.
Lemma wp_write_all b s (Q : result unit HttpError → Io → Prop) :
  Q (Ok ()) (io (client s) (written s ++ b) (replied s) (fresh s)) → wp (write_all b) s Q.
Proof. done. Qed.
Lemma wp_with_fuel {A} a (loop : nat → M A) s Q :
  wp (loop (S (length (a ++ stream (client s))))) s Q → wp (with_fuel a loop) s Q.
Proof. unfold wp, with_fuel. by rewrite length_app. Qed.

(** [d] was taken from what was read ahead and the stream, the former first. *)
Record Taken (a : bytes) (s : Io) (d a' : bytes) (s' : Io) : Prop := taken {
  taken_input : a ++ stream (client s) = d ++ a' ++ stream (client s');
  taken_ahead : a' = [] ∨ client s' = client s ∧ a = d ++ a';
  taken_fresh : fresh s = None → fresh s' = None;
}.
Lemma Taken_refl a s : Taken a s [] a s.
Proof. split; auto. Qed.
Lemma Taken_trans a s d a' s' d' a'' s'' :
  Taken a s d a' s' → Taken a' s' d' a'' s'' → Taken a s (d ++ d') a'' s''.
Proof.
  intros [H1 H2 H3] [H4 H5 H6]. split; [|..|by auto].
  - by rewrite H1, H4, <- app_assoc.
  - destruct H5 as [->|[Hc ->]]; [by left|]. destruct H2 as [Hn|[Hc' ->]].
    + apply app_eq_nil in Hn as [-> ->]. by left.
    + right. rewrite Hc, Hc'. by rewrite <- app_assoc.
Qed.
Lemma Taken_length a s d a' s' :
  Taken a s d a' s' →
  length (a ++ stream (client s)) = (length d + length (a' ++ stream (client s')))%nat.
Proof. intros [H _ _]. by rewrite H, length_app. Qed.
(** Only the stream and the freshness of a state are looked at. *)
Lemma Taken_ext a s d a' s' t t' :
  Taken a s d a' s' → client t = client s → fresh t = fresh s → client t' = client s' →
  (fresh s' = None → fresh t' = None) → Taken a t d a' t'.
Proof. intros [H1 H2 H3] E1 E2 E3 E4. split; rewrite ?E1, ?E3; auto. rewrite E2. auto. Qed.

Lemma no_crlf_prefix l t s : no_crlf s = true → s = l ++ CRLF ++ t → False.
Proof.
  unfold no_crlf. rewrite negb_true_iff, <- not_true_iff_false, contains_sub_spec.
  intros H ->. apply H. by exists l, t.
Qed.
Lemma no_crlf_snoc line b :
  no_crlf line = true → strip_suffix CRLF (line ++ [b]) = None → no_crlf (line ++ [b]) = true.
Proof.
  intros Hl Hs. unfold no_crlf. rewrite negb_true_iff, <- not_true_iff_false, contains_sub_spec.
  intros (x & y & Heq). destruct y as [|c y _] using rev_ind.
  - rewrite app_nil_r in Heq. apply strip_suffix_Some in Heq. by rewrite Heq in Hs.
  - rewrite !app_assoc in Heq. apply app_inj_tail in Heq as [Heq _].
    rewrite <- app_assoc in Heq. by eapply no_crlf_prefix in Heq.
Qed.

(** ** The relay *)

Lemma read_byte_spec i s :
  wp (read_byte i) s (λ r s', written s' = written s ∧
    match r with
    | Ok (b, i') => Taken (ahead i) s [b] (ahead i') s' ∧ pending i' = pending i ++ [b]
    | Err e => closed e ∧ ahead i ++ stream (client s) = []
    end).
Proof.
  unfold read_byte. destruct (ahead i) as [|b rest] eqn:E.
  - apply wp_bind, wp_read_byte_u8; [|done].
    intros b c Hs. apply wp_ret. split_and!; [done|split; cbn; auto|done].
  - apply wp_ret. split_and!; [done|split; cbn; auto|done].
Qed.

(** The first line that ends in CRLF, if it fits. *)
Definition fits (limit : Z) (line rest input : bytes) : Prop :=
  input = line ++ CRLF ++ rest ∧ no_crlf line = true ∧ Z.of_nat (length line) + 2 ≤ limit.
Lemma fits_inj L L' l t l' t' s : fits L l t s → fits L' l' t' s → l = l' ∧ t = t'.
Proof. intros (-> & H & _) (E & H' & _). by apply first_line_inj in E. Qed.
(** A line does not end in bytes that hold no CRLF. *)
Lemma fits_beyond L line t s rest :
  no_crlf s = true → fits L line t (s ++ rest) → (length s < length line + 2)%nat.
Proof.
  intros Hs (Heq & Hl & _). destruct (Nat.lt_ge_cases (length s) (length line + 2)) as [|Hge]; [done|].
  apply (f_equal (take (length s))) in Heq. rewrite take_app_length, !app_assoc in Heq.
  rewrite take_app_ge in Heq by (rewrite length_app; cbn; lia).
  rewrite <- app_assoc in Heq. by eapply no_crlf_prefix in Heq.
Qed.
(** Bytes without CRLF that use up the limit, or the input, hold no such line. *)
Lemma fits_none L line t s rest :
  no_crlf s = true → L ≤ Z.of_nat (length s) ∨ rest = [] → ¬ fits L line t (s ++ rest).
Proof.
  intros Hs Hor Hfit. pose proof (fits_beyond _ _ _ _ _ Hs Hfit). destruct Hfit as (Heq & Hl & Hlen).
  destruct Hor as [HL| ->]; [lia|]. rewrite app_nil_r in Heq. by eapply no_crlf_prefix in Heq.
Qed.

Lemma strip_crlf_fits L line b rest l :
  no_crlf line = true → Z.of_nat (length (line ++ [b])) ≤ L → strip_suffix CRLF (line ++ [b]) = Some l →
  fits L l rest ((line ++ [b]) ++ rest).
Proof.
  intros Hn HL Hs%strip_suffix_Some. split_and!.
  - by rewrite Hs, <- app_assoc.
  - change CRLF with ([13] ++ [10]) in Hs. rewrite app_assoc in Hs. apply app_inj_tail in Hs as [-> _].
    unfold no_crlf in *. rewrite negb_true_iff, <- not_true_iff_false in *.
    intros Hc. by apply Hn, contains_sub_app_r.
  - rewrite Hs, length_app in HL. cbn in HL. lia.
Qed.

Lemma read_line_spec fuel line i s :
  (length (ahead i ++ stream (client s)) < fuel)%nat → no_crlf line = true →
  Z.of_nat (length line) ≤ MAX_CHUNK_LINE_BYTES →
  wp (read_line fuel line i) s (λ r s', written s' = written s ∧
    match r with
    | Ok (l, i') => ∃ d, Taken (ahead i) s d (ahead i') s' ∧ pending i' = pending i ++ d ∧
        l ++ CRLF = line ++ d ∧
        fits MAX_CHUNK_LINE_BYTES l (ahead i' ++ stream (client s')) (line ++ ahead i ++ stream (client s))
    | Err e => e ≠ OutOfFuel ∧ e ≠ StalePolicy ∧
        ∀ l t, ¬ fits MAX_CHUNK_LINE_BYTES l t (line ++ ahead i ++ stream (client s))
    end).
Proof.
  revert line i s. induction fuel as [|fuel IH]; intros line i s Hf Hn Hlen; [lia|]. cbn [read_line].
  destruct (Z.eqb_spec (Z.of_nat (length line)) MAX_CHUNK_LINE_BYTES) as [Hmax|Hmax].
  { apply wp_fail. split_and!; [done..|]. intros l t. apply fits_none; [done|]. left. lia. }
  apply wp_bind. eapply wp_mono; [apply read_byte_spec|]. intros [[b i1]|e] s1 [Hw H1].
  2: { destruct H1 as [Hc Hin]. split_and!; [done|by destruct Hc as [-> | ->]..|].
       intros l t. apply fits_none; auto. }
  destruct H1 as [Ht Hp]. cbn [fst snd].
  assert (Z.of_nat (length (line ++ [b])) ≤ MAX_CHUNK_LINE_BYTES) by (rewrite length_app; cbn; lia).
  rewrite (taken_input _ _ _ _ _ Ht), app_assoc.
  destruct (strip_suffix CRLF (line ++ [b])) as [l|] eqn:Hs.
  - apply wp_ret. split; [done|]. exists [b]. split_and!; [done..| |by apply strip_crlf_fits].
    by apply strip_suffix_Some in Hs.
  - eapply wp_mono; [apply IH; [|by apply no_crlf_snoc|done]|].
    { pose proof (Taken_length _ _ _ _ _ Ht) as Hl. cbn in Hl. lia. }
    intros [[l i2]|e] s2 [Hw2 H2]; (split; [by rewrite Hw2|]); [|done].
    destruct H2 as (d & Ht2 & Hp2 & Hl2 & Hfit). exists ([b] ++ d). split_and!; [|..|done].
    + by eapply Taken_trans.
    + by rewrite Hp2, Hp, <- app_assoc.
    + by rewrite Hl2, <- app_assoc.
Qed.

(** What a read line takes is the line and its CRLF. *)
Lemma read_line_top i s (Q : result (bytes * ChunkedRelayInput) HttpError → Io → Prop) :
  (∀ l i' s', written s' = written s → Taken (ahead i) s (l ++ CRLF) (ahead i') s' →
     pending i' = pending i ++ l ++ CRLF →
     fits MAX_CHUNK_LINE_BYTES l (ahead i' ++ stream (client s')) (ahead i ++ stream (client s)) →
     Q (Ok (l, i')) s') →
  (∀ e s', written s' = written s → e ≠ OutOfFuel → e ≠ StalePolicy →
     (∀ l t, ¬ fits MAX_CHUNK_LINE_BYTES l t (ahead i ++ stream (client s))) → Q (Err e) s') →
  wp (with_fuel (ahead i) (λ fuel, read_line fuel [] i)) s Q.
Proof.
  intros Hok Herr. apply wp_with_fuel. eapply wp_mono; [by apply read_line_spec; [lia|..]|].
  intros [[l i']|e] s' [Hw H]; [|naive_solver].
  destruct H as (d & Ht & Hp & Hd & Hfit). cbn in Hd. subst d. by apply Hok.
Qed.

(** A check found the policy replaced. *)
Definition stale (s : Io) (e : HttpError) : Prop := e = StalePolicy ∧ fresh s ≠ None.
Lemma stale_later s s' e : (fresh s = None → fresh s' = None) → stale s' e → stale s e.
Proof. intros H [He Hf]. split; auto. Qed.

(** What a relay step leaves to be seen upstream: it only adds, and what it adds
    starts what was pending and then [d]. *)
Record Sent (s : Io) (p : bytes) (d : bytes) (s' : Io) : Prop := sent {
  sent_more : written s `prefix_of` written s';
  sent_only : written s' `prefix_of` (written s ++ p) ++ d;
}.
Lemma Sent_same s p d s' : written s' = written s → Sent s p d s'.
Proof. intros E. split; rewrite E; [done|]. rewrite <- app_assoc. by apply prefix_app_r. Qed.
(** A step that moved [d1] from the input to what is written or pending, before
    one that sent some of [d2]. *)
Lemma Sent_after s p d1 s1 p1 d2 s2 :
  written s `prefix_of` written s1 → written s1 ++ p1 = (written s ++ p) ++ d1 →
  Sent s1 p1 d2 s2 → Sent s p (d1 ++ d2) s2.
Proof.
  intros Hpre Heq [Hm Ho]. split; [by etrans|]. rewrite Heq in Ho. by rewrite app_assoc.
Qed.

Lemma flush_pending_spec i s :
  wp (flush_pending i) s (λ r s', Taken (ahead i) s [] (ahead i) s' ∧
    match r with
    | Ok i' => ahead i' = ahead i ∧ pending i' = [] ∧ written s' = written s ++ pending i
    | Err e => stale s e ∧ written s' = written s
    end).
Proof.
  unfold flush_pending. destruct (pending i) as [|b p] eqn:E; cbn [is_empty].
  - apply wp_ret. rewrite app_nil_r. auto using Taken_refl.
  - apply wp_bind, wp_ensure_current; [|by split; [apply Taken_refl|]].
    intros f Hf. apply wp_bind, wp_write_all, wp_ret. cbn. split_and!; [|done..].
    split; cbn; auto.
Qed.

Lemma relay_buf_pos : (0 < RELAY_BUF_SIZE)%nat.
Proof. by apply Nat.ltb_lt. Qed.
Lemma flush_full_spec i s :
  wp (if Nat.leb RELAY_BUF_SIZE (length (pending i)) then flush_pending i else ret i) s (λ r s',
    Taken (ahead i) s [] (ahead i) s' ∧ written s `prefix_of` written s' ∧
    match r with
    | Ok i' => ahead i' = ahead i ∧ (length (pending i') < RELAY_BUF_SIZE)%nat ∧
               written s' ++ pending i' = written s ++ pending i
    | Err e => stale s e ∧ written s' = written s
    end).
Proof.
  destruct (Nat.leb_spec RELAY_BUF_SIZE (length (pending i))).
  - eapply wp_mono; [apply flush_pending_spec|]. intros [i'|e] s' [Ht H'].
    + destruct H' as (? & -> & ->). rewrite app_nil_r. split_and!; [done|by apply prefix_app_r|done| |done].
      apply relay_buf_pos.
    + destruct H' as [? ->]. done.
  - apply wp_ret. auto using Taken_refl.
Qed.

(** The bytes of [input] that a block of [n] takes. *)
Definition consumes (n : Z) (i : ChunkedRelayInput) (s : Io) (r : result ChunkedRelayInput HttpError) (s' : Io) : Prop :=
  match r with
  | Ok i' => ∃ d, Z.of_nat (length d) = n ∧ Taken (ahead i) s d (ahead i') s' ∧
      written s `prefix_of` written s' ∧ written s' ++ pending i' = (written s ++ pending i) ++ d
  | Err e => e ≠ OutOfFuel ∧ (stale s e ∨ Z.of_nat (length (ahead i ++ stream (client s))) < n) ∧
      ∃ d, d `prefix_of` ahead i ++ stream (client s) ∧ Z.of_nat (length d) ≤ n ∧ Sent s (pending i) d s'
  end.

(** A part of a block and then the rest of it. *)
Lemma consumes_step n i s d i1 s1 r s2 :
  Taken (ahead i) s d (ahead i1) s1 → Z.of_nat (length d) ≤ n →
  written s `prefix_of` written s1 → written s1 ++ pending i1 = (written s ++ pending i) ++ d →
  consumes (n - Z.of_nat (length d)) i1 s1 r s2 → consumes n i s r s2.
Proof.
  intros Ht Hd Hpre Heq. destruct r as [i2|e]; cbn.
  - intros (d2 & Hlen & Ht2 & Hpre2 & Heq2). exists (d ++ d2). split_and!.
    + rewrite length_app. lia.
    + by eapply Taken_trans.
    + by etrans.
    + by rewrite Heq2, Heq, <- app_assoc.
  - intros (He & Hor & d2 & [t Hp] & Hlen & Hs). split_and!; [done|..].
    + destruct Hor as [Hst|Hlt]; [left; by eapply stale_later; [apply (taken_fresh _ _ _ _ _ Ht)|]|right].
      rewrite (Taken_length _ _ _ _ _ Ht). lia.
    + exists (d ++ d2). split_and!; [|rewrite length_app; lia|by eapply Sent_after].
      exists t. by rewrite (taken_input _ _ _ _ _ Ht), Hp, app_assoc.
Qed.
Lemma consumes_fail n i s e s' :
  0 ≤ n → e ≠ OutOfFuel → stale s e ∨ Z.of_nat (length (ahead i ++ stream (client s))) < n →
  written s' = written s → consumes n i s (Err e) s'.
Proof.
  intros. split_and!; [done..|]. exists []. split_and!; [apply prefix_nil|done|by apply Sent_same].
Qed.

Lemma consume_exact_spec fuel n i s :
  (length (ahead i ++ stream (client s)) < fuel)%nat → 0 ≤ n →
  wp (consume_exact fuel n i) s (consumes n i s).
Proof.
  revert n i s. induction fuel as [|fuel IH]; intros n i s Hf Hn; [lia|]. cbn [consume_exact].
  destruct (Z.leb_spec n 0).
  { apply wp_ret. exists []. rewrite app_nil_r. split_and!; [cbn; lia|apply Taken_refl|done..]. }
  apply wp_bind. eapply wp_mono; [apply flush_full_spec|]. intros [i1|e] s1 (Ht & Hpre & H1).
  2: { destruct H1 as [Hst Hw]. apply consumes_fail; [lia|by destruct Hst as [-> _]|by left|done]. }
  destruct H1 as (Ha & Hroom & Heq). rewrite <- Ha in Ht at 2.
  set (k := Z.to_nat (Z.min n (Z.of_nat (RELAY_BUF_SIZE - length (pending i1))))).
  assert (0 < k)%nat by (unfold k; lia). assert (Z.of_nat k ≤ n) by (unfold k; lia). clearbody k.
  pose proof (Taken_length _ _ _ _ _ Ht) as Hl. cbn [length] in Hl.
  eapply wp_mono; [|intros r s2; apply (consumes_step n i s [] i1 s1); [done|done|done|by rewrite Heq, app_nil_r]].
  cbn [length]. rewrite Z.sub_0_r. clear Ht Hpre Heq Hroom Ha.
  destruct (ahead i1) as [|b rest] eqn:Ea.
  - apply wp_bind, wp_read_some; [done|..].
    + intros d c Hs Hd Hle. rewrite Hs, app_nil_l, (length_app d) in Hl.
      destruct d as [|x d]; [done|]. cbn [is_empty].
      apply wp_bind, wp_ensure_current; cbn [fresh client written replied].
      * intros f Hfr. eapply wp_mono; [apply IH; cbn [ahead client length app] in *; lia|].
        intros r s2. apply consumes_step; [|lia|done|cbn [written pending]; by rewrite app_assoc].
        rewrite Ea. split; cbn; auto.
      * intros Hfr. apply consumes_fail; [lia|done|by left|done].
    + intros Hs. split; (apply consumes_fail; [lia|done|right; rewrite Ea, Hs; cbn; lia|done]).
  - eapply wp_mono; [apply IH|intros r s2; apply consumes_step].
    + cbn [ahead]. rewrite <- (take_drop k (b :: rest)), <- app_assoc, (length_app (take k _)), length_take in Hl.
      cbn [length] in Hl. lia.
    + rewrite length_take. lia.
    + cbn [ahead]. rewrite Ea. split; [by rewrite app_assoc, take_drop| |done].
      right. by rewrite take_drop.
    + rewrite length_take. lia.
    + done.
    + cbn [pending]. by rewrite app_assoc.
Qed.

Fixpoint trailers_size (ts : list bytes) : Z :=
  match ts with [] => 2 | line :: ts => Z.of_nat (length line) + 2 + trailers_size ts end.
Lemma trailers_size_pos ts : 2 ≤ trailers_size ts.
Proof. induction ts; cbn; lia. Qed.

Lemma Trailers_head L ts w t :
  2 ≤ L → Trailers L ts w → ∃ line w',
    fits L line (w' ++ t) (w ++ t) ∧ validate_chunk_trailer_line line = Ok () ∧
    (line = [] → ts = [] ∧ w' = []) ∧
    (line ≠ [] → ∃ ts', ts = line :: ts' ∧ Trailers L ts' w').
Proof.
  intros HL [|line ts0 w0 Hne Hv Hlen Ht].
  - exists [], []. by split_and!.
  - exists line, w0. split_and!; try done; [|by eauto].
    split_and!; [by rewrite <- !app_assoc|by apply no_crlf_notin, trailer_line_no_cr|done].
Qed.
Lemma Coding_fits L data ts w t :
  Coding L data ts w → ∃ line n w',
    fits L line (w' ++ t) (w ++ t) ∧ parse_chunk_size_line line = Ok n ∧
    (n = 0 → data = [] ∧ Trailers L ts w') ∧
    (n ≠ 0 → ∃ chunk data' w'', n = Z.of_nat (length chunk) ∧ w' = chunk ++ CRLF ++ w'' ∧
       data = chunk ++ data' ∧ Coding L data' ts w'').
Proof.
  intros (line & n & w' & -> & Hp & Hlen & H0 & H1)%Coding_head. exists line, n, w'.
  split_and!; [|done..]. split_and!; [by rewrite <- !app_assoc| |done].
  by eapply no_crlf_notin, size_line_no_cr.
Qed.

(** The trailers the relay passes after [count] of them, of [size] bytes. *)
Definition trailers_pass (count : nat) (size : Z) (ts : list bytes) : Prop :=
  (count + length ts ≤ MAX_CHUNK_TRAILER_FIELDS)%nat ∧ size + trailers_size ts ≤ MAX_HEADER_BYTES.
Definition no_trailers (count : nat) (size : Z) (input : bytes) : Prop :=
  ∀ ts w t, input = w ++ t → Trailers MAX_CHUNK_LINE_BYTES ts w → ¬ trailers_pass count size ts.

Definition trailers_outcome (count : nat) (size : Z) (i : ChunkedRelayInput) (s : Io)
  (r : result unit HttpError) (s' : Io) : Prop :=
  match r with
  | Ok _ => ∃ ts w rest, Trailers MAX_CHUNK_LINE_BYTES ts w ∧ Taken (ahead i) s w rest s' ∧
      written s' = (written s ++ pending i) ++ w
  | Err e => e ≠ OutOfFuel ∧ (stale s e ∨ no_trailers count size (ahead i ++ stream (client s))) ∧
      ∃ w, w `prefix_of` ahead i ++ stream (client s) ∧
        PartialTrailers MAX_CHUNK_LINE_BYTES w ∧ Sent s (pending i) w s'
  end.

Lemma trailers_fail count size i s e s' :
  e ≠ OutOfFuel → stale s e ∨ no_trailers count size (ahead i ++ stream (client s)) →
  written s' = written s → trailers_outcome count size i s (Err e) s'.
Proof.
  intros. split_and!; [done..|]. exists []. split_and!; [apply prefix_nil|apply PartialTrailers_nil|by apply Sent_same].
Qed.
(** No trailers pass when the first line shows it. *)
Lemma no_trailers_head count size line rest input :
  fits MAX_CHUNK_LINE_BYTES line rest input →
  (∀ ts, validate_chunk_trailer_line line = Ok () → (line = [] → ts = []) →
     (line ≠ [] → ∃ ts' w t, ts = line :: ts' ∧ rest = w ++ t ∧ Trailers MAX_CHUNK_LINE_BYTES ts' w) →
     ¬ trailers_pass count size ts) →
  no_trailers count size input.
Proof.
  intros Hfit H ts w t -> Ht. destruct (Trailers_head MAX_CHUNK_LINE_BYTES _ _ t ltac:(done) Ht) as (l & w' & Hf & Hv & H0 & H1).
  destruct (fits_inj _ _ _ _ _ _ _ Hfit Hf) as [-> ->]. apply H; [done|naive_solver|].
  intros Hl. destruct (H1 Hl) as (ts' & -> & ?). by exists ts', w', t.
Qed.

(** A trailer field and the fields after it. *)
Lemma trailers_step count size i s line i1 s1 r s2 :
  line ≠ [] → validate_chunk_trailer_line line = Ok () →
  fits MAX_CHUNK_LINE_BYTES line (ahead i1 ++ stream (client s1)) (ahead i ++ stream (client s)) →
  Taken (ahead i) s (line ++ CRLF) (ahead i1) s1 → written s `prefix_of` written s1 →
  written s1 ++ pending i1 = (written s ++ pending i) ++ line ++ CRLF →
  trailers_outcome (S count) (size + Z.of_nat (length line) + 2) i1 s1 r s2 →
  trailers_outcome count size i s r s2.
Proof.
  intros Hne Hv Hfit Ht Hpre Heq. destruct r as [?|e].
  - intros (ts & w & rest & HT & Ht2 & Hw). exists (line :: ts), (line ++ CRLF ++ w), rest. split_and!.
    + constructor; try done. by destruct Hfit as (_ & _ & ?).
    + rewrite app_assoc. by eapply Taken_trans.
    + by rewrite Hw, Heq, <- !app_assoc.
  - intros (He & Hor & w & [t Hp] & HT & Hs). split_and!; [done|..].
    + destruct Hor as [Hst|Hno]; [left; by eapply stale_later; [apply (taken_fresh _ _ _ _ _ Ht)|]|right].
      eapply no_trailers_head; [done|]. intros ts _ _ Hts.
      destruct (Hts Hne) as (ts' & w' & t' & -> & E & HT'). intros [Hc Hsz].
      apply (Hno ts' w' t' E HT'). split; [cbn in Hc; lia|]. cbn [trailers_size] in Hsz. lia.
    + exists (line ++ CRLF ++ w). split_and!.
      * exists t. rewrite (taken_input _ _ _ _ _ Ht), Hp. by rewrite <- !app_assoc.
      * apply PartialTrailers_cons; try done. by destruct Hfit as (_ & _ & ?).
      * rewrite app_assoc. by eapply Sent_after.
Qed.

Lemma relay_trailers_spec fuel count size i s :
  (length (ahead i ++ stream (client s)) < fuel)%nat → (count ≤ MAX_CHUNK_TRAILER_FIELDS)%nat →
  wp (relay_trailers fuel count size i) s (trailers_outcome count size i s).
Proof.
  revert count size i s. induction fuel as [|fuel IH]; intros count size i s Hf Hc; [lia|].
  cbn [relay_trailers]. apply wp_bind, read_line_top.
  2: { intros e s' Hw ?? Hno. apply trailers_fail; [done|right|done].
       intros ts w t E Ht _. destruct (Trailers_head MAX_CHUNK_LINE_BYTES _ _ t ltac:(done) Ht) as (l & w' & Hl & _).
       rewrite E in Hno. by eapply Hno. }
  intros line i1 s1 Hw Ht Hp Hfit. apply wp_bind, wp_lift.
  destruct (validate_chunk_trailer_line line) as [[]|e] eqn:Hv.
  2: { apply trailers_fail; [|right|done].
       - by apply trailer_line_err in Hv as [].
       - eapply no_trailers_head; [done|]. intros ts Hv'. by rewrite Hv in Hv'. }
  destruct (Z.ltb_spec MAX_HEADER_BYTES (size + Z.of_nat (length line) + 2)).
  { apply wp_fail, trailers_fail; [done|right|done]. eapply no_trailers_head; [done|].
    intros ts _ H0 H1 [_ Hsz]. destruct (decide (line = [])) as [->|Hl].
    - rewrite (H0 eq_refl) in Hsz. cbn in *. lia.
    - destruct (H1 Hl) as (ts' & _ & _ & -> & _). cbn [trailers_size] in Hsz.
      pose proof (trailers_size_pos ts'). lia. }
  assert (written s1 ++ pending i1 = (written s ++ pending i) ++ line ++ CRLF) as Heq
    by by rewrite Hw, Hp, app_assoc.
  destruct line as [|b l]; cbn [is_empty].
  - apply wp_bind. eapply wp_mono; [apply flush_pending_spec|]. intros [i2|e] s2 [Ht2 H2].
    + destruct H2 as (Ha & Hp2 & Hw2). apply wp_ret. exists [], CRLF, (ahead i1).
      split_and!; [constructor| |by rewrite Hw2, Heq].
      change CRLF with (CRLF ++ []). by eapply Taken_trans.
    + destruct H2 as [Hst Hw2]. apply trailers_fail; [by destruct Hst as [-> _]| |by rewrite Hw2].
      left. by eapply stale_later; [apply (taken_fresh _ _ _ _ _ Ht)|].
  - destruct (Nat.eqb_spec count MAX_CHUNK_TRAILER_FIELDS) as [->|Hneq].
    { apply wp_fail, trailers_fail; [done|right|done]. eapply no_trailers_head; [done|].
      intros ts _ _ H1 [Hn _]. destruct (H1 ltac:(done)) as (ts' & _ & _ & -> & _). cbn [length] in Hn. lia. }
    apply wp_bind. eapply wp_mono; [apply flush_full_spec|]. intros [i2|e] s2 (Ht2 & Hpre & H2).
    2: { destruct H2 as [Hst Hw2]. apply trailers_fail; [by destruct Hst as [-> _]| |by rewrite Hw2].
         left. by eapply stale_later; [apply (taken_fresh _ _ _ _ _ Ht)|]. }
    destruct H2 as (Ha & _ & Hw2). rewrite <- Ha in Ht2 at 2.
    pose proof (Taken_trans _ _ _ _ _ _ _ _ Ht Ht2) as Ht3. rewrite app_nil_r in Ht3.
    pose proof (Taken_length _ _ _ _ _ Ht3) as Hl. cbn [length app] in Hl.
    eapply wp_mono; [apply IH; [rewrite (length_app l) in Hl; cbn in Hl |- *; lia|lia]|].
    intros r s3. apply (trailers_step count size i s (b :: l)); try done.
    + by rewrite (taken_input _ _ _ _ _ Ht2) in Hfit.
    + by rewrite <- Hw.
    + by rewrite Hw2.
Qed.

(** No body of the grammar that the relay passes starts the input. *)
Definition no_body (input : bytes) : Prop :=
  ∀ data ts w t, input = w ++ t → Coding MAX_CHUNK_LINE_BYTES data ts w → ¬ trailers_pass 0 0 ts.

Definition relay_outcome (a : bytes) (s : Io) (r : result unit HttpError) (s' : Io) : Prop :=
  match r with
  | Ok _ => ∃ data ts w rest, Coding MAX_CHUNK_LINE_BYTES data ts w ∧ Taken a s w rest s' ∧
      written s' = written s ++ w
  | Err e => e ≠ OutOfFuel ∧ (stale s e ∨ no_body (a ++ stream (client s))) ∧
      ∃ w, w `prefix_of` a ++ stream (client s) ∧ Partial MAX_CHUNK_LINE_BYTES w ∧ Sent s [] w s'
  end.

Lemma relay_fail a s e w s' :
  e ≠ OutOfFuel → stale s e ∨ no_body (a ++ stream (client s)) →
  w `prefix_of` a ++ stream (client s) → Partial MAX_CHUNK_LINE_BYTES w → Sent s [] w s' →
  relay_outcome a s (Err e) s'.
Proof. intros. split_and!; eauto. Qed.
(** A relay that fails before it writes. *)
Lemma relay_fail_early a s e s' :
  e ≠ OutOfFuel → stale s e ∨ no_body (a ++ stream (client s)) → written s' = written s →
  relay_outcome a s (Err e) s'.
Proof.
  intros. eapply (relay_fail _ _ _ []); [done..|apply prefix_nil|by apply Partial_nil|by apply Sent_same].
Qed.

Lemma no_body_line line rest input e :
  fits MAX_CHUNK_LINE_BYTES line rest input → parse_chunk_size_line line = Err e → no_body input.
Proof.
  intros Hfit He data ts w t -> Hc _. destruct (Coding_fits _ _ _ _ t Hc) as (l & n & w' & Hf & Hp & _).
  destruct (fits_inj _ _ _ _ _ _ _ Hfit Hf) as [-> _]. by rewrite He in Hp.
Qed.
Lemma no_body_trailers line rest input :
  fits MAX_CHUNK_LINE_BYTES line rest input → parse_chunk_size_line line = Ok 0 →
  no_trailers 0 0 rest → no_body input.
Proof.
  intros Hfit H0 Hno data ts w t -> Hc. destruct (Coding_fits _ _ _ _ t Hc) as (l & n & w' & Hf & Hp & Hz & _).
  destruct (fits_inj _ _ _ _ _ _ _ Hfit Hf) as [-> ->]. rewrite H0 in Hp. injection Hp as <-.
  destruct (Hz eq_refl) as [_ Ht]. by eapply Hno.
Qed.
(** After the size of a chunk the input must hold its payload, CRLF and a body. *)
Lemma no_body_chunk line n rest input :
  fits MAX_CHUNK_LINE_BYTES line rest input → parse_chunk_size_line line = Ok n → n ≠ 0 →
  (∀ chunk t, Z.of_nat (length chunk) = n → rest = chunk ++ CRLF ++ t → no_body t) → no_body input.
Proof.
  intros Hfit Hn Hn0 Hno data ts w t -> Hc.
  destruct (Coding_fits _ _ _ _ t Hc) as (l & n' & w' & Hf & Hp & _ & H1).
  destruct (fits_inj _ _ _ _ _ _ _ Hfit Hf) as [-> ->]. rewrite Hn in Hp. injection Hp as <-.
  destruct (H1 Hn0) as (chunk & data' & w'' & Hlen & -> & _ & Hc').
  eapply (Hno chunk (w'' ++ t)); [done|by rewrite <- !app_assoc|done|done].
Qed.

(** A chunk that was relayed whole and the body after it. *)
Lemma relay_step a s line chunk a1 s1 r s2 :
  parse_chunk_size_line line = Ok (Z.of_nat (length chunk)) → chunk ≠ [] →
  fits MAX_CHUNK_LINE_BYTES line (chunk ++ CRLF ++ a1 ++ stream (client s1)) (a ++ stream (client s)) →
  Taken a s (line ++ CRLF ++ chunk ++ CRLF) a1 s1 →
  written s1 = written s ++ line ++ CRLF ++ chunk ++ CRLF →
  relay_outcome a1 s1 r s2 → relay_outcome a s r s2.
Proof.
  intros Hp Hne Hfit Ht Hw. pose proof Hfit as (_ & _ & Hlen). destruct r as [?|e].
  - intros (data & ts & w & rest & Hc & Ht2 & Hw2).
    exists (chunk ++ data), ts, (line ++ CRLF ++ chunk ++ CRLF ++ w), rest. split_and!.
    + by constructor.
    + pose proof (Taken_trans _ _ _ _ _ _ _ _ Ht Ht2) as Ht3. by rewrite <- !app_assoc in Ht3.
    + by rewrite Hw2, Hw, <- !app_assoc.
  - intros (He & Hor & w & [t Hpre] & HP & Hs). eapply (relay_fail _ _ _ (line ++ CRLF ++ chunk ++ CRLF ++ w)).
    + done.
    + destruct Hor as [Hst|Hno]; [left; by eapply stale_later; [apply (taken_fresh _ _ _ _ _ Ht)|]|right].
      eapply no_body_chunk; [done|done|by destruct chunk|].
      intros chunk' t' Hl E. apply app_inj_1 in E as [_ E]; [|lia].
      apply app_inv_head in E. by rewrite <- E.
    + exists t. by rewrite (taken_input _ _ _ _ _ Ht), Hpre, <- !app_assoc.
    + by apply Partial_chunk.
    + pose proof (Sent_after s [] (line ++ CRLF ++ chunk ++ CRLF) s1 [] w s2) as HS.
      rewrite <- !app_assoc in HS. apply HS; [by rewrite Hw; apply prefix_app_r|by rewrite Hw, app_nil_r|done].
Qed.

(** The two bytes after a chunk. *)
Lemma read_two i s (Q : result unit HttpError → Io → Prop) (k : Z → Z → ChunkedRelayInput → M unit) :
  (∀ x y i' s', Taken (ahead i) s [x; y] (ahead i') s' → pending i' = pending i ++ [x; y] →
     written s' = written s → wp (k x y i') s' Q) →
  (∀ e s', closed e → (length (ahead i ++ stream (client s)) < 2)%nat → written s' = written s →
     Q (Err e) s') →
  wp (let! r := read_byte i in let! r' := read_byte r.2 in k r.1 r'.1 r'.2) s Q.
Proof.
  intros Hok Herr. apply wp_bind. eapply wp_mono; [apply read_byte_spec|].
  intros [[x i1]|e] s1 [Hw H1]; [|destruct H1 as [? E]; apply Herr; [done|rewrite E; cbn; lia|done]].
  destruct H1 as [Ht1 Hp1]. apply wp_bind. eapply wp_mono; [apply read_byte_spec|]. cbn [fst snd].
  intros [[y i2]|e] s2 [Hw2 H2].
  - destruct H2 as [Ht2 Hp2]. apply Hok; [by apply (Taken_trans _ _ _ _ _ _ _ _ Ht1 Ht2)| |by rewrite Hw2].
    cbn [snd]. by rewrite Hp2, Hp1, <- app_assoc.
  - destruct H2 as [? E]. apply Herr; [done| |by rewrite Hw2].
    rewrite (Taken_length _ _ _ _ _ Ht1), E. cbn. lia.
Qed.

Section Chunk.
Context (i : ChunkedRelayInput) (s : Io) (line : bytes) (n : Z) (i1 : ChunkedRelayInput) (s1 : Io).
Context (Hpend : pending i = []) (Hn : parse_chunk_size_line line = Ok n) (Hn0 : n ≠ 0).
Context (Hw : written s1 = written s) (Hp : pending i1 = line ++ CRLF).
Context (Ht : Taken (ahead i) s (line ++ CRLF) (ahead i1) s1).
Context (Hfit : fits MAX_CHUNK_LINE_BYTES line (ahead i1 ++ stream (client s1)) (ahead i ++ stream (client s))).

#[local] Lemma chunk_input : ahead i ++ stream (client s) = (line ++ CRLF) ++ ahead i1 ++ stream (client s1).
Proof. apply (taken_input _ _ _ _ _ Ht). Qed.

(** A failure in a chunk, with [d] of its payload sent at most. *)
#[local] Lemma chunk_fail e d s' :
  e ≠ OutOfFuel → stale s e ∨ no_body (ahead i ++ stream (client s)) →
  d `prefix_of` ahead i1 ++ stream (client s1) → Z.of_nat (length d) ≤ n → Sent s1 (pending i1) d s' →
  relay_outcome (ahead i) s (Err e) s'.
Proof.
  intros He Hor [t Hd] Hle [Hm Ho]. pose proof Hfit as (_ & _ & Hlen).
  eapply (relay_fail _ _ _ (line ++ CRLF ++ d)); [done|done|..].
  - exists t. rewrite chunk_input, Hd. by rewrite <- !app_assoc.
  - by eapply Partial_payload.
  - rewrite Hw in *. split; [done|]. by rewrite Hp, <- !app_assoc in Ho; rewrite app_nil_r.
Qed.

#[local] Lemma chunk_stale e : stale s1 e → stale s e.
Proof. apply stale_later, (taken_fresh _ _ _ _ _ Ht). Qed.

(** Its payload has been read. *)
Section Payload.
Context (d : bytes) (i2 : ChunkedRelayInput) (s2 : Io).
Context (Hd : Z.of_nat (length d) = n) (Ht2 : Taken (ahead i1) s1 d (ahead i2) s2).
Context (Hpre : written s1 `prefix_of` written s2).
Context (Heq : written s2 ++ pending i2 = (written s1 ++ pending i1) ++ d).

#[local] Lemma payload_fail e s' :
  e ≠ OutOfFuel → stale s e ∨ no_body (ahead i ++ stream (client s)) →
  written s' = written s2 → relay_outcome (ahead i) s (Err e) s'.
Proof.
  intros He Hor E. apply (chunk_fail e d); [done|done| |lia|].
  - rewrite (taken_input _ _ _ _ _ Ht2). by apply prefix_app_r.
  - split; rewrite E; [done|]. rewrite <- Heq. by apply prefix_app_r.
Qed.
#[local] Lemma payload_no_end :
  (∀ t, ahead i2 ++ stream (client s2) ≠ CRLF ++ t) → no_body (ahead i ++ stream (client s)).
Proof.
  intros Hx. eapply no_body_chunk; [done..|]. intros chunk t Hl E. exfalso. apply (Hx t).
  rewrite (taken_input _ _ _ _ _ Ht2) in E. apply app_inj_1 in E as [_ E]; [done|lia].
Qed.

#[local] Lemma relay_chunk_end fuel :
  (∀ i s, (length (ahead i ++ stream (client s)) < fuel)%nat → pending i = [] →
     wp (relay_chunks fuel i) s (relay_outcome (ahead i) s)) →
  (length (ahead i ++ stream (client s)) < S fuel)%nat →
  wp (let! r := read_byte i2 in
      let! r' := read_byte r.2 in
      if bool_decide ([r.1; r'.1] = CRLF) then let! i := flush_pending r'.2 in relay_chunks fuel i
      else fail MissingChunkEnd) s2 (relay_outcome (ahead i) s).
Proof.
  intros IH Hf.
  pose (next := λ (x y : Z) (i' : ChunkedRelayInput), if bool_decide ([x; y] = CRLF)
    then let! i := flush_pending i' in relay_chunks fuel i else fail MissingChunkEnd).
  apply (read_two i2 s2 _ next).
  2: { intros e s' Hc Hlt Hw'. apply payload_fail; [by destruct Hc as [-> | ->]|right|done].
       apply payload_no_end. intros t E. rewrite E in Hlt. cbn in Hlt. lia. }
  intros x y i3 s3 Ht3 Hp3 Hw3. unfold next. case_bool_decide as Hxy.
  2: { apply wp_fail, payload_fail; [done|right|done]. apply payload_no_end.
       intros t E. rewrite (taken_input _ _ _ _ _ Ht3) in E. by injection E as -> ->. }
  rewrite Hxy in Ht3, Hp3.
  pose proof (Taken_trans _ _ _ _ _ _ _ _ Ht (Taken_trans _ _ _ _ _ _ _ _ Ht2 Ht3)) as Ht03.
  apply wp_bind. eapply wp_mono; [apply flush_pending_spec|]. intros [i4|e] s4 [Ht4 H4].
  2: { destruct H4 as [Hs4 Hw4]. apply payload_fail; [by destruct Hs4 as [-> _]| |by rewrite Hw4].
       left. by eapply stale_later; [apply (taken_fresh _ _ _ _ _ Ht03)|]. }
  destruct H4 as (Ha4 & Hp4 & Hw4). rewrite <- Ha4 in Ht4 at 2.
  pose proof (Taken_trans _ _ _ _ _ _ _ _ Ht03 Ht4) as Ht5. rewrite app_nil_r, <- app_assoc in Ht5.
  pose proof (Taken_length _ _ _ _ _ Ht5) as Hl. rewrite !(length_app line) in Hl. cbn in Hl.
  eapply wp_mono; [apply IH; [lia|done]|]. intros r s5. apply (relay_step _ _ line d).
  - by rewrite Hd.
  - intros ->. cbn in Hd. lia.
  - rewrite (taken_input _ _ _ _ _ Ht2), (taken_input _ _ _ _ _ Ht3), (taken_input _ _ _ _ _ Ht4) in Hfit.
    done.
  - done.
  - rewrite Hw4, Hp3, Hw3, app_assoc, Heq, Hw, Hp. by rewrite <- !app_assoc.
Qed.
End Payload.

Lemma relay_chunk fuel :
  (∀ i s, (length (ahead i ++ stream (client s)) < fuel)%nat → pending i = [] →
     wp (relay_chunks fuel i) s (relay_outcome (ahead i) s)) →
  (length (ahead i ++ stream (client s)) < S fuel)%nat →
  wp (let! i := with_fuel (ahead i1) (λ fuel, consume_exact fuel n i1) in
      let! r := read_byte i in
      let! r' := read_byte r.2 in
      if bool_decide ([r.1; r'.1] = CRLF) then let! i := flush_pending r'.2 in relay_chunks fuel i
      else fail MissingChunkEnd) s1 (relay_outcome (ahead i) s).
Proof.
  intros IH Hf. pose proof (size_line_range _ _ Hn) as [Hnn _].
  apply wp_bind, wp_with_fuel. eapply wp_mono; [apply consume_exact_spec; [lia|done]|].
  intros [i2|e] s2 Hcons; cbn in Hcons.
  - destruct Hcons as (d & Hd & Ht2 & Hpre & Heq). by apply (relay_chunk_end d).
  - destruct Hcons as (He & Hor & d & Hd & Hle & Hs). apply (chunk_fail e d s2); [done| |done..].
    destruct Hor as [?|Hlt]; [left; by apply chunk_stale|right]. eapply no_body_chunk; [done..|].
    intros chunk t Hl E. rewrite E, length_app in Hlt. lia.
Qed.
End Chunk.

Lemma relay_chunks_spec fuel i s :
  (length (ahead i ++ stream (client s)) < fuel)%nat → pending i = [] →
  wp (relay_chunks fuel i) s (relay_outcome (ahead i) s).
Proof.
  revert i s. induction fuel as [|fuel IH]; intros i s Hf Hpend; [lia|]. cbn [relay_chunks].
  apply wp_bind, read_line_top.
  2: { intros e s' Hw ?? Hno. apply relay_fail_early; [done|right|done].
       intros data ts w t E Hc _. destruct (Coding_fits _ _ _ _ t Hc) as (l & n & w' & Hl & _).
       rewrite E in Hno. by eapply Hno. }
  intros line i1 s1 Hw Ht Hp Hfit. apply wp_bind, wp_lift. rewrite Hpend in Hp. cbn in Hp.
  destruct (parse_chunk_size_line line) as [n|e] eqn:Hn.
  2: { apply relay_fail_early; [|right; by eapply no_body_line|done].
       by apply size_line_err in Hn as []. }
  destruct (Z.eqb_spec n 0) as [->|Hn0]; [|by eapply relay_chunk].
  apply wp_with_fuel. eapply wp_mono; [by apply relay_trailers_spec; lia|].
  intros [[]|e] s2.
  - intros (ts & w & rest & HT & Ht2 & Hw2). exists [], ts, (line ++ CRLF ++ w), rest. split_and!.
    + constructor; try done. by destruct Hfit as (_ & _ & ?).
    + rewrite app_assoc. by eapply Taken_trans.
    + by rewrite Hw2, Hw, Hp, <- !app_assoc.
  - intros (He & Hor & w & [t Hpre] & HP & Hs). eapply (relay_fail _ _ _ (line ++ CRLF ++ w)); [done|..].
    + destruct Hor as [Hst|Hno]; [left; by eapply stale_later; [apply (taken_fresh _ _ _ _ _ Ht)|]|right].
      by eapply no_body_trailers.
    + exists t. rewrite (taken_input _ _ _ _ _ Ht), Hpre. by rewrite <- !app_assoc.
    + apply Partial_trailers; try done. by destruct Hfit as (_ & _ & ?).
    + rewrite app_assoc. eapply Sent_after; [by rewrite Hw| |done]. by rewrite Hw, Hp, app_nil_r.
Qed.

(** ** Properties *)

(** The relay of a chunked body takes exactly one body of the grammar from
    what was read ahead and the stream, however they are cut into reads, and
    writes exactly its bytes. It fails only when the policy went stale or no
    body with lines, trailers and trailer count in bounds starts the input, and
    what it has written then is the start of a well-formed body. *)
Theorem relay_chunked_exact already_read s :
  match relay_chunked already_read s with
  | (Ok _, s') => ∃ data ts wire rest,
      Coding MAX_CHUNK_LINE_BYTES data ts wire ∧ written s' = written s ++ wire ∧
      already_read ++ stream (client s) = wire ++ rest ++ stream (client s') ∧
      (rest = [] ∨ client s' = client s)
  | (Err e, s') =>
      e ≠ OutOfFuel ∧
      (e = StalePolicy ∧ fresh s ≠ None ∨
       ∀ data ts wire t, already_read ++ stream (client s) = wire ++ t →
         Coding MAX_CHUNK_LINE_BYTES data ts wire →
         ¬ ((length ts ≤ MAX_CHUNK_TRAILER_FIELDS)%nat ∧ trailers_size ts ≤ MAX_HEADER_BYTES)) ∧
      ∃ wire, written s' = written s ++ wire ∧ wire `prefix_of` already_read ++ stream (client s) ∧
        Partial MAX_CHUNK_LINE_BYTES wire
  end.
Proof.
  assert (wp (relay_chunked already_read) s (relay_outcome already_read s)) as H.
  { apply wp_with_fuel. by apply (relay_chunks_spec _ (relay_input already_read [])); [cbn; lia|]. }
  unfold wp in H. destruct (relay_chunked already_read s) as [[[]|e] s']; cbn [fst snd] in H.
  - destruct H as (data & ts & w & rest & Hc & [Hin Ha _] & Hw). exists data, ts, w, rest.
    split_and!; [done..|]. destruct Ha as [?|[? _]]; auto.
  - destruct H as (He & Hor & w & Hp & HP & [[x Hx] Ho]). split_and!; [done| |].
    + destruct Hor as [?|Hno]; [by left|right]. intros data ts wire t E Hc [Hn Hs].
      apply (Hno data ts wire t E Hc). by split.
    + exists x. rewrite app_nil_r, Hx in Ho. apply prefix_app_inv in Ho.
      split_and!; [done|by etrans|by eapply Partial_prefix].
Qed.
