(* ===== verification/ChunkedBuffers.v ===== *)
(** * ChunkedBuffers: the buffers of a chunked body follow the same grammar
    (crates/openshell-supervisor-network/src/l7/rest.rs, src/l7/http.rs)

    The buffer of middleware and credential rewriting and the buffer of the
    inspectors return the data of exactly one body, so all readers of a body
    agree on its data and on where it ends. *)

From stdpp Require Import gmap.
From S2P Require Import Prelude PathCanon IpParse Order Text Destination Secrets SecretsBody Http HttpEdit HttpBody ChunkedFacts.
Import IpParse.

(** ** The buffer of middleware *)

(** [d] was read, within the limit on the bytes of the framing. *)
Record Got (st : ChunkedReadState) (s : Io) (d : bytes) (st' : ChunkedReadState) (s' : Io) : Prop := got {
  got_taken : Taken (buffered st) s d (buffered st') s';
  got_wire : wire_bytes st' = wire_bytes st + Z.of_nat (length d);
  got_max : max_wire_bytes st' = max_wire_bytes st;
  got_within : over_wire st (Z.of_nat (length d)) = false;
  got_written : written s' = written s;
}.
Lemma over_wire_false st n :
  over_wire st n = false ↔ ∀ max, max_wire_bytes st = Some max → wire_bytes st + n ≤ max.
Proof.
  unfold over_wire. destruct (max_wire_bytes st) as [m|]; cbn; [|naive_solver].
  rewrite Z.ltb_ge. split; [intros ? ? [= <-]; lia|intros H; specialize (H m eq_refl); lia].
Qed.
Lemma over_wire_le st n m : n ≤ m → over_wire st m = false → over_wire st n = false.
Proof. rewrite !over_wire_false. intros ? H max E. specialize (H max E). lia. Qed.
Lemma over_wire_shift st s d st' s' n :
  Got st s d st' s' → over_wire st' n = over_wire st (Z.of_nat (length d) + n).
Proof.
  intros [_ Hw Hm _ _]. unfold over_wire. rewrite Hm, Hw. destruct (max_wire_bytes st); cbn; [|done].
  apply eq_true_iff_eq. rewrite !Z.ltb_lt. lia.
Qed.
Lemma Got_trans st s d st' s' d' st'' s'' :
  Got st s d st' s' → Got st' s' d' st'' s'' → Got st s (d ++ d') st'' s''.
Proof.
  intros H1 H2. pose proof (got_within _ _ _ _ _ H2) as Hin. rewrite (over_wire_shift _ _ _ _ _ _ H1) in Hin.
  destruct H1 as [??? _ ?], H2 as [??? _ ?]. split.
  - by eapply Taken_trans.
  - rewrite length_app. lia.
  - congruence.
  - rewrite length_app, Nat2Z.inj_add. done.
  - congruence.
Qed.
Lemma Got_refl st s d st' s' : Got st s d st' s' → Got st' s' [] st' s'.
Proof.
  intros H. split; cbn; [apply Taken_refl|lia|done| |done].
  rewrite (over_wire_shift _ _ _ _ _ _ H), Z.add_0_r. apply (got_within _ _ _ _ _ H).
Qed.
Lemma got_input st s d st' s' :
  Got st s d st' s' →
  buffered st ++ stream (client s) = d ++ buffered st' ++ stream (client s').
Proof. intros [H _ _ _ _]. apply (taken_input _ _ _ _ _ H). Qed.
Lemma got_stale st s d st' s' e : Got st s d st' s' → stale s' e → stale s e.
Proof. intros [H _ _ _ _]. apply stale_later, (taken_fresh _ _ _ _ _ H). Qed.
Lemma got_length st s d st' s' :
  Got st s d st' s' → length (buffered st ++ stream (client s))
    = (length d + length (buffered st' ++ stream (client s')))%nat.
Proof. intros [H _ _ _ _]. apply (Taken_length _ _ _ _ _ H). Qed.

(** How a read of at least [n] bytes may fail. *)
Definition refused (st : ChunkedReadState) (s : Io) (n : Z) (e : HttpError) : Prop :=
  stale s e ∨ e = OverCapacity ∧ over_wire st n = true
  ∨ closed e ∧ Z.of_nat (length (buffered st ++ stream (client s))) < n.
Lemma refused_fuel st s n e : refused st s n e → e ≠ OutOfFuel.
Proof. intros [[-> _]|[[-> _]|[[-> | ->] _]]]; done. Qed.

Lemma read_buffered_byte_spec st s :
  wp (read_buffered_byte st) s (λ r s',
    match r with
    | Ok (b, st') => Got st s [b] st' s'
    | Err e => refused st s 1 e ∧ written s' = written s
    end).
Proof.
  unfold read_buffered_byte. destruct (over_wire st 1) eqn:Ho; [apply wp_fail; unfold refused; auto|].
  destruct (buffered st) as [|b rest] eqn:E.
  - apply wp_bind, wp_read_byte_u8.
    + intros b c Hs. apply wp_bind, wp_ensure_current.
      * intros f Hf. apply wp_ret. split; cbn; [|lia|done|done|done].
        rewrite E. split; cbn; auto.
      * intros Hf. split; [|done]. by left.
    + intros e Hs He. split; [|done]. right. right. split; [done|]. rewrite E, Hs. cbn. lia.
  - apply wp_ret. split; cbn; [|lia|done|done|done]. rewrite E. split; cbn; auto.
Qed.

Lemma read_chunked_line_spec fuel line st s :
  (length (buffered st ++ stream (client s)) < fuel)%nat → no_crlf line = true →
  wp (read_chunked_line fuel line st) s (λ r s',
    match r with
    | Ok (l, st') => ∃ d, Got st s d st' s' ∧ l ++ CRLF = line ++ d ∧
        fits MAX_REWRITE_BODY_BYTES l (buffered st' ++ stream (client s')) (line ++ buffered st ++ stream (client s))
    | Err e => e ≠ OutOfFuel ∧ written s' = written s ∧
        (stale s e ∨ ∀ l t, fits MAX_REWRITE_BODY_BYTES l t (line ++ buffered st ++ stream (client s)) →
           over_wire st (Z.of_nat (length l) + 2 - Z.of_nat (length line)) = true)
    end).
Proof.
  revert line st s. induction fuel as [|fuel IH]; intros line st s Hf Hn; [lia|]. cbn [read_chunked_line].
  apply wp_bind. eapply wp_mono; [apply read_buffered_byte_spec|]. intros [[b st1]|e] s1.
  2: { intros [Hr Hw]. split_and!; [by eapply refused_fuel|done|].
       destruct Hr as [?|Hr]; [by left|right]. intros l t Hfit.
       destruct Hr as [[_ Ho]|[_ Hlt]].
       - apply not_false_iff_true. intros Ho'. pose proof (fits_beyond _ _ _ _ _ Hn Hfit).
         enough (over_wire st 1 = false) by congruence. eapply over_wire_le; [|exact Ho']. lia.
       - exfalso. eapply fits_none, Hfit; [done|]. right. apply length_zero_iff_nil. lia. }
  cbn [fst snd]. intros Hg. rewrite (got_input _ _ _ _ _ Hg).
  destruct (Z.ltb_spec MAX_REWRITE_BODY_BYTES (Z.of_nat (length (line ++ [b])))) as [Hlt|Hle].
  { apply wp_fail. split_and!; [done|by apply (got_written _ _ _ _ _ Hg)|]. right. intros l t Hfit. exfalso.
    eapply fits_none, Hfit; [done|]. left. rewrite length_app in Hlt. cbn in Hlt. lia. }
  rewrite app_assoc. destruct (strip_suffix CRLF (line ++ [b])) as [l|] eqn:Hs.
  - apply wp_ret. exists [b]. split_and!; [done| |by apply strip_crlf_fits].
    by apply strip_suffix_Some in Hs.
  - eapply wp_mono; [apply IH; [|by apply no_crlf_snoc]|].
    { pose proof (got_length _ _ _ _ _ Hg) as Hl. cbn in Hl. lia. }
    intros [[l st2]|e] s2.
    + intros (d & Hg2 & Hl2 & Hfit). exists ([b] ++ d). split_and!; [by eapply Got_trans| |done].
      by rewrite Hl2, <- app_assoc.
    + intros (He & Hw & Hor). split_and!; [done|rewrite Hw; by apply (got_written _ _ _ _ _ Hg)|].
      destruct Hor as [?|Hno]; [left; by eapply got_stale|right]. intros l t Hfit.
      specialize (Hno l t Hfit). rewrite (over_wire_shift _ _ _ _ _ _ Hg) in Hno. rewrite <- Hno. f_equal.
      rewrite length_app. cbn. lia.
Qed.

Lemma read_chunked_line_top st s (Q : result (bytes * ChunkedReadState) HttpError → Io → Prop) :
  (∀ l st' s', Got st s (l ++ CRLF) st' s' →
     fits MAX_REWRITE_BODY_BYTES l (buffered st' ++ stream (client s')) (buffered st ++ stream (client s)) →
     Q (Ok (l, st')) s') →
  (∀ e s', e ≠ OutOfFuel → written s' = written s →
     stale s e ∨ (∀ l t, fits MAX_REWRITE_BODY_BYTES l t (buffered st ++ stream (client s)) →
       over_wire st (Z.of_nat (length l) + 2) = true) → Q (Err e) s') →
  wp (with_fuel (buffered st) (λ fuel, read_chunked_line fuel [] st)) s Q.
Proof.
  intros Hok Herr. apply wp_with_fuel. eapply wp_mono; [by apply read_chunked_line_spec; [lia|]|].
  intros [[l st']|e] s'.
  - intros (d & Hg & Hd & Hfit). cbn in Hd. subst d. by apply Hok.
  - intros (He & Hw & Hor). apply Herr; [done..|]. destruct Hor as [?|Hno]; [by left|right].
    intros l t Hfit. rewrite <- (Hno l t Hfit). f_equal. cbn. lia.
Qed.

Lemma read_remaining_spec fuel n out st s :
  (length (stream (client s)) < fuel)%nat → 0 ≤ n → buffered st = [] ∨ n = 0 →
  over_wire st n = false →
  wp (read_remaining fuel n out st) s (λ r s',
    match r with
    | Ok (out', st') => ∃ d, out' = out ++ d ∧ Z.of_nat (length d) = n ∧ Got st s d st' s'
    | Err e => (stale s e ∨ closed e ∧ Z.of_nat (length (stream (client s))) < n) ∧ written s' = written s
    end).
Proof.
  revert n out st s. induction fuel as [|fuel IH]; intros n out st s Hf Hn Hb Ho; [lia|]. cbn [read_remaining].
  destruct (Z.leb_spec n 0).
  { apply wp_ret. exists []. rewrite app_nil_r. split_and!; [done|cbn; lia|].
    assert (n = 0) as -> by lia. split; cbn; [apply Taken_refl|lia|done..]. }
  destruct Hb as [Hb|]; [|lia].
  pose proof relay_buf_pos. apply wp_bind, wp_read_some; [lia|..].
  - intros b c Hs Hne Hle. destruct b as [|x b]; [done|]. cbn [is_empty].
    apply wp_bind, wp_ensure_current; cbn [client written replied fresh].
    + intros f Hfr. set (d := x :: b) in *.
      assert (Got st s d (read_state (buffered st) (wire_bytes st + Z.of_nat (length d)) (max_wire_bytes st))
                (io c (written s) (replied s) f)) as Hg.
      { split; [|done|done|eapply over_wire_le; [|done]; lia|done]. rewrite Hb. split; cbn; auto. }
      assert (0 < length d)%nat by (cbn; lia).
      eapply wp_mono; [apply IH; cbn [client buffered]; [|lia|by left|]|].
      * rewrite Hs, length_app in Hf. lia.
      * rewrite (over_wire_shift _ _ _ _ _ _ Hg). rewrite <- Ho. f_equal. lia.
      * intros [[out' st']|e] s'.
        -- intros (d2 & -> & Hl & Hg2). exists (d ++ d2). split_and!; [by rewrite app_assoc|rewrite length_app; lia|].
           by eapply Got_trans.
        -- intros [Hor Hw]. split; [|done]. destruct Hor as [?|[? Hlt]]; [left; by eapply got_stale|right].
           split; [done|]. rewrite Hs, length_app. cbn [client] in Hlt. lia.
    + intros Hfr. split; [by left|done].
  - intros Hs. split; (split; [|done]); right; rewrite Hs; cbn; (split; [|lia]); [by left|by right].
Qed.

Lemma read_buffered_exact_spec n out st s :
  0 ≤ n →
  wp (read_buffered_exact n out st) s (λ r s',
    match r with
    | Ok (out', st') => ∃ d, out' = out ++ d ∧ Z.of_nat (length d) = n ∧ Got st s d st' s'
    | Err e => refused st s n e ∧ written s' = written s
    end).
Proof.
  intros Hn. unfold read_buffered_exact. destruct (over_wire st n) eqn:Ho.
  { apply wp_fail. split; [|done]. right. by left. }
  set (k := Z.to_nat (Z.min n (Z.of_nat (length (buffered st))))).
  assert (length (take k (buffered st)) = k) as Hk by (rewrite length_take; unfold k; lia). rewrite Hk.
  set (st1 := read_state (drop k (buffered st)) (wire_bytes st + Z.of_nat k) (max_wire_bytes st)).
  assert (Got st s (take k (buffered st)) st1 s) as Hg.
  { unfold st1. split; cbn [buffered wire_bytes max_wire_bytes]; rewrite ?Hk; [|done|done|eapply over_wire_le; [|done]; lia|done].
    split; [by rewrite app_assoc, take_drop| |done]. right. by rewrite take_drop. }
  apply wp_with_fuel. eapply wp_mono; [apply read_remaining_spec|].
  - cbn. lia.
  - lia.
  - unfold st1. cbn [buffered]. destruct (decide (n = Z.of_nat k)) as [E|]; [right; lia|left].
    apply drop_ge. lia.
  - rewrite (over_wire_shift _ _ _ _ _ _ Hg), Hk. rewrite <- Ho. f_equal. lia.
  - intros [[out' st']|e] s'.
    + intros (d & -> & Hl & Hg2). exists (take k (buffered st) ++ d).
      split_and!; [by rewrite app_assoc|rewrite length_app; lia|by eapply Got_trans].
    + intros [Hor Hw]. split; [|done]. destruct Hor as [?|[? Hlt]]; [by left|right; right].
      split; [done|]. rewrite length_app. lia.
Qed.

(** No body without trailers that the buffer has room for starts the input. *)
Definition no_room (body : bytes) (st : ChunkedReadState) (s : Io) : Prop :=
  ∀ data w t, buffered st ++ stream (client s) = w ++ t → Coding MAX_REWRITE_BODY_BYTES data [] w →
    (max_wire_bytes st = None → Z.of_nat (length body + length data) ≤ MAX_REWRITE_BODY_BYTES) →
    over_wire st (Z.of_nat (length w)) = true.
Definition collect_outcome (body : bytes) (st : ChunkedReadState) (s : Io)
  (r : result bytes HttpError) (s' : Io) : Prop :=
  written s' = written s ∧
  match r with
  | Ok out => ∃ data w st', out = body ++ data ∧ Coding MAX_REWRITE_BODY_BYTES data [] w ∧ Got st s w st' s'
  | Err e => e ≠ OutOfFuel ∧ (stale s e ∨ no_room body st s)
  end.

Section Collect.
Context (body : bytes) (st : ChunkedReadState) (s : Io) (line : bytes) (n : Z).
Context (st1 : ChunkedReadState) (s1 : Io).
Context (Hg : Got st s (line ++ CRLF) st1 s1) (Hn : parse_chunk_size_line line = Ok n).
Context (Hfit : fits MAX_REWRITE_BODY_BYTES line (buffered st1 ++ stream (client s1))
                  (buffered st ++ stream (client s))).

(** What a body that starts the input holds after its first size. *)
#[local] Lemma collect_after data w t :
  buffered st ++ stream (client s) = w ++ t → Coding MAX_REWRITE_BODY_BYTES data [] w →
  ∃ w', w = line ++ CRLF ++ w' ∧ buffered st1 ++ stream (client s1) = w' ++ t ∧
    (n = 0 → w' = CRLF) ∧
    (n ≠ 0 → ∃ chunk data' w'', n = Z.of_nat (length chunk) ∧ w' = chunk ++ CRLF ++ w'' ∧
       data = chunk ++ data' ∧ Coding MAX_REWRITE_BODY_BYTES data' [] w'').
Proof.
  intros Heq Hc. destruct (Coding_fits _ _ _ _ t Hc) as (l & n' & w' & Hf & Hp & H0 & H1).
  rewrite Heq in Hfit. destruct (fits_inj _ _ _ _ _ _ _ Hfit Hf) as [<- E].
  rewrite Hn in Hp. injection Hp as <-. exists w'. split_and!; [|done| |done].
  - destruct Hf as (Hw & _). rewrite (app_assoc CRLF), (app_assoc line) in Hw. by apply app_inv_tail in Hw.
  - intros Hz. destruct (H0 Hz) as [_ Ht]. by inversion Ht.
Qed.

#[local] Lemma collect_end :
  n = 0 →
  wp (let! r := with_fuel (buffered st1) (λ fuel, read_chunked_line fuel [] st1) in
      let! _ := lift (validate_chunk_trailer_line r.1) in
      if is_empty r.1 then ret body else fail TrailersUnsupported) s1 (collect_outcome body st s).
Proof.
  intros Hz. pose proof (got_written _ _ _ _ _ Hg) as Hw1.
  assert (∀ e s', e ≠ OutOfFuel → written s' = written s1 →
    (∀ t, buffered st1 ++ stream (client s1) = CRLF ++ t → over_wire st1 2 = true) →
    collect_outcome body st s (Err e) s') as Hfail.
  { intros e s' He Hw Hno. split_and!; [congruence|done|right]. intros data w t Heq Hc _.
    destruct (collect_after data w t Heq Hc) as (w' & -> & E & H0 & _). rewrite (H0 Hz) in E |- *.
    specialize (Hno t E). rewrite (over_wire_shift _ _ _ _ _ _ Hg) in Hno. rewrite <- Hno. f_equal.
    rewrite !length_app. cbn. lia. }
  apply wp_bind, read_chunked_line_top.
  2: { intros e s' He Hw [Hst|Hno].
       - split_and!; [congruence|done|left]. by eapply got_stale.
       - apply Hfail; [done..|]. intros t E. apply (Hno [] t). by rewrite E. }
  cbn [fst snd]. intros l st2 s2 Hg2 Hf2. apply wp_bind, wp_lift.
  pose proof (got_written _ _ _ _ _ Hg2) as Hw2.
  assert (l ≠ [] → ∀ e, e ≠ OutOfFuel → collect_outcome body st s (Err e) s2) as Hl.
  { intros Hl e He. apply Hfail; [done..|]. intros t E. exfalso. apply Hl.
    assert (fits MAX_REWRITE_BODY_BYTES [] t (buffered st1 ++ stream (client s1))) as Hf3 by by rewrite E.
    by apply (fits_inj _ _ _ _ _ _ _ Hf2 Hf3). }
  destruct l as [|x l]; [|destruct (validate_chunk_trailer_line _) as [[]|e] eqn:Hv; apply Hl; try done;
                           by apply trailer_line_err in Hv as []].
  cbn [is_empty]. split; [cbn; congruence|]. exists [], (line ++ CRLF ++ CRLF), st2.
  rewrite app_nil_r. split_and!; [done| |rewrite app_assoc; by eapply Got_trans].
  constructor; [congruence|by destruct Hfit as (_ & _ & ?)|constructor].
Qed.

(** No chunk of [n] bytes, CRLF and a body after them fit in the room there is. *)
Definition no_chunk : Prop := ∀ chunk data w t, n = Z.of_nat (length chunk) →
  buffered st1 ++ stream (client s1) = chunk ++ CRLF ++ w ++ t → Coding MAX_REWRITE_BODY_BYTES data [] w →
  (max_wire_bytes st = None → Z.of_nat (length (body ++ chunk) + length data) ≤ MAX_REWRITE_BODY_BYTES) →
  over_wire st1 (n + 2 + Z.of_nat (length w)) = true.
#[local] Lemma collect_fail e s' :
  n ≠ 0 → e ≠ OutOfFuel → written s' = written s1 → stale s e ∨ no_chunk →
  collect_outcome body st s (Err e) s'.
Proof.
  intros Hn0 He Hw Hor. pose proof (got_written _ _ _ _ _ Hg) as Hw1. split_and!; [congruence|done|].
  destruct Hor as [?|Hno]; [by left|right].
  intros data w t Heq Hc Hroom. destruct (collect_after data w t Heq Hc) as (w' & -> & E & _ & H1).
  destruct (H1 Hn0) as (chunk & data' & w'' & Hlen & -> & -> & Hc').
  rewrite <- !app_assoc in E. specialize (Hno chunk data' w'' t Hlen E Hc').
  rewrite (over_wire_shift _ _ _ _ _ _ Hg) in Hno. rewrite <- Hno.
  - f_equal. rewrite !length_app. cbn. lia.
  - intros Hm. specialize (Hroom Hm). rewrite !length_app in *. lia.
Qed.
(** A read of the chunk or its CRLF was refused. *)
#[local] Lemma collect_refused e s' d st2 s2 m :
  n ≠ 0 → Got st1 s1 d st2 s2 → refused st2 s2 m e → Z.of_nat (length d) + m ≤ n + 2 →
  written s' = written s2 → collect_outcome body st s (Err e) s'.
Proof.
  intros Hn0 Hg2 Hr Hle Hw. pose proof (got_written _ _ _ _ _ Hg2).
  apply collect_fail; [done|by eapply refused_fuel|congruence|].
  destruct Hr as [Hst|Hr]; [left; by eapply got_stale, got_stale|right].
  intros chunk data w t Hl E Hc _. destruct Hr as [[_ Ho]|[_ Hlt]].
  - rewrite (over_wire_shift _ _ _ _ _ _ Hg2) in Ho. apply not_false_iff_true. intros Ho'.
    enough (over_wire st1 (Z.of_nat (length d) + m) = false) by congruence.
    eapply over_wire_le; [|exact Ho']. lia.
  - exfalso. pose proof (got_length _ _ _ _ _ Hg2) as HL. rewrite E, (length_app chunk) in HL. cbn in HL. lia.
Qed.

#[local] Lemma collect_payload fuel :
  (∀ body st s, (length (buffered st ++ stream (client s)) < fuel)%nat →
     Z.of_nat (length body) ≤ wire_bytes st →
     wp (collect_chunks fuel body st) s (collect_outcome body st s)) →
  (length (buffered st ++ stream (client s)) < S fuel)%nat → Z.of_nat (length body) ≤ wire_bytes st → n ≠ 0 →
  wp (let! r := read_buffered_exact n body st1 in
      let '(body, st) := r in
      let! r := read_buffered_exact 2 [] st in
      if bool_decide (r.1 = CRLF) then collect_chunks fuel body r.2 else fail MissingChunkEnd) s1
    (collect_outcome body st s).
Proof.
  intros IH Hf Hb Hn0. pose proof (size_line_range _ _ Hn) as [Hnn _].
  apply wp_bind. eapply wp_mono; [by apply read_buffered_exact_spec|]. intros [[out st2]|e] s2.
  2: { intros [Hr Hw]. eapply (collect_refused _ _ [] st1 s1 n); [done| |done|cbn; lia|done].
       by eapply Got_refl. }
  intros (d & -> & Hd & Hg2). apply wp_bind. eapply wp_mono; [by apply read_buffered_exact_spec|].
  intros [[crlf st3]|e] s3.
  2: { intros [Hr Hw]. by eapply (collect_refused _ _ d st2 s2 2); [..|lia|]. }
  cbn [fst snd]. intros (d2 & E & Hd2 & Hg3). cbn in E. subst d2. case_bool_decide as Hcr.
  2: { apply wp_fail, collect_fail; [done|done| |right].
       - by rewrite (got_written _ _ _ _ _ Hg3), (got_written _ _ _ _ _ Hg2).
       - intros chunk data w t Hl E _ _. exfalso. apply Hcr.
         rewrite (got_input _ _ _ _ _ Hg2), (got_input _ _ _ _ _ Hg3) in E.
         apply app_inj_1 in E as [_ E]; [|lia]. apply app_inj_1 in E as [E _]; [done|cbn; lia]. }
  subst crlf. pose proof (Got_trans _ _ _ _ _ _ _ _ Hg (Got_trans _ _ _ _ _ _ _ _ Hg2 Hg3)) as Hg4.
  pose proof (got_length _ _ _ _ _ Hg4) as HL. rewrite (length_app (_ ++ _)), (length_app line) in HL. cbn in HL.
  pose proof (got_wire _ _ _ _ _ Hg4) as HW. rewrite !length_app in HW.
  eapply wp_mono; [apply IH; [lia|rewrite length_app; lia]|].
  intros r s4 [Hw4 H4]. split; [by rewrite Hw4, (got_written _ _ _ _ _ Hg4)|]. destruct r as [out|e].
  - destruct H4 as (data & w & st5 & -> & Hc & Hg5).
    exists (d ++ data), (line ++ CRLF ++ d ++ CRLF ++ w), st5. split_and!; [by rewrite app_assoc|..].
    + constructor; [by rewrite Hd|by destruct Hfit as (_ & _ & ?)|by intros ->|done].
    + pose proof (Got_trans _ _ _ _ _ _ _ _ Hg4 Hg5) as Hg6. by rewrite <- !app_assoc in Hg6.
  - destruct H4 as [He Hor]. apply (collect_fail e s1); [done|done|done|].
    destruct Hor as [Hst|Hno]; [left; by eapply got_stale|right].
    intros chunk data w t Hl E Hc Hroom.
    rewrite (got_input _ _ _ _ _ Hg2), (got_input _ _ _ _ _ Hg3) in E.
    apply app_inj_1 in E as [-> E]; [|lia]. apply app_inv_head in E.
    specialize (Hno data w t E Hc). rewrite (over_wire_shift _ _ _ _ _ _ Hg3), (over_wire_shift _ _ _ _ _ _ Hg2) in Hno.
    rewrite <- Hno; [f_equal; cbn; lia|].
    by rewrite (got_max _ _ _ _ _ Hg3), (got_max _ _ _ _ _ Hg2), (got_max _ _ _ _ _ Hg).
Qed.
End Collect.

Lemma collect_chunks_spec fuel body st s :
  (length (buffered st ++ stream (client s)) < fuel)%nat → Z.of_nat (length body) ≤ wire_bytes st →
  wp (collect_chunks fuel body st) s (collect_outcome body st s).
Proof.
  revert body st s. induction fuel as [|fuel IH]; intros body st s Hf Hb; [lia|]. cbn [collect_chunks].
  apply wp_bind, read_chunked_line_top.
  2: { intros e s' He Hw Hor. split_and!; [done..|]. destruct Hor as [?|Hno]; [by left|right].
       intros data w t E Hc _. destruct (Coding_fits _ _ _ _ t Hc) as (l & n & w' & Hl & _).
       rewrite E in Hno. specialize (Hno _ _ Hl). apply not_false_iff_true. intros Ho.
       enough (over_wire st (Z.of_nat (length l) + 2) = false) by congruence.
       eapply over_wire_le; [|exact Ho]. destruct Hl as (El & _). apply (f_equal length) in El.
       rewrite !length_app in El. cbn in El. lia. }
  intros line st1 s1 Hg Hfit. apply wp_bind, wp_lift.
  destruct (parse_chunk_size_line line) as [n|e] eqn:Hn.
  2: { split_and!; [by apply (got_written _ _ _ _ _ Hg)|by apply size_line_err in Hn as []|right].
       intros data w t E Hc _. destruct (Coding_fits _ _ _ _ t Hc) as (l & n & w' & Hl & Hp & _).
       rewrite <- E in Hl. destruct (fits_inj _ _ _ _ _ _ _ Hfit Hl) as [-> _]. by rewrite Hn in Hp. }
  destruct (Z.eqb_spec n 0) as [->|Hn0]; [by eapply collect_end|].
  destruct (Z.ltb_spec (default MAX_REWRITE_BODY_BYTES (max_wire_bytes st1))
              (saturating_add usize_max (Z.of_nat (length body)) n)) as [Hlt|_]; [|by eapply collect_payload].
  apply wp_fail. eapply collect_fail; [done..|by destruct (is_some _)|done|right].
  intros chunk data w t Hl _ _ Hroom. rewrite (got_max _ _ _ _ _ Hg) in Hlt. unfold saturating_add in Hlt.
  apply not_false_iff_true. rewrite over_wire_false, (got_max _ _ _ _ _ Hg), (got_wire _ _ _ _ _ Hg).
  destruct (max_wire_bytes st) as [m|]; cbn in Hlt.
  - intros Hin. specialize (Hin m eq_refl). lia.
  - specialize (Hroom eq_refl). rewrite length_app in Hroom. lia.
Qed.

(** ** The buffer of the inspectors *)

Lemma find_crlf_first k l p :
  no_crlf (take (S k) l) = true → find_sub CRLF (drop k l) = Some p →
  no_crlf (take (k + p) l) = true ∧ l = take (k + p) l ++ CRLF ++ drop (k + p + 2) l ∧ (k + p + 2 ≤ length l)%nat.
Proof.
  intros Hk Hp. destruct (find_sub_Some _ _ _ Hp) as (b & Hb & Hlen & Hfirst).
  assert (k + p ≤ length l)%nat as Hle.
  { apply (f_equal length) in Hb. rewrite !length_app, Hlen, length_drop in Hb. cbn in Hb. lia. }
  assert (drop (k + p) l = CRLF ++ b) as Hd.
  { rewrite <- drop_drop. rewrite Hb at 1. by rewrite drop_app_length'. }
  split_and!.
  - destruct (no_crlf (take (k + p) l)) eqn:E; [done|exfalso].
    unfold no_crlf in E. apply negb_false_iff, contains_sub_spec in E as (x & y & E).
    assert (length x + 2 ≤ k + p)%nat as Hx.
    { apply (f_equal length) in E. rewrite length_take, !length_app in E. cbn in E. lia. }
    assert (l = x ++ CRLF ++ y ++ drop (k + p) l) as El.
    { rewrite <- (take_drop (k + p) l) at 1. by rewrite E, <- !app_assoc. }
    destruct (Nat.lt_ge_cases (length x) k) as [Hlt|Hge].
    + rewrite El in Hk. rewrite app_assoc, take_app_ge in Hk by (rewrite length_app; cbn; lia).
      rewrite <- app_assoc in Hk. by eapply no_crlf_prefix in Hk.
    + specialize (Hfirst (length x - k)%nat ltac:(lia)). rewrite drop_drop in Hfirst.
      replace (k + (length x - k))%nat with (length x) in Hfirst by lia.
      by rewrite El, drop_app_length in Hfirst.
  - rewrite <- (take_drop (k + p) l) at 1. f_equal. rewrite Hd. f_equal.
    by rewrite <- drop_drop, Hd.
  - apply (f_equal length) in Hd. rewrite length_drop, length_app in Hd. cbn in Hd. lia.
Qed.
Lemma find_crlf_none k l :
  no_crlf (take (S k) l) = true → find_sub CRLF (drop k l) = None → no_crlf l = true.
Proof.
  intros Hk Hn. destruct (no_crlf l) eqn:E; [done|exfalso].
  unfold no_crlf in E. apply negb_false_iff, contains_sub_spec in E as (x & y & ->).
  destruct (Nat.lt_ge_cases (length x) k) as [Hlt|Hge].
  - rewrite app_assoc, take_app_ge in Hk by (rewrite length_app; cbn; lia).
    rewrite <- app_assoc in Hk. by eapply no_crlf_prefix in Hk.
  - apply find_sub_None, not_true_iff_false in Hn. apply Hn, contains_sub_spec.
    exists (drop k x), y. by rewrite drop_app_le.
Qed.

(** The bytes that may be buffered before a read. *)
Definition framing_limit (max_body_bytes : Z) : Z := Z.max (Z.min usize_max (max_body_bytes * 2)) max_body_bytes.

Lemma read_more_spec raw max n s :
  0 < n →
  wp (read_more raw max n) s (λ r s', written s' = written s ∧ fresh s' = fresh s ∧
    match r with
    | Ok raw' => ∃ b, raw' = raw ++ b ∧ b ≠ [] ∧ Z.of_nat (length b) ≤ n ∧
        stream (client s) = b ++ stream (client s')
    | Err e => e ≠ OutOfFuel ∧ (framing_limit max < Z.of_nat (length raw) ∨ stream (client s) = [])
    end).
Proof.
  intros Hn. unfold read_more. fold (framing_limit max). case_match eqn:E.
  - apply Z.ltb_lt in E. apply wp_fail. auto.
  - assert (0 < READ_BUF_SIZE)%nat by by apply Nat.ltb_lt.
    apply wp_bind, wp_read_some; [lia|..].
    + intros b c Hs Hb Hle. destruct b as [|x b]; [done|]. cbn [is_empty]. apply wp_ret.
      split_and!; [done|done|]. exists (x :: b). split_and!; [done|done|lia|done].
    + intros Hs. split; (split; [done|split; [done|split; [done|by right]]]).
Qed.

Lemma inspect_line_spec fuel raw start scan max s :
  (length (stream (client s)) < fuel)%nat → (start ≤ scan)%nat → (start ≤ length raw)%nat →
  no_crlf (take (S (scan - start)) (drop start raw)) = true →
  wp (inspect_line fuel raw start scan max) s (λ r s', written s' = written s ∧ fresh s' = fresh s ∧
    match r with
    | Ok (e, raw') => raw ++ stream (client s) = raw' ++ stream (client s') ∧
        (length raw' = e + 2 ∨ raw' = raw ∧ client s' = client s)%nat ∧
        (start ≤ e)%nat ∧ (e + 2 ≤ length raw')%nat ∧
        no_crlf (take (e - start) (drop start raw')) = true ∧
        drop start raw' = take (e - start) (drop start raw') ++ CRLF ++ drop (e + 2) raw'
    | Err e => e ≠ OutOfFuel ∧
        ∀ l t L, fits L l t (drop start raw ++ stream (client s)) →
          framing_limit max < Z.of_nat (start + length l + 2)
    end).
Proof.
  revert raw scan s. induction fuel as [|fuel IH]; intros raw scan s Hf Hss Hsl Hinv; [lia|]. cbn [inspect_line].
  unfold find_crlf. destruct (find_sub CRLF (drop scan raw)) as [p|] eqn:Hp; cbn [fmap option_fmap option_map].
  - apply wp_ret. split; [done|split; [done|]].
    replace (drop scan raw) with (drop (scan - start) (drop start raw)) in Hp
      by (rewrite drop_drop; f_equal; lia).
    destruct (find_crlf_first _ _ _ Hinv Hp) as (Hn & Heq & Hlen). rewrite length_drop in Hlen.
    replace (scan - start + p)%nat with (scan + p - start)%nat in * by lia.
    split_and!; [done|by right|lia|lia|done|]. rewrite Heq at 1. do 2 f_equal. rewrite drop_drop. f_equal. lia.
  - replace (drop scan raw) with (drop (scan - start) (drop start raw)) in Hp
      by (rewrite drop_drop; f_equal; lia).
    pose proof (find_crlf_none _ _ Hinv Hp) as Hno.
    apply wp_bind. eapply wp_mono; [by apply read_more_spec|]. intros [raw'|e] s1 (Hw & Hfr & H1).
    2: { destruct H1 as [He Hor]. split_and!; [done..|]. intros l t L Hfit.
         pose proof (fits_beyond _ _ _ _ _ Hno Hfit) as Hb. rewrite length_drop in Hb.
         destruct Hor as [?|Hs]; [lia|]. exfalso. eapply fits_none, Hfit; [done|by right]. }
    destruct H1 as (b & -> & Hb & Hb1 & Hs). destruct b as [|x [|y b]]; [done| |cbn in Hb1; lia].
    assert (drop start (raw ++ [x]) = drop start raw ++ [x]) as Hd by by rewrite drop_app_le.
    eapply wp_mono; [apply IH|].
    + rewrite Hs in Hf. cbn in Hf. lia.
    + lia.
    + rewrite length_app. lia.
    + rewrite Hd. destruct (decide (length raw = start)) as [E|].
      * rewrite drop_ge by lia. cbn. by rewrite firstn_nil, no_crlf_cons; destruct (x =? 13).
      * rewrite take_app_le by (rewrite length_drop; lia). rewrite take_ge; [done|]. rewrite length_drop. lia.
    + intros [[e raw']|e] s2 (Hw2 & Hfr2 & H2); (split; [congruence|split; [congruence|]]).
      * destruct H2 as (Heq & Hor & Hse & Hlen & Hn & Hdr). split_and!; [|left|done..].
        -- rewrite Hs, <- Heq, <- app_assoc. done.
        -- destruct Hor as [?|[-> _]]; [done|]. rewrite length_app in Hlen |- *. cbn in Hlen |- *.
           destruct (decide (e + 2 = length raw + 1)%nat); [lia|]. exfalso.
           rewrite Hd in Hdr. apply (f_equal (take (length raw - start))) in Hdr.
           rewrite take_app_le, take_ge in Hdr by (rewrite length_drop; lia).
           rewrite !(app_assoc _ CRLF) in Hdr. rewrite take_app_ge in Hdr.
           ++ rewrite <- app_assoc in Hdr. by eapply no_crlf_prefix in Hdr.
           ++ rewrite length_app, length_take, length_app, length_drop. cbn. lia.
      * destruct H2 as [He Hl]. split; [done|]. intros l t L Hfit. apply (Hl l t L).
        by rewrite Hd, <- app_assoc; rewrite Hs in Hfit.
Qed.

(** [d] was read at [pos] of the buffer, which grew as it was needed. *)
Record Filled (raw : bytes) (pos : nat) (s : Io) (d raw' : bytes) (pos' : nat) (s' : Io) : Prop := filled {
  filled_taken : Taken (drop pos raw) s d (drop pos' raw') s';
  filled_pos : pos' = (pos + length d)%nat;
  filled_len : (pos' ≤ length raw')%nat;
  filled_written : written s' = written s;
  filled_raw : raw ++ stream (client s) = raw' ++ stream (client s');
}.
Lemma Filled_trans raw pos s d raw1 pos1 s1 d1 raw2 pos2 s2 :
  Filled raw pos s d raw1 pos1 s1 → Filled raw1 pos1 s1 d1 raw2 pos2 s2 →
  Filled raw pos s (d ++ d1) raw2 pos2 s2.
Proof.
  intros [H1 H2 H3 H4 H5] [H6 H7 H8 H9 H10].
  split; [by eapply Taken_trans|rewrite length_app; lia|done|congruence..].
Qed.
Lemma filled_input raw pos s d raw' pos' s' :
  Filled raw pos s d raw' pos' s' →
  drop pos raw ++ stream (client s) = d ++ drop pos' raw' ++ stream (client s').
Proof. intros [H _ _ _ _]. apply (taken_input _ _ _ _ _ H). Qed.
Lemma filled_length raw pos s d raw' pos' s' :
  Filled raw pos s d raw' pos' s' →
  length (drop pos raw ++ stream (client s)) = (length d + length (drop pos' raw' ++ stream (client s')))%nat.
Proof. intros [H _ _ _ _]. apply (Taken_length _ _ _ _ _ H). Qed.

(** What was buffered is kept: the new bytes come after it. *)
Lemma Filled_intro raw pos s d raw' pos' s' :
  raw ++ stream (client s) = raw' ++ stream (client s') → (pos ≤ length raw)%nat →
  drop pos raw' = d ++ drop pos' raw' → (pos ≤ pos' ≤ length raw')%nat →
  length raw' = pos' ∨ raw' = raw ∧ client s' = client s →
  written s' = written s → fresh s' = fresh s → Filled raw pos s d raw' pos' s'.
Proof.
  intros Heq Hpos Hd Hle Hor Hw Hf.
  assert (drop pos raw ++ stream (client s) = drop pos raw' ++ stream (client s')) as Hin.
  { rewrite <- !drop_app_le by lia. by rewrite Heq. }
  split; [split|..].
  - by rewrite Hin, Hd, <- app_assoc.
  - destruct Hor as [Hl|[-> ->]]; [left; by apply drop_ge; lia|by right].
  - by rewrite Hf.
  - apply (f_equal length) in Hd. rewrite length_app, !length_drop in Hd. lia.
  - lia.
  - done.
  - done.
Qed.

Lemma inspect_line_top raw pos max s (Q : result (nat * bytes) HttpError → Io → Prop) :
  (pos ≤ length raw)%nat →
  (∀ e raw' s' line, Filled raw pos s (line ++ CRLF) raw' (e + 2) s' →
     take (e - pos) (drop pos raw') = line →
     (∀ L, Z.of_nat (length line) + 2 ≤ L →
        fits L line (drop (e + 2) raw' ++ stream (client s')) (drop pos raw ++ stream (client s))) →
     Q (Ok (e, raw')) s') →
  (∀ e s', e ≠ OutOfFuel → written s' = written s →
     (∀ l t L, fits L l t (drop pos raw ++ stream (client s)) →
        framing_limit max < Z.of_nat (pos + length l + 2)) → Q (Err e) s') →
  wp (with_fuel [] (λ fuel, inspect_line fuel raw pos pos max)) s Q.
Proof.
  intros Hpos Hok Herr. apply wp_with_fuel. eapply wp_mono.
  { apply inspect_line_spec; [cbn; lia|done|done|]. rewrite Nat.sub_diag.
    destruct (drop pos raw) as [|x l]; [done|]. cbn. by rewrite no_crlf_cons; destruct (x =? 13). }
  intros [[e raw']|e] s' (Hw & Hfr & H); [|destruct H; by apply Herr].
  destruct H as (Heq & Hor & Hse & Hlen & Hn & Hd).
  assert (Filled raw pos s (take (e - pos) (drop pos raw') ++ CRLF) raw' (e + 2) s') as HF.
  { apply Filled_intro; try done; [by rewrite <- app_assoc|lia]. }
  eapply Hok; [done..|]. intros L HL. split_and!; [|done|done].
  by rewrite (filled_input _ _ _ _ _ _ _ HF), <- app_assoc.
Qed.

Lemma inspect_until_spec fuel raw len max s :
  (length (stream (client s)) < fuel)%nat →
  wp (inspect_until fuel raw len max) s (λ r s', written s' = written s ∧ fresh s' = fresh s ∧
    match r with
    | Ok raw' => raw ++ stream (client s) = raw' ++ stream (client s') ∧ len ≤ Z.of_nat (length raw') ∧
        (Z.of_nat (length raw') = len ∨ raw' = raw ∧ client s' = client s)
    | Err e => e ≠ OutOfFuel ∧
        (Z.of_nat (length (raw ++ stream (client s))) < len ∨ framing_limit max < len)
    end).
Proof.
  revert raw s. induction fuel as [|fuel IH]; intros raw s Hf; [lia|]. cbn [inspect_until].
  destruct (Z.leb_spec len (Z.of_nat (length raw))).
  { apply wp_ret. split; [done|split; [done|]]. auto. }
  apply wp_bind. eapply wp_mono; [apply read_more_spec; lia|]. intros [raw1|e] s1 (Hw & Hfr & H1).
  2: { destruct H1 as [He Hor]. split; [done|split; [done|split; [done|]]].
       destruct Hor as [?|Hs]; [right; lia|left]. by rewrite Hs, app_nil_r. }
  destruct H1 as (b & -> & Hb & Hlen & Hs).
  assert (0 < length b)%nat by (destruct b; [done|cbn; lia]).
  eapply wp_mono; [apply IH; rewrite Hs, length_app in Hf; lia|].
  intros [raw'|e] s2 (Hw2 & Hfr2 & H2); (split; [congruence|split; [congruence|]]).
  - destruct H2 as (Heq & Hle & Hor). rewrite Hs, <- Heq, <- app_assoc. split_and!; [done|done|left].
    destruct Hor as [?|[-> _]]; [done|]. rewrite length_app in Hle |- *. lia.
  - destruct H2 as [He Hor]. split; [done|]. by rewrite Hs, app_assoc.
Qed.

Section Inspect.
Context (L max : Z).

Definition trailers_inspected (raw : bytes) (pos : nat) (s : Io) (r : result (nat * bytes) HttpError) (s' : Io) : Prop :=
  match r with
  | Ok (pos', raw') => ∃ ts w, Trailers L ts w ∧ Filled raw pos s w raw' pos' s'
  | Err e => e ≠ OutOfFuel ∧ written s' = written s ∧
      ∀ ts w t, drop pos raw ++ stream (client s) = w ++ t → Trailers L ts w →
        framing_limit max < Z.of_nat (pos + length w)
  end.

Lemma inspect_trailers_spec fuel raw pos s :
  (length (drop pos raw ++ stream (client s)) < fuel)%nat → (pos ≤ length raw)%nat →
  Z.of_nat (length (drop pos raw ++ stream (client s))) ≤ L → 2 ≤ L →
  wp (inspect_trailers fuel raw pos max) s (trailers_inspected raw pos s).
Proof.
  revert raw pos s. induction fuel as [|fuel IH]; intros raw pos s Hf Hpos HL HL2; [lia|].
  cbn [inspect_trailers]. apply wp_bind, inspect_line_top; [done|..].
  2: { intros e s' He Hw Hno. split_and!; [done..|]. intros ts w t Heq Ht.
       destruct (Trailers_head _ _ _ t HL2 Ht) as (l & w' & Hl & _). rewrite Heq in Hno.
       specialize (Hno _ _ _ Hl). destruct Hl as (El & _). apply (f_equal length) in El.
       rewrite !length_app in El. cbn in El. lia. }
  intros e raw1 s1 line HF El Hfits. rewrite El. pose proof (filled_length _ _ _ _ _ _ _ HF) as Hlen.
  rewrite (length_app line) in Hlen. cbn [length CRLF] in Hlen.
  specialize (Hfits L ltac:(lia)).
  assert (∀ ts w t, drop pos raw ++ stream (client s) = w ++ t → Trailers L ts w →
    validate_chunk_trailer_line line = Ok () ∧ (line ≠ [] → ∃ ts' w', w = line ++ CRLF ++ w' ∧
      drop (e + 2) raw1 ++ stream (client s1) = w' ++ t ∧ Trailers L ts' w')) as Hhead.
  { intros ts w t Heq Ht. destruct (Trailers_head _ _ _ t HL2 Ht) as (l & w' & Hl & Hv & _ & H1).
    rewrite Heq in Hfits. destruct (fits_inj _ _ _ _ _ _ _ Hfits Hl) as [<- E]. split; [done|].
    intros Hne. destruct (H1 Hne) as (ts' & _ & Ht'). exists ts', w'. split_and!; [|done|done].
    destruct Hl as (Hw & _). rewrite (app_assoc CRLF), (app_assoc line) in Hw. by apply app_inv_tail in Hw. }
  apply wp_bind, wp_lift. destruct (validate_chunk_trailer_line line) as [[]|err] eqn:Hv.
  2: { split_and!; [by apply trailer_line_err in Hv as []|by apply (filled_written _ _ _ _ _ _ _ HF)|].
       intros ts w t Heq Ht. by destruct (Hhead ts w t Heq Ht). }
  destruct line as [|x line]; cbn [is_empty].
  { apply wp_ret. exists [], CRLF. split; [constructor|done]. }
  eapply wp_mono; [apply IH; [lia|by apply (filled_len _ _ _ _ _ _ _ HF)|lia|done]|].
  pose proof (filled_pos _ _ _ _ _ _ _ HF) as Hp. rewrite (length_app (x :: line)) in Hp.
  intros [[pos' raw']|err] s2.
  - intros (ts & w & Ht & HF2). exists ((x :: line) :: ts), ((x :: line) ++ CRLF ++ w). split.
    + constructor; try done. by destruct Hfits as (_ & _ & ?).
    + rewrite app_assoc. by eapply Filled_trans.
  - intros (He & Hw & Hno). split_and!; [done|rewrite Hw; by apply (filled_written _ _ _ _ _ _ _ HF)|].
    intros ts w t Heq Ht. destruct (Hhead ts w t Heq Ht) as [_ H1].
    destruct (H1 ltac:(done)) as (ts' & w' & -> & E & Ht'). specialize (Hno _ _ _ E Ht').
    rewrite !length_app. cbn in *. lia.
Qed.

(** No body that the inspectors have room for starts the input. *)
Definition no_inspection (raw decoded : bytes) (pos : nat) (s : Io) : Prop :=
  ∀ data ts w t, drop pos raw ++ stream (client s) = w ++ t → Coding L data ts w →
    framing_limit max < Z.of_nat (pos + length w) ∨ max < Z.of_nat (length decoded + length data).
Definition inspected (raw decoded : bytes) (pos : nat) (s : Io) (r : result (bytes * bytes) HttpError) (s' : Io) : Prop :=
  match r with
  | Ok (out, wire) => ∃ data ts w raw' pos', out = decoded ++ data ∧ Coding L data ts w ∧
      Filled raw pos s w raw' pos' s' ∧ wire = take pos' raw' ∧ Z.of_nat (length out) ≤ max
  | Err e => e ≠ OutOfFuel ∧ written s' = written s ∧ no_inspection raw decoded pos s
  end.

Context (Hmax : 0 ≤ max < usize_max).
Lemma framing_limit_usize : framing_limit max ≤ usize_max.
Proof. unfold framing_limit. lia. Qed.

Section Chunk.
Context (raw decoded : bytes) (pos : nat) (s : Io) (line : bytes) (n : Z) (raw1 : bytes) (pos1 : nat) (s1 : Io).
Context (HF : Filled raw pos s (line ++ CRLF) raw1 pos1 s1) (Hn : parse_chunk_size_line line = Ok n).
Context (Hfit : fits L line (drop pos1 raw1 ++ stream (client s1)) (drop pos raw ++ stream (client s))).

#[local] Lemma inspect_after data ts w t :
  drop pos raw ++ stream (client s) = w ++ t → Coding L data ts w →
  ∃ w', w = line ++ CRLF ++ w' ∧ drop pos1 raw1 ++ stream (client s1) = w' ++ t ∧
    (n = 0 → Trailers L ts w') ∧
    (n ≠ 0 → ∃ chunk data' w'', n = Z.of_nat (length chunk) ∧ w' = chunk ++ CRLF ++ w'' ∧
       data = chunk ++ data' ∧ Coding L data' ts w'').
Proof.
  intros Heq Hc. destruct (Coding_fits _ _ _ _ t Hc) as (l & n' & w' & Hf & Hp & H0 & H1).
  rewrite Heq in Hfit. destruct (fits_inj _ _ _ _ _ _ _ Hfit Hf) as [<- E].
  rewrite Hn in Hp. injection Hp as <-. exists w'. split_and!; [|done| |done].
  - destruct Hf as (Hw & _). rewrite (app_assoc CRLF), (app_assoc line) in Hw. by apply app_inv_tail in Hw.
  - intros Hz. by destruct (H0 Hz).
Qed.
#[local] Lemma inspect_pos : pos1 = (pos + length line + 2)%nat.
Proof. rewrite (filled_pos _ _ _ _ _ _ _ HF), length_app. cbn. lia. Qed.

(** A failure, when no chunk of [n] bytes with CRLF and a body after them has room. *)
#[local] Lemma inspect_fail e s' :
  n ≠ 0 → e ≠ OutOfFuel → written s' = written s1 →
  (∀ chunk data ts w t, n = Z.of_nat (length chunk) →
     drop pos1 raw1 ++ stream (client s1) = chunk ++ CRLF ++ w ++ t → Coding L data ts w →
     framing_limit max < Z.of_nat pos1 + n + 2 + Z.of_nat (length w)
     ∨ max < Z.of_nat (length decoded + length chunk + length data)) →
  inspected raw decoded pos s (Err e) s'.
Proof.
  intros Hn0 He Hw Hno. split_and!; [done|rewrite Hw; by apply (filled_written _ _ _ _ _ _ _ HF)|].
  intros data ts w t Heq Hc. destruct (inspect_after _ _ _ _ Heq Hc) as (w' & -> & E & _ & H1).
  destruct (H1 Hn0) as (chunk & data' & w'' & Hl & -> & -> & Hc'). rewrite <- !app_assoc in E.
  specialize (Hno _ _ _ _ _ Hl E Hc'). rewrite inspect_pos in Hno. rewrite !length_app. cbn [length CRLF]. lia.
Qed.

#[local] Lemma inspect_payload fuel :
  (∀ raw decoded pos s, (length (drop pos raw ++ stream (client s)) < fuel)%nat → (pos ≤ length raw)%nat →
     Z.of_nat (length (drop pos raw ++ stream (client s))) ≤ L → Z.of_nat (length decoded) ≤ max →
     wp (inspect_chunks fuel raw decoded pos max) s (inspected raw decoded pos s)) →
  (length (drop pos raw ++ stream (client s)) < S fuel)%nat →
  Z.of_nat (length (drop pos raw ++ stream (client s))) ≤ L → n ≠ 0 → Z.of_nat (length decoded) + n ≤ max →
  wp (let! raw := with_fuel [] (λ fuel, inspect_until fuel raw1 (Z.of_nat pos1 + n + 2) max) in
      if bool_decide (take 2 (drop (pos1 + Z.to_nat n) raw) = CRLF)
      then inspect_chunks fuel raw (decoded ++ take (Z.to_nat n) (drop pos1 raw)) (pos1 + Z.to_nat n + 2) max
      else fail MissingChunkEnd) s1 (inspected raw decoded pos s).
Proof.
  intros IH Hf HL Hn0 Hdec. pose proof (size_line_range _ _ Hn) as [Hnn _].
  pose proof (filled_len _ _ _ _ _ _ _ HF) as Hpos1.
  apply wp_bind, wp_with_fuel. eapply wp_mono; [apply inspect_until_spec; cbn; lia|].
  intros [raw2|e] s2 (Hw2 & Hfr2 & H2).
  2: { destruct H2 as [He Hor]. apply inspect_fail; [done..|]. intros chunk data ts w t Hl E _. left.
       destruct Hor as [Hlt|?]; [|lia]. exfalso. apply (f_equal length) in E.
       rewrite !length_app, length_drop in E. rewrite length_app in Hlt. cbn in E. lia. }
  destruct H2 as (Heq & Hle & Hor).
  assert (Z.of_nat (Z.to_nat n) = n) as Hkn by lia. set (k := Z.to_nat n) in *. clearbody k.
  assert (drop pos1 raw1 ++ stream (client s1) = drop pos1 raw2 ++ stream (client s2)) as Hin.
  { rewrite <- !drop_app_le by lia. by rewrite Heq. }
  assert (drop pos1 raw2 = take k (drop pos1 raw2) ++ take 2 (drop (pos1 + k) raw2) ++ drop (pos1 + k + 2) raw2) as Hcut.
  { rewrite <- (take_drop k (drop pos1 raw2)) at 1. f_equal. rewrite drop_drop.
    rewrite <- (take_drop 2 (drop (pos1 + k) raw2)) at 1. f_equal. by rewrite drop_drop. }
  assert (length (take k (drop pos1 raw2)) = k) as Hk by (rewrite length_take, length_drop; lia).
  case_bool_decide as Hcr.
  2: { apply wp_fail, inspect_fail; [done..|]. intros chunk data ts w t Hl E _. exfalso. apply Hcr.
       rewrite Hin, Hcut, <- !app_assoc in E. apply app_inj_1 in E as [_ E]; [|lia].
       apply app_inj_1 in E as [E _]; [done|]. rewrite length_take, length_drop. cbn [length CRLF]. lia. }
  rewrite Hcr in Hcut. set (chunk := take k (drop pos1 raw2)) in *.
  assert (Filled raw1 pos1 s1 (chunk ++ CRLF) raw2 (pos1 + k + 2) s2) as HF2.
  { apply Filled_intro; [done|lia|by rewrite <- app_assoc|lia| |done|done].
    destruct Hor as [?|?]; [left; lia|by right]. }
  pose proof (Filled_trans _ _ _ _ _ _ _ _ _ _ _ HF HF2) as HF3. rewrite <- !app_assoc in HF3.
  pose proof (filled_length _ _ _ _ _ _ _ HF3) as HL3. rewrite (length_app line) in HL3. cbn in HL3.
  eapply wp_mono; [apply IH; [lia|by apply (filled_len _ _ _ _ _ _ _ HF2)|lia|rewrite length_app; lia]|].
  intros [[out wire]|e] s3.
  - intros (data & ts & w & raw' & pos' & -> & Hc & HF4 & -> & Hout).
    exists (chunk ++ data), ts, (line ++ CRLF ++ chunk ++ CRLF ++ w), raw', pos'.
    split_and!; [by rewrite app_assoc| | |done|done].
    + constructor; [rewrite Hn; f_equal; lia|by destruct Hfit as (_ & _ & ?)| |done].
      intros E. rewrite E in Hk. cbn in Hk. lia.
    + pose proof (Filled_trans _ _ _ _ _ _ _ _ _ _ _ HF3 HF4) as HF5. by rewrite <- !app_assoc in HF5.
  - intros (He & Hw & Hno). apply inspect_fail; [done|done|congruence|].
    intros chunk' data ts w t Hl E Hc. rewrite Hin, Hcut, <- !app_assoc in E.
    apply app_inj_1 in E as [<- E]; [|lia]. apply app_inv_head in E.
    specialize (Hno _ _ _ _ E Hc). rewrite length_app in Hno. lia.
Qed.
End Chunk.

Lemma inspect_chunks_spec fuel raw decoded pos s :
  (length (drop pos raw ++ stream (client s)) < fuel)%nat → (pos ≤ length raw)%nat →
  Z.of_nat (length (drop pos raw ++ stream (client s))) ≤ L → Z.of_nat (length decoded) ≤ max →
  wp (inspect_chunks fuel raw decoded pos max) s (inspected raw decoded pos s).
Proof.
  revert raw decoded pos s. induction fuel as [|fuel IH]; intros raw decoded pos s Hf Hpos HL Hdec; [lia|].
  cbn [inspect_chunks]. apply wp_bind, inspect_line_top; [done|..].
  2: { intros e s' He Hw Hno. split_and!; [done..|]. intros data ts w t Heq Hc. left.
       destruct (Coding_fits _ _ _ _ t Hc) as (l & n & w' & Hl & _). rewrite Heq in Hno.
       specialize (Hno _ _ _ Hl). destruct Hl as (El & _). apply (f_equal length) in El.
       rewrite !length_app in El. cbn in El. lia. }
  intros e raw1 s1 line HF El Hfits. rewrite El. pose proof (filled_length _ _ _ _ _ _ _ HF) as Hlen.
  rewrite (length_app line) in Hlen. cbn [length CRLF] in Hlen. specialize (Hfits L ltac:(lia)).
  pose proof (filled_len _ _ _ _ _ _ _ HF). apply wp_bind, wp_lift.
  destruct (parse_chunk_size_line line) as [n|err] eqn:Hn.
  2: { split_and!; [by apply size_line_err in Hn as []|by apply (filled_written _ _ _ _ _ _ _ HF)|].
       intros data ts w t Heq Hc. destruct (Coding_fits _ _ _ _ t Hc) as (l & n & w' & Hl & Hp & _).
       rewrite <- Heq in Hl. destruct (fits_inj _ _ _ _ _ _ _ Hfits Hl) as [-> _]. by rewrite Hn in Hp. }
  pose proof (size_line_range _ _ Hn) as [Hnn _]. unfold saturating_add.
  destruct (Z.eqb_spec n 0) as [->|Hn0].
  - destruct (Z.ltb_spec max (Z.min usize_max (Z.of_nat (length decoded) + 0))); [lia|].
    apply wp_bind, wp_with_fuel. eapply wp_mono.
    { apply inspect_trailers_spec; [rewrite !length_app, length_drop; lia|done|lia|lia]. }
    intros [[pos' raw']|err] s2.
    + intros (ts & w & Ht & HF2). apply wp_ret. exists [], ts, (line ++ CRLF ++ w), raw', pos'.
      rewrite app_nil_r. split_and!; [done| |rewrite app_assoc; by eapply Filled_trans|done|done].
      constructor; [done|by destruct Hfits as (_ & _ & ?)|done].
    + intros (He & Hw & Hno). split_and!; [done|rewrite Hw; by apply (filled_written _ _ _ _ _ _ _ HF)|].
      intros data ts w t Heq Hc. left.
      destruct (inspect_after _ _ _ _ _ _ _ _ Hn Hfits _ _ _ _ Heq Hc) as (w' & -> & E & Hz & _).
      specialize (Hno _ _ _ E (Hz eq_refl)). rewrite (filled_pos _ _ _ _ _ _ _ HF), !length_app in Hno.
      rewrite !length_app. lia.
  - destruct (Z.ltb_spec max (Z.min usize_max (Z.of_nat (length decoded) + n))).
    { apply wp_fail. eapply inspect_fail; [done..|]. intros. right. lia. }
    destruct (Z.ltb_spec usize_max (Z.of_nat (e + 2) + n + 2)).
    { apply wp_fail. eapply inspect_fail; [done..|]. intros. left. pose proof framing_limit_usize. lia. }
    eapply inspect_payload; try done. lia.
Qed.
End Inspect.

(** ** The readers of a body *)

(** The buffer of middleware returns the data of the one body that starts its
    input; it fails when the policy went stale, or no body without trailers that
    it has room for starts the input. *)
Lemma collect_chunked_body_exact already_read max s :
  match collect_chunked_body already_read max s with
  | (Ok body, s') => written s' = written s ∧ ∃ wire rest,
      Coding MAX_REWRITE_BODY_BYTES body [] wire ∧ Taken already_read s wire rest s' ∧
      (∀ m, max = Some m → Z.of_nat (length wire) ≤ m)
  | (Err e, s') => written s' = written s ∧ e ≠ OutOfFuel ∧
      (stale s e ∨
       ∀ data wire t, already_read ++ stream (client s) = wire ++ t →
         Coding MAX_REWRITE_BODY_BYTES data [] wire →
         match max with
         | Some m => m < Z.of_nat (length wire)
         | None => MAX_REWRITE_BODY_BYTES < Z.of_nat (length data)
         end)
  end.
Proof.
  set (st := read_state already_read 0 max).
  assert (wp (collect_chunked_body already_read max) s (collect_outcome [] st s)) as H.
  { apply wp_with_fuel. apply (collect_chunks_spec _ [] st); cbn; lia. }
  unfold wp in H. destruct (collect_chunked_body already_read max s) as [[body|e] s']; destruct H as [Hw H].
  - destruct H as (data & w & st' & -> & Hc & Hg). split; [done|]. exists w, (buffered st').
    split_and!; [done|by apply (got_taken _ _ _ _ _ Hg)|].
    intros m ->. pose proof (got_within _ _ _ _ _ Hg) as Ho. rewrite over_wire_false in Ho.
    by specialize (Ho m eq_refl).
  - destruct H as [He Hor]. split_and!; [done..|]. destruct Hor as [?|Hno]; [by left|right].
    intros data w t E Hc. specialize (Hno data w t E Hc). unfold over_wire in Hno. destruct max as [m|]; cbn in Hno.
    + apply Z.ltb_lt. rewrite Z.sub_0_r in Hno. by apply Hno.
    + destruct (Z.lt_ge_cases MAX_REWRITE_BODY_BYTES (Z.of_nat (length data))); [done|].
      by specialize (Hno (λ _, H)).
Qed.

(** The body the inspectors decode, and the framed bytes they read for it: the
    body that starts their input, unless it or its framing is over the limit. *)
Lemma inspection_exact overflow max s :
  0 ≤ max < usize_max →
  match read_chunked_body_for_inspection overflow max s with
  | (Ok (body, wire), s') => written s' = written s ∧ Z.of_nat (length body) ≤ max ∧ ∃ L ts rest,
      Coding L body ts wire ∧ Taken overflow s wire rest s'
  | (Err e, s') => written s' = written s ∧ e ≠ OutOfFuel ∧
      ∀ L data ts wire t, overflow ++ stream (client s) = wire ++ t → Coding L data ts wire →
        framing_limit max < Z.of_nat (length wire) ∨ max < Z.of_nat (length data)
  end.
Proof.
  intros Hmax.
  assert (∀ L, Z.of_nat (length (overflow ++ stream (client s))) ≤ L →
    wp (read_chunked_body_for_inspection overflow max) s (inspected L max overflow [] 0 s)) as H.
  { intros L HL. apply wp_with_fuel. apply inspect_chunks_spec; [done|rewrite drop_0; lia|lia|by rewrite drop_0|cbn; lia]. }
  unfold wp in H. destruct (read_chunked_body_for_inspection overflow max s) as [[[body wire]|e] s'].
  - destruct (H _ (Z.le_refl _)) as (data & ts & w & raw' & pos' & -> & Hc & HF & -> & Hlen).
    split_and!; [by apply (filled_written _ _ _ _ _ _ _ HF)|done|].
    pose proof (filled_pos _ _ _ _ _ _ _ HF) as Hp. cbn in Hp. subst pos'.
    assert (take (length w) raw' = w) as ->.
    { pose proof (filled_raw _ _ _ _ _ _ _ HF) as Hr. rewrite <- (drop_0 overflow) in Hr at 1.
      rewrite (filled_input _ _ _ _ _ _ _ HF), app_assoc in Hr. apply app_inv_tail in Hr.
      by rewrite <- Hr, take_app_length. }
    eexists _, ts, _. split; [done|apply (filled_taken _ _ _ _ _ _ _ HF)].
  - split_and!; [apply (H _ (Z.le_refl _))..|]. intros L data ts wire t E Hc.
    destruct (H (Z.max L (Z.of_nat (length (overflow ++ stream (client s))))) ltac:(lia)) as (_ & _ & Hno).
    specialize (Hno data ts wire t). rewrite drop_0 in Hno.
    apply (Hno E). eapply Coding_mono; [|done]. lia.
Qed.

Lemma no_crlf_one s : no_crlf (take 1 s) = true.
Proof. destruct s as [|x s]; [done|]. cbn. by rewrite no_crlf_cons; destruct (x =? 13). Qed.
Lemma fits_find L line rest s : fits L line rest s → find_sub CRLF s = Some (length line).
Proof.
  intros Hfit. destruct (find_sub CRLF s) as [p|] eqn:E.
  - destruct (find_crlf_first 0 s p (no_crlf_one s) E) as (Hn & Heq & Hlen). cbn [plus] in *.
    assert (fits (Z.of_nat p + 2) (take p s) (drop (p + 2) s) s) as Hf.
    { split_and!; [done|done|]. rewrite length_take. lia. }
    destruct (fits_inj _ _ _ _ _ _ _ Hfit Hf) as [-> _]. rewrite length_take. f_equal. lia.
  - destruct Hfit as (-> & _). apply find_sub_None, not_true_iff_false in E.
    exfalso. apply E, contains_sub_spec. by exists line, rest.
Qed.

(** The bytes read ahead are a whole body exactly when one without trailers
    starts them. *)
Lemma fully_buffered_iff fuel s :
  (length s < fuel)%nat →
  fully_buffered fuel s = true ↔ ∃ L data w t, s = w ++ t ∧ Coding L data [] w.
Proof.
  revert s. induction fuel as [|fuel IH]; intros s Hf; [lia|]. cbn [fully_buffered]. split.
  - destruct (find_sub CRLF s) as [p|] eqn:E; [|done].
    destruct (find_crlf_first 0 s p (no_crlf_one s) E) as (_ & Heq & Hlen). cbn [plus] in *.
    set (rest := drop (p + 2) s) in *. set (line := take p s) in *.
    assert (Z.of_nat (length line) + 2 ≤ Z.of_nat (length s)) as Hl by (unfold line; rewrite length_take; lia).
    destruct (parse_chunk_size_line line) as [n|] eqn:Hn; [|done].
    destruct (Z.eqb_spec n 0) as [->|Hn0].
    + rewrite bool_decide_eq_true. intros Hcr. exists (Z.of_nat (length s)), [], (line ++ CRLF ++ CRLF), (drop 2 rest).
      split; [|by constructor; [..|constructor]].
      rewrite Heq, <- !app_assoc. do 2 f_equal. by rewrite <- Hcr, take_drop.
    + destruct (Z.ltb_spec (Z.of_nat (length rest)) (n + 2)); [done|].
      rewrite andb_true_iff, bool_decide_eq_true. intros [Hcr Hrec].
      pose proof (size_line_range _ _ Hn) as [Hnn _]. apply IH in Hrec.
      2: { unfold rest in *. rewrite length_drop. rewrite length_drop in *. lia. }
      destruct Hrec as (L & data & w & t & E' & Hc). set (k := Z.to_nat n) in *.
      assert (length (take k rest) = k) as Hk by (rewrite length_take; lia).
      exists (Z.max L (Z.of_nat (length s))), (take k rest ++ data), (line ++ CRLF ++ take k rest ++ CRLF ++ w), t. split.
      * rewrite Heq, <- !app_assoc. do 2 f_equal. rewrite <- E', <- Hcr.
        rewrite <- (take_drop k rest) at 1. f_equal.
        rewrite <- (take_drop 2 (drop k rest)) at 1. f_equal. by rewrite drop_drop.
      * constructor; [rewrite Hn, Hk; f_equal; unfold k; lia|lia| |by eapply Coding_mono; [|done]; lia].
        intros E0. rewrite E0 in Hk. unfold k in Hk. cbn in Hk. lia.
  - intros (L & data & w & t & -> & Hc). destruct (Coding_fits _ _ _ _ t Hc) as (line & n & w' & Hfit & Hn & H0 & H1).
    rewrite (fits_find _ _ _ _ Hfit). destruct Hfit as (Heq & _).
    rewrite Heq, take_app_length, Hn, app_assoc, drop_app_length' by (rewrite length_app; cbn; lia).
    destruct (Z.eqb_spec n 0) as [->|Hn0].
    + destruct (H0 eq_refl) as [_ Ht]. by inversion Ht.
    + destruct (H1 Hn0) as (chunk & data' & w'' & -> & -> & -> & Hc'). rewrite <- !app_assoc.
      destruct (Z.ltb_spec (Z.of_nat (length (chunk ++ CRLF ++ w'' ++ t))) (Z.of_nat (length chunk) + 2)) as [Hlt|_].
      { rewrite !length_app in Hlt. cbn in Hlt. lia. }
      rewrite Nat2Z.id, drop_app_length. rewrite (app_assoc chunk CRLF), drop_app_length' by (rewrite length_app; cbn; lia).
      rewrite andb_true_iff. split; [by apply bool_decide_eq_true|]. apply IH; [|by eexists _, _, _, _].
      apply (f_equal length) in Heq. rewrite !length_app in *. cbn in *. lia.
Qed.

(** ** Properties *)

(** The buffer of middleware, the buffer of the inspectors and the relay
    agree on a chunked body, however each one's input is cut into reads: the two
    buffers return the same data, and the bytes the inspectors took are the
    bytes the relay writes, a well-formed body with that data. *)
Theorem readers_agree a1 a2 a3 s1 s2 s3 s1' s2' s3' max1 max2 body body' wire :
  0 ≤ max2 < usize_max →
  a1 ++ stream (client s1) = a3 ++ stream (client s3) →
  a2 ++ stream (client s2) = a3 ++ stream (client s3) →
  collect_chunked_body a1 max1 s1 = (Ok body, s1') →
  read_chunked_body_for_inspection a2 max2 s2 = (Ok (body', wire), s2') →
  relay_chunked a3 s3 = (Ok (), s3') →
  body = body' ∧ written s3' = written s3 ++ wire ∧ Coding MAX_CHUNK_LINE_BYTES body [] wire.
Proof.
  intros Hmax E1 E2 R1 R2 R3.
  pose proof (collect_chunked_body_exact a1 max1 s1) as H1. rewrite R1 in H1.
  destruct H1 as (_ & w1 & r1 & Hc1 & Ht1 & _).
  pose proof (inspection_exact a2 max2 s2 Hmax) as H2. rewrite R2 in H2.
  destruct H2 as (_ & _ & L & ts2 & r2 & Hc2 & Ht2).
  assert (wp (relay_chunked a3) s3 (relay_outcome a3 s3)) as H3.
  { apply wp_with_fuel. by apply (relay_chunks_spec _ (relay_input a3 [])); [cbn; lia|]. }
  unfold wp in H3. rewrite R3 in H3. destruct H3 as (d3 & ts3 & w3 & r3 & Hc3 & Ht3 & Hw3).
  rewrite (taken_input _ _ _ _ _ Ht1), (taken_input _ _ _ _ _ Ht3) in E1.
  rewrite (taken_input _ _ _ _ _ Ht2), (taken_input _ _ _ _ _ Ht3) in E2.
  destruct (Coding_inj _ _ _ _ _ _ _ _ _ _ Hc1 Hc3 E1) as (-> & <- & -> & _).
  by destruct (Coding_inj _ _ _ _ _ _ _ _ _ _ Hc2 Hc3 E2) as (-> & -> & -> & _).
Qed.

Lemma readers_agree_witness :
  let wire := lit "5;x" ++ CRLF ++ lit "hello" ++ CRLF ++ lit "0" ++ CRLF ++ CRLF in
  let bytewise := io (reader_of (map (λ b, (b, [])) (wire ++ lit "GET")) Eof) [] [] None in
  lit "hello" = lit "hello"
  ∧ written (relay_chunked [] bytewise).2 = written bytewise ++ wire
  ∧ Coding MAX_CHUNK_LINE_BYTES (lit "hello") [] wire.
Proof.
  intros wire bytewise.
  set (ahead := io (reader_of (push_segment (drop 4 (wire ++ lit "GET")) []) Eof) [] [] None).
  apply (readers_agree [] (take 4 wire) [] bytewise ahead bytewise
           (collect_chunked_body [] (Some 100) bytewise).2
           (read_chunked_body_for_inspection (take 4 wire) 100 ahead).2
           (relay_chunked [] bytewise).2 (Some 100) 100 (lit "hello") (lit "hello") wire);
    [vm_compute; by split|done|done|vm_compute; reflexivity..].
Defined.
