(* ===== verification/ChunkedScan.v ===== *)
(** * ChunkedScan: the relay that scans a chunked body for credentials
    (crates/openshell-supervisor-network/src/l7/rest.rs)

    The scanning relay takes one body of the grammar from the client and writes
    another one with the same data and trailers upstream, cut into other chunks;
    when it stops early, what it has written starts a body of data that the
    guard has released. *)

From stdpp Require Import gmap.
From S2P Require Import Prelude PathCanon IpParse Order Text Destination Secrets SecretsTargets SecretsBody SecretsBodyFacts Http HttpEdit HttpBody ChunkedFacts ChunkedBuffers.
Import IpParse.

(** ** Chunk sizes *)

Lemma ascii_valid s : Forall (λ b, b < 128) s → utf8_valid s = true.
Proof.
  induction 1 as [|b s Hb _ IH]; [done|]. rewrite valid_step by done. cbn [utf8_chunk].
  by rewrite (proj2 (Z.ltb_lt b 128)) by done.
Qed.

Definition is_size_digit (b : Z) : Prop := 48 ≤ b ≤ 57 ∨ 65 ≤ b ≤ 70.
Lemma hex_upper_size_digit d : 0 ≤ d < 16 → is_size_digit (hex_upper d).
Proof. intros. unfold is_size_digit, hex_upper. destruct (Z.ltb_spec d 10); lia. Qed.

Lemma parse_hex_digits fuel n acc : 0 ≤ n < 16 ^ Z.of_nat fuel → n ≤ usize_max → (0 < fuel)%nat →
  parse_hex 0 (hex_digits fuel n acc) = parse_hex n acc.
Proof.
  revert n acc. induction fuel as [|fuel IH]; intros n acc Hn Hmax Hf; [lia|]. cbn [hex_digits].
  pose proof (Z.mod_pos_bound n 16 ltac:(lia)) as Hm.
  pose proof (Z.div_mod n 16 ltac:(lia)) as Hdm.
  assert (∀ q, q * 16 + n mod 16 = n → parse_hex q (hex_upper (n mod 16) :: acc) = parse_hex n acc) as Hstep.
  { intros q Hq. cbn [parse_hex]. rewrite (proj1 (hex_upper_digit _ Hm)). rewrite Hq.
    by rewrite (proj2 (Z.leb_le n usize_max)). }
  destruct (Z.ltb_spec n 16) as [Hlt|Hge].
  - apply Hstep. rewrite Z.mod_small by lia. lia.
  - rewrite Nat2Z.inj_succ, Z.pow_succ_r in Hn by lia.
    rewrite IH; [apply Hstep; lia| | |].
    + split; [apply Z.div_pos; lia|apply Z.div_lt_upper_bound; lia].
    + apply Z.div_le_upper_bound; lia.
    + destruct fuel; [|lia]. cbn in Hn. lia.
Qed.
Lemma hex_digits_size fuel n acc : Forall is_size_digit acc → Forall is_size_digit (hex_digits fuel n acc).
Proof.
  revert n acc. induction fuel as [|fuel IH]; intros n acc Ha; [done|]. cbn [hex_digits].
  assert (Forall is_size_digit (hex_upper (n mod 16) :: acc)).
  { constructor; [|done]. apply hex_upper_size_digit, Z.mod_pos_bound. lia. }
  case_match; auto.
Qed.
Lemma hex_digits_length fuel n acc : (length (hex_digits fuel n acc) ≤ fuel + length acc)%nat.
Proof.
  revert n acc. induction fuel as [|fuel IH]; intros n acc; [done|]. cbn [hex_digits].
  case_match; [cbn; lia|]. specialize (IH (n / 16) (hex_upper (n mod 16) :: acc)). cbn in IH. lia.
Qed.
Lemma hex_digits_nonempty fuel n acc : (0 < fuel)%nat ∨ acc ≠ [] → hex_digits fuel n acc ≠ [].
Proof.
  revert n acc. induction fuel as [|fuel IH]; intros n acc Hor; cbn [hex_digits]; [naive_solver lia|].
  case_match; [done|]. apply IH. by right.
Qed.

(** A written size is read as the same size. *)
Lemma show_hex_parse n : 0 ≤ n ≤ usize_max → parse_chunk_size_line (show_hex n) = Ok n.
Proof.
  intros Hn. assert (Forall is_size_digit (show_hex n)) as Hd by by apply hex_digits_size.
  unfold parse_chunk_size_line, from_utf8. rewrite ascii_valid.
  2: { eapply list.Forall_impl; [exact Hd|]. unfold is_size_digit. lia. }
  cbn [ok_or]. assert (existsb line_control (show_hex n) = false) as ->.
  { apply not_true_iff_false. rewrite existsb_elem. intros (b & Hb & Hc).
    eapply list.Forall_forall in Hb; [|exact Hd]. unfold is_size_digit in Hb. unfold line_control in Hc. lia. }
  assert (split_once 59 (show_hex n) = None) as ->.
  { apply split_once_None. intros Hb. eapply list.Forall_forall in Hb; [|exact Hd]. unfold is_size_digit in Hb. lia. }
  assert (is_empty (show_hex n) = false) as ->.
  { pose proof (hex_digits_nonempty 16 n [] ltac:(left; lia)). unfold show_hex. by destruct (hex_digits 16 n []). }
  assert (forallb is_ascii_hexdigit (show_hex n) = true) as ->.
  { apply forallb_elem. intros b Hb. eapply list.Forall_forall in Hb; [|exact Hd].
    unfold is_size_digit in Hb. unfold is_ascii_hexdigit, hex_digit.
    destruct ((48 <=? b) && (b <=? 57)) eqn:E; [done|].
    by replace ((65 <=? b) && (b <=? 70)) with true by lia. }
  cbn [orb negb]. unfold show_hex. rewrite parse_hex_digits; [done| |lia|lia].
  change (16 ^ Z.of_nat 16) with (usize_max + 1). lia.
Qed.
Lemma show_hex_length n : (length (show_hex n) ≤ 16)%nat.
Proof. unfold show_hex. pose proof (hex_digits_length 16 n []). cbn [length] in *. lia. Qed.

(** ** Writing *)

(** [x] was written, and nothing read. *)
Record Put (s : Io) (x : bytes) (s' : Io) : Prop := put {
  put_client : client s' = client s;
  put_fresh : fresh s = None → fresh s' = None;
  put_written : written s' = written s ++ x;
}.
Lemma Put_refl s : Put s [] s.
Proof. split; [done|done|]. by rewrite app_nil_r. Qed.
Lemma Put_trans s x s1 y s2 : Put s x s1 → Put s1 y s2 → Put s (x ++ y) s2.
Proof. intros [H1 H2 H3] [H4 H5 H6]. split; [congruence|auto|]. by rewrite H6, H3, app_assoc. Qed.
Lemma Put_taken a s x s' : Put s x s' → Taken a s [] a s'.
Proof. intros [H1 H2 _]. split; rewrite ?H1; auto. Qed.

Lemma write_body_bytes_spec b s :
  wp (write_body_bytes b) s (λ r s',
    match r with
    | Ok _ => Put s b s'
    | Err e => e = StalePolicy ∧ Put s [] s'
    end).
Proof.
  unfold write_body_bytes. apply wp_bind, wp_ensure_current.
  - intros f Hf. apply wp_write_all. by split.
  - intros _. split; [done|apply Put_refl].
Qed.

Definition chunk_of (payload : bytes) : bytes :=
  if is_empty payload then [] else show_hex (Z.of_nat (length payload)) ++ CRLF ++ payload ++ CRLF.
Lemma write_guarded_chunk_spec payload s :
  wp (write_guarded_chunk payload) s (λ r s',
    match r with
    | Ok _ => Put s (chunk_of payload) s'
    | Err e => e = StalePolicy ∧ ∃ x, Put s x s' ∧ x `prefix_of` chunk_of payload
    end).
Proof.
  unfold write_guarded_chunk, chunk_of. destruct (is_empty payload); [apply wp_ret, Put_refl|].
  set (size := show_hex _). apply wp_bind. eapply wp_mono; [apply write_body_bytes_spec|].
  intros [[]|e] s1; [|intros [-> H]; split; [done|]; exists []; split; [done|apply prefix_nil]].
  intros H1. apply wp_bind. eapply wp_mono; [apply write_body_bytes_spec|]. intros [[]|e] s2.
  2: { intros [-> H]. split; [done|]. exists ((size ++ CRLF) ++ []). split; [by eapply Put_trans|].
       rewrite app_nil_r, app_assoc. by apply prefix_app_r. }
  intros H2. eapply wp_mono; [apply write_body_bytes_spec|].
  pose proof (Put_trans _ _ _ _ _ H1 H2) as H3. intros [[]|e] s3.
  - intros H. pose proof (Put_trans _ _ _ _ _ H3 H) as H4. by rewrite <- !app_assoc in H4.
  - intros [-> H]. split; [done|]. pose proof (Put_trans _ _ _ _ _ H3 H) as H4.
    rewrite app_nil_r, <- app_assoc in H4. eexists; split; [done|].
    rewrite !app_assoc. by apply prefix_app_r.
Qed.

(** Chunks of [o] that open a body. *)
Definition Opens (o x : bytes) : Prop :=
  ∀ L data ts w, 18 ≤ L → Coding L data ts w → Coding L (o ++ data) ts (x ++ w).
Lemma Opens_nil : Opens [] [].
Proof. by intros L data ts w. Qed.
Lemma Opens_app o x o' x' : Opens o x → Opens o' x' → Opens (o ++ o') (x ++ x').
Proof. intros H H' L data ts w HL Hc. rewrite <- !app_assoc. by apply H, H'. Qed.
Lemma Opens_chunk payload : Z.of_nat (length payload) ≤ usize_max → Opens payload (chunk_of payload).
Proof.
  intros Hlen L data ts w HL Hc. unfold chunk_of. destruct payload as [|b p]; [done|]. cbn [is_empty].
  rewrite <- !app_assoc. constructor; [apply show_hex_parse; lia| |done|done].
  pose proof (show_hex_length (Z.of_nat (length (b :: p)))). lia.
Qed.

Section Guarded.
Context (now : Z).
Import SecretsBody.

Definition bounded (g : BodyPlaceholderGuard) : Prop :=
  (length (SecretsBody.pending g) ≤ MAX_BODY_TOKEN_BYTES + 4)%nat.

Lemma bounded_Z g : bounded g → Z.of_nat (length (SecretsBody.pending g)) ≤ 4100.
Proof. unfold bounded. change 4100 with (Z.of_nat (MAX_BODY_TOKEN_BYTES + 4)). lia. Qed.

Lemma push_bounded g b o g' :
  push now g b = Ok (o, g') → bounded g →
  bounded g' ∧ o ++ SecretsBody.pending g' = SecretsBody.pending g ++ b.
Proof.
  intros H Hb. pose proof (push_all_blocks now g [b]) as Ha. cbn [push_all] in Ha. rewrite H in Ha.
  cbn in Ha. rewrite app_nil_r in Ha. symmetry in Ha.
  pose proof (push_blocks_bounded _ _ _ _ _ Ha Hb) as Hb'.
  apply push_blocks_pending in Ha as [Ha _]. split; [done|].
  pose proof (blocks_concat [b]) as Hc. cbn [map concat] in Hc. rewrite !app_nil_r in Hc.
  by rewrite app_nil_r, Hc in Ha.
Qed.
Lemma push_all_app g xs ys o g1 o' g2 :
  push_all now g xs = Ok (o, g1) → push_all now g1 ys = Ok (o', g2) →
  push_all now g (xs ++ ys) = Ok (o ++ o', g2).
Proof.
  revert g o. induction xs as [|x xs IH]; intros g o; cbn [push_all app]; [by intros [= <- <-]|].
  intros (r1 & H1 & H2)%let_Ok Hy. apply let_Ok in H2 as ([o2 g3] & H2 & E). injection E as <- <-.
  rewrite H1. cbn. cbn [snd] in H2. rewrite (IH _ _ H2 Hy). cbn. by rewrite app_assoc.
Qed.

(** Data the guard let through. *)
Definition Released (g : BodyPlaceholderGuard) (out : bytes) : Prop :=
  ∃ blocks o g', push_all now g blocks = Ok (o, g') ∧
    (out = o ∨ ∃ last, finish now g' = Ok last ∧ out = o ++ last).
Lemma Released_after g blocks o g1 out :
  push_all now g blocks = Ok (o, g1) → Released g1 out → Released g (o ++ out).
Proof.
  intros H (blocks' & o' & g' & H' & Hor). exists (blocks ++ blocks'), (o ++ o'), g'.
  split; [by eapply push_all_app|]. destruct Hor as [-> |(last & Hl & ->)]; [by left|right].
  exists last. by rewrite app_assoc.
Qed.

Definition clean (line : bytes) : Prop := Secrets.contains_reserved_credential_marker_bytes line = false.

Lemma guarded_trailers_spec fuel st s :
  (length (buffered st ++ stream (client s)) < fuel)%nat →
  wp (guarded_trailers fuel st) s (λ r s',
    match r with
    | Ok _ => ∃ ts w rest, Trailers MAX_REWRITE_BODY_BYTES ts w ∧ Forall clean ts ∧
        Taken (buffered st) s w rest s' ∧ written s' = written s ++ w
    | Err e => e ≠ OutOfFuel ∧ ∃ x ts w, written s' = written s ++ x ∧ x `prefix_of` w ∧
        Trailers MAX_REWRITE_BODY_BYTES ts w
    end).
Proof.
  revert st s. induction fuel as [|fuel IH]; intros st s Hf; [lia|]. cbn [guarded_trailers].
  assert (∀ s', written s' = written s → ∃ x ts w, written s' = written s ++ x ∧ x `prefix_of` w ∧
            Trailers MAX_REWRITE_BODY_BYTES ts w) as Hnone.
  { intros s' E. exists [], [], CRLF. rewrite E, app_nil_r. split_and!; [done|apply prefix_nil|constructor]. }
  apply wp_bind, read_chunked_line_top; [|by auto].
  intros line st1 s1 Hg Hfit. pose proof (got_written _ _ _ _ _ Hg) as Hw1.
  destruct Hfit as (_ & _ & Hlen). apply wp_bind, wp_lift.
  destruct (validate_chunk_trailer_line line) as [[]|e] eqn:Hv; [|by split; [apply trailer_line_err in Hv as []|auto]].
  destruct (Secrets.contains_reserved_credential_marker_bytes line) eqn:Hm; [by apply wp_fail; auto|].
  (* whatever part of the line is written starts trailers *)
  assert (∀ x s', Put s1 x s' → x `prefix_of` line ++ CRLF → ∃ x ts w,
            written s' = written s ++ x ∧ x `prefix_of` w ∧ Trailers MAX_REWRITE_BODY_BYTES ts w) as Hpart.
  { intros x s' [_ _ Hx] Hp. rewrite Hw1 in Hx. destruct (decide (line = [])) as [->|Hne].
    - exists x, [], CRLF. split_and!; [done..|constructor].
    - exists x, [line], (line ++ CRLF ++ CRLF). split_and!; [done| |by constructor; [..|constructor]].
      etrans; [exact Hp|]. rewrite app_assoc. by apply prefix_app_r. }
  apply wp_bind. eapply wp_mono; [apply write_body_bytes_spec|].
  intros [[]|e] s2; [|intros [-> H]; split; [done|]; eapply Hpart; [exact H|apply prefix_nil]].
  intros H2. apply wp_bind. eapply wp_mono; [apply write_body_bytes_spec|]. intros [[]|e] s3.
  2: { intros [-> H]. split; [done|]. pose proof (Put_trans _ _ _ _ _ H2 H) as H3. rewrite app_nil_r in H3.
       eapply Hpart; [exact H3|by apply prefix_app_r]. }
  intros H3. pose proof (Put_trans _ _ _ _ _ H2 H3) as H4.
  pose proof (Taken_trans _ _ _ _ _ _ _ _ (got_taken _ _ _ _ _ Hg) (Put_taken (buffered st1) _ _ _ H4)) as Ht.
  rewrite app_nil_r in Ht. pose proof (put_written _ _ _ H4) as Hw4. rewrite Hw1 in Hw4.
  destruct line as [|b line]; cbn [is_empty].
  - apply wp_ret. exists [], CRLF, (buffered st1). split_and!; [constructor|done|done|done].
  - pose proof (Taken_length _ _ _ _ _ Ht) as HL. cbn [length app] in HL.
    eapply wp_mono; [apply IH; lia|]. intros [[]|e] s5.
    + intros (ts & w & rest & HT & Hc & Ht5 & Hw5).
      exists ((b :: line) :: ts), ((b :: line) ++ CRLF ++ w), rest. split_and!.
      * by constructor.
      * by constructor.
      * rewrite app_assoc. by eapply Taken_trans.
      * by rewrite Hw5, Hw4, <- !app_assoc.
    + intros (He & x & ts & w & Hw5 & Hp & HT). split; [done|].
      exists ((b :: line) ++ CRLF ++ x), ((b :: line) :: ts), ((b :: line) ++ CRLF ++ w). split_and!.
      * by rewrite Hw5, Hw4, <- !app_assoc.
      * by do 2 apply prefix_app.
      * by constructor.
Qed.

Lemma guarded_blocks_spec fuel n g st s :
  (length (buffered st ++ stream (client s)) < fuel)%nat → 0 ≤ n → bounded g →
  wp (guarded_blocks now fuel n g st) s (λ r s',
    match r with
    | Ok (g', st') => ∃ blocks o x, push_all now g blocks = Ok (o, g') ∧ bounded g' ∧ Opens o x ∧
        Z.of_nat (length (concat blocks)) = n ∧ Taken (buffered st) s (concat blocks) (buffered st') s' ∧
        written s' = written s ++ x
    | Err e => e ≠ OutOfFuel ∧ ∃ x o y, Released g o ∧ Opens o y ∧ x `prefix_of` y ∧ written s' = written s ++ x
    end).
Proof.
  revert n g st s. induction fuel as [|fuel IH]; intros n g st s Hf Hn Hb; [lia|]. cbn [guarded_blocks].
  assert (Released g []) as Hnil by by (exists [], [], g; auto).
  destruct (Z.leb_spec n 0).
  { apply wp_ret. exists [], [], []. split_and!; [done|done|apply Opens_nil|cbn; lia|apply Taken_refl|].
    by rewrite app_nil_r. }
  assert (∀ s', written s' = written s →
    ∃ x o y, Released g o ∧ Opens o y ∧ x `prefix_of` y ∧ written s' = written s ++ x) as Hnone.
  { intros s' E. exists [], [], []. rewrite E, app_nil_r. split_and!; [done|apply Opens_nil|done|done]. }
  pose proof relay_buf_pos. set (k := Z.min n (Z.of_nat RELAY_BUF_SIZE)).
  assert (0 < k ≤ n) by (unfold k; lia).
  assert (k ≤ 8192) by (unfold k; change (Z.of_nat RELAY_BUF_SIZE) with 8192; lia). clearbody k.
  apply wp_bind. eapply wp_mono; [apply read_buffered_exact_spec; lia|]. intros [[out st1]|e] s1.
  2: { intros [Hr Hw]. split; [by eapply refused_fuel|auto]. }
  intros (d & -> & Hd & Hg). cbn [app fst snd]. pose proof (got_written _ _ _ _ _ Hg) as Hw1.
  apply wp_bind, wp_lift. destruct (push now g d) as [[o g1]|e] eqn:Hp; cbn [map_err]; [|by split; auto].
  cbn [fst snd]. destruct (push_bounded _ _ _ _ Hp Hb) as [Hb1 Ho].
  assert (Opens o (chunk_of o)) as Hopen.
  { apply Opens_chunk. apply (f_equal length) in Ho. rewrite !length_app in Ho.
    apply bounded_Z in Hb. change usize_max with (2 ^ 64 - 1). lia. }
  assert (push_all now g [d] = Ok (o, g1)) as Hpa by (cbn; rewrite Hp; cbn; by rewrite app_nil_r).
  apply wp_bind. eapply wp_mono; [apply write_guarded_chunk_spec|]. intros [[]|e] s2.
  2: { intros [-> (x & [_ _ Hx] & Hpre)]. split; [done|]. exists x, o, (chunk_of o).
       split_and!; [by exists [d], o, g1; auto|done|done|by rewrite Hx, Hw1]. }
  intros Hput. pose proof (put_written _ _ _ Hput) as Hw2. rewrite Hw1 in Hw2.
  pose proof (Taken_trans _ _ _ _ _ _ _ _ (got_taken _ _ _ _ _ Hg) (Put_taken (buffered st1) _ _ _ Hput)) as Ht.
  rewrite app_nil_r in Ht. pose proof (Taken_length _ _ _ _ _ Ht).
  eapply wp_mono; [apply IH; [lia|lia|done]|]. intros [[g2 st2]|e] s3.
  - intros (blocks & o2 & x & Hpa2 & Hb2 & Hop2 & Hlen & Ht2 & Hw3).
    exists (d :: blocks), (o ++ o2), (chunk_of o ++ x). cbn [concat]. split_and!.
    + by apply (push_all_app g [d] blocks o g1).
    + done.
    + by apply Opens_app.
    + rewrite length_app. lia.
    + by eapply Taken_trans.
    + by rewrite Hw3, Hw2, app_assoc.
  - intros (He & x & o2 & y & Hrel & Hop2 & Hpre & Hw3). split; [done|].
    exists (chunk_of o ++ x), (o ++ o2), (chunk_of o ++ y). split_and!.
    + by eapply Released_after.
    + by apply Opens_app.
    + by apply prefix_app.
    + by rewrite Hw3, Hw2, app_assoc.
Qed.

Definition scan_outcome (g : BodyPlaceholderGuard) (a : bytes) (s : Io) (r : result unit HttpError) (s' : Io) : Prop :=
  match r with
  | Ok _ => ∃ blocks ts w o g' last w' rest,
      Coding MAX_REWRITE_BODY_BYTES (concat blocks) ts w ∧ Taken a s w rest s' ∧ Forall clean ts ∧
      push_all now g blocks = Ok (o, g') ∧ finish now g' = Ok last ∧
      Coding MAX_REWRITE_BODY_BYTES (o ++ last) ts w' ∧ written s' = written s ++ w'
  | Err e => e ≠ OutOfFuel ∧ ∃ x out ts w', Released g out ∧ Coding MAX_REWRITE_BODY_BYTES out ts w' ∧
      x `prefix_of` w' ∧ written s' = written s ++ x
  end.

(** What opens a body is the start of one. *)
Lemma Opens_fail g a s e s' x o y :
  e ≠ OutOfFuel → Released g o → Opens o y → x `prefix_of` y → written s' = written s ++ x →
  scan_outcome g a s (Err e) s'.
Proof.
  intros He Hr Ho Hp Hw. split; [done|].
  exists x, (o ++ []), [], (y ++ lit "0" ++ CRLF ++ CRLF). split_and!; [by rewrite app_nil_r| | |done].
  - by apply Ho, Coding_end.
  - etrans; [exact Hp|]. by apply prefix_app_r.
Qed.
Lemma Released_nil g : Released g [].
Proof. exists [], [], g. auto. Qed.

#[local] Lemma guarded_end g st s line st1 s1 :
  bounded g → Got st s (line ++ CRLF) st1 s1 → parse_chunk_size_line line = Ok 0 →
  Z.of_nat (length line) + 2 ≤ MAX_REWRITE_BODY_BYTES →
  wp (let! last := scan_finish now g in
      let! _ := write_guarded_chunk last in
      let! _ := write_body_bytes (lit "0" ++ CRLF) in
      with_fuel (buffered st1) (λ fuel, guarded_trailers fuel st1)) s1 (scan_outcome g (buffered st) s).
Proof.
  intros Hb Hg Hn Hlen. pose proof (got_written _ _ _ _ _ Hg) as Hw1.
  apply wp_bind, wp_lift. destruct (finish now g) as [last|e] eqn:Hfin; cbn [map_err].
  2: { eapply (Opens_fail _ _ _ _ _ []); [done|apply Released_nil|apply Opens_nil|done|by rewrite app_nil_r]. }
  assert (Released g last) as Hrel by (exists [], [], g; eauto).
  assert (Opens last (chunk_of last)) as Hop.
  { apply Opens_chunk. apply finish_eq in Hfin as [-> _].
    apply bounded_Z in Hb. change usize_max with (2 ^ 64 - 1). lia. }
  apply wp_bind. eapply wp_mono; [apply write_guarded_chunk_spec|]. intros [[]|e] s2.
  2: { intros [-> (x & [_ _ Hx] & Hp)]. rewrite Hw1 in Hx. by eapply Opens_fail. }
  intros H2. apply wp_bind. eapply wp_mono; [apply write_body_bytes_spec|]. intros [[]|e] s3.
  2: { intros [-> H3]. pose proof (Put_trans _ _ _ _ _ H2 H3) as [_ _ Hx]. rewrite Hw1, app_nil_r in Hx.
       by eapply Opens_fail. }
  intros H3. pose proof (Put_trans _ _ _ _ _ H2 H3) as H4.
  pose proof (Taken_trans _ _ _ _ _ _ _ _ (got_taken _ _ _ _ _ Hg) (Put_taken (buffered st1) _ _ _ H4)) as Ht.
  rewrite app_nil_r in Ht. pose proof (put_written _ _ _ H4) as Hw4. rewrite Hw1 in Hw4.
  assert (∀ ts w, Trailers MAX_REWRITE_BODY_BYTES ts w →
    Coding MAX_REWRITE_BODY_BYTES last ts (chunk_of last ++ lit "0" ++ CRLF ++ w)) as Hcod.
  { intros ts w HT. rewrite <- (app_nil_r last) at 1. apply Hop; [done|]. by constructor. }
  apply wp_with_fuel. eapply wp_mono; [apply guarded_trailers_spec; lia|]. intros [[]|e] s5.
  - intros (ts & w & rest & HT & Hc & Ht5 & Hw5).
    exists [], ts, (line ++ CRLF ++ w), [], g, last, (chunk_of last ++ lit "0" ++ CRLF ++ w), rest.
    split_and!; try done.
    + by constructor.
    + rewrite app_assoc. by eapply Taken_trans.
    + by apply Hcod.
    + by rewrite Hw5, Hw4, <- !app_assoc.
  - intros (He & x & ts & w & Hw5 & Hp & HT). split; [done|].
    exists (chunk_of last ++ lit "0" ++ CRLF ++ x), last, ts, (chunk_of last ++ lit "0" ++ CRLF ++ w).
    split_and!; [done|by apply Hcod|by do 3 apply prefix_app|by rewrite Hw5, Hw4, <- !app_assoc].
Qed.

Lemma guarded_chunks_spec fuel g st s :
  (length (buffered st ++ stream (client s)) < fuel)%nat → bounded g →
  wp (guarded_chunks now fuel g st) s (scan_outcome g (buffered st) s).
Proof.
  revert g st s. induction fuel as [|fuel IH]; intros g st s Hf Hb; [lia|]. cbn [guarded_chunks].
  assert (∀ e s', e ≠ OutOfFuel → written s' = written s → scan_outcome g (buffered st) s (Err e) s') as Hnone.
  { intros e s' He E. eapply (Opens_fail _ _ _ _ _ []); [done|apply Released_nil|apply Opens_nil|done|].
    by rewrite app_nil_r. }
  apply wp_bind, read_chunked_line_top; [|by auto].
  intros line st1 s1 Hg (_ & _ & Hlen). pose proof (got_written _ _ _ _ _ Hg) as Hw1. apply wp_bind, wp_lift.
  destruct (parse_chunk_size_line line) as [n|e] eqn:Hn; [|by apply Hnone; [apply size_line_err in Hn as []|]].
  pose proof (size_line_range _ _ Hn) as [Hnn _].
  destruct (Z.eqb_spec n 0) as [->|Hn0]; [by eapply guarded_end|].
  apply wp_bind, wp_with_fuel. eapply wp_mono; [apply guarded_blocks_spec; [lia|done|done]|].
  intros [[g2 st2]|e] s2.
  2: { intros (He & x & o & y & Hrel & Hop & Hp & Hw2). rewrite Hw1 in Hw2. by eapply Opens_fail. }
  intros (blocks & o & x & Hpa & Hb2 & Hop & Hbl & Ht2 & Hw2). rewrite Hw1 in Hw2.
  assert (Released g o) as Hrel by (exists blocks, o, g2; auto).
  apply wp_bind. eapply wp_mono; [by apply read_buffered_exact_spec|]. intros [[crlf st3]|e] s3.
  2: { intros [Hr Hw]. rewrite Hw2 in Hw. by eapply Opens_fail; [eapply refused_fuel|..]. }
  intros (d & E & Hd & Hg3). cbn in E. subst d. cbn [fst snd].
  pose proof (got_written _ _ _ _ _ Hg3) as Hw3. rewrite Hw2 in Hw3.
  case_bool_decide as Hcr; [|by apply wp_fail; eapply Opens_fail]. subst crlf.
  pose proof (Taken_trans _ _ _ _ _ _ _ _ (got_taken _ _ _ _ _ Hg)
    (Taken_trans _ _ _ _ _ _ _ _ Ht2 (got_taken _ _ _ _ _ Hg3))) as Ht. rewrite <- app_assoc in Ht.
  pose proof (Taken_length _ _ _ _ _ Ht) as HL. rewrite (length_app line) in HL. cbn in HL.
  eapply wp_mono; [apply IH; [lia|done]|]. intros [[]|e] s4.
  - intros (blocks' & ts & w & o' & g' & last & w' & rest & Hc & Ht4 & Hcl & Hpa' & Hfin & Hc' & Hw4).
    exists (blocks ++ blocks'), ts, (line ++ CRLF ++ concat blocks ++ CRLF ++ w), (o ++ o'), g', last, (x ++ w'), rest.
    rewrite concat_app. split_and!; try done.
    + constructor; [by rewrite Hbl|done| |done]. intros E. rewrite E in Hbl. cbn in Hbl. lia.
    + pose proof (Taken_trans _ _ _ _ _ _ _ _ Ht Ht4) as Ht5. by rewrite <- !app_assoc in Ht5.
    + by eapply push_all_app.
    + rewrite <- app_assoc. by apply Hop.
    + by rewrite Hw4, Hw3, app_assoc.
  - intros (He & x' & out & ts & w' & Hrel' & Hc' & Hp & Hw4). split; [done|].
    exists (x ++ x'), (o ++ out), ts, (x ++ w'). split_and!.
    + by eapply Released_after.
    + by apply Hop.
    + by apply prefix_app.
    + by rewrite Hw4, Hw3, app_assoc.
Qed.
End Guarded.

(** ** Properties *)

(** The relay that scans a chunked body takes one body of the grammar and
    writes one with the same data and the same trailers, none of which has a
    credential marker; the guard that forwarded the data accepts it scanned at
    once, provided no canonical marker begins inside the key chars of a token. When the
    relay stops early, what it has written starts a body of data that the guard
    released. *)
Theorem scanned_relay_keeps_the_message now cl already_read s :
  match relay_chunked_with_marker_guard now cl already_read s with
  | (Ok _, s') => ∃ data ts wire wire' rest,
      Coding MAX_REWRITE_BODY_BYTES data ts wire ∧
      already_read ++ stream (client s) = wire ++ rest ++ stream (client s') ∧
      (rest = [] ∨ client s' = client s) ∧
      written s' = written s ++ wire' ∧ Coding MAX_REWRITE_BODY_BYTES data ts wire' ∧ Forall clean ts ∧
      (separated (decoded_of (SecretsBody.decode_wire true data)) →
       SecretsBody.finish now (SecretsBody.guard_of data cl None) = Ok data)
  | (Err e, s') => e ≠ OutOfFuel ∧ ∃ sent out ts wire',
      Released now (SecretsBody.new_guard cl) out ∧ Coding MAX_REWRITE_BODY_BYTES out ts wire' ∧
      sent `prefix_of` wire' ∧ written s' = written s ++ sent
  end.
Proof.
  set (g := SecretsBody.new_guard cl).
  assert (wp (relay_chunked_with_marker_guard now cl already_read) s (scan_outcome now g already_read s)) as H.
  { apply wp_with_fuel. apply (guarded_chunks_spec now _ g (read_state already_read 0 None)); [cbn; lia|].
    unfold bounded. cbn. lia. }
  unfold wp in H. destruct (relay_chunked_with_marker_guard now cl already_read s) as [[[]|e] s'].
  - destruct H as (blocks & ts & w & o & g' & last & w' & rest & Hc & [Hin Ha _] & Hcl & Hp & Hf & Hc' & Hw).
    destruct (streamed_scan _ _ _ _ _ _ Hp Hf) as [Hout Hscan]. rewrite Hout in Hc'.
    exists (concat blocks), ts, w, w', rest. split_and!; try done. destruct Ha as [?|[? _]]; auto.
  - done.
Qed.
