(* ===== verification/HttpFacts.v ===== *)
(** * HttpFacts: the head of a request, as it is read and as it is forwarded
    (crates/openshell-supervisor-network/src/l7/rest.rs)

    A head that is accepted has one reading: a request line and fields without
    control bytes, ended by the first empty line, with one framing. *)

From stdpp Require Import gmap.
From S2P Require Import Prelude PathCanon IpParse Order Text Destination Secrets SecretsHeaders Http HttpEdit HttpBody ChunkedFacts ChunkedBuffers.
Import IpParse.

(** ** Reading a head *)

Lemma ends_with_spec p s : ends_with p s = true ↔ ∃ r, s = r ++ p.
Proof.
  unfold ends_with. destruct (strip_suffix p s) as [r|] eqn:E; cbn.
  - apply strip_suffix_Some in E. split; eauto.
  - split; [done|]. intros [r Hr]. apply strip_suffix_Some in Hr. congruence.
Qed.
Lemma contains_snoc p s b :
  contains_sub p s = false → ends_with p (s ++ [b]) = false → contains_sub p (s ++ [b]) = false.
Proof.
  rewrite <- !not_true_iff_false, ends_with_spec, !contains_sub_spec. intros Hs He (x & y & E).
  destruct y as [|c y _] using rev_ind; [rewrite app_nil_r in E; eauto|].
  rewrite !app_assoc in E. apply app_inj_tail in E as [E _]. rewrite <- app_assoc in E. eauto.
Qed.

(** The first empty line ends what is read. *)
Lemma read_head_spec fuel buf client :
  (length (stream client) < fuel)%nat → contains_sub DOUBLE_CRLF buf = false →
  Z.of_nat (length buf) ≤ MAX_HEADER_BYTES + 1 →
  match read_head fuel buf client with
  | Ok None => buf = [] ∧ stream client = []
  | Ok (Some (out, rest)) => ∃ d block, out = buf ++ d ∧ stream client = d ++ stream rest ∧
      out = block ++ DOUBLE_CRLF ∧ Z.of_nat (length out) ≤ MAX_HEADER_BYTES + 1 ∧
      contains_sub DOUBLE_CRLF (take (length out - 1) out) = false
  | Err e => e ≠ OutOfFuel ∧ e ≠ Panicked
  end.
Proof.
  revert buf client. induction fuel as [|fuel IH]; intros buf client Hf Hc Hl; [lia|]. cbn [read_head].
  destruct (Z.ltb_spec MAX_HEADER_BYTES (Z.of_nat (length buf))); [done|].
  unfold read_u8. destruct client as [[|[b seg] rest] e]; cbn [segments].
  - destruct (is_empty buf && _) eqn:E; [|done]. apply andb_true_iff in E as [E _].
    by apply is_empty_true in E.
  - assert (stream (reader_of ((b, seg) :: rest) e) = b :: stream (reader_of (push_segment seg rest) e)) as Hs
      by by rewrite stream_push, stream_segment.
    destruct (ends_with DOUBLE_CRLF (buf ++ [b])) eqn:E.
    + apply ends_with_spec in E as [block E]. exists [b], block. split_and!; [done|done|done| |].
      * rewrite length_app. cbn. lia.
      * rewrite length_app. cbn [length]. rewrite Nat.add_sub. by rewrite take_app_length.
    + specialize (IH (buf ++ [b]) (reader_of (push_segment seg rest) e)).
      rewrite Hs in Hf. cbn [length] in Hf. rewrite length_app in IH. cbn [length] in IH.
      specialize (IH ltac:(lia) (contains_snoc _ _ _ Hc E) ltac:(lia)).
      destruct (read_head fuel (buf ++ [b]) _) as [[[out c]|]|err]; [|by destruct IH, buf|done].
      destruct IH as (d & block & -> & Hd & E2 & Hlen & Hno).
      exists (b :: d), block. rewrite Hs, Hd. split_and!; [by rewrite <- app_assoc|done..].
Qed.

(** So the end of the head is the end of what was read. *)
Lemma read_head_end out block :
  out = block ++ DOUBLE_CRLF → contains_sub DOUBLE_CRLF (take (length out - 1) out) = false →
  head_end out = Some (length out).
Proof.
  intros Heq Hno. unfold head_end. destruct (find_sub DOUBLE_CRLF out) as [k|] eqn:E.
  - cbn. f_equal. destruct (find_sub_Some _ _ _ E) as (b & Hb & Hk & _).
    destruct b as [|y b _] using rev_ind.
    + apply (f_equal length) in Hb. rewrite app_nil_r, (length_app (take k _)), Hk in Hb. cbn in Hb. lia.
    + exfalso. apply not_true_iff_false in Hno. apply Hno, contains_sub_spec.
      exists (take k out), b. rewrite !app_assoc in Hb. rewrite app_assoc.
      remember ((take k out ++ DOUBLE_CRLF) ++ b) as s eqn:Es. clear Es. rewrite Hb.
      rewrite length_app. cbn [length]. by rewrite Nat.add_sub, take_app_length.
  - exfalso. apply find_sub_None, not_true_iff_false in E. apply E, contains_sub_spec.
    exists block, []. by rewrite app_nil_r.
Qed.

(** ** Lines *)

Lemma split_crlf_none s : no_crlf s = true → split_str CRLF s = [s].
Proof.
  induction s as [|x s IH]; [done|]. intros Hn. unfold split_str in *. cbn [split_str_go].
  assert (starts_with CRLF (x :: s) = false) as ->.
  { apply not_true_iff_false. rewrite starts_with_spec. intros [t E]. by apply (no_crlf_prefix [] t) in E. }
  by rewrite IH by (by eapply no_crlf_tail).
Qed.
(** The lines of a block that ends a head. *)
Lemma split_block_lines block :
  ∃ rl ls, split_str CRLF block = rl :: ls ∧ Forall (λ l, no_crlf l = true) (rl :: ls) ∧
    block ++ CRLF = rl ++ CRLF ++ lines_text ls.
Proof.
  remember (length block) as n eqn:Hn. revert block Hn. induction (lt_wf n) as [n _ IH]; intros block ->.
  destruct (find_sub CRLF block) as [p|] eqn:E.
  - destruct (find_crlf_first 0 block p (no_crlf_one block) E) as (Hno & Heq & Hlen). cbn [plus] in *.
    destruct (IH (length (drop (p + 2) block)) ltac:(rewrite length_drop; lia) _ eq_refl) as (rl & ls & Hs & Hf & Ht).
    exists (take p block), (rl :: ls). split_and!.
    + rewrite Heq at 1. rewrite split_crlf by done. by rewrite Hs.
    + by constructor.
    + rewrite Heq at 1. rewrite <- !app_assoc, Ht. do 2 f_equal.
      unfold lines_text. cbn [map concat]. by rewrite <- app_assoc.
  - exists block, []. apply find_sub_None in E.
    assert (no_crlf block = true) as Hno by (unfold no_crlf; by rewrite E).
    split_and!; [by apply split_crlf_none|by constructor|done].
Qed.

(** [str::lines] of lines without line breaks. *)
Lemma lines_split ls :
  Forall (λ l, 10 ∉ l ∧ 13 ∉ l) ls → lines (lines_text ls) = ls.
Proof.
  unfold lines. induction 1 as [|l ls [H10 H13] Hls IH]; [done|].
  unfold lines_text in *. cbn [map concat].
  assert ((l ++ CRLF) ++ concat (map (λ l, l ++ CRLF) ls) = (l ++ [13]) ++ 10 :: concat (map (λ l, l ++ CRLF) ls)) as ->
    by by rewrite <- !app_assoc.
  rewrite split_on_app by (rewrite elem_of_app, list_elem_of_singleton; naive_solver).
  pose proof (split_on_nonempty 10 (concat (map (λ l, l ++ CRLF) ls))) as Hne.
  destruct (split_on 10 _) as [|q qs] eqn:E; [done|]. cbn [lines_of]. f_equal; [|exact IH].
  unfold strip_cr. rewrite (proj2 (strip_suffix_Some [13] (l ++ [13]) l)) by done. done.
Qed.

(** ** Validated heads *)

(** A field: a token, a colon, and bytes that are no control bytes. *)
Definition field_line (line : bytes) : Prop :=
  ∃ name value, line = name ++ 58 :: value ∧ name ≠ [] ∧
    Forall (λ b, is_http_field_name_byte b = true) name ∧
    Forall (λ b, is_http_field_value_byte b = true) value.
(** A request line: a token, a target of visible bytes and a version. *)
Record request_parts (line method target version : bytes) : Prop := {
  parts_line : line = method ++ 32 :: target ++ 32 :: version;
  parts_method : method ≠ [] ∧ Forall (λ b, is_http_field_name_byte b = true) method;
  parts_target : target ≠ [] ∧ Forall (λ b, 32 < b ∧ b ≠ 127) target;
  parts_version : version = lit "HTTP/1.0" ∨ version = lit "HTTP/1.1";
}.

Lemma name_byte_range b : is_http_field_name_byte b = true → 33 ≤ b < 127 ∧ b ≠ 58.
Proof.
  unfold is_http_field_name_byte. rewrite orb_true_iff, contains_byte_spec. intros [H|H].
  - unfold is_ascii_alphanumeric, is_ascii_alphabetic, is_ascii_digit in H. lia.
  - assert (Forall (λ b, 33 ≤ b < 127 ∧ b ≠ 58) token_symbols) as Hf
      by (vm_compute; repeat constructor; done).
    by eapply list.Forall_forall in Hf.
Qed.
Lemma value_byte_range b : is_http_field_value_byte b = true → b ≠ 10 ∧ b ≠ 13.
Proof. unfold is_http_field_value_byte. lia. Qed.

Lemma forallb_Forall {A} (f : A → bool) l : forallb f l = true ↔ Forall (λ x, f x = true) l.
Proof. rewrite list.Forall_forall. apply forallb_elem. Qed.

Lemma header_line_ok line r : validate_header_line line = Ok r → field_line line.
Proof.
  unfold validate_header_line. destruct (first_blank line); [done|].
  destruct (split_once 58 line) as [[name value]|] eqn:E; [|done]. apply split_once_Some in E as [-> _].
  destruct (first_blank (reverse name)); [done|]. destruct (is_empty name) eqn:En; [done|].
  destruct (forallb is_http_field_name_byte name) eqn:Hn; [|done]. cbn [orb negb].
  destruct (forallb is_http_field_value_byte value) eqn:Hv; [|done]. intros _.
  exists name, value. split_and!; [done|by apply is_empty_false|by apply forallb_Forall..].
Qed.
Lemma field_line_break line : field_line line → line ≠ [] ∧ 10 ∉ line ∧ 13 ∉ line.
Proof.
  intros (name & value & -> & Hne & Hn & Hv). split; [by destruct name|].
  assert (∀ c, c = 10 ∨ c = 13 → c ∉ name ++ 58 :: value) as H; [|by split; apply H; auto].
  intros c Hc. rewrite elem_of_app, elem_of_cons. intros [Hin|[->|Hin]]; [|lia|].
  - eapply list.Forall_forall in Hin; [|exact Hn]. apply name_byte_range in Hin. lia.
  - eapply list.Forall_forall in Hin; [|exact Hv]. apply value_byte_range in Hin. lia.
Qed.

Lemma request_line_ok line :
  validate_http_request_line line = Ok () → ∃ method target version, request_parts line method target version.
Proof.
  unfold validate_http_request_line. destruct (split_on 32 line) as [|m [|t [|v [|? ?]]]] eqn:E; try done.
  pose proof (join_split_on 32 line) as Hj. rewrite E in Hj. cbn in Hj.
  destruct (is_empty m) eqn:Em; [done|]. destruct (is_empty t) eqn:Et; [done|].
  destruct (is_empty v); [done|]. cbn [orb].
  destruct (forallb is_http_field_name_byte m) eqn:Hm; [|done]. cbn [negb].
  destruct (existsb _ t) eqn:Ht; [done|].
  destruct (_ || _) eqn:Hv; [|done]. intros _. exists m, t, v. split.
  - done.
  - split; [by apply is_empty_false|by apply forallb_Forall].
  - split; [by apply is_empty_false|]. apply list.Forall_forall. intros b Hb.
    apply not_true_iff_false in Ht. rewrite existsb_elem in Ht.
    destruct (decide (32 < b ∧ b ≠ 127)); [done|]. exfalso. apply Ht. exists b. split; [done|]. lia.
  - apply orb_true_iff in Hv as [Hv|Hv]; apply bool_decide_eq_true in Hv; auto.
Qed.
Lemma request_parts_break line m t v : request_parts line m t v → 10 ∉ line ∧ 13 ∉ line.
Proof.
  intros [-> [_ Hm] [_ Ht] Hv].
  assert (∀ c, c = 10 ∨ c = 13 → c ∉ m ++ 32 :: t ++ 32 :: v) as H; [|by split; apply H; auto].
  intros c Hc. rewrite elem_of_app, elem_of_cons, elem_of_app, elem_of_cons. intros [Hin|[->|[Hin|[->|Hin]]]]; try lia.
  - eapply list.Forall_forall in Hin; [|exact Hm]. apply name_byte_range in Hin. lia.
  - eapply list.Forall_forall in Hin; [|exact Ht]. cbn in Hin. lia.
  - assert (Forall (λ b, 32 < b) v) as Hf by (destruct Hv as [-> | ->]; repeat constructor; done).
    eapply list.Forall_forall in Hin; [|exact Hf]. cbn in Hin. lia.
Qed.

(** What validation accepts is a head of such lines. *)
Lemma header_block_ok head :
  validate_http_request_header_block head = Ok () →
  utf8_valid head = true ∧ ∃ rl fields m t v,
    head = lines_text (rl :: fields) ++ CRLF ∧ request_parts rl m t v ∧ Forall field_line fields.
Proof.
  unfold validate_http_request_header_block, from_utf8. destruct (utf8_valid head) eqn:Hu; [|done].
  cbn [ok_or]. intros H. apply let_Ok in H as (block & Hb & H).
  split; [done|]. destruct (strip_suffix DOUBLE_CRLF head) as [bl|] eqn:Hs; [|done].
  injection Hb as ->. apply strip_suffix_Some in Hs.
  destruct (split_block_lines block) as (rl & ls & Hsp & Hf & Ht). rewrite Hsp in H.
  apply let_Ok in H as ([] & Hrl & H). apply let_Ok in H as (nom & Hls & _).
  destruct (request_line_ok _ Hrl) as (m & t & v & Hp). exists rl, ls, m, t, v. split_and!.
  - rewrite Hs. unfold DOUBLE_CRLF. rewrite app_assoc, Ht. unfold lines_text. cbn [map concat].
    by rewrite <- !app_assoc.
  - done.
  - apply try_collect_Forall2 in Hls. clear -Hls. induction Hls; constructor; [by eapply header_line_ok|done].
Qed.
Lemma header_block_head head rl fields m t v :
  head = lines_text (rl :: fields) ++ CRLF → request_parts rl m t v → Forall field_line fields →
  Head head rl fields [].
Proof.
  intros -> Hp Hf. split.
  - unfold lines_text. cbn [map concat]. by rewrite <- !app_assoc.
  - apply no_crlf_notin. by eapply request_parts_break.
  - eapply list.Forall_impl; [exact Hf|]. intros l (? & _ & ?)%field_line_break.
    split; [done|]. by apply no_crlf_notin.
Qed.
(** [str::lines] reads the same lines, and then the empty one. *)
Lemma header_block_lines rl fields m t v :
  request_parts rl m t v → Forall field_line fields →
  lines (lines_text (rl :: fields) ++ CRLF) = rl :: fields ++ [[]].
Proof.
  intros Hp Hf. assert (lines_text (rl :: fields) ++ CRLF = lines_text (rl :: fields ++ [[]])) as ->.
  { unfold lines_text. by rewrite app_comm_cons, map_app, concat_app. }
  apply lines_split. constructor; [by eapply request_parts_break|]. apply Forall_app. split.
  - eapply list.Forall_impl; [exact Hf|]. by intros l (_ & ? & ?)%field_line_break.
  - constructor; [split; apply not_elem_of_nil|done].
Qed.

(** ** Framing *)

(** The value of a field with this name. *)
Definition field_value (name line : bytes) : option bytes :=
  match split_once 58 line with
  | Some (n, value) => if eq_ignore_ascii_case n name then Some value else None
  | None => None
  end.
Definition field_values (name : bytes) (fields : list bytes) : list bytes := omap (field_value name) fields.
Definition TE : bytes := lit "transfer-encoding".
Definition CL : bytes := lit "content-length".

(** Fields that frame a body in one way only. *)
Definition framed (fields : list bytes) (len : BodyLength) : Prop :=
  match len with
  | NoBody => field_values TE fields = [] ∧ field_values CL fields = []
  | ContentLength n => field_values TE fields = [] ∧ field_values CL fields ≠ [] ∧
      Forall (λ v, parse_uint u64_max (trim v) = Some n) (field_values CL fields)
  | Chunked => field_values CL fields = [] ∧ ∃ v, field_values TE fields = [v] ∧
      to_ascii_lowercase (trim v) = lit "chunked"
  end.

Definition codings_of (v : bytes) : list bytes := map (λ c, to_ascii_lowercase (trim c)) (split_on 44 v).
Lemma codings_collect v added :
  try_collect (λ coding,
    let coding := trim coding in
    if is_empty coding then Err EmptyCoding else Ok (to_ascii_lowercase coding)) (split_on 44 v) = Ok added →
  added = codings_of v.
Proof.
  intros H%try_collect_Forall2. unfold codings_of. induction H as [|c d cs ds Hc _ IH]; [done|].
  cbn [map]. rewrite <- IH. cbn in Hc. destruct (is_empty (trim c)); [done|]. by injection Hc as <-.
Qed.
(** No line is both. *)
Lemma te_not_cl n : eq_ignore_ascii_case n TE = true → eq_ignore_ascii_case n CL = false.
Proof.
  intros H. destruct (eq_ignore_ascii_case n CL) eqn:E; [|done].
  apply eq_ignore_case_true in H, E. rewrite H in E. by vm_compute in E.
Qed.

Lemma framing_step_ok f line f' :
  framing_step f line = Ok f' →
  codings f' = codings f ++ concat (map codings_of (field_values TE [line])) ∧
  match field_value CL line with
  | Some v => parse_uint u64_max (trim v) = cl_value f' ∧ is_Some (cl_value f') ∧
      (cl_value f = None ∨ cl_value f = cl_value f')
  | None => cl_value f' = cl_value f
  end.
Proof.
  unfold framing_step, field_values, field_value. cbn [omap list_omap].
  destruct (split_once 58 line) as [[name value]|]; [|intros [= <-]; by rewrite app_nil_r].
  intros (f1 & H1 & H2)%let_Ok. fold TE CL in *.
  destruct (eq_ignore_ascii_case name TE) eqn:ETE.
  - apply let_Ok in H1 as (added & Ha & E). injection E as <-. apply codings_collect in Ha as ->.
    rewrite (te_not_cl _ ETE) in *. injection H2 as <-. cbn. by rewrite app_nil_r.
  - injection H1 as <-. rewrite app_nil_r. destruct (eq_ignore_ascii_case name CL); [|by injection H2 as <-].
    destruct (parse_uint u64_max (trim value)) as [len|] eqn:Ep; [|done].
    destruct (cl_value f) as [prev|] eqn:Ec.
    + destruct (Z.eqb_spec prev len) as [->|]; [|done]. injection H2 as <-. cbn. split_and!; eauto.
    + injection H2 as <-. cbn. split_and!; eauto.
Qed.

Lemma framing_of_ok f ls f' :
  framing_of f ls = Ok f' →
  codings f' = codings f ++ concat (map codings_of (field_values TE ls)) ∧
  (cl_value f = None ∨ cl_value f = cl_value f') ∧
  Forall (λ v, parse_uint u64_max (trim v) = cl_value f') (field_values CL ls) ∧
  (field_values CL ls = [] → cl_value f' = cl_value f) ∧
  (field_values CL ls ≠ [] → is_Some (cl_value f')).
Proof.
  revert f. induction ls as [|line ls IH]; intros f; cbn [framing_of].
  { intros [= <-]. cbn. rewrite app_nil_r. split_and!; auto. done. }
  intros (f1 & H1 & H2)%let_Ok. apply framing_step_ok in H1 as [Hc1 Hl1].
  destruct (IH _ H2) as (Hc & Hor & Hf & Hnil & Hsome).
  assert (field_values TE (line :: ls) = field_values TE [line] ++ field_values TE ls) as ->.
  { unfold field_values. cbn [omap list_omap]. by destruct (field_value TE line). }
  rewrite map_app, concat_app, Hc, Hc1, <- app_assoc. split; [done|].
  unfold field_values in *. cbn [omap list_omap]. destruct (field_value CL line) as [v|].
  - destruct Hl1 as (Hp & Hs & Hor1). destruct Hor as [E|E]; [by rewrite E in Hs; destruct Hs|]. rewrite E in *.
    split_and!; [done|by constructor|done|done].
  - rewrite Hl1 in *. by split_and!.
Qed.

Lemma parse_body_length_framed ls b :
  (let? f := framing_of (framing [] None) ls in
   match codings f, cl_value f with
   | _ :: _, Some _ => Err BothFramings
   | [coding], None => if bool_decide (coding = lit "chunked") then Ok Chunked else Err UnsupportedCoding
   | _ :: _ :: _, None => Err UnsupportedCoding
   | [], Some len => Ok (ContentLength len)
   | [], None => Ok NoBody
   end) = Ok b → framed ls b.
Proof.
  intros (f & Hf & H)%let_Ok. apply framing_of_ok in Hf as (Hc & _ & Hcl & Hnil & Hsome). cbn [codings cl_value app] in Hc, Hnil.
  assert (∀ v, codings_of v ≠ []) as Hne.
  { intros v. unfold codings_of. pose proof (split_on_nonempty 44 v). by destruct (split_on 44 v). }
  assert (codings f = [] → field_values TE ls = []) as Hte.
  { rewrite Hc. destruct (field_values TE ls) as [|v vs]; [done|]. cbn [map concat]. intros [E _]%app_eq_nil.
    by apply Hne in E. }
  assert (cl_value f = None → field_values CL ls = []) as Hcn.
  { intros E. destruct (field_values CL ls) as [|v vs]; [done|]. rewrite E in Hsome.
    by destruct (Hsome ltac:(done)). }
  destruct (codings f) as [|c [|c' cs]] eqn:Ec, (cl_value f) as [n|] eqn:En; try done.
  - injection H as <-. split_and!; [by apply Hte| |done]. intros E. by specialize (Hnil E).
  - injection H as <-. split; [by apply Hte|by apply Hcn].
  - case_bool_decide as Ech; [|done]. injection H as <-. split; [by apply Hcn|].
    destruct (field_values TE ls) as [|v vs]; [done|]. exists v. cbn [map concat] in Hc.
    pose proof (Hne v) as Hv. destruct (codings_of v) as [|d ds] eqn:Ed; [done|]. injection Hc as -> Hc.
    symmetry in Hc. apply app_eq_nil in Hc as [-> Hc].
    destruct vs as [|u us]; [|exfalso; cbn [map concat] in Hc; apply app_eq_nil in Hc as [Hc _]; by apply (Hne u)].
    split; [done|]. unfold codings_of in Ed. pose proof (join_split_on 44 v) as Hj.
    destruct (split_on 44 v) as [|w [|? ?]]; [done| |done]. cbn in Hj. subst w. injection Ed as Ed.
    by rewrite Ed, Ech.
Qed.

(** ** The request line *)

Lemma split_whitespace_word n cur w s :
  Forall (λ b, 32 < b < 128) w →
  split_whitespace_fuel (length w + n) cur (w ++ s) = split_whitespace_fuel n (reverse w ++ cur) s.
Proof.
  intros Hw. revert cur. induction Hw as [|b w Hb _ IH]; intros cur; [done|].
  cbn [length app plus]. cbn [split_whitespace_fuel].
  assert (ws_len (b :: w ++ s) = 0%nat) as ->.
  { cbn [ws_len]. replace (((9 <=? b) && (b <=? 13)) || (b =? 32)) with false by lia.
    destruct (w ++ s) as [|b1 [|b2 r]]; [done| |];
      replace ((b =? 194) && ((b1 =? 133) || (b1 =? 160))) with false by lia; [done|].
    by repeat match goal with |- context [b =? ?c] => replace (b =? c) with false by lia end. }
  rewrite IH, reverse_cons, <- app_assoc. done.
Qed.
Lemma split_whitespace_space n cur s :
  split_whitespace_fuel (S n) cur (32 :: s) = emit cur (split_whitespace_fuel n [] s).
Proof. done. Qed.
Lemma split_whitespace_parts m t v :
  m ≠ [] → t ≠ [] → v ≠ [] → Forall (λ b, 32 < b < 128) (m ++ t ++ v) →
  split_whitespace (m ++ 32 :: t ++ 32 :: v) = [m; t; v].
Proof.
  rewrite !Forall_app. intros Hm Ht Hv (Fm & Ft & Fv). unfold split_whitespace.
  replace (S (length (m ++ 32 :: t ++ 32 :: v)))
    with (length m + S (length t + S (length v + 1)))%nat by (rewrite !length_app; cbn; rewrite length_app; cbn; lia).
  assert (∀ w, w ≠ [] → ∀ rest, emit (reverse w ++ []) rest = w :: rest) as Hemit.
  { intros w Hw rest. unfold emit. rewrite app_nil_r. destruct (decide (reverse w = [])) as [E|_].
    - exfalso. apply Hw. by apply (f_equal reverse) in E; rewrite reverse_involutive in E.
    - by rewrite reverse_involutive. }
  rewrite split_whitespace_word, split_whitespace_space, Hemit by done.
  rewrite split_whitespace_word, split_whitespace_space, Hemit by done.
  rewrite <- (app_nil_r v) at 2. rewrite split_whitespace_word by done. cbn [split_whitespace_fuel].
  by rewrite Hemit.
Qed.

Lemma rewrite_line rl fields m path' q v raw :
  13 ∉ rl → rewrite_request_line_target (rl ++ CRLF ++ fields) m path' q v = Ok raw →
  raw = (m ++ 32 :: match q with Some (c :: q) => path' ++ 63 :: c :: q | _ => path' end ++ 32 :: v)
        ++ CRLF ++ fields.
Proof.
  intros Hrl. unfold rewrite_request_line_target.
  rewrite (fits_find (Z.of_nat (length rl) + 2) rl fields).
  2: { split_and!; [done|by apply no_crlf_notin|done]. }
  rewrite drop_app_length. intros [= <-].
  set (x := match q with Some (c :: q) => path' ++ 63 :: c :: q | _ => path' end). clearbody x.
  rewrite <- (app_assoc m). cbn [app]. by rewrite <- (app_assoc x).
Qed.

(** ** Errors *)

(** Neither out of fuel nor a panic. *)
Definition no_panic {A} (r : result A HttpError) : Prop :=
  match r with Ok _ => True | Err e => e ≠ OutOfFuel ∧ e ≠ Panicked end.
Lemma no_panic_let {A B} (r : result A HttpError) (k : A → result B HttpError) :
  no_panic r → (∀ a, no_panic (k a)) → no_panic (let? x := r in k x).
Proof. destruct r; cbn; auto. Qed.
Lemma no_panic_ok_or {A} (o : option A) e : e ≠ OutOfFuel → e ≠ Panicked → no_panic (ok_or o e).
Proof. by destruct o. Qed.
Lemma no_panic_collect {A B} (f : A → result B HttpError) l :
  (∀ x, no_panic (f x)) → no_panic (try_collect f l).
Proof.
  intros Hf. induction l as [|x l IH]; cbn; [done|]. specialize (Hf x).
  destruct (f x); [|done]. by destruct (try_collect f l).
Qed.
Ltac no_panic := repeat first
  [ done
  | apply no_panic_let; [|intros ?]
  | apply no_panic_ok_or; [done|done]
  | apply no_panic_collect; intros ?; cbn zeta
  | case_match ].

Lemma no_panic_block head : no_panic (validate_http_request_header_block head).
Proof.
  unfold validate_http_request_header_block, validate_http_request_line, validate_header_line. no_panic.
Qed.
Lemma no_panic_length head : no_panic (parse_body_length head).
Proof.
  unfold parse_body_length. apply no_panic_let; [|intros ?; no_panic].
  generalize (framing [] None). induction (drop 1 (lines head)) as [|l ls IH]; intros f; cbn [framing_of]; [done|].
  apply no_panic_let; [|auto]. unfold framing_step. no_panic.
Qed.
Lemma no_panic_query q : no_panic (parse_query_params q).
Proof.
  unfold parse_query_params. case_match; [done|]. generalize (∅ : gmap bytes (list bytes)).
  induction (split_on 38 q) as [|f fs IH]; intros ps; cbn [parse_pairs]; [done|].
  case_match; [done|]. case_match. unfold decode_query_component.
  apply no_panic_let; [|intros ?; apply no_panic_let; [|auto]]; no_panic.
Qed.

Section parsed.
Context {http_uri : HttpUri} {http_authority : HttpAuthority http_uri}.

Lemma parse_head_no_panic opts buf n : head_end buf = Some n → no_panic (parse_head opts buf).
Proof.
  intros Hn. unfold parse_head. rewrite Hn. cbn [ok_or].
  case_match; [done|]. apply no_panic_let; [apply no_panic_block|intros _].
  apply no_panic_let; [by apply no_panic_ok_or|intros hs].
  destruct (lines hs) as [|rl ls]; [done|]. destruct (split_whitespace rl) as [|m [|t [|v ?]]]; try done.
  case_match; [done|]. apply no_panic_let; [unfold request_host_authority_from_str; no_panic|intros ha].
  case_match; [done|].
  apply no_panic_let; [unfold validate_absolute_form_authority, absolute_form_uri; no_panic|intros _].
  apply no_panic_let; [apply no_panic_length|intros bl].
  apply no_panic_let; [by destruct (canonicalize_request_target t opts)|intros [c q]].
  apply no_panic_let; [destruct q; cbn; [apply no_panic_query|done]|intros qs].
  unfold rewrite_request_line_target. no_panic.
Qed.

(** The line with which a request is forwarded. *)
Definition forwarded_target (c : CanonicalPath) (q : option bytes) (t : bytes) : bytes :=
  if rewritten c then match q with Some (b :: q) => path c ++ 63 :: b :: q | _ => path c end else t.

(** The [Host] fields. *)
Definition HOST : bytes := lit "host".
Lemma host_values fields :
  omap host_value (fields ++ [[]]) = map trim (field_values HOST fields).
Proof.
  unfold field_values. induction fields as [|l ls IH]; [done|]. cbn [app omap list_omap]. rewrite IH.
  unfold host_value, field_value. fold HOST. destruct (split_once 58 l) as [[n v]|]; [|done].
  by destruct (eq_ignore_ascii_case n HOST).
Qed.
Lemma host_authority_ok head rl fields ha :
  lines head = rl :: fields ++ [[]] → request_host_authority_from_str head = Ok ha →
  (length (field_values HOST fields) ≤ 1)%nat ∧
  (is_some ha = true → length (field_values HOST fields) = 1%nat).
Proof.
  intros Hl. unfold request_host_authority_from_str. rewrite Hl.
  change (drop 1 (rl :: fields ++ [[]])) with (fields ++ [[]] : list bytes). rewrite host_values.
  destruct (field_values HOST fields) as [|h [|h' hs]]; cbn [map length];
    [intros [= <-]; split; [lia|done]|intros _; split; [lia|done]|done].
Qed.
Lemma framing_of_empty f fields : framing_of f (fields ++ [[]]) = framing_of f fields.
Proof.
  revert f. induction fields as [|l ls IH]; intros f; [done|]. cbn [app framing_of].
  destruct (framing_step f l); [|done]. cbn. apply IH.
Qed.

(** A request read from a head of visible ASCII in its target: the parts that
    are judged are the parts that are forwarded. *)
Definition judged_as_forwarded (opts : CanonicalizeOptions) (req : L7Request) (m t v : bytes)
  (fields : list bytes) : Prop :=
  rq_action req = m ∧ (v = lit "HTTP/1.1" → length (field_values HOST fields) = 1%nat) ∧
  ∃ c q, canonicalize_request_target t opts = Ok (c, q) ∧ rq_target req = path c ∧
    from_option parse_query_params (Ok ∅) q = Ok (rq_query_params req) ∧
    Head (raw_header req) (m ++ 32 :: forwarded_target c q t ++ 32 :: v) fields [].

Lemma canonical_no_cr t opts c q :
  canonicalize_request_target t opts = Ok (c, q) → 13 ∉ t →
  13 ∉ forwarded_target c q t.
Proof.
  intros Hc Ht. unfold forwarded_target. destruct (rewritten c); [|done].
  assert (13 ∉ path c) as Hp.
  { intros Hin. apply canonicalize_ok in Hc as (segs & Hs & Hpath). rewrite Hpath in Hin.
    pose proof (join_chars _ _ Hs) as Hj.
    eapply list.Forall_forall in Hin; [|exact Hj]. apply path_char_range in Hin. lia. }
  destruct q as [[|b q]|]; [done| |done]. rewrite not_elem_of_app. split; [done|].
  intros Hin. apply Ht. unfold canonicalize_request_target in Hc. destruct (reject_bytes t); [done|].
  destruct (contains_byte 35 t); [done|]. destruct (split_target t) as [pp qp] eqn:E.
  apply let_Ok in Hc as (p & _ & Hk). injection Hk as _ ->.
  apply elem_of_cons in Hin as [Hin|Hin]; [done|].
  unfold split_target in E. destruct (split_once 63 t) as [[x y]|] eqn:Es; [|done].
  injection E as _ ->. apply split_once_Some in Es as [-> _]. apply elem_of_app. right. apply elem_of_cons. by right.
Qed.

Lemma parse_head_ok opts buf req :
  head_end buf = Some (length buf) → parse_head opts buf = Ok req →
  ∃ rl fields m t v, Head buf rl fields [] ∧ request_parts rl m t v ∧ Forall field_line fields ∧
    framed fields (body_length req) ∧ (length (field_values HOST fields) ≤ 1)%nat ∧
    (Forall (λ b, b < 128) t → judged_as_forwarded opts req m t v fields).
Proof.
  intros Hend. unfold parse_head. rewrite Hend. cbn [ok_or]. rewrite take_ge by done.
  destruct (bare_lf None buf); [done|]. intros ([] & Hblock & H)%let_Ok.
  destruct (header_block_ok _ Hblock) as (Hu & rl & fields & m & t & v & -> & Hp & Hf).
  unfold from_utf8 in H. rewrite Hu in H. cbn [ok_or] in H.
  pose proof (header_block_lines rl fields m t v Hp Hf) as Hl. rewrite Hl in H.
  pose proof (header_block_head _ rl fields m t v eq_refl Hp Hf) as Hh.
  exists rl, fields, m, t, v. split; [done|split; [done|split; [done|]]].
  destruct (split_whitespace rl) as [|m' [|t' [|v' rest]]] eqn:Hw; try done.
  destruct (negb _) eqn:Hver; [done|]. apply let_Ok in H as (ha & Hha & H).
  destruct (host_authority_ok _ _ _ _ Hl Hha) as [Hone Hhost].
  destruct (bool_decide (v' = lit "HTTP/1.1") && negb (is_some ha)) eqn:Hmiss; [done|].
  apply let_Ok in H as (_ & _ & H). apply let_Ok in H as (bl & Hbl & H).
  apply let_Ok in H as ([c q] & Hc & H). apply let_Ok in H as (qs & Hqs & H).
  apply let_Ok in H as (raw & Hraw & H). injection H as <-. cbn [body_length].
  split_and!; [|done|].
  { apply parse_body_length_framed. unfold parse_body_length in Hbl. rewrite Hl in Hbl. change (drop 1 (rl :: fields ++ [[]])) with (fields ++ [[]] : list bytes) in Hbl.
    by rewrite framing_of_empty in Hbl. }
  intros Hascii. pose proof Hp as [El [Hm Fm] [Ht Ft] Hv].
  rewrite El, split_whitespace_parts in Hw.
  - injection Hw as <- <- <- _. split_and!; [done| |].
    + intros ->. rewrite bool_decide_true in Hmiss by done. cbn in Hmiss. apply Hhost. by destruct (is_some ha).
    + exists c, q. destruct (canonicalize_request_target t opts) as [[c0 q0]|e] eqn:Ec; [|done].
      injection Hc as -> ->. split_and!; [done|done|done|]. cbn [raw_header].
      pose proof (proj2 (request_parts_break _ _ _ _ Hp)) as Hcr.
      assert (raw = (m ++ 32 :: forwarded_target c q t ++ 32 :: v) ++ CRLF ++ lines_text fields ++ CRLF) as ->.
      { unfold forwarded_target. destruct (rewritten c); [|injection Hraw as <-; by rewrite (head_text _ _ _ _ Hh), El, app_nil_r].
        assert (lines_text (rl :: fields) ++ CRLF = rl ++ CRLF ++ lines_text fields ++ CRLF) as E
          by (unfold lines_text; cbn [map concat]; by rewrite <- !app_assoc).
        rewrite E in Hraw. by apply rewrite_line in Hraw. }
      split; [by rewrite app_nil_r| |apply Hh].
      apply no_crlf_notin. rewrite El in Hcr.
      rewrite not_elem_of_app, not_elem_of_cons, not_elem_of_app, not_elem_of_cons in Hcr |- *.
      destruct Hcr as (? & ? & ? & ? & ?). split_and!; try done. by eapply canonical_no_cr.
  - done.
  - done.
  - by destruct Hv as [-> | ->].
  - rewrite !Forall_app. split_and!.
    + eapply list.Forall_impl; [exact Fm|]. intros b ?%name_byte_range. lia.
    + apply list.Forall_forall. intros b Hb. rewrite list.Forall_forall in Hascii, Ft.
      specialize (Hascii b Hb). specialize (Ft b Hb). cbn in *. lia.
    + destruct Hv as [-> | ->]; repeat constructor; done.
Qed.

(** What reading a request takes from the client. *)
Lemma parse_http_request_ok opts client req rest :
  parse_http_request opts client = Ok (Some (req, rest)) →
  ∃ head, stream client = head ++ stream rest ∧ Z.of_nat (length head) ≤ MAX_HEADER_BYTES + 1 ∧
    head_end head = Some (length head) ∧ parse_head opts head = Ok req.
Proof.
  unfold parse_http_request.
  pose proof (read_head_spec (S (length (stream client))) [] client ltac:(lia) eq_refl ltac:(done)) as H.
  destruct (read_head _ [] client) as [[[buf rest']|]|e]; [|done|done]. cbn [app].
  destruct H as (d & block & Hd & Hs & Hb & Hlen & Hno). cbn in Hd. subst d.
  intros (parsed & Hp & E)%let_Ok. injection E as <- <-. exists buf.
  split_and!; [done|done|by eapply read_head_end|done].
Qed.

(** ** Properties *)

(** C17: reading a request takes exactly one head from the client, up to its
    first empty line, and leaves the rest; an accepted head has one reading, a
    request line and fields without control bytes, with at most one [Host] and
    one framing, as the proxy reads its values. When the target is ASCII, the method, canonical path and query that are judged are those of the
    head that is forwarded, which has the same fields. Reading never runs out of
    fuel and never panics. *)
Theorem parsed_request_is_the_forwarded_one opts client :
  match parse_http_request opts client with
  | Ok None => stream client = []
  | Ok (Some (req, rest)) => ∃ head rl fields m t v,
      stream client = head ++ stream rest ∧ Z.of_nat (length head) ≤ MAX_HEADER_BYTES + 1 ∧
      Head head rl fields [] ∧ (∀ rl' fields' body', Head head rl' fields' body' → rl' = rl ∧ fields' = fields) ∧
      request_parts rl m t v ∧ Forall field_line fields ∧
      framed fields (body_length req) ∧ (length (field_values HOST fields) ≤ 1)%nat ∧
      (Forall (λ b, b < 128) t → judged_as_forwarded opts req m t v fields)
  | Err e => e ≠ OutOfFuel ∧ e ≠ Panicked
  end.
Proof.
  pose proof (read_head_spec (S (length (stream client))) [] client ltac:(lia) eq_refl ltac:(done)) as H.
  destruct (parse_http_request opts client) as [[[req rest]|]|e] eqn:E.
  - apply parse_http_request_ok in E as (head & Hs & Hlen & Hend & Hp).
    destruct (parse_head_ok _ _ _ Hend Hp) as (rl & fields & m & t & v & Hok).
    exists head, rl, fields, m, t, v.
    assert (∀ rl' fields' body', Head head rl' fields' body' → rl' = rl ∧ fields' = fields) as Hu.
    { intros rl' fields' body' H'. destruct Hok as (Hh & _).
      by destruct (Head_inj _ _ _ _ _ _ _ H' Hh) as (-> & -> & _). }
    naive_solver.
  - unfold parse_http_request in E. destruct (read_head _ [] client) as [[[buf rest]|]|e]; [|by destruct H|done].
    by apply let_Ok in E as (? & _ & ?).
  - unfold parse_http_request in E. destruct (read_head _ [] client) as [[[buf rest]|]|e']; [|done|by injection E as <-].
    destruct H as (d & block & _ & _ & Hb & _ & Hno).
    pose proof (parse_head_no_panic opts buf _ (read_head_end _ _ Hb Hno)) as Hnp.
    cbn in E. destruct (parse_head opts buf); [done|]. by injection E as <-.
Qed.
End parsed.
