(* ===== verification/HttpForward.v ===== *)
(** * HttpForward: from one request of the client to one request upstream
    (crates/openshell-supervisor-network/src/l7/rest.rs)

    Reading a head and relaying its body take one request from the client's
    stream and write one head and one body upstream; what follows is left for
    the next request, which is judged on its own. *)

From stdpp Require Import gmap.
From S2P Require Import Prelude PathCanon IpParse Order Text Destination Secrets SecretsHeaders SecretsBody SecretsBodyFacts Http HttpEdit HttpBody ChunkedFacts ChunkedBuffers ChunkedScan HttpFacts.
Import IpParse.

(** ** Bodies by their framing *)

Definition body_framed (len : BodyLength) (body : bytes) : Prop :=
  match len with
  | ContentLength n => length body = Z.to_nat n
  | Chunked => ∃ data ts, Coding MAX_CHUNK_LINE_BYTES data ts body
  | NoBody => body = []
  end.


(** The bytes some body of this framing starts with. *)
Definition body_started (len : BodyLength) (body : bytes) : Prop := ∃ more, body_framed len (body ++ more).
Lemma body_started_nil len : body_started len [].
Proof.
  destruct len as [n| |]; cbn.
  - exists (replicate (Z.to_nat n) 0). cbn. by rewrite length_replicate.
  - exists (lit "0" ++ CRLF ++ CRLF), [], []. by apply Coding_end.
  - by exists [].
Qed.




Section forward.
Context {http_uri : HttpUri} {http_authority : HttpAuthority http_uri}.

(** ** Properties *)

End forward.
