(* ===== verification/HttpEditFacts.v ===== *)
(** * HttpEditFacts: what editing a head keeps
    (crates/openshell-supervisor-network/src/l7/rest.rs)

    Removing and appending fields keep the request line, the form of every field
    and the values of every other field; a request that was buffered is framed
    by the length of its body. *)

From stdpp Require Import gmap.
From S2P Require Import ProviderCredentialsFacts.
From S2P Require Import Prelude PathCanon IpParse Order Text Destination Secrets SecretsHeaders Http HttpEdit HttpBody ChunkedFacts ChunkedBuffers ChunkedScan HttpFacts.
Import IpParse.

(** ** Trimming *)

Definition visible (b : Z) : Prop := 32 < b < 128.

Lemma ws_len_bytes s : Forall (λ b, b ≤ 32 ∨ 128 ≤ b) (take (ws_len s) s).
Proof.
  destruct s as [|b [|b1 [|b2 s]]]; cbn [ws_len]; repeat case_match; cbn; repeat constructor; lia.
Qed.
Lemma ws_len_le s : (ws_len s ≤ length s)%nat.
Proof. destruct s as [|b [|b1 [|b2 s]]]; cbn [ws_len]; repeat case_match; cbn; lia. Qed.
Lemma ws_len_visible b s : visible b → ws_len (b :: s) = 0%nat.
Proof.
  intros Hb. pose proof (ws_len_bytes (b :: s)) as H. destruct (ws_len (b :: s)) as [|n]; [done|].
  cbn in H. apply Forall_cons_1 in H as [H _]. unfold visible in Hb. lia.
Qed.
Lemma trim_start_visible b s : visible b → trim_start (b :: s) = b :: s.
Proof. intros Hb. unfold trim_start. cbn [length trim_start_fuel]. by rewrite ws_len_visible. Qed.

Lemma ws_len_end_visible p c r : visible c → (ws_len_end (p ++ c :: r) ≤ length r)%nat.
Proof.
  intros Hc. set (s := p ++ c :: r).
  assert (∀ n, ws_len (drop (length s - n) s) = n → (n ≤ length s)%nat → (n ≤ length r)%nat) as H.
  { intros n Hn Hle. destruct (Nat.le_gt_cases n (length r)) as [|Hgt]; [done|exfalso].
    pose proof (ws_len_bytes (drop (length s - n) s)) as Hb. rewrite Hn in Hb.
    rewrite take_ge in Hb by (rewrite length_drop; lia). unfold s in Hb, Hle, Hn.
    rewrite length_app in Hb, Hle. cbn [length] in Hb, Hle. rewrite drop_app_le in Hb by lia.
    apply Forall_app in Hb as [_ Hb]. apply Forall_cons_1 in Hb as [Hb _]. unfold visible in Hc. lia. }
  assert (length s = length p + S (length r))%nat as Hs by (unfold s; by rewrite length_app).
  unfold ws_len_end. fold s. cbn zeta.
  destruct (Nat.eqb_spec (ws_len (drop (length s - 1) s)) 1); [apply H; [done|lia]|].
  destruct (Nat.eqb_spec (ws_len (drop (length s - 2) s)) 2) as [E|].
  { apply H; [done|]. destruct (Nat.le_gt_cases 2 (length s)); [done|exfalso].
    pose proof (ws_len_le (drop (length s - 2) s)) as Hl. rewrite E, length_drop in Hl. lia. }
  destruct (Nat.eqb_spec (ws_len (drop (length s - 3) s)) 3) as [E|]; [|lia].
  apply H; [done|]. destruct (Nat.le_gt_cases 3 (length s)); [done|exfalso].
  pose proof (ws_len_le (drop (length s - 3) s)) as Hl. rewrite E, length_drop in Hl. lia.
Qed.
Lemma trim_end_visible fuel p c r : visible c →
  ∃ r', trim_end_fuel fuel (p ++ c :: r) = p ++ c :: r' ∧ (length r' ≤ length r)%nat.
Proof.
  intros Hc. revert r. induction fuel as [|fuel IH]; intros r; cbn [trim_end_fuel]; [by exists r|].
  pose proof (ws_len_end_visible p c r Hc) as Hle. destruct (ws_len_end (p ++ c :: r)) as [|n]; [by exists r|].
  assert (take (length (p ++ c :: r) - S n) (p ++ c :: r) = p ++ c :: take (length r - S n) r) as ->.
  { rewrite length_app. cbn [length]. rewrite take_app_ge by lia. f_equal.
    replace (length p + S (length r) - S n - length p)%nat with (S (length r - S n)) by lia. done. }
  destruct (IH (take (length r - S n) r)) as (r' & -> & Hr). exists r'. split; [done|].
  rewrite length_take in Hr. lia.
Qed.

(** A token is its own trim, and so is what ends in a visible byte. *)
Lemma trim_ends b s p c : b :: s = p ++ [c] → visible b → visible c → trim (b :: s) = b :: s.
Proof.
  intros E Hb Hc. unfold trim. rewrite trim_start_visible by done. unfold trim_end.
  rewrite E at 2. destruct (trim_end_visible (length (b :: s)) p c [] Hc) as (r' & -> & Hr).
  destruct r'; [done|cbn in Hr; lia].
Qed.
Lemma trim_token n : n ≠ [] → Forall (λ b, is_http_field_name_byte b = true) n → trim n = n.
Proof.
  intros Hne Hf. destruct n as [|b n]; [done|].
  destruct (exists_last (l := b :: n)) as (p & c & E); [done|].
  assert (∀ x, x ∈ b :: n → visible x) as Hv.
  { intros x Hx. eapply list.Forall_forall in Hx; [|exact Hf]. apply name_byte_range in Hx. unfold visible. lia. }
  apply (trim_ends b n p c E); apply Hv; [left|]. rewrite E. apply elem_of_app. right. left.
Qed.

(** ** Text *)

Lemma valid_app a b s : b < 128 → utf8_valid (a ++ b :: s) = utf8_valid a && utf8_valid s.
Proof.
  intros Hb. induction a as [|a Ha IH] using utf8_ind.
  - cbn [app]. rewrite valid_step by done. cbn [utf8_chunk].
    destruct (Z.ltb_spec b 128); [done|lia].
  - rewrite valid_step by (by destruct a). rewrite (valid_step a) by done. rewrite utf8_chunk_app by done.
    pose proof (utf8_chunk_len a Ha). rewrite drop_app_le by lia. by rewrite IH, andb_assoc.
Qed.
Lemma valid_lines ls : utf8_valid (lines_text ls ++ CRLF) = forallb utf8_valid ls.
Proof.
  induction ls as [|l ls IH]; [done|]. unfold lines_text in *. cbn [map concat forallb].
  rewrite <- !app_assoc. change (CRLF ++ ?x) with (13 :: 10 :: x). rewrite valid_app by done.
  change (10 :: ?x) with ([] ++ 10 :: x). rewrite valid_app by done. by rewrite IH.
Qed.

(** ** Heads that are edited *)

(** A request line whose target starts with a visible byte other than a colon. *)
Definition good_line (rl : bytes) : Prop :=
  ∃ m c t v, request_parts rl m (c :: t) v ∧ visible c ∧ c ≠ 58.
(** Lines that are Unicode text. *)
Definition text (l : bytes) : Prop := utf8_valid l = true.
Record good_head (s rl : bytes) (fields : list bytes) : Prop := {
  good_text : s = lines_text (rl :: fields) ++ CRLF;
  good_request : good_line rl;
  good_fields : Forall field_line fields;
  good_utf8 : text rl ∧ Forall text fields;
}.
Definition token (n : bytes) : Prop := n ≠ [] ∧ Forall (λ b, is_http_field_name_byte b = true) n.

Lemma eq_ignore_case_tokens n n' :
  eq_ignore_ascii_case n n' = true → 32 ∈ n → 32 ∈ n'.
Proof.
  intros H%eq_ignore_case_true Hin. assert (32 ∈ to_ascii_lowercase n) as Hl.
  { unfold to_ascii_lowercase. apply list_elem_of_fmap. by exists 32. }
  rewrite H in Hl. unfold to_ascii_lowercase in Hl. apply list_elem_of_fmap in Hl as (x & Hx & Hxin).
  unfold ascii_lower in Hx. case_match; [lia|]. by subst x.
Qed.

(** The request line is no field with a token for its name. *)
Lemma named_request_line rl n : good_line rl → token n → named n rl = false.
Proof.
  intros (m & c & t & v & [-> [Hm Fm] _ _] & Hc & Hc58) [_ Fn]. unfold named.
  destruct (split_once 58 _) as [[x y]|] eqn:E; [|done]. apply split_once_Some in E as [E Hx].
  assert (∃ z, x = (m ++ [32]) ++ c :: z) as [z ->].
  { assert (58 ∉ m) as Hm58.
    { intros Hin. eapply list.Forall_forall in Hin; [|exact Fm]. apply name_byte_range in Hin. lia. }
    exists (drop (length m + 2) x).
    assert (length m + 2 ≤ length x)%nat as Hlen.
    { destruct (Nat.le_gt_cases (length m + 2) (length x)) as [|Hgt]; [done|exfalso].
      assert ((m ++ 32 :: (c :: t) ++ 32 :: v) !! length x = Some 58) as Hl
        by (rewrite E; by rewrite list_lookup_middle).
      destruct (decide (length x < length m)%nat) as [Hlt|Hge].
      - rewrite lookup_app_l in Hl by done. apply Hm58. by apply list_elem_of_lookup; eexists.
      - rewrite lookup_app_r in Hl by lia. destruct (length x - length m)%nat as [|[|k]] eqn:Ek; cbn in Hl; [done| |lia].
        injection Hl as Hl. done. }
    rewrite <- (take_drop (length m + 2) x) at 1.
    assert (take (length m + 2) x = m ++ [32; c]) as ->; [|by rewrite <- !app_assoc].
    apply (f_equal (take (length m + 2))) in E. rewrite (take_app_le x) in E by done. rewrite <- E.
    rewrite take_app_ge by lia. f_equal. replace (length m + 2 - length m)%nat with 2%nat by lia. done. }
  destruct m as [|b m]; [done|].
  assert (visible b) as Hb.
  { apply Forall_cons_1 in Fm as [Fb _]. apply name_byte_range in Fb. unfold visible. lia. }
  assert (trim (((b :: m) ++ [32]) ++ c :: z) = trim_end (((b :: m) ++ [32]) ++ c :: z)) as ->
    by (unfold trim; cbn [app]; by rewrite trim_start_visible).
  unfold trim_end. destruct (trim_end_visible (length (((b :: m) ++ [32]) ++ c :: z)) ((b :: m) ++ [32]) c z Hc)
    as (r' & -> & _).
  apply not_true_iff_false. intros Heq. apply eq_ignore_case_tokens in Heq.
  - eapply list.Forall_forall in Heq; [|exact Fn]. by apply name_byte_range in Heq as [? _]; lia.
  - rewrite !elem_of_app. left. right. left.
Qed.

Lemma field_split line :
  field_line line → ∃ name value, line = name ++ 58 :: value ∧ split_once 58 line = Some (name, value) ∧ token name.
Proof.
  intros (name & value & -> & Hne & Fn & Fv). exists name, value. split_and!; [done| |done].
  apply split_once_app. intros Hin. eapply list.Forall_forall in Hin; [|exact Fn]. apply name_byte_range in Hin. lia.
Qed.
Lemma named_field n line : field_line line → named n line = is_some (field_value n line).
Proof.
  intros (name & value & -> & Hs & [Hne Fn])%field_split. unfold named, field_value. rewrite Hs.
  rewrite trim_token by done. by destruct (eq_ignore_ascii_case name n).
Qed.

Lemma good_lines s rl fields :
  good_head s rl fields → Forall (λ h, h ≠ [] ∧ no_crlf h = true) (rl :: fields).
Proof.
  intros [_ (m & c & t & v & Hp & _) Hf _]. constructor.
  - split; [|by apply no_crlf_notin; eapply request_parts_break].
    destruct Hp as [-> [? _] _ _]. by destruct m.
  - eapply list.Forall_impl; [exact Hf|]. intros l (? & _ & ?)%field_line_break. split; [done|]. by apply no_crlf_notin.
Qed.
Lemma good_head_Head s rl fields : good_head s rl fields → Head s rl fields [].
Proof. intros [-> (m & c & t & v & Hp & _) Hf _]. by eapply header_block_head. Qed.
Lemma good_split s rl fields : good_head s rl fields → split_str CRLF s = rl :: fields ++ [[]; []].
Proof. intros H. pose proof (good_lines _ _ _ H) as Hl. destruct H as [-> _ _ _]. by rewrite split_lines. Qed.
Lemma good_valid s rl fields : good_head s rl fields → from_utf8 s = Some s.
Proof.
  intros [-> _ _ [Hr Hf]]. unfold from_utf8. rewrite valid_lines. cbn [forallb]. rewrite Hr.
  by rewrite (proj2 (forallb_Forall _ _) Hf).
Qed.

(** The fields that are not named [n]. *)
Definition without (n : bytes) (fields : list bytes) : list bytes :=
  List.filter (λ l, negb (named n l)) fields.
Lemma strip_fields n fields :
  Forall field_line fields → strip_lines n (fields ++ [[]; []]) = lines_text (without n fields) ++ CRLF.
Proof.
  induction 1 as [|l ls Hl Hls IH]; [done|]. cbn [app strip_lines without List.filter].
  rewrite (proj2 (is_empty_false l)) by (by apply field_line_break in Hl as [? _]).
  destruct (named n l); cbn [negb]; [done|]. rewrite IH. unfold lines_text. cbn [map concat].
  by rewrite <- !app_assoc.
Qed.
Lemma without_Forall (P : bytes → Prop) n fields : Forall P fields → Forall P (without n fields).
Proof.
  intros H. apply list.Forall_forall. intros l Hl. unfold without in Hl.
  apply list_elem_of_In, filter_In in Hl as [Hl _]. apply list_elem_of_In in Hl.
  by eapply list.Forall_forall in H.
Qed.
Lemma strip_header_good s rl fields n :
  good_head s rl fields → token n → ∃ s', strip_header s n = Ok s' ∧ good_head s' rl (without n fields).
Proof.
  intros H Hn. unfold strip_header. rewrite (good_valid _ _ _ H). cbn. eexists. split; [done|].
  rewrite (good_split _ _ _ H). cbn [strip_lines].
  pose proof (good_lines _ _ _ H) as Hl. apply Forall_cons_1 in Hl as [[Hne _] _].
  destruct H as [_ Hrl Hf [Hr Hu]]. rewrite (proj2 (is_empty_false rl)) by done.
  rewrite (named_request_line _ _ Hrl Hn), strip_fields by done.
  split; [|done|by apply without_Forall|split; [done|by apply without_Forall]].
  unfold lines_text. cbn [map concat]. by rewrite <- !app_assoc.
Qed.

(** ** Values of fields *)

Lemma eqic_sym a b : eq_ignore_ascii_case a b = eq_ignore_ascii_case b a.
Proof. unfold eq_ignore_ascii_case. by apply bool_decide_ext. Qed.
Lemma eqic_trans a b c :
  eq_ignore_ascii_case a b = true → eq_ignore_ascii_case a c = eq_ignore_ascii_case b c.
Proof. rewrite eq_ignore_case_true. unfold eq_ignore_ascii_case. by intros ->. Qed.

Lemma field_values_app k a b : field_values k (a ++ b) = field_values k a ++ field_values k b.
Proof. apply omap_app. Qed.
Lemma field_values_cons k l ls :
  field_values k (l :: ls) = (if field_value k l is Some v then [v] else []) ++ field_values k ls.
Proof. unfold field_values. cbn. by destruct (field_value k l). Qed.

(** A field that is removed takes its values along, and no others. *)
Lemma field_values_without k n fields :
  Forall field_line fields →
  field_values k (without n fields) = if eq_ignore_ascii_case k n then [] else field_values k fields.
Proof.
  induction 1 as [|l ls Hl Hls IH]; [by destruct (eq_ignore_ascii_case k n)|]. cbn [without List.filter].
  rewrite (named_field n l Hl). destruct (field_split _ Hl) as (name & value & -> & Hs & Ht).
  rewrite field_values_cons. unfold field_value at 1 2. rewrite Hs. fold (without n ls).
  destruct (eq_ignore_ascii_case name n) eqn:En; cbn [is_some negb].
  - rewrite IH, (eqic_trans _ _ k En), (eqic_sym n k). by destruct (eq_ignore_ascii_case k n).
  - rewrite field_values_cons, IH. unfold field_value. rewrite Hs.
    destruct (eq_ignore_ascii_case k n) eqn:Ek; [|done].
    destruct (eq_ignore_ascii_case name k) eqn:Ekn; [|done]. by rewrite (eqic_trans _ _ n Ekn), Ek in En.
Qed.
Lemma field_value_name k name value :
  token name → field_value k (name ++ 58 :: value) = if eq_ignore_ascii_case name k then Some value else None.
Proof.
  intros [_ Fn]. unfold field_value. rewrite split_once_app; [done|].
  intros Hin. eapply list.Forall_forall in Hin; [|exact Fn]. apply name_byte_range in Hin. lia.
Qed.

Definition header_field (name value : bytes) : bytes := name ++ 58 :: 32 :: value.
Lemma header_field_line name value :
  token name → Forall (λ b, is_http_field_value_byte b = true) value → field_line (header_field name value).
Proof. intros [??] ?. exists name, (32 :: value). split_and!; try done. by constructor. Qed.

(** The last CRLF of the lines of a head starts its end. *)
Lemma lines_text_end rl fields :
  take (length rl + length (lines_text fields)) (lines_text (rl :: fields)) ++ CRLF = lines_text (rl :: fields).
Proof.
  assert (∃ x, lines_text (rl :: fields) = x ++ CRLF ∧ length x = (length rl + length (lines_text fields))%nat)
    as (x & -> & <-); [|by rewrite take_app_length].
  revert rl. induction fields as [|f fs IH]; intros rl.
  - exists rl. cbn. rewrite app_nil_r. split; [done|lia].
  - destruct (IH f) as (x & Ex & Lx). exists ((rl ++ CRLF) ++ x).
    change (lines_text (rl :: f :: fs)) with ((rl ++ CRLF) ++ lines_text (f :: fs)). rewrite Ex, app_assoc.
    split; [done|]. change (lines_text (f :: fs)) with ((f ++ CRLF) ++ lines_text fs) in Ex.
    rewrite !length_app, Lx. cbn. lia.
Qed.
Lemma header_field_text name value : token name → text value → text (header_field name value).
Proof.
  intros [_ Fn] Hv. unfold text, header_field. rewrite valid_app by done.
  rewrite ascii_valid by (eapply list.Forall_impl; [exact Fn|]; intros b ?%name_byte_range; lia).
  change (32 :: value) with ([] ++ 32 :: value). by rewrite valid_app.
Qed.
Lemma append_header_good s rl fields name value :
  good_head s rl fields → token name → Forall (λ b, is_http_field_value_byte b = true) value → text value →
  good_head (append_header s name value) rl (fields ++ [header_field name value]).
Proof.
  intros H Hn Hv Ht'. pose proof (good_head_Head _ _ _ H) as [Hs Hrl Hf]. unfold append_header.
  assert (find_sub DOUBLE_CRLF s = Some (length rl + length (lines_text fields))%nat) as ->.
  { rewrite Hs. by apply find_head_end. }
  cbn [default from_option]. unfold id. destruct H as [Ht Hg Hff [Hr Hu]]. split; [|done| |].
  - rewrite (app_assoc (take _ s) CRLF). rewrite Ht, take_app_le.
    2: { change (lines_text (rl :: fields)) with ((rl ++ CRLF) ++ lines_text fields). rewrite !length_app. lia. }
    rewrite lines_text_end. unfold lines_text, DOUBLE_CRLF, header_field.
    rewrite (app_comm_cons fields), map_app, concat_app, <- app_assoc. f_equal. cbn. by rewrite <- !app_assoc.
  - apply Forall_app. split; [done|]. constructor; [by apply header_field_line|done].
  - split; [done|]. apply Forall_app. split; [done|]. constructor; [by apply header_field_text|done].
Qed.

Lemma has_header_good s rl fields n :
  good_head s rl fields → has_header s n = Ok (existsb (named n) fields).
Proof.
  intros H. unfold has_header. rewrite (good_valid _ _ _ H). cbn [ok_or].
  destruct H as [-> (m & c & t & v & Hp & _) Hf _].
  rewrite (header_block_lines rl fields m (c :: t) v Hp Hf).
  change (drop 1 (rl :: fields ++ [[]])) with (fields ++ [[]] : list bytes).
  rewrite existsb_app. cbn. by rewrite orb_false_r.
Qed.

(** ** The length of a body *)

Definition length_field (len : Z) : bytes := header_field (lit "Content-Length") (show_uint len).
Fixpoint set_fields (len : Z) (inserted : bool) (fields : list bytes) : list bytes :=
  match fields with
  | [] => if inserted then [] else [length_field len]
  | l :: ls =>
      if named CL l then (if inserted then [] else [length_field len]) ++ set_fields len true ls
      else l :: set_fields len inserted ls
  end.
Lemma set_length_fields len inserted fields :
  Forall field_line fields →
  set_length_lines len inserted (fields ++ [[]; []]) = lines_text (set_fields len inserted fields) ++ CRLF.
Proof.
  assert (∀ ls, content_length_line len ++ lines_text ls = lines_text (length_field len :: ls)) as Hcl.
  { intros ls. unfold lines_text, content_length_line, length_field, header_field. cbn [map concat].
    by rewrite <- !app_assoc. }
  intros H. revert inserted. induction H as [|l ls Hl Hls IH]; intros inserted.
  - destruct inserted; [done|]. cbn [app set_length_lines is_empty set_fields]. by rewrite <- Hcl, app_nil_r.
  - cbn [app set_length_lines set_fields]. rewrite (proj2 (is_empty_false l)) by (by apply field_line_break in Hl as [? _]).
    fold CL. destruct (named CL l).
    + rewrite IH. destruct inserted; [done|]. by rewrite app_assoc, Hcl.
    + rewrite IH. unfold lines_text. cbn [map concat]. by rewrite <- !app_assoc.
Qed.

Lemma cl_token : token (lit "Content-Length").
Proof. split; [done|]. apply forallb_Forall. vm_compute. reflexivity. Qed.
Lemma show_uint_visible n : 0 ≤ n → Forall (λ b, 48 ≤ b ≤ 57) (show_uint n).
Proof.
  intros Hn. apply list.Forall_forall. intros b Hb. pose proof (show_uint_digits n Hn) as Hd.
  rewrite forallb_elem in Hd. specialize (Hd b Hb). unfold is_ascii_digit in Hd. lia.
Qed.
Lemma trim_space n : 0 ≤ n → trim (32 :: show_uint n) = show_uint n.
Proof.
  intros Hn. pose proof (show_uint_visible n Hn) as Hf. pose proof (show_uint_nonempty n Hn) as Hne.
  destruct (show_uint n) as [|b s] eqn:E; [done|].
  assert (∀ x, x ∈ b :: s → visible x) as Hv.
  { intros x Hx. eapply list.Forall_forall in Hx; [|exact Hf]. cbn in Hx. unfold visible. lia. }
  destruct (exists_last (l := b :: s)) as (p & c & Es); [done|].
  assert (trim_start (32 :: b :: s) = b :: s) as Hs.
  { unfold trim_start. cbn [length trim_start_fuel]. change (ws_len (32 :: b :: s)) with 1%nat. cbn [drop].
    change (drop 1 (32 :: b :: s)) with (b :: s). cbn [trim_start_fuel]. by rewrite ws_len_visible by (apply Hv; left). }
  unfold trim. rewrite Hs. rewrite <- (trim_start_visible b s) at 1 by (apply Hv; left). fold (trim (b :: s)).
  apply (trim_ends b s p c Es); apply Hv; [left|]. rewrite Es. apply elem_of_app. right. left.
Qed.

Lemma length_field_line len : 0 ≤ len → field_line (length_field len).
Proof.
  intros Hl. apply header_field_line; [apply cl_token|]. eapply list.Forall_impl; [by apply show_uint_visible|].
  intros b Hb. unfold is_http_field_value_byte. cbn in Hb. lia.
Qed.
Lemma length_field_text len : 0 ≤ len → text (length_field len).
Proof.
  intros Hl. apply header_field_text; [apply cl_token|]. apply ascii_valid.
  eapply list.Forall_impl; [by apply show_uint_visible|]. cbn. lia.
Qed.
Lemma set_fields_Forall (P : bytes → Prop) len inserted fields :
  P (length_field len) → Forall P fields → Forall P (set_fields len inserted fields).
Proof.
  intros Hl Hf. revert inserted. induction Hf as [|l ls Hll Hls IH]; intros inserted; cbn [set_fields].
  - destruct inserted; by repeat constructor.
  - destruct (named CL l); [|by constructor; [|apply IH]].
    destruct inserted; cbn [app]; [apply IH|by constructor; [|apply IH]].
Qed.
Lemma length_field_value k len :
  field_value k (length_field len) = if eq_ignore_ascii_case CL k then Some (32 :: show_uint len) else None.
Proof.
  unfold length_field, header_field. rewrite field_value_name by apply cl_token.
  by rewrite (eqic_trans (lit "Content-Length") CL k) by (vm_compute; reflexivity).
Qed.
Lemma field_values_set k len inserted fields :
  Forall field_line fields →
  field_values k (set_fields len inserted fields) =
    if eq_ignore_ascii_case CL k then (if inserted then [] else [32 :: show_uint len]) else field_values k fields.
Proof.
  intros Hf. revert inserted. induction Hf as [|l ls Hl Hls IH]; intros inserted; cbn [set_fields].
  - destruct inserted; cbn [field_values omap list_omap]; [by destruct (eq_ignore_ascii_case CL k)|].
    unfold field_values. cbn [omap list_omap]. rewrite length_field_value. by destruct (eq_ignore_ascii_case CL k).
  - rewrite (named_field CL l Hl). destruct (field_split _ Hl) as (name & value & -> & Hs & Ht).
    assert (∀ k, field_value k (name ++ 58 :: value) = if eq_ignore_ascii_case name k then Some value else None) as Hv
      by (intros k'; by apply field_value_name).
    rewrite (Hv CL). destruct (eq_ignore_ascii_case name CL) eqn:En; cbn [is_some].
    + rewrite (field_values_cons k (name ++ _)), Hv, (eqic_trans _ _ k En).
      destruct inserted; cbn [app]; [rewrite IH; by destruct (eq_ignore_ascii_case CL k)|].
      rewrite field_values_cons, IH, length_field_value. by destruct (eq_ignore_ascii_case CL k).
    + rewrite !field_values_cons, IH, Hv. destruct (eq_ignore_ascii_case CL k) eqn:Ek; [|done].
      by rewrite (eqic_sym name k), <- (eqic_trans _ _ name Ek), (eqic_sym CL name), En.
Qed.
Lemma set_content_length_good s rl fields len :
  good_head s rl fields → 0 ≤ len →
  ∃ s', set_content_length s len = Ok s' ∧ good_head s' rl (set_fields len false fields).
Proof.
  intros H Hlen. unfold set_content_length. rewrite (good_valid _ _ _ H). cbn [ok_or]. eexists. split; [done|].
  rewrite (good_split _ _ _ H). cbn [set_length_lines].
  pose proof (good_lines _ _ _ H) as Hl. apply Forall_cons_1 in Hl as [[Hne _] _].
  destruct H as [_ Hrl Hf [Hr Hu]]. rewrite (proj2 (is_empty_false rl)) by done. fold CL.
  rewrite (named_request_line _ CL Hrl) by (split; [done|]; apply forallb_Forall; vm_compute; reflexivity).
  rewrite set_length_fields by done.
  split; [|done|by apply set_fields_Forall, Hf; apply length_field_line
         |split; [done|by apply set_fields_Forall, Hu; apply length_field_text]].
  unfold lines_text. cbn [map concat]. by rewrite <- !app_assoc.
Qed.

(** ** Mutations *)

Definition mutated_name (m : option HeaderOperation) : bytes :=
  match m with Some (WriteHeader n _ _) | Some (RemoveHeader n) => n | None => [] end.
(** A mutation that writes a field, or one that removes it. *)
Definition sane_mutation (m : option HeaderOperation) : Prop :=
  match m with
  | Some (WriteHeader n v action) =>
      token n ∧ Forall (λ b, is_http_field_value_byte b = true) v ∧ text v ∧ 1 ≤ action ≤ 3
  | Some (RemoveHeader n) => token n
  | None => False
  end.
(** What a mutation does to the fields. *)
Definition edit_fields (fields : list bytes) (m : option HeaderOperation) : list bytes :=
  match m with
  | Some (WriteHeader n v action) =>
      if negb (existsb (named n) fields) || (action =? 1) then fields ++ [header_field n v]
      else if action =? 2 then without n fields ++ [header_field n v] else fields
  | Some (RemoveHeader n) => without n fields
  | None => fields
  end.

Lemma apply_header_mutation_good s rl fields m :
  good_head s rl fields → sane_mutation m →
  ∃ s', apply_header_mutation s m = Ok s' ∧ good_head s' rl (edit_fields fields m).
Proof.
  intros H. destruct m as [[n v action|n]|]; cbn [sane_mutation]; [|by apply strip_header_good|done].
  intros (Hn & Hv & Ht & Ha). cbn [apply_header_mutation edit_fields].
  replace ((1 <=? action) && (action <=? 3)) with true by lia. cbn [negb].
  rewrite (has_header_good _ _ _ _ H).
  destruct (negb (existsb (named n) fields) || (action =? 1)) eqn:E1.
  - eexists. split; [done|]. by apply append_header_good.
  - destruct (action =? 2); [|by eexists].
    destruct (strip_header_good _ _ _ _ H Hn) as (s1 & -> & H1). eexists. split; [done|].
    by apply append_header_good.
Qed.
Lemma apply_header_mutations_good s rl fields ms :
  good_head s rl fields → Forall sane_mutation ms →
  ∃ s', apply_header_mutations s ms = Ok s' ∧ good_head s' rl (foldl edit_fields fields ms).
Proof.
  intros H Hms. revert s fields H. induction Hms as [|m ms Hm Hms IH]; intros s fields H; [by exists s|].
  cbn [apply_header_mutations foldl].
  destruct (apply_header_mutation_good _ _ _ _ H Hm) as (s1 & -> & H1). by apply IH.
Qed.

Lemma edit_fields_lines fields m : Forall field_line fields → sane_mutation m → Forall field_line (edit_fields fields m).
Proof.
  intros H. destruct m as [[n v action|n]|]; cbn [sane_mutation edit_fields]; [|by intros; apply without_Forall|done].
  intros (Hn & Hv & _ & _). repeat case_match; [..|done]; apply Forall_app; (split; [|constructor; [by apply header_field_line|done]]);
    [done|by apply without_Forall].
Qed.
Lemma foldl_edit_lines fields ms :
  Forall field_line fields → Forall sane_mutation ms → Forall field_line (foldl edit_fields fields ms).
Proof.
  intros Hf Hms. revert fields Hf. induction Hms; intros fields Hf; [done|]. cbn. by apply IHHms, edit_fields_lines.
Qed.

(** A field that is not named keeps its values. *)
Lemma edit_fields_values k fields m :
  Forall field_line fields → sane_mutation m → eq_ignore_ascii_case (mutated_name m) k = false →
  field_values k (edit_fields fields m) = field_values k fields.
Proof.
  intros Hf. assert (∀ n, eq_ignore_ascii_case n k = false → field_values k (without n fields) = field_values k fields) as Hw.
  { intros n Hn. by rewrite field_values_without, eqic_sym, Hn. }
  destruct m as [[n v action|n]|]; cbn [sane_mutation mutated_name edit_fields]; [|by intros _; apply Hw|done].
  intros (Hn & _) Hk. assert (∀ fs, field_values k (fs ++ [header_field n v]) = field_values k fs) as Ha.
  { intros fs. rewrite field_values_app, field_values_cons. unfold header_field.
    rewrite field_value_name, Hk by done. apply app_nil_r. }
  repeat case_match; [apply Ha|by rewrite Ha, Hw|done].
Qed.
Lemma foldl_edit_values k fields ms :
  Forall field_line fields → Forall sane_mutation ms →
  Forall (λ m, eq_ignore_ascii_case (mutated_name m) k = false) ms →
  field_values k (foldl edit_fields fields ms) = field_values k fields.
Proof.
  intros Hf Hms Hk. revert fields Hf. induction Hms as [|m ms Hm Hms IH]; intros fields Hf; [done|].
  apply Forall_cons_1 in Hk as [Hk Hks]. cbn [foldl]. rewrite IH; [by apply edit_fields_values|done|by apply edit_fields_lines].
Qed.

(** ** A request that was buffered *)

Definition TRAILER : bytes := lit "trailer".
Lemma framing_tokens : token TE ∧ token CL ∧ token TRAILER.
Proof. split_and!; (split; [done|]; apply forallb_Forall; vm_compute; reflexivity). Qed.

(** The fields of a request that is framed by the length of its body. *)
Definition length_framed (len : BodyLength) (body : bytes) (fields : list bytes) : list bytes :=
  if bool_decide (len = NoBody) && is_empty body then without TE (without CL fields)
  else
    let fields := without TE (set_fields (Z.of_nat (length body)) false fields) in
    if bool_decide (len = Chunked) then without TRAILER fields else fields.
Definition new_length (len : BodyLength) (body : bytes) : BodyLength :=
  if bool_decide (len = NoBody) && is_empty body then NoBody else ContentLength (Z.of_nat (length body)).

Lemma length_framed_lines len body fields : Forall field_line fields → Forall field_line (length_framed len body fields).
Proof.
  intros H. unfold length_framed. pose proof (length_field_line (Z.of_nat (length body)) ltac:(lia)).
  repeat case_match; repeat apply without_Forall; by try apply set_fields_Forall.
Qed.
Lemma length_framed_values k len body fields :
  Forall field_line fields → Forall (λ n, eq_ignore_ascii_case k n = false) [TE; CL; TRAILER] →
  field_values k (length_framed len body fields) = field_values k fields.
Proof.
  intros Hf Hk. apply Forall_cons_1 in Hk as [Hte Hk]. apply Forall_cons_1 in Hk as [Hcl Hk].
  apply Forall_cons_1 in Hk as [Htr _]. pose proof (length_field_line (Z.of_nat (length body)) ltac:(lia)).
  assert (Forall field_line (set_fields (Z.of_nat (length body)) false fields)) by (by apply set_fields_Forall).
  assert (∀ n fs, eq_ignore_ascii_case k n = false → Forall field_line fs → field_values k (without n fs) = field_values k fs) as Hw
    by (intros n fs Hn ?; by rewrite field_values_without, Hn).
  unfold length_framed. repeat case_match; rewrite ?Hw; rewrite ?field_values_set, ?(eqic_sym CL), ?Hcl;
    by try (repeat apply without_Forall).
Qed.
Lemma length_framed_framed len body fields ms :
  Forall field_line fields → Z.of_nat (length body) ≤ u64_max → Forall sane_mutation ms →
  Forall (λ m, eq_ignore_ascii_case (mutated_name m) TE = false ∧ eq_ignore_ascii_case (mutated_name m) CL = false) ms →
  framed (foldl edit_fields (length_framed len body fields) ms) (new_length len body).
Proof.
  intros Hf Hl Hms Hn. set (n := Z.of_nat (length body)) in *.
  assert (∀ k, k ∈ [TE; CL] → field_values k (foldl edit_fields (length_framed len body fields) ms)
    = field_values k (length_framed len body fields)) as E.
  { intros k Hk. apply foldl_edit_values; [by apply length_framed_lines|done|].
    eapply list.Forall_impl; [exact Hn|]. cbn. intros m [??]. set_solver. }
  pose proof (length_field_line n ltac:(lia)).
  assert (Forall field_line (set_fields n false fields)) as Hs by (by apply set_fields_Forall).
  assert (eq_ignore_ascii_case TE TE = true ∧ eq_ignore_ascii_case TE CL = false ∧ eq_ignore_ascii_case CL TE = false
    ∧ eq_ignore_ascii_case CL CL = true ∧ eq_ignore_ascii_case TE TRAILER = false
    ∧ eq_ignore_ascii_case CL TRAILER = false) as (e1 & e2 & e3 & e4 & e5 & e6) by (vm_compute; done).
  assert (field_values CL (length_framed len body fields) =
            (if bool_decide (len = NoBody) && is_empty body then [] else [32 :: show_uint n])
          ∧ field_values TE (length_framed len body fields) = []) as [Ec Et].
  { unfold length_framed. fold n. destruct (bool_decide (len = NoBody) && is_empty body);
      [|destruct (bool_decide (len = Chunked))];
      repeat first [rewrite !field_values_without by (by repeat apply without_Forall)|rewrite !field_values_set by done];
      by rewrite ?e1, ?e2, ?e3, ?e4, ?e5, ?e6. }
  unfold new_length. fold n.
  destruct (bool_decide (len = NoBody) && is_empty body); cbn [framed]; rewrite !E, Ec, Et by set_solver;
    (split; [done|]); [done|split; [done|]]. constructor; [|done].
  rewrite trim_space by lia. apply parse_show_uint; [lia|]. eapply Z.le_lt_trans; [exact Hl|]. by vm_compute.
Qed.

(** A request whose body was buffered is built again, with the same request line
    and one framing by the length of its body. *)
Lemma rebuild_good req s rl fields body ms :
  good_head s rl fields → Forall sane_mutation ms →
  ∃ req' s', rebuild_request_with_buffered_body req s body ms = Ok req' ∧
    good_head s' rl (foldl edit_fields (length_framed (body_length req) body fields) ms) ∧
    req' = l7_request_of (rq_action req) (rq_target req) (rq_query_params req) (s' ++ body)
             (new_length (body_length req) body).
Proof.
  intros H Hms. destruct framing_tokens as (Hte & Hcl & Htr).
  unfold rebuild_request_with_buffered_body, length_framed, new_length. fold TE CL TRAILER.
  destruct (bool_decide (body_length req = NoBody) && is_empty body) eqn:E.
  - destruct (strip_header_good _ _ _ _ H Hcl) as (s1 & -> & H1). cbv beta iota.
    destruct (strip_header_good _ _ _ _ H1 Hte) as (s2 & -> & H2). cbv beta iota.
    destruct (apply_header_mutations_good _ _ _ _ H2 Hms) as (s3 & -> & H3). cbv beta iota.
    apply andb_true_iff in E as [_ E%is_empty_true]. subst body. eexists _, s3. rewrite app_nil_r. by split_and!.
  - destruct (set_content_length_good _ _ _ (Z.of_nat (length body)) H ltac:(lia)) as (s1 & -> & H1). cbv beta iota.
    destruct (strip_header_good _ _ _ _ H1 Hte) as (s2 & -> & H2). cbv beta iota.
    destruct (bool_decide (body_length req = Chunked)); cbv beta iota.
    + destruct (strip_header_good _ _ _ _ H2 Htr) as (s3 & -> & H3). cbv beta iota.
      destruct (apply_header_mutations_good _ _ _ _ H3 Hms) as (s4 & -> & H4). cbv beta iota. eexists _, s4. by split_and!.
    + destruct (apply_header_mutations_good _ _ _ _ H2 Hms) as (s4 & -> & H4). cbv beta iota. eexists _, s4. by split_and!.
Qed.
