(* ===== verification/Middleware.v ===== *)
(** * Middleware: the middleware of a request
    (crates/openshell-supervisor-middleware/src/headers.rs, src/lib.rs,
    crates/openshell-supervisor-network/src/l7/middleware.rs)

    The stages of a chain see the request's fields and body, in order; each may
    deny it, replace its body or change its fields, within the authority of
    middleware; a stage that fails is skipped or denies, as its policy says. The
    changes are then replayed on the head of the request, which is framed anew.
    The answers of the services, their deadlines and the encoded lengths of
    messages are parameters. A reason carries its values instead of its text. *)

From stdpp Require Import gmap.
From S2P Require Import Prelude PathCanon IpParse Order Text Base64 Patterns Destination Secrets PolicyTypes PolicyMerge PolicyValidate Connect Http HttpEdit HttpBody.
Import Secrets.

(** ** Fields and their mutations *)

Record HttpHeader := http_header { hh_name : bytes; hh_value : bytes }.
#[export] Instance HttpHeader_eq_dec : EqDecision HttpHeader.
Proof. solve_decision. Defined.

Module Headers.
Definition MAX_HEADER_MUTATIONS : nat := 64.
Definition MAX_HEADER_MUTATION_BYTES : Z := 32 * 1024.

Inductive HeaderAuthority : Type := Request | Response | ResponseTrailers.
#[export] Instance HeaderAuthority_eq_dec : EqDecision HeaderAuthority.
Proof. solve_decision. Defined.
Inductive MutationKind : Type := Write | Remove.
#[export] Instance MutationKind_eq_dec : EqDecision MutationKind.
Proof. solve_decision. Defined.

Inductive HeaderMutationError : Type :=
| TooMany (count : nat)
| InvalidName (name : bytes)
| Protected (name : bytes)
| HopByHop (name : bytes)
| UnsafeValue (name : bytes)
| CredentialPlaceholder (name : bytes)
| TooLarge
| InvalidExistingAction
| MissingExistingAction (name : bytes)
| AbsentTrailerName (name : bytes)
| Empty.

Definition request_protected_names : list bytes := map lit
  ["authorization"; "proxy-authorization"; "proxy-authenticate"; "cookie"; "host"; "content-length";
   "transfer-encoding"; "connection"; "proxy-connection"; "keep-alive"; "te"; "trailer"; "upgrade"]%string.
Definition is_request_protected (name : bytes) : bool :=
  bool_decide (name ∈ request_protected_names)
  || starts_with (lit "x-amz-") name || starts_with (lit "x-openshell-credential") name.

Definition response_credential_names : list bytes := map lit
  ["authentication-info"; "proxy-authenticate"; "proxy-authentication-info"; "proxy-authorization";
   "set-cookie"; "www-authenticate"]%string.
Definition is_response_credential_header (name : bytes) : bool :=
  let name := to_ascii_lowercase name in
  bool_decide (name ∈ response_credential_names) || starts_with (lit "x-openshell-credential") name.
Definition response_protected_names : list bytes := map lit
  ["connection"; "content-encoding"; "content-length"; "content-range"; "keep-alive"; "proxy-connection";
   "te"; "trailer"; "transfer-encoding"; "upgrade"]%string.
Definition is_response_protected (name : bytes) : bool :=
  is_response_credential_header name || bool_decide (name ∈ response_protected_names).
Definition response_remove_only_names : list bytes := map lit
  ["accept-ranges"; "etag"; "content-md5"; "digest"; "content-digest"; "repr-digest"; "signature";
   "signature-input"]%string.
Definition is_response_remove_only (name : bytes) : bool := bool_decide (name ∈ response_remove_only_names).

Definition validate_name (name : bytes) : result bytes HeaderMutationError :=
  let lower := to_ascii_lowercase name in
  if is_empty lower || negb (forallb is_http_field_name_byte lower) then Err (InvalidName name) else Ok lower.
Definition validate_authority (authority : HeaderAuthority) (kind : MutationKind) (original_name name : bytes)
  : result unit HeaderMutationError :=
  let protected := match authority with
                   | Request => is_request_protected name
                   | Response => is_response_protected name
                       || bool_decide (kind = Write) && is_response_remove_only name
                   | ResponseTrailers => is_response_protected name
                   end in
  if protected then Err (Protected original_name) else Ok ().
Definition is_safe_value (value : bytes) : bool := forallb is_http_field_value_byte value.
Definition is_connection_nominated (nominated : list bytes) (name : bytes) : bool :=
  existsb (λ n, eq_ignore_ascii_case n name) nominated.
Definition enforce_size_limit (mutation_bytes : Z) : result unit HeaderMutationError :=
  if MAX_HEADER_MUTATION_BYTES <? mutation_bytes then Err TooLarge else Ok ().

Definition has_name (name : bytes) (h : HttpHeader) : bool := bool_decide (hh_name h = name).
Definition retain_others (name : bytes) (headers : list HttpHeader) : list HttpHeader :=
  List.filter (λ h, negb (has_name name h)) headers.

Section apply.
Context {base64 : Base64}.
Context (authority : HeaderAuthority) (existing_headers : list HttpHeader) (nominated : list bytes).

(** One mutation of the fields and of the bytes counted so far. *)
Definition apply_one (headers : list HttpHeader) (mutation_bytes : Z) (mutation : option HeaderOperation)
  : result (list HttpHeader * Z) HeaderMutationError :=
  match mutation with
  | Some (WriteHeader wname value on_existing) =>
      let? name := validate_name wname in
      let? _ := validate_authority authority Write wname name in
      if bool_decide (authority = ResponseTrailers)
         && negb (existsb (λ h, eq_ignore_ascii_case (hh_name h) name) existing_headers)
      then Err (AbsentTrailerName wname)
      else if is_connection_nominated nominated name then Err (HopByHop wname)
      else if negb (is_safe_value value) then Err (UnsafeValue wname)
      else if header_value_contains_reserved_credential_marker value then Err (CredentialPlaceholder wname)
      else
        let mutation_bytes := saturating_add usize_max
          (saturating_add usize_max mutation_bytes (Z.of_nat (length name))) (Z.of_nat (length value)) in
        let? _ := enforce_size_limit mutation_bytes in
        if negb ((0 <=? on_existing) && (on_existing <=? 3)) then Err InvalidExistingAction
        else if on_existing =? 0 then Err (MissingExistingAction wname)
        else
          let headers :=
            if negb (existsb (has_name name) headers) || (on_existing =? 1)
            then headers ++ [http_header name value]
            else if on_existing =? 2 then retain_others name headers ++ [http_header name value]
            else headers in
          Ok (headers, mutation_bytes)
  | Some (RemoveHeader rname) =>
      let? name := validate_name rname in
      let? _ := validate_authority authority Remove rname name in
      if is_connection_nominated nominated name then Err (HopByHop rname)
      else
        let mutation_bytes := saturating_add usize_max mutation_bytes (Z.of_nat (length name)) in
        let? _ := enforce_size_limit mutation_bytes in
        Ok (retain_others name headers, mutation_bytes)
  | None => Err Empty
  end.
Fixpoint apply_all (headers : list HttpHeader) (mutation_bytes : Z) (mutations : list (option HeaderOperation))
  : result (list HttpHeader) HeaderMutationError :=
  match mutations with
  | [] => Ok headers
  | m :: mutations => let? r := apply_one headers mutation_bytes m in apply_all r.1 r.2 mutations
  end.
Definition apply (mutations : list (option HeaderOperation)) : result (list HttpHeader) HeaderMutationError :=
  if Nat.ltb MAX_HEADER_MUTATIONS (length mutations) then Err (TooMany (length mutations))
  else apply_all existing_headers 0 mutations.
End apply.
End Headers.

(** ** What middleware sees of a request *)

Definition header_of_line (line : bytes) : option HttpHeader :=
  (λ p, http_header (to_ascii_lowercase p.1) (trim p.2)) <$> split_once 58 line.
Definition is_visible (nominated : list bytes) (h : HttpHeader) : bool :=
  negb (is_empty (hh_name h)) && negb (Headers.is_request_protected (hh_name h))
  && negb (bool_decide (hh_name h ∈ nominated)).
(** The names are sorted. *)
Definition safe_middleware_headers (headers : bytes) : result (list HttpHeader * list bytes) HttpError :=
  let? _ := validate_http_request_header_block headers in
  let? header_str := ok_or (from_utf8 headers) InvalidUtf8 in
  let? block := ok_or (strip_suffix DOUBLE_CRLF header_str) Http.Panicked in
  let? nominated := connection_nominated_header_names headers in
  let? parsed := try_collect (λ line, ok_or (header_of_line line) Http.Panicked) (drop 1 (split_str CRLF block)) in
  Ok (List.filter (is_visible nominated) parsed, sort_by bytes_cmp nominated).

Definition raw_query_from_request_headers (headers : bytes) : result bytes HttpError :=
  let? header_str := ok_or (from_utf8 headers) InvalidUtf8 in
  let? target := ok_or (head (lines header_str) ≫= λ line, split_whitespace line !! 1%nat) MissingPart in
  Ok (from_option snd [] (split_once 63 target)).

(** ** Services *)

Record Finding := finding_of {
  fi_type : bytes; fi_label : bytes; fi_count : Z; fi_confidence : bytes; fi_severity : bytes;
}.
Record HttpRequestResult := request_result {
  res_decision : Z;
  res_reason : bytes;
  res_reason_code : bytes;
  res_mutations : list (option HeaderOperation);
  res_has_body : bool;
  res_body : bytes;
  res_findings : list Finding;
  res_metadata : gmap bytes bytes;
}.

(** The services of a chain, by the number of the stage, and the protobuf
    lengths of messages. An evaluation that fails gives its reason. *)
Class MiddlewareServices := {
  evaluate_http_request : nat → ChainEntry → list HttpHeader → bytes → result HttpRequestResult bytes;
  deadline_passed : nat → bool;
  config_len : ChainEntry → Z;
  context_len : Z;
  target_len : Z;
  header_len : HttpHeader → Z;
  mutation_len : option HeaderOperation → Z;
  finding_len : Finding → Z;
  result_len : HttpRequestResult → Z;
}.

(** An entry with what its binding and its service say of it. *)
Record DescribedChainEntry := described_entry {
  dc_entry : ChainEntry;
  dc_resolved : bool;
  dc_max_payload_bytes : Z;
  dc_normalize : bool;
}.

Definition MAX_MIDDLEWARE_PAYLOAD_BYTES : Z := 4 * 1024 * 1024.
Definition MAX_MIDDLEWARE_CONFIG_BYTES : Z := 64 * 1024.
Definition MAX_MIDDLEWARE_CONTEXT_BYTES : Z := 4 * 1024.
Definition MAX_MIDDLEWARE_TARGET_BYTES : Z := 32 * 1024.
Definition MAX_MIDDLEWARE_HEADERS : Z := 128.
Definition MAX_MIDDLEWARE_HEADER_BYTES : Z := 64 * 1024.
Definition MAX_MIDDLEWARE_REASON_BYTES : Z := 4 * 1024.
Definition MAX_MIDDLEWARE_REASON_CODE_BYTES : Z := 64.
Definition MAX_MIDDLEWARE_FINDING_BYTES : Z := 4 * 1024.
Definition MAX_MIDDLEWARE_FINDINGS_PER_STAGE : Z := 32.
Definition MAX_MIDDLEWARE_METADATA_ENTRIES : Z := 64.
Definition MAX_MIDDLEWARE_METADATA_BYTES : Z := 32 * 1024.
Definition MAX_MIDDLEWARE_HEADER_MUTATION_WIRE_BYTES : Z := 64 * 1024.
Definition MAX_MIDDLEWARE_PROTOBUF_OVERHEAD_BYTES : Z := 64 * 1024.
Definition MAX_MIDDLEWARE_REQUEST_ENVELOPE_BYTES : Z :=
  MAX_MIDDLEWARE_CONFIG_BYTES + MAX_MIDDLEWARE_CONTEXT_BYTES + MAX_MIDDLEWARE_TARGET_BYTES
  + MAX_MIDDLEWARE_HEADER_BYTES + MAX_MIDDLEWARE_PROTOBUF_OVERHEAD_BYTES.
Definition MAX_MIDDLEWARE_RESPONSE_ENVELOPE_BYTES : Z :=
  MAX_MIDDLEWARE_REASON_BYTES + MAX_MIDDLEWARE_REASON_CODE_BYTES
  + MAX_MIDDLEWARE_HEADER_MUTATION_WIRE_BYTES
  + MAX_MIDDLEWARE_FINDINGS_PER_STAGE * MAX_MIDDLEWARE_FINDING_BYTES
  + MAX_MIDDLEWARE_METADATA_BYTES + MAX_MIDDLEWARE_PROTOBUF_OVERHEAD_BYTES.
Definition MIDDLEWARE_GRPC_MESSAGE_BYTES : Z :=
  MAX_MIDDLEWARE_PAYLOAD_BYTES
  + Z.max MAX_MIDDLEWARE_REQUEST_ENVELOPE_BYTES MAX_MIDDLEWARE_RESPONSE_ENVELOPE_BYTES.

(** Why a stage failed. *)
Inductive FailReason : Type :=
| BindingNotDescribed | RequestBodyOverCapacity | RequestConfigOverCapacity | RequestContextOverCapacity
| RequestTargetOverCapacity | RequestHeaderCountOverCapacity | RequestHeaderBytesOverCapacity
| ChainTimeout | ServiceFailed (reason : bytes)
| ResponseBodyOverCapacity | ResponseReasonOverCapacity | ResponseReasonCodeInvalid
| MutationCountOverCapacity | MutationBytesOverCapacity | FindingsOverCapacity | FindingOverCapacity
| MetadataCountOverCapacity | MetadataBytesOverCapacity | EnvelopeOverCapacity
| InvalidDecision | MutationRejected (e : Headers.HeaderMutationError).

Definition is_ascii_lower (b : Z) : bool := (97 <=? b) && (b <=? 122).
Definition is_stable_reason_code (value : bytes) : bool :=
  (Z.of_nat (length value) <=? MAX_MIDDLEWARE_REASON_CODE_BYTES)
  && match value with b :: _ => is_ascii_lower b | [] => false end
  && forallb (λ b, is_ascii_lower b || is_ascii_digit b || (b =? 95)) value.

Definition total_len {A} (len : A → Z) (l : list A) : Z :=
  foldl (λ total x, saturating_add usize_max total (len x)) 0 l.

Section chain.
Context {base64 : Base64} {services : MiddlewareServices}.

Definition validate_request_view (entry : ChainEntry) (headers : list HttpHeader) (body : bytes)
  : result unit FailReason :=
  if MAX_MIDDLEWARE_PAYLOAD_BYTES <? Z.of_nat (length body) then Err RequestBodyOverCapacity
  else if MAX_MIDDLEWARE_CONFIG_BYTES <? config_len entry then Err RequestConfigOverCapacity
  else if MAX_MIDDLEWARE_CONTEXT_BYTES <? context_len then Err RequestContextOverCapacity
  else if MAX_MIDDLEWARE_TARGET_BYTES <? target_len then Err RequestTargetOverCapacity
  else if MAX_MIDDLEWARE_HEADERS <? Z.of_nat (length headers) then Err RequestHeaderCountOverCapacity
  else if MAX_MIDDLEWARE_HEADER_BYTES <? total_len header_len headers then Err RequestHeaderBytesOverCapacity
  else Ok ().

Definition validate_response_envelope (r : HttpRequestResult) : result unit FailReason :=
  if MAX_MIDDLEWARE_PAYLOAD_BYTES <? Z.of_nat (length (res_body r)) then Err ResponseBodyOverCapacity
  else if MAX_MIDDLEWARE_REASON_BYTES <? Z.of_nat (length (res_reason r)) then Err ResponseReasonOverCapacity
  else if negb (is_empty (res_reason_code r)) && negb (is_stable_reason_code (res_reason_code r))
  then Err ResponseReasonCodeInvalid
  else if Nat.ltb Headers.MAX_HEADER_MUTATIONS (length (res_mutations r)) then Err MutationCountOverCapacity
  else if MAX_MIDDLEWARE_HEADER_MUTATION_WIRE_BYTES <? total_len mutation_len (res_mutations r)
  then Err MutationBytesOverCapacity
  else if MAX_MIDDLEWARE_FINDINGS_PER_STAGE <? Z.of_nat (length (res_findings r)) then Err FindingsOverCapacity
  else if existsb (λ f, MAX_MIDDLEWARE_FINDING_BYTES <? finding_len f) (res_findings r)
  then Err FindingOverCapacity
  else if MAX_MIDDLEWARE_METADATA_ENTRIES <? Z.of_nat (size (res_metadata r)) then Err MetadataCountOverCapacity
  else if MAX_MIDDLEWARE_METADATA_BYTES
          <? total_len (λ kv, saturating_add usize_max (Z.of_nat (length kv.1)) (Z.of_nat (length kv.2)))
               (map_to_list (res_metadata r))
  then Err MetadataBytesOverCapacity
  else if MIDDLEWARE_GRPC_MESSAGE_BYTES <? result_len r then Err EnvelopeOverCapacity
  else Ok ().

(** External diagnostics keep only the name of the service and the counts; the
    reason text is not used any more. *)
Definition normalize_finding (implementation : bytes) (f : Finding) : Finding :=
  finding_of (implementation ++ lit ".finding") (lit "External middleware finding") (fi_count f) []
    (if bool_decide (fi_severity f = lit "low") then lit "low"
     else if bool_decide (fi_severity f = lit "high") then lit "high" else lit "medium").
Definition process_result (entry : DescribedChainEntry) (r : HttpRequestResult) : HttpRequestResult :=
  if dc_normalize entry then
    request_result (res_decision r) [] (res_reason_code r) (res_mutations r) (res_has_body r) (res_body r)
      (map (normalize_finding (ce_implementation (dc_entry entry))) (res_findings r)) ∅
  else r.

(** ** The chain *)

Inductive MiddlewareDecision : Type := Allow | Deny.
#[export] Instance MiddlewareDecision_eq_dec : EqDecision MiddlewareDecision.
Proof. solve_decision. Defined.
Record MiddlewareInvocation := invocation {
  iv_name : bytes; iv_implementation : bytes; iv_decision : MiddlewareDecision;
  iv_transformed : bool; iv_failed : bool;
}.
Record MiddlewareDenial := denial_of { config_name : bytes; reason_code : option bytes }.

Inductive ChainReason : Type :=
| NoReason
| MiddlewareFailed (reason : FailReason)
| DeniedBy (d : MiddlewareDenial)
| TransformedBodyDenied (reason : bytes)
| TransformedBodyFailed.

Record ChainOutcome := chain_outcome {
  oc_allowed : bool;
  oc_reason : ChainReason;
  oc_body : bytes;
  oc_mutations : list (option HeaderOperation);
  oc_findings : list (bytes * Finding);
  oc_metadata : gmap bytes (gmap bytes bytes);
  oc_applied : list MiddlewareInvocation;
  oc_denial : option MiddlewareDenial;
}.

Inductive TransformedBodyPolicy : Type :=
| NotPolicyRelevant
| Reevaluate (validate : bytes → result (option bytes) bytes).

(** What the chain carries from stage to stage. *)
Record ChainState := chain_state {
  cs_headers : list HttpHeader;
  cs_body : bytes;
  cs_mutations : list (option HeaderOperation);
  cs_findings : list (bytes * Finding);
  cs_metadata : gmap bytes (gmap bytes bytes);
  cs_applied : list MiddlewareInvocation;
}.
Definition finish_chain (s : ChainState) (allowed : bool) (reason : ChainReason) (d : option MiddlewareDenial)
  : ChainOutcome :=
  chain_outcome allowed reason (cs_body s) (cs_mutations s) (cs_findings s) (cs_metadata s) (cs_applied s) d.
Definition record_invocation (s : ChainState) (e : ChainEntry) (decision : MiddlewareDecision)
  (transformed failed : bool) : ChainState :=
  chain_state (cs_headers s) (cs_body s) (cs_mutations s) (cs_findings s) (cs_metadata s)
    (cs_applied s ++ [invocation (ce_name e) (ce_implementation e) decision transformed failed]).
Definition record_diagnostics (s : ChainState) (e : ChainEntry) (r : HttpRequestResult) : ChainState :=
  chain_state (cs_headers s) (cs_body s) (cs_mutations s)
    (cs_findings s ++ map (λ f, (ce_name e, f)) (res_findings r))
    (if decide (res_metadata r = ∅) then cs_metadata s else <[ce_name e := res_metadata r]> (cs_metadata s))
    (cs_applied s).

(** A stage goes on with a state, or ends the chain. *)
Definition apply_on_error (entry : DescribedChainEntry) (reason : FailReason) (s : ChainState)
  : ChainOutcome + ChainState :=
  match ce_on_error (dc_entry entry) with
  | FailOpen => inr (record_invocation s (dc_entry entry) Allow false true)
  | FailClosed =>
      inl (finish_chain (record_invocation s (dc_entry entry) Deny false true) false
             (MiddlewareFailed reason) None)
  end.

(** What a service answered, or why the stage fails before its answer counts. *)
Definition stage_result (n : nat) (entry : DescribedChainEntry) (s : ChainState)
  : result HttpRequestResult FailReason :=
  if negb (dc_resolved entry) then Err BindingNotDescribed
  else if dc_max_payload_bytes entry <? Z.of_nat (length (cs_body s)) then Err RequestBodyOverCapacity
  else
    let? _ := validate_request_view (dc_entry entry) (cs_headers s) (cs_body s) in
    if deadline_passed n then Err ChainTimeout
    else
      let? r := map_err ServiceFailed
                  (evaluate_http_request n (dc_entry entry) (cs_headers s) (cs_body s)) in
      let? _ := validate_response_envelope r in
      let r := process_result entry r in
      if (res_decision r =? 1) || (res_decision r =? 2) then Ok r else Err InvalidDecision.

(** The fields after an allowing answer. *)
Definition stage_headers (nominated : list bytes) (entry : DescribedChainEntry) (s : ChainState)
  (r : HttpRequestResult) : result (list HttpHeader) FailReason :=
  if res_has_body r && (dc_max_payload_bytes entry <? Z.of_nat (length (res_body r)))
  then Err ResponseBodyOverCapacity
  else if is_empty (res_mutations r) then Ok (cs_headers s)
  else map_err MutationRejected (Headers.apply Headers.Request (cs_headers s) nominated (res_mutations r)).

Definition run_stage (nominated : list bytes) (policy : TransformedBodyPolicy) (n : nat)
  (entry : DescribedChainEntry) (s : ChainState) : ChainOutcome + ChainState :=
  let e := dc_entry entry in
  match stage_result n entry s with
  | Err reason => apply_on_error entry reason s
  | Ok r =>
      if res_decision r =? 2 then
        let d := denial_of (ce_name e)
                   (if is_empty (res_reason_code r) then None else Some (res_reason_code r)) in
        inl (finish_chain (record_invocation (record_diagnostics s e r) e Deny false false)
               false (DeniedBy d) (Some d))
      else match stage_headers nominated entry s r with
      | Err reason => apply_on_error entry reason s
      | Ok headers =>
          let body := if res_has_body r then res_body r else cs_body s in
          let s' := chain_state headers body (cs_mutations s ++ res_mutations r)
                      (cs_findings s) (cs_metadata s) (cs_applied s) in
          let s' := record_invocation (record_diagnostics s' e r) e Allow
                      (res_has_body r || negb (bool_decide (headers = cs_headers s))) false in
          match policy with
          | Reevaluate validate =>
              if res_has_body r then
                match validate body with
                | Ok None => inr s'
                | Ok (Some reason) => inl (finish_chain s' false (TransformedBodyDenied reason) None)
                | Err _ => inl (finish_chain s' false TransformedBodyFailed None)
                end
              else inr s'
          | NotPolicyRelevant => inr s'
          end
      end
  end.
Fixpoint run_stages (nominated : list bytes) (policy : TransformedBodyPolicy) (n : nat)
  (entries : list DescribedChainEntry) (s : ChainState) : ChainOutcome :=
  match entries with
  | [] => finish_chain s true NoReason None
  | entry :: entries =>
      match run_stage nominated policy n entry s with
      | inl outcome => outcome
      | inr s => run_stages nominated policy (S n) entries s
      end
  end.
(** [None] when the chain is too long. *)
Definition evaluate_described_with_policy_admitted (entries : list DescribedChainEntry)
  (headers : list HttpHeader) (nominated : list bytes) (body : bytes) (policy : TransformedBodyPolicy)
  : option ChainOutcome :=
  if Nat.ltb MAX_MIDDLEWARE_CHAIN_STAGES (length entries) then None
  else Some (run_stages nominated policy 0 entries (chain_state headers body [] [] ∅ [])).

(** ** The middleware of a request *)

Inductive MiddlewareApplyResult : Type :=
| AllowedRequest (req : L7Request)
| DeniedRequest (d : option MiddlewareDenial)
| AdmissionExhausted.

Definition middleware_chain_body_limit (chain : list DescribedChainEntry) : option Z :=
  match map dc_max_payload_bytes (List.filter dc_resolved chain) with
  | [] => None
  | limit :: limits => Some (foldl Z.max limit limits)
  end.
Definition resolve_unbuffered_body (req : L7Request) (chain : list DescribedChainEntry) (recoverable : bool)
  : MiddlewareApplyResult :=
  if recoverable && forallb (λ e, bool_decide (ce_on_error (dc_entry e) = FailOpen)) chain
  then AllowedRequest req else DeniedRequest None.

Definition finish_request (req : L7Request) (headers : bytes) (outcome : ChainOutcome)
  : result MiddlewareApplyResult HttpError :=
  if oc_allowed outcome then
    let? rebuilt := rebuild_request_with_buffered_body req headers (oc_body outcome) (oc_mutations outcome) in
    Ok (AllowedRequest rebuilt)
  else Ok (DeniedRequest (oc_denial outcome)).

(** [admitted] is whether the platform had capacity; the chain is described. *)
Definition apply_middleware_chain (req : L7Request) (chain : list DescribedChainEntry) (admitted : bool)
  (policy : TransformedBodyPolicy) : M MiddlewareApplyResult :=
  if is_empty chain then ret (AllowedRequest req)
  else if negb admitted then ret AdmissionExhausted
  else match middleware_chain_body_limit chain with
  | None =>
      match evaluate_described_with_policy_admitted chain [] [] [] NotPolicyRelevant with
      | None => fail ChainTooLong
      | Some outcome => ret (if oc_allowed outcome then AllowedRequest req else DeniedRequest (oc_denial outcome))
      end
  | Some limit =>
      let! buffered := buffer_request_body_for_middleware req limit in
      match buffered with
      | OverCapacityBody recoverable => ret (resolve_unbuffered_body req chain recoverable)
      | Buffered headers body =>
          let! seen := lift (safe_middleware_headers headers) in
          let! _ := lift (raw_query_from_request_headers headers) in
          match evaluate_described_with_policy_admitted chain seen.1 seen.2 body policy with
          | None => fail ChainTooLong
          | Some outcome => lift (finish_request req headers outcome)
          end
      end
  end.
End chain.
