(* ===== verification/MiddlewareFacts.v ===== *)
(** * MiddlewareFacts: what a chain of middleware can do to a request
    (crates/openshell-supervisor-middleware/src/headers.rs, src/lib.rs,
    crates/openshell-supervisor-network/src/l7/middleware.rs)

    The mutations that the authority of middleware admits are replayed on the
    head of the request with the effect that they had on the fields the stages
    saw; the fields outside that authority are kept; the request is framed by
    the length of its body; and a chain allows a request only when each stage
    allowed it or may fail open. *)

From stdpp Require Import gmap.
From S2P Require Import ProviderCredentialsFacts.
From S2P Require Import Prelude PathCanon IpParse Order Text Base64 Patterns Destination Secrets SecretsHeaders PolicyTypes PolicyMerge PolicyValidate Connect Http HttpEdit HttpBody ChunkedFacts ChunkedBuffers ChunkedScan HttpFacts HttpForward HttpEditFacts Middleware.
Import IpParse.

(** ** Trimming twice *)

Lemma trim_start_fixed s : ws_len (trim_start s) = 0%nat.
Proof.
  unfold trim_start. assert (∀ n s, (length s ≤ n)%nat → ws_len (trim_start_fuel n s) = 0%nat) as H; [|by apply H].
  clear s. induction n as [|n IH]; intros s Hs; cbn [trim_start_fuel].
  - destruct s; [done|cbn in Hs; lia].
  - destruct (ws_len s) as [|k] eqn:E; [done|]. apply IH. rewrite length_drop. lia.
Qed.
Lemma ws_len_end_le s : (ws_len_end s ≤ length s)%nat.
Proof.
  assert (∀ k, ws_len (drop (length s - k) s) = k → (k ≤ length s)%nat) as H.
  { intros k Hk. pose proof (ws_len_le (drop (length s - k) s)) as Hl. rewrite Hk, length_drop in Hl. lia. }
  unfold ws_len_end. cbn zeta. destruct (Nat.eqb_spec (ws_len (drop (length s - 1) s)) 1); [by apply H|].
  destruct (Nat.eqb_spec (ws_len (drop (length s - 2) s)) 2); [by apply H|].
  destruct (Nat.eqb_spec (ws_len (drop (length s - 3) s)) 3); [by apply H|lia].
Qed.
Lemma trim_end_fixed s : ws_len_end (trim_end s) = 0%nat ∧ ∃ n, trim_end s = take n s.
Proof.
  unfold trim_end. assert (∀ n s, (length s ≤ n)%nat →
    ws_len_end (trim_end_fuel n s) = 0%nat ∧ ∃ k, trim_end_fuel n s = take k s) as H; [|by apply H].
  clear s. induction n as [|n IH]; intros s Hs; cbn [trim_end_fuel].
  - destruct s; [|cbn in Hs; lia]. split; [done|]. by exists 0%nat.
  - pose proof (ws_len_end_le s). destruct (ws_len_end s) as [|k] eqn:E.
    + split; [done|]. exists (length s). by rewrite take_ge.
    + destruct (IH (take (length s - S k) s)) as [H1 [j Hj]]; [rewrite length_take; lia|].
      split; [done|]. rewrite Hj. eexists. by rewrite take_take.
Qed.
Lemma ws_len_take n s : ws_len s = 0%nat → ws_len (take n s) = 0%nat.
Proof.
  destruct n as [|[|[|n]]], s as [|b [|b1 [|b2 s]]]; cbn [take]; try done; unfold ws_len;
    repeat case_match; done.
Qed.
Lemma trim_trim s : trim (trim s) = trim s.
Proof.
  assert (∀ r, ws_len r = 0%nat → trim_start r = r) as Hs
    by (intros [|b r] E; [done|]; unfold trim_start; cbn [length trim_start_fuel]; by rewrite E).
  assert (∀ r, ws_len_end r = 0%nat → trim_end r = r) as He
    by (intros [|b r] E; [done|]; unfold trim_end; cbn [length trim_end_fuel]; by rewrite E).
  unfold trim. destruct (trim_end_fixed (trim_start s)) as [H0 [n Hn]].
  rewrite Hs; [by apply He|]. rewrite Hn. apply ws_len_take, trim_start_fixed.
Qed.
Lemma trim_blank v : trim (32 :: v) = trim v.
Proof. done. Qed.

(** ** What a stage sees *)

(** The fields of a head that middleware sees. *)
Definition seen_by (nominated : list bytes) (fields : list bytes) : list HttpHeader :=
  List.filter (is_visible nominated) (omap header_of_line fields).
(** The name of a field that middleware may see and change. *)
Definition open_name (nominated : list bytes) (n : bytes) : Prop :=
  n ≠ [] ∧ Headers.is_request_protected n = false ∧ n ∉ nominated.
(** The value that middleware wrote, and the one that a reader of the field gets. *)
Definition same_header (h h' : HttpHeader) : Prop := hh_name h = hh_name h' ∧ trim (hh_value h) = hh_value h'.

Lemma is_visible_open nominated h : is_visible nominated h = true ↔ open_name nominated (hh_name h).
Proof.
  unfold is_visible, open_name. rewrite !andb_true_iff, !negb_true_iff, is_empty_false, bool_decide_eq_false.
  tauto.
Qed.
Lemma same_header_trim h : same_header h (http_header (hh_name h) (trim (hh_value h))).
Proof. done. Qed.

Lemma header_of_field line :
  field_line line → ∃ name value, line = name ++ 58 :: value ∧ token name ∧
    header_of_line line = Some (http_header (to_ascii_lowercase name) (trim value)) ∧
    (∀ n, named n line = Headers.has_name (to_ascii_lowercase n) (http_header (to_ascii_lowercase name) (trim value))).
Proof.
  intros Hl. pose proof (λ n, named_field n line Hl) as Hn. destruct (field_split _ Hl) as (name & value & -> & Hs & Ht).
  exists name, value. split; [done|split; [done|]]. unfold header_of_line. rewrite Hs. split; [done|].
  intros n. rewrite Hn, field_value_name by done. unfold Headers.has_name, eq_ignore_ascii_case. cbn [hh_name].
  by case_bool_decide.
Qed.

Lemma seen_by_cons nominated l ls :
  seen_by nominated (l :: ls) =
    (if header_of_line l is Some h then if is_visible nominated h then [h] else [] else []) ++ seen_by nominated ls.
Proof.
  unfold seen_by. cbn. destruct (header_of_line l) as [h|]; [|done]. cbn. by destruct (is_visible nominated h).
Qed.
Lemma seen_by_app nominated a b : seen_by nominated (a ++ b) = seen_by nominated a ++ seen_by nominated b.
Proof. unfold seen_by. by rewrite omap_app, List.filter_app. Qed.

(** Removing a field removes it from the view. *)
Lemma seen_by_without nominated n fields :
  Forall field_line fields →
  seen_by nominated (without n fields) = Headers.retain_others (to_ascii_lowercase n) (seen_by nominated fields).
Proof.
  induction 1 as [|l ls Hl _ IH]; [done|]. unfold without in *. cbn [List.filter].
  destruct (header_of_field _ Hl) as (name & value & -> & _ & Hh & Hn). rewrite Hn.
  rewrite seen_by_cons, Hh. unfold Headers.retain_others in *. rewrite List.filter_app, <- IH.
  set (h := http_header _ _). destruct (Headers.has_name (to_ascii_lowercase n) h) eqn:E; cbn [negb].
  - by destruct (is_visible nominated h); cbn [List.filter app]; rewrite ?E.
  - rewrite seen_by_cons, Hh. fold h. by destruct (is_visible nominated h); cbn [List.filter app]; rewrite ?E.
Qed.
(** A field with an open name is seen. *)
Lemma seen_by_has nominated n fields :
  Forall field_line fields → open_name nominated (to_ascii_lowercase n) →
  existsb (named n) fields = existsb (Headers.has_name (to_ascii_lowercase n)) (seen_by nominated fields).
Proof.
  intros Hf Ho. induction Hf as [|l ls Hl _ IH]; [done|]. cbn [existsb]. rewrite IH, seen_by_cons, existsb_app.
  destruct (header_of_field _ Hl) as (name & value & -> & _ & -> & ->). set (h := http_header _ _). f_equal.
  destruct (Headers.has_name (to_ascii_lowercase n) h) eqn:E; destruct (is_visible nominated h) eqn:Ev; cbn; rewrite ?E; try done.
  exfalso. apply not_true_iff_false in Ev. apply Ev, is_visible_open. unfold Headers.has_name in E.
  apply bool_decide_eq_true in E. by rewrite E.
Qed.
Lemma seen_by_field nominated n v :
  token n → open_name nominated (to_ascii_lowercase n) →
  seen_by nominated [header_field n v] = [http_header (to_ascii_lowercase n) (trim v)].
Proof.
  intros [_ Fn] Ho. unfold seen_by, header_field. cbn [omap list_omap]. unfold header_of_line.
  rewrite split_once_app by (intros Hin; eapply list.Forall_forall in Hin; [|exact Fn]; apply name_byte_range in Hin; lia).
  cbn [fmap option_fmap option_map fst snd]. rewrite trim_blank. cbn [List.filter].
  by rewrite (proj2 (is_visible_open nominated (http_header (to_ascii_lowercase n) (trim v))) Ho).
Qed.

(** ** The authority of middleware *)

Lemma lower_token_byte b : is_http_field_name_byte (ascii_lower b) = true → is_http_field_name_byte b = true.
Proof.
  unfold ascii_lower. destruct ((65 <=? b) && (b <=? 90)) eqn:E; [|done]. intros _.
  unfold is_http_field_name_byte. rewrite !orb_true_iff. unfold is_ascii_alphanumeric, is_ascii_alphabetic. lia.
Qed.
Lemma validate_name_ok n name :
  Headers.validate_name n = Ok name → name = to_ascii_lowercase n ∧ token n ∧ name ≠ [].
Proof.
  unfold Headers.validate_name. destruct (is_empty (to_ascii_lowercase n)) eqn:E; [done|]. cbn [orb].
  destruct (forallb _ _) eqn:F; [|done]. intros [= <-]. apply is_empty_false in E. split_and!; [done|split|done].
  - by destruct n.
  - apply list.Forall_forall. intros b Hb. apply lower_token_byte. rewrite forallb_elem in F. apply F.
    unfold to_ascii_lowercase. apply list_elem_of_fmap. by exists b.
Qed.

Section authority.
Context {base64 : Base64}.

(** A mutation within the authority of middleware: a field that it may see, and
    a value without control bytes and without a credential marker. *)
Definition allowed_mutation (nominated : list bytes) (m : option HeaderOperation) : Prop :=
  match m with
  | Some (WriteHeader n v action) =>
      token n ∧ open_name nominated (to_ascii_lowercase n) ∧
      Forall (λ b, is_http_field_value_byte b = true) v ∧
      Secrets.header_value_contains_reserved_credential_marker v = false ∧ 1 ≤ action ≤ 3
  | Some (RemoveHeader n) => token n ∧ open_name nominated (to_ascii_lowercase n)
  | None => False
  end.
Definition mutation_text (m : option HeaderOperation) : Prop :=
  match m with Some (WriteHeader _ v _) => text v | _ => True end.
Lemma allowed_sane nominated m : allowed_mutation nominated m → mutation_text m → sane_mutation m.
Proof. destruct m as [[]|]; cbn; naive_solver. Qed.
Lemma allowed_open nominated m :
  allowed_mutation nominated m → open_name nominated (to_ascii_lowercase (mutated_name m)).
Proof. destruct m as [[]|]; cbn; naive_solver. Qed.

(** What a mutation does to the fields that the stages see. *)
Definition edit_headers (headers : list HttpHeader) (m : option HeaderOperation) : list HttpHeader :=
  match m with
  | Some (WriteHeader n v action) =>
      let name := to_ascii_lowercase n in
      if negb (existsb (Headers.has_name name) headers) || (action =? 1) then headers ++ [http_header name v]
      else if action =? 2 then Headers.retain_others name headers ++ [http_header name v] else headers
  | Some (RemoveHeader n) => Headers.retain_others (to_ascii_lowercase n) headers
  | None => headers
  end.

Lemma authority_open nominated n kind name r :
  Headers.validate_name n = Ok name → Headers.validate_authority Headers.Request kind n name = Ok r →
  Headers.is_connection_nominated nominated name = false →
  name = to_ascii_lowercase n ∧ token n ∧ open_name nominated name.
Proof.
  intros (-> & Ht & Hne)%validate_name_ok Ha Hn. split; [done|split; [done|]]. split_and!; [done| |].
  - unfold Headers.validate_authority in Ha. by destruct (Headers.is_request_protected _).
  - intros Hin. apply not_true_iff_false in Hn. apply Hn. unfold Headers.is_connection_nominated.
    apply existsb_elem. exists (to_ascii_lowercase n). split; [done|]. by apply eq_ignore_case_true.
Qed.
Lemma apply_one_ok existing nominated headers count m headers' count' :
  Headers.apply_one Headers.Request existing nominated headers count m = Ok (headers', count') →
  allowed_mutation nominated m ∧ headers' = edit_headers headers m.
Proof.
  destruct m as [[n v action|n]|]; cbn [Headers.apply_one]; [..|done].
  - intros (name & Hname & (? & Ha & H)%let_Ok)%let_Ok. cbn [bool_decide andb] in H.
    destruct (Headers.is_connection_nominated nominated name) eqn:Hc; [done|].
    destruct (Headers.is_safe_value v) eqn:Hv; [|done]. cbn [negb] in H.
    destruct (Secrets.header_value_contains_reserved_credential_marker v) eqn:Hmk; [done|]. apply let_Ok in H as (? & _ & H).
    destruct (negb _) eqn:E1 in H; [done|]. destruct (action =? 0) eqn:E2 in H; [done|]. injection H as <- _.
    destruct (authority_open _ _ _ _ _ Hname Ha Hc) as (-> & Ht & Ho).
    split; [|done]. split; [done|split; [done|]]. split_and!; [by apply forallb_Forall|done|lia|lia].
  - intros (name & Hname & (? & Ha & H)%let_Ok)%let_Ok.
    destruct (Headers.is_connection_nominated nominated name) eqn:Hc; [done|].
    apply let_Ok in H as (? & _ & H). injection H as <- _.
    by destruct (authority_open _ _ _ _ _ Hname Ha Hc) as (-> & Ht & Ho).
Qed.
Lemma apply_all_ok existing nominated headers count ms headers' :
  Headers.apply_all Headers.Request existing nominated headers count ms = Ok headers' →
  Forall (allowed_mutation nominated) ms ∧ headers' = foldl edit_headers headers ms.
Proof.
  revert headers count. induction ms as [|m ms IH]; intros headers count; cbn [Headers.apply_all]; [by intros [= <-]|].
  intros ([h c] & [Hm ->]%apply_one_ok & [Hms ->]%IH)%let_Ok. split; [by constructor|done].
Qed.

(** ** The replay of mutations on the head *)

Lemma same_has name headers headers' :
  Forall2 same_header headers headers' →
  existsb (Headers.has_name name) headers = existsb (Headers.has_name name) headers'.
Proof.
  induction 1 as [|h h' hs hs' [Hn _] _ IH]; [done|]. cbn [existsb]. unfold Headers.has_name at 1 3.
  by rewrite Hn, IH.
Qed.
Lemma same_retain name headers headers' :
  Forall2 same_header headers headers' →
  Forall2 same_header (Headers.retain_others name headers) (Headers.retain_others name headers').
Proof.
  induction 1 as [|h h' hs hs' Hh _ IH]; [constructor|]. unfold Headers.retain_others in *. cbn [List.filter].
  assert (Headers.has_name name h = Headers.has_name name h') as -> by (unfold Headers.has_name; by rewrite (proj1 Hh)).
  destruct (negb _); by try constructor.
Qed.

(** The fields that a stage saw after the mutations are the fields of the head. *)
Lemma replay_one nominated headers fields m :
  Forall field_line fields → allowed_mutation nominated m →
  Forall2 same_header headers (seen_by nominated fields) →
  Forall2 same_header (edit_headers headers m) (seen_by nominated (edit_fields fields m)).
Proof.
  intros Hf Hm H. destruct m as [[n v action|n]|]; cbn [allowed_mutation edit_headers edit_fields] in *; [|..|done].
  - destruct Hm as (Ht & Ho & _). rewrite (same_has _ _ _ H), <- seen_by_has by done.
    assert (Forall2 same_header [http_header (to_ascii_lowercase n) v] (seen_by nominated [header_field n v])) as Hv
      by (rewrite seen_by_field by done; by repeat constructor).
    repeat case_match; rewrite ?seen_by_app; [by apply Forall2_app| |done].
    apply Forall2_app; [|done]. rewrite seen_by_without by done. by apply same_retain.
  - rewrite seen_by_without by done. by apply same_retain.
Qed.
Lemma replay_all nominated headers fields ms :
  Forall field_line fields → Forall (allowed_mutation nominated) ms → Forall sane_mutation ms →
  Forall2 same_header headers (seen_by nominated fields) →
  Forall2 same_header (foldl edit_headers headers ms) (seen_by nominated (foldl edit_fields fields ms)).
Proof.
  intros Hf Hms Hs. revert headers fields Hf. induction Hms as [|m ms Hm Hms IH]; intros headers fields Hf H; [done|].
  apply Forall_cons_1 in Hs as [Hsm Hs]. cbn [foldl]. apply IH; [done|by apply edit_fields_lines|by apply replay_one].
Qed.
End authority.

(** ** The stages of a chain *)

Section stages.
Context {base64 : Base64} {services : MiddlewareServices}.

(** A body that the request had, or that the policy admitted after it was replaced. *)
Definition body_admitted (policy : TransformedBodyPolicy) (body : bytes) : Prop :=
  Z.of_nat (length body) ≤ MAX_MIDDLEWARE_PAYLOAD_BYTES ∧
  match policy with Reevaluate validate => validate body = Ok None | NotPolicyRelevant => True end.
Lemma stage_result_ok n e s r :
  stage_result n e s = Ok r →
  (res_decision r = 1 ∨ res_decision r = 2) ∧ Z.of_nat (length (res_body r)) ≤ MAX_MIDDLEWARE_PAYLOAD_BYTES ∧
  ∃ answer, evaluate_http_request n (dc_entry e) (cs_headers s) (cs_body s) = Ok answer ∧
    res_mutations r = res_mutations answer.
Proof.
  unfold stage_result. destruct (negb _); [done|]. destruct (_ <? _); [done|]. intros (? & _ & H)%let_Ok.
  destruct (deadline_passed n); [done|]. apply let_Ok in H as (a & Ha & H). apply let_Ok in H as (? & Hv & H).
  apply map_err_Ok in Ha. assert (Z.of_nat (length (res_body a)) ≤ MAX_MIDDLEWARE_PAYLOAD_BYTES) as Hl.
  { unfold validate_response_envelope in Hv. by destruct (Z.ltb_spec MAX_MIDDLEWARE_PAYLOAD_BYTES (Z.of_nat (length (res_body a)))). }
  destruct (_ || _) eqn:E; [|done]. injection H as <-. split; [lia|].
  unfold process_result. by destruct (dc_normalize e); (split; [done|]; exists a).
Qed.
Lemma stage_headers_ok nominated e s r headers :
  stage_headers nominated e s r = Ok headers →
  Forall (allowed_mutation nominated) (res_mutations r) ∧ headers = foldl edit_headers (cs_headers s) (res_mutations r).
Proof.
  unfold stage_headers. destruct (_ && _); [done|]. destruct (res_mutations r) as [|m ms] eqn:E; cbn [is_empty].
  { by intros [= <-]. }
  rewrite <- E. intros H%map_err_Ok. unfold Headers.apply in H. destruct (Nat.ltb _ _); [done|].
  by apply apply_all_ok in H.
Qed.

(** *** A chain in terms of what its services answered *)

(** Why a stage counts as failed on the fields and the body it is given. *)
Definition stage_failed (nominated : list bytes) (n : nat) (e : DescribedChainEntry)
  (headers : list HttpHeader) (body : bytes) : Prop :=
  dc_resolved e = false ∨ dc_max_payload_bytes e < Z.of_nat (length body)
  ∨ (∃ r, validate_request_view (dc_entry e) headers body = Err r) ∨ deadline_passed n = true
  ∨ (∃ r, evaluate_http_request n (dc_entry e) headers body = Err r)
  ∨ ∃ a, evaluate_http_request n (dc_entry e) headers body = Ok a
      ∧ ((∃ r, validate_response_envelope a = Err r)
         ∨ res_decision a ≠ 1 ∧ res_decision a ≠ 2
         ∨ res_decision a = 1
           ∧ (res_has_body a = true ∧ dc_max_payload_bytes e < Z.of_nat (length (res_body a))
              ∨ ∃ r, Headers.apply Headers.Request headers nominated (res_mutations a) = Err r)).

(** The body after a stage. *)
Definition body_after (a : HttpRequestResult) (body : bytes) : bytes :=
  if res_has_body a then res_body a else body.

(** A stage that let the request pass: its record, its mutations and what the
    next stage is given. *)
Inductive StageRan (nominated : list bytes) (policy : TransformedBodyPolicy) (n : nat)
  (e : DescribedChainEntry) (headers : list HttpHeader) (body : bytes)
  : MiddlewareInvocation → list (option HeaderOperation) → list HttpHeader → bytes → Prop :=
| stage_failed_open iv :
    stage_failed nominated n e headers body → ce_on_error (dc_entry e) = FailOpen →
    iv_name iv = ce_name (dc_entry e) → iv_failed iv = true →
    StageRan nominated policy n e headers body iv [] headers body
| stage_allowed iv a :
    evaluate_http_request n (dc_entry e) headers body = Ok a → res_decision a = 1 →
    dc_resolved e = true → Z.of_nat (length body) ≤ dc_max_payload_bytes e →
    Forall (allowed_mutation nominated) (res_mutations a) →
    (res_has_body a = true → body_admitted policy (res_body a)) →
    iv_name iv = ce_name (dc_entry e) → iv_decision iv = Allow → iv_failed iv = false →
    StageRan nominated policy n e headers body iv (res_mutations a)
      (foldl edit_headers headers (res_mutations a)) (body_after a body).

(** Stages that ran one after the other, from the [n]th on. *)
Inductive Ran (nominated : list bytes) (policy : TransformedBodyPolicy)
  : nat → list DescribedChainEntry → list HttpHeader → bytes →
    list MiddlewareInvocation → list (option HeaderOperation) → list HttpHeader → bytes → Prop :=
| ran_none n headers body : Ran nominated policy n [] headers body [] [] headers body
| ran_stage n e es headers body iv ms headers1 body1 ivs ms' headers2 body2 :
    StageRan nominated policy n e headers body iv ms headers1 body1 →
    Ran nominated policy (S n) es headers1 body1 ivs ms' headers2 body2 →
    Ran nominated policy n (e :: es) headers body (iv :: ivs) (ms ++ ms') headers2 body2.

(** Why a stage ended its chain. *)
Definition StageStopped (nominated : list bytes) (policy : TransformedBodyPolicy) (n : nat)
  (e : DescribedChainEntry) (headers : list HttpHeader) (body : bytes) (o : ChainOutcome) : Prop :=
  match oc_reason o with
  | MiddlewareFailed _ => stage_failed nominated n e headers body
      ∧ ce_on_error (dc_entry e) = FailClosed ∧ oc_denial o = None
  | DeniedBy d => (∃ a, evaluate_http_request n (dc_entry e) headers body = Ok a ∧ res_decision a = 2)
      ∧ oc_denial o = Some d ∧ config_name d = ce_name (dc_entry e)
  | TransformedBodyDenied reason => ∃ a validate,
      evaluate_http_request n (dc_entry e) headers body = Ok a ∧ res_decision a = 1
      ∧ res_has_body a = true ∧ oc_body o = res_body a
      ∧ policy = Reevaluate validate ∧ validate (oc_body o) = Ok (Some reason)
  | TransformedBodyFailed => ∃ a validate err,
      evaluate_http_request n (dc_entry e) headers body = Ok a ∧ res_decision a = 1
      ∧ res_has_body a = true ∧ oc_body o = res_body a
      ∧ policy = Reevaluate validate ∧ validate (oc_body o) = Err err
  | NoReason => False
  end.

(** The answer that counts is the service's, but for its diagnostics. *)
Lemma process_result_same e a :
  let r := process_result e a in
  res_decision r = res_decision a ∧ res_mutations r = res_mutations a
  ∧ res_has_body r = res_has_body a ∧ res_body r = res_body a.
Proof. unfold process_result. by destruct (dc_normalize e). Qed.

Lemma stage_result_cases nominated n e s :
  match stage_result n e s with
  | Err _ => stage_failed nominated n e (cs_headers s) (cs_body s)
  | Ok r => ∃ a, evaluate_http_request n (dc_entry e) (cs_headers s) (cs_body s) = Ok a
      ∧ r = process_result e a ∧ (res_decision a = 1 ∨ res_decision a = 2)
      ∧ dc_resolved e = true ∧ Z.of_nat (length (cs_body s)) ≤ dc_max_payload_bytes e
      ∧ Z.of_nat (length (res_body a)) ≤ MAX_MIDDLEWARE_PAYLOAD_BYTES
  end.
Proof.
  unfold stage_result, stage_failed. destruct (dc_resolved e); cbn [negb]; [|by left].
  destruct (Z.ltb_spec (dc_max_payload_bytes e) (Z.of_nat (length (cs_body s)))); [by right; left|].
  destruct (validate_request_view _ _ _) as [u|r]; [|right; right; left; by exists r].
  destruct (deadline_passed n); [by do 3 right; left|].
  destruct (evaluate_http_request _ _ _ _) as [a|r] eqn:Ha; cbn [map_err]; [|do 4 right; left; by exists r].
  destruct (validate_response_envelope a) as [u'|r] eqn:Hv; [|do 5 right; exists a; split; [done|]; left; by exists r].
  destruct (process_result_same e a) as (-> & _).
  destruct (_ || _) eqn:Hd.
  - exists a. split_and!; [done|done|lia|done|done|]. unfold validate_response_envelope in Hv.
    by destruct (Z.ltb_spec MAX_MIDDLEWARE_PAYLOAD_BYTES (Z.of_nat (length (res_body a)))).
  - do 5 right. exists a. split; [done|]. right; left. lia.
Qed.

Lemma stage_headers_cases nominated e s a :
  match stage_headers nominated e s (process_result e a) with
  | Err _ => res_has_body a = true ∧ dc_max_payload_bytes e < Z.of_nat (length (res_body a))
             ∨ ∃ r, Headers.apply Headers.Request (cs_headers s) nominated (res_mutations a) = Err r
  | Ok headers => Forall (allowed_mutation nominated) (res_mutations a)
      ∧ headers = foldl edit_headers (cs_headers s) (res_mutations a)
  end.
Proof.
  destruct (process_result_same e a) as (_ & Hm & Hh & Hb).
  destruct (stage_headers nominated e s (process_result e a)) as [headers|r] eqn:E.
  { apply stage_headers_ok in E. by rewrite Hm in E. }
  unfold stage_headers in E. rewrite Hm, Hh, Hb in E.
  destruct (res_has_body a && _) eqn:Hl.
  - left. apply andb_true_iff in Hl as [-> Hl]. split; [done|lia].
  - destruct (is_empty (res_mutations a)); [done|]. right.
    destruct (Headers.apply _ _ _ _) as [|r']; [done|]. by exists r'.
Qed.

(** The state after a stage, and the outcome of one that ended the chain. *)
Definition stage_outcome (nominated : list bytes) (policy : TransformedBodyPolicy) (n : nat)
  (e : DescribedChainEntry) (s : ChainState) (r : ChainOutcome + ChainState) : Prop :=
  match r with
  | inr s' => ∃ iv ms,
      StageRan nominated policy n e (cs_headers s) (cs_body s) iv ms (cs_headers s') (cs_body s')
      ∧ cs_applied s' = cs_applied s ++ [iv] ∧ cs_mutations s' = cs_mutations s ++ ms
  | inl o => ∃ iv, StageStopped nominated policy n e (cs_headers s) (cs_body s) o
      ∧ oc_allowed o = false ∧ iv_name iv = ce_name (dc_entry e) ∧ oc_applied o = cs_applied s ++ [iv]
  end.

Lemma apply_on_error_outcome nominated policy n e s reason :
  stage_failed nominated n e (cs_headers s) (cs_body s) →
  stage_outcome nominated policy n e s (apply_on_error e reason s).
Proof.
  intros H. unfold apply_on_error. destruct (ce_on_error (dc_entry e)) eqn:E; cbn.
  - eexists. split; [|split; [|split; [|reflexivity]]]; [|done|done]. unfold StageStopped. cbn.
    rewrite E. by split_and!.
  - eexists _, []. split; [|split; [reflexivity|by rewrite app_nil_r]]. by apply stage_failed_open.
Qed.

Lemma run_stage_outcome nominated policy n e s :
  stage_outcome nominated policy n e s (run_stage nominated policy n e s).
Proof.
  unfold run_stage. pose proof (stage_result_cases nominated n e s) as H.
  destruct (stage_result n e s) as [r|reason]; [|by apply apply_on_error_outcome].
  destruct H as (a & Ha & -> & Hd & Hres & Hlen & Hpay).
  destruct (process_result_same e a) as (Pd & Pm & Ph & Pb). rewrite Pd.
  destruct (Z.eqb_spec (res_decision a) 2).
  { eexists. split; [|split; [|split; [|reflexivity]]]; [|done|done]. unfold StageStopped. cbn. split_and!; [by exists a|done|done]. }
  assert (res_decision a = 1) as Hone by lia.
  pose proof (stage_headers_cases nominated e s a) as Hh.
  destruct (stage_headers nominated e s (process_result e a)) as [headers|reason].
  2: { apply apply_on_error_outcome. do 5 right. exists a. split; [done|]. by do 2 right. }
  destruct Hh as [Hm ->]. rewrite Pm, Ph, Pb. cbn zeta.
  set (s' := record_invocation _ _ _ _ _).
  assert ((res_has_body a = true → body_admitted policy (res_body a)) →
    stage_outcome nominated policy n e s (inr s')) as Hok.
  { intros Hb. eexists _, (res_mutations a). split; [|split; [reflexivity|done]].
    by apply stage_allowed with (a := a). }
  destruct policy as [|validate]; [by apply Hok|].
  destruct (res_has_body a) eqn:Hb; [|by apply Hok].
  destruct (validate (res_body a)) as [[reason|]|err] eqn:Hv.
  - eexists. split; [|split; [|split; [|reflexivity]]]; [|done|done]. unfold StageStopped. cbn. exists a, validate. by split_and!.
  - apply Hok. by split.
  - eexists. split; [|split; [|split; [|reflexivity]]]; [|done|done]. unfold StageStopped. cbn. exists a, validate, err. by split_and!.
Qed.

Lemma run_stages_ran nominated policy n es s :
  let o := run_stages nominated policy n es s in
  (∃ ivs ms headers, oc_allowed o = true
     ∧ Ran nominated policy n es (cs_headers s) (cs_body s) ivs ms headers (oc_body o)
     ∧ oc_applied o = cs_applied s ++ ivs ∧ oc_mutations o = cs_mutations s ++ ms)
  ∨ (∃ pre e post ivs iv ms headers body, es = pre ++ e :: post ∧ oc_allowed o = false
     ∧ Ran nominated policy n pre (cs_headers s) (cs_body s) ivs ms headers body
     ∧ StageStopped nominated policy (n + length pre) e headers body o
     ∧ iv_name iv = ce_name (dc_entry e) ∧ oc_applied o = cs_applied s ++ ivs ++ [iv]).
Proof.
  cbn zeta. revert n s. induction es as [|e es IH]; intros n s; cbn [run_stages].
  { left. exists [], [], (cs_headers s). cbn. rewrite !app_nil_r. split_and!; [done|constructor|done|done]. }
  pose proof (run_stage_outcome nominated policy n e s) as H.
  destruct (run_stage nominated policy n e s) as [o|s1].
  { destruct H as (iv & Hst & Hal & Hn & Hap). right. exists [], e, es, [], iv, [], (cs_headers s), (cs_body s).
    cbn [length]. rewrite Nat.add_0_r. split_and!; [done|done|constructor|done|done|done]. }
  destruct H as (iv1 & ms1 & Hran & Hap1 & Hms1).
  destruct (IH (S n) s1) as [(ivs & ms & hs & Hal & Hr & Hap & Hms)
    |(pre & e' & post & ivs & iv & ms & hs & b & -> & Hal & Hr & Hst & Hn & Hap)].
  - left. exists (iv1 :: ivs), (ms1 ++ ms), hs. rewrite Hap, Hap1, Hms, Hms1, <- !app_assoc.
    split_and!; [done|by econstructor|done|done].
  - right. exists (e :: pre), e', post, (iv1 :: ivs), iv, (ms1 ++ ms), hs, b. rewrite Hap, Hap1, <- !app_assoc.
    replace (n + length (e :: pre))%nat with (S n + length pre)%nat by (cbn; lia).
    split_and!; [done|done|by econstructor|done|done|done].
Qed.

(** What stages that ran hand on. *)
Lemma ran_hands_on nominated policy n es headers body ivs ms headers' body' :
  Ran nominated policy n es headers body ivs ms headers' body' →
  Forall (allowed_mutation nominated) ms ∧ headers' = foldl edit_headers headers ms
  ∧ (body' = body ∨ body_admitted policy body').
Proof.
  induction 1 as [|n e es headers body iv ms h1 b1 ivs ms' h2 b2 Hs _ (Ha & -> & Hb)]; [by split_and!; try left|].
  assert (Forall (allowed_mutation nominated) ms ∧ h1 = foldl edit_headers headers ms
    ∧ (b1 = body ∨ body_admitted policy b1)) as (Ha1 & -> & Hb1).
  { destruct Hs as [iv Hf Ho Hn Hi|iv a _ _ _ _ Hm Hadm _ _ _]; [by split_and!; try left|].
    split_and!; [done|done|]. unfold body_after. destruct (res_has_body a); [right; by apply Hadm|by left]. }
  split_and!; [by apply Forall_app|by rewrite foldl_app|]. destruct Hb as [->|?]; [done|by right].
Qed.
End stages.

Section chain_property.
Context {base64 : Base64} {services : MiddlewareServices}.

(** ** Properties *)

(** C11: a chain is fail closed. It allows a request only after every stage, in
    order, ran on what the one before it left: its service allowed the request
    with mutations within the authority of middleware and a body in bounds that
    a policy to be evaluated again admitted, or the stage failed, for one of the
    reasons that count as failure, and may fail open. The mutations and the body
    it hands on are those of these answers. A chain that does not allow the
    request stopped at the first stage that failed and fails closed, whose
    service denied, or whose body the policy refuses, and no later stage ran. A
    chain is refused without being run only if it is too long. *)
Theorem chain_is_fail_closed entries headers nominated body policy :
  match evaluate_described_with_policy_admitted entries headers nominated body policy with
  | None => (MAX_MIDDLEWARE_CHAIN_STAGES < length entries)%nat
  | Some o =>
      if oc_allowed o then
        ∃ headers', Ran nominated policy 0 entries headers body (oc_applied o) (oc_mutations o)
                      headers' (oc_body o)
      else ∃ pre e post ivs iv ms headers' body', entries = pre ++ e :: post
        ∧ Ran nominated policy 0 pre headers body ivs ms headers' body'
        ∧ StageStopped nominated policy (length pre) e headers' body' o
        ∧ iv_name iv = ce_name (dc_entry e) ∧ oc_applied o = ivs ++ [iv]
  end.
Proof.
  unfold evaluate_described_with_policy_admitted. destruct (Nat.ltb_spec MAX_MIDDLEWARE_CHAIN_STAGES (length entries)); [done|].
  destruct (run_stages_ran nominated policy 0 entries (chain_state headers body [] [] ∅ []))
    as [(ivs & ms & hs & -> & Hr & -> & ->)|(pre & e & post & ivs & iv & ms & hs & b & He & -> & Hr & Hst & Hn & ->)].
  - by exists hs.
  - exists pre, e, post, ivs, iv, ms, hs, b. by split_and!.
Qed.
End chain_property.
