(* ===== verification/MiddlewareForward.v ===== *)
(** * MiddlewareForward: a request that passed its middleware
    (crates/openshell-supervisor-network/src/l7/middleware.rs, src/l7/rest.rs)

    The body of the request is buffered, the chain is run on it and the request
    is built again: what reaches the upstream is one request, with the request
    line, the protected fields and the identity that the policy has judged. *)

From stdpp Require Import gmap.
From S2P Require Import Prelude PathCanon IpParse Order Text Base64 Patterns Destination Secrets SecretsHeaders PolicyTypes PolicyMerge PolicyMergeFacts PolicyValidate Connect Http HttpEdit HttpBody ChunkedFacts ChunkedBuffers ChunkedScan HttpFacts HttpForward HttpEditFacts Middleware MiddlewareFacts.
Import IpParse.

(** ** The head of a request, as middleware reads it *)

Lemma split_text ls : Forall (λ l, no_crlf l = true) ls → split_str CRLF (lines_text ls) = ls ++ [[]].
Proof.
  induction 1 as [|l ls Hl _ IH]; [done|]. unfold lines_text in *. cbn [map concat].
  rewrite <- app_assoc, split_crlf by done. by rewrite IH.
Qed.
Lemma good_block s rl fields block :
  good_head s rl fields → strip_suffix DOUBLE_CRLF s = Some block → split_str CRLF block = rl :: fields.
Proof.
  intros H Hb%strip_suffix_Some. pose proof (good_lines _ _ _ H) as Hl. destruct H as [Hs _ _ _].
  destruct (split_block_lines block) as (rl' & ls & -> & Hf & Ht).
  assert (lines_text (rl' :: ls) = lines_text (rl :: fields)) as E.
  { apply (app_inv_tail CRLF). rewrite <- Hs, Hb. unfold DOUBLE_CRLF. rewrite app_assoc, Ht.
    unfold lines_text. cbn [map concat]. by rewrite <- !app_assoc. }
  apply (f_equal (split_str CRLF)) in E. rewrite !split_text in E; [by apply app_inj_tail in E as [? _]| |done].
  eapply list.Forall_impl; [exact Hl|]. by intros l [_ ?].
Qed.

(** The names that the [Connection] fields list. *)
Definition nominated_of (fields : list bytes) : list bytes :=
  List.filter (λ t, negb (is_empty t)) (concat (map connection_tokens fields)).
Lemma connection_nominated_good s rl fields names :
  good_head s rl fields → connection_nominated_header_names s = Ok names →
  names = dedup_first (nominated_of fields).
Proof.
  intros H. unfold connection_nominated_header_names. rewrite (good_valid _ _ _ H). cbn [ok_or].
  intros (? & _ & (block & Hb & Hn)%let_Ok)%let_Ok. destruct (strip_suffix DOUBLE_CRLF s) as [b|] eqn:E; [|done].
  injection Hb as ->. injection Hn as <-. by rewrite (good_block _ _ _ _ H E).
Qed.
Lemma collect_headers fields parsed :
  Forall field_line fields →
  try_collect (λ line, ok_or (header_of_line line) Http.Panicked) fields = Ok parsed →
  parsed = omap header_of_line fields.
Proof.
  intros _ H%try_collect_Forall2. induction H as [|l h ls hs Hl _ IH]; [done|]. cbn.
  destruct (header_of_line l); [|done]. injection Hl as ->. by rewrite IH.
Qed.
Lemma safe_headers_good s rl fields seen nominated :
  good_head s rl fields → safe_middleware_headers s = Ok (seen, nominated) →
  (∀ n, n ∈ nominated ↔ n ∈ nominated_of fields) ∧ seen = seen_by nominated fields.
Proof.
  intros H. unfold safe_middleware_headers. rewrite (good_valid _ _ _ H). cbn [ok_or].
  intros (? & _ & (block & Hb & (names & Hn & (parsed & Hp & E)%let_Ok)%let_Ok)%let_Ok)%let_Ok.
  destruct (strip_suffix DOUBLE_CRLF s) as [b|] eqn:Eb; [|done]. injection Hb as ->.
  apply (connection_nominated_good _ _ _ _ H) in Hn as ->. rewrite (good_block _ _ _ _ H Eb) in Hp.
  change (drop 1 (rl :: fields)) with fields in Hp. apply collect_headers in Hp as ->; [|apply H].
  injection E as <- <-. assert (∀ n, n ∈ sort_by bytes_cmp (dedup_first (nominated_of fields)) ↔ n ∈ nominated_of fields) as Hin.
  { intros n. by rewrite sort_by_elem, dedup_first_elem. }
  split; [done|]. unfold seen_by. apply List.filter_ext. intros h. unfold is_visible. f_equal. f_equal.
  apply bool_decide_ext. by rewrite Hin, dedup_first_elem.
Qed.

(** Removing a field other than [Connection] keeps the names. *)
Definition EXPECT : bytes := lit "expect".
Lemma nominated_without n fields :
  Forall field_line fields → eq_ignore_ascii_case n (lit "connection") = false →
  nominated_of (without n fields) = nominated_of fields.
Proof.
  intros Hf Hn. unfold nominated_of. f_equal. induction Hf as [|l ls Hl _ IH]; [done|].
  unfold without in *. cbn [List.filter map concat]. rewrite (named_field n l Hl).
  destruct (field_split _ Hl) as (name & value & -> & Hs & Ht). rewrite field_value_name by done.
  destruct (eq_ignore_ascii_case name n) eqn:E; cbn [is_some negb map concat]; rewrite IH; [|done].
  assert (connection_tokens (name ++ 58 :: value) = []) as -> by (unfold connection_tokens; by rewrite Hs, (eqic_trans _ _ _ E), Hn).
  done.
Qed.

(** ** The body of a request, as middleware buffers it *)

(** A body with this framing, and the bytes it takes on the wire. *)
Definition body_read (len : BodyLength) (body wire : bytes) : Prop :=
  match len with
  | ContentLength n => wire = body ∧ length body = Z.to_nat n
  | Chunked => Coding MAX_REWRITE_BODY_BYTES body [] wire
  | NoBody => body = [] ∧ wire = []
  end.
Lemma coding_length L data ts w : Coding L data ts w → (length data ≤ length w)%nat.
Proof. induction 1; rewrite ?length_app; cbn [length]; rewrite ?length_app; lia. Qed.

Lemma taken_nothing_ahead s d a' s' : Taken [] s d a' s' → stream (client s) = d ++ stream (client s').
Proof.
  intros [Hin [-> |[_ E]] _]; [done|]. symmetry in E. by apply app_eq_nil in E as [-> ->].
Qed.
Lemma expect_good s0 rl fields needs s :
  good_head s0 rl fields →
  wp (handle_buffered_expect_continue s0 needs) s (λ r s',
    ∃ s1, r = Ok s1 ∧ good_head s1 rl (without EXPECT fields) ∧ client s' = client s ∧ written s' = written s).
Proof.
  intros H. unfold handle_buffered_expect_continue. apply wp_bind, wp_lift. rewrite (good_valid _ _ _ H). cbn [ok_or].
  assert (token EXPECT) as Ht by (split; [done|]; apply forallb_Forall; vm_compute; reflexivity).
  destruct (strip_header_good _ _ _ _ H Ht) as (s1 & Hs & Hg). fold EXPECT.
  apply wp_bind. destruct (needs && has_expect_continue s0); unfold wp, reply; cbn [fst snd ret];
    rewrite Hs; by exists s1.
Qed.
Lemma good_head_end s rl fields : good_head s rl fields → head_end s = Some (length s).
Proof.
  intros H. pose proof (good_head_Head _ _ _ H) as [Hs Hr Hf]. unfold head_end, DOUBLE_CRLF.
  rewrite Hs at 1. rewrite find_head_end by done. cbn. f_equal. rewrite Hs, !length_app. cbn. lia.
Qed.
Lemma read_rest_spec n s :
  wp (read_rest n []) s (λ r s',
    written s' = written s ∧
    match r with
    | Ok body => length body = Z.to_nat n ∧ stream (client s) = body ++ stream (client s')
    | Err e => e ≠ OutOfFuel
    end).
Proof.
  unfold read_rest. apply wp_bind, wp_with_fuel. destruct (Z.leb_spec n 0) as [Hn|Hn].
  { cbn [app length]. cbn [read_remaining]. rewrite (proj2 (Z.leb_le n 0)) by done. apply wp_ret. apply wp_ret. cbn.
    by rewrite Z2Nat.nonpos. }
  eapply wp_mono; [apply read_remaining_spec; [cbn; lia|lia|by left|done]|]. intros [[out st']|e] s'.
  - intros (d & -> & Hl & [Ht _ _ _ Hw]). apply wp_ret. split; [done|]. cbn [fst app]. split; [lia|].
    by apply (taken_nothing_ahead s d (buffered st') s').
  - intros [Hor Hw]. split; [done|]. destruct Hor as [[-> _]|[[->| ->] _]]; done.
Qed.

(** Buffering takes exactly the body from the client and writes nothing upstream. *)
Lemma buffer_spec req max rl fields s :
  good_head (raw_header req) rl fields →
  wp (buffer_request_body_for_middleware req max) s (λ r s',
    written s' = written s ∧
    match r with
    | Ok (Buffered headers body) => good_head headers rl (without EXPECT fields) ∧
        ∃ wire, body_read (body_length req) body wire ∧ stream (client s) = wire ++ stream (client s') ∧
          (body = [] ∨ Z.of_nat (length body) ≤ max)
    | Ok (OverCapacityBody recoverable) => recoverable = true → client s' = client s
    | Err e => e ≠ OutOfFuel
    end).
Proof.
  intros H. unfold buffer_request_body_for_middleware. rewrite (good_head_end _ _ _ H).
  cbn [default from_option]. unfold id. rewrite take_ge, drop_ge by lia.
  destruct (body_length req) as [n| |] eqn:Eb; cbn [is_empty negb].
  - destruct (Z.ltb_spec max n); [by apply wp_ret|]. rewrite take_nil. cbn [length].
    apply wp_bind. eapply wp_mono; [by apply (expect_good _ _ _ _ _ H)|]. cbn beta.
    intros ? s1 (h & -> & Hg & Hc & Hw). apply wp_bind. rewrite Z.sub_0_r.
    eapply wp_mono; [apply read_rest_spec|]. intros [body|e] s2 [Hw2 H2]; [|by rewrite Hw2].
    apply wp_ret. split; [by rewrite Hw2|]. split; [done|]. destruct H2 as [Hl Hst]. exists body. cbn.
    rewrite <- Hc. split_and!; [done|done|done|]. destruct (Z.leb_spec n 0); [left|right; lia].
    apply nil_length_inv. lia.
  - apply wp_bind. eapply wp_mono; [by apply (expect_good _ _ _ _ _ H)|]. cbn beta.
    intros ? s1 (h & -> & Hg & Hc & Hw). unfold wp.
    pose proof (collect_chunked_body_exact [] (Some max) s1) as Hx.
    destruct (collect_chunked_body [] (Some max) s1) as [[body|e] s2]; cbn [fst snd].
    + destruct Hx as (Hw2 & wire & rest & Hcod & Ht & Hm). split; [congruence|].
      split; [done|]. exists wire. split; [done|]. rewrite <- Hc. split.
      * by apply (taken_nothing_ahead s1 wire rest s2).
      * right. specialize (Hm max eq_refl). apply coding_length in Hcod. lia.
    + destruct Hx as (Hw2 & He & _). destruct e; cbn [fst snd]; (split; [congruence|]); try done.
  - apply wp_bind. eapply wp_mono; [by apply (expect_good _ _ _ _ _ H)|]. cbn beta.
    intros ? s1 (h & -> & Hg & Hc & Hw). apply wp_ret. split; [done|]. split; [done|]. exists [].
    rewrite Hc. split_and!; by try left.
Qed.

(** ** Framing and the view *)

Lemma retain_absent name headers :
  Forall (λ h, hh_name h ≠ name) headers → Headers.retain_others name headers = headers.
Proof.
  unfold Headers.retain_others. induction 1 as [|h hs Hh _ IH]; [done|]. cbn [List.filter].
  unfold Headers.has_name at 1. rewrite bool_decide_false by done. cbn [negb]. by rewrite IH.
Qed.
(** Fields that middleware does not see do not matter to it. *)
Lemma seen_by_hidden nominated n fields :
  Forall field_line fields → ¬ open_name nominated (to_ascii_lowercase n) →
  seen_by nominated (without n fields) = seen_by nominated fields.
Proof.
  intros Hf Hn. rewrite seen_by_without by done. apply retain_absent, list.Forall_forall. intros h Hh E.
  apply Hn. rewrite <- E. unfold seen_by in Hh. apply list_elem_of_In, filter_In in Hh as [_ Hh]. by apply is_visible_open in Hh.
Qed.
Lemma hidden_protected nominated n :
  Headers.is_request_protected (to_ascii_lowercase n) = true → ¬ open_name nominated (to_ascii_lowercase n).
Proof. intros Hp (_ & Ho & _). congruence. Qed.
Lemma seen_by_line nominated l :
  field_line l → (∃ n, named n l = true ∧ ¬ open_name nominated (to_ascii_lowercase n)) → seen_by nominated [l] = [].
Proof.
  intros Hl (n & Hn & Ho). destruct (header_of_field _ Hl) as (name & value & -> & _ & Hh & Hnm).
  rewrite seen_by_cons, Hh. rewrite Hnm in Hn. apply bool_decide_eq_true in Hn. set (h := http_header _ _) in *.
  destruct (is_visible nominated h) eqn:E; [|done]. apply is_visible_open in E. by rewrite Hn in E.
Qed.
Lemma seen_by_set nominated len inserted fields :
  0 ≤ len → Forall field_line fields → seen_by nominated (set_fields len inserted fields) = seen_by nominated fields.
Proof.
  intros Hlen Hf. assert (¬ open_name nominated (to_ascii_lowercase CL)) as Hcl
    by (apply hidden_protected; by vm_compute).
  assert (seen_by nominated [length_field len] = []) as Hl.
  { apply seen_by_line; [by apply length_field_line|]. exists CL. split; [|done].
    rewrite named_field, length_field_value by (by apply length_field_line). by vm_compute. }
  revert inserted. induction Hf as [|l ls Hll _ IH]; intros inserted; cbn [set_fields].
  - by destruct inserted.
  - rewrite (seen_by_app nominated [l] ls : seen_by nominated (l :: ls) = _).
    destruct (named CL l) eqn:E.
    + rewrite (seen_by_line _ l) by eauto. destruct inserted; cbn [app]; [apply IH|].
      change (length_field len :: ?x) with ([length_field len] ++ x). by rewrite seen_by_app, Hl, IH.
    + change (l :: set_fields len inserted ls) with ([l] ++ set_fields len inserted ls). by rewrite seen_by_app, IH.
Qed.
Lemma seen_by_length_framed nominated len body fields :
  Forall field_line fields → seen_by nominated (length_framed len body fields) = seen_by nominated fields.
Proof.
  intros Hf. pose proof (length_field_line (Z.of_nat (length body)) ltac:(lia)).
  assert (∀ n fs, n ∈ [TE; CL; TRAILER] → Forall field_line fs → seen_by nominated (without n fs) = seen_by nominated fs) as Hw.
  { intros n fs Hn Hfs. apply seen_by_hidden; [done|]. apply hidden_protected. 
    rewrite !elem_of_cons, elem_of_nil in Hn. destruct Hn as [->|[->|[->|[]]]]; by vm_compute. }
  assert (Forall field_line (set_fields (Z.of_nat (length body)) false fields)) by (by apply set_fields_Forall).
  unfold length_framed. repeat case_match; rewrite !Hw; rewrite ?seen_by_set;
    first [done|lia|by repeat apply without_Forall|set_solver].
Qed.

(** The values that a stage sees are trimmed. *)
Lemma seen_same nominated fields : Forall2 same_header (seen_by nominated fields) (seen_by nominated fields).
Proof.
  induction fields as [|l ls IH]; [constructor|]. rewrite seen_by_cons. apply Forall2_app; [|done].
  unfold header_of_line. destruct (split_once 58 l) as [[n v]|]; [|constructor]. cbn.
  destruct (is_visible _ _); [|constructor]. constructor; [|constructor]. split; [done|]. apply trim_trim.
Qed.

(** ** The head of a request that was read *)

(** An input whose request line has an ASCII target that does not start with a colon. *)
Definition plain_request (input : bytes) : Prop :=
  ∃ m c t rest, input = m ++ 32 :: (c :: t) ++ 32 :: rest ∧ 32 ∉ m ∧ 32 ∉ t ∧ c ≠ 32 ∧ c ≠ 58 ∧
    Forall (λ b, b < 128) (c :: t).

Lemma plain_parts input rl m t v rest :
  plain_request input → input = rl ++ rest → request_parts rl m t v →
  Forall (λ b, b < 128) t ∧ ∃ c t', t = c :: t' ∧ c ≠ 58.
Proof.
  intros (m' & c & t' & r & Hin & Hm' & Ht' & Hc & Hc58 & Hf) Hrl [-> [Hm Fm] [Ht Ft] _].
  assert (32 ∉ m) as H1.
  { intros Hx. eapply list.Forall_forall in Hx; [|exact Fm]. apply name_byte_range in Hx. lia. }
  assert (32 ∉ t) as H2.
  { intros Hx. eapply list.Forall_forall in Hx; [|exact Ft]. cbn in Hx. lia. }
  rewrite Hrl in Hin. rewrite <- !app_assoc in Hin. cbn [app] in Hin. rewrite <- !app_assoc in Hin.
  assert (∀ a x b y : bytes, a ++ 32 :: x = b ++ 32 :: y → 32 ∉ a → 32 ∉ b → a = b ∧ x = y) as Hinj.
  { intros a x b y E Ha Hb. apply (f_equal (split_once 32)) in E.
    rewrite !split_once_app in E by done. by injection E. }
  apply Hinj in Hin as [_ Hin]; [|done|done]. cbn [app] in Hin.
  apply (Hinj t _ (c :: t')) in Hin as [-> _]; [|done|rewrite not_elem_of_cons; by split].
  split; [done|]. by exists c, t'.
Qed.
Lemma text_ascii s : Forall (λ b, b < 128) s → text s.
Proof. apply ascii_valid. Qed.

Section parsed_heads.
Context {http_uri : HttpUri} {http_authority : HttpAuthority http_uri}.

(** The target that is forwarded has bytes of a path and of the target. *)
Lemma forwarded_Forall (P : Z → Prop) t opts c q :
  canonicalize_request_target t opts = Ok (c, q) → Forall P t → (∀ b, 33 ≤ b ≤ 126 → P b) →
  Forall P (forwarded_target c q t).
Proof.
  intros Hc Ht HP. unfold forwarded_target. destruct (rewritten c); [|done].
  assert (Forall P (path c)) as Hp.
  { apply canonicalize_ok in Hc as (segs & Hs & ->). eapply list.Forall_impl; [by apply join_chars|].
    intros b ?%path_char_range. apply HP. lia. }
  destruct q as [[|b q]|]; [done| |done]. apply Forall_app. split; [done|]. constructor; [apply HP; lia|].
  unfold canonicalize_request_target in Hc. destruct (reject_bytes t); [done|].
  destruct (contains_byte 35 t); [done|]. destruct (split_target t) as [pp qp] eqn:E.
  apply let_Ok in Hc as (p & _ & Hk). injection Hk as _ ->.
  unfold split_target in E. destruct (split_once 63 t) as [[x y]|] eqn:Es; [|done].
  injection E as _ ->. apply split_once_Some in Es as [-> _]. apply Forall_app in Ht as [_ Ht].
  by apply Forall_cons_1 in Ht as [_ ?].
Qed.
Lemma forwarded_starts t opts c q b t' :
  canonicalize_request_target t opts = Ok (c, q) → t = b :: t' → b ≠ 58 →
  ∃ b' p, forwarded_target c q t = b' :: p ∧ b' ≠ 58.
Proof.
  intros Hc -> Hb. unfold forwarded_target. destruct (rewritten c); [|by exists b, t'].
  apply canonicalize_ok in Hc as (segs & _ & ->). unfold build_canonical_path.
  by destruct q as [[|x q]|]; eexists 47, _.
Qed.
Lemma forwarded_good rl m t v opts c q :
  request_parts rl m t v → Forall (λ b, b < 128) t → (∃ b t', t = b :: t' ∧ b ≠ 58) →
  canonicalize_request_target t opts = Ok (c, q) →
  good_line (m ++ 32 :: forwarded_target c q t ++ 32 :: v) ∧ text (m ++ 32 :: forwarded_target c q t ++ 32 :: v).
Proof.
  intros [_ [Hm Fm] [_ Ft] Hv] Ha (b & t' & Et & Hb) Hc.
  pose proof (forwarded_Forall _ _ _ _ _ Hc Ft ltac:(cbn; lia)) as F1.
  pose proof (forwarded_Forall _ _ _ _ _ Hc Ha ltac:(cbn; lia)) as F2.
  destruct (forwarded_starts _ _ _ _ _ _ Hc Et Hb) as (b' & p & E & Hb'). rewrite E in *. split.
  - exists m, b', p, v. split; [by split|]. split; [|done]. apply Forall_cons_1 in F1 as [? _].
    apply Forall_cons_1 in F2 as [? _]. unfold visible. lia.
  - apply text_ascii. rewrite Forall_app, list.Forall_cons, Forall_app, (list.Forall_cons _ 32 v). split_and!; try done; try lia.
    + eapply list.Forall_impl; [exact Fm|]. intros x ?%name_byte_range. lia.
    + destruct Hv as [-> | ->]; repeat constructor; done.
Qed.

(** A request that was read from such an input has a head that can be edited. *)
Lemma parsed_good opts c0 req c :
  plain_request (stream c0) → parse_http_request opts c0 = Ok (Some (req, c)) →
  ∃ rl fields, good_head (raw_header req) rl fields ∧ framed fields (body_length req).
Proof.
  intros Hpl Hparse. pose proof Hparse as (head & Hs & _ & Hend & Hp)%parse_http_request_ok.
  destruct (parse_head_ok _ _ _ Hend Hp) as (rl & fields & m & t & v & Hh & Hparts & Hf & Hfr & _ & Hj).
  assert (text rl ∧ Forall text fields) as [_ Hu].
  { unfold parse_head in Hp. rewrite Hend in Hp. cbn [ok_or] in Hp. rewrite take_ge in Hp by done.
    destruct (bare_lf None head); [done|]. apply let_Ok in Hp as ([] & Hblock & _).
    destruct (header_block_ok _ Hblock) as (Hu & _). destruct Hh as [Et _ _]. rewrite Et, app_nil_r in Hu.
    assert (rl ++ CRLF ++ lines_text fields ++ CRLF = lines_text (rl :: fields) ++ CRLF) as E
      by (unfold lines_text; cbn [map concat]; by rewrite <- !app_assoc).
    rewrite E, valid_lines in Hu. cbn [forallb] in Hu. apply andb_true_iff in Hu as [? Hu].
    split; [done|]. by apply forallb_Forall. }
  destruct (plain_parts _ rl m t v (CRLF ++ lines_text fields ++ CRLF ++ stream c) Hpl) as [Ha Hc]; [|done|].
  { rewrite Hs, (head_text _ _ _ _ Hh), app_nil_r, <- !app_assoc. done. }
  destruct (Hj Ha) as (_ & _ & cp & q & Hcan & _ & _ & [Ht _ _]).
  destruct (forwarded_good _ _ _ _ _ _ _ Hparts Ha Hc Hcan) as [Hg Htx].
  exists (m ++ 32 :: forwarded_target cp q t ++ 32 :: v), fields. split; [|done]. split; [|done|done|done].
  rewrite Ht, app_nil_r. unfold lines_text. cbn [map concat]. by rewrite <- !app_assoc.
Qed.
End parsed_heads.

(** ** The request that is built again *)

Section forwarded.
Context {base64 : Base64} {services : MiddlewareServices}.

(** Strings of the services are Unicode text, as those of every message. *)
Definition services_text : Prop :=
  ∀ n e headers body r, evaluate_http_request n e headers body = Ok r → Forall mutation_text (res_mutations r).

Lemma run_stages_text nominated policy n es s :
  services_text → Forall mutation_text (cs_mutations s) →
  Forall mutation_text (oc_mutations (run_stages nominated policy n es s)).
Proof.
  intros Hs. revert n s. induction es as [|e es IH]; intros n s Hm; [done|]. cbn [run_stages].
  assert (∀ reason, Forall mutation_text (oc_mutations (match apply_on_error e reason s with
    | inl o => o | inr s => run_stages nominated policy (S n) es s end))) as Herr.
  { intros reason. unfold apply_on_error. destruct (ce_on_error (dc_entry e)); [done|]. by apply IH. }
  unfold run_stage. destruct (stage_result n e s) as [r|] eqn:Hr; [|apply Herr].
  destruct (stage_result_ok _ _ _ _ Hr) as (_ & _ & a & Ha & Hma). apply Hs in Ha. rewrite <- Hma in Ha.
  destruct (res_decision r =? 2); [done|]. destruct (stage_headers nominated e s r); [|apply Herr].
  assert (Forall mutation_text (cs_mutations s ++ res_mutations r)) by (by apply Forall_app).
  repeat case_match; simplify_eq; cbn; try done; by apply IH.
Qed.

(** What a chain that allows a request hands on. *)
Lemma evaluate_allowed entries headers nominated body policy o :
  services_text → evaluate_described_with_policy_admitted entries headers nominated body policy = Some o →
  oc_allowed o = true →
  Forall (allowed_mutation nominated) (oc_mutations o) ∧ Forall sane_mutation (oc_mutations o) ∧
  (oc_body o = body ∨ body_admitted policy (oc_body o)).
Proof.
  intros Hs He Ha. unfold evaluate_described_with_policy_admitted in He. destruct (Nat.ltb _ _); [done|].
  injection He as Ho. set (s0 := chain_state headers body [] [] ∅ []) in Ho.
  pose proof (run_stages_text nominated policy 0 entries s0 Hs ltac:(constructor)) as Ht.
  destruct (run_stages_ran nominated policy 0 entries s0) as [(ivs & ms & hs & _ & Hr & _ & Hms)|H].
  - rewrite Ho in Hr, Hms, Ht. cbn [app s0 cs_mutations] in Hms. rewrite Hms in Ht |- *.
    destruct (ran_hands_on _ _ _ _ _ _ _ _ _ _ Hr) as (H2 & _ & H3). split_and!; [done| |done].
    apply list.Forall_forall. intros m Hm. rewrite list.Forall_forall in H2, Ht.
    by eapply allowed_sane; [apply H2|apply Ht].
  - destruct H as (pre & e & post & ivs & iv & ms & hs & b & _ & Hal & _). congruence.
Qed.

(** The request after its middleware: the identity and the request line of the
    request, the protected fields and those of the connection, one framing that
    is the one of the body, and the fields that the stages have settled on. *)
Record Rebuilt (req : L7Request) (rl : bytes) (fields nominated : list bytes) (settled : list HttpHeader)
  (body : bytes) (req' : L7Request) : Prop := {
  rebuilt_identity : rq_action req' = rq_action req ∧ rq_target req' = rq_target req ∧
    rq_query_params req' = rq_query_params req;
  rebuilt_message : ∃ head' fields', raw_header req' = head' ++ body ∧ good_head head' rl fields' ∧
    framed fields' (body_length req') ∧ body_framed (body_length req') body ∧
    (∀ k, ¬ open_name nominated (to_ascii_lowercase k) →
       Forall (λ n, eq_ignore_ascii_case k n = false) [TE; CL; TRAILER; EXPECT] →
       field_values k fields' = field_values k fields) ∧
    Forall2 same_header settled (seen_by nominated fields');
}.

Lemma rebuild_rebuilt req rl fields headers nominated seen body ms :
  good_head headers rl (without EXPECT fields) → Forall field_line fields →
  Forall (allowed_mutation nominated) ms → Forall sane_mutation ms → Z.of_nat (length body) ≤ u64_max →
  seen = seen_by nominated (without EXPECT fields) →
  ∃ req', rebuild_request_with_buffered_body req headers body ms = Ok req' ∧
    Rebuilt req rl fields nominated (foldl edit_headers seen ms) body req'.
Proof.
  intros H Hf Ha Hs Hl Hseen. pose proof (good_fields _ _ _ H) as Hx.
  destruct (rebuild_good req headers rl _ body ms H Hs) as (req' & s' & E & Hg & ->). eexists. split; [done|].
  assert (∀ k, ¬ open_name nominated (to_ascii_lowercase k) →
    Forall (λ m, eq_ignore_ascii_case (mutated_name m) k = false) ms) as Hk.
  { intros k Hk. eapply list.Forall_impl; [exact Ha|]. intros m Hm%allowed_open.
    apply not_true_iff_false. intros Heq%eq_ignore_case_true. rewrite Heq in Hm. done. }
  split; [done|]. eexists s', _. split; [done|]. split; [done|]. split; [|split; [|split]].
  - cbn [body_length]. apply length_framed_framed; [done|done|done|].
    pose proof (Hk TE (hidden_protected nominated TE eq_refl)) as H1.
    pose proof (Hk CL (hidden_protected nominated CL eq_refl)) as H2.
    apply list.Forall_forall. intros m Hm. rewrite list.Forall_forall in H1, H2. split; [by apply H1|by apply H2].
  - cbn [body_length]. unfold new_length. destruct (bool_decide (body_length req = NoBody) && is_empty body) eqn:En; cbn.
    + apply andb_true_iff in En as [_ En]. by apply is_empty_true in En.
    + lia.
  - intros k Hko Hkn. apply Forall_cons_1 in Hkn as [K1 Hkn]. apply Forall_cons_1 in Hkn as [K2 Hkn].
    apply Forall_cons_1 in Hkn as [K3 Hkn]. apply Forall_cons_1 in Hkn as [K4 _].
    rewrite foldl_edit_values; [|by apply length_framed_lines|done|by apply Hk].
    rewrite length_framed_values by (by repeat constructor). by rewrite field_values_without, K4.
  - apply replay_all; [by apply length_framed_lines|done|done|]. rewrite seen_by_length_framed by done.
    rewrite Hseen. apply seen_same.
Qed.

Lemma limit_bound (P : Z) chain limit :
  Forall (λ e, dc_max_payload_bytes e ≤ P) chain → middleware_chain_body_limit chain = Some limit → limit ≤ P.
Proof.
  intros Hf. unfold middleware_chain_body_limit.
  assert (Forall (λ n, n ≤ P) (map dc_max_payload_bytes (List.filter dc_resolved chain))) as H.
  { apply list.Forall_forall. intros n Hn. apply list_elem_of_fmap in Hn as (e & -> & He).
    apply list_elem_of_In, filter_In in He as [He _]. apply list_elem_of_In in He.
    by eapply list.Forall_forall in He; [|exact Hf]. }
  destruct (map _ _) as [|l ls]; [done|]. intros [= <-]. apply Forall_cons_1 in H as [Hl Hls].
  revert l Hl. induction Hls as [|x xs Hx _ IH]; intros l Hl; [done|]. cbn. apply IH. lia.
Qed.

Lemma limit_none chain : middleware_chain_body_limit chain = None → Forall (λ e, dc_resolved e = false) chain.
Proof.
  unfold middleware_chain_body_limit. induction chain as [|e chain IH]; [constructor|]. cbn.
  destruct (dc_resolved e) eqn:E; [done|]. intros H. constructor; [done|]. by apply IH.
Qed.

(** A chain with no binding that was described lets a request pass only when
    every entry may fail open. *)
Lemma undescribed_fail_open nominated policy n es s :
  Forall (λ e, dc_resolved e = false) es → oc_allowed (run_stages nominated policy n es s) = true →
  Forall (λ e, ce_on_error (dc_entry e) = FailOpen) es.
Proof.
  intros H. revert n s. induction H as [|e es He _ IH]; intros n s; [constructor|]. cbn [run_stages].
  unfold run_stage, stage_result. rewrite He. cbn [negb]. unfold apply_on_error.
  destruct (ce_on_error (dc_entry e)) eqn:E; [done|]. intros Ha. constructor; [done|]. by eapply IH.
Qed.

(** The run of the chain on a request: nothing is written upstream; an allowed
    request is the one that came, its body not read yet and every entry fail
    open, or one built again from the whole of its body. *)
Definition allowed_by (req : L7Request) (rl : bytes) (fields : list bytes) (chain : list DescribedChainEntry)
  (policy : TransformedBodyPolicy) (s : Io) (req' : L7Request) (s' : Io) : Prop :=
  req' = req ∧ client s' = client s ∧ Forall (λ e, ce_on_error (dc_entry e) = FailOpen) chain ∨
  ∃ body wire seen nominated o,
    body_read (body_length req) body wire ∧ stream (client s) = wire ++ stream (client s') ∧
    (∀ n, n ∈ nominated ↔ n ∈ nominated_of fields) ∧ seen = seen_by nominated (without EXPECT fields) ∧
    evaluate_described_with_policy_admitted chain seen nominated body policy = Some o ∧ oc_allowed o = true ∧
    Rebuilt req rl fields nominated (foldl edit_headers seen (oc_mutations o)) (oc_body o) req'.

Lemma chain_spec req rl fields chain admitted policy s :
  services_text → good_head (raw_header req) rl fields → Forall (λ e, dc_max_payload_bytes e ≤ u64_max) chain →
  wp (apply_middleware_chain req chain admitted policy) s (λ r s',
    written s' = written s ∧
    match r with Ok (AllowedRequest req') => allowed_by req rl fields chain policy s req' s' | _ => True end).
Proof.
  intros Hs H Hlim. unfold apply_middleware_chain. destruct (is_empty chain) eqn:Ee.
  { apply is_empty_true in Ee as ->. apply wp_ret. split; [done|]. left. by split_and!. }
  destruct (negb admitted); [by apply wp_ret|].
  destruct (middleware_chain_body_limit chain) as [limit|] eqn:El.
  2: { destruct (evaluate_described_with_policy_admitted chain [] [] [] NotPolicyRelevant) as [o|] eqn:Eo;
         [|by apply wp_fail].
       apply wp_ret. split; [done|]. destruct (oc_allowed o) eqn:Ea; [|done]. left. split_and!; [done..|].
       unfold evaluate_described_with_policy_admitted in Eo. destruct (Nat.ltb _ _); [done|].
       injection Eo as <-. eapply undescribed_fail_open; [|exact Ea]. by apply limit_none. }
  apply (limit_bound u64_max) in El; [|done].
  apply wp_bind. eapply wp_mono; [by apply (buffer_spec req limit rl fields s H)|].
  intros [[headers body|recoverable]|e] s1 [Hw Hb]; [..|done].
  2: { apply wp_ret. unfold resolve_unbuffered_body. destruct recoverable; cbn [andb]; [|done].
       destruct (forallb _ _) eqn:Ef; [|done]. split; [done|]. left. split_and!; [done|by apply Hb|].
       apply forallb_Forall in Ef. eapply list.Forall_impl; [exact Ef|]. intros x. apply bool_decide_eq_true. }
  destruct Hb as (Hg & wire & Hr & Hst & Hlen). apply wp_bind, wp_lift.
  destruct (safe_middleware_headers headers) as [[seen nominated]|e] eqn:Eh; [|done].
  apply wp_bind, wp_lift. destruct (raw_query_from_request_headers headers); [|done]. cbn [fst snd].
  destruct (evaluate_described_with_policy_admitted chain seen nominated body policy) as [o|] eqn:Eo; [|by apply wp_fail].
  apply wp_lift. split; [done|]. unfold finish_request. destruct (oc_allowed o) eqn:Ea; [|done].
  destruct (safe_headers_good _ _ _ _ _ Hg Eh) as [Hn Hseen].
  destruct (evaluate_allowed _ _ _ _ _ _ Hs Eo Ea) as (Ham & Hsm & Hbody).
  assert (Z.of_nat (length (oc_body o)) ≤ u64_max) as Hl.
  { destruct Hbody as [->|[Hb _]].
    - destruct Hlen as [-> |?]; [by vm_compute|lia].
    - etrans; [exact Hb|]. by vm_compute. }
  destruct (rebuild_rebuilt req rl fields headers nominated seen (oc_body o) (oc_mutations o)) as (req' & -> & HR);
    [done|apply H|done..|]. cbn. right. exists body, wire, seen, nominated, o.
  split_and!; [done|done| |done|done|done|done]. intros n. rewrite Hn, nominated_without; [done|apply H|by vm_compute].
Qed.

Context {http_uri : HttpUri} {http_authority : HttpAuthority http_uri}.

(** C10: a request that its middleware allows stays one request. For a request
    that was read with an ASCII target that does not start with a colon, the
    chain writes nothing upstream, and what it allows is either the request
    itself, none of its body taken and every entry fail open, or a request built
    again: the whole body was taken from the client and nothing after it, the
    chain allowed it when evaluated on that body and the visible fields of the
    head, and the new head has the same request line, the same protected and
    connection-nominated fields but for those of the framing and [Expect], one
    framing that is the one of the body the chain ended with, and for the other
    fields the values its stages settled on. Method, target and query, which the
    policy has judged, are unchanged. *)
Theorem middleware_forwards_one_request opts c0 req c chain admitted policy w rp f req' s' :
  services_text → plain_request (stream c0) → Forall (λ e, dc_max_payload_bytes e ≤ u64_max) chain →
  parse_http_request opts c0 = Ok (Some (req, c)) →
  apply_middleware_chain req chain admitted policy (io c w rp f) = (Ok (AllowedRequest req'), s') →
  written s' = w ∧ ∃ rl fields, good_head (raw_header req) rl fields ∧ framed fields (body_length req) ∧
    allowed_by req rl fields chain policy (io c w rp f) req' s'.
Proof.
  intros Hs Hpl Hlim Hparse Hrun. destruct (parsed_good _ _ _ _ Hpl Hparse) as (rl & fields & Hg & Hfr).
  pose proof (wp_elim _ _ _ _ _ (chain_spec req rl fields chain admitted policy (io c w rp f) Hs Hg Hlim) Hrun)
    as [Hw Ha]. split; [done|]. by exists rl, fields.
Qed.
End forwarded.
