(* ===== verification/HttpSamples.v ===== *)
(** * HttpSamples: requests read, edited and forwarded

    Concrete requests for the theorems on HTTP, with a small reader of
    authorities and a service of middleware, and three readings of a head on
    which the proxy and an upstream can differ. *)

From stdpp Require Import gmap.
From S2P Require Import Prelude PathCanon IpParse Order Text Base64 Patterns Destination Secrets SecretsHeaders PolicyTypes PolicyMerge PolicyMergeFacts PolicyValidate Connect Http HttpEdit HttpBody ChunkedFacts ChunkedBuffers ChunkedScan HttpFacts HttpForward HttpEditFacts Middleware MiddlewareFacts MiddlewareForward.
Import IpParse.

Module HttpSample.

(** A host, and a port after a colon. *)
#[local] Instance sample_authority : HttpAuthority simple_uri := {|
  Authority := bytes * option Z;
  authority_parse s :=
    match split_once 58 s with
    | Some (host, port) => (λ p, (host, Some p)) <$> parse_uint u16_max port
    | None => Some (s, None)
    end;
  authority_host := fst;
  authority_port := snd;
  uri_authority u := None;
|}.

Definition head_of (request_line : bytes) (fields : list bytes) : bytes :=
  lines_text (request_line :: fields) ++ CRLF.
Definition reader (input : bytes) : Reader := reader_of (map (λ b, (b, [])) input) Eof.
Definition opts : CanonicalizeOptions := default_options.

Definition parsed (input : bytes) : option L7Request :=
  match parse_http_request opts (reader input) with Ok (Some (req, _)) => Some req | _ => None end.

(** ** A request and its body *)

Definition post : bytes :=
  head_of (lit "POST /a HTTP/1.1") [lit "Host: api"; lit "Content-Length: 5"].
Definition next : bytes := lit "GET /b HTTP/1.1".


(** ** A request and its middleware *)

(** A service that rewrites the body and marks the request. *)
#[local] Instance sample_services : MiddlewareServices := {|
  evaluate_http_request _ _ _ _ :=
    Ok (request_result 1 [] [] [Some (WriteHeader (lit "X-OpenShell-Middleware-Seen") (lit "yes") 2)]
          true (lit "hi") [] ∅);
  deadline_passed _ := false;
  config_len _ := 0;
  context_len := 0;
  target_len := 0;
  header_len _ := 0;
  mutation_len _ := 0;
  finding_len _ := 0;
  result_len _ := 0;
|}.
Definition marker : DescribedChainEntry :=
  described_entry (chain_entry (lit "marker") (lit "builtin") 0 FailClosed) true 1024 false.
Definition rebuilt : bytes :=
  head_of (lit "POST /a HTTP/1.1")
    [lit "Host: api"; lit "Content-Length: 2"; lit "X-OpenShell-Middleware-Seen: yes"] ++ lit "hi".

Definition post_request : L7Request :=
  l7_request_of (lit "POST") (lit "/a") ∅ post (ContentLength 5).
Definition rebuilt_request : L7Request :=
  l7_request_of (lit "POST") (lit "/a") ∅ rebuilt (ContentLength 2).

Lemma sample_services_text : services_text.
Proof. intros n e headers body r [= <-]. repeat constructor; by vm_compute. Qed.
Lemma post_plain : plain_request (post ++ lit "hello" ++ next).
Proof.
  eexists (lit "POST"), 47, (lit "a"), _. split; [vm_compute; reflexivity|].
  split_and!; [by apply contains_byte_false..|done|done|]. repeat constructor.
Qed.

Lemma middleware_forwards_one_request_witness :
  let s := io (reader (lit "hello" ++ next)) [] [] None in
  let s' := io (reader next) [] [] None in
  written s' = [] ∧ ∃ rl fields, good_head post rl fields ∧ framed fields (ContentLength 5) ∧
    allowed_by post_request rl fields [marker] NotPolicyRelevant s rebuilt_request s'.
Proof.
  cbn zeta.
  refine (middleware_forwards_one_request opts (reader (post ++ lit "hello" ++ next)) post_request
    (reader (lit "hello" ++ next)) [marker] true NotPolicyRelevant [] [] None rebuilt_request
    (io (reader next) [] [] None) sample_services_text _ _ _ _).
  - exact post_plain.
  - repeat constructor. by vm_compute.
  - vm_compute. reflexivity.
  - vm_compute. reflexivity.
Defined.

(** ** Readings that differ *)

(** The target that is judged ends at a no-break space, which the check of the
    request line takes for a byte of the target and an upstream does too: the
    policy sees [/allowed], the head that is forwarded asks for another path. *)
Definition nbsp : bytes := [194; 160].
Definition split_line : bytes :=
  lit "GET /allowed" ++ nbsp ++ lit "HTTP/1.1" ++ nbsp ++ lit "/../secret HTTP/1.1".
Lemma judged_target_is_not_the_forwarded_one :
  let head := head_of split_line [lit "Host: api"] in
  parsed head = Some (l7_request_of (lit "GET") (lit "/allowed") ∅ head NoBody).
Proof. vm_compute. reflexivity. Qed.

(** A length with a sign, and a coding with a no-break space, are read as their
    plain forms and forwarded as they are. *)
Lemma framing_is_read_loosely :
  let head field := head_of (lit "POST / HTTP/1.1") [lit "Host: api"; field] in
  (body_length <$> parsed (head (lit "Content-Length: +5"))) = Some (ContentLength 5)
  ∧ (body_length <$> parsed (head (lit "Content-Length: 5" ++ nbsp))) = Some (ContentLength 5)
  ∧ (body_length <$> parsed (head (lit "Transfer-Encoding: chunked" ++ nbsp))) = Some Chunked.
Proof. vm_compute. done. Qed.

End HttpSample.
