(* ===== verification/Regex.v ===== *)
(** * Regex: regular expressions over strings

    The regular expressions of the SMT-LIB theory of strings that the policy
    prover builds through the z3 crate, with their languages, and a matcher by
    derivatives that decides them. Characters are bytes: the literals the
    prover uses are ASCII, and everything else is matched by whole strings. *)

From S2P Require Import Prelude.

Inductive regexp :=
  | RLiteral (s : bytes)
  | RFull
  | RNone
  | RConcat (r q : regexp)
  | RUnion (r q : regexp)
  | RInter (r q : regexp)
  | RComplement (r : regexp)
  | RStar (r : regexp).

(** [re.++] of a list. *)
Definition re_concat (rs : list regexp) : regexp := foldr RConcat (RLiteral []) rs.

(** ** Languages *)

Inductive star (L : bytes → Prop) : bytes → Prop :=
  | star_nil : star L []
  | star_app s t : L s → star L t → star L (s ++ t).

Fixpoint lang (r : regexp) (s : bytes) : Prop :=
  match r with
  | RLiteral l => s = l
  | RFull => True
  | RNone => False
  | RConcat r q => ∃ u v, s = u ++ v ∧ lang r u ∧ lang q v
  | RUnion r q => lang r s ∨ lang q s
  | RInter r q => lang r s ∧ lang q s
  | RComplement r => ¬ lang r s
  | RStar r => star (lang r) s
  end.

(** ** Derivatives *)

Fixpoint nullable (r : regexp) : bool :=
  match r with
  | RLiteral l => is_empty l
  | RFull => true
  | RNone => false
  | RConcat r q => nullable r && nullable q
  | RUnion r q => nullable r || nullable q
  | RInter r q => nullable r && nullable q
  | RComplement r => negb (nullable r)
  | RStar _ => true
  end.

(** Smart constructors keep derivatives small. *)
Definition concat_ (r q : regexp) : regexp :=
  match r with RNone => RNone | RLiteral [] => q | _ => RConcat r q end.
Definition union_ (r q : regexp) : regexp :=
  match r, q with RNone, _ => q | _, RNone => r | RFull, _ => RFull | _, RFull => RFull
  | _, _ => RUnion r q end.

Fixpoint deriv (c : Z) (r : regexp) : regexp :=
  match r with
  | RLiteral (b :: l) => if b =? c then RLiteral l else RNone
  | RLiteral [] => RNone
  | RFull => RFull
  | RNone => RNone
  | RConcat r q =>
      let d := concat_ (deriv c r) q in
      if nullable r then union_ d (deriv c q) else d
  | RUnion r q => union_ (deriv c r) (deriv c q)
  | RInter r q => RInter (deriv c r) (deriv c q)
  | RComplement r => RComplement (deriv c r)
  | RStar r => concat_ (deriv c r) (RStar r)
  end.

Definition regex_matches (s : bytes) (r : regexp) : bool :=
  nullable (fold_left (λ r c, deriv c r) s r).

(** ** The matcher decides the language *)

Lemma concat_lang r q s : lang (concat_ r q) s ↔ lang (RConcat r q) s.
Proof.
  destruct r as [[|b l]| | | | | | |]; try done; cbn.
  - split; [intros H; by exists [], s|]. by intros (u & v & -> & -> & H).
  - split; [done|]. by intros (u & v & _ & [] & _).
Qed.

Lemma union_lang r q s : lang (union_ r q) s ↔ lang r s ∨ lang q s.
Proof. destruct r, q; cbn; tauto. Qed.

Lemma nullable_lang r : nullable r = true ↔ lang r [].
Proof.
  induction r as [l| | |r IHr q IHq|r IHr q IHq|r IHr q IHq|r IHr|r IHr]; cbn.
  - destruct l; cbn; split; congruence.
  - done.
  - by split.
  - rewrite andb_true_iff, IHr, IHq. split.
    + intros [H1 H2]. by exists [], [].
    + intros (u & v & H & H1 & H2). symmetry in H. apply app_eq_nil in H as [-> ->]. done.
  - rewrite orb_true_iff. by rewrite IHr, IHq.
  - rewrite andb_true_iff. by rewrite IHr, IHq.
  - rewrite negb_true_iff, <- not_true_iff_false. by rewrite IHr.
  - split; [|done]. intros _. constructor.
Qed.

Lemma star_cons L c s : star L (c :: s) ↔ ∃ u v, s = u ++ v ∧ L (c :: u) ∧ star L v.
Proof.
  split.
  - remember (c :: s) as w eqn:Hw. intros H. revert c s Hw.
    induction H as [|x y Hx Hy IH]; intros c s Hw; [done|].
    destruct x as [|b x]; cbn in Hw; [by apply IH|]. injection Hw as -> <-. by exists x, y.
  - intros (u & v & -> & H1 & H2). change (c :: u ++ v) with ((c :: u) ++ v). by constructor.
Qed.

Lemma deriv_lang c r s : lang (deriv c r) s ↔ lang r (c :: s).
Proof.
  revert s. induction r as [l| | |r IHr q IHq|r IHr q IHq|r IHr q IHq|r IHr|r IHr]; intros s; cbn.
  - destruct l as [|b l]; cbn; [split; [done|discriminate]|].
    destruct (b =? c) eqn:Hb; cbn.
    + apply Z.eqb_eq in Hb as ->. split; congruence.
    + apply Z.eqb_neq in Hb. split; [done|congruence].
  - done.
  - done.
  - assert (lang (concat_ (deriv c r) q) s ↔ ∃ u v, s = u ++ v ∧ lang r (c :: u) ∧ lang q v) as Hd.
    { rewrite concat_lang. cbn. by setoid_rewrite IHr. }
    assert ((∃ u v, c :: s = u ++ v ∧ lang r u ∧ lang q v) ↔
      (lang r [] ∧ lang q (c :: s)) ∨ ∃ u v, s = u ++ v ∧ lang r (c :: u) ∧ lang q v) as Hs.
    { split.
      - intros ([|b u] & v & H & H1 & H2); [left; cbn in H; by subst|].
        injection H as <- ->. right. by exists u, v.
      - intros [[H1 H2]|(u & v & -> & H1 & H2)]; [by exists [], (c :: s)|by exists (c :: u), v]. }
    rewrite Hs, <- nullable_lang. destruct (nullable r).
    + rewrite union_lang, IHq, Hd. tauto.
    + rewrite Hd. split; [by right|]. by intros [[]|H].
  - by rewrite union_lang, IHr, IHq.
  - by rewrite IHr, IHq.
  - by rewrite IHr.
  - rewrite concat_lang, star_cons. cbn. by setoid_rewrite IHr.
Qed.

Lemma regex_matches_lang s r : regex_matches s r = true ↔ lang r s.
Proof.
  unfold regex_matches. revert r. induction s as [|c s IH]; intros r; cbn.
  - apply nullable_lang.
  - by rewrite IH, deriv_lang.
Qed.

(** A prefix shared by two concatenations. *)
Lemma lang_concat_mono r q q' s :
  (∀ t, lang q t → lang q' t) → lang (RConcat r q) s → lang (RConcat r q') s.
Proof. cbn. intros H (u & v & -> & H1 & H2). eauto 6. Qed.

Lemma lang_re_concat_app rs qs s :
  lang (re_concat (rs ++ qs)) s ↔ ∃ u v, s = u ++ v ∧ lang (re_concat rs) u ∧ lang (re_concat qs) v.
Proof.
  revert s. induction rs as [|r rs IH]; intros s; cbn.
  - split; [intros H; by exists [], s|]. by intros (u & v & -> & -> & H).
  - change (foldr RConcat (RLiteral []) (rs ++ qs)) with (re_concat (rs ++ qs)).
    setoid_rewrite IH. split.
    + intros (u & w & -> & H1 & v & x & -> & H2 & H3). exists (u ++ v), x.
      rewrite app_assoc. split_and!; [done| |done]. by exists u, v.
    + intros (u & x & -> & (a & b & -> & H1 & H2) & H3). exists a, (b ++ x).
      rewrite app_assoc. split_and!; [done..|]. by exists b, x.
Qed.
