(* ===== verification/Prover.v ===== *)
(** * Prover: is a candidate policy within a boundary policy?

    [crates/openshell-prover/src/containment.rs] with its [ip] and
    [execution] modules. A z3 formula is its value under a valuation of the
    symbolic action, so a Rust function that builds a [Bool] is a function
    from actions to [bool]; the solver is an interface that may answer [Unsat]
    only when no action satisfies the formula. The messages of results are
    not modelled, their reason codes are. *)

From stdpp Require Import gmap.
From S2P Require Import Prelude Net IpParse Destination PolicyTypes PolicySchema Regex.

Module Prover.
Import PolicySchema.
Local Open Scope Z_scope.

(** ** Addresses: [containment/ip.rs] *)

Record Network := network_of { net_address : Z; net_prefix : Z; net_v6 : bool }.

Definition from_ip (ip : IpAddr) : Network :=
  match ip with
  | V4 a => network_of a 32 false
  | V6 a => network_of a 128 true
  end.

Definition Network_parse (value : bytes) : option Network :=
  let '(address, prefix) :=
    match split_once 47 value with Some (a, p) => (a, Some p) | None => (value, None) end in
  match IpParse.parse_ip address with
  | None => None
  | Some ip =>
      let n := from_ip ip in
      match prefix with
      | None => Some n
      | Some p =>
          match parse_uint u32_max p with
          | None => None
          | Some p => if net_prefix n <? p then None
                      else Some (network_of (net_address n) p (net_v6 n))
          end
      end
  end.

(** [u128::MAX << (width - prefix)]. *)
Definition mask (n : Network) : Z :=
  let width := if net_v6 n then 128 else 32 in
  if net_prefix n =? 0 then 0 else Z.shiftl u128_max (width - net_prefix n) mod 2 ^ 128.

Definition overlaps (n m : Network) : bool :=
  Bool.eqb (net_v6 n) (net_v6 m)
  && (Z.land (Z.land (net_address n) (mask n)) (mask m)
      =? Z.land (Z.land (net_address m) (mask n)) (mask m)).

Record SymbolicIp := symbolic_ip { bits : Z; v6 : bool }.

Definition concrete (ip : IpAddr) : SymbolicIp :=
  let n := from_ip ip in symbolic_ip (net_address n) (net_v6 n).

(** [assert_domain]: a 128-bit value, and an IPv4 one fits 32. *)
Definition ip_domain (ip : SymbolicIp) : bool :=
  (0 <=? bits ip) && (bits ip <? 2 ^ 128) && (v6 ip || (Z.shiftr (bits ip) 32 =? 0)).

Definition ip_matches (ip : SymbolicIp) (n : Network) : bool :=
  Bool.eqb (v6 ip) (net_v6 n)
  && (Z.land (bits ip) (mask n) =? Z.land (net_address n) (mask n)).

Definition mapped (n : Network) : Network :=
  network_of (Z.lor (Z.shiftl 0xffff 32) (net_address n)) (96 + net_prefix n) true.

(** The constant ranges parse. *)
Definition range (s : string) : Network :=
  default (network_of 0 0 false) (Network_parse (lit s)).
Definition HARD_V4 : list Network := range <$> ["127.0.0.0/8"; "169.254.0.0/16"; "0.0.0.0/32"]%string.
Definition HARD_V6 : list Network := range <$> ["::/128"; "::1/128"; "fe80::/10"]%string.
Definition INTERNAL_V4 : list Network :=
  range <$> ["10.0.0.0/8"; "172.16.0.0/12"; "192.168.0.0/16"; "192.0.2.0/24"; "198.51.100.0/24";
             "203.0.113.0/24"; "255.255.255.255/32"; "100.64.0.0/10"; "192.0.0.0/24";
             "198.18.0.0/15"]%string.
Definition ULA_V6 : list Network := [range "fc00::/7"].
Definition LINK_LOCAL_V4 : list Network := [range "169.254.0.0/16"].
Definition LINK_LOCAL : list Network := range <$> ["169.254.0.0/16"; "fe80::/10"]%string.
Definition METADATA_V4 : list Network := [range "169.254.169.254/32"].

Definition ranges (ip : SymbolicIp) (l : list Network) : bool := existsb (ip_matches ip) l.
Definition mapped_v4_ranges (ip : SymbolicIp) (l : list Network) : bool :=
  existsb (λ n, ip_matches ip (mapped n)) l.

Definition hard_blocked (ip : SymbolicIp) : bool :=
  ranges ip HARD_V4 || ranges ip HARD_V6 || mapped_v4_ranges ip HARD_V4.
Definition internal (ip : SymbolicIp) : bool :=
  hard_blocked ip || ranges ip INTERNAL_V4 || mapped_v4_ranges ip INTERNAL_V4 || ranges ip ULA_V6.

(** [unsupported_endpoint]: whether there is a reason. *)
Definition ip_unsupported_endpoint (e : NetworkEndpoint) : bool :=
  (contains_byte 42 (host e)
   && forallb (λ b, is_ascii_digit b || (b =? 46) || (b =? 42)) (host e))
  || existsb (λ raw,
       match Network_parse raw with
       | None => true
       | Some n => existsb (overlaps n) (HARD_V4 ++ HARD_V6 ++ (mapped <$> HARD_V4))
       end) (allowed_ips e).

Definition sample_addresses (e : NetworkEndpoint) : list IpAddr :=
  [V4 (ipv4 8 8 8 8); V4 (ipv4 10 0 0 1)] ++
  match head (allowed_ips e) ≫= Network_parse with
  | None => []
  | Some n => let address := Z.land (net_address n) (mask n) in
              [if net_v6 n then V6 address else V4 address]
  end.

(** ** Actions and formulas *)

Record action := Action {
  a_binary : bytes; a_ancestor_binary : bytes; a_host : bytes; a_port : Z; a_layer : bytes;
  a_method : bytes; a_path : bytes; a_ip : SymbolicIp; a_trusted_gateway : bool }.

Definition formula : Type := action → bool.

Inductive SatResult := Unsat | UnknownResult (timeout : bool) | Sat.

(** What the code reads of a solver's model: a string with whether encoding
    it again gives the same solver value, and the evaluated integers. *)
Record model := Model {
  m_binary : option (bytes * bool); m_ancestor_binary : option (bytes * bool);
  m_host : option (bytes * bool); m_port : option Z; m_layer : option (bytes * bool);
  m_method : option (bytes * bool); m_path : option (bytes * bool);
  m_high : option Z; m_low : option Z; m_v6 : option bool; m_trusted_gateway : option bool }.

(** The z3 crate: simplification of a closed formula is sound, and so is an
    [Unsat] answer. *)
Class Z3 := {
  simplify : formula → option bool;
  check : formula → SatResult;
  get_model : formula → option model;
  simplify_sound f b : (∀ a a', f a = f a') → simplify f = Some b → ∀ a, f a = b;
  check_unsat f : check f = Unsat → ∀ a, f a = false }.

(** [glob::Pattern::new] and [matches]. *)
Class GlobCrate := { glob_pattern : bytes → option (bytes → bool) }.

Definition LAYER_L4 : bytes := lit "l4".
Definition LAYER_REST : bytes := lit "rest".

Inductive Protocol := L4 | Rest.
#[export] Instance protocol_eq : EqDecision Protocol.
Proof. solve_decision. Defined.
Definition protocol_str (p : Protocol) : bytes := match p with L4 => LAYER_L4 | Rest => LAYER_REST end.
Definition protocol_kind (e : NetworkEndpoint) : Protocol := if is_l4 e then L4 else Rest.

(** A non-empty string without the separator. *)
Definition non_separator_regex (separator : bytes) : regexp :=
  RInter (RComplement (re_concat [RFull; RLiteral separator; RFull]))
    (RComplement (RLiteral [])).

(** [path_glob_regex]: the segments left, each with what follows it. *)
Fixpoint path_glob_parts (single_star : regexp) (segments : list bytes) : list regexp :=
  match segments with
  | [] => []
  | segment :: rest =>
      if decide (segment = lit "**") then
        match rest with
        | [] => [RFull]
        | next :: _ =>
            if decide (next = lit "**") then path_glob_parts single_star rest
            else RUnion (RLiteral []) (re_concat [RFull; RLiteral (lit "/")])
                 :: path_glob_parts single_star rest
        end
      else
        map (λ c, if c =? 42 then single_star else RLiteral [c]) segment
        ++ match rest with
           | [] => []
           | _ => RLiteral (lit "/") :: path_glob_parts single_star rest
           end
  end.
Definition path_glob_regex (pattern : bytes) (single_star : regexp) : regexp :=
  re_concat (path_glob_parts single_star (split_on 47 pattern)).

(** [glob_regex] for a separator other than [/]. *)
Fixpoint glob_parts (wildcard : regexp) (pattern : bytes) : list regexp :=
  match pattern with
  | [] => []
  | c :: rest =>
      if c =? 42 then
        match rest with
        | d :: rest' => if d =? 42 then RFull :: glob_parts wildcard rest'
                        else RStar wildcard :: glob_parts wildcard rest
        | [] => [RStar wildcard]
        end
      else RLiteral [c] :: glob_parts wildcard rest
  end.
Definition glob_regex (pattern separator : bytes) : regexp :=
  if decide (pattern = lit "**") then RFull
  else if decide (separator = lit "/") then
    path_glob_regex pattern (RStar (non_separator_regex (lit "/")))
  else re_concat (glob_parts (non_separator_regex separator) pattern).

Definition str_eq_any (value : bytes) (options : list bytes) : bool :=
  existsb (λ o, bool_decide (value = o)) options.
Definition to_ascii_uppercase (s : bytes) : bytes :=
  map (λ c, if (97 <=? c) && (c <=? 122) then c - 32 else c) s.
Definition str_eq_any_case_insensitive (value : bytes) (options : list bytes) : bool :=
  existsb (λ o, bool_decide (value = to_ascii_uppercase o)) options.

Definition any_method_matches (path : bytes) (a : action) : bool :=
  regex_matches (a_path a) (glob_regex path (lit "/")).
Definition methods_match (methods : list bytes) (path : bytes) (a : action) : bool :=
  str_eq_any_case_insensitive (a_method a) methods
  && regex_matches (a_path a) (glob_regex path (lit "/")).
Definition method_and_path_match (method path : bytes) (a : action) : bool :=
  if is_empty method then false
  else
    let path := if is_empty path then lit "**" else path in
    if decide (method = lit "*") then any_method_matches path a
    else if eq_ignore_ascii_case method (lit "GET")
         then methods_match [lit "GET"; lit "HEAD"] path a
    else methods_match [method] path a.

Definition endpoint_matches_connection (e : NetworkEndpoint) (a : action) : bool :=
  existsb (λ p, a_port a =? p) (effective_ports e)
  && regex_matches (a_host a) (glob_regex (to_ascii_lowercase (host e)) (lit ".")).

Section formulas.
Context {glob : GlobCrate}.

Definition endpoint_path_matches (e : NetworkEndpoint) (a : action) : bool :=
  let pattern := endpoint_path e in
  if is_empty pattern || bool_decide (pattern = lit "**") || bool_decide (pattern = lit "/**")
  then true
  else
    match strip_suffix (lit "/**") pattern with
    | Some prefix => bool_decide (a_path a = prefix) || starts_with (prefix ++ lit "/") (a_path a)
    | None =>
        match glob_pattern pattern with
        | None => bool_decide (a_path a = pattern)
        | Some _ =>
            let pattern := if ends_with (lit "/**/") pattern
                           then take (length pattern - 1) pattern else pattern in
            regex_matches (a_path a) (path_glob_regex pattern RFull)
        end
    end.

Definition rest_endpoint_allows (e : NetworkEndpoint) (a : action) : bool :=
  match access_preset_parse (access e) with
  | Some Full => any_method_matches (lit "**") a
  | Some preset => methods_match (access_preset_methods preset (lit "rest")) (lit "**") a
  | None =>
      existsb (λ r, method_and_path_match (method (allow r)) (path (allow r)) a) (rules e)
  end.

Definition endpoint_allows (e : NetworkEndpoint) (a : action) : bool :=
  let common := endpoint_matches_connection e a in
  match protocol_kind e with
  | L4 => common
  | Rest => common && bool_decide (a_layer a = LAYER_REST) && endpoint_path_matches e a
            && rest_endpoint_allows e a
  end.

Definition endpoint_denies (e : NetworkEndpoint) (a : action) : bool :=
  match protocol_kind e with
  | L4 => false
  | Rest =>
      if is_empty (deny_rules e) then false
      else
        endpoint_matches_connection e a && bool_decide (a_layer a = LAYER_REST)
        && endpoint_path_matches e a
        && existsb (λ d, method_and_path_match (method (deny d)) (path (deny d)) a) (deny_rules e)
  end.

Definition binaries_match (r : NetworkPolicyRule) (identity : bool) (a : action) : bool :=
  if negb identity then true
  else existsb (λ b, let pattern := glob_regex (binary_path b) (lit "/") in
                     regex_matches (a_binary a) pattern
                     || regex_matches (a_ancestor_binary a) pattern) (binaries r).

Definition rule_allows (r : NetworkPolicyRule) (identity : bool) (a : action) : bool :=
  binaries_match r identity a && existsb (λ e, endpoint_allows e a) (endpoints r).
Definition rule_denies (r : NetworkPolicyRule) (identity : bool) (a : action) : bool :=
  binaries_match r identity a && existsb (λ e, endpoint_denies e a) (endpoints r).

(** ** Destination addresses of an endpoint *)

Context {z3 : Z3}.

Definition GATEWAY_ALIASES : list bytes :=
  [lit "host.openshell.internal"; lit "host.containers.internal"; lit "host.docker.internal"].
Definition control_port (a : action) : bool :=
  existsb (λ p, a_port a =? p) [2379; 2380; 6443; 10250; 10255].

Definition ordinary_address (e : NetworkEndpoint) (a : action) : bool :=
  let exact := negb (contains_byte 42 (host e)) in
  if is_empty (allowed_ips e) then
    match IpParse.parse_ip (host e) with
    | None => if exact then negb (hard_blocked (a_ip a)) && negb (control_port a)
              else negb (internal (a_ip a))
    | Some ip => ip_matches (a_ip a) (from_ip ip) && negb (hard_blocked (a_ip a))
                 && negb (control_port a)
    end
  else
    existsb (λ raw, match Network_parse raw with
                    | Some n => ip_matches (a_ip a) n
                    | None => false
                    end) (allowed_ips e)
    && negb (hard_blocked (a_ip a)) && negb (control_port a).

Definition gateway_address (a : action) : bool :=
  (ranges (a_ip a) LINK_LOCAL || mapped_v4_ranges (a_ip a) LINK_LOCAL_V4)
  && negb (ranges (a_ip a) METADATA_V4) && negb (mapped_v4_ranges (a_ip a) METADATA_V4)
  && negb (control_port a).

Definition can_match_gateway (e : NetworkEndpoint) : bool :=
  existsb (λ alias,
    negb (bool_decide (simplify (λ _, regex_matches alias
                                        (glob_regex (to_ascii_lowercase (host e)) (lit ".")))
                       = Some false))) GATEWAY_ALIASES.

Definition endpoint_address (e : NetworkEndpoint) (a : action) : bool :=
  let trusted := str_eq_any (a_host a) GATEWAY_ALIASES && a_trusted_gateway a in
  let address := if can_match_gateway e
                 then (if trusted then gateway_address a else ordinary_address e a)
                 else ordinary_address e a in
  let literal := match IpParse.parse_ip (host e) with
                 | None => true
                 | Some ip => ip_matches (a_ip a) (from_ip ip)
                 end in
  address && literal.

Record ContainmentPolicy := containment_policy {
  cp_filesystem : FilesystemPolicy; cp_network : list (bytes * NetworkPolicyRule);
  cp_landlock : option LandlockPolicy; cp_process : option ProcessPolicy;
  cp_middlewares : list (bytes * NetworkMiddleware) }.
#[local] Instance containment_policy_eq : EqDecision ContainmentPolicy.
Proof. solve_decision. Defined.

Definition network_rules (p : ContainmentPolicy) : list NetworkPolicyRule := (cp_network p).*2.

Definition ip_policy_allows (p : ContainmentPolicy) (identity : bool) (a : action) : bool :=
  existsb (λ r, existsb (λ e,
    binaries_match r identity a && endpoint_matches_connection e a && endpoint_address e a)
    (endpoints r)) (network_rules p).

Definition policy_allows (p : ContainmentPolicy) (identity : bool) (a : action) : bool :=
  let allowed := existsb (λ r, rule_allows r identity a) (network_rules p) in
  let denied := existsb (λ r, rule_denies r identity a) (network_rules p) in
  allowed && negb denied && ip_policy_allows p identity a.

(** [assert_action_domain]. *)
Definition path_domain (p : bytes) : bool :=
  starts_with (lit "/") p && (length p <=? 4096)%nat
  && forallb (λ f, negb (contains_sub (lit f) p)) ["//"; "/./"; "/../"; ";"; "?"; "#"]%string
  && negb (bool_decide (p = lit "/.")) && negb (bool_decide (p = lit "/.."))
  && negb (ends_with (lit "/.") p) && negb (ends_with (lit "/..") p).
Definition action_domain (identity : bool) (a : action) : bool :=
  ip_domain (a_ip a)
  && (negb identity
      || (regex_matches (a_binary a) (glob_regex (lit "/**") (lit "/"))
          && (length (a_binary a) <=? 4096)%nat
          && regex_matches (a_ancestor_binary a) (glob_regex (lit "/**") (lit "/"))
          && (length (a_ancestor_binary a) <=? 4096)%nat))
  && (1 <=? a_port a) && (a_port a <=? 65535)
  && str_eq_any (a_layer a) [LAYER_L4; LAYER_REST]
  && negb (is_empty (a_method a)) && path_domain (a_path a).

(** ** Structural containment *)

Definition method_pattern_contains (boundary candidate : bytes) : bool :=
  bool_decide (boundary = lit "*") || eq_ignore_ascii_case boundary candidate
  || (eq_ignore_ascii_case boundary (lit "GET") && eq_ignore_ascii_case candidate (lit "HEAD")).

Definition path_pattern_contains (boundary candidate : bytes) : bool :=
  let boundary := if is_empty boundary then lit "**" else boundary in
  let candidate := if is_empty candidate then lit "**" else candidate in
  bool_decide (boundary = candidate) || bool_decide (boundary = lit "**")
  || match strip_suffix (lit "/**") boundary with
     | Some prefix => match strip_prefix prefix candidate with
                      | Some suffix => starts_with (lit "/") suffix
                      | None => false
                      end
     | None => false
     end.

Definition rest_endpoint_structurally_contains (boundary candidate : NetworkEndpoint) : bool :=
  if negb (bool_decide (protocol_kind boundary = Rest))
     || negb (bool_decide (protocol_kind candidate = Rest))
     || negb (eq_ignore_ascii_case (host boundary) (host candidate))
     || negb (bool_decide (endpoint_path boundary = endpoint_path candidate))
     || negb (bool_decide (allowed_ips boundary = allowed_ips candidate))
     || negb (forallb (λ p, contains_byte p (effective_ports boundary)) (effective_ports candidate))
     || negb (is_empty (access boundary)) || negb (is_empty (access candidate))
     || negb (is_empty (deny_rules boundary)) || negb (is_empty (deny_rules candidate))
  then false
  else forallb (λ c,
         if is_empty (method (allow c)) then false
         else existsb (λ b, method_pattern_contains (method (allow b)) (method (allow c))
                            && path_pattern_contains (path (allow b)) (path (allow c)))
                (rules boundary)) (rules candidate).

Definition rule_structurally_contains (boundary candidate : NetworkPolicyRule) (identity : bool) : bool :=
  (negb identity
   || forallb (λ c, existsb (λ b, bool_decide (binary_path b = binary_path c)) (binaries boundary))
        (binaries candidate))
  && forallb (λ c, existsb (λ b, rest_endpoint_structurally_contains b c) (endpoints boundary))
       (endpoints candidate).

Definition network_is_structurally_contained (boundary candidate : ContainmentPolicy)
    (identity : bool) : bool :=
  if existsb (λ r, existsb (λ e, negb (is_empty (deny_rules e))) (endpoints r)) (network_rules boundary)
  then false
  else forallb (λ c, existsb (λ b, rule_structurally_contains b c identity) (network_rules boundary))
         (network_rules candidate).

(** ** Counterexamples *)

Inductive FilesystemAccess := Read | Write.

Inductive Counterexample :=
  | CProcess (field boundary candidate : bytes)
  | CLandlock
  | CFilesystem (access : FilesystemAccess) (path : bytes)
  | CNetwork (binary ancestor_binary : option bytes) (identity : bool) (host : bytes)
      (destination_ip : IpAddr) (trusted_gateway : bool) (port : Z) (protocol : Protocol)
      (method path : option bytes).

(** The action a network counterexample stands for. *)
Definition counterexample_action (c : Counterexample) : option (action * bool) :=
  match c with
  | CNetwork binary ancestor identity host ip trusted port protocol method path =>
      Some (Action (default [] binary) (default [] ancestor) host port (protocol_str protocol)
              (default (lit "GET") method) (default (lit "/") path) (concrete ip) trusted, identity)
  | _ => None
  end.

Definition counterexample_satisfies_predicate (boundary candidate : ContainmentPolicy)
    (c : Counterexample) : bool :=
  match counterexample_action c with
  | None => false
  | Some (a, identity) =>
      bool_decide (simplify (λ _, policy_allows candidate identity a
                                  && negb (policy_allows boundary identity a)) = Some true)
  end.

Definition is_canonical_pattern_path (p : bytes) : bool :=
  starts_with (lit "/") p && negb (contains_sub (lit "//") p)
  && negb (existsb (λ seg, bool_decide (seg = lit ".") || bool_decide (seg = lit ".."))
             (split_on 47 p)).

(** [char::is_control] of a [char] of a UTF-8 string: U+0000-001F, U+007F and
    U+0080-009F, the last encoded as 0xC2 followed by the code. *)
Fixpoint has_control (s : bytes) : bool :=
  match s with
  | [] => false
  | b :: s' =>
      (b <=? 31) || (b =? 127)
      || ((b =? 0xC2) && match s' with c :: _ => (0x80 <=? c) && (c <=? 0x9F) | [] => false end)
      || has_control s'
  end.
Definition is_canonical_runtime_binary_path (p : bytes) : bool :=
  (length p <=? 4096)%nat && is_canonical_pattern_path p && negb (has_control p).

Definition is_ascii_lowercase (b : Z) : bool := (97 <=? b) && (b <=? 122).
Definition is_canonical_dns_host (h : bytes) : bool :=
  negb (is_empty h) && (length h <=? 253)%nat
  && forallb (λ label,
       negb (is_empty label) && (length label <=? 63)%nat
       && forallb (λ b, is_ascii_lowercase b || is_ascii_digit b || (b =? 45) || (b =? 95)) label
       && match head label with Some b => negb (b =? 45) | None => false end
       && match head (reverse label) with Some b => negb (b =? 45) | None => false end) (split_on 46 h).

Definition is_http_method (m : bytes) : bool :=
  negb (is_empty m)
  && forallb (λ b, is_ascii_alphanumeric b || contains_byte b (lit "!#$%&'*+-.^_`|~")) m.

Definition is_literal_canonical_pchar (b : Z) : bool :=
  is_ascii_alphanumeric b || contains_byte b (lit "-._~!$&'()*+,=:@").

(** An ASCII hex digit that is not a lowercase letter, and its value. *)
Definition upper_hex (b : Z) : option Z :=
  if is_ascii_digit b then Some (b - 48)
  else if (65 <=? b) && (b <=? 70) then Some (b - 55) else None.

(** The loop over the bytes of a path. *)
Fixpoint canonical_path_bytes (s : bytes) : bool :=
  match s with
  | [] => true
  | b :: s1 =>
      if negb (b =? 37) then
        ((b =? 47) || is_literal_canonical_pchar b) && canonical_path_bytes s1
      else
        match s1 with
        | h :: l :: rest =>
            match upper_hex h, upper_hex l with
            | Some h, Some l =>
                let decoded := 16 * h + l in
                negb ((decoded =? 47) || (decoded =? 59) || (decoded <? 32) || (decoded =? 127)
                      || is_literal_canonical_pchar decoded)
                && canonical_path_bytes rest
            | _, _ => false
            end
        | _ => false
        end
  end.

Definition is_canonical_rest_path (p : bytes) : bool :=
  negb (is_empty p) && (length p <=? 4096)%nat && starts_with (lit "/") p
  && negb (contains_sub (lit "//") p) && negb (contains_byte 59 p) && negb (contains_byte 63 p)
  && negb (contains_byte 35 p)
  && forallb (λ b, (0x21 <=? b) && (b <=? 0x7e)) p
  && negb (existsb (λ seg, bool_decide (seg = lit ".") || bool_decide (seg = lit ".."))
             (split_on 47 p))
  && canonical_path_bytes p.

(** [replace("**", "a").replace('*', "a")]. *)
Fixpoint replace_stars (s : bytes) : bytes :=
  match s with
  | [] => []
  | b :: s1 =>
      if b =? 42 then
        match s1 with
        | c :: s2 => if c =? 42 then 97 :: replace_stars s2 else 97 :: replace_stars s1
        | [] => [97]
        end
      else b :: replace_stars s1
  end.

(** The sample requests of one endpoint of a rule. *)
Definition sample_witnesses (identity : bool) (re : NetworkPolicyRule * NetworkEndpoint)
  : list Counterexample :=
  let '(r, e) := re in
  let h := replace_stars (to_ascii_lowercase (host e)) in
  let binary := if identity
                then Some (match head (binaries r) with
                           | Some b => replace_stars (binary_path b)
                           | None => lit "/usr/bin/worker"
                           end)
                else None in
  let m := to_ascii_uppercase (match head (rules e) with
                               | Some r => method (allow r) | None => lit "GET" end) in
  let p := match head (rules e) with Some r => path (allow r) | None => endpoint_path e end in
  let p := if is_empty p then lit "/" else replace_stars p in
  if negb (is_canonical_dns_host h) || negb (is_canonical_rest_path p) || negb (is_http_method m)
  then []
  else
    match head (effective_ports e) with
    | None => []
    | Some port =>
        let rest := bool_decide (protocol_kind e = Rest) in
        (λ ip, CNetwork binary binary identity h ip false port (protocol_kind e)
                 (if rest then Some m else None) (if rest then Some p else None))
        <$> sample_addresses e
    end.

Definition concrete_network_witness (boundary candidate : ContainmentPolicy) (identity : bool)
  : option Counterexample :=
  let pairs := take 8 (concat ((λ r, (λ e, (r, e)) <$> endpoints r) <$> network_rules candidate)) in
  find (counterexample_satisfies_predicate boundary candidate)
    (concat (sample_witnesses identity <$> pairs)).

(** [model_string_exact]. *)
Definition model_string_exact (v : option (bytes * bool)) : option bytes :=
  match v with
  | Some (decoded, exact) =>
      if contains_sub (lit "\u{") decoded then None
      else if exact : bool then Some decoded else None
  | None => None
  end.

(** [SymbolicIp::decode]. *)
Definition decode_ip (m : model) : option IpAddr :=
  match m_high m, m_low m, m_v6 m with
  | Some high, Some low, Some true => Some (V6 (Z.lor (Z.shiftl high 64) low))
  | Some high, Some low, Some false => if low <=? u32_max then Some (V4 low) else None
  | _, _, _ => None
  end.

Definition model_binary (identity : bool) (v : option (bytes * bool)) : option (option bytes) :=
  if identity then
    match model_string_exact v with
    | Some b => if is_canonical_runtime_binary_path b then Some (Some b) else None
    | None => None
    end
  else Some None.

Definition counterexample_from_model (m : model) (identity : bool) : option Counterexample :=
  port ← m_port m;
  layer ← model_string_exact (m_layer m);
  binary ← model_binary identity (m_binary m);
  ancestor ← model_binary identity (m_ancestor_binary m);
  h ← model_string_exact (m_host m);
  if negb (is_canonical_dns_host h) then None
  else
    let protocol := if decide (layer = LAYER_L4) then L4 else Rest in
    mp ← match protocol with
         | L4 => Some (None, None)
         | Rest =>
             me ← model_string_exact (m_method m);
             pa ← model_string_exact (m_path m);
             if negb (is_http_method me) || negb (is_canonical_rest_path pa) then None
             else Some (Some me, Some pa)
         end;
    ip ← decode_ip m;
    trusted ← m_trusted_gateway m;
    if port <=? u16_max
    then Some (CNetwork binary ancestor identity h ip trusted port protocol mp.1 mp.2)
    else None.

(** ** Results *)

Inductive ReasonCode :=
  | UnsupportedPolicyShape | UnresolvedWorkdir | UnresolvedBinaryPath | UnresolvedFilesystemPath
  | SolverTimeout | SolverUnknown | ResourceLimit | InvalidWitness | Cancelled.

Inductive CheckResult :=
  | Within
  | Exceeds (c : Counterexample)
  | Unsupported (code : ReasonCode)
  | Inconclusive (code : ReasonCode).

Inductive NetworkSolve := SolvedWithin | SolvedExceeds (c : Counterexample) | Incomplete (r : CheckResult).

(** Where the cancellation flag is read. *)
Inductive point :=
  | AtStart | AfterLimit | AtRule (which : bool) (i : nat) | AtBinary (which : bool) (i j : nat)
  | AtEndpoint (which : bool) (i j : nat) | AtOverlap (which : bool) (i : nat) | AtEnd
  | AfterSolve (identity : bool).

(** What the environment decides: the flag's values, the time left for each
    query in milliseconds ([None] once the timeout has passed) and whether
    the timeout is zero. *)
Record environment := Environment {
  cancelled : point → bool; remaining_ms : bool → option Z; timeout_is_zero : bool }.

Definition unsupported (code : ReasonCode) : CheckResult := Unsupported code.
Definition solver_timeout_result : CheckResult := Inconclusive SolverTimeout.
Definition cancelled_result : CheckResult := Inconclusive Cancelled.

Definition solve_network_mode (env : environment) (boundary candidate : ContainmentPolicy)
    (identity : bool) : NetworkSolve :=
  if network_is_structurally_contained boundary candidate identity then SolvedWithin
  else
    match concrete_network_witness boundary candidate identity with
    | Some w => SolvedExceeds w
    | None =>
        let query : formula := λ a,
          action_domain identity a
          && (policy_allows candidate identity a && negb (policy_allows boundary identity a)) in
        match remaining_ms env identity with
        | None => Incomplete solver_timeout_result
        | Some ms =>
            if ms =? 0 then Incomplete solver_timeout_result
            else
              let r := check query in
              if cancelled env (AfterSolve identity) then Incomplete cancelled_result
              else
                match r with
                | Unsat => SolvedWithin
                | UnknownResult timeout =>
                    Incomplete (Inconclusive (if timeout : bool then SolverTimeout else SolverUnknown))
                | Sat =>
                    match get_model query ≫= λ m, counterexample_from_model m identity with
                    | Some c => if counterexample_satisfies_predicate boundary candidate c
                                then SolvedExceeds c
                                else Incomplete (Inconclusive InvalidWitness)
                    | None => Incomplete (Inconclusive InvalidWitness)
                    end
                end
        end
    end.

(** ** Filesystem *)

Definition WORKDIR_SYMBOL : bytes := lit "<OCI_WORKDIR>".

Definition path_is_covered (candidate : bytes) (boundary_paths : list bytes) : bool :=
  existsb (λ b, bool_decide (b = lit "/") || bool_decide (candidate = b)) boundary_paths.

Definition unresolved_workdir_reason (boundary candidate : ContainmentPolicy) : bool :=
  let bf := cp_filesystem boundary in
  let cf := cp_filesystem candidate in
  let boundary_writes := read_write bf in
  let boundary_reads := read_only bf ++ boundary_writes in
  (include_workdir cf && negb (include_workdir bf)
   && negb (existsb (λ p, bool_decide (p = lit "/")) boundary_writes))
  || (include_workdir bf
      && (existsb (λ p, negb (path_is_covered p boundary_writes)) (read_write cf)
          || existsb (λ p, negb (path_is_covered p boundary_reads)) (read_only cf))).

(** One of the two loops of [check_filesystem]: the first uncovered path with
    no boundary path at all exceeds; otherwise an uncovered one is unresolved. *)
Fixpoint check_paths (access : FilesystemAccess) (maxima : list bytes) (unresolved : option CheckResult)
    (candidates : list bytes) : option CheckResult * bool :=
  match candidates with
  | [] => (unresolved, false)
  | p :: ps =>
      if path_is_covered p maxima then check_paths access maxima unresolved ps
      else if is_empty maxima then (Some (Exceeds (CFilesystem access p)), true)
      else check_paths access maxima (Some (unsupported UnresolvedFilesystemPath)) ps
  end.

Definition check_filesystem (boundary candidate : ContainmentPolicy) : option CheckResult :=
  let bf := cp_filesystem boundary in
  let cf := cp_filesystem candidate in
  let boundary_writes :=
    read_write bf ++ (if include_workdir bf then [WORKDIR_SYMBOL] else []) in
  let boundary_reads := read_only bf ++ boundary_writes in
  let '(r, stop) := check_paths Write boundary_writes None (read_write cf) in
  if stop then r else (check_paths Read boundary_reads r (read_only cf)).1.

(** ** Execution: [containment/execution.rs] *)

Definition user_of (p : ContainmentPolicy) : bytes :=
  match cp_process p with Some q => run_as_user q | None => [] end.
Definition group_of (p : ContainmentPolicy) : bytes :=
  match cp_process p with Some q => run_as_group q | None => [] end.

Definition supported_identity (id : bytes) : bool :=
  is_empty id || bool_decide (id = lit "sandbox") || bool_decide (id = lit "root")
  || bool_decide (id = lit "0")
  || match parse_uint u32_max id with Some n => (1 <=? n) && (n <? u32_max) | None => false end.

Definition unsupported_reason (p : ContainmentPolicy) : bool :=
  match cp_process p with
  | Some q => negb (supported_identity (run_as_user q)) || negb (supported_identity (run_as_group q))
  | None => false
  end.

Definition is_root (id : bytes) : bool := bool_decide (id = lit "root") || bool_decide (id = lit "0").
Definition hard_landlock (p : ContainmentPolicy) : bool :=
  match cp_landlock p with
  | Some l => bool_decide (compatibility l = HardRequirement)
  | None => false
  end.

(** One identity field: a change that is settled, or the counterexample, or an
    unresolved change. *)
Inductive IdentityChange := Settled | Escalates (c : Counterexample) | Unresolved.
Definition identity_change (field boundary candidate : bytes) : IdentityChange :=
  if decide (boundary = candidate) then Settled
  else if is_root boundary && is_root candidate then Settled
  else if negb (is_empty boundary) && negb (is_root boundary) && is_root candidate
       then Escalates (CProcess field boundary candidate)
  else Unresolved.

Definition execution_check (boundary candidate : ContainmentPolicy) : option CheckResult :=
  let user := identity_change (lit "run_as_user") (user_of boundary) (user_of candidate) in
  let group := identity_change (lit "run_as_group") (group_of boundary) (group_of candidate) in
  match user, group with
  | Escalates c, _ => Some (Exceeds c)
  | _, Escalates c => Some (Exceeds c)
  | _, _ =>
      if hard_landlock boundary && negb (hard_landlock candidate) then Some (Exceeds CLandlock)
      else match user, group with
           | Settled, Settled => None
           | _, _ => Some (unsupported UnsupportedPolicyShape)
           end
  end.

(** ** Symlink uncertainty *)

Definition endpoint_authority_may_overlap (l r : NetworkEndpoint) : bool :=
  let ports_overlap := existsb (λ p, contains_byte p (effective_ports r)) (effective_ports l) in
  let hosts_may_overlap := eq_ignore_ascii_case (host l) (host r)
    || contains_byte 42 (host l) || contains_byte 42 (host r) in
  ports_overlap && hosts_may_overlap.

Definition endpoint_authority_sets_overlap (l r : list NetworkEndpoint) : bool :=
  existsb (λ e, existsb (endpoint_authority_may_overlap e) r) l.

Definition same_elements {A} `{EqDecision A} (l r : list A) : bool :=
  forallb (λ x, bool_decide (x ∈ r)) l && forallb (λ x, bool_decide (x ∈ l)) r.

Definition without_rules (e : NetworkEndpoint) : NetworkEndpoint :=
  network_endpoint (host e) (endpoint_path e) (port e) (ports e) (protocol e) (tls e)
    (enforcement e) (access e) [] (allowed_ips e) [] (allow_encoded_slash e)
    (websocket_credential_rewrite e) (request_body_credential_rewrite e)
    (allow_uninspected_credentials e) (persisted_queries e) (graphql_persisted_queries e)
    (graphql_max_body_bytes e) (credential_signing e) (signing_service e) (signing_region e)
    (credential_binding e) (json_rpc e) (mcp e).

Definition endpoint_authority_equal (l r : NetworkEndpoint) : bool :=
  same_elements (rules l) (rules r) && same_elements (deny_rules l) (deny_rules r)
  && bool_decide (without_rules l = without_rules r).

Definition endpoint_authority_sets_equal (l r : list NetworkEndpoint) : bool :=
  forallb (λ e, existsb (endpoint_authority_equal e) r) l
  && forallb (λ e, existsb (endpoint_authority_equal e) l) r.

(** A pattern the glob crate refuses cannot rule a match out. *)
Definition may_match (pattern s : bytes) : bool :=
  match glob_pattern pattern with Some m => m s | None => true end.

Definition has_ambiguous_candidate_binary_path (boundary candidate : ContainmentPolicy) : bool :=
  existsb (λ br,
    existsb (λ bb,
      contains_byte 42 (binary_path bb) && negb (bool_decide (binary_path bb = lit "/**"))
      && existsb (λ cr,
           endpoint_authority_sets_overlap (endpoints cr) (endpoints br)
           && existsb (λ cb,
                negb (contains_byte 42 (binary_path cb))
                && may_match (binary_path bb) (binary_path cb)
                && negb (existsb (λ er,
                     endpoint_authority_sets_equal (endpoints cr) (endpoints er)
                     && existsb (λ eb, bool_decide (binary_path eb = binary_path cb)) (binaries er))
                     (network_rules boundary))) (binaries cr)) (network_rules candidate))
      (binaries br)) (network_rules boundary).

Definition denying (r : NetworkPolicyRule) : list NetworkEndpoint :=
  filter (λ e, deny_rules e ≠ []) (endpoints r).

Definition unresolved_exact_deny_symlink (boundary candidate : ContainmentPolicy) : bool :=
  existsb (λ br,
    existsb (λ bb,
      negb (contains_byte 42 (binary_path bb))
      && existsb (λ cr,
           existsb (λ ce, existsb (endpoint_authority_may_overlap ce) (denying br)) (denying cr)
           && existsb (λ cb,
                contains_byte 42 (binary_path cb) && negb (bool_decide (binary_path cb = lit "/**"))
                && may_match (binary_path cb) (binary_path bb)) (binaries cr))
           (network_rules candidate))
      (if is_empty (denying br) then [] else binaries br)) (network_rules boundary).

(** ** Supported policies *)

Definition unsupported_network_literal (v : bytes) : bool :=
  negb (forallb (λ b, b <? 128) v) || contains_byte 0 v.

Definition unsupported_glob (p : bytes) : bool := existsb (λ c, contains_byte c (lit "?[]{}\")) p.

Definition stars_left (label : bytes) : nat :=
  Nat.max 1 (length (filter (λ b, b ≠ 42) label)).
Definition bad_label (index : nat) (label : bytes) : bool :=
  (63 <? stars_left label)%nat
  || negb (forallb (λ b, is_ascii_alphanumeric b || (b =? 45) || (b =? 95) || (b =? 42)) label)
  || bool_decide (head label = Some 45) || bool_decide (head (reverse label) = Some 45)
  || (contains_sub (lit "**") label && negb (bool_decide (label = lit "**")))
  || (negb (Nat.eqb index 0) && contains_byte 42 label
      && negb (bool_decide (label = lit "*")) && negb (bool_decide (label = lit "**"))).
Definition unsupported_host_glob (p : bytes) : bool :=
  let labels := split_on 46 p in
  unsupported_glob p || bool_decide (p = lit "*") || bool_decide (p = lit "**")
  || has_whitespace p || existsb is_empty labels
  || (253 <? sum_list (stars_left <$> labels) + (length labels - 1))%nat
  || existsb (λ il, bad_label il.1 il.2) (imap (λ i l, (i, l)) labels).

Definition unsupported_allow (r : L7Allow) : bool :=
  is_empty (method r) || negb (is_empty (command r)) || negb (is_empty (query r))
  || negb (is_empty (operation_type r)) || negb (is_empty (operation_name r))
  || negb (is_empty (fields r)) || is_some (tool r) || negb (is_empty (params r))
  || (negb (is_empty (path r)) && negb (starts_with (lit "/") (path r)))
  || (negb (is_empty (path r)) && negb (is_canonical_pattern_path (path r)))
  || unsupported_glob (path r).
Definition unsupported_deny (r : L7DenyRule) : bool := unsupported_allow (deny r).

Inductive PolicyValidationError := UnsupportedShape | ValidationCancelled.
Definition refuse_if (b : bool) : result unit PolicyValidationError :=
  if b then Err UnsupportedShape else Ok tt.

Definition validate_supported_common_policy (p : ContainmentPolicy) : result unit PolicyValidationError :=
  let? _ := refuse_if (unsupported_reason p) in refuse_if (negb (is_empty (cp_middlewares p))).

Definition validate_supported_binary (b : NetworkBinary) : result unit PolicyValidationError :=
  let? _ := refuse_if (unsupported_network_literal (binary_path b)) in
  refuse_if (is_empty (binary_path b) || negb (is_canonical_pattern_path (binary_path b))
             || unsupported_glob (binary_path b)).

Definition validate_shared_endpoint (e : NetworkEndpoint) : result unit PolicyValidationError :=
  let? _ := refuse_if (unsupported_network_literal (host e)) in
  let? _ := refuse_if (unsupported_network_literal (endpoint_path e)) in
  let? _ := refuse_if (is_empty (host e) || is_empty (effective_ports e)
                       || (negb (port e =? 0) && negb (is_empty (ports e)))) in
  let? _ := refuse_if (unsupported_host_glob (host e)) in
  let? _ := refuse_if (unsupported_glob (endpoint_path e)
                       || (negb (is_empty (endpoint_path e))
                           && negb (is_canonical_pattern_path (endpoint_path e)))) in
  let? _ := refuse_if (negb (is_empty (endpoint_path e))
                       && negb (starts_with (lit "/") (endpoint_path e))) in
  refuse_if (contains_byte 58 (host e)).

Definition validate_supported_graphql (e : NetworkEndpoint) : result unit PolicyValidationError :=
  refuse_if (negb (is_empty (persisted_queries e)) || negb (is_empty (graphql_persisted_queries e))
             || negb (graphql_max_body_bytes e =? 0)).
Definition validate_supported_credentials (e : NetworkEndpoint) : result unit PolicyValidationError :=
  refuse_if (negb (is_empty (credential_signing e)) || negb (is_empty (signing_service e))
             || negb (is_empty (signing_region e)) || is_some (credential_binding e)).
Definition validate_supported_json_rpc (e : NetworkEndpoint) : result unit PolicyValidationError :=
  refuse_if (is_some (json_rpc e)).
Definition validate_supported_mcp (e : NetworkEndpoint) : result unit PolicyValidationError :=
  refuse_if (is_some (mcp e)).

Definition validate_supported_endpoint_extensions (e : NetworkEndpoint)
  : result unit PolicyValidationError :=
  let? _ := refuse_if (negb (is_empty (tls e)) || allow_encoded_slash e
                       || websocket_credential_rewrite e || request_body_credential_rewrite e
                       || allow_uninspected_credentials e) in
  let? _ := refuse_if (ip_unsupported_endpoint e) in
  let? _ := validate_supported_graphql e in
  let? _ := validate_supported_credentials e in
  let? _ := validate_supported_json_rpc e in
  validate_supported_mcp e.

Definition validate_supported_protocol (e : NetworkEndpoint) : result Protocol PolicyValidationError :=
  let p := to_ascii_lowercase (protocol e) in
  if is_empty p || bool_decide (p = lit "tcp") then Ok L4
  else if decide (p = lit "rest") then Ok Rest else Err UnsupportedShape.

Definition validate_supported_l4 (e : NetworkEndpoint) : result unit PolicyValidationError :=
  let? _ := refuse_if (eq_ignore_ascii_case (protocol e) (lit "tcp")
                       && is_some (IpParse.parse_ip (host e))) in
  refuse_if (negb (is_empty (enforcement e)) || negb (is_empty (access e))
             || negb (is_empty (endpoint_path e)) || negb (is_empty (rules e))
             || negb (is_empty (deny_rules e))).

(** One REST rule: its literals and its shape. *)
Definition bad_rest_rule (r : L7Allow) : bool :=
  unsupported_network_literal (method r) || unsupported_network_literal (path r)
  || unsupported_allow r.
Definition validate_supported_rest (e : NetworkEndpoint) : result unit PolicyValidationError :=
  let? _ := refuse_if (negb (bool_decide (enforcement e = lit "enforce"))) in
  let? _ := refuse_if ((negb (is_empty (access e)) && negb (is_empty (rules e)))
                       || (is_empty (access e) && is_empty (rules e))
                       || (negb (is_empty (access e))
                           && negb (is_some (access_preset_parse (access e))))) in
  let? _ := refuse_if (existsb (λ r, bad_rest_rule (allow r)) (rules e)) in
  refuse_if (existsb (λ d, bad_rest_rule (deny d)) (deny_rules e)).

Definition validate_supported_endpoint (e : NetworkEndpoint) : result unit PolicyValidationError :=
  let? _ := validate_shared_endpoint e in
  let? _ := validate_supported_endpoint_extensions e in
  let? p := validate_supported_protocol e in
  match p with L4 => validate_supported_l4 e | Rest => validate_supported_rest e end.

(** A loop that reads the flag before each element. *)
Fixpoint guarded {A} (stop : nat → bool) (check : nat → A → result unit PolicyValidationError)
    (i : nat) (l : list A) : result unit PolicyValidationError :=
  match l with
  | [] => Ok tt
  | x :: l => if stop i then Err ValidationCancelled
              else let? _ := check i x in guarded stop check (S i) l
  end.

Definition validate_supported_network_rule (env : environment) (which : bool) (i : nat)
    (r : NetworkPolicyRule) : result unit PolicyValidationError :=
  let? _ := guarded (λ j, cancelled env (AtBinary which i j)) (λ _, validate_supported_binary) 0
              (binaries r) in
  guarded (λ j, cancelled env (AtEndpoint which i j)) (λ _, validate_supported_endpoint) 0
    (endpoints r).

(** ** Overlapping endpoints *)

Record AttributeSummary (T : Type) := summary { first_value : option T; mixed : bool }.
#[global] Arguments summary {T} _ _.
#[global] Arguments first_value {T} _.
#[global] Arguments mixed {T} _.

Section index.
Context {T : Type} `{EqDecision T}.

Definition summary_conflicts (s : AttributeSummary T) (v : T) : bool :=
  mixed s || match first_value s with Some f => negb (bool_decide (f = v)) | None => false end.
Definition summary_insert (v : T) (s : AttributeSummary T) : AttributeSummary T :=
  match first_value s with
  | Some f => summary (Some f) (mixed s || negb (bool_decide (f = v)))
  | None => summary (Some v) (mixed s)
  end.
Definition empty_summary : AttributeSummary T := summary None false.

Record AuthorityAttributeIndex := attribute_index {
  idx_all : gmap Z (AttributeSummary T);
  idx_wildcards : gmap Z (AttributeSummary T);
  idx_exact : gmap bytes (gmap Z (AttributeSummary T)) }.
Definition empty_index : AuthorityAttributeIndex := attribute_index ∅ ∅ ∅.

Definition conflict_at (m : gmap Z (AttributeSummary T)) (p : Z) (v : T) : bool :=
  match m !! p with Some s => summary_conflicts s v | None => false end.
Definition insert_at (m : gmap Z (AttributeSummary T)) (p : Z) (v : T) : gmap Z (AttributeSummary T) :=
  <[p := summary_insert v (default empty_summary (m !! p))]> m.

Definition overlaps_with_different (x : AuthorityAttributeIndex) (h : bytes) (ps : list Z) (v : T) : bool :=
  existsb (λ p,
    if contains_byte 42 h then conflict_at (idx_all x) p v
    else conflict_at (idx_wildcards x) p v
         || match idx_exact x !! h with Some m => conflict_at m p v | None => false end) ps.

Definition index_insert_port (h : bytes) (v : T) (x : AuthorityAttributeIndex) (p : Z)
  : AuthorityAttributeIndex :=
  let all := insert_at (idx_all x) p v in
  if contains_byte 42 h then
    attribute_index all (insert_at (idx_wildcards x) p v) (idx_exact x)
  else
    attribute_index all (idx_wildcards x)
      (<[h := insert_at (default ∅ (idx_exact x !! h)) p v]> (idx_exact x)).
Definition index_insert (h : bytes) (ps : list Z) (v : T) (x : AuthorityAttributeIndex)
  : AuthorityAttributeIndex :=
  fold_left (index_insert_port h v) ps x.
End index.
#[global] Arguments AuthorityAttributeIndex T : clear implicits.

Record overlap_state := overlap {
  ov_protocols : AuthorityAttributeIndex Protocol; ov_allowed : AuthorityAttributeIndex nat;
  ov_ids : gmap (list bytes) nat; ov_modes : AuthorityAttributeIndex bool;
  ov_different : bool * bool * bool }.

Definition overlap_step (s : overlap_state) (e : NetworkEndpoint) : overlap_state :=
  let h := to_ascii_lowercase (host e) in
  let ps := effective_ports e in
  let proto := protocol_kind e in
  let ids := match ov_ids s !! allowed_ips e with
             | Some _ => ov_ids s
             | None => <[allowed_ips e := size (ov_ids s)]> (ov_ids s)
             end in
  let id := default 0%nat (ids !! allowed_ips e) in
  let '(d_ips, d_modes, d_protocols) := ov_different s in
  let d_ips := d_ips || overlaps_with_different (ov_allowed s) h ps id in
  let d_protocols := d_protocols || overlaps_with_different (ov_protocols s) h ps proto in
  let wildcard := contains_byte 42 (host e) in
  let '(d_modes, modes) :=
    if is_empty (allowed_ips e) then
      (d_modes || overlaps_with_different (ov_modes s) h ps wildcard,
       index_insert h ps wildcard (ov_modes s))
    else (d_modes, ov_modes s) in
  overlap (index_insert h ps proto (ov_protocols s)) (index_insert h ps id (ov_allowed s))
    ids modes (d_ips, d_modes, d_protocols).

Definition policy_endpoints (p : ContainmentPolicy) : list NetworkEndpoint :=
  concat (endpoints <$> network_rules p).

Fixpoint overlap_loop (stop : nat → bool) (i : nat) (s : overlap_state) (l : list NetworkEndpoint)
  : result overlap_state PolicyValidationError :=
  match l with
  | [] => Ok s
  | e :: l => if stop i then Err ValidationCancelled
              else overlap_loop stop (S i) (overlap_step s e) l
  end.

Definition validate_no_cross_protocol_overlap (env : environment) (which : bool)
    (p : ContainmentPolicy) : result unit PolicyValidationError :=
  let? s := overlap_loop (λ i, cancelled env (AtOverlap which i)) 0
              (overlap empty_index empty_index ∅ empty_index (false, false, false))
              (policy_endpoints p) in
  let '(d_ips, d_modes, d_protocols) := ov_different s in
  let? _ := refuse_if d_ips in
  let? _ := refuse_if d_modes in
  refuse_if d_protocols.

Definition validate_supported_policy (env : environment) (which : bool) (p : ContainmentPolicy)
  : result unit PolicyValidationError :=
  let? _ := validate_supported_common_policy p in
  let? _ := guarded (λ i, cancelled env (AtRule which i))
              (λ i, validate_supported_network_rule env which i) 0 (network_rules p) in
  validate_no_cross_protocol_overlap env which p.

(** ** Resource limits *)

Definition MAX_RULES : Z := 1024.
Definition MAX_ENDPOINTS : Z := 4096.
Definition MAX_BINARIES : Z := 4096.
Definition MAX_PORT_ENTRIES : Z := 65536.
Definition MAX_L7_RULES : Z := 16384.
Definition MAX_IP_RANGES : Z := 4096.
Definition MAX_PATTERN_BYTES : Z := 4 * 1024.
Definition MAX_TOTAL_PATTERN_BYTES : Z := 1024 * 1024.

Definition usize_add (a b : Z) : Z := saturating_add usize_max a b.
Definition count {A} (l : list A) : Z := Z.of_nat (length l).

(** [account_pattern_bytes]: the new total, or nothing past a limit. *)
Definition account_pattern_bytes (total : option Z) (value : bytes) : option Z :=
  match total with
  | None => None
  | Some total =>
      if MAX_PATTERN_BYTES <? count value then None
      else let total := usize_add total (count value) in
           if MAX_TOTAL_PATTERN_BYTES <? total then None else Some total
  end.

(** The totals of the loop: port entries, L7 rules, address ranges, bytes. *)
Definition totals : Type := Z * Z * Z * Z.

Definition account_endpoint (t : option totals) (e : NetworkEndpoint) : option totals :=
  match t with
  | None => None
  | Some (port_entries, l7, ip_ranges, total) =>
      let entries := Z.max (if is_empty (ports e) && negb (port e =? 0) then 1 else 0)
                       (count (ports e)) in
      let port_entries := usize_add port_entries entries in
      let l7 := usize_add (usize_add l7 (count (rules e))) (count (deny_rules e)) in
      let ip_ranges := usize_add ip_ranges (count (allowed_ips e)) in
      if (MAX_PORT_ENTRIES <? port_entries) || (MAX_L7_RULES <? l7) || (MAX_IP_RANGES <? ip_ranges)
      then None
      else
        let total := fold_left account_pattern_bytes
          ([host e; endpoint_path e] ++ allowed_ips e
           ++ concat ((λ r, [path (allow r); method (allow r)]) <$> rules e)
           ++ concat ((λ d, [path (deny d); method (deny d)]) <$> deny_rules e)) (Some total) in
        (λ total, (port_entries, l7, ip_ranges, total)) <$> total
  end.

Definition account_strings (t : option totals) (l : list bytes) : option totals :=
  match t with
  | None => None
  | Some (port_entries, l7, ip_ranges, total) =>
      (λ total, (port_entries, l7, ip_ranges, total)) <$> fold_left account_pattern_bytes l (Some total)
  end.

Definition account_policy (t : option totals) (p : ContainmentPolicy) : option totals :=
  let f := cp_filesystem p in
  fold_left (λ t r, fold_left account_endpoint (endpoints r)
                      (account_strings t (binary_path <$> binaries r)))
    (network_rules p) (account_strings t (read_only f ++ read_write f)).

Definition over (limit : Z) (counts : list Z) : bool := limit <? fold_left usize_add counts 0.

(** [resource_limit_reason]: whether there is one. *)
Definition resource_limit_reason (boundary candidate : ContainmentPolicy) : bool :=
  let all_rules := network_rules boundary ++ network_rules candidate in
  over MAX_RULES [count (cp_network boundary); count (cp_network candidate)]
  || over MAX_ENDPOINTS ((λ r, count (endpoints r)) <$> all_rules)
  || over MAX_BINARIES ((λ r, count (binaries r)) <$> all_rules)
  || negb (is_some (account_policy (account_policy (Some (0, 0, 0, 0)) boundary) candidate)).

(** ** The check *)

Definition preflight_and_validate_policies (env : environment) (boundary candidate : ContainmentPolicy)
  : option CheckResult :=
  if cancelled env AtStart then Some cancelled_result
  else if resource_limit_reason boundary candidate then
    Some (if cancelled env AfterLimit then cancelled_result else Inconclusive ResourceLimit)
  else if timeout_is_zero env then Some (Inconclusive SolverTimeout)
  else
    match validate_supported_policy env false boundary with
    | Err ValidationCancelled => Some cancelled_result
    | Err UnsupportedShape => Some (unsupported UnsupportedPolicyShape)
    | Ok _ =>
        match validate_supported_policy env true candidate with
        | Err ValidationCancelled => Some cancelled_result
        | Err UnsupportedShape => Some (unsupported UnsupportedPolicyShape)
        | Ok _ => if cancelled env AtEnd then Some cancelled_result else None
        end
    end.

(** The loop over the two modes: the first result that ends it. *)
Definition solve_mode (env : environment) (boundary candidate : ContainmentPolicy) (identity : bool)
  : option CheckResult :=
  if identity && has_ambiguous_candidate_binary_path boundary candidate
  then Some (unsupported UnresolvedBinaryPath)
  else match solve_network_mode env boundary candidate identity with
       | SolvedWithin => None
       | SolvedExceeds c => Some (Exceeds c)
       | Incomplete r => Some r
       end.

Definition or_else (a b : option CheckResult) : option CheckResult :=
  match a with Some r => Some r | None => b end.

Definition check_within_boundary_inner (env : environment) (boundary candidate : ContainmentPolicy)
  : CheckResult :=
  match preflight_and_validate_policies env boundary candidate with
  | Some r => r
  | None =>
      if unresolved_workdir_reason boundary candidate then unsupported UnresolvedWorkdir
      else
        let execution_result := execution_check boundary candidate in
        match execution_result with
        | Some (Exceeds c) => Exceeds c
        | _ =>
            if decide (boundary = candidate) then Within
            else
              let filesystem_result := check_filesystem boundary candidate in
              match filesystem_result with
              | Some (Exceeds c) => Exceeds c
              | _ =>
                  match or_else (solve_mode env boundary candidate false)
                                (solve_mode env boundary candidate true) with
                  | Some r => r
                  | None =>
                      if unresolved_exact_deny_symlink boundary candidate
                      then unsupported UnresolvedBinaryPath
                      else default Within (or_else execution_result filesystem_result)
                  end
              end
        end
  end.

(** [parse_policy_str] from the parsed document: paths must be absolute and
    without [..], and are normalised. *)
Definition containment_path (p : bytes) : option bytes :=
  if negb (starts_with (lit "/") p) then None
  else if existsb (λ part, bool_decide (part = lit "..")) (split_on 47 p) then None
  else Some (normalize_path p).
Definition of_document (d : PolicyDocument) : option ContainmentPolicy :=
  let f := effective_filesystem_policy d in
  match mapM containment_path (read_only f), mapM containment_path (read_write f) with
  | Some ro, Some rw =>
      Some (containment_policy (filesystem (include_workdir f) ro rw) (network_policies d)
              (landlock d) (process d) (network_middlewares d))
  | _, _ => None
  end.

End formulas.
End Prover.
