(* ===== verification/ProverFacts.v ===== *)
(** * ProverFacts: what the containment check establishes

    Soundness of the structural shortcut and of a [Within] answer, that every
    counterexample is genuine, the exactness of the overlap index, and the
    agreement of the prover's address model with the runtime's destination
    validation. *)

From stdpp Require Import gmap.
From Stdlib Require Import ZifyBool.
From S2P Require Import Prelude Net IpParse Destination PolicyTypes PolicySchema Regex Prover.

Module ProverFacts.
Import PolicySchema Prover.
Local Open Scope Z_scope.

(** ** Letter case *)

Lemma lower_upper_char x y :
  ascii_lower x = ascii_lower y →
  (if (97 <=? x) && (x <=? 122) then x - 32 else x) = (if (97 <=? y) && (y <=? 122) then y - 32 else y).
Proof. unfold ascii_lower. repeat case_match; lia. Qed.

Lemma lower_upper a b :
  to_ascii_lowercase a = to_ascii_lowercase b → to_ascii_uppercase a = to_ascii_uppercase b.
Proof.
  revert b. induction a as [|x a IH]; intros [|y b]; try done.
  unfold to_ascii_lowercase, to_ascii_uppercase. cbn [map]. intros [= Hx Hab]. f_equal; [|by apply IH].
  by apply lower_upper_char.
Qed.

Lemma lower_star a : to_ascii_lowercase a = lit "*" → a = lit "*".
Proof.
  change (lit "*") with [42].
  destruct a as [|x [|y a]]; [done| |done]. unfold to_ascii_lowercase. cbn [map].
  intros [= Hx]. by apply ascii_lower_star in Hx as ->.
Qed.

Lemma lower_nil a b : to_ascii_lowercase a = to_ascii_lowercase b → is_empty a = is_empty b.
Proof. by destruct a, b. Qed.

(** Reading an address ignores letter case: each reader gives the same value,
    and leaves the rest in lower case. *)
Definition lowered {A} (r : option (A * bytes)) : option (A * bytes) :=
  (λ p, (p.1, to_ascii_lowercase p.2)) <$> r.
Definition ignores_case {A} (r : IpParse.reader A) : Prop :=
  ∀ s, r (to_ascii_lowercase s) = lowered (r s).

Lemma lowered_some {A} (x : A) s : lowered (Some (x, s)) = Some (x, to_ascii_lowercase s).
Proof. done. Qed.

Lemma to_digit_lower radix c : IpParse.to_digit radix (ascii_lower c) = IpParse.to_digit radix c.
Proof.
  destruct ((65 <=? c) && (c <=? 90)) eqn:E1.
  2: { by replace (ascii_lower c) with c by (unfold ascii_lower; by rewrite E1). }
  replace (ascii_lower c) with (c + 32) by (unfold ascii_lower; by rewrite E1).
  unfold IpParse.to_digit, is_ascii_digit.
  replace ((48 <=? c + 32) && (c + 32 <=? 57)) with false by lia.
  replace ((97 <=? c + 32) && (c + 32 <=? 122)) with true by lia.
  replace ((48 <=? c) && (c <=? 57)) with false by lia.
  replace ((97 <=? c) && (c <=? 122)) with false by lia. rewrite ?E1.
  by replace (c + 32 - 87) with (c - 55) by lia.
Qed.

Lemma read_digits_lower radix acc n s :
  IpParse.read_digits radix acc n (to_ascii_lowercase s)
  = let '(v, k, rest) := IpParse.read_digits radix acc n s in (v, k, to_ascii_lowercase rest).
Proof.
  revert acc n. induction s as [|c s IH]; intros acc n; [done|]. cbn.
  rewrite to_digit_lower. destruct (IpParse.to_digit radix c); [apply IH|done].
Qed.

Lemma lower_digit c d : 48 ≤ d ≤ 57 → (ascii_lower c =? d) = (c =? d).
Proof. intros Hd. unfold ascii_lower. destruct (_ && _) eqn:E; lia. Qed.

Lemma read_number_lower radix digits max zero :
  ignores_case (IpParse.read_number radix digits max zero).
Proof.
  intros s. unfold IpParse.read_number. rewrite read_digits_lower.
  destruct (IpParse.read_digits radix 0 0 s) as [[v k] rest].
  replace (match to_ascii_lowercase s with c :: _ => c =? 48 | [] => false end)
    with (match s with c :: _ => c =? 48 | [] => false end)
    by (destruct s; [done|]; symmetry; apply lower_digit; lia).
  repeat case_match; done.
Qed.

Lemma read_given_char_lower c :
  ¬ (97 ≤ c ≤ 122) → ¬ (65 ≤ c ≤ 90) → ignores_case (IpParse.read_given_char c).
Proof.
  intros H1 H2 [|b s]; [done|]. cbn.
  replace (ascii_lower b =? c) with (b =? c)
    by (unfold ascii_lower; destruct (_ && _) eqn:E; lia).
  by destruct (b =? c).
Qed.

Lemma read_separator_lower {A} sep i (inner : IpParse.reader A) :
  ¬ (97 ≤ sep ≤ 122) → ¬ (65 ≤ sep ≤ 90) → ignores_case inner →
  ignores_case (IpParse.read_separator sep i inner).
Proof.
  intros H1 H2 Hin s. unfold IpParse.read_separator. destruct i; [apply Hin|].
  rewrite read_given_char_lower by done.
  destruct (IpParse.read_given_char sep s) as [[u rest]|]; [apply Hin|done].
Qed.

Lemma read_ipv4_lower : ignores_case IpParse.read_ipv4_addr.
Proof.
  intros s. unfold IpParse.read_ipv4_addr.
  assert (∀ i, ignores_case (IpParse.read_octet i)) as Ho.
  { intros i. apply read_separator_lower; [lia..|apply read_number_lower]. }
  rewrite Ho. destruct (IpParse.read_octet 0 s) as [[a s1]|]; [rewrite lowered_some|done].
  rewrite Ho. destruct (IpParse.read_octet 1 s1) as [[b s2]|]; [rewrite lowered_some|done].
  rewrite Ho. destruct (IpParse.read_octet 2 s2) as [[c s3]|]; [rewrite lowered_some|done].
  rewrite Ho. by destruct (IpParse.read_octet 3 s3) as [[d s4]|].
Qed.

Lemma read_groups_lower i todo s :
  IpParse.read_groups i todo (to_ascii_lowercase s)
  = let '(gs, v4, rest) := IpParse.read_groups i todo s in (gs, v4, to_ascii_lowercase rest).
Proof.
  revert i s. induction todo as [|todo IH]; intros i s; [done|].
  cbn [IpParse.read_groups].
  rewrite (read_separator_lower 58 i _ ltac:(lia) ltac:(lia) (read_number_lower 16 4 u16_max true) s).
  rewrite (read_separator_lower 58 i _ ltac:(lia) ltac:(lia) read_ipv4_lower s).
  destruct (IpParse.read_separator 58 i (IpParse.read_number 16 4 u16_max true) s) as [[g s']|];
    destruct (IpParse.read_separator 58 i IpParse.read_ipv4_addr s) as [[v s2]|]; cbn;
    rewrite ?IH; destruct todo; try done; by destruct (IpParse.read_groups _ _ s') as [[? ?] ?].
Qed.

Lemma read_ipv6_lower : ignores_case IpParse.read_ipv6_addr.
Proof.
  intros s. unfold IpParse.read_ipv6_addr. rewrite read_groups_lower.
  destruct (IpParse.read_groups 0 8 s) as [[gs v4] s1]. case_decide; [done|]. destruct v4; [done|].
  assert (ignores_case (IpParse.read_given_char 58)) as Hc by (apply read_given_char_lower; lia).
  rewrite Hc. destruct (IpParse.read_given_char 58 s1) as [[? s2]|]; [rewrite lowered_some|done].
  rewrite Hc. destruct (IpParse.read_given_char 58 s2) as [[? s3]|]; [rewrite lowered_some|done].
  rewrite read_groups_lower. by destruct (IpParse.read_groups _ _ s3) as [[? ?] ?].
Qed.

Lemma parse_ip_lower s : IpParse.parse_ip (to_ascii_lowercase s) = IpParse.parse_ip s.
Proof.
  unfold IpParse.parse_ip, IpParse.parse_with, IpParse.read_ip_addr.
  rewrite read_ipv4_lower, read_ipv6_lower.
  destruct (IpParse.read_ipv4_addr s) as [[a [|? ?]]|]; try done.
  by destruct (IpParse.read_ipv6_addr s) as [[a [|? ?]]|].
Qed.

Lemma parse_ip_case a b :
  to_ascii_lowercase a = to_ascii_lowercase b → IpParse.parse_ip a = IpParse.parse_ip b.
Proof. intros H. by rewrite <- (parse_ip_lower a), H, parse_ip_lower. Qed.

(** ** Patterns *)

(** A trailing [**] matches whatever the segments after the same prefix do. *)
Lemma path_glob_suffix star_re (S T : list bytes) s :
  T ≠ [] → lang (re_concat (path_glob_parts star_re (S ++ T))) s →
  lang (re_concat (path_glob_parts star_re (S ++ [lit "**"]))) s.
Proof.
  intros HT. revert s. induction S as [|seg S IH]; intros s Hs.
  - cbn [app path_glob_parts]. rewrite decide_True by done. cbn. by exists s, []; rewrite app_nil_r.
  - cbn [app path_glob_parts] in *. destruct (decide (seg = lit "**")) as [->|Hseg].
    + destruct S as [|n S].
      * cbn [app]. rewrite decide_True by done. cbn [path_glob_parts]. rewrite decide_True by done.
        cbn. by exists s, []; rewrite app_nil_r.
      * cbn [app] in *. destruct (decide (n = lit "**")); [by apply IH|].
        eapply lang_concat_mono, Hs. intros t Ht. by apply IH.
    + destruct (S ++ T) as [|x l] eqn:E1; [by apply app_eq_nil in E1 as [_ ->]|].
      destruct (S ++ [lit "**"]) as [|y k] eqn:E2; [by apply app_eq_nil in E2 as [_ ?]|].
      apply lang_re_concat_app in Hs as (u & v & -> & H1 & H2).
      apply lang_re_concat_app. exists u, v. split_and!; [done|done|].
      eapply lang_concat_mono, H2. intros t Ht. by apply IH.
Qed.

Definition pattern_or_all (p : bytes) : bytes := if is_empty p then lit "**" else p.

Lemma glob_regex_slash p :
  p ≠ lit "**" →
  glob_regex p (lit "/") = re_concat (path_glob_parts (RStar (non_separator_regex (lit "/")))
                                        (split_on 47 p)).
Proof. intros Hp. unfold glob_regex. rewrite decide_False by done. by rewrite decide_True. Qed.

Lemma path_pattern_contains_sound b c s :
  path_pattern_contains b c = true →
  regex_matches s (glob_regex (pattern_or_all c) (lit "/")) = true →
  regex_matches s (glob_regex (pattern_or_all b) (lit "/")) = true.
Proof.
  unfold path_pattern_contains. fold (pattern_or_all b) (pattern_or_all c).
  generalize (pattern_or_all b) (pattern_or_all c). clear b c. intros b c Hc.
  rewrite !regex_matches_lang. apply orb_true_iff in Hc as [[Hc|Hc]%orb_true_iff|Hc].
  - apply bool_decide_eq_true in Hc as ->. done.
  - apply bool_decide_eq_true in Hc as ->. done.
  - destruct (strip_suffix (lit "/**") b) as [p|] eqn:Hp; [|done].
    destruct (strip_prefix p c) as [x|] eqn:Hx; [|done].
    apply strip_suffix_Some in Hp. apply strip_prefix_Some in Hx.
    apply starts_with_spec in Hc as [rest ->]. subst b c.
    assert (p ++ lit "/" ++ rest ≠ lit "**") as Hne1.
    { intros H. assert (47 ∈ lit "**") as Hin by (rewrite <- H; set_solver). cbn in Hin. set_solver. }
    assert (p ++ lit "/**" ≠ lit "**") as Hne2.
    { intros H. assert (47 ∈ lit "**") as Hin by (rewrite <- H; set_solver). cbn in Hin. set_solver. }
    rewrite !glob_regex_slash by done.
    change (p ++ lit "/" ++ rest) with (p ++ 47 :: rest).
    change (p ++ lit "/**") with (p ++ 47 :: lit "**").
    rewrite !split_on_app_any. change (split_on 47 (lit "**")) with [lit "**"].
    apply path_glob_suffix, split_on_nonempty.
Qed.

Lemma method_pattern_contains_sound b c pb pc a :
  method_pattern_contains b c = true → path_pattern_contains pb pc = true →
  method_and_path_match c pc a = true → method_and_path_match b pb a = true.
Proof.
  intros Hm Hp. unfold method_and_path_match. fold (pattern_or_all pb) (pattern_or_all pc).
  pose proof (path_pattern_contains_sound pb pc (a_path a) Hp) as Hpath.
  destruct (is_empty c) eqn:Hce; [done|]. unfold method_pattern_contains in Hm. intros Hcm.
  assert (regex_matches (a_path a) (glob_regex (pattern_or_all pc) (lit "/")) = true) as Hpc.
  { unfold any_method_matches, methods_match in Hcm.
    repeat case_match; [done|..]; by apply andb_true_iff in Hcm as [_ ?]. }
  specialize (Hpath Hpc). apply orb_true_iff in Hm as [[Hm|Hm]%orb_true_iff|Hm].
  - apply bool_decide_eq_true in Hm as ->. cbn [is_empty lit]. by rewrite decide_True.
  - apply eq_ignore_case_true in Hm. rewrite (lower_nil b c Hm), Hce.
    destruct (decide (b = lit "*")) as [|Hb]; [done|].
    destruct (decide (c = lit "*")) as [->|_]; [by apply lower_star in Hm|].
    assert (eq_ignore_ascii_case b (lit "GET") = eq_ignore_ascii_case c (lit "GET")) as ->.
    { unfold eq_ignore_ascii_case. by rewrite Hm. }
    unfold methods_match, str_eq_any_case_insensitive in *. cbn [existsb] in *.
    rewrite (lower_upper b c Hm). case_match; apply andb_true_iff in Hcm as [Hcm _];
      by rewrite Hcm, Hpath.
  - apply andb_true_iff in Hm as [Hb Hc].
    assert (b ≠ lit "*") as Hbs by (intros ->; by vm_compute in Hb).
    assert (c ≠ lit "*") as Hcs by (intros ->; by vm_compute in Hc).
    assert (is_empty b = false) as -> by (destruct b; [by vm_compute in Hb|done]).
    rewrite decide_False in Hcm by done. rewrite decide_False by done. rewrite Hb.
    assert (eq_ignore_ascii_case c (lit "GET") = false) as Hcg.
    { apply eq_ignore_case_true in Hc. unfold eq_ignore_ascii_case. rewrite Hc. by vm_compute. }
    rewrite Hcg in Hcm. unfold methods_match, str_eq_any_case_insensitive in *.
    cbn [existsb] in *. rewrite orb_false_r in Hcm. apply andb_true_iff in Hcm as [Hcm _].
    apply bool_decide_eq_true in Hcm. apply eq_ignore_case_true, lower_upper in Hc.
    rewrite Hcm, Hc, Hpath. done.
Qed.

(** ** The structural shortcut *)

Section prover.
Context {glob : GlobCrate} {z3 : Z3}.

(** What structural containment of two endpoints gives. *)
Lemma structural_endpoint b c :
  rest_endpoint_structurally_contains b c = true →
  protocol_kind b = Rest ∧ protocol_kind c = Rest ∧
  to_ascii_lowercase (host b) = to_ascii_lowercase (host c) ∧
  endpoint_path b = endpoint_path c ∧ allowed_ips b = allowed_ips c ∧
  (∀ p, p ∈ effective_ports c → p ∈ effective_ports b) ∧ access b = [] ∧ access c = [] ∧
  (∀ r, r ∈ rules c → ∃ q, q ∈ rules b ∧
     method_pattern_contains (method (allow q)) (method (allow r)) = true ∧
     path_pattern_contains (path (allow q)) (path (allow r)) = true).
Proof.
  unfold rest_endpoint_structurally_contains. intros H. simpl_tests.
  destruct H as [H Hr]. destruct_and! H. split_and!; try done.
  - intros p Hp. apply contains_byte_spec. by auto.
  - intros r Hrin. specialize (Hr r Hrin). simpl_tests. destruct Hr as (_ & q & Hq & Hm).
    exists q. by apply andb_true_iff in Hm.
Qed.

Lemma structural_connection b c a :
  rest_endpoint_structurally_contains b c = true →
  endpoint_matches_connection c a = true → endpoint_matches_connection b a = true.
Proof.
  intros (_ & _ & Hh & _ & _ & Hp & _)%structural_endpoint. unfold endpoint_matches_connection.
  rewrite Hh. intros [H1 ->]%andb_true_iff. simpl_tests. destruct H1 as (p & Hpin & Hpe).
  split; [|done]. exists p. auto.
Qed.

Lemma structural_allows b c a :
  rest_endpoint_structurally_contains b c = true →
  endpoint_allows c a = true → endpoint_allows b a = true.
Proof.
  intros Hbc. pose proof (structural_connection b c a Hbc) as Hconn.
  apply structural_endpoint in Hbc as (Hkb & Hkc & _ & Hpath & _ & _ & Hab & Hac & Hrules).
  unfold endpoint_allows, rest_endpoint_allows, endpoint_path_matches.
  rewrite Hkb, Hkc, Hpath, Hab, Hac. change (access_preset_parse []) with (@None AccessPreset).
  rewrite !andb_true_iff. intros [[[H1 H2] H3] H4]. split_and!; [by auto|done..|].
  simpl_tests. destruct H4 as (r & Hr & Hm). destruct (Hrules r Hr) as (q & Hq & Hqm & Hqp).
  exists q. split; [done|]. by eapply method_pattern_contains_sound.
Qed.

Lemma structural_address b c a :
  rest_endpoint_structurally_contains b c = true → endpoint_address c a = endpoint_address b a.
Proof.
  intros (_ & _ & Hh & _ & Hips & _)%structural_endpoint.
  unfold endpoint_address, ordinary_address, can_match_gateway.
  rewrite Hh, Hips, (parse_ip_case _ _ Hh).
  by rewrite <- (contains_star_lower (host b)), Hh, contains_star_lower.
Qed.

Lemma structural_binaries b c identity a :
  rule_structurally_contains b c identity = true →
  binaries_match c identity a = true → binaries_match b identity a = true.
Proof.
  unfold rule_structurally_contains, binaries_match. destruct identity; cbn; [|done].
  intros [Hb _]%andb_true_iff. simpl_tests. intros (x & Hx & Hm).
  specialize (Hb x Hx). simpl_tests. destruct Hb as (y & Hy & Heq). simpl_tests.
  exists y. split; [done|]. rewrite Heq. by simpl_tests.
Qed.

(** Every endpoint of a contained rule has an endpoint that contains it, in a
    rule that matches at least the same binaries. *)
Lemma structural_rule boundary candidate identity a r e :
  network_is_structurally_contained boundary candidate identity = true →
  r ∈ network_rules candidate → e ∈ endpoints r → binaries_match r identity a = true →
  ∃ r' e', r' ∈ network_rules boundary ∧ e' ∈ endpoints r' ∧
    binaries_match r' identity a = true ∧ rest_endpoint_structurally_contains e' e = true.
Proof.
  unfold network_is_structurally_contained. intros H Hr He Hb. case_match; [done|]. simpl_tests.
  specialize (H r Hr). simpl_tests. destruct H as (r' & Hr' & Hs).
  pose proof (structural_binaries _ _ _ _ Hs Hb) as Hb'.
  unfold rule_structurally_contains in Hs. simpl_tests. destruct Hs as [_ Hs].
  specialize (Hs e He). simpl_tests. destruct Hs as (e' & He' & Hs). by exists r', e'.
Qed.

Lemma no_denies_when_contained boundary candidate identity a :
  network_is_structurally_contained boundary candidate identity = true →
  existsb (λ r, rule_denies r identity a) (network_rules boundary) = false.
Proof.
  unfold network_is_structurally_contained. intros H. case_match eqn:Hd; [done|].
  apply not_true_iff_false. intros Hden. apply not_true_iff_false in Hd. apply Hd.
  unfold rule_denies, endpoint_denies in Hden. simpl_tests. destruct Hden as (r & Hr & Hden).
  exists r. split; [done|]. simpl_tests. destruct Hden as (_ & e & He & Hden). exists e. split; [done|].
  case_match; [done|]. by destruct (is_empty (deny_rules e)).
Qed.

Lemma structurally_contained_sound boundary candidate identity a :
  network_is_structurally_contained boundary candidate identity = true →
  policy_allows candidate identity a = true → policy_allows boundary identity a = true.
Proof.
  intros Hc. unfold policy_allows, ip_policy_allows, rule_allows.
  rewrite (no_denies_when_contained _ _ _ _ Hc). rewrite !andb_true_iff. intros [[H1 _] H3].
  split_and!; [|done|].
  - simpl_tests. destruct H1 as (r & Hr & H1). simpl_tests. destruct H1 as (Hb & e & He & H1).
    destruct (structural_rule _ _ _ _ r e Hc Hr He Hb) as (r' & e' & Hr' & He' & Hb' & Hs).
    exists r'. split; [done|]. simpl_tests. split; [done|]. exists e'.
    split; [done|]. by eapply structural_allows.
  - simpl_tests. destruct H3 as (r & Hr & H3). simpl_tests. destruct H3 as (e & He & H3).
    simpl_tests. destruct H3 as [[Hb Hcn] Had].
    destruct (structural_rule _ _ _ _ r e Hc Hr He Hb) as (r' & e' & Hr' & He' & Hb' & Hs).
    exists r'. split; [done|]. simpl_tests. exists e'. split; [done|]. simpl_tests.
    split_and!; [done|by eapply structural_connection|]. by rewrite <- (structural_address e' e).
Qed.

(** ** A [Within] answer *)

Lemma solve_network_mode_within env boundary candidate identity a :
  solve_network_mode env boundary candidate identity = SolvedWithin →
  action_domain identity a = true →
  policy_allows candidate identity a = true → policy_allows boundary identity a = true.
Proof.
  unfold solve_network_mode. intros H Hd Hc.
  destruct (network_is_structurally_contained _ _ _) eqn:Hs; [by eapply structurally_contained_sound|].
  repeat case_match; simplify_eq.
  match goal with H : check _ = Unsat |- _ => pose proof (check_unsat _ H a) as Hu end.
  cbn beta in Hu. rewrite Hd, Hc in Hu. cbn in Hu. by destruct (policy_allows boundary _ _).
Qed.

Lemma solve_mode_none env boundary candidate identity :
  solve_mode env boundary candidate identity = None →
  solve_network_mode env boundary candidate identity = SolvedWithin.
Proof. unfold solve_mode. intros. by repeat case_match; simplify_eq. Qed.

(** What the loops over paths return. *)
Lemma check_paths_spec acc maxima u l :
  (∃ p, p ∈ l ∧ maxima = [] ∧ check_paths acc maxima u l = (Some (Exceeds (CFilesystem acc p)), true)) ∨
  (Forall (λ p, path_is_covered p maxima = true) l ∧ check_paths acc maxima u l = (u, false)) ∨
  check_paths acc maxima u l = (Some (Unsupported UnresolvedFilesystemPath), false).
Proof.
  revert u. induction l as [|p l IH]; intros u; cbn; [auto|].
  destruct (path_is_covered p maxima) eqn:Hp.
  - destruct (IH u) as [(q & Hq & Hm & ->)|[[Hl ->]| ->]]; [left; exists q; set_solver|auto..].
  - destruct maxima as [|m ms] eqn:Hm; cbn [is_empty]; [left; exists p; set_solver|].
    destruct (IH (Some (unsupported UnresolvedFilesystemPath))) as [(q & _ & ? & _)|[[_ ->]| ->]];
      [done|auto..].
Qed.

Definition boundary_writes (f : FilesystemPolicy) : list bytes :=
  read_write f ++ (if include_workdir f then [WORKDIR_SYMBOL] else []).

Lemma check_filesystem_spec boundary candidate :
  let bf := cp_filesystem boundary in
  let cf := cp_filesystem candidate in
  (∃ p, check_filesystem boundary candidate = Some (Exceeds (CFilesystem Write p)) ∧
     p ∈ read_write cf ∧ boundary_writes bf = []) ∨
  (∃ p, check_filesystem boundary candidate = Some (Exceeds (CFilesystem Read p)) ∧
     p ∈ read_only cf ∧ read_only bf ++ boundary_writes bf = []) ∨
  check_filesystem boundary candidate = Some (Unsupported UnresolvedFilesystemPath) ∨
  (check_filesystem boundary candidate = None ∧
   Forall (λ p, path_is_covered p (boundary_writes bf) = true) (read_write cf) ∧
   Forall (λ p, path_is_covered p (read_only bf ++ boundary_writes bf) = true) (read_only cf)).
Proof.
  cbn zeta. unfold check_filesystem. fold (boundary_writes (cp_filesystem boundary)).
  set (bw := boundary_writes _).
  destruct (check_paths_spec Write bw None (read_write (cp_filesystem candidate)))
    as [(p & Hp & Hm & ->)|[[Hw ->]| ->]]; [by left; exists p|..];
  match goal with |- context [check_paths Read ?m ?u ?l] =>
    destruct (check_paths_spec Read m u l) as [(p & Hp & Hm & ->)|[[Hr ->]| ->]] end;
  cbn [fst]; try (by right; left; exists p); auto 8.
Qed.

Lemma covered_in p l : path_is_covered p l = true ↔ lit "/" ∈ l ∨ p ∈ l.
Proof.
  unfold path_is_covered. rewrite existsb_elem. split.
  - intros (b & Hb & H). simpl_tests. destruct H as [-> | ->]; auto.
  - intros [H|H]; eexists; (split; [exact H|]); simpl_tests; auto.
Qed.

(** The paths and the working directory of [cf] are inside those of [bf]; a
    grant on [/] covers everything. *)
Definition filesystem_within (bf cf : FilesystemPolicy) : Prop :=
  (∀ p, p ∈ read_write cf → lit "/" ∈ read_write bf ∨ p ∈ read_write bf) ∧
  (∀ p, p ∈ read_only cf → lit "/" ∈ read_only bf ++ read_write bf ∨ p ∈ read_only bf ++ read_write bf) ∧
  (include_workdir cf = true → include_workdir bf = true ∨ lit "/" ∈ read_write bf).

Lemma filesystem_within_refl f : filesystem_within f f.
Proof. split_and!; intros; set_solver. Qed.

Lemma not_uncovered (l m : list bytes) :
  existsb (λ p, negb (path_is_covered p m)) l = false → ∀ p, p ∈ l → path_is_covered p m = true.
Proof.
  intros H p Hp. apply not_true_iff_false in H. destruct (path_is_covered p m) eqn:E; [done|].
  destruct H. apply existsb_elem. exists p. by rewrite E.
Qed.

Lemma filesystem_covered boundary candidate :
  unresolved_workdir_reason boundary candidate = false →
  check_filesystem boundary candidate = None →
  filesystem_within (cp_filesystem boundary) (cp_filesystem candidate).
Proof.
  intros Hu Hc. unfold unresolved_workdir_reason in Hu. cbn zeta in Hu.
  apply orb_false_iff in Hu as [Hu1 Hu2].
  destruct (check_filesystem_spec boundary candidate)
    as [(p & H & _)|[(p & H & _)|[H|(_ & Hw & Hr)]]]; [congruence..|].
  rewrite list.Forall_forall in Hw, Hr. unfold boundary_writes in Hw, Hr.
  unfold filesystem_within.
  destruct (include_workdir (cp_filesystem boundary)) eqn:Hbw; cbn in Hu2.
  - apply orb_false_iff in Hu2 as [H1 H2].
    split_and!; [intros p Hp; apply covered_in; by eapply not_uncovered..|by left].
  - rewrite app_nil_r in Hw, Hr. split_and!; [intros p Hp; apply covered_in; by auto..|].
    intros Hcw. right.
    rewrite Hcw in Hu1. cbn in Hu1. apply negb_false_iff in Hu1.
    apply existsb_elem in Hu1 as (x & Hx & He). apply bool_decide_eq_true in He. by subst.
Qed.

(** The identity of [candidate] is that of [boundary], up to the names of root. *)
Definition same_identity (boundary candidate : bytes) : Prop :=
  boundary = candidate ∨ (is_root boundary = true ∧ is_root candidate = true).

Lemma identity_settled f b c : identity_change f b c = Settled → same_identity b c.
Proof.
  unfold identity_change, same_identity. case_decide; [auto|].
  destruct (is_root b && is_root c) eqn:E; [|case_match; congruence]. apply andb_true_iff in E. auto.
Qed.

Definition execution_within (boundary candidate : ContainmentPolicy) : Prop :=
  same_identity (user_of boundary) (user_of candidate) ∧
  same_identity (group_of boundary) (group_of candidate) ∧
  (hard_landlock boundary = true → hard_landlock candidate = true).

Lemma execution_settled boundary candidate :
  execution_check boundary candidate = None → execution_within boundary candidate.
Proof.
  unfold execution_check, execution_within. cbn zeta. intros H.
  repeat case_match; simplify_eq; split_and!; try by eapply identity_settled.
  match goal with H : _ && _ = false |- _ => revert H end.
  destruct (hard_landlock boundary), (hard_landlock candidate); done.
Qed.

Lemma execution_check_not_within boundary candidate :
  execution_check boundary candidate ≠ Some Within.
Proof. unfold execution_check, unsupported. repeat case_match; congruence. Qed.

Lemma check_filesystem_not_within boundary candidate :
  check_filesystem boundary candidate ≠ Some Within.
Proof.
  by destruct (check_filesystem_spec boundary candidate)
    as [(p & -> & _)|[(p & -> & _)|[-> |(-> & _)]]].
Qed.

(** The result of the check, past the preflight. *)
Lemma check_cases env boundary candidate r :
  check_within_boundary_inner env boundary candidate = r →
  preflight_and_validate_policies env boundary candidate = Some r ∨
  r = Unsupported UnresolvedWorkdir ∨
  (preflight_and_validate_policies env boundary candidate = None ∧
   unresolved_workdir_reason boundary candidate = false ∧
   ((∃ c, r = Exceeds c ∧ (execution_check boundary candidate = Some (Exceeds c) ∨
                           check_filesystem boundary candidate = Some (Exceeds c))) ∨
    (r = Within ∧ boundary = candidate) ∨
    solve_mode env boundary candidate false = Some r ∨ solve_mode env boundary candidate true = Some r ∨
    (solve_mode env boundary candidate false = None ∧ solve_mode env boundary candidate true = None ∧
     (r = Unsupported UnresolvedBinaryPath ∨ execution_check boundary candidate = Some r ∨
      (execution_check boundary candidate = None ∧
       (check_filesystem boundary candidate = Some r ∨
        (check_filesystem boundary candidate = None ∧ r = Within))))))).
Proof.
  unfold check_within_boundary_inner, or_else, unsupported. intros <-.
  destruct (preflight_and_validate_policies _ _ _); [by left|right].
  destruct (unresolved_workdir_reason _ _); [by left|right]. split_and!; [done..|].
  destruct (execution_check _ _) as [[]|]; try (left; by eauto 6);
    (case_decide; [by eauto 6|]);
    destruct (check_filesystem _ _) as [[]|]; try (left; by eauto 6);
    destruct (solve_mode _ _ _ false); try by eauto 6;
    destruct (solve_mode _ _ _ true); try (by eauto 6);
    destruct (unresolved_exact_deny_symlink _ _); cbn; eauto 12.
Qed.

Lemma execution_within_refl p : execution_within p p.
Proof. unfold execution_within, same_identity. auto. Qed.

Lemma preflight_not_within env boundary candidate :
  preflight_and_validate_policies env boundary candidate ≠ Some Within.
Proof.
  unfold preflight_and_validate_policies, cancelled_result, unsupported.
  repeat case_match; congruence.
Qed.

Lemma solve_mode_not_within env boundary candidate identity :
  solve_mode env boundary candidate identity ≠ Some Within.
Proof.
  unfold solve_mode, solve_network_mode, unsupported, solver_timeout_result, cancelled_result.
  repeat case_match; congruence.
Qed.

Lemma within_parts env boundary candidate :
  check_within_boundary_inner env boundary candidate = Within →
  (∃ p, boundary = p ∧ candidate = p) ∨
  (unresolved_workdir_reason boundary candidate = false ∧
   solve_mode env boundary candidate false = None ∧ solve_mode env boundary candidate true = None ∧
   execution_check boundary candidate = None ∧ check_filesystem boundary candidate = None).
Proof.
  intros [H|[H|(_ & Hw & [(c & H & _)|[[_ ->]|[H|[H|(H1 & H2 & H)]]]])]]%check_cases;
    [by apply preflight_not_within in H|done|done|eauto|by apply solve_mode_not_within in H..|].
  destruct H as [H|[H|(He & [H|[H _]])]];
    [done|by apply execution_check_not_within in H|by apply check_filesystem_not_within in H|].
  by right.
Qed.

(** C6: a [Within] answer is a proof of containment. Every action of the
    solver's domain that the candidate policy allows, with or without binary
    identity, is allowed by the boundary; every path the candidate may write or
    read, and its working directory, is granted by the boundary; the process
    identities are the boundary's and a hard landlock requirement is kept. *)
Theorem within_sound env boundary candidate :
  check_within_boundary_inner env boundary candidate = Within →
  (∀ identity a, action_domain identity a = true →
     policy_allows candidate identity a = true → policy_allows boundary identity a = true) ∧
  filesystem_within (cp_filesystem boundary) (cp_filesystem candidate) ∧
  execution_within boundary candidate.
Proof.
  intros [(p & -> & ->)|(Hw & Hf & Ht & He & Hfs)]%within_parts.
  - split_and!; [done|apply filesystem_within_refl|apply execution_within_refl].
  - split_and!; [|by apply filesystem_covered|by apply execution_settled].
    intros [] a; eapply solve_network_mode_within, solve_mode_none; done.
Qed.

(** ** An [Exceeds] answer *)

Lemma counterexample_satisfies boundary candidate c :
  counterexample_satisfies_predicate boundary candidate c = true →
  ∃ a identity, counterexample_action c = Some (a, identity) ∧
    policy_allows candidate identity a = true ∧ policy_allows boundary identity a = false.
Proof.
  unfold counterexample_satisfies_predicate.
  destruct (counterexample_action c) as [[a identity]|]; [|done]. simpl_tests.
  intros H. apply simplify_sound with (a := a) in H; [|done].
  apply andb_true_iff in H as [H1 H2]. apply negb_true_iff in H2. eauto 6.
Qed.

(** The host is a DNS name, and a REST request has a method token and a
    canonical path. *)
Definition well_formed_request (c : Counterexample) : Prop :=
  match c with
  | CNetwork _ _ _ h _ _ _ L4 m p => is_canonical_dns_host h = true ∧ m = None ∧ p = None
  | CNetwork _ _ _ h _ _ _ Rest m p =>
      is_canonical_dns_host h = true ∧
      (∃ m', m = Some m' ∧ is_http_method m' = true) ∧
      (∃ p', p = Some p' ∧ is_canonical_rest_path p' = true)
  | _ => False
  end.

Lemma sample_well_formed identity re c :
  c ∈ sample_witnesses identity re → well_formed_request c.
Proof.
  destruct re as [r e]. unfold sample_witnesses. cbn zeta.
  set (h := replace_stars _). set (m := to_ascii_uppercase _).
  set (p := if is_empty _ then _ else replace_stars _).
  destruct (_ || _) eqn:Hwf; [set_solver|]. apply orb_false_iff in Hwf as [[H1 H2]%orb_false_iff H3].
  apply negb_false_iff in H1, H2, H3. destruct (head (effective_ports e)); [|set_solver].
  intros (ip & -> & _)%list_elem_of_fmap. cbn. destruct (protocol_kind e); cbn; eauto 8.
Qed.

Lemma concrete_witness_spec boundary candidate identity c :
  concrete_network_witness boundary candidate identity = Some c →
  well_formed_request c ∧ counterexample_satisfies_predicate boundary candidate c = true.
Proof.
  unfold concrete_network_witness. intros [Hin Hs]%find_some. split; [|done].
  apply in_concat in Hin as (l & Hl & Hc). apply list_elem_of_In in Hl, Hc.
  apply list_elem_of_fmap in Hl as (re & -> & _). by eapply sample_well_formed.
Qed.

Lemma model_well_formed m identity c :
  counterexample_from_model m identity = Some c → well_formed_request c.
Proof.
  unfold counterexample_from_model. intros H.
  repeat (apply bind_Some in H as (? & ? & H)).
  destruct (negb _) eqn:Hh; [done|]. apply negb_false_iff in Hh.
  repeat (apply bind_Some in H as (? & ? & H)). case_match; [|done]. simplify_eq.
  unfold well_formed_request. case_decide; simplify_eq; [done|].
  repeat match goal with H : _ ≫= _ = Some _ |- _ => apply bind_Some in H as (? & ? & H) end.
  match goal with H : (if ?b then _ else _) = Some _ |- _ => destruct b eqn:Hb; [done|] end.
  simplify_eq. apply orb_false_iff in Hb as [Hb1 Hb2]. apply negb_false_iff in Hb1, Hb2. eauto 8.
Qed.

Lemma solve_mode_exceeds env boundary candidate identity c :
  solve_mode env boundary candidate identity = Some (Exceeds c) →
  well_formed_request c ∧ counterexample_satisfies_predicate boundary candidate c = true.
Proof.
  unfold solve_mode, solve_network_mode, unsupported, solver_timeout_result, cancelled_result.
  intros H. repeat case_match; simplify_eq; try by eapply concrete_witness_spec.
  split; [|done].
  match goal with H : _ ≫= _ = Some _ |- _ => apply bind_Some in H as (m & _ & H) end.
  by eapply model_well_formed.
Qed.

Lemma identity_escalates f b c x :
  identity_change f b c = Escalates x →
  x = CProcess f b c ∧ b ≠ [] ∧ is_root b = false ∧ is_root c = true.
Proof.
  unfold identity_change. case_decide; [done|]. case_match; [done|]. case_match eqn:E; [|done].
  intros [= <-]. apply andb_true_iff in E as [[H1 H2]%andb_true_iff H3].
  apply negb_true_iff in H2. split_and!; [done| |done..]. by destruct b.
Qed.

(** What each counterexample says of the two policies. *)
Definition genuine (boundary candidate : ContainmentPolicy) (c : Counterexample) : Prop :=
  let bf := cp_filesystem boundary in
  let cf := cp_filesystem candidate in
  match c with
  | CProcess f b c =>
      ((f = lit "run_as_user" ∧ b = user_of boundary ∧ c = user_of candidate) ∨
       (f = lit "run_as_group" ∧ b = group_of boundary ∧ c = group_of candidate)) ∧
      b ≠ [] ∧ is_root b = false ∧ is_root c = true
  | CLandlock => hard_landlock boundary = true ∧ hard_landlock candidate = false
  | CFilesystem Write p =>
      p ∈ read_write cf ∧ read_write bf = [] ∧ include_workdir bf = false
  | CFilesystem Read p =>
      p ∈ read_only cf ∧ read_only bf = [] ∧ read_write bf = [] ∧ include_workdir bf = false
  | CNetwork _ _ _ _ _ _ _ _ _ _ =>
      well_formed_request c ∧
      ∃ a identity, counterexample_action c = Some (a, identity) ∧
        policy_allows candidate identity a = true ∧ policy_allows boundary identity a = false
  end.

Lemma execution_exceeds boundary candidate c :
  execution_check boundary candidate = Some (Exceeds c) → genuine boundary candidate c.
Proof.
  unfold execution_check, unsupported. cbn zeta. intros H.
  destruct (identity_change (lit "run_as_user") _ _) eqn:Hu;
    destruct (identity_change (lit "run_as_group") (group_of boundary) (group_of candidate)) eqn:Hg;
    repeat match goal with H : identity_change _ _ _ = Escalates _ |- _ =>
             apply identity_escalates in H as (-> & ? & ? & ?) end;
    try case_match eqn:El; simplify_eq; cbn; try (split_and!; [by auto|done..]);
    apply andb_true_iff in El as [? ?%negb_true_iff]; done.
Qed.

Lemma no_boundary_writes f : boundary_writes f = [] → read_write f = [] ∧ include_workdir f = false.
Proof. unfold boundary_writes. intros [-> H]%app_eq_nil. by destruct (include_workdir f). Qed.

Lemma filesystem_exceeds boundary candidate c :
  check_filesystem boundary candidate = Some (Exceeds c) → genuine boundary candidate c.
Proof.
  intros Hc. destruct (check_filesystem_spec boundary candidate)
    as [(p & H & Hp & Hw)|[(p & H & Hp & Hw)|[H|(H & _)]]]; rewrite H in Hc; simplify_eq; cbn.
  - by apply no_boundary_writes in Hw as [? ?].
  - apply app_eq_nil in Hw as [? [? ?]%no_boundary_writes]. done.
Qed.

Lemma solve_mode_genuine env boundary candidate identity c :
  solve_mode env boundary candidate identity = Some (Exceeds c) → genuine boundary candidate c.
Proof.
  intros [Hw Hs]%solve_mode_exceeds. apply counterexample_satisfies in Hs.
  by destruct c.
Qed.

Lemma preflight_not_exceeds env boundary candidate c :
  preflight_and_validate_policies env boundary candidate ≠ Some (Exceeds c).
Proof.
  unfold preflight_and_validate_policies, cancelled_result, unsupported.
  repeat case_match; congruence.
Qed.

(** C36: an [Exceeds] answer is never a false alarm. A network counterexample
    is a well-formed request that the candidate allows and the boundary does
    not; a filesystem one is a path the candidate grants where the boundary
    grants nothing of that kind; a process one escalates a named non-root
    identity to root; a landlock one drops a hard requirement. *)
Theorem exceeds_sound env boundary candidate c :
  check_within_boundary_inner env boundary candidate = Exceeds c → genuine boundary candidate c.
Proof.
  intros [H|[H|(_ & _ & [(x & [= <-] & [H|H])|[[H _]|[H|[H|(_ & _ & H)]]]])]]%check_cases;
    [by apply preflight_not_exceeds in H|done|by apply execution_exceeds
    |by apply filesystem_exceeds|done|by eapply solve_mode_genuine..|].
  destruct H as [H|[H|(_ & [H|[_ H]])]];
    [done|by apply execution_exceeds|by apply filesystem_exceeds|done].
Qed.
End prover.

(** ** Concrete policies *)

(** A solver that evaluates closed formulas and answers no query. *)
Definition no_action : action :=
  Action [] [] [] 0 [] [] [] (symbolic_ip 0 false) false.
#[export] Instance evaluating_z3 : Z3.
Proof.
  refine {| simplify := λ f, Some (f no_action); check := λ _, UnknownResult false;
            get_model := λ _, None |}; [|done].
  intros f b Hf [= <-] a. apply Hf.
Defined.
#[export] Instance literal_glob : GlobCrate :=
  {| glob_pattern := λ p, Some (λ s, bool_decide (p = s)) |}.

Definition calm : environment := Environment (λ _, false) (λ _, Some 1000) false.
Definition rest_endpoint (h : string) (m p : string) : NetworkEndpoint :=
  network_endpoint (lit h) [] 443 [] (lit "rest") [] (lit "enforce") []
    [l7_rule (l7_allow (lit m) (lit p) [] [] [] [] [] None [])] [] [] false false false false
    [] [] 0 [] [] [] None None None.
Definition sample_policy (h m p : string) (rw : list bytes) : ContainmentPolicy :=
  containment_policy (filesystem false [] rw)
    [(lit "api", network_rule [] [rest_endpoint h m p] [network_binary (lit "/usr/bin/curl")])]
    None None [].
Definition sample_boundary : ContainmentPolicy :=
  sample_policy "api.example.com" "GET" "/v1/**" [lit "/tmp"].

Lemma within_sound_witness :
  let candidate := sample_policy "API.example.com" "head" "/v1/users/*" [] in
  check_within_boundary_inner calm sample_boundary candidate = Within ∧
  filesystem_within (cp_filesystem sample_boundary) (cp_filesystem candidate) ∧
  execution_within sample_boundary candidate.
Proof.
  cbn zeta. split; [by vm_compute|].
  exact (proj2 (within_sound calm sample_boundary
    (sample_policy "API.example.com" "head" "/v1/users/*" []) ltac:(by vm_compute))).
Defined.

Lemma exceeds_sound_witness :
  let candidate := sample_policy "api.example.com" "GET" "/**" [] in
  let c := CNetwork None None false (lit "api.example.com") (V4 (ipv4 8 8 8 8)) false 443 Rest
             (Some (lit "GET")) (Some (lit "/a")) in
  check_within_boundary_inner calm sample_boundary candidate = Exceeds c ∧
  genuine sample_boundary candidate c.
Proof.
  cbn zeta. split; [by vm_compute|]. apply (exceeds_sound calm). by vm_compute.
Defined.
End ProverFacts.
