(* ===== verification/ProverIndex.v ===== *)
(** * ProverIndex: the overlap index of the containment check

    [validate_no_cross_protocol_overlap] does not compare endpoints pairwise:
    it keeps, per port and per host, a summary of the attribute values seen so
    far. Here the index is related to the set of values it summarises, and the
    validation to the pairwise condition it stands for. *)

From stdpp Require Import gmap.
From S2P Require Import Prelude PolicyTypes PolicySchema Prover.

Module ProverIndex.
Import PolicySchema Prover.
Local Open Scope Z_scope.

(** ** Summaries and indexes as sets of values *)

Section index.
Context {T : Type} `{EqDecision T}.

(** [s] stands for the values of [P]. *)
Definition summarizes (s : AttributeSummary T) (P : T → Prop) : Prop :=
  match first_value s with
  | None => mixed s = false ∧ ∀ w, ¬ P w
  | Some f => P f ∧ (mixed s = true ↔ ∃ w, P w ∧ w ≠ f)
  end.

Lemma summarizes_iff s P Q : (∀ w, P w ↔ Q w) → summarizes s P → summarizes s Q.
Proof.
  intros H. unfold summarizes. destruct (first_value s) as [f|].
  - rewrite (H f). by setoid_rewrite H.
  - by setoid_rewrite H.
Qed.

Lemma summary_conflicts_spec s P v :
  summarizes s P → summary_conflicts s v = true ↔ ∃ w, P w ∧ w ≠ v.
Proof.
  unfold summarizes, summary_conflicts. destruct (first_value s) as [f|].
  - intros [Hf Hm]. rewrite orb_true_iff, negb_true_iff, bool_decide_eq_false, Hm. split.
    + intros [(w & Hw & Hne)|Hne]; [|eauto]. destruct (decide (f = v)) as [->|]; eauto.
    + intros (w & Hw & Hne). destruct (decide (w = f)) as [->|]; eauto.
  - intros [-> Hn]. split; [done|]. intros (w & Hw & _). by destruct (Hn w).
Qed.

Lemma summary_insert_spec s P v :
  summarizes s P → summarizes (summary_insert v s) (λ w, P w ∨ w = v).
Proof.
  unfold summarizes, summary_insert. destruct (first_value s) as [f|]; cbn.
  - intros [Hf Hm]. split; [auto|]. rewrite orb_true_iff, negb_true_iff, bool_decide_eq_false, Hm.
    split.
    + intros [(w & Hw & Hne)|Hne]; [eauto|]. exists v. auto.
    + intros (w & [Hw| ->] & Hne); eauto.
  - intros [-> Hn]. split; [auto|]. split; [done|]. intros (w & [Hw| ->] & Hne); [|done].
    by destruct (Hn w).
Qed.

Definition map_summarizes (m : gmap Z (AttributeSummary T)) (P : Z → T → Prop) : Prop :=
  ∀ p, summarizes (default empty_summary (m !! p)) (P p).

Lemma conflict_at_spec m P p v :
  map_summarizes m P → conflict_at m p v = true ↔ ∃ w, P p w ∧ w ≠ v.
Proof.
  intros Hm. rewrite <- (summary_conflicts_spec _ _ v (Hm p)). unfold conflict_at.
  by destruct (m !! p).
Qed.

Lemma insert_at_spec m P p v :
  map_summarizes m P → map_summarizes (insert_at m p v) (λ q w, P q w ∨ (q = p ∧ w = v)).
Proof.
  intros Hm q. unfold insert_at. destruct (decide (q = p)) as [->|Hne].
  - rewrite lookup_insert_eq. eapply summarizes_iff, summary_insert_spec, Hm. intros w. cbn. tauto.
  - rewrite lookup_insert_ne by done. eapply summarizes_iff, Hm. intros w. cbn. tauto.
Qed.

Lemma map_summarizes_iff m P Q :
  (∀ p w, P p w ↔ Q p w) → map_summarizes m P → map_summarizes m Q.
Proof. intros H Hm p. eapply summarizes_iff, Hm. auto. Qed.

(** [x] stands for the values [P] has for each host and port. *)
Definition index_of (x : AuthorityAttributeIndex T) (P : bytes → Z → T → Prop) : Prop :=
  map_summarizes (idx_all x) (λ p w, ∃ h, P h p w) ∧
  map_summarizes (idx_wildcards x) (λ p w, ∃ h, contains_byte 42 h = true ∧ P h p w) ∧
  ∀ h, contains_byte 42 h = false → map_summarizes (default ∅ (idx_exact x !! h)) (P h).

Lemma index_of_iff x P Q : (∀ h p w, P h p w ↔ Q h p w) → index_of x P → index_of x Q.
Proof.
  intros H (Ha & Hw & He). split_and!.
  - eapply map_summarizes_iff, Ha. intros p w. cbn. by setoid_rewrite H.
  - eapply map_summarizes_iff, Hw. intros p w. cbn. by setoid_rewrite H.
  - intros h Hh. eapply map_summarizes_iff, He, Hh. auto.
Qed.

Lemma empty_index_of : index_of empty_index (λ _ _ _, False).
Proof.
  unfold index_of, map_summarizes, summarizes. cbn.
  split_and!; [..|intros h _]; intros p; rewrite ?lookup_empty; cbn; rewrite ?lookup_empty; cbn;
    (split; [done|]); intros w Hw; naive_solver.
Qed.

Lemma index_insert_port_spec x P h v p :
  index_of x P →
  index_of (index_insert_port h v x p) (λ h' q w, P h' q w ∨ (h' = h ∧ q = p ∧ w = v)).
Proof.
  intros (Ha & Hw & He). unfold index_insert_port.
  assert (map_summarizes (insert_at (idx_all x) p v)
    (λ q w, ∃ h', P h' q w ∨ (h' = h ∧ q = p ∧ w = v))) as Ha'.
  { eapply map_summarizes_iff, insert_at_spec, Ha. intros q w. cbn. naive_solver. }
  destruct (contains_byte 42 h) eqn:Hh; split_and!; cbn; try exact Ha'.
  - eapply map_summarizes_iff, insert_at_spec, Hw. intros q w. cbn. naive_solver.
  - intros h' Hh'. eapply map_summarizes_iff, He, Hh'. intros q w. cbn. naive_solver congruence.
  - eapply map_summarizes_iff, Hw. intros q w. cbn. naive_solver congruence.
  - intros h' Hh'. destruct (decide (h' = h)) as [->|Hne].
    + rewrite lookup_insert_eq. cbn. eapply map_summarizes_iff, insert_at_spec, He, Hh.
      intros q w. cbn. naive_solver.
    + rewrite lookup_insert_ne by done. eapply map_summarizes_iff, He, Hh'.
      intros q w. cbn. naive_solver.
Qed.

Lemma index_insert_spec x P h ps v :
  index_of x P → index_of (index_insert h ps v x) (λ h' q w, P h' q w ∨ (h' = h ∧ q ∈ ps ∧ w = v)).
Proof.
  unfold index_insert. revert x P. induction ps as [|p ps IH]; intros x P Hx; cbn.
  - eapply index_of_iff, Hx. intros h' q w. set_solver.
  - eapply index_of_iff, IH, index_insert_port_spec, Hx. intros h' q w. cbn. set_solver.
Qed.

Lemma overlaps_with_different_spec x P h ps v :
  index_of x P →
  overlaps_with_different x h ps v = true ↔
  ∃ p h' w, p ∈ ps ∧ P h' p w ∧ w ≠ v ∧
    (h = h' ∨ contains_byte 42 h = true ∨ contains_byte 42 h' = true).
Proof.
  intros (Ha & Hw & He). unfold overlaps_with_different. rewrite existsb_elem.
  destruct (contains_byte 42 h) eqn:Hh.
  - setoid_rewrite (conflict_at_spec _ _ _ _ Ha). naive_solver.
  - setoid_rewrite orb_true_iff. setoid_rewrite (conflict_at_spec _ _ _ _ Hw).
    assert (∀ p, match idx_exact x !! h with Some m => conflict_at m p v | None => false end = true
                 ↔ ∃ w, P h p w ∧ w ≠ v) as He'.
    { intros p. rewrite <- (conflict_at_spec _ _ _ _ (He h Hh)).
      destruct (idx_exact x !! h); cbn; [done|]. unfold conflict_at. by rewrite lookup_empty. }
    setoid_rewrite He'. split.
    + intros (p & Hp & [(w & (h' & Hs & HP) & Hne)|(w & HP & Hne)]); [exists p, h', w|exists p, h, w]; auto 6.
    + intros (p & h' & w & Hp & HP & Hne & [<-|[?|Hs]]); [|done|]; exists p; split; eauto 8.
Qed.

End index.

(** ** The loop over the endpoints *)

(** An attribute of endpoints, and its values over a list of them. *)
Definition values {T} (attr : NetworkEndpoint → option T) (l : list NetworkEndpoint)
    (h : bytes) (p : Z) (w : T) : Prop :=
  ∃ e, e ∈ l ∧ to_ascii_lowercase (host e) = h ∧ p ∈ effective_ports e ∧ attr e = Some w.

(** Two overlapping endpoints of the list whose attributes differ. *)
Definition clash {T} (attr : NetworkEndpoint → option T) (l : list NetworkEndpoint) : Prop :=
  ∃ e f v w, e ∈ l ∧ f ∈ l ∧ endpoint_authority_may_overlap e f = true ∧
    attr e = Some v ∧ attr f = Some w ∧ v ≠ w.

Lemma may_overlap_spec e f :
  endpoint_authority_may_overlap e f = true ↔
  (∃ p, p ∈ effective_ports e ∧ p ∈ effective_ports f) ∧
  (to_ascii_lowercase (host e) = to_ascii_lowercase (host f)
   ∨ contains_byte 42 (host e) = true ∨ contains_byte 42 (host f) = true).
Proof.
  unfold endpoint_authority_may_overlap.
  rewrite andb_true_iff, !orb_true_iff, eq_ignore_case_true, existsb_elem.
  setoid_rewrite contains_byte_spec. tauto.
Qed.

Lemma may_overlap_sym e f :
  endpoint_authority_may_overlap e f = true → endpoint_authority_may_overlap f e = true.
Proof. rewrite !may_overlap_spec. intros ((p & H1 & H2) & H). split; [eauto|]. intuition congruence. Qed.

Section attribute.
Context {T : Type} `{EqDecision T}.
Implicit Types attr : NetworkEndpoint → option T.

Lemma overlaps_clash attr x l e v :
  index_of x (values attr l) → attr e = Some v →
  overlaps_with_different x (to_ascii_lowercase (host e)) (effective_ports e) v = true ↔
  ∃ f w, f ∈ l ∧ endpoint_authority_may_overlap e f = true ∧ attr f = Some w ∧ v ≠ w.
Proof.
  intros Hx Hv. rewrite (overlaps_with_different_spec _ _ _ _ _ Hx). unfold values.
  setoid_rewrite may_overlap_spec. rewrite contains_star_lower. split.
  - intros (p & h & w & Hp & (f & Hf & <- & Hpf & Hw) & Hne & Ho).
    rewrite contains_star_lower in Ho. exists f, w. naive_solver.
  - intros (f & w & Hf & ((p & Hp & Hpf) & Ho) & Hw & Hne).
    exists p, (to_ascii_lowercase (host f)), w. rewrite contains_star_lower. naive_solver.
Qed.

Lemma values_snoc attr l e v h p w :
  attr e = Some v →
  values attr (l ++ [e]) h p w ↔
  values attr l h p w ∨ (h = to_ascii_lowercase (host e) ∧ p ∈ effective_ports e ∧ w = v).
Proof.
  intros Hv. unfold values. setoid_rewrite elem_of_app. setoid_rewrite list_elem_of_singleton.
  split.
  - intros (f & [Hf| ->] & <- & Hp & Hw); [left; eauto 6|right].
    rewrite Hv in Hw. injection Hw as ->. auto.
  - intros [(f & Hf & H)|(-> & Hp & ->)]; [exists f; auto|exists e; auto].
Qed.

Lemma values_snoc_none attr l e h p w :
  attr e = None → values attr (l ++ [e]) h p w ↔ values attr l h p w.
Proof.
  intros Hv. unfold values. setoid_rewrite elem_of_app. setoid_rewrite list_elem_of_singleton.
  split; [|by intros (f & Hf & H); exists f; auto].
  intros (f & [Hf| ->] & <- & Hp & Hw); [eauto 6|congruence].
Qed.

Lemma clash_snoc attr l e v :
  attr e = Some v →
  clash attr (l ++ [e]) ↔ clash attr l ∨
    ∃ f w, f ∈ l ∧ endpoint_authority_may_overlap e f = true ∧ attr f = Some w ∧ v ≠ w.
Proof.
  intros Hv. unfold clash. setoid_rewrite elem_of_app. setoid_rewrite list_elem_of_singleton. split.
  - intros (a & b & x & y & [Ha| ->] & [Hb| ->] & Ho & Hx & Hy & Hne).
    + left. eauto 10.
    + right. exists a, x. rewrite Hv in Hy. injection Hy as ->. apply may_overlap_sym in Ho. auto.
    + right. exists b, y. rewrite Hv in Hx. injection Hx as ->. auto.
    + congruence.
  - intros [(a & b & x & y & Ha & Hb & H)|(f & w & Hf & Ho & Hw & Hne)].
    + exists a, b, x, y. auto.
    + exists e, f, v, w. auto 8.
Qed.

Lemma clash_snoc_none attr l e : attr e = None → clash attr (l ++ [e]) ↔ clash attr l.
Proof.
  intros Hv. unfold clash. setoid_rewrite elem_of_app. setoid_rewrite list_elem_of_singleton.
  split; [|intros (a & b & x & y & Ha & Hb & H); exists a, b, x, y; by auto].
  intros (a & b & x & y & [Ha| ->] & [Hb| ->] & Ho & Hx & Hy & Hne); [|congruence..]. eauto 10.
Qed.

(** The index and the flag of one attribute, over the endpoints seen. *)
Definition tracks attr (l : list NetworkEndpoint) (x : AuthorityAttributeIndex T) (flag : bool) : Prop :=
  index_of x (values attr l) ∧ (flag = true ↔ clash attr l).

Lemma tracks_step attr l x flag e v :
  tracks attr l x flag → attr e = Some v →
  let h := to_ascii_lowercase (host e) in
  tracks attr (l ++ [e]) (index_insert h (effective_ports e) v x)
    (flag || overlaps_with_different x h (effective_ports e) v).
Proof.
  intros [Hx Hf] Hv. split.
  - eapply index_of_iff, index_insert_spec, Hx. intros h p w. by rewrite (values_snoc _ _ _ _ _ _ _ Hv).
  - by rewrite orb_true_iff, Hf, (overlaps_clash _ _ _ _ _ Hx Hv), (clash_snoc _ _ _ _ Hv).
Qed.

Lemma tracks_skip attr l x flag e :
  tracks attr l x flag → attr e = None → tracks attr (l ++ [e]) x flag.
Proof.
  intros [Hx Hf] Hv. split; [|by rewrite (clash_snoc_none _ _ _ Hv)].
  eapply index_of_iff, Hx. intros h p w. by rewrite (values_snoc_none _ _ _ _ _ _ Hv).
Qed.

Lemma tracks_ext attr attr' l x flag :
  (∀ e, e ∈ l → attr e = attr' e) → tracks attr l x flag → tracks attr' l x flag.
Proof.
  intros H [Hx Hf]. split.
  - eapply index_of_iff, Hx. intros h p w. unfold values.
    split; intros (e & He & H1 & H2 & H3); exists e; split_and!; try done; by rewrite <- H3, (H e He).
  - rewrite Hf. unfold clash.
    split; intros (e & f & v & w & He & Hg & Ho & Hv & Hw & Hne); exists e, f, v, w.
    + rewrite <- (H e He), <- (H f Hg). auto 8.
    + rewrite (H e He), (H f Hg). auto 8.
Qed.

Lemma tracks_nil attr : tracks attr [] empty_index false.
Proof.
  split.
  - eapply index_of_iff, empty_index_of. intros h p w. unfold values. set_solver.
  - split; [done|]. unfold clash. set_solver.
Qed.

End attribute.

(** An endpoint without address ranges resolves by its host, exactly or by a
    wildcard. *)
Definition implicit_mode (e : NetworkEndpoint) : option bool :=
  if is_empty (allowed_ips e) then Some (contains_byte 42 (host e)) else None.

(** Numbers given to keys in the order they are first seen. *)
Definition numbering (ids : gmap (list bytes) nat) : Prop :=
  (∀ k i, ids !! k = Some i → (i < size ids)%nat) ∧
  (∀ k k' i, ids !! k = Some i → ids !! k' = Some i → k = k').

Lemma numbering_insert ids k :
  numbering ids → ids !! k = None → numbering (<[k := size ids]> ids).
Proof.
  intros [Hb Hi] Hk. unfold numbering. rewrite map_size_insert_None by done.
  split.
  - intros k' i. destruct (decide (k' = k)) as [->|Hne].
    + rewrite lookup_insert_eq. intros [= <-]. lia.
    + rewrite lookup_insert_ne by done. intros H%Hb. lia.
  - intros k1 k2 i. destruct (decide (k1 = k)) as [->|H1], (decide (k2 = k)) as [->|H2];
      rewrite ?lookup_insert_eq, ?lookup_insert_ne by done; [done|..|by apply Hi].
    + intros [= <-] H%Hb. lia.
    + intros H%Hb [= <-]. lia.
Qed.

Definition assign_id (ids : gmap (list bytes) nat) (k : list bytes) : gmap (list bytes) nat :=
  match ids !! k with Some _ => ids | None => <[k := size ids]> ids end.

Lemma assign_id_spec ids k :
  numbering ids →
  numbering (assign_id ids k) ∧ is_Some (assign_id ids k !! k) ∧
  (∀ k', is_Some (ids !! k') → assign_id ids k !! k' = ids !! k').
Proof.
  intros Hn. unfold assign_id. destruct (ids !! k) eqn:Hk; [by rewrite Hk|].
  split_and!; [by apply numbering_insert|by rewrite lookup_insert_eq|].
  intros k' [i Hk']. by rewrite lookup_insert_ne by congruence.
Qed.

Definition overlap_inv (l : list NetworkEndpoint) (s : overlap_state) : Prop :=
  let '(d_ips, d_modes, d_protocols) := ov_different s in
  tracks (λ e, Some (protocol_kind e)) l (ov_protocols s) d_protocols ∧
  tracks (λ e, ov_ids s !! allowed_ips e) l (ov_allowed s) d_ips ∧
  tracks implicit_mode l (ov_modes s) d_modes ∧
  numbering (ov_ids s) ∧ ∀ e, e ∈ l → is_Some (ov_ids s !! allowed_ips e).

Lemma overlap_step_inv l s e : overlap_inv l s → overlap_inv (l ++ [e]) (overlap_step s e).
Proof.
  unfold overlap_inv, overlap_step. fold (assign_id (ov_ids s) (allowed_ips e)).
  destruct (ov_different s) as [[di dm] dp]. intros (Hp & Hi & Hm & Hn & Hl).
  destruct (assign_id_spec _ (allowed_ips e) Hn) as (Hn' & [i He] & Hold).
  destruct (if is_empty (allowed_ips e) then _ else _) as [dm' modes] eqn:Hmodes. cbn [ov_different ov_protocols ov_allowed ov_modes ov_ids].
  rewrite He. cbn [default]. split_and!; [by apply tracks_step|..].
  - apply tracks_step; [|done]. eapply tracks_ext, Hi. intros f Hf. cbn. symmetry. by apply Hold, Hl.
  - destruct (is_empty (allowed_ips e)) eqn:Hem; injection Hmodes as <- <-.
    + apply tracks_step; [done|]. unfold implicit_mode. by rewrite Hem.
    + apply tracks_skip; [done|]. unfold implicit_mode. by rewrite Hem.
  - done.
  - intros f [Hf|Hf]%elem_of_app.
    + rewrite Hold by auto. auto.
    + apply list_elem_of_singleton in Hf as ->. eauto.
Qed.

Lemma overlap_loop_inv stop i l l' s :
  (∀ i, stop i = false) → overlap_inv l s →
  ∃ s', overlap_loop stop i s l' = Ok s' ∧ overlap_inv (l ++ l') s'.
Proof.
  intros Hstop. revert i l s. induction l' as [|e l' IH]; intros i l s Hs; cbn.
  - exists s. by rewrite app_nil_r.
  - rewrite Hstop. destruct (IH (S i) (l ++ [e]) (overlap_step s e)) as (s' & H1 & H2);
      [by apply overlap_step_inv|]. exists s'. by rewrite <- app_assoc in H2.
Qed.

(** Two endpoints agree on what decides how a connection is judged. *)
Definition endpoints_agree (e f : NetworkEndpoint) : Prop :=
  allowed_ips e = allowed_ips f ∧
  (allowed_ips e = [] → contains_byte 42 (host e) = contains_byte 42 (host f)) ∧
  protocol_kind e = protocol_kind f.

Lemma no_clash_agree l ids :
  numbering ids → (∀ e, e ∈ l → is_Some (ids !! allowed_ips e)) →
  (¬ clash (λ e, Some (protocol_kind e)) l ∧ ¬ clash (λ e, ids !! allowed_ips e) l ∧
   ¬ clash implicit_mode l) ↔
  ∀ e f, e ∈ l → f ∈ l → endpoint_authority_may_overlap e f = true → endpoints_agree e f.
Proof.
  intros [_ Hinj] Hl. unfold clash. split.
  - intros (Hp & Hi & Hm) e f He Hf Ho.
    assert (allowed_ips e = allowed_ips f) as Heq.
    { destruct (Hl e He) as [x Hx], (Hl f Hf) as [y Hy].
      destruct (decide (x = y)) as [->|Hne]; [by eapply Hinj|]. destruct Hi. by exists e, f, x, y. }
    split_and!; [done| |].
    + intros Hem. destruct (decide (contains_byte 42 (host e) = contains_byte 42 (host f))) as [|Hne]; [done|].
      destruct Hm. exists e, f, (contains_byte 42 (host e)), (contains_byte 42 (host f)).
      unfold implicit_mode. by rewrite <- Heq, Hem.
    + destruct (decide (protocol_kind e = protocol_kind f)) as [|Hne]; [done|].
      destruct Hp. by exists e, f, (protocol_kind e), (protocol_kind f).
  - intros H. split_and!; intros (e & f & v & w & He & Hf & Ho & Hv & Hw & Hne);
      destruct (H e f He Hf Ho) as (Hips & Hmode & Hproto); [congruence|congruence|].
    unfold implicit_mode in Hv, Hw. rewrite <- Hips in Hw.
    destruct (allowed_ips e); [|done]. cbn in Hv, Hw. rewrite Hmode in Hv by done. congruence.
Qed.

(** The overlap index is exact. When the loop is not cancelled, the
    validation accepts a policy exactly when every two of its endpoints that
    may serve the same connection (a common port, and equal hosts up to case
    or a wildcard on either side) have the same address ranges, the same
    protocol, and, when they have no ranges, both or neither a wildcard host. *)
Theorem overlap_index_exact env which p :
  (∀ i, cancelled env (AtOverlap which i) = false) →
  validate_no_cross_protocol_overlap env which p = Ok tt ↔
  ∀ e f, e ∈ policy_endpoints p → f ∈ policy_endpoints p →
    endpoint_authority_may_overlap e f = true → endpoints_agree e f.
Proof.
  intros Hc. unfold validate_no_cross_protocol_overlap.
  destruct (overlap_loop_inv (λ i, cancelled env (AtOverlap which i)) 0 [] (policy_endpoints p)
    (overlap empty_index empty_index ∅ empty_index (false, false, false)) Hc)
    as (s & -> & Hs).
  { split_and!; [apply tracks_nil..|by split|set_solver]. }
  cbn. unfold overlap_inv in Hs. destruct (ov_different s) as [[di dm] dp].
  destruct Hs as ((_ & Hp) & (_ & Hi) & (_ & Hm) & Hn & Hl).
  rewrite <- (no_clash_agree _ _ Hn Hl). cbn [app] in *. rewrite <- Hp, <- Hi, <- Hm.
  by destruct di, dm, dp; cbn; naive_solver.
Qed.

Definition tcp_endpoint (h : string) (proto : string) : NetworkEndpoint :=
  network_endpoint (lit h) [] 443 [] (lit proto) [] [] [] [] [] [] false false false false
    [] [] 0 [] [] [] None None None.
Definition two_endpoints (h1 p1 h2 p2 : string) : ContainmentPolicy :=
  containment_policy (filesystem false [] [])
    [(lit "a", network_rule [] [tcp_endpoint h1 p1] []); (lit "b", network_rule [] [tcp_endpoint h2 p2] [])]
    None None [].
Definition never_cancelled : environment := Environment (λ _, false) (λ _, Some 1000) false.

(** The same host twice is accepted; the same host with two protocols is not. *)
Lemma overlap_index_exact_witness :
  (∀ e f, e ∈ policy_endpoints (two_endpoints "a.example.com" "tcp" "A.example.com" "tcp") →
     f ∈ policy_endpoints (two_endpoints "a.example.com" "tcp" "A.example.com" "tcp") →
     endpoint_authority_may_overlap e f = true → endpoints_agree e f) ∧
  ¬ (∀ e f, e ∈ policy_endpoints (two_endpoints "a.example.com" "tcp" "A.example.com" "rest") →
     f ∈ policy_endpoints (two_endpoints "a.example.com" "tcp" "A.example.com" "rest") →
     endpoint_authority_may_overlap e f = true → endpoints_agree e f).
Proof.
  split.
  - by apply (overlap_index_exact never_cancelled true); [done|vm_compute].
  - intros H. apply (overlap_index_exact never_cancelled true) in H; [|done]. by vm_compute in H.
Defined.

End ProverIndex.
