(* ===== verification/ProverAddress.v ===== *)
(** * ProverAddress: the prover's address model and the runtime's

    The prover decides containment with its own model of which destination
    addresses an endpoint admits ([containment/ip.rs]); the sandbox enforces
    another program ([proxy/destination.rs] with [net.rs]). Here the ranges of
    the two are shown equal, and the address model to be exactly what the
    runtime's validation plan authorizes. *)

From stdpp Require Import gmap.
From Stdlib Require Import ZifyBool.
From S2P Require Import Prelude Net IpParse Destination PolicyTypes PolicySchema Regex Prover ProverFacts.

Module ProverAddress.
Import PolicySchema Prover.
Local Open Scope Z_scope.

(** ** Ranges *)

Definition width (n : Network) : Z := if net_v6 n then 128 else 32.
Definition network_wf (n : Network) : Prop :=
  0 ≤ net_prefix n ≤ width n ∧ 0 ≤ net_address n < 2 ^ width n.

(** A network as an aligned block: its first address and its host bits. *)
Definition block_of (n : Network) : Z * Z :=
  let k := width n - net_prefix n in (net_address n - net_address n mod 2 ^ k, k).

Lemma land_network_mask a n :
  network_wf n → 0 ≤ a < 2 ^ width n → Z.land a (mask n) = a - a mod 2 ^ (width n - net_prefix n).
Proof.
  intros [Hp _] Ha. unfold mask. fold (width n).
  assert (0 ≤ width n ≤ 128) as Hw by (unfold width; destruct (net_v6 n); lia).
  destruct (net_prefix n =? 0) eqn:E.
  - apply Z.eqb_eq in E. rewrite E, Z.sub_0_r, Z.land_0_r, Z.mod_small by lia. lia.
  - set (k := width n - net_prefix n). apply Z.eqb_neq in E. assert (0 ≤ k < 128) as Hk by lia.
    assert (Z.shiftl u128_max k mod 2 ^ 128 = Z.shiftl (Z.ones (128 - k)) k) as ->.
    { change u128_max with (Z.ones 128). rewrite <- Z.land_ones by lia.
      apply Z.bits_inj'. intros i Hi. rewrite Z.land_spec, !Z.shiftl_spec by lia.
      rewrite !Z.testbit_ones by lia. lia. }
    rewrite land_mask by lia. assert (2 ^ width n ≤ 2 ^ 128) by (apply Z.pow_le_mono_r; lia).
    assert (0 < 2 ^ k) by (apply Z.pow_pos_nonneg; lia).
    assert (2 ^ 128 = 2 ^ (128 - k) * 2 ^ k) as E2 by (rewrite <- Z.pow_add_r by lia; f_equal; lia).
    rewrite (Z.mod_small (a / 2 ^ k)).
    + pose proof (Z.div_mod a (2 ^ k)). lia.
    + split; [apply Z.div_pos; lia|]. apply Z.div_lt_upper_bound; lia.
Qed.

Lemma aligned_eq a c k :
  0 ≤ k → (a - a mod 2 ^ k =? c - c mod 2 ^ k) = in_block a (c - c mod 2 ^ k, k).
Proof.
  intros Hk. unfold in_block. cbn [fst snd]. assert (0 < 2 ^ k) by (apply Z.pow_pos_nonneg; lia).
  pose proof (Z.div_mod a (2 ^ k)). pose proof (Z.div_mod c (2 ^ k)).
  pose proof (Z.mod_pos_bound a (2 ^ k)). pose proof (Z.mod_pos_bound c (2 ^ k)).
  apply eq_true_iff_eq. rewrite andb_true_iff, Z.eqb_eq, Z.leb_le, Z.ltb_lt.
  assert (a - a mod 2 ^ k = 2 ^ k * (a / 2 ^ k)) as -> by lia.
  assert (c - c mod 2 ^ k = 2 ^ k * (c / 2 ^ k)) as -> by lia. split.
  - intros E. lia.
  - intros [H4 H5]. f_equal. assert (2 ^ k * (c / 2 ^ k) < 2 ^ k * (a / 2 ^ k + 1)) by lia.
    assert (2 ^ k * (a / 2 ^ k) < 2 ^ k * (c / 2 ^ k + 1)) by lia.
    assert (c / 2 ^ k < a / 2 ^ k + 1) by (by apply (Z.mul_lt_mono_pos_l (2 ^ k))).
    assert (a / 2 ^ k < c / 2 ^ k + 1) by (by apply (Z.mul_lt_mono_pos_l (2 ^ k))). lia.
Qed.

Definition is_v6 (x : IpAddr) : bool := match x with V6 _ => true | V4 _ => false end.
Definition address_value (x : IpAddr) : Z := match x with V4 a | V6 a => a end.

Lemma ip_matches_block x n :
  ip_wf x → network_wf n →
  ip_matches (concrete x) n = Bool.eqb (is_v6 x) (net_v6 n) && in_block (address_value x) (block_of n).
Proof.
  intros Hx Hn. unfold ip_matches. replace (v6 (concrete x)) with (is_v6 x) by (by destruct x).
  replace (bits (concrete x)) with (address_value x) by (by destruct x).
  destruct (Bool.eqb (is_v6 x) (net_v6 n)) eqn:Hf; [|done]. apply eqb_prop in Hf. cbn [andb].
  destruct Hn as [Hp Ha]. rewrite !land_network_mask; try done.
  - apply aligned_eq. lia.
  - unfold width. rewrite <- Hf. by destruct x.
Qed.

Definition of_family (v6 : bool) (n : Network) : Prop := network_wf n ∧ net_v6 n = v6.

Lemma ranges_block x l :
  ip_wf x → Forall (of_family (is_v6 x)) l →
  ranges (concrete x) l = existsb (in_block (address_value x)) (map block_of l).
Proof.
  intros Hx. unfold ranges. induction 1 as [|n l [Hn Hf] _ IH]; [done|]. cbn [map existsb].
  by rewrite ip_matches_block, Hf, eqb_reflx, IH.
Qed.

Lemma ranges_other x l :
  ip_wf x → Forall (of_family (negb (is_v6 x))) l → ranges (concrete x) l = false.
Proof.
  intros Hx. unfold ranges. induction 1 as [|n l [Hn Hf] _ IH]; [done|]. cbn [existsb].
  rewrite ip_matches_block, Hf, IH by done. by destruct (is_v6 x).
Qed.

Lemma mapped_ranges x l : mapped_v4_ranges (concrete x) l = ranges (concrete x) (map mapped l).
Proof. unfold mapped_v4_ranges, ranges. induction l; [done|]. cbn. by f_equal. Qed.

Definition of_familyb (v6 : bool) (n : Network) : bool :=
  (0 <=? net_prefix n) && (net_prefix n <=? width n) && (0 <=? net_address n)
  && (net_address n <? 2 ^ width n) && Bool.eqb (net_v6 n) v6.
Lemma of_family_forallb v6 l : forallb (of_familyb v6) l = true → Forall (of_family v6) l.
Proof.
  induction l as [|n l IH]; [done|]. cbn. intros [H1 H2]%andb_true_iff. constructor; [|auto].
  unfold of_familyb in H1. rewrite !andb_true_iff in H1. destruct H1 as [H1 <-%eqb_prop].
  split; [|done]. unfold network_wf. lia.
Qed.

(** Two lists with the same elements. *)
Lemma existsb_same {A} `{EqDecision A} (f : A → bool) l k : same_elements l k = true → existsb f l = existsb f k.
Proof.
  unfold same_elements. rewrite andb_true_iff, !forallb_elem. intros [H1 H2].
  apply eq_true_iff_eq. rewrite !existsb_elem.
  split; intros (x & Hx & Hf); exists x; (split; [|done]); eapply bool_decide_eq_true; eauto.
Qed.

Ltac solve_ranges x Hx :=
  destruct x as [a|a];
  rewrite ?mapped_ranges;
  repeat match goal with |- context [ranges (concrete ?x) ?l] =>
    first [rewrite (ranges_block x l) by (done || by apply of_family_forallb; vm_compute)
          |rewrite (ranges_other x l) by (done || by apply of_family_forallb; vm_compute)] end;
  cbn [address_value orb andb].

Lemma hard_blocked_spec x : ip_wf x → hard_blocked (concrete x) = is_always_blocked_ip x.
Proof.
  intros Hx. unfold hard_blocked. solve_ranges x Hx.
  - rewrite !orb_false_r, blocked_v4_blocks by done. by apply existsb_same; vm_compute.
  - rewrite blocked_v6_blocks, <- existsb_app by done. by apply existsb_same; vm_compute.
Qed.

Lemma internal_spec x : ip_wf x → internal (concrete x) = is_internal_ip x.
Proof.
  intros Hx. unfold internal. rewrite hard_blocked_spec by done. solve_ranges x Hx.
  - rewrite !orb_false_r, blocked_v4_blocks, <- existsb_app by done.
    unfold is_internal_ip. rewrite internal_v4_blocks by done. by apply existsb_same; vm_compute.
  - rewrite orb_false_r, blocked_v6_blocks, internal_v6_blocks, <- !existsb_app by done.
    by apply existsb_same; vm_compute.
Qed.

Lemma link_local_v4_block a :
  v4_wf a → Ipv4Addr.is_link_local a = in_block a (ipv4 169 254 0 0, 16).
Proof.
  intros Ha. destruct (v4_octets a Ha) as (o0&o1&o2&o3&->&?&H0&H1&_&_).
  unfold Ipv4Addr.is_link_local. by rewrite H0, H1, block_16 by lia.
Qed.

Lemma link_local_spec x :
  ip_wf x →
  ranges (concrete x) LINK_LOCAL || mapped_v4_ranges (concrete x) LINK_LOCAL_V4 = is_link_local_ip x.
Proof.
  intros Hx. change LINK_LOCAL with ([range "169.254.0.0/16"] ++ [range "fe80::/10"]).
  unfold ranges at 1. rewrite existsb_app. fold (ranges (concrete x) [range "169.254.0.0/16"]).
  fold (ranges (concrete x) [range "fe80::/10"]). solve_ranges x Hx.
  - change (map block_of [range "169.254.0.0/16"]) with [(ipv4 169 254 0 0, 16)].
    cbn [existsb]. unfold is_link_local_ip. by rewrite !orb_false_r, link_local_v4_block.
  - unfold is_link_local_ip. rewrite link_local_v6_block by done.
    change (map block_of [range "fe80::/10"]) with [(ipv6 0xfe80 0 0 0 0 0 0 0, 118)].
    change (map block_of (map mapped LINK_LOCAL_V4)) with (map mapped_block [(ipv4 169 254 0 0, 16)]).
    rewrite in_mapped_blocks by (done || by repeat constructor). cbn [existsb].
    rewrite !orb_false_r. destruct (in_block a _); [done|].
    destruct (Ipv6Addr.to_ipv4_mapped a) eqn:E; [|done].
    rewrite orb_false_r, link_local_v4_block; [done|]. by eapply to_ipv4_mapped_wf.
Qed.

Lemma metadata_spec x :
  ip_wf x →
  ranges (concrete x) METADATA_V4 || mapped_v4_ranges (concrete x) METADATA_V4 = is_cloud_metadata_ip x.
Proof.
  intros Hx. solve_ranges x Hx.
  - rewrite orb_false_r. change (map block_of METADATA_V4) with [(ipv4 169 254 169 254, 0)].
    cbn [existsb]. rewrite orb_false_r, block_128. unfold is_cloud_metadata_ip.
    apply eq_true_iff_eq. rewrite Z.eqb_eq, bool_decide_eq_true. unfold CLOUD_METADATA_IPS.
    rewrite list_elem_of_singleton. split; congruence.
  - change (map block_of (map mapped METADATA_V4)) with (map mapped_block [(ipv4 169 254 169 254, 0)]).
    rewrite in_mapped_blocks by (done || by repeat constructor). unfold is_cloud_metadata_ip.
    destruct (Ipv6Addr.to_ipv4_mapped a) as [v4|]; [|done]. cbn [existsb].
    rewrite orb_false_r, block_128. apply eq_true_iff_eq. rewrite Z.eqb_eq, bool_decide_eq_true.
    unfold CLOUD_METADATA_IPS. rewrite list_elem_of_singleton. split; congruence.
Qed.

Lemma from_ip_wf x : ip_wf x → network_wf (from_ip x).
Proof. destruct x; cbn; unfold network_wf, width, v4_wf, v6_wf; cbn; lia. Qed.

Lemma ip_matches_literal x y : ip_wf x → ip_wf y → ip_matches (concrete x) (from_ip y) = true ↔ x = y.
Proof.
  intros Hx Hy. rewrite ip_matches_block by auto using from_ip_wf. rewrite andb_true_iff.
  destruct x as [a|a], y as [b|b]; cbn; rewrite ?Z.mod_1_r, ?Z.sub_0_r;
    change (ipv4 0 0 0 0) with 0; try (split; [intros [? _]; done|congruence]);
    unfold block_of; cbn; rewrite Z.mod_1_r, Z.sub_0_r, block_128, Z.eqb_eq;
    (split; [intros [_ ->]; done|intros [= ->]; done]).
Qed.

Lemma control_port_spec a : control_port a = control_plane (a_port a).
Proof. unfold control_port, control_plane, contains_byte, BLOCKED_CONTROL_PLANE_PORTS. done. Qed.

(** ** Host patterns and literals *)

(** A pattern without a star matches itself only. *)
Lemma glob_parts_literal w p s :
  42 ∉ p → lang (re_concat (glob_parts w p)) s → s = p.
Proof.
  revert s. induction p as [|c p IH]; intros s Hp; [done|].
  apply not_elem_of_cons in Hp as [Hc Hp]. cbn [glob_parts].
  replace (c =? 42) with false by lia. cbn. intros (u & v & -> & -> & Hv).
  by rewrite (IH v Hp Hv).
Qed.

(** Every other character of a pattern occurs in what it matches. *)
Lemma glob_parts_chars w p s c :
  c ∈ p → c ≠ 42 → lang (re_concat (glob_parts w p)) s → c ∈ s.
Proof.
  intros Hc Hne. revert s Hc.
  induction p as [p IH'] using (well_founded_induction (well_founded_ltof _ length)).
  unfold ltof in IH'. intros s Hc. destruct p as [|b p]; [by apply elem_of_nil in Hc|].
  cbn [glob_parts]. destruct (b =? 42) eqn:Hb.
  - assert (c ∈ p) as Hp by (apply elem_of_cons in Hc as [->|?]; [lia|done]).
    destruct p as [|d p]; [by apply elem_of_nil in Hp|].
    destruct (d =? 42) eqn:Hd; cbn; intros (u & v & -> & _ & Hv); apply elem_of_app; right.
    + apply (IH' p); [cbn; lia| |done]. apply elem_of_cons in Hp as [->|?]; [lia|done].
    + apply (IH' (d :: p)); [cbn; lia|done|done].
  - cbn. intros (u & v & -> & -> & Hv). apply elem_of_cons in Hc as [->|Hc]; [set_solver|].
    apply elem_of_app. right. apply (IH' p); [cbn; lia|done|done].
Qed.

(** What a reader takes satisfies [P]. *)
Definition takes {A} (r : IpParse.reader A) (P : Z → Prop) : Prop :=
  ∀ s v rest, r s = Some (v, rest) → ∃ u, s = u ++ rest ∧ Forall P u.

Lemma read_digits_takes radix acc k s v k' rest :
  IpParse.read_digits radix acc k s = (v, k', rest) →
  ∃ u, s = u ++ rest ∧ Forall (λ c, is_Some (IpParse.to_digit radix c)) u.
Proof.
  revert acc k. induction s as [|c s IH]; intros acc k; cbn.
  - intros [= <- <- <-]. by exists [].
  - destruct (IpParse.to_digit radix c) eqn:E.
    + intros (u & -> & Hu)%IH. exists (c :: u). split; [done|]. constructor; [by rewrite E|done].
    + intros [= <- <- <-]. by exists [].
Qed.

Lemma read_number_takes radix n m z :
  takes (IpParse.read_number radix n m z) (λ c, is_Some (IpParse.to_digit radix c)).
Proof.
  intros s v rest. unfold IpParse.read_number.
  destruct (IpParse.read_digits radix 0 0 s) as [[v' k] r] eqn:E. apply read_digits_takes in E.
  repeat case_match; intros [= <- <-]; done.
Qed.

Definition v4_char (c : Z) : Prop := is_ascii_digit c = true ∨ c = 46.

Lemma to_digit_10 c : is_Some (IpParse.to_digit 10 c) → v4_char c.
Proof. unfold IpParse.to_digit, v4_char, is_ascii_digit. intros [d Hd]. repeat case_match; simplify_eq; lia. Qed.

Lemma read_octet_takes i : takes (IpParse.read_octet i) v4_char.
Proof.
  assert (takes (IpParse.read_number 10 3 255 false) v4_char) as Hn.
  { intros s v rest (u & -> & Hu)%read_number_takes. exists u. split; [done|].
    eapply Forall_impl; [exact to_digit_10|done]. }
  unfold IpParse.read_octet, IpParse.read_separator. intros s v rest. destruct i; [apply Hn|].
  destruct s as [|b s]; [done|]. cbn. destruct (b =? 46) eqn:Hb; [|done].
  intros (u & -> & Hu)%Hn. exists (b :: u). split; [done|]. constructor; [right; lia|done].
Qed.

Lemma read_ipv4_takes : takes IpParse.read_ipv4_addr v4_char.
Proof.
  intros s v rest. unfold IpParse.read_ipv4_addr.
  destruct (IpParse.read_octet 0 s) as [[o0 s0]|] eqn:E0; [|done].
  destruct (IpParse.read_octet 1 s0) as [[o1 s1]|] eqn:E1; [|done].
  destruct (IpParse.read_octet 2 s1) as [[o2 s2]|] eqn:E2; [|done].
  destruct (IpParse.read_octet 3 s2) as [[o3 s3]|] eqn:E3; [|done]. intros [= <- <-].
  apply read_octet_takes in E0 as (u0 & -> & H0), E1 as (u1 & -> & H1), E2 as (u2 & -> & H2),
    E3 as (u3 & -> & H3).
  exists (u0 ++ u1 ++ u2 ++ u3). rewrite <- !app_assoc. split; [done|]. by rewrite !Forall_app.
Qed.

Lemma separator_needs {A} sep i (r : IpParse.reader A) s :
  sep ∉ s → IpParse.read_separator sep (S i) r s = None.
Proof.
  intros Hs. unfold IpParse.read_separator. destruct s as [|b s]; [done|]. cbn.
  apply not_elem_of_cons in Hs as [Hb _]. by replace (b =? sep) with false by lia.
Qed.

(** An IPv6 literal has a colon. *)
Lemma read_ipv6_needs_colon s : 58 ∉ s → IpParse.read_ipv6_addr s = None.
Proof.
  intros Hs. unfold IpParse.read_ipv6_addr.
  assert (∀ s, 58 ∉ s → IpParse.read_given_char 58 s = None) as Hc.
  { intros [|b t] Ht; [done|]. cbn. apply not_elem_of_cons in Ht as [Hb _].
    by replace (b =? 58) with false by lia. }
  assert (∀ i todo s, 58 ∉ s → IpParse.read_groups (S i) todo s = ([], false, s)) as Hg.
  { intros i [|[|todo]] t Ht; cbn [IpParse.read_groups]; [done|..]; by rewrite !separator_needs. }
  change (IpParse.read_groups 0 8 s) with
    (match IpParse.read_ipv4_addr s with
     | Some (v4, s') => ([Z.shiftr v4 16; Z.land v4 0xffff], true, s')
     | None => match IpParse.read_number 16 4 u16_max true s with
               | Some (g, s') => let '(gs, v4, rest) := IpParse.read_groups 1 7 s' in (g :: gs, v4, rest)
               | None => ([], false, s)
               end
     end).
  destruct (IpParse.read_ipv4_addr s) as [[v4 s']|]; [done|].
  destruct (IpParse.read_number 16 4 u16_max true s) as [[g s']|] eqn:E.
  - apply read_number_takes in E as (u & -> & _). apply not_elem_of_app in Hs as [_ Hs].
    rewrite Hg by done. cbn [length]. case_decide; [done|]. by rewrite Hc.
  - cbn [length]. case_decide; [done|]. by rewrite Hc.
Qed.

Lemma parse_ip_chars h c :
  58 ∉ h → c ∈ h → ¬ v4_char c → IpParse.parse_ip h = None.
Proof.
  intros Hcolon Hc Hv. unfold IpParse.parse_ip, IpParse.parse_with, IpParse.read_ip_addr.
  rewrite (read_ipv6_needs_colon h Hcolon).
  destruct (IpParse.read_ipv4_addr h) as [[a rest]|] eqn:E; [|done].
  apply read_ipv4_takes in E as (u & -> & Hu). destruct rest as [|b rest]; [|done].
  rewrite app_nil_r in Hc. rewrite list.Forall_forall in Hu. by destruct (Hv (Hu c Hc)).
Qed.

(** *** Requested hosts *)

Lemma split_on_covers sep s c : c ∈ s → c = sep ∨ ∃ seg, seg ∈ split_on sep s ∧ c ∈ seg.
Proof.
  induction s as [|b s IH]; intros Hc; [by apply elem_of_nil in Hc|]. cbn.
  destruct (b =? sep) eqn:Hb.
  - apply elem_of_cons in Hc as [->|Hc]; [left; lia|]. destruct (IH Hc) as [?|(seg & ? & ?)]; [auto|].
    right. exists seg. set_solver.
  - destruct (split_on sep s) as [|q qs] eqn:E; [by apply split_on_nonempty in E|].
    apply elem_of_cons in Hc as [->|Hc]; [right; exists (b :: q); set_solver|].
    destruct (IH Hc) as [?|(seg & Hs & ?)]; [auto|]. right.
    apply elem_of_cons in Hs as [->|Hs]; [exists (b :: q)|exists seg]; set_solver.
Qed.

Definition host_char (c : Z) : Prop :=
  is_ascii_lowercase c = true ∨ is_ascii_digit c = true ∨ c = 45 ∨ c = 95 ∨ c = 46.

Lemma canonical_host h :
  is_canonical_dns_host h = true → (∀ c, c ∈ h → host_char c) ∧ ∀ seg, seg ∈ split_on 46 h → seg ≠ [].
Proof.
  unfold is_canonical_dns_host. rewrite !andb_true_iff, forallb_elem. intros [_ H]. split.
  - intros c Hc. apply (split_on_covers 46) in Hc as [->|(seg & Hs & Hc)]; [by repeat right|].
    specialize (H seg Hs). rewrite !andb_true_iff, forallb_elem in H.
    destruct H as [[[_ H] _] _]. specialize (H c Hc). unfold host_char. lia.
  - intros seg Hs. specialize (H seg Hs). by destruct seg.
Qed.

Lemma canonical_normal h :
  is_canonical_dns_host h = true → normalize_host_lookup_key h = h ∧ to_ascii_lowercase h = h.
Proof.
  intros [Hc Hs]%canonical_host. split.
  - unfold normalize_host_lookup_key, strip_brackets.
    destruct (strip_prefix (lit "[") h) as [t|] eqn:E.
    { apply strip_prefix_Some in E as ->. destruct (Hc 91) as [?|[?|?]]; [set_solver|done|done|lia]. }
    destruct (strip_suffix (lit ".") h) as [t|] eqn:E2; [|done].
    apply strip_suffix_Some in E2 as ->. destruct (Hs []); [|done].
    change (lit ".") with [46]. rewrite split_on_app_any. cbn. set_solver.
  - unfold to_ascii_lowercase. rewrite <- (map_id h) at 2. apply map_ext_in.
    intros c Hin. apply list_elem_of_In, Hc in Hin. unfold host_char, is_ascii_lowercase, is_ascii_digit, ascii_lower in *.
    case_match; lia.
Qed.

Lemma canonical_alias h :
  is_canonical_dns_host h = true → is_host_gateway_alias h = str_eq_any h GATEWAY_ALIASES.
Proof.
  intros [Hn Hl]%canonical_normal. unfold is_host_gateway_alias, str_eq_any. rewrite Hn.
  unfold HOST_GATEWAY_ALIASES, GATEWAY_ALIASES, eq_ignore_ascii_case. cbn [existsb]. rewrite Hl.
  repeat f_equal; apply bool_decide_ext; (split; [by intros <-|by intros ->]).
Qed.

(** What the support check says of an endpoint's host. *)
Lemma supported_host e :
  validate_supported_endpoint e = Ok tt →
  58 ∉ host e ∧
  (contains_byte 42 (host e) = true → ∃ c, c ∈ host e ∧ c ≠ 42 ∧ ¬ v4_char c).
Proof.
  assert (∀ b, refuse_if b = Ok tt → b = false) as Hr by (by intros []).
  unfold validate_supported_endpoint, validate_supported_endpoint_extensions, validate_shared_endpoint.
  intros ([] & H1 & ([] & H2 & _)%let_Ok)%let_Ok. split.
  - do 6 apply let_Ok in H1 as ([] & _ & H1). apply Hr in H1.
    intros Hin. apply contains_byte_spec in Hin. congruence.
  - intros Hstar. apply let_Ok in H2 as ([] & _ & H2). apply let_Ok in H2 as ([] & H2 & _).
    apply Hr in H2. unfold ip_unsupported_endpoint in H2. apply orb_false_iff in H2 as [H2 _].
    rewrite Hstar in H2. cbn [andb] in H2. apply not_true_iff_false in H2.
    rewrite forallb_elem in H2.
    destruct (find (λ c, negb (is_ascii_digit c || (c =? 46) || (c =? 42))) (host e)) as [c|] eqn:Hf.
    + apply find_some in Hf as [Hc Hn]. apply list_elem_of_In in Hc. exists c. unfold v4_char.
      split; [done|]. lia.
    + destruct H2. intros c Hc. apply list_elem_of_In in Hc. apply (find_none _ _ Hf) in Hc. lia.
Qed.

(** The literal a supported endpoint's host is, and the one a host it matches is. *)
Lemma literal_agrees e a :
  validate_supported_endpoint e = Ok tt → is_canonical_dns_host (a_host a) = true →
  endpoint_matches_connection e a = true →
  IpParse.parse_ip (normalize_host_lookup_key (a_host a)) = IpParse.parse_ip (host e).
Proof.
  intros [Hcolon Hchar]%supported_host Hh Hm. destruct (canonical_host _ Hh) as [Hchars _].
  destruct (canonical_normal _ Hh) as [-> _]. apply andb_true_iff in Hm as [_ Hm].
  apply regex_matches_lang in Hm. unfold glob_regex in Hm.
  destruct (contains_byte 42 (host e)) eqn:Hstar.
  - destruct Hchar as (c & Hc & Hne & Hv4); [done|]. trans (@None IpAddr).
    + apply (parse_ip_chars _ (ascii_lower c)).
      * intros H%Hchars. unfold host_char, is_ascii_lowercase, is_ascii_digit in H. lia.
      * assert (ascii_lower c ∈ to_ascii_lowercase (host e)) as Hin
          by by apply (list_elem_of_fmap_2 ascii_lower).
        pose proof (ascii_lower_star c).
        destruct (decide (to_ascii_lowercase (host e) = lit "**")) as [E|].
        { rewrite E in Hin. cbn in Hin. set_solver. }
        rewrite decide_False in Hm by done. eapply glob_parts_chars; [exact Hin|tauto|exact Hm].
      * unfold v4_char, is_ascii_digit, ascii_lower in *.
        destruct ((65 <=? c) && (c <=? 90)) eqn:E; lia.
    + symmetry. apply (parse_ip_chars _ 42); [done|by apply contains_byte_spec|].
      unfold v4_char, is_ascii_digit. lia.
  - assert (42 ∉ to_ascii_lowercase (host e)) as Hns.
    { intros H%contains_byte_spec. rewrite contains_star_lower in H. congruence. }
    rewrite decide_False in Hm by (intros E; rewrite E in Hns; by destruct Hns; left).
    rewrite decide_False in Hm by done. apply glob_parts_literal in Hm; [|done].
    rewrite Hm. apply ProverFacts.parse_ip_lower.
Qed.

(** ** Address ranges of an endpoint *)

Lemma parse_digits_nonneg m acc s v : 0 ≤ acc → parse_digits m acc s = Some v → 0 ≤ v.
Proof.
  revert acc. induction s as [|c s IH]; intros acc Ha; cbn; [by intros [= <-]|].
  destruct (is_ascii_digit c) eqn:Hd; [|done]. case_match; [|done]. apply IH.
  unfold is_ascii_digit in Hd. lia.
Qed.

Lemma parse_uint_nonneg m s v : parse_uint m s = Some v → 0 ≤ v.
Proof.
  unfold parse_uint. intros H. repeat case_match; try done; by eapply parse_digits_nonneg, H.
Qed.

Lemma Network_parse_wf raw n : Network_parse raw = Some n → network_wf n.
Proof.
  unfold Network_parse. destruct (match split_once 47 raw with Some _ => _ | None => _ end) as [a p].
  destruct (IpParse.parse_ip a) as [x|] eqn:Hx; [|done].
  apply IpParse.parse_ip_wf, from_ip_wf in Hx. destruct p as [p|]; [|by intros [= <-]].
  destruct (parse_uint u32_max p) as [k|] eqn:Hk; [|done]. apply parse_uint_nonneg in Hk.
  case_match; [done|]. intros [= <-]. unfold network_wf, width in *. cbn. lia.
Qed.

Lemma mod_mod_pow a j k : 0 ≤ j ≤ k → (a mod 2 ^ k) mod 2 ^ j = a mod 2 ^ j.
Proof.
  intros Hjk. assert (2 ^ k = 2 ^ j * 2 ^ (k - j)) as E by (rewrite <- Z.pow_add_r by lia; f_equal; lia).
  rewrite E. symmetry. apply Znumtheory.Zmod_div_mod; [apply Z.pow_pos_nonneg; lia| |by exists (2 ^ (k - j)); lia].
  rewrite <- E. apply Z.pow_pos_nonneg; lia.
Qed.

(** Clearing [j] bits and then [k] clears the larger number. *)
Lemma clear_clear a j k :
  0 ≤ j → 0 ≤ k →
  (a - a mod 2 ^ j) - (a - a mod 2 ^ j) mod 2 ^ k = a - a mod 2 ^ Z.max j k.
Proof.
  intros Hj Hk. assert (0 < 2 ^ j) by (apply Z.pow_pos_nonneg; lia).
  assert (0 < 2 ^ k) by (apply Z.pow_pos_nonneg; lia).
  destruct (decide (j ≤ k)).
  - rewrite Z.max_r by lia. pose proof (Z.mod_pos_bound a (2 ^ k)).
    assert ((a - a mod 2 ^ j) mod 2 ^ k = a mod 2 ^ k - a mod 2 ^ j) as ->; [|lia].
    symmetry. apply (Z.mod_unique_pos _ _ (a / 2 ^ k)).
    + rewrite <- (mod_mod_pow a j k) by lia.
      pose proof (Z.mod_le (a mod 2 ^ k) (2 ^ j)). pose proof (Z.mod_pos_bound (a mod 2 ^ k) (2 ^ j)). lia.
    + pose proof (Z.div_mod a (2 ^ k)). lia.
  - rewrite Z.max_l by lia. assert ((a - a mod 2 ^ j) mod 2 ^ k = 0) as ->; [|lia].
    rewrite <- (mod_mod_pow (a - a mod 2 ^ j) k j) by lia.
    rewrite Zminus_mod_idemp_r, Z.sub_diag. by rewrite !Zmod_0_l.
Qed.

Lemma overlaps_block n m :
  network_wf n → network_wf m → net_v6 n = net_v6 m →
  overlaps n m = true ↔
  ∃ a, in_block a (block_of n) = true ∧ in_block a (block_of m) = true.
Proof.
  intros Hn Hm Hf. pose proof Hn as [Hpn Han]. pose proof Hm as [Hpm Ham].
  assert (width m = width n) as Hw by (unfold width; by rewrite Hf).
  unfold overlaps. rewrite Hf, eqb_reflx. cbn [andb]. rewrite Z.eqb_eq.
  set (j := width n - net_prefix n). set (k := width m - net_prefix m).
  assert (0 ≤ j ∧ 0 ≤ k) as [Hj Hk] by lia.
  assert (∀ c, 0 ≤ c < 2 ^ width n →
    Z.land (Z.land c (mask n)) (mask m) = c - c mod 2 ^ Z.max j k) as Hland.
  { intros c Hc. rewrite (land_network_mask c n) by done.
    assert (0 < 2 ^ j) by (apply Z.pow_pos_nonneg; lia).
    pose proof (Z.mod_pos_bound c (2 ^ j)). pose proof (Z.mod_le c (2 ^ j)).
    rewrite land_network_mask; [|done|fold j; rewrite Hw; lia]. by apply clear_clear. }
  rewrite Hland, Hland by (done || by rewrite <- Hw). unfold block_of. fold j k.
  generalize (net_address n) (net_address m). clear - Hj Hk. intros a b.
  assert (∀ c i, 0 ≤ i → 0 ≤ c mod 2 ^ i < 2 ^ i) as Hb
    by (intros; apply Z.mod_pos_bound, Z.pow_pos_nonneg; lia).
  assert (∀ c i, 0 ≤ i → in_block c (c - c mod 2 ^ i, i) = true) as Hself.
  { intros c i Hi. unfold in_block. cbn [fst snd]. specialize (Hb c i Hi). lia. }
  rewrite <- Z.eqb_eq, aligned_eq by lia. destruct (decide (j ≤ k)) as [Hjk|Hjk].
  - rewrite Z.max_r by lia. split; [intros H; exists a; auto|]. intros (c & H1 & H2).
    rewrite <- aligned_eq, Z.eqb_eq in * by lia.
    pose proof (clear_clear a j k Hj Hk) as E1. pose proof (clear_clear c j k Hj Hk) as E2.
    rewrite Z.max_r in E1, E2 by lia. rewrite <- E1, <- H1, E2. done.
  - rewrite Z.max_l by lia. rewrite <- aligned_eq by lia. rewrite Z.eqb_eq.
    split; [intros H; exists b; rewrite <- !aligned_eq, !Z.eqb_eq by lia; auto|]. intros (c & H1 & H2).
    rewrite <- aligned_eq, Z.eqb_eq in * by lia.
    pose proof (clear_clear b k j Hk Hj) as E1. pose proof (clear_clear c k j Hk Hj) as E2.
    rewrite Z.max_r in E1, E2 by lia. rewrite <- E1, <- H2, E2. done.
Qed.

(** A number without sign and without leading zeros. *)
Definition plain_decimal (digits : bytes) : bool :=
  forallb is_ascii_digit digits
  && match digits with [] => false | [_] => true | d :: _ => negb (d =? 48) end.
(** An address range whose prefix length, if any, is so written. *)
Definition plain_range (raw : bytes) : bool :=
  match split_once 47 raw with Some (_, digits) => plain_decimal digits | None => true end.

Section refinement.
Context {N4 N6 : Type} {net4 : CidrNet 32 N4} {net6 : CidrNet 128 N6} {text : IpNetText N4 N6}.

(** The same network in the [ipnet] crate. *)
Definition net_of (n : Network) : IpNet N4 N6 :=
  if net_v6 n then NetV6 (new_assert (net_address n) (net_prefix n))
  else NetV4 (new_assert (net_address n) (net_prefix n)).

(** What [ipnet] documents of its text form: an address as the standard library
    reads it, a slash, and a prefix length in plain decimal digits within the
    family's width is that network; a text without a slash is none. *)
Class IpNetGrammar : Prop := {
  ipnet_prefixed address ip digits p :
    47 ∉ address → IpParse.parse_ip address = Some ip → plain_decimal digits = true →
    parse_uint u32_max digits = Some p → p ≤ net_prefix (from_ip ip) →
    ipnet_parse (address ++ 47 :: digits)
    = Some (net_of (network_of (net_address (from_ip ip)) p (net_v6 (from_ip ip))));
  ipnet_unprefixed raw : 47 ∉ raw → ipnet_parse raw = None;
}.
Context {grammar : IpNetGrammar}.

Lemma contains_block {w N} `{!CidrNet w N} c p a :
  0 ≤ p ≤ w → 0 ≤ c < 2 ^ w →
  contains (new_assert c p : N) a = in_block a (c - c mod 2 ^ (w - p), w - p).
Proof.
  intros Hp Hc. rewrite contains_range, broadcast_network, new_assert_prefix_len,
    new_assert_network by done. unfold in_block. cbn [fst snd]. lia.
Qed.

Lemma net_of_contains n x :
  network_wf n → ip_wf x → net_contains (net_of n) x = ip_matches (concrete x) n.
Proof.
  intros Hn Hx. rewrite ip_matches_block by done. destruct Hn as [Hp Ha].
  unfold net_of, block_of, width in *. destruct (net_v6 n), x; cbn; try done; by apply contains_block.
Qed.

Lemma overlaps_blocks {w N} `{!CidrNet w N} n l bs :
  network_wf n → width n = w → Forall (of_family (net_v6 n)) l →
  Forall (λ b, 0 ≤ b.2) bs → same_elements bs (map block_of l) = true →
  existsb (net_overlaps (new_assert (net_address n) (net_prefix n) : N)) bs = true →
  existsb (overlaps n) l = true.
Proof.
  intros Hn Hw Hl Hb Hs Ho. apply existsb_overlaps in Ho as (a & H1 & H2); [|done].
  rewrite (existsb_same _ _ _ Hs) in H2. apply existsb_exists in H2 as (b & Hin & H2).
  apply in_map_iff in Hin as (m & <- & Hm). apply existsb_exists. exists m. split; [done|].
  rewrite List.Forall_forall in Hl. destruct (Hl m Hm) as [Hwf Hfam].
  apply overlaps_block; [done..|]. exists a. split; [|done].
  destruct Hn as [Hp Ha]. subst w. by rewrite contains_block in H1.
Qed.

(** A network the prover supports holds no always-blocked address. *)
Lemma supported_network n :
  network_wf n →
  existsb (overlaps n) (HARD_V4 ++ HARD_V6 ++ (mapped <$> HARD_V4)) = false →
  is_always_blocked_net (net_of n) = false.
Proof.
  intros Hn. rewrite existsb_app, orb_false_iff. intros [H4 H6].
  apply not_true_iff_false. unfold net_of. destruct (net_v6 n) eqn:Hv.
  - rewrite blocked_net_v6_blocks. intros Hb. apply not_true_iff_false in H6. apply H6.
    apply (overlaps_blocks (N := N6) n _ hard_v6_blocks); try done; [unfold width; by rewrite Hv| |by repeat constructor].
    rewrite Hv. by apply of_family_forallb; vm_compute.
  - rewrite blocked_net_v4_blocks. intros Hb. apply not_true_iff_false in H4. apply H4.
    apply (overlaps_blocks (N := N4) n _ hard_v4_blocks); try done; [unfold width; by rewrite Hv| |by repeat constructor].
    rewrite Hv. by apply of_family_forallb; vm_compute.
Qed.

Lemma supported_entry e raw :
  validate_supported_endpoint e = Ok tt → raw ∈ allowed_ips e →
  ∃ n, Network_parse raw = Some n ∧ is_always_blocked_net (net_of n) = false.
Proof.
  assert (∀ b, refuse_if b = Ok tt → b = false) as Hr by (by intros []).
  unfold validate_supported_endpoint, validate_supported_endpoint_extensions.
  intros ([] & _ & ([] & ([] & _ & ([] & H & _)%let_Ok)%let_Ok & _)%let_Ok)%let_Ok Hin.
  apply Hr in H. unfold ip_unsupported_endpoint in H. apply orb_false_iff in H as [_ H].
  apply not_true_iff_false in H. destruct (Network_parse raw) as [n|] eqn:Hn.
  - exists n. split; [done|]. apply supported_network; [by eapply Network_parse_wf|].
    apply not_true_iff_false. intros Ho. apply H, existsb_elem. exists raw. by rewrite Hn.
  - destruct H. apply existsb_elem. exists raw. by rewrite Hn.
Qed.

Lemma entry_parsed raw n :
  plain_range raw = true → Network_parse raw = Some n →
  match ipnet_parse raw with Some m => Some m | None => net_from <$> IpParse.parse_ip raw end
  = Some (net_of n).
Proof using grammar.
  unfold plain_range, Network_parse. destruct (split_once 47 raw) as [[a p]|] eqn:Hs.
  - apply split_once_Some in Hs as [-> Hn]. intros Hp.
    destruct (IpParse.parse_ip a) as [ip|] eqn:Ha; [|done].
    destruct (parse_uint u32_max p) as [k|] eqn:Hk; [|done].
    destruct (_ <? k) eqn:Hl; [done|]. intros [= <-].
    by rewrite (ipnet_prefixed a ip p k Hn Ha Hp Hk) by lia.
  - intros _. rewrite ipnet_unprefixed by (by apply split_once_None).
    destruct (IpParse.parse_ip raw) as [x|]; [|done]. intros [= <-]. by destruct x.
Qed.

(** The ranges of a supported endpoint, read by either program. *)
Lemma supported_ranges e :
  validate_supported_endpoint e = Ok tt → Forall (λ raw, plain_range raw = true) (allowed_ips e) →
  ∃ ns, mapM Network_parse (allowed_ips e) = Some ns ∧ Forall network_wf ns ∧
    parse_allowed_ips (allowed_ips e) = Ok (net_of <$> ns).
Proof.
  intros Hv Hr. pose proof (supported_entry e) as He. unfold parse_allowed_ips.
  assert (∀ raw acc, raw ⊆ allowed_ips e → Forall (λ raw, plain_range raw = true) raw →
    ∃ ns, mapM Network_parse raw = Some ns ∧ Forall network_wf ns ∧
    fold_left (λ '(nets, errors) entry,
      match match ipnet_parse entry with Some n => Some n | None => net_from <$> IpParse.parse_ip entry end with
      | Some n => if is_always_blocked_net n then (nets, errors ++ [(entry, true)]) else (nets ++ [n], errors)
      | None => (nets, errors ++ [(entry, false)])
      end) raw (acc, []) = (acc ++ (net_of <$> ns), [])) as Hf.
  { induction raw as [|r raw IH]; intros acc Hsub Hra.
    - exists []. by rewrite app_nil_r.
    - apply Forall_cons_iff in Hra as [Hra Hraw]. destruct (He r Hv) as (n & Hn & Hb); [set_solver|].
      destruct (IH (acc ++ [net_of n])) as (ns & H1 & H2 & H3); [set_solver|done|].
      exists (n :: ns). cbn [mapM fold_left]. rewrite Hn, (entry_parsed r n Hra Hn), Hb, H3.
      cbn. rewrite H1, <- app_assoc. split_and!; [done| |done].
      constructor; [by eapply Network_parse_wf|done]. }
  destruct (Hf (allowed_ips e) []) as (ns & H1 & H2 & H3); [done|done|]. exists ns.
  cbn zeta. rewrite H3. by rewrite decide_True.
Qed.

Lemma ranges_match x raws ns :
  ip_wf x → mapM Network_parse raws = Some ns → Forall network_wf ns →
  existsb (λ raw, match Network_parse raw with
                  | Some n => ip_matches (concrete x) n | None => false end) raws = true
  ↔ ∃ m, In m (net_of <$> ns) ∧ net_contains m x = true.
Proof.
  intros Hx. revert ns. induction raws as [|r raws IH]; intros ns.
  - intros [= <-] _. cbn. split; [done|]. by intros (? & [] & _).
  - cbn [mapM]. destruct (Network_parse r) as [n|] eqn:Hn; [|done]. cbn.
    destruct (mapM Network_parse raws) as [ns'|]; [|done]. cbn. intros [= <-] [Hw Hws]%Forall_cons_iff.
    rewrite Hn, orb_true_iff, (IH ns') by done. rewrite <- (net_of_contains n x) by done. cbn.
    naive_solver.
Qed.

(** A trusted gateway, as [detect_trusted_host_gateway] accepts it. *)
Definition acceptable_gateway (g : IpAddr) : Prop :=
  is_link_local_ip g = true ∧ is_cloud_metadata_ip g = false.

(** The runtime lets a connection to host [h] reach [x], with the plan built for
    the matched endpoint; a literal host resolves to itself. *)
Definition runtime_admits (e : NetworkEndpoint) (h : bytes) (port : Z) (tgw : option IpAddr)
    (x : IpAddr) : Prop :=
  ∃ pl, build_validation_plan h h None tgw (allowed_ips e) (negb (contains_byte 42 (host e))) = Ok pl ∧
    authorized (address_authorization (N4 := N4) (N6 := N6) pl) port x ∧
    ∀ addrs, resolve_ip_literal h port = Some addrs → socket x port ∈ addrs.

(** The literal clause of both sides. *)
Definition literal_ok (lit : option IpAddr) (x : IpAddr) : Prop := ∀ y, lit = Some y → x = y.

Lemma resolve_literal_ok h port x :
  (∀ addrs, resolve_ip_literal h port = Some addrs → socket x port ∈ addrs)
  ↔ literal_ok (IpParse.parse_ip (normalize_host_lookup_key h)) x.
Proof.
  unfold resolve_ip_literal, literal_ok. destruct (IpParse.parse_ip _) as [y|]; cbn.
  - split.
    + intros H z [= <-]. specialize (H _ eq_refl). apply list_elem_of_singleton in H. by injection H.
    + intros H addrs [= <-]. apply list_elem_of_singleton. by rewrite (H y).
  - split; [by intros _ y|by intros _ addrs].
Qed.

Lemma matches_literal_ok s x :
  ip_wf x →
  match IpParse.parse_ip s with None => true | Some y => ip_matches (concrete x) (from_ip y) end = true
  ↔ literal_ok (IpParse.parse_ip s) x.
Proof.
  intros Hx. unfold literal_ok. destruct (IpParse.parse_ip s) as [y|] eqn:E; [|done].
  rewrite ip_matches_literal by (done || by eapply IpParse.parse_ip_wf). naive_solver.
Qed.

Context {z3 : Z3}.
Section endpoint.
Variables (e : NetworkEndpoint) (a : action) (x : IpAddr).
Hypothesis Hsup : validate_supported_endpoint e = Ok tt.
Hypothesis Hread : Forall (λ raw, plain_range raw = true) (allowed_ips e).
Hypothesis Hhost : is_canonical_dns_host (a_host a) = true.
Hypothesis Hmatch : endpoint_matches_connection e a = true.
Hypothesis Hx : ip_wf x.
Hypothesis Hip : a_ip a = concrete x.

Lemma plan_without_gateway tgw raw exact :
  is_host_gateway_alias (a_host a) = false ∨ tgw = None →
  build_validation_plan (N4 := N4) (N6 := N6) (a_host a) (a_host a) None tgw raw exact
  = build_validation_plan (a_host a) (a_host a) None None raw exact.
Proof.
  unfold build_validation_plan. intros [-> | ->]; [|done]. by destruct tgw.
Qed.

(** The plan outside the gateway aliases authorizes what the prover models. *)
Lemma ordinary_plan :
  ∃ auth, build_validation_plan (N4 := N4) (N6 := N6) (a_host a) (a_host a) None None (allowed_ips e)
            (negb (contains_byte 42 (host e))) = Ok (plan auth) ∧
    (literal_ok (IpParse.parse_ip (host e)) x →
     (authorized auth (a_port a) x ↔ ordinary_address e a = true)).
Proof using grammar Hsup Hread Hhost Hmatch Hx Hip.
  destruct (supported_ranges e Hsup Hread) as (ns & Hns & Hwf & Hnets).
  pose proof (matches_literal_ok (host e) x Hx) as Hlit.
  unfold build_validation_plan, ordinary_address.
  rewrite Hip, control_port_spec, hard_blocked_spec, internal_spec by done.
  destruct (decide (allowed_ips e ≠ [])) as [Hne|Hem%dec_stable].
  - rewrite Hnets. exists (ExplicitAllowedIps (net_of <$> ns)).
    split; [by destruct (is_host_gateway_alias (a_host a))|]. intros _. cbn [authorized].
    destruct (is_empty (allowed_ips e)) eqn:Hemp; [by apply is_empty_true in Hemp|].
    rewrite !andb_true_iff, !negb_true_iff, (ranges_match x _ ns) by done. tauto.
  - unfold implicit_allowed_ips_for_ip_host.
    rewrite (literal_agrees e a Hsup Hhost Hmatch), Hem. cbn [is_empty].
    destruct (IpParse.parse_ip (host e)) as [y|] eqn:Hy.
    + destruct (is_always_blocked_ip y) eqn:Hby.
      * eexists. split; [by destruct (is_host_gateway_alias (a_host a))|]. intros Hok.
        rewrite (Hok y eq_refl), Hby, !andb_true_iff, negb_true_iff.
        split; [|intros [[_ ?] _]; congruence].
        destruct (contains_byte 42 (host e)); cbn; [|intros [_ ?]; congruence].
        rewrite (always_blocked_is_internal y); [done| |done]. by eapply IpParse.parse_ip_wf.
      * exists (ImplicitIpLiteral y). split.
        { cbn [head mbind option_bind]. rewrite (literal_agrees e a Hsup Hhost Hmatch), Hy.
          by destruct (is_host_gateway_alias (a_host a)). }
        intros Hok. cbn [authorized]. rewrite !andb_true_iff, !negb_true_iff, Hlit.
        pose proof (Hok y eq_refl). tauto.
    + eexists. split; [by destruct (is_host_gateway_alias (a_host a))|]. intros _.
      destruct (contains_byte 42 (host e)); cbn; rewrite ?andb_true_iff, !negb_true_iff; tauto.
Qed.

Lemma gateway_alias_no_literal :
  is_host_gateway_alias (a_host a) = true → IpParse.parse_ip (host e) = None ∧ can_match_gateway e = true.
Proof using Hsup Hhost Hmatch.
  rewrite canonical_alias by done. unfold str_eq_any. intros (al & Hal & Heq)%existsb_elem.
  apply bool_decide_eq_true in Heq. split.
  - rewrite <- (literal_agrees e a Hsup Hhost Hmatch), Heq. clear - Hal.
    unfold GATEWAY_ALIASES in Hal. rewrite !elem_of_cons, elem_of_nil in Hal.
    by destruct Hal as [-> |[-> |[-> |[]]]].
  - apply existsb_elem. exists al. split; [done|]. apply negb_true_iff, bool_decide_eq_false.
    intros Hs. apply andb_true_iff in Hmatch as [_ Hm].
    apply simplify_sound with (a := a) in Hs; [|done]. congruence.
Qed.

Lemma ordinary_admits tgw :
  is_host_gateway_alias (a_host a) = false ∨ tgw = None →
  runtime_admits e (a_host a) (a_port a) tgw x ↔
  ordinary_address e a = true ∧ literal_ok (IpParse.parse_ip (host e)) x.
Proof using grammar Hsup Hread Hhost Hmatch Hx Hip.
  intros Hng. destruct ordinary_plan as (auth & Hplan & Hauth). unfold runtime_admits.
  rewrite plan_without_gateway, Hplan by done.
  setoid_rewrite resolve_literal_ok. rewrite (literal_agrees e a Hsup Hhost Hmatch). split.
  - intros (pl & [= <-] & H1 & H2). by rewrite <- Hauth.
  - intros [H1 H2]. exists (plan auth). by rewrite <- Hauth in H1.
Qed.

Lemma gateway_admits g :
  is_host_gateway_alias (a_host a) = true →
  runtime_admits e (a_host a) (a_port a) (Some g) x ↔ gateway_address a = true ∧ x = g.
Proof using z3 Hsup Hhost Hmatch Hx Hip.
  intros Hal. destruct (gateway_alias_no_literal Hal) as [Hlit _].
  unfold runtime_admits, build_validation_plan, gateway_address. rewrite Hal, Hip.
  rewrite link_local_spec, control_port_spec by done.
  rewrite <- !andb_assoc, (andb_assoc (negb _)), <- negb_orb, metadata_spec by done.
  setoid_rewrite resolve_literal_ok. rewrite (literal_agrees e a Hsup Hhost Hmatch), Hlit.
  rewrite !andb_true_iff, !negb_true_iff. split.
  - intros (pl & [= <-] & (H1 & H2 & H3 & H4) & _). auto.
  - intros [(H1 & H2 & H3) ->]. eexists. split_and!; [reflexivity|by cbn|by intros y].
Qed.
End endpoint.

(** C29: the prover's address model is exact on plainly written ranges. For an
    endpoint the prover supports whose address ranges give their prefix length,
    if any, in decimal digits without sign and leading zeros, and for a
    canonical host the endpoint matches, a well-formed address satisfies the
    model if and only if some trusted gateway the supervisor could have
    detected (none when the action has none) makes the runtime's validation
    plan for that endpoint authorize it, on a sandbox without a configured
    backend gateway: the ranges, the hard-blocked and internal classes, the
    control-plane ports, literal hosts and gateway aliases of the two programs
    agree. *)
Theorem address_model_exact (e : NetworkEndpoint) (a : action) (x : IpAddr) :
  validate_supported_endpoint e = Ok tt →
  Forall (λ raw, plain_range raw = true) (allowed_ips e) →
  is_canonical_dns_host (a_host a) = true → endpoint_matches_connection e a = true →
  ip_wf x → a_ip a = concrete x →
  endpoint_address e a = true ↔
  ∃ tgw, (a_trusted_gateway a = true ↔ is_Some tgw) ∧ (∀ g, tgw = Some g → acceptable_gateway g) ∧
    runtime_admits e (a_host a) (a_port a) tgw x.
Proof.
  intros Hsup Hread Hhost Hmatch Hx Hip. unfold endpoint_address.
  rewrite <- canonical_alias, andb_true_iff, Hip, matches_literal_ok by done.
  destruct (is_host_gateway_alias (a_host a) && a_trusted_gateway a) eqn:Htr.
  - apply andb_true_iff in Htr as [Hal Htg].
    destruct (gateway_alias_no_literal e a Hsup Hhost Hmatch Hal) as [Hlit ->].
    rewrite Htg, Hlit. split.
    + intros [Hg _]. exists (Some x). split_and!; [by split|intros g [= <-]|by apply gateway_admits].
      unfold gateway_address in Hg. rewrite Hip, link_local_spec in Hg by done.
      rewrite <- !andb_assoc, (andb_assoc (negb _)), <- negb_orb, metadata_spec in Hg by done.
      rewrite !andb_true_iff, negb_true_iff in Hg. by destruct Hg as (? & ? & _).
    + intros ([g|] & Hs & _ & Hr); [|by destruct Hs as [[] _]].
      apply gateway_admits in Hr as [? _]; [by split|done..].
  - replace (if can_match_gateway e then ordinary_address e a else ordinary_address e a)
      with (ordinary_address e a) by (by destruct (can_match_gateway e)).
    assert (∀ tgw : option IpAddr, (a_trusted_gateway a = true ↔ is_Some tgw) →
      is_host_gateway_alias (a_host a) = false ∨ tgw = None) as Hng.
    { intros tgw Ht. destruct (is_host_gateway_alias _); [right|by left]. cbn in Htr.
      destruct tgw; [|done]. destruct Ht as [_ Ht]. rewrite Htr in Ht. by discriminate Ht. }
    split.
    + intros H. exists (if a_trusted_gateway a then Some (V4 (ipv4 169 254 1 1)) else None).
      assert (a_trusted_gateway a = true ↔
        is_Some (if a_trusted_gateway a then Some (V4 (ipv4 169 254 1 1)) else None)) as Ht
        by (destruct (a_trusted_gateway a); (split; [done|]); [done|by intros [? ?]]).
      split_and!; [done| |by apply ordinary_admits; [..|apply Hng|]].
      intros g. case_match; intros [= <-]. by vm_compute.
    + intros (tgw & Ht & _ & Hr). apply ordinary_admits in Hr; [done..|by apply Hng].
Qed.
End refinement.

Definition ranged_endpoint : NetworkEndpoint :=
  network_endpoint (lit "*.Corp.example") [] 443 [] (lit "tcp") [] [] [] []
    [lit "10.0.0.0/8"; lit "192.168.1.7"] [] false false false false [] [] 0 [] [] [] None None None.
Definition ranged_action : action :=
  Action [] [] (lit "db.corp.example") 443 LAYER_L4 (lit "GET") (lit "/")
    (concrete (V4 (ipv4 10 1 2 3))) false.

#[local] Instance example_grammar : IpNetGrammar (text := example_text).
Proof.
  split.
  - intros address ip digits p Hn Ha Hd Hp Hl. cbn [ipnet_parse example_text].
    unfold example_ipnet_parse. rewrite split_once_app by done.
    apply andb_true_iff in Hd as [-> _]. rewrite Ha, Hp.
    destruct ip; cbn in *; by rewrite (proj2 (Z.leb_le _ _) Hl).
  - intros raw Hr. cbn [ipnet_parse example_text]. unfold example_ipnet_parse.
    by rewrite (proj2 (split_once_None 47 raw) Hr).
Qed.

Lemma address_model_exact_witness :
  ∃ tgw, (false = true ↔ is_Some tgw) ∧ (∀ g, tgw = Some g → acceptable_gateway g) ∧
    runtime_admits (text := example_text) ranged_endpoint (lit "db.corp.example") 443 tgw
      (V4 (ipv4 10 1 2 3)).
Proof.
  apply (address_model_exact (text := example_text) (grammar := example_grammar) (z3 := ProverFacts.evaluating_z3) ranged_endpoint
    ranged_action (V4 (ipv4 10 1 2 3))); [by vm_compute| |by vm_compute..].
  constructor; [by vm_compute|]. constructor; [by vm_compute|constructor].
Defined.

(** The proviso on ranges matters: the prover reads a prefix length with
    [u32::parse], which takes a sign, and supports an endpoint whose range a
    reader of digits refuses, so that no plan is built for it at runtime. *)
Definition signed_endpoint : NetworkEndpoint :=
  network_endpoint (lit "db.corp.example") [] 443 [] (lit "tcp") [] [] [] []
    [lit "10.0.0.0/+8"] [] false false false false [] [] 0 [] [] [] None None None.
Lemma signed_prefix_reads_apart :
  validate_supported_endpoint signed_endpoint = Ok tt
  ∧ endpoint_address (z3 := ProverFacts.evaluating_z3) signed_endpoint ranged_action = true
  ∧ ∀ pl, build_validation_plan (text := example_text) (lit "db.corp.example")
            (lit "db.corp.example") None None (allowed_ips signed_endpoint) true ≠ Ok pl.
Proof. split; [by vm_compute|]. split; [by vm_compute|]. intros pl. by vm_compute. Qed.

(** The prover takes a REST rule without a path for any path. *)
Lemma rule_without_path_matches :
  method_and_path_match (lit "GET") [] ranged_action = true.
Proof. by vm_compute. Qed.

End ProverAddress.
